(* ===== verification/_CoqProject ===== *)
-Q . S2P
Prelude.v
Hex.v
Text.v
Utf8.v
Ids.v
RecordCodec.v
ToyCrypto.v
RecordProps.v
RecordStore.v
Persist.v
Outcome.v
Announcer.v
Directory.v
FanOut.v
Lan.v
SockAddr.v
NodeRecord.v
StateDir.v
Authority.v
PinnedHttp.v
Publisher.v
PublisherProps.v
Publication.v
NodeLookup.v
ToyNode.v
NodeRuns.v
LookupRuns.v
Dials.v
Resolve.v
Ledgers.v
NixBase32.v
Claim.v
ClaimRuns.v
Availability.v
AvailabilityProps.v
AvailabilityWork.v
AvailabilityRuns.v
Rewrite.v
Catalog.v
PublicProof.v
Allowlist.v
Http.v
Server.v
Upstream.v
NarinfoCache.v
Supervisor.v
ZstdCodec.v
NarV4.v
