(* ===== verification/Prelude.v ===== *)
(** * nix-p2p: a verification library

    nix-p2p lets Nix machines fetch store paths (NARs) from each other.  A
    node publishes signed provider records ("I hold content K, reach me so")
    into a libp2p DHT; another node looks K up, verifies what it finds, keeps
    an anti-rollback floor so that old records cannot come back, dials a
    provider over an authorized route and fetches.  Several discovery
    mechanisms are consulted under one plan and one deadline, and ledgers
    bound the work and the upload a peer can cause.  Towards Nix each node is an
    HTTP substituter: its daemon relays the narinfos of an upstream cache,
    rewriting only unsigned transport fields, remembers which NAR each URL token
    stands for, and learns which NARs are provably public and may be announced.
    A node of the iroh fabric also publishes where it can be reached: a signed
    node record, kept in a crash-safe state directory and put to one pinned
    authority over HTTP, from which another node reads it.

    ** The parts and the files that model them

    Foundations.  Prelude.v (this file): results, byte arrays, machine
    integers, big-endian codecs, tactics and the hint database [fabric].
    Hex.v: peer-fabric/src/hexfmt.rs and the hex helpers of
    fabric-libp2p/src/persist.rs.  Text.v and Utf8.v: the Rust string operations the
    text formats use, and UTF-8 validation, lossy decoding and trimming.

    Records.  Ids.v: peer-fabric/src/ids.rs and the types of content.rs.
    RecordCodec.v: peer-fabric/src/record_codec.rs, one definition per
    function (encode, sign, verify, read, decode).  RecordProps.v: what the
    codec promises.  ToyCrypto.v: a computable signature scheme for the
    witnesses; it models no code.  RecordStore.v:
    peer-fabric/src/record_store.rs, the per-(key, provider) state machine.

    Publishing.  Announcer.v: fabric-libp2p/src/announcer.rs (the durable
    sequence floor, announce, withdraw), peer-fabric/src/eligibility.rs and the
    DHT keys of fabric-libp2p/src/keys.rs.

    The directory.  Persist.v: fabric-libp2p/src/persist.rs, the floor and
    sequence files.  Outcome.v: peer-fabric/src/outcome.rs, exposure.rs and
    the discovery budget.  Directory.v: fabric-libp2p/src/directory.rs and
    floor_store.rs, from a fetched byte string to a Lookup.

    The swarm worker, fabric-libp2p/src/swarm.rs.  FanOut.v: the bounded,
    salted choice of providers and the mDNS admission window.  Lan.v: LAN
    address classes and gates (also lan.rs and the listen grammar of
    daemon-libp2p/src/lib.rs).  Dials.v: exact dials, the live-route ledger
    and the LAN serve ledger, as a step relation over the worker's handlers.

    Resolution.  Resolve.v: peer-fabric/src/resolve.rs and the directory
    seam of capabilities.rs: per-key outcomes, request binding, the plan
    executor.

    Resource bounds.  Ledgers.v: daemon-core/src/window.rs, derive_ledger.rs
    and upload_ledger.rs over the budgets of peer-fabric/src/budget.rs.

    The daemon, daemon-core/src.  NixBase32.v: nixbase32.rs and the NAR hash
    keys of claim.rs.  Claim.v: the rest of claim.rs, the claims and hold
    queries peers exchange (ClaimRuns.v: concrete JSON for its witnesses; it
    models no code).  Availability.v: availability.rs and supply_catalog.rs, the
    index of what the node holds, with queries, registrations and removals as
    interleaved actions; AvailabilityProps.v and AvailabilityWork.v: its
    invariant and theorems, on top of the claims and the derive ledger
    (AvailabilityRuns.v: concrete runs; it models no code).  Rewrite.v: rewrite.rs, the narinfo rewriter.  Catalog.v:
    catalog.rs, the correlation of URL tokens with NARs, and the key types of
    source.rs.  PublicProof.v and Allowlist.v: public_allowlist.rs, the proof
    that a NAR is public, the allowlist and its authenticated file.  Http.v:
    header policy, framing checks and the accounting body of server.rs and
    source.rs.  Server.v: the request handler of server.rs, composing all of
    these.  Upstream.v: upstream.rs, the HTTP client with its deadlines and its
    bounded body.  NarinfoCache.v: narinfo_cache.rs, the on-disk cache between
    server and upstream.

    Transfer.  ZstdCodec.v: peer-fabric/src/codec.rs, codec negotiation and the
    bounded coders around zstd.  NarV4.v: fabric-libp2p/src/nar_v4.rs, the
    verified body of a NAR transfer, its sender, receiver and byte accounting.

    Node publication, fabric-iroh/src.  SockAddr.v: the text forms and order of
    the standard library's socket addresses.  NodeRecord.v: iroh_node_record.rs,
    the signed record of a node's locations.  StateDir.v: the state store that
    iroh_publication.rs and iroh_publication_authority.rs share in shape: a
    state file and its rollback anchor, over a directory with failing calls and
    crashes.  Authority.v: iroh_publication_authority.rs, the authority's state,
    its request handler, the abstract register of one signer, and the
    authority's life as a step relation.  PinnedHttp.v: pinned_http.rs and the
    wire half of the authority.  Publisher.v: iroh_publication.rs, the publisher
    as a state monad over its store and the network, and its life as a step
    relation; PublisherProps.v: its invariant and theorems.  Publication.v: the
    publisher against the register ([RegisterLink]), and the authority behind
    the HTTP client as an instance of it.  NodeLookup.v: iroh_node_lookup.rs, the
    reader of such records with its replay table, concurrent lookups as a step
    relation, composed with the publisher and the authority.  ToyNode.v,
    NodeRuns.v and LookupRuns.v: computable crates and concrete runs for the
    witnesses; they model no code.

    Tasks.  Supervisor.v: proc-supervisor/src/task_supervisor.rs, as a step
    relation over callers, the registry manager and the tasks.

    ** How the code is rendered

    Pure functions are Rocq functions.  A method that changes its object
    returns the new object.  Fallible code returns [result]; a panic is [None]
    of an outer [option].  A HashMap is a [gmap], a HashSet a [gset], a
    BTreeSet a strictly sorted list or a [gset] read in order.  u64 and u32 are [Z] with the checked,
    saturating or wrapping operation the source uses.  Strings are their UTF-8
    bytes.  Durations are nanoseconds and instants are numbers: a clock
    reading is an argument, so each theorem holds for every clock unless it
    says otherwise.  Arrays of n bytes carry their length.

    Code outside the repository is a parameter.  ed25519 is the class
    [Ed25519] with the laws [Ed25519Laws]: a signing key's public key is a
    valid key, and its signatures have a canonical scalar and verify under it.
    The derivation of a peer id from a key, libp2p's view of an endpoint and
    the order of peer ids are uninterpreted functions, the last with the laws
    of a strict total order.
    Base64 and BLAKE3 are functions.  libzstd and bao-tree are classes with the
    laws their interfaces document (ZstdCodec.v, NarV4.v); toy instances of
    these laws serve the witnesses and model no code.  So are pkarr, simple-dns,
    url and serde_json (NodeRecord.v, Prelude.v, Claim.v); a JSON text is only trusted to
    give back values whose text keeps all of them.  Network answers, mechanism replies and
    what the operating system answers to each file operation are arguments.

    ** What the theorems show

    - Wire codec: the decoder accepts exactly the canonical encodings of
      well-formed, authentic, unexpired assertions for the expected key;
      signing then encoding then decoding is the identity; the preimage
      commits to every field; sizes and errors are exact.
    - Store: the nested maps refine one small machine per slot; the sequence of
      a slot does not go back while the slot is kept, nor across sweeps if
      expiries grow with sequences; delivery order is irrelevant; sweeps drop exactly the
      lapsed slots; export and restore are lossless.
    - Announcer: nothing unauthorized, unverified or not yet on disk is
      published; across restarts sequences are never reused and a withdrawal
      supersedes everything published before it.
    - Directory: a found record was fetched, verified and bound to its peer;
      a Miss is answered exactly when absence is authoritative; the floor is
      bounded and survives a restart; a lookup discloses only what it declares.
    - Swarm worker: exact-dial routes are authorized, cancellation is final,
      the dial table is bounded, selection prefers direct routes; the fan-out
      keeps the smallest-ranked providers; LAN grammars and the serve gate are
      exact, and a stream that passes it is declined only at the ceiling on
      concurrent serves.
    - Resolution: the answer for a key is a reference fold of the
      observations; a Miss needs everyone; Completed is never claimed after a
      cut or a failure; nothing un-asked is named.
    - Ledgers: at most twice each cap within any window-long span, exact
      verdicts, a neutral sweep, an upload window that closes when spent.
    - Narinfos: the rewriter keeps every signed line, states the raw NAR
      consistently and accepts exactly the usable narinfos; Nix base-32 is exact
      in both directions.
    - Publication: the proof accepts exactly the narinfos signed by a configured
      key; appended allowlist records survive failures, torn writes and
      restarts while the file is within its size limit; through any requests,
      restarts and file sizes only a NAR that a served narinfo proves is
      approved.
    - Serving: every request is answered with well-formed HTTP; a NAR request
      following a narinfo reaches the source under the identity that narinfo
      states, unless a decided rewrite failed; every transfer is narrated once.
    - Upstream: a chain of daemons shares one shrinking deadline; a raw NAR is
      cut at its signed size and a compressed one is not.
    - Narinfo cache: a hit repeats what the inner source said, byte for byte and
      within its time to live, through crashes and restarts; the cache stays
      bounded and always ends; the sidecar restores the books.
    - Transfer: a receiver hands on nothing but the content of the digest it
      asked for, the last leaf only after a clean end; a sender completes only
      the exact content; sent and received content agree for both codecs;
      decoding is bounded and always ends.
    - Node records: the decoder accepts exactly one spelling of a record, bound
      to its signer; encoding and decoding are inverse.
    - Authority: from an empty directory, through any requests, failing calls,
      crashes and restarts, its state never goes back, an acknowledged record is
      never undone and a hidden one stays hidden; rolled-back files are refused;
      a crash never prevents the next start; a healthy authority is, for each
      signer, the abstract register.
    - Publisher: a node never signs two packets with one sequence; a receipt
      means that the intended record was accepted, seen and made durable; the
      publisher opens again after any crash; against the register an update or a
      shutdown of a healthy node lands when its committed packet cannot be reused
      and what it has to write fits.  One exception is proved too: a committed
      packet overtaken by one that was given up locally is refused until it
      nears its expiry.
    - Wire: client and authority agree on every request and response however the
      bytes are cut.
    - Lookup: whatever the authority serves and however lookups interleave, a
      result is a record the node signed and that has not expired, no later
      lookup goes back behind it, the replay table is bounded and only moves
      forward; what a publisher has landed is what a reader finds.
    - Claims: the binding check of a batch accepts exactly the responses whose
      offers belong to answered keys, and so bounds the dictionary; a decoded
      batch answers position by position what the peer said; encoding and
      decoding are inverse.
    - Availability: however queries, registrations, failing saves and restarts
      interleave, an answer rests on a dump with the key's hash; the supply
      catalog offers only what is held and verified; a registration is all or
      nothing; the dumps peers cause are bounded; a query among others is answered
      after boundedly many turns per change of its keys; a restart is warm; the asker of a batch decodes what the responder found.
    - Supervisor: ownership is bounded, and counted exactly while owner and
      manager live; running tasks are abortable, but for one whose handle is
      being inserted, and none outlives the manager unasked; shutdown always
      finds its place and drains.

    ** Bounds and fuel

    Recursion is structural except for these.  The decimal printer of Text.v
    runs with fuel 20 (a u64 has at most 20 digits).  The loops over text of
    Text.v, Utf8.v and PublicProof.v run with the length of their input, of
    which each step consumes a byte.  The eviction loop of NarinfoCache.v runs
    with one more than the number of records, of which each round removes one;
    running out is a value of its own and is proved not to happen.  So do the
    loops around zstd, with the bytes still to read plus those still to write
    under the cap, since each round reads or writes one.  The header and body
    readers of PinnedHttp.v run with the bound on the header and the length of
    the body, since every read brings a byte.  Every other bound is the code's own constant.

    ** Crashes

    A process may die at any system call of a store.  What the next start finds
    is, for each directory entry, the entry as the process saw it or as it was
    when the directory was last synced; file contents are synced before they are
    linked.  What a start finds counts as synced.  Memory, and whatever the
    network was doing, is lost.

    ** What is not modelled

    The libp2p event loop beyond the handlers above, sockets, the HTTP accept
    loops, TLS set-up, child processes and the test proxy are I/O.  BLAKE3,
    base64 and ed25519 are not in the repository.  Logging is dropped and some
    error texts are abridged.  Concurrency is rendered step by step for the swarm worker, the
    supervisor, the node lookups and the availability queries; elsewhere where
    the code serializes it: a mutex-protected ledger, the single-task worker, a request against
    the shared catalog and allowlist are sequences of whole operations.  Not
    yet modelled, in the order intended: discovery and the peer sources, the participation axes,
    leech mask and stream meter of peer-fabric, relay-hint derivation, the
    locator and the headers of nar.rs, the mainline rendezvous. *)

From Stdlib Require Import Strings.Byte ZArith Lia.
From stdpp Require Import base list gmap countable numbers strings.

#[global] Set Default Goal Selector "!".

(** ** Results: the model of Rust's [Result<T, E>] *)

Inductive result (E T : Type) : Type :=
| Ok (t : T)
| Err (e : E).
Arguments Ok {E T} t.
Arguments Err {E T} e.

#[export] Instance result_ret {E} : MRet (result E) := fun T t => Ok t.
#[export] Instance result_bind {E} : MBind (result E) := fun T U f r =>
  match r with Ok t => f t | Err e => Err e end.

#[export] Instance result_eq_dec {E T} `{EqDecision E, EqDecision T} :
  EqDecision (result E T).
Proof. solve_decision. Defined.

(** [Result::map_err] and [Option::ok_or]. *)
Definition map_err {E F T} (f : E -> F) (r : result E T) : result F T :=
  match r with Ok t => Ok t | Err e => Err (f e) end.

Definition ok_or {E T} (o : option T) (e : E) : result E T :=
  match o with Some t => Ok t | None => Err e end.

Definition is_ok {E T} (r : result E T) : bool :=
  match r with Ok _ => true | Err _ => false end.

(** The `?` of a guard: fail with [e] when the condition holds. *)
Definition reject_if {E} (c : bool) (e : E) : result E unit :=
  if c then Err e else Ok tt.

Lemma result_bind_ok {E T U} (r : result E T) (f : T -> result E U) u :
  (r ≫= f) = Ok u <-> exists t, r = Ok t /\ f t = Ok u.
Proof. destruct r; simpl; [|split; [done|by intros (?&?&?)]].
  split; [eauto|by intros (?&[= <-]&?)]. Qed.

Lemma result_bind_err {E T U} (r : result E T) (f : T -> result E U) e :
  (r ≫= f) = Err e <-> r = Err e \/ exists t, r = Ok t /\ f t = Err e.
Proof.
  destruct r as [t|e']; simpl.
  - split; [eauto|intros [|(?&[= <-]&?)]; congruence].
  - split; [intros; left; congruence|intros [|(?&?&?)]; congruence].
Qed.

Lemma map_err_ok {E F T} (f : E -> F) (r : result E T) t :
  map_err f r = Ok t <-> r = Ok t.
Proof. destruct r; simpl; naive_solver. Qed.

Lemma ok_or_ok {E T} (o : option T) (e : E) t : ok_or o e = Ok t <-> o = Some t.
Proof. destruct o; simpl; naive_solver. Qed.

Lemma reject_if_ok {E} c (e : E) u : reject_if c e = Ok u <-> c = false.
Proof. destruct c, u; simpl; naive_solver. Qed.

(** Splits every [bind = Ok] hypothesis into its steps. *)
Ltac inv_ok :=
  repeat match goal with
  | H : (_ ≫= _) = Ok _ |- _ =>
      apply result_bind_ok in H; destruct H as (? & ? & H)
  | H : map_err _ _ = Ok _ |- _ => apply map_err_ok in H
  | H : ok_or _ _ = Ok _ |- _ => apply ok_or_ok in H
  | H : reject_if _ _ = Ok _ |- _ => apply reject_if_ok in H
  | H : Ok _ = Ok _ |- _ => injection H as ?; subst
  | H : Err _ = Ok _ |- _ => discriminate H
  | x : unit |- _ => destruct x
  end.

(** ** Bytes: [u8] is [Byte.byte], its value in Z *)

Abbreviation byte := Byte.byte.

#[export] Instance byte_eq_dec : EqDecision byte := Byte.byte_eq_dec.

Lemma byte_of_to_N b : default x00 (Byte.of_N (Byte.to_N b)) = b.
Proof. by rewrite Byte.of_to_N. Qed.

#[export] Instance byte_countable : Countable byte :=
  inj_countable' Byte.to_N (fun n => default x00 (Byte.of_N n)) byte_of_to_N.

Definition u8_val (b : byte) : Z := Z.of_N (Byte.to_N b).

(** The Rust cast `as u8`: the low 8 bits. *)
Definition as_u8 (z : Z) : byte :=
  match Byte.of_N (Z.to_N (z mod 256)) with Some b => b | None => x00 end.

Lemma u8_val_range b : (0 <= u8_val b < 256)%Z.
Proof. unfold u8_val. pose proof (Byte.to_N_bounded b). lia. Qed.

Lemma u8_val_as_u8 z : u8_val (as_u8 z) = (z mod 256)%Z.
Proof.
  unfold u8_val, as_u8.
  assert (0 <= z mod 256 < 256)%Z by (apply Z.mod_pos_bound; lia).
  destruct (Byte.of_N (Z.to_N (z mod 256))) as [b|] eqn:Hb.
  - apply Byte.to_of_N in Hb. rewrite Hb. lia.
  - apply Byte.of_N_None_iff in Hb. lia.
Qed.

Lemma u8_val_inj a b : u8_val a = u8_val b -> a = b.
Proof.
  unfold u8_val. intros H%N2Z.inj.
  pose proof (Byte.of_to_N a). pose proof (Byte.of_to_N b). congruence.
Qed.

Lemma as_u8_val b : as_u8 (u8_val b) = b.
Proof.
  apply u8_val_inj. rewrite u8_val_as_u8.
  apply Z.mod_small, u8_val_range.
Qed.

Lemma u8_val_as_u8_small z : (0 <= z < 256)%Z -> u8_val (as_u8 z) = z.
Proof. intros. rewrite u8_val_as_u8. by apply Z.mod_small. Qed.

#[export] Instance u8_val_injective : Inj (=) (=) u8_val := u8_val_inj.

(** Decides a property of every byte by computation. *)
Definition all_bytes : list byte := as_u8 <$> seqZ 0 256.

Lemma byte_forall (p : byte -> bool) b : forallb p all_bytes = true -> p b = true.
Proof.
  rewrite List.forallb_forall. intros H. apply H.
  apply list_elem_of_In, list_elem_of_fmap. exists (u8_val b).
  rewrite as_u8_val, elem_of_seqZ. pose proof (u8_val_range b). split; [done|lia].
Qed.

Lemma byte_forall_dec (P : byte -> Prop) `{!forall b, Decision (P b)} :
  forallb (fun b => bool_decide (P b)) all_bytes = true -> forall b, P b.
Proof.
  intros Hall b. pose proof (byte_forall (fun b => bool_decide (P b)) b Hall) as Hb.
  by apply bool_decide_eq_true in Hb.
Qed.

Ltac by_all_bytes b :=
  revert b;
  match goal with |- forall b, @?P b => refine (byte_forall_dec P _) end;
  vm_compute; reflexivity.

(** A Rust string literal, as the UTF-8 bytes of a [str] or a byte string. *)
Definition str (s : string) : list byte := String.list_byte_of_string s.

(** ** Fixed-width unsigned integers *)

Definition u64_max : Z := 18446744073709551615.
Definition u64_ok (z : Z) : Prop := (0 <= z <= u64_max)%Z.
#[export] Instance u64_ok_dec z : Decision (u64_ok z).
Proof. unfold u64_ok. apply _. Defined.

Definition u32_max : Z := 4294967295.
Definition u32_ok (z : Z) : Prop := (0 <= z <= u32_max)%Z.
#[export] Instance u32_ok_dec z : Decision (u32_ok z).
Proof. unfold u32_ok. apply _. Defined.

Definition u64_saturating_add (a b : Z) : Z := Z.min u64_max (a + b).
Definition u64_saturating_sub (a b : Z) : Z := Z.max 0 (a - b).
Definition u32_saturating_add (a b : Z) : Z := Z.min u32_max (a + b).
Definition u64_checked_add (a b : Z) : option Z :=
  if (a + b <=? u64_max)%Z then Some (a + b)%Z else None.
Definition u64_checked_sub (a b : Z) : option Z :=
  if (b <=? a)%Z then Some (a - b)%Z else None.

(** ** Big-endian integers ([to_be_bytes] / [from_be_bytes]) *)

Fixpoint to_be_bytes (n : nat) (z : Z) : list byte :=
  match n with
  | O => []
  | S n' => as_u8 (z / 256 ^ Z.of_nat n') :: to_be_bytes n' z
  end.

Definition from_be_bytes (l : list byte) : Z :=
  foldl (fun acc b => acc * 256 + u8_val b)%Z 0%Z l.

Lemma length_to_be_bytes n z : length (to_be_bytes n z) = n.
Proof. induction n; simpl; congruence. Qed.

Lemma from_be_foldl l acc :
  foldl (fun acc b => acc * 256 + u8_val b)%Z acc l
  = (acc * 256 ^ Z.of_nat (length l) + from_be_bytes l)%Z.
Proof.
  unfold from_be_bytes. revert acc.
  induction l as [|b l IH]; intros acc; cbn [foldl length].
  - lia.
  - rewrite IH, (IH (0 * 256 + u8_val b)%Z), Nat2Z.inj_succ, Z.pow_succ_r by lia.
    ring.
Qed.

Lemma from_be_bytes_cons b l :
  from_be_bytes (b :: l)
  = (u8_val b * 256 ^ Z.of_nat (length l) + from_be_bytes l)%Z.
Proof.
  unfold from_be_bytes at 1. cbn [foldl].
  rewrite from_be_foldl. ring.
Qed.

Lemma from_be_bytes_range l :
  (0 <= from_be_bytes l < 256 ^ Z.of_nat (length l))%Z.
Proof.
  induction l as [|b l IH]; [done|].
  rewrite from_be_bytes_cons. cbn [length].
  rewrite Nat2Z.inj_succ, Z.pow_succ_r by lia.
  pose proof (u8_val_range b). nia.
Qed.

Lemma from_to_be_bytes n z :
  from_be_bytes (to_be_bytes n z) = (z mod 256 ^ Z.of_nat n)%Z.
Proof.
  induction n as [|n IH]; cbn [to_be_bytes].
  - by rewrite Z.mod_1_r.
  - rewrite from_be_bytes_cons, length_to_be_bytes, IH, u8_val_as_u8.
    rewrite Nat2Z.inj_succ, Z.pow_succ_r by lia.
    rewrite (Z.mul_comm 256), Z.rem_mul_r by lia. ring.
Qed.

Lemma from_to_be_bytes_small n z :
  (0 <= z < 256 ^ Z.of_nat n)%Z -> from_be_bytes (to_be_bytes n z) = z.
Proof. intros. rewrite from_to_be_bytes. by apply Z.mod_small. Qed.

Lemma from_to_be_u64 z : u64_ok z -> from_be_bytes (to_be_bytes 8 z) = z.
Proof.
  unfold u64_ok, u64_max. intros. apply from_to_be_bytes_small.
  change (256 ^ Z.of_nat 8)%Z with 18446744073709551616%Z. lia.
Qed.

Lemma to_be_bytes_shift n z k :
  to_be_bytes n (z + k * 256 ^ Z.of_nat n) = to_be_bytes n z.
Proof.
  revert k. induction n as [|n IH]; intros k; [done|]. cbn [to_be_bytes].
  rewrite Nat2Z.inj_succ, Z.pow_succ_r by lia.
  replace (z + k * (256 * 256 ^ Z.of_nat n))%Z
    with (z + (k * 256) * 256 ^ Z.of_nat n)%Z by ring.
  rewrite IH. f_equal. apply u8_val_inj. rewrite !u8_val_as_u8.
  rewrite Z.div_add by lia. rewrite Z.mod_add by lia. done.
Qed.

Lemma to_from_be_bytes l : to_be_bytes (length l) (from_be_bytes l) = l.
Proof.
  induction l as [|b l IH]; [done|]. cbn [length to_be_bytes].
  rewrite from_be_bytes_cons.
  pose proof (from_be_bytes_range l).
  rewrite Z.div_add_l, (Z.div_small (from_be_bytes l)), Z.add_0_r, as_u8_val by lia.
  rewrite Z.add_comm, to_be_bytes_shift, IH. done.
Qed.

(** The same bytes from the low end ([to_le_bytes] / [from_le_bytes]). *)
Definition to_le_bytes (n : nat) (z : Z) : list byte := reverse (to_be_bytes n z).
Definition from_le_bytes (l : list byte) : Z := from_be_bytes (reverse l).

Lemma length_to_le_bytes n z : length (to_le_bytes n z) = n.
Proof. unfold to_le_bytes. by rewrite length_reverse, length_to_be_bytes. Qed.

Lemma from_to_le_u32 z : u32_ok z -> from_le_bytes (to_le_bytes 4 z) = z.
Proof.
  intros Hz. unfold from_le_bytes, to_le_bytes. rewrite reverse_involutive.
  apply from_to_be_bytes_small. unfold u32_ok, u32_max in Hz. cbn. lia.
Qed.

Lemma from_be_u64_ok l : length l = 8 -> u64_ok (from_be_bytes l).
Proof.
  intros Hl. pose proof (from_be_bytes_range l) as H. rewrite Hl in H.
  unfold u64_ok, u64_max.
  change (256 ^ Z.of_nat 8)%Z with 18446744073709551616%Z in H. lia.
Qed.

#[global] Arguments to_be_bytes : simpl never.
#[global] Arguments from_be_bytes : simpl never.

(** ** Fixed-size arrays [[u8; N]] *)

Record array (n : nat) : Type := Array {
  arr_bytes : list byte;
  arr_len : (length arr_bytes =? n) = true
}.
Arguments Array {n} _ _.
Arguments arr_bytes {n} _.
Arguments arr_len {n} _.

(** `<[u8; N]>::try_from(slice)`: succeeds exactly at the right length. *)
Definition try_into (n : nat) (l : list byte) : option (array n) :=
  match (length l =? n) as b return ((length l =? n) = b -> option (array n)) with
  | true => fun H => Some (Array l H)
  | false => fun _ => None
  end eq_refl.

(** A proof of a closed test that evaluates to [eq_refl], so that arrays built
    in different ways are compared by evaluation. *)
Definition canon_true (b : bool) : b = true -> b = true :=
  match b with true => fun _ => eq_refl | false => fun H => H end.

(** `[0u8; N]`. *)
Lemma replicate_len_ok (b : byte) n : (length (replicate n b) =? n) = true.
Proof. rewrite length_replicate. apply Nat.eqb_refl. Qed.
Definition fill (n : nat) (b : byte) : array n :=
  Array (replicate n b) (canon_true _ (replicate_len_ok b n)).

Lemma arr_length {n} (a : array n) : length (arr_bytes a) = n.
Proof. destruct a as [l H]. by apply Nat.eqb_eq. Qed.

Lemma arr_eq {n} (a b : array n) : arr_bytes a = arr_bytes b -> a = b.
Proof.
  destruct a as [l1 H1], b as [l2 H2]; simpl; intros ->.
  f_equal. apply Eqdep_dec.UIP_dec. apply Bool.bool_dec.
Qed.

Lemma try_into_sound n l (a : array n) : try_into n l = Some a -> arr_bytes a = l.
Proof.
  unfold try_into. generalize (eq_refl (length l =? n)).
  destruct (length l =? n) at 2 3; [|done]. by intros e [= <-].
Qed.

Lemma try_into_bytes {n} (a : array n) : try_into n (arr_bytes a) = Some a.
Proof.
  destruct (try_into n (arr_bytes a)) as [b|] eqn:Hb.
  - f_equal. apply arr_eq, (try_into_sound _ _ _ Hb).
  - exfalso. revert Hb. unfold try_into.
    generalize (eq_refl (length (arr_bytes a) =? n)).
    destruct (length (arr_bytes a) =? n) eqn:E at 2 3; [done|].
    pose proof (arr_len a). congruence.
Qed.

Lemma try_into_Some n l (a : array n) : try_into n l = Some a <-> arr_bytes a = l.
Proof. split; [apply try_into_sound|intros <-; apply try_into_bytes]. Qed.

Lemma try_into_is_Some n l : length l = n -> exists a, try_into n l = Some a.
Proof.
  intros H%Nat.eqb_eq. exists (Array l H). by apply try_into_Some.
Qed.

Lemma try_into_None n l : try_into n l = None <-> length l <> n.
Proof.
  split.
  - intros H Hl. destruct (try_into_is_Some n l Hl) as [a Ha]. congruence.
  - intros Hl. destruct (try_into n l) as [a|] eqn:Ha; [|done].
    apply try_into_Some in Ha as <-. by rewrite arr_length in Hl.
Qed.

#[export] Instance array_eq_dec n : EqDecision (array n).
Proof.
  intros a b. destruct (decide (arr_bytes a = arr_bytes b)) as [H|H].
  - left. by apply arr_eq.
  - right. congruence.
Defined.

#[export] Instance array_countable n : Countable (array n) :=
  inj_countable arr_bytes (try_into n) try_into_bytes.

(** ** Lexicographic order on byte slices: Rust's [<] on [[u8]] and [Vec<u8>] *)

Fixpoint bytes_ltb (a b : list byte) : bool :=
  match a, b with
  | [], [] => false
  | [], _ :: _ => true
  | _ :: _, [] => false
  | x :: a', y :: b' =>
      if (u8_val x <? u8_val y)%Z then true
      else if (u8_val y <? u8_val x)%Z then false
      else bytes_ltb a' b'
  end.

Definition bytes_leb (a b : list byte) : bool := negb (bytes_ltb b a).

Lemma bytes_ltb_irrefl a : bytes_ltb a a = false.
Proof. induction a; simpl; [done|]. by rewrite Z.ltb_irrefl. Qed.

Lemma bytes_ltb_trans a b c :
  bytes_ltb a b = true -> bytes_ltb b c = true -> bytes_ltb a c = true.
Proof.
  revert b c. induction a as [|x a IH]; intros [|y b] [|z c]; simpl; try done.
  repeat match goal with |- context [(?p <? ?q)%Z] => destruct (Z.ltb_spec p q) end;
    try done; try lia; eauto.
Qed.

Lemma bytes_ltb_total a b :
  bytes_ltb a b = true \/ a = b \/ bytes_ltb b a = true.
Proof.
  revert b. induction a as [|x a IH]; intros [|y b]; simpl; auto.
  destruct (Z.ltb_spec (u8_val x) (u8_val y)); [auto|].
  destruct (Z.ltb_spec (u8_val y) (u8_val x)); [auto|].
  assert (x = y) as -> by (apply u8_val_inj; lia).
  destruct (IH b) as [|[->|]]; auto.
Qed.

Lemma bytes_ltb_asym a b : bytes_ltb a b = true -> bytes_ltb b a = false.
Proof.
  intros H. destruct (bytes_ltb b a) eqn:E; [|done].
  pose proof (bytes_ltb_trans _ _ _ H E) as C. by rewrite bytes_ltb_irrefl in C.
Qed.

(** ** Adjacent pairs: `slice.windows(2).all(..)` *)

Fixpoint windows2_all {A} (p : A -> A -> bool) (l : list A) : bool :=
  match l with
  | x :: ((y :: _) as t) => p x y && windows2_all p t
  | _ => true
  end.

(** ** Automation *)

Create HintDb fabric discriminated.
#[export] Hint Resolve u8_val_range from_be_bytes_range from_be_u64_ok : fabric.
#[export] Hint Resolve arr_length length_to_be_bytes : fabric.

(** Turns the boolean tests of the code in the context into propositions. *)
Ltac bools :=
  repeat match goal with
  | H : (_ && _) = true |- _ => apply andb_true_iff in H; destruct H
  | H : (_ || _) = false |- _ => apply orb_false_iff in H; destruct H
  | H : negb _ = true |- _ => apply negb_true_iff in H
  | H : negb _ = false |- _ => apply negb_false_iff in H
  | H : (_ <? _) = true |- _ => apply Nat.ltb_lt in H
  | H : (_ <? _) = false |- _ => apply Nat.ltb_ge in H
  | H : (_ <=? _) = true |- _ => apply Nat.leb_le in H
  | H : (_ <=? _) = false |- _ => apply Nat.leb_gt in H
  | H : (_ =? _) = true |- _ => apply Nat.eqb_eq in H
  | H : (_ =? _) = false |- _ => apply Nat.eqb_neq in H
  | H : (_ <? _)%Z = true |- _ => apply Z.ltb_lt in H
  | H : (_ <? _)%Z = false |- _ => apply Z.ltb_ge in H
  | H : (_ <=? _)%Z = true |- _ => apply Z.leb_le in H
  | H : (_ <=? _)%Z = false |- _ => apply Z.leb_gt in H
  | H : (_ =? _)%Z = true |- _ => apply Z.eqb_eq in H
  | H : (_ =? _)%Z = false |- _ => apply Z.eqb_neq in H
  | H : bool_decide _ = true |- _ => apply bool_decide_eq_true in H
  | H : bool_decide _ = false |- _ => apply bool_decide_eq_false in H
  end.

(** ** Maps: a fallible function over every entry *)

(** `iter().map(..).collect::<Result<BTreeMap<_, _>, _>>()` *)
Definition map_traverse {E K V W} `{Countable K} (f : K -> V -> result E W) (m : gmap K V) : result E (gmap K W) :=
  map_fold (fun k v acc => r ← acc; w ← f k v; Ok (<[k := w]> r)) (Ok ∅) m.

Definition traversed {E V W} (fk : V -> result E W) (v : option V) (w : option W) : Prop :=
  match v, w with
  | Some v, Some w => fk v = Ok w
  | None, None => True
  | _, _ => False
  end.

Lemma map_traverse_ok {E K V W} `{Countable K} (f : K -> V -> result E W) (m : gmap K V) (r : gmap K W) :
  map_traverse f m = Ok r <-> forall k, traversed (f k) (m !! k) (r !! k).
Proof.
  revert r. unfold map_traverse. apply (map_fold_weak_ind (fun acc m => forall r, acc = Ok r <-> forall k, traversed (f k) (m !! k) (r !! k))).
  - intros r. split.
    + intros [= <-] k. by rewrite !lookup_empty.
    + intros Hr. f_equal. symmetry. apply map_empty. intros k. specialize (Hr k). rewrite lookup_empty in Hr. by destruct (r !! k).
  - intros i v m0 acc Hi IH r. rewrite result_bind_ok. split.
    + intros (r0 & Hr0 & Hw). apply result_bind_ok in Hw as (w & Hw & [= <-]). intros k.
      apply IH with (k := k) in Hr0.
      destruct (decide (i = k)) as [<-|Hne]; [by rewrite !lookup_insert_eq|by rewrite !lookup_insert_ne].
    + intros Hr. pose proof (Hr i) as Hri. rewrite lookup_insert_eq in Hri. destruct (r !! i) as [w|] eqn:Ew; [|done].
      exists (delete i r). split.
      * apply IH. intros k. specialize (Hr k). destruct (decide (i = k)) as [<-|Hne].
        -- by rewrite Hi, lookup_delete_eq.
        -- by rewrite lookup_insert_ne in Hr; [rewrite lookup_delete_ne|].
      * cbn in Hri. rewrite Hri. cbn. f_equal. by rewrite insert_delete_eq, insert_id.
Qed.

(** ** JSON *)

(** serde_json on one type. *)
Class Json (T : Type) := {
  to_vec : T -> option (list byte);
  from_slice : list byte -> option T
}.
(** Reading back what was written gives the value that was written, for the
    values whose JSON text keeps all of them. *)
Class JsonLaws (T : Type) `{Json T} (faithful : T -> Prop) : Prop :=
  json_roundtrip : forall (x : T) b, faithful x -> to_vec x = Some b -> from_slice b = Some x.
