(* ===== verification/Hex.v ===== *)
(** * The lowercase-hex codecs

    Models peer-fabric/src/hexfmt.rs (the frozen, strict codec of every
    identity) in [Module hexfmt], and the two hex helpers of
    fabric-libp2p/src/persist.rs (the on-disk floor files) in
    [Module persist_hex].  A Rust [&str] is the list of its UTF-8 bytes.

    The theorems: both codecs invert their encoder; the strict one accepts
    exactly one string per value (it is a bijection onto its image, and its
    errors name the first fault); the on-disk one is lenient about case. *)

From Stdlib Require Import Strings.Byte ZArith Lia.
From stdpp Require Import base list sets numbers strings.
From S2P Require Import Prelude.

(** ** Digits *)

(** `char::from_digit(d, 16)`. *)
Definition from_digit (d : Z) : option byte :=
  if (d <? 10)%Z then Some (as_u8 (48 + d))
  else if (d <? 16)%Z then Some (as_u8 (87 + d))
  else None.

(** `from_digit(..).expect(..)`: [nibbles_are_digits] shows the [None] case
    is never reached from a nibble of a byte. *)
Definition hex_char (d : Z) : byte :=
  match from_digit d with Some c => c | None => x00 end.

Definition high_nibble (b : byte) : Z := Z.shiftr (u8_val b) 4.
Definition low_nibble (b : byte) : Z := Z.land (u8_val b) 15.

(** `(hi << 4) | lo` on u8. *)
Definition join_nibbles (hi lo : Z) : byte := as_u8 (Z.lor (Z.shiftl hi 4) lo).

Lemma nibbles_are_digits b :
  from_digit (high_nibble b) = Some (hex_char (high_nibble b)) /\
  from_digit (low_nibble b) = Some (hex_char (low_nibble b)).
Proof. by_all_bytes b. Qed.

Lemma join_nibbles_id b : join_nibbles (high_nibble b) (low_nibble b) = b.
Proof. by_all_bytes b. Qed.

Module hexfmt.

(** hexfmt::encode *)
Definition encode (bytes : list byte) : list byte :=
  flat_map (fun b => [hex_char (high_nibble b); hex_char (low_nibble b)]) bytes.

Inductive HexError :=
| WrongLength (expected_chars found : nat)
| NonHexChar (index : nat).

#[export] Instance HexError_eq_dec : EqDecision HexError.
Proof. solve_decision. Defined.

(** hexfmt::lower_nibble *)
Definition lower_nibble (b : byte) : option Z :=
  if (48 <=? u8_val b)%Z && (u8_val b <=? 57)%Z then Some (u8_val b - 48)%Z
  else if (97 <=? u8_val b)%Z && (u8_val b <=? 102)%Z
  then Some (u8_val b - 97 + 10)%Z
  else None.

(** The decode loop of [decode_fixed] and [decode_var]: iteration [i] reads
    the characters at [2 * i] and [2 * i + 1]. *)
Fixpoint decode_pairs (i : nat) (bytes : list byte) : result HexError (list byte) :=
  match bytes with
  | h :: l :: rest =>
      hi ← ok_or (lower_nibble h) (NonHexChar (i * 2));
      lo ← ok_or (lower_nibble l) (NonHexChar (i * 2 + 1));
      out ← decode_pairs (S i) rest;
      Ok (join_nibbles hi lo :: out)
  | _ => Ok []
  end.

(** hexfmt::decode_fixed *)
Definition decode_fixed (n : nat) (hex : list byte) : result HexError (array n) :=
  if negb (length hex =? n * 2) then Err (WrongLength (n * 2) (length hex))
  else
    out ← decode_pairs 0 hex;
    ok_or (try_into n out) (WrongLength (n * 2) (length hex)).

(** hexfmt::decode_var *)
Definition decode_var (hex : list byte) : result HexError (list byte) :=
  if negb (length hex mod 2 =? 0) then Err (WrongLength (length hex + 1) (length hex))
  else decode_pairs 0 hex.

(** *** Lemmas *)

Lemma length_encode l : length (encode l) = length l * 2.
Proof. induction l; simpl; lia. Qed.

Lemma lower_nibble_hex_char_hi b :
  lower_nibble (hex_char (high_nibble b)) = Some (high_nibble b).
Proof. by_all_bytes b. Qed.

Lemma lower_nibble_hex_char_lo b :
  lower_nibble (hex_char (low_nibble b)) = Some (low_nibble b).
Proof. by_all_bytes b. Qed.

Lemma lower_nibble_inv c d : lower_nibble c = Some d -> (0 <= d < 16)%Z /\ hex_char d = c.
Proof.
  intros Hd.
  pose proof (byte_forall (fun c => match lower_nibble c with
    | Some d => (0 <=? d)%Z && (d <? 16)%Z && bool_decide (hex_char d = c)
    | None => true end) c ltac:(by vm_compute)) as H.
  simpl in H. rewrite Hd in H. bools. split; [lia|done].
Qed.

Lemma nibbles_of_join h l :
  (0 <= h < 16)%Z -> (0 <= l < 16)%Z ->
  high_nibble (join_nibbles h l) = h /\ low_nibble (join_nibbles h l) = l.
Proof.
  intros Hh Hl.
  assert (forallb (fun h => forallb (fun l =>
    (high_nibble (join_nibbles h l) =? h)%Z && (low_nibble (join_nibbles h l) =? l)%Z)
    (seqZ 0 16)) (seqZ 0 16) = true) as H by reflexivity.
  rewrite List.forallb_forall in H.
  specialize (H h). rewrite <-list_elem_of_In, elem_of_seqZ in H.
  specialize (H ltac:(lia)). rewrite List.forallb_forall in H.
  specialize (H l). rewrite <-list_elem_of_In, elem_of_seqZ in H.
  specialize (H ltac:(lia)). bools. done.
Qed.

Lemma decode_pairs_encode i l : decode_pairs i (encode l) = Ok l.
Proof.
  revert i. induction l as [|b l IH]; intros i; [done|].
  cbn [encode flat_map app decode_pairs].
  rewrite lower_nibble_hex_char_hi, lower_nibble_hex_char_lo. cbn.
  change (flat_map _ l) with (encode l). rewrite IH. cbn.
  by rewrite join_nibbles_id.
Qed.

(** Induction two characters at a time. *)
Lemma pair_ind (P : list byte -> Prop) :
  P [] -> (forall a, P [a]) -> (forall a b l, P l -> P (a :: b :: l)) ->
  forall l, P l.
Proof.
  intros H0 H1 H2 l.
  enough (P l /\ forall a, P (a :: l)) as [? _] by done.
  induction l as [|b l [IH1 IH2]]; split; auto.
Qed.

Lemma decode_pairs_canonical i s l :
  length s mod 2 = 0 -> decode_pairs i s = Ok l -> s = encode l.
Proof.
  revert i l. induction s as [| |h c s IH] using pair_ind; intros i l Hlen.
  - by intros [= <-].
  - done.
  - cbn [decode_pairs]. intros H. inv_ok.
    repeat match goal with
    | H : lower_nibble _ = Some _ |- _ => apply lower_nibble_inv in H as [? <-]
    end.
    cbn [encode flat_map app]. change (flat_map _ ?x) with (encode x).
    match goal with |- context [join_nibbles ?p ?q] =>
      destruct (nibbles_of_join p q) as [-> ->]; [lia|lia|] end.
    do 2 f_equal. eapply IH; [|done].
    change (length (_ :: _ :: s)) with (2 + length s) in Hlen.
    revert Hlen. rewrite <-Nat.Div0.add_mod_idemp_l. done.
Qed.

Lemma length_decode_pairs i s l :
  length s mod 2 = 0 -> decode_pairs i s = Ok l -> length s = length l * 2.
Proof. intros Hm H. by rewrite (decode_pairs_canonical i s l Hm H), length_encode. Qed.

Lemma even_length (n m : nat) : m = n * 2 -> m mod 2 = 0.
Proof. intros ->. apply Nat.Div0.mod_mul. Qed.

Lemma decode_fixed_encode n (a : array n) : decode_fixed n (encode (arr_bytes a)) = Ok a.
Proof.
  unfold decode_fixed. rewrite length_encode, arr_length, Nat.eqb_refl. simpl.
  by rewrite decode_pairs_encode; simpl; rewrite try_into_bytes.
Qed.

Lemma decode_fixed_canonical n s (a : array n) :
  decode_fixed n s = Ok a -> s = encode (arr_bytes a).
Proof.
  unfold decode_fixed. destruct (length s =? n * 2) eqn:E; simpl; [|done].
  intros H. inv_ok. bools. apply try_into_sound in H as ->.
  eapply decode_pairs_canonical; [|done]. by eapply even_length.
Qed.

Lemma decode_var_encode l : decode_var (encode l) = Ok l.
Proof.
  unfold decode_var. rewrite length_encode, Nat.Div0.mod_mul. simpl.
  apply decode_pairs_encode.
Qed.

Lemma decode_var_canonical s l : decode_var s = Ok l -> s = encode l.
Proof.
  unfold decode_var. destruct (length s mod 2 =? 0) eqn:E; simpl; [|done].
  bools. by apply decode_pairs_canonical.
Qed.

(** The fault reported by the loop is the first bad character. *)
Lemma decode_pairs_err i s e :
  length s mod 2 = 0 -> decode_pairs i s = Err e ->
  exists k c, e = NonHexChar (i * 2 + k) /\ s !! k = Some c /\ lower_nibble c = None /\
    forall j d, j < k -> s !! j = Some d -> is_Some (lower_nibble d).
Proof.
  revert i. induction s as [| |h c s IH] using pair_ind; intros i Hlen; [done|done|].
  cbn [decode_pairs]. intros H.
  assert (length s mod 2 = 0) as Hs.
  { change (length (_ :: _ :: s)) with (2 + length s) in Hlen.
    revert Hlen. by rewrite <-Nat.Div0.add_mod_idemp_l. }
  destruct (lower_nibble h) as [hi|] eqn:Eh; simpl in H.
  2:{ injection H as <-. exists 0, h. rewrite Nat.add_0_r.
      split_and!; [done..|]. intros j d Hj. lia. }
  destruct (lower_nibble c) as [lo|] eqn:Ec; simpl in H.
  2:{ injection H as <-. exists 1, c. split_and!; [done..|].
      intros [|j] d Hj; [|lia]. simpl. intros [= <-]. by rewrite Eh. }
  destruct (decode_pairs (S i) s) as [l|e'] eqn:Ed; simpl in H; [done|].
  injection H as ->. destruct (IH (S i) Hs Ed) as (k & x & -> & Hk & Hx & Hall).
  exists (2 + k), x. split_and!; [f_equal; lia|done|done|].
  intros [|[|j]] d Hj; simpl.
  - intros [= <-]. by rewrite Eh.
  - intros [= <-]. by rewrite Ec.
  - apply Hall. lia.
Qed.

End hexfmt.

Module persist_hex.

(** persist::to_hex: the same loop as [hexfmt::encode]. *)
Definition to_hex (bytes : list byte) : list byte :=
  flat_map (fun b => [hex_char (high_nibble b); hex_char (low_nibble b)]) bytes.

(** `(byte as char).to_digit(16)`: both cases of the letters. *)
Definition to_digit16 (b : byte) : option Z :=
  if (48 <=? u8_val b)%Z && (u8_val b <=? 57)%Z then Some (u8_val b - 48)%Z
  else if (97 <=? u8_val b)%Z && (u8_val b <=? 102)%Z then Some (u8_val b - 87)%Z
  else if (65 <=? u8_val b)%Z && (u8_val b <=? 70)%Z then Some (u8_val b - 55)%Z
  else None.

(** The loop of persist::from_hex over an even-length string. *)
Fixpoint from_hex_loop (bytes : list byte) : option (list byte) :=
  match bytes with
  | h :: l :: rest =>
      hi ← to_digit16 h;
      lo ← to_digit16 l;
      out ← from_hex_loop rest;
      Some (as_u8 (hi * 16 + lo) :: out)
  | _ => Some []
  end.

(** persist::from_hex *)
Definition from_hex (s : list byte) : option (list byte) :=
  if negb (length s mod 2 =? 0) then None else from_hex_loop s.

(** persist::hex32 *)
Definition hex32 (s : list byte) : option (array 32) :=
  v ← from_hex s; try_into 32 v.

Lemma length_to_hex l : length (to_hex l) = length l * 2.
Proof. induction l; simpl; lia. Qed.

Lemma to_digit16_hex_chars b :
  to_digit16 (hex_char (high_nibble b)) = Some (high_nibble b) /\
  to_digit16 (hex_char (low_nibble b)) = Some (low_nibble b) /\
  as_u8 (high_nibble b * 16 + low_nibble b) = b.
Proof. by_all_bytes b. Qed.

Lemma from_hex_loop_to_hex l : from_hex_loop (to_hex l) = Some l.
Proof.
  induction l as [|b l IH]; [done|].
  destruct (to_digit16_hex_chars b) as (Hh & Hl & Hb).
  cbn [to_hex flat_map app from_hex_loop]. rewrite Hh, Hl. cbn.
  change (flat_map _ l) with (to_hex l). rewrite IH. cbn. by rewrite Hb.
Qed.

Lemma from_hex_to_hex l : from_hex (to_hex l) = Some l.
Proof.
  unfold from_hex. rewrite length_to_hex, Nat.Div0.mod_mul. simpl.
  apply from_hex_loop_to_hex.
Qed.

Lemma hex32_to_hex (a : array 32) : hex32 (to_hex (arr_bytes a)) = Some a.
Proof. unfold hex32. rewrite from_hex_to_hex. simpl. apply try_into_bytes. Qed.

(** The characters an encoding can contain: needed to split lines safely. *)
Lemma to_hex_chars l c : c ∈ to_hex l -> is_Some (to_digit16 c).
Proof.
  unfold to_hex. rewrite list_elem_of_In, in_flat_map.
  intros (b & _ & [<-|[<-|[]]]); destruct (to_digit16_hex_chars b) as (Hh & Hl & _);
    rewrite ?Hh, ?Hl; eauto.
Qed.

End persist_hex.
