(* ===== verification/Text.v ===== *)
(** * The parts of Rust's string library the program's text formats use

    `str::strip_prefix`, `str::split(char)`, `str::lines`, the blank test
    `trim().is_empty()`, `split_once`, searching for a substring, the decimal
    `Display` of an unsigned integer and `u64::from_str`.  A [str] is its UTF-8 byte list; every separator the
    program splits on is ASCII, which never occurs inside a multi-byte
    character, so byte splitting is character splitting. *)

From Stdlib Require Import Strings.Byte ZArith Lia.
From stdpp Require Import base list sets numbers strings.
From S2P Require Import Prelude.

(** `s.strip_prefix(p)` *)
Fixpoint strip_prefix (p s : list byte) : option (list byte) :=
  match p, s with
  | [], _ => Some s
  | x :: p', y :: s' => if decide (x = y) then strip_prefix p' s' else None
  | _ :: _, [] => None
  end.

(** `s.split(c)`: the pieces between the separators, at least one. *)
Fixpoint split_on (c : byte) (s : list byte) : list (list byte) :=
  match s with
  | [] => [[]]
  | x :: s' =>
      if decide (x = c) then [] :: split_on c s'
      else match split_on c s' with
           | [] => [[x]]
           | p :: ps => (x :: p) :: ps
           end
  end.

(** The last byte removed when it is [c] (`strip_suffix(c)`). *)
Definition strip_last (c : byte) (s : list byte) : option (list byte) :=
  match reverse s with
  | x :: r => if decide (x = c) then Some (reverse r) else None
  | [] => None
  end.

(** `s.split_inclusive('\n')`: every piece but possibly the last ends in a
    newline, and there is no empty last piece. *)
Fixpoint split_inclusive_nl (s : list byte) : list (list byte) :=
  match s with
  | [] => []
  | x :: s' =>
      if decide (x = x0a) then [x] :: split_inclusive_nl s'
      else match split_inclusive_nl s' with
           | [] => [[x]]
           | p :: ps => (x :: p) :: ps
           end
  end.

(** One item of `str::lines`: the newline, and a carriage return before it,
    are dropped. *)
Definition line_of (piece : list byte) : list byte :=
  match strip_last x0a piece with
  | None => piece
  | Some l => match strip_last x0d l with None => l | Some l' => l' end
  end.

(** `s.lines()` *)
Definition lines (s : list byte) : list (list byte) := line_of <$> split_inclusive_nl s.

(** The UTF-8 encodings of the Unicode White_Space characters. *)
Definition white_space : list (list byte) :=
  [[x09]; [x0a]; [x0b]; [x0c]; [x0d]; [x20]; [xc2; x85]; [xc2; xa0]; [xe1; x9a; x80];
   [xe2; x80; x80]; [xe2; x80; x81]; [xe2; x80; x82]; [xe2; x80; x83]; [xe2; x80; x84];
   [xe2; x80; x85]; [xe2; x80; x86]; [xe2; x80; x87]; [xe2; x80; x88]; [xe2; x80; x89];
   [xe2; x80; x8a]; [xe2; x80; xa8]; [xe2; x80; xa9]; [xe2; x80; xaf]; [xe2; x81; x9f];
   [xe3; x80; x80]].

Fixpoint strip_any (ws : list (list byte)) (s : list byte) : option (list byte) :=
  match ws with
  | [] => None
  | w :: ws' => match strip_prefix w s with Some r => Some r | None => strip_any ws' s end
  end.

(** `line.trim().is_empty()`: every character is white space.  Each round
    consumes at least one byte, so the length is enough fuel. *)
Fixpoint is_blank_fuel (fuel : nat) (s : list byte) : bool :=
  match fuel, s with
  | _, [] => true
  | O, _ :: _ => false
  | S f, _ :: _ => match strip_any white_space s with Some r => is_blank_fuel f r | None => false end
  end.
Definition is_blank (s : list byte) : bool := is_blank_fuel (length s) s.

(** ** Searching *)

(** `iter().position(p)` *)
Fixpoint position (p : byte -> bool) (l : list byte) : option nat :=
  match l with
  | [] => None
  | b :: r => if p b then Some 0 else S <$> position p r
  end.

(** `s.split_once(c)` *)
Definition split_once (c : byte) (s : list byte) : option (list byte * list byte) :=
  i ← position (fun b => bool_decide (b = c)) s; Some (take i s, drop (i + 1) s).

(** The first place [needle] starts at; `windows(n).position(..)`. *)
Fixpoint find_subslice (needle haystack : list byte) : option nat :=
  match strip_prefix needle haystack with
  | Some _ => Some 0
  | None => match haystack with [] => None | _ :: r => S <$> find_subslice needle r end
  end.

Definition is_ascii_alphanumeric (b : byte) : bool :=
  let v := u8_val b in
  ((48 <=? v)%Z && (v <=? 57)%Z) || ((65 <=? v)%Z && (v <=? 90)%Z) || ((97 <=? v)%Z && (v <=? 122)%Z).

(** `u8::to_ascii_lowercase` *)
Definition to_ascii_lowercase (b : byte) : byte :=
  if (65 <=? u8_val b)%Z && (u8_val b <=? 90)%Z then as_u8 (u8_val b + 32) else b.

(** `str::eq_ignore_ascii_case` *)
Definition eq_ignore_ascii_case (a b : list byte) : bool :=
  bool_decide (to_ascii_lowercase <$> a = to_ascii_lowercase <$> b).

(** ** Decimal numbers *)

Definition digit (d : Z) : byte := as_u8 (48 + d).
Definition digit_val (b : byte) : option Z :=
  if (48 <=? u8_val b)%Z && (u8_val b <=? 57)%Z then Some (u8_val b - 48)%Z else None.

(** `format!("{}", n)`: [fuel] bounds the number of digits (20 for u64). *)
Fixpoint show_dec_fuel (fuel : nat) (n : Z) (acc : list byte) : list byte :=
  match fuel with
  | O => acc
  | S f =>
      if (n <? 10)%Z then digit n :: acc
      else show_dec_fuel f (n / 10) (digit (n mod 10) :: acc)
  end.
Definition show_u64 (n : Z) : list byte := show_dec_fuel 20 n [].

(** The digit loop of `u64::from_str`: checked multiply and add. *)
Fixpoint parse_digits (acc : Z) (s : list byte) : option Z :=
  match s with
  | [] => Some acc
  | b :: r =>
      d ← digit_val b;
      if (acc * 10 + d <=? u64_max)%Z then parse_digits (acc * 10 + d) r else None
  end.

(** `s.parse::<u64>()`: an optional [+], then one or more digits. *)
Definition parse_u64 (s : list byte) : option Z :=
  let body := match strip_prefix [x2b] s with Some r => r | None => s end in
  match body with [] => None | _ => parse_digits 0 body end.

(** `parse::<u16>()` *)
Definition parse_u16 (s : list byte) : option Z :=
  n ← parse_u64 s; if (n <=? 65535)%Z then Some n else None.

(** ** Lemmas *)

Lemma strip_prefix_app p s : strip_prefix p (p ++ s) = Some s.
Proof. induction p as [|x p IH]; simpl; [done|]. by rewrite decide_True. Qed.

Lemma strip_prefix_Some p s r : strip_prefix p s = Some r <-> s = p ++ r.
Proof.
  split; [|intros ->; apply strip_prefix_app].
  revert s. induction p as [|x p IH]; intros s; simpl; [by intros [= ->]|].
  destruct s as [|y s]; [done|]. case_decide; [subst|done].
  by intros ->%IH.
Qed.

Lemma split_on_ne c s : split_on c s <> [].
Proof. destruct s as [|x s]; simpl; [done|]. case_decide; [done|]. by destruct (split_on c s). Qed.

Lemma split_on_no_sep c s : c ∉ s -> split_on c s = [s].
Proof.
  induction s as [|x s IH]; simpl; [done|]. intros Hc.
  rewrite not_elem_of_cons in Hc. destruct Hc as [Hx Hs].
  rewrite decide_False by congruence. by rewrite IH.
Qed.

Lemma split_on_app c s t : c ∉ s -> split_on c (s ++ c :: t) = s :: split_on c t.
Proof.
  induction s as [|x s IH]; simpl; intros Hc.
  - by rewrite decide_True.
  - rewrite not_elem_of_cons in Hc. destruct Hc as [Hx Hs].
    rewrite decide_False by congruence. by rewrite IH.
Qed.

Lemma strip_last_snoc c s : strip_last c (s ++ [c]) = Some s.
Proof.
  unfold strip_last. rewrite reverse_app. simpl.
  rewrite decide_True by done. by rewrite reverse_involutive.
Qed.

Lemma strip_last_no c s : c ∉ s -> strip_last c s = None.
Proof.
  unfold strip_last. intros Hc. destruct (reverse s) as [|x r] eqn:E; [done|].
  rewrite decide_False; [done|]. intros ->. apply Hc.
  rewrite <-(reverse_involutive s), E. set_solver.
Qed.

Lemma split_inclusive_line l t :
  x0a ∉ l -> split_inclusive_nl (l ++ x0a :: t) = (l ++ [x0a]) :: split_inclusive_nl t.
Proof.
  induction l as [|x l IH]; simpl; intros Hc; [done|].
  rewrite not_elem_of_cons in Hc. destruct Hc as [Hx Hs].
  rewrite decide_False by congruence. by rewrite IH.
Qed.

(** A line without control characters is read back as it was written. *)
Lemma lines_cons l t :
  x0a ∉ l -> x0d ∉ l -> lines (l ++ x0a :: t) = l :: lines t.
Proof.
  intros Hn Hr. unfold lines. rewrite split_inclusive_line by done. simpl. f_equal.
  unfold line_of. rewrite strip_last_snoc. by rewrite strip_last_no.
Qed.

Lemma digit_val_digit d : (0 <= d < 10)%Z -> digit_val (digit d) = Some d.
Proof.
  intros. unfold digit_val, digit. rewrite u8_val_as_u8_small by lia.
  replace (48 <=? 48 + d)%Z with true by (symmetry; apply Z.leb_le; lia).
  replace (48 + d <=? 57)%Z with true by (symmetry; apply Z.leb_le; lia).
  simpl. f_equal. lia.
Qed.

Lemma parse_digits_app a s t :
  parse_digits a (s ++ t) = (v ← parse_digits a s; parse_digits v t).
Proof.
  revert a. induction s as [|b s IH]; intros a; simpl; [done|].
  destruct (digit_val b); simpl; [|done]. by destruct (_ <=? _)%Z.
Qed.

Lemma show_dec_fuel_acc fuel n acc :
  show_dec_fuel fuel n acc = show_dec_fuel fuel n [] ++ acc.
Proof.
  revert n acc. induction fuel as [|f IH]; intros n acc; simpl; [done|].
  destruct (n <? 10)%Z; [done|].
  rewrite IH, (IH _ [_]). by rewrite <-app_assoc.
Qed.

Lemma parse_show_fuel fuel n :
  (0 <= n <= u64_max)%Z -> (n < 10 ^ Z.of_nat fuel)%Z -> fuel <> 0 ->
  parse_digits 0 (show_dec_fuel fuel n []) = Some n.
Proof.
  revert n. induction fuel as [|f IH]; intros n Hn Hf Hz; [done|].
  cbn [show_dec_fuel]. destruct (Z.ltb_spec n 10) as [H|H].
  - cbn. rewrite digit_val_digit by lia. cbn.
    rewrite (proj2 (Z.leb_le _ _)) by (unfold u64_max; lia). done.
  - rewrite Nat2Z.inj_succ, Z.pow_succ_r in Hf by lia.
    assert (0 <= n / 10)%Z by (apply Z.div_pos; lia).
    assert (n / 10 < n)%Z by (apply Z.div_lt; lia).
    assert (n / 10 < 10 ^ Z.of_nat f)%Z by (apply Z.div_lt_upper_bound; lia).
    destruct f as [|f'].
    { change (10 ^ Z.of_nat 0)%Z with 1%Z in *. lia. }
    rewrite show_dec_fuel_acc, parse_digits_app, IH by lia.
    cbn [mbind option_bind parse_digits].
    rewrite digit_val_digit by (apply Z.mod_pos_bound; lia). cbn.
    replace (n / 10 * 10 + n mod 10)%Z with n by (pose proof (Z.div_mod n 10); lia).
    by rewrite (proj2 (Z.leb_le _ _)) by lia.
Qed.

Lemma show_dec_fuel_digits fuel n acc b :
  (0 <= n)%Z -> b ∈ show_dec_fuel fuel n acc -> b ∈ acc \/ is_Some (digit_val b).
Proof.
  revert n acc. induction fuel as [|f IH]; intros n acc Hn; simpl; [auto|].
  destruct (Z.ltb_spec n 10) as [H|H].
  - rewrite elem_of_cons. intros [->|?]; [|auto].
    rewrite digit_val_digit by lia. eauto.
  - intros Hb. apply IH in Hb; [|apply Z.div_pos; lia].
    destruct Hb as [Hb|?]; [|auto]. apply elem_of_cons in Hb as [->|?]; [|auto].
    rewrite digit_val_digit by (apply Z.mod_pos_bound; lia). eauto.
Qed.

Lemma show_dec_fuel_length fuel n acc : length (show_dec_fuel fuel n acc) <= fuel + length acc.
Proof.
  revert n acc. induction fuel as [|f IH]; intros n acc; cbn [show_dec_fuel]; [done|].
  destruct (_ <? _)%Z; [simpl; lia|]. etransitivity; [apply IH|]. simpl. lia.
Qed.

Lemma show_u64_chars n b : (0 <= n)%Z -> b ∈ show_u64 n -> is_Some (digit_val b).
Proof.
  intros Hn Hb. apply show_dec_fuel_digits in Hb; [|done].
  destruct Hb as [Hb|?]; [|done]. by apply elem_of_nil in Hb.
Qed.

Lemma show_u64_nonempty n : show_u64 n <> [].
Proof.
  unfold show_u64. generalize 19. intros f. cbn.
  destruct (n <? 10)%Z; [done|]. rewrite show_dec_fuel_acc. by destruct (show_dec_fuel _ _ _).
Qed.

(** Display and parse of a u64 are inverse. *)
Lemma parse_show_u64 n : u64_ok n -> parse_u64 (show_u64 n) = Some n.
Proof.
  unfold u64_ok. intros Hn. unfold parse_u64.
  pose proof (show_u64_nonempty n) as Hne.
  destruct (show_u64 n) as [|b r] eqn:E; [done|].
  assert (is_Some (digit_val b)) as [d Hd]
    by (apply (show_u64_chars n); [apply Hn|rewrite E; apply list_elem_of_here]).
  assert (parse_digits 0 (b :: r) = Some n) as Hp.
  { rewrite <-E. apply parse_show_fuel; [done| |done].
    change (10 ^ Z.of_nat 20)%Z with 100000000000000000000%Z. unfold u64_max in *. lia. }
  cbn [strip_prefix]. rewrite decide_False; [exact Hp|].
  intros <-. by vm_compute in Hd.
Qed.

Lemma parse_digits_ok a s n :
  (0 <= a)%Z -> (a <= u64_max)%Z -> parse_digits a s = Some n -> u64_ok n.
Proof.
  revert a. induction s as [|b s IH]; intros a H0 H1; simpl.
  - intros [= <-]. unfold u64_ok. lia.
  - destruct (digit_val b) as [d|] eqn:Ed; simpl; [|done].
    destruct (Z.leb_spec (a * 10 + d) u64_max); [|done]. apply IH; [|done].
    unfold digit_val in Ed. destruct (_ && _) eqn:E in Ed; [|done].
    injection Ed as <-. bools. lia.
Qed.

Lemma parse_u64_ok s n : parse_u64 s = Some n -> u64_ok n.
Proof.
  unfold parse_u64. destruct (match strip_prefix [x2b] s with Some r => r | None => s end) as [|b r]; [done|].
  apply parse_digits_ok; unfold u64_max; lia.
Qed.

(** A string with a first byte that is no white space is not blank. *)
Lemma not_blank_head b s : (33 <= u8_val b < 128)%Z -> is_blank (b :: s) = false.
Proof.
  intros Hb. unfold is_blank. cbn [length is_blank_fuel].
  assert (Forall (fun w => match w with
    | x :: _ => (u8_val x < 33 \/ 128 <= u8_val x)%Z | [] => False end) white_space) as Hw
    by (repeat apply Forall_cons_2; [(left; by vm_compute) || (right; by vm_compute)..|done]).
  enough (strip_any white_space (b :: s) = None) as -> by done.
  induction Hw as [|w ws Hx _ IH]; [done|]. cbn [strip_any].
  destruct w as [|x w]; [done|]. cbn [strip_prefix].
  rewrite decide_False; [done|]. intros ->. lia.
Qed.

(** ** The pieces of `split_inclusive('\n')` *)

(** A complete line, and a last line without its newline. *)
Definition terminated (s : list byte) : Prop := exists l, s = l ++ [x0a] /\ x0a ∉ l.
Definition unterminated (s : list byte) : Prop := s <> [] /\ x0a ∉ s.

Fixpoint segments (ss : list (list byte)) : Prop :=
  match ss with
  | [] => True
  | [s] => terminated s \/ unterminated s
  | s :: rest => terminated s /\ segments rest
  end.

Lemma segments_cons s ss : terminated s -> segments ss -> segments (s :: ss).
Proof. intros Hs Hss. destruct ss; [by left|by split]. Qed.

Lemma segments_Forall ss : segments ss -> Forall (fun s => terminated s \/ unterminated s) ss.
Proof.
  induction ss as [|s [|s' ss] IH]; simpl; [done|by constructor|].
  intros [Hs Hss]. constructor; [by left|by apply IH].
Qed.

Lemma split_inclusive_concat ss : segments ss -> split_inclusive_nl (concat ss) = ss.
Proof.
  induction ss as [|s ss IH]; [done|]. intros Hss.
  assert (terminated s /\ segments ss \/ unterminated s /\ ss = []) as [[(l & -> & Hl) Hr]|[[Hne Hs] ->]].
  { destruct ss; [destruct Hss; auto|destruct Hss; auto]. left. by split. }
  - cbn [concat]. rewrite <-app_assoc. cbn [app]. by rewrite split_inclusive_line, IH.
  - simpl. rewrite app_nil_r. clear Hss IH. induction s as [|b s IH]; [done|].
    apply not_elem_of_cons in Hs as [Hb Hs]. simpl. rewrite decide_False by done.
    destruct s as [|b' s]; [done|]. by rewrite IH.
Qed.

Lemma split_inclusive_segments s : segments (split_inclusive_nl s) /\ concat (split_inclusive_nl s) = s.
Proof.
  induction s as [|b s [IH IHc]]; [done|]. simpl. destruct (decide (b = x0a)) as [->|Hb].
  - split; [|by rewrite <-IHc at 2]. apply segments_cons; [|done].
    exists []. split; [done|apply not_elem_of_nil].
  - destruct (split_inclusive_nl s) as [|p ps]; simpl in IHc; subst s.
    + split; [|done]. right. split; [done|]. by rewrite list_elem_of_singleton.
    + split; [|done]. destruct ps as [|p' ps].
      * destruct IH as [(l & -> & Hl)|[Hne Hp]]; [left|right].
        -- exists (b :: l). split; [done|]. by apply not_elem_of_cons.
        -- split; [done|]. by apply not_elem_of_cons.
      * destruct IH as [(l & -> & Hl) Hrest]. split; [|done].
        exists (b :: l). split; [done|]. by apply not_elem_of_cons.
Qed.

(** The piece without its newline, as `split('\n')` yields it. *)
Definition chomp (s : list byte) : list byte := default s (strip_last x0a s).

Lemma chomp_terminated l : chomp (l ++ [x0a]) = l.
Proof. unfold chomp. by rewrite strip_last_snoc. Qed.
Lemma chomp_unterminated s : x0a ∉ s -> chomp s = s.
Proof. intros H. unfold chomp. by rewrite strip_last_no. Qed.

(** `split('\n')` yields the same lines, and one empty line more when the text
    is empty or ends in a newline. *)
Lemma split_on_segments ss :
  segments ss -> split_on x0a (concat ss) = (chomp <$> ss) \/
                 split_on x0a (concat ss) = (chomp <$> ss) ++ [[]].
Proof.
  induction ss as [|s ss IH]; [by right|]. intros Hss.
  assert (terminated s /\ segments ss \/ unterminated s /\ ss = []) as [[(l & -> & Hl) Hr]|[[Hne Hs] ->]].
  { destruct ss; [destruct Hss; auto|destruct Hss; auto]. left. by split. }
  - cbn [concat fmap list_fmap]. rewrite <-app_assoc. cbn [app].
    rewrite split_on_app, chomp_terminated by done.
    destruct (IH Hr) as [->| ->]; [by left|by right].
  - left. simpl. by rewrite app_nil_r, split_on_no_sep, chomp_unterminated.
Qed.

(** ** Searching: lemmas *)

Lemma position_None p l : position p l = None <-> Forall (fun b => p b = false) l.
Proof.
  induction l as [|b l IH]; simpl; [done|]. rewrite Forall_cons.
  destruct (p b); [split; [done|by intros []]|]. rewrite fmap_None, IH. naive_solver.
Qed.

Lemma position_Some p l i :
  position p l = Some i <->
  exists a b c, l = a ++ b :: c /\ length a = i /\ p b = true /\ Forall (fun b => p b = false) a.
Proof.
  split.
  - revert i. induction l as [|x l IH]; intros i; simpl; [done|]. destruct (p x) eqn:Hx.
    + intros [= <-]. by exists [], x, l.
    + intros (k & Hk & ->)%fmap_Some. apply IH in Hk as (a & b & c & -> & <- & Hb & Ha).
      exists (x :: a), b, c. split; [done|]. split; [done|]. split; [done|]. by constructor.
  - intros (a & b & c & -> & <- & Hb & Ha). induction Ha as [|x a Hx _ IH]; simpl; [by rewrite Hb|].
    by rewrite Hx, IH.
Qed.

Lemma Forall_neq_elem (c : byte) l : Forall (fun b => bool_decide (b = c) = false) l <-> c ∉ l.
Proof.
  rewrite Forall_forall. setoid_rewrite bool_decide_eq_false. split; [|by intros H b Hb ->].
  intros H Hc. by apply (H c).
Qed.

Lemma split_once_Some c s a b : split_once c s = Some (a, b) <-> s = a ++ c :: b /\ c ∉ a.
Proof.
  unfold split_once. rewrite bind_Some. setoid_rewrite position_Some. split.
  - intros (i & (x & y & z & -> & <- & Hy%bool_decide_eq_true & Hx) & [= <- <-]). subst y.
    rewrite take_app_length, drop_app_ge by lia. replace (length x + 1 - length x) with 1 by lia. simpl.
    rewrite drop_0. split; [done|]. by apply Forall_neq_elem.
  - intros [-> Ha]. exists (length a). split.
    + exists a, c, b. rewrite bool_decide_true by done. by rewrite Forall_neq_elem.
    + rewrite take_app_length, drop_app_ge by lia. replace (length a + 1 - length a) with 1 by lia. simpl.
      by rewrite drop_0.
Qed.

Lemma find_subslice_bound needle s i : find_subslice needle s = Some i -> i + length needle <= length s.
Proof.
  revert i. induction s as [|b s IH]; intros i; simpl.
  - destruct (strip_prefix needle []) eqn:E; [|done]. apply strip_prefix_Some in E.
    symmetry in E. apply app_nil in E as [-> ->]. intros [= <-]. simpl. lia.
  - destruct (strip_prefix needle (b :: s)) eqn:E.
    + apply strip_prefix_Some in E. intros [= <-]. change (S (length s)) with (length (b :: s)).
      rewrite E, length_app. lia.
    + destruct (find_subslice needle s) as [j|]; [|done]. intros [= <-]. specialize (IH j eq_refl). lia.
Qed.

Lemma strip_prefix_grow p s t : length p <= length s -> strip_prefix p s = None -> strip_prefix p (s ++ t) = None.
Proof.
  intros Hl Hn. destruct (strip_prefix p (s ++ t)) as [r|] eqn:E; [|done]. apply strip_prefix_Some in E.
  assert (s = p ++ drop (length p) s) as Hs.
  { rewrite <-(take_drop (length p) s) at 1. f_equal.
    apply (f_equal (take (length p))) in E. by rewrite take_app_le, take_app_length in E by done. }
  rewrite Hs, strip_prefix_app in Hn. done.
Qed.

Lemma find_subslice_grow needle s t i :
  find_subslice needle s = Some i -> find_subslice needle (s ++ t) = Some i.
Proof.
  revert i. induction s as [|b s IH]; intros i Hi.
  - pose proof (find_subslice_bound _ _ _ Hi) as Hb. simpl in Hb. destruct needle; simpl in Hb; [|lia].
    simpl in Hi. injection Hi as <-. by destruct t.
  - pose proof (find_subslice_bound _ _ _ Hi) as Hb. cbn [find_subslice app] in *.
    destruct (strip_prefix needle (b :: s)) as [r|] eqn:E.
    + apply strip_prefix_Some in E. change (b :: s ++ t) with ((b :: s) ++ t).
      by rewrite E, <-app_assoc, strip_prefix_app.
    + change (b :: s ++ t) with ((b :: s) ++ t). rewrite strip_prefix_grow; [|simpl in *; lia|done].
      destruct (find_subslice needle s) as [j|]; [|done]. cbn [app]. by rewrite (IH j).
Qed.
