(* ===== verification/Utf8.v ===== *)
(** * UTF-8 as Rust's standard library reads it

    `str::from_utf8`, `String::from_utf8_lossy`, `str::trim` and the ASCII
    white-space test.  The decoder is a byte automaton: between characters, or
    inside one with the ranges its remaining bytes must fall in.  An
    ill-formed prefix becomes one U+FFFD and the byte that broke it is read
    again, which is the "maximal subpart" rule of `from_utf8_lossy`. *)

From Stdlib Require Import Strings.Byte ZArith Lia.
From stdpp Require Import base sets numbers strings list.
From S2P Require Import Prelude Text.

Module Utf8.

(** The ranges of the bytes that must follow a leading byte. *)
Definition lead (b : byte) : option (list (Z * Z)) :=
  let v := u8_val b in
  if (v <? 0x80)%Z then Some []
  else if (v <? 0xc2)%Z then None
  else if (v <=? 0xdf)%Z then Some [(0x80, 0xbf)%Z]
  else if (v =? 0xe0)%Z then Some [(0xa0, 0xbf)%Z; (0x80, 0xbf)%Z]
  else if (v =? 0xed)%Z then Some [(0x80, 0x9f)%Z; (0x80, 0xbf)%Z]
  else if (v <=? 0xef)%Z then Some [(0x80, 0xbf)%Z; (0x80, 0xbf)%Z]
  else if (v =? 0xf0)%Z then Some [(0x90, 0xbf)%Z; (0x80, 0xbf)%Z; (0x80, 0xbf)%Z]
  else if (v <=? 0xf3)%Z then Some [(0x80, 0xbf)%Z; (0x80, 0xbf)%Z; (0x80, 0xbf)%Z]
  else if (v =? 0xf4)%Z then Some [(0x80, 0x8f)%Z; (0x80, 0xbf)%Z; (0x80, 0xbf)%Z]
  else None.

Definition in_range (r : Z * Z) (b : byte) : bool :=
  (r.1 <=? u8_val b)%Z && (u8_val b <=? r.2)%Z.

(** Inside a character: its bytes so far and the ranges still expected (not
    empty); [None] between characters. *)
Definition pending : Type := option (list byte * list (Z * Z)).

(** A byte read between characters: what is emitted and the next state;
    [None] when it cannot start a character. *)
Definition start (b : byte) : option (list byte * pending) :=
  match lead b with
  | None => None
  | Some [] => Some ([b], None)
  | Some rs => Some ([], Some ([b], rs))
  end.

(** A byte read inside a character; [None] when it cannot continue it. *)
Definition continue (acc : list byte) (rs : list (Z * Z)) (b : byte) : option (list byte * pending) :=
  match rs with
  | r :: rs' =>
      if in_range r b
      then match rs' with
           | [] => Some (acc ++ [b], None)
           | _ => Some ([], Some (acc ++ [b], rs'))
           end
      else None
  | [] => None
  end.

(** `str::from_utf8(s).is_ok()` *)
Fixpoint valid_from (p : pending) (s : list byte) : bool :=
  match s with
  | [] => match p with None => true | Some _ => false end
  | b :: s' =>
      match (match p with None => start b | Some (acc, rs) => continue acc rs b end) with
      | Some (_, p') => valid_from p' s'
      | None => false
      end
  end.
Definition from_utf8_ok (s : list byte) : bool := valid_from None s.

Definition replacement : list byte := [xef; xbf; xbd].

(** What a byte emits between characters, lossily. *)
Definition restart (b : byte) : list byte * pending :=
  match start b with Some r => r | None => (replacement, None) end.

(** `String::from_utf8_lossy(s)` *)
Fixpoint lossy_from (p : pending) (s : list byte) : list byte :=
  match s with
  | [] => match p with None => [] | Some _ => replacement end
  | b :: s' =>
      match p with
      | None => let '(out, p') := restart b in out ++ lossy_from p' s'
      | Some (acc, rs) =>
          match continue acc rs b with
          | Some (out, p') => out ++ lossy_from p' s'
          | None => replacement ++ (let '(out, p') := restart b in out ++ lossy_from p' s')
          end
      end
  end.
Definition from_utf8_lossy (s : list byte) : list byte := lossy_from None s.

(** `str::trim`, on well-formed UTF-8: white space stripped from the front, then
    from the back.  Each round removes at least one byte, so the length is
    enough fuel. *)
Fixpoint strip_front (fuel : nat) (ws : list (list byte)) (s : list byte) : list byte :=
  match fuel with
  | O => s
  | S f => match strip_any ws s with Some r => strip_front f ws r | None => s end
  end.
Definition trim_start (s : list byte) : list byte := strip_front (length s) white_space s.
Definition trim_end (s : list byte) : list byte :=
  reverse (strip_front (length s) (reverse <$> white_space) (reverse s)).
Definition trim (s : list byte) : list byte := trim_end (trim_start s).

(** `u8::is_ascii_whitespace`: space, tab, line feed, form feed, carriage return. *)
Definition is_ascii_whitespace (b : byte) : bool :=
  bool_decide (b ∈ [x20; x09; x0a; x0c; x0d]).

Definition ascii (b : byte) : Prop := (u8_val b < 128)%Z.
#[global] Instance ascii_dec b : Decision (ascii b).
Proof. unfold ascii. apply _. Defined.

(** ** Well-formed states and ASCII bytes *)

(** Every expected range lies outside ASCII. *)
Definition wf_ranges (rs : list (Z * Z)) : Prop := Forall (fun r => 128 <= r.1)%Z rs.
Definition wf_pending (p : pending) : Prop :=
  match p with None => True | Some (acc, rs) => wf_ranges rs /\ Forall (fun b => ~ ascii b) acc end.

Lemma lead_wf b rs : lead b = Some rs -> wf_ranges rs.
Proof.
  unfold lead, wf_ranges. intros H.
  repeat match type of H with context [if ?c then _ else _] => destruct c end; try done.
  all: injection H as <-; repeat constructor; simpl; lia.
Qed.

Lemma lead_ascii b : ascii b -> lead b = Some [].
Proof. intros H. unfold ascii in H. unfold lead. apply Z.ltb_lt in H. by rewrite H. Qed.

Lemma lead_nil b : lead b = Some [] -> ascii b.
Proof.
  unfold lead, ascii. intros H. destruct (Z.ltb_spec (u8_val b) 0x80); [done|].
  repeat match type of H with context [if ?c then _ else _] => destruct c end; done.
Qed.

Lemma start_wf b out p : start b = Some (out, p) -> wf_pending p.
Proof.
  unfold start. destruct (lead b) as [[|r rs]|] eqn:Hl; intros H; simplify_eq; simpl; [done|].
  split; [by eapply lead_wf|]. constructor; [|done]. intros Ha%lead_ascii. congruence.
Qed.

Lemma restart_wf b : wf_pending (restart b).2.
Proof.
  unfold restart. destruct (start b) as [[out p]|] eqn:H; [by eapply start_wf|done].
Qed.

Lemma continue_wf acc rs b out p :
  wf_pending (Some (acc, rs)) -> continue acc rs b = Some (out, p) -> wf_pending p.
Proof.
  intros [Hrs Hacc]. unfold continue. destruct rs as [|r rs]; [done|].
  destruct (in_range r b) eqn:Hr; [|done]. apply Forall_cons in Hrs as [Hr0 Hrs].
  destruct rs; intros H; simplify_eq; simpl; [done|]. split; [done|].
  apply Forall_app. split; [done|]. constructor; [|done].
  unfold in_range, ascii in *. apply andb_true_iff in Hr as [Hr%Z.leb_le _]. lia.
Qed.

Lemma continue_ascii acc rs b : wf_ranges rs -> ascii b -> continue acc rs b = None.
Proof.
  intros Hrs Hb. destruct Hrs as [|r rs Hr _]; [done|]. simpl. unfold in_range, ascii in *.
  destruct (Z.leb_spec r.1 (u8_val b)); [lia|done].
Qed.

Lemma restart_ascii b : ascii b -> restart b = ([b], None).
Proof. intros H. unfold restart, start. by rewrite lead_ascii. Qed.

(** An ASCII byte ends whatever precedes it: decoding distributes over it. *)
Lemma lossy_from_ascii p s b t :
  wf_pending p -> ascii b ->
  lossy_from p (s ++ b :: t) = lossy_from p s ++ b :: lossy_from None t.
Proof.
  intros Hp Hb. revert p Hp. induction s as [|c s IH]; intros p Hp; simpl.
  - destruct p as [[acc rs]|]; rewrite ?continue_ascii by (done || apply Hp);
      rewrite restart_ascii by done; done.
  - pose proof (restart_wf c) as Hw. destruct (restart c) as [out p'] eqn:Hr. simpl in Hw.
    destruct p as [[acc rs]|].
    + destruct (continue acc rs c) as [[out' p'']|] eqn:Hc.
      * rewrite IH by (by eapply continue_wf). by rewrite app_assoc.
      * rewrite IH by done. by rewrite !app_assoc.
    + rewrite IH by done. by rewrite app_assoc.
Qed.

Lemma from_utf8_lossy_ascii s b t :
  ascii b -> from_utf8_lossy (s ++ b :: t) = from_utf8_lossy s ++ b :: from_utf8_lossy t.
Proof. by apply lossy_from_ascii. Qed.

Lemma from_utf8_lossy_ascii_prefix p s :
  Forall ascii p -> from_utf8_lossy (p ++ s) = p ++ from_utf8_lossy s.
Proof.
  induction 1 as [|b p Hb _ IH]; [done|]. simpl.
  change (b :: p ++ s) with ([] ++ b :: p ++ s). by rewrite from_utf8_lossy_ascii, IH by done.
Qed.

Lemma valid_from_ascii p s b t :
  wf_pending p -> ascii b -> valid_from p (s ++ b :: t) = valid_from p s && valid_from None t.
Proof.
  intros Hp Hb. revert p Hp. induction s as [|c s IH]; intros p Hp; simpl.
  - destruct p as [[acc rs]|]; rewrite ?continue_ascii by (done || apply Hp); [done|].
    unfold start. by rewrite lead_ascii.
  - destruct p as [[acc rs]|].
    + destruct (continue acc rs c) as [[out' p'']|] eqn:Hc; [|done].
      apply IH. by eapply continue_wf.
    + destruct (start c) as [[out' p'']|] eqn:Hc; [|done]. apply IH. by eapply start_wf.
Qed.

Lemma from_utf8_ok_ascii s b t :
  ascii b -> from_utf8_ok (s ++ b :: t) = from_utf8_ok s && from_utf8_ok t.
Proof. by apply valid_from_ascii. Qed.

Lemma from_utf8_ok_ascii_prefix p s : Forall ascii p -> from_utf8_ok (p ++ s) = from_utf8_ok s.
Proof.
  induction 1 as [|b p Hb _ IH]; [done|]. simpl.
  change (b :: p ++ s) with ([] ++ b :: p ++ s). by rewrite from_utf8_ok_ascii, IH by done.
Qed.

(** A well-formed string is its own lossy decoding. *)
Lemma lossy_valid p s :
  valid_from p s = true -> lossy_from p s = match p with None => s | Some (acc, _) => acc ++ s end.
Proof.
  revert p. induction s as [|b s IH]; intros p; [by destruct p|]. simpl.
  destruct p as [[acc rs]|].
  - unfold continue. destruct rs as [|r rs]; [done|]. destruct (in_range r b); [|done].
    destruct rs; intros H; rewrite IH by done; by rewrite <-app_assoc.
  - unfold restart, start. destruct (lead b) as [[|r rs]|]; [..|done]; intros H; by rewrite IH.
Qed.

Lemma from_utf8_lossy_valid s : from_utf8_ok s = true -> from_utf8_lossy s = s.
Proof. apply (lossy_valid None). Qed.

(** An ASCII character of the lossy decoding is a byte of the input. *)
Lemma lossy_pending_not_ascii acc rs s b x :
  wf_pending (Some (acc, rs)) -> acc <> [] -> ascii b -> lossy_from (Some (acc, rs)) s <> b :: x.
Proof.
  intros Hp Hacc Hb. assert (~ ascii xef) as Hef by (unfold ascii; vm_compute; done).
  revert acc rs Hp Hacc. induction s as [|c s IH]; intros acc rs Hp Hacc; simpl.
  { unfold replacement. congruence. }
  destruct (continue acc rs c) as [[out p]|] eqn:Hc; [|unfold replacement; simpl; congruence].
  pose proof (continue_wf _ _ _ _ _ Hp Hc) as Hp'. destruct Hp as [_ Hna]. unfold continue in Hc.
  destruct rs as [|r rs]; [done|]. destruct (in_range r c); [|done].
  destruct rs; simplify_eq; simpl.
  - destruct acc as [|a acc]; [done|]. apply Forall_cons in Hna as [Ha _]. simpl. congruence.
  - apply IH; [done|]. by destruct acc.
Qed.

Lemma from_utf8_lossy_cons_inv l b x :
  ascii b -> from_utf8_lossy l = b :: x -> exists l', l = b :: l' /\ x = from_utf8_lossy l'.
Proof.
  intros Hb H. assert (~ ascii xef) as Hef by (unfold ascii; vm_compute; done).
  destruct l as [|c l]; [done|]. unfold from_utf8_lossy in H. simpl in H.
  pose proof (restart_wf c) as Hw. unfold restart, start in *.
  destruct (lead c) as [[|r rs]|] eqn:Hl; simpl in H.
  - injection H as <- <-. eauto.
  - by apply lossy_pending_not_ascii in H.
  - unfold replacement in H. simpl in H. congruence.
Qed.

Lemma from_utf8_lossy_strip p l r :
  Forall ascii p -> strip_prefix p (from_utf8_lossy l) = Some r <->
  exists l', strip_prefix p l = Some l' /\ r = from_utf8_lossy l'.
Proof.
  intros Hp. setoid_rewrite strip_prefix_Some. split.
  - revert l. induction Hp as [|b p Hb Hp IH]; intros l H; [by exists l|].
    simpl in H. apply from_utf8_lossy_cons_inv in H as (l' & -> & H); [|done].
    symmetry in H. apply IH in H as (l'' & -> & ->). by exists l''.
  - intros (l' & -> & ->). by apply from_utf8_lossy_ascii_prefix.
Qed.

Lemma restart_elem b c : ascii b -> b <> c -> b ∉ (restart c).1.
Proof.
  intros Hb Hne. unfold restart, start. destruct (lead c) as [[|]|]; simpl.
  - by rewrite list_elem_of_singleton.
  - apply not_elem_of_nil.
  - unfold replacement. rewrite !elem_of_cons. unfold ascii in Hb.
    intros [->|[->|[->|?%not_elem_of_nil]]]; revert Hb; by vm_compute.
Qed.

Lemma continue_elem acc rs b c out p :
  wf_pending (Some (acc, rs)) -> ascii b -> b <> c -> continue acc rs c = Some (out, p) -> b ∉ out.
Proof.
  intros [_ Hacc] Hb Hne H. unfold continue in H. destruct rs as [|r rs]; [done|].
  destruct (in_range r c); [|done]. destruct rs; simplify_eq; [|apply not_elem_of_nil].
  rewrite elem_of_app, list_elem_of_singleton. intros [Hin|?]; [|done].
  rewrite Forall_forall in Hacc. by apply (Hacc b).
Qed.

Lemma lossy_from_elem p s b : wf_pending p -> ascii b -> b ∉ s -> b ∉ lossy_from p s.
Proof.
  intros Hp Hb. assert (b ∉ replacement) as Hrep.
  { unfold replacement. rewrite !elem_of_cons. unfold ascii in Hb.
    intros [->|[->|[->|?%not_elem_of_nil]]]; revert Hb; by vm_compute. }
  revert p Hp. induction s as [|c s IH]; intros p Hp Hs; cbn [lossy_from].
  { destruct p; [done|apply not_elem_of_nil]. }
  apply not_elem_of_cons in Hs as [Hne Hs].
  pose proof (restart_elem b c Hb Hne) as Hr. pose proof (restart_wf c) as Hw.
  destruct (restart c) as [out p']. simpl in Hr, Hw.
  destruct p as [[acc rs]|].
  - destruct (continue acc rs c) as [[out' p'']|] eqn:Hc; cbn beta iota.
    + rewrite elem_of_app. intros [H|H]; [by eapply continue_elem in Hc|].
      revert H. apply IH; [by eapply continue_wf|done].
    + rewrite !elem_of_app. intros [H|[H|H]]; [done|done|]. revert H. by apply IH.
  - rewrite elem_of_app. intros [H|H]; [done|]. revert H. by apply IH.
Qed.

Lemma lossy_from_nonempty p s : p <> None \/ s <> [] -> lossy_from p s <> [].
Proof.
  revert p. induction s as [|c s IH]; intros p H; simpl.
  { destruct p; [done|]. by destruct H. }
  assert (let '(out, p') := restart c in out ++ lossy_from p' s <> []) as Hr.
  { unfold restart, start. destruct (lead c) as [[|]|]; simpl; [done| |done]. apply IH. by left. }
  destruct (restart c) as [out p']. destruct p as [[acc rs]|]; [|done].
  destruct (continue acc rs c) as [[out' p'']|] eqn:Hc; [|done].
  unfold continue in Hc. destruct rs as [|r rs]; [done|]. destruct (in_range r c); [|done].
  destruct rs; simplify_eq; [by destruct acc|]. apply IH. by left.
Qed.

(** Lossy decoding keeps the lines. *)
Lemma lossy_segments ss :
  segments ss -> split_inclusive_nl (from_utf8_lossy (concat ss)) = from_utf8_lossy <$> ss.
Proof.
  assert (ascii x0a) as Hnl by (vm_compute; done).
  assert (forall s, terminated s -> terminated (from_utf8_lossy s)) as Ht.
  { intros s (l & -> & Hl). rewrite from_utf8_lossy_ascii by done. eexists. split; [done|].
    by apply lossy_from_elem. }
  intros Hss. assert (from_utf8_lossy (concat ss) = concat (from_utf8_lossy <$> ss)) as ->.
  { induction ss as [|s [|s' ss] IH]; [done|simpl; by rewrite !app_nil_r|].
    destruct Hss as [(l & -> & Hl) Hss]. specialize (IH Hss).
    rewrite fmap_cons. cbn [concat] in *. rewrite <-IH, <-app_assoc. cbn [app].
    rewrite !from_utf8_lossy_ascii by done. by rewrite <-app_assoc. }
  apply split_inclusive_concat. induction ss as [|s [|s' ss] IH]; simpl in *; [done| |].
  - destruct Hss as [Hs|[Hne Hs]]; [left; auto|right]. split.
    + apply lossy_from_nonempty. by right.
    + by apply lossy_from_elem.
  - destruct Hss. split; [auto|by apply IH].
Qed.

(** ** Trimming *)

Lemma is_ascii_whitespace_cases (P : byte -> Prop) :
  P x20 -> P x09 -> P x0a -> P x0c -> P x0d -> forall b, is_ascii_whitespace b = true -> P b.
Proof.
  intros ????? b Hb%bool_decide_eq_true.
  repeat (apply elem_of_cons in Hb as [->|Hb]; [done|]). by apply not_elem_of_nil in Hb.
Qed.

Lemma strip_any_shorter ws s r :
  Forall (fun w => w <> []) ws -> strip_any ws s = Some r -> length r < length s.
Proof.
  induction 1 as [|w ws Hw _ IH]; [done|]. simpl. destruct (strip_prefix w s) as [r'|] eqn:E; [|done].
  intros [= <-]. apply strip_prefix_Some in E as ->. rewrite length_app.
  destruct w; [done|]. simpl. lia.
Qed.

(** The characters of [ws] are single ASCII bytes or have no ASCII byte. *)
Definition ws_ok (ws : list (list byte)) : Prop :=
  Forall (fun w => w <> [] /\ (length w = 1 \/ Forall (fun b => ~ ascii b) w)) ws.

Lemma white_space_ok : ws_ok white_space /\ ws_ok (reverse <$> white_space).
Proof.
  assert (forall ws, forallb (fun w => negb (length w =? 0) &&
    ((length w =? 1) || forallb (fun b => negb (bool_decide (ascii b))) w)) ws = true -> ws_ok ws)
    as Hdec.
  { intros ws. unfold ws_ok. rewrite List.forallb_forall, Forall_forall. intros H w Hw.
    apply list_elem_of_In, H in Hw. apply andb_true_iff in Hw as [H1 H2]. split.
    - by intros ->.
    - apply orb_true_iff in H2 as [H2%Nat.eqb_eq|H2]; [by left|right].
      rewrite List.forallb_forall in H2. apply Forall_forall. intros b Hb%list_elem_of_In%H2.
      apply negb_true_iff, bool_decide_eq_false in Hb. done. }
  split; apply Hdec; vm_compute; reflexivity.
Qed.

Lemma strip_any_snoc ws s b :
  ws_ok ws -> ascii b -> s <> [] ->
  strip_any ws (s ++ [b]) = (fun r => r ++ [b]) <$> strip_any ws s.
Proof.
  intros Hws Hb Hs. induction Hws as [|w ws [Hne Hw] _ IH]; [done|]. simpl.
  assert (strip_prefix w (s ++ [b]) = (fun r => r ++ [b]) <$> strip_prefix w s) as ->.
  { clear IH. destruct Hw as [H1|Hna].
    - destruct w as [|x [|]]; [done| |done]. destruct s as [|y s]; [done|]. simpl.
      destruct (decide (x = y)); [|done]. by destruct s.
    - clear Hs Hne. revert s. induction Hna as [|x w Hx _ IH]; intros s; [by destruct s|].
      destruct s as [|y s]; simpl.
      + rewrite decide_False; [done|]. by intros ->.
      + destruct (decide (x = y)); [apply IH|done]. }
  destruct (strip_prefix w s); [done|apply IH].
Qed.

Section trim_front.
Context (ws : list (list byte)) (Hws : ws_ok ws).

#[local] Lemma ws_nonempty : Forall (fun w => w <> []) ws.
Proof. eapply Forall_impl; [exact Hws|]. by intros ? []. Qed.

Lemma strip_front_nil n : strip_front n ws [] = [].
Proof.
  destruct n; [done|]. simpl. destruct (strip_any ws []) as [r|] eqn:E; [|done].
  apply strip_any_shorter in E; [simpl in E; lia|apply ws_nonempty].
Qed.

(** The fuel beyond the length does nothing. *)
Lemma strip_front_fuel n s : length s <= n -> strip_front n ws s = strip_front (length s) ws s.
Proof.
  revert s. induction n as [n IH] using lt_wf_ind. intros s Hs.
  destruct s as [|b s]; [by rewrite strip_front_nil|]. destruct n as [|n]; [simpl in Hs; lia|].
  simpl length. simpl. destruct (strip_any ws (b :: s)) as [r|] eqn:E; [|done].
  apply strip_any_shorter in E; [|apply ws_nonempty]. simpl in *.
  rewrite (IH n) by lia. destruct (decide (length s = n)) as [->|]; [by rewrite (IH n) by lia|].
  rewrite (IH (length s)) by lia. done.
Qed.

Lemma strip_front_step s r :
  strip_any ws s = Some r -> strip_front (length s) ws s = strip_front (length r) ws r.
Proof.
  intros E. pose proof (strip_any_shorter _ _ _ ws_nonempty E).
  destruct s as [|b s]; [simpl in *; lia|]. simpl length. cbn [strip_front]. rewrite E.
  apply strip_front_fuel. simpl in *. lia.
Qed.

Lemma strip_front_stop s : strip_any ws s = None -> strip_front (length s) ws s = s.
Proof. destruct s; [done|]. simpl. by intros ->. Qed.

Lemma strip_front_snoc s b :
  ascii b ->
  strip_front (length (s ++ [b])) ws (s ++ [b]) =
  match strip_front (length s) ws s with
  | [] => strip_front 1 ws [b]
  | r => r ++ [b]
  end.
Proof.
  intros Hb. remember (length s) as n eqn:Hn. revert s Hn.
  induction n as [n IH] using lt_wf_ind. intros s ->.
  destruct s as [|c s]; [done|]. destruct (strip_any ws (c :: s)) as [r|] eqn:E.
  - rewrite (strip_front_step _ _ E).
    rewrite (strip_front_step ((c :: s) ++ [b]) (r ++ [b])) by by rewrite strip_any_snoc, E.
    apply (IH (length r)); [|done]. by apply (strip_any_shorter _ _ _ ws_nonempty E).
  - rewrite (strip_front_stop (c :: s)) by done.
    by rewrite strip_front_stop by (by rewrite strip_any_snoc, E).
Qed.

End trim_front.

Lemma ascii_whitespace_ascii b : is_ascii_whitespace b = true -> ascii b.
Proof. revert b. apply is_ascii_whitespace_cases; vm_compute; done. Qed.

Lemma strip_any_ascii_ws b s :
  is_ascii_whitespace b = true ->
  strip_any white_space (b :: s) = Some s /\ strip_any (reverse <$> white_space) (b :: s) = Some s.
Proof. revert b. apply is_ascii_whitespace_cases; done. Qed.

(** ASCII white space at either end is trimmed away. *)
Lemma trim_ws_l b s : is_ascii_whitespace b = true -> trim (b :: s) = trim s.
Proof.
  intros Hb. unfold trim, trim_start. f_equal. apply strip_front_step; [apply white_space_ok|].
  exact (proj1 (strip_any_ascii_ws b s Hb)).
Qed.

Lemma trim_end_ws s b : is_ascii_whitespace b = true -> trim_end (s ++ [b]) = trim_end s.
Proof.
  intros Hb. unfold trim_end. f_equal.
  rewrite <-(length_reverse (s ++ [b])), <-(length_reverse s), reverse_snoc.
  apply strip_front_step; [apply white_space_ok|].
  exact (proj2 (strip_any_ascii_ws b (reverse s) Hb)).
Qed.

Lemma trim_ws_r s b : is_ascii_whitespace b = true -> trim (s ++ [b]) = trim s.
Proof.
  intros Hb. unfold trim, trim_start.
  rewrite strip_front_snoc by (apply white_space_ok || by apply ascii_whitespace_ascii).
  destruct (strip_front (length s) white_space s) as [|c r] eqn:E; [|by apply trim_end_ws].
  cbn [strip_front]. by rewrite (proj1 (strip_any_ascii_ws b [] Hb)).
Qed.

Lemma strip_any_head ws b s : Forall (fun w => w <> [] /\ head w <> Some b) ws -> strip_any ws (b :: s) = None.
Proof.
  induction 1 as [|w ws [Hne Hw] _ IH]; [done|]. simpl.
  destruct w as [|x w]; [done|]. simpl. rewrite decide_False; [done|]. by intros ->.
Qed.

Definition visible (b : byte) : Prop := (33 <= u8_val b < 127)%Z.
#[global] Instance visible_dec b : Decision (visible b).
Proof. unfold visible. apply _. Defined.

Lemma strip_any_visible b s :
  visible b -> strip_any white_space (b :: s) = None /\ strip_any (reverse <$> white_space) (b :: s) = None.
Proof.
  intros Hb. assert (visible b ->
    Forall (fun w => w <> [] /\ head w <> Some b) white_space /\
    Forall (fun w => w <> [] /\ head w <> Some b) (reverse <$> white_space)) as Hh.
  { clear. by_all_bytes b. }
  destruct (Hh Hb). split; by apply strip_any_head.
Qed.

(** A string that starts and ends with a visible ASCII character is trimmed. *)
Lemma trim_visible b s c : visible b -> visible c -> trim (b :: s ++ [c]) = b :: s ++ [c].
Proof.
  intros Hb Hc. unfold trim, trim_start.
  rewrite (strip_front_stop _ _ (proj1 (strip_any_visible b (s ++ [c]) Hb))).
  unfold trim_end. rewrite <-(length_reverse (b :: s ++ [c])).
  change (b :: s ++ [c]) with ((b :: s) ++ [c]). rewrite reverse_snoc.
  rewrite (strip_front_stop _ _ (proj2 (strip_any_visible c (reverse (b :: s)) Hc))).
  by rewrite <-reverse_snoc, reverse_involutive.
Qed.

Lemma trim_one b : visible b -> trim [b] = [b].
Proof.
  intros Hb. unfold trim, trim_start.
  rewrite (strip_front_stop _ _ (proj1 (strip_any_visible b [] Hb))).
  unfold trim_end. change (reverse [b]) with [b].
  by rewrite (strip_front_stop _ [b] (proj2 (strip_any_visible b [] Hb))).
Qed.

(** What is left has no white space in front, and is a suffix. *)
Lemma strip_front_done ws s : ws_ok ws -> strip_any ws (strip_front (length s) ws s) = None.
Proof.
  intros Hws. remember (length s) as n eqn:Hn. revert s Hn.
  induction n as [n IH] using lt_wf_ind. intros s ->.
  destruct (strip_any ws s) as [r|] eqn:E.
  - rewrite (strip_front_step _ Hws _ _ E). apply (IH (length r)); [|done].
    by apply (strip_any_shorter _ _ _ (ws_nonempty _ Hws) E).
  - by rewrite strip_front_stop.
Qed.

Lemma strip_front_suffix fuel ws s : exists p, s = p ++ strip_front fuel ws s.
Proof.
  revert s. induction fuel as [|f IH]; intros s; simpl; [by exists []|].
  destruct (strip_any ws s) as [r|] eqn:E; [|by exists []].
  assert (exists w, s = w ++ r) as [w ->].
  { clear IH. revert E. induction ws as [|w ws IHw]; [done|]. simpl.
    destruct (strip_prefix w s) eqn:Ew; [|exact IHw]. intros [= ->]. apply strip_prefix_Some in Ew. by exists w. }
  destruct (IH r) as [p Hp]. exists (w ++ p). rewrite <-app_assoc. f_equal. exact Hp.
Qed.

Lemma strip_any_prefix ws s t : strip_any ws (s ++ t) = None -> strip_any ws s = None.
Proof.
  induction ws as [|w ws IH]; [done|]. simpl. destruct (strip_prefix w (s ++ t)) eqn:E; [done|].
  intros H. destruct (strip_prefix w s) eqn:E'; [|by apply IH].
  apply strip_prefix_Some in E' as ->. by rewrite <-app_assoc, strip_prefix_app in E.
Qed.

Lemma trim_idemp s : trim (trim s) = trim s.
Proof.
  destruct white_space_ok as [Hw Hr]. unfold trim at 2 3. set (u := trim_start s).
  assert (strip_any white_space u = None) as Hu by by apply strip_front_done.
  set (m := strip_front (length u) (reverse <$> white_space) (reverse u)).
  assert (strip_any (reverse <$> white_space) m = None) as Hm.
  { unfold m. rewrite <-(length_reverse u). by apply strip_front_done. }
  change (trim (reverse m) = reverse m). unfold trim, trim_start.
  rewrite strip_front_stop.
  - unfold trim_end. rewrite <-(length_reverse (reverse m)), reverse_involutive. by rewrite strip_front_stop.
  - destruct (strip_front_suffix (length u) (reverse <$> white_space) (reverse u)) as [p Hp].
    fold m in Hp. apply (strip_any_prefix _ _ (reverse p)).
    by rewrite <-reverse_app, <-Hp, reverse_involutive.
Qed.

End Utf8.
