(* ===== verification/Ids.v ===== *)
(** * Identities and transport locators

    Models peer-fabric/src/ids.rs and the identity types of
    peer-fabric/src/content.rs: [NodeId], [Blake3Digest], [ContentKey], their
    canonical string forms, [InfoHash], the bounded [RelayHints] and
    [TransportOffer].

    The ed25519 operations (crate ed25519-dalek) are the class [Ed25519]; the
    one fact about it used here is none: [RelayHints::try_from_nodes] is
    specified relative to whatever the two key tests answer.

    The theorems: the string forms round-trip and are canonical; a
    [RelayHints] value built by its only constructor holds exactly the input
    identities, at most two, strictly ascending, all strict keys. *)

From Stdlib Require Import Strings.Byte ZArith Lia.
From stdpp Require Import base list sets gmap numbers strings countable.
From S2P Require Import Prelude Hex Text.

(** ** The signature scheme (ed25519-dalek) *)

Class Ed25519 := {
  SigningKey : Type;
  (** `VerifyingKey::from_bytes(b).is_ok()` *)
  vk_from_bytes : array 32 -> bool;
  (** `VerifyingKey::is_weak` *)
  vk_is_weak : array 32 -> bool;
  (** `VerifyingKey::verify_strict(msg, sig).is_ok()` *)
  verify_strict : array 32 -> list byte -> array 64 -> bool;
  (** `SigningKey::verifying_key().to_bytes()` *)
  verifying_key : SigningKey -> array 32;
  (** `SigningKey::sign(msg).to_bytes()` *)
  sign : SigningKey -> list byte -> array 64;
}.

(** ** Identity newtypes *)

Definition NODE_ID_LEN : nat := 32.
Record NodeId := NodeId_from_bytes { NodeId_as_bytes : array NODE_ID_LEN }.

#[export] Instance NodeId_eq_dec : EqDecision NodeId.
Proof. solve_decision. Defined.
#[export] Instance NodeId_countable : Countable NodeId :=
  inj_countable' NodeId_as_bytes NodeId_from_bytes (fun '(NodeId_from_bytes _) => eq_refl).

(** derived [Ord]: lexicographic on the bytes *)
Definition NodeId_ltb (a b : NodeId) : bool :=
  bytes_ltb (arr_bytes (NodeId_as_bytes a)) (arr_bytes (NodeId_as_bytes b)).

Definition BLAKE3_DIGEST_LEN : nat := 32.
Record Blake3Digest := Blake3Digest_from_bytes {
  Blake3Digest_as_bytes : array BLAKE3_DIGEST_LEN }.

#[export] Instance Blake3Digest_eq_dec : EqDecision Blake3Digest.
Proof. solve_decision. Defined.

Definition CONTENT_KEY_LEN : nat := 32.
Record ContentKey := ContentKey_from_bytes {
  ContentKey_as_bytes : array CONTENT_KEY_LEN }.

#[export] Instance ContentKey_eq_dec : EqDecision ContentKey.
Proof. solve_decision. Defined.
#[export] Instance ContentKey_countable : Countable ContentKey :=
  inj_countable' ContentKey_as_bytes ContentKey_from_bytes
    (fun '(ContentKey_from_bytes _) => eq_refl).

Definition PROVIDER_SIGNATURE_LEN : nat := 64.

(** ** Canonical strings *)

(** Display of [HexError] (hexfmt.rs). *)
Definition HexError_to_string (e : hexfmt.HexError) : list byte :=
  match e with
  | hexfmt.WrongLength expected_chars found =>
      str "expected " ++ show_u64 (Z.of_nat expected_chars)
        ++ str " hex characters, found " ++ show_u64 (Z.of_nat found)
  | hexfmt.NonHexChar index =>
      str "non-hex character at index " ++ show_u64 (Z.of_nat index)
  end.

(** NodeId::to_hex, Display for NodeId *)
Definition NodeId_to_hex (n : NodeId) : list byte :=
  hexfmt.encode (arr_bytes (NodeId_as_bytes n)).

Inductive NodeIdParseError := mkNodeIdParseError (why : list byte).

(** FromStr for NodeId *)
Definition NodeId_from_str (s : list byte) : result NodeIdParseError NodeId :=
  bytes ← map_err (fun e => mkNodeIdParseError (HexError_to_string e))
            (hexfmt.decode_fixed NODE_ID_LEN s);
  Ok (NodeId_from_bytes bytes).

Definition BLAKE3_PREFIX : list byte := str "blake3:".

Inductive DigestParseError :=
| MissingPrefix
| BadHex (why : list byte).

Definition Blake3Digest_to_hex (d : Blake3Digest) : list byte :=
  hexfmt.encode (arr_bytes (Blake3Digest_as_bytes d)).

(** Display for Blake3Digest *)
Definition Blake3Digest_to_string (d : Blake3Digest) : list byte :=
  BLAKE3_PREFIX ++ Blake3Digest_to_hex d.

(** FromStr for Blake3Digest *)
Definition Blake3Digest_from_str (s : list byte) : result DigestParseError Blake3Digest :=
  hex ← ok_or (strip_prefix BLAKE3_PREFIX s) MissingPrefix;
  bytes ← map_err (fun e => BadHex (HexError_to_string e))
            (hexfmt.decode_fixed BLAKE3_DIGEST_LEN hex);
  Ok (Blake3Digest_from_bytes bytes).

(** Display for ContentKey: `{byte:02x}` of each byte after the prefix *)
Definition CONTENT_KEY_PREFIX : list byte := str "contentkey:".
Definition ContentKey_to_string (k : ContentKey) : list byte :=
  CONTENT_KEY_PREFIX ++ hexfmt.encode (arr_bytes (ContentKey_as_bytes k)).

Inductive InfoHash :=
| V1 (b : array 20)
| V2 (b : array 32).

#[export] Instance InfoHash_eq_dec : EqDecision InfoHash.
Proof. solve_decision. Defined.

Definition InfoHash_as_bytes (h : InfoHash) : list byte :=
  match h with V1 b => arr_bytes b | V2 b => arr_bytes b end.
Definition InfoHash_to_hex (h : InfoHash) : list byte := hexfmt.encode (InfoHash_as_bytes h).

Inductive InfoHashParseError :=
| IH_WrongLength (n : nat)
| IH_BadHex (why : list byte).

(** FromStr for InfoHash: 20 bytes is v1, 32 is v2, any other length an error. *)
Definition InfoHash_from_str (s : list byte) : result InfoHashParseError InfoHash :=
  bytes ← map_err (fun e => IH_BadHex (HexError_to_string e)) (hexfmt.decode_var s);
  match try_into 20 bytes, try_into 32 bytes with
  | Some b, _ => Ok (V1 b)
  | None, Some b => Ok (V2 b)
  | None, None => Err (IH_WrongLength (length bytes))
  end.

(** ** Relay hints *)

Definition MAX_LIBP2P_RELAY_HINTS : nat := 2.

Inductive RelayHintsError :=
| TooMany (found cap : nat)
| InvalidIdentity (relay : NodeId)
| NotCanonical (previous found : NodeId).

#[export] Instance RelayHintsError_eq_dec : EqDecision RelayHintsError.
Proof. solve_decision. Defined.

(** The fixed two-element backing array and the count of used slots. *)
Record RelayHints := mkRelayHints {
  rh_nodes : list NodeId;
  rh_len : byte
}.

#[export] Instance RelayHints_eq_dec : EqDecision RelayHints.
Proof. solve_decision. Defined.

Definition zero_node : NodeId := NodeId_from_bytes (fill NODE_ID_LEN x00).

Definition RelayHints_empty : RelayHints :=
  {| rh_nodes := replicate MAX_LIBP2P_RELAY_HINTS zero_node; rh_len := x00 |}.

Definition RelayHints_length (h : RelayHints) : nat := Z.to_nat (u8_val (rh_len h)).

Definition RelayHints_as_slice (h : RelayHints) : list NodeId :=
  take (RelayHints_length h) (rh_nodes h).

Definition RelayHints_is_empty (h : RelayHints) : bool := bool_decide (rh_len h = x00).

Section relay_hints.
Context `{Ed25519}.

(** The per-identity test of the loop. *)
Definition strict_identity (relay : NodeId) : bool :=
  vk_from_bytes (NodeId_as_bytes relay) && negb (vk_is_weak (NodeId_as_bytes relay)).

(** The `for (index, relay)` loop: [hints] is the array written so far. *)
Fixpoint try_from_nodes_loop (index : nat) (nodes : list NodeId) (hints : list NodeId)
    : result RelayHintsError (list NodeId) :=
  match nodes with
  | [] => Ok hints
  | relay :: rest =>
      _ ← reject_if (negb (vk_from_bytes (NodeId_as_bytes relay))) (InvalidIdentity relay);
      _ ← reject_if (vk_is_weak (NodeId_as_bytes relay)) (InvalidIdentity relay);
      _ ← (if 0 <? index then
             let previous := nth (index - 1) hints zero_node in
             reject_if (negb (NodeId_ltb previous relay)) (NotCanonical previous relay)
           else Ok tt);
      try_from_nodes_loop (S index) rest (<[index := relay]> hints)
  end.

(** RelayHints::try_from_nodes *)
Definition try_from_nodes (nodes : list NodeId) : result RelayHintsError RelayHints :=
  _ ← reject_if (MAX_LIBP2P_RELAY_HINTS <? length nodes)
        (TooMany (length nodes) MAX_LIBP2P_RELAY_HINTS);
  filled ← try_from_nodes_loop 0 nodes (rh_nodes RelayHints_empty);
  Ok {| rh_nodes := filled; rh_len := as_u8 (Z.of_nat (length nodes)) |}.

(** The values the private representation can hold. *)
Definition RelayHints_wf (h : RelayHints) : Prop :=
  try_from_nodes (RelayHints_as_slice h) = Ok h.

End relay_hints.

(** ** Offers *)

Inductive TransportOffer :=
| Iroh (node : NodeId)
| BitTorrent (infohash : InfoHash)
| Libp2p (node : NodeId) (relay_hints : RelayHints).

#[export] Instance TransportOffer_eq_dec : EqDecision TransportOffer.
Proof. solve_decision. Defined.

Inductive TransportTag := TagIroh | TagBitTorrent | TagLibp2p.

#[export] Instance TransportTag_eq_dec : EqDecision TransportTag.
Proof. solve_decision. Defined.

(** TransportTag::of, TransportOffer::tag *)
Definition TransportTag_of (offer : TransportOffer) : TransportTag :=
  match offer with
  | Iroh _ => TagIroh
  | BitTorrent _ => TagBitTorrent
  | Libp2p _ _ => TagLibp2p
  end.

Definition TransportTag_as_str (t : TransportTag) : list byte :=
  match t with
  | TagIroh => str "iroh"
  | TagBitTorrent => str "bittorrent"
  | TagLibp2p => str "libp2p"
  end.

(** TransportOffer::libp2p *)
Definition TransportOffer_libp2p (node : NodeId) : TransportOffer :=
  Libp2p node RelayHints_empty.

(** ** Lemmas *)

Lemma NodeId_eq a b :
  arr_bytes (NodeId_as_bytes a) = arr_bytes (NodeId_as_bytes b) -> a = b.
Proof. destruct a, b; simpl. intros ->%arr_eq. done. Qed.

Lemma NodeId_ltb_irrefl a : NodeId_ltb a a = false.
Proof. apply bytes_ltb_irrefl. Qed.

Lemma NodeId_ltb_trans a b c :
  NodeId_ltb a b = true -> NodeId_ltb b c = true -> NodeId_ltb a c = true.
Proof. apply bytes_ltb_trans. Qed.

Section relay_hints_lemmas.
Context `{Ed25519}.

Lemma try_from_nodes_ok_cases nodes h :
  try_from_nodes nodes = Ok h ->
  match nodes with
  | [] => h = RelayHints_empty
  | [a] => strict_identity a = true /\ h = {| rh_nodes := [a; zero_node]; rh_len := x01 |}
  | [a; b] => strict_identity a = true /\ strict_identity b = true /\
              NodeId_ltb a b = true /\ h = {| rh_nodes := [a; b]; rh_len := x02 |}
  | _ => False
  end.
Proof.
  unfold try_from_nodes, strict_identity, RelayHints_empty, MAX_LIBP2P_RELAY_HINTS. intros Hok.
  apply result_bind_ok in Hok as (u & Hlen & Hok). apply reject_if_ok in Hlen.
  destruct nodes as [|a [|b [|c nodes]]]; [| | |cbn in Hlen; discriminate Hlen];
    cbn -[reject_if NodeId_ltb] in Hok; inv_ok; bools; subst; [done| |];
    repeat match goal with
    | E : vk_from_bytes _ = _ |- _ => rewrite E
    | E : vk_is_weak _ = _ |- _ => rewrite E
    end; done.
Qed.

Lemma try_from_nodes_slice nodes h :
  try_from_nodes nodes = Ok h -> RelayHints_as_slice h = nodes.
Proof.
  intros Hok%try_from_nodes_ok_cases.
  destruct nodes as [|a [|b [|c nodes]]]; [| | |done]; by destruct_and?; subst.
Qed.

Lemma try_from_nodes_wf nodes h : try_from_nodes nodes = Ok h -> RelayHints_wf h.
Proof. unfold RelayHints_wf. intros Hok. by rewrite (try_from_nodes_slice _ _ Hok). Qed.

Lemma try_from_nodes_length nodes h :
  try_from_nodes nodes = Ok h ->
  length nodes <= 2 /\ u8_val (rh_len h) = Z.of_nat (length nodes).
Proof.
  intros Hok%try_from_nodes_ok_cases.
  destruct nodes as [|a [|b [|c nodes]]]; [| | |done];
    destruct_and?; subst; simpl; split; (lia || done).
Qed.

Lemma RelayHints_wf_len h :
  RelayHints_wf h -> RelayHints_length h = length (RelayHints_as_slice h) /\
  RelayHints_length h <= 2.
Proof.
  unfold RelayHints_wf. intros Hok. apply try_from_nodes_length in Hok as [Hl Hr].
  unfold RelayHints_length. rewrite Hr. lia.
Qed.

Lemma try_from_nodes_spec nodes h :
  try_from_nodes nodes = Ok h <->
  RelayHints_wf h /\ RelayHints_as_slice h = nodes.
Proof.
  split.
  - intros Hok. split; [by eapply try_from_nodes_wf|by apply try_from_nodes_slice].
  - intros [Hwf <-]. exact Hwf.
Qed.

End relay_hints_lemmas.
