(* ===== verification/RecordCodec.v ===== *)
(** * The provider-record wire codec

    Models peer-fabric/src/record_codec.rs and the [ProviderRecord] of
    peer-fabric/src/content.rs: the frozen binary layout, the signing
    preimage, the signer, the bounds-checked reader and the fail-closed
    decoder.

    A Rust panic (`assert!`) is [None] of an outer [option]; a typed error is
    [Err].  Numbers keep the source's order of checks, because each guard has
    its own error value.

    The theorems characterise acceptance exactly ([decode_spec]): the decoder
    accepts a byte string iff it is the encoding of the assertion it returns,
    and that assertion is well-formed, authentic, stored under the right key
    and unexpired.  So there is one accepted encoding per value, and a signed
    record round-trips through the wire. *)

From Stdlib Require Import Strings.Byte ZArith Lia.
From stdpp Require Import base list sets gmap numbers strings sorting.
From S2P Require Import Prelude Hex Text Ids.

(** ** Data *)

Record ProviderRecord := mkProviderRecord {
  pr_key : ContentKey;
  pr_content : Blake3Digest;
  pr_provider : NodeId;
  pr_offers : list TransportOffer;
  pr_sequence : Z;
  pr_issued_at : Z;
  pr_expiry : Z;
  pr_signature : array PROVIDER_SIGNATURE_LEN
}.

#[export] Instance ProviderRecord_eq_dec : EqDecision ProviderRecord.
Proof. solve_decision. Defined.

Record ProviderWithdrawal := mkProviderWithdrawal {
  pw_key : ContentKey;
  pw_provider : NodeId;
  pw_sequence : Z;
  pw_issued_at : Z;
  pw_expiry : Z;
  pw_signature : array PROVIDER_SIGNATURE_LEN
}.

#[export] Instance ProviderWithdrawal_eq_dec : EqDecision ProviderWithdrawal.
Proof. solve_decision. Defined.

Inductive ProviderAssertion :=
| Provide (r : ProviderRecord)
| Withdraw (w : ProviderWithdrawal).

#[export] Instance ProviderAssertion_eq_dec : EqDecision ProviderAssertion.
Proof. solve_decision. Defined.

Definition pa_key (a : ProviderAssertion) : ContentKey :=
  match a with Provide r => pr_key r | Withdraw w => pw_key w end.
Definition pa_provider (a : ProviderAssertion) : NodeId :=
  match a with Provide r => pr_provider r | Withdraw w => pw_provider w end.
Definition pa_sequence (a : ProviderAssertion) : Z :=
  match a with Provide r => pr_sequence r | Withdraw w => pw_sequence w end.
Definition pa_expiry (a : ProviderAssertion) : Z :=
  match a with Provide r => pr_expiry r | Withdraw w => pw_expiry w end.
Definition pa_is_withdrawal (a : ProviderAssertion) : bool :=
  match a with Provide _ => false | Withdraw _ => true end.
Definition pa_signature (a : ProviderAssertion) : array PROVIDER_SIGNATURE_LEN :=
  match a with Provide r => pr_signature r | Withdraw w => pw_signature w end.

Inductive RecordEncodeError :=
| EncTooManyOffers (found cap : nat)
| EncOversized (len cap : nat)
| EncOffersNotCanonical
| EncIrohNodeNotProvider (offer_node provider : NodeId)
| EncLibp2pNodeNotProvider (offer_node provider : NodeId)
| EncLibp2pRelayIsProvider (relay provider : NodeId)
| EncMultipleLibp2pOffers (found : nat).

#[export] Instance RecordEncodeError_eq_dec : EqDecision RecordEncodeError.
Proof. solve_decision. Defined.

Inductive RecordDecodeError :=
| Oversized (len cap : nat)
| Truncated (need have : nat)
| TrailingBytes (extra : nat)
| UnknownVersion (found expected : Z)
| UnknownKind (found : byte)
| UnknownOffer (tag : byte)
| BadInfoHash (version : byte)
| TooManyOffers (found cap : nat)
| OffersNotCanonical
| IrohNodeNotProvider (offer_node provider : NodeId)
| Libp2pNodeNotProvider (offer_node provider : NodeId)
| TooManyRelayHints (found cap : nat)
| RelayHintsNotCanonical
| BadRelayIdentity (relay : NodeId)
| Libp2pRelayIsProvider (relay provider : NodeId)
| MultipleLibp2pOffers (found : nat)
| BadProviderKey
| NonCanonicalSignature
| BadSignature
| WrongKey (expected found : ContentKey)
| Stale (expiry now : Z).

#[export] Instance RecordDecodeError_eq_dec : EqDecision RecordDecodeError.
Proof. solve_decision. Defined.

(** ** Constants *)

Definition PROVIDER_RECORD_SCHEMA_VERSION : Z := 1.
Definition MAX_OFFERS_PER_RECORD : nat := 4.
Definition MAX_PROVIDER_RECORD_BYTES : nat := 1024.
Definition SIGNING_DOMAIN : list byte :=
  str "nix-p2p/discovery/ProviderRecord/v1" ++ [x00].
Definition KIND_PROVIDE : byte := x00.
Definition KIND_WITHDRAW : byte := x01.
Definition OFFER_IROH : byte := x00.
Definition OFFER_BITTORRENT : byte := x01.
Definition OFFER_LIBP2P : byte := x02.
Definition INFOHASH_V1 : byte := x01.
Definition INFOHASH_V2 : byte := x02.
Definition BODY_HEADER_LEN : nat := 2 + 1 + 32 + 32 + 8 + 8 + 8.

Definition node_bytes (n : NodeId) : list byte := arr_bytes (NodeId_as_bytes n).

(** ** Encode *)

Definition write_offer (out : list byte) (offer : TransportOffer) : list byte :=
  match offer with
  | Iroh node => out ++ [OFFER_IROH] ++ node_bytes node
  | BitTorrent (V1 b) => out ++ [OFFER_BITTORRENT] ++ [INFOHASH_V1] ++ arr_bytes b
  | BitTorrent (V2 b) => out ++ [OFFER_BITTORRENT] ++ [INFOHASH_V2] ++ arr_bytes b
  | Libp2p node relay_hints =>
      foldl (fun out relay => out ++ node_bytes relay)
        (out ++ [OFFER_LIBP2P] ++ node_bytes node
             ++ [as_u8 (Z.of_nat (RelayHints_length relay_hints))])
        (RelayHints_as_slice relay_hints)
  end.

Definition offer_encoding (offer : TransportOffer) : list byte := write_offer [] offer.

Definition offers_are_canonical (offers : list TransportOffer) : bool :=
  windows2_all (fun a b => bytes_ltb (offer_encoding a) (offer_encoding b)) offers.

(** The loop over the offers of [check_provide_invariants]: the count of
    libp2p offers, or the first violation. *)
Fixpoint check_offer_identities (provider : NodeId) (libp2p_offers : nat)
    (offers : list TransportOffer) : result RecordEncodeError nat :=
  match offers with
  | [] => Ok libp2p_offers
  | Iroh node :: rest =>
      _ ← reject_if (bool_decide (node <> provider)) (EncIrohNodeNotProvider node provider);
      check_offer_identities provider libp2p_offers rest
  | Libp2p node relay_hints :: rest =>
      _ ← reject_if (bool_decide (node <> provider)) (EncLibp2pNodeNotProvider node provider);
      _ ← reject_if (bool_decide (provider ∈ RelayHints_as_slice relay_hints))
            (EncLibp2pRelayIsProvider provider provider);
      check_offer_identities provider (S libp2p_offers) rest
  | BitTorrent _ :: rest => check_offer_identities provider libp2p_offers rest
  end.

Definition check_provide_invariants (record : ProviderRecord)
    : result RecordEncodeError unit :=
  _ ← reject_if (MAX_OFFERS_PER_RECORD <? length (pr_offers record))
        (EncTooManyOffers (length (pr_offers record)) MAX_OFFERS_PER_RECORD);
  _ ← reject_if (negb (offers_are_canonical (pr_offers record))) EncOffersNotCanonical;
  libp2p_offers ← check_offer_identities (pr_provider record) 0 (pr_offers record);
  reject_if (1 <? libp2p_offers) (EncMultipleLibp2pOffers libp2p_offers).

(** The bytes of [provide_body] after its assertion. *)
Definition provide_body_bytes (record : ProviderRecord) : list byte :=
  foldl write_offer
    (to_be_bytes 2 PROVIDER_RECORD_SCHEMA_VERSION
     ++ [KIND_PROVIDE]
     ++ arr_bytes (ContentKey_as_bytes (pr_key record))
     ++ node_bytes (pr_provider record)
     ++ to_be_bytes 8 (pr_sequence record)
     ++ to_be_bytes 8 (pr_issued_at record)
     ++ to_be_bytes 8 (pr_expiry record)
     ++ arr_bytes (Blake3Digest_as_bytes (pr_content record))
     ++ [as_u8 (Z.of_nat (length (pr_offers record)))])
    (pr_offers record).

(** [None] is the `assert!` on the offer cap. *)
Definition provide_body (record : ProviderRecord) : option (list byte) :=
  if length (pr_offers record) <=? MAX_OFFERS_PER_RECORD
  then Some (provide_body_bytes record) else None.

Definition withdraw_body (w : ProviderWithdrawal) : list byte :=
  to_be_bytes 2 PROVIDER_RECORD_SCHEMA_VERSION
  ++ [KIND_WITHDRAW]
  ++ arr_bytes (ContentKey_as_bytes (pw_key w))
  ++ node_bytes (pw_provider w)
  ++ to_be_bytes 8 (pw_sequence w)
  ++ to_be_bytes 8 (pw_issued_at w)
  ++ to_be_bytes 8 (pw_expiry w).

Definition signing_preimage (body : list byte) : list byte := SIGNING_DOMAIN ++ body.

Definition provider_record_signing_bytes (record : ProviderRecord) : option (list byte) :=
  body ← provide_body record; Some (signing_preimage body).

Definition provider_withdrawal_signing_bytes (w : ProviderWithdrawal) : list byte :=
  signing_preimage (withdraw_body w).

Definition check_encoded_size (len : nat) : result RecordEncodeError unit :=
  reject_if (MAX_PROVIDER_RECORD_BYTES <? len) (EncOversized len MAX_PROVIDER_RECORD_BYTES).

(** The `Result` is [None] only where the code panics. *)
Definition encode_provider_record (record : ProviderRecord)
    : option (result RecordEncodeError (list byte)) :=
  match check_provide_invariants record with
  | Err e => Some (Err e)
  | Ok _ =>
      body ← provide_body record;
      let out := body ++ arr_bytes (pr_signature record) in
      Some (_ ← check_encoded_size (length out); Ok out)
  end.

Definition encode_provider_withdrawal (w : ProviderWithdrawal)
    : result RecordEncodeError (list byte) :=
  let out := withdraw_body w ++ arr_bytes (pw_signature w) in
  _ ← check_encoded_size (length out); Ok out.

Definition encode_provider_assertion (a : ProviderAssertion)
    : option (result RecordEncodeError (list byte)) :=
  match a with
  | Provide r => encode_provider_record r
  | Withdraw w => Some (encode_provider_withdrawal w)
  end.

(** ** Sign *)

(** `sort_by_key`: a stable insertion sort by the wire encoding. *)
Fixpoint insert_offer (o : TransportOffer) (l : list TransportOffer) : list TransportOffer :=
  match l with
  | [] => [o]
  | p :: l' =>
      if bytes_ltb (offer_encoding p) (offer_encoding o)
      then p :: insert_offer o l' else o :: p :: l'
  end.
Definition sort_offers (l : list TransportOffer) : list TransportOffer :=
  foldr insert_offer [] l.

Section codec.
Context `{Ed25519}.

(** The assertion loop of [sign_provider_record]; [None] is a failed assert. *)
Fixpoint sign_offer_asserts (provider : NodeId) (libp2p_offers : nat)
    (offers : list TransportOffer) : option nat :=
  match offers with
  | [] => Some libp2p_offers
  | Iroh node :: rest =>
      if bool_decide (node = provider)
      then sign_offer_asserts provider libp2p_offers rest else None
  | Libp2p node relay_hints :: rest =>
      if bool_decide (node = provider)
         && negb (bool_decide (provider ∈ RelayHints_as_slice relay_hints))
      then sign_offer_asserts provider (S libp2p_offers) rest else None
  | BitTorrent _ :: rest => sign_offer_asserts provider libp2p_offers rest
  end.

Definition UNSET_PROVIDER : NodeId := zero_node.

(** [debug]: whether `debug_assert!` is compiled in. *)
Definition sign_provider_record (debug : bool) (signing_key : SigningKey)
    (record : ProviderRecord) : option ProviderRecord :=
  let provider := NodeId_from_bytes (verifying_key signing_key) in
  if debug && negb (bool_decide (pr_provider record = UNSET_PROVIDER)
                    || bool_decide (pr_provider record = provider))
  then None else
  libp2p_offers ← sign_offer_asserts provider 0 (pr_offers record);
  if negb (libp2p_offers <=? 1) then None else
  let offers := sort_offers (pr_offers record) in
  if negb (offers_are_canonical offers) then None else
  let signed := {| pr_key := pr_key record; pr_content := pr_content record;
    pr_provider := provider; pr_offers := offers; pr_sequence := pr_sequence record;
    pr_issued_at := pr_issued_at record; pr_expiry := pr_expiry record;
    pr_signature := fill PROVIDER_SIGNATURE_LEN x00 |} in
  preimage ← provider_record_signing_bytes signed;
  Some {| pr_key := pr_key signed; pr_content := pr_content signed;
    pr_provider := pr_provider signed; pr_offers := pr_offers signed;
    pr_sequence := pr_sequence signed; pr_issued_at := pr_issued_at signed;
    pr_expiry := pr_expiry signed; pr_signature := sign signing_key preimage |}.

Definition sign_provider_withdrawal (debug : bool) (signing_key : SigningKey)
    (w : ProviderWithdrawal) : option ProviderWithdrawal :=
  let provider := NodeId_from_bytes (verifying_key signing_key) in
  if debug && negb (bool_decide (pw_provider w = UNSET_PROVIDER)
                    || bool_decide (pw_provider w = provider))
  then None else
  let signed := {| pw_key := pw_key w; pw_provider := provider;
    pw_sequence := pw_sequence w; pw_issued_at := pw_issued_at w;
    pw_expiry := pw_expiry w; pw_signature := fill PROVIDER_SIGNATURE_LEN x00 |} in
  Some {| pw_key := pw_key signed; pw_provider := pw_provider signed;
    pw_sequence := pw_sequence signed; pw_issued_at := pw_issued_at signed;
    pw_expiry := pw_expiry signed;
    pw_signature := sign signing_key (provider_withdrawal_signing_bytes signed) |}.

End codec.

(** ** The reader *)

Record Reader := mkReader { rd_buf : list byte; rd_pos : nat }.

Definition Reader_new (buf : list byte) : Reader := {| rd_buf := buf; rd_pos := 0 |}.

(** `checked_add` overflow and `end > len` give the same error, so one test
    on the unbounded sum covers both. *)
Definition Reader_take (n : nat) (r : Reader) : result RecordDecodeError (list byte * Reader) :=
  if length (rd_buf r) <? rd_pos r + n
  then Err (Truncated n (length (rd_buf r) - rd_pos r))
  else Ok (take n (drop (rd_pos r) (rd_buf r)),
           {| rd_buf := rd_buf r; rd_pos := rd_pos r + n |}).

Definition Reader_array (n : nat) (r : Reader) : result RecordDecodeError (array n * Reader) :=
  '(l, r') ← Reader_take n r;
  a ← ok_or (try_into n l) (Truncated n 0);
  Ok (a, r').

Definition Reader_u8 (r : Reader) : result RecordDecodeError (byte * Reader) :=
  '(l, r') ← Reader_take 1 r; Ok (List.hd x00 l, r').

Definition Reader_u16 (r : Reader) : result RecordDecodeError (Z * Reader) :=
  '(l, r') ← Reader_take 2 r; Ok (from_be_bytes l, r').

Definition Reader_u64 (r : Reader) : result RecordDecodeError (Z * Reader) :=
  '(l, r') ← Reader_take 8 r; Ok (from_be_bytes l, r').

Definition Reader_remaining (r : Reader) : nat := length (rd_buf r) - rd_pos r.
Definition Reader_is_empty (r : Reader) : bool := rd_pos r =? length (rd_buf r).

(** ** Decode *)

Fixpoint read_nodes (n : nat) (r : Reader) : result RecordDecodeError (list NodeId * Reader) :=
  match n with
  | O => Ok ([], r)
  | S n' =>
      '(a, r) ← Reader_array NODE_ID_LEN r;
      '(l, r) ← read_nodes n' r;
      Ok (NodeId_from_bytes a :: l, r)
  end.

Definition relay_hints_error (e : RelayHintsError) : RecordDecodeError :=
  match e with
  | TooMany found cap => TooManyRelayHints found cap
  | InvalidIdentity relay => BadRelayIdentity relay
  | NotCanonical _ _ => RelayHintsNotCanonical
  end.

Section decode.
Context `{Ed25519}.

Definition read_offer (r : Reader) : result RecordDecodeError (TransportOffer * Reader) :=
  '(tag, r) ← Reader_u8 r;
  if bool_decide (tag = OFFER_IROH) then
    '(node, r) ← Reader_array NODE_ID_LEN r;
    Ok (Iroh (NodeId_from_bytes node), r)
  else if bool_decide (tag = OFFER_BITTORRENT) then
    '(version, r) ← Reader_u8 r;
    if bool_decide (version = INFOHASH_V1) then
      '(b, r) ← Reader_array 20 r; Ok (BitTorrent (V1 b), r)
    else if bool_decide (version = INFOHASH_V2) then
      '(b, r) ← Reader_array 32 r; Ok (BitTorrent (V2 b), r)
    else Err (BadInfoHash version)
  else if bool_decide (tag = OFFER_LIBP2P) then
    '(node, r) ← Reader_array NODE_ID_LEN r;
    '(count, r) ← Reader_u8 r;
    let hint_count := Z.to_nat (u8_val count) in
    _ ← reject_if (MAX_LIBP2P_RELAY_HINTS <? hint_count)
          (TooManyRelayHints hint_count MAX_LIBP2P_RELAY_HINTS);
    '(relay_nodes, r) ← read_nodes hint_count r;
    relay_hints ← map_err relay_hints_error (try_from_nodes relay_nodes);
    Ok (Libp2p (NodeId_from_bytes node) relay_hints, r)
  else Err (UnknownOffer tag).

Fixpoint read_offers (n : nat) (r : Reader)
    : result RecordDecodeError (list TransportOffer * Reader) :=
  match n with
  | O => Ok ([], r)
  | S n' =>
      '(o, r) ← read_offer r;
      '(l, r) ← read_offers n' r;
      Ok (o :: l, r)
  end.

(** The self-serve loop of the decoder: as [check_offer_identities], with the
    decoder's errors. *)
Fixpoint decode_offer_identities (provider : NodeId) (libp2p_offers : nat)
    (offers : list TransportOffer) : result RecordDecodeError nat :=
  match offers with
  | [] => Ok libp2p_offers
  | Iroh node :: rest =>
      _ ← reject_if (bool_decide (node <> provider)) (IrohNodeNotProvider node provider);
      decode_offer_identities provider libp2p_offers rest
  | Libp2p node relay_hints :: rest =>
      _ ← reject_if (bool_decide (node <> provider)) (Libp2pNodeNotProvider node provider);
      _ ← reject_if (bool_decide (provider ∈ RelayHints_as_slice relay_hints))
            (Libp2pRelayIsProvider provider provider);
      decode_offer_identities provider (S libp2p_offers) rest
  | BitTorrent _ :: rest => decode_offer_identities provider libp2p_offers rest
  end.

Definition ED25519_ORDER_LE : list byte :=
  [xed; xd3; xf5; x5c; x1a; x63; x12; x58; xd6; x9c; xf7; xa2; xde; xf9; xde; x14;
   x00; x00; x00; x00; x00; x00; x00; x00; x00; x00; x00; x00; x00; x00; x00; x10].

(** The scan of `for i in (0..32).rev()`, most significant byte first. *)
Fixpoint scan_lt (pairs : list (byte * byte)) : bool :=
  match pairs with
  | [] => false
  | (s, l) :: rest =>
      if (u8_val s <? u8_val l)%Z then true
      else if (u8_val l <? u8_val s)%Z then false
      else scan_lt rest
  end.

Definition signature_scalar_is_canonical (sig_bytes : array 64) : bool :=
  scan_lt (reverse (zip (drop 32 (arr_bytes sig_bytes)) ED25519_ORDER_LE)).

Definition verify (provider : NodeId) (body : list byte) (sig_bytes : array 64)
    : result RecordDecodeError unit :=
  _ ← reject_if (negb (signature_scalar_is_canonical sig_bytes)) NonCanonicalSignature;
  _ ← reject_if (negb (vk_from_bytes (NodeId_as_bytes provider))) BadProviderKey;
  reject_if (negb (verify_strict (NodeId_as_bytes provider) (signing_preimage body) sig_bytes))
    BadSignature.

(** The Provide arm: everything between the header and the end of the body. *)
Definition decode_provide (key : ContentKey) (provider : NodeId)
    (sequence issued_at expiry : Z) (sig_bytes : array 64) (r : Reader)
    : result RecordDecodeError (ProviderAssertion * Reader) :=
  '(content, r) ← Reader_array BLAKE3_DIGEST_LEN r;
  '(count, r) ← Reader_u8 r;
  let offers_len := Z.to_nat (u8_val count) in
  _ ← reject_if (MAX_OFFERS_PER_RECORD <? offers_len)
        (TooManyOffers offers_len MAX_OFFERS_PER_RECORD);
  '(offers, r) ← read_offers offers_len r;
  libp2p_offers ← decode_offer_identities provider 0 offers;
  _ ← reject_if (1 <? libp2p_offers) (MultipleLibp2pOffers libp2p_offers);
  _ ← reject_if (negb (offers_are_canonical offers)) OffersNotCanonical;
  Ok (Provide {| pr_key := key; pr_content := Blake3Digest_from_bytes content;
        pr_provider := provider; pr_offers := offers; pr_sequence := sequence;
        pr_issued_at := issued_at; pr_expiry := expiry; pr_signature := sig_bytes |}, r).

(** The header fields common to both kinds, with the version check. *)
Definition read_header (r : Reader)
    : result RecordDecodeError ((byte * ContentKey * NodeId * Z * Z * Z) * Reader) :=
  '(version, r) ← Reader_u16 r;
  _ ← reject_if (negb (version =? PROVIDER_RECORD_SCHEMA_VERSION)%Z)
        (UnknownVersion version PROVIDER_RECORD_SCHEMA_VERSION);
  '(kind, r) ← Reader_u8 r;
  '(key, r) ← Reader_array CONTENT_KEY_LEN r;
  '(provider, r) ← Reader_array NODE_ID_LEN r;
  '(sequence, r) ← Reader_u64 r;
  '(issued_at, r) ← Reader_u64 r;
  '(expiry, r) ← Reader_u64 r;
  Ok ((kind, ContentKey_from_bytes key, NodeId_from_bytes provider,
       sequence, issued_at, expiry), r).

(** The parse of the signed body, up to the end-of-body check. *)
Definition decode_body (body : list byte) (sig_bytes : array 64)
    : result RecordDecodeError (ProviderAssertion * Reader) :=
  '(header, r) ← read_header (Reader_new body);
  let '(kind, key, provider, sequence, issued_at, expiry) := header in
  if bool_decide (kind = KIND_PROVIDE) then
    decode_provide key provider sequence issued_at expiry sig_bytes r
  else if bool_decide (kind = KIND_WITHDRAW) then
    Ok (Withdraw {| pw_key := key; pw_provider := provider; pw_sequence := sequence;
          pw_issued_at := issued_at; pw_expiry := expiry; pw_signature := sig_bytes |}, r)
  else Err (UnknownKind kind).

Definition decode_provider_assertion (bytes : list byte) (expected_key : ContentKey)
    (now : Z) : result RecordDecodeError ProviderAssertion :=
  _ ← reject_if (MAX_PROVIDER_RECORD_BYTES <? length bytes)
        (Oversized (length bytes) MAX_PROVIDER_RECORD_BYTES);
  _ ← reject_if (length bytes <? BODY_HEADER_LEN + PROVIDER_SIGNATURE_LEN)
        (Truncated (BODY_HEADER_LEN + PROVIDER_SIGNATURE_LEN) (length bytes));
  let sig_start := length bytes - PROVIDER_SIGNATURE_LEN in
  let body := take sig_start bytes in
  sig_bytes ← ok_or (try_into PROVIDER_SIGNATURE_LEN (drop sig_start bytes))
                (Truncated PROVIDER_SIGNATURE_LEN 0);
  '(assertion, r) ← decode_body body sig_bytes;
  _ ← reject_if (negb (Reader_is_empty r)) (TrailingBytes (Reader_remaining r));
  _ ← verify (pa_provider assertion) body sig_bytes;
  _ ← reject_if (bool_decide (pa_key assertion <> expected_key))
        (WrongKey expected_key (pa_key assertion));
  _ ← reject_if (pa_expiry assertion <=? now)%Z (Stale (pa_expiry assertion) now);
  Ok assertion.

End decode.

(** ** The encoder appends *)

Lemma foldl_app_flat {A} (f : A -> list byte) acc l :
  foldl (fun out x => out ++ f x) acc l = acc ++ flat_map f l.
Proof.
  revert acc. induction l as [|x l IH]; intros acc; simpl; [by rewrite app_nil_r|].
  by rewrite IH, app_assoc.
Qed.

Lemma write_offer_app out o : write_offer out o = out ++ offer_encoding o.
Proof.
  unfold offer_encoding. destruct o as [n|[b|b]|n h]; simpl; rewrite <-?app_assoc; try done.
  rewrite !foldl_app_flat. by rewrite <-!app_assoc.
Qed.

Lemma foldl_write_offer out l : foldl write_offer out l = out ++ flat_map offer_encoding l.
Proof.
  revert out. induction l as [|x l IH]; intros out; simpl; [by rewrite app_nil_r|].
  by rewrite IH, write_offer_app, app_assoc.
Qed.

(** The common header of both kinds. *)
Definition header_bytes (kind : byte) (key : ContentKey) (provider : NodeId)
    (sequence issued_at expiry : Z) : list byte :=
  to_be_bytes 2 PROVIDER_RECORD_SCHEMA_VERSION ++ [kind]
  ++ arr_bytes (ContentKey_as_bytes key) ++ node_bytes provider
  ++ to_be_bytes 8 sequence ++ to_be_bytes 8 issued_at ++ to_be_bytes 8 expiry.

Definition provide_tail (r : ProviderRecord) : list byte :=
  arr_bytes (Blake3Digest_as_bytes (pr_content r))
  ++ [as_u8 (Z.of_nat (length (pr_offers r)))]
  ++ flat_map offer_encoding (pr_offers r).

Lemma provide_body_layout r :
  provide_body_bytes r =
  header_bytes KIND_PROVIDE (pr_key r) (pr_provider r) (pr_sequence r) (pr_issued_at r)
    (pr_expiry r) ++ provide_tail r.
Proof.
  unfold provide_body_bytes, header_bytes, provide_tail.
  rewrite foldl_write_offer. by rewrite <-!app_assoc.
Qed.

Lemma withdraw_body_layout w :
  withdraw_body w =
  header_bytes KIND_WITHDRAW (pw_key w) (pw_provider w) (pw_sequence w) (pw_issued_at w)
    (pw_expiry w).
Proof. done. Qed.

Lemma length_node_bytes n : length (node_bytes n) = 32.
Proof. apply arr_length. Qed.

Lemma length_header kind k p a b c : length (header_bytes kind k p a b c) = BODY_HEADER_LEN.
Proof.
  unfold header_bytes. rewrite !length_app, !length_to_be_bytes, length_node_bytes, arr_length.
  done.
Qed.

Lemma length_flat_nodes l : length (flat_map node_bytes l) = length l * 32.
Proof.
  induction l as [|n l IH]; [done|].
  cbn [flat_map]. rewrite length_app, length_node_bytes, IH. cbn [length]. lia.
Qed.

(** ** Reader laws *)

Definition rest (r : Reader) : list byte := drop (rd_pos r) (rd_buf r).
Definition reader_ok (r : Reader) : Prop := rd_pos r <= length (rd_buf r).

(** [parses p enc a]: in front of [enc], [p] reads exactly [enc] and yields [a]. *)
Definition parses {A} (p : Reader -> result RecordDecodeError (A * Reader))
    (enc : list byte) (a : A) : Prop :=
  forall r tl, reader_ok r -> rest r = enc ++ tl ->
    exists r', p r = Ok (a, r') /\ reader_ok r' /\ rest r' = tl.

(** [reads p R]: what [p] consumed is related by [R] to what it returned. *)
Definition reads {A} (p : Reader -> result RecordDecodeError (A * Reader))
    (R : list byte -> A -> Prop) : Prop :=
  forall r a r', reader_ok r -> p r = Ok (a, r') ->
    reader_ok r' /\ exists enc, rest r = enc ++ rest r' /\ R enc a.

Lemma length_rest r : length (rest r) = length (rd_buf r) - rd_pos r.
Proof. unfold rest. apply length_drop. Qed.

Lemma Reader_take_parses l : parses (Reader_take (length l)) l l.
Proof.
  intros r tl Hok Hr. unfold Reader_take.
  pose proof (length_rest r) as Hlen. rewrite Hr, length_app in Hlen.
  unfold reader_ok in Hok.
  destruct (Nat.ltb_spec (length (rd_buf r)) (rd_pos r + length l)) as [|_]; [lia|].
  eexists. split; [|split].
  - do 3 f_equal. change (drop (rd_pos r) (rd_buf r)) with (rest r). rewrite Hr.
    apply take_app_length.
  - unfold reader_ok; simpl. lia.
  - unfold rest; simpl. rewrite <-drop_drop.
    change (drop (rd_pos r) (rd_buf r)) with (rest r). rewrite Hr.
    apply drop_app_length.
Qed.

Lemma Reader_take_reads n : reads (Reader_take n) (fun enc l => enc = l /\ length l = n).
Proof.
  intros r l r' Hok. unfold Reader_take, reader_ok in *.
  destruct (Nat.ltb_spec (length (rd_buf r)) (rd_pos r + n)) as [|Hle]; [done|].
  intros [= <- <-]. simpl. split; [lia|].
  eexists. split_and!; [|done|].
  - unfold rest; simpl. rewrite <-drop_drop. by rewrite take_drop.
  - rewrite length_take, length_drop. lia.
Qed.

(** Sequencing: the laws of the two relations under bind. *)
Lemma parses_bind {A B} (p : Reader -> result RecordDecodeError (A * Reader))
    (q : A -> Reader -> result RecordDecodeError (B * Reader)) e1 e2 a b :
  parses p e1 a -> parses (q a) e2 b ->
  parses (fun r => '(x, r) ← p r; q x r) (e1 ++ e2) b.
Proof.
  intros Hp Hq r tl Hok Hr. rewrite <-app_assoc in Hr.
  destruct (Hp r _ Hok Hr) as (r1 & -> & Hok1 & Hr1). simpl.
  by destruct (Hq r1 _ Hok1 Hr1) as (r2 & -> & Hok2 & Hr2); eauto.
Qed.

Lemma parses_ret {A} (a : A) : parses (fun r => Ok (a, r)) [] a.
Proof. intros r tl Hok Hr. eauto. Qed.

Lemma parses_guard {A} c e (p : Reader -> result RecordDecodeError (A * Reader)) enc a :
  c = false -> parses p enc a -> parses (fun r => _ ← reject_if c e; p r) enc a.
Proof. intros ->. done. Qed.

Lemma Reader_array_parses {n} (a : array n) : parses (Reader_array n) (arr_bytes a) a.
Proof.
  intros r tl Hok Hr. unfold Reader_array.
  destruct (Reader_take_parses (arr_bytes a) r tl Hok Hr) as (r' & Ht & ? & ?).
  rewrite arr_length in Ht. rewrite Ht. simpl. rewrite try_into_bytes. simpl. eauto.
Qed.

Lemma Reader_array_reads n : reads (Reader_array n) (fun enc a => enc = arr_bytes a).
Proof.
  intros r a r' Hok Hr. unfold Reader_array in Hr.
  apply result_bind_ok in Hr as ([l r1] & Ht & Hr). inv_ok.
  destruct (Reader_take_reads n r l r' Hok Ht) as (? & enc & Henc & -> & ?).
  split; [done|]. exists l. split; [done|]. symmetry. by apply try_into_sound.
Qed.

Lemma Reader_u8_parses b : parses Reader_u8 [b] b.
Proof.
  intros r tl Hok Hr. unfold Reader_u8.
  destruct (Reader_take_parses [b] r tl Hok Hr) as (r' & Ht & ? & ?).
  cbn [length] in Ht. rewrite Ht. simpl. eauto.
Qed.

Lemma Reader_u8_reads : reads Reader_u8 (fun enc b => enc = [b]).
Proof.
  intros r b r' Hok Hr. unfold Reader_u8 in Hr.
  apply result_bind_ok in Hr as ([l r1] & Ht & Hr). injection Hr as <- <-.
  destruct (Reader_take_reads 1 r l r1 Hok Ht) as (? & enc & Henc & -> & Hl).
  split; [done|]. exists l. split; [done|]. by destruct l as [|x [|]].
Qed.

Lemma Reader_u16_parses z :
  (0 <= z < 65536)%Z -> parses Reader_u16 (to_be_bytes 2 z) z.
Proof.
  intros Hz r tl Hok Hr. unfold Reader_u16.
  destruct (Reader_take_parses (to_be_bytes 2 z) r tl Hok Hr) as (r' & Ht & ? & ?).
  rewrite length_to_be_bytes in Ht. rewrite Ht. simpl.
  exists r'. split; [|done]. do 2 f_equal. by apply from_to_be_bytes_small.
Qed.

Lemma Reader_u16_reads : reads Reader_u16 (fun enc z => enc = to_be_bytes 2 z).
Proof.
  intros r b r' Hok Hr. unfold Reader_u16 in Hr.
  apply result_bind_ok in Hr as ([l r1] & Ht & Hr). injection Hr as <- <-.
  destruct (Reader_take_reads 2 r l r1 Hok Ht) as (? & enc & Henc & -> & Hl).
  split; [done|]. exists l. split; [done|]. rewrite <-Hl. symmetry. apply to_from_be_bytes.
Qed.

Lemma Reader_u64_parses z : u64_ok z -> parses Reader_u64 (to_be_bytes 8 z) z.
Proof.
  intros Hz r tl Hok Hr. unfold Reader_u64.
  destruct (Reader_take_parses (to_be_bytes 8 z) r tl Hok Hr) as (r' & Ht & ? & ?).
  rewrite length_to_be_bytes in Ht. rewrite Ht. simpl.
  exists r'. split; [|done]. do 2 f_equal. by apply from_to_be_u64.
Qed.

Lemma Reader_u64_reads : reads Reader_u64 (fun enc z => enc = to_be_bytes 8 z /\ u64_ok z).
Proof.
  intros r b r' Hok Hr. unfold Reader_u64 in Hr.
  apply result_bind_ok in Hr as ([l r1] & Ht & Hr). injection Hr as <- <-.
  destruct (Reader_take_reads 8 r l r1 Hok Ht) as (? & enc & Henc & -> & Hl).
  split; [done|]. exists l. split_and!; [done| |by apply from_be_u64_ok].
  rewrite <-Hl. symmetry. apply to_from_be_bytes.
Qed.

#[export] Hint Resolve Reader_array_parses Reader_u8_parses Reader_u64_parses : fabric.

(** One step of a parse in front of the encoding, by the law [lem]. *)
Ltac step_parse lem :=
  match goal with
  | Hok : reader_ok ?r0, Hr : rest ?r0 = _ |- _ =>
      let r1 := fresh "r" in
      let E := fresh "E" in
      let Hok' := fresh "Hok" in
      let Hr' := fresh "Hr" in
      edestruct (lem r0) as (r1 & E & Hok' & Hr');
      [exact Hok | rewrite Hr, <-?app_assoc; reflexivity | ];
      rewrite E; cbn [mbind result_bind]; clear Hok Hr E
  end.

(** One step of a successful parse [H], by the law [lem]. *)
Ltac step_read lem H :=
  let x := fresh "x" in
  let r1 := fresh "r" in
  let Hx := fresh "Hx" in
  let Hok := fresh "Hok" in
  let enc := fresh "enc" in
  let Henc := fresh "Henc" in
  let HR := fresh "HR" in
  apply result_bind_ok in H as ([x r1] & Hx & H); cbn beta iota in H;
  apply lem in Hx as (Hok & enc & Henc & HR); [|eassumption].

Section offers.
Context `{Ed25519}.

Definition offer_wf (o : TransportOffer) : Prop :=
  match o with Libp2p _ h => RelayHints_wf h | _ => True end.

Lemma NodeId_array_eta n : NodeId_from_bytes (NodeId_as_bytes n) = n.
Proof. by destruct n. Qed.

Lemma read_nodes_parses l : parses (read_nodes (length l)) (flat_map node_bytes l) l.
Proof.
  induction l as [|n l IH]; cbn [length read_nodes flat_map]; [apply parses_ret|].
  intros r tl Hok Hr. step_parse (Reader_array_parses (NodeId_as_bytes n)). step_parse IH.
  rewrite NodeId_array_eta. eauto.
Qed.

Lemma read_nodes_reads n :
  reads (read_nodes n) (fun enc l => enc = flat_map node_bytes l /\ length l = n).
Proof.
  induction n as [|n IH]; intros r l r' Hok Hp; cbn [read_nodes] in Hp.
  - injection Hp as <- <-. split; [done|]. by exists [].
  - step_read Reader_array_reads Hp. step_read IH Hp. injection Hp as <- <-.
    destruct HR0 as [-> Hl]. split; [done|].
    exists (enc ++ flat_map node_bytes x0). split_and!.
    + by rewrite Henc, Henc0, app_assoc.
    + by rewrite HR.
    + simpl. by rewrite Hl.
Qed.

Lemma libp2p_encoding n h :
  RelayHints_wf h ->
  offer_encoding (Libp2p n h) =
  [OFFER_LIBP2P] ++ node_bytes n ++ [rh_len h] ++ flat_map node_bytes (RelayHints_as_slice h).
Proof.
  intros Hwf. unfold offer_encoding. cbn [write_offer]. rewrite foldl_app_flat.
  rewrite <-!app_assoc. cbn [app]. do 4 f_equal.
  unfold RelayHints_length. rewrite Z2Nat.id by apply u8_val_range. apply as_u8_val.
Qed.

Lemma read_offer_parses o : offer_wf o -> parses read_offer (offer_encoding o) o.
Proof.
  intros Hwf r tl Hok Hr. unfold read_offer. destruct o as [n|[b|b]|n h].
  - change (offer_encoding _) with ([OFFER_IROH] ++ node_bytes n) in Hr.
    step_parse (Reader_u8_parses OFFER_IROH). rewrite bool_decide_true by done.
    step_parse (Reader_array_parses (NodeId_as_bytes n)). rewrite NodeId_array_eta. eauto.
  - change (offer_encoding _) with ([OFFER_BITTORRENT] ++ [INFOHASH_V1] ++ arr_bytes b) in Hr.
    step_parse (Reader_u8_parses OFFER_BITTORRENT).
    rewrite bool_decide_false, bool_decide_true by done.
    step_parse (Reader_u8_parses INFOHASH_V1). rewrite bool_decide_true by done.
    step_parse (Reader_array_parses b). eauto.
  - change (offer_encoding _) with ([OFFER_BITTORRENT] ++ [INFOHASH_V2] ++ arr_bytes b) in Hr.
    step_parse (Reader_u8_parses OFFER_BITTORRENT).
    rewrite bool_decide_false, bool_decide_true by done.
    step_parse (Reader_u8_parses INFOHASH_V2).
    rewrite bool_decide_false, bool_decide_true by done.
    step_parse (Reader_array_parses b). eauto.
  - simpl in Hwf. rewrite libp2p_encoding in Hr by done.
    destruct (RelayHints_wf_len h Hwf) as [Hl Hle].
    step_parse (Reader_u8_parses OFFER_LIBP2P).
    rewrite !bool_decide_false, bool_decide_true by done.
    step_parse (Reader_array_parses (NodeId_as_bytes n)).
    step_parse (Reader_u8_parses (rh_len h)).
    fold (RelayHints_length h). rewrite (proj2 (Nat.ltb_ge _ _)) by done. cbn [reject_if mbind result_bind].
    rewrite Hl. step_parse (read_nodes_parses (RelayHints_as_slice h)).
    rewrite Hwf. cbn [map_err mbind result_bind]. rewrite NodeId_array_eta. eauto.
Qed.

Lemma read_offer_reads :
  reads read_offer (fun enc o => enc = offer_encoding o /\ offer_wf o).
Proof.
  intros r o r' Hok Hp. unfold read_offer in Hp.
  step_read Reader_u8_reads Hp. subst.
  case_bool_decide; [subst|case_bool_decide; [subst|case_bool_decide; [subst|done]]].
  - step_read Reader_array_reads Hp. injection Hp as <- <-. split; [done|].
    eexists. split; [by rewrite Henc, Henc0, app_assoc|]. by subst.
  - step_read Reader_u8_reads Hp. subst.
    case_bool_decide; [subst|case_bool_decide; [subst|done]];
      step_read Reader_array_reads Hp; injection Hp as <- <-; (split; [done|]);
      eexists; (split; [by rewrite Henc, Henc0, Henc1, !app_assoc|]); by subst.
  - step_read Reader_array_reads Hp. step_read Reader_u8_reads Hp.
    apply result_bind_ok in Hp as (u & _ & Hp).
    step_read read_nodes_reads Hp. inv_ok. destruct HR1 as [-> Hlen].
    match goal with E : try_from_nodes _ = Ok _ |- _ => rename E into Hh end.
    split; [done|]. eexists. split; [by rewrite Henc, Henc0, Henc1, Henc2, !app_assoc|].
    pose proof (try_from_nodes_wf _ _ Hh) as Hwf. split; [|done].
    rewrite libp2p_encoding by done. rewrite (try_from_nodes_slice _ _ Hh).
    enough (x0 = rh_len x2) as -> by by rewrite <-!app_assoc.
    apply u8_val_inj. destruct (try_from_nodes_length _ _ Hh) as [_ ->].
    pose proof (u8_val_range x0). lia.
Qed.

Lemma read_offers_parses l :
  Forall offer_wf l -> parses (read_offers (length l)) (flat_map offer_encoding l) l.
Proof.
  induction 1 as [|o l Ho _ IH]; cbn [length read_offers flat_map]; [apply parses_ret|].
  intros r tl Hok Hr. step_parse (read_offer_parses o Ho). step_parse IH. eauto.
Qed.

Lemma read_offers_reads n :
  reads (read_offers n) (fun enc l =>
    enc = flat_map offer_encoding l /\ length l = n /\ Forall offer_wf l).
Proof.
  induction n as [|n IH]; intros r l r' Hok Hp; cbn [read_offers] in Hp.
  - injection Hp as <- <-. split; [done|]. by exists [].
  - step_read read_offer_reads Hp. step_read IH Hp. injection Hp as <- <-.
    destruct HR as [-> Ho], HR0 as (-> & Hl & Hf). split; [done|].
    eexists. split; [by rewrite Henc, Henc0, app_assoc|]. simpl. rewrite Hl. auto.
Qed.

(** The encoder's and the decoder's identity loops accept the same lists. *)
Lemma decode_identities_iff provider l n m :
  decode_offer_identities provider n l = Ok m <-> check_offer_identities provider n l = Ok m.
Proof.
  revert n. induction l as [|o l IH]; intros n; simpl; [naive_solver|].
  destruct o as [nd|i|nd h]; [| apply IH |];
    repeat case_bool_decide; simpl; naive_solver.
Qed.

End offers.

(** ** The acceptance condition *)

Section acceptance.
Context `{Ed25519}.

(** The signed body of an assertion. *)
Definition assertion_body (a : ProviderAssertion) : list byte :=
  match a with Provide r => provide_body_bytes r | Withdraw w => withdraw_body w end.

(** The values the Rust types can hold: u64 fields in range, relay hints
    from their constructor. *)
Definition assertion_typed (a : ProviderAssertion) : Prop :=
  match a with
  | Provide r => u64_ok (pr_sequence r) /\ u64_ok (pr_issued_at r) /\ u64_ok (pr_expiry r) /\
                 Forall offer_wf (pr_offers r)
  | Withdraw w => u64_ok (pw_sequence w) /\ u64_ok (pw_issued_at w) /\ u64_ok (pw_expiry w)
  end.

(** The offer-list rules of a Provide (none for a Withdraw). *)
Definition assertion_invariants (a : ProviderAssertion) : Prop :=
  match a with Provide r => check_provide_invariants r = Ok tt | Withdraw _ => True end.

Lemma check_provide_invariants_iff r :
  check_provide_invariants r = Ok tt <->
  length (pr_offers r) <= MAX_OFFERS_PER_RECORD /\
  offers_are_canonical (pr_offers r) = true /\
  exists n, check_offer_identities (pr_provider r) 0 (pr_offers r) = Ok n /\ n <= 1.
Proof.
  unfold check_provide_invariants. split.
  - intros Hok. inv_ok. bools. eauto.
  - intros (Hl & Hc & n & Hn & Hle).
    rewrite (proj2 (Nat.ltb_ge _ _) Hl), Hc, Hn. simpl.
    by rewrite (proj2 (Nat.ltb_ge _ _) Hle).
Qed.

Lemma provide_tail_parses r key provider sq iss exp sig :
  key = pr_key r -> provider = pr_provider r -> sq = pr_sequence r -> iss = pr_issued_at r ->
  exp = pr_expiry r -> sig = pr_signature r ->
  Forall offer_wf (pr_offers r) -> check_provide_invariants r = Ok tt ->
  parses (decode_provide key provider sq iss exp sig) (provide_tail r) (Provide r).
Proof.
  intros -> -> -> -> -> -> Hwf (Hl & Hc & n & Hn & Hle)%check_provide_invariants_iff.
  intros rd tl Hok Hr. unfold decode_provide. unfold provide_tail in Hr.
  step_parse (Reader_array_parses (Blake3Digest_as_bytes (pr_content r))).
  step_parse (Reader_u8_parses (as_u8 (Z.of_nat (length (pr_offers r))))).
  unfold MAX_OFFERS_PER_RECORD in Hl.
  rewrite u8_val_as_u8_small, Nat2Z.id by lia.
  rewrite (proj2 (Nat.ltb_ge _ _)) by done. cbn [reject_if mbind result_bind].
  step_parse (read_offers_parses _ Hwf).
  rewrite (proj2 (decode_identities_iff _ _ _ n) Hn). cbn [mbind result_bind].
  rewrite (proj2 (Nat.ltb_ge _ _) Hle), Hc. cbn.
  destruct r as [? [] ? ? ? ? ? ?]; simpl. eauto.
Qed.

Lemma provide_tail_reads key provider sq iss exp sig :
  reads (decode_provide key provider sq iss exp sig) (fun enc a =>
    exists r, a = Provide r /\ enc = provide_tail r /\
      pr_key r = key /\ pr_provider r = provider /\ pr_sequence r = sq /\
      pr_issued_at r = iss /\ pr_expiry r = exp /\ pr_signature r = sig /\
      Forall offer_wf (pr_offers r) /\ check_provide_invariants r = Ok tt).
Proof.
  intros rd a rd' Hok Hp. unfold decode_provide in Hp.
  step_read Reader_array_reads Hp. step_read Reader_u8_reads Hp.
  apply result_bind_ok in Hp as (u & Hcap & Hp). apply reject_if_ok in Hcap. bools.
  step_read read_offers_reads Hp. inv_ok. bools.
  split; [done|]. eexists. split; [by rewrite Henc, Henc0, Henc1, !app_assoc|].
  destruct HR1 as (-> & Hlen & Hwf). subst.
  eexists. split_and!; try done; simpl.
  - unfold provide_tail; simpl. rewrite <-app_assoc. do 2 f_equal. simpl. f_equal.
    rewrite Hlen. pose proof (u8_val_range x0).
    rewrite Z2Nat.id by lia. by rewrite as_u8_val.
  - apply check_provide_invariants_iff. simpl. split_and!; [lia|done|].
    eexists. split; [by apply decode_identities_iff|done].
Qed.

Lemma read_header_parses kind k p sq iss exp :
  u64_ok sq -> u64_ok iss -> u64_ok exp ->
  parses read_header (header_bytes kind k p sq iss exp) (kind, k, p, sq, iss, exp).
Proof.
  intros Hs Hi He r tl Hok Hr. unfold read_header. unfold header_bytes in Hr.
  step_parse (Reader_u16_parses 1 ltac:(lia)). cbn [Z.eqb Pos.eqb negb reject_if].
  cbn [mbind result_bind].
  step_parse (Reader_u8_parses kind).
  step_parse (Reader_array_parses (ContentKey_as_bytes k)).
  step_parse (Reader_array_parses (NodeId_as_bytes p)).
  step_parse (Reader_u64_parses sq Hs).
  step_parse (Reader_u64_parses iss Hi).
  step_parse (Reader_u64_parses exp He).
  destruct k, p. eauto.
Qed.

Lemma read_header_reads :
  reads read_header (fun enc '(kind, k, p, sq, iss, exp) =>
    enc = header_bytes kind k p sq iss exp /\ u64_ok sq /\ u64_ok iss /\ u64_ok exp).
Proof.
  intros r a r' Hok Hp. unfold read_header in Hp.
  step_read Reader_u16_reads Hp.
  apply result_bind_ok in Hp as (u & Hv & Hp). apply reject_if_ok in Hv. bools.
  step_read Reader_u8_reads Hp. step_read Reader_array_reads Hp.
  step_read Reader_array_reads Hp. do 3 step_read Reader_u64_reads Hp.
  destruct_and?. inv_ok. split; [done|].
  eexists. split; [by rewrite Henc, Henc0, Henc1, Henc2, Henc3, Henc4, Henc5, !app_assoc|].
  subst. split_and!; try done. unfold header_bytes. by rewrite <-!app_assoc.
Qed.

Lemma decode_body_complete a :
  assertion_typed a -> assertion_invariants a ->
  exists r, decode_body (assertion_body a) (pa_signature a) = Ok (a, r) /\
    reader_ok r /\ rest r = [].
Proof.
  intros Ht Hi. unfold decode_body.
  assert (reader_ok (Reader_new (assertion_body a))) as Hok by (unfold reader_ok; simpl; lia).
  assert (rest (Reader_new (assertion_body a)) = assertion_body a ++ []) as Hr
    by (by rewrite app_nil_r).
  generalize dependent (Reader_new (assertion_body a)). intros rd Hok Hr.
  destruct a as [r|w]; cbn [assertion_typed assertion_invariants assertion_body pa_signature] in *.
  - destruct Ht as (Hs & Hi' & He & Hwf). rewrite provide_body_layout, <-app_assoc in Hr.
    step_parse (read_header_parses KIND_PROVIDE (pr_key r) (pr_provider r) _ _ _ Hs Hi' He).
    rewrite bool_decide_true by done. by eapply (provide_tail_parses r).
  - destruct Ht as (Hs & Hi' & He). rewrite withdraw_body_layout in Hr.
    step_parse (read_header_parses KIND_WITHDRAW (pw_key w) (pw_provider w) _ _ _ Hs Hi' He).
    rewrite bool_decide_false, bool_decide_true by done. destruct w. eauto.
Qed.

Lemma decode_body_sound body sig a r :
  decode_body body sig = Ok (a, r) -> rest r = [] ->
  body = assertion_body a /\ pa_signature a = sig /\ assertion_typed a /\ assertion_invariants a.
Proof.
  intros Hd Hr. unfold decode_body in Hd.
  assert (reader_ok (Reader_new body)) as Hok by (unfold reader_ok; simpl; lia).
  step_read read_header_reads Hd. destruct x as [[[[[kind k] p] sq] iss] exp].
  destruct HR as (-> & Hs & Hi & He).
  change (rest (Reader_new body)) with body in Henc.
  case_bool_decide; [subst kind|case_bool_decide; [subst kind|done]].
  - apply provide_tail_reads in Hd as (? & enc & Henc2 & rec & -> & -> & Hrec); [|done].
    rewrite Hr, app_nil_r in Henc2. destruct_and?. subst. simpl. split_and!; try done.
    by rewrite Henc2, provide_body_layout.
  - injection Hd as <- <-. simpl. split_and!; try done. by rewrite Henc, Hr, app_nil_r.
Qed.

Lemma Reader_is_empty_rest r : reader_ok r -> Reader_is_empty r = true <-> rest r = [].
Proof.
  unfold reader_ok, Reader_is_empty. intros Hok. rewrite Nat.eqb_eq. split.
  - intros E. unfold rest. rewrite E. apply drop_all.
  - intros E%(f_equal length). rewrite length_rest in E. simpl in E. lia.
Qed.

Lemma check_encoded_size_ok n : check_encoded_size n = Ok tt <-> n <= MAX_PROVIDER_RECORD_BYTES.
Proof. unfold check_encoded_size. rewrite reject_if_ok. apply Nat.ltb_ge. Qed.

Lemma encode_assertion_iff a bytes :
  encode_provider_assertion a = Some (Ok bytes) <->
  assertion_invariants a /\ bytes = assertion_body a ++ arr_bytes (pa_signature a) /\
  length bytes <= MAX_PROVIDER_RECORD_BYTES.
Proof.
  destruct a as [r|w];
    cbn [encode_provider_assertion assertion_invariants assertion_body pa_signature].
  - unfold encode_provider_record, provide_body.
    destruct (check_provide_invariants r) as [[]|e] eqn:Ei; [|naive_solver].
    apply check_provide_invariants_iff in Ei as (Hl & _).
    rewrite (proj2 (Nat.leb_le _ _) Hl). cbn [mbind option_bind].
    split.
    + intros [= Hb].
      by apply result_bind_ok in Hb as ([] & Hs%check_encoded_size_ok & [= <-]).
    + intros (_ & -> & Hs%check_encoded_size_ok). by rewrite Hs.
  - unfold encode_provider_withdrawal. split.
    + intros [= Hb].
      by apply result_bind_ok in Hb as ([] & Hs%check_encoded_size_ok & [= <-]).
    + intros (_ & -> & Hs%check_encoded_size_ok). by rewrite Hs.
Qed.

Lemma length_assertion_body a : BODY_HEADER_LEN <= length (assertion_body a).
Proof.
  destruct a as [r|w]; cbn [assertion_body].
  - rewrite provide_body_layout, length_app, length_header. lia.
  - rewrite withdraw_body_layout, length_header. lia.
Qed.

Lemma decode_assertion_iff bytes k now a :
  decode_provider_assertion bytes k now = Ok a <->
  encode_provider_assertion a = Some (Ok bytes) /\ assertion_typed a /\
  verify (pa_provider a) (assertion_body a) (pa_signature a) = Ok tt /\
  pa_key a = k /\ (now < pa_expiry a)%Z.
Proof.
  unfold decode_provider_assertion. rewrite encode_assertion_iff. split.
  - intros Hd.
    apply result_bind_ok in Hd as ([] & Hsz & Hd). apply reject_if_ok in Hsz.
    apply result_bind_ok in Hd as ([] & Hmin & Hd). apply reject_if_ok in Hmin.
    apply result_bind_ok in Hd as (sig & Hsig & Hd). apply ok_or_ok in Hsig.
    apply result_bind_ok in Hd as ([a' r] & Hb & Hd). inv_ok. bools.
    assert (reader_ok r /\ rest r = []) as [Hok Hr].
    { match goal with H : Reader_is_empty r = true |- _ =>
        unfold Reader_is_empty in H; apply Nat.eqb_eq in H; unfold reader_ok, rest;
        rewrite H; split; [lia|apply drop_all] end. }
    destruct (decode_body_sound _ _ _ _ Hb Hr) as (Hbody & Hs & Ht & Hi).
    apply try_into_sound in Hsig. rewrite <-Hbody, Hs.
    split_and!; try done; [|by apply dec_stable].
    etransitivity; [symmetry; apply take_drop|apply (f_equal (app _) (eq_sym Hsig))].
  - intros ((Hi & -> & Hsz) & Ht & Hv & Hk & He).
    pose proof (length_assertion_body a) as Hbl.
    assert (length (assertion_body a ++ arr_bytes (pa_signature a))
      = length (assertion_body a) + PROVIDER_SIGNATURE_LEN) as Hlen
      by (rewrite length_app, arr_length; done).
    rewrite (proj2 (Nat.ltb_ge _ _) Hsz). cbn [reject_if mbind result_bind].
    rewrite Hlen, (proj2 (Nat.ltb_ge _ _)) by lia. cbn [reject_if mbind result_bind].
    rewrite Nat.add_sub, take_app_length, drop_app_length, try_into_bytes.
    cbn [ok_or mbind result_bind].
    destruct (decode_body_complete a Ht Hi) as (r & -> & Hok & Hr). cbn [mbind result_bind].
    rewrite (proj2 (Reader_is_empty_rest r Hok) Hr). cbn [negb reject_if mbind result_bind].
    rewrite Hv. cbn [mbind result_bind].
    rewrite bool_decide_false by (by intros []). cbn [reject_if mbind result_bind].
    by rewrite (proj2 (Z.leb_gt _ _) He).
Qed.

Lemma encode_never_panics a : encode_provider_assertion a <> None.
Proof.
  destruct a as [r|w]; simpl; [|done]. unfold encode_provider_record, provide_body.
  destruct (check_provide_invariants r) as [[]|e] eqn:Ei; [|done].
  apply check_provide_invariants_iff in Ei as (Hl & _).
  by rewrite (proj2 (Nat.leb_le _ _) Hl).
Qed.

(** ** Offer lists: order, identities, size *)

(** A self-serve offer of [provider] that does not relay through itself. *)
Definition offer_self_serve (provider : NodeId) (o : TransportOffer) : Prop :=
  match o with
  | Iroh node => node = provider
  | BitTorrent _ => True
  | Libp2p node h => node = provider /\ provider ∉ RelayHints_as_slice h
  end.

Definition is_libp2p (o : TransportOffer) : bool :=
  match o with Libp2p _ _ => true | _ => false end.

Definition count_libp2p (l : list TransportOffer) : nat := length (List.filter is_libp2p l).

Lemma check_identities_iff p l n m :
  check_offer_identities p n l = Ok m <->
  Forall (offer_self_serve p) l /\ m = n + count_libp2p l.
Proof.
  unfold count_libp2p. revert n. induction l as [|o l IH]; intros n; simpl.
  - rewrite Nat.add_0_r. split; [intros [= ->]; auto|intros [_ ->]; done].
  - rewrite Forall_cons. destruct o as [nd|i|nd h]; simpl.
    + case_bool_decide; simpl; [naive_solver|]. rewrite IH. naive_solver.
    + rewrite IH. naive_solver.
    + repeat case_bool_decide; simpl; [naive_solver..|].
      rewrite IH, Nat.add_succ_r. naive_solver.
Qed.

Lemma sign_asserts_iff p l n m :
  sign_offer_asserts p n l = Some m <->
  Forall (offer_self_serve p) l /\ m = n + count_libp2p l.
Proof.
  unfold count_libp2p. revert n. induction l as [|o l IH]; intros n; simpl.
  - rewrite Nat.add_0_r. split; [intros [= ->]; auto|intros [_ ->]; done].
  - rewrite Forall_cons. destruct o as [nd|i|nd h]; simpl.
    + case_bool_decide; simpl; [rewrite IH; naive_solver|naive_solver].
    + rewrite IH. naive_solver.
    + repeat case_bool_decide; simpl; [naive_solver| |naive_solver..].
      rewrite IH, Nat.add_succ_r. naive_solver.
Qed.

Definition offer_lt (a b : TransportOffer) : Prop :=
  bytes_ltb (offer_encoding a) (offer_encoding b) = true.

Lemma offers_canonical_sorted l :
  offers_are_canonical l = true <-> StronglySorted offer_lt l.
Proof.
  unfold offers_are_canonical, offer_lt. induction l as [|a [|b l] IH].
  - split; [constructor|done].
  - split; [repeat constructor|done].
  - cbn [windows2_all]. rewrite andb_true_iff, IH. split.
    + intros [Hab Hs]. constructor; [done|]. constructor; [done|].
      apply StronglySorted_inv in Hs as [_ Hf]. eapply Forall_impl; [exact Hf|].
      intros c Hbc. simpl in Hbc. by eapply bytes_ltb_trans.
    + intros [Hs Hf]%StronglySorted_inv. split; [|done]. by inversion Hf.
Qed.

Lemma canonical_NoDup l : offers_are_canonical l = true -> NoDup (offer_encoding <$> l).
Proof.
  rewrite offers_canonical_sorted. induction 1 as [|o l _ IH Hf]; simpl; constructor; [|done].
  rewrite list_elem_of_fmap. intros (o' & Heq & Ho').
  rewrite Forall_forall in Hf. specialize (Hf _ Ho'). unfold offer_lt in Hf.
  by rewrite Heq, bytes_ltb_irrefl in Hf.
Qed.

Lemma insert_offer_perm o l : insert_offer o l ≡ₚ o :: l.
Proof.
  induction l as [|p l IH]; simpl; [done|]. destruct (bytes_ltb _ _); [|done].
  by rewrite IH, Permutation_swap.
Qed.

Lemma sort_offers_perm l : sort_offers l ≡ₚ l.
Proof. induction l as [|o l IH]; simpl; [done|]. by rewrite insert_offer_perm, IH. Qed.

Lemma insert_offer_sorted o l :
  StronglySorted offer_lt l -> offer_encoding o ∉ (offer_encoding <$> l) ->
  StronglySorted offer_lt (insert_offer o l).
Proof.
  induction 1 as [|p l Hs IH Hf]; simpl; intros Hn; [repeat constructor|].
  rewrite not_elem_of_cons in Hn. destruct Hn as [Hne Hn].
  destruct (bytes_ltb (offer_encoding p) (offer_encoding o)) eqn:E.
  - constructor; [by apply IH|]. by rewrite insert_offer_perm; constructor.
  - constructor; [by constructor|].
    assert (offer_lt o p) as Hop.
    { unfold offer_lt. destruct (bytes_ltb_total (offer_encoding o) (offer_encoding p))
        as [|[|]]; congruence. }
    constructor; [done|]. eapply Forall_impl; [exact Hf|].
    intros q Hq. by eapply bytes_ltb_trans.
Qed.

Lemma sort_offers_sorted l :
  NoDup (offer_encoding <$> l) -> StronglySorted offer_lt (sort_offers l).
Proof.
  induction l as [|o l IH]; simpl; intros Hn; [constructor|].
  apply NoDup_cons in Hn as [Ho Hn]. apply insert_offer_sorted; [by apply IH|].
  by rewrite sort_offers_perm.
Qed.

(** The signer's sort reaches canonical order exactly without duplicates. *)
Lemma sort_offers_canonical l :
  offers_are_canonical (sort_offers l) = true <-> NoDup (offer_encoding <$> l).
Proof.
  split.
  - intros Hn%canonical_NoDup. by rewrite sort_offers_perm in Hn.
  - intros Hn. by apply offers_canonical_sorted, sort_offers_sorted.
Qed.

Lemma length_offer_encoding o : offer_wf o -> length (offer_encoding o) <= 98.
Proof.
  destruct o as [n|[b|b]|n h]; intros Hwf.
  - change (S (length (node_bytes n)) <= 98). rewrite length_node_bytes. lia.
  - change (S (S (length (arr_bytes b))) <= 98). rewrite arr_length. lia.
  - change (S (S (length (arr_bytes b))) <= 98). rewrite arr_length. lia.
  - rewrite libp2p_encoding by done. destruct (RelayHints_wf_len h Hwf) as [Hl Hle].
    rewrite !length_app, length_node_bytes, length_flat_nodes. simpl. lia.
Qed.

Lemma length_flat_offers l :
  Forall offer_wf l -> length (flat_map offer_encoding l) <= length l * 98.
Proof.
  induction 1 as [|o l Ho _ IH]; [done|]. cbn [flat_map]. rewrite length_app.
  pose proof (length_offer_encoding o Ho). cbn [length]. lia.
Qed.

(** 580 = 91 + 32 + 1 + 4 * 98 + 64: no well-formed assertion is oversized. *)
Lemma assertion_size a :
  assertion_typed a -> assertion_invariants a ->
  length (assertion_body a ++ arr_bytes (pa_signature a)) <= 580.
Proof.
  intros Ht Hi. rewrite length_app, arr_length.
  destruct a as [r|w]; cbn [assertion_body].
  - destruct Ht as (_ & _ & _ & Hwf).
    apply check_provide_invariants_iff in Hi as (Hl & _).
    rewrite provide_body_layout, length_app, length_header. unfold provide_tail.
    rewrite !length_app, arr_length. pose proof (length_flat_offers _ Hwf).
    unfold BODY_HEADER_LEN, PROVIDER_SIGNATURE_LEN, MAX_OFFERS_PER_RECORD, BLAKE3_DIGEST_LEN in *.
    simpl length. lia.
  - rewrite withdraw_body_layout, length_header.
    unfold BODY_HEADER_LEN, PROVIDER_SIGNATURE_LEN. lia.
Qed.

Lemma encode_succeeds a :
  assertion_typed a -> assertion_invariants a ->
  encode_provider_assertion a = Some (Ok (assertion_body a ++ arr_bytes (pa_signature a))).
Proof.
  intros Ht Hi. apply encode_assertion_iff. split_and!; [done..|].
  pose proof (assertion_size a Ht Hi). unfold MAX_PROVIDER_RECORD_BYTES. lia.
Qed.

End acceptance.

(** ** The signature scalar *)

Lemma scan_lt_spec a b :
  length a = length b -> scan_lt (zip a b) = (from_be_bytes a <? from_be_bytes b)%Z.
Proof.
  revert b. induction a as [|x a IH]; intros [|y b] Hl; try done.
  injection Hl as Hl. cbn [zip zip_with scan_lt]. rewrite IH by done.
  rewrite !from_be_bytes_cons, Hl.
  pose proof (from_be_bytes_range a) as Ha. pose proof (from_be_bytes_range b) as Hb.
  rewrite Hl in Ha. set (B := (256 ^ Z.of_nat (length b))%Z) in *.
  destruct (Z.ltb_spec (u8_val x) (u8_val y)) as [Hxy|Hxy].
  { symmetry. apply Z.ltb_lt. nia. }
  destruct (Z.ltb_spec (u8_val y) (u8_val x)) as [Hyx|Hyx].
  { symmetry. apply Z.ltb_ge. nia. }
  replace (u8_val x) with (u8_val y) by lia.
  destruct (Z.ltb_spec (from_be_bytes a) (from_be_bytes b)); symmetry;
    [apply Z.ltb_lt|apply Z.ltb_ge]; lia.
Qed.

Lemma reverse_zip {A B} (a : list A) (b : list B) :
  length a = length b -> reverse (zip a b) = zip (reverse a) (reverse b).
Proof.
  revert b. induction a as [|x a IH]; intros [|y b] Hl; try done.
  injection Hl as Hl. cbn [zip zip_with]. rewrite !reverse_cons, IH by done.
  rewrite zip_with_app by (by rewrite !length_reverse). done.
Qed.

(** The little-endian integer of a byte string. *)
Definition from_le_bytes (l : list byte) : Z := from_be_bytes (reverse l).

Lemma scalar_canonical_spec sig :
  signature_scalar_is_canonical sig
  = (from_le_bytes (drop 32 (arr_bytes sig))
     <? 2 ^ 252 + 27742317777372353535851937790883648493)%Z.
Proof.
  unfold signature_scalar_is_canonical.
  assert (length (drop 32 (arr_bytes sig)) = length ED25519_ORDER_LE) as Hl
    by (rewrite length_drop, arr_length; done).
  rewrite reverse_zip, scan_lt_spec by (rewrite ?length_reverse; done).
  f_equal.
Qed.

(** ** Signing *)

(** What ed25519-dalek documents of a key pair: the public key is a valid
    point, [sign] produces a reduced scalar, and `verify_strict` accepts what
    [sign] produced. *)
Class Ed25519Laws `{Ed25519} : Prop := {
  sign_key_valid : forall sk, vk_from_bytes (verifying_key sk) = true;
  sign_canonical : forall sk m, signature_scalar_is_canonical (sign sk m) = true;
  sign_verifies : forall sk m, verify_strict (verifying_key sk) m (sign sk m) = true;
}.

Section signing.
Context `{Ed25519Laws}.

Lemma verify_sign sk body :
  verify (NodeId_from_bytes (verifying_key sk)) body (sign sk (signing_preimage body)) = Ok tt.
Proof.
  unfold verify. cbn [NodeId_as_bytes].
  by rewrite sign_canonical, sign_key_valid, sign_verifies.
Qed.

(** The record the signer builds, before the signature. *)
Definition signed_fields (sk : SigningKey) (r s : ProviderRecord) : Prop :=
  pr_key s = pr_key r /\ pr_content s = pr_content r /\
  pr_provider s = NodeId_from_bytes (verifying_key sk) /\
  pr_offers s = sort_offers (pr_offers r) /\ pr_sequence s = pr_sequence r /\
  pr_issued_at s = pr_issued_at r /\ pr_expiry s = pr_expiry r.

Definition debug_provider_ok (debug : bool) (sk : SigningKey) (p : NodeId) : Prop :=
  debug = false \/ p = UNSET_PROVIDER \/ p = NodeId_from_bytes (verifying_key sk).

Lemma debug_assert_iff debug sk p :
  debug && negb (bool_decide (p = UNSET_PROVIDER)
                 || bool_decide (p = NodeId_from_bytes (verifying_key sk))) = false <->
  debug_provider_ok debug sk p.
Proof.
  unfold debug_provider_ok. destruct debug; simpl; [|naive_solver].
  rewrite negb_false_iff, orb_true_iff, !bool_decide_eq_true. naive_solver.
Qed.

Lemma sign_record_inv debug sk r s :
  sign_provider_record debug sk r = Some s ->
  debug_provider_ok debug sk (pr_provider r) /\
  Forall (offer_self_serve (NodeId_from_bytes (verifying_key sk))) (pr_offers r) /\
  count_libp2p (pr_offers r) <= 1 /\ NoDup (offer_encoding <$> pr_offers r) /\
  length (pr_offers r) <= MAX_OFFERS_PER_RECORD /\
  signed_fields sk r s /\ pr_signature s = sign sk (signing_preimage (provide_body_bytes s)).
Proof.
  unfold sign_provider_record.
  destruct (_ && _) eqn:Ed; [done|]. apply debug_assert_iff in Ed.
  destruct (sign_offer_asserts _ _ _) as [n|] eqn:En; [|done]. cbn [mbind option_bind].
  apply sign_asserts_iff in En as [Hss ->]. simpl.
  destruct (count_libp2p _ <=? 1) eqn:Ec; [|done]. simpl.
  destruct (offers_are_canonical _) eqn:Eo; [|done]. apply sort_offers_canonical in Eo.
  unfold provider_record_signing_bytes, provide_body. simpl.
  destruct (length (sort_offers _) <=? _) eqn:El; [|done]. bools.
  rewrite sort_offers_perm in El. intros [= <-]. by split_and!.
Qed.

Lemma sign_record_complete debug sk r :
  debug_provider_ok debug sk (pr_provider r) ->
  Forall (offer_self_serve (NodeId_from_bytes (verifying_key sk))) (pr_offers r) ->
  count_libp2p (pr_offers r) <= 1 -> NoDup (offer_encoding <$> pr_offers r) ->
  length (pr_offers r) <= MAX_OFFERS_PER_RECORD ->
  is_Some (sign_provider_record debug sk r).
Proof.
  intros Hd Hss Hc Hn Hl. unfold sign_provider_record.
  apply debug_assert_iff in Hd. rewrite Hd.
  rewrite (proj2 (sign_asserts_iff _ _ 0 _) (conj Hss eq_refl)). cbn [mbind option_bind].
  rewrite (proj2 (Nat.leb_le _ _)) by done. cbn [negb].
  rewrite (proj2 (sort_offers_canonical _) Hn). cbn [negb].
  unfold provider_record_signing_bytes, provide_body. cbn [pr_offers].
  rewrite sort_offers_perm, (proj2 (Nat.leb_le _ _) Hl). cbn. eauto.
Qed.

Lemma count_libp2p_perm l l' : l ≡ₚ l' -> count_libp2p l = count_libp2p l'.
Proof.
  unfold count_libp2p. induction 1; simpl; repeat case_match; simpl; congruence.
Qed.

Lemma signed_record_invariants debug sk r s :
  sign_provider_record debug sk r = Some s -> check_provide_invariants s = Ok tt.
Proof.
  intros (_ & Hss & Hc & Hn & Hl & (_ & _ & Hp & Ho & _) & _)%sign_record_inv.
  apply check_provide_invariants_iff. rewrite Ho, Hp. split_and!.
  - by rewrite sort_offers_perm.
  - by apply sort_offers_canonical.
  - eexists. rewrite check_identities_iff. split; [split; [by rewrite sort_offers_perm|done]|].
    simpl. by rewrite (count_libp2p_perm _ _ (sort_offers_perm _)).
Qed.

Lemma signed_record_verifies debug sk r s :
  sign_provider_record debug sk r = Some s ->
  verify (pr_provider s) (provide_body_bytes s) (pr_signature s) = Ok tt.
Proof.
  intros (_ & _ & _ & _ & _ & (_ & _ & -> & _) & ->)%sign_record_inv. apply verify_sign.
Qed.

Lemma signed_record_typed debug sk r s :
  sign_provider_record debug sk r = Some s ->
  assertion_typed (Provide r) -> assertion_typed (Provide s).
Proof.
  intros (_ & _ & _ & _ & _ & (_ & _ & _ & Ho & Hs & Hi & He) & _)%sign_record_inv.
  simpl. rewrite Ho, Hs, Hi, He, sort_offers_perm. done.
Qed.

End signing.
