(* ===== verification/ToyCrypto.v ===== *)
(** * A concrete signature scheme for the witnesses

    The theorems about signed records are stated for any [Ed25519] that obeys
    [Ed25519Laws].  This file instantiates both with a small computable
    scheme (the key is its own public key, a signature repeats the key and a
    checksum of the message), which shows that the laws can hold together and
    lets the witnesses evaluate.  It models no code of the program. *)

From Stdlib Require Import Strings.Byte ZArith Lia.
From stdpp Require Import base list numbers strings.
From S2P Require Import Prelude Ids RecordCodec.

Definition toy_checksum (m : list byte) : byte :=
  as_u8 (foldl (fun acc b => (acc * 31 + u8_val b) mod 65521)%Z 7%Z m).

Lemma toy_sig_len (sk : array 32) m :
  (length (arr_bytes sk ++ replicate 31 (toy_checksum m) ++ [x00]) =? 64) = true.
Proof. rewrite !length_app, arr_length, length_replicate. done. Qed.

Definition toy_sign (sk : array 32) (m : list byte) : array 64 :=
  Array (arr_bytes sk ++ replicate 31 (toy_checksum m) ++ [x00]) (canon_true _ (toy_sig_len sk m)).

(** The all-zero key is the weak one. *)
Definition toy_ed25519 : Ed25519 := {|
  SigningKey := array 32;
  vk_from_bytes := fun _ => true;
  vk_is_weak := fun k => bool_decide (k = fill 32 x00);
  verify_strict := fun k m sig => bool_decide (arr_bytes sig = arr_bytes (toy_sign k m));
  verifying_key := fun sk => sk;
  sign := toy_sign |}.
#[local] Existing Instance toy_ed25519.

Lemma toy_canonical (sk : array 32) m : signature_scalar_is_canonical (toy_sign sk m) = true.
Proof.
  unfold signature_scalar_is_canonical. cbn [arr_bytes toy_sign].
  rewrite drop_app_length' by (by rewrite arr_length).
  generalize (toy_checksum m). intros c. destruct c; reflexivity.
Qed.

Lemma toy_laws : Ed25519Laws.
Proof.
  split; intros; simpl.
  - done.
  - apply toy_canonical.
  - by apply bool_decide_true.
Qed.

(** Sample identities. *)
Definition toy_node (b : byte) : NodeId := NodeId_from_bytes (fill 32 b).
Definition toy_key (b : byte) : ContentKey := ContentKey_from_bytes (fill 32 b).
Definition toy_content (b : byte) : Blake3Digest := Blake3Digest_from_bytes (fill 32 b).

Definition toy_record (sk : array 32) (key : byte) (offers : list TransportOffer)
    (sequence expiry : Z) : option ProviderRecord :=
  sign_provider_record true sk {|
    pr_key := toy_key key; pr_content := toy_content xcc; pr_provider := UNSET_PROVIDER;
    pr_offers := offers; pr_sequence := sequence; pr_issued_at := 100; pr_expiry := expiry;
    pr_signature := fill 64 x00 |}.
