(* ===== verification/RecordProps.v ===== *)
(** * What the record codec promises

    The properties of peer-fabric/src/record_codec.rs and of the identifier
    types it is built from: the exact set of byte strings the decoder accepts,
    the sign/encode/decode round trip, when signing is defined, what the
    signature commits to, and the size and error behaviour of the encoder.
    The ed25519 laws are a hypothesis of the round trip only; the witnesses
    use the concrete scheme of ToyCrypto. *)

From Stdlib Require Import Strings.Byte ZArith Lia.
From stdpp Require Import base sets gmap numbers strings sorting list.
From S2P Require Import Prelude Hex Text Ids RecordCodec ToyCrypto.

(** ** The rules of a valid assertion, independent of the code *)

(** At most four offers, in strictly increasing order of their encodings, all
    of them of the provider itself, at most one libp2p offer. *)
Definition assertion_rules (a : ProviderAssertion) : Prop :=
  match a with
  | Provide r =>
      length (pr_offers r) <= 4 /\
      StronglySorted (fun x y => bytes_ltb (offer_encoding x) (offer_encoding y) = true) (pr_offers r) /\
      Forall (offer_self_serve (pr_provider r)) (pr_offers r) /\
      count_libp2p (pr_offers r) <= 1
  | Withdraw _ => True
  end.

(** The wire form of an assertion: its body, then its signature. *)
Definition wire (a : ProviderAssertion) : list byte :=
  assertion_body a ++ arr_bytes (pa_signature a).

(** The same assertion under another signature. *)
Definition with_signature (a : ProviderAssertion) (sig : array 64) : ProviderAssertion :=
  match a with
  | Provide r => Provide {| pr_key := pr_key r; pr_content := pr_content r;
      pr_provider := pr_provider r; pr_offers := pr_offers r; pr_sequence := pr_sequence r;
      pr_issued_at := pr_issued_at r; pr_expiry := pr_expiry r; pr_signature := sig |}
  | Withdraw w => Withdraw {| pw_key := pw_key w; pw_provider := pw_provider w;
      pw_sequence := pw_sequence w; pw_issued_at := pw_issued_at w; pw_expiry := pw_expiry w;
      pw_signature := sig |}
  end.

Section acceptance.
Context `{Ed25519}.

Lemma assertion_rules_invariants a : assertion_rules a <-> assertion_invariants a.
Proof.
  destruct a as [r|w]; simpl; [|done]. rewrite check_provide_invariants_iff.
  change (StronglySorted _ _) with (StronglySorted offer_lt (pr_offers r)).
  rewrite <-offers_canonical_sorted. unfold MAX_OFFERS_PER_RECORD. split.
  - intros (? & ? & ? & ?). split_and!; [done..|]. eexists. rewrite check_identities_iff.
    split; [done|]. done.
  - intros (? & ? & n & [? ->]%check_identities_iff & ?). split_and!; done.
Qed.

Lemma encode_rules_iff a bytes :
  assertion_typed a ->
  encode_provider_assertion a = Some (Ok bytes) <-> assertion_rules a /\ bytes = wire a.
Proof.
  intros Ht. rewrite encode_assertion_iff, assertion_rules_invariants. unfold wire. split.
  - intros (? & ? & _). done.
  - intros (Hi & ->). split_and!; [done..|].
    pose proof (assertion_size a Ht Hi). unfold MAX_PROVIDER_RECORD_BYTES. lia.
Qed.


(** The two errors the decoder can report about an authentic record. *)
Definition early (e : RecordDecodeError) : bool :=
  match e with Stale _ _ | WrongKey _ _ => false | _ => true end.

Definition fails_early {T} (m : result RecordDecodeError T) : Prop :=
  match m with Ok _ => True | Err e => early e = true end.

Lemma early_bind {T U} (m : result RecordDecodeError T) (f : T -> result RecordDecodeError U) :
  fails_early m -> (forall x, fails_early (f x)) -> fails_early (m ≫= f).
Proof. destruct m; [|done]. intros _ Hf. apply Hf. Qed.

Lemma early_reject c e : early e = true -> fails_early (reject_if c e).
Proof. by destruct c. Qed.

Lemma early_ok_or {T} (o : option T) e : early e = true -> fails_early (ok_or o e).
Proof. by destruct o. Qed.

Lemma early_take n r : fails_early (Reader_take n r).
Proof. unfold Reader_take. by destruct (_ <? _). Qed.

Ltac early_step :=
  first
    [ done
    | apply early_bind; [|intros; repeat match goal with x : _ * _ |- _ => destruct x end; cbn beta iota]
    | apply early_reject; done | apply early_ok_or; done | apply early_take
    | match goal with |- fails_early (if bool_decide ?P then _ else _) => case_bool_decide end
    | solve [auto with early] ].

Create HintDb early.

Lemma early_array n r : fails_early (Reader_array n r).
Proof. unfold Reader_array. repeat early_step. Qed.
Lemma early_u8 r : fails_early (Reader_u8 r).
Proof. unfold Reader_u8. repeat early_step. Qed.
Lemma early_u16 r : fails_early (Reader_u16 r).
Proof. unfold Reader_u16. repeat early_step. Qed.
Lemma early_u64 r : fails_early (Reader_u64 r).
Proof. unfold Reader_u64. repeat early_step. Qed.
#[local] Hint Resolve early_array early_u8 early_u16 early_u64 : early.

Lemma early_nodes n r : fails_early (read_nodes n r).
Proof. revert r. induction n as [|n IH]; intros r; cbn [read_nodes]; repeat early_step. Qed.
Lemma early_hints nodes : fails_early (map_err relay_hints_error (try_from_nodes nodes)).
Proof. by destruct (try_from_nodes nodes) as [|[]]. Qed.
#[local] Hint Resolve early_nodes early_hints : early.

Lemma early_offer r : fails_early (read_offer r).
Proof. unfold read_offer. repeat early_step. Qed.
#[local] Hint Resolve early_offer : early.

Lemma early_offers n r : fails_early (read_offers n r).
Proof. revert r. induction n as [|n IH]; intros r; cbn [read_offers]; repeat early_step. Qed.
Lemma early_identities p n l : fails_early (decode_offer_identities p n l).
Proof.
  revert n. induction l as [|[] l IH]; intros n'; cbn [decode_offer_identities]; repeat early_step.
Qed.
Lemma early_verify p b sig : fails_early (verify p b sig).
Proof. unfold verify. repeat early_step. Qed.
#[local] Hint Resolve early_offers early_identities early_verify : early.

Lemma early_body body sig : fails_early (decode_body body sig).
Proof. unfold decode_body, read_header, decode_provide. repeat early_step. Qed.
#[local] Hint Resolve early_body : early.

(** An authentic assertion: the scalar half of its signature, little-endian, is
    below the order of the ed25519 base point, its provider is a valid key, and
    the signature of its body verifies strictly under that key. *)
Definition authentic (a : ProviderAssertion) : Prop :=
  (from_le_bytes (drop 32 (arr_bytes (pa_signature a))) < 2 ^ 252 + 27742317777372353535851937790883648493)%Z /\
  vk_from_bytes (NodeId_as_bytes (pa_provider a)) = true /\
  verify_strict (NodeId_as_bytes (pa_provider a)) (signing_preimage (assertion_body a)) (pa_signature a) = true.

Lemma verify_authentic a :
  verify (pa_provider a) (assertion_body a) (pa_signature a) = Ok tt <-> authentic a.
Proof.
  unfold verify, authentic. rewrite <-(Z.ltb_lt (from_le_bytes _)), <-scalar_canonical_spec.
  destruct (signature_scalar_is_canonical _), (vk_from_bytes _), (verify_strict _ _ _); cbn; naive_solver.
Qed.

(** The decoder before its last two checks. *)
Definition decode_authentic (bytes : list byte) : result RecordDecodeError ProviderAssertion :=
  _ ← reject_if (MAX_PROVIDER_RECORD_BYTES <? length bytes)
        (Oversized (length bytes) MAX_PROVIDER_RECORD_BYTES);
  _ ← reject_if (length bytes <? BODY_HEADER_LEN + PROVIDER_SIGNATURE_LEN)
        (Truncated (BODY_HEADER_LEN + PROVIDER_SIGNATURE_LEN) (length bytes));
  sig_bytes ← ok_or (try_into PROVIDER_SIGNATURE_LEN (drop (length bytes - PROVIDER_SIGNATURE_LEN) bytes))
                (Truncated PROVIDER_SIGNATURE_LEN 0);
  '(assertion, r) ← decode_body (take (length bytes - PROVIDER_SIGNATURE_LEN) bytes) sig_bytes;
  _ ← reject_if (negb (Reader_is_empty r)) (TrailingBytes (Reader_remaining r));
  _ ← verify (pa_provider assertion) (take (length bytes - PROVIDER_SIGNATURE_LEN) bytes) sig_bytes;
  Ok assertion.

Lemma early_authentic bytes : fails_early (decode_authentic bytes).
Proof. unfold decode_authentic. repeat early_step. Qed.

Lemma bind_assoc_ext {T U V} (m : result RecordDecodeError T) f
    (g : T -> result RecordDecodeError U) (h : U -> result RecordDecodeError V) :
  (forall x, f x = g x ≫= h) -> m ≫= f = (m ≫= g) ≫= h.
Proof. destruct m; [|done]. intros Hf. apply Hf. Qed.

Lemma decode_split bytes k now :
  decode_provider_assertion bytes k now =
  (a ← decode_authentic bytes;
   if bool_decide (pa_key a <> k) then Err (WrongKey k (pa_key a))
   else if (pa_expiry a <=? now)%Z then Err (Stale (pa_expiry a) now) else Ok a).
Proof.
  unfold decode_provider_assertion, decode_authentic. cbv zeta.
  repeat (apply bind_assoc_ext; intros ?; repeat match goal with x : _ * _ |- _ => destruct x end).
  cbn. case_bool_decide; cbn; [done|]. by case_match.
Qed.

Lemma decode_authentic_iff bytes a :
  decode_authentic bytes = Ok a <->
  bytes = wire a /\ assertion_typed a /\ assertion_rules a /\ authentic a.
Proof.
  rewrite <-verify_authentic.
  transitivity (decode_provider_assertion bytes (pa_key a) (pa_expiry a - 1) = Ok a).
  - rewrite decode_split. split.
    + intros ->. cbn. rewrite bool_decide_false by (intros ?; done).
      by rewrite (proj2 (Z.leb_gt _ _)) by lia.
    + destruct (decode_authentic bytes) as [b|]; cbn; [|done]. by repeat case_match; intros [= ->].
  - rewrite decode_assertion_iff. split.
    + intros (He & Ht & ? & _). destruct (proj1 (encode_rules_iff a bytes Ht) He).
      by split_and!.
    + intros (-> & Ht & Hr & ?). rewrite encode_rules_iff by done. split_and!; try done. lia.
Qed.

(** C1: The decoder accepts a byte string exactly when it is the canonical
    wire form of a typed assertion that obeys the offer rules, whose canonical
    signature verifies strictly under its own valid provider key, whose key is
    the expected one and whose expiry lies in the future. *)
Theorem decode_accepts_exactly bytes k now a :
  decode_provider_assertion bytes k now = Ok a <->
  bytes = wire a /\ assertion_typed a /\ assertion_rules a /\
  authentic a /\
  pa_key a = k /\ (now < pa_expiry a)%Z.
Proof.
  rewrite decode_assertion_iff, <-verify_authentic. split.
  - intros (He & Ht & ? & ? & ?). destruct (proj1 (encode_rules_iff a bytes Ht) He).
      by split_and!.
  - intros (-> & Ht & Hr & ?). by rewrite encode_rules_iff.
Qed.

(** The decoder reports Stale exactly for the authentic, canonical wire
    form of an assertion for the expected key whose expiry has passed, with
    that expiry and the reader's clock; and WrongKey exactly for an authentic
    assertion under another key, whatever its expiry. *)
Theorem decode_late_errors bytes k now e :
  (decode_provider_assertion bytes k now = Err (Stale e now) <->
   exists a, bytes = wire a /\ assertion_typed a /\ assertion_rules a /\
     authentic a /\
     pa_key a = k /\ pa_expiry a = e /\ (e <= now)%Z) /\
  (forall found, decode_provider_assertion bytes k now = Err (WrongKey k found) <->
   exists a, bytes = wire a /\ assertion_typed a /\ assertion_rules a /\
     authentic a /\
     pa_key a = found /\ found <> k).
Proof.
  pose proof (early_authentic bytes) as Hearly. rewrite decode_split.
  pose proof (decode_authentic_iff bytes) as Hiff.
  destruct (decode_authentic bytes) as [a|err]; cbn [mbind result_bind] in *.
  - assert (forall b, bytes = wire b -> assertion_typed b -> assertion_rules b ->
      authentic b -> a = b) as Huniq.
    { intros b ? ? ? ?. assert (Ok (E:=RecordDecodeError) a = Ok b) as [=]; [|done]. by apply Hiff. }
    destruct (proj1 (Hiff a) eq_refl) as (? & ? & ? & ?). split; [|intros found]; split.
    + case_bool_decide; [done|]. destruct (_ <=? _)%Z eqn:E; [|done]. intros [= <-]. bools.
      exists a. split_and!; try done.
    + intros (b & ? & ? & ? & ? & <- & <- & ?). rewrite (Huniq b) by done.
      rewrite bool_decide_false by (intros ?; done). by rewrite (proj2 (Z.leb_le _ _)).
    + case_bool_decide; [|by destruct (_ <=? _)%Z]. intros [= <-]. by exists a.
    + intros (b & ? & ? & ? & ? & <- & ?). rewrite (Huniq b) by done. by rewrite bool_decide_true.
  - split; [|intros found]; split; [by intros [= ->]| |by intros [= ->]|];
      intros (b & ? & ? & ? & ? & _); exfalso;
      assert (@Err _ ProviderAssertion err = Ok b) as [=]; by apply Hiff.
Qed.

Lemma decode_split_rules bytes k now a :
  decode_provider_assertion bytes k now = Ok a -> assertion_typed a /\ assertion_rules a.
Proof.
  intros (He & Ht & _)%decode_assertion_iff. apply encode_rules_iff in He; [|done]. by destruct He.
Qed.

(** Two byte strings that decode to the same assertion, for whatever keys
    and clocks, are the same byte string: an accepted record cannot be
    re-encoded. *)
Theorem decode_injective b1 b2 k1 k2 now1 now2 a :
  decode_provider_assertion b1 k1 now1 = Ok a ->
  decode_provider_assertion b2 k2 now2 = Ok a -> b1 = b2.
Proof. rewrite !decode_assertion_iff. intros (H1 & _) (H2 & _). congruence. Qed.

Lemma with_signature_decodes a sig :
  assertion_typed a -> assertion_rules a ->
  exists r, decode_body (assertion_body a) sig = Ok (with_signature a sig, r).
Proof.
  intros Ht Hr. destruct (decode_body_complete (with_signature a sig)) as (r & Hd & _).
  - by destruct a.
  - apply assertion_rules_invariants. by destruct a.
  - exists r. by destruct a.
Qed.

Lemma body_commits a b :
  assertion_typed a -> assertion_rules a -> assertion_typed b -> assertion_rules b ->
  assertion_body a = assertion_body b -> b = with_signature a (pa_signature b).
Proof.
  intros Ha Hra Hb Hrb Heq.
  destruct (with_signature_decodes a (pa_signature b) Ha Hra) as [ra Hda].
  destruct (with_signature_decodes b (pa_signature b) Hb Hrb) as [rb Hdb].
  rewrite Heq, Hdb in Hda. injection Hda as Hda _. rewrite <-Hda. by destruct b as [[]|[]].
Qed.

(** The wire form determines the assertion. *)
Lemma wire_inj a b :
  assertion_typed a -> assertion_rules a -> assertion_typed b -> assertion_rules b -> wire a = wire b -> a = b.
Proof.
  intros Ha Hra Hb Hrb Heq. unfold wire in Heq.
  apply app_inj_2 in Heq as [Hbody Hsig]; [|by rewrite !arr_length].
  assert (pa_signature a = pa_signature b) as Hs by (by apply arr_eq).
  pose proof (body_commits a b Ha Hra Hb Hrb Hbody) as ->. rewrite <-Hs. by destruct a as [[]|[]].
Qed.

(** The signed preimage commits to the kind and to every field: two
    well-formed assertions with the same preimage differ at most in their
    signatures, and in particular no Provide shares a preimage with a
    Withdraw. *)
Theorem preimage_commits a b :
  assertion_typed a -> assertion_rules a -> assertion_typed b -> assertion_rules b ->
  signing_preimage (assertion_body a) = signing_preimage (assertion_body b) ->
  b = with_signature a (pa_signature b).
Proof.
  intros Ha Hra Hb Hrb Heq. unfold signing_preimage in Heq. apply app_inv_head in Heq.
  by apply body_commits.
Qed.

(** The encoder never panics; on typed assertions it succeeds exactly on
    those that obey the offer rules, and then emits the wire form, which is at
    most 580 bytes, well inside the cap of the format. *)
Theorem encode_total a :
  assertion_typed a ->
  encode_provider_assertion a <> None /\
  (forall bytes, encode_provider_assertion a = Some (Ok bytes) <->
     assertion_rules a /\ bytes = wire a) /\
  (assertion_rules a -> length (wire a) <= 580 /\ 580 <= MAX_PROVIDER_RECORD_BYTES).
Proof.
  intros Ht. split_and!; [apply encode_never_panics|intros; by apply encode_rules_iff|].
  intros Hr. split; [|by vm_compute; lia]. apply assertion_size; [done|].
  by apply assertion_rules_invariants.
Qed.

End acceptance.

Section signing.
Context `{Ed25519Laws}.

(** C2: What the signer publishes is accepted by every reader: the signed
    record keeps the fields of its input (with the offers sorted and the
    provider set to the signing key), encodes, and its encoding decodes to
    itself under its own key at every clock before its expiry. *)
Theorem publish_roundtrip debug sk r s now :
  assertion_typed (Provide r) -> sign_provider_record debug sk r = Some s -> (now < pr_expiry r)%Z ->
  signed_fields sk r s /\
  exists bytes, encode_provider_record s = Some (Ok bytes) /\
    decode_provider_assertion bytes (pr_key r) now = Ok (Provide s).
Proof.
  intros Ht Hs Hnow. pose proof Hs as (_ & _ & _ & _ & _ & Hf & _)%sign_record_inv.
  split; [done|]. exists (wire (Provide s)).
  assert (encode_provider_assertion (Provide s) = Some (Ok (wire (Provide s)))) as He.
  { apply encode_succeeds; [by eapply signed_record_typed|by eapply signed_record_invariants]. }
  split; [exact He|]. apply decode_assertion_iff. split_and!; [done|by eapply signed_record_typed|..].
  - by eapply signed_record_verifies.
  - apply Hf.
  - destruct Hf as (_ & _ & _ & _ & _ & _ & Hexp). cbn [pa_expiry]. by rewrite Hexp.
Qed.

(** The same for withdrawals: signing succeeds whenever the provider
    field is unset, the signer's own, or debug assertions are off, and the
    signed tombstone round-trips at every clock before its expiry. *)
Theorem withdraw_roundtrip debug sk w now :
  assertion_typed (Withdraw w) -> debug_provider_ok debug sk (pw_provider w) -> (now < pw_expiry w)%Z ->
  exists s bytes, sign_provider_withdrawal debug sk w = Some s /\
    pw_key s = pw_key w /\ pw_provider s = NodeId_from_bytes (verifying_key sk) /\
    pw_sequence s = pw_sequence w /\ pw_expiry s = pw_expiry w /\
    encode_provider_withdrawal s = Ok bytes /\
    decode_provider_assertion bytes (pw_key w) now = Ok (Withdraw s).
Proof.
  intros Ht Hd Hnow. apply debug_assert_iff in Hd.
  unfold sign_provider_withdrawal. rewrite Hd. eexists _, _. split; [reflexivity|]. simpl.
  split_and!; try done.
  - assert (encode_provider_assertion (Withdraw {| pw_key := pw_key w;
      pw_provider := NodeId_from_bytes (verifying_key sk); pw_sequence := pw_sequence w;
      pw_issued_at := pw_issued_at w; pw_expiry := pw_expiry w;
      pw_signature := sign sk (provider_withdrawal_signing_bytes {| pw_key := pw_key w;
        pw_provider := NodeId_from_bytes (verifying_key sk); pw_sequence := pw_sequence w;
        pw_issued_at := pw_issued_at w; pw_expiry := pw_expiry w;
        pw_signature := fill PROVIDER_SIGNATURE_LEN x00 |}) |}) = Some (Ok _)) as He
      by (by apply encode_succeeds).
    cbn [encode_provider_assertion] in He. injection He as He. exact He.
  - apply decode_assertion_iff. split_and!; try done; [by apply encode_succeeds|].
    apply verify_sign.
Qed.

(** Signing a provider record panics on nothing but its documented
    preconditions: it is defined exactly when every offer is a self-serve
    offer of the signing key, at most one is libp2p, no two encode alike,
    there are at most four, and the debug assertion on the provider holds. *)
Theorem sign_defined_iff debug sk r :
  is_Some (sign_provider_record debug sk r) <->
  debug_provider_ok debug sk (pr_provider r) /\
  Forall (offer_self_serve (NodeId_from_bytes (verifying_key sk))) (pr_offers r) /\
  count_libp2p (pr_offers r) <= 1 /\ NoDup (offer_encoding <$> pr_offers r) /\
  length (pr_offers r) <= MAX_OFFERS_PER_RECORD.
Proof.
  split.
  - intros [s (? & ? & ? & ? & ? & _)%sign_record_inv]. by split_and!.
  - intros (? & ? & ? & ? & ?). by apply sign_record_complete.
Qed.

End signing.

(** The scalar check is the integer comparison it stands for: the second
    half of the signature, little-endian, is below the order of the ed25519
    base point. *)
Theorem scalar_check_exact sig :
  signature_scalar_is_canonical sig = true <->
  (from_le_bytes (drop 32 (arr_bytes sig)) < 2 ^ 252 + 27742317777372353535851937790883648493)%Z.
Proof. rewrite scalar_canonical_spec. apply Z.ltb_lt. Qed.

(** ** Identifier strings *)

Lemma decode_fixed_iff n s (a : array n) :
  hexfmt.decode_fixed n s = Ok a <-> s = hexfmt.encode (arr_bytes a).
Proof.
  split; [apply hexfmt.decode_fixed_canonical|intros ->; apply hexfmt.decode_fixed_encode].
Qed.

Lemma decode_var_iff s l : hexfmt.decode_var s = Ok l <-> s = hexfmt.encode l.
Proof. split; [apply hexfmt.decode_var_canonical|intros ->; apply hexfmt.decode_var_encode]. Qed.

(** Every identifier has exactly one textual form, the one it prints:
    node ids and digests parse exactly from their own `Display` output, and an
    info-hash exactly from the lowercase hex of its 20 or 32 bytes. *)
Theorem identifier_strings :
  (forall s n, NodeId_from_str s = Ok n <-> s = NodeId_to_hex n) /\
  (forall s d, Blake3Digest_from_str s = Ok d <-> s = Blake3Digest_to_string d) /\
  (forall s i, InfoHash_from_str s = Ok i <->
     s = hexfmt.encode (match i with V1 b => arr_bytes b | V2 b => arr_bytes b end)).
Proof.
  split_and!.
  - intros s [a]. unfold NodeId_from_str. rewrite result_bind_ok. setoid_rewrite map_err_ok.
    setoid_rewrite decode_fixed_iff. naive_solver.
  - intros s [a]. unfold Blake3Digest_from_str, Blake3Digest_to_string. rewrite result_bind_ok.
    setoid_rewrite result_bind_ok. setoid_rewrite map_err_ok. setoid_rewrite decode_fixed_iff.
    setoid_rewrite ok_or_ok. setoid_rewrite strip_prefix_Some. naive_solver.
  - intros s i. unfold InfoHash_from_str. rewrite result_bind_ok. setoid_rewrite map_err_ok.
    setoid_rewrite decode_var_iff. split.
    + intros (l & -> & Hi). destruct (try_into 20 l) as [b|] eqn:E20.
      { injection Hi as <-. by rewrite (try_into_sound _ _ _ E20). }
      destruct (try_into 32 l) as [b|] eqn:E32; [|done]. injection Hi as <-.
      by rewrite (try_into_sound _ _ _ E32).
    + intros ->. eexists; split; [done|]. destruct i as [b|b]; [by rewrite try_into_bytes|].
      rewrite try_into_bytes. rewrite (proj2 (try_into_None 20 _)) by (by rewrite arr_length). done.
Qed.

(** Decoding a fixed-width hex field reports a length fault before any
    character fault, and otherwise the first offending character. *)
Theorem hex_first_fault n s e :
  hexfmt.decode_fixed n s = Err e ->
  (length s <> n * 2 /\ e = hexfmt.WrongLength (n * 2) (length s)) \/
  (length s = n * 2 /\ exists i c, e = hexfmt.NonHexChar i /\ s !! i = Some c /\
     hexfmt.lower_nibble c = None /\
     forall j d, j < i -> s !! j = Some d -> is_Some (hexfmt.lower_nibble d)).
Proof.
  unfold hexfmt.decode_fixed. destruct (length s =? n * 2) eqn:El; cbn [negb]; bools;
    [|intros [= <-]; by left].
  intros He. right. split; [done|].
  assert (length s mod 2 = 0) as Heven by (rewrite El; apply Nat.Div0.mod_mul).
  destruct (hexfmt.decode_pairs 0 s) as [l|e'] eqn:Ep; cbn in He.
  - apply hexfmt.decode_pairs_canonical in Ep; [|done]. subst s.
    rewrite hexfmt.length_encode in El. destruct (try_into_is_Some n l) as [a Ha]; [lia|].
    by rewrite Ha in He.
  - injection He as <-. apply hexfmt.decode_pairs_err in Ep; [|done]. naive_solver.
Qed.

(** ** Witnesses *)

Section witnesses.
#[local] Existing Instance toy_ed25519.
#[local] Existing Instance toy_laws.

Definition sample_hints : RelayHints :=
  match try_from_nodes [toy_node x22; toy_node x33] with Ok h => h | Err _ => RelayHints_empty end.

(** An unsigned record with two offers, given out of order. *)
Definition sample_record : ProviderRecord := {|
  pr_key := toy_key xaa; pr_content := toy_content xcc; pr_provider := UNSET_PROVIDER;
  pr_offers := [Libp2p (toy_node x11) sample_hints; Iroh (toy_node x11)];
  pr_sequence := 7; pr_issued_at := 100; pr_expiry := 200; pr_signature := fill 64 x00 |}.

Definition sample_signed : ProviderRecord :=
  match sign_provider_record true (fill 32 x11) sample_record with
  | Some s => s | None => sample_record end.

Definition sample_bytes : list byte := wire (Provide sample_signed).

Lemma sample_typed : assertion_typed (Provide sample_record).
Proof. repeat split; try (vm_compute; done). repeat constructor. Qed.

Lemma sample_signs : sign_provider_record true (fill 32 x11) sample_record = Some sample_signed.
Proof. vm_compute. reflexivity. Qed.

Lemma publish_roundtrip_witness :
  exists bytes, encode_provider_record sample_signed = Some (Ok bytes) /\
    decode_provider_assertion bytes (pr_key sample_record) 150 = Ok (Provide sample_signed).
Proof.
  apply (@publish_roundtrip toy_ed25519 toy_laws true (fill 32 x11) sample_record sample_signed 150);
    [apply sample_typed|apply sample_signs|vm_compute; reflexivity].
Defined.

Lemma decode_injective_witness : sample_bytes = sample_bytes.
Proof.
  apply (decode_injective _ _ (toy_key xaa) (toy_key xaa) 150 199 (Provide sample_signed));
    vm_compute; reflexivity.
Defined.

Definition sample_withdrawal : ProviderWithdrawal := {|
  pw_key := toy_key xaa; pw_provider := UNSET_PROVIDER; pw_sequence := 8; pw_issued_at := 100;
  pw_expiry := 200; pw_signature := fill 64 x00 |}.

Lemma withdraw_roundtrip_witness :
  exists s bytes, sign_provider_withdrawal true (fill 32 x11) sample_withdrawal = Some s /\
    pw_key s = toy_key xaa /\ pw_provider s = toy_node x11 /\ pw_sequence s = 8%Z /\
    pw_expiry s = 200%Z /\ encode_provider_withdrawal s = Ok bytes /\
    decode_provider_assertion bytes (toy_key xaa) 150 = Ok (Withdraw s).
Proof.
  apply (@withdraw_roundtrip toy_ed25519 toy_laws true (fill 32 x11) sample_withdrawal 150);
    [vm_compute; repeat split; discriminate || reflexivity|right; left; reflexivity|vm_compute; reflexivity].
Defined.

Lemma sample_rules : assertion_typed (Provide sample_signed) /\ assertion_rules (Provide sample_signed).
Proof.
  assert (decode_provider_assertion sample_bytes (toy_key xaa) 150 = Ok (Provide sample_signed)) as Hd
    by (vm_compute; reflexivity).
  apply decode_split_rules in Hd. exact Hd.
Qed.

Lemma preimage_commits_witness :
  Provide sample_signed = with_signature (Provide sample_signed) (pr_signature sample_signed).
Proof.
  apply (preimage_commits (Provide sample_signed) (Provide sample_signed));
    [apply sample_rules..|reflexivity].
Defined.

Lemma encode_total_witness : length (wire (Provide sample_signed)) <= 580.
Proof. apply (encode_total (Provide sample_signed)); apply sample_rules. Defined.

Lemma hex_first_fault_witness :
  exists i c, hexfmt.NonHexChar 2 = hexfmt.NonHexChar i /\ str "0aF0" !! i = Some c /\
    hexfmt.lower_nibble c = None /\
    forall j d, j < i -> str "0aF0" !! j = Some d -> is_Some (hexfmt.lower_nibble d).
Proof.
  destruct (hex_first_fault 2 (str "0aF0") (hexfmt.NonHexChar 2)) as [[H _]|[_ H]];
    [reflexivity|by destruct H|exact H].
Defined.

End witnesses.
