(* ===== verification/RecordStore.v ===== *)
(** * The provider-record validation oracle

    Models peer-fabric/src/record_store.rs: [ProviderRecordSet], the
    per-(key, provider) state machine that applies verified assertions, and
    its garbage-collection and durable-floor interface.

    A Rust HashMap is a [gmap]; where the code iterates a map the order is
    unspecified, so the theorems speak of membership, never of order.

    The abstract view is [slot_at], one optional slot per (key, provider), and
    [apply_slot], the state machine of one slot: [apply_refines] shows that
    the nested maps implement exactly that machine.  On top of it: while a slot
    is kept its sequence only moves forward and a withdrawn provider is not
    resurrected by an older record, across sweeps under growing expiries; the
    final state of a conflict-free batch does not depend on the
    order of delivery, garbage collection drops exactly the lapsed slots and
    export/restore is lossless. *)

From Stdlib Require Import Strings.Byte ZArith Lia Sorted.
From stdpp Require Import base sets gmap numbers list.
From S2P Require Import Prelude Ids RecordCodec.

Inductive ApplyOutcome :=
| Applied
| OutWithdrawn
| Idempotent
| RejectedStale (current offered : Z)
| RejectedExpired (expiry now : Z).

#[export] Instance ApplyOutcome_eq_dec : EqDecision ApplyOutcome.
Proof. solve_decision. Defined.

Inductive Slot :=
| Active (r : ProviderRecord)
| Withdrawn (sequence expiry : Z).

#[export] Instance Slot_eq_dec : EqDecision Slot.
Proof. solve_decision. Defined.

Definition Slot_sequence (s : Slot) : Z :=
  match s with Active r => pr_sequence r | Withdrawn sequence _ => sequence end.

Definition Slot_expiry (s : Slot) : Z :=
  match s with Active r => pr_expiry r | Withdrawn _ expiry => expiry end.

Inductive SlotFloor :=
| FloorActive (r : ProviderRecord)
| FloorWithdrawn (sequence expiry : Z).

#[export] Instance SlotFloor_eq_dec : EqDecision SlotFloor.
Proof. solve_decision. Defined.

Record ProviderRecordSet := mkProviderRecordSet {
  by_key : gmap ContentKey (gmap NodeId Slot)
}.

Definition ProviderRecordSet_new : ProviderRecordSet := {| by_key := ∅ |}.

(** The slot an accepted assertion installs. *)
Definition slot_of (assertion : ProviderAssertion) : Slot :=
  match assertion with
  | Provide record => Active record
  | Withdraw w => Withdrawn (pw_sequence w) (pw_expiry w)
  end.

Definition installed (assertion : ProviderAssertion) : ApplyOutcome :=
  match assertion with Provide _ => Applied | Withdraw _ => OutWithdrawn end.

(** The occupied-entry arm: the new slot (if any) and the outcome. *)
Definition apply_occupied (assertion : ProviderAssertion) (slot : Slot)
    : option Slot * ApplyOutcome :=
  let offered := pa_sequence assertion in
  let current := Slot_sequence slot in
  if (offered =? current)%Z then
    match assertion, slot with
    | Provide record, Active existing =>
        (None, if bool_decide (record = existing) then Idempotent
               else RejectedStale current offered)
    | Withdraw w, Withdrawn sequence expiry =>
        (None, if (pw_sequence w =? sequence)%Z && (pw_expiry w =? expiry)%Z
               then Idempotent else RejectedStale current offered)
    | _, _ => (None, RejectedStale current offered)
    end
  else if (offered <? current)%Z then (None, RejectedStale current offered)
  else (Some (slot_of assertion), installed assertion).

(** ProviderRecordSet::apply *)
Definition apply (s : ProviderRecordSet) (assertion : ProviderAssertion) (now : Z)
    : ProviderRecordSet * ApplyOutcome :=
  let expiry := pa_expiry assertion in
  if (expiry <=? now)%Z then (s, RejectedExpired expiry now)
  else
    let key := pa_key assertion in
    let provider := pa_provider assertion in
    let providers := default ∅ (by_key s !! key) in
    match providers !! provider with
    | None =>
        ({| by_key := <[key := <[provider := slot_of assertion]> providers]> (by_key s) |},
         installed assertion)
    | Some slot =>
        let '(new, outcome) := apply_occupied assertion slot in
        let providers' :=
          match new with Some slot' => <[provider := slot']> providers | None => providers end in
        ({| by_key := <[key := providers']> (by_key s) |}, outcome)
    end.

(** The live record of a slot, if it has one at [now]. *)
Definition live_record (now : Z) (s : Slot) : option ProviderRecord :=
  match s with
  | Active record => if (now <? pr_expiry record)%Z then Some record else None
  | Withdrawn _ _ => None
  end.

(** ProviderRecordSet::find_providers *)
Definition find_providers (s : ProviderRecordSet) (key : ContentKey) (now : Z)
    : list ProviderRecord :=
  match by_key s !! key with
  | None => []
  | Some providers => omap (live_record now) (map_to_list providers).*2
  end.

(** ProviderRecordSet::slot_count *)
Definition slot_count (s : ProviderRecordSet) : nat :=
  map_fold (fun _ providers n => size providers + n) 0 (by_key s).

(** ProviderRecordSet::contains_slot *)
Definition contains_slot (s : ProviderRecordSet) (key : ContentKey) (provider : NodeId) : bool :=
  match by_key s !! key with
  | None => false
  | Some providers => bool_decide (is_Some (providers !! provider))
  end.

(** `providers.retain(|_, slot| slot.expiry() > now)` *)
Definition retain_live (now : Z) (providers : gmap NodeId Slot) : gmap NodeId Slot :=
  filter (fun kv => (now < Slot_expiry kv.2)%Z) providers.

(** ProviderRecordSet::evict_expired, with the number of slots removed *)
Definition evict_expired (s : ProviderRecordSet) (now : Z) : ProviderRecordSet * nat :=
  let removed := map_fold (fun _ providers n =>
    (size providers - size (retain_live now providers)) + n) 0 (by_key s) in
  ({| by_key := filter (fun kv => kv.2 <> ∅) (retain_live now <$> by_key s) |}, removed).

(** ProviderRecordSet::remove_slot, with whether the slot existed *)
Definition remove_slot (s : ProviderRecordSet) (key : ContentKey) (provider : NodeId)
    : ProviderRecordSet * bool :=
  match by_key s !! key with
  | None => (s, false)
  | Some providers =>
      let existed := bool_decide (is_Some (providers !! provider)) in
      let providers' := delete provider providers in
      ({| by_key := if decide (providers' = ∅) then delete key (by_key s)
                    else <[key := providers']> (by_key s) |}, existed)
  end.

Definition floor_of (slot : Slot) : SlotFloor :=
  match slot with
  | Active record => FloorActive record
  | Withdrawn sequence expiry => FloorWithdrawn sequence expiry
  end.

(** ProviderRecordSet::export_floors *)
Definition export_floors (s : ProviderRecordSet) : list (ContentKey * NodeId * SlotFloor) :=
  '(key, providers) ← map_to_list (by_key s);
  '(provider, slot) ← map_to_list providers;
  [(key, provider, floor_of slot)].

(** ProviderRecordSet::restore_floor *)
Definition restore_floor (s : ProviderRecordSet) (key : ContentKey) (provider : NodeId)
    (floor : SlotFloor) : ProviderRecordSet :=
  let slot :=
    match floor with
    | FloorActive record => Active record
    | FloorWithdrawn sequence expiry => Withdrawn sequence expiry
    end in
  {| by_key := <[key := <[provider := slot]> (default ∅ (by_key s !! key))]> (by_key s) |}.

(** ** The abstract view: one slot per (key, provider) *)

Definition slot_at (s : ProviderRecordSet) (k : ContentKey) (p : NodeId) : option Slot :=
  by_key s !! k ≫= fun providers => providers !! p.

(** The state machine of one slot. *)
Definition apply_slot (o : option Slot) (a : ProviderAssertion) (now : Z)
    : option Slot * ApplyOutcome :=
  if (pa_expiry a <=? now)%Z then (o, RejectedExpired (pa_expiry a) now)
  else match o with
       | None => (Some (slot_of a), installed a)
       | Some slot =>
           match (pa_sequence a ?= Slot_sequence slot)%Z with
           | Gt => (Some (slot_of a), installed a)
           | Eq => (o, if bool_decide (slot_of a = slot) then Idempotent
                       else RejectedStale (Slot_sequence slot) (pa_sequence a))
           | Lt => (o, RejectedStale (Slot_sequence slot) (pa_sequence a))
           end
       end.

(** The same machine through the code's [apply_occupied]. *)
Definition apply_slot_code (o : option Slot) (a : ProviderAssertion) (now : Z)
    : option Slot * ApplyOutcome :=
  if (pa_expiry a <=? now)%Z then (o, RejectedExpired (pa_expiry a) now)
  else match o with
       | None => (Some (slot_of a), installed a)
       | Some slot =>
           let '(new, out) := apply_occupied a slot in
           (match new with Some _ => new | None => o end, out)
       end.

Lemma apply_slot_code_eq o a now : apply_slot o a now = apply_slot_code o a now.
Proof.
  unfold apply_slot, apply_slot_code, apply_occupied. destruct (_ <=? _)%Z; [done|].
  destruct o as [slot|]; [|done].
  destruct (Z.compare_spec (pa_sequence a) (Slot_sequence slot)) as [He|Hl|Hg].
  - rewrite (proj2 (Z.eqb_eq _ _) He). destruct a as [r|w], slot as [r'|n e]; cbn in *; try done.
    + do 2 f_equal. by case_bool_decide; case_bool_decide; simplify_eq.
    + do 2 f_equal. rewrite (proj2 (Z.eqb_eq _ _) He). cbn.
      destruct (Z.eqb_spec (pw_expiry w) e); case_bool_decide; simplify_eq; done.
  - rewrite (proj2 (Z.eqb_neq _ _)), (proj2 (Z.ltb_lt _ _)) by lia. done.
  - rewrite (proj2 (Z.eqb_neq _ _)), (proj2 (Z.ltb_ge _ _)) by lia. done.
Qed.

(** No key maps to an empty provider map. *)
Definition set_wf (s : ProviderRecordSet) : Prop :=
  map_Forall (fun _ (ps : gmap NodeId Slot) => ps <> ∅) (by_key s).

(** Active slots are filed under their own key and provider. *)
Definition set_filed (s : ProviderRecordSet) : Prop :=
  forall k p r, slot_at s k p = Some (Active r) -> pr_key r = k /\ pr_provider r = p.

(** A run of the store over a sequence of (assertion, time) deliveries. *)
Definition run (s : ProviderRecordSet) (events : list (ProviderAssertion * Z))
    : ProviderRecordSet :=
  foldl (fun s '(a, now) => fst (apply s a now)) s events.

(** What changes a store between two boots: a delivery, a sweep of the expired
    slots, the eviction of one slot under memory pressure. *)
Inductive StoreOp :=
| Deliver (a : ProviderAssertion) (now : Z)
| Sweep (now : Z)
| Forget (key : ContentKey) (provider : NodeId).

Definition store_step (s : ProviderRecordSet) (op : StoreOp) : ProviderRecordSet :=
  match op with
  | Deliver a now => fst (apply s a now)
  | Sweep now => fst (evict_expired s now)
  | Forget key provider => fst (remove_slot s key provider)
  end.
Definition history (s : ProviderRecordSet) (ops : list StoreOp) : ProviderRecordSet := foldl store_step s ops.

(** [op] does not drop the slot of ([k], [p]), which holds [slot]. *)
Definition spares (k : ContentKey) (p : NodeId) (slot : Slot) (op : StoreOp) : Prop :=
  match op with
  | Deliver _ _ => True
  | Sweep now => (now < Slot_expiry slot)%Z
  | Forget key provider => (key, provider) <> (k, p)
  end.
(** No operation of [ops] drops that slot. *)
Fixpoint retained (s : ProviderRecordSet) (ops : list StoreOp) (k : ContentKey) (p : NodeId) : Prop :=
  match ops with
  | [] => True
  | op :: ops => (forall slot, slot_at s k p = Some slot -> spares k p slot op) /\ retained (store_step s op) ops k p
  end.

(** The clock readings of a history, in its order. *)
Definition clocks (ops : list StoreOp) : list Z :=
  omap (fun op => match op with Deliver _ now | Sweep now => Some now | Forget _ _ => None end) ops.

(** Sequence and expiry of what is delivered to one slot. *)
Definition delivered (k : ContentKey) (p : NodeId) (ops : list StoreOp) : list (Z * Z) :=
  omap (fun op => match op with
                  | Deliver a _ => if decide (k = pa_key a /\ p = pa_provider a) then Some (pa_sequence a, pa_expiry a) else None
                  | _ => None
                  end) ops.
(** A later sequence does not expire sooner. *)
Definition monotone_expiry (l : list (Z * Z)) : Prop :=
  forall x y, x ∈ l -> y ∈ l -> (x.1 <= y.1)%Z -> (x.2 <= y.2)%Z.

(** ** Lemmas: the nested maps against the abstract view *)

Lemma slot_at_insert s k k' p' ps :
  slot_at {| by_key := <[k := ps]> (by_key s) |} k' p' =
  if decide (k' = k) then ps !! p' else slot_at s k' p'.
Proof.
  unfold slot_at; simpl. destruct (decide (k' = k)) as [->|Hne].
  - by rewrite lookup_insert_eq.
  - by rewrite lookup_insert_ne.
Qed.

Lemma slot_at_default s k p : default ∅ (by_key s !! k) !! p = slot_at s k p.
Proof. unfold slot_at. by destruct (by_key s !! k). Qed.

Lemma slot_at_insert_slot s k p slot k' p' :
  slot_at {| by_key := <[k := <[p := slot]> (default ∅ (by_key s !! k))]> (by_key s) |} k' p' =
  if decide (k' = k /\ p' = p) then Some slot else slot_at s k' p'.
Proof.
  rewrite slot_at_insert. destruct (decide (k' = k)) as [->|Hne].
  - destruct (decide (p' = p)) as [->|Hne].
    + by rewrite lookup_insert_eq, decide_True.
    + rewrite lookup_insert_ne, slot_at_default, decide_False by naive_solver. done.
  - by rewrite decide_False by naive_solver.
Qed.

Lemma slot_at_ext s t :
  set_wf s -> set_wf t -> (forall k p, slot_at s k p = slot_at t k p) -> s = t.
Proof.
  intros Hs Ht Heq. destruct s as [m], t as [n]. f_equal. apply map_eq. intros k.
  assert (forall (m n : gmap ContentKey (gmap NodeId Slot)) ps,
    (forall p, slot_at {| by_key := m |} k p = slot_at {| by_key := n |} k p) ->
    m !! k = Some ps -> ps <> ∅ -> exists qs, n !! k = Some qs /\ ps = qs) as Haux.
  { clear. intros m n ps Heq Hm Hne. unfold slot_at in Heq; simpl in Heq.
    rewrite Hm in Heq. simpl in Heq. destruct (n !! k) as [qs|]; simpl in Heq.
    - exists qs. split; [done|]. by apply map_eq.
    - exfalso. apply Hne, map_empty. exact Heq. }
  destruct (m !! k) as [ps|] eqn:Em.
  - destruct (Haux m n ps (Heq k) Em (Hs _ _ Em)) as (qs & -> & ->). done.
  - destruct (n !! k) as [qs|] eqn:En; [|done].
    destruct (Haux n m qs (fun p => eq_sym (Heq k p)) En (Ht _ _ En)) as (? & ? & _). congruence.
Qed.

Lemma apply_refines_code s a now :
  (forall k p, slot_at (apply s a now).1 k p =
    if decide (k = pa_key a /\ p = pa_provider a)
    then (apply_slot_code (slot_at s k p) a now).1 else slot_at s k p) /\
  (apply s a now).2 = (apply_slot_code (slot_at s (pa_key a) (pa_provider a)) a now).2.
Proof.
  unfold apply, apply_slot_code.
  destruct (pa_expiry a <=? now)%Z; [split; [|done]; intros; by case_decide|].
  rewrite slot_at_default.
  destruct (slot_at s (pa_key a) (pa_provider a)) as [slot|] eqn:E.
  - destruct (apply_occupied a slot) as [[slot'|] out] eqn:Eo; cbn [fst snd].
    + split; [|done]. intros k p. rewrite slot_at_insert_slot.
      case_decide as Hd; [|done]. destruct Hd as [-> ->]. by rewrite E, Eo.
    + split; [|done]. intros k p. rewrite slot_at_insert.
      destruct (decide (k = pa_key a)) as [->|Hne].
      * rewrite slot_at_default. case_decide as Hd; [|done]. destruct Hd as [_ ->].
        by rewrite E, Eo.
      * by rewrite decide_False by naive_solver.
  - cbn [fst snd]. split; [|done]. intros k p. rewrite slot_at_insert_slot.
    case_decide as Hd; [|done]. destruct Hd as [-> ->]. by rewrite E.
Qed.

Lemma slot_at_apply s a now k p :
  slot_at (apply s a now).1 k p =
  if decide (k = pa_key a /\ p = pa_provider a)
  then (apply_slot (slot_at s k p) a now).1 else slot_at s k p.
Proof. rewrite apply_slot_code_eq. apply apply_refines_code. Qed.

Lemma outcome_apply s a now :
  (apply s a now).2 = (apply_slot (slot_at s (pa_key a) (pa_provider a)) a now).2.
Proof. rewrite apply_slot_code_eq. apply apply_refines_code. Qed.

Lemma insert_ne_empty (ps : gmap NodeId Slot) p x : <[p := x]> ps <> ∅.
Proof. apply insert_non_empty. Qed.

Lemma apply_wf s a now : set_wf s -> set_wf (apply s a now).1.
Proof.
  intros Hs. unfold apply, set_wf. destruct (_ <=? _)%Z; [done|].
  destruct (default ∅ (by_key s !! pa_key a) !! pa_provider a) as [slot|] eqn:E; simpl.
  - destruct (apply_occupied a slot) as [[slot'|] out]; simpl;
      apply map_Forall_insert_2; try done; [apply insert_ne_empty|].
    intros Hc. by rewrite Hc, lookup_empty in E.
  - apply map_Forall_insert_2; [apply insert_ne_empty|done].
Qed.

Lemma new_wf : set_wf ProviderRecordSet_new.
Proof. apply map_Forall_empty. Qed.

Lemma run_wf s events : set_wf s -> set_wf (run s events).
Proof.
  revert s. induction events as [|[a now] l IH]; intros s Hs; simpl; [done|].
  by apply IH, apply_wf.
Qed.

(** ** The slot machine *)

Lemma apply_occupied_mono a slot slot' out :
  apply_occupied a slot = (Some slot', out) ->
  (Slot_sequence slot < Slot_sequence slot')%Z /\ slot' = slot_of a /\ out = installed a.
Proof.
  unfold apply_occupied. destruct (Z.eqb_spec (pa_sequence a) (Slot_sequence slot)).
  - destruct a, slot; intros [= ?]; simplify_eq.
  - destruct (Z.ltb_spec (pa_sequence a) (Slot_sequence slot)) as [|Hlt]; intros [= <- <-].
    split; [|done]. destruct a; simpl in *; lia.
Qed.

(** Never backwards: an occupied slot stays occupied and its sequence grows
    whenever the slot changes. *)
Lemma apply_slot_mono o slot a now :
  o = Some slot ->
  exists slot', (apply_slot o a now).1 = Some slot' /\
    (slot' = slot \/ (Slot_sequence slot < Slot_sequence slot')%Z /\ slot' = slot_of a).
Proof.
  intros ->. rewrite ?apply_slot_code_eq. unfold apply_slot_code. destruct (_ <=? _)%Z; [simpl; eauto|].
  destruct (apply_occupied a slot) as [[slot'|] out] eqn:E; simpl; [|eauto].
  apply apply_occupied_mono in E as (? & -> & _). eauto.
Qed.

(** A rejected or idempotent assertion changes nothing. *)
Lemma apply_slot_rejected o a now :
  (apply_slot o a now).2 <> Applied -> (apply_slot o a now).2 <> OutWithdrawn ->
  (apply_slot o a now).1 = o.
Proof.
  rewrite ?apply_slot_code_eq. unfold apply_slot_code. destruct (_ <=? _)%Z; [done|]. destruct o as [slot|].
  - destruct (apply_occupied a slot) as [[slot'|] out] eqn:E; simpl; [|done].
    apply apply_occupied_mono in E as (_ & _ & ->). by destruct a.
  - by destruct a.
Qed.

(** ** Runs *)

Lemma run_app s l l' : run s (l ++ l') = run (run s l) l'.
Proof. apply foldl_app. Qed.

Lemma run_mono s events k p slot :
  slot_at s k p = Some slot ->
  exists slot', slot_at (run s events) k p = Some slot' /\
    (slot' = slot \/ (Slot_sequence slot < Slot_sequence slot')%Z).
Proof.
  revert s slot. induction events as [|[a now] l IH]; intros s slot Hs; simpl; [eauto|].
  destruct (slot_at (apply s a now).1 k p) as [slot1|] eqn:E1.
  - destruct (IH _ _ E1) as (slot2 & ? & H2). exists slot2. split; [done|].
    rewrite slot_at_apply in E1. case_decide as Hd; [|naive_solver].
    destruct (apply_slot_mono _ _ a now Hs) as (s1 & E & Hs1). rewrite E in E1.
    injection E1 as ->. destruct Hs1 as [->|[? ->]]; [done|]. destruct H2 as [->|]; right; lia.
  - exfalso. rewrite slot_at_apply in E1. case_decide; [|congruence].
    destruct (apply_slot_mono _ _ a now Hs) as (s1 & E & _). congruence.
Qed.

Lemma apply_filed s a now : set_filed s -> set_filed (apply s a now).1.
Proof.
  intros Hs k p r. rewrite slot_at_apply. case_decide as Hd; [|apply Hs].
  destruct Hd as [-> ->]. rewrite ?apply_slot_code_eq. unfold apply_slot_code. destruct (_ <=? _)%Z; simpl; [apply Hs|].
  destruct (slot_at s (pa_key a) (pa_provider a)) as [slot|] eqn:E.
  - destruct (apply_occupied a slot) as [[slot'|] out] eqn:Eo; simpl.
    + apply apply_occupied_mono in Eo as (_ & -> & _). destruct a; simpl; naive_solver.
    + intros Hr. rewrite Hr in E. by apply Hs.
  - simpl. destruct a; simpl; naive_solver.
Qed.

Lemma new_filed : set_filed ProviderRecordSet_new.
Proof. intros k p r. unfold slot_at. simpl. by rewrite lookup_empty. Qed.

Lemma run_filed s events : set_filed s -> set_filed (run s events).
Proof.
  revert s. induction events as [|[a now] l IH]; intros s Hs; simpl; [done|].
  by apply IH, apply_filed.
Qed.

(** ** Reading *)

Lemma elem_of_find_providers s key now r :
  r ∈ find_providers s key now <->
  exists p, slot_at s key p = Some (Active r) /\ (now < pr_expiry r)%Z.
Proof.
  unfold find_providers, slot_at. destruct (by_key s !! key) as [ps|]; simpl.
  - rewrite list_elem_of_omap. split.
    + intros (slot & Hs & Hl). apply list_elem_of_fmap in Hs as ([p slot'] & -> & Hm).
      apply elem_of_map_to_list in Hm. simpl in Hl. destruct slot' as [r'|]; [|done].
      simpl in Hl. destruct (Z.ltb_spec now (pr_expiry r')); naive_solver.
    + intros (p & Hp & Hl). exists (Active r). split.
      * apply list_elem_of_fmap. exists (p, Active r). split; [done|].
        by apply elem_of_map_to_list.
      * simpl. by rewrite (proj2 (Z.ltb_lt _ _) Hl).
  - split; [by intros ?%elem_of_nil|]. by intros (? & ? & _).
Qed.

Lemma contains_slot_iff s k p : contains_slot s k p = true <-> is_Some (slot_at s k p).
Proof.
  unfold contains_slot, slot_at. destruct (by_key s !! k); simpl.
  - apply bool_decide_eq_true.
  - split; [done|]. by intros [? ?].
Qed.

(** ** Counting *)

Definition sum_over (f : gmap NodeId Slot -> nat) (m : gmap ContentKey (gmap NodeId Slot)) : nat :=
  map_fold (fun _ ps n => f ps + n) 0 m.

Lemma sum_over_insert f m k ps :
  m !! k = None -> sum_over f (<[k := ps]> m) = f ps + sum_over f m.
Proof. intros Hk. unfold sum_over. rewrite map_fold_insert_L; [done| |done]. intros; lia. Qed.

Lemma sum_over_empty f : sum_over f ∅ = 0.
Proof. apply map_fold_empty. Qed.

Lemma slot_count_sum s : slot_count s = sum_over size (by_key s).
Proof. done. Qed.

(** Every occupied (key, provider), once. *)
Definition slot_ids (s : ProviderRecordSet) : list (ContentKey * NodeId) :=
  '(k, ps) ← map_to_list (by_key s); pair k <$> (map_to_list ps).*1.

Lemma elem_of_slot_ids s k p : (k, p) ∈ slot_ids s <-> is_Some (slot_at s k p).
Proof.
  unfold slot_ids, slot_at. rewrite list_elem_of_bind. split.
  - intros ([k' ps] & Hp & Hk). apply list_elem_of_fmap in Hp as (p' & [= -> ->] & Hp).
    apply elem_of_map_to_list in Hk. rewrite Hk. simpl.
    apply list_elem_of_fmap in Hp as ([p1 slot] & -> & Hm).
    apply elem_of_map_to_list in Hm. eauto.
  - destruct (by_key s !! k) as [ps|] eqn:Ek; simpl; [|by intros [? ?]].
    intros [slot Hs]. exists (k, ps). split; [|by apply elem_of_map_to_list].
    apply list_elem_of_fmap. exists p. split; [done|].
    apply list_elem_of_fmap. exists (p, slot). split; [done|]. by apply elem_of_map_to_list.
Qed.

Lemma slot_ids_map (l : list (ContentKey * gmap NodeId Slot)) :
  NoDup l.*1 -> NoDup (l ≫= fun '(k, ps) => pair k <$> (map_to_list ps).*1).
Proof.
  induction l as [|[k ps] l IH]; simpl; [constructor|].
  intros [Hk Hn]%NoDup_cons. apply NoDup_app. split_and!.
  - apply NoDup_fmap_2; [intros ?? [= ?]; done|]. apply NoDup_fst_map_to_list.
  - intros [k' p] Hin Hin'. apply list_elem_of_fmap in Hin as (? & [= -> ->] & _).
    apply Hk. apply list_elem_of_bind in Hin' as ([k'' ps'] & Hp & Hl).
    apply list_elem_of_fmap in Hp as (? & [= -> ->] & _).
    apply list_elem_of_fmap. by exists (k'', ps').
  - by apply IH.
Qed.

Lemma slot_ids_NoDup s : NoDup (slot_ids s).
Proof. apply slot_ids_map, NoDup_fst_map_to_list. Qed.

Lemma length_slot_ids s : length (slot_ids s) = slot_count s.
Proof.
  unfold slot_ids. rewrite slot_count_sum. unfold sum_over. rewrite map_fold_foldr.
  induction (map_to_list (by_key s)) as [|[k ps] l IH]; [done|].
  cbn [mbind list_bind foldr curry uncurry]. rewrite length_app, !length_fmap.
  rewrite IH. simpl. by rewrite length_map_to_list.
Qed.

(** ** Eviction, removal, restore *)

Definition evicted (now : Z) (m : gmap ContentKey (gmap NodeId Slot)) :=
  filter (fun kv : ContentKey * gmap NodeId Slot => kv.2 <> ∅) (retain_live now <$> m).

Lemma slot_at_evict s now k p :
  slot_at (evict_expired s now).1 k p =
  match slot_at s k p with
  | Some slot => if decide (now < Slot_expiry slot)%Z then Some slot else None
  | None => None
  end.
Proof.
  unfold slot_at, evict_expired. cbn [fst by_key]. rewrite map_lookup_filter, lookup_fmap.
  destruct (by_key s !! k) as [ps|]; simpl; [|done].
  assert (retain_live now ps !! p = match ps !! p with
    | Some slot => if decide (now < Slot_expiry slot)%Z then Some slot else None
    | None => None end) as Hp.
  { unfold retain_live. rewrite map_lookup_filter. destruct (ps !! p); simpl; [|done].
    case_guard; simpl in *; repeat case_decide; done. }
  case_guard as Hg; simpl; rewrite <-Hp; simpl in Hg; [done|by rewrite Hg, lookup_empty].
Qed.

Lemma evict_wf s now : set_wf (evict_expired s now).1.
Proof.
  intros k ps. unfold evict_expired. cbn [fst by_key].
  intros [_ Hne]%map_lookup_filter_Some. done.
Qed.

Lemma evicted_insert now m k ps :
  m !! k = None ->
  evicted now (<[k := ps]> m) =
  if decide (retain_live now ps = ∅) then evicted now m
  else <[k := retain_live now ps]> (evicted now m).
Proof.
  intros Hk. unfold evicted. rewrite fmap_insert. case_decide as Hd.
  - rewrite map_filter_insert_False by (simpl; naive_solver).
    by rewrite delete_id by (by rewrite lookup_fmap, Hk).
  - by rewrite map_filter_insert_True by done.
Qed.

Lemma evicted_count now m :
  sum_over (fun ps => size ps - size (retain_live now ps)) m + sum_over size (evicted now m)
  = sum_over size m.
Proof.
  induction m as [|k ps m Hk IH] using map_ind.
  - unfold evicted. by rewrite fmap_empty, map_filter_empty, !sum_over_empty.
  - rewrite !sum_over_insert by done. rewrite evicted_insert by done.
    assert (size (retain_live now ps) <= size ps) as Hle by apply map_size_filter.
    case_decide as Hd.
    + rewrite Hd, map_size_empty in *. lia.
    + rewrite sum_over_insert; [lia|]. unfold evicted.
      apply map_lookup_filter_None. left. by rewrite lookup_fmap, Hk.
Qed.

Lemma evict_count s now :
  (evict_expired s now).2 + slot_count (evict_expired s now).1 = slot_count s.
Proof. apply evicted_count. Qed.

Lemma slot_at_remove s k p k' p' :
  slot_at (remove_slot s k p).1 k' p' =
  if decide (k' = k /\ p' = p) then None else slot_at s k' p'.
Proof.
  unfold remove_slot. destruct (by_key s !! k) as [ps|] eqn:Ek; cbn [fst].
  - assert (forall q, delete p ps !! q = if decide (q = p) then None else ps !! q) as Hq.
    { intros q. rewrite lookup_delete. repeat case_decide; congruence. }
    unfold slot_at; simpl. case_decide as He.
    + destruct (decide (k' = k)) as [->|Hne].
      * rewrite lookup_delete_eq, Ek. simpl. specialize (Hq p'). rewrite He, lookup_empty in Hq.
        repeat case_decide; naive_solver.
      * rewrite lookup_delete_ne by done. by rewrite decide_False by naive_solver.
    + destruct (decide (k' = k)) as [->|Hne].
      * rewrite lookup_insert_eq, Ek. simpl. rewrite Hq.
        repeat case_decide; naive_solver.
      * rewrite lookup_insert_ne by done. by rewrite decide_False by naive_solver.
  - case_decide as Hd; [|done]. destruct Hd as [-> ->]. unfold slot_at. by rewrite Ek.
Qed.

Lemma remove_wf s k p : set_wf s -> set_wf (remove_slot s k p).1.
Proof.
  intros Hs. unfold remove_slot. destruct (by_key s !! k) as [ps|] eqn:Ek; cbn [fst]; [|done].
  unfold set_wf; simpl. case_decide.
  - by apply map_Forall_delete.
  - by apply map_Forall_insert_2.
Qed.

Lemma remove_existed s k p : (remove_slot s k p).2 = contains_slot s k p.
Proof. unfold remove_slot, contains_slot. by destruct (by_key s !! k). Qed.

Lemma slot_of_floor slot :
  match floor_of slot with
  | FloorActive record => Active record
  | FloorWithdrawn sequence expiry => Withdrawn sequence expiry
  end = slot.
Proof. by destruct slot. Qed.

Definition slot_of_floor_of (f : SlotFloor) : Slot :=
  match f with FloorActive r => Active r | FloorWithdrawn n e => Withdrawn n e end.

Lemma slot_at_restore s k p f k' p' :
  slot_at (restore_floor s k p f) k' p' =
  if decide (k' = k /\ p' = p) then Some (slot_of_floor_of f) else slot_at s k' p'.
Proof. apply slot_at_insert_slot. Qed.

Lemma restore_wf s k p f : set_wf s -> set_wf (restore_floor s k p f).
Proof. intros Hs. apply map_Forall_insert_2; [apply insert_ne_empty|done]. Qed.

Definition restore_all (s : ProviderRecordSet) (l : list (ContentKey * NodeId * SlotFloor)) :=
  foldl (fun s '(k, p, f) => restore_floor s k p f) s l.

Lemma elem_of_export s k p f :
  (k, p, f) ∈ export_floors s <-> exists slot, slot_at s k p = Some slot /\ f = floor_of slot.
Proof.
  unfold export_floors, slot_at. rewrite list_elem_of_bind. split.
  - intros ([k' ps] & Hp & Hk). apply list_elem_of_bind in Hp as ([p' slot] & Hp & Hm).
    apply list_elem_of_singleton in Hp as [= -> -> ->].
    apply elem_of_map_to_list in Hk, Hm. rewrite Hk. simpl. eauto.
  - destruct (by_key s !! k) as [ps|] eqn:Ek; simpl; [|by intros (? & ? & _)].
    intros (slot & Hs & ->). exists (k, ps). split; [|by apply elem_of_map_to_list].
    apply list_elem_of_bind. exists (p, slot). split; [|by apply elem_of_map_to_list].
    by apply list_elem_of_singleton.
Qed.

(** A batch of floors that agrees with a slot assignment restores it. *)
Lemma slot_at_restore_all (target : ContentKey -> NodeId -> option Slot) s l :
  (forall k p f, (k, p, f) ∈ l -> target k p = Some (slot_of_floor_of f)) ->
  (forall k p, slot_at s k p = target k p \/ exists f, (k, p, f) ∈ l) ->
  forall k p, slot_at (restore_all s l) k p = target k p.
Proof.
  revert s. induction l as [|[[k0 p0] f0] l IH]; intros s Hl Hs k p; simpl.
  - destruct (Hs k p) as [?|[f Hf]]; [done|]. by apply elem_of_nil in Hf.
  - apply IH; clear k p.
    + intros k p f Hf. apply Hl. set_solver.
    + intros k p. rewrite slot_at_restore. case_decide as Hd.
      * destruct Hd as [-> ->]. left. symmetry. apply Hl. set_solver.
      * destruct (Hs k p) as [?|[f Hf]]; [by left|].
        apply elem_of_cons in Hf as [[= -> -> ->]|?]; [naive_solver|eauto].
Qed.

Lemma restore_all_wf s l : set_wf s -> set_wf (restore_all s l).
Proof.
  revert s. induction l as [|[[k p] f] l IH]; intros s Hs; simpl; [done|].
  by apply IH, restore_wf.
Qed.

Lemma restore_export s : set_wf s -> restore_all ProviderRecordSet_new (export_floors s) = s.
Proof.
  intros Hs. apply slot_at_ext; [apply restore_all_wf, new_wf|done|].
  apply slot_at_restore_all.
  - intros k p f (slot & -> & ->)%elem_of_export. by destruct slot.
  - intros k p. destruct (slot_at s k p) as [slot|] eqn:E.
    + right. exists (floor_of slot). apply elem_of_export. eauto.
    + left. unfold slot_at; simpl. by rewrite lookup_empty.
Qed.

(** ** Delivery order *)

(** The state part of the slot machine is a maximum by sequence. *)
Lemma apply_slot_state o a now :
  (apply_slot o a now).1 =
  if (pa_expiry a <=? now)%Z then o
  else match o with
       | None => Some (slot_of a)
       | Some slot =>
           if (Slot_sequence slot <? pa_sequence a)%Z then Some (slot_of a) else o
       end.
Proof.
  rewrite ?apply_slot_code_eq. unfold apply_slot_code. destruct (_ <=? _)%Z; [done|]. destruct o as [slot|]; [|done].
  unfold apply_occupied.
  destruct (Z.eqb_spec (pa_sequence a) (Slot_sequence slot)) as [He|He].
  - rewrite He, Z.ltb_irrefl. by destruct a, slot.
  - destruct (Z.ltb_spec (pa_sequence a) (Slot_sequence slot)),
      (Z.ltb_spec (Slot_sequence slot) (pa_sequence a)); try lia; done.
Qed.

Lemma slot_of_sequence a : Slot_sequence (slot_of a) = pa_sequence a.
Proof. by destruct a. Qed.

(** One delivery, seen at one slot. *)
Definition slot_step (k : ContentKey) (p : NodeId) (o : option Slot)
    (e : ProviderAssertion * Z) : option Slot :=
  if decide (k = pa_key e.1 /\ p = pa_provider e.1) then (apply_slot o e.1 e.2).1 else o.

Lemma slot_at_run s events k p :
  slot_at (run s events) k p = foldl (slot_step k p) (slot_at s k p) events.
Proof.
  revert s. induction events as [|[a now] l IH]; intros s; simpl; [done|].
  rewrite IH. f_equal. unfold slot_step; simpl. apply slot_at_apply.
Qed.

(** No two different assertions for one slot carry the same sequence. *)
Definition conflict_free (events : list (ProviderAssertion * Z)) : Prop :=
  forall a b, a ∈ events.*1 -> b ∈ events.*1 ->
    pa_key a = pa_key b -> pa_provider a = pa_provider b ->
    pa_sequence a = pa_sequence b -> a = b.

Lemma slot_step_comm k p o e1 e2 :
  (pa_key e1.1 = pa_key e2.1 -> pa_provider e1.1 = pa_provider e2.1 ->
   pa_sequence e1.1 = pa_sequence e2.1 -> e1.1 = e2.1) ->
  slot_step k p (slot_step k p o e1) e2 = slot_step k p (slot_step k p o e2) e1.
Proof.
  destruct e1 as [a na], e2 as [b nb]; simpl. intros Hc. unfold slot_step; simpl.
  repeat case_decide; try done. destruct_and?.
  specialize (Hc ltac:(congruence) ltac:(congruence)).
  rewrite !apply_slot_state.
  destruct (pa_expiry a <=? na)%Z eqn:?, (pa_expiry b <=? nb)%Z eqn:?; try done.
  destruct (Z.lt_trichotomy (pa_sequence a) (pa_sequence b)) as [Hlt|[Heq|Hlt]];
    [|by rewrite (Hc Heq)|]; destruct o as [slot|];
    repeat (rewrite ?slot_of_sequence;
      match goal with |- context [(?x <? ?y)%Z] => destruct (Z.ltb_spec x y) end);
    rewrite ?slot_of_sequence in *; try lia; done.
Qed.

Lemma run_perm_slots k p l l' : l ≡ₚ l' -> conflict_free l ->
  forall o, foldl (slot_step k p) o l = foldl (slot_step k p) o l'.
Proof.
  induction 1 as [|e l l' Hp IH|e1 e2 l|l1 l2 l3 H1 IH1 H2 IH2]; intros Hc o; simpl; [done| | |].
  - apply IH. intros a b Ha Hb. apply Hc; set_solver.
  - f_equal. apply slot_step_comm. intros. symmetry. apply Hc; set_solver.
  - rewrite IH1 by done. apply IH2. intros a b Ha Hb. apply Hc; by rewrite H1.
Qed.

Lemma apply_occupied_kept a slot out : apply_occupied a slot = (None, out) -> out <> installed a.
Proof.
  unfold apply_occupied. destruct (_ =? _)%Z; [|destruct (_ <? _)%Z; [|done]].
  - destruct a, slot; intros [= <-]; simpl; try case_bool_decide; try destruct (_ && _); done.
  - intros [= <-]. by destruct a.
Qed.

(** ** Sweeps and evictions *)

Lemma store_step_filed s op : set_filed s -> set_filed (store_step s op).
Proof.
  intros Hf. destruct op as [a now|now|key provider]; cbn [store_step].
  - by apply apply_filed.
  - intros k p r. rewrite slot_at_evict. destruct (slot_at s k p) eqn:E; [|done]. case_decide; [|done]. intros [= ->]. by apply Hf.
  - intros k p r. rewrite slot_at_remove. case_decide; [done|]. apply Hf.
Qed.
Lemma history_filed s ops : set_filed s -> set_filed (history s ops).
Proof. revert s. induction ops as [|op ops IH]; intros s Hf; [done|]. by apply IH, store_step_filed. Qed.

(** A step that spares a slot keeps it or raises its sequence. *)
Lemma store_step_spared s op k p slot :
  slot_at s k p = Some slot -> spares k p slot op ->
  exists slot', slot_at (store_step s op) k p = Some slot' /\ (slot' = slot \/ (Slot_sequence slot < Slot_sequence slot')%Z).
Proof.
  intros Hs Hsp. destruct op as [a now|now|key provider]; cbn [store_step spares] in *.
  - rewrite slot_at_apply. case_decide; [|by eauto]. destruct (apply_slot_mono _ _ a now Hs) as (x & -> & [->|[? _]]); eauto.
  - rewrite slot_at_evict, Hs, decide_True by done. eauto.
  - rewrite slot_at_remove, decide_False by naive_solver. eauto.
Qed.

Lemma history_retained s ops k p slot :
  slot_at s k p = Some slot -> retained s ops k p ->
  exists slot', slot_at (history s ops) k p = Some slot' /\ (slot' = slot \/ (Slot_sequence slot < Slot_sequence slot')%Z).
Proof.
  revert s slot. induction ops as [|op ops IH]; intros s slot Hs Hr; [by eauto|]. destruct Hr as [Hsp Hr].
  destruct (store_step_spared s op k p slot Hs (Hsp slot Hs)) as (slot1 & Hs1 & H1).
  destruct (IH _ slot1 Hs1 Hr) as (slot2 & Hs2 & H2). exists slot2. split; [done|].
  destruct H1 as [->|H1]; [done|]. destruct H2 as [->|H2]; right; lia.
Qed.

(** The sequence and expiry of a slot. *)
Definition stamp (slot : Slot) : Z * Z := (Slot_sequence slot, Slot_expiry slot).

(** What a slot that held [slot] looks like once the clock has read [t]: it is
    still held, or a later one is, or the one that was last has expired. *)
Definition guarded (l : list (Z * Z)) (slot : Slot) (t : Z) (o : option Slot) : Prop :=
  match o with
  | Some slot' => stamp slot' ∈ l /\ (slot' = slot \/ (Slot_sequence slot < Slot_sequence slot')%Z)
  | None => exists x, x ∈ l /\ (Slot_sequence slot <= x.1)%Z /\ (x.2 <= t)%Z
  end.

Lemma guarded_step l slot t s op k p :
  monotone_expiry l -> stamp slot ∈ l -> (forall x, x ∈ delivered k p [op] -> x ∈ l) -> op <> Forget k p ->
  (forall now, now ∈ clocks [op] -> t <= now)%Z ->
  guarded l slot t (slot_at s k p) -> guarded l slot (default t (head (clocks [op]))) (slot_at (store_step s op) k p).
Proof.
  intros Hl Hslot Hd Hf Ht Hg. destruct op as [a now|now|key provider]; cbn [clocks omap list_omap head default store_step] in *.
  - rewrite slot_at_apply. specialize (Ht now ltac:(by left)). unfold delivered in Hd. cbn [omap list_omap] in Hd. case_decide as Hk.
    2:{ destruct (slot_at s k p); [done|]. destruct Hg as (x & ? & ? & ?). exists x. split_and!; [done|done|cbn; lia]. }
    specialize (Hd _ ltac:(by left)). rewrite apply_slot_state. destruct (Z.leb_spec (pa_expiry a) now) as [He|He].
    { destruct (slot_at s k p); [done|]. destruct Hg as (x & ? & ? & ?). exists x. split_and!; [done|done|cbn; lia]. }
    assert (stamp (slot_of a) ∈ l) as Ha by (by destruct a).
    destruct (slot_at s k p) as [cur|].
    + destruct Hg as [Hcur Hg]. destruct (Z.ltb_spec (Slot_sequence cur) (pa_sequence a)) as [Hlt|Hge]; [|done].
      split; [done|]. right. rewrite slot_of_sequence. destruct Hg as [->|Hg]; lia.
    + destruct Hg as (x & Hx & Hn & Hxe). split; [done|]. right. rewrite slot_of_sequence.
      destruct (Z.lt_ge_cases (Slot_sequence slot) (pa_sequence a)) as [|Hle]; [done|].
      pose proof (Hl _ x Hd Hx ltac:(cbn; lia)) as Hlt. cbn in Hlt. lia.
  - rewrite slot_at_evict. specialize (Ht now ltac:(by left)). destruct (slot_at s k p) as [cur|].
    + destruct Hg as [Hcur Hg]. case_decide as Hn; [done|]. exists (stamp cur). cbn. split_and!; [done|destruct Hg as [->|]; lia|lia].
    + destruct Hg as (x & ? & ? & ?). exists x. split_and!; [done|done|cbn; lia].
  - rewrite slot_at_remove, decide_False; [done|]. intros [-> ->]. done.
Qed.

Lemma history_guarded l slot t s ops k p :
  monotone_expiry l -> stamp slot ∈ l -> (forall x, x ∈ delivered k p ops -> x ∈ l) -> Forget k p ∉ ops ->
  StronglySorted Z.le (t :: clocks ops) ->
  guarded l slot t (slot_at s k p) -> exists t', guarded l slot t' (slot_at (history s ops) k p).
Proof.
  intros Hl Hslot. revert s t. induction ops as [|op ops IH]; intros s t Hd Hf Ht Hg; [by exists t|].
  apply not_elem_of_cons in Hf as [Hop Hf].
  assert (clocks (op :: ops) = clocks [op] ++ clocks ops /\ delivered k p (op :: ops) = delivered k p [op] ++ delivered k p ops) as [Ec Ed].
  { unfold clocks, delivered. change (op :: ops) with ([op] ++ ops). by rewrite !omap_app. }
  rewrite Ed in Hd. rewrite Ec in Ht. apply StronglySorted_inv in Ht as [Hs Ht]. rewrite Forall_app in Ht. destruct Ht as [Ht1 Ht2].
  apply (IH (store_step s op) (default t (head (clocks [op])))); [|done| |].
  - intros x Hx. apply Hd, elem_of_app. by right.
  - destruct (clocks [op]) as [|now [|y z]] eqn:E; cbn in Hs |- *; [by constructor|done|].
    exfalso. revert E. by destruct op.
  - apply guarded_step; try done.
    + intros x Hx. apply Hd, elem_of_app. by left.
    + intros now Hnow. rewrite Forall_forall in Ht1. by apply Ht1.
Qed.

Lemma sorted_head (l : list Z) : StronglySorted Z.le l -> StronglySorted Z.le (default 0%Z (head l) :: l).
Proof.
  intros Hl. destruct l as [|t l]; [by repeat constructor|]. constructor; [done|].
  apply StronglySorted_inv in Hl as [_ Hl]. constructor; [apply Z.le_refl|done].
Qed.

(** A lookup returns the record of the provider's own slot. *)
Lemma found_slot s k p now r :
  set_filed s -> r ∈ find_providers s k now -> pr_provider r = p -> slot_at s k p = Some (Active r).
Proof. intros Hf (p' & Hr & _)%elem_of_find_providers <-. by destruct (Hf _ _ _ Hr) as [_ <-]. Qed.

(** ** Properties *)

(** C3: The store is a family of independent per-slot machines: applying an
    assertion moves the slot of its own key and provider by the abstract
    machine [apply_slot], reports that machine's outcome, and leaves every
    other slot alone. *)
Theorem apply_refines s a now k p :
  slot_at (apply s a now).1 k p =
    (if decide (k = pa_key a /\ p = pa_provider a)
     then (apply_slot (slot_at s k p) a now).1 else slot_at s k p) /\
  (apply s a now).2 = (apply_slot (slot_at s (pa_key a) (pa_provider a)) a now).2.
Proof. split; [apply slot_at_apply|apply outcome_apply]. Qed.

(** C4: No rollback and no resurrection, as far as the slot is kept.  Take any
    history of deliveries, sweeps and evictions from a store in which a slot
    holds sequence [n].  As long as none of its operations drops that very slot
    (no eviction of it, and no sweep at or after the expiry it then has), the slot
    stays occupied at a sequence no lower than [n]; and after a withdrawal at [n]
    every record a lookup returns for that key and provider has a sequence above
    [n].  With sweeps at any time, when the slot is not evicted, the clock does
    not run backwards and no assertion delivered to the slot expires later than
    one of a higher or equal sequence, what the slot holds is still what it held
    or of a higher sequence, so a withdrawn record stays away.  Without that
    condition on the expiries a sweep can undo a floor, and so can an eviction. *)
Theorem floor_monotone s ops k p slot :
  set_filed s -> slot_at s k p = Some slot ->
  (retained s ops k p ->
     (exists slot', slot_at (history s ops) k p = Some slot' /\ (Slot_sequence slot <= Slot_sequence slot')%Z) /\
     (forall n e now r, slot = Withdrawn n e -> r ∈ find_providers (history s ops) k now ->
        pr_provider r = p -> (n < pr_sequence r)%Z)) /\
  (Forget k p ∉ ops -> StronglySorted Z.le (clocks ops) -> monotone_expiry (stamp slot :: delivered k p ops) ->
     (forall slot', slot_at (history s ops) k p = Some slot' -> slot' = slot \/ (Slot_sequence slot < Slot_sequence slot')%Z) /\
     (forall n e now r, slot = Withdrawn n e -> r ∈ find_providers (history s ops) k now ->
        pr_provider r = p -> (n < pr_sequence r)%Z)).
Proof.
  intros Hf Hs. pose proof (history_filed s ops Hf) as Hf'. split.
  - intros Hr. destruct (history_retained s ops k p slot Hs Hr) as (slot' & Hs' & Hm). split.
    + exists slot'. split; [done|]. destruct Hm as [->|]; lia.
    + intros n e now r -> Hin Hp. pose proof (found_slot _ _ _ _ _ Hf' Hin Hp) as Hr'. rewrite Hr' in Hs'. injection Hs' as <-.
      by destruct Hm as [|].
  - intros Hn Hc Hl. assert (forall slot', slot_at (history s ops) k p = Some slot' ->
      slot' = slot \/ (Slot_sequence slot < Slot_sequence slot')%Z) as Hm.
    { intros slot' Hs'.
      destruct (history_guarded _ slot (default 0%Z (head (clocks ops))) s ops k p Hl) as (t' & Hg);
        [by left|intros x Hx; by right|done|by apply sorted_head|rewrite Hs; split; by left|rewrite Hs' in Hg; by destruct Hg]. }
    split; [done|]. intros n e now r -> Hin Hp. pose proof (found_slot _ _ _ _ _ Hf' Hin Hp) as Hr'.
    by destruct (Hm _ Hr') as [|].
Qed.

(** Delivery order is irrelevant: two runs over permutations of the same
    deliveries (each at its own clock) end in the same store, provided no two
    different assertions share key, provider and sequence. *)
Theorem delivery_order_irrelevant s events events' :
  set_wf s -> events ≡ₚ events' -> conflict_free events -> run s events = run s events'.
Proof.
  intros Hwf Hp Hc. apply slot_at_ext; [by apply run_wf..|].
  intros k p. rewrite !slot_at_run. by apply run_perm_slots.
Qed.

(** A rejected or repeated assertion leaves the store exactly as it was,
    and an assertion is taken only when it is unexpired. *)
Theorem rejected_unchanged s a now :
  set_wf s ->
  ((apply s a now).2 <> installed a -> (apply s a now).1 = s) /\
  ((apply s a now).2 = installed a -> (now < pa_expiry a)%Z /\
     slot_at (apply s a now).1 (pa_key a) (pa_provider a) = Some (slot_of a)).
Proof.
  intros Hwf. rewrite outcome_apply. split.
  - intros Hout. apply slot_at_ext; [by apply apply_wf|done|]. intros k p. rewrite slot_at_apply.
    destruct (decide _) as [[-> ->]|]; [|done]. revert Hout. generalize (slot_at s (pa_key a) (pa_provider a)).
    intros o. rewrite ?apply_slot_code_eq. unfold apply_slot_code. destruct (pa_expiry a <=? now)%Z; [done|].
    destruct o as [slot|]; [|done]. destruct (apply_occupied a slot) as [[slot'|] out] eqn:E; [|done].
    by apply apply_occupied_mono in E as (_ & _ & ->).
  - rewrite slot_at_apply, decide_True by done. generalize (slot_at s (pa_key a) (pa_provider a)).
    intros o. rewrite ?apply_slot_code_eq. unfold apply_slot_code. destruct (pa_expiry a <=? now)%Z eqn:E; [by destruct a|].
    intros Hout. split; [bools; lia|]. destruct o as [slot|]; [|done].
    destruct (apply_occupied a slot) as [[slot'|] out] eqn:Eo; simpl in *.
    + by apply apply_occupied_mono in Eo as (_ & -> & _).
    + by apply apply_occupied_kept in Eo.
Qed.

(** Sweeping expired slots removes exactly them, counts them, keeps the
    store well formed, and changes no lookup at the sweep's clock or later. *)
Theorem evict_expired_exact s now :
  (forall k p, slot_at (evict_expired s now).1 k p =
     match slot_at s k p with
     | Some slot => if decide (now < Slot_expiry slot)%Z then Some slot else None
     | None => None
     end) /\
  (evict_expired s now).2 + slot_count (evict_expired s now).1 = slot_count s /\
  set_wf (evict_expired s now).1 /\
  (forall key t r, (now <= t)%Z ->
     r ∈ find_providers (evict_expired s now).1 key t <-> r ∈ find_providers s key t).
Proof.
  split_and!; [apply slot_at_evict|apply evict_count|apply evict_wf|].
  intros key t r Ht. rewrite !elem_of_find_providers. split.
  - intros (p & Hs & He). rewrite slot_at_evict in Hs.
    destruct (slot_at s key p) as [slot|] eqn:E; [|done]. destruct (decide _); [|done]. naive_solver.
  - intros (p & Hs & He). exists p. rewrite slot_at_evict, Hs. split; [|done].
    rewrite decide_True; [done|]. simpl. lia.
Qed.

(** Exporting the floors and restoring them into an empty store gives
    the same store back, live records and tombstones alike. *)
Theorem export_restore_lossless s :
  set_wf s ->
  foldl (fun s '(k, p, f) => restore_floor s k p f) ProviderRecordSet_new (export_floors s) = s.
Proof. apply restore_export. Qed.

(** ** Witnesses *)

Definition sample_assertion (withdraw : bool) (sequence expiry : Z) : ProviderAssertion :=
  let key := ContentKey_from_bytes (fill 32 xaa) in
  let provider := NodeId_from_bytes (fill 32 x11) in
  if withdraw then
    Withdraw {| pw_key := key; pw_provider := provider; pw_sequence := sequence;
      pw_issued_at := 100; pw_expiry := expiry; pw_signature := fill 64 x00 |}
  else
    Provide {| pr_key := key; pr_content := Blake3Digest_from_bytes (fill 32 xcc);
      pr_provider := provider; pr_offers := [Iroh provider]; pr_sequence := sequence;
      pr_issued_at := 100; pr_expiry := expiry; pr_signature := fill 64 x00 |}.

Definition sample_store : ProviderRecordSet :=
  run ProviderRecordSet_new [(sample_assertion false 3 200, 150%Z); (sample_assertion true 5 300, 150%Z)].

Definition sample_key : ContentKey := ContentKey_from_bytes (fill 32 xaa).
Definition sample_provider : NodeId := NodeId_from_bytes (fill 32 x11).
(** Sweeps before the expiry of the tombstone, with a record below it and one above. *)
Definition kept_history : list StoreOp :=
  [Deliver (sample_assertion false 4 400) 160; Sweep 170; Forget sample_key (NodeId_from_bytes (fill 32 x12));
   Deliver (sample_assertion false 6 400) 180].
(** A sweep after its expiry, with a replay of a record that expired before it. *)
Definition swept_history : list StoreOp :=
  [Deliver (sample_assertion false 4 290) 160; Sweep 350; Deliver (sample_assertion false 4 290) 360].

Lemma floor_monotone_witness :
  (exists slot', slot_at (history sample_store kept_history) sample_key sample_provider = Some slot' /\
     (5 <= Slot_sequence slot')%Z) /\
  (forall slot', slot_at (history sample_store swept_history) sample_key sample_provider = Some slot' ->
     slot' = Withdrawn 5 300 \/ (5 < Slot_sequence slot')%Z).
Proof.
  split.
  - refine (proj1 (proj1 (floor_monotone sample_store kept_history sample_key sample_provider (Withdrawn 5 300) _ _) _)).
    + apply run_filed, new_filed.
    + vm_compute. reflexivity.
    + split; [done|]. split; [intros slot Hs; vm_compute in Hs; injection Hs as <-; done|].
      split; [intros slot _; by intros [=]|]. split; done.
  - refine (proj1 (proj2 (floor_monotone sample_store swept_history sample_key sample_provider (Withdrawn 5 300) _ _) _ _ _)).
    + apply run_filed, new_filed.
    + vm_compute. reflexivity.
    + intros Hin. repeat (apply elem_of_cons in Hin as [[=]|Hin]). by apply not_elem_of_nil in Hin.
    + repeat constructor; lia.
    + change (delivered sample_key sample_provider swept_history) with [(4, 290); (4, 290)]%Z. cbn [stamp Slot_sequence Slot_expiry].
      intros x y Hx Hy. rewrite !elem_of_cons, elem_of_nil in Hx, Hy.
      destruct Hx as [->|[->|[->|[]]]], Hy as [->|[->|[->|[]]]]; cbn; lia.
Defined.

(** The conditions are needed: a sweep past the expiry of a tombstone lets a
    longer-lived older record back in, and so does an eviction. *)
Example dropped_floor_is_undone :
  find_providers sample_store sample_key 360 = [] /\
  find_providers (history sample_store [Sweep 350; Deliver (sample_assertion false 4 400) 360]) sample_key 360 <> [] /\
  find_providers (history sample_store [Forget sample_key sample_provider; Deliver (sample_assertion false 4 400) 160]) sample_key 160 <> [].
Proof. split_and!; vm_compute; done. Qed.

Lemma delivery_order_irrelevant_witness :
  run ProviderRecordSet_new [(sample_assertion false 3 200, 150%Z); (sample_assertion true 5 300, 150%Z)]
  = run ProviderRecordSet_new [(sample_assertion true 5 300, 150%Z); (sample_assertion false 3 200, 150%Z)].
Proof.
  apply (delivery_order_irrelevant ProviderRecordSet_new
    [(sample_assertion false 3 200, 150%Z); (sample_assertion true 5 300, 150%Z)]
    [(sample_assertion true 5 300, 150%Z); (sample_assertion false 3 200, 150%Z)]).
  - apply new_wf.
  - apply Permutation_swap.
  - intros a b Ha Hb _ _ Hs. simpl in Ha, Hb. set_unfold.
    destruct Ha as [->|[->|[]]], Hb as [->|[->|[]]]; done.
Defined.

Lemma rejected_unchanged_witness :
  (apply sample_store (sample_assertion false 4 400) 160).1 = sample_store.
Proof.
  apply (rejected_unchanged sample_store (sample_assertion false 4 400) 160).
  - apply run_wf, new_wf.
  - vm_compute. discriminate.
Defined.

Lemma export_restore_lossless_witness :
  foldl (fun s '(k, p, f) => restore_floor s k p f) ProviderRecordSet_new (export_floors sample_store)
  = sample_store.
Proof. apply (export_restore_lossless sample_store). apply run_wf, new_wf. Defined.
