(* ===== verification/Persist.v ===== *)
(** * The on-disk floor files

    Models fabric-libp2p/src/persist.rs: the line-oriented text form of the
    directory's anti-rollback floor and of the announcer's per-key sequences,
    their parsers, and the load and save functions over a model of the disk
    (a map from paths to file contents; [write_atomic] replaces a whole file
    or fails).

    The theorems: both formats round-trip on every value the stores can hold,
    and a malformed line costs only its own entry. *)

From Stdlib Require Import Strings.Byte ZArith Lia.
From stdpp Require Import base sets gmap numbers strings list.
From S2P Require Import Prelude Hex Text Ids RecordCodec RecordStore ToyCrypto.

Import persist_hex.

Definition FLOOR_HEADER : list byte := str "# nix-p2p fabric-libp2p directory-floor v1".
Definition SEQ_HEADER : list byte := str "# nix-p2p fabric-libp2p announce-seq v1".

Definition key_bytes (k : ContentKey) : list byte := arr_bytes (ContentKey_as_bytes k).

(** ** Directory floor *)

(** One line of [serialize_floors], without its newline; [None] for an active
    record the codec refuses to encode (the code logs and skips it). *)
Definition floor_line (entry : ContentKey * NodeId * SlotFloor) : option (list byte) :=
  let '(key, provider, floor) := entry in
  match floor with
  | FloorActive record =>
      match encode_provider_record record with
      | Some (Ok bytes) => Some (str "A " ++ to_hex (key_bytes key) ++ [x20] ++ to_hex bytes)
      | _ => None
      end
  | FloorWithdrawn sequence expiry =>
      Some (str "W " ++ to_hex (key_bytes key) ++ [x20] ++ to_hex (node_bytes provider)
            ++ [x20] ++ show_u64 sequence ++ [x20] ++ show_u64 expiry)
  end.

Definition serialize_floors (floors : list (ContentKey * NodeId * SlotFloor)) : list byte :=
  foldl (fun out entry =>
    match floor_line entry with Some line => out ++ line ++ [x0a] | None => out end)
    (FLOOR_HEADER ++ [x0a]) floors.

Section parse.
Context `{Ed25519}.

Definition parse_floor_line (line : list byte) : option (ContentKey * NodeId * SlotFloor) :=
  match split_on x20 line with
  | tag :: fields =>
      if bool_decide (tag = str "A") then
        match fields with
        | [k; b] =>
            key ← hex32 k;
            bytes ← from_hex b;
            match decode_provider_assertion bytes (ContentKey_from_bytes key) 0 with
            | Ok (Provide record) =>
                Some (ContentKey_from_bytes key, pr_provider record, FloorActive record)
            | _ => None
            end
        | _ => None
        end
      else if bool_decide (tag = str "W") then
        match fields with
        | [k; p; s; e] =>
            key ← hex32 k;
            provider ← hex32 p;
            sequence ← parse_u64 s;
            expiry ← parse_u64 e;
            Some (ContentKey_from_bytes key, NodeId_from_bytes provider,
                  FloorWithdrawn sequence expiry)
        | _ => None
        end
      else None
  | [] => None
  end.

(** The loop of [deserialize_floors] after the header. *)
Definition parse_floor_lines (ls : list (list byte)) : list (ContentKey * NodeId * SlotFloor) :=
  omap (fun line => if is_blank line then None else parse_floor_line line) ls.

Definition deserialize_floors (text : list byte) : list (ContentKey * NodeId * SlotFloor) :=
  match lines text with
  | header :: rest =>
      if bool_decide (header = FLOOR_HEADER) then parse_floor_lines rest else []
  | [] => []
  end.

End parse.

(** ** Announcer sequences *)

Definition seq_line (entry : ContentKey * Z * Z) : list byte :=
  let '(key, sequence, expiry) := entry in
  to_hex (key_bytes key) ++ [x20] ++ show_u64 sequence ++ [x20] ++ show_u64 expiry.

Definition serialize_seqs (seqs : list (ContentKey * Z * Z)) : list byte :=
  foldl (fun out entry => out ++ seq_line entry ++ [x0a]) (SEQ_HEADER ++ [x0a]) seqs.

Definition parse_seq_line (line : list byte) : option (ContentKey * Z * Z) :=
  match split_on x20 line with
  | [k; s; e] =>
      key ← hex32 k;
      sequence ← parse_u64 s;
      expiry ← parse_u64 e;
      Some (ContentKey_from_bytes key, sequence, expiry)
  | _ => None
  end.

Definition parse_seq_lines (ls : list (list byte)) : list (ContentKey * Z * Z) :=
  omap (fun line => if is_blank line then None else parse_seq_line line) ls.

Definition deserialize_seqs (text : list byte) : list (ContentKey * Z * Z) :=
  match lines text with
  | header :: rest =>
      if bool_decide (header = SEQ_HEADER) then parse_seq_lines rest else []
  | [] => []
  end.

(** ** The disk *)

Abbreviation Path := (list byte).
Abbreviation Disk := (gmap Path (list byte)).

(** [write_atomic]: the file system accepts the write ([ok]) and the file is
    replaced whole, or the old file stays. *)
Definition write_atomic (ok : bool) (path : Path) (text : list byte) (disk : Disk)
    : Disk * bool :=
  if ok then (<[path := text]> disk, true) else (disk, false).

(** Errors are logged, not propagated. *)
Definition save_floors (ok : bool) (path : Path)
    (floors : list (ContentKey * NodeId * SlotFloor)) (disk : Disk) : Disk :=
  (write_atomic ok path (serialize_floors floors) disk).1.

(** `fs::read_to_string`: a missing file and an unreadable one ([ok = false])
    are both an empty floor. *)
Definition load_floors `{Ed25519} (ok : bool) (path : Path) (disk : Disk)
    : list (ContentKey * NodeId * SlotFloor) :=
  match disk !! path with
  | Some text => if ok then deserialize_floors text else []
  | None => []
  end.

Definition save_seqs (ok : bool) (path : Path) (seqs : list (ContentKey * Z * Z))
    (disk : Disk) : Disk := (write_atomic ok path (serialize_seqs seqs) disk).1.

(** [save_seqs_checked]: the I/O error reaches the caller. *)
Definition save_seqs_checked (ok : bool) (path : Path) (seqs : list (ContentKey * Z * Z))
    (disk : Disk) : Disk * bool := write_atomic ok path (serialize_seqs seqs) disk.

Definition load_seqs (ok : bool) (path : Path) (disk : Disk) : list (ContentKey * Z * Z) :=
  match disk !! path with
  | Some text => if ok then deserialize_seqs text else []
  | None => []
  end.

(** ** Lemmas *)

(** Characters of a serialized field: no space, no line break. *)
Definition plain (l : list byte) : Prop := Forall (fun c => (33 <= u8_val c < 128)%Z) l.

Lemma plain_no l c : plain l -> (u8_val c < 33)%Z -> c ∉ l.
Proof. unfold plain. rewrite Forall_forall. intros Hl Hc Hin. specialize (Hl _ Hin). lia. Qed.

Lemma plain_app l l' : plain (l ++ l') <-> plain l /\ plain l'.
Proof. apply Forall_app. Qed.

Lemma to_digit16_plain c : is_Some (to_digit16 c) -> (33 <= u8_val c < 128)%Z.
Proof.
  unfold to_digit16. intros [d Hd]. repeat case_match; bools; try done; lia.
Qed.

Lemma to_hex_plain l : plain (to_hex l).
Proof. apply Forall_forall. intros c Hc. by apply to_digit16_plain, (to_hex_chars l). Qed.

Lemma show_u64_plain n : (0 <= n)%Z -> plain (show_u64 n).
Proof.
  intros Hn. apply Forall_forall. intros c Hc. apply (show_u64_chars n) in Hc as [d Hd]; [|done].
  unfold digit_val in Hd. case_match; [|done]. bools. lia.
Qed.

Lemma split_field l t : plain l -> split_on x20 (l ++ x20 :: t) = l :: split_on x20 t.
Proof. intros Hl. apply split_on_app. by apply plain_no. Qed.

Lemma split_last l : plain l -> split_on x20 l = [l].
Proof. intros Hl. apply split_on_no_sep. by apply plain_no. Qed.

(** A line of plain fields separated by spaces survives [lines]. *)
Definition lineish (l : list byte) : Prop := Forall (fun c => (32 <= u8_val c < 128)%Z) l.

Lemma plain_lineish l : plain l -> lineish l.
Proof. intros Hl. eapply Forall_impl; [exact Hl|]. simpl. lia. Qed.

Lemma lines_lineish l t : lineish l -> lines (l ++ x0a :: t) = l :: lines t.
Proof.
  intros Hl. unfold lineish in Hl. rewrite Forall_forall in Hl.
  apply lines_cons; intros Hin; specialize (Hl _ Hin);
    destruct Hl as [Hl _]; by apply Hl.
Qed.

Lemma foldl_lines {A} (f : A -> option (list byte)) acc l :
  foldl (fun out x => match f x with Some line => out ++ line ++ [x0a] | None => out end) acc l
  = acc ++ flat_map (fun line => line ++ [x0a]) (omap f l).
Proof.
  revert acc. induction l as [|x l IH]; intros acc; simpl; [by rewrite app_nil_r|].
  destruct (f x); simpl; rewrite IH; [|done]. by rewrite !app_assoc.
Qed.

Lemma lines_block ls :
  Forall lineish ls -> lines (flat_map (fun line => line ++ [x0a]) ls) = ls.
Proof.
  induction 1 as [|l ls Hl _ IH]; [done|]. cbn [flat_map].
  rewrite <-app_assoc. change ([x0a] ++ ?t) with (x0a :: t).
  rewrite lines_lineish by done. by rewrite IH.
Qed.

Lemma lines_header h ls :
  lineish h -> Forall lineish ls ->
  lines ((h ++ [x0a]) ++ flat_map (fun line => line ++ [x0a]) ls) = h :: ls.
Proof.
  intros Hh Hls. rewrite <-app_assoc. change ([x0a] ++ ?t) with (x0a :: t).
  rewrite lines_lineish by done. by rewrite lines_block.
Qed.

Lemma lineish_dec_ok l :
  forallb (fun c => (32 <=? u8_val c)%Z && (u8_val c <? 128)%Z) l = true -> lineish l.
Proof.
  rewrite List.forallb_forall. intros H. apply Forall_forall. intros c Hc.
  specialize (H c (proj1 (list_elem_of_In _ _) Hc)). bools. lia.
Qed.

Lemma hex_line_not_blank b l t : is_blank (to_hex (b :: l) ++ t) = false.
Proof.
  apply not_blank_head. apply to_digit16_plain, (to_hex_chars (b :: l)). apply list_elem_of_here.
Qed.

Lemma key_bytes_cons k : exists b l, key_bytes k = b :: l.
Proof.
  unfold key_bytes. pose proof (arr_length (ContentKey_as_bytes k)) as Hl.
  destruct (arr_bytes (ContentKey_as_bytes k)) as [|b l]; [done|eauto].
Qed.

Lemma hex32_key k : hex32 (to_hex (key_bytes k)) = Some (ContentKey_as_bytes k).
Proof. apply hex32_to_hex. Qed.

Lemma hex32_node n : hex32 (to_hex (node_bytes n)) = Some (NodeId_as_bytes n).
Proof. apply hex32_to_hex. Qed.

(** What the announcer's file can hold. *)
Definition seq_entry_ok (e : ContentKey * Z * Z) : Prop := u64_ok e.1.2 /\ u64_ok e.2.

Lemma parse_seq_line_ok e : seq_entry_ok e -> parse_seq_line (seq_line e) = Some e.
Proof.
  destruct e as [[k s] x]. intros [Hs Hx]; simpl in Hs, Hx. unfold parse_seq_line, seq_line.
  cbn [app]. rewrite split_field by apply to_hex_plain.
  rewrite split_field by (apply show_u64_plain; apply Hs).
  rewrite split_last by (apply show_u64_plain; apply Hx).
  rewrite hex32_key. cbn [mbind option_bind]. rewrite !parse_show_u64 by done.
  by destruct k.
Qed.

Lemma seq_line_lineish e : seq_entry_ok e -> lineish (seq_line e).
Proof.
  destruct e as [[k s] x]. intros [Hs Hx]; simpl in Hs, Hx. unfold seq_line, lineish.
  rewrite !Forall_app. split_and!; try (by repeat constructor);
    apply plain_lineish; [apply to_hex_plain|apply show_u64_plain, Hs|apply show_u64_plain, Hx].
Qed.

Lemma seq_line_not_blank e : is_blank (seq_line e) = false.
Proof.
  destruct e as [[k s] x]. unfold seq_line. destruct (key_bytes_cons k) as (b & l & ->).
  apply hex_line_not_blank.
Qed.

Lemma parse_seq_lines_ok seqs :
  Forall seq_entry_ok seqs -> parse_seq_lines (seq_line <$> seqs) = seqs.
Proof.
  induction 1 as [|e l He _ IH]; [done|]. unfold parse_seq_lines in *. cbn.
  rewrite seq_line_not_blank, parse_seq_line_ok by done. cbn. by rewrite IH.
Qed.

Lemma deserialize_serialize_seqs seqs :
  Forall seq_entry_ok seqs -> deserialize_seqs (serialize_seqs seqs) = seqs.
Proof.
  intros Hs. unfold deserialize_seqs, serialize_seqs.
  assert (foldl (fun out entry => out ++ seq_line entry ++ [x0a]) (SEQ_HEADER ++ [x0a]) seqs
    = (SEQ_HEADER ++ [x0a]) ++ flat_map (fun line => line ++ [x0a]) (seq_line <$> seqs)) as ->.
  { rewrite (foldl_lines (fun e => Some (seq_line e))). by do 2 f_equal. }
  rewrite lines_header.
  - rewrite bool_decide_true by done. by apply parse_seq_lines_ok.
  - by apply lineish_dec_ok.
  - apply Forall_fmap. eapply Forall_impl; [exact Hs|]. apply seq_line_lineish.
Qed.

(** ** The directory floor round-trips *)

Section floors.
Context `{Ed25519}.

(** What the directory's store can hold: active records that a decode accepted,
    filed under their own key and provider, and tombstones of u64 fields. *)
Definition floor_entry_ok (e : ContentKey * NodeId * SlotFloor) : Prop :=
  match e.2 with
  | FloorActive r =>
      pr_provider r = e.1.2 /\
      exists bytes now, (0 <= now)%Z /\ decode_provider_assertion bytes e.1.1 now = Ok (Provide r)
  | FloorWithdrawn sequence expiry => u64_ok sequence /\ u64_ok expiry
  end.

(** A decode that succeeded succeeds at every earlier time. *)
Lemma decode_earlier bytes k now now' a :
  (now' <= now)%Z -> decode_provider_assertion bytes k now = Ok a ->
  decode_provider_assertion bytes k now' = Ok a.
Proof. rewrite !decode_assertion_iff. intros Hn (? & ? & ? & ? & ?). split_and!; done || lia. Qed.

Lemma floor_line_ok e :
  floor_entry_ok e ->
  exists line, floor_line e = Some line /\ lineish line /\ is_blank line = false /\
    parse_floor_line line = Some e.
Proof.
  destruct e as [[k p] [r|sq ex]]; unfold floor_entry_ok; simpl fst; simpl snd; cbn [floor_line].
  - intros (Hp & bytes & now & Hnow & Hd). apply (decode_earlier _ _ _ 0%Z) in Hd; [|done].
    pose proof Hd as (Henc & _)%decode_assertion_iff. cbn [encode_provider_assertion] in Henc.
    rewrite Henc. eexists; split_and!; [done|..].
    + unfold lineish. rewrite !Forall_app. split_and!;
        [by apply lineish_dec_ok|apply plain_lineish, to_hex_plain|by repeat constructor
        |apply plain_lineish, to_hex_plain].
    + by apply not_blank_head.
    + unfold parse_floor_line. change (str "A " ++ ?t) with (str "A" ++ x20 :: t).
      cbn [app]. change (x41 :: x20 :: ?t) with (str "A" ++ x20 :: t).
      rewrite split_field by (by repeat constructor).
      rewrite split_field by apply to_hex_plain. rewrite split_last by apply to_hex_plain.
      rewrite bool_decide_true by done. rewrite hex32_key, from_hex_to_hex.
      cbn [mbind option_bind].
      replace (ContentKey_from_bytes (ContentKey_as_bytes k)) with k by (by destruct k).
      rewrite Hd. by rewrite Hp.
  - intros [Hs He]. eexists; split_and!; [done|..].
    + unfold lineish. rewrite !Forall_app. split_and!; try (by repeat constructor);
        try (by apply lineish_dec_ok);
        apply plain_lineish; (apply to_hex_plain || (apply show_u64_plain; apply Hs)
          || (apply show_u64_plain; apply He)).
    + by apply not_blank_head.
    + unfold parse_floor_line. change (str "W " ++ ?t) with (str "W" ++ x20 :: t).
      cbn [app]. change (x57 :: x20 :: ?t) with (str "W" ++ x20 :: t).
      rewrite split_field by (by repeat constructor).
      rewrite !split_field by (apply to_hex_plain || (apply show_u64_plain; apply Hs)).
      rewrite split_last by (apply show_u64_plain; apply He).
      rewrite bool_decide_false, bool_decide_true by done.
      rewrite hex32_key, hex32_node. cbn [mbind option_bind].
      rewrite !parse_show_u64 by done. by destruct k, p.
Qed.

Lemma floor_lines_ok floors :
  Forall floor_entry_ok floors ->
  Forall lineish (omap floor_line floors) /\
  parse_floor_lines (omap floor_line floors) = floors.
Proof.
  induction 1 as [|e l He _ [IH1 IH2]]; [done|].
  apply floor_line_ok in He as (line & Hl & Hline & Hb & Hp). cbn.
  rewrite Hl. split; [by constructor|]. unfold parse_floor_lines in *. cbn.
  rewrite Hb, Hp. cbn. by rewrite IH2.
Qed.

Lemma deserialize_serialize_floors floors :
  Forall floor_entry_ok floors -> deserialize_floors (serialize_floors floors) = floors.
Proof.
  intros Hs. destruct (floor_lines_ok _ Hs) as [Hl Hp].
  unfold deserialize_floors, serialize_floors. rewrite foldl_lines, lines_header.
  - by rewrite bool_decide_true.
  - by apply lineish_dec_ok.
  - done.
Qed.

(** A floor file with the given lines after its header. *)
Definition floor_file (ls : list (list byte)) : list byte :=
  FLOOR_HEADER ++ [x0a] ++ flat_map (fun line => line ++ [x0a]) ls.

(** A line of any bytes but line breaks. *)
Definition one_line (l : list byte) : Prop := x0a ∉ l /\ x0d ∉ l.

Lemma lines_of_block ls :
  Forall one_line ls -> lines (flat_map (fun line => line ++ [x0a]) ls) = ls.
Proof.
  induction 1 as [|l ls [Hn Hr] _ IH]; [done|]. cbn [flat_map].
  rewrite <-app_assoc. change ([x0a] ++ ?t) with (x0a :: t). by rewrite lines_cons, IH.
Qed.

Lemma deserialize_floor_file ls :
  Forall one_line ls -> deserialize_floors (floor_file ls) = parse_floor_lines ls.
Proof.
  intros Hl. unfold deserialize_floors, floor_file. change ([x0a] ++ ?t) with (x0a :: t).
  rewrite lines_lineish by (by apply lineish_dec_ok). rewrite lines_of_block by done.
  by rewrite bool_decide_true.
Qed.

(** ** Properties *)

(** The floor file round-trips: every floor the directory can hold
    (records a decode accepted, filed under their own key and provider, and
    tombstones) is read back from its own serialization, in order. *)
Theorem floors_roundtrip floors :
  Forall floor_entry_ok floors -> deserialize_floors (serialize_floors floors) = floors.
Proof. apply deserialize_serialize_floors. Qed.

(** A malformed line costs only its own slot: dropping it from the file
    changes nothing that is read back, whatever surrounds it. *)
Theorem malformed_line_isolated before bad after :
  Forall one_line (before ++ [bad] ++ after) -> parse_floor_line bad = None ->
  deserialize_floors (floor_file (before ++ [bad] ++ after))
  = deserialize_floors (floor_file (before ++ after)).
Proof.
  intros Hl Hbad. rewrite !deserialize_floor_file.
  - unfold parse_floor_lines. rewrite !omap_app. simpl. rewrite Hbad. by destruct (is_blank bad).
  - apply Forall_app in Hl as [? [_ ?]%Forall_app]. by apply Forall_app.
  - done.
Qed.

End floors.

(** The announcer's sequence file round-trips on u64 sequences and
    expiries. *)
Theorem seqs_roundtrip seqs :
  Forall seq_entry_ok seqs -> deserialize_seqs (serialize_seqs seqs) = seqs.
Proof. apply deserialize_serialize_seqs. Qed.

(** ** Witnesses *)

Section witnesses.
#[local] Existing Instance toy_ed25519.

Definition sample_active : ProviderRecord :=
  match toy_record (fill 32 x11) xaa [Iroh (toy_node x11)] 3 200 with
  | Some r => r
  | None => {| pr_key := toy_key xaa; pr_content := toy_content xcc; pr_provider := UNSET_PROVIDER;
      pr_offers := []; pr_sequence := 0; pr_issued_at := 0; pr_expiry := 0; pr_signature := fill 64 x00 |}
  end.

Definition sample_active_bytes : list byte :=
  match encode_provider_record sample_active with Some (Ok b) => b | _ => [] end.

Definition sample_floors : list (ContentKey * NodeId * SlotFloor) :=
  [(toy_key xaa, toy_node x11, FloorActive sample_active);
   (toy_key xbb, toy_node x22, FloorWithdrawn 5 18446744073709551615)].

Lemma sample_floors_ok : Forall floor_entry_ok sample_floors.
Proof.
  unfold sample_floors. apply Forall_cons; split; [|apply Forall_singleton].
  - split; [vm_compute; reflexivity|]. exists sample_active_bytes, 150%Z.
    split; [lia|]. vm_compute. reflexivity.
  - split; vm_compute; split; discriminate || reflexivity.
Qed.

Lemma floors_roundtrip_witness :
  length sample_floors = 2 /\ deserialize_floors (serialize_floors sample_floors) = sample_floors.
Proof.
  split; [vm_compute; reflexivity|]. apply (floors_roundtrip sample_floors). apply sample_floors_ok.
Defined.

Lemma malformed_line_isolated_witness :
  deserialize_floors (floor_file ([str "W 00"] ++ [str "A zz zz"] ++ []))
  = deserialize_floors (floor_file ([str "W 00"] ++ [])).
Proof.
  apply (malformed_line_isolated [str "W 00"] (str "A zz zz") []).
  - unfold one_line. apply (bool_decide_unpack _). vm_compute. exact I.
  - vm_compute. reflexivity.
Defined.

Lemma seqs_roundtrip_witness :
  deserialize_seqs (serialize_seqs [(toy_key xaa, 7%Z, 18446744073709551615%Z)])
  = [(toy_key xaa, 7%Z, 18446744073709551615%Z)].
Proof.
  apply (seqs_roundtrip [(toy_key xaa, 7%Z, 18446744073709551615%Z)]).
  apply Forall_singleton. split; vm_compute; split; discriminate || reflexivity.
Defined.

End witnesses.
