(* ===== verification/Outcome.v ===== *)
(** * Lookup outcomes, exposures and discovery budgets

    Models peer-fabric/src/outcome.rs ([Lookup], [Unavailable]), the exposure
    vocabulary and ledger of peer-fabric/src/exposure.rs, and the discovery
    budget of peer-fabric/src/budget.rs: the data every discovery mechanism
    returns and accounts with. *)

From Stdlib Require Import Strings.Byte ZArith Lia.
From stdpp Require Import base sets numbers strings list.
From S2P Require Import Prelude Text.

(** ** outcome.rs *)

Inductive Unavailable :=
  | BootstrapOutage
  | Partition
  | DeadlineExceeded
  | InsufficientRouting
  | Backend (why : list byte).

Inductive Lookup (T : Type) :=
  | Found (value : T)
  | Miss
  | LookupUnavailable (why : Unavailable).
Arguments Found {T} _.
Arguments Miss {T}.
Arguments LookupUnavailable {T} _.

#[export] Instance Unavailable_eq_dec : EqDecision Unavailable.
Proof. solve_decision. Defined.

Definition is_found {T} (l : Lookup T) : bool := match l with Found _ => true | _ => false end.
Definition is_miss {T} (l : Lookup T) : bool := match l with Miss => true | _ => false end.
Definition is_unavailable {T} (l : Lookup T) : bool :=
  match l with LookupUnavailable _ => true | _ => false end.
Definition found {T} (l : Lookup T) : option T :=
  match l with Found v => Some v | Miss | LookupUnavailable _ => None end.

(** ** exposure.rs *)

Inductive Recipient := LanPeer | Tracker | DnsResolver | Relay | DhtNode | Bootstrap.
Inductive Disclosed := OurAddress | OurNodeId | DisclosedContentKey | QueriedNodeId.

#[export] Instance Recipient_eq_dec : EqDecision Recipient.
Proof. solve_decision. Defined.
#[export] Instance Disclosed_eq_dec : EqDecision Disclosed.
Proof. solve_decision. Defined.

Record Exposure := exposure { exp_to : Recipient; exp_disclosed : Disclosed }.

#[export] Instance Exposure_eq_dec : EqDecision Exposure.
Proof. solve_decision. Defined.

(** The ledger is an append-only list of entries. *)
Definition ExposureLedger := list Exposure.
Definition ledger_new : ExposureLedger := [].
Definition ledger_record (l : ExposureLedger) (e : Exposure) : ExposureLedger := l ++ [e].
Definition ledger_record_all (l : ExposureLedger) (es : list Exposure) : ExposureLedger := l ++ es.

Definition ExposureSurface := list Exposure.

(** ExposureSurface::recipients: the distinct recipients in first-seen order. *)
Definition recipients (s : ExposureSurface) : list Recipient :=
  foldl (fun seen e => if bool_decide (exp_to e ∈ seen) then seen else seen ++ [exp_to e]) [] s.

Lemma recipients_from (s : ExposureSurface) seen r :
  r ∈ foldl (fun seen e => if bool_decide (exp_to e ∈ seen) then seen else seen ++ [exp_to e]) seen s
  <-> r ∈ seen \/ r ∈ exp_to <$> s.
Proof.
  revert seen. induction s as [|e s IH]; intros seen; cbn [foldl fmap list_fmap].
  { rewrite elem_of_nil. tauto. }
  rewrite IH, elem_of_cons. case_bool_decide; [naive_solver|].
  rewrite elem_of_app, list_elem_of_singleton. tauto.
Qed.

Lemma recipients_from_NoDup (s : ExposureSurface) seen :
  NoDup seen ->
  NoDup (foldl (fun seen e => if bool_decide (exp_to e ∈ seen) then seen else seen ++ [exp_to e]) seen s).
Proof.
  revert seen. induction s as [|e s IH]; intros seen Hn; cbn [foldl]; [done|].
  apply IH. case_bool_decide; [done|]. apply NoDup_app. split_and!; [done| |apply NoDup_singleton].
  intros x Hx ->%list_elem_of_singleton. done.
Qed.

Lemma elem_of_recipients s r : r ∈ recipients s <-> r ∈ exp_to <$> s.
Proof. unfold recipients. rewrite recipients_from, elem_of_nil. tauto. Qed.

Lemma recipients_NoDup s : NoDup (recipients s).
Proof. apply recipients_from_NoDup, NoDup_nil_2. Qed.

(** ** budget.rs *)

(** Durations are nanoseconds. *)
Record DiscoveryBudget := { db_deadline : Z; db_max_peers : Z }.
Definition secs (n : Z) : Z := n * 1000000000.
Definition DiscoveryBudget_default : DiscoveryBudget :=
  {| db_deadline := secs 5; db_max_peers := 16 |}.
