(* ===== verification/Announcer.v ===== *)
(** * The announcer

    Models fabric-libp2p/src/announcer.rs (the durable per-key sequence floor,
    the announce and withdraw handlers), the publication-eligibility seam of
    peer-fabric/src/eligibility.rs and the DHT key derivation of
    fabric-libp2p/src/keys.rs.

    What the handlers send to the swarm is a list of [Effect]s; what the swarm
    and the file system answer are arguments.  BLAKE3's derive_key is a
    parameter.  The text of a rejection is a constructor of [RejectReason].
    u64 additions that can overflow panic with overflow checks and wrap
    without them.

    The theorems: nothing reaches the network that this node's authority does
    not admit or that does not verify, its sequence is on disk first, and
    across any run with restarts a fresh sequence and a withdrawal are strictly
    newer than everything published before. *)

From Stdlib Require Import Strings.Byte ZArith Lia.
From stdpp Require Import base sets gmap numbers strings sorting list.
From S2P Require Import Prelude Hex Text Ids RecordCodec RecordProps RecordStore Persist Outcome ToyCrypto.

(** ** eligibility.rs *)

Inductive IneligibleReason := NotAllowlisted | Refused (why : list byte).

(** The record a decision has admitted. *)
Record PublicationWitness := sealed { witness_record : ProviderRecord }.

Abbreviation PublicationEligibility := (ProviderRecord -> result IneligibleReason unit).

Definition authorize (admit_record : PublicationEligibility) (record : ProviderRecord)
    : result IneligibleReason PublicationWitness :=
  _ ← admit_record record;
  Ok (sealed record).

Definition AdmitAllPublication : PublicationEligibility := fun _ => Ok tt.
Definition RefusePublication : PublicationEligibility := fun _ => Err NotAllowlisted.

(** ** capabilities.rs *)

(** One constructor per rejection message. *)
Inductive RejectReason :=
| NotThisNode
| AlreadyExpired
| TtlOverCap
| EncodeFailed (e : RecordEncodeError)
| SelfVerificationFailed (e : RecordDecodeError)
| NeverAnnounced.

Inductive AnnounceError :=
| Rejected (why : RejectReason)
| Unreachable (why : list byte)
| AnnounceDeadlineExceeded
| PersistFailed
| Ineligible (reason : IneligibleReason).

Record Receipt := { token : list byte }.

(** ** The durable sequence floor *)

Definition MAX_RECORD_TTL_SECS : Z := 86400.
Definition MIN_TOMBSTONE_TTL_SECS : Z := MAX_RECORD_TTL_SECS.

Record LastPublished := { lp_sequence : Z; lp_expiry : Z }.

Record DurableSeqFloor := {
  announced : gmap ContentKey LastPublished;
  seq_path : option Path;
}.

(** [read_ok]: the file could be read. *)
Definition from_disk (read_ok : bool) (disk : Disk) (path : option Path) : DurableSeqFloor :=
  {| announced := match path with
       | Some p => foldl (fun m '(key, sequence, expiry) =>
           <[key := {| lp_sequence := sequence; lp_expiry := expiry |}]> m) ∅ (load_seqs read_ok p disk)
       | None => ∅
       end;
     seq_path := path |}.

(** `a + b` on u64: [debug] is whether overflow checks are on. *)
Definition u64_add (debug : bool) (a b : Z) : option Z :=
  if (a + b <=? u64_max)%Z then Some (a + b)%Z
  else if debug then None else Some ((a + b) mod 2 ^ 64)%Z.

Definition next_sequence (debug : bool) (f : DurableSeqFloor) (key : ContentKey) : option Z :=
  match announced f !! key with
  | Some last => u64_add debug (lp_sequence last) 1
  | None => Some 1%Z
  end.

Definition floor_contains (f : DurableSeqFloor) (key : ContentKey) : bool :=
  bool_decide (is_Some (announced f !! key)).

Definition last_published (f : DurableSeqFloor) (key : ContentKey) : option LastPublished := announced f !! key.

Definition advance (f : DurableSeqFloor) (key : ContentKey) (sequence expiry : Z) : DurableSeqFloor :=
  let offered := {| lp_sequence := sequence; lp_expiry := expiry |} in
  let slot := default offered (announced f !! key) in
  {| announced := <[key := if (lp_sequence slot <=? sequence)%Z then offered else slot]> (announced f);
     seq_path := seq_path f |}.

Definition snapshot (f : DurableSeqFloor) : list (ContentKey * Z * Z) :=
  (fun '(key, last) => (key, lp_sequence last, lp_expiry last)) <$> map_to_list (announced f).

Definition persist_checked (write_ok : bool) (f : DurableSeqFloor) (disk : Disk) : Disk * bool :=
  match seq_path f with
  | None => (disk, true)
  | Some path => save_seqs_checked write_ok path (snapshot f) disk
  end.

Definition persist_lossy (write_ok : bool) (f : DurableSeqFloor) (disk : Disk) : Disk :=
  match seq_path f with
  | None => disk
  | Some path => save_seqs write_ok path (snapshot f) disk
  end.

(** ** The announcer *)

(** What is handed to the swarm. *)
Inductive Effect :=
| StartProviding (index_key : list byte)
| PutRecord (value_key value : list byte) (ttl : Z)
| StopProviding (index_key : list byte).

(** What a swarm call answered within the publish future; [NetCut]: the outer
    timeout fired while it was pending. *)
Inductive Net := NetOk | NetErr (why : list byte) | NetCut.

Section announcer.
Context `{Ed25519}.
(** BLAKE3 derive_key: context string and input to digest. *)
Context (derive_key : list byte -> list byte -> list byte).

Definition VALUE_KEY_CONTEXT : list byte := str "nix-p2p/libp2p-kad/provider-record-value/v1".

Definition provider_index_key (key : ContentKey) : list byte := key_bytes key.

(** [provider]: the bytes of the peer id. *)
Definition provider_value_key (key : ContentKey) (provider : list byte) : list byte :=
  derive_key VALUE_KEY_CONTEXT (key_bytes key ++ provider).

Record Announcer := {
  an_eligibility : PublicationEligibility;
  an_node_id : NodeId;
  an_peer_id : list byte;
  an_signing_key : SigningKey;
  an_floor : DurableSeqFloor;
}.

Definition with_floor (a : Announcer) (f : DurableSeqFloor) : Announcer :=
  {| an_eligibility := an_eligibility a; an_node_id := an_node_id a; an_peer_id := an_peer_id a;
     an_signing_key := an_signing_key a; an_floor := f |}.

(** Libp2pAvailabilityAnnouncer::build; the assertion on the key is a panic. *)
Definition build (eligibility : PublicationEligibility) (node_id : NodeId) (peer_id : list byte)
    (signing_key : SigningKey) (path : option Path) (read_ok : bool) (disk : Disk) : option Announcer :=
  if bool_decide (NodeId_from_bytes (verifying_key signing_key) <> node_id) then None
  else Some {| an_eligibility := eligibility; an_node_id := node_id; an_peer_id := peer_id;
               an_signing_key := signing_key; an_floor := from_disk read_ok disk path |}.

Definition mint_withdrawal (debug : bool) (signing_key : SigningKey) (key : ContentKey)
    (last : option LastPublished) (now : Z) : option ProviderWithdrawal :=
  sequence ← match last with Some l => u64_add debug (lp_sequence l) 1 | None => Some 1%Z end;
  horizon ← u64_add debug now MIN_TOMBSTONE_TTL_SECS;
  let expiry := Z.max (match last with Some l => lp_expiry l | None => 0%Z end) horizon in
  sign_provider_withdrawal debug signing_key
    {| pw_key := key; pw_provider := UNSET_PROVIDER; pw_sequence := sequence; pw_issued_at := now;
       pw_expiry := expiry; pw_signature := fill PROVIDER_SIGNATURE_LEN x00 |}.

(** What one handler leaves behind. *)
Record Outcome := {
  out_announcer : Announcer;
  out_ledger : ExposureLedger;
  out_disk : Disk;
  out_effects : list Effect;
  out_result : result AnnounceError Receipt;
}.

Definition receipt (t : list byte) : result AnnounceError Receipt := Ok {| token := t |}.

(** AvailabilityAnnouncer::announce at unix time [now]. *)
Definition announce (write_ok : bool) (start put : Net) (now : Z) (a : Announcer)
    (witness : PublicationWitness) (ledger : ExposureLedger) (disk : Disk) : option Outcome :=
  let record := witness_record witness in
  let stop e := Some {| out_announcer := a; out_ledger := ledger; out_disk := disk; out_effects := [];
                        out_result := Err e |} in
  match an_eligibility a record with
  | Err reason => stop (Ineligible reason)
  | Ok _ =>
  if bool_decide (pr_provider record <> an_node_id a) then stop (Rejected NotThisNode)
  else if (pr_expiry record <=? now)%Z then stop (Rejected AlreadyExpired)
  else if (MAX_RECORD_TTL_SECS <? pr_expiry record - now)%Z then stop (Rejected TtlOverCap)
  else
  encoded ← encode_provider_record record;
  match encoded with
  | Err e => stop (Rejected (EncodeFailed e))
  | Ok value =>
  match decode_provider_assertion value (pr_key record) now with
  | Err e => stop (Rejected (SelfVerificationFailed e))
  | Ok _ =>
    let ledger := ledger_record_all ledger
      [exposure DhtNode DisclosedContentKey; exposure DhtNode OurNodeId; exposure DhtNode OurAddress] in
    let key := pr_key record in
    let floor := advance (an_floor a) key (pr_sequence record) (pr_expiry record) in
    let a := with_floor a floor in
    let '(disk, saved) := persist_checked write_ok floor disk in
    let done effects r := Some {| out_announcer := a; out_ledger := ledger; out_disk := disk;
                                  out_effects := effects; out_result := r |} in
    if negb saved then done [] (Err PersistFailed)
    else
      let started := StartProviding (provider_index_key key) in
      let putting := PutRecord (provider_value_key key (an_peer_id a)) value (pr_expiry record - now) in
      match start with
      | NetErr why => done [started] (Err (Unreachable why))
      | NetCut => done [started] (Err AnnounceDeadlineExceeded)
      | NetOk =>
          match put with
          | NetErr why => done [started; putting] (Err (Unreachable why))
          | NetCut => done [started; putting] (Err AnnounceDeadlineExceeded)
          | NetOk => done [started; putting] (receipt (str "libp2p-kad"))
          end
      end
  end end end.

(** The record the authority is asked about before a withdrawal. *)
Definition withdraw_probe (a : Announcer) (key : ContentKey) : ProviderRecord :=
  {| pr_key := key; pr_content := Blake3Digest_from_bytes (fill BLAKE3_DIGEST_LEN x00);
     pr_provider := an_node_id a; pr_offers := []; pr_sequence := 0; pr_issued_at := 0; pr_expiry := 0;
     pr_signature := fill PROVIDER_SIGNATURE_LEN x00 |}.

(** AvailabilityAnnouncer::withdraw at unix time [now]; no timeout wraps it. *)
Definition withdraw (debug write_ok : bool) (put : result (list byte) unit) (now : Z) (a : Announcer)
    (key : ContentKey) (ledger : ExposureLedger) (disk : Disk) : option Outcome :=
  let stop e := Some {| out_announcer := a; out_ledger := ledger; out_disk := disk; out_effects := [];
                        out_result := Err e |} in
  if negb (floor_contains (an_floor a) key) then stop (Rejected NeverAnnounced)
  else
  match an_eligibility a (withdraw_probe a key) with
  | Err reason => stop (Ineligible reason)
  | Ok _ =>
  withdrawal ← mint_withdrawal debug (an_signing_key a) key (last_published (an_floor a) key) now;
  match encode_provider_withdrawal withdrawal with
  | Err e => stop (Rejected (EncodeFailed e))
  | Ok value =>
    let ledger := ledger_record_all ledger
      [exposure DhtNode DisclosedContentKey; exposure DhtNode OurNodeId] in
    let putting := PutRecord (provider_value_key key (an_peer_id a)) value
      (u64_saturating_sub (pw_expiry withdrawal) now) in
    match put with
    | Err why => Some {| out_announcer := a; out_ledger := ledger; out_disk := disk;
                         out_effects := [putting]; out_result := Err (Unreachable why) |}
    | Ok _ =>
        let floor := advance (an_floor a) key (pw_sequence withdrawal) (pw_expiry withdrawal) in
        Some {| out_announcer := with_floor a floor; out_ledger := ledger;
                out_disk := persist_lossy write_ok floor disk;
                out_effects := [putting; StopProviding (provider_index_key key)];
                out_result := receipt (str "libp2p-kad-withdraw") |}
    end
  end end.

Definition announcer_declared_exposure : ExposureSurface :=
  [exposure DhtNode DisclosedContentKey; exposure DhtNode OurNodeId; exposure DhtNode OurAddress;
   exposure Bootstrap OurNodeId].

(** ** A node's life *)

(** [EvAnnounce] carries the witness's record; [EvRestart] re-opens the floor
    from its file. *)
Inductive Event :=
| EvAnnounce (record : ProviderRecord) (now : Z) (write_ok : bool) (start put : Net)
| EvWithdraw (key : ContentKey) (now : Z) (write_ok : bool) (put : result (list byte) unit)
| EvRestart (read_ok : bool).

Record Node := { nd_announcer : Announcer; nd_ledger : ExposureLedger; nd_disk : Disk }.

(** The values handed to `put_record`. *)
Definition puts (effects : list Effect) : list (list byte) :=
  omap (fun e => match e with PutRecord _ value _ => Some value | _ => None end) effects.

Definition node_of (o : Outcome) : Node :=
  {| nd_announcer := out_announcer o; nd_ledger := out_ledger o; nd_disk := out_disk o |}.

Definition node_step (debug : bool) (n : Node) (e : Event) : option (Node * list (Z * list byte)) :=
  match e with
  | EvAnnounce record now write_ok start put =>
      o ← announce write_ok start put now (nd_announcer n) (sealed record) (nd_ledger n) (nd_disk n);
      Some (node_of o, (fun v => (now, v)) <$> puts (out_effects o))
  | EvWithdraw key now write_ok put =>
      o ← withdraw debug write_ok put now (nd_announcer n) key (nd_ledger n) (nd_disk n);
      Some (node_of o, (fun v => (now, v)) <$> puts (out_effects o))
  | EvRestart read_ok =>
      let a := nd_announcer n in
      Some ({| nd_announcer := with_floor a (from_disk read_ok (nd_disk n) (seq_path (an_floor a)));
               nd_ledger := nd_ledger n; nd_disk := nd_disk n |}, [])
  end.

Fixpoint node_run (debug : bool) (n : Node) (events : list Event) : option (Node * list (Z * list byte)) :=
  match events with
  | [] => Some (n, [])
  | e :: rest =>
      '(n, now) ← node_step debug n e;
      '(n, later) ← node_run debug n rest;
      Some (n, now ++ later)
  end.

(** ** The floor and its file *)

Definition floor_ok (m : gmap ContentKey LastPublished) : Prop :=
  map_Forall (fun _ lp => u64_ok (lp_sequence lp) /\ u64_ok (lp_expiry lp)) m.

(** [m'] is at least as far as [m] on every key. *)
Definition floor_le (m m' : gmap ContentKey LastPublished) : Prop :=
  forall k lp, m !! k = Some lp -> exists lp', m' !! k = Some lp' /\ (lp_sequence lp <= lp_sequence lp')%Z.

Lemma floor_le_refl m : floor_le m m.
Proof. intros k lp Hk. eauto with lia. Qed.

Lemma advance_floor_le f key s e : floor_le (announced f) (announced (advance f key s e)).
Proof.
  intros k lp Hk. cbn. destruct (decide (k = key)) as [->|]; simplify_map_eq; [|eauto with lia].
  cbn. eexists. split; [done|]. destruct (Z.leb_spec (lp_sequence lp) s); cbn; lia.
Qed.

Lemma advance_reaches f key s e :
  exists lp, announced (advance f key s e) !! key = Some lp /\ (s <= lp_sequence lp)%Z.
Proof.
  cbn. rewrite lookup_insert_eq. eexists. split; [done|].
  destruct (announced f !! key) as [lp|]; cbn.
  - destruct (Z.leb_spec (lp_sequence lp) s); cbn; lia.
  - rewrite Z.leb_refl. done.
Qed.

Lemma advance_ok f key s e :
  u64_ok s -> u64_ok e -> floor_ok (announced f) -> floor_ok (announced (advance f key s e)).
Proof.
  intros Hs He Hf. apply map_Forall_insert_2; [|done].
  destruct (announced f !! key) as [lp|] eqn:E; cbn; [|by rewrite Z.leb_refl].
  destruct (_ <=? _)%Z; [done|]. by apply (Hf key).
Qed.

Abbreviation load_step := (fun (m : gmap ContentKey LastPublished) '(key, sequence, expiry) =>
  <[key := {| lp_sequence := sequence; lp_expiry := expiry |}]> m).

Lemma load_lookup (l : list (ContentKey * Z * Z)) m k :
  k ∉ l.*1.*1 -> foldl load_step m l !! k = m !! k.
Proof.
  revert m. induction l as [|[[key s] e] l IH]; intros m Hk; [done|]. cbn in *.
  apply not_elem_of_cons in Hk as [Hne Hk]. rewrite IH by done. by rewrite lookup_insert_ne.
Qed.

Lemma load_snapshot_from (l : list (ContentKey * LastPublished)) m k :
  NoDup l.*1 ->
  foldl load_step m ((fun '(key, last) => (key, lp_sequence last, lp_expiry last)) <$> l) !! k =
  match (list_to_map l : gmap ContentKey LastPublished) !! k with Some v => Some v | None => m !! k end.
Proof.
  revert m. induction l as [|[key lp] l IH]; intros m Hnd; [done|]. cbn in *.
  apply NoDup_cons in Hnd as [Hk Hnd]. rewrite IH by done.
  destruct (decide (k = key)) as [->|Hne].
  - rewrite lookup_insert_eq. rewrite not_elem_of_list_to_map_1 by done.
    rewrite lookup_insert_eq. by destruct lp.
  - by rewrite !lookup_insert_ne.
Qed.

(** A successful flush is read back exactly. *)
Lemma flush_readback f disk path :
  floor_ok (announced f) ->
  announced (from_disk true (<[path := serialize_seqs (snapshot f)]> disk) (Some path)) = announced f.
Proof.
  intros Hok. cbn [from_disk announced]. unfold load_seqs. rewrite lookup_insert_eq.
  rewrite deserialize_serialize_seqs.
  - apply map_eq. intros k. unfold snapshot. rewrite load_snapshot_from by apply NoDup_fst_map_to_list.
    rewrite list_to_map_to_list. rewrite lookup_empty. by destruct (announced f !! k).
  - unfold snapshot. apply Forall_fmap, Forall_forall. intros [k lp] Hin%elem_of_map_to_list.
    by apply (Hok k).
Qed.

Lemma parse_seq_line_range line e : parse_seq_line line = Some e -> seq_entry_ok e.
Proof.
  unfold parse_seq_line. destruct (split_on x20 line) as [|k [|s [|x []]]]; try done. intros Hp.
  destruct (persist_hex.hex32 k); [|done]. cbn in Hp. destruct (parse_u64 s) eqn:Es; [|done]. cbn in Hp.
  destruct (parse_u64 x) eqn:Ex; [|done]. cbn in Hp. injection Hp as <-.
  split; by eapply parse_u64_ok.
Qed.

Lemma load_ok (l : list (ContentKey * Z * Z)) m :
  Forall seq_entry_ok l -> floor_ok m -> floor_ok (foldl load_step m l).
Proof.
  intros Hl. revert m. induction Hl as [|[[k s] e] l [Hs He] _ IH]; intros m Hm; [done|].
  cbn. apply IH. by apply map_Forall_insert_2.
Qed.

Lemma from_disk_ok read_ok disk path : floor_ok (announced (from_disk read_ok disk path)).
Proof.
  destruct path as [p|]; [|done]. cbn. apply load_ok; [|done]. unfold load_seqs.
  destruct (disk !! p) as [text|]; [|constructor]. destruct read_ok; [|constructor].
  unfold deserialize_seqs. destruct (lines text) as [|h rest]; [constructor|].
  case_bool_decide; [|constructor]. unfold parse_seq_lines. apply Forall_forall.
  intros e (line & _ & Hp)%list_elem_of_omap. destruct (is_blank line); [done|].
  by eapply parse_seq_line_range.
Qed.

(** ** What the handlers do *)

(** Re-reading an encoded record gives that record. *)
Lemma encoded_decodes r value now d :
  assertion_typed (Provide r) -> encode_provider_record r = Some (Ok value) ->
  decode_provider_assertion value (pr_key r) now = Ok d -> d = Provide r.
Proof.
  intros Ht He Hd. assert (encode_provider_assertion (Provide r) = Some (Ok value)) as Hea by done.
  apply (encode_rules_iff _ _ Ht) in Hea as [Hr Hw].
  apply decode_assertion_iff in Hd as (Hed & Htd & _). apply (encode_rules_iff _ _ Htd) in Hed as [Hrd Hwd].
  apply wire_inj; congruence.
Qed.

(** An announce that has any effect was authorized, verified and saved. *)
Lemma announce_effects write_ok start put now a r ledger disk o :
  assertion_typed (Provide r) ->
  announce write_ok start put now a (sealed r) ledger disk = Some o -> out_effects o <> [] ->
  an_eligibility a r = Ok tt /\ pr_provider r = an_node_id a /\
  (now < pr_expiry r <= now + MAX_RECORD_TTL_SECS)%Z /\
  exists value, decode_provider_assertion value (pr_key r) now = Ok (Provide r) /\
    let floor := advance (an_floor a) (pr_key r) (pr_sequence r) (pr_expiry r) in
    out_announcer o = with_floor a floor /\ persist_checked write_ok floor disk = (out_disk o, true) /\
    forall e, e ∈ out_effects o -> e = StartProviding (provider_index_key (pr_key r)) \/
      e = PutRecord (provider_value_key (pr_key r) (an_peer_id a)) value (pr_expiry r - now).
Proof.
  unfold announce. cbn [witness_record]. intros Ht Ho Hne.
  destruct (an_eligibility a r) as [[]|]; [|by injection Ho as <-].
  case_bool_decide as Hp; [by injection Ho as <-|]. destruct (Z.leb_spec (pr_expiry r) now); [by injection Ho as <-|].
  destruct (Z.ltb_spec MAX_RECORD_TTL_SECS (pr_expiry r - now)); [by injection Ho as <-|].
  destruct (encode_provider_record r) as [encoded|] eqn:Ee; [|done]. cbn [mbind option_bind] in Ho.
  destruct encoded as [value|]; [|by injection Ho as <-].
  destruct (decode_provider_assertion value (pr_key r) now) as [d|] eqn:Ed; [|by injection Ho as <-].
  set (floor := advance _ _ _ _) in *. destruct (persist_checked write_ok floor disk) as [disk' saved] eqn:Es.
  destruct saved; cbn [negb] in Ho; [|by injection Ho as <-].
  pose proof (encoded_decodes r value now d Ht Ee Ed) as ->.
  split_and!; [done|by destruct (decide (pr_provider r = an_node_id a))|lia|lia|].
  exists value. split; [done|]. cbv zeta. fold floor.
  destruct start; [destruct put|..]; injection Ho as <-; cbn [out_announcer out_disk out_effects];
    (split_and!; [done..|]); intros e; rewrite ?list_elem_of_singleton, ?elem_of_cons; set_solver.
Qed.

(** An announce with no effect changes at most the in-memory floor, forward. *)
Lemma announce_quiet write_ok start put now a r ledger disk o :
  announce write_ok start put now a (sealed r) ledger disk = Some o -> out_effects o = [] ->
  out_disk o = disk /\
  (out_announcer o = a \/
   out_announcer o = with_floor a (advance (an_floor a) (pr_key r) (pr_sequence r) (pr_expiry r))).
Proof.
  unfold announce. cbn [witness_record]. intros Ho He.
  destruct (an_eligibility a r) as [[]|]; [|by injection Ho as <-; auto].
  case_bool_decide; [by injection Ho as <-; auto|].
  destruct (_ <=? _)%Z; [by injection Ho as <-; auto|]. destruct (_ <? _)%Z; [by injection Ho as <-; auto|].
  destruct (encode_provider_record r) as [encoded|]; [|done]. cbn [mbind option_bind] in Ho.
  destruct encoded as [value|]; [|by injection Ho as <-; auto].
  destruct (decode_provider_assertion _ _ _); [|by injection Ho as <-; auto].
  set (floor := advance _ _ _ _) in *. destruct (persist_checked write_ok floor disk) as [disk' saved] eqn:Es.
  destruct saved; cbn [negb] in Ho; [by destruct start; [destruct put|..]; injection Ho as <-|].
  injection Ho as <-. cbn. split; [|auto]. revert Es. unfold persist_checked.
  destruct (seq_path floor); [|by intros [= _ ?]]. unfold save_seqs_checked, write_atomic.
  by destruct write_ok; intros [= <-].
Qed.

Lemma u64_add_checked a b c : u64_add true a b = Some c -> c = (a + b)%Z /\ (a + b <= u64_max)%Z.
Proof. unfold u64_add. destruct (Z.leb_spec (a + b) u64_max); [|done]. by intros [= <-]. Qed.

(** What a withdrawal hands to the swarm, when no addition overflows. *)
Lemma withdraw_effects `{!Ed25519Laws} write_ok put now a key ledger disk o :
  an_node_id a = NodeId_from_bytes (verifying_key (an_signing_key a)) -> floor_ok (announced (an_floor a)) ->
  u64_ok now -> withdraw true write_ok put now a key ledger disk = Some o -> out_effects o <> [] ->
  exists last w value, announced (an_floor a) !! key = Some last /\
    an_eligibility a (withdraw_probe a key) = Ok tt /\
    (forall t, (t < pw_expiry w)%Z -> decode_provider_assertion value key t = Ok (Withdraw w)) /\
    pw_key w = key /\ pw_provider w = an_node_id a /\ u64_ok (pw_sequence w) /\ u64_ok (pw_expiry w) /\
    pw_sequence w = (lp_sequence last + 1)%Z /\
    pw_expiry w = Z.max (lp_expiry last) (now + MIN_TOMBSTONE_TTL_SECS) /\
    puts (out_effects o) = [value] /\
    (put = Ok tt ->
     out_announcer o = with_floor a (advance (an_floor a) key (pw_sequence w) (pw_expiry w)) /\
     out_disk o = persist_lossy write_ok (advance (an_floor a) key (pw_sequence w) (pw_expiry w)) disk).
Proof.
  intros Hnode Hok Hnow. unfold withdraw, floor_contains, last_published. intros Ho Hne.
  destruct (announced (an_floor a) !! key) as [last|] eqn:El; [|by injection Ho as <-].
  rewrite bool_decide_true in Ho by eauto. cbn [negb] in Ho.
  destruct (an_eligibility a (withdraw_probe a key)) as [[]|] eqn:Eel; [|by injection Ho as <-].
  unfold mint_withdrawal in Ho.
  destruct (u64_add true (lp_sequence last) 1) as [seqn|] eqn:Es; [|done]. cbn [mbind option_bind] in Ho.
  destruct (u64_add true now MIN_TOMBSTONE_TTL_SECS) as [hz|] eqn:Eh; [|done]. cbn [mbind option_bind] in Ho.
  apply u64_add_checked in Es as [-> Hs]. apply u64_add_checked in Eh as [-> Hh].
  destruct (Hok key last El) as [Hls Hle].
  match type of Ho with context [sign_provider_withdrawal true _ ?w0] => set (w := w0) in * end.
  assert (u64_ok (pw_sequence w) /\ u64_ok (pw_expiry w)) as [Hws Hwe]
    by (unfold w, u64_ok, MIN_TOMBSTONE_TTL_SECS, MAX_RECORD_TTL_SECS in *; cbn; lia).
  assert (forall t, (t < pw_expiry w)%Z -> exists sgn bytes, sign_provider_withdrawal true (an_signing_key a) w = Some sgn /\
    pw_key sgn = pw_key w /\ pw_provider sgn = NodeId_from_bytes (verifying_key (an_signing_key a)) /\
    pw_sequence sgn = pw_sequence w /\ pw_expiry sgn = pw_expiry w /\ encode_provider_withdrawal sgn = Ok bytes /\
    decode_provider_assertion bytes (pw_key w) t = Ok (Withdraw sgn)) as Hrt.
  { intros t Ht. apply withdraw_roundtrip; [done| |done]. right; by left. }
  destruct (Hrt (pw_expiry w - 1)%Z) as (sgn & bytes & Hsign & Hk & Hpr & Hsq & Hex & Henc & _); [lia|].
  rewrite Hsign in Ho. cbn [mbind option_bind] in Ho. rewrite Henc in Ho.
  exists last, sgn, bytes. rewrite Hsq, Hex, Hpr. split; [done|]. split; [done|].
  split; [|do 6 (split; [done|]); split]; [|by destruct put as [[]|]; injection Ho as <-|].
  - intros t Ht. destruct (Hrt t Ht) as (sgn' & bytes' & Hsign' & _ & _ & _ & _ & Henc' & Hd).
    rewrite Hsign in Hsign'. injection Hsign' as <-. rewrite Henc in Henc'. by injection Henc' as <-.
  - intros ->. injection Ho as <-. cbn. by rewrite Hsq, Hex.
Qed.

(** ** Runs *)

(** Everything published so far is authentic, and the floor [m] has reached it. *)
Definition covers (m : gmap ContentKey LastPublished) (trace : list (Z * list byte)) : Prop :=
  Forall (fun x => exists asn lp, decode_authentic x.2 = Ok asn /\ m !! pa_key asn = Some lp /\
    (pa_sequence asn <= lp_sequence lp)%Z /\
    match asn with Provide r => (pr_expiry r <= x.1 + MAX_RECORD_TTL_SECS)%Z | Withdraw _ => True end) trace.

Lemma covers_le m m' trace : floor_le m m' -> covers m trace -> covers m' trace.
Proof.
  intros Hle Hc. eapply Forall_impl; [exact Hc|]. intros x (asn & lp & Hd & Hm & Hs & He).
  destruct (Hle _ _ Hm) as (lp' & Hm' & ?). exists asn, lp'. split_and!; [done..|lia|done].
Qed.

(** The floor a restart would read. *)
Abbreviation on_disk n path := (announced (from_disk true (nd_disk n) (Some path))).

Record node_inv (path : Path) (n : Node) (trace : list (Z * list byte)) : Prop := {
  ni_identity : an_node_id (nd_announcer n) = NodeId_from_bytes (verifying_key (an_signing_key (nd_announcer n)));
  ni_path : seq_path (an_floor (nd_announcer n)) = Some path;
  ni_ok : floor_ok (announced (an_floor (nd_announcer n)));
  ni_memory : covers (announced (an_floor (nd_announcer n))) trace;
  ni_disk : covers (on_disk n path) trace;
}.

(** An event whose inputs are well typed, whose withdrawal reached the network
    and its file, and whose restart could read the file. *)
Definition event_ok (now : Z) (e : Event) : Prop :=
  match e with
  | EvAnnounce r t _ _ _ => assertion_typed (Provide r) /\ u64_ok t /\ (t <= now)%Z
  | EvWithdraw _ t write_ok put => write_ok = true /\ put = Ok tt /\ u64_ok t /\ (t <= now)%Z
  | EvRestart read_ok => read_ok = true
  end.

Lemma decode_is_authentic value k t asn :
  decode_provider_assertion value k t = Ok asn -> decode_authentic value = Ok asn /\ pa_key asn = k.
Proof.
  rewrite decode_split. destruct (decode_authentic value) as [b|]; [|done]. cbn.
  case_bool_decide as Hk; [done|]. destruct (_ <=? _)%Z; [done|]. intros [= <-].
  split; [done|]. by destruct (decide (pa_key b = k)).
Qed.

Lemma puts_elem effects v : v ∈ puts effects -> exists vk ttl, PutRecord vk v ttl ∈ effects.
Proof.
  unfold puts. intros ([|vk v' ttl|] & Hin & [= <-])%list_elem_of_omap. eauto.
Qed.

Lemma puts_none effects : effects = [] -> puts effects = [].
Proof. by intros ->. Qed.

Lemma node_inv_announce path n trace r now write_ok start put o :
  assertion_typed (Provide r) -> node_inv path n trace ->
  announce write_ok start put now (nd_announcer n) (sealed r) (nd_ledger n) (nd_disk n) = Some o ->
  node_inv path (node_of o) (trace ++ ((fun v => (now, v)) <$> puts (out_effects o))).
Proof.
  intros Ht [Hid Hpath Hok Hmem Hdisk] Ho. set (a := nd_announcer n) in *.
  pose proof (proj1 Ht) as Hsq. pose proof (proj1 (proj2 (proj2 Ht))) as Hex.
  set (f := advance (an_floor a) (pr_key r) (pr_sequence r) (pr_expiry r)).
  assert (floor_ok (announced f)) as Hfok by by apply advance_ok.
  assert (floor_le (announced (an_floor a)) (announced f)) as Hle by apply advance_floor_le.
  destruct (decide (out_effects o = [])) as [He|He].
  - destruct (announce_quiet _ _ _ _ _ _ _ _ _ Ho He) as [Hd Ha]. rewrite (puts_none _ He), app_nil_r.
    destruct Ha as [Ha|Ha]; split; cbn; rewrite ?Ha, ?Hd; try done. by eapply covers_le.
  - destruct (announce_effects _ _ _ _ _ _ _ _ _ Ht Ho He) as (_ & _ & Httl & value & Hdec & Ha & Hp & Heff).
    fold f in Ha, Hp. unfold persist_checked in Hp. cbn [seq_path f advance] in Hp. rewrite Hpath in Hp.
    unfold save_seqs_checked, write_atomic in Hp. destruct write_ok; [|done]. injection Hp as Hp.
    assert (covers (announced f) (trace ++ ((fun v => (now, v)) <$> puts (out_effects o)))) as Hcov.
    { apply Forall_app. split; [by eapply covers_le|]. apply Forall_fmap, Forall_forall.
      intros v (vk & ttl & Hin)%puts_elem. apply Heff in Hin as [Hin|Hin]; [done|].
      injection Hin as _ -> _. destruct (decode_is_authentic _ _ _ _ Hdec) as [Hau _].
      destruct (advance_reaches (an_floor a) (pr_key r) (pr_sequence r) (pr_expiry r)) as (lp & Hlp & Hs).
      exists (Provide r), lp. cbn [snd fst]. split_and!; [done..|]. cbn. lia. }
    split; cbn [node_of nd_announcer nd_disk]; rewrite ?Ha; try done. rewrite <-Hp. by rewrite (flush_readback f).
Qed.

Lemma node_inv_withdraw `{!Ed25519Laws} path n trace key now o :
  u64_ok now -> node_inv path n trace ->
  withdraw true true (Ok tt) now (nd_announcer n) key (nd_ledger n) (nd_disk n) = Some o ->
  node_inv path (node_of o) (trace ++ ((fun v => (now, v)) <$> puts (out_effects o))).
Proof.
  intros Hnow [Hid Hpath Hok Hmem Hdisk] Ho. set (a := nd_announcer n) in *.
  destruct (decide (out_effects o = [])) as [He|He].
  - assert (out_announcer o = a /\ out_disk o = nd_disk n) as [Ha Hd].
    { revert Ho. unfold withdraw. destruct (negb _); [by intros [= <-]|].
      destruct (an_eligibility _ _); [|by intros [= <-]].
      destruct (mint_withdrawal _ _ _ _ _) as [w|]; [|done]. cbn [mbind option_bind].
      destruct (encode_provider_withdrawal w); [|by intros [= <-]]. intros [= <-]. done. }
    rewrite (puts_none _ He), app_nil_r. split; cbn; rewrite ?Ha, ?Hd; done.
  - destruct (withdraw_effects _ _ _ _ _ _ _ _ Hid Hok Hnow Ho He)
      as (last & w & value & Hl & _ & Hdec & Hk & _ & Hws & Hwe & Hs & _ & Hputs & Hst).
    destruct (Hst eq_refl) as [Ha Hd]. set (f := advance _ _ _ _) in *.
    assert (floor_ok (announced f)) as Hfok by by apply advance_ok.
    unfold persist_lossy in Hd. cbn [seq_path f advance] in Hd. rewrite Hpath in Hd.
    unfold save_seqs, write_atomic in Hd. cbn [fst] in Hd.
    assert (covers (announced f) (trace ++ ((fun v => (now, v)) <$> puts (out_effects o)))) as Hcov.
    { apply Forall_app. split; [eapply covers_le; [apply advance_floor_le|done]|]. rewrite Hputs.
      apply Forall_singleton. cbn [fst snd].
      destruct (decode_is_authentic _ _ _ _ (Hdec (pw_expiry w - 1)%Z ltac:(lia))) as [Hau _].
      destruct (advance_reaches (an_floor a) key (pw_sequence w) (pw_expiry w)) as (lp & Hlp & Hlps).
      exists (Withdraw w), lp. split_and!; [done| |done|done]. cbn. by rewrite Hk. }
    split; cbn [node_of nd_announcer nd_disk]; rewrite ?Ha; try done. rewrite Hd. by rewrite (flush_readback f).
Qed.

Lemma node_inv_run `{!Ed25519Laws} path now events n trace n' later :
  node_inv path n trace -> Forall (event_ok now) events ->
  node_run true n events = Some (n', later) -> node_inv path n' (trace ++ later).
Proof.
  intros Hi Hok. revert n trace later Hi. induction Hok as [|e events He _ IH]; intros n trace later Hi.
  { intros [= <- <-]. by rewrite app_nil_r. }
  cbn [node_run]. destruct (node_step true n e) as [[n1 now1]|] eqn:Es; [|done]. cbn [mbind option_bind].
  destruct (node_run true n1 events) as [[n2 later2]|] eqn:Er; [|done]. cbn. intros [= <- <-].
  rewrite app_assoc. apply (IH n1); [|done]. destruct e as [r t wok start put|key t wok put|rok]; cbn in Es.
  - destruct (announce _ _ _ _ _ _ _ _) as [o|] eqn:Eo; [|done]. injection Es as <- <-.
    destruct He as [Ht _]. by eapply node_inv_announce.
  - destruct He as (-> & -> & Hu & _). destruct (withdraw _ _ _ _ _ _ _ _) as [o|] eqn:Eo; [|done].
    injection Es as <- <-. by eapply node_inv_withdraw.
  - injection Es as <- <-. cbn in He. subst rok. rewrite app_nil_r.
    destruct Hi as [Hid Hpath Hfok Hmem Hdisk]. rewrite Hpath. split; try done. apply from_disk_ok.
Qed.

(** Overflow checks only turn a run into a panic. *)
Lemma u64_add_release a b c : u64_add true a b = Some c -> u64_add false a b = Some c.
Proof. unfold u64_add. by destruct (_ <=? _)%Z. Qed.

Lemma withdraw_release write_ok put now a key ledger disk o :
  withdraw true write_ok put now a key ledger disk = Some o ->
  withdraw false write_ok put now a key ledger disk = Some o.
Proof.
  unfold withdraw. destruct (negb _); [done|]. destruct (an_eligibility _ _); [|done].
  destruct (mint_withdrawal true _ _ _ _) as [w|] eqn:Em; [|done].
  assert (mint_withdrawal false (an_signing_key a) key (last_published (an_floor a) key) now = Some w) as ->; [|done].
  revert Em. unfold mint_withdrawal.
  destruct (match last_published _ _ with Some l => u64_add true _ _ | None => _ end) as [sq|] eqn:Es; [|done].
  assert (match last_published (an_floor a) key with Some l => u64_add false (lp_sequence l) 1
    | None => Some 1%Z end = Some sq) as -> by (destruct (last_published _ _); eauto using u64_add_release).
  destruct (u64_add true now _) as [hz|] eqn:Eh; [|done]. rewrite (u64_add_release _ _ _ Eh). cbn [mbind option_bind].
  unfold sign_provider_withdrawal. cbn [andb]. by destruct (negb _).
Qed.

Lemma node_run_release n events x : node_run true n events = Some x -> node_run false n events = Some x.
Proof.
  revert n x. induction events as [|e events IH]; intros n x; [done|]. cbn [node_run].
  assert (forall y, node_step true n e = Some y -> node_step false n e = Some y) as Hstep.
  { intros y. destruct e as [| |]; [done| |done]. cbn.
    destruct (withdraw true _ _ _ _ _ _ _) as [o|] eqn:Eo; [|done]. by rewrite (withdraw_release _ _ _ _ _ _ _ _ Eo). }
  destruct (node_step true n e) as [[n1 now1]|]; [|done]. rewrite (Hstep _ eq_refl). cbn [mbind option_bind].
  destruct (node_run true n1 events) as [[n2 l2]|] eqn:Er; [|done]. by rewrite (IH _ _ Er).
Qed.

Lemma node_run_times now events n n' trace :
  Forall (event_ok now) events -> node_run true n events = Some (n', trace) ->
  Forall (fun x => (x.1 <= now)%Z) trace.
Proof.
  intros Hok. revert n trace. induction Hok as [|e events He _ IH]; intros n trace.
  { by intros [= _ <-]. }
  cbn [node_run]. destruct (node_step true n e) as [[n1 now1]|] eqn:Es; [|done]. cbn [mbind option_bind].
  destruct (node_run true n1 events) as [[n2 later]|] eqn:Er; [|done]. cbn. intros [= <- <-].
  apply Forall_app. split; [|by eapply IH]. destruct e as [r t wok start put|key t wok put|rok]; cbn in Es.
  - destruct (announce _ _ _ _ _ _ _ _) as [o|]; [|done]. injection Es as <- <-.
    apply Forall_fmap, Forall_true. intros v. apply He.
  - destruct (withdraw _ _ _ _ _ _ _ _) as [o|]; [|done]. injection Es as <- <-.
    apply Forall_fmap, Forall_true. intros v. apply He.
  - by injection Es as <- <-.
Qed.

(** ** Properties *)

(** If an announce hands anything to the network, this node's own authority
    admitted the record, the record is this node's, live and within the TTL
    cap, the value published decodes and verifies back to it under the key
    derived from this node, and its sequence was already in the floor file. *)
Theorem announce_gated write_ok start put now a r ledger disk o :
  assertion_typed (Provide r) -> floor_ok (announced (an_floor a)) ->
  announce write_ok start put now a (sealed r) ledger disk = Some o -> out_effects o <> [] ->
  an_eligibility a r = Ok tt /\ pr_provider r = an_node_id a /\
  (now < pr_expiry r <= now + MAX_RECORD_TTL_SECS)%Z /\
  (forall vk value ttl, PutRecord vk value ttl ∈ out_effects o ->
     decode_provider_assertion value (pr_key r) now = Ok (Provide r) /\
     vk = provider_value_key (pr_key r) (an_peer_id a) /\ ttl = (pr_expiry r - now)%Z) /\
  (forall path, seq_path (an_floor a) = Some path ->
     exists lp, announced (from_disk true (out_disk o) (Some path)) !! pr_key r = Some lp /\
       (pr_sequence r <= lp_sequence lp)%Z).
Proof.
  intros Ht Hf Ho Hne. destruct (announce_effects _ _ _ _ _ _ _ _ _ Ht Ho Hne)
    as (Hel & Hpr & Httl & value & Hdec & Ha & Hp & Heff).
  split; [done|]. split; [done|]. split; [done|]. split.
  - intros vk v ttl Hin. destruct (Heff _ Hin) as [|Heq]; [done|]. by injection Heq as -> -> ->.
  - intros path Hpath. unfold persist_checked in Hp. cbn [seq_path advance] in Hp. rewrite Hpath in Hp.
    unfold save_seqs_checked, write_atomic in Hp. destruct write_ok; [|done]. injection Hp as <-.
    rewrite flush_readback by (destruct Ht as (? & _ & ? & _); by apply advance_ok). apply advance_reaches.
Qed.

(** Sequences are never reused and a withdrawal wins: after any run of
    announces, flushed withdrawals and restarts of a durable node in which no
    u64 addition overflows, the next sequence allocated for a key is above
    every assertion published for it, and the tombstone a withdrawal publishes
    is newer than each of them, outlives each published record, and takes the
    slot of any consumer that holds that record. *)
Theorem published_superseded `{!Ed25519Laws} path n0 events n trace now key :
  an_node_id (nd_announcer n0) = NodeId_from_bytes (verifying_key (an_signing_key (nd_announcer n0))) ->
  an_floor (nd_announcer n0) = from_disk true (nd_disk n0) (Some path) ->
  Forall (event_ok now) events -> u64_ok now -> node_run true n0 events = Some (n, trace) ->
  forall t v t' asn, (t, v) ∈ trace -> decode_provider_assertion v key t' = Ok asn ->
  (forall s, next_sequence true (an_floor (nd_announcer n)) key = Some s -> (pa_sequence asn < s)%Z) /\
  (forall write_ok put o value,
     withdraw true write_ok put now (nd_announcer n) key (nd_ledger n) (nd_disk n) = Some o ->
     value ∈ puts (out_effects o) ->
     exists w, decode_provider_assertion value key now = Ok (Withdraw w) /\ (pa_sequence asn < pw_sequence w)%Z /\
       forall r, asn = Provide r -> (pr_expiry r <= pw_expiry w)%Z /\
         forall at_time, (at_time < pw_expiry w)%Z ->
           apply_slot (Some (Active r)) (Withdraw w) at_time =
             (Some (Withdrawn (pw_sequence w) (pw_expiry w)), OutWithdrawn)).
Proof.
  intros Hid Hfl Hev Hnow Hrun t v t' asn Hin Hdec.
  pose proof (proj1 (Forall_forall _ _) (node_run_times _ _ _ _ _ Hev Hrun) _ Hin) as Htn. cbn [fst] in Htn.
  assert (node_inv path n ([] ++ trace)) as [Hid' _ Hok Hmem _].
  { eapply node_inv_run; [|done|done]. split; rewrite ?Hfl; try done; [apply from_disk_ok|constructor|constructor]. }
  destruct (proj1 (Forall_forall _ _) Hmem _ Hin) as (asn' & lp & Hau & Hlp & Hs & Hexp). cbn [fst snd] in *.
  destruct (decode_is_authentic _ _ _ _ Hdec) as [Hau' Hk]. rewrite Hau in Hau'. injection Hau' as ->.
  rewrite Hk in Hlp. split.
  - intros s. unfold next_sequence. rewrite Hlp. intros [-> _]%u64_add_checked. lia.
  - intros write_ok put o value Ho Hv.
    assert (out_effects o <> []) as Hne by (intros He; rewrite He in Hv; by apply not_elem_of_nil in Hv).
    destruct (withdraw_effects _ _ _ _ _ _ _ _ Hid' Hok Hnow Ho Hne)
      as (last & w & value' & Hl & _ & Hd & _ & _ & _ & _ & Hws & Hwe & Hputs & _).
    rewrite Hputs in Hv. apply list_elem_of_singleton in Hv as ->. rewrite Hlp in Hl. injection Hl as <-.
    unfold MIN_TOMBSTONE_TTL_SECS, MAX_RECORD_TTL_SECS in *.
    exists w. split; [apply Hd; lia|]. split; [lia|]. intros r ->. split; [lia|]. intros at_time Hat.
    unfold apply_slot. cbn [pa_expiry pa_sequence Slot_sequence]. rewrite (proj2 (Z.leb_gt _ _)) by lia.
    cbn in Hs. by rewrite (proj2 (Z.compare_gt_iff _ _)) by lia.
Qed.
End announcer.

(** ** Witnesses *)

Section witnesses.
#[local] Existing Instance toy_ed25519.

Definition toy_derive (context input : list byte) : list byte := context ++ input.
Definition sample_path : Path := str "seqs".
Definition sample_node : Node := {|
  nd_announcer := {| an_eligibility := AdmitAllPublication; an_node_id := toy_node x11; an_peer_id := [x11];
    an_signing_key := fill 32 x11; an_floor := from_disk true ∅ (Some sample_path) |};
  nd_ledger := []; nd_disk := ∅ |}.

Definition sample_announced : option (Node * list (Z * list byte)) :=
  node_run toy_derive true sample_node [EvAnnounce sample_active 150 true NetOk NetOk; EvRestart true].

Definition sample_after : Node := match sample_announced with Some (n, _) => n | None => sample_node end.
Definition sample_trace : list (Z * list byte) := match sample_announced with Some (_, t) => t | None => [] end.

Lemma sample_active_typed : assertion_typed (Provide sample_active).
Proof.
  assert (bool_decide (u64_ok (pr_sequence sample_active)) && bool_decide (u64_ok (pr_issued_at sample_active)) &&
    bool_decide (u64_ok (pr_expiry sample_active)) = true) as Hb by (vm_compute; reflexivity).
  apply andb_true_iff in Hb as [[H1 H2]%andb_true_iff H3].
  apply bool_decide_eq_true in H1, H2, H3. do 3 (split; [done|]). vm_compute. repeat constructor.
Qed.

Definition sample_outcome : option Outcome :=
  announce toy_derive true NetOk NetOk 150 (nd_announcer sample_node) (sealed sample_active) [] ∅.

Lemma announce_gated_witness :
  exists o, sample_outcome = Some o /\ pr_provider sample_active = toy_node x11.
Proof.
  assert (match sample_outcome with Some o => 0 <? length (out_effects o) | None => false end = true) as Hb
    by (vm_compute; reflexivity).
  destruct sample_outcome as [o|] eqn:E; [|done]. exists o. split; [done|].
  eapply (announce_gated toy_derive true NetOk NetOk 150 (nd_announcer sample_node) sample_active [] ∅ o).
  - exact sample_active_typed.
  - apply from_disk_ok.
  - exact E.
  - intros He. by rewrite He in Hb.
Defined.

Lemma sample_run :
  node_run toy_derive true sample_node [EvAnnounce sample_active 150 true NetOk NetOk; EvRestart true] =
    Some (sample_after, sample_trace).
Proof.
  assert (match sample_announced with Some _ => true | None => false end = true) as Hb by (vm_compute; reflexivity).
  unfold sample_after, sample_trace. change (node_run _ _ _ _) with sample_announced.
  by destruct sample_announced as [[]|].
Qed.

Lemma published_superseded_witness : (3 < 4)%Z.
Proof.
  refine (proj1 (@published_superseded toy_ed25519 toy_derive toy_laws sample_path sample_node
    [EvAnnounce sample_active 150 true NetOk NetOk; EvRestart true] sample_after sample_trace 160 (toy_key xaa)
    eq_refl eq_refl _ _ sample_run 150 sample_active_bytes 150 (Provide sample_active) _ _) 4%Z _).
  - apply Forall_cons; split; [|by repeat constructor]. split; [apply sample_active_typed|]. by vm_compute.
  - by vm_compute.
  - assert (bool_decide (sample_trace = [(150%Z, sample_active_bytes)]) = true) as Hb by (vm_compute; reflexivity).
    apply bool_decide_eq_true in Hb. rewrite Hb. apply list_elem_of_here.
  - vm_compute. reflexivity.
  - vm_compute. reflexivity.
Defined.

(** A withdrawal whose flush failed, followed by a restart: the next sequence
    allocated is the tombstone's own, so a consumer that saw the tombstone
    rejects the record minted at it. *)
Definition lossy_run : option (Node * list (Z * list byte)) :=
  node_run toy_derive false sample_node
    [EvAnnounce sample_active 150 true NetOk NetOk; EvWithdraw (toy_key xaa) 160 false (Ok tt); EvRestart true].

Lemma lossy_withdrawal_reuses_sequence :
  match lossy_run with
  | Some (n, [_; (_, value)]) =>
      match decode_provider_assertion value (toy_key xaa) 160 with
      | Ok (Withdraw w) => next_sequence false (an_floor (nd_announcer n)) (toy_key xaa) = Some (pw_sequence w)
      | _ => False
      end
  | _ => False
  end.
Proof. vm_compute. reflexivity. Qed.
End witnesses.
