(* ===== verification/Directory.v ===== *)
(** * The consumer side of the libp2p directory

    Models fabric-libp2p/src/directory.rs (the admission decision, the
    Miss/Unavailable classification and the whole [resolve] step) and
    fabric-libp2p/src/floor_store.rs (the bounded, optionally durable
    anti-rollback floor), with the near-key absence bar of
    fabric-libp2p/src/swarm.rs.

    libp2p is a parameter: peer identities are an abstract type and
    [peer_id_of_provider] (the derivation of a PeerId from a verifying key) an
    uninterpreted function; nothing is assumed of it.  The network's answers
    (routing count, index walk, value fetches) and the disk's accept/reject
    decisions are arguments. *)

From Stdlib Require Import Strings.Byte ZArith Lia.
From stdpp Require Import base sets gmap numbers strings list.
From S2P Require Import Prelude Text Ids RecordCodec RecordStore Persist Outcome ToyCrypto.

Class Libp2p := {
  PeerId : Type;
  PeerId_eq_dec :: EqDecision PeerId;
  peer_id_of_provider : NodeId -> option PeerId;
}.

Section directory.
Context `{Ed25519, Libp2p}.

(** ** directory.rs: one fetched assertion *)

(** [Admitted] of the source. *)
Record AdmitOutcome := { adm_record : option ProviderRecord; adm_floor_advanced : bool }.

(** [admit] of the source. *)
Definition admit_assertion (store : ProviderRecordSet) (peer : PeerId) (assertion : ProviderAssertion)
    (now : Z) : ProviderRecordSet * AdmitOutcome :=
  if bool_decide (peer_id_of_provider (pa_provider assertion) <> Some peer) then
    (store, {| adm_record := None; adm_floor_advanced := false |})
  else
    let '(store, outcome) := apply store assertion now in
    (store,
     match outcome with
     | Applied | Idempotent =>
         {| adm_record := match assertion with Provide record => Some record | Withdraw _ => None end;
            adm_floor_advanced := match outcome with Applied => true | _ => false end |}
     | OutWithdrawn => {| adm_record := None; adm_floor_advanced := true |}
     | RejectedStale _ _ => {| adm_record := None; adm_floor_advanced := false |}
     | RejectedExpired _ _ => {| adm_record := None; adm_floor_advanced := false |}
     end).

(** ** floor_store.rs *)

Definition DEFAULT_STORE_CAP : nat := 4096.

Record FloorStore := {
  fs_inner : ProviderRecordSet;
  fs_order : list (ContentKey * NodeId);
  fs_cap : nat;
  fs_path : option Path;
}.

Definition FloorStore_with_cap (cap : nat) : FloorStore :=
  {| fs_inner := ProviderRecordSet_new; fs_order := []; fs_cap := Nat.max cap 1;
     fs_path := None |}.

Definition FloorStore_new : FloorStore := FloorStore_with_cap DEFAULT_STORE_CAP.

(** One iteration of the load loop of [durable]. *)
Definition load_entry (s : FloorStore) (entry : ContentKey * NodeId * SlotFloor) : FloorStore :=
  let '(key, provider, floor) := entry in
  {| fs_inner := restore_floor (fs_inner s) key provider floor;
     fs_order := fs_order s ++ [(key, provider)];
     fs_cap := fs_cap s; fs_path := fs_path s |}.

(** [durable]; [ok] is whether the file could be read. *)
Definition FloorStore_durable (ok : bool) (disk : Disk) (path : Path) (cap : nat) : FloorStore :=
  foldl load_entry
    {| fs_inner := ProviderRecordSet_new; fs_order := []; fs_cap := Nat.max cap 1;
       fs_path := Some path |}
    (load_floors ok path disk).

Definition touch (s : FloorStore) (key : ContentKey) (provider : NodeId) : FloorStore :=
  {| fs_inner := fs_inner s;
     fs_order := filter (fun slot => slot <> (key, provider)) (fs_order s) ++ [(key, provider)];
     fs_cap := fs_cap s; fs_path := fs_path s |}.

(** The `while slot_count > cap` loop of [enforce_cap]; every round pops the
    front of the order, so it is structural in the order. *)
Fixpoint pop_lru (cap : nat) (inner : ProviderRecordSet) (order : list (ContentKey * NodeId))
    (removed : bool) : ProviderRecordSet * list (ContentKey * NodeId) * bool :=
  if bool_decide (slot_count inner <= cap) then (inner, order, removed)
  else
    match order with
    | (k, p) :: rest => pop_lru cap (remove_slot inner k p).1 rest true
    | [] => (inner, [], removed)
    end.

Definition enforce_cap (s : FloorStore) (now : Z) : FloorStore * bool :=
  if bool_decide (slot_count (fs_inner s) <= fs_cap s) then (s, false)
  else
    let '(inner, n) := evict_expired (fs_inner s) now in
    let removed := bool_decide (0 < n) in
    let order :=
      if removed then filter (fun '(k, p) => contains_slot inner k p = true) (fs_order s)
      else fs_order s in
    let '(inner, order, removed) := pop_lru (fs_cap s) inner order removed in
    ({| fs_inner := inner; fs_order := order; fs_cap := fs_cap s; fs_path := fs_path s |}, removed).

(** [persist]; [ok] is whether the file system accepts the write. *)
Definition FloorStore_persist (ok : bool) (s : FloorStore) (disk : Disk) : Disk :=
  match fs_path s with
  | Some path => save_floors ok path (export_floors (fs_inner s)) disk
  | None => disk
  end.

(** FloorStore::admit *)
Definition FloorStore_admit (ok : bool) (s : FloorStore) (disk : Disk) (peer : PeerId)
    (assertion : ProviderAssertion) (now : Z) : FloorStore * Disk * option ProviderRecord :=
  let key := pa_key assertion in
  let provider := pa_provider assertion in
  let '(inner, adm) := admit_assertion (fs_inner s) peer assertion now in
  let s := {| fs_inner := inner; fs_order := fs_order s; fs_cap := fs_cap s; fs_path := fs_path s |} in
  let s := if contains_slot (fs_inner s) key provider then touch s key provider else s in
  let '(s, evicted) := enforce_cap s now in
  let disk :=
    if bool_decide (is_Some (fs_path s)) && (adm_floor_advanced adm || evicted)
    then FloorStore_persist ok s disk else disk in
  (s, disk, adm_record adm).

(** ** swarm.rs and directory.rs: classification *)

Inductive QueryFail := QueryTimeout | QueryBackend (why : list byte).

Record QueryReach := { answered : Z }.
Definition reached_neighborhood (r : QueryReach) : bool := (0 <? answered r)%Z.

Definition absence_from_reach {T} (reach : QueryReach) : Lookup T :=
  if reached_neighborhood reach then Miss else LookupUnavailable InsufficientRouting.

Record ProviderFanOut := { fo_providers : list PeerId; fo_truncated : bool; fo_reach : QueryReach }.

Definition truncated_unavailable : Unavailable :=
  Backend (str "provider index named more providers than the max_peers fan-out budget; the consulted subset held no live record but a discarded provider may be valid - retry with a larger budget (not an authoritative absence)").

Definition classify_empty_index {T} (reach : QueryReach) (truncated : bool) : Lookup T :=
  if truncated then LookupUnavailable truncated_unavailable else absence_from_reach reach.

Definition classify (records : list ProviderRecord) (consult_failed truncated : bool)
    : Lookup (list ProviderRecord) :=
  match records with
  | _ :: _ => Found records
  | [] =>
      if consult_failed then
        LookupUnavailable (Backend (str "provider index named providers but their value records could not be consulted"))
      else if truncated then LookupUnavailable truncated_unavailable
      else Miss
  end.

(** ** directory.rs: resolve *)

(** What one value fetch answered. *)
Abbreviation FetchOutcome := (result QueryFail (option (list byte))).

(** State of the apply loop of [resolve]. *)
Record ResolveState := {
  rs_store : FloorStore;
  rs_disk : Disk;
  rs_records : list ProviderRecord;
  rs_consult_failed : bool;
}.

(** One iteration of the loop over the fetch results; [ok] is whether the
    file system accepts a write of the floor in this iteration. *)
Definition resolve_one (key : ContentKey) (now : Z) (st : ResolveState)
    (item : PeerId * FetchOutcome * bool) : ResolveState :=
  let '(peer, outcome, ok) := item in
  match outcome with
  | Ok (Some bytes) =>
      match decode_provider_assertion bytes key now with
      | Ok assertion =>
          let '(store, disk, r) := FloorStore_admit ok (rs_store st) (rs_disk st) peer assertion now in
          {| rs_store := store; rs_disk := disk;
             rs_records := match r with Some record => rs_records st ++ [record]
                                      | None => rs_records st end;
             rs_consult_failed := rs_consult_failed st |}
      | Err _ => st
      end
  | Ok None => st
  | Err _ => {| rs_store := rs_store st; rs_disk := rs_disk st; rs_records := rs_records st;
                rs_consult_failed := true |}
  end.

Definition resolve_loop (key : ContentKey) (now : Z) (st : ResolveState)
    (items : list (PeerId * FetchOutcome * bool)) : ResolveState :=
  foldl (resolve_one key now) st items.

(** Libp2pProviderDirectory::resolve.  [routing_peers] and [walk] are the
    answers of the swarm worker, [fetch] the outcome of the value fetch for a
    peer, [write_ok] the file system's decision at that peer's turn. *)
Definition directory_resolve (routing_peers : nat) (walk : result QueryFail ProviderFanOut)
    (fetch : PeerId -> FetchOutcome) (write_ok : PeerId -> bool) (now : Z) (key : ContentKey)
    (ledger : ExposureLedger) (store : FloorStore) (disk : Disk)
    : ExposureLedger * FloorStore * Disk * Lookup (list ProviderRecord) :=
  if bool_decide (routing_peers = 0) then
    (ledger, store, disk, LookupUnavailable InsufficientRouting)
  else
    let ledger := ledger_record_all ledger
      [exposure DhtNode DisclosedContentKey; exposure DhtNode OurNodeId] in
    match walk with
    | Err QueryTimeout => (ledger, store, disk, LookupUnavailable DeadlineExceeded)
    | Err (QueryBackend why) => (ledger, store, disk, LookupUnavailable (Backend why))
    | Ok fan =>
        match fo_providers fan with
        | [] => (ledger, store, disk, classify_empty_index (fo_reach fan) (fo_truncated fan))
        | _ :: _ =>
            let results := (fun peer => (peer, fetch peer, write_ok peer)) <$> fo_providers fan in
            let st := resolve_loop key now
              {| rs_store := store; rs_disk := disk; rs_records := []; rs_consult_failed := false |}
              results in
            (ledger, rs_store st, rs_disk st,
             classify (rs_records st) (rs_consult_failed st) (fo_truncated fan))
        end
    end.

(** ProviderDirectory::find_providers: [directory_resolve] under the budget's
    deadline.  When the timer fires first ([elapsed = Some recorded]) the
    resolve future is dropped at one of its await points, all of which precede
    the synchronous apply loop: the store and the disk are untouched, and
    [recorded] is whether the disclosure had been recorded. *)
Definition directory_find_providers (elapsed : option bool) (routing_peers : nat)
    (walk : result QueryFail ProviderFanOut)
    (fetch : PeerId -> FetchOutcome) (write_ok : PeerId -> bool) (now : Z) (key : ContentKey)
    (ledger : ExposureLedger) (store : FloorStore) (disk : Disk)
    : ExposureLedger * FloorStore * Disk * Lookup (list ProviderRecord) :=
  match elapsed with
  | None => directory_resolve routing_peers walk fetch write_ok now key ledger store disk
  | Some recorded =>
      (if recorded then ledger_record_all ledger
         [exposure DhtNode DisclosedContentKey; exposure DhtNode OurNodeId] else ledger,
       store, disk, LookupUnavailable DeadlineExceeded)
  end.

Definition directory_declared_exposure : ExposureSurface :=
  [exposure DhtNode DisclosedContentKey; exposure DhtNode OurNodeId; exposure Bootstrap OurNodeId].

(** ** Admission lemmas *)

Lemma admit_inner store peer a now :
  (admit_assertion store peer a now).1 =
  if decide (peer_id_of_provider (pa_provider a) = Some peer) then (apply store a now).1 else store.
Proof.
  unfold admit_assertion. case_bool_decide; destruct (decide _); try done.
  by destruct (apply store a now).
Qed.

(** A record is returned exactly when its provider derives to the peer it was
    fetched from and the floor took it or already held it. *)
Lemma admit_record_iff store peer a now r :
  adm_record (admit_assertion store peer a now).2 = Some r <->
  a = Provide r /\ peer_id_of_provider (pr_provider r) = Some peer /\
  ((apply store a now).2 = Applied \/ (apply store a now).2 = Idempotent).
Proof.
  unfold admit_assertion. case_bool_decide as Hp; simpl.
  - split; [done|]. intros (-> & Hp' & _). done.
  - destruct (decide (peer_id_of_provider (pa_provider a) = Some peer)); [|done].
    destruct (apply store a now) as [s' []]; destruct a; simpl in *; naive_solver.
Qed.

Lemma admit_not_advanced store peer a now :
  set_wf store -> adm_floor_advanced (admit_assertion store peer a now).2 = false ->
  (admit_assertion store peer a now).1 = store.
Proof.
  intros Hwf Ha. rewrite admit_inner. destruct (decide _) as [Hp|]; [|done].
  unfold admit_assertion in Ha. rewrite bool_decide_false in Ha by (intros ?; done).
  apply slot_at_ext; [by apply apply_wf|done|].
  intros k p. rewrite slot_at_apply. destruct (decide _) as [[-> ->]|]; [|done].
  apply apply_slot_rejected; rewrite <-outcome_apply; destruct (apply store a now) as [s' []]; done.
Qed.

Lemma apply_slot_takes o r now :
  (apply_slot o (Provide r) now).2 = Applied \/ (apply_slot o (Provide r) now).2 = Idempotent ->
  (apply_slot o (Provide r) now).1 = Some (Active r) /\ (now < pr_expiry r)%Z.
Proof.
  rewrite ?apply_slot_code_eq. unfold apply_slot_code. cbn [pa_expiry]. destruct (pr_expiry r <=? now)%Z eqn:Ex; [by intros []|].
  intros Hout. split; [|bools; lia]. destruct o as [slot|]; [|done].
  unfold apply_occupied in *. cbn [pa_sequence] in *.
  destruct (pr_sequence r =? Slot_sequence slot)%Z.
  - destruct slot as [existing|]; [|by destruct Hout]. simpl in *.
    case_bool_decide; [by subst|by destruct Hout].
  - destruct (pr_sequence r <? Slot_sequence slot)%Z; [by destruct Hout|done].
Qed.

(** ** The floor store's invariant *)

Definition covered (inner : ProviderRecordSet) (order : list (ContentKey * NodeId)) : Prop :=
  forall k p, is_Some (slot_at inner k p) -> (k, p) ∈ order.

(** The LRU order covers the occupied slots and the cap admits one slot. *)
Definition fs_wf (s : FloorStore) : Prop :=
  1 <= fs_cap s /\ set_wf (fs_inner s) /\ covered (fs_inner s) (fs_order s).

Lemma covered_count inner order : covered inner order -> slot_count inner <= length order.
Proof.
  intros Hc. rewrite <-length_slot_ids. apply submseteq_length, NoDup_submseteq.
  - apply slot_ids_NoDup.
  - intros [k p] Hin. by apply Hc, elem_of_slot_ids.
Qed.

(** [pop_lru] drops a prefix of the order, exactly the slots named in it, and
    stops as soon as the cap holds. *)
Lemma pop_lru_spec cap inner order removed :
  set_wf inner -> covered inner order ->
  exists n, let '(inner', order', removed') := pop_lru cap inner order removed in
    order' = drop n order /\ slot_count inner' <= cap /\ set_wf inner' /\
    covered inner' order' /\
    (forall k p, slot_at inner' k p =
      if decide ((k, p) ∈ take n order) then None else slot_at inner k p) /\
    removed' = removed || bool_decide (0 < n) /\
    (removed' = removed \/ removed' = true) /\ n <= length order /\ (n = 0 -> inner' = inner).
Proof.
  revert inner removed. induction order as [|[k p] order IH]; intros inner removed Hwf Hc; simpl.
  - exists 0. pose proof (covered_count _ _ Hc) as Hn. simpl in Hn.
    rewrite bool_decide_true by lia. simpl. rewrite orb_false_r. split_and!; try done; [lia|by left].
  - case_bool_decide as Hcap.
    { exists 0. simpl. rewrite orb_false_r. split_and!; try done; [by left|lia]. }
    destruct (IH (remove_slot inner k p).1 true) as [n Hn].
    + by apply remove_wf.
    + intros k' p'. rewrite slot_at_remove. destruct (decide _) as [|Hne]; [by intros []|].
      intros [[= -> ->]|]%Hc%elem_of_cons; [|done]. naive_solver.
    + exists (S n). destruct (pop_lru _ _ _ _) as [[inner' order'] removed'].
      destruct Hn as (-> & ? & ? & ? & Hs & Hr & _ & Hl & _).
      split_and!; try done; [|by rewrite Hr, orb_true_r|by right; rewrite Hr|simpl; lia].
      intros k' p'. rewrite Hs, slot_at_remove. simpl.
      repeat destruct (decide _); try done; set_solver.
Qed.

Lemma enforce_cap_spec s now :
  fs_wf s ->
  let s' := (enforce_cap s now).1 in
  fs_wf s' /\ slot_count (fs_inner s') <= fs_cap s' /\ fs_cap s' = fs_cap s /\
  fs_path s' = fs_path s /\
  (forall k p slot, slot_at (fs_inner s') k p = Some slot -> slot_at (fs_inner s) k p = Some slot) /\
  ((enforce_cap s now).2 = false -> fs_inner s' = fs_inner s).
Proof.
  intros (Hcap & Hwf & Hc). unfold enforce_cap. case_bool_decide as Hle; [done|].
  pose proof (slot_at_evict (fs_inner s) now) as Hev. pose proof (evict_wf (fs_inner s) now) as Hewf.
  pose proof (evict_count (fs_inner s) now) as Hcount.
  destruct (evict_expired (fs_inner s) now) as [inner n] eqn:E. simpl in Hev, Hewf, Hcount.
  set (order := if bool_decide (0 < n) then filter _ (fs_order s) else fs_order s).
  assert (covered inner order) as Hc'.
  { intros k p Hs. assert ((k, p) ∈ fs_order s) as Hin.
    { apply Hc. rewrite Hev in Hs. destruct (slot_at (fs_inner s) k p); [eauto|by destruct Hs]. }
    subst order. case_bool_decide; [|done]. apply list_elem_of_filter. split; [|done].
    by apply contains_slot_iff. }
  destruct (pop_lru_spec (fs_cap s) inner order (bool_decide (0 < n)) Hewf Hc') as [m Hm].
  destruct (pop_lru _ _ _ _) as [[inner' order'] removed']. simpl.
  destruct Hm as (-> & ? & ? & ? & Hs & Hr & _ & _ & Hm0). split_and!; try done.
  - intros k p slot. rewrite Hs. destruct (decide _); [done|]. rewrite Hev.
    destruct (slot_at (fs_inner s) k p); [|done]. by destruct (decide _).
  - intros ->. symmetry in Hr. apply orb_false_iff in Hr as [Hn Hm].
    apply bool_decide_eq_false in Hn, Hm. rewrite Hm0 by lia.
    apply slot_at_ext; [done..|]. intros k p. rewrite Hev.
    destruct (slot_at (fs_inner s) k p) as [slot|] eqn:Es; [|done].
    destruct (decide _); [done|]. exfalso.
    assert (slot_count inner = slot_count (fs_inner s)) as Heq by lia.
    assert (slot_ids inner ≡ₚ slot_ids (fs_inner s)) as Hperm.
    { apply submseteq_length_Permutation; [|rewrite !length_slot_ids; lia].
      apply NoDup_submseteq; [apply slot_ids_NoDup|]. intros [k' p'].
      rewrite !elem_of_slot_ids, Hev. destruct (slot_at (fs_inner s) k' p'); [eauto|done]. }
    assert ((k, p) ∈ slot_ids inner) as [x Hx]%elem_of_slot_ids
      by (rewrite Hperm; apply elem_of_slot_ids; eauto).
    rewrite Hev, Es in Hx. by destruct (decide _).
Qed.

(** The most recently used slot is never popped. *)
Lemma pop_lru_keeps_last cap inner l k p removed :
  1 <= cap -> set_wf inner -> covered inner (l ++ [(k, p)]) -> (k, p) ∉ l ->
  slot_at (pop_lru cap inner (l ++ [(k, p)]) removed).1.1 k p = slot_at inner k p.
Proof.
  intros Hcap. revert inner removed. induction l as [|[k1 p1] l IH]; intros inner removed Hwf Hc Hnin.
  - pose proof (covered_count _ _ Hc) as Hn. simpl in Hn |- *. by rewrite bool_decide_true by lia.
  - apply not_elem_of_cons in Hnin as [Hne Hnin]. cbn [app pop_lru]. case_bool_decide; [done|].
    rewrite IH; [|by apply remove_wf| |done].
    + rewrite slot_at_remove. destruct (decide _) as [[-> ->]|]; done.
    + intros k' p'. rewrite slot_at_remove. destruct (decide _) as [|Hd]; [by intros []|].
      intros [[= -> ->]|]%Hc%elem_of_cons; [|done]. naive_solver.
Qed.

Lemma enforce_cap_keeps_last s now l k p slot :
  fs_wf s -> fs_order s = l ++ [(k, p)] -> (k, p) ∉ l ->
  slot_at (fs_inner s) k p = Some slot -> (now < Slot_expiry slot)%Z ->
  slot_at (fs_inner (enforce_cap s now).1) k p = Some slot.
Proof.
  intros (Hcap & Hwf & Hc) Ho Hnin Hs Hlive. unfold enforce_cap. case_bool_decide; [done|].
  pose proof (slot_at_evict (fs_inner s) now) as Hev. pose proof (evict_wf (fs_inner s) now) as Hewf.
  destruct (evict_expired (fs_inner s) now) as [inner n]. simpl in Hev, Hewf.
  assert (slot_at inner k p = Some slot) as Hin by (rewrite Hev, Hs; by rewrite decide_True).
  assert (exists l', (if bool_decide (0 < n)
      then filter (fun '(k, p) => contains_slot inner k p = true) (fs_order s)
      else fs_order s) = l' ++ [(k, p)] /\ (k, p) ∉ l' /\ covered inner (l' ++ [(k, p)]))
    as (l' & -> & Hnin' & Hc').
  { assert (covered inner (fs_order s)) as Hc1.
    { intros k' p' [x Hx]. apply Hc. rewrite Hev in Hx. destruct (slot_at (fs_inner s) k' p'); eauto. }
    case_bool_decide; [|exists l; by rewrite <-Ho].
    exists (filter (fun '(k, p) => contains_slot inner k p = true) l). rewrite Ho, filter_app.
    rewrite filter_cons_True by (apply contains_slot_iff; eauto). rewrite filter_nil.
    split_and!; [done|by intros []%list_elem_of_filter|].
    intros k' p' Hs'. specialize (Hc1 k' p' Hs'). rewrite Ho in Hc1.
    apply elem_of_app in Hc1 as [Hl|Hl]; apply elem_of_app; [left|by right].
    apply list_elem_of_filter. split; [by apply contains_slot_iff|done]. }
  pose proof (pop_lru_keeps_last (fs_cap s) inner l' k p (bool_decide (0 < n)) Hcap Hewf Hc' Hnin') as Hk.
  destruct (pop_lru _ _ _ _) as [[inner' order'] removed']. simpl in *. congruence.
Qed.

(** The store between the admission and the cap enforcement. *)
Definition admitted_store (s : FloorStore) (peer : PeerId) (a : ProviderAssertion) (now : Z) : FloorStore :=
  let inner := (admit_assertion (fs_inner s) peer a now).1 in
  let s1 := {| fs_inner := inner; fs_order := fs_order s; fs_cap := fs_cap s; fs_path := fs_path s |} in
  if contains_slot inner (pa_key a) (pa_provider a) then touch s1 (pa_key a) (pa_provider a) else s1.

Lemma FloorStore_admit_unfold ok s disk peer a now :
  FloorStore_admit ok s disk peer a now =
  let adm := (admit_assertion (fs_inner s) peer a now).2 in
  let s' := (enforce_cap (admitted_store s peer a now) now).1 in
  let evicted := (enforce_cap (admitted_store s peer a now) now).2 in
  (s',
   if bool_decide (is_Some (fs_path s')) && (adm_floor_advanced adm || evicted)
   then FloorStore_persist ok s' disk else disk,
   adm_record adm).
Proof.
  unfold FloorStore_admit, admitted_store.
  destruct (admit_assertion (fs_inner s) peer a now) as [inner adm]. simpl.
  by destruct (enforce_cap _ now) as [s' ev].
Qed.

Lemma admitted_store_inner s peer a now :
  fs_inner (admitted_store s peer a now) = (admit_assertion (fs_inner s) peer a now).1.
Proof. unfold admitted_store. by case_match. Qed.

Lemma admitted_store_fields s peer a now :
  fs_cap (admitted_store s peer a now) = fs_cap s /\ fs_path (admitted_store s peer a now) = fs_path s.
Proof. unfold admitted_store. by case_match. Qed.

Lemma admit_set_wf store peer a now : set_wf store -> set_wf (admit_assertion store peer a now).1.
Proof. intros Hs. rewrite admit_inner. destruct (decide _); [by apply apply_wf|done]. Qed.

(** Only the assertion's own slot can change. *)
Lemma admit_slot_other store peer a now k p :
  (k, p) <> (pa_key a, pa_provider a) ->
  slot_at (admit_assertion store peer a now).1 k p = slot_at store k p.
Proof.
  intros Hne. rewrite admit_inner. destruct (decide (_ = Some _)); [|done].
  rewrite slot_at_apply. destruct (decide _) as [[-> ->]|]; done.
Qed.

Lemma admitted_store_wf s peer a now : fs_wf s -> fs_wf (admitted_store s peer a now).
Proof.
  intros (Hcap & Hwf & Hc). unfold fs_wf. rewrite admitted_store_inner.
  destruct (admitted_store_fields s peer a now) as [-> _].
  split_and!; [done|by apply admit_set_wf|]. intros k p Hs. unfold admitted_store.
  destruct (decide ((k, p) = (pa_key a, pa_provider a))) as [[= -> ->]|Hne].
  - rewrite (proj2 (contains_slot_iff _ _ _) Hs). simpl. apply elem_of_app; right.
    by apply list_elem_of_singleton.
  - rewrite admit_slot_other in Hs by done. apply Hc in Hs. case_match; [|done]. simpl.
    apply elem_of_app; left. by apply list_elem_of_filter.
Qed.

Lemma FloorStore_admit_bounded ok s disk peer a now :
  fs_wf s ->
  let s' := (FloorStore_admit ok s disk peer a now).1.1 in
  fs_wf s' /\ slot_count (fs_inner s') <= fs_cap s' /\ fs_cap s' = fs_cap s /\ fs_path s' = fs_path s.
Proof.
  intros Hs. rewrite FloorStore_admit_unfold. simpl.
  destruct (enforce_cap_spec (admitted_store s peer a now) now (admitted_store_wf _ _ _ _ Hs))
    as (? & ? & Hcap & Hpath & _).
  destruct (admitted_store_fields s peer a now) as [Hc Hp]. split_and!; congruence.
Qed.

(** A record handed back is the one the floor now holds for its slot. *)
Lemma FloorStore_admit_kept ok s disk peer a now r :
  fs_wf s -> (FloorStore_admit ok s disk peer a now).2 = Some r ->
  slot_at (fs_inner (FloorStore_admit ok s disk peer a now).1.1) (pr_key r) (pr_provider r)
  = Some (Active r) /\ (now < pr_expiry r)%Z.
Proof.
  intros Hs. rewrite FloorStore_admit_unfold. simpl. intros Hr.
  pose proof Hr as (-> & Hp & Hout)%admit_record_iff.
  assert (slot_at (admit_assertion (fs_inner s) peer (Provide r) now).1 (pr_key r) (pr_provider r)
    = Some (Active r) /\ (now < pr_expiry r)%Z) as [Hslot Hlive].
  { rewrite admit_inner, decide_True by done. rewrite outcome_apply in Hout.
    rewrite slot_at_apply, decide_True by done. by apply apply_slot_takes. }
  split; [|done]. unfold admitted_store at 1.
  rewrite (proj2 (contains_slot_iff _ _ _)) by (simpl; rewrite Hslot; eauto).
  eapply enforce_cap_keeps_last; [|done| |done|done].
  - pose proof (admitted_store_wf s peer (Provide r) now Hs) as Hw. unfold admitted_store in Hw.
    by rewrite (proj2 (contains_slot_iff _ _ _)) in Hw by (simpl; rewrite Hslot; eauto).
  - simpl. by intros []%list_elem_of_filter.
Qed.

(** ** Durability *)

(** Every slot holds what a decode produced, so that it survives the disk. *)
Definition set_storable (s : ProviderRecordSet) : Prop :=
  forall k p slot, slot_at s k p = Some slot -> floor_entry_ok (k, p, floor_of slot).

(** The file restores exactly the slots in memory. *)
Definition fs_synced (s : FloorStore) (disk : Disk) : Prop :=
  match fs_path s with
  | Some path => restore_all ProviderRecordSet_new (load_floors true path disk) = fs_inner s
  | None => True
  end.

Lemma export_storable s : set_storable s -> Forall floor_entry_ok (export_floors s).
Proof.
  intros Hs. apply Forall_forall. intros [[k p] f] (slot & Hslot & ->)%elem_of_export. by apply Hs.
Qed.

Lemma load_save path floors disk :
  Forall floor_entry_ok floors ->
  load_floors true path (save_floors true path floors disk) = floors.
Proof.
  intros Hf. unfold load_floors, save_floors. simpl. rewrite lookup_insert_eq.
  by apply deserialize_serialize_floors.
Qed.

Lemma durable_inner ok disk path cap :
  fs_inner (FloorStore_durable ok disk path cap) =
  restore_all ProviderRecordSet_new (load_floors ok path disk).
Proof.
  unfold FloorStore_durable, restore_all. generalize (load_floors ok path disk) as l.
  change ProviderRecordSet_new with (fs_inner {| fs_inner := ProviderRecordSet_new; fs_order := [];
    fs_cap := Nat.max cap 1; fs_path := Some path |}) at 2.
  generalize {| fs_inner := ProviderRecordSet_new; fs_order := [];
    fs_cap := Nat.max cap 1; fs_path := Some path |} as s.
  intros s l. revert s. induction l as [|[[k p] f] l IH]; intros s; simpl; [done|]. apply IH.
Qed.

Lemma load_entries_wf l s : fs_wf s -> fs_wf (foldl load_entry s l).
Proof.
  revert s. induction l as [|[[k p] f] l IH]; intros s Hs; simpl; [done|]. apply IH.
  destruct Hs as (Hcap & Hwf & Hc). split_and!; simpl; [done|by apply restore_wf|].
  intros k' p'. rewrite slot_at_restore. destruct (decide _) as [[-> ->]|].
  - intros _. apply elem_of_app; right. by apply list_elem_of_singleton.
  - intros Hs. apply elem_of_app; left. by apply Hc.
Qed.

Lemma durable_wf ok disk path cap : fs_wf (FloorStore_durable ok disk path cap).
Proof.
  apply load_entries_wf. split_and!; simpl; [lia|apply new_wf|].
  intros k p. unfold slot_at. simpl. rewrite lookup_empty. by intros [].
Qed.

Lemma decoded_storable bytes k now a :
  (0 <= now)%Z -> decode_provider_assertion bytes k now = Ok a ->
  floor_entry_ok (pa_key a, pa_provider a, floor_of (slot_of a)).
Proof.
  intros Hn Hd. pose proof Hd as (_ & Ht & _ & Hk & _)%decode_assertion_iff.
  destruct a as [r|w]; simpl in *; unfold floor_entry_ok; simpl.
  - split; [done|]. exists bytes, now. by subst k.
  - tauto.
Qed.

Lemma apply_slot_from o a now slot :
  (apply_slot o a now).1 = Some slot -> o = Some slot \/ slot = slot_of a.
Proof.
  rewrite apply_slot_state. repeat case_match; intros; simplify_eq; auto.
Qed.

Lemma admit_storable store peer a now :
  floor_entry_ok (pa_key a, pa_provider a, floor_of (slot_of a)) ->
  set_storable store -> set_storable (admit_assertion store peer a now).1.
Proof.
  intros Ha Hs k p slot. rewrite admit_inner. destruct (decide (_ = Some _)); [|apply Hs].
  rewrite slot_at_apply. destruct (decide _) as [[-> ->]|]; [|apply Hs].
  intros [Ho| ->]%apply_slot_from; [by apply Hs|done].
Qed.

Lemma FloorStore_admit_storable ok s disk peer a now :
  fs_wf s -> floor_entry_ok (pa_key a, pa_provider a, floor_of (slot_of a)) ->
  set_storable (fs_inner s) ->
  set_storable (fs_inner (FloorStore_admit ok s disk peer a now).1.1).
Proof.
  intros Hs Ha Hst. rewrite FloorStore_admit_unfold. simpl. intros k p slot Hslot.
  destruct (enforce_cap_spec (admitted_store s peer a now) now (admitted_store_wf _ _ _ _ Hs))
    as (_ & _ & _ & _ & Hsub & _).
  apply Hsub in Hslot. rewrite admitted_store_inner in Hslot. by eapply admit_storable.
Qed.

Lemma FloorStore_admit_synced s disk peer a now :
  fs_wf s -> floor_entry_ok (pa_key a, pa_provider a, floor_of (slot_of a)) ->
  set_storable (fs_inner s) -> fs_synced s disk ->
  fs_synced (FloorStore_admit true s disk peer a now).1.1 (FloorStore_admit true s disk peer a now).1.2.
Proof.
  intros Hs Ha Hst Hsync.
  pose proof (FloorStore_admit_storable true s disk peer a now Hs Ha Hst) as Hst'.
  rewrite FloorStore_admit_unfold in Hst' |- *. cbn [fst snd] in Hst' |- *.
  destruct (enforce_cap_spec (admitted_store s peer a now) now (admitted_store_wf _ _ _ _ Hs))
    as ((_ & Hwf' & _) & _ & _ & Hpath & _ & Hsame).
  destruct (admitted_store_fields s peer a now) as [_ Hp]. rewrite Hp in Hpath.
  unfold fs_synced, FloorStore_persist in *. rewrite Hpath in *.
  destruct (fs_path s) as [path|]; [|done]. rewrite bool_decide_true by eauto. simpl.
  destruct (adm_floor_advanced _) eqn:Eadv; [|destruct (enforce_cap _ now).2 eqn:Eev].
  1,2: simpl; rewrite load_save by (by apply export_storable); by apply restore_export.
  simpl. rewrite Hsame, admitted_store_inner, admit_not_advanced; try done. apply Hs.
Qed.

(** ** The resolve loop *)

(** [r] is a record the value fetch of an indexed peer answered with. *)
Definition fetched_record (key : ContentKey) (now : Z)
    (items : list (PeerId * FetchOutcome * bool)) (r : ProviderRecord) : Prop :=
  exists peer bytes ok, (peer, Ok (Some bytes), ok) ∈ items /\
    decode_provider_assertion bytes key now = Ok (Provide r) /\
    peer_id_of_provider (pr_provider r) = Some peer.

Definition resolve_inv (st : ResolveState) : Prop :=
  fs_wf (rs_store st) /\ set_storable (fs_inner (rs_store st)).

Lemma resolve_one_inv key now st item :
  (0 <= now)%Z -> resolve_inv st -> resolve_inv (resolve_one key now st item).
Proof.
  intros Hnow [Hwf Hst]. destruct item as [[peer outcome] ok]. unfold resolve_one.
  destruct outcome as [[bytes|]|e]; [|done|done].
  destruct (decode_provider_assertion bytes key now) as [a|e] eqn:Ed; [|done].
  pose proof (decoded_storable _ _ _ _ Hnow Ed) as Ha.
  pose proof (FloorStore_admit_bounded ok (rs_store st) (rs_disk st) peer a now Hwf) as (Hw & _).
  pose proof (FloorStore_admit_storable ok (rs_store st) (rs_disk st) peer a now Hwf Ha Hst) as Hs.
  by destruct (FloorStore_admit _ _ _ _ _ _) as [[s' d'] r].
Qed.

Lemma resolve_loop_inv key now st items :
  (0 <= now)%Z -> resolve_inv st -> resolve_inv (resolve_loop key now st items).
Proof.
  intros Hnow. unfold resolve_loop. revert st. induction items as [|i l IH]; intros st Hst; [done|].
  by apply IH, resolve_one_inv.
Qed.

Lemma resolve_loop_records key now st items :
  exists new, rs_records (resolve_loop key now st items) = rs_records st ++ new /\
    Forall (fetched_record key now items) new.
Proof.
  unfold resolve_loop. revert st. induction items as [|i l IH]; intros st; cbn [foldl].
  { exists []. by rewrite app_nil_r. }
  destruct (IH (resolve_one key now st i)) as (new & -> & Hnew).
  assert (Forall (fetched_record key now (i :: l)) new) as Hnew'.
  { eapply Forall_impl; [exact Hnew|]. intros r (peer & bytes & ok & Hin & ?).
    exists peer, bytes, ok. split; [by apply list_elem_of_further|done]. }
  destruct i as [[peer outcome] ok]. unfold resolve_one.
  destruct outcome as [[bytes|]|e]; simpl; [|by eexists..].
  destruct (decode_provider_assertion bytes key now) as [a|e] eqn:Ed; [|by eexists].
  rewrite FloorStore_admit_unfold. simpl.
  destruct (adm_record _) as [r|] eqn:Er; [|by eexists]. apply admit_record_iff in Er as (-> & Hp & _).
  exists (r :: new). rewrite <-app_assoc. split; [done|]. constructor; [|done].
  exists peer, bytes, ok. split; [apply list_elem_of_here|done].
Qed.

Lemma resolve_loop_failed key now st items :
  rs_consult_failed (resolve_loop key now st items) =
  rs_consult_failed st || existsb (fun i => negb (is_ok i.1.2)) items.
Proof.
  unfold resolve_loop. revert st. induction items as [|i l IH]; intros st; simpl;
    [by rewrite orb_false_r|].
  rewrite IH. destruct i as [[peer [[bytes|]|e]] ok]; simpl; [|done|by rewrite orb_true_r].
  destruct (decode_provider_assertion bytes key now); [|done].
  by destruct (FloorStore_admit _ _ _ _ _ _) as [[s' d'] r].
Qed.

(** The outcome of [directory_resolve] once the index named providers. *)
Lemma resolve_nonempty routing fan fetch wok now key ledger store disk :
  routing <> 0 -> fo_providers fan <> [] ->
  let st := resolve_loop key now
    {| rs_store := store; rs_disk := disk; rs_records := []; rs_consult_failed := false |}
    ((fun peer => (peer, fetch peer, wok peer)) <$> fo_providers fan) in
  directory_resolve routing (Ok fan) fetch wok now key ledger store disk =
  (ledger ++ [exposure DhtNode DisclosedContentKey; exposure DhtNode OurNodeId],
   rs_store st, rs_disk st, classify (rs_records st) (rs_consult_failed st) (fo_truncated fan)).
Proof.
  intros Hr Hp. unfold directory_resolve. rewrite bool_decide_false by done.
  by destruct (fo_providers fan).
Qed.

Lemma existsb_not_ok (fetch : PeerId -> FetchOutcome) wok l :
  existsb (fun i : PeerId * FetchOutcome * bool => negb (is_ok i.1.2))
    ((fun peer => (peer, fetch peer, wok peer)) <$> l) = false <->
  (forall peer, peer ∈ l -> is_ok (fetch peer) = true).
Proof.
  induction l as [|x l IH]; [set_solver|]. rewrite fmap_cons. cbn [existsb fst snd].
  rewrite orb_false_iff, negb_false_iff, IH. setoid_rewrite elem_of_cons. naive_solver.
Qed.

(** ** Properties *)

(** C5: Every record a lookup returns was fetched from an indexed peer, decoded
    for the requested key at the lookup's clock, and is signed by the identity
    that peer's PeerId derives from; and there is at least one. *)
Theorem resolve_found_sound routing fan fetch wok now key ledger store disk records :
  (directory_resolve routing (Ok fan) fetch wok now key ledger store disk).2 = Found records ->
  records <> [] /\
  Forall (fun r => exists peer bytes, peer ∈ fo_providers fan /\ fetch peer = Ok (Some bytes) /\
      decode_provider_assertion bytes key now = Ok (Provide r) /\
      peer_id_of_provider (pr_provider r) = Some peer) records.
Proof.
  destruct (decide (routing = 0)) as [->|Hr]; [done|].
  destruct (decide (fo_providers fan = [])) as [Hp|Hp].
  { unfold directory_resolve. rewrite bool_decide_false, Hp by done. simpl.
    unfold classify_empty_index, absence_from_reach. by repeat case_match. }
  rewrite resolve_nonempty by done. simpl.
  destruct (resolve_loop_records key now
    {| rs_store := store; rs_disk := disk; rs_records := []; rs_consult_failed := false |}
    ((fun peer => (peer, fetch peer, wok peer)) <$> fo_providers fan)) as (new & -> & Hnew).
  simpl. destruct new as [|r new]; simpl; [by repeat case_match|]. intros [= <-].
  split; [done|]. eapply Forall_impl; [exact Hnew|].
  intros r' (peer & bytes & ok & (x & Heq & Hin)%list_elem_of_fmap & Hd & Hb).
  injection Heq as -> Hf _. by exists x, bytes.
Qed.

(** C6: A lookup answers Miss exactly when the absence is authoritative: the
    routing table is not empty, the index walk completed untruncated, and
    either it named nobody while reaching a responding peer, or every named
    peer could be consulted and none yielded a live record. *)
Theorem resolve_miss_iff routing walk fetch wok now key ledger store disk :
  (directory_resolve routing walk fetch wok now key ledger store disk).2 = Miss <->
  routing <> 0 /\ exists fan, walk = Ok fan /\ fo_truncated fan = false /\
    ((fo_providers fan = [] /\ (0 < answered (fo_reach fan))%Z) \/
     (fo_providers fan <> [] /\ (forall peer, peer ∈ fo_providers fan -> is_ok (fetch peer) = true) /\
      rs_records (resolve_loop key now
        {| rs_store := store; rs_disk := disk; rs_records := []; rs_consult_failed := false |}
        ((fun peer => (peer, fetch peer, wok peer)) <$> fo_providers fan)) = [])).
Proof.
  destruct (decide (routing = 0)) as [->|Hr]; [split; [done|by intros [? _]]|].
  destruct walk as [fan|[|why]]; [|unfold directory_resolve; rewrite bool_decide_false by done;
    (split; [done|by intros (_ & ? & ? & _)])..].
  destruct (decide (fo_providers fan = [])) as [Hp|Hp].
  - unfold directory_resolve. rewrite bool_decide_false, Hp by done. simpl.
    unfold classify_empty_index, absence_from_reach, reached_neighborhood.
    destruct (fo_truncated fan) eqn:Et; [split; [done|intros (_ & ? & [= <-] & ? & _); congruence]|].
    destruct (0 <? answered (fo_reach fan))%Z eqn:Ea; bools; split; try done;
      [intros _; split; [done|]; exists fan; split_and!; auto|].
    intros (_ & ? & [= <-] & _ & [[_ ?]|[? _]]); [lia|done].
  - rewrite resolve_nonempty by done. simpl. rewrite resolve_loop_failed. simpl.
    match goal with |- context [existsb ?f ?l] =>
      pose proof (existsb_not_ok fetch wok (fo_providers fan)) as Hex;
      destruct (existsb f l) eqn:Ef end.
    + split; [by destruct (rs_records _)|]. intros (_ & ? & [= <-] & _ & [[? _]|(_ & Hall & _)]); [done|].
      by apply Hex in Hall.
    + pose proof (proj1 Hex eq_refl) as Hall. destruct (rs_records _) eqn:Er; simpl.
      * destruct (fo_truncated fan) eqn:Et; [split; [done|intros (_ & ? & [= <-] & ? & _); congruence]|].
        split; [|done]. intros _. split; [done|].
        exists fan. split_and!; try done. right. done.
      * split; [done|]. intros (_ & ? & [= <-] & _ & [[? _]|(_ & _ & ?)]); [done|]. congruence.
Qed.

(** What a lookup discloses stays within the declared surface, and a
    lookup that never reached the network discloses nothing; a timed-out
    lookup leaves the floor and its file untouched. *)
Theorem find_providers_exposure elapsed routing walk fetch wok now key ledger store disk :
  let '(ledger', store', disk', out) :=
    directory_find_providers elapsed routing walk fetch wok now key ledger store disk in
  (exists new, ledger' = ledger ++ new /\ new ⊆ directory_declared_exposure /\
     (elapsed = None -> routing = 0 -> new = [])) /\
  (is_Some elapsed -> store' = store /\ disk' = disk /\ out = LookupUnavailable DeadlineExceeded).
Proof.
  unfold directory_find_providers, directory_resolve.
  assert ([exposure DhtNode DisclosedContentKey; exposure DhtNode OurNodeId]
    ⊆ directory_declared_exposure) as Hsub.
  { unfold directory_declared_exposure. set_solver. }
  assert ([] ⊆ directory_declared_exposure) as Hnil by set_solver.
  destruct elapsed as [[]|].
  - split; [eexists; by split_and!|done].
  - split; [exists []; by rewrite app_nil_r|done].
  - case_bool_decide as Hr; [split; [exists []; by rewrite app_nil_r|by intros []]|].
    destruct walk as [fan|[|]]; [destruct (fo_providers fan)|..];
      (split; [eexists; by split_and!|by intros []]).
Qed.

(** Every admission leaves the floor well formed (its LRU order covers
    its slots) and within its cap, even when the store was loaded from a file
    holding more slots than the cap. *)
Theorem floor_bounded ok s disk peer a now :
  fs_wf s ->
  let s' := (FloorStore_admit ok s disk peer a now).1.1 in
  fs_wf s' /\ slot_count (fs_inner s') <= fs_cap s' /\ fs_cap s' = fs_cap s.
Proof.
  intros Hs. destruct (FloorStore_admit_bounded ok s disk peer a now Hs) as (? & ? & ? & _).
  by split_and!.
Qed.

(** A record handed back to the lookup is live and is exactly what the
    floor holds for its slot after the cap was enforced: the just-admitted
    slot is never the one evicted. *)
Theorem admitted_record_kept ok s disk peer a now r :
  fs_wf s -> (FloorStore_admit ok s disk peer a now).2 = Some r ->
  a = Provide r /\ peer_id_of_provider (pr_provider r) = Some peer /\ (now < pr_expiry r)%Z /\
  slot_at (fs_inner (FloorStore_admit ok s disk peer a now).1.1) (pr_key r) (pr_provider r)
    = Some (Active r).
Proof.
  intros Hs Hr. destruct (FloorStore_admit_kept ok s disk peer a now r Hs Hr) as [? ?].
  rewrite FloorStore_admit_unfold in Hr. simpl in Hr. apply admit_record_iff in Hr as (-> & ? & _).
  by split_and!.
Qed.

(** A restart loses nothing: while writes succeed, the floor file always
    restores exactly the slots in memory, so a store re-opened from disk after
    any admission of a decoded assertion rejects what the running store would
    have rejected. *)
Theorem restart_preserves_floor s disk path bytes key peer a now cap :
  fs_wf s -> fs_path s = Some path -> set_storable (fs_inner s) -> fs_synced s disk ->
  (0 <= now)%Z -> decode_provider_assertion bytes key now = Ok a ->
  let '(s', disk', _) := FloorStore_admit true s disk peer a now in
  fs_inner (FloorStore_durable true disk' path cap) = fs_inner s' /\
  fs_wf (FloorStore_durable true disk' path cap) /\
  set_storable (fs_inner s') /\ fs_synced s' disk'.
Proof.
  intros Hs Hpath Hst Hsync Hnow Hd. pose proof (decoded_storable _ _ _ _ Hnow Hd) as Ha.
  pose proof (FloorStore_admit_synced s disk peer a now Hs Ha Hst Hsync) as Hsync'.
  pose proof (FloorStore_admit_storable true s disk peer a now Hs Ha Hst) as Hst'.
  destruct (FloorStore_admit_bounded true s disk peer a now Hs) as (_ & _ & _ & Hp').
  destruct (FloorStore_admit true s disk peer a now) as [[s' disk'] r]. simpl in *.
  split_and!; [|apply durable_wf|done|done].
  rewrite durable_inner. unfold fs_synced in Hsync'. by rewrite Hp', Hpath in Hsync'.
Qed.

End directory.

(** ** Witnesses *)

Section witnesses.
#[local] Existing Instance toy_ed25519.

(** A libp2p in which a node's PeerId is its node id. *)
#[local] Instance toy_libp2p : Libp2p := {| PeerId := NodeId; peer_id_of_provider := Some |}.

Definition sample_provide : ProviderRecord :=
  match toy_record (fill 32 x11) xaa [Iroh (toy_node x11)] 3 200 with
  | Some r => r
  | None => {| pr_key := toy_key xaa; pr_content := toy_content xcc; pr_provider := UNSET_PROVIDER;
      pr_offers := []; pr_sequence := 0; pr_issued_at := 0; pr_expiry := 0; pr_signature := fill 64 x00 |}
  end.

Definition sample_wire : list byte :=
  match encode_provider_record sample_provide with Some (Ok b) => b | _ => [] end.

Definition sample_fan : ProviderFanOut :=
  {| fo_providers := [toy_node x22; toy_node x11]; fo_truncated := false; fo_reach := {| answered := 1 |} |}.

Definition sample_fetch (p : NodeId) : result QueryFail (option (list byte)) :=
  if bool_decide (p = toy_node x11) then Ok (Some sample_wire) else Ok None.

Lemma sample_resolves :
  (directory_resolve 1 (Ok sample_fan) sample_fetch (fun _ => true) 150 (toy_key xaa) []
    FloorStore_new ∅).2 = Found [sample_provide].
Proof. vm_compute. reflexivity. Qed.

Lemma resolve_found_sound_witness : [sample_provide] <> [].
Proof.
  apply (resolve_found_sound (H0:=toy_libp2p) 1 sample_fan sample_fetch (fun _ => true) 150 (toy_key xaa) []
    FloorStore_new ∅ [sample_provide]). apply sample_resolves.
Defined.

Definition sample_path : Path := str "floor".

Lemma floor_bounded_witness :
  slot_count (fs_inner (FloorStore_admit true (FloorStore_durable true ∅ sample_path 1) ∅
    (toy_node x11) (Provide sample_provide) 150).1.1) <= 1.
Proof.
  destruct (floor_bounded (H0:=toy_libp2p) true (FloorStore_durable true ∅ sample_path 1) ∅
    (toy_node x11) (Provide sample_provide) 150) as (_ & Hle & Hcap); [apply durable_wf|].
  rewrite Hcap in Hle. exact Hle.
Defined.

Lemma admitted_record_kept_witness :
  slot_at (fs_inner (FloorStore_admit true (FloorStore_durable true ∅ sample_path 1) ∅
    (toy_node x11) (Provide sample_provide) 150).1.1) (toy_key xaa) (toy_node x11)
  = Some (Active sample_provide).
Proof.
  apply (admitted_record_kept (H0:=toy_libp2p) true (FloorStore_durable true ∅ sample_path 1) ∅ (toy_node x11)
    (Provide sample_provide) 150 sample_provide); [apply durable_wf|vm_compute; reflexivity].
Defined.

Lemma restart_preserves_floor_witness :
  let '(s', disk', _) := FloorStore_admit true (FloorStore_durable true ∅ sample_path 4) ∅
    (toy_node x11) (Provide sample_provide) 150 in
  fs_inner (FloorStore_durable true disk' sample_path 4) = fs_inner s' /\
  fs_wf (FloorStore_durable true disk' sample_path 4) /\
  set_storable (fs_inner s') /\ fs_synced s' disk'.
Proof.
  apply (restart_preserves_floor (H0:=toy_libp2p) (FloorStore_durable true ∅ sample_path 4) ∅ sample_path sample_wire
    (toy_key xaa) (toy_node x11) (Provide sample_provide) 150 4).
  - apply durable_wf.
  - reflexivity.
  - intros k p slot. change (fs_inner _) with ProviderRecordSet_new.
    unfold slot_at. simpl. rewrite lookup_empty. discriminate.
  - reflexivity.
  - lia.
  - vm_compute. reflexivity.
Defined.

End witnesses.
