(* ===== verification/FanOut.v ===== *)
(** * Bounded provider fan-out and mDNS admission

    Models two pure decisions of fabric-libp2p/src/swarm.rs: the salted,
    bounded selection of providers during an index walk ([provider_rank],
    [retain_bounded_provider], the GetProviders reply) and the per-window cap
    on mDNS peers ([MdnsAdmission]).

    A BTreeSet is a strictly sorted list.  The theorem on the fan-out: however
    the providers arrive and however often they repeat, the retained set is the
    [max_peers] smallest by (rank, peer) of the distinct providers named, and
    the truncation flag is set exactly when one was left out. *)

From Stdlib Require Import Strings.Byte ZArith Lia.
From stdpp Require Import base sets gmap numbers sorting list.
From S2P Require Import Prelude Text.

(** What the code uses of libp2p's PeerId: its byte form and its total order. *)
Class PeerOrd (P : Type) := {
  peer_eq_dec :: EqDecision P;
  peer_to_bytes : P -> list byte;
  peer_ltb : P -> P -> bool;
}.

Class PeerOrdLaws (P : Type) `{PeerOrd P} : Prop := {
  peer_ltb_irrefl x : peer_ltb x x = false;
  peer_ltb_trans x y z : peer_ltb x y = true -> peer_ltb y z = true -> peer_ltb x z = true;
  peer_ltb_total x y : peer_ltb x y = true \/ x = y \/ peer_ltb y x = true;
}.

Definition wrapping_mul64 (a b : Z) : Z := (a * b) mod 2 ^ 64.

Section fanout.
Context {P : Type} `{PeerOrd P}.

(** ** provider_rank *)

Definition FNV_OFFSET : Z := 0xcbf29ce484222325.
Definition FNV_PRIME : Z := 0x00000100000001b3.

(** The FNV-1a loop over the peer's bytes. *)
Definition fnv_step (h : Z) (b : byte) : Z := wrapping_mul64 (Z.lxor h (u8_val b)) FNV_PRIME.

Definition provider_rank (salt : Z) (peer : P) : Z :=
  let h := foldl fnv_step (Z.lxor FNV_OFFSET salt) (peer_to_bytes peer) in
  let h := wrapping_mul64 (Z.lxor h (Z.shiftr h 30)) 0xbf58476d1ce4e5b9 in
  let h := wrapping_mul64 (Z.lxor h (Z.shiftr h 27)) 0x94d049bb133111eb in
  Z.lxor h (Z.shiftr h 31).

(** ** retain_bounded_provider *)

(** The order of `(u64, PeerId)`. *)
Definition entry_ltb (x y : Z * P) : bool :=
  (x.1 <? y.1)%Z || ((x.1 =? y.1)%Z && peer_ltb x.2 y.2).

(** BTreeSet::insert on the sorted list. *)
Fixpoint bt_insert (x : Z * P) (l : list (Z * P)) : list (Z * P) :=
  match l with
  | [] => [x]
  | y :: l' => if entry_ltb x y then x :: l
               else if entry_ltb y x then y :: bt_insert x l' else l
  end.

Definition retain_bounded_provider (max_peers : nat) (salt : Z) (st : list (Z * P) * bool) (peer : P)
    : list (Z * P) * bool :=
  let '(found, discarded) := st in
  let entry := (provider_rank salt peer, peer) in
  if bool_decide (entry ∈ found) then (found, discarded)
  else
    let found := bt_insert entry found in
    if bool_decide (max_peers < length found) then (take (length found - 1) found, true)
    else (found, discarded).

(** The worker's fold over every advertised provider. *)
Definition aggregate (max_peers : nat) (salt : Z) (named : list P) : list (Z * P) * bool :=
  foldl (retain_bounded_provider max_peers salt) ([], false) named.

(** `providers.sort_unstable()` of the reply. *)
Fixpoint insert_peer (x : P) (l : list P) : list P :=
  match l with [] => [x] | y :: l' => if peer_ltb y x then y :: insert_peer x l' else x :: l end.
Definition sort_peers (l : list P) : list P := foldr insert_peer [] l.

(** The successful GetProviders reply: providers and truncation flag. *)
Definition fan_out_reply (max_peers : nat) (salt : Z) (named : list P) : list P * bool :=
  let '(found, truncated) := aggregate max_peers salt named in
  (sort_peers found.*2, truncated).

(** ** Lemmas *)

Context `{!PeerOrdLaws P}.

Definition entry_lt (x y : Z * P) : Prop := entry_ltb x y = true.

Lemma entry_lt_irrefl x : ~ entry_lt x x.
Proof.
  unfold entry_lt, entry_ltb. rewrite Z.ltb_irrefl, Z.eqb_refl, peer_ltb_irrefl. done.
Qed.

Lemma entry_lt_iff x y :
  entry_lt x y <-> (x.1 < y.1)%Z \/ (x.1 = y.1 /\ peer_ltb x.2 y.2 = true).
Proof.
  unfold entry_lt, entry_ltb. rewrite orb_true_iff, andb_true_iff, Z.ltb_lt, Z.eqb_eq. done.
Qed.

#[local] Instance entry_lt_trans : Transitive entry_lt.
Proof.
  intros x y z. rewrite !entry_lt_iff. intros [?|[? H1]] [?|[? H2]]; [left; lia..|].
  right. split; [lia|]. by eapply peer_ltb_trans.
Qed.

Lemma entry_lt_total x y : entry_lt x y \/ x = y \/ entry_lt y x.
Proof.
  rewrite !entry_lt_iff. destruct x as [a p], y as [b q]; simpl.
  destruct (Z.lt_trichotomy a b) as [?|[->|?]]; [auto| |auto].
  destruct (peer_ltb_total p q) as [?|[->|?]]; auto.
Qed.

Lemma entry_ltb_false x y : entry_ltb x y = false <-> x = y \/ entry_lt y x.
Proof.
  split.
  - intros Hf. destruct (entry_lt_total x y) as [Hlt|?]; [|done]. unfold entry_lt in Hlt. congruence.
  - intros Hor. destruct (entry_ltb x y) eqn:E; [|done]. exfalso.
    destruct Hor as [->|Hlt]; [by apply (entry_lt_irrefl y)|].
    apply (entry_lt_irrefl x). by etransitivity.
Qed.

Lemma elem_of_bt_insert x y l : y ∈ bt_insert x l <-> y = x \/ y ∈ l.
Proof.
  induction l as [|z l IH]; simpl; [set_solver|].
  destruct (entry_ltb x z) eqn:E1; [set_solver|].
  destruct (entry_ltb z x) eqn:E2; [set_solver|].
  assert (x = z) as ->; [|set_solver].
  apply entry_ltb_false in E1 as [?|Hlt]; [done|]. unfold entry_lt in Hlt. congruence.
Qed.

Lemma bt_insert_sorted x l : StronglySorted entry_lt l -> StronglySorted entry_lt (bt_insert x l).
Proof.
  induction 1 as [|y l Hs IH Hf]; simpl; [repeat constructor|].
  destruct (entry_ltb x y) eqn:E1.
  - constructor; [by constructor|]. constructor; [done|].
    eapply Forall_impl; [exact Hf|]. intros z Hz. by transitivity y.
  - destruct (entry_ltb y x) eqn:E2; [|by constructor].
    constructor; [done|]. apply Forall_forall. intros z [->|Hz]%elem_of_bt_insert; [done|].
    rewrite Forall_forall in Hf. by apply Hf.
Qed.

Lemma length_bt_insert x l :
  StronglySorted entry_lt l ->
  length (bt_insert x l) = if decide (x ∈ l) then length l else S (length l).
Proof.
  induction 1 as [|y l Hs IH Hf]; cbn [bt_insert length]; [by rewrite decide_False by set_solver|].
  rewrite Forall_forall in Hf. destruct (entry_ltb x y) eqn:E1.
  - rewrite decide_False; [done|]. intros [->|Hin]%elem_of_cons.
    + by apply (entry_lt_irrefl y).
    + apply (entry_lt_irrefl x). transitivity y; [done|by apply Hf].
  - destruct (entry_ltb y x) eqn:E2; cbn [length].
    + rewrite IH. assert (x <> y) by (intros ->; by apply (entry_lt_irrefl y)).
      destruct (decide (x ∈ l)); destruct (decide _); try done; set_solver.
    + apply entry_ltb_false in E1 as [->|Hlt]; [by rewrite decide_True by set_solver|].
      unfold entry_lt in Hlt. congruence.
Qed.

(** Inserting below the cut only shifts the cut. *)
Lemma take_bt_insert m x l :
  take m (bt_insert x (take m l)) = take m (bt_insert x l).
Proof.
  revert m. induction l as [|y l IH]; intros m; [by rewrite take_nil|].
  destruct m as [|m]; [done|]. simpl. destruct (entry_ltb x y); simpl.
  - f_equal. destruct m as [|m]; [done|]. simpl. f_equal. rewrite take_take. f_equal. lia.
  - destruct (entry_ltb y x); simpl; f_equal; [apply IH|]. rewrite take_take. f_equal. lia.
Qed.

Lemma sorted_NoDup l : StronglySorted entry_lt l -> NoDup l.
Proof.
  induction 1 as [|x l _ IH Hf]; constructor; [|done]. intros Hin.
  rewrite Forall_forall in Hf. by apply (entry_lt_irrefl x), Hf.
Qed.

Lemma sorted_take m l : StronglySorted entry_lt l -> StronglySorted entry_lt (take m l).
Proof. intros Hs. rewrite <-(take_drop m l) in Hs. by apply StronglySorted_app in Hs as (_ & ? & _). Qed.

(** Two strictly sorted lists with the same elements are equal. *)
Lemma sorted_unique l l' :
  StronglySorted entry_lt l -> StronglySorted entry_lt l' -> (forall x, x ∈ l <-> x ∈ l') -> l = l'.
Proof.
  intros Hl. revert l'. induction Hl as [|x l Hs IH Hf]; intros l' Hl' Heq.
  - destruct l' as [|y l']; [done|]. exfalso. apply (not_elem_of_nil y), Heq, list_elem_of_here.
  - destruct Hl' as [|y l' Hs' Hf'].
    { exfalso. apply (not_elem_of_nil x), Heq, list_elem_of_here. }
    rewrite Forall_forall in Hf, Hf'.
    assert (x = y) as ->.
    { assert (x ∈ y :: l') as [?|Hx]%elem_of_cons by (apply Heq, list_elem_of_here); [done|].
      assert (y ∈ x :: l) as [?|Hy]%elem_of_cons by (apply Heq, list_elem_of_here); [done|].
      exfalso. apply (entry_lt_irrefl x). transitivity y; [by apply Hf|by apply Hf']. }
    f_equal. apply IH; [done|]. intros z. specialize (Heq z). rewrite !elem_of_cons in Heq.
    split; intros Hz; [assert (z <> y) by (intros ->; by apply (entry_lt_irrefl y), Hf)
      |assert (z <> y) by (intros ->; by apply (entry_lt_irrefl y), Hf')]; tauto.
Qed.

Lemma bt_insert_elem x l : StronglySorted entry_lt l -> x ∈ l -> bt_insert x l = l.
Proof.
  intros Hs Hin. apply sorted_unique; [by apply bt_insert_sorted|done|].
  intros y. rewrite elem_of_bt_insert. set_solver.
Qed.

(** The reference: every distinct provider named, in rank order. *)
Definition ranked (salt : Z) (named : list P) : list (Z * P) :=
  foldl (fun l p => bt_insert (provider_rank salt p, p) l) [] named.

Lemma ranked_from_spec salt named l :
  StronglySorted entry_lt l ->
  let l' := foldl (fun l p => bt_insert (provider_rank salt p, p) l) l named in
  StronglySorted entry_lt l' /\
  forall x, x ∈ l' <-> x ∈ l \/ exists p, p ∈ named /\ x = (provider_rank salt p, p).
Proof.
  revert l. induction named as [|p named IH]; intros l Hs; cbn [foldl].
  - split; [done|]. set_solver.
  - destruct (IH (bt_insert (provider_rank salt p, p) l)) as [Hs' Hx]; [by apply bt_insert_sorted|].
    split; [done|]. intros x. rewrite Hx, elem_of_bt_insert. set_solver.
Qed.

Lemma ranked_sorted salt named : StronglySorted entry_lt (ranked salt named).
Proof. apply ranked_from_spec. constructor. Qed.

Lemma elem_of_ranked salt named x :
  x ∈ ranked salt named <-> exists p, p ∈ named /\ x = (provider_rank salt p, p).
Proof.
  destruct (ranked_from_spec salt named [] ltac:(constructor)) as [_ Hx].
  etransitivity; [apply Hx|]. set_solver.
Qed.

Lemma retain_step m salt R p :
  StronglySorted entry_lt R ->
  retain_bounded_provider m salt (take m R, bool_decide (m < length R)) p =
  let R' := bt_insert (provider_rank salt p, p) R in (take m R', bool_decide (m < length R')).
Proof.
  intros Hs. unfold retain_bounded_provider. set (x := (provider_rank salt p, p)).
  pose proof (sorted_take m R Hs) as Hst. case_bool_decide as Hin.
  - rewrite bt_insert_elem; [done..|]. eapply elem_of_take in Hin as (i & Hi & _).
    by eapply list_elem_of_lookup_2.
  - pose proof (length_bt_insert x (take m R) Hst) as Hlen. rewrite decide_False in Hlen by done.
    pose proof (length_bt_insert x R Hs) as HlenR. rewrite length_take in Hlen.
    destruct (decide (m <= length R)) as [Hle|Hgt].
    + rewrite bool_decide_true by lia. replace (length _ - 1) with m by lia.
      rewrite take_bt_insert. f_equal. symmetry. apply bool_decide_true. rewrite HlenR.
      destruct (decide (x ∈ R)) as [HxR|]; [|lia].
      destruct (decide (m = length R)) as [->|]; [|lia].
      by rewrite take_ge in Hin by lia.
    + assert (take m R = R) as HR by (apply take_ge; lia). rewrite HR in Hin |- *.
      rewrite decide_False in HlenR by done. cbv zeta. rewrite (take_ge (bt_insert x R) m) by lia.
      by rewrite !bool_decide_false by lia.
Qed.

Lemma aggregate_spec m salt named :
  aggregate m salt named = (take m (ranked salt named), bool_decide (m < length (ranked salt named))).
Proof.
  unfold aggregate, ranked.
  assert (forall R, StronglySorted entry_lt R ->
    foldl (retain_bounded_provider m salt) (take m R, bool_decide (m < length R)) named =
    let R' := foldl (fun l p => bt_insert (provider_rank salt p, p) l) R named in
    (take m R', bool_decide (m < length R'))) as Hgen.
  { induction named as [|p named IH]; intros R Hs; cbn [foldl]; [done|].
    rewrite retain_step by done. apply IH. by apply bt_insert_sorted. }
  specialize (Hgen [] ltac:(constructor)). rewrite take_nil in Hgen.
  by rewrite bool_decide_false in Hgen by (simpl; lia).
Qed.

Lemma insert_peer_perm x l : insert_peer x l ≡ₚ x :: l.
Proof.
  induction l as [|y l IH]; simpl; [done|]. destruct (peer_ltb y x); [|done].
  rewrite IH. apply Permutation_swap.
Qed.

Lemma sort_peers_perm l : sort_peers l ≡ₚ l.
Proof. induction l as [|x l IH]; simpl; [done|]. by rewrite insert_peer_perm, IH. Qed.

Lemma ranked_snd_NoDup salt named : NoDup (ranked salt named).*2.
Proof.
  apply NoDup_fmap_2_strong; [|apply sorted_NoDup, ranked_sorted].
  intros x y (p & _ & ->)%elem_of_ranked (q & _ & ->)%elem_of_ranked. simpl. by intros ->.
Qed.

(** ** Properties *)

(** The provider fan-out is the bounded selection it claims to be:
    whatever the arrival order and repetitions, the worker retains the
    [max_peers] smallest distinct providers by (rank, peer) under the query's
    salt, every retained one ranks before every one left out, and it reports
    truncation exactly when it left one out. *)
Theorem fan_out_selects_smallest max_peers salt named :
  let '(found, truncated) := aggregate max_peers salt named in
  NoDup found.*2 /\ length found <= max_peers /\
  (forall p, p ∈ found.*2 -> p ∈ named) /\
  (forall p q, p ∈ found.*2 -> q ∈ named -> q ∉ found.*2 ->
     entry_lt (provider_rank salt p, p) (provider_rank salt q, q)) /\
  (truncated = false <-> forall p, p ∈ named -> p ∈ found.*2) /\
  (truncated = true -> length found = max_peers).
Proof.
  rewrite aggregate_spec. set (R := ranked salt named). pose proof (ranked_sorted salt named) as Hs.
  assert (forall p, p ∈ (take max_peers R).*2 <->
    (provider_rank salt p, p) ∈ take max_peers R) as Hfst.
  { intros p. split.
    - intros (x & -> & Hx)%list_elem_of_fmap. assert (x ∈ R) as (q & _ & ->)%elem_of_ranked; [|done].
      apply elem_of_take in Hx as (i & Hi & _). by eapply list_elem_of_lookup_2.
    - intros Hx. apply list_elem_of_fmap. by exists (provider_rank salt p, p). }
  assert (forall q, q ∈ named <-> (provider_rank salt q, q) ∈ R) as Hnamed.
  { intros q. unfold R. rewrite elem_of_ranked. split; [by exists q|].
    intros (p & Hp & Heq). by injection Heq as _ ->. }
  assert (forall x, x ∈ R <-> x ∈ take max_peers R \/ x ∈ drop max_peers R) as Hsplit.
  { intros x. rewrite <-elem_of_app. by rewrite take_drop. }
  split_and!.
  - rewrite fmap_take. eapply sublist_NoDup, sublist_take. apply ranked_snd_NoDup.
  - rewrite length_take. lia.
  - intros p Hp. apply Hnamed, Hsplit. left. by apply Hfst.
  - intros p q Hp Hq Hnq. rewrite Hfst in Hp, Hnq. apply Hnamed, Hsplit in Hq as [|Hq]; [done|].
    pose proof Hs as Hs'. rewrite <-(take_drop max_peers (ranked salt named)) in Hs'.
    apply StronglySorted_app in Hs' as (Hlt & _ & _). by apply Hlt.
  - rewrite bool_decide_eq_false. split.
    + intros Hle p Hp. apply Hfst. rewrite take_ge by lia. by apply Hnamed.
    + intros Hall Hlt. destruct (drop max_peers R) as [|x l] eqn:Ed.
      { apply (f_equal length) in Ed. rewrite length_drop in Ed. simpl in Ed. lia. }
      assert (x ∈ R) as Hx by (apply Hsplit; right; apply list_elem_of_here).
      assert (exists q, q ∈ named /\ x = (provider_rank salt q, q)) as (q & Hq & ->)
        by (by apply elem_of_ranked).
      apply Hall, Hfst in Hq. apply sorted_NoDup in Hs. fold R in Hs.
      rewrite <-(take_drop max_peers R) in Hs. apply NoDup_app in Hs as (_ & Hdis & _).
      apply (Hdis _ Hq). rewrite Ed. apply list_elem_of_here.
  - intros Hlt%bool_decide_eq_true. rewrite length_take. lia.
Qed.

End fanout.

(** ** MdnsAdmission *)

Section mdns.
Context {P : Type} `{Countable P}.

(** Instants and durations are nanoseconds. *)
Record MdnsAdmission := {
  md_cap : nat;
  md_window : Z;
  md_window_start : Z;
  md_admitted : gset P;
}.

Definition MdnsAdmission_new (cap : nat) (window now : Z) : MdnsAdmission :=
  {| md_cap := cap; md_window := window; md_window_start := now; md_admitted := ∅ |}.

(** MdnsAdmission::admit; `duration_since` is zero for an earlier instant. *)
Definition mdns_admit (m : MdnsAdmission) (peer : P) (now : Z) : MdnsAdmission * bool :=
  let m :=
    if (md_window m <=? Z.max 0 (now - md_window_start m))%Z then
      {| md_cap := md_cap m; md_window := md_window m; md_window_start := now; md_admitted := ∅ |}
    else m in
  if bool_decide (peer ∈ md_admitted m) then (m, true)
  else if bool_decide (md_cap m <= size (md_admitted m)) then (m, false)
  else ({| md_cap := md_cap m; md_window := md_window m; md_window_start := md_window_start m;
           md_admitted := {[peer]} ∪ md_admitted m |}, true).

(** A run over timed advertisements: the final gate and the peers acted on. *)
Fixpoint mdns_run (m : MdnsAdmission) (events : list (P * Z)) : MdnsAdmission * list P :=
  match events with
  | [] => (m, [])
  | (peer, now) :: rest =>
      let '(m, ok) := mdns_admit m peer now in
      let '(m, acted) := mdns_run m rest in
      (m, if ok then peer :: acted else acted)
  end.

Definition mdns_ok (m : MdnsAdmission) : Prop := size (md_admitted m) <= md_cap m.

Definition rolls (m : MdnsAdmission) (now : Z) : Prop :=
  (md_window m <= Z.max 0 (now - md_window_start m))%Z.

Lemma mdns_admit_spec m peer now :
  mdns_ok m ->
  let '(m', ok) := mdns_admit m peer now in
  mdns_ok m' /\ md_cap m' = md_cap m /\ md_window m' = md_window m /\
  (ok = true -> peer ∈ md_admitted m') /\
  (rolls m now -> md_window_start m' = now) /\
  (~ rolls m now -> md_window_start m' = md_window_start m /\ md_admitted m ⊆ md_admitted m').
Proof.
  unfold mdns_ok, rolls, mdns_admit. intros Hok.
  destruct (_ <=? _)%Z eqn:Er; bools; cbn [md_cap md_window md_window_start md_admitted].
  - rewrite bool_decide_false by set_solver. rewrite size_empty.
    case_bool_decide; cbn [md_cap md_window md_window_start md_admitted];
      split_and!; try done; try lia; try set_solver;
      rewrite ?size_union, ?size_singleton, ?size_empty by set_solver; lia.
  - case_bool_decide; [by split_and!; try done; lia|].
    case_bool_decide; simpl; split_and!; try done; try lia; try set_solver.
    rewrite size_union, size_singleton by set_solver. lia.
Qed.

(** Once the window starts inside the interval, it does not roll again. *)
Lemma mdns_run_inside (a : Z) events m :
  mdns_ok m -> (a <= md_window_start m)%Z ->
  Forall (fun e => a <= e.2 < a + md_window m)%Z events ->
  let '(m', acted) := mdns_run m events in
  mdns_ok m' /\ md_cap m' = md_cap m /\ md_admitted m ⊆ md_admitted m' /\
  (forall p, p ∈ acted -> p ∈ md_admitted m').
Proof.
  revert m. induction events as [|[peer now] events IH]; intros m Hok Ha Hin; cbn [mdns_run].
  { split_and!; try done. set_solver. }
  apply Forall_cons in Hin as [Hnow Hin]. simpl in Hnow.
  pose proof (mdns_admit_spec m peer now Hok) as Hs.
  destruct (mdns_admit m peer now) as [m1 ok]. destruct Hs as (Hok1 & Hc & Hw & Hp & _ & Hnr).
  assert (~ rolls m now) as Hroll by (unfold rolls; lia).
  destruct (Hnr Hroll) as [Hst Hsub]. specialize (IH m1 Hok1). rewrite Hst, Hw in IH.
  specialize (IH Ha Hin). destruct (mdns_run m1 events) as [m' acted].
  destruct IH as (? & ? & Hsub' & Hacted). split_and!; [done|congruence|set_solver|].
  intros p Hpin. destruct ok; [|by apply Hacted].
  apply elem_of_cons in Hpin as [->|]; [|by apply Hacted]. set_solver.
Qed.

Lemma mdns_run_interval (a : Z) events m :
  mdns_ok m -> Forall (fun e => a <= e.2 < a + md_window m)%Z events ->
  let '(m', acted) := mdns_run m events in
  mdns_ok m' /\ md_cap m' = md_cap m /\
  exists A : gset P, size A <= md_cap m /\ md_admitted m ⊆ A ∪ md_admitted m' /\
    forall p, p ∈ acted -> p ∈ A ∪ md_admitted m'.
Proof.
  revert m. induction events as [|[peer now] events IH]; intros m Hok Hin; cbn [mdns_run].
  { split_and!; try done. exists ∅. rewrite size_empty. split_and!; [lia|set_solver..]. }
  apply Forall_cons in Hin as [Hnow Hin]. simpl in Hnow.
  pose proof (mdns_admit_spec m peer now Hok) as Hs.
  destruct (mdns_admit m peer now) as [m1 ok]. destruct Hs as (Hok1 & Hc & Hw & Hp & Hr & Hnr).
  destruct (decide (md_window m <= Z.max 0 (now - md_window_start m))%Z) as [Hroll|Hroll].
  - pose proof (mdns_run_inside a events m1 Hok1) as Hin'. rewrite (Hr Hroll), Hw in Hin'.
    specialize (Hin' ltac:(lia) Hin). destruct (mdns_run m1 events) as [m' acted].
    destruct Hin' as (? & ? & Hsub & Hacted). split_and!; [done|congruence|].
    exists (md_admitted m). split_and!; [done|set_solver|].
    intros p Hpin. apply elem_of_union_r. destruct ok; [|by apply Hacted].
    apply elem_of_cons in Hpin as [->|]; [|by apply Hacted]. set_solver.
  - destruct (Hnr Hroll) as [Hst Hsub]. specialize (IH m1 Hok1). rewrite Hw in IH.
    specialize (IH Hin). destruct (mdns_run m1 events) as [m' acted].
    destruct IH as (? & ? & A & HA & Hadm & Hacted). split_and!; [done|congruence|].
    exists A. split_and!; [lia|set_solver|].
    intros p Hpin. destruct ok; [|by apply Hacted].
    apply elem_of_cons in Hpin as [->|]; [|by apply Hacted]. set_solver.
Qed.

(** An mDNS flood is bounded: whatever is advertised, the gate acts on at
    most [2 * cap] distinct peers within any time span shorter than the window
    (a fixed window may roll once inside it), and on at most [cap] while the
    window it started with lasts. *)
Theorem mdns_flood_bounded (a : Z) events m :
  mdns_ok m -> Forall (fun e => a <= e.2 < a + md_window m)%Z events ->
  size (list_to_set (mdns_run m events).2 : gset P) <= 2 * md_cap m /\
  ((a <= md_window_start m)%Z -> size (list_to_set (mdns_run m events).2 : gset P) <= md_cap m).
Proof.
  intros Hok Hin. split.
  - pose proof (mdns_run_interval a events m Hok Hin) as Hrun.
    destruct (mdns_run m events) as [m' acted]. destruct Hrun as (Hok' & Hc & A & HA & _ & Hacted).
    simpl. transitivity (size (A ∪ md_admitted m')).
    + apply subseteq_size. intros p Hp%elem_of_list_to_set. by apply Hacted.
    + pose proof (size_union_alt A (md_admitted m')) as ->. unfold mdns_ok in Hok'.
      pose proof (subseteq_size (md_admitted m' ∖ A) (md_admitted m') ltac:(set_solver)). lia.
  - intros Ha. pose proof (mdns_run_inside a events m Hok Ha Hin) as Hrun.
    destruct (mdns_run m events) as [m' acted]. destruct Hrun as (Hok' & Hc & _ & Hacted).
    simpl. transitivity (size (md_admitted m')).
    + apply subseteq_size. intros p Hp%elem_of_list_to_set. by apply Hacted.
    + unfold mdns_ok in Hok'. lia.
Qed.

End mdns.

(** ** Witnesses *)

(** Peers as naturals, with one-byte encodings. *)
Definition nat_peers : PeerOrd nat := {|
  peer_to_bytes := fun n => [as_u8 (Z.of_nat n)]; peer_ltb := Nat.ltb |}.

Lemma nat_peers_laws : @PeerOrdLaws nat nat_peers.
Proof.
  split; simpl; intros.
  - apply Nat.ltb_irrefl.
  - bools. apply Nat.ltb_lt. lia.
  - rewrite !Nat.ltb_lt. lia.
Qed.

Lemma fan_out_selects_smallest_witness :
  let '(found, truncated) := @aggregate nat nat_peers 2 7 [5; 1; 5; 9] in
  NoDup found.*2 /\ length found <= 2 /\
  (forall p, p ∈ found.*2 -> p ∈ [5; 1; 5; 9]) /\
  (forall p q, p ∈ found.*2 -> q ∈ [5; 1; 5; 9] -> q ∉ found.*2 ->
     @entry_lt nat nat_peers (@provider_rank nat nat_peers 7 p, p) (@provider_rank nat nat_peers 7 q, q)) /\
  (truncated = false <-> forall p, p ∈ [5; 1; 5; 9] -> p ∈ found.*2) /\
  (truncated = true -> length found = 2).
Proof. apply (@fan_out_selects_smallest nat nat_peers nat_peers_laws 2 7 [5; 1; 5; 9]). Defined.

Lemma mdns_flood_bounded_witness :
  size (list_to_set (mdns_run (MdnsAdmission_new 2 10 0) [(1, 0%Z); (2, 3%Z); (3, 4%Z); (1, 9%Z)]).2 : gset nat)
  <= 2 * 2.
Proof.
  apply (mdns_flood_bounded 0 [(1, 0%Z); (2, 3%Z); (3, 4%Z); (1, 9%Z)] (MdnsAdmission_new 2 10 0)).
  - vm_compute. lia.
  - repeat constructor; simpl; lia.
Defined.
