(* ===== verification/Lan.v ===== *)
(** * LAN confinement

    Models fabric-libp2p/src/lan.rs (IP classifiers, the multiaddr grammar, the
    dial veto), the confinement gates of fabric-libp2p/src/swarm.rs (identify
    addresses, the per-connection serve ledger, its gate and the round of the
    accept loop behind it, the relay reading of circuit addresses) and the listen grammar of daemon-libp2p/src/lib.rs.

    A multiaddr is the list of components its iterator yields; the components
    the sources never name are [OtherProtocol].  The theorems: the classifiers
    are membership in the private address blocks, the two grammars accept
    exactly single-hop direct LAN addresses, and the serve ledger is a set of
    (peer, connection) pairs. *)

From Stdlib Require Import Strings.Byte ZArith Lia.
From stdpp Require Import base sets gmap numbers strings list.
From S2P Require Import Prelude.

(** ** IP literals *)

(** std::net: an IPv4 address is four octets, an IPv6 address 128 bits. *)
Record Ipv4Addr := { oct0 : byte; oct1 : byte; oct2 : byte; oct3 : byte }.
Record Ipv6Addr := { v6_bits : Z }.
Inductive IpAddr := V4 (a : Ipv4Addr) | V6 (a : Ipv6Addr).

#[export] Instance Ipv4Addr_eq_dec : EqDecision Ipv4Addr.
Proof. solve_decision. Defined.
#[export] Instance Ipv6Addr_eq_dec : EqDecision Ipv6Addr.
Proof. solve_decision. Defined.

Definition v4_is_private (a : Ipv4Addr) : bool :=
  let b0 := u8_val (oct0 a) in let b1 := u8_val (oct1 a) in
  (b0 =? 10)%Z || ((b0 =? 172) && (16 <=? b1) && (b1 <=? 31))%Z || ((b0 =? 192) && (b1 =? 168))%Z.
Definition v4_is_loopback (a : Ipv4Addr) : bool := (u8_val (oct0 a) =? 127)%Z.
Definition v4_is_link_local (a : Ipv4Addr) : bool :=
  ((u8_val (oct0 a) =? 169) && (u8_val (oct1 a) =? 254))%Z.

(** `segments()[0]`: the top 16 bits. *)
Definition v6_segment0 (a : Ipv6Addr) : Z := Z.shiftr (v6_bits a) 112.
Definition v6_is_loopback (a : Ipv6Addr) : bool := (v6_bits a =? 1)%Z.

Definition ip_is_provably_private (ip : IpAddr) : bool :=
  match ip with
  | V4 v4 => v4_is_private v4
  | V6 v6 => (Z.land (v6_segment0 v6) 0xfe00 =? 0xfc00)%Z
  end.

Definition ip_is_lan_literal (ip : IpAddr) : bool :=
  match ip with
  | V4 v4 => v4_is_loopback v4 || v4_is_link_local v4 || ip_is_provably_private ip
  | V6 v6 =>
      let link_local := (Z.land (v6_segment0 v6) 0xffc0 =? 0xfe80)%Z in
      v6_is_loopback v6 || link_local || ip_is_provably_private ip
  end.

(** ** Multiaddrs *)

Section lan.
Context {P : Type} `{Countable P}.

Inductive Protocol :=
| Ip4 (a : Ipv4Addr)
| Ip6 (a : Ipv6Addr)
| Tcp (port : Z)
| Udp (port : Z)
| QuicV1
| P2p (peer : P)
| P2pCircuit
| OtherProtocol (name : list byte).

Abbreviation Multiaddr := (list Protocol).

Definition multiaddr_lan_provenance (comps : Multiaddr) : bool :=
  (* nothing may follow the optional peer id *)
  let ends rest := match rest with [] | [P2p _] => true | _ => false end in
  let transport rest :=
    match rest with
    | Tcp _ :: rest => ends rest
    | Udp _ :: QuicV1 :: rest => ends rest
    | _ => false
    end in
  match comps with
  | Ip4 v4 :: rest => if ip_is_lan_literal (V4 v4) then transport rest else false
  | Ip6 v6 :: rest => if ip_is_lan_literal (V6 v6) then transport rest else false
  | _ => false
  end.

(** The daemon's listen grammar, with its own copy of the classification. *)
Definition multiaddr_is_lan_only (protos : Multiaddr) : bool :=
  let classify ip :=
    match ip with
    | V4 v4 => v4_is_loopback v4 || v4_is_link_local v4 || ip_is_provably_private ip
    | V6 v6 =>
        let link_local := (Z.land (v6_segment0 v6) 0xffc0 =? 0xfe80)%Z in
        v6_is_loopback v6 || link_local || ip_is_provably_private ip
    end in
  match protos with
  | [Ip4 ip; Tcp _] => classify (V4 ip)
  | [Ip6 ip; Tcp _] => classify (V6 ip)
  | [Ip4 ip; Udp _; QuicV1] => classify (V4 ip)
  | [Ip6 ip; Udp _; QuicV1] => classify (V6 ip)
  | _ => false
  end.

(** ** The dial veto (LanDialGuard) *)

Definition handle_pending_outbound_connection (addresses : list Multiaddr) : result unit (list Multiaddr) :=
  if negb (bool_decide (addresses = [])) && negb (existsb multiaddr_lan_provenance addresses)
  then Err tt else Ok [].

Definition handle_established_outbound_connection (addr : Multiaddr) : result unit unit :=
  if multiaddr_lan_provenance addr then Ok tt else Err tt.

(** ** The identify gate *)

Definition identify_protocol_version_admitted (confined : bool) (advertised expected : list byte) : bool :=
  negb confined || bool_decide (advertised = expected).

Definition identify_admitted_addresses (confined : bool) (advertised expected : list byte)
    (listen_addrs : list Multiaddr) : list Multiaddr :=
  if negb (identify_protocol_version_admitted confined advertised expected) then []
  else List.filter (fun addr => negb confined || multiaddr_lan_provenance addr) listen_addrs.

(** ** The relay of a circuit address *)

Fixpoint circuit_relay_peer_from (previous_peer : option P) (address : Multiaddr) : option P :=
  match address with
  | [] => None
  | P2pCircuit :: _ => previous_peer
  | P2p peer :: rest => circuit_relay_peer_from (Some peer) rest
  | _ :: rest => circuit_relay_peer_from None rest
  end.

Definition circuit_relay_peer (address : Multiaddr) : option P := circuit_relay_peer_from None address.

Definition is_circuit_address (address : Multiaddr) : bool :=
  existsb (fun p => match p with P2pCircuit => true | _ => false end) address.

(** libp2p's ConnectedPoint, with the fields the worker reads. *)
Inductive ConnectedPoint :=
| Dialer (address : Multiaddr)
| Listener (local_addr send_back_addr : Multiaddr).

Definition endpoint_relay_peer (endpoint : ConnectedPoint) : option P :=
  circuit_relay_peer (match endpoint with Dialer address => address | Listener local_addr _ => local_addr end).

(** ** The serve ledger *)

Abbreviation ConnectionId := nat.
Abbreviation LanServeConns := (gmap P (gset ConnectionId)).

(** `entry(peer).or_default().insert(connection)` *)
Definition lan_record (conns : LanServeConns) (peer : P) (connection : ConnectionId) : LanServeConns :=
  <[peer := {[connection]} ∪ default ∅ (conns !! peer)]> conns.

(** Retire one connection, pruning an empty bucket. *)
Definition lan_retire (conns : LanServeConns) (peer : P) (connection : ConnectionId) : LanServeConns :=
  match conns !! peer with
  | Some ids =>
      let ids := ids ∖ {[connection]} in
      if bool_decide (ids = ∅) then delete peer conns else <[peer := ids]> conns
  | None => conns
  end.

Definition lan_serve_permitted (conns : option LanServeConns) (peer : P) (connection : ConnectionId) : bool :=
  match conns with
  | None => true
  | Some conns =>
      match conns !! peer with Some ids => bool_decide (connection ∈ ids) | None => false end
  end.

(** The fields of nar.rs' ServeGate the accept loop uses: the ceiling on
    concurrent serves, the shared count of those in flight, and a counter. *)
Record ServeGate := { max_concurrent_serves : option Z; inflight_serves : Z; declined_concurrency : Z }.

Inductive ServeCountAcquire := Unbounded | CountAdmitted | CountFull.
Inductive StreamAdmission := SpawnStream (permit : bool) | Decline.

(** The compare-and-swap loop as the one exchange that succeeds. *)
Definition try_acquire_serve_count (gate : ServeGate) : ServeGate * ServeCountAcquire :=
  match max_concurrent_serves gate with
  | None => (gate, Unbounded)
  | Some max =>
      let want := u64_saturating_add (inflight_serves gate) 1 in
      if (max <? want)%Z
      then ({| max_concurrent_serves := Some max; inflight_serves := inflight_serves gate;
               declined_concurrency := ((declined_concurrency gate + 1) mod (u64_max + 1))%Z |}, CountFull)
      else ({| max_concurrent_serves := Some max; inflight_serves := want;
               declined_concurrency := declined_concurrency gate |}, CountAdmitted)
  end.

Definition admit_accepted_stream (gate : option ServeGate) : option ServeGate * StreamAdmission :=
  match gate with
  | None => (None, SpawnStream false)
  | Some gate =>
      let '(gate, acquired) := try_acquire_serve_count gate in
      (Some gate, match acquired with Unbounded => SpawnStream false | CountAdmitted => SpawnStream true | CountFull => Decline end)
  end.

(** What the accept loop does with one stream: drop it at the LAN gate, drop it
    at the count gate, or hand it to a serve task. *)
Inductive StreamFate := RefusedLan | DeclinedFull | ServeSpawned (permit : bool).

(** One round of accept_loop_core. *)
Definition accept_stream (conns : option LanServeConns) (gate : option ServeGate) (peer : P) (connection : ConnectionId) :
    option ServeGate * StreamFate :=
  if negb (lan_serve_permitted conns peer connection) then (gate, RefusedLan)
  else match admit_accepted_stream gate with
       | (gate, SpawnStream permit) => (gate, ServeSpawned permit)
       | (gate, Decline) => (gate, DeclinedFull)
       end.

(** The ceiling of a gate is reached. *)
Definition gate_full (gate : option ServeGate) : bool :=
  match gate with
  | Some {| max_concurrent_serves := Some max; inflight_serves := held |} => (max <? u64_saturating_add held 1)%Z
  | _ => false
  end.

Lemma accept_stream_spawns conns gate peer c :
  (exists permit, (accept_stream conns gate peer c).2 = ServeSpawned permit) <->
  lan_serve_permitted conns peer c = true /\ gate_full gate = false.
Proof.
  unfold accept_stream, admit_accepted_stream, gate_full. destruct (lan_serve_permitted conns peer c); cbn [negb].
  2:{ split; [by intros [? [=]]|by intros [[=] _]]. }
  destruct gate as [[[max|] held d]|]; cbn; [|naive_solver..]. destruct (max <? _)%Z; naive_solver.
Qed.

Lemma accept_stream_declines conns gate peer c :
  (accept_stream conns gate peer c).2 = DeclinedFull <-> lan_serve_permitted conns peer c = true /\ gate_full gate = true.
Proof.
  unfold accept_stream, admit_accepted_stream, gate_full. destruct (lan_serve_permitted conns peer c); cbn [negb]; [|naive_solver].
  destruct gate as [[[max|] held d]|]; cbn; [|naive_solver..]. destruct (max <? _)%Z; naive_solver.
Qed.

Lemma permitted_record conns peer c p c' :
  lan_serve_permitted (Some (lan_record conns peer c)) p c' =
  bool_decide (p = peer /\ c' = c) || lan_serve_permitted (Some conns) p c'.
Proof.
  unfold lan_serve_permitted, lan_record. destruct (decide (p = peer)) as [->|Hp].
  - rewrite lookup_insert_eq. apply Bool.eq_iff_eq_true. rewrite orb_true_iff, !bool_decide_eq_true.
    rewrite elem_of_union, elem_of_singleton. destruct (conns !! peer); simpl.
    + rewrite bool_decide_eq_true. tauto.
    + rewrite elem_of_empty. naive_solver.
  - rewrite lookup_insert_ne by done. rewrite (bool_decide_false (p = peer /\ c' = c)) by (by intros [-> _]). done.
Qed.

Lemma permitted_retire conns peer c p c' :
  lan_serve_permitted (Some (lan_retire conns peer c)) p c' =
  negb (bool_decide (p = peer /\ c' = c)) && lan_serve_permitted (Some conns) p c'.
Proof.
  unfold lan_serve_permitted, lan_retire. destruct (conns !! peer) as [ids|] eqn:E.
  - destruct (decide (p = peer)) as [->|Hp].
    + rewrite E. apply Bool.eq_iff_eq_true. rewrite andb_true_iff, negb_true_iff, bool_decide_eq_true.
      rewrite bool_decide_eq_false. case_bool_decide as He.
      * rewrite lookup_delete_eq. assert (c' ∉ ids ∖ {[c]}) by (rewrite He; apply not_elem_of_empty).
        rewrite elem_of_difference, elem_of_singleton in *. naive_solver.
      * rewrite lookup_insert_eq, bool_decide_eq_true, elem_of_difference, elem_of_singleton. naive_solver.
    + rewrite (bool_decide_false (p = peer /\ c' = c)) by (by intros [-> _]). case_bool_decide; by simplify_map_eq.
  - destruct (decide (p = peer)) as [->|Hp].
    + rewrite E. by rewrite andb_false_r.
    + rewrite (bool_decide_false (p = peer /\ c' = c)) by (by intros [-> _]). done.
Qed.
End lan.

(** ** The address blocks *)

Definition v4_value (a : Ipv4Addr) : Z :=
  u8_val (oct0 a) * 2 ^ 24 + u8_val (oct1 a) * 2 ^ 16 + u8_val (oct2 a) * 2 ^ 8 + u8_val (oct3 a).

(** [addr] and [base], [width] bits each, agree on their first [prefix] bits. *)
Definition in_block (width addr : Z) (block : Z * Z) : bool :=
  (Z.shiftr addr (width - block.2) =? Z.shiftr block.1 (width - block.2))%Z.

(** 127/8, 169.254/16, 10/8, 172.16/12, 192.168/16 *)
Definition lan_v4_blocks : list (Z * Z) :=
  [(0x7f000000, 8); (0xa9fe0000, 16); (0x0a000000, 8); (0xac100000, 12); (0xc0a80000, 16)]%Z.
(** ::1/128, fe80::/10, fc00::/7 *)
Definition lan_v6_blocks : list (Z * Z) :=
  [(1, 128); (Z.shiftl 0xfe80 112, 10); (Z.shiftl 0xfc00 112, 7)]%Z.

Definition in_lan_blocks (ip : IpAddr) : bool :=
  match ip with
  | V4 a => existsb (in_block 32 (v4_value a)) lan_v4_blocks
  | V6 a => existsb (in_block 128 (v6_bits a)) lan_v6_blocks
  end.

Definition ip_ok (ip : IpAddr) : Prop :=
  match ip with V4 _ => True | V6 a => (0 <= v6_bits a < 2 ^ 128)%Z end.

Lemma eqb_iff (a b c d : Z) : (a = b <-> c = d) -> (a =? b)%Z = (c =? d)%Z.
Proof. intros Hiff. apply Bool.eq_iff_eq_true. by rewrite !Z.eqb_eq. Qed.

Lemma v4_blocks a : ip_is_lan_literal (V4 a) = in_lan_blocks (V4 a).
Proof.
  destruct a as [b0 b1 b2 b3]. cbn -[Z.shiftr Z.mul Z.pow].
  unfold v4_is_loopback, v4_is_link_local, v4_is_private, v4_value, in_block. cbn [oct0 oct1 oct2 oct3 fst snd].
  rewrite !Z.shiftr_div_pow2 by lia.
  pose proof (u8_val_range b0). pose proof (u8_val_range b1).
  pose proof (u8_val_range b2). pose proof (u8_val_range b3).
  apply Bool.eq_iff_eq_true. rewrite !orb_true_iff, !andb_true_iff, !Z.eqb_eq, !Z.leb_le.
  change (2 ^ (32 - 8))%Z with 16777216%Z. change (2 ^ (32 - 16))%Z with 65536%Z.
  change (2 ^ (32 - 12))%Z with 1048576%Z. 
  change (2 ^ 24)%Z with 16777216%Z. change (2 ^ 16)%Z with 65536%Z. change (2 ^ 8)%Z with 256%Z.
  split; intros; Z.to_euclidean_division_equations; lia.
Qed.

(** A mask test on a 16-bit segment is a prefix test. *)
Lemma segment_mask k mask base seg :
  (0 <= k <= 16)%Z -> mask = (Z.shiftl (Z.ones (16 - k)) k)%Z -> (0 <= seg < 2 ^ 16)%Z ->
  Z.land base mask = base ->
  (Z.land seg mask =? base)%Z = (Z.shiftr seg k =? Z.shiftr base k)%Z.
Proof.
  intros Hk -> Hseg Hbase. apply eqb_iff.
  assert (forall z, Z.shiftr (Z.land z (Z.shiftl (Z.ones (16 - k)) k)) k = Z.land (Z.shiftr z k) (Z.ones (16 - k))) as Hsh.
  { intros z. rewrite Z.shiftr_land, Z.shiftr_shiftl_l, Z.sub_diag, Z.shiftl_0_r by lia. done. }
  split; intros Heq.
  - rewrite <-Heq, Hsh. rewrite Z.land_ones by lia. symmetry. apply Z.mod_small.
    rewrite Z.shiftr_div_pow2 by lia. split; [apply Z.div_pos; lia|].
    apply Z.div_lt_upper_bound; [lia|]. rewrite <-Z.pow_add_r by lia. replace (k + (16 - k))%Z with 16%Z by lia. lia.
  - rewrite <-Hbase. apply Z.bits_inj'. intros n Hn. rewrite !Z.land_spec.
    destruct (Z.ltb_spec n k).
    + rewrite (Z.shiftl_spec_low _ _ n), !andb_false_r by lia. done.
    + f_equal. apply (f_equal (fun z => Z.testbit z (n - k))) in Heq.
      rewrite !Z.shiftr_spec in Heq by lia. by replace (n - k + k)%Z with n in Heq by lia.
Qed.

Lemma v6_segment_range a : ip_ok (V6 a) -> (0 <= v6_segment0 a < 2 ^ 16)%Z.
Proof.
  intros [Hlo Hhi]. unfold v6_segment0. rewrite Z.shiftr_div_pow2 by lia.
  split; [apply Z.div_pos; lia|]. apply Z.div_lt_upper_bound; [lia|]. 
  rewrite <-Z.pow_add_r by lia. done.
Qed.

Lemma v6_blocks a : ip_ok (V6 a) -> ip_is_lan_literal (V6 a) = in_lan_blocks (V6 a).
Proof.
  intros Hok. pose proof (v6_segment_range a Hok) as Hseg.
  cbn [ip_is_lan_literal ip_is_provably_private].
  rewrite (segment_mask 9 0xfe00 0xfc00) by (done || lia). rewrite (segment_mask 6 0xffc0 0xfe80) by (done || lia).
  unfold v6_segment0. rewrite !Z.shiftr_shiftr by lia.
  cbn [in_lan_blocks existsb lan_v6_blocks]. unfold in_block, v6_is_loopback. cbn [fst snd].
  rewrite Z.shiftr_0_r. by rewrite orb_false_r, orb_assoc.
Qed.

Lemma lan_literal_blocks ip : ip_ok ip -> ip_is_lan_literal ip = in_lan_blocks ip.
Proof. destruct ip; [by rewrite v4_blocks|apply v6_blocks]. Qed.

(** ** The grammar *)

Section grammar.
Context {P : Type}.

Definition ip_hop (ip : IpAddr) : @Protocol P := match ip with V4 a => Ip4 a | V6 a => Ip6 a end.

(** An address of exactly one LAN hop over a direct transport, then [rest]. *)
Definition direct_lan (addr rest : list (@Protocol P)) : Prop :=
  exists ip transport,
    addr = ip_hop ip :: transport ++ rest /\
    in_lan_blocks ip = true /\
    ((exists port, transport = [Tcp port]) \/ (exists port, transport = [Udp port; QuicV1])).

(** Every IPv6 literal is a 128-bit value. *)
Definition addr_ok (addr : list (@Protocol P)) : Prop :=
  Forall (fun p => match p with Ip6 a => ip_ok (V6 a) | _ => True end) addr.

Lemma provenance_shape addr :
  multiaddr_lan_provenance addr = true <->
  exists ip transport rest, addr = ip_hop ip :: transport ++ rest /\ ip_is_lan_literal ip = true /\
    ((exists port, transport = [Tcp port]) \/ (exists port, transport = [Udp port; QuicV1])) /\
    (rest = [] \/ exists peer, rest = [P2p peer]).
Proof.
  split.
  - intros Hp.
    assert (exists ip rest, addr = ip_hop ip :: rest /\ ip_is_lan_literal ip = true /\
      multiaddr_lan_provenance addr = match rest with
      | Tcp _ :: ([] | [P2p _]) | Udp _ :: QuicV1 :: ([] | [P2p _]) => true | _ => false end)
      as (ip & rest & -> & Hip & Heq).
    { unfold multiaddr_lan_provenance in *. destruct addr as [|[a|a| | | | | |] rest]; try done.
      - exists (V4 a), rest. destruct (ip_is_lan_literal (V4 a)); done.
      - exists (V6 a), rest. destruct (ip_is_lan_literal (V6 a)); done. }
    rewrite Heq in Hp. clear Heq. exists ip.
    destruct rest as [|[| |port|port| | | |] rest]; try done.
    + exists [Tcp port], rest. split_and!; [done..|eauto|].
      destruct rest as [|[] []]; try done; eauto.
    + destruct rest as [|[] rest]; try done. exists [Udp port; QuicV1], rest. split_and!; [done..|eauto|].
      destruct rest as [|[] []]; try done; eauto.
  - intros (ip & transport & rest & -> & Hip & [[port ->]|[port ->]] & [->|[peer ->]]);
      destruct ip; cbn in *; by rewrite Hip.
Qed.

Lemma lan_only_shape addr :
  multiaddr_is_lan_only addr = true <->
  exists ip transport, addr = ip_hop ip :: transport /\ ip_is_lan_literal ip = true /\
    ((exists port, transport = [Tcp port]) \/ (exists port, transport = [Udp port; QuicV1])).
Proof.
  split.
  - unfold multiaddr_is_lan_only.
    destruct addr as [|[a|a| | | | | |] [|[| |port|port| | | |] [|[] []]]]; try done; intros Hc.
    + exists (V4 a), [Tcp port]. eauto.
    + exists (V4 a), [Udp port; QuicV1]. eauto.
    + exists (V6 a), [Tcp port]. eauto.
    + exists (V6 a), [Udp port; QuicV1]. eauto.
  - by intros ([a|a] & transport & -> & Hip & [[port ->]|[port ->]]).
Qed.

Lemma hop_blocks ip rest : addr_ok (ip_hop ip :: rest) -> ip_is_lan_literal ip = in_lan_blocks ip.
Proof. intros [Hip _]%Forall_cons. apply lan_literal_blocks. by destruct ip. Qed.

(** The dial and serve predicate accepts exactly the addresses made of one
    IP literal in a private, loopback or link-local block, one TCP or QUIC-v1
    transport and at most one terminal peer id; the daemon's listen grammar,
    which classifies on its own, accepts exactly those without the peer id. So
    no accepted address carries a second hop, a relay or a name. *)
Theorem lan_grammar_exact (addr : list (@Protocol P)) :
  addr_ok addr ->
  (multiaddr_lan_provenance addr = true <-> direct_lan addr [] \/ exists peer, direct_lan addr [P2p peer]) /\
  (multiaddr_is_lan_only addr = true <-> direct_lan addr []).
Proof.
  intros Hok. rewrite provenance_shape, lan_only_shape. unfold direct_lan. split; split.
  - intros (ip & t & rest & -> & Hip & Ht & Hrest). rewrite (hop_blocks _ _ Hok) in Hip.
    destruct Hrest as [->|[peer ->]]; [left|right; exists peer]; by exists ip, t.
  - intros [(ip & t & -> & Hip & Ht)|(peer & ip & t & -> & Hip & Ht)];
      rewrite <-(hop_blocks _ _ Hok) in Hip; exists ip, t; eauto 10.
  - intros (ip & t & -> & Hip & Ht). rewrite (hop_blocks _ _ Hok) in Hip. exists ip, t.
    by rewrite app_nil_r.
  - intros (ip & t & -> & Hip & Ht). rewrite app_nil_r in *. rewrite <-(hop_blocks _ _ Hok) in Hip. by exists ip, t.
Qed.
End grammar.

(** The address whose first hop is private and whose dialed hop is public is refused. *)
Definition private_v4 : Ipv4Addr := {| oct0 := x0a; oct1 := x01; oct2 := x02; oct3 := x03 |}.
Definition public_v4 : Ipv4Addr := {| oct0 := x08; oct1 := x08; oct2 := x08; oct3 := x08 |}.
Definition compound_addr : list (@Protocol nat) :=
  [Ip4 private_v4; Tcp 1; Ip4 public_v4; Tcp 4001; P2p 7].

Lemma lan_grammar_exact_witness :
  multiaddr_lan_provenance compound_addr = false /\
  ~ (direct_lan compound_addr [] \/ exists peer, direct_lan compound_addr [P2p peer]).
Proof.
  split; [reflexivity|].
  rewrite <-(proj1 (lan_grammar_exact compound_addr ltac:(repeat constructor))). by vm_compute.
Defined.
