(* ===== verification/SockAddr.v ===== *)
(** * Socket addresses and their text form

    The part of std::net the node records of fabric-iroh use: IP predicates,
    `SocketAddr`, its `Display` and `FromStr`, and the derived order.  The
    parser is the recursive-descent parser of the standard library, one
    definition per production.  The theorem of this file is that parsing
    inverts printing, IPv6 compression and IPv4-mapped addresses included, for
    every address without a flow label (the text form has no place for one). *)

From Stdlib Require Import Strings.Byte ZArith Lia.
From stdpp Require Import base numbers strings list.
From S2P Require Import Prelude Hex Text Lan.

(** ** Addresses *)

Inductive SocketAddr :=
| SockV4 (ip : Ipv4Addr) (port : Z)
| SockV6 (ip : Ipv6Addr) (port flowinfo scope_id : Z).

#[export] Instance SocketAddr_eq_dec : EqDecision SocketAddr.
Proof. solve_decision. Defined.

Definition sock_port (a : SocketAddr) : Z :=
  match a with SockV4 _ p => p | SockV6 _ p _ _ => p end.
Definition sock_ip (a : SocketAddr) : IpAddr :=
  match a with SockV4 ip _ => V4 ip | SockV6 ip _ _ _ => V6 ip end.

Definition v4_octets (a : Ipv4Addr) : list Z :=
  [u8_val (oct0 a); u8_val (oct1 a); u8_val (oct2 a); u8_val (oct3 a)].
Definition v4_of_octets (a b c d : Z) : Ipv4Addr :=
  {| oct0 := as_u8 a; oct1 := as_u8 b; oct2 := as_u8 c; oct3 := as_u8 d |}.

Definition v4_is_unspecified (a : Ipv4Addr) : bool := bool_decide (v4_octets a = [0; 0; 0; 0]%Z).
Definition v4_is_multicast (a : Ipv4Addr) : bool :=
  ((224 <=? u8_val (oct0 a)) && (u8_val (oct0 a) <=? 239))%Z.
Definition v4_is_broadcast (a : Ipv4Addr) : bool := bool_decide (v4_octets a = [255; 255; 255; 255]%Z).

(** `Ipv6Addr::segments` and its inverse: [n] groups of 16 bits, high first. *)
Fixpoint be_groups (n : nat) (z : Z) : list Z :=
  match n with
  | O => []
  | S n' => ((z / 65536 ^ Z.of_nat n') mod 65536)%Z :: be_groups n' z
  end.
Definition v6_segments (a : Ipv6Addr) : list Z := be_groups 8 (v6_bits a).
Definition of_segments (l : list Z) : Z := foldl (fun acc s => acc * 65536 + s)%Z 0%Z l.
Definition v6_of_segments (l : list Z) : Ipv6Addr := {| v6_bits := of_segments l |}.

Definition v6_is_unspecified (a : Ipv6Addr) : bool := (v6_bits a =? 0)%Z.
Definition v6_is_multicast (a : Ipv6Addr) : bool := (Z.land (v6_segment0 a) 0xff00 =? 0xff00)%Z.
Definition v6_is_unicast_link_local (a : Ipv6Addr) : bool :=
  (Z.land (v6_segment0 a) 0xffc0 =? 0xfe80)%Z.

(** `Ipv6Addr::to_ipv4_mapped`: ::ffff:a.b.c.d *)
Definition to_ipv4_mapped (a : Ipv6Addr) : option Ipv4Addr :=
  if (v6_bits a / 2 ^ 32 =? 65535)%Z then
    let z := (v6_bits a mod 2 ^ 32)%Z in
    Some (v4_of_octets (z / 2 ^ 24) (z / 2 ^ 16) (z / 2 ^ 8) z)
  else None.

Definition ip_is_unspecified (ip : IpAddr) : bool :=
  match ip with V4 a => v4_is_unspecified a | V6 a => v6_is_unspecified a end.
Definition ip_is_multicast (ip : IpAddr) : bool :=
  match ip with V4 a => v4_is_multicast a | V6 a => v6_is_multicast a end.

(** The range each field has by its type. *)
Definition sock_ok (a : SocketAddr) : Prop :=
  match a with
  | SockV4 _ p => (0 <= p <= 65535)%Z
  | SockV6 ip p f s =>
      (0 <= v6_bits ip < 2 ^ 128)%Z /\ (0 <= p <= 65535)%Z /\ u32_ok f /\ u32_ok s
  end.
#[export] Instance sock_ok_dec a : Decision (sock_ok a).
Proof. destruct a; apply _. Defined.

(** The derived order: V4 before V6, then field by field. *)
Definition sock_key (a : SocketAddr) : list Z :=
  match a with
  | SockV4 ip p => 0%Z :: v4_octets ip ++ [p]
  | SockV6 ip p f s => [1; v6_bits ip; p; f; s]%Z
  end.
Fixpoint zs_ltb (a b : list Z) : bool :=
  match a, b with
  | _, [] => false
  | [], _ :: _ => true
  | x :: a', y :: b' => if (x <? y)%Z then true else if (y <? x)%Z then false else zs_ltb a' b'
  end.
Definition sock_ltb (a b : SocketAddr) : bool := zs_ltb (sock_key a) (sock_key b).

(** ** Display *)

Definition dot : byte := x2e.
Definition colon : byte := x3a.

(** `{:x}` of a u16 *)
Fixpoint show_hex_fuel (fuel : nat) (n : Z) (acc : list byte) : list byte :=
  match fuel with
  | O => acc
  | S f =>
      let c := as_u8 (if (n mod 16 <? 10)%Z then 48 + n mod 16 else 87 + n mod 16) in
      if (n <? 16)%Z then c :: acc else show_hex_fuel f (n / 16) (c :: acc)
  end.
Definition show_hex (n : Z) : list byte := show_hex_fuel 4 n [].

Definition show_v4 (a : Ipv4Addr) : list byte :=
  show_u64 (u8_val (oct0 a)) ++ [dot] ++ show_u64 (u8_val (oct1 a)) ++ [dot]
  ++ show_u64 (u8_val (oct2 a)) ++ [dot] ++ show_u64 (u8_val (oct3 a)).

(** `fmt_subslice` *)
Fixpoint show_tail (gs : list Z) : list byte :=
  match gs with [] => [] | g :: gs' => [colon] ++ show_hex g ++ show_tail gs' end.
Definition show_groups (gs : list Z) : list byte :=
  match gs with [] => [] | g :: gs' => show_hex g ++ show_tail gs' end.

(** The first longest run of zero segments: (start, length). *)
Fixpoint longest_zeroes (i : nat) (current longest : nat * nat) (gs : list Z) : nat * nat :=
  match gs with
  | [] => longest
  | g :: gs' =>
      if (g =? 0)%Z then
        let current := ((if decide (current.2 = 0) then i else current.1), S current.2) in
        longest_zeroes (S i) current (if longest.2 <? current.2 then current else longest) gs'
      else longest_zeroes (S i) (0, 0) longest gs'
  end.

Definition show_v6 (a : Ipv6Addr) : list byte :=
  match to_ipv4_mapped a with
  | Some v4 => str "::ffff:" ++ show_v4 v4
  | None =>
      let segs := v6_segments a in
      let '(start, len) := longest_zeroes 0 (0, 0) (0, 0) segs in
      if 1 <? len then
        show_groups (take start segs) ++ str "::" ++ show_groups (drop (start + len) segs)
      else show_groups segs
  end.

Definition show_sock (a : SocketAddr) : list byte :=
  match a with
  | SockV4 ip p => show_v4 ip ++ [colon] ++ show_u64 p
  | SockV6 ip p _ scope =>
      str "[" ++ show_v6 ip
      ++ (if (scope =? 0)%Z then [] else str "%" ++ show_u64 scope)
      ++ str "]:" ++ show_u64 p
  end.

(** ** The parser of core::net *)

Definition to_digit (radix : Z) (b : byte) : option Z :=
  match persist_hex.to_digit16 b with
  | Some d => if (d <? radix)%Z then Some d else None
  | None => None
  end.

(** The digit loop of `read_number`.  With a digit bound the value cannot leave
    the u32 it is gathered in; without one every step is checked. *)
Fixpoint read_digits (radix max : Z) (max_digits : option nat) (acc : Z) (count : nat) (s : list byte) :
    option (Z * nat * list byte) :=
  match s with
  | c :: t =>
      match to_digit radix c with
      | Some d =>
          let v := (acc * radix + d)%Z in
          match max_digits with
          | Some m => if m <? S count then None else read_digits radix max max_digits v (S count) t
          | None => if (v <=? max)%Z then read_digits radix max max_digits v (S count) t else None
          end
      | None => Some (acc, count, s)
      end
  | [] => Some (acc, count, [])
  end.

Definition read_number (radix max : Z) (max_digits : option nat) (allow_zero_prefix : bool) (s : list byte) :
    option (Z * list byte) :=
  let has_leading_zero := bool_decide (head s = Some x30) in
  '(v, count, rest) ← read_digits radix max max_digits 0 0 s;
  if count =? 0 then None
  else if negb allow_zero_prefix && has_leading_zero && (1 <? count) then None
  else if (v <=? max)%Z then Some (v, rest) else None.

Definition read_given_char (c : byte) (s : list byte) : option (list byte) := strip_prefix [c] s.

(** `read_separator(sep, index, inner)`: the separator before all but the first. *)
Definition read_separator {A} (sep : byte) (first : bool) (inner : list byte -> option (A * list byte))
    (s : list byte) : option (A * list byte) :=
  if first then inner s else s' ← read_given_char sep s; inner s'.

Definition read_octet : list byte -> option (Z * list byte) := read_number 10 255 (Some 3) false.

Definition read_ipv4_addr (s : list byte) : option (Ipv4Addr * list byte) :=
  '(a, s) ← read_separator dot true read_octet s;
  '(b, s) ← read_separator dot false read_octet s;
  '(c, s) ← read_separator dot false read_octet s;
  '(d, s) ← read_separator dot false read_octet s;
  Some (v4_of_octets a b c d, s).

(** `read_groups` over a slice with [remaining] slots left: the groups read,
    whether they end in an IPv4 address, and the rest. *)
Fixpoint read_groups (remaining : nat) (first : bool) (s : list byte) : list Z * bool * list byte :=
  match remaining with
  | O => ([], false, s)
  | S r =>
      match (if r =? 0 then None else read_separator colon first read_ipv4_addr s) with
      | Some (v4, s') =>
          ([u8_val (oct0 v4) * 256 + u8_val (oct1 v4); u8_val (oct2 v4) * 256 + u8_val (oct3 v4)]%Z, true, s')
      | None =>
          match read_separator colon first (read_number 16 65535 (Some 4) true) s with
          | Some (g, s') => let '(gs, v4, s'') := read_groups r false s' in (g :: gs, v4, s'')
          | None => ([], false, s)
          end
      end
  end.

Definition read_ipv6_addr (s : list byte) : option (Ipv6Addr * list byte) :=
  let '(hd, hd_ipv4, s) := read_groups 8 true s in
  if length hd =? 8 then Some (v6_of_segments hd, s)
  else if hd_ipv4 then None
  else
    s ← read_given_char colon s;
    s ← read_given_char colon s;
    let '(tl, _, s) := read_groups (8 - (length hd + 1)) true s in
    Some (v6_of_segments (hd ++ replicate (8 - length hd - length tl) 0%Z ++ tl), s).

Definition read_port (s : list byte) : option (Z * list byte) :=
  s ← read_given_char colon s; read_number 10 65535 None true s.

Definition read_scope_id (s : list byte) : option (Z * list byte) :=
  s ← read_given_char x25 s; read_number 10 u32_max None true s.

Definition read_socket_addr_v4 (s : list byte) : option (SocketAddr * list byte) :=
  '(ip, s) ← read_ipv4_addr s;
  '(port, s) ← read_port s;
  Some (SockV4 ip port, s).

Definition read_socket_addr_v6 (s : list byte) : option (SocketAddr * list byte) :=
  s ← read_given_char x5b s;
  '(ip, s) ← read_ipv6_addr s;
  let '(scope, s) := match read_scope_id s with Some r => r | None => (0%Z, s) end in
  s ← read_given_char x5d s;
  '(port, s) ← read_port s;
  Some (SockV6 ip port 0 scope, s).

(** `s.parse::<SocketAddr>()`: the whole string must be consumed. *)
Definition parse_sock (s : list byte) : option SocketAddr :=
  match match read_socket_addr_v4 s with Some r => Some r | None => read_socket_addr_v6 s end with
  | Some (a, []) => Some a
  | _ => None
  end.

(** ** Numbers: what is printed is read back *)

(** [spelled radix n s]: [s] is [n] in the given radix without leading zeros. *)
Inductive spelled (radix : Z) : Z -> list byte -> Prop :=
| spelled_one n c :
    to_digit radix c = Some n -> (c = x30 -> n = 0%Z) -> spelled radix n [c]
| spelled_more q s c d :
    spelled radix q s -> (0 < q)%Z -> to_digit radix c = Some d ->
    spelled radix (q * radix + d) (s ++ [c]).

Definition stops (radix : Z) (s : list byte) : Prop :=
  match s with [] => True | c :: _ => to_digit radix c = None end.

Lemma to_digit_range radix c d : to_digit radix c = Some d -> (0 <= d < radix)%Z.
Proof.
  unfold to_digit. intros Hd.
  assert (forall x, persist_hex.to_digit16 c = Some x -> 0 <= x)%Z as H0.
  { intros x. unfold persist_hex.to_digit16.
    destruct ((48 <=? _)%Z && _) eqn:E1; [intros [= <-]; bools; lia|].
    destruct ((97 <=? _)%Z && _) eqn:E2; [intros [= <-]; bools; lia|].
    destruct ((65 <=? _)%Z && _) eqn:E3; [intros [= <-]; bools; lia|done]. }
  destruct (persist_hex.to_digit16 c) as [x|]; [|done].
  destruct (Z.ltb_spec x radix); [|done]. injection Hd as <-. split; [by apply H0|done].
Qed.

Lemma spelled_range radix n s : spelled radix n s -> (0 < radix)%Z -> (0 <= n)%Z.
Proof.
  induction 1 as [n c Hd _|q s c d _ IH Hq Hd]; intros; apply to_digit_range in Hd; nia.
Qed.

Lemma spelled_length radix n s m :
  spelled radix n s -> (1 < radix)%Z -> (n < radix ^ Z.of_nat m)%Z -> m <> 0 -> length s <= m.
Proof.
  intros Hs H1. revert m. induction Hs as [n c Hd _|q s c d Hs IH Hq Hd]; intros m Hn Hm.
  - simpl. lia.
  - rewrite length_app. simpl. apply to_digit_range in Hd. destruct m as [|m]; [done|].
    rewrite Nat2Z.inj_succ, Z.pow_succ_r in Hn by lia.
    assert (q < radix ^ Z.of_nat m)%Z by nia.
    destruct m as [|m]; [rewrite Z.pow_0_r in *; lia|].
    specialize (IH (S m)). lia.
Qed.

(** One more digit: reading [s ++ [c]] is reading [s], then [c]. *)
Lemma read_digits_spelled radix max md n s t :
  spelled radix n s -> (1 < radix)%Z -> (n <= max)%Z ->
  (forall m, md = Some m -> (n < radix ^ Z.of_nat m)%Z /\ m <> 0) ->
  read_digits radix max md 0 0 (s ++ t) = read_digits radix max md n (length s) t.
Proof.
  intros Hs H1. revert t. induction Hs as [n c Hd _|q s c d Hs IH Hq Hd]; intros t Hmax Hm;
    pose proof (to_digit_range _ _ _ Hd).
  - cbn [app read_digits length]. rewrite Hd. rewrite Z.mul_0_l, Z.add_0_l.
    destruct md as [m|].
    + destruct (Hm m) as [_ ?]; [done|]. destruct (Nat.ltb_spec m 1); [lia|done].
    + by rewrite (proj2 (Z.leb_le _ _)).
  - rewrite <-app_assoc. rewrite IH; [|nia|].
    2: { intros m Em. destruct (Hm m Em). split; [nia|done]. }
    cbn [app read_digits]. rewrite Hd, length_app. cbn [length].
    rewrite Nat.add_1_r. destruct md as [m|].
    + destruct (Hm m) as [Hlt Hm0]; [done|].
      pose proof (spelled_length radix _ (s ++ [c]) m (spelled_more _ _ _ _ _ Hs Hq Hd) H1 Hlt Hm0) as Hl.
      rewrite length_app in Hl. simpl in Hl. destruct (Nat.ltb_spec m (S (length s))); [lia|done].
    + by rewrite (proj2 (Z.leb_le _ _)).
Qed.

Lemma spelled_nonempty radix n s : spelled radix n s -> length s <> 0.
Proof. induction 1; rewrite ?length_app; simpl; lia. Qed.

Lemma spelled_zero radix n s :
  spelled radix n s -> (0 < radix)%Z -> head s = Some x30 -> length s = 1.
Proof.
  intros Hs H0 Hh.
  assert (head s = Some x30 -> n = 0%Z /\ length s = 1) as H.
  { clear Hh. induction Hs as [n c _ H|q s c d Hs IH Hq Hd]; intros Hh.
    - injection Hh as ->. split; [by apply H|done].
    - pose proof (spelled_nonempty _ _ _ Hs). destruct s as [|x s]; [done|].
      destruct (IH Hh). lia. }
  by apply H.
Qed.

Lemma read_number_spelled radix max md az n s rest :
  spelled radix n s -> stops radix rest -> (1 < radix)%Z -> (n <= max)%Z ->
  (forall m, md = Some m -> (n < radix ^ Z.of_nat m)%Z /\ m <> 0) ->
  read_number radix max md az (s ++ rest) = Some (n, rest).
Proof.
  intros Hs Hr H1 Hmax Hm. unfold read_number.
  rewrite (read_digits_spelled _ _ _ n s rest) by done.
  assert (read_digits radix max md n (length s) rest = Some (n, length s, rest)) as ->.
  { destruct rest as [|c rest]; [done|]. simpl in Hr. cbn [read_digits]. by rewrite Hr. }
  cbn [mbind option_bind]. pose proof (spelled_nonempty _ _ _ Hs) as Hne.
  destruct (Nat.eqb_spec (length s) 0); [done|].
  destruct (bool_decide (head (s ++ rest) = Some x30)) eqn:Hz.
  - apply bool_decide_eq_true in Hz. destruct s as [|c s]; [done|].
    rewrite (spelled_zero radix n (c :: s)); [|done|lia|done].
    rewrite andb_false_r. by rewrite (proj2 (Z.leb_le _ _)).
  - rewrite andb_false_r, andb_false_l. by rewrite (proj2 (Z.leb_le _ _)).
Qed.

Lemma digit_to_digit d : (0 <= d < 10)%Z -> to_digit 10 (digit d) = Some d /\ (digit d = x30 -> d = 0%Z).
Proof.
  intros Hd. assert (d ∈ seqZ 0 10) as Hin by (apply elem_of_seqZ; lia).
  revert Hin. change (seqZ 0 10) with [0;1;2;3;4;5;6;7;8;9]%Z.
  rewrite !elem_of_cons, elem_of_nil. intros H. repeat destruct H as [->|H]; try done; split; done.
Qed.

Definition hex_digit (d : Z) : byte := as_u8 (if (d <? 10)%Z then 48 + d else 87 + d).

Lemma hex_to_digit d : (0 <= d < 16)%Z -> to_digit 16 (hex_digit d) = Some d /\ (hex_digit d = x30 -> d = 0%Z).
Proof.
  intros Hd. assert (d ∈ seqZ 0 16) as Hin by (apply elem_of_seqZ; lia).
  revert Hin. change (seqZ 0 16) with [0;1;2;3;4;5;6;7;8;9;10;11;12;13;14;15]%Z.
  rewrite !elem_of_cons, elem_of_nil. intros H. repeat destruct H as [->|H]; try done; split; done.
Qed.

Lemma show_dec_spelled fuel n :
  (0 <= n < 10 ^ Z.of_nat fuel)%Z -> fuel <> 0 -> spelled 10 n (show_dec_fuel fuel n []).
Proof.
  revert n. induction fuel as [|f IH]; intros n Hn Hf; [done|]. cbn [show_dec_fuel].
  destruct (Z.ltb_spec n 10).
  - destruct (digit_to_digit n); [lia|]. by apply spelled_one.
  - rewrite Nat2Z.inj_succ, Z.pow_succ_r in Hn by lia. rewrite show_dec_fuel_acc.
    destruct f as [|f']; [simpl in Hn; lia|].
    destruct (digit_to_digit (n mod 10)) as [Hd _]; [by apply Z.mod_pos_bound|].
    pose proof (Z.div_mod n 10). replace n with (n / 10 * 10 + n mod 10)%Z at 1 by lia.
    apply spelled_more; [|apply Z.div_str_pos; lia|done].
    apply IH; [|done]. split; [apply Z.div_pos; lia|apply Z.div_lt_upper_bound; lia].
Qed.

Lemma show_u64_spelled n : u64_ok n -> spelled 10 n (show_u64 n).
Proof.
  unfold u64_ok, u64_max. intros Hn. apply show_dec_spelled; [|done].
  change (10 ^ Z.of_nat 20)%Z with 100000000000000000000%Z. lia.
Qed.

Lemma show_hex_fuel_acc fuel n acc : show_hex_fuel fuel n acc = show_hex_fuel fuel n [] ++ acc.
Proof.
  revert n acc. induction fuel as [|f IH]; intros n acc; cbn [show_hex_fuel]; [done|].
  destruct (n <? 16)%Z; [done|]. rewrite IH, (IH _ [_]). by rewrite <-app_assoc.
Qed.

Lemma show_hex_fuel_spelled fuel n :
  (0 <= n < 16 ^ Z.of_nat fuel)%Z -> fuel <> 0 -> spelled 16 n (show_hex_fuel fuel n []).
Proof.
  revert n. induction fuel as [|f IH]; intros n Hn Hf; [done|]. cbn [show_hex_fuel].
  fold (hex_digit (n mod 16)).
  destruct (hex_to_digit (n mod 16)) as [Hd Hz]; [by apply Z.mod_pos_bound|].
  destruct (Z.ltb_spec n 16).
  - rewrite Z.mod_small in * by lia. by apply spelled_one.
  - rewrite Nat2Z.inj_succ, Z.pow_succ_r in Hn by lia. rewrite show_hex_fuel_acc.
    destruct f as [|f']; [simpl in Hn; lia|].
    pose proof (Z.div_mod n 16). replace n with (n / 16 * 16 + n mod 16)%Z at 1 by lia.
    apply spelled_more; [|apply Z.div_str_pos; lia|done].
    apply IH; [|done]. split; [apply Z.div_pos; lia|apply Z.div_lt_upper_bound; lia].
Qed.

Lemma show_hex_spelled n : (0 <= n <= 65535)%Z -> spelled 16 n (show_hex n).
Proof. intros. apply show_hex_fuel_spelled; [|done]. change (16 ^ Z.of_nat 4)%Z with 65536%Z. lia. Qed.

(** ** Addresses: what is printed is read back *)

Lemma u8_u64_ok b : u64_ok (u8_val b).
Proof. pose proof (u8_val_range b). unfold u64_ok, u64_max. lia. Qed.

Lemma read_octet_show b rest : stops 10 rest -> read_octet (show_u64 (u8_val b) ++ rest) = Some (u8_val b, rest).
Proof.
  intros Hr. pose proof (u8_val_range b). apply read_number_spelled; try done; try lia.
  - apply show_u64_spelled, u8_u64_ok.
  - intros m [= <-]. split; [|done]. change (10 ^ Z.of_nat 3)%Z with 1000%Z. lia.
Qed.

Lemma read_ipv4_show a rest : stops 10 rest -> read_ipv4_addr (show_v4 a ++ rest) = Some (a, rest).
Proof.
  intros Hr. destruct a as [a b c d]. unfold read_ipv4_addr, show_v4. cbn [oct0 oct1 oct2 oct3].
  rewrite <-!app_assoc. unfold read_separator.
  do 3 (rewrite read_octet_show by done; cbn [mbind option_bind];
        unfold read_given_char; rewrite strip_prefix_app; cbn [mbind option_bind]).
  rewrite read_octet_show by done. cbn [mbind option_bind].
  unfold v4_of_octets. by rewrite !as_u8_val.
Qed.

(** The IPv4 alternative is refused wherever no dot follows the first number. *)
Definition decimal (c : byte) : bool := bool_decide (is_Some (to_digit 10 c)).
Fixpoint after_decimals (s : list byte) : list byte :=
  match s with c :: t => if decimal c then after_decimals t else s | [] => [] end.

Lemma read_digits_after radix max md acc count s v k rest :
  radix = 10%Z -> read_digits radix max md acc count s = Some (v, k, rest) -> rest = after_decimals s.
Proof.
  intros ->. revert acc count. induction s as [|c s IH]; intros acc count; simpl; [congruence|].
  unfold decimal. destruct (to_digit 10 c) as [d|] eqn:Hd.
  - rewrite bool_decide_true by eauto. destruct md as [m|].
    + destruct (m <? S count); [done|apply IH].
    + destruct (_ <=? _)%Z; [apply IH|done].
  - rewrite bool_decide_false by (by intros [? ?]). congruence.
Qed.

Lemma read_ipv4_no_dot s : head (after_decimals s) <> Some dot -> read_ipv4_addr s = None.
Proof.
  intros Hd. unfold read_ipv4_addr, read_separator, read_octet, read_number.
  destruct (read_digits 10 255 (Some 3) 0 0 s) as [[[v k] rest]|] eqn:Hr; [|done].
  apply read_digits_after in Hr as ->; [|done]. cbn [mbind option_bind].
  destruct (k =? 0); [done|]. destruct (_ && (1 <? k)); [done|]. destruct (v <=? 255)%Z; [|done].
  cbn [mbind option_bind]. destruct (after_decimals s) as [|c t]; [done|].
  unfold read_given_char. cbn [strip_prefix]. rewrite decide_False; [done|].
  intros <-. by apply Hd.
Qed.

(** Where a list of groups may end inside an address. *)
Definition group_end (s : list byte) : Prop :=
  match s with
  | [] => True
  | c :: t => c = x5d \/ c = x25 \/ (c = colon /\ exists t', t = colon :: t')
  end.

Lemma group_end_stops s : group_end s -> stops 16 s.
Proof. destruct s as [|c t]; simpl; [done|]. by intros [->|[->|[-> _]]]. Qed.

Lemma after_decimals_app s rest :
  Forall (fun c => is_Some (to_digit 16 c)) s -> (match rest with [] => True | c :: _ => to_digit 10 c = None end) ->
  after_decimals (s ++ rest) = rest \/
  exists c t, after_decimals (s ++ rest) = c :: t /\ is_Some (to_digit 16 c).
Proof.
  intros Hs Hr. induction Hs as [|c s Hc Hs IH]; cbn [app after_decimals].
  - left. destruct rest as [|c t]; [done|]. cbn. unfold decimal.
    rewrite bool_decide_false; [done|]. rewrite Hr. by intros [? ?].
  - destruct (decimal c); [done|]. right. by eauto.
Qed.

Lemma spelled_digits radix n s : spelled radix n s -> Forall (fun c => is_Some (to_digit radix c)) s.
Proof. induction 1; [repeat constructor; eauto|]. apply Forall_app. split; [done|]. repeat constructor. eauto. Qed.

Lemma stops_16_10 s : stops 16 s -> stops 10 s.
Proof.
  destruct s as [|c t]; [done|]. simpl. unfold to_digit.
  destruct (persist_hex.to_digit16 c) as [d|]; [|done].
  destruct (Z.ltb_spec d 16), (Z.ltb_spec d 10); done || lia.
Qed.

Lemma ipv4_not_hex g rest :
  (0 <= g <= 65535)%Z -> stops 16 rest -> head rest <> Some dot ->
  read_ipv4_addr (show_hex g ++ rest) = None.
Proof.
  intros Hg Hs Hd. apply read_ipv4_no_dot.
  destruct (after_decimals_app (show_hex g) rest) as [->|(c & t & -> & Hc)]; [| |done|].
  - by eapply spelled_digits, show_hex_spelled.
  - by apply stops_16_10.
  - simpl. intros [= ->]. by destruct Hc.
Qed.

Lemma read_group_show g rest :
  (0 <= g <= 65535)%Z -> stops 16 rest ->
  read_number 16 65535 (Some 4) true (show_hex g ++ rest) = Some (g, rest).
Proof.
  intros Hg Hr. apply read_number_spelled; try done; try lia.
  - by apply show_hex_spelled.
  - intros m [= <-]. split; [|done]. change (16 ^ Z.of_nat 4)%Z with 65536%Z. lia.
Qed.

(** One group is read and the rest is left to the recursion. *)
Lemma read_groups_cons first r g t :
  (0 <= g <= 65535)%Z -> stops 16 t -> head t <> Some dot ->
  read_groups (S r) first ((if first then [] else [colon]) ++ show_hex g ++ t)
  = (let '(gs, v4, s) := read_groups r false t in (g :: gs, v4, s)).
Proof.
  intros Hg Hs Hd. cbn [read_groups]. unfold read_separator, read_given_char.
  destruct first; rewrite ?strip_prefix_app; cbn [app mbind option_bind];
    rewrite ipv4_not_hex, read_group_show by done; by destruct (r =? 0).
Qed.

Lemma read_groups_first r g t :
  (0 <= g <= 65535)%Z -> stops 16 t -> head t <> Some dot ->
  read_groups (S r) true (show_hex g ++ t)
  = (let '(gs, v4, s) := read_groups r false t in (g :: gs, v4, s)).
Proof. exact (read_groups_cons true r g t). Qed.

Definition u16s (gs : list Z) : Prop := Forall (fun g => 0 <= g <= 65535)%Z gs.

Lemma show_tail_stops gs rest :
  group_end rest -> stops 16 (show_tail gs ++ rest) /\ head (show_tail gs ++ rest) <> Some dot.
Proof.
  intros He. destruct gs as [|g gs]; simpl; [|done].
  split; [by apply group_end_stops|]. destruct rest as [|c t]; [done|].
  simpl in He. intros [= ->]. by destruct He as [?|[?|[? _]]].
Qed.

Lemma read_groups_end remaining rest : group_end rest -> read_groups remaining false rest = ([], false, rest).
Proof.
  intros He. destruct remaining as [|r]; [done|]. cbn [read_groups].
  assert (forall A (p : list byte -> option (A * list byte)),
            (forall t, p (colon :: t) = None) -> read_separator colon false p rest = None) as Hsep.
  { intros A p Hp. unfold read_separator, read_given_char. destruct rest as [|c t]; [done|].
    cbn [strip_prefix]. destruct (decide (colon = c)) as [<-|]; [|done].
    destruct He as [?|[?|[_ [t' ->]]]]; try done. cbn. apply Hp. }
  rewrite !Hsep; [by destruct (r =? 0)| |]; intros t; done.
Qed.

Lemma read_groups_tail gs remaining rest :
  length gs <= remaining -> u16s gs -> group_end rest ->
  read_groups remaining false (show_tail gs ++ rest) = (gs, false, rest).
Proof.
  revert remaining. induction gs as [|g gs IH]; intros remaining Hl Hu He.
  - by apply read_groups_end.
  - destruct remaining as [|r]; [simpl in Hl; lia|]. inversion Hu as [|? ? Hg Hu']; subst.
    destruct (show_tail_stops gs rest He) as [Hs Hd]. cbn [show_tail]. rewrite <-!app_assoc.
    rewrite (read_groups_cons false) by done. rewrite IH; [done| |done|done]. simpl in Hl. lia.
Qed.

Lemma read_groups_show gs remaining rest :
  length gs <= remaining -> u16s gs -> group_end rest ->
  read_groups remaining true (show_groups gs ++ rest) = (gs, false, rest).
Proof.
  intros Hl Hu He. destruct gs as [|g gs].
  - cbn [show_groups app]. destruct remaining as [|r]; [done|]. cbn [read_groups]. unfold read_separator.
    assert (head rest <> Some dot /\ stops 16 rest) as [Hd Hs].
    { split; [|by apply group_end_stops]. destruct rest as [|c t]; [done|]. intros [= ->].
      by destruct He as [?|[?|[? _]]]. }
    rewrite read_ipv4_no_dot.
    2: { destruct rest as [|c t]; [done|]. cbn. unfold decimal. pose proof (stops_16_10 _ Hs) as H10. simpl in H10.
         rewrite bool_decide_false; [done|]. rewrite H10. by intros [? ?]. }
    assert (read_number 16 65535 (Some 4) true rest = None) as ->.
    { unfold read_number. destruct rest as [|c t]; [done|]. cbn [read_digits]. simpl in Hs. by rewrite Hs. }
    by destruct (r =? 0).
  - destruct remaining as [|r]; [simpl in Hl; lia|]. inversion Hu as [|? ? Hg Hu']; subst.
    destruct (show_tail_stops gs rest He) as [Hs Hd]. cbn [show_groups]. rewrite <-app_assoc.
    rewrite read_groups_first by done. rewrite read_groups_tail; [done| |done|done]. simpl in Hl. lia.
Qed.

(** *** Zero compression *)

Lemma longest_zeroes_spec l i current longest gs :
  (forall k, current.1 <= k < current.1 + current.2 -> l !! k = Some 0%Z) ->
  (current.2 <> 0 -> current.1 + current.2 = i) ->
  (forall k, longest.1 <= k < longest.1 + longest.2 -> l !! k = Some 0%Z) ->
  longest.1 + longest.2 <= i -> drop i l = gs -> i + length gs = length l ->
  let '(st, len) := longest_zeroes i current longest gs in
  st + len <= length l /\ forall k, st <= k < st + len -> l !! k = Some 0%Z.
Proof.
  revert i current longest. induction gs as [|g gs IH]; intros i cur lon Hc Hce Hl Hle Hd Hn.
  - cbn. destruct lon as [st len]. simpl in *. split; [lia|done].
  - cbn [longest_zeroes].
    assert (l !! i = Some g) as Hg.
    { replace i with (i + 0) by lia. by rewrite <-lookup_drop, Hd. }
    assert (drop (S i) l = gs) as Hd'.
    { replace (S i) with (i + 1) by lia. rewrite <-drop_drop, Hd. done. }
    destruct (Z.eqb_spec g 0) as [->|Hz].
    + set (cur' := ((if decide (cur.2 = 0) then i else cur.1), S cur.2)).
      assert (forall k, cur'.1 <= k < cur'.1 + cur'.2 -> l !! k = Some 0%Z) as Hc'.
      { intros k Hk. subst cur'. destruct (decide (cur.2 = 0)) as [E|E]; simpl in Hk.
        - by replace k with i by lia.
        - specialize (Hce E). destruct (decide (k = i)) as [->|]; [done|]. apply Hc. lia. }
      assert (cur'.1 + cur'.2 = S i) as He'.
      { subst cur'. destruct (decide (cur.2 = 0)); simpl; [lia|]. specialize (Hce n). lia. }
      apply IH; [done|done| | |done|simpl in Hn; lia]; destruct (lon.2 <? cur'.2); done || lia.
    + apply IH; simpl; done || lia || (simpl in Hn; lia).
Qed.

Lemma zero_run st len (l : list Z) :
  st + len <= length l -> (forall k, st <= k < st + len -> l !! k = Some 0%Z) ->
  l = take st l ++ replicate len 0%Z ++ drop (st + len) l.
Proof.
  intros Hl Hz. rewrite <-(take_drop st l) at 1. f_equal.
  rewrite <-drop_drop, <-(take_drop len (drop st l)) at 1. f_equal.
  apply list_eq_same_length with len; [by rewrite length_replicate| |].
  - rewrite length_take, length_drop. lia.
  - intros i x y Hi. rewrite lookup_take_lt, lookup_drop, Hz by lia.
    rewrite lookup_replicate_2 by lia. congruence.
Qed.

(** *** IPv6 *)

Lemma length_be_groups n z : length (be_groups n z) = n.
Proof. induction n; simpl; congruence. Qed.

Lemma be_groups_u16s n z : u16s (be_groups n z).
Proof.
  induction n as [|n IH]; constructor; [|done].
  pose proof (Z.mod_pos_bound (z / 65536 ^ Z.of_nat n) 65536). lia.
Qed.

Lemma of_segments_acc acc l :
  foldl (fun acc s => acc * 65536 + s)%Z acc l = (acc * 65536 ^ Z.of_nat (length l) + of_segments l)%Z.
Proof.
  unfold of_segments. revert acc. induction l as [|s l IH]; intros acc; cbn [foldl length].
  - lia.
  - rewrite IH, (IH (0 * 65536 + s)%Z), Nat2Z.inj_succ, Z.pow_succ_r by lia. ring.
Qed.

Lemma of_be_groups n z : of_segments (be_groups n z) = (z mod 65536 ^ Z.of_nat n)%Z.
Proof.
  induction n as [|n IH]; cbn [be_groups].
  - by rewrite Z.mod_1_r.
  - unfold of_segments. cbn [foldl]. rewrite of_segments_acc, length_be_groups, IH.
    rewrite Nat2Z.inj_succ, Z.pow_succ_r by lia.
    rewrite (Z.mul_comm 65536), Z.rem_mul_r by lia. ring.
Qed.

Lemma v6_of_v6_segments a : (0 <= v6_bits a < 2 ^ 128)%Z -> v6_of_segments (v6_segments a) = a.
Proof.
  intros Ha. unfold v6_of_segments, v6_segments. rewrite of_be_groups.
  destruct a as [z]; cbn [v6_bits] in *. rewrite Z.mod_small; [done|].
  change (65536 ^ Z.of_nat 8)%Z with (2 ^ 128)%Z. done.
Qed.

Lemma v4_of_octets_val z :
  let a := v4_of_octets (z / 2 ^ 24) (z / 2 ^ 16) (z / 2 ^ 8) z in
  (0 <= z < 2 ^ 32)%Z ->
  of_segments [u8_val (oct0 a) * 256 + u8_val (oct1 a); u8_val (oct2 a) * 256 + u8_val (oct3 a)]%Z = z.
Proof.
  cbn zeta. intros Hz. unfold of_segments, v4_of_octets. cbn [foldl oct0 oct1 oct2 oct3].
  rewrite !u8_val_as_u8. change (2 ^ 24)%Z with (256 * (256 * 256))%Z.
  change (2 ^ 16)%Z with (256 * 256)%Z. change (2 ^ 8)%Z with 256%Z.
  rewrite <-!Z.div_div by lia.
  pose proof (Z.div_mod z 256). pose proof (Z.div_mod (z / 256) 256).
  pose proof (Z.div_mod (z / 256 / 256) 256).
  assert (0 <= z / 256 / 256 / 256 < 256)%Z as Hb.
  { rewrite !Z.div_div by lia. split; [apply Z.div_pos; lia|apply Z.div_lt_upper_bound; lia]. }
  rewrite (Z.mod_small (z / 256 / 256 / 256)) by done. lia.
Qed.

Lemma read_ipv6_mapped v4 rest :
  stops 10 rest ->
  read_ipv6_addr (str "::ffff:" ++ show_v4 v4 ++ rest)
  = Some (v6_of_segments ([0; 0; 0; 0; 0; 65535]
      ++ [u8_val (oct0 v4) * 256 + u8_val (oct1 v4); u8_val (oct2 v4) * 256 + u8_val (oct3 v4)])%Z, rest).
Proof.
  intros Hr. unfold read_ipv6_addr.
  change (str "::ffff:" ++ show_v4 v4 ++ rest)
    with (show_groups [] ++ [colon; colon] ++ show_hex 65535 ++ [colon] ++ show_v4 v4 ++ rest).
  rewrite (read_groups_show [] 8) by (simpl; eauto 10 with lia || constructor).
  cbn [length Nat.eqb]. unfold read_given_char.
  change ([colon; colon] ++ ?t) with ([colon] ++ [colon] ++ t) at 1.
  rewrite strip_prefix_app. cbn [mbind option_bind]. rewrite strip_prefix_app.
  cbn [mbind option_bind]. change (8 - (0 + 1)) with 7.
  rewrite read_groups_first by (done || lia).
  cbn [read_groups Nat.eqb]. unfold read_separator at 1, read_given_char.
  rewrite strip_prefix_app. cbn [mbind option_bind].
  rewrite read_ipv4_show by done. reflexivity.
Qed.

Lemma read_ipv6_show a rest :
  (0 <= v6_bits a < 2 ^ 128)%Z -> (exists c t, rest = c :: t /\ (c = x5d \/ c = x25)) ->
  read_ipv6_addr (show_v6 a ++ rest) = Some (a, rest).
Proof.
  intros Ha (c & t & Hrest & Hc).
  assert (group_end rest) as He by (subst rest; simpl; naive_solver).
  assert (stops 10 rest) as Hs by (apply stops_16_10, group_end_stops, He).
  unfold show_v6. destruct (to_ipv4_mapped a) as [v4|] eqn:Hm.
  - rewrite <-app_assoc, read_ipv6_mapped by done. do 2 f_equal.
    unfold to_ipv4_mapped in Hm. destruct (Z.eqb_spec (v6_bits a / 2 ^ 32) 65535) as [E|]; [|done].
    injection Hm as <-. destruct a as [z]. cbn [v6_bits] in *. unfold v6_of_segments. f_equal.
    unfold of_segments at 1. rewrite foldl_app.
    rewrite of_segments_acc, v4_of_octets_val by (apply Z.mod_pos_bound; lia).
    cbn [foldl length]. pose proof (Z.div_mod z (2 ^ 32)). lia.
  - set (segs := v6_segments a). pose proof (length_be_groups 8 (v6_bits a)) as Hl8.
    pose proof (be_groups_u16s 8 (v6_bits a)) as Hu. fold segs in Hl8, Hu. change (be_groups 8 _) with segs in Hl8, Hu.
    pose proof (longest_zeroes_spec segs 0 (0, 0) (0, 0) segs) as Hz.
    destruct (longest_zeroes 0 (0, 0) (0, 0) segs) as [st len] eqn:E.
    destruct Hz as [Hle Hz]; try done; try (simpl; lia); try (intros; simpl in *; lia).
    destruct (Nat.ltb_spec 1 len) as [Hlen|_].
    + rewrite <-!app_assoc. unfold read_ipv6_addr.
      assert (length (take st segs) = st) as Ht by (rewrite length_take; lia).
      rewrite read_groups_show; [|lia|by apply Forall_take|simpl; eauto].
      rewrite Ht. destruct (Nat.eqb_spec st 8); [lia|]. unfold read_given_char.
      change (str "::" ++ ?t) with ([colon] ++ [colon] ++ t).
      rewrite strip_prefix_app. cbn [mbind option_bind].
      rewrite strip_prefix_app. cbn [mbind option_bind].
      rewrite read_groups_show; [|rewrite length_drop; lia|by apply Forall_drop|done].
      rewrite length_drop. replace (8 - st - (length segs - (st + len))) with len by lia.
      rewrite <-(zero_run st len segs) by done. unfold segs. by rewrite v6_of_v6_segments.
    + unfold read_ipv6_addr. rewrite read_groups_show; [|lia|done|done].
      rewrite Hl8. cbn [Nat.eqb]. unfold segs. by rewrite v6_of_v6_segments.
Qed.

(** ** Socket addresses *)

Definition ports_ok (p : Z) : Prop := (0 <= p <= 65535)%Z.

Lemma read_port_show p : ports_ok p -> read_port ([colon] ++ show_u64 p) = Some (p, []).
Proof.
  intros Hp. unfold read_port, read_given_char. rewrite strip_prefix_app. cbn [mbind option_bind].
  rewrite <-(app_nil_r (show_u64 p)). unfold ports_ok in Hp.
  apply read_number_spelled; try done; try lia.
  apply show_u64_spelled. unfold u64_ok, u64_max. lia.
Qed.

(** The v4 reader does not mistake a bracketed address. *)
Lemma read_v4_bracket s : read_socket_addr_v4 (x5b :: s) = None.
Proof. unfold read_socket_addr_v4. by rewrite read_ipv4_no_dot. Qed.

Lemma parse_show_sock a :
  sock_ok a -> (match a with SockV6 _ _ f _ => f = 0%Z | _ => True end) ->
  parse_sock (show_sock a) = Some a.
Proof.
  destruct a as [ip p|ip p f sc]; intros Hok Hf; unfold parse_sock; cbn [show_sock].
  - unfold read_socket_addr_v4. rewrite read_ipv4_show by done. cbn [mbind option_bind].
    by rewrite read_port_show.
  - destruct Hok as (Hb & Hp & _ & Hs). subst f. change (str "[" ++ ?t) with (x5b :: t).
    rewrite read_v4_bracket. unfold read_socket_addr_v6, read_given_char.
    change (x5b :: ?t) with ([x5b] ++ t). rewrite strip_prefix_app. cbn [mbind option_bind].
    rewrite read_ipv6_show; [|done|destruct (sc =? 0)%Z; simpl; eauto].
    cbn [mbind option_bind]. change (str "]:" ++ show_u64 p) with ([x5d] ++ [colon] ++ show_u64 p).
    destruct (Z.eqb_spec sc 0) as [->|Hsc].
    + cbn [app]. change (read_scope_id (x5d :: ?t)) with (@None (Z * list byte)).
      cbn match. change (x5d :: ?t) with ([x5d] ++ t). rewrite strip_prefix_app. cbn [mbind option_bind].
      change (colon :: show_u64 p) with ([colon] ++ show_u64 p). by rewrite read_port_show.
    + unfold read_scope_id, read_given_char. change (str "%") with [x25].
      rewrite <-app_assoc, strip_prefix_app. cbn [mbind option_bind].
      unfold u32_ok in Hs.
      rewrite (read_number_spelled 10 u32_max None true sc);
        [|apply show_u64_spelled; unfold u64_ok, u64_max, u32_max in *; lia|done|lia|lia|done].
      rewrite strip_prefix_app. cbn [mbind option_bind]. by rewrite read_port_show.
Qed.
