(* ===== verification/NodeRecord.v ===== *)
(** * Signed node-address records: fabric-iroh/src/iroh_node_record.rs

    A node publishes where it can be reached as one pkarr packet: a DNS reply
    signed by the node's key, with one TXT answer per location followed by nine
    lifecycle answers in a fixed order.  This file models the location and
    token checks, [encode_node_record] and [decode_node_record].

    pkarr packets, z-base-32 keys, the DNS message codec and URLs come from
    crates outside the repository: they are the classes [Pkarr], [Dns] and
    [Urls], whose laws [PkarrLaws] and [DnsLaws] state what those crates
    document.

    The theorems: what the decoder accepts is bound to its signer, sequence and
    expiry and is the canonical spelling of the record it returns; what the
    encoder produces decodes to the record it was given. *)

From Stdlib Require Import Strings.Byte ZArith Lia.
From stdpp Require Import base gmap numbers strings sorting list.
From S2P Require Import Prelude Hex Text Ids RecordCodec Lan SockAddr.

Definition NODE_PUBLICATION_SCHEMA : list byte := str "iroh-node-publication-v1".
Definition IROH_RECORD_NAME : list byte := str "_iroh".
Definition METADATA_RECORD_NAME : list byte := str "_nix-p2p-iroh".
Definition MAX_NAMESPACE_BYTES : nat := 128.
Definition MAX_RECIPIENT_BYTES : nat := 192.
Definition MAX_NODE_LOCATIONS : nat := 16.
Definition PKARR_HEADER_BYTES : Z := 32 + 64 + 8.
Definition METADATA_KEYS : list (list byte) :=
  [str "schema"; str "namespace"; str "signer"; str "node-id"; str "recipient"; str "ttl-seconds";
   str "sequence"; str "expires-unix-micros"; str "state"].

(** ** The crates *)

(** iroh-dns: signed packets and public keys in z-base-32. *)
Class Pkarr := {
  SignedPacket : Type;
  MAX_BYTES : Z;
  packet_from_bytes : list byte -> option SignedPacket;
  as_bytes : SignedPacket -> list byte;
  public_key : SignedPacket -> array 32;
  (** The DNS message inside and the signed timestamp in microseconds. *)
  encoded_packet : SignedPacket -> list byte;
  timestamp : SignedPacket -> Z;
  to_relay_payload : SignedPacket -> list byte;
  from_relay_payload : array 32 -> list byte -> option SignedPacket;
  to_z32 : array 32 -> list byte;
  from_z32 : list byte -> option (array 32)
}.

(** simple-dns: an answer and a message. *)
Record ResourceRecord {Name Txt : Type} := {
  rr_name : Name;
  rr_class_in : bool;
  rr_ttl : Z;
  rr_txt : option Txt
}.
Arguments ResourceRecord : clear implicits.

Class Dns := {
  Name : Type;
  Txt : Type;
  Packet : Type;
  Name_new : list byte -> option Name;
  Name_to_string : Name -> list byte;
  Txt_of_string : list byte -> option Txt;
  Txt_to_string : Txt -> option (list byte);
  (** `Packet::new_reply(0)` followed by pushing the answers. *)
  reply : list (ResourceRecord Name Txt) -> Packet;
  Packet_parse : list byte -> option Packet;
  build_bytes_vec_compressed : Packet -> option (list byte);
  answers : Packet -> list (ResourceRecord Name Txt);
  (** whether the questions, name servers and additional records are empty *)
  questions_empty : Packet -> bool;
  name_servers_empty : Packet -> bool;
  additional_empty : Packet -> bool
}.

(** url: the parts of a parsed URL the checks look at. *)
Inductive Host := HostIpv4 (a : Ipv4Addr) | HostIpv6 (a : Ipv6Addr) | HostDomain (d : list byte).
Record Url := {
  url_as_str : list byte;
  url_scheme : list byte;
  url_host : option Host;
  url_port : option Z;
  url_username : list byte;
  url_password : option (list byte);
  url_query : option (list byte);
  url_fragment : option (list byte)
}.
Class Urls := Url_parse : list byte -> option Url.

(** ** Records *)

Inductive NodeLocation := Direct (a : SocketAddr) | Relay (url : list byte).
#[export] Instance NodeLocation_eq_dec : EqDecision NodeLocation.
Proof. solve_decision. Defined.

Inductive PublicationState := Live | Withdrawn.
#[export] Instance PublicationState_eq_dec : EqDecision PublicationState.
Proof. solve_decision. Defined.

Definition PublicationState_as_str (s : PublicationState) : list byte :=
  match s with Live => str "live" | Withdrawn => str "withdrawn" end.

Record NodeRecord := {
  nr_node_id : NodeId;
  nr_namespace : list byte;
  nr_recipient : list byte;
  nr_ttl_seconds : Z;
  nr_sequence : Z;
  nr_expires_unix_micros : Z;
  nr_state : PublicationState;
  nr_locations : list NodeLocation
}.
#[export] Instance NodeRecord_eq_dec : EqDecision NodeRecord.
Proof. solve_decision. Defined.

Definition is_visible_at (r : NodeRecord) (unix_micros : Z) : bool := (unix_micros <? nr_expires_unix_micros r)%Z.

Inductive NodeRecordErrorKind := MalformedOrUntrusted | NoDialableCandidate.

(** Where a record was refused; the message text is not modelled. *)
Inductive NodeRecordError :=
| NamespaceLength | NamespaceChars | TokenLength | TokenChars | RecipientDots
| MappedAddress | AddressPortZero | AddressNotUnicast | LinkLocalUnscoped
| RelayEquals | RelayInvalid | RelayScheme | RelayPortZero | RelayCredentials | RelayIpLiteral | RelayNotCanonical
| TtlZero | TtlOverflow | ExpiryOverflow | ExpiryMismatch | TooManyLocations | LiveUnreachable | WithdrawalLocated
| BuildingName | BuildingTxt | EncodingDns | RecordTooLarge | VerifyingEncoded
| InvalidPacket | HeaderNotCanonical | InvalidDns | ReencodingDns | DnsNotCanonical | NotAnswersOnly
| NonInAnswer | InconsistentTtl | NonTxtAnswer | InvalidTxt | LocationAfterMetadata | AttributeShape
| InvalidAddress | AddressNotCanonical | UnknownAttribute | DuplicateLocation | LocationOrder
| MetadataPosition | DuplicateMetadata | UnexpectedName | MetadataKeys | UnsupportedSchema
| SignerMismatch | NodeIdMismatch | NotDecimal | NotCanonicalDecimal | InvalidNumber | ExceedsU32
| TtlMismatch | SequenceMismatch | UnknownState | NoDialable.

Definition error_kind (e : NodeRecordError) : NodeRecordErrorKind :=
  match e with NoDialable => NoDialableCandidate | _ => MalformedOrUntrusted end.

(** ** Checks *)

Definition is_ascii_digit (b : byte) : bool := (48 <=? u8_val b)%Z && (u8_val b <=? 57)%Z.
Definition is_ascii_lowercase (b : byte) : bool := (97 <=? u8_val b)%Z && (u8_val b <=? 122)%Z.

Definition validate_namespace (namespace : list byte) : result NodeRecordError unit :=
  _ ← reject_if (bool_decide (namespace = []) || (MAX_NAMESPACE_BYTES <? length namespace)) NamespaceLength;
  let first := default x00 (head namespace) in
  let final := default x00 (last namespace) in
  reject_if (negb (is_ascii_alphanumeric first) || negb (is_ascii_alphanumeric final)
             || negb (forallb (fun b => is_ascii_lowercase b || is_ascii_digit b || bool_decide (b = x2d)) namespace))
            NamespaceChars.

Definition validate_token (value : list byte) (max : nat) : result NodeRecordError unit :=
  _ ← reject_if (bool_decide (value = []) || (max <? length value)) TokenLength;
  reject_if (negb (forallb (fun b => is_ascii_alphanumeric b || bool_decide (b ∈ str "._:-")) value)) TokenChars.

Definition validate_recipient (recipient : list byte) : result NodeRecordError unit :=
  _ ← validate_token recipient MAX_RECIPIENT_BYTES;
  reject_if (bool_decide (recipient = str ".") || bool_decide (recipient = str "..")
             || bool_decide (is_Some (find_subslice (str "..") recipient))) RecipientDots.

Definition normalize_socket_addr (address : SocketAddr) : SocketAddr :=
  match address with
  | SockV6 ip port _ _ =>
      match to_ipv4_mapped ip with Some ipv4 => SockV4 ipv4 port | None => address end
  | SockV4 _ _ => address
  end.

Definition validate_direct_address (address : SocketAddr) : result NodeRecordError unit :=
  _ ← reject_if (bool_decide (normalize_socket_addr address <> address)) MappedAddress;
  _ ← reject_if (sock_port address =? 0)%Z AddressPortZero;
  match address with
  | SockV4 ip _ => reject_if (v4_is_unspecified ip || v4_is_multicast ip || v4_is_broadcast ip) AddressNotUnicast
  | SockV6 ip _ _ scope_id =>
      _ ← reject_if (v6_is_unspecified ip || v6_is_multicast ip) AddressNotUnicast;
      reject_if (v6_is_unicast_link_local ip && (scope_id =? 0)%Z) LinkLocalUnscoped
  end.

Definition forbidden_v4 (ip : Ipv4Addr) : bool := v4_is_unspecified ip || v4_is_multicast ip || v4_is_broadcast ip.
Definition forbidden_ip_literal (host : option Host) : bool :=
  match host with
  | Some (HostIpv4 ip) => forbidden_v4 ip
  | Some (HostIpv6 ip) =>
      match to_ipv4_mapped ip with
      | Some v4 => forbidden_v4 v4
      | None => v6_is_unspecified ip || v6_is_multicast ip || v6_is_unicast_link_local ip
      end
  | Some (HostDomain _) | None => false
  end.

(** `location.cmp`: derived, directs before relays. *)
Definition location_ltb (a b : NodeLocation) : bool :=
  match a, b with
  | Direct x, Direct y => sock_ltb x y
  | Direct _, Relay _ => true
  | Relay _, Direct _ => false
  | Relay x, Relay y => bytes_ltb x y
  end.
Definition location_le (a b : NodeLocation) : Prop := location_ltb b a = false.
#[export] Instance location_le_dec : RelDecision location_le.
Proof. intros a b. unfold location_le. apply _. Defined.

(** `Vec::dedup` *)
Fixpoint dedup (l : list NodeLocation) : list NodeLocation :=
  match l with
  | x :: ((y :: _) as t) => if decide (x = y) then dedup t else x :: dedup t
  | _ => l
  end.
Definition sort_dedup (l : list NodeLocation) : list NodeLocation := dedup (merge_sort location_le l).

Definition record_expiry (sequence ttl_seconds : Z) : result NodeRecordError Z :=
  _ ← reject_if (u64_max <? ttl_seconds * 1000000)%Z TtlOverflow;
  ok_or (u64_checked_add sequence (ttl_seconds * 1000000)) ExpiryOverflow.

Definition split_attribute (value : list byte) : result NodeRecordError (list byte * list byte) :=
  '(key, value) ← ok_or (split_once x3d value) AttributeShape;
  _ ← reject_if (bool_decide (key = []) || bool_decide (value = []) || bool_decide (x3d ∈ value)) AttributeShape;
  Ok (key, value).

(** The labelled decimal readers; [parse_dec] is parse_u64 of the source. *)
Definition parse_dec (raw : list byte) : result NodeRecordError Z :=
  _ ← reject_if (bool_decide (raw = []) || negb (forallb is_ascii_digit raw)) NotDecimal;
  _ ← reject_if ((1 <? length raw) && bool_decide (head raw = Some x30)) NotCanonicalDecimal;
  ok_or (parse_u64 raw) InvalidNumber.
Definition parse_u32 (raw : list byte) : result NodeRecordError Z :=
  v ← parse_dec raw; _ ← reject_if (u32_max <? v)%Z ExceedsU32; Ok v.

Definition signable (sequence : Z) (dns_packet : list byte) : list byte :=
  str "3:seqi" ++ show_u64 sequence ++ str "e1:v" ++ show_u64 (Z.of_nat (length dns_packet)) ++ str ":" ++ dns_packet.

Section records.
Context `{Ed25519, Pkarr, Dns, Urls}.

Definition validate_relay_url (raw : list byte) : result NodeRecordError unit :=
  _ ← reject_if (bool_decide (x3d ∈ raw)) RelayEquals;
  url ← ok_or (Url_parse raw) RelayInvalid;
  _ ← reject_if (bool_decide (url_scheme url <> str "https") || negb (bool_decide (is_Some (url_host url)))) RelayScheme;
  _ ← reject_if (bool_decide (url_port url = Some 0%Z)) RelayPortZero;
  _ ← reject_if (bool_decide (url_username url <> []) || bool_decide (is_Some (url_password url))
                 || bool_decide (is_Some (url_query url)) || bool_decide (is_Some (url_fragment url))) RelayCredentials;
  _ ← reject_if (forbidden_ip_literal (url_host url)) RelayIpLiteral;
  reject_if (bool_decide (url_as_str url <> raw)) RelayNotCanonical.

(** NodeLocation::direct, ::relay and ::validate *)
Definition NodeLocation_direct (address : SocketAddr) : result NodeRecordError NodeLocation :=
  let address := normalize_socket_addr address in
  _ ← validate_direct_address address; Ok (Direct address).
Definition NodeLocation_relay (url : list byte) : result NodeRecordError NodeLocation :=
  parsed ← ok_or (Url_parse url) RelayInvalid;
  _ ← validate_relay_url (url_as_str parsed); Ok (Relay (url_as_str parsed)).
Definition NodeLocation_validate (l : NodeLocation) : result NodeRecordError unit :=
  match l with Direct a => validate_direct_address a | Relay u => validate_relay_url u end.

Fixpoint validate_all (l : list NodeLocation) : result NodeRecordError unit :=
  match l with [] => Ok tt | x :: t => _ ← NodeLocation_validate x; validate_all t end.

(** ** Encoding *)

Definition location_txt (l : NodeLocation) : list byte :=
  match l with Direct a => str "addr=" ++ show_sock a | Relay u => str "relay=" ++ u end.

Definition metadata_txts (key : array 32) (namespace recipient : list byte) (ttl sequence expires : Z)
    (state : PublicationState) : list (list byte) :=
  [str "schema=" ++ NODE_PUBLICATION_SCHEMA; str "namespace=" ++ namespace; str "signer=" ++ to_z32 key;
   str "node-id=" ++ NodeId_to_hex (NodeId_from_bytes key); str "recipient=" ++ recipient;
   str "ttl-seconds=" ++ show_u64 ttl; str "sequence=" ++ show_u64 sequence;
   str "expires-unix-micros=" ++ show_u64 expires; str "state=" ++ PublicationState_as_str state].

(** One `packet.answers.push` of add_txt. *)
Definition add_txt (relative_name origin : list byte) (ttl : Z) (value : list byte) :
    result NodeRecordError (ResourceRecord Name Txt) :=
  name ← ok_or (Name_new (relative_name ++ str "." ++ origin)) BuildingName;
  txt ← ok_or (Txt_of_string value) BuildingTxt;
  Ok {| rr_name := name; rr_class_in := true; rr_ttl := ttl; rr_txt := Some txt |}.

Fixpoint add_txts (relative_name origin : list byte) (ttl : Z) (values : list (list byte)) :
    result NodeRecordError (list (ResourceRecord Name Txt)) :=
  match values with
  | [] => Ok []
  | v :: vs => r ← add_txt relative_name origin ttl v; rs ← add_txts relative_name origin ttl vs; Ok (r :: rs)
  end.

Definition encode_node_record (secret_key : SigningKey) (namespace recipient : list byte)
    (ttl_seconds sequence expires_unix_micros : Z) (state : PublicationState) (locations : list NodeLocation) :
    result NodeRecordError SignedPacket :=
  _ ← validate_namespace namespace;
  _ ← validate_recipient recipient;
  _ ← reject_if (ttl_seconds =? 0)%Z TtlZero;
  expected_expiry ← record_expiry sequence ttl_seconds;
  _ ← reject_if (negb (expires_unix_micros =? expected_expiry)%Z) ExpiryMismatch;
  let canonical_locations := sort_dedup locations in
  _ ← reject_if (MAX_NODE_LOCATIONS <? length canonical_locations) TooManyLocations;
  _ ← validate_all canonical_locations;
  _ ← match state with
      | Live => reject_if (bool_decide (canonical_locations = [])) LiveUnreachable
      | Withdrawn => reject_if (bool_decide (canonical_locations <> [])) WithdrawalLocated
      end;
  let key := verifying_key secret_key in
  let origin := to_z32 key in
  located ← add_txts IROH_RECORD_NAME origin ttl_seconds (location_txt <$> canonical_locations);
  metadata ← add_txts METADATA_RECORD_NAME origin ttl_seconds
               (metadata_txts key namespace recipient ttl_seconds sequence expires_unix_micros state);
  encoded_dns ← ok_or (build_bytes_vec_compressed (reply (located ++ metadata))) EncodingDns;
  _ ← reject_if (MAX_BYTES <? Z.of_nat (length encoded_dns) + PKARR_HEADER_BYTES)%Z RecordTooLarge;
  let signature := sign secret_key (signable sequence encoded_dns) in
  ok_or (packet_from_bytes (arr_bytes key ++ arr_bytes signature ++ to_be_bytes 8 sequence ++ encoded_dns))
        VerifyingEncoded.

(** ** Decoding *)

(** The locals of the answer loop. *)
Record Loop := {
  lp_ttl : option Z;
  lp_locations : list NodeLocation;
  lp_metadata : gmap (list byte) (list byte);
  lp_index : nat
}.
Definition loop_start : Loop := {| lp_ttl := None; lp_locations := []; lp_metadata := ∅; lp_index := 0 |}.

(** One `addr=` or `relay=` value. *)
Definition parse_location (value : list byte) : result NodeRecordError NodeLocation :=
  '(key, raw) ← split_attribute value;
  if bool_decide (key = str "addr") then
    parsed ← ok_or (parse_sock raw) InvalidAddress;
    _ ← reject_if (bool_decide (show_sock parsed <> raw)) AddressNotCanonical;
    _ ← reject_if (bool_decide (normalize_socket_addr parsed <> parsed)) AddressNotCanonical;
    NodeLocation_direct parsed
  else if bool_decide (key = str "relay") then
    location ← NodeLocation_relay raw;
    _ ← reject_if (bool_decide (location <> Relay raw)) RelayNotCanonical;
    Ok location
  else Err UnknownAttribute.

Definition push_location (locs : list NodeLocation) (location : NodeLocation) :
    result NodeRecordError (list NodeLocation) :=
  _ ← reject_if (bool_decide (location ∈ locs)) DuplicateLocation;
  _ ← reject_if (match last locs with Some previous => negb (location_ltb previous location) | None => false end) LocationOrder;
  _ ← reject_if (length locs =? MAX_NODE_LOCATIONS) TooManyLocations;
  Ok (locs ++ [location]).

(** One round of `for answer in &packet.answers`. *)
Definition read_answer (iroh_name metadata_name : list byte) (lp : Loop) (answer : ResourceRecord Name Txt) :
    result NodeRecordError Loop :=
  _ ← reject_if (negb (rr_class_in answer)) NonInAnswer;
  _ ← reject_if (match lp_ttl lp with Some expected => negb (expected =? rr_ttl answer)%Z | None => false end) InconsistentTtl;
  let ttl := match lp_ttl lp with Some t => Some t | None => Some (rr_ttl answer) end in
  txt ← ok_or (rr_txt answer) NonTxtAnswer;
  value ← ok_or (Txt_to_string txt) InvalidTxt;
  let name := Name_to_string (rr_name answer) in
  if bool_decide (name = iroh_name) then
    _ ← reject_if (negb (lp_index lp =? 0)) LocationAfterMetadata;
    location ← parse_location value;
    locs ← push_location (lp_locations lp) location;
    Ok {| lp_ttl := ttl; lp_locations := locs; lp_metadata := lp_metadata lp; lp_index := lp_index lp |}
  else if bool_decide (name = metadata_name) then
    '(key, value) ← split_attribute value;
    _ ← reject_if (bool_decide (METADATA_KEYS !! lp_index lp <> Some key)) MetadataPosition;
    _ ← reject_if (bool_decide (is_Some (lp_metadata lp !! key))) DuplicateMetadata;
    Ok {| lp_ttl := ttl; lp_locations := lp_locations lp; lp_metadata := <[key := value]> (lp_metadata lp);
          lp_index := S (lp_index lp) |}
  else Err UnexpectedName.

Fixpoint read_answers (iroh_name metadata_name : list byte) (lp : Loop) (l : list (ResourceRecord Name Txt)) :
    result NodeRecordError Loop :=
  match l with
  | [] => Ok lp
  | a :: t => lp' ← read_answer iroh_name metadata_name lp a; read_answers iroh_name metadata_name lp' t
  end.

(** The checks after the loop: [m] is `metadata[..]`. *)
Definition finish_record (signed : SignedPacket) (lp : Loop) : result NodeRecordError NodeRecord :=
  let m := fun k => default [] (lp_metadata lp !! k) in
  let signer_key := public_key signed in
  _ ← reject_if (negb (size (lp_metadata lp) =? length METADATA_KEYS)
                 || negb (forallb (fun k => bool_decide (is_Some (lp_metadata lp !! k))) METADATA_KEYS)) MetadataKeys;
  _ ← reject_if (bool_decide (m (str "schema") <> NODE_PUBLICATION_SCHEMA)) UnsupportedSchema;
  _ ← validate_namespace (m (str "namespace"));
  _ ← validate_recipient (m (str "recipient"));
  _ ← reject_if (bool_decide (m (str "signer") <> to_z32 signer_key)) SignerMismatch;
  let node_id := NodeId_from_bytes signer_key in
  _ ← reject_if (bool_decide (m (str "node-id") <> NodeId_to_hex node_id)) NodeIdMismatch;
  ttl_seconds ← parse_u32 (m (str "ttl-seconds"));
  _ ← reject_if ((ttl_seconds =? 0)%Z || bool_decide (lp_ttl lp <> Some ttl_seconds)) TtlMismatch;
  sequence ← parse_dec (m (str "sequence"));
  _ ← reject_if (negb (sequence =? timestamp signed)%Z) SequenceMismatch;
  expires ← parse_dec (m (str "expires-unix-micros"));
  expected_expiry ← record_expiry sequence ttl_seconds;
  _ ← reject_if (negb (expires =? expected_expiry)%Z) ExpiryMismatch;
  state ← (if bool_decide (m (str "state") = str "live") then Ok Live
           else if bool_decide (m (str "state") = str "withdrawn") then Ok Withdrawn else Err UnknownState);
  _ ← match state with
      | Live => reject_if (bool_decide (lp_locations lp = [])) NoDialable
      | Withdrawn => reject_if (bool_decide (lp_locations lp <> [])) WithdrawalLocated
      end;
  Ok {| nr_node_id := node_id; nr_namespace := m (str "namespace"); nr_recipient := m (str "recipient");
        nr_ttl_seconds := ttl_seconds; nr_sequence := sequence; nr_expires_unix_micros := expires;
        nr_state := state; nr_locations := merge_sort location_le (lp_locations lp) |}.

Definition decode_node_record (bytes : list byte) : result NodeRecordError NodeRecord :=
  signed ← ok_or (packet_from_bytes bytes) InvalidPacket;
  let signer := to_z32 (public_key signed) in
  let iroh_name := IROH_RECORD_NAME ++ str "." ++ signer in
  let metadata_name := METADATA_RECORD_NAME ++ str "." ++ signer in
  _ ← reject_if ((length (encoded_packet signed) <? 12)
                 || bool_decide (take 4 (encoded_packet signed) <> [x00; x00; x80; x00])) HeaderNotCanonical;
  packet ← ok_or (Packet_parse (encoded_packet signed)) InvalidDns;
  canonical_dns ← ok_or (build_bytes_vec_compressed packet) ReencodingDns;
  _ ← reject_if (bool_decide (canonical_dns <> encoded_packet signed)) DnsNotCanonical;
  _ ← reject_if (negb (questions_empty packet) || negb (name_servers_empty packet)
                 || negb (additional_empty packet)) NotAnswersOnly;
  lp ← read_answers iroh_name metadata_name loop_start (answers packet);
  finish_record signed lp.

End records.

(** ** What the crates document *)

Class PkarrLaws `{Pkarr} : Prop := {
  (** A packet keeps the bytes it was read from and can be read again. *)
  bytes_of_packet b p : packet_from_bytes b = Some p -> as_bytes p = b;
  packet_of_bytes p : packet_from_bytes (as_bytes p) = Some p;
  packet_size p : (Z.of_nat (length (as_bytes p)) <= MAX_BYTES)%Z;
  packet_max : MAX_BYTES = 1104%Z;
  (** key, signature, big-endian timestamp, DNS message *)
  packet_layout p : exists sig : array 64,
    as_bytes p = arr_bytes (public_key p) ++ arr_bytes sig ++ to_be_bytes 8 (timestamp p) ++ encoded_packet p;
  packet_timestamp p : u64_ok (timestamp p);
  (** The relay payload is the packet without its key. *)
  relay_layout p : as_bytes p = arr_bytes (public_key p) ++ to_relay_payload p;
  from_relay k b : from_relay_payload k b = packet_from_bytes (arr_bytes k ++ b);
  z32_roundtrip p : from_z32 (to_z32 (public_key p)) = Some (public_key p);
  (** z-base-32 has lower-case letters and digits only. *)
  z32_alphabet k c : c ∈ to_z32 k -> is_ascii_lowercase c || is_ascii_digit c = true;
  z32_nonempty k : to_z32 k <> [];
  (** Thirty-two bytes in z-base-32 are 52 characters. *)
  z32_short k : length (to_z32 k) <= 64
}.

Class DnsLaws `{Dns} : Prop := {
  name_of_string s n : Name_new s = Some n -> Name_to_string n = s;
  txt_of_string s t : Txt_of_string s = Some t -> Txt_to_string t = Some s;
  reply_answers l : answers (reply l) = l;
  reply_sections l : questions_empty (reply l) = true /\ name_servers_empty (reply l) = true
                     /\ additional_empty (reply l) = true;
  reply_parse l b : build_bytes_vec_compressed (reply l) = Some b -> Packet_parse b = Some (reply l);
  (** The twelve-byte header of a reply with id 0. *)
  reply_header l b : build_bytes_vec_compressed (reply l) = Some b ->
    12 <= length b /\ take 4 b = [x00; x00; x80; x00]
}.

(** An empty string is no absolute URL. *)
Class UrlLaws `{Urls} : Prop := Url_parse_empty : Url_parse [] = None.

(** ** Order of locations *)

Lemma zs_ltb_irrefl a : zs_ltb a a = false.
Proof. induction a; simpl; [done|]. by rewrite Z.ltb_irrefl. Qed.

Lemma zs_ltb_trans a b c : zs_ltb a b = true -> zs_ltb b c = true -> zs_ltb a c = true.
Proof.
  revert b c. induction a as [|x a IH]; intros [|y b] [|z c]; simpl; try done.
  repeat match goal with |- context [(?p <? ?q)%Z] => destruct (Z.ltb_spec p q) end;
    try done; try lia; eauto.
Qed.

Lemma zs_ltb_total a b : zs_ltb a b = true \/ a = b \/ zs_ltb b a = true.
Proof.
  revert b. induction a as [|x a IH]; intros [|y b]; simpl; auto.
  destruct (Z.ltb_spec x y); [auto|]. destruct (Z.ltb_spec y x); [auto|].
  assert (x = y) as -> by lia. destruct (IH b) as [|[->|]]; auto.
Qed.

Lemma sock_key_inj a b : sock_key a = sock_key b -> a = b.
Proof.
  destruct a as [[a0 a1 a2 a3] p|[z] p f s], b as [[b0 b1 b2 b3] q|[w] q g t]; cbn; try done.
  - intros [= H0%u8_val_inj H1%u8_val_inj H2%u8_val_inj H3%u8_val_inj ->]. congruence.
  - by intros [= -> -> -> ->].
Qed.

Lemma location_ltb_irrefl a : location_ltb a a = false.
Proof. destruct a; [apply zs_ltb_irrefl|apply bytes_ltb_irrefl]. Qed.

Lemma location_ltb_trans a b c : location_ltb a b = true -> location_ltb b c = true -> location_ltb a c = true.
Proof. destruct a, b, c; simpl; try done; [apply zs_ltb_trans|apply bytes_ltb_trans]. Qed.

Lemma location_ltb_total a b : location_ltb a b = true \/ a = b \/ location_ltb b a = true.
Proof.
  destruct a as [a|a], b as [b|b]; simpl; auto.
  - destruct (zs_ltb_total (sock_key a) (sock_key b)) as [|[->%sock_key_inj|]]; auto.
  - destruct (bytes_ltb_total a b) as [|[->|]]; auto.
Qed.

#[export] Instance location_le_total : Total location_le.
Proof.
  intros a b. unfold location_le. destruct (location_ltb b a) eqn:E; [|by left]. right.
  destruct (location_ltb a b) eqn:E2; [|done].
  pose proof (location_ltb_trans _ _ _ E E2) as H. by rewrite location_ltb_irrefl in H.
Qed.
#[export] Instance location_le_antisymm : AntiSymm (=) location_le.
Proof. intros a b Ha Hb. unfold location_le in *. destruct (location_ltb_total a b) as [|[|]]; congruence. Qed.
#[export] Instance location_le_trans : Transitive location_le.
Proof.
  intros a b c Hab Hbc. unfold location_le in *. destruct (location_ltb c a) eqn:E; [|done].
  destruct (location_ltb_total a b) as [H|[->|H]]; [|congruence|congruence].
  rewrite (location_ltb_trans _ _ _ E H) in Hbc. done.
Qed.

Definition location_lt (a b : NodeLocation) : Prop := location_ltb a b = true.

Lemma location_lt_le a b : location_lt a b -> location_le a b.
Proof.
  unfold location_lt, location_le. intros H. destruct (location_ltb b a) eqn:E; [|done].
  pose proof (location_ltb_trans _ _ _ H E) as C. by rewrite location_ltb_irrefl in C.
Qed.

(** Strictly sorted lists are fixed points of the code's sorting. *)
Lemma merge_sort_sorted l : StronglySorted location_lt l -> merge_sort location_le l = l.
Proof.
  intros Hs. apply (StronglySorted_unique location_le).
  - apply (StronglySorted_merge_sort location_le).
  - induction Hs as [|x l _ IH Hx]; constructor; [done|]. eapply Forall_impl; [exact Hx|]. apply location_lt_le.
  - apply merge_sort_Permutation.
Qed.

Lemma dedup_cons2 y z l :
  dedup (y :: z :: l) = if decide (y = z) then dedup (z :: l) else y :: dedup (z :: l).
Proof. done. Qed.

Lemma dedup_elem l x : x ∈ dedup l <-> x ∈ l.
Proof.
  induction l as [|y [|z l] IH]; [done|done|]. rewrite dedup_cons2. destruct (decide (y = z)) as [->|].
  - rewrite IH. set_solver.
  - rewrite elem_of_cons, IH. set_solver.
Qed.

Lemma dedup_strict l : StronglySorted location_le l -> StronglySorted location_lt (dedup l).
Proof.
  induction 1 as [|y l Hs IH Hy]; [constructor|]. destruct l as [|z l]; [repeat constructor|].
  rewrite dedup_cons2. destruct (decide (y = z)) as [->|Hne]; [done|]. constructor; [done|].
  apply Forall_forall. intros x Hx. rewrite dedup_elem in Hx.
  pose proof (proj1 (Forall_forall _ _) Hy) as Hle. unfold location_lt.
  destruct (location_ltb_total y x) as [|[->|Hlt]]; [done| |].
  - exfalso. apply Hne. apply (anti_symm location_le).
    + apply Hle. set_solver.
    + apply elem_of_cons in Hx as [->|Hx]; [apply Hle; set_solver|].
      apply StronglySorted_inv in Hs as [_ Hz]. by apply (proj1 (Forall_forall _ _) Hz).
  - specialize (Hle x Hx). unfold location_le in Hle. congruence.
Qed.

Lemma sort_dedup_strict l : StronglySorted location_lt (sort_dedup l).
Proof. apply dedup_strict, (StronglySorted_merge_sort location_le). Qed.

Lemma sort_dedup_elem l x : x ∈ sort_dedup l <-> x ∈ l.
Proof. unfold sort_dedup. by rewrite dedup_elem, (merge_sort_Permutation location_le l). Qed.

Lemma sort_dedup_idemp l : StronglySorted location_lt l -> sort_dedup l = l.
Proof.
  intros Hs. unfold sort_dedup. rewrite merge_sort_sorted by done.
  induction Hs as [|x l Hs IH Hx]; [done|]. destruct l as [|y l]; [done|].
  rewrite dedup_cons2, decide_False; [by rewrite IH|]. intros ->. inversion Hx as [|? ? Hlt _]; subst.
  unfold location_lt in Hlt. by rewrite location_ltb_irrefl in Hlt.
Qed.

(** ** Canonical decimals *)

Lemma to_digit_inj c c' d : to_digit 10 c = Some d -> to_digit 10 c' = Some d -> c = c'.
Proof.
  intros Hc Hc'.
  assert (forall b, to_digit 10 b = Some d -> digit d = b) as Hb; [|rewrite <-(Hb c), <-(Hb c'); done].
  clear. intros b Hb.
  assert (digit <$> to_digit 10 b = (to_digit 10 b ≫= fun _ => Some b)) as H1; [clear; by_all_bytes b|].
  rewrite Hb in H1. by injection H1.
Qed.

Lemma spelled_inj n s t : spelled 10 n s -> spelled 10 n t -> s = t.
Proof.
  intros Hs. revert t. induction Hs as [n c Hc _|q s c d Hs IH Hq Hd]; intros t Ht.
  - inversion Ht as [? c' Hc' _|q' s' c' d' Hs' Hq' Hd']; subst.
    + f_equal. by eapply to_digit_inj.
    + apply to_digit_range in Hc, Hd'. lia.
  - pose proof (to_digit_range _ _ _ Hd).
    inversion Ht as [? c' Hc' _|q' s' c' d' Hs' Hq' Hd' E]; subst.
    + apply to_digit_range in Hc'. lia.
    + pose proof (to_digit_range _ _ _ Hd'). assert (q' = q /\ d' = d) as [-> ->] by lia.
      rewrite (IH s') by done. f_equal. f_equal. by eapply to_digit_inj.
Qed.

Lemma digit_val_to_digit b : digit_val b = to_digit 10 b.
Proof. by_all_bytes b. Qed.

(** A canonical decimal is the spelling of its value. *)
Lemma parse_digits_spelled s n :
  s <> [] -> (1 < length s -> head s <> Some x30) -> parse_digits 0 s = Some n -> spelled 10 n s.
Proof.
  revert n. induction s as [|c s IH] using rev_ind; [done|]. intros n _ Hz Hp.
  rewrite parse_digits_app in Hp. apply bind_Some in Hp as (q & Hq & Hc). cbn in Hc.
  destruct (digit_val c) as [d|] eqn:Hd; [|done]. cbn in Hc.
  destruct (Z.leb_spec (q * 10 + d) u64_max); [|done]. injection Hc as <-.
  rewrite digit_val_to_digit in Hd. destruct s as [|x s].
  - cbn in Hq. injection Hq as <-. cbn [app]. rewrite Z.mul_0_l, Z.add_0_l. apply spelled_one; [done|].
    intros ->. change (to_digit 10 x30) with (Some 0%Z) in Hd. congruence.
  - assert (spelled 10 q (x :: s)) as Hs.
    { apply IH; [done| |done]. intros Hl. apply Hz. rewrite length_app. simpl in *. lia. }
    apply spelled_more; [done| |done].
    pose proof (spelled_range _ _ _ Hs ltac:(lia)). destruct (decide (q = 0%Z)) as [->|]; [|lia].
    exfalso. assert (spelled 10 0 [x30]) as Hx30 by (apply spelled_one; done).
    pose proof (spelled_inj _ _ _ Hs Hx30) as [= -> ->]. apply Hz; [simpl; lia|done].
Qed.

Lemma parse_dec_canonical raw n : parse_dec raw = Ok n -> raw = show_u64 n /\ u64_ok n.
Proof.
  unfold parse_dec. intros Hp. inv_ok. bools.
  match goal with H : parse_u64 raw = Some n |- _ => rename H into Hn end.
  split; [|by eapply parse_u64_ok].
  assert (u64_ok n) as Hok by (by eapply parse_u64_ok).
  eapply spelled_inj; [|by apply show_u64_spelled].
  apply parse_digits_spelled; [done| |].
  - intros Hl Hh. match goal with H : (_ && _) = false |- _ => rename H into Hz end.
    rewrite (proj2 (Nat.ltb_lt _ _) Hl), Hh in Hz. by rewrite bool_decide_true in Hz.
  - unfold parse_u64 in Hn. destruct raw as [|c r]; [done|]. cbn [strip_prefix] in Hn.
    destruct (decide (x2b = c)) as [<-|]; [|done].
    match goal with H : forallb _ _ = true |- _ => cbn in H; discriminate H end.
Qed.

Lemma parse_dec_show n : u64_ok n -> parse_dec (show_u64 n) = Ok n.
Proof.
  intros Hn. unfold parse_dec. pose proof (show_u64_nonempty n) as Hne.
  rewrite (bool_decide_false (show_u64 n = [])) by done.
  assert (forallb is_ascii_digit (show_u64 n) = true) as ->.
  { apply forallb_forall. intros c Hc%list_elem_of_In. apply show_u64_chars in Hc; [|apply Hn].
    unfold digit_val in Hc. unfold is_ascii_digit. destruct (_ && _); [done|]. by destruct Hc. }
  cbn [negb orb reject_if]. cbn [mbind result_bind].
  assert ((1 <? length (show_u64 n)) && bool_decide (head (show_u64 n) = Some x30) = false) as ->.
  { destruct (bool_decide (head (show_u64 n) = Some x30)) eqn:E; [|by rewrite andb_false_r].
    apply bool_decide_eq_true in E. rewrite (spelled_zero 10 n); [done|by apply show_u64_spelled|lia|done]. }
  cbn [reject_if mbind result_bind]. by rewrite parse_show_u64.
Qed.

(** ** What the decoder accepts *)

Definition equals : byte := x3d.

Lemma split_attribute_ok v k x :
  split_attribute v = Ok (k, x) <->
  v = k ++ equals :: x /\ equals ∉ k /\ equals ∉ x /\ k <> [] /\ x <> [].
Proof.
  unfold split_attribute. split.
  - intros Hv. inv_ok. destruct x0 as [k' x']. inv_ok. bools.
    match goal with H : split_once _ _ = _ |- _ => apply split_once_Some in H as [-> ?] end.
    simplify_eq. done.
  - intros (-> & Hk & Hx & Hk0 & Hx0).
    rewrite (proj2 (split_once_Some x3d _ k x)) by done. cbn [ok_or mbind result_bind].
    rewrite (bool_decide_false (k = [])), (bool_decide_false (x = [])), (bool_decide_false (x3d ∈ x)) by done. done.
Qed.

Section decoding.
Context `{Ed25519, Pkarr, Dns, Urls}.

Lemma parse_location_ok v l :
  parse_location v = Ok l -> v = location_txt l /\ NodeLocation_validate l = Ok tt.
Proof.
  unfold parse_location. intros Hv. apply result_bind_ok in Hv as ([k raw] & Hs & Hv).
  apply split_attribute_ok in Hs as (-> & _).
  destruct (bool_decide_reflect (k = str "addr")) as [->|_].
  - apply result_bind_ok in Hv as (a & _ & Hv). apply result_bind_ok in Hv as (_ & Hc%reject_if_ok & Hv).
    apply result_bind_ok in Hv as (_ & Hn%reject_if_ok & Hv). bools. apply dec_stable in Hc as <-, Hn.
    unfold NodeLocation_direct in Hv. rewrite Hn in Hv. apply result_bind_ok in Hv as ([] & Hv & [= <-]). done.
  - destruct (bool_decide_reflect (k = str "relay")) as [->|_]; [|done].
    apply result_bind_ok in Hv as (l' & Hr & Hv). apply result_bind_ok in Hv as (_ & Hc%reject_if_ok & [= <-]).
    bools. apply dec_stable in Hc as ->. unfold NodeLocation_relay in Hr.
    apply result_bind_ok in Hr as (u & _ & Hr). apply result_bind_ok in Hr as ([] & Hr & [= Hu]).
    by rewrite Hu in Hr.
Qed.

Lemma push_location_ok locs l locs' :
  push_location locs l = Ok locs' -> StronglySorted location_lt locs -> length locs <= MAX_NODE_LOCATIONS ->
  locs' = locs ++ [l] /\ StronglySorted location_lt locs' /\ length locs' <= MAX_NODE_LOCATIONS.
Proof.
  unfold push_location. intros Hp Hs Hlen. inv_ok. bools. split; [done|].
  rewrite length_app. cbn [length]. split; [|lia].
  apply StronglySorted_app. split_and!; [|done|repeat constructor].
  intros x y Hx ->%list_elem_of_singleton.
  destruct locs as [|z t _] using rev_ind; [by apply not_elem_of_nil in Hx|].
  rewrite last_snoc in *. bools. apply elem_of_app in Hx as [Hx| ->%list_elem_of_singleton]; [|done].
  apply StronglySorted_app in Hs as (Hlt & _ & _).
  apply (location_ltb_trans _ z); [|done]. apply Hlt; [done|]. by apply list_elem_of_singleton.
Qed.

(** An answer as its name, class, TTL and text. *)
Definition answer_view (a : ResourceRecord Name Txt) : list byte * bool * Z * option (list byte) :=
  (Name_to_string (rr_name a), rr_class_in a, rr_ttl a, rr_txt a ≫= Txt_to_string).

Definition txt_answer (name : list byte) (ttl : Z) (v : list byte) : list byte * bool * Z * option (list byte) :=
  (name, true, ttl, Some v).

(** The answers encode_node_record writes for a record. *)
Definition record_answers (r : NodeRecord) : list (list byte * bool * Z * option (list byte)) :=
  let key := NodeId_as_bytes (nr_node_id r) in
  (txt_answer (IROH_RECORD_NAME ++ str "." ++ to_z32 key) (nr_ttl_seconds r) <$> (location_txt <$> nr_locations r))
  ++ (txt_answer (METADATA_RECORD_NAME ++ str "." ++ to_z32 key) (nr_ttl_seconds r)
      <$> metadata_txts key (nr_namespace r) (nr_recipient r) (nr_ttl_seconds r) (nr_sequence r)
            (nr_expires_unix_micros r) (nr_state r)).

Definition attribute (m : gmap (list byte) (list byte)) (k : list byte) : list byte :=
  k ++ equals :: default [] (m !! k).

(** What the loop has established after reading [seen]. *)
Record loop_inv (iroh_name metadata_name : list byte) (seen : list (ResourceRecord Name Txt)) (lp : Loop) : Prop := {
  li_ttl : forall t, lp_ttl lp = Some t ->
    answer_view <$> seen
    = (txt_answer iroh_name t <$> (location_txt <$> lp_locations lp))
      ++ (txt_answer metadata_name t <$> (attribute (lp_metadata lp) <$> take (lp_index lp) METADATA_KEYS));
  li_none : lp_ttl lp = None -> lp = loop_start /\ seen = [];
  li_sorted : StronglySorted location_lt (lp_locations lp);
  li_valid : Forall (fun l => NodeLocation_validate l = Ok tt) (lp_locations lp);
  li_count : length (lp_locations lp) <= MAX_NODE_LOCATIONS;
  li_index : lp_index lp <= length METADATA_KEYS;
  li_keys : forall k, is_Some (lp_metadata lp !! k) <-> k ∈ take (lp_index lp) METADATA_KEYS
}.

Lemma loop_inv_start i m : loop_inv i m [] loop_start.
Proof.
  constructor; try done; try (simpl; lia); try (apply Forall_nil_2 || apply SSorted_nil).
  intros k. cbn. rewrite lookup_empty. split; [by intros [? ?]|by intros ?%not_elem_of_nil].
Qed.

Lemma METADATA_KEYS_NoDup : NoDup METADATA_KEYS.
Proof. apply (bool_decide_unpack _). vm_compute. exact I. Qed.

Lemma take_S_keys i k : METADATA_KEYS !! i = Some k -> take (S i) METADATA_KEYS = take i METADATA_KEYS ++ [k].
Proof. apply take_S_r. Qed.

Lemma key_not_before i k : METADATA_KEYS !! i = Some k -> k ∉ take i METADATA_KEYS.
Proof.
  intros Hi (j & Hj)%list_elem_of_lookup. rewrite lookup_take in Hj. case_decide; [|done].
  pose proof (NoDup_lookup _ _ _ _ METADATA_KEYS_NoDup Hj Hi). lia.
Qed.

Lemma attribute_insert m k v (ks : list (list byte)) :
  k ∉ ks -> attribute (<[k := v]> m) <$> ks = attribute m <$> ks.
Proof.
  intros Hk. apply list_fmap_ext. intros i x Hx. unfold attribute. rewrite lookup_insert_ne; [done|].
  intros ->. apply Hk. by eapply list_elem_of_lookup_2.
Qed.

(** The TTL an answer leaves behind, and the answers seen before under it. *)
Lemma loop_inv_ttl i m seen lp ttl :
  loop_inv i m seen lp -> match lp_ttl lp with Some expected => negb (expected =? ttl)%Z | None => false end = false ->
  match lp_ttl lp with Some t => Some t | None => Some ttl end = Some ttl /\
  answer_view <$> seen
  = (txt_answer i ttl <$> (location_txt <$> lp_locations lp))
    ++ (txt_answer m ttl <$> (attribute (lp_metadata lp) <$> take (lp_index lp) METADATA_KEYS)).
Proof.
  intros Hi Ht. destruct (lp_ttl lp) as [t|] eqn:E.
  - bools. subst t. split; [done|]. by apply (li_ttl _ _ _ _ Hi).
  - split; [done|]. by destruct (li_none _ _ _ _ Hi E) as [-> ->].
Qed.

Lemma read_answer_inv i m seen lp a lp' :
  loop_inv i m seen lp -> read_answer i m lp a = Ok lp' -> loop_inv i m (seen ++ [a]) lp'.
Proof.
  intros Hi. unfold read_answer. intros Ha.
  apply result_bind_ok in Ha as (_ & Hc%reject_if_ok & Ha). apply result_bind_ok in Ha as (_ & Ht%reject_if_ok & Ha).
  apply result_bind_ok in Ha as (txt & Htxt%ok_or_ok & Ha). apply result_bind_ok in Ha as (value & Hv%ok_or_ok & Ha).
  bools. destruct (loop_inv_ttl _ _ _ _ _ Hi Ht) as [Ettl Hseen].
  assert (answer_view a = (Name_to_string (rr_name a), true, rr_ttl a, Some value)) as Hview.
  { unfold answer_view. rewrite Hc, Htxt. cbn. by rewrite Hv. }
  destruct (bool_decide_reflect (Name_to_string (rr_name a) = i)) as [Hn|_].
  - apply result_bind_ok in Ha as (_ & Hz%reject_if_ok & Ha). bools.
    apply result_bind_ok in Ha as (l & Hl & Ha). apply result_bind_ok in Ha as (locs & Hp & Ha). inv_ok.
    apply parse_location_ok in Hl as [-> Hl].
    destruct (push_location_ok _ _ _ Hp (li_sorted _ _ _ _ Hi) (li_count _ _ _ _ Hi)) as (-> & Hs & Hcount).
    constructor; cbn [lp_ttl lp_locations lp_metadata lp_index]; try done; try apply Hi.
    + intros t Et. rewrite Ettl in Et. injection Et as <-. rewrite fmap_app, Hseen, Hz. cbn [take fmap list_fmap].
      rewrite !app_nil_r, !fmap_app. f_equal. cbn. by rewrite Hview.
    + rewrite Ettl. done.
    + apply Forall_app. split; [apply Hi|]. by repeat constructor.
  - destruct (bool_decide_reflect (Name_to_string (rr_name a) = m)) as [Hn|_]; [|done].
    apply result_bind_ok in Ha as ([k v] & Hs & Ha). apply split_attribute_ok in Hs as (-> & _).
    apply result_bind_ok in Ha as (_ & Hk%reject_if_ok & Ha). apply result_bind_ok in Ha as (_ & Hd%reject_if_ok & Ha).
    inv_ok. bools. apply dec_stable in Hk.
    constructor; cbn [lp_ttl lp_locations lp_metadata lp_index]; try done; try apply Hi.
    + intros t Et. rewrite Ettl in Et. injection Et as <-.
      rewrite fmap_app, Hseen, (take_S_keys _ k), <-!app_assoc, !fmap_app by done. f_equal.
      rewrite attribute_insert by (by apply key_not_before). f_equal.
      cbn. rewrite Hview. unfold attribute. by rewrite lookup_insert_eq.
    + rewrite Ettl. done.
    + by eapply lookup_lt_Some.
    + intros k'. rewrite (take_S_keys _ k) by done. rewrite elem_of_app, list_elem_of_singleton, <-(li_keys _ _ _ _ Hi).
      rewrite lookup_insert_is_Some. destruct (decide (k = k')); naive_solver.
Qed.

Lemma read_answers_inv i m seen lp l lp' :
  loop_inv i m seen lp -> read_answers i m lp l = Ok lp' -> loop_inv i m (seen ++ l) lp'.
Proof.
  revert seen lp. induction l as [|a l IH]; intros seen lp Hi; cbn [read_answers].
  - intros [= <-]. by rewrite app_nil_r.
  - intros (lp1 & Ha & Hl)%result_bind_ok. rewrite (app_assoc seen [a] l : seen ++ a :: l = _).
    eapply IH; [|done]. by eapply read_answer_inv.
Qed.

(** What a record is, as far as its own fields can say. *)
Record record_wf (r : NodeRecord) : Prop := {
  rw_namespace : validate_namespace (nr_namespace r) = Ok tt;
  rw_recipient : validate_recipient (nr_recipient r) = Ok tt;
  rw_ttl : (0 < nr_ttl_seconds r <= u32_max)%Z;
  rw_sequence : (0 <= nr_sequence r)%Z;
  rw_expiry : nr_expires_unix_micros r = (nr_sequence r + nr_ttl_seconds r * 1000000)%Z;
  rw_bound : (nr_expires_unix_micros r <= u64_max)%Z;
  rw_sorted : StronglySorted location_lt (nr_locations r);
  rw_valid : Forall (fun l => NodeLocation_validate l = Ok tt) (nr_locations r);
  rw_count : length (nr_locations r) <= MAX_NODE_LOCATIONS;
  rw_state : nr_state r = Live <-> nr_locations r <> []
}.

Lemma record_expiry_ok s t e :
  record_expiry s t = Ok e <-> e = (s + t * 1000000)%Z /\ (t * 1000000 <= u64_max)%Z /\ (e <= u64_max)%Z.
Proof.
  unfold record_expiry, u64_checked_add. split.
  - intros (_ & Ht%reject_if_ok & He%ok_or_ok)%result_bind_ok. bools.
    destruct (Z.leb_spec (s + t * 1000000) u64_max); [|done]. injection He as <-. lia.
  - intros (-> & Ht & He). rewrite (proj2 (Z.ltb_ge _ _)) by done. cbn.
    by rewrite (proj2 (Z.leb_le _ _)).
Qed.

Lemma all_keys (i : nat) (m : gmap (list byte) (list byte)) :
  (forall k : list byte, is_Some (m !! k) <-> k ∈ take i METADATA_KEYS) ->
  forallb (fun k => bool_decide (is_Some (m !! k))) METADATA_KEYS = true ->
  take i METADATA_KEYS = METADATA_KEYS.
Proof.
  intros Hk Hall. rewrite forallb_forall in Hall.
  destruct (decide (length METADATA_KEYS <= i)) as [Hi|Hi]; [by apply take_ge|].
  destruct (lookup_lt_is_Some_2 METADATA_KEYS i) as [k Hn]; [lia|].
  exfalso. apply (key_not_before i k Hn), Hk.
  apply (bool_decide_eq_true (is_Some (m !! k))), Hall.
  apply list_elem_of_In. by eapply list_elem_of_lookup_2.
Qed.

Lemma metadata_spelled (signed : SignedPacket) (m : gmap (list byte) (list byte)) ttl seq exp st :
  let v := fun k => default [] (m !! str k) in
  v "schema" = NODE_PUBLICATION_SCHEMA -> v "signer" = to_z32 (public_key signed) ->
  v "node-id" = NodeId_to_hex (NodeId_from_bytes (public_key signed)) ->
  v "ttl-seconds" = show_u64 ttl -> v "sequence" = show_u64 seq -> v "expires-unix-micros" = show_u64 exp ->
  v "state" = PublicationState_as_str st ->
  attribute m <$> METADATA_KEYS
  = metadata_txts (public_key signed) (v "namespace") (v "recipient") ttl seq exp st.
Proof.
  cbn zeta. intros H1' H2' H3 H4 H5 H6 H7. unfold metadata_txts.
  rewrite <-H1', <-H2', <-H3, <-H4, <-H5, <-H6, <-H7. reflexivity.
Qed.

Lemma finish_record_ok seen signed lp r :
  let signer := to_z32 (public_key signed) in
  loop_inv (IROH_RECORD_NAME ++ str "." ++ signer) (METADATA_RECORD_NAME ++ str "." ++ signer) seen lp ->
  finish_record signed lp = Ok r ->
  record_wf r /\ nr_node_id r = NodeId_from_bytes (public_key signed) /\ nr_sequence r = timestamp signed /\
  answer_view <$> seen = record_answers r.
Proof.
  cbn zeta. intros Hi Hf. unfold finish_record in Hf.
  apply result_bind_ok in Hf as (_ & Hkeys%reject_if_ok & Hf). apply orb_false_iff in Hkeys as [_ Hkeys].
  apply negb_false_iff in Hkeys. apply result_bind_ok in Hf as (_ & Hschema%reject_if_ok & Hf).
  apply result_bind_ok in Hf as ([] & Hns & Hf). apply result_bind_ok in Hf as ([] & Hrc & Hf).
  apply result_bind_ok in Hf as (_ & Hsigner%reject_if_ok & Hf).
  apply result_bind_ok in Hf as (_ & Hnode%reject_if_ok & Hf).
  apply result_bind_ok in Hf as (ttl & Httl & Hf). apply result_bind_ok in Hf as (_ & Hpos%reject_if_ok & Hf).
  apply result_bind_ok in Hf as (seq & Hseq & Hf). apply result_bind_ok in Hf as (_ & Hts%reject_if_ok & Hf).
  apply result_bind_ok in Hf as (ex & Hexp & Hf). apply result_bind_ok in Hf as (ex' & Hex%record_expiry_ok & Hf).
  apply result_bind_ok in Hf as (_ & He%reject_if_ok & Hf).
  apply result_bind_ok in Hf as (st & Hst & Hf). apply result_bind_ok in Hf as ([] & Hloc & [= <-]).
  apply orb_false_iff in Hpos as [Hpos Hlp]. apply result_bind_ok in Httl as (t & Ht & Hle).
  apply result_bind_ok in Hle as (_ & Hle%reject_if_ok & [= <-]). bools. subst ex'.
  apply dec_stable in Hschema, Hsigner, Hnode, Hlp.
  apply parse_dec_canonical in Ht as [Et Ht], Hseq as [Eseq Hseq], Hexp as [Eexp Hexp].
  destruct Hex as (-> & _ & Hbound).
  assert (default [] (lp_metadata lp !! str "state") = PublicationState_as_str st) as Estate.
  { revert Hst. generalize (default [] (lp_metadata lp !! str "state")). intros v.
    destruct (bool_decide_reflect (v = str "live")) as [->|_]; [by intros [= <-]|].
    destruct (bool_decide_reflect (v = str "withdrawn")) as [->|_]; by intros [= <-]. }
  pose proof (merge_sort_sorted _ (li_sorted _ _ _ _ Hi)) as Hsort. unfold u64_ok in *.
  split; [|split; [done|split; [done|]]].
  - constructor; cbn; rewrite ?Hsort; try done; try apply Hi; try lia.
    destruct st; unfold reject_if in Hloc; case_bool_decide; try done; naive_solver.
  - rewrite (li_ttl _ _ _ _ Hi t Hlp).
    rewrite (all_keys (lp_index lp) (lp_metadata lp)) by (done || apply Hi).
    unfold record_answers. cbn [nr_node_id nr_locations nr_ttl_seconds nr_namespace nr_recipient nr_sequence
      nr_expires_unix_micros nr_state NodeId_as_bytes]. rewrite Hsort. f_equal.
    by rewrite (metadata_spelled signed (lp_metadata lp) t seq (seq + t * 1000000) st).
Qed.

(** The decoder's checks, together. *)
Lemma decode_spells bytes r :
  decode_node_record bytes = Ok r ->
  exists signed packet,
    packet_from_bytes bytes = Some signed /\ Packet_parse (encoded_packet signed) = Some packet /\
    build_bytes_vec_compressed packet = Some (encoded_packet signed) /\
    record_wf r /\ nr_node_id r = NodeId_from_bytes (public_key signed) /\ nr_sequence r = timestamp signed /\
    answer_view <$> answers packet = record_answers r.
Proof.
  unfold decode_node_record. intros Hd.
  apply result_bind_ok in Hd as (signed & Hs%ok_or_ok & Hd). apply result_bind_ok in Hd as (_ & _ & Hd).
  apply result_bind_ok in Hd as (packet & Hp%ok_or_ok & Hd). apply result_bind_ok in Hd as (dns & Hb%ok_or_ok & Hd).
  apply result_bind_ok in Hd as (_ & Hc%reject_if_ok & Hd). apply result_bind_ok in Hd as (_ & _ & Hd).
  apply result_bind_ok in Hd as (lp & Hl & Hf). bools. apply dec_stable in Hc as ->.
  pose proof (read_answers_inv _ _ [] _ _ _ (loop_inv_start _ _) Hl) as Hi. cbn [app] in Hi.
  destruct (finish_record_ok _ _ _ _ Hi Hf) as (Hwf & Hn & Hseq & Hv).
  exists signed, packet. done.
Qed.

Lemma decoded_wf bytes r : decode_node_record bytes = Ok r -> record_wf r.
Proof. intros (_ & _ & _ & _ & _ & Hwf & _)%decode_spells. done. Qed.

(** C17: Whatever [decode_node_record] accepts is the canonical spelling of one
    well-formed record bound to its signer.  The packet's signature was checked,
    the record's node id is the signing key and its sequence the signed
    timestamp; the expiry is exactly sequence plus TTL without overflow; the
    locations are valid, strictly ordered and at most sixteen, and there are
    some exactly when the record is live; and the packet carries, answer by
    answer, what the encoder writes for that record. *)
Theorem decode_node_record_canonical bytes r :
  decode_node_record bytes = Ok r ->
  exists signed packet,
    packet_from_bytes bytes = Some signed /\ Packet_parse (encoded_packet signed) = Some packet /\
    build_bytes_vec_compressed packet = Some (encoded_packet signed) /\
    record_wf r /\ nr_node_id r = NodeId_from_bytes (public_key signed) /\ nr_sequence r = timestamp signed /\
    answer_view <$> answers packet = record_answers r.
Proof.
  apply decode_spells.
Qed.

End decoding.

(** ** What the encoder writes is read back *)

Lemma app_eq_length {A} (a b c d : list A) : length a = length c -> a ++ b = c ++ d -> a = c /\ b = d.
Proof. intros Hl He. by apply app_inj_1. Qed.

(** The addresses a text can carry: in range and without a flow label. *)
Definition plain_location (l : NodeLocation) : Prop :=
  match l with
  | Direct a => sock_ok a /\ match a with SockV6 _ _ f _ => f = 0%Z | SockV4 _ _ => True end
  | Relay _ => True
  end.

Definition safe_text (s : list byte) : Prop := s <> [] /\ equals ∉ s.
#[export] Instance safe_text_dec s : Decision (safe_text s).
Proof. unfold safe_text. apply _. Defined.
Ltac safe_literal := apply (bool_decide_unpack _); vm_compute; exact I.

Lemma split_attribute_text k v : safe_text k -> safe_text v -> split_attribute (k ++ equals :: v) = Ok (k, v).
Proof. intros [Hk Hke] [Hv Hve]. by apply split_attribute_ok. Qed.

Lemma forallb_safe (p : byte -> bool) s : p equals = false -> forallb p s = true -> equals ∉ s.
Proof.
  intros Hp Hs Hin. rewrite forallb_forall in Hs. apply list_elem_of_In, Hs in Hin. congruence.
Qed.

Lemma show_u64_safe n : (0 <= n)%Z -> safe_text (show_u64 n).
Proof.
  intros Hn. split; [apply show_u64_nonempty|]. intros Hc%show_u64_chars; [|done]. by destruct Hc.
Qed.

Lemma spelled_safe radix n s : spelled radix n s -> equals ∉ s.
Proof.
  intros Hs%spelled_digits Hin. rewrite Forall_forall in Hs. apply Hs in Hin as [d Hd].
  unfold to_digit in Hd. by change (persist_hex.to_digit16 equals) with (@None Z) in Hd.
Qed.

Lemma show_tail_safe gs : u16s gs -> equals ∉ show_tail gs.
Proof.
  induction 1 as [|g gs Hg _ IH]; cbn [show_tail]; [apply not_elem_of_nil|].
  rewrite !not_elem_of_app. split_and!; [by intros ?%list_elem_of_singleton| |done].
  by eapply spelled_safe, show_hex_spelled.
Qed.

Lemma show_groups_safe gs : u16s gs -> equals ∉ show_groups gs.
Proof.
  destruct 1 as [|g gs Hg Hgs]; cbn [show_groups]; [apply not_elem_of_nil|].
  rewrite not_elem_of_app. split; [by eapply spelled_safe, show_hex_spelled|by apply show_tail_safe].
Qed.

Lemma show_v4_safe a : equals ∉ show_v4 a.
Proof.
  unfold show_v4. rewrite !not_elem_of_app.
  assert (forall b, equals ∉ show_u64 (u8_val b)) as Hb by (intros b; apply show_u64_safe, u8_val_range).
  assert (equals ∉ [dot]) by (by intros ?%list_elem_of_singleton). split_and!; auto.
Qed.

Lemma show_v6_safe a : equals ∉ show_v6 a.
Proof.
  unfold show_v6. destruct (to_ipv4_mapped a).
  - rewrite not_elem_of_app. split; [|apply show_v4_safe]. apply (bool_decide_unpack _). by vm_compute.
  - pose proof (be_groups_u16s 8 (v6_bits a)) as Hu. fold (v6_segments a) in Hu.
    destruct (longest_zeroes _ _ _ _) as [st len]. destruct (1 <? len); [|by apply show_groups_safe].
    rewrite !not_elem_of_app. split_and!.
    + by apply show_groups_safe, Forall_take.
    + apply (bool_decide_unpack _). by vm_compute.
    + by apply show_groups_safe, Forall_drop.
Qed.

Lemma show_sock_safe a : sock_ok a -> safe_text (show_sock a).
Proof.
  intros Ha. destruct a as [ip p|ip p f sc]; cbn [show_sock sock_ok] in *.
  - split.
    + intros [_ [=]]%app_eq_nil.
    + rewrite !not_elem_of_app. split_and!; [apply show_v4_safe|by intros ?%list_elem_of_singleton|].
      apply show_u64_safe. lia.
  - split; [done|]. destruct Ha as (_ & Hp & _ & Hs). unfold u32_ok in Hs. rewrite !not_elem_of_app.
    assert (forall s, equals ∉ str s <-> bool_decide (equals ∈ str s) = false) as Hstr.
    { intros s. by rewrite bool_decide_eq_false. }
    split_and!; try (by rewrite Hstr; vm_compute).
    + apply show_v6_safe.
    + destruct (sc =? 0)%Z; [apply not_elem_of_nil|]. rewrite not_elem_of_app.
      split; [by rewrite Hstr; vm_compute|apply show_u64_safe; lia].
    + apply show_u64_safe. lia.
Qed.

Lemma reject_same {A E} `{EqDecision A} (x : A) (e : E) : reject_if (bool_decide (x <> x)) e = Ok tt.
Proof. by rewrite bool_decide_false by (by intros []). Qed.

Lemma cons_eq_inv {A} (x y : A) l k : x :: l = y :: k -> x = y /\ l = k.
Proof. by intros [= -> ->]. Qed.

Section encoding.
Context `{Ed25519, Pkarr, Dns, Urls, !PkarrLaws, !DnsLaws, !UrlLaws}.

Lemma parse_location_txt l :
  NodeLocation_validate l = Ok tt -> plain_location l -> parse_location (location_txt l) = Ok l.
Proof.
  intros Hv Hp. destruct l as [a|u]; cbn [location_txt]; unfold parse_location.
  - destruct Hp as [Hok Hf]. change (str "addr=" ++ show_sock a) with (str "addr" ++ equals :: show_sock a).
    rewrite split_attribute_text; [|safe_literal|by apply show_sock_safe].
    cbn [mbind result_bind]. rewrite bool_decide_true, parse_show_sock by done. cbn [ok_or mbind result_bind].
    rewrite reject_same. cbn [mbind result_bind NodeLocation_validate] in *. pose proof Hv as Hn. unfold validate_direct_address in Hn.
    apply result_bind_ok in Hn as (_ & Hn%reject_if_ok & _). bools. apply dec_stable in Hn.
    unfold NodeLocation_direct. rewrite Hn, reject_same. cbn [mbind result_bind]. by rewrite Hv.
  - cbn [NodeLocation_validate] in Hv. pose proof Hv as Hu. unfold validate_relay_url in Hu.
    apply result_bind_ok in Hu as (_ & He%reject_if_ok & Hu). apply result_bind_ok in Hu as (url & Hurl%ok_or_ok & Hu).
    repeat apply result_bind_ok in Hu as (_ & _ & Hu). apply reject_if_ok in Hu. bools. apply dec_stable in Hu.
    change (str "relay=" ++ u) with (str "relay" ++ equals :: u).
    rewrite split_attribute_text.
    2: safe_literal.
    2: { split; [|done]. intros ->. by rewrite Url_parse_empty in Hurl. }
    cbn [mbind result_bind]. rewrite bool_decide_false, bool_decide_true by done.
    unfold NodeLocation_relay. rewrite Hurl. cbn [ok_or mbind result_bind]. rewrite Hu, Hv. cbn [mbind result_bind].
    by rewrite reject_same.
Qed.

Lemma add_txts_views name origin ttl vs rs :
  add_txts name origin ttl vs = Ok rs -> answer_view <$> rs = txt_answer (name ++ str "." ++ origin) ttl <$> vs.
Proof.
  revert rs. induction vs as [|v vs IH]; intros rs; cbn [add_txts]; [by intros [= <-]|].
  intros (r & Hr & Hrs)%result_bind_ok. apply result_bind_ok in Hrs as (rs' & Hrs & [= <-]).
  rewrite !fmap_cons, (IH rs') by done. f_equal. unfold add_txt in Hr.
  apply result_bind_ok in Hr as (n & Hn%ok_or_ok & Hr). apply result_bind_ok in Hr as (t & Ht%ok_or_ok & [= <-]).
  unfold answer_view, txt_answer. cbn. by rewrite (name_of_string _ _ Hn), (txt_of_string _ _ Ht).
Qed.

(** One answer, seen through its view. *)
Lemma read_answer_view i m lp a name ttl v :
  answer_view a = txt_answer name ttl v -> lp_ttl lp = None \/ lp_ttl lp = Some ttl ->
  read_answer i m lp a =
  if bool_decide (name = i) then
    _ ← reject_if (negb (lp_index lp =? 0)) LocationAfterMetadata;
    location ← parse_location v;
    locs ← push_location (lp_locations lp) location;
    Ok {| lp_ttl := Some ttl; lp_locations := locs; lp_metadata := lp_metadata lp; lp_index := lp_index lp |}
  else if bool_decide (name = m) then
    '(key, value) ← split_attribute v;
    _ ← reject_if (bool_decide (METADATA_KEYS !! lp_index lp <> Some key)) MetadataPosition;
    _ ← reject_if (bool_decide (is_Some (lp_metadata lp !! key))) DuplicateMetadata;
    Ok {| lp_ttl := Some ttl; lp_locations := lp_locations lp; lp_metadata := <[key := value]> (lp_metadata lp);
          lp_index := S (lp_index lp) |}
  else Err UnexpectedName.
Proof.
  unfold answer_view, txt_answer. intros [= <- Hc <- Hv] Ht. unfold read_answer. rewrite Hc. cbn [negb reject_if].
  destruct (rr_txt a) as [t|]; [|done]. cbn in Hv.
  assert (match lp_ttl lp with Some e => negb (e =? rr_ttl a)%Z | None => false end = false) as ->.
  { destruct Ht as [->| ->]; [done|]. by rewrite Z.eqb_refl. }
  assert (match lp_ttl lp with Some t => Some t | None => Some (rr_ttl a) end = Some (rr_ttl a)) as Et
    by (by destruct Ht as [->| ->]).
  cbn [reject_if ok_or mbind result_bind]. rewrite Hv. cbn [ok_or mbind result_bind]. by rewrite Et.
Qed.

Lemma push_location_next locs l :
  StronglySorted location_lt (locs ++ [l]) -> length locs < MAX_NODE_LOCATIONS ->
  push_location locs l = Ok (locs ++ [l]).
Proof.
  intros Hs Hl. apply StronglySorted_app in Hs as (Hlt & _ & _).
  assert (forall x, x ∈ locs -> location_ltb x l = true) as Hx.
  { intros x Hx. apply Hlt; [done|]. by apply list_elem_of_singleton. }
  unfold push_location. rewrite bool_decide_false.
  2: { intros Hin. specialize (Hx l Hin). by rewrite location_ltb_irrefl in Hx. }
  assert (match last locs with Some p => negb (location_ltb p l) | None => false end = false) as ->.
  { destruct (last locs) as [p|] eqn:E; [|done]. rewrite Hx; [done|]. by apply last_Some_elem_of. }
  cbn [reject_if mbind result_bind]. by rewrite (proj2 (Nat.eqb_neq _ _)) by lia.
Qed.

Lemma read_locations i m ttl rs locs lp :
  answer_view <$> rs = txt_answer i ttl <$> (location_txt <$> locs) ->
  lp_ttl lp = None \/ lp_ttl lp = Some ttl -> lp_index lp = 0 ->
  StronglySorted location_lt (lp_locations lp ++ locs) -> length (lp_locations lp ++ locs) <= MAX_NODE_LOCATIONS ->
  Forall (fun l => NodeLocation_validate l = Ok tt /\ plain_location l) locs ->
  exists t, (t = None \/ t = Some ttl) /\
    read_answers i m lp rs = Ok {| lp_ttl := t; lp_locations := lp_locations lp ++ locs;
                                   lp_metadata := lp_metadata lp; lp_index := 0 |}.
Proof.
  revert rs lp. induction locs as [|l locs IH]; intros rs lp Hv Ht H0' Hs Hlen Hok.
  - apply fmap_nil_inv in Hv as ->. exists (lp_ttl lp). split; [done|]. rewrite app_nil_r, <-H0'. by destruct lp.
  - destruct rs as [|a rs]; [done|]. rewrite !fmap_cons in Hv. apply cons_eq_inv in Hv as [Ha Hv]. inversion Hok as [|? ? [Hvl Hpl] Hok']; subst.
    rewrite (app_assoc _ [l] locs : lp_locations lp ++ l :: locs = _) in *.
    assert (StronglySorted location_lt (lp_locations lp ++ [l])) as Hs1 by (by apply StronglySorted_app in Hs as (_ & ? & _)).
    rewrite !length_app in Hlen. cbn [length] in Hlen.
    cbn [read_answers]. rewrite (read_answer_view i m lp a i ttl (location_txt l)) by done.
    rewrite bool_decide_true, H0', parse_location_txt by done. cbn [Nat.eqb negb reject_if mbind result_bind].
    rewrite push_location_next by (done || lia). cbn [mbind result_bind].
    apply (IH rs {| lp_ttl := Some ttl; lp_locations := lp_locations lp ++ [l];
                    lp_metadata := lp_metadata lp; lp_index := 0 |});
      cbn [lp_locations lp_ttl lp_index]; try done; [by right|].
    rewrite !length_app. cbn [length]. lia.
Qed.

Definition add_all (w : list byte -> list byte) (m : gmap (list byte) (list byte)) (ks : list (list byte)) :
    gmap (list byte) (list byte) := foldl (fun m k => <[k := w k]> m) m ks.

Lemma add_all_other w m ks k : k ∉ ks -> add_all w m ks !! k = m !! k.
Proof.
  revert m. induction ks as [|x ks IH]; intros m Hk; [done|].
  change (add_all w m (x :: ks)) with (add_all w (<[x := w x]> m) ks).
  rewrite (IH (<[x := w x]> m)) by set_solver. apply lookup_insert_ne. set_solver.
Qed.

Lemma add_all_spec w m ks :
  NoDup ks -> (forall k, k ∈ ks -> m !! k = None) ->
  (forall k, k ∈ ks -> add_all w m ks !! k = Some (w k)) /\ size (add_all w m ks) = size m + length ks.
Proof.
  intros Hn. revert m. induction Hn as [|x ks Hx Hn IH]; intros m Hm; cbn [add_all foldl length].
  - split; [by intros k ?%not_elem_of_nil|lia].
  - destruct (IH (<[x := w x]> m)) as [Hk Hs].
    { intros k Hk. rewrite lookup_insert_ne by (intros ->; done). apply Hm. set_solver. }
    fold (add_all w (<[x := w x]> m) ks). split.
    + intros k [->|Hk']%elem_of_cons; [|by apply Hk]. rewrite add_all_other by done. by rewrite lookup_insert_eq.
    + rewrite Hs, map_size_insert_None by (apply Hm; set_solver). lia.
Qed.

Lemma read_metadata i m ttl w rs n lp :
  i <> m -> lp_index lp + n = length METADATA_KEYS ->
  answer_view <$> rs = (fun k => txt_answer m ttl (k ++ equals :: w k)) <$> drop (lp_index lp) METADATA_KEYS ->
  lp_ttl lp = None \/ lp_ttl lp = Some ttl ->
  (forall k, k ∈ METADATA_KEYS -> safe_text k /\ safe_text (w k)) ->
  (forall k, k ∈ drop (lp_index lp) METADATA_KEYS -> lp_metadata lp !! k = None) ->
  exists t, (n <> 0 -> t = Some ttl) /\
    read_answers i m lp rs = Ok {| lp_ttl := t; lp_locations := lp_locations lp;
                                   lp_metadata := add_all w (lp_metadata lp) (drop (lp_index lp) METADATA_KEYS);
                                   lp_index := length METADATA_KEYS |}.
Proof.
  intros Him. revert rs lp. induction n as [|n IH]; intros rs lp Hi Hv Ht Hw Hm.
  - rewrite drop_ge in * by lia. apply fmap_nil_inv in Hv as ->. exists (lp_ttl lp). split; [done|].
    rewrite Nat.add_0_r in Hi. rewrite <-Hi. by destruct lp.
  - destruct (lookup_lt_is_Some_2 METADATA_KEYS (lp_index lp)) as [k Hk]; [lia|].
    rewrite (drop_S _ k) in * by done. destruct rs as [|a rs]; [done|]. rewrite !fmap_cons in Hv.
    apply cons_eq_inv in Hv as [Ha Hv]. assert (k ∈ METADATA_KEYS) as Hin by (by eapply list_elem_of_lookup_2).
    destruct (Hw k Hin) as [Hks Hws].
    cbn [read_answers]. rewrite (read_answer_view i m lp a m ttl (k ++ equals :: w k)) by done.
    rewrite bool_decide_false, bool_decide_true, split_attribute_text by done. cbn [mbind result_bind].
    rewrite Hk, reject_same. cbn [mbind result_bind].
    rewrite bool_decide_false by (rewrite (Hm k) by apply list_elem_of_here; by intros [? ?]). cbn [reject_if mbind result_bind].
    destruct (IH rs {| lp_ttl := Some ttl; lp_locations := lp_locations lp;
                       lp_metadata := <[k := w k]> (lp_metadata lp); lp_index := S (lp_index lp) |}) as (t & Et & Hr);
      cbn [lp_index lp_ttl lp_metadata lp_locations] in *; try done; [lia|by right| |].
    + intros k' Hk'. rewrite lookup_insert_ne; [apply Hm; by apply list_elem_of_further|]. intros ->.
      pose proof METADATA_KEYS_NoDup as Hn. rewrite <-(take_drop (lp_index lp) METADATA_KEYS), (drop_S _ k') in Hn by done.
      apply NoDup_app in Hn as (_ & _ & Hn). by apply NoDup_cons in Hn as [? _].
    + exists (Some ttl). split; [done|]. rewrite Hr. do 2 f_equal.
      destruct n; [|by rewrite Et]. rewrite drop_ge in Hv by lia. apply fmap_nil_inv in Hv as ->.
      cbn in Hr. by injection Hr.
Qed.

(** The metadata attributes by key. *)
Definition metadata_value (key : array 32) (ns rc : list byte) (ttl seq exp : Z) (st : PublicationState)
    (k : list byte) : list byte :=
  if bool_decide (k = str "schema") then NODE_PUBLICATION_SCHEMA
  else if bool_decide (k = str "namespace") then ns
  else if bool_decide (k = str "signer") then to_z32 key
  else if bool_decide (k = str "node-id") then NodeId_to_hex (NodeId_from_bytes key)
  else if bool_decide (k = str "recipient") then rc
  else if bool_decide (k = str "ttl-seconds") then show_u64 ttl
  else if bool_decide (k = str "sequence") then show_u64 seq
  else if bool_decide (k = str "expires-unix-micros") then show_u64 exp
  else PublicationState_as_str st.

Lemma metadata_by_key key ns rc ttl seq exp st :
  metadata_txts key ns rc ttl seq exp st
  = (fun k => k ++ equals :: metadata_value key ns rc ttl seq exp st k) <$> METADATA_KEYS.
Proof. reflexivity. Qed.

Lemma z32_safe k : safe_text (to_z32 k).
Proof. split; [apply z32_nonempty|]. by intros Hc%z32_alphabet. Qed.

Lemma hex_safe k : safe_text (NodeId_to_hex (NodeId_from_bytes k)).
Proof.
  unfold NodeId_to_hex. cbn [NodeId_as_bytes]. split.
  - intros E. apply (f_equal length) in E. rewrite hexfmt.length_encode, arr_length in E. done.
  - change (hexfmt.encode (arr_bytes k)) with (persist_hex.to_hex (arr_bytes k)).
    intros [d Hd]%persist_hex.to_hex_chars. done.
Qed.

Lemma namespace_safe ns : validate_namespace ns = Ok tt -> safe_text ns.
Proof.
  unfold validate_namespace. intros (_ & Hl%reject_if_ok & Hc%reject_if_ok)%result_bind_ok.
  apply orb_false_iff in Hl as [Hl _], Hc as [_ Hc]. bools. split; [done|].
  eapply forallb_safe; [|done]. reflexivity.
Qed.

Lemma recipient_safe rc : validate_recipient rc = Ok tt -> safe_text rc.
Proof.
  unfold validate_recipient, validate_token. intros ([] & Ht & _)%result_bind_ok.
  apply result_bind_ok in Ht as (_ & Hl%reject_if_ok & Hc%reject_if_ok).
  apply orb_false_iff in Hl as [Hl _]. bools. split; [done|].
  eapply forallb_safe; [|done]. reflexivity.
Qed.

Lemma metadata_safe key ns rc ttl seq exp st k :
  validate_namespace ns = Ok tt -> validate_recipient rc = Ok tt -> (0 <= ttl)%Z -> (0 <= seq)%Z -> (0 <= exp)%Z ->
  k ∈ METADATA_KEYS -> safe_text k /\ safe_text (metadata_value key ns rc ttl seq exp st k).
Proof.
  intros Hns Hrc Ht Hs He Hk. split.
  - revert k Hk. apply (proj1 (Forall_forall _ _)). safe_literal.
  - unfold metadata_value. repeat case_bool_decide;
      auto using z32_safe, hex_safe, namespace_safe, recipient_safe, show_u64_safe.
    destruct st; safe_literal.
Qed.

Lemma record_names_differ signer :
  IROH_RECORD_NAME ++ str "." ++ signer <> METADATA_RECORD_NAME ++ str "." ++ signer.
Proof. by intros [=]. Qed.

Lemma finish_metadata signed lp ns rc ttl st locs :
  let key := public_key signed in let seq := timestamp signed in let exp := (seq + ttl * 1000000)%Z in
  lp = {| lp_ttl := Some ttl; lp_locations := locs;
          lp_metadata := add_all (metadata_value key ns rc ttl seq exp st) ∅ METADATA_KEYS;
          lp_index := length METADATA_KEYS |} ->
  validate_namespace ns = Ok tt -> validate_recipient rc = Ok tt -> (0 < ttl <= u32_max)%Z ->
  u64_ok seq -> (exp <= u64_max)%Z -> (st = Live <-> locs <> []) ->
  finish_record signed lp =
  Ok {| nr_node_id := NodeId_from_bytes key; nr_namespace := ns; nr_recipient := rc; nr_ttl_seconds := ttl;
        nr_sequence := seq; nr_expires_unix_micros := exp; nr_state := st;
        nr_locations := merge_sort location_le locs |}.
Proof.
  cbn zeta. intros -> Hns Hrc Httl Hseq Hexp Hst.
  set (w := metadata_value _ _ _ _ _ _ _). destruct (add_all_spec w ∅ METADATA_KEYS METADATA_KEYS_NoDup) as [Hk Hsize].
  { intros k _. apply lookup_empty. }
  assert (forall k, bool_decide (k ∈ METADATA_KEYS) = true ->
            default [] (add_all w ∅ METADATA_KEYS !! k) = w k) as Hm.
  { intros k ?%bool_decide_eq_true. by rewrite Hk. }
  unfold finish_record. cbn [lp_metadata lp_ttl lp_locations]. rewrite Hsize, map_size_empty.
  rewrite (proj2 (forallb_forall _ METADATA_KEYS)).
  2: { intros k Hin%list_elem_of_In. apply bool_decide_eq_true. rewrite Hk by done. eauto. }
  rewrite !Hm by reflexivity. cbn [Nat.add]. rewrite Nat.eqb_refl. cbn [negb orb reject_if mbind result_bind].
  unfold u64_ok, u32_max, u64_max in *.
  change (w (str "schema")) with NODE_PUBLICATION_SCHEMA. change (w (str "namespace")) with ns.
  change (w (str "recipient")) with rc. change (w (str "signer")) with (to_z32 (public_key signed)).
  change (w (str "node-id")) with (NodeId_to_hex (NodeId_from_bytes (public_key signed))).
  change (w (str "ttl-seconds")) with (show_u64 ttl). change (w (str "sequence")) with (show_u64 (timestamp signed)).
  change (w (str "expires-unix-micros")) with (show_u64 (timestamp signed + ttl * 1000000)).
  change (w (str "state")) with (PublicationState_as_str st).
  rewrite !reject_same. cbn [mbind result_bind]. rewrite Hns, Hrc. cbn [mbind result_bind].
  unfold parse_u32. rewrite !parse_dec_show by (unfold u64_ok, u64_max; lia). cbn [mbind result_bind].
  unfold u32_max. rewrite (proj2 (Z.ltb_ge _ ttl)) by lia. cbn [reject_if mbind result_bind].
  rewrite (proj2 (Z.eqb_neq ttl 0)) by lia. cbn [orb]. rewrite reject_same. cbn [mbind result_bind].
  rewrite Z.eqb_refl. cbn [negb reject_if mbind result_bind].
  rewrite (proj2 (record_expiry_ok _ _ (timestamp signed + ttl * 1000000))) by (unfold u64_max; lia).
  cbn [mbind result_bind]. rewrite Z.eqb_refl. cbn [negb reject_if mbind result_bind].
  destruct st; cbn [PublicationState_as_str].
  - change (bool_decide (str "live" = str "live")) with true. cbn [mbind result_bind].
    rewrite (bool_decide_false (locs = [])) by (by apply Hst). done.
  - change (bool_decide (str "withdrawn" = str "live")) with false.
    change (bool_decide (str "withdrawn" = str "withdrawn")) with true. cbn [mbind result_bind].
    rewrite (bool_decide_false (locs <> [])); [done|]. intros Hl. by apply Hst in Hl.
Qed.

(** The parts of a packet that was assembled by hand. *)
Lemma packet_parts key (sig : array 64) seq dns p :
  u64_ok seq ->
  packet_from_bytes (arr_bytes key ++ arr_bytes sig ++ to_be_bytes 8 seq ++ dns) = Some p ->
  as_bytes p = arr_bytes key ++ arr_bytes sig ++ to_be_bytes 8 seq ++ dns /\
  public_key p = key /\ timestamp p = seq /\ encoded_packet p = dns.
Proof.
  intros Hseq Hp. pose proof (bytes_of_packet _ _ Hp) as Hb. destruct (packet_layout p) as [sig' Hl].
  split; [done|]. rewrite Hb in Hl.
  apply app_eq_length in Hl as [Hk Hl]; [|by rewrite !arr_length].
  apply app_eq_length in Hl as [_ Hl]; [|by rewrite !arr_length].
  apply app_eq_length in Hl as [Ht Hd]; [|by rewrite !length_to_be_bytes].
  split; [by apply arr_eq|]. split; [|done].
  rewrite <-(from_to_be_u64 seq), <-(from_to_be_u64 (timestamp p)) by (done || apply packet_timestamp).
  by rewrite Ht.
Qed.

Lemma validate_all_Forall l : validate_all l = Ok tt <-> Forall (fun x => NodeLocation_validate x = Ok tt) l.
Proof.
  induction l as [|x l IH]; cbn [validate_all]; [done|]. rewrite Forall_cons, <-IH.
  destruct (NodeLocation_validate x) as [[]|e]; cbn; naive_solver.
Qed.

(** What a successful encoding has checked and built. *)
Lemma encode_node_record_ok sk ns rc ttl seq exp st locs p :
  u64_ok seq -> encode_node_record sk ns rc ttl seq exp st locs = Ok p ->
  let key := verifying_key sk in let locs' := sort_dedup locs in
  validate_namespace ns = Ok tt /\ validate_recipient rc = Ok tt /\ ttl <> 0%Z /\
  exp = (seq + ttl * 1000000)%Z /\ (exp <= u64_max)%Z /\ length locs' <= MAX_NODE_LOCATIONS /\
  Forall (fun l => NodeLocation_validate l = Ok tt) locs' /\ (st = Live <-> locs' <> []) /\
  public_key p = key /\ timestamp p = seq /\
  exists located metadata,
    answer_view <$> located
    = txt_answer (IROH_RECORD_NAME ++ str "." ++ to_z32 key) ttl <$> (location_txt <$> locs') /\
    answer_view <$> metadata
    = txt_answer (METADATA_RECORD_NAME ++ str "." ++ to_z32 key) ttl <$> metadata_txts key ns rc ttl seq exp st /\
    build_bytes_vec_compressed (reply (located ++ metadata)) = Some (encoded_packet p).
Proof.
  intros Hseq He. unfold encode_node_record in He.
  apply result_bind_ok in He as ([] & Hns & He). apply result_bind_ok in He as ([] & Hrc & He).
  apply result_bind_ok in He as (_ & Ht%reject_if_ok & He). apply result_bind_ok in He as (ex & Hex%record_expiry_ok & He).
  apply result_bind_ok in He as (_ & Hx%reject_if_ok & He). apply result_bind_ok in He as (_ & Hn%reject_if_ok & He).
  apply result_bind_ok in He as ([] & Hv%validate_all_Forall & He). apply result_bind_ok in He as ([] & Hst & He).
  apply result_bind_ok in He as (located & Hloc%add_txts_views & He).
  apply result_bind_ok in He as (metadata & Hmeta%add_txts_views & He).
  apply result_bind_ok in He as (dns & Hdns%ok_or_ok & He). apply result_bind_ok in He as (_ & _ & He%ok_or_ok).
  bools. destruct Hex as (-> & _ & Hbound).
  destruct (packet_parts _ _ _ _ _ Hseq He) as (_ & Hk & Hts & Hd).
  cbn zeta. split_and!; try done; try lia.
  - destruct st; unfold reject_if in Hst; case_bool_decide; try done; naive_solver.
  - exists located, metadata. rewrite Hd. done.
Qed.

(** What the encoder produced reads back as the record it was given. *)
Lemma node_record_decodes sk ns rc ttl seq exp st locs p :
  u32_ok ttl -> u64_ok seq -> Forall plain_location locs ->
  encode_node_record sk ns rc ttl seq exp st locs = Ok p ->
  decode_node_record (as_bytes p) =
  Ok {| nr_node_id := NodeId_from_bytes (verifying_key sk); nr_namespace := ns; nr_recipient := rc;
        nr_ttl_seconds := ttl; nr_sequence := seq; nr_expires_unix_micros := exp; nr_state := st;
        nr_locations := sort_dedup locs |}.
Proof.
  intros Httl Hseq Hplain He. destruct (encode_node_record_ok _ _ _ _ _ _ _ _ _ Hseq He)
    as (Hns & Hrc & Ht0 & -> & Hbound & Hlen & Hvalid & Hst & Hk & Hts & located & metadata & Hloc & Hmeta & Hb).
  set (locs' := sort_dedup locs) in *. pose proof (sort_dedup_strict locs : StronglySorted location_lt locs') as Hsorted.
  assert (Forall (fun l => NodeLocation_validate l = Ok tt /\ plain_location l) locs') as Hboth.
  { apply Forall_and. split; [done|]. rewrite Forall_forall in *. intros l Hl. by apply Hplain, sort_dedup_elem. }
  unfold decode_node_record. rewrite packet_of_bytes. cbn [ok_or mbind result_bind].
  destruct (reply_header _ _ Hb) as [H12 H4b]. rewrite (proj2 (Nat.ltb_ge _ _) H12), H4b. cbn [orb].
  rewrite reject_same. cbn [mbind result_bind]. rewrite (reply_parse _ _ Hb). cbn [ok_or mbind result_bind].
  rewrite Hb. cbn [ok_or mbind result_bind]. rewrite reject_same. cbn [mbind result_bind].
  destruct (reply_sections (located ++ metadata)) as (-> & -> & ->). cbn [negb orb reject_if mbind result_bind].
  rewrite reply_answers, Hk.
  destruct (read_locations (IROH_RECORD_NAME ++ str "." ++ to_z32 (verifying_key sk))
    (METADATA_RECORD_NAME ++ str "." ++ to_z32 (verifying_key sk)) ttl located locs' loop_start)
    as (t & Ht & Hr); try done; [by left|].
  rewrite metadata_by_key, <-list_fmap_compose in Hmeta. unfold u32_ok in Httl. unfold u64_ok in Hseq.
  destruct (read_metadata (IROH_RECORD_NAME ++ str "." ++ to_z32 (verifying_key sk))
    (METADATA_RECORD_NAME ++ str "." ++ to_z32 (verifying_key sk)) ttl _ metadata 9
    {| lp_ttl := t; lp_locations := locs'; lp_metadata := ∅; lp_index := 0 |}
    (record_names_differ _) eq_refl Hmeta Ht) as (t' & Ht' & Hr').
  { intros k. apply metadata_safe; done || lia. }
  { intros k _. apply lookup_empty. }
  rewrite Ht' in Hr' by done.
  assert (forall i m lp a b, read_answers i m lp (a ++ b) = (lp' ← read_answers i m lp a; read_answers i m lp' b)) as Happ.
  { intros i m lp a. revert lp. induction a as [|x a IH]; intros lp b; cbn [app read_answers]; [done|].
    destruct (read_answer i m lp x); cbn [mbind result_bind]; [apply IH|done]. }
  rewrite Happ, Hr. cbn [mbind result_bind lp_locations loop_start app lp_metadata]. rewrite Hr'. cbn [mbind result_bind].
  rewrite (finish_metadata p _ ns rc ttl st locs'); [| |done|done|lia|unfold u64_ok; lia|lia|done].
  - rewrite Hk, Hts. by rewrite (merge_sort_sorted locs').
  - rewrite Hk, Hts. done.
Qed.

(** Encoding and decoding of node records are inverse.  When
    [encode_node_record] produces a packet, decoding that packet's bytes yields
    exactly the record it was asked to write: the signer's node id, the
    namespace, recipient, TTL, sequence, expiry and state given, and the given
    locations sorted and without duplicates.  (Locations whose IPv6 address has
    a flow label are excluded: their text form drops it.) *)
Theorem encode_decode_node_record sk ns rc ttl seq exp st locs p :
  u32_ok ttl -> u64_ok seq -> Forall plain_location locs ->
  encode_node_record sk ns rc ttl seq exp st locs = Ok p ->
  decode_node_record (as_bytes p) =
  Ok {| nr_node_id := NodeId_from_bytes (verifying_key sk); nr_namespace := ns; nr_recipient := rc;
        nr_ttl_seconds := ttl; nr_sequence := seq; nr_expires_unix_micros := exp; nr_state := st;
        nr_locations := sort_dedup locs |}.
Proof. apply node_record_decodes. Qed.

End encoding.
