(* ===== verification/StateDir.v ===== *)
(** * A durable state file with a rollback anchor

    The publication authority and the node publisher of fabric-iroh keep their
    state in the same way: one JSON file replaced atomically, and a second file,
    the anchor, that records how far the first had got, so that an old copy of
    the state is refused.  Their stores (AuthorityStateStore in
    iroh_publication_authority.rs, PublicationStateStore in iroh_publication.rs)
    are the same code over two body types; it is modelled once here and
    instantiated by Authority.v and Publisher.v.

    The directory is an explicit state.  Each system call takes the next fault
    from a list: it works, it fails with an error, or the process dies in it.
    A directory entry that was changed but not yet synced may be lost in a
    crash, each entry on its own.  The theorems say which pairs of state and
    anchor a crash can leave behind a write, and that the store reopens from
    each of them. *)

From Stdlib Require Import Strings.Byte ZArith Lia.
From stdpp Require Import base sets strings list.
From S2P Require Import Prelude Hex.

(** ** Files, the directory and faults *)

Record Stat := {
  st_regular : bool;
  st_uid : Z;
  st_mode : Z;
  st_nlink : Z;
  st_size : Z;
  (** device, inode and modification time: the identity of one file version *)
  st_version : Z
}.
#[export] Instance Stat_eq_dec : EqDecision Stat.
Proof. solve_decision. Defined.

Record File := { f_bytes : list byte; f_stat : Stat }.

(** The names the store uses: the state, the anchor and their temporary links. *)
Inductive Entry := StateFile | StateTemp | AnchorFile | AnchorTemp.
#[export] Instance Entry_eq_dec : EqDecision Entry.
Proof. solve_decision. Defined.

Record Dir := { d_state : option File; d_state_temp : option File; d_anchor : option File; d_anchor_temp : option File }.
Definition dir_get (d : Dir) (e : Entry) : option File :=
  match e with
  | StateFile => d_state d | StateTemp => d_state_temp d | AnchorFile => d_anchor d | AnchorTemp => d_anchor_temp d
  end.
Definition dir_set (d : Dir) (e : Entry) (f : option File) : Dir :=
  match e with
  | StateFile => {| d_state := f; d_state_temp := d_state_temp d; d_anchor := d_anchor d; d_anchor_temp := d_anchor_temp d |}
  | StateTemp => {| d_state := d_state d; d_state_temp := f; d_anchor := d_anchor d; d_anchor_temp := d_anchor_temp d |}
  | AnchorFile => {| d_state := d_state d; d_state_temp := d_state_temp d; d_anchor := f; d_anchor_temp := d_anchor_temp d |}
  | AnchorTemp => {| d_state := d_state d; d_state_temp := d_state_temp d; d_anchor := d_anchor d; d_anchor_temp := f |}
  end.

Inductive Fault := Fine | Fails | Dies.

(** What the process sees, what is certainly on disk, the faults to come, the
    version the next file gets, and the store's `poisoned` flag. *)
Record World := {
  w_live : Dir;
  w_synced : Dir;
  w_faults : list Fault;
  w_next : Z;
  w_poisoned : bool
}.

(** The directory a crash may leave: each entry as seen or as last synced. *)
Definition crash_image (w : World) (d : Dir) : Prop :=
  forall e, dir_get d e = dir_get (w_live w) e \/ dir_get d e = dir_get (w_synced w) e.

Definition restarted (d : Dir) (faults : list Fault) (next : Z) : World :=
  {| w_live := d; w_synced := d; w_faults := faults; w_next := next; w_poisoned := false |}.

(** The next system calls of [w] meet these faults. *)
Definition with_faults (w : World) (faults : list Fault) : World :=
  {| w_live := w_live w; w_synced := w_synced w; w_faults := faults; w_next := w_next w; w_poisoned := w_poisoned w |}.

(** Where the store failed; the message text is not modelled. *)
Inductive StoreError :=
| OpeningDirectory | OpeningLock | LockMode | SyncingLock | Locked | Inspecting | Insecure
| OpeningState | ReadingState | StateTooLarge | Rechecking | ChangedDuringRead | Decoding
| Encoding | EncodedTooLarge | CreatingTemp | TempMode | WritingTemp | RemovingStale | LinkingTemp | Replacing
| SyncingDirectory | Reopening | PacketHex | StoredPacket | StateMismatch | DesiredInvalid
| AnchorMissing | AnchorIdentity | AnchorAhead | ClockRegressed | ExpiryBound | DeadlineOverflow
| Poisoned | PoisonedBy (e : StoreError).
#[export] Instance StoreError_eq_dec : EqDecision StoreError.
Proof. solve_decision. Defined.

(** ** A state monad whose failures keep the directory they reached *)

Inductive outcome (A : Type) := Ret (a : A) | Throw (e : StoreError) | Died.
Arguments Ret {A} a.
Arguments Throw {A} e.
Arguments Died {A}.

Definition M (A : Type) : Type := World -> World * outcome A.
Definition m_ret {A} (a : A) : M A := fun w => (w, Ret a).
Definition m_throw {A} (e : StoreError) : M A := fun w => (w, Throw e).
Definition m_bind {A B} (c : M A) (k : A -> M B) : M B := fun w =>
  match c w with
  | (w', Ret a) => k a w'
  | (w', Throw e) => (w', Throw e)
  | (w', Died) => (w', Died)
  end.
Declare Scope dir_scope.
Notation "x <- c ;; k" := (m_bind c (fun x => k)) (at level 100, c at next level, right associativity) : dir_scope.
Notation "c ;;; k" := (m_bind c (fun _ => k)) (at level 100, right associativity) : dir_scope.
Open Scope dir_scope.

Definition lift {A} (r : result StoreError A) : M A :=
  match r with Ok a => m_ret a | Err e => m_throw e end.
Definition guard (refuse : bool) (e : StoreError) : M unit := lift (reject_if refuse e).

(** One system call that changes nothing the model keeps. *)
Definition sys (e : StoreError) : M unit := fun w =>
  match w_faults w with
  | [] => (w, Ret tt)
  | f :: fs =>
      let w' := {| w_live := w_live w; w_synced := w_synced w; w_faults := fs; w_next := w_next w; w_poisoned := w_poisoned w |} in
      match f with Fine => (w', Ret tt) | Fails => (w', Throw e) | Dies => (w', Died) end
  end.

Definition see {A} (f : World -> A) : M A := fun w => (w, Ret (f w)).
Definition change_live (f : Dir -> Dir) : M unit := fun w =>
  ({| w_live := f (w_live w); w_synced := w_synced w; w_faults := w_faults w; w_next := w_next w;
      w_poisoned := w_poisoned w |}, Ret tt).
Definition set_poisoned : M unit := fun w =>
  ({| w_live := w_live w; w_synced := w_synced w; w_faults := w_faults w; w_next := w_next w; w_poisoned := true |}, Ret tt).
Definition take_version : M Z := fun w =>
  ({| w_live := w_live w; w_synced := w_synced w; w_faults := w_faults w; w_next := (w_next w + 1)%Z;
      w_poisoned := w_poisoned w |}, Ret (w_next w)).

(** `fs::openat` for reading: [None] is ENOENT. *)
Definition openat (e : Entry) (err : StoreError) : M (option File) :=
  sys err;;; see (fun w => dir_get (w_live w) e).
(** `fs::unlinkat` with ENOENT accepted. *)
Definition unlinkat (e : Entry) (err : StoreError) : M unit :=
  sys err;;; change_live (fun d => dir_set d e None).
Definition linkat (e : Entry) (f : File) (err : StoreError) : M unit :=
  sys err;;; change_live (fun d => dir_set d e (Some f)).
Definition renameat (from to : Entry) (err : StoreError) : M unit :=
  sys err;;; change_live (fun d => dir_set (dir_set d to (dir_get d from)) from None).
(** `fs::fsync` of the directory. *)
Definition fsync_dir (err : StoreError) : M unit :=
  sys err;;; (fun w => ({| w_live := w_live w; w_synced := w_live w; w_faults := w_faults w; w_next := w_next w;
                           w_poisoned := w_poisoned w |}, Ret tt)).

(** `if let Err(error) = c { cleanup; return Err(error) }` *)
Definition on_error {A} (c : M A) (cleanup : StoreError -> M A) : M A := fun w =>
  match c w with (w', Throw e) => cleanup e w' | r => r end.

Definition STATE_FILE_MODE : Z := 384.

(** ** The store *)

Section store.
Context (euid max_bytes : Z).

Definition secure (st : Stat) : bool :=
  st_regular st && (st_uid st =? euid)%Z && (Z.land (st_mode st) 511 =? STATE_FILE_MODE)%Z
  && (st_nlink st =? 1)%Z && (0 <=? st_size st)%Z && (st_size st <=? max_bytes)%Z.

Definition validate_secure_file (f : File) : M Stat :=
  sys Inspecting;;; guard (negb (secure (f_stat f))) Insecure;;; m_ret (f_stat f).

(** The file `write` creates: an unnamed file of mode 0600, filled and synced. *)
Definition new_file (bytes : list byte) : M File :=
  sys CreatingTemp;;; sys TempMode;;; sys WritingTemp;;; sys WritingTemp;;;
  v <- take_version;;
  m_ret {| f_bytes := bytes;
           f_stat := {| st_regular := true; st_uid := euid; st_mode := STATE_FILE_MODE; st_nlink := 1;
                        st_size := Z.of_nat (length bytes); st_version := v |} |}.

(** Fill a new file, link it under a temporary name and rename it into place. *)
Definition replace_file (temp target : Entry) (bytes : list byte) : M unit :=
  f <- new_file bytes;;
  unlinkat temp RemovingStale;;;
  linkat temp f LinkingTemp;;;
  on_error (renameat temp target Replacing)
           (fun error => (fun w => match unlinkat temp RemovingStale w with
                                   | (w', Died) => (w', Died)
                                   | (w', _) => (w', Throw error)
                                   end)).

Context {B A : Type}.
Context (encode : B -> result StoreError (list byte)) (decode : list byte -> result StoreError B).
Context (encode_anchor : A -> result StoreError (list byte)) (decode_anchor : list byte -> result StoreError A).
Context (from_state : B -> result StoreError A).
(** The comparison of the anchor that belongs to the state with the one on disk. *)
Context (check_anchor : A -> A -> result StoreError unit) `{EqDecision A}.

Definition ensure_healthy : M unit :=
  p <- see w_poisoned;; guard p Poisoned.

(** `read`: the state file, checked before and after, then decoded. *)
Definition read : M (option B) :=
  ensure_healthy;;;
  f <- openat StateFile OpeningState;;
  match f with
  | None => m_ret None
  | Some f =>
      before <- validate_secure_file f;;
      sys ReadingState;;;
      let bytes := f_bytes f in
      guard (max_bytes <? Z.of_nat (length bytes))%Z StateTooLarge;;;
      after <- validate_secure_file f;;
      sys Rechecking;;;
      entry <- see (fun w => dir_get (w_live w) StateFile);;
      guard (negb (bool_decide (before = after) && bool_decide (Some (st_version after) = (fun f => st_version (f_stat f)) <$> entry)))
            ChangedDuringRead;;;
      b <- lift (decode bytes);; m_ret (Some b)
  end.

Definition read_anchor : M (option A) :=
  f <- openat AnchorFile OpeningState;;
  match f with
  | None => m_ret None
  | Some f =>
      _ <- validate_secure_file f;;
      sys ReadingState;;;
      guard (max_bytes <? Z.of_nat (length (f_bytes f)))%Z StateTooLarge;;;
      a <- lift (decode_anchor (f_bytes f));; m_ret (Some a)
  end.

Definition write_anchor (anchor : A) : M unit :=
  bytes <- lift (encode_anchor anchor);;
  replace_file AnchorTemp AnchorFile bytes;;;
  fsync_dir SyncingDirectory.

(** What `write` does after the rename. *)
Definition post_rename (body : B) : M unit :=
  fsync_dir SyncingDirectory;;;
  published <- openat StateFile Reopening;;
  match published with
  | None => m_throw Reopening
  | Some f =>
      _ <- validate_secure_file f;;
      anchor <- lift (from_state body);;
      write_anchor anchor
  end.

Definition write (body : B) : M unit :=
  ensure_healthy;;;
  bytes <- lift (encode body);;
  replace_file StateTemp StateFile bytes;;;
  on_error (post_rename body) (fun error => set_poisoned;;; m_throw (PoisonedBy error)).

Definition validate_or_initialize_anchor (state : B) (had_state : bool) : M unit :=
  current <- lift (from_state state);;
  anchor <- read_anchor;;
  match anchor with
  | None => if had_state then m_throw AnchorMissing else write_anchor current
  | Some anchor =>
      lift (check_anchor current anchor);;;
      if bool_decide (current = anchor) then m_ret tt else write_anchor current
  end.

(** The part of `open` both stores share: the state file or a new body, checked
    against the configuration and against the anchor. *)
Definition load (prepare : option B -> result StoreError B) : M (B * bool) :=
  loaded <- read;;
  let had_state := bool_decide (is_Some loaded) in
  body <- lift (prepare loaded);;
  validate_or_initialize_anchor body had_state;;;
  m_ret (body, had_state).

(** Opening and locking the directory. *)
Definition acquire_lock : M unit :=
  sys OpeningDirectory;;; sys OpeningLock;;; sys LockMode;;; sys SyncingLock;;; sys Inspecting;;; sys Locked.

End store.

(** ** Encodings *)

(** `blake3::hash(..).to_hex()`; a hasher updated in pieces hashes their concatenation. *)
Class Blake3Hex := blake3_hex : list byte -> list byte.

(** The envelope both files are wrapped in. *)
Record Envelope (B : Type) := { env_body : B; env_checksum_blake3_hex : list byte }.
Arguments env_body {B}.
Arguments env_checksum_blake3_hex {B}.

Section envelopes.
Context `{Blake3Hex} {B : Type} `{Json B, Json (Envelope B)} (domain : list byte) (max_bytes : Z).

Definition encode_envelope (body : B) : result StoreError (list byte) :=
  body_bytes ← ok_or (to_vec body) Encoding;
  bytes ← ok_or (to_vec {| env_body := body; env_checksum_blake3_hex := blake3_hex (domain ++ body_bytes) |}) Encoding;
  _ ← reject_if (max_bytes <? Z.of_nat (length bytes))%Z EncodedTooLarge;
  Ok bytes.

Definition decode_envelope (bytes : list byte) : result StoreError B :=
  envelope ← ok_or (from_slice (T := Envelope B) bytes) Decoding;
  body_bytes ← ok_or (to_vec (env_body envelope)) Decoding;
  _ ← reject_if (bool_decide (env_checksum_blake3_hex envelope <> blake3_hex (domain ++ body_bytes))) Decoding;
  Ok (env_body envelope).

Lemma decode_encode_envelope (faithful : Envelope B -> Prop) `{!JsonLaws (Envelope B) faithful} b s :
  (forall checksum, faithful {| env_body := b; env_checksum_blake3_hex := checksum |}) -> encode_envelope b = Ok s -> decode_envelope s = Ok b.
Proof.
  unfold encode_envelope, decode_envelope. intros Hfb (bb & Hbb & He)%result_bind_ok.
  apply result_bind_ok in He as (s' & Hs & He). apply result_bind_ok in He as (_ & _ & [= ->]).
  apply ok_or_ok in Hs. rewrite (json_roundtrip _ _ (Hfb _) Hs). cbn [ok_or mbind result_bind env_body env_checksum_blake3_hex].
  apply ok_or_ok in Hbb. rewrite Hbb. cbn [ok_or mbind result_bind].
  by rewrite bool_decide_false by (by intros []).
Qed.

Lemma encode_envelope_len b s : encode_envelope b = Ok s -> (Z.of_nat (length s) <= max_bytes)%Z.
Proof.
  unfold encode_envelope. intros (bb & _ & He)%result_bind_ok. apply result_bind_ok in He as (s' & _ & He).
  apply result_bind_ok in He as (_ & Hl%reject_if_ok & [= ->]). by apply Z.ltb_ge in Hl.
Qed.
End envelopes.

(** The lower-case hexadecimal both stores keep a packet in. *)
Definition encode_hex (bytes : list byte) : list byte := hexfmt.encode bytes.
Definition decode_hex (max_packet : Z) (raw : list byte) : result StoreError (list byte) :=
  _ ← reject_if (negb (length raw mod 2 =? 0) || (max_packet * 2 <? Z.of_nat (length raw))%Z) PacketHex;
  map_err (fun _ => PacketHex) (hexfmt.decode_pairs 0 raw).

Lemma decode_encode_hex max bytes :
  (Z.of_nat (length bytes) <= max)%Z -> decode_hex max (encode_hex bytes) = Ok bytes.
Proof.
  intros Hl. unfold decode_hex, encode_hex. rewrite hexfmt.length_encode, hexfmt.decode_pairs_encode.
  rewrite Nat.Div0.mod_mul, (proj2 (Z.ltb_ge _ _)) by lia. done.
Qed.

Lemma decode_hex_canonical max raw bytes : decode_hex max raw = Ok bytes -> raw = encode_hex bytes.
Proof.
  unfold decode_hex. intros (_ & Hl%reject_if_ok & Hd%map_err_ok)%result_bind_ok. bools.
  by eapply hexfmt.decode_pairs_canonical.
Qed.

(** ** Reasoning about one run *)

(** [runs c w Q]: from [w], [c] ends in a directory and an outcome in [Q]. *)
Definition runs {A} (c : M A) (w : World) (Q : World -> outcome A -> Prop) : Prop :=
  let '(w', o) := c w in Q w' o.

Lemma runs_mono {A} (c : M A) w (P Q : World -> outcome A -> Prop) :
  runs c w P -> (forall w' o, P w' o -> Q w' o) -> runs c w Q.
Proof. unfold runs. destruct (c w) as [w' o]. auto. Qed.

(** Sequencing: a failure of the first part is the failure of the whole. *)
Lemma runs_bind {A B} (c : M A) (k : A -> M B) w (P : World -> outcome A -> Prop) (Q : World -> outcome B -> Prop) :
  runs c w P ->
  (forall w' a, P w' (Ret a) -> runs (k a) w' Q) ->
  (forall w' e, P w' (Throw e) -> Q w' (Throw e)) -> (forall w', P w' Died -> Q w' Died) ->
  runs (m_bind c k) w Q.
Proof.
  unfold runs, m_bind. destruct (c w) as [w' [a|e|]]; intros HP Hr Ht Hd; [by apply Hr|by apply Ht|by apply Hd].
Qed.

(** A sequence that returns went through both parts. *)
Lemma m_bind_ret {A B} (c : M A) (k : A -> M B) w w' b :
  m_bind c k w = (w', Ret b) -> exists w1 a, c w = (w1, Ret a) /\ k a w1 = (w', Ret b).
Proof. unfold m_bind. destruct (c w) as [w1 [a|e|]]; try done. eauto. Qed.

Lemma guard_ret c e w w' u : guard c e w = (w', Ret u) -> c = false /\ w' = w.
Proof. unfold guard. by destruct c; cbn; intros [= <-]. Qed.

Lemma runs_ret {A} (a : A) w (Q : World -> outcome A -> Prop) : Q w (Ret a) -> runs (m_ret a) w Q.
Proof. done. Qed.

(** Two worlds with the same directory. *)
Definition same_disk (w w' : World) : Prop :=
  w_live w' = w_live w /\ w_synced w' = w_synced w /\ w_poisoned w' = w_poisoned w.

#[export] Instance same_disk_refl : Reflexive same_disk.
Proof. done. Qed.
#[export] Instance same_disk_trans : Transitive same_disk.
Proof. unfold same_disk. intros a b c ? ?. destruct_and!. split_and!; congruence. Qed.

(** Chases equalities of directories through the intermediate worlds. *)
Ltac disks := unfold same_disk in *; cbn [w_live w_synced w_poisoned] in *; destruct_and?.
Ltac same := disks; split_and?; try congruence; try done.

Lemma sys_runs e w : runs (sys e) w (fun w' _ => same_disk w w').
Proof. unfold runs, sys. destruct (w_faults w) as [|[] fs]; done. Qed.

Lemma lift_runs {A} (r : result StoreError A) w :
  runs (lift r) w (fun w' o => w' = w /\ match o with Ret a => r = Ok a | Throw e => r = Err e | Died => False end).
Proof. by destruct r. Qed.

Lemma guard_runs c e w :
  runs (guard c e) w (fun w' o => w' = w /\ match o with Ret _ => c = false | Throw _ => c = true | Died => False end).
Proof. by destruct c. Qed.

(** Steps over a prefix that does not touch the directory. *)
Lemma runs_same {A B} (c : M A) (k : A -> M B) w (Q : World -> outcome B -> Prop) :
  runs c w (fun w' _ => same_disk w w') ->
  (forall w' a, same_disk w w' -> runs (k a) w' Q) ->
  (forall w' e, same_disk w w' -> Q w' (Throw e)) -> (forall w', same_disk w w' -> Q w' Died) ->
  runs (m_bind c k) w Q.
Proof. intros Hc Hr Ht Hd. by apply (runs_bind _ _ _ _ _ Hc). Qed.

(** A step that leaves the directory of [w0] alone, with one condition for all
    the ways the whole can end early. *)
Lemma runs_quiet {A B} w0 (c : M A) (k : A -> M B) w (P : outcome A -> Prop) (Q : World -> outcome B -> Prop) :
  same_disk w0 w -> runs c w (fun w' o => same_disk w w' /\ P o) ->
  (forall w' a, same_disk w0 w' -> P (Ret a) -> runs (k a) w' Q) ->
  (forall w' o, same_disk w0 w' -> (forall x, o <> Ret x) -> Q w' o) ->
  runs (m_bind c k) w Q.
Proof.
  intros H0 Hc Hk Hexit. apply (runs_bind _ _ _ _ _ Hc).
  - intros w' a [Hs Ha]. apply Hk; [by etransitivity|done].
  - intros w' e [Hs _]. apply Hexit; [by etransitivity|done].
  - intros w' [Hs _]. apply Hexit; [by etransitivity|done].
Qed.

Lemma sys_quiet e w : runs (sys e) w (fun w' o => same_disk w w' /\ True).
Proof. eapply runs_mono; [apply sys_runs|done]. Qed.

Lemma lift_quiet {A} (r : result StoreError A) w :
  runs (lift r) w (fun w' o => same_disk w w' /\ match o with Ret a => r = Ok a | Throw e => r = Err e | Died => False end).
Proof. by destruct r. Qed.

Lemma guard_quiet c e w :
  runs (guard c e) w (fun w' o => same_disk w w' /\ match o with Ret _ => c = false | Throw _ => c = true | Died => False end).
Proof. by destruct c. Qed.

Lemma see_quiet {A} (f : World -> A) w : runs (see f) w (fun w' o => same_disk w w' /\ o = Ret (f w)).
Proof. done. Qed.

Lemma see_runs {A} (f : World -> A) w : runs (see f) w (fun w' o => w' = w /\ o = Ret (f w)).
Proof. done. Qed.

Lemma ensure_healthy_runs w :
  runs ensure_healthy w (fun w' o => w' = w /\ match o with Ret _ => w_poisoned w = false | Throw _ => w_poisoned w = true | Died => False end).
Proof. unfold runs, ensure_healthy, m_bind, see, guard. by destruct (w_poisoned w). Qed.

Lemma acquire_lock_quiet w : runs acquire_lock w (fun w' o => same_disk w w' /\ True).
Proof.
  unfold acquire_lock.
  do 5 (eapply (runs_quiet w); [by auto|apply sys_quiet|intros ? ? ? _|done]).
  eapply runs_mono; [apply sys_quiet|]. intros w'' o [Hs _]. split; [|done]. by etransitivity.
Qed.

Section specs.
Context (euid max_bytes : Z).

(** A file as the store leaves it. *)
Definition stored (bytes : list byte) (f : File) : Prop :=
  f_bytes f = bytes /\ st_regular (f_stat f) = true /\ st_uid (f_stat f) = euid /\
  st_mode (f_stat f) = STATE_FILE_MODE /\ st_nlink (f_stat f) = 1%Z /\ st_size (f_stat f) = Z.of_nat (length bytes).

Lemma stored_secure bytes f :
  stored bytes f -> (Z.of_nat (length bytes) <= max_bytes)%Z -> secure euid max_bytes (f_stat f) = true.
Proof.
  intros (_ & Hr & Hu & Hm & Hn & Hs) Hl. unfold secure. rewrite Hr, Hu, Hm, Hn, Hs.
  rewrite Z.eqb_refl, (proj2 (Z.leb_le 0 _)), (proj2 (Z.leb_le _ max_bytes)) by lia. done.
Qed.

Lemma new_file_runs bytes w :
  runs (new_file euid bytes) w (fun w' o => same_disk w w' /\ forall f, o = Ret f -> stored bytes f).
Proof.
  unfold new_file. do 4 (apply (runs_same _ _ _ _ (sys_runs _ _)); [intros ? [] ?|intros; same|intros; same]).
  unfold runs, m_bind, take_version, m_ret. split; [same|]. by intros f [= <-].
Qed.

(** [touches es w w']: only the entries in [es] may have changed, and only in
    the live directory. *)
Definition touches (es : list Entry) (w w' : World) : Prop :=
  w_synced w' = w_synced w /\ w_poisoned w' = w_poisoned w /\
  forall e, e ∉ es -> dir_get (w_live w') e = dir_get (w_live w) e.

Lemma dir_get_set d e f e' : dir_get (dir_set d e f) e' = if decide (e' = e) then f else dir_get d e'.
Proof. by destruct e, e'. Qed.

Lemma same_touches es w w' : same_disk w w' -> touches es w w'.
Proof. intros (Hl & Hs & Hp). split_and!; [done|done|]. intros e _. by rewrite Hl. Qed.

Lemma touches_trans es w w1 w2 : touches es w w1 -> touches es w1 w2 -> touches es w w2.
Proof.
  intros (Hs & Hp & Hl) (Hs' & Hp' & Hl'). split_and!; [congruence|congruence|].
  intros e He. rewrite Hl', Hl by done. done.
Qed.

Lemma touches_mono es es' w w' : es ⊆ es' -> touches es w w' -> touches es' w w'.
Proof. intros Hsub (Hs & Hp & Hl). split_and!; [done|done|]. intros e He. apply Hl. set_solver. Qed.

Lemma unlinkat_runs e err w : runs (unlinkat e err) w (fun w' _ => touches [e] w w').
Proof.
  unfold unlinkat. apply (runs_same _ _ _ _ (sys_runs _ _)); [|intros; by apply same_touches|intros; by apply same_touches].
  intros w1 _ Hs. unfold runs, change_live. disks. unfold touches. cbn. split_and!; [done|done|].
  intros e' He. rewrite dir_get_set, decide_False by set_solver. congruence.
Qed.

Lemma linkat_runs e f err w :
  runs (linkat e f err) w (fun w' o => touches [e] w w' /\ (o = Ret tt -> dir_get (w_live w') e = Some f)).
Proof.
  unfold linkat. apply (runs_same _ _ _ _ (sys_runs _ _)); [|intros; by split; [apply same_touches|]..].
  intros w1 _ Hs. unfold runs, change_live. disks. cbn. split.
  - unfold touches. cbn. split_and!; [done|done|]. intros e' He.
    rewrite dir_get_set, decide_False by set_solver. congruence.
  - by rewrite dir_get_set, decide_True.
Qed.

Lemma renameat_runs from to err w :
  from <> to ->
  runs (renameat from to err) w (fun w' o => touches [from; to] w w' /\
    match o with Ret _ => dir_get (w_live w') to = dir_get (w_live w) from | _ => w_live w' = w_live w end).
Proof.
  intros Hne. unfold renameat.
  apply (runs_same _ _ _ _ (sys_runs _ _)); [|intros; split; [by apply same_touches|apply H]..].
  intros w1 _ Hs. unfold runs, change_live. disks. cbn. split.
  - unfold touches. cbn. split_and!; [done|done|]. intros e' He.
    rewrite !dir_get_set, !decide_False by set_solver. congruence.
  - rewrite !dir_get_set, decide_False, decide_True by done. congruence.
Qed.

(** The target is replaced by a file of the given bytes exactly when the call
    returns; nothing but the target and its temporary link is touched. *)
Lemma replace_file_runs temp target bytes w :
  temp <> target ->
  runs (replace_file euid temp target bytes) w (fun w' o => touches [temp; target] w w' /\
    match o with
    | Ret _ => exists f, dir_get (w_live w') target = Some f /\ stored bytes f
    | _ => dir_get (w_live w') target = dir_get (w_live w) target
    end).
Proof.
  intros Hne. unfold replace_file.
  apply (runs_bind _ _ _ _ _ (new_file_runs bytes w));
    [|intros; split; [apply same_touches|]; by destruct_and!; same..].
  intros w1 f [Hs1 Hf]. specialize (Hf f eq_refl).
  assert (touches [temp] w w1) as H1 by (by apply same_touches).
  assert (forall w' , touches [temp] w w' -> dir_get (w_live w') target = dir_get (w_live w) target) as Htarget.
  { intros w' (_ & _ & Hl). apply Hl. set_solver. }
  assert (forall w', touches [temp] w w' -> touches [temp; target] w w') as Hsub.
  { intros w'. apply touches_mono. set_solver. }
  apply (runs_bind _ _ _ _ _ (unlinkat_runs temp RemovingStale w1));
    [|intros; assert (touches [temp] w w') by (by eapply touches_trans); split; auto..].
  intros w2 _ H2. assert (touches [temp] w w2) as H02 by (by eapply touches_trans).
  apply (runs_bind _ _ _ _ _ (linkat_runs temp f LinkingTemp w2));
    [|intros; destruct_and!; assert (touches [temp] w w') by (by eapply touches_trans); split; auto..].
  intros w3 [] [H3 Hf3]. specialize (Hf3 eq_refl). assert (touches [temp] w w3) as H03 by (by eapply touches_trans).
  pose proof (renameat_runs temp target Replacing w3 Hne) as Hren. unfold runs, on_error in *.
  destruct (renameat temp target Replacing w3) as [w4 [[]|e|]]; destruct Hren as [H4 Ho].
  - split; [eapply touches_trans; [by apply Hsub|done]|]. exists f. rewrite Ho. done.
  - assert (touches [temp] w w4) as H04.
    { eapply touches_trans; [done|]. destruct H4 as (? & ? & _). split_and!; [done|done|]. intros e' _. by rewrite Ho. }
    pose proof (unlinkat_runs temp RemovingStale w4) as Hun. unfold runs in Hun.
    destruct (unlinkat temp RemovingStale w4) as [w5 [[]|e'|]];
      assert (touches [temp] w w5) by (by eapply touches_trans); split; auto.
  - split; [eapply touches_trans; [by apply Hsub|done]|]. rewrite Ho. auto.
Qed.
(** *** The pair of files *)

Definition file_is (f : option File) (b : option (list byte)) : Prop :=
  match f, b with
  | None, None => True
  | Some f, Some b => stored b f
  | _, _ => False
  end.

(** [disk_is d s a]: the state file holds [s] and the anchor [a]. *)
Definition disk_is (d : Dir) (s a : option (list byte)) : Prop := file_is (d_state d) s /\ file_is (d_anchor d) a.

(** Both files are on disk as they are seen. *)
Definition holds (w : World) (s a : option (list byte)) : Prop :=
  d_state (w_live w) = d_state (w_synced w) /\ d_anchor (w_live w) = d_anchor (w_synced w) /\ disk_is (w_live w) s a.

(** What every crash leaves. *)
Definition images (w : World) (Q : Dir -> Prop) : Prop := forall d, crash_image w d -> Q d.

Lemma images_pair w (S A : option (list byte) -> Prop) :
  (exists s, S s /\ file_is (d_state (w_live w)) s) -> (exists s, S s /\ file_is (d_state (w_synced w)) s) ->
  (exists a, A a /\ file_is (d_anchor (w_live w)) a) -> (exists a, A a /\ file_is (d_anchor (w_synced w)) a) ->
  images w (fun d => exists s a, S s /\ A a /\ disk_is d s a).
Proof.
  intros Hs Hs' Ha Ha' d Hd.
  assert (exists s, S s /\ file_is (d_state d) s) as (s & Ss & Fs).
  { destruct (Hd StateFile) as [E|E]; cbn in E; rewrite E; done. }
  assert (exists a, A a /\ file_is (d_anchor d) a) as (a & Aa & Fa).
  { destruct (Hd AnchorFile) as [E|E]; cbn in E; rewrite E; done. }
  by exists s, a.
Qed.

Lemma images_mono w (P Q : Dir -> Prop) : images w P -> (forall d, P d -> Q d) -> images w Q.
Proof. intros HP HPQ d Hd. by apply HPQ, HP. Qed.

Lemma with_faults_images w faults Q : images w Q -> images (with_faults w faults) Q.
Proof. intros HQ d Hd. by apply HQ. Qed.

Lemma holds_images w s a : holds w s a -> images w (fun d => disk_is d s a).
Proof.
  intros (Es & Ea & Hs & Ha).
  eapply images_mono; [apply (images_pair w (fun x => x = s) (fun x => x = a)); rewrite <-?Es, <-?Ea; eauto|].
  by intros d (? & ? & -> & -> & ?).
Qed.

Lemma same_holds w w' s a : same_disk w w' -> holds w s a -> holds w' s a.
Proof. intros (Hl & Hs & _). unfold holds. by rewrite Hl, Hs. Qed.

Lemma same_images w w' Q : w_live w' = w_live w -> w_synced w' = w_synced w -> images w Q -> images w' Q.
Proof. intros Hl Hs HQ d Hd. apply HQ. unfold crash_image in *. by rewrite <-Hl, <-Hs. Qed.

Lemma kept_holds w w' s a :
  holds w s a -> w_synced w' = w_synced w -> d_state (w_live w') = d_state (w_live w) ->
  d_anchor (w_live w') = d_anchor (w_live w) -> holds w' s a.
Proof. intros (Es & Ea & Fs & Fa) Hs Hst Han. unfold holds, disk_is. by rewrite Hs, Hst, Han. Qed.

(** Touching only one file and its link leaves the other as it was. *)
Lemma touches_state w w' : touches [AnchorTemp; AnchorFile] w w' -> d_state (w_live w') = d_state (w_live w).
Proof. intros (_ & _ & Hl). apply (Hl StateFile). set_solver. Qed.
Lemma touches_anchor w w' : touches [StateTemp; StateFile] w w' -> d_anchor (w_live w') = d_anchor (w_live w).
Proof. intros (_ & _ & Hl). apply (Hl AnchorFile). set_solver. Qed.

Context {B A : Type}.
Context (encode : B -> result StoreError (list byte)) (encode_anchor : A -> result StoreError (list byte)).
Context (from_state : B -> result StoreError A).
Context (encode_len : forall b s, encode b = Ok s -> (Z.of_nat (length s) <= max_bytes)%Z).

(** fsync: what was seen becomes certain, or nothing changes. *)
Lemma fsync_runs err w :
  runs (fsync_dir err) w (fun w' o => w_live w' = w_live w /\ w_poisoned w' = w_poisoned w /\
    w_synced w' = match o with Ret _ => w_live w | _ => w_synced w end).
Proof.
  unfold fsync_dir. apply (runs_same _ _ _ _ (sys_runs _ _)); [|intros; by disks..].
  intros w1 _ Hs. unfold runs. by disks.
Qed.

Lemma write_anchor_runs anchor a1 w s a0 :
  encode_anchor anchor = Ok a1 -> holds w s a0 ->
  runs (write_anchor euid encode_anchor anchor) w (fun w' o =>
    w_poisoned w' = w_poisoned w /\ (o = Ret tt -> holds w' s (Some a1)) /\
    images w' (fun d => disk_is d s a0 \/ disk_is d s (Some a1))).
Proof.
  intros He Hw. unfold write_anchor. rewrite He. cbn [lift].
  assert (Hleft : images w (fun d => disk_is d s a0 \/ disk_is d s (Some a1))).
  { eapply images_mono; [by apply holds_images|auto]. }
  destruct Hw as (Es & Ea & Fs & Fa).
  apply (runs_bind _ _ w (fun w' o => w' = w /\ o = Ret a1)); [done| |by intros ? ? [? [=]]|by intros ? [? [=]]].
  intros ? ? [-> [= ->]].
  apply (runs_bind _ _ _ _ _ (replace_file_runs AnchorTemp AnchorFile a1 w ltac:(done))).
  - intros w1 _ [Ht (f & Ef & Hf)]. pose proof (touches_state _ _ Ht) as Est. destruct Ht as (Hsy & Hpo & _).
    eapply runs_mono; [apply fsync_runs|]. cbn. intros w2 o (Hl & Hp & Hs).
    split; [congruence|]. cbn in Ef. split.
    + intros ->. unfold holds, disk_is. rewrite Hs, Hl, Ef, Est. done.
    + eapply images_mono; [apply (images_pair w2 (fun x => x = s) (fun x => x = a0 \/ x = Some a1))|].
      * exists s. by rewrite Hl, Est.
      * exists s. rewrite Hs. destruct o; rewrite ?Hsy, <-?Es, ?Est; done.
      * exists (Some a1). rewrite Hl, Ef. auto.
      * destruct o; rewrite Hs; [exists (Some a1); rewrite Ef; auto|..];
          exists a0; rewrite Hsy, <-Ea; auto.
      * intros d (s' & a' & -> & [->| ->] & Hd); auto.
  - intros w1 e [Ht Ho]. split; [apply Ht|]. split; [done|]. eapply images_mono; [apply holds_images|left; done].
    eapply kept_holds; [done|apply Ht|by apply touches_state|done].
  - intros w1 [Ht Ho]. split; [apply Ht|]. split; [done|]. eapply images_mono; [apply holds_images|left; done].
    eapply kept_holds; [done|apply Ht|by apply touches_state|done].
Qed.

(** The bytes of the anchor that belongs to a body. *)
Definition anchor_bytes (body : B) : result StoreError (list byte) :=
  anchor ← from_state body; encode_anchor anchor.

(** The pairs a crash may leave around the write of [body], whose encoding is
    [s1], over the pair (s0, a0): never the new anchor with the old state. *)
Definition around_write (body : B) (s1 : list byte) (s0 a0 : option (list byte)) (d : Dir) : Prop :=
  disk_is d s0 a0 \/ disk_is d (Some s1) a0 \/
  exists a1, anchor_bytes body = Ok a1 /\ disk_is d (Some s1) (Some a1).

Lemma around_before body s1 s0 a0 w w' :
  file_is (d_state (w_live w)) (Some s1) -> file_is (d_state (w_synced w)) s0 ->
  d_anchor (w_live w) = d_anchor (w_synced w) -> file_is (d_anchor (w_live w)) a0 ->
  w_live w' = w_live w -> w_synced w' = w_synced w -> images w' (around_write body s1 s0 a0).
Proof.
  intros Fs1 Fs0 Ea Fa Hl Hs.
  eapply images_mono; [apply (images_pair w' (fun x => x = s0 \/ x = Some s1) (fun x => x = a0))|].
  - exists (Some s1). rewrite Hl. auto.
  - exists s0. rewrite Hs. auto.
  - exists a0. by rewrite Hl.
  - exists a0. by rewrite Hs, <-Ea.
  - unfold around_write. intros d (? & ? & [->| ->] & -> & ?); auto.
Qed.

Lemma around_holds body s1 s0 a0 w : holds w (Some s1) a0 -> images w (around_write body s1 s0 a0).
Proof. intros Hw. eapply images_mono; [by apply holds_images|]. unfold around_write. auto. Qed.

(** After the directory sync: only the anchor is still to change. *)
Lemma reopen_runs body s1 s0 a0 w :
  (Z.of_nat (length s1) <= max_bytes)%Z -> holds w (Some s1) a0 ->
  runs (published <- openat StateFile Reopening;;
        match published with
        | None => m_throw Reopening
        | Some f =>
            _ <- validate_secure_file euid max_bytes f;;
            anchor <- lift (from_state body);; write_anchor euid encode_anchor anchor
        end) w (fun w' o =>
    w_poisoned w' = w_poisoned w /\
    (o = Ret tt -> exists a1, anchor_bytes body = Ok a1 /\ holds w' (Some s1) (Some a1)) /\
    images w' (around_write body s1 s0 a0)).
Proof.
  intros Hlen Hw.
  assert (forall w' o, same_disk w w' -> o <> Ret tt -> w_poisoned w' = w_poisoned w /\
    (o = Ret tt -> exists a1, anchor_bytes body = Ok a1 /\ holds w' (Some s1) (Some a1)) /\
    images w' (around_write body s1 s0 a0)) as Hexit.
  { intros w' o Hs Ho. split_and!; [apply Hs|done|]. by apply around_holds, (same_holds w). }
  pose proof Hw as (Es & Ea & Fs & Fa).
  unfold openat. apply (runs_bind _ _ w (fun w' o => same_disk w w' /\ forall x, o = Ret x -> x = d_state (w_live w))).
  { apply (runs_same _ _ _ _ (sys_runs _ _)); [|intros; by split..].
    intros w2 _ Hw2. unfold runs, see. split; [done|]. intros x [= <-]. cbn. disks. congruence. }
  2,3: intros; destruct_and!; by apply Hexit.
  intros w2 x [Hw2 Hx]. rewrite (Hx _ eq_refl). destruct (d_state (w_live w)) as [f|]; [|done].
  unfold validate_secure_file.
  apply (runs_bind _ _ w2 (fun w' o => same_disk w w')); [|intros w3 _ Hw3|intros; by apply Hexit..].
  { apply (runs_same _ _ _ _ (sys_runs _ _)); [|intros; by etransitivity..].
    intros w3 _ Hw3. rewrite (stored_secure s1 f) by done. unfold runs. cbn. by etransitivity. }
  unfold m_bind at 1. destruct (from_state body) as [anchor|e] eqn:Hfrom; cbn [lift m_ret m_throw];
    [|by apply Hexit].
  destruct (encode_anchor anchor) as [a1|e] eqn:Henc.
  - assert (anchor_bytes body = Ok a1) as Ha1 by (unfold anchor_bytes; by rewrite Hfrom).
    eapply runs_mono; [apply (write_anchor_runs anchor a1 w3 (Some s1) a0); [done|by apply (same_holds w)]|].
    cbn. intros w4 o (Hp4 & Ho & Hi). split; [disks; congruence|]. split; [eauto|].
    eapply images_mono; [exact Hi|]. unfold around_write. naive_solver.
  - unfold write_anchor. rewrite Henc. unfold m_bind, runs. cbn. by apply Hexit.
Qed.

(** A write over a settled pair.  It returns with the new pair on disk; or it
    fails with the old pair on disk, or with the store poisoned; and whatever
    happens, a crash leaves one of the three pairs of [around_write]. *)
Lemma write_runs body w s0 a0 :
  holds w s0 a0 ->
  runs (write euid max_bytes encode encode_anchor from_state body) w (fun w' o =>
    match o with
    | Ret _ => w_poisoned w' = w_poisoned w /\ exists s1 a1, encode body = Ok s1 /\ anchor_bytes body = Ok a1 /\
                 holds w' (Some s1) (Some a1)
    | Throw _ => w_poisoned w' = true \/ (w_poisoned w' = w_poisoned w /\ holds w' s0 a0)
    | Died => True
    end /\
    (holds w' s0 a0 \/ exists s1, encode body = Ok s1 /\ images w' (around_write body s1 s0 a0))).
Proof.
  intros Hw. unfold write.
  apply (runs_bind _ _ _ _ _ (ensure_healthy_runs w)); [|intros ? e [-> _]; by auto|by intros ? [-> []]].
  intros ? _ [-> _].
  apply (runs_bind _ _ _ _ _ (lift_runs (encode body) w)); [|intros ? e [-> _]; by auto|by intros ? [-> []]].
  intros ? s1 [-> Henc].
  pose proof (encode_len _ _ Henc) as Hlen. pose proof Hw as (Es & Ea & Fs & Fa).
  apply (runs_bind _ _ _ _ _ (replace_file_runs StateTemp StateFile s1 w ltac:(done))).
  2: { intros w1 e [Ht Ho].
       assert (holds w1 s0 a0) by (eapply kept_holds; [done|apply Ht|done|by apply touches_anchor]).
       destruct Ht as (_ & Hp & _). split; [right; split; [congruence|done]|by left]. }
  2: { intros w1 [Ht Ho].
       assert (holds w1 s0 a0) by (eapply kept_holds; [done|apply Ht|done|by apply touches_anchor]). auto. }
  intros w1 _ [Ht (f & Ef & Hf)]. pose proof (touches_anchor _ _ Ht) as Ean. destruct Ht as (Hsy & Hp1 & _). cbn in Ef.
  assert (runs (post_rename euid max_bytes encode_anchor from_state body) w1 (fun w' o =>
    w_poisoned w' = w_poisoned w1 /\
    (o = Ret tt -> exists a1, anchor_bytes body = Ok a1 /\ holds w' (Some s1) (Some a1)) /\
    images w' (around_write body s1 s0 a0))) as Hpost.
  { assert (file_is (d_state (w_live w1)) (Some s1)) as F1 by (by rewrite Ef).
    assert (file_is (d_state (w_synced w1)) s0) as F0 by (by rewrite Hsy, <-Es).
    assert (d_anchor (w_live w1) = d_anchor (w_synced w1)) as E1 by (by rewrite Hsy, Ean).
    assert (file_is (d_anchor (w_live w1)) a0) as FA by (by rewrite Ean).
    unfold post_rename. apply (runs_bind _ _ _ _ _ (fsync_runs SyncingDirectory w1)).
    - intros w2 [] (Hl & Hp & Hs). eapply runs_mono; [apply (reopen_runs body s1 s0 a0 w2 Hlen)|].
      + unfold holds, disk_is. by rewrite Hs, Hl.
      + cbn. rewrite Hp. done.
    - intros w2 e (Hl & Hp & Hs). split_and!; [done|done|]. by apply (around_before body s1 s0 a0 w1).
    - intros w2 (Hl & Hp & Hs). split_and!; [done|done|]. by apply (around_before body s1 s0 a0 w1). }
  unfold runs, on_error in *.
  destruct (post_rename _ _ _ _ body w1) as [w2 [[]|e|]]; destruct Hpost as (Hp2 & Hret & Himg).
  - split; [|right; eauto]. split; [congruence|]. destruct (Hret eq_refl) as (a1 & ? & ?). eauto 10.
  - cbn. split; [by left|]. right. exists s1. split; [done|]. by apply (same_images w2).
  - split; [done|]. right; eauto.
Qed.

End specs.

(** ** Runs without faults *)

(** [completes c w]: [c] returns, and no fault is pending afterwards either. *)
Definition completes {A} (c : M A) (w : World) : Prop :=
  runs c w (fun w' o => (exists a, o = Ret a) /\ w_faults w' = []).

Lemma completes_bind {A B} (c : M A) (k : A -> M B) w :
  completes c w -> (forall w' a, c w = (w', Ret a) -> w_faults w' = [] -> completes (k a) w') ->
  completes (m_bind c k) w.
Proof.
  unfold completes, runs, m_bind. destruct (c w) as [w' o]. intros [[a ->] Hf] Hk. by apply Hk.
Qed.

Lemma completes_sys e w : w_faults w = [] -> completes (sys e) w.
Proof. intros Hf. unfold completes, runs, sys. rewrite Hf. eauto. Qed.

Lemma completes_ret {A} (a : A) w : w_faults w = [] -> completes (m_ret a) w.
Proof. intros Hf. unfold completes, runs, m_ret. eauto. Qed.

Lemma completes_sys_then {A} e (c : M A) w :
  w_faults w = [] -> completes c w -> completes (sys e;;; c) w.
Proof.
  intros Hf Hc. apply completes_bind; [by apply completes_sys|].
  unfold sys. rewrite Hf. by intros w' a [= <- <-].
Qed.

Lemma sys_calm e w : w_faults w = [] -> sys e w = (w, Ret tt).
Proof. unfold sys. by intros ->. Qed.

Lemma sys_bind {A} e (k : unit -> M A) w : w_faults w = [] -> m_bind (sys e) k w = k tt w.
Proof. intros Hf. unfold m_bind. by rewrite sys_calm. Qed.

Lemma m_bind_assoc {A B C} (c : M A) (k : A -> M B) (h : B -> M C) w :
  m_bind (m_bind c k) h w = m_bind c (fun x => m_bind (k x) h) w.
Proof. unfold m_bind. by destruct (c w) as [w' []]. Qed.

Lemma ensure_healthy_calm {A} (k : unit -> M A) w : w_poisoned w = false -> m_bind ensure_healthy k w = k tt w.
Proof. intros Hp. unfold m_bind, ensure_healthy, see, guard, m_bind. by rewrite Hp. Qed.

Lemma replace_file_completes euid temp target bytes w :
  w_faults w = [] -> completes (replace_file euid temp target bytes) w.
Proof.
  intros Hf. unfold replace_file, new_file. apply completes_bind.
  { do 4 (apply completes_sys_then; [done|]). unfold completes, runs, m_bind, take_version, m_ret. cbn. eauto. }
  intros w1 f _ Hf1. apply completes_bind.
  { apply completes_sys_then; [done|]. unfold completes, runs, change_live. cbn. eauto. }
  intros w2 _ _ Hf2. apply completes_bind.
  { apply completes_sys_then; [done|]. unfold completes, runs, change_live. cbn. eauto. }
  intros w3 _ _ Hf3. unfold completes, runs, on_error, renameat, m_bind. rewrite sys_calm by done. cbn. eauto.
Qed.

Lemma write_anchor_completes {A} euid (encode_anchor : A -> result StoreError (list byte)) anchor a1 w :
  w_faults w = [] -> encode_anchor anchor = Ok a1 -> completes (write_anchor euid encode_anchor anchor) w.
Proof.
  intros Hf He. unfold write_anchor. rewrite He. apply completes_bind; [by apply completes_ret|].
  intros w1 ? [= <- <-] Hf1. apply completes_bind; [by apply replace_file_completes|].
  intros w2 _ _ Hf2. unfold fsync_dir. apply completes_sys_then; [done|]. unfold completes, runs. cbn. eauto.
Qed.

Lemma runs_and {A} (c : M A) w (P Q : World -> outcome A -> Prop) :
  runs c w P -> runs c w Q -> runs c w (fun w' o => P w' o /\ Q w' o).
Proof. unfold runs. by destruct (c w). Qed.

(** ** Reopening *)

Section reopening.
Context (euid max_bytes : Z) {B A : Type}.
Context (decode : list byte -> result StoreError B).
Context (encode_anchor : A -> result StoreError (list byte)) (decode_anchor : list byte -> result StoreError A).
Context (from_state : B -> result StoreError A) (check_anchor : A -> A -> result StoreError unit) `{EqDecision A}.

(** What an open file of the store yields. *)
Lemma stored_checks bytes f w :
  stored euid bytes f ->
  runs (validate_secure_file euid max_bytes f) w (fun w' o => same_disk w w' /\ forall st, o = Ret st -> st = f_stat f).
Proof.
  intros Hf. unfold validate_secure_file. apply (runs_same _ _ _ _ (sys_runs _ _)); [|intros; by split..].
  intros w1 _ Hs. apply (runs_bind _ _ _ _ _ (guard_runs _ _ w1)).
  - intros ? _ [-> _]. unfold runs. split; [done|]. by intros st [= <-].
  - by intros ? e [-> _].
  - by intros ? [-> []].
Qed.

Lemma openat_runs e err w :
  runs (openat e err) w (fun w' o => same_disk w w' /\ forall f, o = Ret f -> f = dir_get (w_live w) e).
Proof.
  unfold openat. apply (runs_same _ _ _ _ (sys_runs _ _)); [|intros; by split..].
  intros w1 _ Hs. unfold runs, see. split; [done|]. intros f [= <-]. disks. congruence.
Qed.

(** Reading changes nothing; it returns the decoded state file or that there is none. *)
Lemma read_runs w s a :
  holds euid w s a ->
  runs (read euid max_bytes decode) w (fun w' o => same_disk w w' /\
    forall x, o = Ret x ->
      match s, x with
      | None, None => True
      | Some bytes, Some b => decode bytes = Ok b
      | _, _ => False
      end).
Proof.
  intros (Es & Ea & Fs & Fa). unfold read.
  apply (runs_bind _ _ _ _ _ (ensure_healthy_runs w)); [|by intros ? e [-> _]|by intros ? [-> []]].
  assert (forall w' o, same_disk w w' -> (forall x, o <> Ret x) -> same_disk w w' /\
    forall x : option B, o = Ret x ->
      match s, x with None, None => True | Some bytes, Some b => decode bytes = Ok b | _, _ => False end) as Hexit.
  { intros w' o Hs Ho. split; [done|]. intros x Hx. by destruct (Ho x). }
  intros ? _ [-> _]. eapply (runs_quiet w); [done|apply openat_runs|intros w1 f0 Hs1 Hf0|exact Hexit].
  rewrite (Hf0 _ eq_refl). cbn [dir_get].
  destruct (d_state (w_live w)) as [f|], s as [bytes|]; try done; [|by split; [|intros x [= <-]]].
  pose proof Fs as (Hbytes & _). cbn in Fs.
  eapply (runs_quiet w); [exact Hs1|apply (stored_checks bytes f w1 Fs)|intros w2 before Hs2 _|exact Hexit].
  eapply (runs_quiet w); [exact Hs2|apply sys_quiet|intros w3 _ Hs3 _|exact Hexit].
  eapply (runs_quiet w); [exact Hs3|apply guard_quiet|intros w4 _ Hs4 _|exact Hexit].
  eapply (runs_quiet w); [exact Hs4|apply (stored_checks bytes f w4 Fs)|intros w5 after Hs5 _|exact Hexit].
  eapply (runs_quiet w); [exact Hs5|apply sys_quiet|intros w6 _ Hs6 _|exact Hexit].
  eapply (runs_quiet w); [exact Hs6|apply see_quiet|intros w7 entry Hs7 _|exact Hexit].
  eapply (runs_quiet w); [exact Hs7|apply guard_quiet|intros w8 _ Hs8 _|exact Hexit].
  rewrite Hbytes.
  eapply (runs_quiet w); [exact Hs8|apply lift_quiet|intros w9 b Hs9 Hb|exact Hexit].
  apply runs_ret. split; [done|]. by intros x [= <-].
Qed.

Lemma read_anchor_runs w s a :
  holds euid w s a ->
  runs (read_anchor euid max_bytes decode_anchor) w (fun w' o => same_disk w w' /\
    forall x, o = Ret x ->
      match a, x with
      | None, None => True
      | Some bytes, Some an => decode_anchor bytes = Ok an
      | _, _ => False
      end).
Proof.
  intros (Es & Ea & Fs & Fa). unfold read_anchor.
  assert (forall w' o, same_disk w w' -> (forall x, o <> Ret x) -> same_disk w w' /\
    forall x : option A, o = Ret x ->
      match a, x with None, None => True | Some bytes, Some an => decode_anchor bytes = Ok an | _, _ => False end) as Hexit.
  { intros w' o Hs Ho. split; [done|]. intros x Hx. by destruct (Ho x). }
  eapply (runs_quiet w); [done|apply openat_runs|intros w1 f0 Hs1 Hf0|exact Hexit].
  rewrite (Hf0 _ eq_refl). cbn [dir_get].
  destruct (d_anchor (w_live w)) as [f|], a as [bytes|]; try done; [|by split; [|intros x [= <-]]].
  pose proof Fa as (Hbytes & _). cbn in Fa. rewrite Hbytes.
  eapply (runs_quiet w); [exact Hs1|apply (stored_checks bytes f w1 Fa)|intros w2 st Hs2 _|exact Hexit].
  eapply (runs_quiet w); [exact Hs2|apply sys_quiet|intros w3 _ Hs3 _|exact Hexit].
  eapply (runs_quiet w); [exact Hs3|apply guard_quiet|intros w4 _ Hs4 _|exact Hexit].
  eapply (runs_quiet w); [exact Hs4|apply lift_quiet|intros w5 an Hs5 Han|exact Hexit].
  apply runs_ret. split; [done|]. by intros x [= <-].
Qed.

(** What checking the anchor of the pair (s, a0) against [body] ends in: it
    returns only when the anchor was absent and allowed to be, or passed the
    check, and then the anchor on disk is the body's own. *)
Definition anchored (body : B) (had : bool) (w : World) (s a0 : option (list byte)) (w' : World) (o : outcome unit) : Prop :=
  w_poisoned w' = w_poisoned w /\
  (o = Ret tt -> exists current a1, from_state body = Ok current /\ holds euid w' s (Some a1) /\
     match a0 with
     | None => had = false /\ encode_anchor current = Ok a1
     | Some ab => exists anchor, decode_anchor ab = Ok anchor /\ check_anchor current anchor = Ok tt /\
                    (current = anchor /\ a1 = ab \/ encode_anchor current = Ok a1)
     end) /\
  images w' (fun d => disk_is euid d s a0 \/
                      exists a1, anchor_bytes encode_anchor from_state body = Ok a1 /\ disk_is euid d s (Some a1)).

Lemma anchored_exit body had w s a0 w' o :
  holds euid w s a0 -> same_disk w w' -> (forall x, o <> Ret x) -> anchored body had w s a0 w' o.
Proof.
  intros Hw Hs Ho. split_and!; [apply Hs|intros Hx; by destruct (Ho tt)|].
  eapply images_mono; [by apply holds_images, (same_holds euid w)|auto].
Qed.

Lemma write_anchored body had w0 w s a0 current :
  holds euid w0 s a0 -> same_disk w0 w -> from_state body = Ok current ->
  match a0 with
  | None => had = false
  | Some ab => exists anchor, decode_anchor ab = Ok anchor /\ check_anchor current anchor = Ok tt
  end ->
  runs (write_anchor euid encode_anchor current) w (anchored body had w0 s a0).
Proof.
  intros Hw Hs Hcur Ha. destruct (encode_anchor current) as [a1|e] eqn:Henc.
  - eapply runs_mono; [by apply (write_anchor_runs euid encode_anchor current a1 w s a0 Henc), (same_holds euid w0)|].
    cbn. intros w' o (Hp & Hret & Hi). split_and!; [disks; congruence| |].
    + intros Ho. exists current, a1. split_and!; [done|by apply Hret|]. destruct a0; [|done].
      destruct Ha as (anchor & Hd & Hc). exists anchor. auto.
    + eapply images_mono; [exact Hi|]. intros d [?|?]; [by left|right]. exists a1. unfold anchor_bytes. by rewrite Hcur.
  - unfold write_anchor, m_bind, runs. rewrite Henc. by apply anchored_exit.
Qed.

Lemma validate_anchor_runs body had w s a0 :
  holds euid w s a0 ->
  runs (validate_or_initialize_anchor euid max_bytes encode_anchor decode_anchor from_state check_anchor body had) w
       (anchored body had w s a0).
Proof.
  intros Hw. unfold validate_or_initialize_anchor.
  assert (forall w' o, same_disk w w' -> (forall x, o <> Ret x) -> anchored body had w s a0 w' o) as Hexit.
  { intros. by apply anchored_exit. }
  eapply (runs_quiet w); [done|apply lift_quiet|intros w1 current Hs1 Hcur|exact Hexit].
  eapply (runs_quiet w); [exact Hs1|eapply read_anchor_runs, (same_holds euid w); eassumption|intros w2 an Hs2 Han|exact Hexit].
  specialize (Han an eq_refl). destruct a0 as [ab|], an as [anchor|]; try done.
  - eapply (runs_quiet w); [exact Hs2|apply lift_quiet|intros w3 [] Hs3 Hchk|exact Hexit].
    case_bool_decide as Heq; [|apply write_anchored; eauto].
    apply runs_ret. split_and!; [apply Hs3| |].
    + intros _. exists current, ab. split_and!; [done|by apply (same_holds euid w)|]. exists anchor. auto.
    + eapply images_mono; [by apply holds_images, (same_holds euid w)|auto].
  - destruct had; [|by apply write_anchored]. by apply Hexit.
Qed.

(** [load] returns only a state that its anchor lets through. *)
Lemma load_checked prepare w s a :
  holds euid w s a ->
  runs (load euid max_bytes decode encode_anchor decode_anchor from_state check_anchor prepare) w (fun _ o =>
    forall x, o = Ret x -> exists loaded current,
      match s, loaded with None, None => True | Some bytes, Some b => decode bytes = Ok b | _, _ => False end /\
      prepare loaded = Ok (fst x) /\ from_state (fst x) = Ok current /\
      match a with
      | None => loaded = None
      | Some ab => exists anchor, decode_anchor ab = Ok anchor /\ check_anchor current anchor = Ok tt
      end).
Proof.
  intros Hw. unfold load.
  eapply (runs_quiet w); [done|eapply read_runs; eassumption|intros w1 loaded Hs1 Hl|intros w' o _ Ho x E; by destruct (Ho x)].
  eapply (runs_quiet w); [exact Hs1|apply lift_quiet|intros w2 body Hs2 Hprep|intros w' o _ Ho x E; by destruct (Ho x)].
  eapply runs_bind; [eapply validate_anchor_runs, (same_holds euid w); eassumption| |by intros|by intros].
  intros w3 [] (_ & Hret & _). apply runs_ret. intros x [= <-]. destruct (Hret eq_refl) as (current & a1 & Hcur & _ & Ha).
  exists loaded, current. split_and!; [by apply Hl|done|done|]. destruct a as [ab|].
  - destruct Ha as (anchor & Hd & Hc & _). eauto.
  - destruct Ha as [Hh _]. by destruct loaded.
Qed.

End reopening.

(** *** Reading without faults *)

Section calm.
Context (euid max_bytes : Z) {B A : Type}.
Context (decode : list byte -> result StoreError B) (decode_anchor : list byte -> result StoreError A).

Lemma validate_secure_calm {C} bytes f (k : Stat -> M C) w :
  w_faults w = [] -> stored euid bytes f -> (Z.of_nat (length bytes) <= max_bytes)%Z ->
  m_bind (validate_secure_file euid max_bytes f) k w = k (f_stat f) w.
Proof.
  intros Hf Hst Hl. unfold validate_secure_file. rewrite m_bind_assoc, sys_bind by done.
  by rewrite (stored_secure euid max_bytes bytes f Hst Hl).
Qed.

Lemma read_calm s b w :
  w_faults w = [] -> w_poisoned w = false -> file_is euid (d_state (w_live w)) s ->
  match s with Some bytes => decode bytes = Ok b /\ (Z.of_nat (length bytes) <= max_bytes)%Z | None => True end ->
  read euid max_bytes decode w = (w, Ret (match s with Some _ => Some b | None => None end)).
Proof.
  intros Hf Hp Fs Hs. unfold read. rewrite ensure_healthy_calm by done.
  unfold openat. rewrite m_bind_assoc, sys_bind by done. unfold m_bind at 1. cbn [see].
  cbn [dir_get]. destruct (d_state (w_live w)) as [f|] eqn:Ef, s as [bytes|]; try done. destruct Hs as [Hdec Hl].
  cbn in Fs. rewrite (validate_secure_calm bytes) by done. rewrite sys_bind by done.
  destruct Fs as [<- Fs]. rewrite (proj2 (Z.ltb_ge _ _)) by lia.
  unfold m_bind at 1. cbn [guard lift reject_if m_ret].
  rewrite (validate_secure_calm (f_bytes f)) by done. rewrite sys_bind by done.
  unfold m_bind at 1. cbn [see dir_get]. rewrite Ef. cbn [fmap option_fmap option_map].
  rewrite !bool_decide_true by done. unfold m_bind. rewrite Hdec. done.
Qed.

Lemma read_anchor_calm bytes an w :
  w_faults w = [] -> file_is euid (d_anchor (w_live w)) (Some bytes) ->
  decode_anchor bytes = Ok an -> (Z.of_nat (length bytes) <= max_bytes)%Z ->
  read_anchor euid max_bytes decode_anchor w = (w, Ret (Some an)).
Proof.
  intros Hf Fa Hdec Hl. unfold read_anchor, openat. rewrite m_bind_assoc, sys_bind by done.
  unfold m_bind at 1. cbn [see dir_get]. destruct (d_anchor (w_live w)) as [f|]; [|done]. cbn in Fa.
  rewrite (validate_secure_calm bytes) by done. rewrite sys_bind by done.
  destruct Fa as [<- _]. rewrite (proj2 (Z.ltb_ge _ _)) by lia. unfold m_bind. cbn. by rewrite Hdec.
Qed.

Lemma read_anchor_absent w :
  w_faults w = [] -> file_is euid (d_anchor (w_live w)) None -> read_anchor euid max_bytes decode_anchor w = (w, Ret None).
Proof.
  intros Hf Fa. unfold read_anchor, openat. rewrite m_bind_assoc, sys_bind by done.
  unfold m_bind at 1. cbn [see dir_get]. by destruct (d_anchor (w_live w)).
Qed.
End calm.

(** ** The contract of a store *)

(** What a component provides to keep its state in such a directory: the two
    encodings, and a check that lets every step of the state pass.  A body is
    one of the store's when [step b b]. *)
Class StoreLaws (max_bytes : Z) {B A : Type}
    (encode : B -> result StoreError (list byte)) (decode : list byte -> result StoreError B)
    (encode_anchor : A -> result StoreError (list byte)) (decode_anchor : list byte -> result StoreError A)
    (from_state : B -> result StoreError A) (check_anchor : A -> A -> result StoreError unit)
    (step : B -> B -> Prop) : Prop := {
  decode_encode : forall b s, step b b -> encode b = Ok s -> decode s = Ok b;
  encode_len : forall b s, encode b = Ok s -> (Z.of_nat (length s) <= max_bytes)%Z;
  decode_encode_anchor : forall a s, encode_anchor a = Ok s -> decode_anchor s = Ok a;
  encode_anchor_len : forall a s, encode_anchor a = Ok s -> (Z.of_nat (length s) <= max_bytes)%Z;
  step_passes : forall b b' a a', step b b' -> from_state b = Ok a -> from_state b' = Ok a' -> check_anchor a' a = Ok tt;
  step_own : forall b b', step b b' -> step b' b'
}.

Section durable.
Context (euid max_bytes : Z) {B A : Type}.
Context (encode : B -> result StoreError (list byte)) (decode : list byte -> result StoreError B).
Context (encode_anchor : A -> result StoreError (list byte)) (decode_anchor : list byte -> result StoreError A).
Context (from_state : B -> result StoreError A) (check_anchor : A -> A -> result StoreError unit) `{EqDecision A}.
Context (step : B -> B -> Prop).
Context {laws : StoreLaws max_bytes encode decode encode_anchor decode_anchor from_state check_anchor step}.
(** The body of a directory without a state file. *)
Context (fresh : B).

Notation anchor_bytes := (anchor_bytes encode_anchor from_state).

Definition state_is (s : option (list byte)) (b : B) : Prop :=
  match s with Some s => encode b = Ok s | None => b = fresh end.

(** A directory a crash may leave: the state file holds [b], the anchor is
    that of [b] or of the body before it. *)
Definition keeps (d : Dir) (b : B) : Prop :=
  exists s a, disk_is euid d s a /\ state_is s b /\
    match a with
    | None => s = None /\ step b b
    | Some a => exists ba, anchor_bytes ba = Ok a /\ step ba b
    end.

(** A store at rest: both files are synced and belong to [b]. *)
Definition settled (w : World) (b : B) : Prop :=
  exists s a, holds euid w s (Some a) /\ state_is s b /\ anchor_bytes b = Ok a /\ step b b.

Lemma settled_images w b : settled w b -> images w (fun d => keeps d b).
Proof.
  intros (s & a & Hw & Hs & Ha & Hown). eapply images_mono; [by apply holds_images|].
  intros d Hd. exists s, (Some a). split_and!; [done..|]. by exists b.
Qed.

(** Writing [b'] over a settled [b]: the new body is settled when it returns;
    otherwise the old one is, or the store is poisoned; a crash leaves one of
    the two. *)
Lemma write_settled w b b' :
  settled w b -> step b b' ->
  runs (write euid max_bytes encode encode_anchor from_state b') w (fun w' o =>
    match o with
    | Ret _ => w_poisoned w' = w_poisoned w /\ settled w' b'
    | Throw _ => w_poisoned w' = true \/ (w_poisoned w' = w_poisoned w /\ settled w' b)
    | Died => True
    end /\ images w' (fun d => keeps d b \/ keeps d b')).
Proof.
  intros (s & a & Hw & Hs & Ha & Hown) Hstep. pose proof (step_own _ _ Hstep) as Hown'.
  eapply runs_mono; [apply (write_runs euid max_bytes encode encode_anchor from_state encode_len b' w s (Some a) Hw)|].
  cbn. intros w' o [Ho Himg]. split.
  - destruct o as [[]|e|]; [|destruct Ho as [?|[? ?]]; [by left|right]|done].
    + destruct Ho as (Hp & s1 & a1 & He & Ha1 & Hw'). split; [done|]. by exists (Some s1), a1.
    + split; [done|]. by exists s, a.
  - destruct Himg as [Hw'|(s1 & He & Himg)].
    + eapply images_mono; [apply settled_images; by exists s, a|auto].
    + eapply images_mono; [exact Himg|]. intros d [Hd|[Hd|(a1 & Ha1 & Hd)]].
      * left. exists s, (Some a). split_and!; [done..|]. by exists b.
      * right. exists (Some s1), (Some a). split_and!; [done..|]. by exists b.
      * right. exists (Some s1), (Some a1). split_and!; [done..|]. by exists b'.
Qed.

(** Without faults a write of a body that encodes returns. *)
Lemma write_completes w b s0 a0 s1 a1 :
  w_faults w = [] -> w_poisoned w = false -> holds euid w s0 a0 -> encode b = Ok s1 -> anchor_bytes b = Ok a1 ->
  completes (write euid max_bytes encode encode_anchor from_state b) w.
Proof.
  intros Hf Hp Hw He Ha. unfold write, completes, runs. rewrite ensure_healthy_calm by done.
  unfold m_bind at 1. rewrite He. cbn [lift m_ret].
  pose proof (replace_file_completes euid StateTemp StateFile s1 w Hf) as Hc.
  pose proof (replace_file_runs euid StateTemp StateFile s1 w ltac:(done)) as Hr.
  unfold completes, runs in Hc, Hr. unfold m_bind at 1.
  destruct (replace_file euid StateTemp StateFile s1 w) as [w1 o]. destruct Hc as [[[] ->] Hf1].
  destruct Hr as [Ht (f & Ef & Hst)].
  unfold on_error, post_rename. unfold fsync_dir at 1. rewrite m_bind_assoc, sys_bind by done.
  unfold m_bind at 1. cbn [w_live w_synced w_faults w_next w_poisoned].
  unfold openat. rewrite m_bind_assoc, sys_bind by done.
  unfold m_bind at 1. cbn [see w_live dir_get]. cbn in Ef. rewrite Ef.
  unfold validate_secure_file. rewrite m_bind_assoc, sys_bind by done.
  rewrite (stored_secure euid max_bytes s1 f Hst) by (by eapply encode_len).
  unfold m_bind at 1. cbn [negb guard lift reject_if m_ret m_bind].
  apply result_bind_ok in Ha as (an & Han & Ha). unfold m_bind at 1. rewrite Han. cbn [lift m_ret].
  match goal with |- context [write_anchor euid encode_anchor an ?w] =>
    pose proof (write_anchor_completes euid encode_anchor an a1 w Hf1 Ha) as Hwa end.
  unfold completes, runs in Hwa. destruct (write_anchor _ _ _ _) as [w2 o2]. destruct Hwa as [[[] ->] Hf2]. eauto.
Qed.

(** Loading from what a crash left: only that body is returned, and the store
    is settled then; whatever fails, a crash leaves that body again. *)
Context (prepare : option B -> result StoreError B).
Context (prepare_ok : forall loaded b, prepare loaded = Ok b -> b = default fresh loaded).

Notation load := (load euid max_bytes decode encode_anchor decode_anchor from_state check_anchor prepare).

Lemma keeps_holds d b faults next :
  keeps d b -> exists s a, holds euid (restarted d faults next) s a /\ state_is s b /\
    match a with None => s = None /\ step b b | Some a => exists ba, anchor_bytes ba = Ok a /\ step ba b end.
Proof. intros (s & a & Hd & Hs & Ha). by exists s, a. Qed.

(** [load] on a directory at rest, in terms of its two files. *)
Lemma load_settled w s a b :
  holds euid w s a -> state_is s b ->
  match a with None => s = None /\ step b b | Some a => exists ba, anchor_bytes ba = Ok a /\ step ba b end ->
  runs load w (fun w' o =>
    w_poisoned w' = w_poisoned w /\
    (forall x, o = Ret x -> x = (b, bool_decide (is_Some s)) /\ settled w' b) /\
    images w' (fun d => keeps d b)).
Proof.
  intros Hw Hs Ha.
  assert (step b b) as Hown by (destruct a as [a|]; [destruct Ha as (ba & _ & Hb); by eapply step_own|apply Ha]).
  assert (keeping : forall d, disk_is euid d s a -> keeps d b) by (intros d Hd; by exists s, a).
  assert (forall w' o, same_disk w w' -> (forall x, o <> Ret x) -> w_poisoned w' = w_poisoned w /\
    (forall x, o = Ret x -> x = (b, bool_decide (is_Some s)) /\ settled w' b) /\ images w' (fun d => keeps d b)) as Hexit.
  { intros w' o Hsame Ho. split_and!; [apply Hsame|intros x Hx; by destruct (Ho x)|].
    eapply images_mono; [by apply holds_images, (same_holds euid w)|done]. }
  unfold StateDir.load.
  eapply (runs_quiet w); [done|eapply read_runs; eassumption|intros w1 loaded Hs1 Hl|exact Hexit].
  specialize (Hl loaded eq_refl).
  assert (default fresh loaded = b /\ bool_decide (is_Some loaded) = bool_decide (is_Some s)) as [Hb Hhad].
  { destruct s as [bytes|], loaded as [x|]; try done. cbn in *. rewrite (decode_encode _ _ Hown Hs) in Hl. by injection Hl. }
  eapply (runs_quiet w); [exact Hs1|apply lift_quiet|intros w2 body Hs2 Hprep|exact Hexit].
  rewrite (prepare_ok _ _ Hprep), Hb, Hhad.
  eapply runs_bind; [eapply validate_anchor_runs, (same_holds euid w); eassumption| | |].
  - intros w3 [] (Hp & Hret & Himg). apply runs_ret.
    assert (settled w3 b) as Hset.
    { destruct (Hret eq_refl) as (cur & a1 & Hcur & Hw3 & Ha1). exists s, a1. split_and!; [done|done| |done].
      unfold StateDir.anchor_bytes. rewrite Hcur. cbn. destruct a as [ab|]; [|by destruct Ha1].
      destruct Ha1 as (anchor & Hdec & _ & [[-> ->]|He]); [|done].
      destruct Ha as (ba & Hba & _). apply result_bind_ok in Hba as (an & _ & Hba).
      rewrite (decode_encode_anchor _ _ Hba) in Hdec. by injection Hdec as ->. }
    split_and!; [disks; congruence|by intros x [= <-]|by apply settled_images].
  - intros w3 e (Hp & _ & Himg). split_and!; [disks; congruence|done|].
    eapply images_mono; [exact Himg|]. intros d [Hd|(a1 & Ha1 & Hd)]; [auto|].
    exists s, (Some a1). split_and!; [done..|]. by exists b.
  - intros w3 (Hp & _ & Himg). split_and!; [disks; congruence|done|].
    eapply images_mono; [exact Himg|]. intros d [Hd|(a1 & Ha1 & Hd)]; [auto|].
    exists s, (Some a1). split_and!; [done..|]. by exists b.
Qed.

(** Without faults a directory a crash may leave loads, when the body passes
    the component's own check and its anchor encodes. *)
Lemma load_completes d b next :
  keeps d b -> (forall s, state_is s b -> prepare (match s with Some _ => Some b | None => None end) = Ok b) ->
  (exists a, anchor_bytes b = Ok a) ->
  completes load (restarted d [] next).
Proof.
  intros (s & a & [Fs Fa] & Hs & Ha) Hprep [a1 Ha1]. specialize (Hprep s Hs).
  assert (step b b) as Hown by (destruct a as [a|]; [destruct Ha as (ba & _ & Hb); by eapply step_own|apply Ha]).
  set (w := restarted d [] next).
  assert (StateDir.read euid max_bytes decode w = (w, Ret (match s with Some _ => Some b | None => None end))) as Hread.
  { apply (read_calm euid max_bytes decode s b); try done. destruct s as [bytes|]; [|done]. cbn in *.
    split; [by apply decode_encode|by eapply encode_len]. }
  assert (StateDir.read_anchor euid max_bytes decode_anchor w = (w, Ret None) /\ a = None \/
    exists ba an ab, a = Some ab /\ from_state ba = Ok an /\ step ba b /\
      StateDir.read_anchor euid max_bytes decode_anchor w = (w, Ret (Some an))) as Hanchor.
  { destruct a as [ab|]; [right|left].
    - destruct Ha as (ba & Hba & Hstep). apply result_bind_ok in Hba as (an & Han & Hab).
      exists ba, an, ab. split_and!; [done..|]. apply (read_anchor_calm euid max_bytes decode_anchor ab an); try done.
      + by apply decode_encode_anchor.
      + by eapply encode_anchor_len.
    - split; [|done]. by apply read_anchor_absent. }
  unfold completes, runs, StateDir.load. unfold m_bind at 1. rewrite Hread. unfold m_bind at 1. rewrite Hprep.
  cbn [lift m_ret]. unfold validate_or_initialize_anchor.
  apply result_bind_ok in Ha1 as (cur & Hcur & Henc). rewrite m_bind_assoc. unfold m_bind at 1. rewrite Hcur. cbn [lift m_ret].
  pose proof (write_anchor_completes euid encode_anchor cur a1 w eq_refl Henc) as Hwrite. unfold completes, runs in Hwrite.
  rewrite m_bind_assoc. unfold m_bind at 1.
  destruct Hanchor as [[-> ->]|(ba & an & ab & -> & Han & Hstep & ->)].
  - destruct Ha as [-> _]. cbn. unfold m_bind. destruct (write_anchor euid encode_anchor cur w) as [w' o].
    destruct Hwrite as [[[] ->] Hf]. cbn. eauto.
  - rewrite (step_passes _ _ _ _ Hstep Han Hcur). unfold m_bind at 1. unfold m_bind at 1. cbn [lift m_ret].
    case_bool_decide; [cbn; eauto|].
    destruct (write_anchor euid encode_anchor cur w) as [w' o]. destruct Hwrite as [[[] ->] Hf]. cbn. eauto.
Qed.

End durable.
