(* ===== verification/Authority.v ===== *)
(** * The publication authority: fabric-iroh/src/iroh_publication_authority.rs

    The authority keeps, per admitted signer, the latest signed node record and
    serves it until it expires.  Its promise is that it never goes back: not to
    an older sequence, not to another packet with the same sequence, not to a
    record once seen expired, whatever requests arrive, whichever system calls
    fail and wherever the process dies.

    The state file and its anchor are the store of StateDir.v.  serde_json and
    BLAKE3 are the classes [Json] and [Blake3Hex]; pkarr, DNS and URLs those of
    NodeRecord.v.  [apply_request_at] is the whole handler; [start] is bind with
    the store's open; [astep] is one event in the life of the authority: a
    request, a crash, a start. *)

From Stdlib Require Import Strings.Byte ZArith Lia.
From stdpp Require Import base gmap numbers strings sorting list.
From S2P Require Import Prelude Hex Text Ids RecordCodec Lan SockAddr NodeRecord StateDir.

Definition AUTHORITY_STATE_SCHEMA : Z := 1.
Definition MAX_AUTHORITY_STATE_BYTES : Z := 4 * 1024 * 1024.
Definition AUTHORITY_CHECKSUM_DOMAIN : list byte := str "nix-p2p/iroh-node-publication-authority/v1" ++ [x00].
Definition AUTHORITY_ANCHOR_CHECKSUM_DOMAIN : list byte :=
  str "nix-p2p/iroh-node-publication-authority/anchor/v1" ++ [x00].
Definition AUTHORITY_ADMISSION_DOMAIN : list byte :=
  str "nix-p2p/iroh-node-publication-authority/admission/v1" ++ [x00].
Definition EXPIRY_CLOCK_GRACE_MICROS : Z := 1000000.
Definition CLOCK_HIGH_WATER_GRANULARITY_MICROS : Z := 1000000.

(** ** Data *)

(** BTreeSet of z-base-32 keys; `TestOnlyUnrestricted` exists in tests only. *)
Inductive AuthoritySignerAdmission := Explicit (signers : gset (list byte)).

Record PublicationAuthorityConfig := {
  ac_listen : SocketAddr;
  ac_namespace : list byte;
  ac_signed_recipient : list byte;
  ac_expected_host : list byte;
  ac_owner : list byte;
  ac_signer_admission : AuthoritySignerAdmission
}.

Inductive AuthorityRecordState := EntryLive | EntryWithdrawn.
#[export] Instance AuthorityRecordState_eq_dec : EqDecision AuthorityRecordState.
Proof. solve_decision. Defined.

Record AuthorityEntry := {
  ae_high_water_sequence : Z;
  ae_expires_unix_micros : Z;
  ae_state : AuthorityRecordState;
  ae_expired : bool;
  ae_packet_hex : list byte
}.
#[export] Instance AuthorityEntry_eq_dec : EqDecision AuthorityEntry.
Proof. solve_decision. Defined.

Record AuthorityStateBody := {
  as_schema_version : Z;
  as_namespace : list byte;
  as_signed_recipient : list byte;
  as_signer_admission_blake3_hex : list byte;
  as_wall_clock_high_water_unix_micros : Z;
  as_records : gmap (list byte) AuthorityEntry
}.

Record AuthorityAnchorEntry := {
  aa_high_water_sequence : Z;
  aa_expired : bool;
  aa_packet_blake3_hex : list byte
}.
#[export] Instance AuthorityAnchorEntry_eq_dec : EqDecision AuthorityAnchorEntry.
Proof. solve_decision. Defined.

Record AuthorityAnchorBody := {
  an_schema_version : Z;
  an_namespace : list byte;
  an_signed_recipient : list byte;
  an_signer_admission_blake3_hex : list byte;
  an_wall_clock_high_water_unix_micros : Z;
  an_records : gmap (list byte) AuthorityAnchorEntry
}.
#[export] Instance AuthorityAnchorBody_eq_dec : EqDecision AuthorityAnchorBody.
Proof. solve_decision. Defined.

Inductive Method := GET | PUT.
Record AuthorityRequest := { rq_method : Method; rq_signer : list byte; rq_body : list byte }.
Record AuthorityResponse := { rs_status : Z; rs_reason : list byte; rs_body : list byte }.
Definition response (status : Z) (reason body : list byte) : AuthorityResponse :=
  {| rs_status := status; rs_reason := reason; rs_body := body |}.

(** AuthorityInner: the state behind the mutex and the in-process deadlines.
    An `Instant` is a number of nanoseconds. *)
Record Inner := {
  in_state : AuthorityStateBody;
  in_monotonic_expiry : gmap (list byte) Z
}.

(** `Instant::checked_add(Duration::from_micros(..))`: the seconds are an i64. *)
Definition instant_checked_add (instant micros : Z) : option Z :=
  let deadline := (instant + micros * 1000)%Z in
  if (deadline <? 2 ^ 63 * 10 ^ 9)%Z then Some deadline else None.

(** Byte order of strings, as a decidable relation. *)
Definition bytes_le (a b : list byte) : Prop := bytes_leb a b = true.
#[export] Instance bytes_le_dec : RelDecision bytes_le.
Proof. intros a b. unfold bytes_le. apply _. Defined.

(** ** Operations *)

Section authority.
Context `{Pkarr, Dns, Urls, Blake3Hex}.
Context `{Json AuthorityStateBody, Json (Envelope AuthorityStateBody)}.
Context `{Json AuthorityAnchorBody, Json (Envelope AuthorityAnchorBody)}.
Context (euid : Z).

Definition admission_validate (a : AuthoritySignerAdmission) : bool :=
  let '(Explicit signers) := a in
  negb (bool_decide (signers = ∅) || (256 <? size signers))
  && forallb (fun signer => bool_decide (to_z32 <$> from_z32 signer = Some signer)) (elements signers).
Definition admits (a : AuthoritySignerAdmission) (signer : list byte) : bool :=
  let '(Explicit signers) := a in bool_decide (signer ∈ signers).

(** The set is hashed in order, each key behind its length. *)
Definition fingerprint (a : AuthoritySignerAdmission) : list byte :=
  let '(Explicit signers) := a in
  blake3_hex (AUTHORITY_ADMISSION_DOMAIN ++ str "explicit" ++ [x00]
              ++ flat_map (fun s => to_be_bytes 8 (Z.of_nat (length s)) ++ s) (merge_sort bytes_le (elements signers))).

Definition anchor_entry (_ : list byte) (e : AuthorityEntry) : result StoreError AuthorityAnchorEntry :=
  packet ← decode_hex MAX_BYTES (ae_packet_hex e);
  Ok {| aa_high_water_sequence := ae_high_water_sequence e; aa_expired := ae_expired e;
        aa_packet_blake3_hex := blake3_hex packet |}.

(** AuthorityAnchorBody::from_state *)
Definition from_state (state : AuthorityStateBody) : result StoreError AuthorityAnchorBody :=
  records ← map_traverse anchor_entry (as_records state);
  Ok {| an_schema_version := as_schema_version state; an_namespace := as_namespace state;
        an_signed_recipient := as_signed_recipient state;
        an_signer_admission_blake3_hex := as_signer_admission_blake3_hex state;
        an_wall_clock_high_water_unix_micros := as_wall_clock_high_water_unix_micros state;
        an_records := records |}.

Definition encode_authority_state : AuthorityStateBody -> result StoreError (list byte) :=
  encode_envelope AUTHORITY_CHECKSUM_DOMAIN MAX_AUTHORITY_STATE_BYTES.
Definition decode_authority_state : list byte -> result StoreError AuthorityStateBody :=
  decode_envelope AUTHORITY_CHECKSUM_DOMAIN.
Definition encode_authority_anchor : AuthorityAnchorBody -> result StoreError (list byte) :=
  encode_envelope AUTHORITY_ANCHOR_CHECKSUM_DOMAIN MAX_AUTHORITY_STATE_BYTES.
Definition decode_authority_anchor : list byte -> result StoreError AuthorityAnchorBody :=
  decode_envelope AUTHORITY_ANCHOR_CHECKSUM_DOMAIN.

(** The loop over the anchored signers. *)
Definition check_anchored (current : gmap (list byte) AuthorityAnchorEntry) (signer : list byte)
    (anchored : AuthorityAnchorEntry) : result StoreError unit :=
  candidate ← ok_or (current !! signer) AnchorAhead;
  reject_if ((aa_high_water_sequence candidate <? aa_high_water_sequence anchored)%Z
             || (aa_high_water_sequence candidate =? aa_high_water_sequence anchored)%Z
                && (bool_decide (aa_packet_blake3_hex candidate <> aa_packet_blake3_hex anchored)
                    || (aa_expired anchored && negb (aa_expired candidate)))) AnchorAhead.

(** The checks of validate_or_initialize_anchor. *)
Definition check_anchor (current anchor : AuthorityAnchorBody) : result StoreError unit :=
  _ ← reject_if (negb (an_schema_version anchor =? an_schema_version current)%Z
                 || bool_decide (an_namespace anchor <> an_namespace current)
                 || bool_decide (an_signed_recipient anchor <> an_signed_recipient current)
                 || bool_decide (an_signer_admission_blake3_hex anchor <> an_signer_admission_blake3_hex current)) AnchorIdentity;
  _ ← reject_if (an_wall_clock_high_water_unix_micros current <? an_wall_clock_high_water_unix_micros anchor)%Z AnchorAhead;
  _ ← map_traverse (check_anchored (an_records current)) (an_records anchor);
  Ok tt.

(** The store's operations. *)
Definition store_write : AuthorityStateBody -> M unit :=
  write euid MAX_AUTHORITY_STATE_BYTES encode_authority_state encode_authority_anchor from_state.
Definition store_load : (option AuthorityStateBody -> result StoreError AuthorityStateBody) -> M (AuthorityStateBody * bool) :=
  load euid MAX_AUTHORITY_STATE_BYTES decode_authority_state encode_authority_anchor decode_authority_anchor
    from_state check_anchor.

Definition validate_entry (config : PublicationAuthorityConfig) (signer : list byte) (entry : AuthorityEntry) :
    result StoreError unit :=
  packet ← decode_hex MAX_BYTES (ae_packet_hex entry);
  signed ← ok_or (packet_from_bytes packet) StoredPacket;
  _ ← reject_if (bool_decide (to_z32 (public_key signed) <> signer)) StateMismatch;
  record ← map_err (fun _ => StoredPacket) (decode_node_record packet);
  reject_if (negb (nr_sequence record =? ae_high_water_sequence entry)%Z
             || negb (nr_expires_unix_micros record =? ae_expires_unix_micros entry)%Z
             || bool_decide (nr_namespace record <> ac_namespace config)
             || bool_decide (nr_recipient record <> ac_signed_recipient config)
             || negb (Bool.eqb (bool_decide (nr_state record = Live)) (bool_decide (ae_state entry = EntryLive)))) StateMismatch.

Definition validate_authority_state (state : AuthorityStateBody) (config : PublicationAuthorityConfig) :
    result StoreError unit :=
  _ ← reject_if (negb (as_schema_version state =? AUTHORITY_STATE_SCHEMA)%Z
                 || bool_decide (as_namespace state <> ac_namespace config)
                 || bool_decide (as_signed_recipient state <> ac_signed_recipient config)
                 || bool_decide (as_signer_admission_blake3_hex state <> fingerprint (ac_signer_admission config)))
                StateMismatch;
  _ ← map_traverse (validate_entry config) (as_records state);
  Ok tt.

Definition clock_regressed (state : AuthorityStateBody) (now : Z) : bool :=
  negb (as_wall_clock_high_water_unix_micros state =? 0)%Z
  && (u64_saturating_add now CLOCK_HIGH_WATER_GRANULARITY_MICROS <? as_wall_clock_high_water_unix_micros state)%Z.

(** The state of a directory that has none yet. *)
Definition fresh_state (config : PublicationAuthorityConfig) : AuthorityStateBody :=
  {| as_schema_version := AUTHORITY_STATE_SCHEMA; as_namespace := ac_namespace config;
     as_signed_recipient := ac_signed_recipient config;
     as_signer_admission_blake3_hex := fingerprint (ac_signer_admission config);
     as_wall_clock_high_water_unix_micros := 0; as_records := ∅ |}.

Definition prepare_state (config : PublicationAuthorityConfig) (loaded : option AuthorityStateBody) :
    result StoreError AuthorityStateBody :=
  let body := default (fresh_state config) loaded in
  _ ← validate_authority_state body config; Ok body.

(** AuthorityStateStore::open *)
Definition open (config : PublicationAuthorityConfig) (now : Z) : M AuthorityStateBody :=
  acquire_lock;;;
  loaded <- store_load (prepare_state config);;
  guard (clock_regressed (fst loaded) now) ClockRegressed;;;
  m_ret (fst loaded).

Definition monotonic_expiry_deadlines (state : AuthorityStateBody) (now_unix_micros instant : Z) : gmap (list byte) Z :=
  omap (fun entry => if ae_expired entry then None
                     else instant_checked_add instant (u64_saturating_sub (ae_expires_unix_micros entry) now_unix_micros))
       (as_records state).

(** bind and from_listener, up to the socket: [now] is read twice. *)
Definition start (config : PublicationAuthorityConfig) (now now' instant : Z) : M Inner :=
  state <- open config now;;
  m_ret {| in_state := state; in_monotonic_expiry := monotonic_expiry_deadlines state now' instant |}.

Definition with_clock (state : AuthorityStateBody) (clock : Z) (records : gmap (list byte) AuthorityEntry) : AuthorityStateBody :=
  {| as_schema_version := as_schema_version state; as_namespace := as_namespace state;
     as_signed_recipient := as_signed_recipient state;
     as_signer_admission_blake3_hex := as_signer_admission_blake3_hex state;
     as_wall_clock_high_water_unix_micros := clock; as_records := records |}.

Definition set_expired (entry : AuthorityEntry) : AuthorityEntry :=
  {| ae_high_water_sequence := ae_high_water_sequence entry; ae_expires_unix_micros := ae_expires_unix_micros entry;
     ae_state := ae_state entry; ae_expired := true; ae_packet_hex := ae_packet_hex entry |}.

Definition not_found : AuthorityResponse := response 404 (str "Not Found") [].
Definition unprocessable : AuthorityResponse := response 422 (str "Unprocessable Entity") [].
Definition conflict : AuthorityResponse := response 409 (str "Conflict") [].

(** The GET half of apply_request_at.  A value is the handler's result with
    the state it leaves; [Throw] is an error before any state changed. *)
Definition apply_get (signer : list byte) (now instant : Z) (inner : Inner) :
    M (Inner * result StoreError AuthorityResponse) :=
  let state := in_state inner in
  let clock_advance_due := (CLOCK_HIGH_WATER_GRANULARITY_MICROS <=?
    u64_saturating_sub now (as_wall_clock_high_water_unix_micros state))%Z in
  match as_records state !! signer with
  | None => m_ret (inner, Ok not_found)
  | Some entry =>
      let monotonic_expired :=
        match in_monotonic_expiry inner !! signer with Some deadline => (deadline <=? instant)%Z | None => false end in
      if ae_expired entry then m_ret (inner, Ok not_found)
      else if (ae_expires_unix_micros entry <=? now)%Z || monotonic_expired then
        let candidate := with_clock state (as_wall_clock_high_water_unix_micros state `max` now)%Z
                           (<[signer := set_expired entry]> (as_records state)) in
        store_write candidate;;;
        m_ret ({| in_state := candidate; in_monotonic_expiry := delete signer (in_monotonic_expiry inner) |}, Ok not_found)
      else
        inner <- (if clock_advance_due then
                    let candidate := with_clock state now (as_records state) in
                    store_write candidate;;;
                    m_ret {| in_state := candidate; in_monotonic_expiry := in_monotonic_expiry inner |}
                  else m_ret inner);;
        m_ret (inner, packet ← decode_hex MAX_BYTES (ae_packet_hex entry);
                      packet ← ok_or (packet_from_bytes packet) StoredPacket;
                      Ok (response 200 (str "OK") (to_relay_payload packet)))
  end.

(** The signed record of a PUT for [signer]; [None] is a 422. *)
Definition put_record (config : PublicationAuthorityConfig) (signer body : list byte) : option (SignedPacket * NodeRecord) :=
  signer_key ← from_z32 signer;
  signed ← from_relay_payload signer_key body;
  if bool_decide (to_z32 (public_key signed) <> signer) then None else
  match decode_node_record (as_bytes signed) with
  | Err _ => None
  | Ok record =>
      if bool_decide (nr_namespace record <> ac_namespace config)
         || bool_decide (nr_recipient record <> ac_signed_recipient config) then None
      else Some (signed, record)
  end.

(** The answer the stored entry alone decides; [None] lets the record in. *)
Definition existing_answer (existing : option AuthorityEntry) (record : NodeRecord) (packet : list byte) : option AuthorityResponse :=
  match existing with
  | None => None
  | Some existing =>
      if ae_expired existing && (nr_sequence record <=? ae_high_water_sequence existing)%Z then Some conflict
      else if (nr_sequence record <? ae_high_water_sequence existing)%Z then Some conflict
      else if (nr_sequence record =? ae_high_water_sequence existing)%Z then
        if bool_decide (ae_packet_hex existing = encode_hex packet) then Some (response 200 (str "OK") []) else Some conflict
      else None
  end.

Definition new_entry (record : NodeRecord) (packet : list byte) : AuthorityEntry :=
  {| ae_high_water_sequence := nr_sequence record; ae_expires_unix_micros := nr_expires_unix_micros record;
     ae_state := match nr_state record with Live => EntryLive | Withdrawn => EntryWithdrawn end;
     ae_expired := false; ae_packet_hex := encode_hex packet |}.

(** The record is let in: store it and set its deadline. *)
Definition store_record (signer : list byte) (signed : SignedPacket) (record : NodeRecord) (now instant : Z) (inner : Inner) :
    M (Inner * result StoreError AuthorityResponse) :=
  let state := in_state inner in
  let candidate := with_clock state (as_wall_clock_high_water_unix_micros state `max` now)%Z
                     (<[signer := new_entry record (as_bytes signed)]> (as_records state)) in
  store_write candidate;;;
  let remaining := u64_saturating_sub (nr_expires_unix_micros record) now in
  match instant_checked_add instant remaining with
  | None => m_ret ({| in_state := candidate; in_monotonic_expiry := in_monotonic_expiry inner |}, Err DeadlineOverflow)
  | Some deadline =>
      m_ret ({| in_state := candidate;
                in_monotonic_expiry := <[to_z32 (public_key signed) := deadline]> (in_monotonic_expiry inner) |},
             Ok (response 201 (str "Created") []))
  end.

(** The PUT half of apply_request_at. *)
Definition apply_put (config : PublicationAuthorityConfig) (signer body : list byte) (now instant : Z) (inner : Inner) :
    M (Inner * result StoreError AuthorityResponse) :=
  let state := in_state inner in
  match put_record config signer body with
  | None => m_ret (inner, Ok unprocessable)
  | Some (signed, record) =>
      max_expiry <- lift (ok_or (t ← u64_checked_add now (nr_ttl_seconds record * 1000000);
                                 u64_checked_add t EXPIRY_CLOCK_GRACE_MICROS) ExpiryBound);;
      if (nr_expires_unix_micros record <=? now)%Z || (max_expiry <? nr_expires_unix_micros record)%Z
      then m_ret (inner, Ok unprocessable)
      else match existing_answer (as_records state !! signer) record (as_bytes signed) with
      | Some answer => m_ret (inner, Ok answer)
      | None => store_record signer signed record now instant inner
      end
  end.

Definition apply_request_at (config : PublicationAuthorityConfig) (request : AuthorityRequest) (now instant : Z) (inner : Inner) :
    M (Inner * result StoreError AuthorityResponse) :=
  if negb (admits (ac_signer_admission config) (rq_signer request)) then
    m_ret (inner, Ok (match rq_method request with GET => not_found | PUT => response 403 (str "Forbidden") [] end))
  else
    ensure_healthy;;;
    guard (clock_regressed (in_state inner) now) ClockRegressed;;;
    match rq_method request with
    | GET => apply_get (rq_signer request) now instant inner
    | PUT => apply_put config (rq_signer request) (rq_body request) now instant inner
    end.

End authority.

(** ** The order the authority climbs *)

(** A later sequence, or the same packet with the expiry latch kept. *)
Definition entry_le (e e' : AuthorityEntry) : Prop :=
  (ae_high_water_sequence e < ae_high_water_sequence e')%Z \/
  ae_high_water_sequence e = ae_high_water_sequence e' /\ ae_packet_hex e = ae_packet_hex e' /\
  (ae_expired e = true -> ae_expired e' = true).

Record body_le (b b' : AuthorityStateBody) : Prop := {
  bl_schema : as_schema_version b = as_schema_version b';
  bl_namespace : as_namespace b = as_namespace b';
  bl_recipient : as_signed_recipient b = as_signed_recipient b';
  bl_admission : as_signer_admission_blake3_hex b = as_signer_admission_blake3_hex b';
  bl_clock : (as_wall_clock_high_water_unix_micros b <= as_wall_clock_high_water_unix_micros b')%Z;
  bl_records : forall signer e, as_records b !! signer = Some e ->
    exists e', as_records b' !! signer = Some e' /\ entry_le e e'
}.

#[export] Instance entry_le_preorder : PreOrder entry_le.
Proof.
  split.
  - intros e. by right.
  - intros a b c [Hab|(Hab & Hp & He)] [Hbc|(Hbc & Hp' & He')]; [left; lia|left; lia|left; lia|].
    right. split_and!; [congruence|congruence|auto].
Qed.

#[export] Instance body_le_preorder : PreOrder body_le.
Proof.
  split.
  - intros b. split; try done. intros s e He. exists e. split; [done|reflexivity].
  - intros a b c Hab Hbc. destruct Hab, Hbc. split; try congruence; [lia|].
    intros s e He. destruct (bl_records0 s e He) as (e1 & He1 & Hle1). destruct (bl_records1 s e1 He1) as (e2 & He2 & Hle2).
    exists e2. split; [done|by etransitivity].
Qed.

Lemma body_le_with_clock b clock records :
  (as_wall_clock_high_water_unix_micros b <= clock)%Z ->
  (forall signer e, as_records b !! signer = Some e -> exists e', records !! signer = Some e' /\ entry_le e e') ->
  body_le b (with_clock b clock records).
Proof. intros Hc Hr. by split. Qed.

Lemma insert_le (m : gmap (list byte) AuthorityEntry) signer e' :
  (forall e, m !! signer = Some e -> entry_le e e') ->
  forall s e, m !! s = Some e -> exists e1, <[signer := e']> m !! s = Some e1 /\ entry_le e e1.
Proof.
  intros Hle s e He. destruct (decide (signer = s)) as [<-|Hne].
  - exists e'. rewrite lookup_insert_eq. auto.
  - exists e. rewrite lookup_insert_ne by done. split; [done|reflexivity].
Qed.

(** ** What one signer's slot promises *)

(** The abstract register: empty, holding a packet until its expiry, or
    latched after the expiry was seen. *)
Module Register.

Inductive t := Never | Kept (sequence expiry : Z) (packet : list byte) | Latched (sequence : Z).
Inductive answer := Absent | Serves (packet : list byte) | Created | Same | Conflicts | Refused.

(** [late]: the in-process deadline has passed. *)
Definition get (r : t) (now : Z) (late : bool) : t * answer :=
  match r with
  | Kept sequence expiry packet =>
      if (expiry <=? now)%Z || late then (Latched sequence, Absent) else (r, Serves packet)
  | _ => (r, Absent)
  end.

Definition put (r : t) (now ttl sequence expiry : Z) (packet : list byte) : t * answer :=
  if negb ((now <? expiry)%Z && (expiry <=? now + ttl * 1000000 + 1000000)%Z) then (r, Refused) else
  match r with
  | Never => (Kept sequence expiry packet, Created)
  | Latched seen => if (seen <? sequence)%Z then (Kept sequence expiry packet, Created) else (r, Conflicts)
  | Kept seen _ held =>
      if (seen <? sequence)%Z then (Kept sequence expiry packet, Created)
      else if (seen =? sequence)%Z && bool_decide (held = packet) then (r, Same) else (r, Conflicts)
  end.

(** The answers on the wire: a relay payload is the packet without its key. *)
Definition status (a : answer) : Z :=
  match a with Absent => 404 | Serves _ | Same => 200 | Created => 201 | Conflicts => 409 | Refused => 422 end.
Definition reason (a : answer) : list byte :=
  match a with
  | Absent => str "Not Found" | Serves _ | Same => str "OK" | Created => str "Created" | Conflicts => str "Conflict"
  | Refused => str "Unprocessable Entity"
  end.
Definition body (a : answer) : list byte := match a with Serves packet => drop 32 packet | _ => [] end.

End Register.

Section authority_laws.
Context `{Pkarr, Dns, Urls, Blake3Hex, !PkarrLaws}.
Context `{Json AuthorityStateBody, Json (Envelope AuthorityStateBody), !JsonLaws (Envelope AuthorityStateBody) (fun _ => True)}.
Context `{Json AuthorityAnchorBody, Json (Envelope AuthorityAnchorBody), !JsonLaws (Envelope AuthorityAnchorBody) (fun _ => True)}.
Context (euid : Z) (config : PublicationAuthorityConfig).

Lemma anchored_passes current signer anchored candidate :
  current !! signer = Some candidate ->
  check_anchored current signer anchored = Ok tt <->
  (aa_high_water_sequence anchored < aa_high_water_sequence candidate)%Z \/
  aa_high_water_sequence anchored = aa_high_water_sequence candidate /\
  aa_packet_blake3_hex anchored = aa_packet_blake3_hex candidate /\
  (aa_expired anchored = true -> aa_expired candidate = true).
Proof.
  intros Hc. unfold check_anchored. rewrite Hc. cbn [ok_or mbind result_bind]. rewrite reject_if_ok.
  destruct (Z.ltb_spec (aa_high_water_sequence candidate) (aa_high_water_sequence anchored)); cbn [orb]; [split; [done|lia]|].
  destruct (Z.eqb_spec (aa_high_water_sequence candidate) (aa_high_water_sequence anchored)) as [E|E]; cbn [andb];
    [|split; [left; lia|done]].
  destruct (bool_decide_reflect (aa_packet_blake3_hex candidate <> aa_packet_blake3_hex anchored)) as [Hp|Hp%dec_stable]; cbn [orb].
  - split; [done|]. intros [?|(_ & ? & _)]; [lia|congruence].
  - destruct (aa_expired anchored), (aa_expired candidate); cbn; (split; [try done; right; auto|try done]).
    intros [?|(_ & _ & Hx)]; [lia|]. by specialize (Hx eq_refl).
Qed.

(** The anchor check passes exactly when every anchored signer has moved on or
    stayed. *)
Lemma check_anchor_ok current anchor :
  check_anchor current anchor = Ok tt <->
  an_schema_version anchor = an_schema_version current /\ an_namespace anchor = an_namespace current /\
  an_signed_recipient anchor = an_signed_recipient current /\
  an_signer_admission_blake3_hex anchor = an_signer_admission_blake3_hex current /\
  (an_wall_clock_high_water_unix_micros anchor <= an_wall_clock_high_water_unix_micros current)%Z /\
  (forall signer anchored, an_records anchor !! signer = Some anchored ->
     check_anchored (an_records current) signer anchored = Ok tt).
Proof.
  unfold check_anchor. rewrite result_bind_ok. setoid_rewrite reject_if_ok.
  assert ((exists r, map_traverse (check_anchored (an_records current)) (an_records anchor) = Ok r) <->
    (forall signer anchored, an_records anchor !! signer = Some anchored ->
       check_anchored (an_records current) signer anchored = Ok tt)) as Hmap.
  { split.
    - intros (r & Hr) signer anchored Ha. rewrite map_traverse_ok in Hr. specialize (Hr signer). rewrite Ha in Hr.
      destruct (r !! signer) as [[]|]; done.
    - intros Hall. exists ((fun _ => tt) <$> an_records anchor). apply map_traverse_ok. intros k.
      rewrite lookup_fmap. destruct (an_records anchor !! k) eqn:E; cbn; auto. }
  split.
  - intros (_ & Hid & Hrest). apply result_bind_ok in Hrest as (_ & Hc%reject_if_ok & Hrest).
    apply result_bind_ok in Hrest as (r & Hr & _). apply Z.ltb_ge in Hc.
    rewrite !orb_false_iff, negb_false_iff, Z.eqb_eq, !bool_decide_eq_false in Hid.
    destruct Hid as [[[? E1%dec_stable] E2%dec_stable] E3%dec_stable]. split_and!; try done. apply Hmap. eauto.
  - intros (E1 & E2 & E3 & E4 & Hc & Hall). exists tt. rewrite E1, E2, E3, E4, Z.eqb_refl, !bool_decide_false by auto.
    split; [done|]. rewrite (proj2 (Z.ltb_ge _ _)) by done. cbn.
    apply Hmap in Hall as (r & Hr). by rewrite Hr.
Qed.

Lemma from_state_ok b a :
  from_state b = Ok a <->
  an_schema_version a = as_schema_version b /\ an_namespace a = as_namespace b /\
  an_signed_recipient a = as_signed_recipient b /\
  an_signer_admission_blake3_hex a = as_signer_admission_blake3_hex b /\
  an_wall_clock_high_water_unix_micros a = as_wall_clock_high_water_unix_micros b /\
  (forall signer, traversed (anchor_entry signer) (as_records b !! signer) (an_records a !! signer)).
Proof.
  unfold from_state. rewrite result_bind_ok. setoid_rewrite map_traverse_ok. split.
  - intros (r & Hr & [= <-]). done.
  - intros (E1 & E2 & E3 & E4 & E5 & Hr). exists (an_records a). split; [done|]. destruct a; cbn in *. by subst.
Qed.

Lemma anchor_entry_ok signer e a :
  anchor_entry signer e = Ok a ->
  aa_high_water_sequence a = ae_high_water_sequence e /\ aa_expired a = ae_expired e /\
  exists packet, ae_packet_hex e = encode_hex packet /\ decode_hex MAX_BYTES (ae_packet_hex e) = Ok packet /\
    aa_packet_blake3_hex a = blake3_hex packet.
Proof.
  unfold anchor_entry. intros (packet & Hp & [= <-])%result_bind_ok. split_and!; [done|done|].
  exists packet. split_and!; [by eapply decode_hex_canonical|done|done].
Qed.

#[export] Instance authority_store :
  StoreLaws MAX_AUTHORITY_STATE_BYTES encode_authority_state decode_authority_state
    encode_authority_anchor decode_authority_anchor from_state check_anchor body_le.
Proof.
  split.
  - intros b s _ Hs. exact (decode_encode_envelope _ _ _ b s (fun _ => I) Hs).
  - intros b s Hs. exact (encode_envelope_len _ _ _ _ Hs).
  - intros a s Hs. exact (decode_encode_envelope _ _ _ a s (fun _ => I) Hs).
  - intros a s Hs. exact (encode_envelope_len _ _ _ _ Hs).
  - intros b b' a a' Hle Ha%from_state_ok Ha'%from_state_ok. destruct Hle as [? ? ? ? Hc Hr].
    destruct Ha as (? & ? & ? & ? & Hca & Hra), Ha' as (? & ? & ? & ? & Hca' & Hra').
    apply check_anchor_ok. split_and!; try congruence; try lia.
    intros signer anchored Hs. specialize (Hra signer). rewrite Hs in Hra.
    destruct (as_records b !! signer) as [e|] eqn:He; [|done]. cbn in Hra.
    destruct (Hr signer e He) as (e' & He' & Hle). specialize (Hra' signer). rewrite He' in Hra'.
    destruct (an_records a' !! signer) as [candidate|] eqn:Hcand; [|done]. cbn in Hra'.
    apply (anchored_passes _ _ _ _ Hcand).
    apply anchor_entry_ok in Hra as (-> & -> & packet & Hp & Hdec & ->).
    apply anchor_entry_ok in Hra' as (-> & -> & packet' & Hp' & Hdec' & ->).
    destruct Hle as [|(? & Heq & ?)]; [by left|right]. split_and!; [done| |done]. congruence.
  - intros b b' _. reflexivity.
Qed.

(** ** Well-formed states *)

(** What a stored entry stands for: a verified packet of the signer whose
    record is meant for this authority. *)
Record entry_holds (signer : list byte) (e : AuthorityEntry) (p : SignedPacket) (r : NodeRecord) : Prop := {
  eh_packet : ae_packet_hex e = encode_hex (as_bytes p);
  eh_signer : to_z32 (public_key p) = signer;
  eh_record : decode_node_record (as_bytes p) = Ok r;
  eh_sequence : nr_sequence r = ae_high_water_sequence e;
  eh_expires : nr_expires_unix_micros r = ae_expires_unix_micros e;
  eh_namespace : nr_namespace r = ac_namespace config;
  eh_recipient : nr_recipient r = ac_signed_recipient config;
  eh_state : ae_state e = match nr_state r with Live => EntryLive | Withdrawn => EntryWithdrawn end
}.

Lemma decode_packet_hex e p :
  ae_packet_hex e = encode_hex (as_bytes p) -> decode_hex MAX_BYTES (ae_packet_hex e) = Ok (as_bytes p).
Proof. intros ->. apply decode_encode_hex, packet_size. Qed.

Lemma validate_entry_ok signer e :
  validate_entry config signer e = Ok tt <-> exists p r, entry_holds signer e p r.
Proof.
  unfold validate_entry. split.
  - intros (packet & Hp & Hv)%result_bind_ok. apply result_bind_ok in Hv as (p & Hs%ok_or_ok & Hv).
    apply result_bind_ok in Hv as (_ & Hk%reject_if_ok & Hv).
    apply result_bind_ok in Hv as (r & Hr%map_err_ok & Hv%reject_if_ok).
    apply bytes_of_packet in Hs as <-. exists p, r.
    rewrite !orb_false_iff, !negb_false_iff, !Z.eqb_eq, !bool_decide_eq_false, eqb_true_iff in Hv.
    rewrite bool_decide_eq_false in Hk. destruct Hv as [[[[Hseq Hexp] Hns%dec_stable] Hrc%dec_stable] Hst].
    apply dec_stable in Hk. split; try done; [by eapply decode_hex_canonical|].
    destruct (nr_state r), (ae_state e); done.
  - intros (p & r & [Hp Hk Hr Hseq Hexp Hns Hrc Hst]).
    rewrite (decode_packet_hex _ _ Hp). cbn [mbind result_bind]. rewrite packet_of_bytes. cbn [ok_or mbind result_bind].
    rewrite (bool_decide_false (to_z32 (public_key p) <> signer)) by auto. cbn [reject_if mbind result_bind]. rewrite Hr. cbn [map_err mbind result_bind].
    rewrite reject_if_ok, !orb_false_iff, !negb_false_iff, !Z.eqb_eq, !bool_decide_eq_false, eqb_true_iff, Hst.
    split_and!; auto. by destruct (nr_state r).
Qed.

Lemma validate_state_ok b :
  validate_authority_state b config = Ok tt <->
  as_schema_version b = AUTHORITY_STATE_SCHEMA /\ as_namespace b = ac_namespace config /\
  as_signed_recipient b = ac_signed_recipient config /\
  as_signer_admission_blake3_hex b = fingerprint (ac_signer_admission config) /\
  (forall signer e, as_records b !! signer = Some e -> exists p r, entry_holds signer e p r).
Proof.
  unfold validate_authority_state. split.
  - intros (_ & Hid%reject_if_ok & Hv)%result_bind_ok. apply result_bind_ok in Hv as (m & Hm & _).
    rewrite !orb_false_iff, negb_false_iff, Z.eqb_eq, !bool_decide_eq_false in Hid.
    destruct Hid as [[[Hs Hn%dec_stable] Hr%dec_stable] Hf%dec_stable]. split_and!; try done.
    intros signer e He. apply validate_entry_ok. rewrite map_traverse_ok in Hm. specialize (Hm signer).
    rewrite He in Hm. by destruct (m !! signer) as [[]|].
  - intros (Hs & Hn & Hr & Hf & Hall). rewrite Hs, Hn, Hr, Hf, !bool_decide_false by auto. cbn.
    assert (map_traverse (validate_entry config) (as_records b) = Ok ((fun _ => tt) <$> as_records b)) as ->; [|done].
    apply map_traverse_ok. intros k. rewrite lookup_fmap. destruct (as_records b !! k) as [e|] eqn:E; [|done]. cbn.
    apply validate_entry_ok. by apply Hall.
Qed.

Lemma fresh_valid : validate_authority_state (fresh_state config) config = Ok tt.
Proof. by apply validate_state_ok. Qed.

(** A well-formed state has an anchor. *)
Lemma from_state_total b : validate_authority_state b config = Ok tt -> exists a, from_state b = Ok a.
Proof.
  intros Hv. apply validate_state_ok in Hv as (_ & _ & _ & _ & Hall). unfold from_state.
  assert (exists r, map_traverse anchor_entry (as_records b) = Ok r) as [r ->]; [|cbn; eauto].
  exists ((fun e => {| aa_high_water_sequence := ae_high_water_sequence e; aa_expired := ae_expired e;
             aa_packet_blake3_hex := match decode_hex MAX_BYTES (ae_packet_hex e) with Ok p => blake3_hex p | Err _ => [] end |})
          <$> as_records b).
  apply map_traverse_ok. intros k. rewrite lookup_fmap. destruct (as_records b !! k) as [e|] eqn:E; [|done]. cbn.
  destruct (Hall k e E) as (p & r & [Hp _ _ _ _ _ _ _]). unfold anchor_entry. by rewrite (decode_packet_hex _ _ Hp).
Qed.

Lemma with_clock_valid b clock records :
  validate_authority_state b config = Ok tt ->
  (forall signer e, records !! signer = Some e -> exists p r, entry_holds signer e p r) ->
  validate_authority_state (with_clock b clock records) config = Ok tt.
Proof. intros (? & ? & ? & ? & _)%validate_state_ok Hall. by apply validate_state_ok. Qed.

(** An accepted PUT is a record of the signer meant for this authority. *)
Lemma put_record_ok signer body p r :
  put_record config signer body = Some (p, r) <->
  from_z32 signer = Some (public_key p) /\ from_relay_payload (public_key p) body = Some p /\
  to_z32 (public_key p) = signer /\ decode_node_record (as_bytes p) = Ok r /\
  nr_namespace r = ac_namespace config /\ nr_recipient r = ac_signed_recipient config.
Proof.
  unfold put_record. split.
  - intros (k & Hk & Hb)%bind_Some. apply bind_Some in Hb as (p' & Hp & Hb).
    destruct (bool_decide_reflect (to_z32 (public_key p') <> signer)) as [|Hs%dec_stable]; [done|].
    destruct (decode_node_record (as_bytes p')) as [r'|] eqn:Hr; [|done].
    destruct (_ || _) eqn:E; [done|]. injection Hb as -> ->.
    rewrite orb_false_iff, !bool_decide_eq_false in E. destruct E as [E1%dec_stable E2%dec_stable].
    pose proof (z32_roundtrip p) as Hz. rewrite Hs, Hk in Hz. injection Hz as ->. done.
  - intros (Hk & Hp & Hs & Hr & Hn & Hrc). rewrite Hk. cbn. rewrite Hp. cbn.
    rewrite bool_decide_false by auto. rewrite Hr, !bool_decide_false by auto. done.
Qed.

Lemma new_entry_holds signer body p r :
  put_record config signer body = Some (p, r) -> entry_holds signer (new_entry r (as_bytes p)) p r.
Proof. intros (_ & _ & Hs & Hr & Hn & Hrc)%put_record_ok. by split. Qed.

(** The payload served for an entry is the PUT that would store it. *)
Lemma served_record signer e p r :
  entry_holds signer e p r -> put_record config signer (to_relay_payload p) = Some (p, r).
Proof.
  intros [_ Hs Hr _ _ Hn Hrc _]. apply put_record_ok. split_and!; try done.
  - rewrite <-Hs. apply z32_roundtrip.
  - rewrite from_relay, <-relay_layout. apply packet_of_bytes.
Qed.

Lemma encode_hex_inj a b : encode_hex a = encode_hex b -> a = b.
Proof.
  intros E. assert (hexfmt.decode_pairs 0 (encode_hex a) = hexfmt.decode_pairs 0 (encode_hex b)) as Hd by (by rewrite E).
  unfold encode_hex in Hd. rewrite !hexfmt.decode_pairs_encode in Hd. by injection Hd.
Qed.

Lemma as_bytes_inj p p' : as_bytes p = as_bytes p' -> p = p'.
Proof. intros E. pose proof (packet_of_bytes p) as Hp. rewrite E, packet_of_bytes in Hp. by injection Hp. Qed.

(** ** The life of an authority *)

(** Serving with its store, or down with what the last crash left. *)
Inductive Sys := Up (inner : Inner) (w : World) | Down (d : Dir).

(** One event, labelled with the request and its answer when one is given. *)
Inductive astep : Sys -> option (AuthorityRequest * AuthorityResponse) -> Sys -> Prop :=
| astep_answer inner w request now instant faults w' inner' answer :
    apply_request_at euid config request now instant inner (with_faults w faults) = (w', Ret (inner', Ok answer)) ->
    astep (Up inner w) (Some (request, answer)) (Up inner' w')
| astep_fails_after inner w request now instant faults w' inner' e :
    apply_request_at euid config request now instant inner (with_faults w faults) = (w', Ret (inner', Err e)) ->
    astep (Up inner w) None (Up inner' w')
| astep_fails inner w request now instant faults w' e :
    apply_request_at euid config request now instant inner (with_faults w faults) = (w', Throw e) ->
    astep (Up inner w) None (Up inner w')
| astep_dies inner w request now instant faults w' d :
    apply_request_at euid config request now instant inner (with_faults w faults) = (w', Died) -> crash_image w' d ->
    astep (Up inner w) None (Down d)
| astep_crash inner w d : crash_image w d -> astep (Up inner w) None (Down d)
| astep_start d faults next now now' instant w' inner :
    start euid config now now' instant (restarted d faults next) = (w', Ret inner) ->
    astep (Down d) None (Up inner w')
| astep_start_fails d faults next now now' instant w' o d' :
    start euid config now now' instant (restarted d faults next) = (w', o) -> (forall inner, o <> Ret inner) ->
    crash_image w' d' ->
    astep (Down d) None (Down d').

Definition step_any (s s' : Sys) : Prop := exists l, astep s l s'.

(** *** The invariant *)

Notation valid b := (validate_authority_state b config = Ok tt).
Notation kept d b := (keeps euid encode_authority_state encode_authority_anchor from_state body_le (fresh_state config) d b).
Notation at_rest w b :=
  (settled euid encode_authority_state encode_authority_anchor from_state body_le (fresh_state config) w b).

(** A directory that holds a well-formed state no lower than [lo]. *)
Definition dir_above (lo : AuthorityStateBody) (d : Dir) : Prop := exists b, body_le lo b /\ valid b /\ kept d b.

Definition up_ok (inner : Inner) (w : World) : Prop :=
  valid (in_state inner) /\ images w (dir_above (in_state inner)) /\
  (w_poisoned w = true \/ at_rest w (in_state inner)).

Definition above (lo : AuthorityStateBody) (s : Sys) : Prop :=
  match s with
  | Up inner w => body_le lo (in_state inner) /\ up_ok inner w
  | Down d => dir_above lo d
  end.

Lemma dir_above_le lo lo' d : body_le lo lo' -> dir_above lo' d -> dir_above lo d.
Proof. intros Hle (b & Hb & Hv & Hk). exists b. split; [by etransitivity|done]. Qed.

Lemma rest_images w b : at_rest w b -> images w (fun d => kept d b).
Proof. intros Hr. exact (settled_images euid _ _ _ _ _ w b Hr). Qed.

Lemma rest_above w b : valid b -> at_rest w b -> images w (dir_above b).
Proof.
  intros Hv Hr. eapply images_mono; [by apply rest_images|]. intros d Hd. exists b. split; [reflexivity|done].
Qed.

(** What a handler's run over a settled store may end in. *)
Definition handled (inner : Inner) (w : World) (w' : World) (o : outcome (Inner * result StoreError AuthorityResponse)) : Prop :=
  match o with
  | Ret (inner', _) => w_poisoned w' = w_poisoned w /\ at_rest w' (in_state inner') /\
                       body_le (in_state inner) (in_state inner') /\ valid (in_state inner')
  | Throw _ => w_poisoned w' = true \/ w_poisoned w' = w_poisoned w /\ at_rest w' (in_state inner)
  | Died => True
  end /\ images w' (dir_above (in_state inner)).

Lemma handled_same inner w r :
  valid (in_state inner) -> at_rest w (in_state inner) -> handled inner w w (Ret (inner, r)).
Proof. intros Hv Hr. split; [split_and!; try done; reflexivity|by apply rest_above]. Qed.

(** Writing a higher well-formed state, then answering from it. *)
Lemma handled_write inner w candidate (k : unit -> M (Inner * result StoreError AuthorityResponse)) :
  valid (in_state inner) -> at_rest w (in_state inner) -> valid candidate -> body_le (in_state inner) candidate ->
  (forall w', at_rest w' candidate -> exists inner' r, k tt w' = (w', Ret (inner', r)) /\ in_state inner' = candidate) ->
  runs (m_bind (store_write euid candidate) k) w (handled inner w).
Proof.
  intros Hv Hr Hv' Hle Hk.
  assert (forall w', images w' (fun d => kept d (in_state inner) \/ kept d candidate) -> images w' (dir_above (in_state inner))) as Himg.
  { intros w' Hi. eapply images_mono; [exact Hi|]. intros d [Hd|Hd]; [exists (in_state inner)|exists candidate];
      split_and!; done || reflexivity. }
  eapply runs_bind; [exact (write_settled euid MAX_AUTHORITY_STATE_BYTES _ _ _ _ _ _ _ _ w _ _ Hr Hle)| | |].
  - intros w' [] [[Hp Hw'] Hi]. destruct (Hk w' Hw') as (inner' & r & E & <-). unfold runs. rewrite E.
    split; [by split_and!|auto].
  - intros w' e [[Hp|[Hp Hw']] Hi]; split; auto.
  - intros w' [_ Hi]. split; auto.
Qed.

Lemma set_expired_le e : entry_le e (set_expired e).
Proof. by right. Qed.

Lemma set_expired_holds signer e p r : entry_holds signer e p r -> entry_holds signer (set_expired e) p r.
Proof. intros []. by split. Qed.

Lemma insert_valid (m : gmap (list byte) AuthorityEntry) signer e' :
  (forall s e, m !! s = Some e -> exists p r, entry_holds s e p r) -> (exists p r, entry_holds signer e' p r) ->
  forall s e, <[signer := e']> m !! s = Some e -> exists p r, entry_holds s e p r.
Proof.
  intros Hall He' s e. destruct (decide (signer = s)) as [<-|Hne].
  - rewrite lookup_insert_eq. by intros [= <-].
  - rewrite lookup_insert_ne by done. apply Hall.
Qed.

Lemma apply_get_handled signer now instant inner w :
  valid (in_state inner) -> at_rest w (in_state inner) ->
  runs (apply_get euid signer now instant inner) w (handled inner w).
Proof.
  intros Hv Hr. pose proof (proj1 (validate_state_ok _) Hv) as (_ & _ & _ & _ & Hall). unfold apply_get.
  destruct (as_records (in_state inner) !! signer) as [entry|] eqn:He; [|by apply handled_same].
  destruct (ae_expired entry); [by apply handled_same|].
  destruct (_ || _).
  - apply handled_write; try done.
    + apply with_clock_valid; [done|]. apply insert_valid; [done|].
      destruct (Hall _ _ He) as (p & r & Hh). exists p, r. by apply set_expired_holds.
    + apply body_le_with_clock; [lia|]. apply insert_le. intros e. rewrite He. intros [= <-]. apply set_expired_le.
    + intros w' _. unfold m_ret. eexists _, _. split; [reflexivity|done].
  - destruct (_ <=? _)%Z eqn:Hdue; [|by apply handled_same].
    unfold runs. rewrite m_bind_assoc. apply handled_write; try done.
    + apply body_le_with_clock; [|intros s e Hs; exists e; split; [done|reflexivity]].
      apply Z.leb_le in Hdue. unfold u64_saturating_sub, CLOCK_HIGH_WATER_GRANULARITY_MICROS in Hdue. lia.
    + intros w' _. unfold m_bind, m_ret. eexists _, _. split; [reflexivity|done].
Qed.

(** The stored entry lets a record in only above it. *)
Lemma existing_answer_none existing r packet e' :
  existing_answer (Some existing) r packet = None -> ae_high_water_sequence e' = nr_sequence r -> entry_le existing e'.
Proof.
  unfold existing_answer. intros Hn Hs. left. rewrite Hs.
  destruct (_ && _); [done|]. destruct (Z.ltb_spec (nr_sequence r) (ae_high_water_sequence existing)); [done|].
  destruct (Z.eqb_spec (nr_sequence r) (ae_high_water_sequence existing)); [|lia]. by destruct (bool_decide _).
Qed.

Lemma apply_put_handled signer body now instant inner w :
  valid (in_state inner) -> at_rest w (in_state inner) ->
  runs (apply_put euid config signer body now instant inner) w (handled inner w).
Proof.
  intros Hv Hr. pose proof (proj1 (validate_state_ok _) Hv) as (_ & _ & _ & _ & Hall). unfold apply_put.
  destruct (put_record config signer body) as [[p r]|] eqn:Hput; [|by apply handled_same].
  destruct (ok_or _ _) as [max_expiry|e]; unfold runs, m_bind at 1; cbn [lift m_ret m_throw].
  2: { split; [by right|by apply rest_above]. }
  destruct (_ || _); [by apply handled_same|].
  destruct (existing_answer _ _ _) as [answer|] eqn:Hex; [by apply handled_same|]. unfold store_record.
  apply handled_write; try done.
  - apply with_clock_valid; [done|]. apply insert_valid; [done|]. exists p, r. by eapply new_entry_holds.
  - apply body_le_with_clock; [lia|]. apply insert_le. intros e He. rewrite He in Hex. by eapply existing_answer_none.
  - intros w' _. destruct (instant_checked_add _ _); unfold m_ret; eexists _, _; (split; [reflexivity|done]).
Qed.

Lemma apply_handled request now instant inner w :
  valid (in_state inner) -> at_rest w (in_state inner) ->
  runs (apply_request_at euid config request now instant inner) w (handled inner w).
Proof.
  intros Hv Hr. unfold apply_request_at. destruct (negb _); [by apply handled_same|].
  assert (handled inner w w (Throw ClockRegressed) /\ handled inner w w (Throw Poisoned)) as [Ht Hp].
  { split; (split; [by right|by apply rest_above]). }
  unfold runs, m_bind at 1, ensure_healthy, see, guard, m_bind at 1.
  destruct (w_poisoned w); cbn [reject_if lift m_throw m_ret]; [done|].
  unfold m_bind at 1. destruct (clock_regressed _ _); cbn [reject_if lift m_throw m_ret]; [done|].
  destruct (rq_method request); [by apply apply_get_handled|by apply apply_put_handled].
Qed.

(** A poisoned store answers nothing that would need it. *)
Lemma apply_poisoned request now instant inner w :
  w_poisoned w = true ->
  runs (apply_request_at euid config request now instant inner) w (fun w' o => w' = w /\
    match o with Ret (inner', r) => inner' = inner /\ exists a, r = Ok a /\ rs_status a ∈ [404%Z; 403%Z] | Throw e => e = Poisoned | Died => False end).
Proof.
  intros Hp. unfold apply_request_at. destruct (negb _).
  - unfold runs, m_ret. split; [done|]. split; [done|]. eexists. split; [reflexivity|]. destruct (rq_method request); cbn; set_solver.
  - unfold runs, m_bind, ensure_healthy, see, guard, m_bind. by rewrite Hp.
Qed.

Lemma prepare_state_ok loaded b : prepare_state config loaded = Ok b -> b = default (fresh_state config) loaded /\ valid b.
Proof. unfold prepare_state. by intros ([] & Hv & [= <-])%result_bind_ok. Qed.

(** Starting on a directory that holds [b]: it serves [b] or fails with [b]
    still there. *)
Lemma start_kept d b faults next now now' instant :
  valid b -> kept d b ->
  runs (start euid config now now' instant) (restarted d faults next) (fun w' o =>
    images w' (dir_above b) /\
    forall inner, o = Ret inner -> in_state inner = b /\ w_poisoned w' = false /\ at_rest w' b).
Proof.
  intros Hv Hk. set (w0 := restarted d faults next).
  destruct (keeps_holds euid encode_authority_state encode_authority_anchor from_state body_le
    (fresh_state config) d b faults next Hk) as (s & a & Hw & Hs & Ha).
  assert (forall w', same_disk w0 w' -> images w' (dir_above b)) as Hsame.
  { intros w' Hd. eapply images_mono; [by apply holds_images, (same_holds euid w0)|].
    intros d' Hd'. exists b. split_and!; [reflexivity|done|]. by exists s, a. }
  unfold start, open. unfold runs. rewrite m_bind_assoc.
  eapply (runs_quiet w0); [done|apply acquire_lock_quiet|intros w1 _ Hs1 _|].
  2: { intros w' o Hd Ho. split; [by apply Hsame|]. intros inner E. by destruct (Ho inner). }
  unfold runs. rewrite m_bind_assoc.
  eapply runs_bind.
  { refine (load_settled euid MAX_AUTHORITY_STATE_BYTES _ _ _ _ _ _ _ (fresh_state config) (prepare_state config) _
      w1 s a b _ Hs Ha); [|by apply (same_holds euid w0)].
    intros loaded x Hx. by apply prepare_state_ok in Hx as [? _]. }
  - intros w2 x (Hp & Hx & Hi). destruct (Hx x eq_refl) as [-> Hrest]. cbn [fst].
    assert (w_poisoned w2 = false) as Hp2 by (rewrite Hp; by destruct Hs1 as (_ & _ & ->)).
    assert (images w2 (dir_above b)) as Hab by (by apply rest_above).
    unfold runs, m_bind, guard. destruct (clock_regressed b now); cbn; [done|]. split; [done|]. by intros inner [= <-].
  - intros w2 e (_ & _ & Hi). split; [|done]. eapply images_mono; [exact Hi|]. intros d' Hd'. exists b. by split_and!.
  - intros w2 (_ & _ & Hi). split; [|done]. eapply images_mono; [exact Hi|]. intros d' Hd'. exists b. by split_and!.
Qed.

Lemma astep_above lo s l s' : above lo s -> astep s l s' -> above lo s'.
Proof.
  assert (forall inner w request now instant faults w' o,
    apply_request_at euid config request now instant inner (with_faults w faults) = (w', o) -> up_ok inner w ->
    match o with
    | Ret (inner', _) => body_le (in_state inner) (in_state inner') /\ up_ok inner' w'
    | Throw _ => up_ok inner w'
    | Died => True
    end /\ images w' (dir_above (in_state inner))) as Happly.
  { intros inner w request now instant faults w' o E (Hv & Hi & [Hp|Hr]).
    - pose proof (apply_poisoned request now instant inner (with_faults w faults) Hp) as Hrun.
      unfold runs in Hrun. rewrite E in Hrun. destruct Hrun as [-> Ho]. split; [|done].
      destruct o as [[inner' r]|e|]; [|split_and!; auto|done].
      destruct Ho as [-> _]. split; [reflexivity|]. split_and!; auto.
    - pose proof (apply_handled request now instant inner (with_faults w faults) Hv Hr) as Hrun.
      unfold runs in Hrun. rewrite E in Hrun. destruct Hrun as [Ho Hi']. split; [|done].
      destruct o as [[inner' r]|e|]; [|split_and!; [done|done|naive_solver]|done].
      destruct Ho as (_ & Hr' & Hle & Hv'). split; [done|]. split_and!; [done|by apply rest_above|by right]. }
  intros Hs Hstep. destruct Hstep as
    [inner w rq now ins fs w' inner' a E|inner w rq now ins fs w' inner' e E|inner w rq now ins fs w' e E
    |inner w rq now ins fs w' d E Hd|inner w d Hd|d fs nx now now' ins w' inner E|d fs nx now now' ins w' o d' E Ho Hd'].
  - destruct Hs as [Hlo Hup]. destruct (Happly _ _ _ _ _ _ _ _ E Hup) as [[Hle Hup'] _]. split; [by etransitivity|done].
  - destruct Hs as [Hlo Hup]. destruct (Happly _ _ _ _ _ _ _ _ E Hup) as [[Hle Hup'] _]. split; [by etransitivity|done].
  - destruct Hs as [Hlo Hup]. by destruct (Happly _ _ _ _ _ _ _ _ E Hup) as [Hup' _].
  - destruct Hs as [Hlo Hup]. destruct (Happly _ _ _ _ _ _ _ _ E Hup) as [_ Hi]. eapply dir_above_le; [done|]. by apply Hi.
  - destruct Hs as [Hlo (_ & Hi & _)]. eapply dir_above_le; [done|]. by apply Hi.
  - destruct Hs as (b & Hlo & Hv & Hk). pose proof (start_kept d b fs nx now now' ins Hv Hk) as Hrun.
    unfold runs in Hrun. rewrite E in Hrun. destruct Hrun as [Hi Hret]. destruct (Hret inner eq_refl) as (<- & Hp & Hr).
    split; [done|]. split_and!; [done|done|by right].
  - destruct Hs as (b & Hlo & Hv & Hk). pose proof (start_kept d b fs nx now now' ins Hv Hk) as Hrun.
    unfold runs in Hrun. rewrite E in Hrun. destruct Hrun as [Hi _]. eapply dir_above_le; [done|]. by apply Hi.
Qed.

Lemma steps_above lo s s' : above lo s -> rtc step_any s s' -> above lo s'.
Proof. intros Hs Hsteps. revert Hs. induction Hsteps as [|s1 s2 s3 [l Hl] _ IH]; [done|]. eauto using astep_above. Qed.

(** A directory without the two files. *)
Lemma empty_above d : disk_is euid d None None -> above (fresh_state config) (Down d).
Proof.
  intros Hd. exists (fresh_state config). split_and!; [reflexivity|apply fresh_valid|].
  exists None, None. by split_and!.
Qed.

Lemma above_self lo inner w : above lo (Up inner w) -> above (in_state inner) (Up inner w).
Proof. intros [_ Hup]. split; [reflexivity|done]. Qed.

(** *** What the answers say about the state *)

Ltac rets := unfold m_ret in *; simplify_eq.

Lemma apply_ret request now instant inner w w' inner' r :
  apply_request_at euid config request now instant inner w = (w', Ret (inner', r)) ->
  admits (ac_signer_admission config) (rq_signer request) = true ->
  exists w1, match rq_method request with
    | GET => apply_get euid (rq_signer request) now instant inner w1 = (w', Ret (inner', r))
    | PUT => apply_put euid config (rq_signer request) (rq_body request) now instant inner w1 = (w', Ret (inner', r))
    end.
Proof.
  unfold apply_request_at. intros E Ha. rewrite Ha in E. cbn [negb] in E.
  apply m_bind_ret in E as (w1 & [] & _ & E). apply m_bind_ret in E as (w2 & [] & _ & E).
  exists w2. by destruct (rq_method request).
Qed.

Lemma store_record_ret signer p r now instant inner w w' inner' a :
  store_record euid signer p r now instant inner w = (w', Ret (inner', a)) ->
  exists e, as_records (in_state inner') !! signer = Some e /\ ae_packet_hex e = encode_hex (as_bytes p) /\
    ae_high_water_sequence e = nr_sequence r /\ ae_expired e = false.
Proof.
  unfold store_record. intros E. apply m_bind_ret in E as (w2 & [] & _ & E). exists (new_entry r (as_bytes p)).
  by destruct (instant_checked_add _ _); rets; cbn; rewrite lookup_insert_eq.
Qed.

(** An acknowledged PUT is in the state. *)
Lemma put_acknowledged signer body now instant inner w w' inner' a :
  apply_put euid config signer body now instant inner w = (w', Ret (inner', Ok a)) -> rs_status a ∈ [200%Z; 201%Z] ->
  exists p r, put_record config signer body = Some (p, r) /\ exists e, as_records (in_state inner') !! signer = Some e /\
    ae_packet_hex e = encode_hex (as_bytes p) /\ ae_high_water_sequence e = nr_sequence r /\ ae_expired e = false.
Proof.
  unfold apply_put. intros E Ha. destruct (put_record config signer body) as [[p r]|]; [|by rets; set_solver].
  exists p, r. split; [done|]. apply m_bind_ret in E as (w1 & max & _ & E).
  destruct (_ || _); [by rets; set_solver|].
  destruct (as_records (in_state inner) !! signer) as [e|] eqn:He; unfold existing_answer in E.
  - destruct (ae_expired e) eqn:Hx; cbn [andb] in E.
    + destruct (Z.leb_spec (nr_sequence r) (ae_high_water_sequence e)); [by rets; set_solver|].
      destruct (Z.ltb_spec (nr_sequence r) (ae_high_water_sequence e)); [lia|].
      destruct (Z.eqb_spec (nr_sequence r) (ae_high_water_sequence e)); [lia|].
      by apply (store_record_ret _ _ _ _ _ _ _ _ _ _ E).
    + destruct (Z.ltb_spec (nr_sequence r) (ae_high_water_sequence e)); [by rets; set_solver|].
      destruct (Z.eqb_spec (nr_sequence r) (ae_high_water_sequence e)).
      * case_bool_decide as Hp; rets; [|set_solver]. exists e. by split_and!.
      * by apply (store_record_ret _ _ _ _ _ _ _ _ _ _ E).
  - by apply (store_record_ret _ _ _ _ _ _ _ _ _ _ E).
Qed.

(** A served GET serves the state; a hidden record is latched. *)
Lemma get_answered signer now instant inner w w' inner' a :
  apply_get euid signer now instant inner w = (w', Ret (inner', Ok a)) ->
  match as_records (in_state inner') !! signer with
  | None => a = not_found
  | Some e =>
      if ae_expired e then a = not_found
      else exists p, decode_hex MAX_BYTES (ae_packet_hex e) = Ok (as_bytes p) /\
             a = response 200 (str "OK") (to_relay_payload p)
  end.
Proof.
  unfold apply_get. intros E. destruct (as_records (in_state inner) !! signer) as [e|] eqn:He.
  2: { rets. by rewrite He. }
  destruct (ae_expired e) eqn:Hx. { rets. by rewrite He, Hx. }
  destruct (_ || _).
  - apply m_bind_ret in E as (w2 & [] & _ & E). rets. cbn. by rewrite lookup_insert_eq.
  - apply m_bind_ret in E as (w2 & inner1 & Hw & E). unfold m_ret in E; injection E as <- <- Ha.
    assert (as_records (in_state inner1) !! signer = Some e) as ->.
    { destruct (_ <=? _)%Z; [|by rets]. apply m_bind_ret in Hw as (w3 & [] & _ & Hw).
      by rets. }
    rewrite Hx. apply result_bind_ok in Ha as (bytes & Hb & Ha). apply result_bind_ok in Ha as (p & Hp%ok_or_ok & [= <-]).
    exists p. by rewrite (bytes_of_packet _ _ Hp).
Qed.

Lemma astep_label s request a s' :
  astep s (Some (request, a)) s' -> exists inner w now instant w0 inner' w',
    s = Up inner w /\ s' = Up inner' w' /\ apply_request_at euid config request now instant inner w0 = (w', Ret (inner', Ok a)).
Proof. inversion 1; subst. eauto 15. Qed.

(** What a served GET shows of the entry it was served from. *)
Lemma served_from signer now instant inner w w' inner' a e :
  up_ok inner' w' -> apply_get euid signer now instant inner w = (w', Ret (inner', Ok a)) ->
  as_records (in_state inner') !! signer = Some e -> rs_status a = 200%Z ->
  exists p r, put_record config signer (rs_body a) = Some (p, r) /\ ae_high_water_sequence e = nr_sequence r /\
    ae_packet_hex e = encode_hex (as_bytes p) /\ ae_expired e = false.
Proof.
  intros (Hv & _) E He Hs. apply get_answered in E. rewrite He in E.
  destruct (ae_expired e); [by rewrite E in Hs|]. destruct E as (p & Hdec & ->).
  apply validate_state_ok in Hv as (_ & _ & _ & _ & Hall). destruct (Hall _ _ He) as (p1 & r & Hh).
  assert (p1 = p) as ->.
  { pose proof (eh_packet _ _ _ _ Hh) as Hx. rewrite (decode_packet_hex _ _ Hx) in Hdec. injection Hdec as Hb.
    by apply as_bytes_inj. }
  exists p, r. split_and!; [by eapply served_record|symmetry; apply Hh|apply Hh|done].
Qed.

(** Only an admitted signer is answered 200 or 201. *)
Lemma apply_admits request now instant inner w w' inner' a :
  apply_request_at euid config request now instant inner w = (w', Ret (inner', Ok a)) -> rs_status a ∈ [200%Z; 201%Z] ->
  admits (ac_signer_admission config) (rq_signer request) = true.
Proof.
  unfold apply_request_at. destruct (admits _ _); [done|]. cbn. intros [= <- <- <-].
  destruct (rq_method request); cbn; set_solver.
Qed.

(** ** Theorems *)

(** C15: whatever requests arrive, whichever system calls fail and wherever the
    process dies, the state an authority serves from never goes back: for every
    signer the sequence only grows, at the same sequence the packet is the same
    and an observed expiry stays, and the clock high-water only grows. *)
Theorem authority_never_regresses d s inner w s' inner' w' :
  disk_is euid d None None -> rtc step_any (Down d) s -> s = Up inner w -> rtc step_any s s' -> s' = Up inner' w' ->
  body_le (in_state inner) (in_state inner').
Proof.
  intros Hd Hs -> Hs' ->. eapply steps_above in Hs; [|by apply empty_above]. apply above_self in Hs.
  eapply steps_above in Hs'; [|done]. apply Hs'.
Qed.

(** C10: a record the authority acknowledged is never undone: every record it
    serves for that signer later, across crashes and restarts, verifies, has no
    lower sequence, and at the same sequence is the same packet. *)
Theorem acknowledged_never_undone d s1 put answer s2 s3 get served s4 :
  disk_is euid d None None ->
  rtc step_any (Down d) s1 -> astep s1 (Some (put, answer)) s2 ->
  rtc step_any s2 s3 -> astep s3 (Some (get, served)) s4 ->
  rq_method put = PUT -> rs_status answer ∈ [200%Z; 201%Z] ->
  rq_method get = GET -> rs_status served = 200%Z -> rq_signer get = rq_signer put ->
  exists p r p' r',
    put_record config (rq_signer put) (rq_body put) = Some (p, r) /\
    put_record config (rq_signer put) (rs_body served) = Some (p', r') /\
    (nr_sequence r <= nr_sequence r')%Z /\ (nr_sequence r = nr_sequence r' -> p' = p).
Proof.
  intros Hd H01 H12 H23 H34 Hput Hans Hget Hserved Hsig.
  assert (above (fresh_state config) s2) as Hs2.
  { eapply astep_above; [|exact H12]. eapply steps_above; [by apply empty_above|done]. }
  destruct (astep_label _ _ _ _ H12) as (i1 & w1 & now1 & in1 & w0 & i2 & w2 & -> & -> & E1).
  assert (above (in_state i2) s4) as Hs4.
  { eapply astep_above; [|exact H34]. eapply steps_above; [by eapply above_self|done]. }
  destruct (astep_label _ _ _ _ H34) as (i3 & w3 & now3 & in3 & w0' & i4 & w4 & -> & -> & E3).
  pose proof (apply_admits _ _ _ _ _ _ _ _ E1 Hans) as Hadm.
  apply apply_ret in E1 as (w1' & E1); [|done]. rewrite Hput in E1.
  apply apply_ret in E3 as (w3' & E3); [|by rewrite Hsig]. rewrite Hget, Hsig in E3.
  destruct (put_acknowledged _ _ _ _ _ _ _ _ _ E1 Hans) as (p & r & Hp & e & He & Hhex & Hseq & _).
  destruct (bl_records _ _ (proj1 Hs4) _ _ He) as (e' & He' & Hent).
  destruct (served_from _ _ _ _ _ _ _ _ _ (proj2 Hs4) E3 He' Hserved) as (p' & r' & Hp' & Hseq' & Hhex' & _).
  exists p, r, p', r'. split_and!; [done|done| |].
  - rewrite <-Hseq, <-Hseq'. destruct Hent as [|[-> _]]; lia.
  - rewrite <-Hseq, <-Hseq'. intros Heq. destruct Hent as [|(_ & Hpk & _)]; [lia|].
    rewrite Hhex, Hhex' in Hpk. by apply encode_hex_inj, as_bytes_inj in Hpk.
Qed.

(** Once the authority has answered 404 for a record it had acknowledged,
    it serves that signer only a strictly higher sequence, however its clock
    moves and however often it restarts. *)
Theorem hidden_stays_hidden d s1 put answer s2 s3 get hidden s4 s5 get' served s6 :
  disk_is euid d None None ->
  rtc step_any (Down d) s1 -> astep s1 (Some (put, answer)) s2 ->
  rtc step_any s2 s3 -> astep s3 (Some (get, hidden)) s4 ->
  rtc step_any s4 s5 -> astep s5 (Some (get', served)) s6 ->
  rq_method put = PUT -> rs_status answer ∈ [200%Z; 201%Z] ->
  rq_method get = GET -> rs_status hidden = 404%Z -> rq_signer get = rq_signer put ->
  rq_method get' = GET -> rs_status served = 200%Z -> rq_signer get' = rq_signer put ->
  exists p r p' r',
    put_record config (rq_signer put) (rq_body put) = Some (p, r) /\
    put_record config (rq_signer put) (rs_body served) = Some (p', r') /\ (nr_sequence r < nr_sequence r')%Z.
Proof.
  intros Hd H01 H12 H23 H34 H45 H56 Hput Hans Hget Hhid Hsig Hget' Hserved Hsig'.
  assert (above (fresh_state config) s2) as Hs2.
  { eapply astep_above; [|exact H12]. eapply steps_above; [by apply empty_above|done]. }
  destruct (astep_label _ _ _ _ H12) as (i1 & w1 & now1 & in1 & w0 & i2 & w2 & -> & -> & E1).
  assert (above (in_state i2) s4) as Hs4.
  { eapply astep_above; [|exact H34]. eapply steps_above; [by eapply above_self|done]. }
  destruct (astep_label _ _ _ _ H34) as (i3 & w3 & now3 & in3 & w0' & i4 & w4 & -> & -> & E3).
  assert (above (in_state i4) s6) as Hs6.
  { eapply astep_above; [|exact H56]. eapply steps_above; [by eapply above_self|done]. }
  destruct (astep_label _ _ _ _ H56) as (i5 & w5 & now5 & in5 & w0'' & i6 & w6 & -> & -> & E5).
  pose proof (apply_admits _ _ _ _ _ _ _ _ E1 Hans) as Hadm.
  apply apply_ret in E1 as (w1' & E1); [|done]. rewrite Hput in E1.
  apply apply_ret in E3 as (w3' & E3); [|by rewrite Hsig]. rewrite Hget, Hsig in E3.
  apply apply_ret in E5 as (w5' & E5); [|by rewrite Hsig']. rewrite Hget', Hsig' in E5.
  destruct (put_acknowledged _ _ _ _ _ _ _ _ _ E1 Hans) as (p & r & Hp & e & He & Hhex & Hseq & _).
  destruct (bl_records _ _ (proj1 Hs4) _ _ He) as (e4 & He4 & Hent4).
  destruct (bl_records _ _ (proj1 Hs6) _ _ He4) as (e6 & He6 & Hent6).
  apply get_answered in E3. rewrite He4 in E3.
  destruct (ae_expired e4) eqn:Hx4; [|by destruct E3 as (? & _ & ->)].
  destruct (served_from _ _ _ _ _ _ _ _ _ (proj2 Hs6) E5 He6 Hserved) as (p' & r' & Hp' & Hseq' & _ & Hx6).
  exists p, r, p', r'. split_and!; [done|done|]. rewrite <-Hseq, <-Hseq'.
  destruct Hent6 as [|(_ & _ & Hx)]; [|rewrite Hx in Hx6; done]. destruct Hent4 as [|[-> _]]; lia.
Qed.

(** ** Starting again *)

(** Sizes of the JSON texts: an anchor holds digests of what the state holds,
    so it fits where the state fits. *)
Class AuthorityJson : Prop := {
  fresh_fits : exists s, encode_authority_state (fresh_state config) = Ok s;
  anchor_fits b a s : from_state b = Ok a -> encode_authority_state b = Ok s -> exists t, encode_authority_anchor a = Ok t
}.

Lemma kept_fits `{!AuthorityJson} d b : kept d b -> exists s, encode_authority_state b = Ok s.
Proof. intros (s & a & _ & Hs & _). destruct s as [s|]; [by exists s|]. cbn in Hs. subst b. apply fresh_fits. Qed.

Lemma anchor_bytes_fit `{!AuthorityJson} b s :
  valid b -> encode_authority_state b = Ok s -> exists a, anchor_bytes encode_authority_anchor from_state b = Ok a.
Proof.
  intros Hv He. destruct (from_state_total b Hv) as [a Ha]. destruct (anchor_fits b a s Ha He) as [t Ht].
  exists t. unfold anchor_bytes. by rewrite Ha.
Qed.

Lemma start_completes `{!AuthorityJson} d b next now now' instant :
  valid b -> kept d b ->
  exists w', start euid config now now' instant (restarted d [] next) =
    (w', if clock_regressed b now then Throw ClockRegressed
         else Ret {| in_state := b; in_monotonic_expiry := monotonic_expiry_deadlines b now' instant |}).
Proof.
  intros Hv Hk. unfold start, open, acquire_lock. rewrite !m_bind_assoc, sys_bind by done.
  do 4 rewrite m_bind_assoc, sys_bind by done. rewrite sys_bind, m_bind_assoc by done.
  destruct (kept_fits d b Hk) as [s Hs]. pose proof (anchor_bytes_fit b s Hv Hs) as Ha.
  assert (forall loaded x, prepare_state config loaded = Ok x -> x = default (fresh_state config) loaded) as Hprep.
  { intros loaded x Hx. by apply prepare_state_ok in Hx as [? _]. }
  pose proof (load_completes euid MAX_AUTHORITY_STATE_BYTES _ _ _ _ _ _ _ (fresh_state config) (prepare_state config)
    d b next Hk) as Hc.
  pose proof (start_kept d b [] next now now' instant Hv Hk) as Hrun.
  destruct (keeps_holds euid encode_authority_state encode_authority_anchor from_state body_le
    (fresh_state config) d b [] next Hk) as (s0 & a0 & Hw & Hs0 & Ha0).
  pose proof (load_settled euid MAX_AUTHORITY_STATE_BYTES _ _ _ _ _ _ _ (fresh_state config) (prepare_state config) Hprep
    (restarted d [] next) s0 a0 b Hw Hs0 Ha0) as Hl.
  unfold completes, runs in Hc, Hl. unfold m_bind at 1, store_load. destruct (load _ _ _ _ _ _ _ _ _) as [w1 o].
  destruct Hc as [[x ->] _]; [|done|].
  - intros st Hst. unfold prepare_state. destruct st; cbn; [by rewrite Hv|]. cbn in Hst. subst b. by rewrite fresh_valid.
  - destruct Hl as (_ & Hx & _). destruct (Hx x eq_refl) as [-> _]. cbn [fst]. exists w1.
    unfold m_bind, guard. by destruct (clock_regressed b now).
Qed.

(** From every directory a crash can leave, the authority starts again as
    soon as its system calls work and its clock is not more than a second
    behind what it recorded, and then serves a state no lower than any it
    served before. *)
Theorem restart_recovers `{!AuthorityJson} d0 inner w d now now' instant next :
  disk_is euid d0 None None -> rtc step_any (Down d0) (Up inner w) -> rtc step_any (Up inner w) (Down d) ->
  exists b w', body_le (in_state inner) b /\
    start euid config now now' instant (restarted d [] next) =
      (w', if clock_regressed b now then Throw ClockRegressed
           else Ret {| in_state := b; in_monotonic_expiry := monotonic_expiry_deadlines b now' instant |}).
Proof.
  intros Hd H1s H2s. eapply steps_above in H1s; [|by apply empty_above]. apply above_self in H1s.
  eapply steps_above in H2s; [|done]. destruct H2s as (b & Hle & Hv & Hk).
  destruct (start_completes d b next now now' instant Hv Hk) as [w' Hw]. by exists b, w'.
Qed.

(** [entry_le] as far as the anchor's digests can tell. *)
Definition packet_digest (e : AuthorityEntry) : option (list byte) :=
  match decode_hex MAX_BYTES (ae_packet_hex e) with Ok p => Some (blake3_hex p) | Err _ => None end.
Definition entry_follows (e e' : AuthorityEntry) : Prop :=
  (ae_high_water_sequence e < ae_high_water_sequence e')%Z \/
  ae_high_water_sequence e = ae_high_water_sequence e' /\ packet_digest e = packet_digest e' /\
  (ae_expired e = true -> ae_expired e' = true).

Lemma check_anchor_follows ba an b current :
  from_state ba = Ok an -> from_state b = Ok current -> check_anchor current an = Ok tt ->
  (as_wall_clock_high_water_unix_micros ba <= as_wall_clock_high_water_unix_micros b)%Z /\
  forall signer e, as_records ba !! signer = Some e -> exists e', as_records b !! signer = Some e' /\ entry_follows e e'.
Proof.
  intros (_ & _ & _ & _ & Hclock & Hrec)%from_state_ok (_ & _ & _ & _ & Hclock' & Hrec')%from_state_ok
    (_ & _ & _ & _ & Hle & Hall)%check_anchor_ok. split; [lia|].
  intros signer e Hs. specialize (Hrec signer). rewrite Hs in Hrec.
  destruct (an_records an !! signer) as [anchored|] eqn:Ean; [|done]. pose proof (Hall signer anchored Ean) as Hpass.
  destruct (an_records current !! signer) as [cand|] eqn:Ec; [|by unfold check_anchored in Hpass; rewrite Ec in Hpass].
  apply (anchored_passes _ _ _ _ Ec) in Hpass. specialize (Hrec' signer). rewrite Ec in Hrec'.
  destruct (as_records b !! signer) as [e'|]; [|done]. exists e'. split; [done|]. cbn in Hrec, Hrec'.
  apply anchor_entry_ok in Hrec as (Eseq & Ex & p & _ & Hp & Hh).
  apply anchor_entry_ok in Hrec' as (Eseq' & Ex' & p' & _ & Hp' & Hh').
  unfold entry_follows, packet_digest. rewrite Hp, Hp', <-Hh, <-Hh', <-Eseq, <-Eseq', <-Ex, <-Ex'.
  destruct Hpass as [Hlt|(Heq & Hdig & Hlatch)]; [by left|right]. split_and!; [done|by rewrite Hdig|done].
Qed.

(** C39: an old copy of the state is refused.  If the state file holds [b] and
    the anchor belongs to [ba], the authority starts, whatever its system calls
    do, only if no clock, sequence, packet digest or expiry latch of [ba] is
    lost in [b]; with a state file and no anchor it never starts. *)
Theorem rollback_refused d s a b faults next now now' instant w' inner :
  disk_is euid d (Some s) a -> encode_authority_state b = Ok s ->
  start euid config now now' instant (restarted d faults next) = (w', Ret inner) ->
  in_state inner = b /\ valid b /\ clock_regressed b now = false /\
  exists bytes, a = Some bytes /\
  forall ba, anchor_bytes encode_authority_anchor from_state ba = Ok bytes ->
    (as_wall_clock_high_water_unix_micros ba <= as_wall_clock_high_water_unix_micros b)%Z /\
    forall signer e, as_records ba !! signer = Some e -> exists e', as_records b !! signer = Some e' /\ entry_follows e e'.
Proof.
  intros Hd He E. unfold start, open in E. apply m_bind_ret in E as (w3 & st & E & Ei). injection Ei as <- <-.
  apply m_bind_ret in E as (w1 & [] & Hlock & E). apply m_bind_ret in E as (w2 & x & Hload & E).
  apply m_bind_ret in E as (w4 & [] & [Hreg ->]%guard_ret & E). injection E as <- <-. cbn [in_state].
  pose proof (acquire_lock_quiet (restarted d faults next)) as Hq. unfold runs in Hq. rewrite Hlock in Hq.
  assert (holds euid w1 (Some s) a) as Hw1 by (eapply same_holds; [apply Hq|done]).
  pose proof (load_checked euid MAX_AUTHORITY_STATE_BYTES decode_authority_state encode_authority_anchor
    decode_authority_anchor from_state check_anchor (prepare_state config) w1 (Some s) a Hw1) as Hl.
  unfold runs, store_load in *. rewrite Hload in Hl.
  destruct (Hl x eq_refl) as (loaded & current & Hdec & Hprep & Hcur & Ha). destruct loaded as [b'|]; [|done].
  assert (decode_authority_state s = Ok b) as Hsb by (exact (decode_encode_envelope _ _ _ b s (fun _ => I) He)).
  rewrite Hsb in Hdec. injection Hdec as <-. apply prepare_state_ok in Hprep as [Hx Hv]. cbn in Hx.
  rewrite Hx in Hcur, Hreg, Hv. split_and!; [done|done|done|]. destruct a as [bytes|]; [|done].
  exists bytes. split; [done|]. intros ba Hba. destruct Ha as (anchor & Hdeca & Hcheck).
  apply result_bind_ok in Hba as (an & Hfrom & Henc). assert (decode_authority_anchor bytes = Ok an) as Han by (exact (decode_encode_envelope _ _ _ an bytes (fun _ => I) Henc)).
  rewrite Han in Hdeca. injection Hdeca as <-. by eapply check_anchor_follows.
Qed.

(** ** Refinement to the register *)

Definition register_of (e : option AuthorityEntry) : Register.t :=
  match e with
  | None => Register.Never
  | Some e =>
      if ae_expired e then Register.Latched (ae_high_water_sequence e)
      else Register.Kept (ae_high_water_sequence e) (ae_expires_unix_micros e)
             (match decode_hex MAX_BYTES (ae_packet_hex e) with Ok p => p | Err _ => [] end)
  end.

(** The state and its anchor encode within their files. *)
Definition fits (b : AuthorityStateBody) : Prop :=
  exists s a, encode_authority_state b = Ok s /\ anchor_bytes encode_authority_anchor from_state b = Ok a.
(** The states a request may have to write. *)
Definition stamped (state : AuthorityStateBody) (signer : list byte) (now : Z) (e : AuthorityEntry) : AuthorityStateBody :=
  with_clock state (as_wall_clock_high_water_unix_micros state `max` now)%Z (<[signer := e]> (as_records state)).
Definition writes (state : AuthorityStateBody) (request : AuthorityRequest) (now : Z) : list AuthorityStateBody :=
  match rq_method request with
  | GET =>
      with_clock state now (as_records state) ::
      match as_records state !! rq_signer request with Some e => [stamped state (rq_signer request) now (set_expired e)] | None => [] end
  | PUT =>
      match put_record config (rq_signer request) (rq_body request) with
      | Some (p, r) => [stamped state (rq_signer request) now (new_entry r (as_bytes p))]
      | None => []
      end
  end.

(** The register's reaction to a request. *)
Definition late (inner : Inner) (signer : list byte) (instant : Z) : bool :=
  match in_monotonic_expiry inner !! signer with Some deadline => (deadline <=? instant)%Z | None => false end.
Definition react (inner : Inner) (request : AuthorityRequest) (now instant : Z) : Register.t * Register.answer :=
  let signer := rq_signer request in
  let slot := register_of (as_records (in_state inner) !! signer) in
  match rq_method request with
  | GET => Register.get slot now (late inner signer instant)
  | PUT =>
      match put_record config signer (rq_body request) with
      | None => (slot, Register.Refused)
      | Some (p, r) =>
          Register.put slot now (nr_ttl_seconds r) (nr_sequence r) (nr_expires_unix_micros r) (as_bytes p)
      end
  end.

(** A calm write of a body that fits returns with it at rest. *)
Lemma store_write_calm w b b' :
  w_faults w = [] -> w_poisoned w = false -> at_rest w b -> fits b' ->
  exists w', store_write euid b' w = (w', Ret tt) /\ w_faults w' = [].
Proof.
  intros Hf Hp (s & a & Hw & _) (s1 & a1 & He & Ha).
  pose proof (write_completes euid MAX_AUTHORITY_STATE_BYTES _ _ _ _ _ _ _ w b' s (Some a) s1 a1 Hf Hp Hw He Ha) as Hc.
  unfold completes, runs in Hc. unfold store_write. destruct (write _ _ _ _ _ _ w) as [w' o].
  destruct Hc as [[[] ->] Hf']. by exists w'.
Qed.

Lemma register_kept signer e p r :
  entry_holds signer e p r -> ae_expired e = false ->
  register_of (Some e) = Register.Kept (nr_sequence r) (nr_expires_unix_micros r) (as_bytes p).
Proof.
  intros Hh Hx. unfold register_of. rewrite Hx, (decode_packet_hex _ _ (eh_packet _ _ _ _ Hh)).
  by rewrite (eh_sequence _ _ _ _ Hh), (eh_expires _ _ _ _ Hh).
Qed.

Lemma relay_payload_drop p : to_relay_payload p = drop 32 (as_bytes p).
Proof. rewrite relay_layout, drop_app_length'; [done|]. by rewrite arr_length. Qed.

(** The slot and the answer a run ends with. *)
Definition reacted (inner : Inner) (signer : list byte) (instant : Z) (reaction : Register.t * Register.answer)
    (res : World * outcome (Inner * result StoreError AuthorityResponse)) : Prop :=
  exists w' inner' a, res = (w', Ret (inner', Ok a)) /\ w_faults w' = [] /\
    a = response (Register.status (snd reaction)) (Register.reason (snd reaction)) (Register.body (snd reaction)) /\
    register_of (as_records (in_state inner') !! signer) = fst reaction /\
    (forall other, other <> signer -> as_records (in_state inner') !! other = as_records (in_state inner) !! other) /\
    (snd reaction = Register.Created -> late inner' signer instant = false).

Lemma get_reacts signer now instant inner w :
  valid (in_state inner) -> w_faults w = [] -> w_poisoned w = false -> at_rest w (in_state inner) ->
  fits (with_clock (in_state inner) now (as_records (in_state inner))) ->
  (forall e, as_records (in_state inner) !! signer = Some e -> fits (stamped (in_state inner) signer now (set_expired e))) ->
  reacted inner signer instant (Register.get (register_of (as_records (in_state inner) !! signer)) now (late inner signer instant))
    (apply_get euid signer now instant inner w).
Proof.
  intros Hv Hf Hp Hr Hroom Hroom'. apply validate_state_ok in Hv as (_ & _ & _ & _ & Hall). unfold apply_get, reacted, stamped in *.
  destruct (as_records (in_state inner) !! signer) as [e|] eqn:He.
  2: { eexists _, inner, _. split; [reflexivity|]. rewrite He. done. }
  destruct (ae_expired e) eqn:Hx.
  { eexists _, inner, _. split; [reflexivity|]. rewrite He. cbn [register_of]. rewrite Hx. done. }
  destruct (Hall _ _ He) as (p & r & Hh). rewrite (register_kept _ _ _ _ Hh Hx). unfold Register.get, late.
  rewrite <-(eh_expires _ _ _ _ Hh). destruct (_ || _).
  - destruct (store_write_calm w (in_state inner) _ Hf Hp Hr (Hroom' e eq_refl)) as (w' & Hw & Hf').
    unfold m_bind. rewrite Hw. eexists _, _, _. split; [reflexivity|]. cbn. rewrite lookup_insert_eq.
    split_and!; [done|done|by rewrite (eh_sequence _ _ _ _ Hh)| |done]. intros other Hne. by rewrite lookup_insert_ne.
  - destruct (store_write_calm w (in_state inner) _ Hf Hp Hr Hroom) as (w' & Hw & Hf').
    destruct (_ <=? _)%Z; unfold m_bind, m_ret; rewrite ?Hw;
      (eexists _, _, _; split;
        [rewrite (decode_packet_hex _ _ (eh_packet _ _ _ _ Hh)); cbn [mbind result_bind];
         rewrite packet_of_bytes; cbn [mbind result_bind ok_or]; reflexivity|]);
      cbn [in_state as_records with_clock rs_status rs_body response snd fst Register.status Register.body];
      rewrite He; (split_and!; [done|by rewrite relay_payload_drop|by apply (register_kept _ _ _ _ Hh)|done|done]).
Qed.

Lemma store_record_reacts signer p r now instant inner w :
  w_faults w = [] -> w_poisoned w = false -> at_rest w (in_state inner) -> fits (stamped (in_state inner) signer now (new_entry r (as_bytes p))) ->
  u64_ok now -> (instant < 2 ^ 62 * 10 ^ 9)%Z -> (now < nr_expires_unix_micros r <= u64_max)%Z ->
  entry_holds signer (new_entry r (as_bytes p)) p r ->
  reacted inner signer instant (Register.Kept (nr_sequence r) (nr_expires_unix_micros r) (as_bytes p), Register.Created)
    (store_record euid signer p r now instant inner w).
Proof.
  intros Hf Hp Hr Hroom Hnow Hins Hexp Hnew. unfold store_record, reacted, stamped in *.
  destruct (store_write_calm w (in_state inner) _ Hf Hp Hr Hroom) as (w' & Hw & Hf').
  unfold m_bind. rewrite Hw. unfold instant_checked_add. rewrite (proj2 (Z.ltb_lt _ _)).
  2: { unfold u64_saturating_sub, u64_max in *. unfold u64_ok in Hnow. lia. }
  eexists _, _, _. split; [reflexivity|].
  cbn [in_state as_records with_clock rs_status rs_body response snd fst Register.status Register.body].
  rewrite lookup_insert_eq. split_and!; [done|done|by apply (register_kept signer)| |].
  - intros other Hne. by rewrite lookup_insert_ne.
  - intros _. unfold late. cbn [in_monotonic_expiry]. rewrite (eh_signer _ _ _ _ Hnew), lookup_insert_eq. apply Z.leb_gt. unfold u64_saturating_sub. lia.
Qed.

(** An answer that leaves the state as it is. *)
Lemma reacted_same inner signer instant w a reaction :
  w_faults w = [] -> snd reaction <> Register.Created ->
  a = response (Register.status (snd reaction)) (Register.reason (snd reaction)) (Register.body (snd reaction)) ->
  register_of (as_records (in_state inner) !! signer) = fst reaction ->
  reacted inner signer instant reaction (m_ret (inner, Ok a) w).
Proof. intros Hf Hc Ha Hr. by exists w, inner, a. Qed.

Lemma put_reacts signer body now instant inner w p r :
  valid (in_state inner) -> w_faults w = [] -> w_poisoned w = false -> at_rest w (in_state inner) ->
  fits (stamped (in_state inner) signer now (new_entry r (as_bytes p))) -> u64_ok now -> (now + (nr_ttl_seconds r + 1) * 1000000 <= u64_max)%Z ->
  (0 <= nr_ttl_seconds r)%Z -> (instant < 2 ^ 62 * 10 ^ 9)%Z -> (nr_expires_unix_micros r <= u64_max)%Z ->
  put_record config signer body = Some (p, r) ->
  reacted inner signer instant
    (Register.put (register_of (as_records (in_state inner) !! signer)) now (nr_ttl_seconds r) (nr_sequence r)
       (nr_expires_unix_micros r) (as_bytes p))
    (apply_put euid config signer body now instant inner w).
Proof.
  intros Hv Hf Hp Hr Hroom Hnow Hmax Httl Hins Hexp Hput. unfold apply_put. rewrite Hput.
  apply validate_state_ok in Hv as (_ & _ & _ & _ & Hall). pose proof (new_entry_holds _ _ _ _ Hput) as Hnew.
  unfold u64_checked_add, EXPIRY_CLOCK_GRACE_MICROS. 
  rewrite (proj2 (Z.leb_le (now + nr_ttl_seconds r * 1000000) u64_max)) by lia. cbn [mbind option_bind].
  rewrite (proj2 (Z.leb_le (now + nr_ttl_seconds r * 1000000 + 1000000) u64_max)) by lia. unfold m_bind at 1. cbn [ok_or lift m_ret].
  unfold Register.put. rewrite negb_andb, <-Z.leb_antisym, <-Z.ltb_antisym.
  destruct (_ || _) eqn:Hbounds; [by apply reacted_same|]. apply orb_false_iff in Hbounds as [Hlive%Z.leb_gt _].
  pose proof (store_record_reacts signer p r now instant inner w Hf Hp Hr Hroom Hnow Hins (conj Hlive Hexp) Hnew) as Hstore.
  destruct (as_records (in_state inner) !! signer) as [e|] eqn:He; [|exact Hstore].
  destruct (Hall _ _ He) as (p0 & r0 & Hh). unfold existing_answer. rewrite <-(eh_sequence _ _ _ _ Hh).
  destruct (ae_expired e) eqn:Hx; cbn [andb].
  - cbn [register_of]. rewrite Hx, <-(eh_sequence _ _ _ _ Hh).
    destruct (Z.leb_spec (nr_sequence r) (nr_sequence r0)).
    + rewrite (proj2 (Z.ltb_ge _ _)) by lia. apply reacted_same; [done..|]. rewrite He. cbn. by rewrite Hx, (eh_sequence _ _ _ _ Hh).
    + rewrite (proj2 (Z.ltb_ge (nr_sequence r) (nr_sequence r0))), (proj2 (Z.eqb_neq _ _)),
        (proj2 (Z.ltb_lt (nr_sequence r0) (nr_sequence r))) by lia. exact Hstore.
  - rewrite (register_kept _ _ _ _ Hh Hx). rewrite (eh_packet _ _ _ _ Hh).
    destruct (Z.ltb_spec (nr_sequence r) (nr_sequence r0)).
    + rewrite (proj2 (Z.ltb_ge _ _)), (proj2 (Z.eqb_neq _ _)) by lia.
      apply reacted_same; [done..|]. rewrite He. by apply (register_kept signer).
    + destruct (Z.eqb_spec (nr_sequence r) (nr_sequence r0)) as [Eq|].
      * rewrite Eq, Z.ltb_irrefl, Z.eqb_refl. cbn [andb].
        rewrite (bool_decide_ext (encode_hex (as_bytes p0) = encode_hex (as_bytes p)) (as_bytes p0 = as_bytes p))
          by (split; [apply encode_hex_inj|by intros ->]).
        destruct (bool_decide _); (apply reacted_same; [done..|]); rewrite He; by apply (register_kept signer).
      * rewrite (proj2 (Z.ltb_lt _ _)) by lia. exact Hstore.
Qed.

Lemma authority_reacts request now instant inner w :
  admits (ac_signer_admission config) (rq_signer request) = true ->
  validate_authority_state (in_state inner) config = Ok tt -> at_rest w (in_state inner) ->
  w_faults w = [] -> w_poisoned w = false -> clock_regressed (in_state inner) now = false ->
  Forall fits (writes (in_state inner) request now) ->
  (0 <= now <= u64_max - 2 ^ 32 * 1000000)%Z -> (instant < 2 ^ 62 * 10 ^ 9)%Z ->
  reacted inner (rq_signer request) instant (react inner request now instant)
    (apply_request_at euid config request now instant inner w).
Proof.
  intros Hadm Hv Hr Hf Hp Hreg Hroom Hnow Hins. unfold apply_request_at. rewrite Hadm. cbn [negb].
  rewrite ensure_healthy_calm by done. rewrite Hreg. unfold m_bind at 1. cbn [guard reject_if lift m_ret]. unfold react, writes in *.
  destruct (rq_method request).
  { apply Forall_cons in Hroom as [Hroom Hroom']. apply get_reacts; try done. intros e He. rewrite He in Hroom'. by inversion Hroom'. }
  destruct (put_record config (rq_signer request) (rq_body request)) as [[p r]|] eqn:Hput.
  - destruct (proj1 (put_record_ok _ _ _ _) Hput) as (_ & _ & _ & Hdec & _).
    pose proof (decoded_wf _ _ Hdec) as Hwf. pose proof (rw_ttl _ Hwf). pose proof (rw_bound _ Hwf).
    apply Forall_cons in Hroom as [Hroom _]. apply put_reacts; try done; unfold u64_ok, u32_max, u64_max in *; lia.
  - unfold apply_put. rewrite Hput. by apply reacted_same.
Qed.

(** The recorded clock follows the clock the request was handled at. *)
Lemma apply_clock request now instant inner w w' inner' a :
  apply_request_at euid config request now instant inner w = (w', Ret (inner', a)) ->
  (as_wall_clock_high_water_unix_micros (in_state inner) <= now)%Z -> (as_wall_clock_high_water_unix_micros (in_state inner') <= now)%Z.
Proof.
  intros E Hle. destruct (admits (ac_signer_admission config) (rq_signer request)) eqn:Hadm.
  2: { unfold apply_request_at in E. rewrite Hadm in E. cbn in E. by rets. }
  apply apply_ret in E as (w1 & E); [|done]. destruct (rq_method request).
  - unfold apply_get in E. destruct (as_records _ !! _) as [e|]; [|by rets]. destruct (ae_expired e); [by rets|].
    destruct (_ || _); [apply m_bind_ret in E as (w2 & [] & _ & E); rets; cbn; lia|].
    apply m_bind_ret in E as (w2 & i & Hi & E). rets. destruct (_ <=? _)%Z; [|by rets].
    apply m_bind_ret in Hi as (w3 & [] & _ & Hi). rets. cbn. lia.
  - unfold apply_put in E. destruct (put_record _ _ _) as [[p r]|]; [|by rets].
    apply m_bind_ret in E as (w2 & max & _ & E). destruct (_ || _); [by rets|]. destruct (existing_answer _ _ _); [by rets|].
    unfold store_record in E. apply m_bind_ret in E as (w3 & [] & _ & E). destruct (instant_checked_add _ _); rets; cbn; lia.
Qed.

(** C14: an authority whose store is healthy and has room is, for each admitted
    signer, the register: every GET and PUT is answered with the register's
    status, reason and body, the signer's slot moves as the register moves, and
    no other signer's slot changes. *)
Theorem authority_refines_register request now instant inner w :
  admits (ac_signer_admission config) (rq_signer request) = true ->
  validate_authority_state (in_state inner) config = Ok tt -> at_rest w (in_state inner) ->
  w_faults w = [] -> w_poisoned w = false -> clock_regressed (in_state inner) now = false ->
  Forall fits (writes (in_state inner) request now) ->
  (0 <= now <= u64_max - 2 ^ 32 * 1000000)%Z -> (instant < 2 ^ 62 * 10 ^ 9)%Z ->
  reacted inner (rq_signer request) instant (react inner request now instant)
    (apply_request_at euid config request now instant inner w).
Proof. apply authority_reacts. Qed.

End authority_laws.
