(* ===== verification/PinnedHttp.v ===== *)
(** * The wire between publisher, lookup and authority

    fabric-iroh/src/pinned_http.rs is an HTTP/1.1 client pinned to one socket;
    iroh_publication_authority.rs has the matching server side, read_request
    and write_response.  Both are modelled here over a connection that delivers
    bytes in arbitrary pieces.  The theorems: whatever the pieces, the authority
    reads exactly the request the client was asked to send, and the client
    reads exactly the answer the authority gave; what is not such a message is
    refused. *)

From Stdlib Require Import Strings.Byte ZArith Lia.
From stdpp Require Import base gmap numbers strings list.
From S2P Require Import Prelude Hex Text Utf8 Ids RecordCodec Lan SockAddr NodeRecord StateDir Authority.

Definition MAX_HEADER_BYTES : Z := 8192.
Definition MAX_HTTP_BODY_BYTES : Z := 1104.
Definition MAX_RELAY_PAYLOAD_BYTES : Z := MAX_HTTP_BODY_BYTES - 32.
Definition RECORD_PATH_PREFIX : list byte := str "/pkarr/".
Definition CRLF : list byte := [x0d; x0a].

Inductive PinnedHttpErrorKind := Configuration | ConnectionRefused | Connect | WriteError | ReadError | Protocol | Deadline.
#[export] Instance PinnedHttpErrorKind_eq_dec : EqDecision PinnedHttpErrorKind.
Proof. solve_decision. Defined.

(** ** Addresses and hosts *)

Definition parse_ipv6 (s : list byte) : option Ipv6Addr :=
  '(a, rest) ← read_ipv6_addr s; if decide (rest = []) then Some a else None.
Definition parse_ipv4 (s : list byte) : option Ipv4Addr :=
  if 15 <? length s then None else
  '(a, rest) ← read_ipv4_addr s; if decide (rest = []) then Some a else None.

Definition validate_recipient_socket (recipient : SocketAddr) : result PinnedHttpErrorKind unit :=
  reject_if ((sock_port recipient =? 0)%Z || ip_is_unspecified (sock_ip recipient) || ip_is_multicast (sock_ip recipient)
             || match sock_ip recipient with V4 ip => v4_is_broadcast ip | V6 _ => false end
             || match recipient with SockV6 ip _ _ scope => v6_is_unicast_link_local ip && (scope =? 0)%Z | _ => false end)
            Configuration.

Definition validate_port (raw : list byte) : bool :=
  match parse_u16 raw with Some port => negb (port =? 0)%Z && bool_decide (show_u64 port = raw) | None => false end.

Definition valid_label (label : list byte) : bool :=
  negb (bool_decide (label = [])) && (length label <=? 63)
  && negb (bool_decide (head label = Some x2d)) && negb (bool_decide (last label = Some x2d))
  && forallb (fun b => is_ascii_lowercase b || is_ascii_digit b || bool_decide (b = x2d)) label.

Definition valid_host (host : list byte) : bool :=
  if bool_decide (host = []) || (253 <? length host) || negb (forallb (fun b => u8_val b <? 128)%Z host) then false else
  match strip_prefix [x5b] host with
  | Some bracketed =>
      match split_once x5d bracketed with
      | None => false
      | Some (literal, suffix) =>
          if bool_decide (literal = []) || bool_decide (x5d ∈ suffix) then false else
          match parse_ipv6 literal with
          | None => false
          | Some address =>
              bool_decide (show_v6 address = literal) &&
              match strip_prefix [x3a] suffix with
              | Some port => validate_port port
              | None => bool_decide (suffix = [])
              end
          end
      end
  | None =>
      if bool_decide (x5b ∈ host) || bool_decide (x5d ∈ host) || (1 <? length (filter (fun b => b = x3a) host)) then false else
      let '(name, port) := match split_once x3a host with Some (name, port) => (name, Some port) | None => (host, None) end in
      match port with Some port => validate_port port | None => true end
      && ((match parse_ipv4 name with Some ip => bool_decide (show_v4 ip = name) | None => false end)
          || negb (bool_decide (name = [])) && negb (bool_decide (head name = Some x2e))
             && negb (bool_decide (last name = Some x2e)) && forallb valid_label (split_on x2e name))
  end.
Definition validate_host (host : list byte) : result PinnedHttpErrorKind unit := reject_if (negb (valid_host host)) Configuration.

(** `char::is_control` of some character of a UTF-8 string. *)
Fixpoint has_control (s : list byte) : bool :=
  match s with
  | [] => false
  | b :: t =>
      ((u8_val b <? 32)%Z || (u8_val b =? 127)%Z)
      || (bool_decide (b = xc2) && match t with c :: _ => (128 <=? u8_val c)%Z && (u8_val c <=? 159)%Z | [] => false end)
      || has_control t
  end.
Definition valid_owner (owner : list byte) : bool :=
  negb (is_blank owner) && (length owner <=? 128) && negb (has_control owner).

(** ** A connection *)

(** Pieces in the order they arrive, [None] a failing read; then end of file. *)
Definition Conn : Type := list (option (list byte)).
Definition conn_read (n : nat) (c : Conn) : option (list byte * Conn) :=
  match c with
  | [] => Some ([], [])
  | None :: _ => None
  | Some piece :: rest =>
      Some (take n piece, match drop n piece with [] => rest | more => Some more :: rest end)
  end.

Inductive Headers := Got (position : nat) (received : list byte) (conn : Conn) | TooLong | Ended | ReadFailed.

(** The loop both sides read headers with.  Every read brings a byte and the
    loop stops at 8192 of them, so that many rounds are enough. *)
Fixpoint read_headers (fuel : nat) (received : list byte) (conn : Conn) : Headers :=
  match find_subslice (CRLF ++ CRLF) received with
  | Some position => if (MAX_HEADER_BYTES <? Z.of_nat position + 4)%Z then TooLong else Got position received conn
  | None =>
      if (MAX_HEADER_BYTES <=? Z.of_nat (length received))%Z then TooLong else
      match conn_read 1024 conn with
      | None => ReadFailed
      | Some ([], _) => Ended
      | Some (chunk, conn') => match fuel with O => TooLong | S f => read_headers f (received ++ chunk) conn' end
      end
  end.
Definition HEADER_ROUNDS : nat := Z.to_nat MAX_HEADER_BYTES.

Inductive BodyRead := Whole (body : list byte) (conn : Conn) | Short | BodyFailed.

(** The loop both sides read a body of [length] bytes with. *)
Fixpoint read_body (fuel : nat) (body : list byte) (content_length : nat) (conn : Conn) : BodyRead :=
  if content_length <=? length body then Whole body conn else
  match conn_read (min (content_length - length body) 1024) conn with
  | None => BodyFailed
  | Some ([], _) => Short
  | Some (chunk, conn') => match fuel with O => Short | S f => read_body f (body ++ chunk) content_length conn' end
  end.

(** `split` at CRLF *)
Fixpoint split_crlf (s : list byte) : list (list byte) :=
  match s with
  | [] => [[]]
  | a :: t =>
      match t with
      | b :: r =>
          if bool_decide (a = x0d) && bool_decide (b = x0a) then [] :: split_crlf r
          else match split_crlf t with h :: ls => (a :: h) :: ls | [] => [[a]] end
      | [] => [[a]]
      end
  end.

(** `split_ascii_whitespace` *)
Fixpoint split_words (word : list byte) (s : list byte) : list (list byte) :=
  match s with
  | [] => if bool_decide (word = []) then [] else [word]
  | b :: t =>
      if Utf8.is_ascii_whitespace b then (if bool_decide (word = []) then split_words [] t else word :: split_words [] t)
      else split_words (word ++ [b]) t
  end.
Definition split_ascii_whitespace (s : list byte) : list (list byte) := split_words [] s.

(** ** The client: pinned_http.rs *)

Record PinnedHttpEndpoint := { ep_recipient : SocketAddr; ep_host : list byte }.
Record PinnedHttpResponse := { ph_status : Z; ph_body : list byte }.

(** PinnedHttpEndpoint::new *)
Definition endpoint_new (recipient : SocketAddr) (host : list byte) : result PinnedHttpErrorKind PinnedHttpEndpoint :=
  let recipient := normalize_socket_addr recipient in
  _ ← validate_recipient_socket recipient;
  _ ← validate_host host;
  Ok {| ep_recipient := recipient; ep_host := host |}.

(** The header lines of a response: the Content-Length found so far. *)
Definition response_line (found : option Z) (line : list byte) : result PinnedHttpErrorKind (option Z) :=
  '(name, value) ← ok_or (split_once x3a line) Protocol;
  _ ← reject_if (eq_ignore_ascii_case name (str "transfer-encoding")) Protocol;
  if eq_ignore_ascii_case name (str "content-length") then
    _ ← reject_if (bool_decide (is_Some found)) Protocol;
    length ← ok_or (parse_u64 (Utf8.trim value)) Protocol;
    Ok (Some length)
  else Ok found.
Fixpoint response_lines (found : option Z) (lines : list (list byte)) : result PinnedHttpErrorKind (option Z) :=
  match lines with [] => Ok found | l :: ls => found ← response_line found l; response_lines found ls end.

Definition parse_response_headers (raw : list byte) : result PinnedHttpErrorKind (Z * Z) :=
  let lines := split_crlf raw in
  let status_parts := split_ascii_whitespace (default [] (head lines)) in
  _ ← reject_if (bool_decide (head status_parts <> Some (str "HTTP/1.1"))) Protocol;
  raw_status ← ok_or (status_parts !! 1) Protocol;
  status ← ok_or (parse_u16 raw_status) Protocol;
  _ ← reject_if (negb ((200 <=? status)%Z && (status <=? 599)%Z)) Protocol;
  found ← response_lines None (tail lines);
  match found with
  | Some length => Ok (status, length)
  | None => if (status =? 204)%Z then Ok (status, 0%Z) else Err Protocol
  end.

Definition method_text (m : Method) : list byte := match m with GET => str "GET" | PUT => str "PUT" end.

Definition request_text (host : list byte) (method : Method) (signer body : list byte) : list byte :=
  method_text method ++ str " " ++ RECORD_PATH_PREFIX ++ signer ++ str " HTTP/1.1" ++ CRLF
  ++ str "Host: " ++ host ++ CRLF
  ++ str "Content-Type: application/x-pkarr-signed-packet" ++ CRLF
  ++ str "Content-Length: " ++ show_u64 (Z.of_nat (length body)) ++ CRLF
  ++ str "Connection: close" ++ CRLF ++ CRLF.

(** What the client does with the connection once the request is written. *)
Definition read_response (conn : Conn) : result PinnedHttpErrorKind PinnedHttpResponse :=
  match read_headers HEADER_ROUNDS [] conn with
  | TooLong | Ended => Err Protocol
  | ReadFailed => Err ReadError
  | Got header_end received conn =>
      let headers := take header_end received in
      _ ← reject_if (negb (Utf8.from_utf8_ok headers)) Protocol;
      '(status, content_length) ← parse_response_headers headers;
      _ ← reject_if ((300 <=? status)%Z && (status <? 400)%Z) Protocol;
      _ ← reject_if (MAX_RELAY_PAYLOAD_BYTES <? content_length)%Z Protocol;
      let body := drop (header_end + 4) received in
      _ ← reject_if (content_length <? Z.of_nat (length body))%Z Protocol;
      match read_body (Z.to_nat content_length) body (Z.to_nat content_length) conn with
      | Short => Err Protocol
      | BodyFailed => Err ReadError
      | Whole body conn =>
          match conn_read 1 conn with
          | None => Err ReadError
          | Some ([], _) => Ok {| ph_status := status; ph_body := body |}
          | Some (_ :: _, _) => Err Protocol
          end
      end
  end.

Section client.
Context `{Pkarr}.

(** The peer: what connecting and writing these bytes gives, an error or the
    bytes that come back.  A deadline that passes is an error of the peer. *)
Definition Peer : Type := list byte -> result PinnedHttpErrorKind Conn.

Definition validate_signer_path (signer : list byte) : result PinnedHttpErrorKind unit :=
  key ← ok_or (from_z32 signer) Protocol;
  reject_if (bool_decide (to_z32 key <> signer)) Protocol.

Definition request (peer : Peer) (host : list byte) (method : Method) (signer body : list byte) :
    result PinnedHttpErrorKind PinnedHttpResponse :=
  _ ← validate_signer_path signer;
  conn ← peer (request_text host method signer body ++ body);
  read_response conn.

(** PinnedHttpEndpoint::put_record of pinned_http.rs *)
Definition client_put (peer : Peer) (host signer bytes : list byte) : result PinnedHttpErrorKind PinnedHttpResponse :=
  packet ← ok_or (packet_from_bytes bytes) Protocol;
  _ ← reject_if (bool_decide (to_z32 (public_key packet) <> signer)) Protocol;
  request peer host PUT signer (to_relay_payload packet).

(** PinnedHttpEndpoint::get_record *)
Definition client_get (peer : Peer) (host signer : list byte) : result PinnedHttpErrorKind PinnedHttpResponse :=
  response ← request peer host GET signer [];
  if negb (ph_status response =? 200)%Z then Ok response else
  key ← ok_or (from_z32 signer) Protocol;
  packet ← ok_or (from_relay_payload key (ph_body response)) Protocol;
  Ok {| ph_status := ph_status response; ph_body := as_bytes packet |}.

(** get_record_raw_until *)
Definition client_get_raw (peer : Peer) (host : list byte) (signer : array 32) : result PinnedHttpErrorKind PinnedHttpResponse :=
  request peer host GET (to_z32 signer) [].

(** ** The server: read_request and write_response of the authority *)

Inductive RequestError :=
| HeadersTooLong | HeadersEnded | RequestReadFailed | NotUtf8 | RequestLine | MethodUnsupported | PathOutside | SignerInvalid
| MalformedHeader | DuplicateHost | BadContentLength | DuplicateLength | TransferEncoding | LengthMissing | HostMismatch
| BodyTooLong | GetWithBody | TooManyBytes | BodyEnded.

(** Host and Content-Length found so far. *)
Definition request_line_header (found : option (list byte) * option Z) (line : list byte) :
    result RequestError (option (list byte) * option Z) :=
  let '(host, content_length) := found in
  '(name, value) ← ok_or (split_once x3a line) MalformedHeader;
  if eq_ignore_ascii_case name (str "host") then
    _ ← reject_if (bool_decide (is_Some host)) DuplicateHost; Ok (Some (Utf8.trim value), content_length)
  else if eq_ignore_ascii_case name (str "content-length") then
    length ← ok_or (parse_u64 (Utf8.trim value)) BadContentLength;
    _ ← reject_if (bool_decide (is_Some content_length)) DuplicateLength; Ok (host, Some length)
  else if eq_ignore_ascii_case name (str "transfer-encoding") then Err TransferEncoding
  else Ok found.
Fixpoint request_headers (found : option (list byte) * option Z) (lines : list (list byte)) :
    result RequestError (option (list byte) * option Z) :=
  match lines with [] => Ok found | l :: ls => found ← request_line_header found l; request_headers found ls end.

Definition parse_method (m : list byte) : option Method :=
  if bool_decide (m = str "GET") then Some GET else if bool_decide (m = str "PUT") then Some PUT else None.

(** The request line: method and signer. *)
Definition parse_request_line (line : list byte) : result RequestError (Method * list byte) :=
  let parts := split_ascii_whitespace line in
  _ ← reject_if (bool_decide (parts !! 2 <> Some (str "HTTP/1.1")) || bool_decide (is_Some (parts !! 3))) RequestLine;
  method ← ok_or (parse_method (default [] (parts !! 0))) MethodUnsupported;
  signer ← ok_or (strip_prefix RECORD_PATH_PREFIX (default [] (parts !! 1))) PathOutside;
  key ← ok_or (from_z32 signer) SignerInvalid;
  _ ← reject_if (bool_decide (to_z32 key <> signer)) SignerInvalid;
  Ok (method, signer).

Definition request_length (method : Method) (content_length : option Z) : result RequestError Z :=
  match method, content_length with
  | GET, None => Ok 0%Z
  | _, Some length => Ok length
  | PUT, None => Err LengthMissing
  end.

Definition read_request (expected_host : list byte) (conn : Conn) : result RequestError AuthorityRequest :=
  match read_headers HEADER_ROUNDS [] conn with
  | TooLong => Err HeadersTooLong
  | Ended => Err HeadersEnded
  | ReadFailed => Err RequestReadFailed
  | Got header_end received conn =>
      let headers := take header_end received in
      _ ← reject_if (negb (Utf8.from_utf8_ok headers)) NotUtf8;
      let lines := split_crlf headers in
      '(method, signer) ← parse_request_line (default [] (head lines));
      '(host, content_length) ← request_headers (None, None) (tail lines);
      content_length ← request_length method content_length;
      _ ← reject_if (bool_decide (host <> Some expected_host)) HostMismatch;
      _ ← reject_if (MAX_RELAY_PAYLOAD_BYTES <? content_length)%Z BodyTooLong;
      let expected_body := match method with GET => 0%Z | PUT => content_length end in
      _ ← reject_if (negb (content_length =? expected_body)%Z) GetWithBody;
      let body := drop (header_end + 4) received in
      _ ← reject_if (content_length <? Z.of_nat (length body))%Z TooManyBytes;
      match read_body (Z.to_nat content_length) body (Z.to_nat content_length) conn with
      | Short => Err BodyEnded
      | BodyFailed => Err RequestReadFailed
      | Whole body _ => Ok {| rq_method := method; rq_signer := signer; rq_body := body |}
      end
  end.

(** write_response: the headers, the body, end of stream. *)
Definition write_response (r : AuthorityResponse) : list byte :=
  str "HTTP/1.1 " ++ show_u64 (rs_status r) ++ str " " ++ rs_reason r ++ CRLF
  ++ str "Content-Type: application/x-pkarr-signed-packet" ++ CRLF
  ++ str "Content-Length: " ++ show_u64 (Z.of_nat (length (rs_body r))) ++ CRLF
  ++ str "Connection: close" ++ CRLF ++ CRLF ++ rs_body r.

(** is_local_authority_ip and PublicationAuthorityConfig::validate *)
Definition is_local_authority_ip (ip : IpAddr) : bool :=
  match ip with
  | V4 ip => v4_is_loopback ip || v4_is_private ip || v4_is_link_local ip
  | V6 ip => v6_is_loopback ip || v6_is_unicast_link_local ip || (Z.land (v6_segment0 ip) 0xfe00 =? 0xfc00)%Z
  end.
Definition config_validate (c : PublicationAuthorityConfig) : bool :=
  let listen := normalize_socket_addr (ac_listen c) in
  is_ok (validate_recipient_socket listen) && is_local_authority_ip (sock_ip listen)
  && is_ok (validate_namespace (ac_namespace c)) && is_ok (validate_recipient (ac_signed_recipient c))
  && is_ok (validate_host (ac_expected_host c)) && admission_validate (ac_signer_admission c) && valid_owner (ac_owner c).

End client.

(** ** Pieces of a message *)

(** [conn] delivers exactly [bytes], in non-empty pieces. *)
Definition arrives (conn : Conn) (bytes : list byte) : Prop :=
  exists pieces, conn = Some <$> pieces /\ Forall (fun p => p <> []) pieces /\ concat pieces = bytes.

Lemma arrives_nil conn : arrives conn [] -> conn = [].
Proof.
  intros (pieces & -> & Hne & Hc). destruct pieces as [|p ps]; [done|]. inversion Hne; subst. by destruct p.
Qed.

(** One read takes a non-empty prefix of what is still to come. *)
Lemma read_arrives n conn bytes :
  0 < n -> arrives conn bytes -> bytes <> [] ->
  exists chunk conn' rest, conn_read n conn = Some (chunk, conn') /\ chunk <> [] /\ length chunk <= n /\
    bytes = chunk ++ rest /\ arrives conn' rest.
Proof.
  intros Hn (pieces & -> & Hne & Hc) Hb. destruct pieces as [|p ps]; [by subst|].
  inversion Hne as [|? ? Hp Hps]; subst. cbn [fmap list_fmap conn_read].
  exists (take n p). destruct (drop n p) as [|c more] eqn:Hd.
  - exists (Some <$> ps), (concat ps). split_and!; [done| |rewrite length_take; lia| |by exists ps].
    + intros E. apply Hp. rewrite <-(take_drop n p), Hd, E. done.
    + cbn. f_equal. rewrite <-(take_drop n p) at 1. by rewrite Hd, app_nil_r.
  - exists (Some (c :: more) :: (Some <$> ps)), ((c :: more) ++ concat ps).
    split_and!; [done| |rewrite length_take; lia| |].
    + intros E. destruct p; [done|]. destruct n; [lia|done].
    + cbn [concat]. rewrite app_assoc. f_equal. by rewrite <-Hd, take_drop.
    + exists ((c :: more) :: ps). split_and!; [done| |done]. by constructor.
Qed.

Lemma read_arrives_end n conn : arrives conn [] -> conn_read n conn = Some ([], []).
Proof. by intros ->%arrives_nil. Qed.

(** The first occurrence in a longer text is found as soon as it is whole. *)
Lemma find_subslice_shrink needle s t i :
  find_subslice needle (s ++ t) = Some i -> i + length needle <= length s -> find_subslice needle s = Some i.
Proof.
  revert i. induction s as [|b s IH]; intros i Hi Hl.
  - simpl in Hl. destruct needle; [|simpl in Hl; lia]. destruct i; [done|simpl in Hl; lia].
  - cbn [app find_subslice] in *. destruct (strip_prefix needle (b :: s ++ t)) as [r|] eqn:E.
    + injection Hi as <-. apply strip_prefix_Some in E. change (b :: s ++ t) with ((b :: s) ++ t) in E.
      assert (b :: s = needle ++ drop (length needle) (b :: s)) as ->; [|by rewrite strip_prefix_app].
      rewrite <-(take_drop (length needle) (b :: s)) at 1. f_equal.
      apply (f_equal (take (length needle))) in E. by rewrite take_app_le, take_app_length in E by (simpl in *; lia).
    + destruct (strip_prefix needle (b :: s)) as [r|] eqn:E'.
      { apply strip_prefix_Some in E'. change (b :: s ++ t) with ((b :: s) ++ t) in E.
        by rewrite E', <-app_assoc, strip_prefix_app in E. }
      destruct (find_subslice needle (s ++ t)) as [j|] eqn:Ej; [|done]. injection Hi as <-.
      rewrite (IH j); [done|done|simpl in *; lia].
Qed.

(** However the text arrives, the header loop finds its first blank line. *)
Lemma read_headers_arrives whole position fuel received conn rest :
  find_subslice (CRLF ++ CRLF) whole = Some position -> (Z.of_nat position + 4 <= MAX_HEADER_BYTES)%Z ->
  whole = received ++ rest -> arrives conn rest -> (MAX_HEADER_BYTES <= Z.of_nat (length received + fuel))%Z ->
  exists received' conn' rest', read_headers fuel received conn = Got position received' conn' /\
    whole = received' ++ rest' /\ arrives conn' rest' /\ position + 4 <= length received'.
Proof.
  intros Hf Hmax. revert received conn rest. induction fuel as [|fuel IH]; intros received conn rest Hw Ha Hfuel; cbn [read_headers].
  all: destruct (find_subslice (CRLF ++ CRLF) received) as [p|] eqn:Hp.
  1,3: pose proof (find_subslice_grow _ _ rest _ Hp) as Hg; rewrite <-Hw, Hf in Hg; injection Hg as <-;
    rewrite (proj2 (Z.ltb_ge _ _)) by lia; exists received, conn, rest; split_and!; try done;
    pose proof (find_subslice_bound _ _ _ Hp) as Hb; exact Hb.
  all: assert (length received < position + 4) as Hshort by
    (destruct (decide (length received < position + 4)); [done|]; rewrite Hw in Hf;
     rewrite (find_subslice_shrink _ _ _ _ Hf) in Hp; [done|cbn; lia]).
  - exfalso. lia.
  - rewrite (proj2 (Z.leb_gt _ _)) by lia.
    assert (rest <> []) as Hne.
    { intros ->. rewrite app_nil_r in Hw. subst received. by rewrite Hf in Hp. }
    destruct (read_arrives 1024 conn rest ltac:(lia) Ha Hne) as (chunk & conn' & rest' & Hr & Hc & _ & -> & Ha').
    rewrite Hr. destruct chunk as [|c chunk]; [done|].
    destruct (IH (received ++ c :: chunk) conn' rest') as (rc & cn & rs & E & ? & ? & ?); [|done| |eauto 10].
    + by rewrite Hw, app_assoc.
    + rewrite length_app. cbn [length]. lia.
Qed.

(** However the body arrives, the body loop returns it. *)
Lemma read_body_arrives n fuel body conn rest :
  length (body ++ rest) = n -> arrives conn rest -> n <= length body + fuel ->
  exists conn', read_body fuel body n conn = Whole (body ++ rest) conn' /\ arrives conn' [].
Proof.
  revert body conn rest. induction fuel as [|fuel IH]; intros body conn rest Hn Ha Hf; cbn [read_body]; rewrite length_app in Hn.
  all: destruct (Nat.leb_spec n (length body)).
  1,3: destruct rest; [|simpl in Hn; lia]; rewrite app_nil_r; by exists conn.
  - lia.
  - assert (rest <> []) as Hne by (intros ->; simpl in Hn; lia).
    destruct (read_arrives (min (n - length body) 1024) conn rest ltac:(lia) Ha Hne) as (chunk & conn' & rest' & Hr & Hc & _ & -> & Ha').
    rewrite Hr. destruct chunk as [|c chunk]; [done|].
    destruct (IH (body ++ c :: chunk) conn' rest') as (cn & E & Hcn); [|done| |].
    + rewrite !length_app. rewrite length_app in Hn. cbn [length] in *. lia.
    + rewrite length_app. cbn [length]. lia.
    + exists cn. by rewrite E, <-app_assoc.
Qed.

(** ** Header text *)

(** Printable ASCII, blanks included. *)
Definition printable (b : byte) : Prop := (32 <= u8_val b < 127)%Z.
#[export] Instance printable_dec b : Decision (printable b).
Proof. unfold printable. apply _. Defined.

Lemma printable_not_cr l : Forall printable l -> x0d ∉ l.
Proof. intros Hl Hin. rewrite Forall_forall in Hl. specialize (Hl _ Hin). unfold printable in Hl. change (u8_val x0d) with 13%Z in Hl. lia. Qed.

Lemma visible_printable l : Forall Utf8.visible l -> Forall printable l.
Proof. intros Hl. eapply Forall_impl; [exact Hl|]. intros b. unfold Utf8.visible, printable. lia. Qed.

Lemma printable_ascii l : Forall printable l -> Forall Utf8.ascii l.
Proof. intros Hl. eapply Forall_impl; [exact Hl|]. intros b. unfold Utf8.ascii, printable. lia. Qed.

(** Closed text is printable by evaluation. *)
Ltac printable_lit := apply (bool_decide_unpack _); vm_compute; exact I.

(** Lines joined by CRLF. *)
Fixpoint unlines (ls : list (list byte)) : list byte :=
  match ls with [] => [] | [l] => l | l :: ls' => l ++ CRLF ++ unlines ls' end.

Lemma split_crlf_line l t : x0d ∉ l -> split_crlf (l ++ CRLF ++ t) = l :: split_crlf t.
Proof.
  induction l as [|a l IH]; intros Hl; [done|]. cbn [app].
  assert (a <> x0d) as Ha by set_solver. assert (x0d ∉ l) as Hl' by set_solver. specialize (IH Hl').
  cbn [split_crlf]. destruct (l ++ CRLF ++ t) as [|b r] eqn:E; [by destruct l|].
  rewrite (bool_decide_false (a = x0d)) by done. cbn [andb]. by rewrite IH.
Qed.

Lemma split_crlf_last l : x0d ∉ l -> split_crlf l = [l].
Proof.
  induction l as [|a l IH]; intros Hl; [done|].
  assert (a <> x0d) as Ha by set_solver. assert (x0d ∉ l) as Hl' by set_solver. specialize (IH Hl').
  cbn [split_crlf]. destruct l as [|b r]; [done|]. rewrite (bool_decide_false (a = x0d)) by done. cbn [andb]. by rewrite IH.
Qed.

Lemma split_unlines ls : ls <> [] -> Forall (fun l => x0d ∉ l) ls -> split_crlf (unlines ls) = ls.
Proof.
  intros Hne Hls. induction Hls as [|l ls Hl Hls IH]; [done|]. destruct ls as [|l' ls].
  - by apply split_crlf_last.
  - change (unlines (l :: l' :: ls)) with (l ++ CRLF ++ unlines (l' :: ls)). rewrite split_crlf_line by done. by rewrite IH.
Qed.

Lemma find_miss needle c s :
  strip_prefix needle (c :: s) = None -> find_subslice needle (c :: s) = S <$> find_subslice needle s.
Proof. intros Hn. cbn [find_subslice]. by rewrite Hn. Qed.

Lemma find_skip c s : c <> x0d -> find_subslice (CRLF ++ CRLF) (c :: s) = S <$> find_subslice (CRLF ++ CRLF) s.
Proof.
  intros Hc. apply find_miss. destruct (strip_prefix _ _) as [r|] eqn:E; [|done].
  apply strip_prefix_Some in E. by injection E.
Qed.

Lemma find_skips l s :
  x0d ∉ l -> find_subslice (CRLF ++ CRLF) (l ++ s) = (fun p => length l + p) <$> find_subslice (CRLF ++ CRLF) s.
Proof.
  induction l as [|c l IH]; intros Hl; cbn [app length]; [by destruct (find_subslice _ s)|].
  rewrite find_skip by set_solver. rewrite IH by set_solver. by destruct (find_subslice _ s).
Qed.

Lemma find_here needle s : find_subslice needle (needle ++ s) = Some 0.
Proof. pose proof (strip_prefix_app needle s) as Hs. by destruct (needle ++ s); cbn [find_subslice]; rewrite Hs. Qed.

(** A line end followed by a non-empty line is no blank line. *)
Lemma find_crlf c s : c <> x0d -> find_subslice (CRLF ++ CRLF) (CRLF ++ c :: s) = (fun p => 2 + p) <$> find_subslice (CRLF ++ CRLF) (c :: s).
Proof.
  intros Hc. change (CRLF ++ c :: s) with (x0d :: x0a :: c :: s). rewrite (find_miss _ x0d), (find_miss _ x0a).
  - by destruct (find_subslice _ (c :: s)).
  - destruct (strip_prefix _ _) as [r|] eqn:E; [|done]. apply strip_prefix_Some in E. by injection E.
  - destruct (strip_prefix _ _) as [r|] eqn:E; [|done]. apply strip_prefix_Some in E. by injection E.
Qed.

(** The first blank line of a message is the one after its last header. *)
Lemma find_unlines ls body :
  ls <> [] -> Forall (fun l => x0d ∉ l /\ l <> []) ls ->
  find_subslice (CRLF ++ CRLF) (unlines ls ++ CRLF ++ CRLF ++ body) = Some (length (unlines ls)).
Proof.
  intros Hne Hls. induction Hls as [|l ls [Hl Hl0] Hls IH]; [done|]. destruct ls as [|l' ls].
  - cbn [unlines]. rewrite find_skips, (app_assoc CRLF CRLF body), find_here by done. cbn [fmap option_fmap option_map]. by rewrite Nat.add_0_r.
  - change (unlines (l :: l' :: ls)) with (l ++ CRLF ++ unlines (l' :: ls)). rewrite <-!app_assoc, find_skips by done.
    specialize (IH ltac:(done)). inversion Hls as [|? ? [Hl' Hne'] _]; subst.
    destruct l' as [|c l']; [done|]. assert (c <> x0d) as Hc by set_solver.
    assert (exists u, unlines ((c :: l') :: ls) = c :: u) as [u Hu] by (destruct ls; cbn; eauto).
    rewrite Hu in *. change ((c :: u) ++ CRLF ++ CRLF ++ body) with (c :: u ++ CRLF ++ CRLF ++ body) in *.
    rewrite find_crlf by done. cbn [app] in IH. rewrite IH. cbn [fmap option_fmap option_map]. f_equal.
    rewrite !length_app. cbn [CRLF length]. lia.
Qed.

(** Words without white space, separated by single blanks. *)
Definition wordy (w : list byte) : Prop := w <> [] /\ Forall (fun b => Utf8.is_ascii_whitespace b = false) w.

Lemma split_words_word acc w s : Forall (fun b => Utf8.is_ascii_whitespace b = false) w -> split_words acc (w ++ s) = split_words (acc ++ w) s.
Proof.
  intros Hw. revert acc. induction Hw as [|b w Hb _ IH]; intros acc; cbn [app split_words]; [by rewrite app_nil_r|].
  rewrite Hb, IH. by rewrite <-app_assoc.
Qed.

Lemma split_words_space w s : wordy w -> split_ascii_whitespace (w ++ str " " ++ s) = w :: split_ascii_whitespace s.
Proof.
  intros [Hne Hw]. unfold split_ascii_whitespace. rewrite split_words_word by done. cbn.
  by rewrite (bool_decide_false (w = [])).
Qed.

Lemma split_words_end w : wordy w -> split_ascii_whitespace w = [w].
Proof.
  intros [Hne Hw]. unfold split_ascii_whitespace. rewrite <-(app_nil_r w) at 1. rewrite split_words_word by done. cbn.
  by rewrite (bool_decide_false (w = [])).
Qed.

Lemma visible_wordy w : w <> [] -> Forall Utf8.visible w -> wordy w.
Proof.
  intros Hne Hw. split; [done|]. eapply Forall_impl; [exact Hw|]. intros b Hb.
  assert (bool_decide (Utf8.visible b) && Utf8.is_ascii_whitespace b = false) as Hx by (clear; by_all_bytes b).
  by rewrite (bool_decide_true (Utf8.visible b)) in Hx.
Qed.

Lemma visible_trim w : w <> [] -> Forall Utf8.visible w -> Utf8.trim (str " " ++ w) = w.
Proof.
  intros Hne Hw. change (str " " ++ w) with (x20 :: w). rewrite Utf8.trim_ws_l by done.
  destruct w as [|b w]; [done|]. inversion Hw as [|? ? Hb Hw']; subst.
  destruct w as [|c w _] using rev_ind; [by apply Utf8.trim_one|].
  apply Forall_app in Hw' as [_ Hc]. inversion Hc; subst. by apply Utf8.trim_visible.
Qed.

Lemma show_u64_visible n : (0 <= n)%Z -> show_u64 n <> [] /\ Forall Utf8.visible (show_u64 n).
Proof.
  intros Hn. split; [apply show_u64_nonempty|]. apply Forall_forall. intros b Hb.
  apply show_u64_chars in Hb as [d Hd]; [|done]. unfold digit_val in Hd.
  destruct (_ && _) eqn:E; [|done]. apply andb_true_iff in E as [?%Z.leb_le ?%Z.leb_le]. unfold Utf8.visible. lia.
Qed.

Lemma z32_visible `{PkarrLaws} k : to_z32 k <> [] /\ Forall Utf8.visible (to_z32 k).
Proof.
  split; [apply z32_nonempty|]. apply Forall_forall. intros b Hb. apply z32_alphabet in Hb.
  unfold is_ascii_lowercase, is_ascii_digit in Hb. unfold Utf8.visible. bools. lia.
Qed.

(** ** A valid host is visible text *)

Lemma split_on_elem c s b : b ∈ s -> b = c \/ exists l, l ∈ split_on c s /\ b ∈ l.
Proof.
  induction s as [|a s IH]; [by intros ?%not_elem_of_nil|]. intros Hb. cbn [split_on].
  destruct (decide (a = c)) as [->|Hne].
  - apply elem_of_cons in Hb as [->|Hb]; [by left|]. destruct (IH Hb) as [->|(l & Hl & Hin)]; [by left|right].
    exists l. split; [by right|done].
  - destruct (split_on c s) as [|h ls] eqn:E; [by destruct (split_on_ne c s)|].
    apply elem_of_cons in Hb as [->|Hb].
    + right. exists (a :: h). split; by left.
    + destruct (IH Hb) as [->|(l & Hl & Hin)]; [by left|right].
      apply elem_of_cons in Hl as [->|Hl]; [exists (a :: h); split; [by left|by right]|].
      exists l. split; [by right|done].
Qed.

Lemma hex_digits_visible l : Forall (fun c => is_Some (to_digit 16 c)) l -> Forall Utf8.visible l.
Proof.
  intros Hl. eapply Forall_impl; [exact Hl|]. intros b Hb.
  assert (bool_decide (is_Some (to_digit 16 b)) && negb (bool_decide (Utf8.visible b)) = false) as Hx by (clear; by_all_bytes b).
  rewrite (bool_decide_true (is_Some _)) in Hx by done. cbn in Hx. apply negb_false_iff in Hx. by apply bool_decide_eq_true in Hx.
Qed.

Lemma show_hex_visible g : (0 <= g <= 65535)%Z -> Forall Utf8.visible (show_hex g).
Proof. intros Hg. apply hex_digits_visible. by eapply spelled_digits, show_hex_spelled. Qed.

Lemma show_v4_visible a : Forall Utf8.visible (show_v4 a).
Proof.
  unfold show_v4. assert (Forall Utf8.visible [dot]) as Hd by (repeat constructor; unfold Utf8.visible; vm_compute; done).
  rewrite !Forall_app. split_and!; try done; apply show_u64_visible; apply u8_val_range.
Qed.

Lemma show_tail_visible gs : u16s gs -> Forall Utf8.visible (show_tail gs).
Proof.
  induction 1 as [|g gs Hg _ IH]; [constructor|]. cbn [show_tail]. rewrite !Forall_app.
  split_and!; [repeat constructor; vm_compute; done|by apply show_hex_visible|done].
Qed.

Lemma show_groups_visible gs : u16s gs -> Forall Utf8.visible (show_groups gs).
Proof.
  intros Hgs. destruct Hgs as [|g gs Hg Hgs]; [constructor|]. cbn [show_groups]. rewrite Forall_app.
  split; [by apply show_hex_visible|by apply show_tail_visible].
Qed.

Lemma show_v6_visible a : Forall Utf8.visible (show_v6 a).
Proof.
  unfold show_v6. destruct (to_ipv4_mapped a) as [v4|].
  - apply Forall_app. split; [repeat constructor; vm_compute; done|apply show_v4_visible].
  - pose proof (be_groups_u16s 8 (v6_bits a)) as Hs. change (be_groups 8 (v6_bits a)) with (v6_segments a) in Hs.
    destruct (longest_zeroes _ _ _ _) as [start len]. destruct (1 <? len); [|by apply show_groups_visible].
    rewrite !Forall_app. split_and!; [|repeat constructor; vm_compute; done|]; apply show_groups_visible.
    + by apply Forall_take.
    + by apply Forall_drop.
Qed.

Lemma validate_port_visible raw : validate_port raw = true -> Forall Utf8.visible raw.
Proof.
  unfold validate_port. destruct (parse_u16 raw) as [p|] eqn:Hp; [|done]. intros Hv. bools. subst raw.
  unfold parse_u16 in Hp. apply bind_Some in Hp as (n & Hn & Hp). apply parse_u64_ok in Hn.
  destruct (_ <=? _)%Z; [|done]. injection Hp as ->. apply show_u64_visible, Hn.
Qed.

Lemma valid_label_visible l : valid_label l = true -> Forall Utf8.visible l.
Proof.
  unfold valid_label. intros Hv. apply andb_true_iff in Hv as [_ Hv]. apply Forall_forall. intros b Hb.
  rewrite forallb_forall in Hv. specialize (Hv b (proj1 (list_elem_of_In _ _) Hb)). clear Hb. cbn beta in Hv.
  assert (negb (is_ascii_lowercase b || is_ascii_digit b || bool_decide (b = x2d)) || bool_decide (Utf8.visible b) = true) as Hx
    by (clear; by_all_bytes b).
  rewrite Hv in Hx. cbn in Hx. by apply bool_decide_eq_true in Hx.
Qed.

Lemma valid_host_visible host : valid_host host = true -> host <> [] /\ Forall Utf8.visible host.
Proof.
  unfold valid_host. destruct (bool_decide_reflect (host = [])) as [|Hne]; [done|]. cbn [orb].
  destruct (_ || _); [done|]. intros Hv. split; [done|].
  destruct (strip_prefix [x5b] host) as [bracketed|] eqn:Hb.
  - apply strip_prefix_Some in Hb as ->. destruct (split_once x5d bracketed) as [[literal suffix]|] eqn:Hs; [|done].
    apply split_once_Some in Hs as [-> _]. destruct (_ || _); [done|].
    destruct (parse_ipv6 literal) as [a|]; [|done]. apply andb_true_iff in Hv as [Hl Hv]. bools. subst literal.
    cbn [app]. constructor; [vm_compute; done|]. apply Forall_app. split; [apply show_v6_visible|].
    constructor; [vm_compute; done|]. destruct (strip_prefix [x3a] suffix) as [port|] eqn:Hp.
    + apply strip_prefix_Some in Hp as ->. constructor; [vm_compute; done|]. by apply validate_port_visible.
    + bools. by subst.
  - clear Hb. destruct (_ || _ || _); [done|].
    assert (forall name, (match parse_ipv4 name with Some ip => bool_decide (show_v4 ip = name) | None => false end)
      || negb (bool_decide (name = [])) && negb (bool_decide (head name = Some x2e))
             && negb (bool_decide (last name = Some x2e)) && forallb valid_label (split_on x2e name) = true ->
      Forall Utf8.visible name) as Hname.
    { intros name Hn. apply orb_true_iff in Hn as [Hn|Hn].
      - destruct (parse_ipv4 name) as [ip|]; [|done]. bools. subst name. apply show_v4_visible.
      - apply andb_true_iff in Hn as [_ Hn]. rewrite forallb_forall in Hn. apply Forall_forall. intros b Hb.
        apply (split_on_elem x2e) in Hb as [->|(l & Hl & Hb)]; [vm_compute; done|].
        specialize (Hn l (proj1 (list_elem_of_In _ _) Hl)). apply valid_label_visible in Hn. by eapply Forall_forall in Hn. }
    destruct (split_once x3a host) as [[name port]|] eqn:Hs.
    + apply split_once_Some in Hs as [-> _]. apply andb_true_iff in Hv as [Hp Hn]. apply Forall_app.
      split; [by apply Hname|]. constructor; [vm_compute; done|]. by apply validate_port_visible.
    + apply andb_true_iff in Hv as [_ Hn]. by apply Hname.
Qed.

Lemma valid_host_short host : valid_host host = true -> length host <= 253.
Proof.
  unfold valid_host. intros Hv. destruct (Nat.ltb_spec 253 (length host)); [|lia].
  rewrite orb_true_r in Hv. done.
Qed.

(** ** The two sides agree *)

Section wire.
Context `{PkarrLaws}.

Definition header_lines (length : Z) : list (list byte) :=
  [str "Content-Type: application/x-pkarr-signed-packet"; str "Content-Length: " ++ show_u64 length; str "Connection: close"].

Definition request_lines (host : list byte) (method : Method) (signer body : list byte) : list (list byte) :=
  (method_text method ++ str " " ++ (RECORD_PATH_PREFIX ++ signer) ++ str " " ++ str "HTTP/1.1")
  :: (str "Host: " ++ host) :: header_lines (Z.of_nat (length body)).

Lemma request_text_lines host method signer body :
  request_text host method signer body = unlines (request_lines host method signer body) ++ CRLF ++ CRLF.
Proof.
  unfold request_text, request_lines, header_lines. cbn [unlines]. rewrite <-!app_assoc. reflexivity.
Qed.

Definition response_text_lines (r : AuthorityResponse) : list (list byte) :=
  (str "HTTP/1.1" ++ str " " ++ show_u64 (rs_status r) ++ str " " ++ rs_reason r) :: header_lines (Z.of_nat (length (rs_body r))).

Lemma write_response_lines r :
  write_response r = unlines (response_text_lines r) ++ CRLF ++ CRLF ++ rs_body r.
Proof. unfold write_response, response_text_lines, header_lines. cbn [unlines]. rewrite <-!app_assoc. reflexivity. Qed.

(** Printable lines, found and split as they were joined. *)
Lemma lines_read ls body conn :
  ls <> [] -> Forall (fun l => l <> [] /\ Forall printable l) ls ->
  (Z.of_nat (length (unlines ls)) + 4 <= MAX_HEADER_BYTES)%Z -> arrives conn (unlines ls ++ CRLF ++ CRLF ++ body) ->
  exists received conn' rest, read_headers HEADER_ROUNDS [] conn = Got (length (unlines ls)) received conn' /\
    take (length (unlines ls)) received = unlines ls /\ body = drop (length (unlines ls) + 4) received ++ rest /\ arrives conn' rest /\
    Utf8.from_utf8_ok (unlines ls) = true /\ split_crlf (unlines ls) = ls.
Proof.
  intros Hne Hls Hmax Ha.
  destruct (read_headers_arrives (unlines ls ++ CRLF ++ CRLF ++ body) (length (unlines ls)) HEADER_ROUNDS [] conn
    (unlines ls ++ CRLF ++ CRLF ++ body)) as (received & conn' & rest & Hr & Hw & Ha' & Hlen); [|done|done|done| |].
  { apply find_unlines; [done|]. eapply Forall_impl; [exact Hls|]. intros l [? ?]. split; [by apply printable_not_cr|done]. }
  { unfold HEADER_ROUNDS. cbn [length]. rewrite Nat2Z.inj_add, Z2Nat.id; unfold MAX_HEADER_BYTES; lia. }
  exists received, conn', rest. split; [done|].
  assert (take (length (unlines ls) + 4) received = unlines ls ++ CRLF ++ CRLF) as Htake.
  { rewrite <-(take_app_le received rest), <-Hw by done.
    rewrite (app_assoc (unlines ls)), (app_assoc (unlines ls ++ CRLF)). rewrite take_app_length'; [by rewrite <-app_assoc|].
    rewrite !length_app. cbn. lia. }
  split_and!; [| |done| |].
  - transitivity (take (length (unlines ls)) (take (length (unlines ls) + 4) received)); [rewrite take_take; f_equal; lia|].
    by rewrite Htake, take_app_length.
  - rewrite <-(take_drop (length (unlines ls) + 4) received), Htake in Hw at 1.
    rewrite <-!app_assoc in Hw. by do 3 apply app_inv_head in Hw.
  - rewrite <-(app_nil_r (unlines ls)), Utf8.from_utf8_ok_ascii_prefix; [done|].
    clear -Hls. induction Hls as [|l ls [_ Hl] _ IH]; [constructor|]. destruct ls as [|l' ls]; [by apply printable_ascii|].
    change (unlines (l :: l' :: ls)) with (l ++ CRLF ++ unlines (l' :: ls)). rewrite !Forall_app.
    split_and!; [by apply printable_ascii|repeat constructor; vm_compute; done|done].
  - apply split_unlines; [done|]. eapply Forall_impl; [exact Hls|]. intros l [_ ?]. by apply printable_not_cr.
Qed.

(** The three header lines both sides write. *)
Lemma header_lines_printable n : (0 <= n)%Z -> Forall (fun l => l <> [] /\ Forall printable l) (header_lines n).
Proof.
  intros Hn. destruct (show_u64_visible n Hn) as [_ Hv]. unfold header_lines.
  repeat apply Forall_cons_2; [| | |constructor]; (split; [done|]); [printable_lit| |printable_lit].
  apply Forall_app. split; [printable_lit|by apply visible_printable].
Qed.

Lemma content_length_line n :
  split_once x3a (str "Content-Length: " ++ show_u64 n) = Some (str "Content-Length", str " " ++ show_u64 n).
Proof. apply split_once_Some. split; [done|]. apply (bool_decide_unpack _). vm_compute. exact I. Qed.

Lemma host_line host found :
  host <> [] -> Forall Utf8.visible host -> request_line_header (None, found) (str "Host: " ++ host) = Ok (Some host, found).
Proof.
  intros Hne Hv. unfold request_line_header.
  assert (split_once x3a (str "Host: " ++ host) = Some (str "Host", str " " ++ host)) as ->.
  { apply split_once_Some. split; [done|]. apply (bool_decide_unpack _). vm_compute. exact I. }
  cbn [ok_or mbind result_bind]. rewrite visible_trim by done. reflexivity.
Qed.

Lemma length_line host n :
  u64_ok n -> request_line_header (host, None) (str "Content-Length: " ++ show_u64 n) = Ok (host, Some n).
Proof.
  intros Hn. destruct (show_u64_visible n ltac:(apply Hn)) as [Hn0 Hnv].
  unfold request_line_header. rewrite content_length_line. cbn [ok_or mbind result_bind].
  change (eq_ignore_ascii_case (str "Content-Length") (str "host")) with false.
  change (eq_ignore_ascii_case (str "Content-Length") (str "content-length")) with true. cbv iota.
  rewrite visible_trim, parse_show_u64 by done. reflexivity.
Qed.

Lemma request_headers_lines host n :
  u64_ok n -> host <> [] -> Forall Utf8.visible host ->
  request_headers (None, None) ((str "Host: " ++ host) :: header_lines n) = Ok (Some host, Some n).
Proof.
  intros Hn Hne Hv. unfold header_lines. cbn [request_headers]. rewrite host_line by done. cbn [mbind result_bind].
  change (request_line_header (Some host, None) (str "Content-Type: application/x-pkarr-signed-packet"))
    with (Ok (E := RequestError) (Some host, @None Z)). cbn [mbind result_bind]. rewrite length_line by done. reflexivity.
Qed.

Lemma response_lines_found n : u64_ok n -> response_lines None (header_lines n) = Ok (Some n).
Proof.
  intros Hn. destruct (show_u64_visible n ltac:(apply Hn)) as [Hn0 Hnv]. unfold header_lines. cbn [response_lines].
  change (response_line None (str "Content-Type: application/x-pkarr-signed-packet")) with (Ok (E := PinnedHttpErrorKind) (@None Z)).
  cbn [mbind result_bind].
  assert (response_line None (str "Content-Length: " ++ show_u64 n) = Ok (Some n)) as ->; [|reflexivity].
  unfold response_line. rewrite content_length_line. cbn [ok_or mbind result_bind].
  change (eq_ignore_ascii_case (str "Content-Length") (str "transfer-encoding")) with false.
  change (eq_ignore_ascii_case (str "Content-Length") (str "content-length")) with true. cbn [reject_if mbind result_bind].
  rewrite visible_trim, parse_show_u64 by done. reflexivity.
Qed.

Lemma parse_request_line_of method k :
  from_z32 (to_z32 k) = Some k ->
  parse_request_line (method_text method ++ str " " ++ (RECORD_PATH_PREFIX ++ to_z32 k) ++ str " " ++ str "HTTP/1.1")
  = Ok (method, to_z32 k).
Proof.
  intros Hk. destruct (z32_visible k) as [Hz Hzv]. unfold parse_request_line.
  rewrite split_words_space by (apply visible_wordy; [by destruct method|destruct method; repeat constructor; vm_compute; done]).
  rewrite split_words_space.
  2: { apply visible_wordy; [done|]. apply Forall_app. split; [repeat constructor; vm_compute; done|done]. }
  rewrite split_words_end by (apply visible_wordy; [done|repeat constructor; vm_compute; done]).
  cbn [lookup list_lookup]. rewrite (bool_decide_false (Some (str "HTTP/1.1") <> Some (str "HTTP/1.1"))) by auto.
  cbn [orb]. rewrite (bool_decide_false (is_Some None)) by (by intros [? ?]). cbn [reject_if mbind result_bind from_option id].
  assert (parse_method (method_text method) = Some method) as -> by (by destruct method). cbn [ok_or mbind result_bind].
  rewrite strip_prefix_app. cbn [ok_or mbind result_bind]. rewrite Hk. cbn [ok_or mbind result_bind].
  by rewrite (bool_decide_false (to_z32 k <> to_z32 k)) by auto.
Qed.

Lemma show_u64_short n : u64_ok n -> length (show_u64 n) <= 20.
Proof. intros Hn. unfold show_u64. apply (show_dec_fuel_length 20 n []). Qed.

Lemma header_lines_short n l : u64_ok n -> length (l ++ CRLF ++ unlines (header_lines n)) <= length l + 110.
Proof.
  intros Hn. pose proof (show_u64_short n Hn). unfold header_lines. cbn [unlines]. rewrite !length_app. 
  change (length (str "Content-Type: application/x-pkarr-signed-packet")) with 47.
  change (length (str "Content-Length: ")) with 16. change (length (str "Connection: close")) with 17.
  change (length CRLF) with 2. lia.
Qed.

(** Whatever pieces the request arrives in, the authority reads what the client sent. *)
Lemma request_read host method k body conn :
  valid_host host = true -> from_z32 (to_z32 k) = Some k ->
  (Z.of_nat (length body) <= MAX_RELAY_PAYLOAD_BYTES)%Z -> (method = GET -> body = []) ->
  arrives conn (request_text host method (to_z32 k) body ++ body) ->
  read_request host conn = Ok {| rq_method := method; rq_signer := to_z32 k; rq_body := body |}.
Proof.
  intros Hhost Hk Hlen Hget Ha. destruct (valid_host_visible _ Hhost) as [Hh0 Hhv]. destruct (z32_visible k) as [Hz0 Hzv].
  assert (u64_ok (Z.of_nat (length body))) as Hu by (unfold u64_ok, u64_max, MAX_RELAY_PAYLOAD_BYTES, MAX_HTTP_BODY_BYTES in *; lia).
  rewrite request_text_lines, <-!app_assoc in Ha.
  destruct (lines_read (request_lines host method (to_z32 k) body) body conn) as (received & conn' & rest & Hr & Ht & Hb & Ha' & Hutf & Hsplit);
    [done| | |done|].
  { unfold request_lines. constructor; [split; [by destruct method|]|constructor; [split; [done|]|apply header_lines_printable; lia]].
    - rewrite !Forall_app.
      split_and!; [destruct method; printable_lit|printable_lit|printable_lit|by apply visible_printable|printable_lit|printable_lit].
    - apply Forall_app. split; [printable_lit|by apply visible_printable]. }
  { pose proof (z32_short k). pose proof (valid_host_short _ Hhost).
    change (unlines (request_lines host method (to_z32 k) body))
      with ((method_text method ++ str " " ++ (RECORD_PATH_PREFIX ++ to_z32 k) ++ str " " ++ str "HTTP/1.1") ++ CRLF ++
            (str "Host: " ++ host) ++ CRLF ++ unlines (header_lines (Z.of_nat (length body)))).
    pose proof (header_lines_short (Z.of_nat (length body)) (str "Host: " ++ host) Hu) as Hs.
    rewrite !length_app in Hs. rewrite !length_app.
    assert (length (method_text method) = 3) as -> by (by destruct method).
    change (length (str " ")) with 1. change (length RECORD_PATH_PREFIX) with 7. change (length (str "HTTP/1.1")) with 8.
    change (length (str "Host: ")) with 6 in *. change (length CRLF) with 2 in *. unfold MAX_HEADER_BYTES. lia. }
  unfold read_request. rewrite Hr, Ht, Hutf. cbn [negb reject_if mbind result_bind]. rewrite Hsplit.
  change (default [] (head (request_lines host method (to_z32 k) body)))
    with (method_text method ++ str " " ++ (RECORD_PATH_PREFIX ++ to_z32 k) ++ str " " ++ str "HTTP/1.1").
  change (tail (request_lines host method (to_z32 k) body)) with ((str "Host: " ++ host) :: header_lines (Z.of_nat (length body))).
  rewrite parse_request_line_of by done. cbn [mbind result_bind].
  rewrite request_headers_lines by done. cbn [mbind result_bind].
  assert (request_length method (Some (Z.of_nat (length body))) = Ok (Z.of_nat (length body))) as -> by (by destruct method).
  cbn [mbind result_bind]. rewrite (bool_decide_false (Some host <> Some host)) by auto. cbn [reject_if mbind result_bind].
  rewrite (proj2 (Z.ltb_ge MAX_RELAY_PAYLOAD_BYTES (Z.of_nat (length body)))) by done. cbn [reject_if mbind result_bind].
  assert ((Z.of_nat (length body) =? match method with GET => 0 | PUT => Z.of_nat (length body) end)%Z = true) as ->.
  { apply Z.eqb_eq. destruct method; [|done]. by rewrite Hget. }
  cbn [negb reject_if mbind result_bind]. rewrite Nat2Z.id.
  set (b0 := drop (length (unlines (request_lines host method (to_z32 k) body)) + 4) received) in *.
  rewrite (proj2 (Z.ltb_ge (Z.of_nat (length body)) (Z.of_nat (length b0)))). 2: { rewrite Hb, length_app. lia. }
  cbn [reject_if mbind result_bind].
  destruct (read_body_arrives (length body) (length body) b0 conn' rest) as (cn & -> & _); [by rewrite Hb|done|lia|].
  by rewrite <-Hb.
Qed.

(** Answers the client takes: no redirect, a printable reason, a bounded body. *)
Record answer_ok (r : AuthorityResponse) : Prop := {
  ao_status : (200 <= rs_status r < 300 \/ 400 <= rs_status r <= 599)%Z;
  ao_reason : Forall printable (rs_reason r) /\ length (rs_reason r) <= 64;
  ao_body : (Z.of_nat (length (rs_body r)) <= MAX_RELAY_PAYLOAD_BYTES)%Z
}.

Lemma status_line_parts status reason :
  u64_ok status ->
  exists more, split_ascii_whitespace (str "HTTP/1.1" ++ str " " ++ show_u64 status ++ str " " ++ reason)
    = str "HTTP/1.1" :: show_u64 status :: more.
Proof.
  intros Hs. destruct (show_u64_visible status ltac:(apply Hs)) as [H0s Hsv].
  rewrite split_words_space by (apply visible_wordy; [done|repeat constructor; vm_compute; done]).
  rewrite split_words_space by (by apply visible_wordy). eauto.
Qed.

Lemma parse_response_lines r :
  answer_ok r -> split_crlf (unlines (response_text_lines r)) = response_text_lines r ->
  parse_response_headers (unlines (response_text_lines r)) = Ok (rs_status r, Z.of_nat (length (rs_body r))).
Proof.
  intros [Hst _ Hb] Hs.
  unfold parse_response_headers. rewrite Hs.
  change (default [] (head (response_text_lines r))) with (str "HTTP/1.1" ++ str " " ++ show_u64 (rs_status r) ++ str " " ++ rs_reason r).
  change (tail (response_text_lines r)) with (header_lines (Z.of_nat (length (rs_body r)))).
  assert (u64_ok (rs_status r)) as Hu by (unfold u64_ok, u64_max; lia).
  destruct (status_line_parts (rs_status r) (rs_reason r) Hu) as [more ->].
  cbn [head hd_error lookup list_lookup]. rewrite (bool_decide_false (Some (str "HTTP/1.1") <> Some (str "HTTP/1.1"))) by auto.
  cbn [reject_if mbind result_bind ok_or].
  assert (parse_u16 (show_u64 (rs_status r)) = Some (rs_status r)) as ->.
  { unfold parse_u16. rewrite parse_show_u64 by done. cbn. by rewrite (proj2 (Z.leb_le (rs_status r) 65535)) by lia. }
  cbn [ok_or mbind result_bind].
  rewrite (proj2 (Z.leb_le 200 (rs_status r))), (proj2 (Z.leb_le (rs_status r) 599)) by lia. cbn [andb negb reject_if mbind result_bind].
  rewrite response_lines_found; [done|]. unfold u64_ok, u64_max, MAX_RELAY_PAYLOAD_BYTES, MAX_HTTP_BODY_BYTES in *. lia.
Qed.

(** Whatever pieces the answer arrives in, the client reads what the authority wrote. *)
Lemma response_read r conn :
  answer_ok r -> arrives conn (write_response r) ->
  read_response conn = Ok {| ph_status := rs_status r; ph_body := rs_body r |}.
Proof.
  intros Hok Ha. pose proof Hok as [Hst [Hreason Hshort] Hlen].
  assert (u64_ok (rs_status r)) as Hus by (unfold u64_ok, u64_max; lia).
  assert (u64_ok (Z.of_nat (length (rs_body r)))) as Hu by (unfold u64_ok, u64_max, MAX_RELAY_PAYLOAD_BYTES, MAX_HTTP_BODY_BYTES in *; lia).
  rewrite write_response_lines in Ha.
  destruct (lines_read (response_text_lines r) (rs_body r) conn) as (received & conn' & rest & Hr & Ht & Hb & Ha' & Hutf & Hsplit);
    [done| | |done|].
  { unfold response_text_lines. constructor; [split; [done|]|apply header_lines_printable; lia].
    destruct (show_u64_visible (rs_status r) ltac:(lia)) as [_ Hsv].
    rewrite !Forall_app. split_and!; [printable_lit|printable_lit|by apply visible_printable|printable_lit|done]. }
  { change (unlines (response_text_lines r))
      with ((str "HTTP/1.1" ++ str " " ++ show_u64 (rs_status r) ++ str " " ++ rs_reason r) ++ CRLF ++
            unlines (header_lines (Z.of_nat (length (rs_body r))))).
    pose proof (header_lines_short (Z.of_nat (length (rs_body r))) (str "HTTP/1.1" ++ str " " ++ show_u64 (rs_status r) ++ str " " ++ rs_reason r) Hu) as Hs.
    pose proof (show_u64_short _ Hus). rewrite !length_app in Hs. rewrite !length_app.
    change (length (str "HTTP/1.1")) with 8 in *. change (length (str " ")) with 1 in *. unfold MAX_HEADER_BYTES. lia. }
  unfold read_response. rewrite Hr, Ht, Hutf. cbn [negb reject_if mbind result_bind].
  rewrite (parse_response_lines r Hok Hsplit). cbn [mbind result_bind].
  assert ((300 <=? rs_status r)%Z && (rs_status r <? 400)%Z = false) as ->.
  { destruct (Z.leb_spec 300 (rs_status r)); [|done]. destruct (Z.ltb_spec (rs_status r) 400); [lia|done]. }
  cbn [reject_if mbind result_bind].
  rewrite (proj2 (Z.ltb_ge MAX_RELAY_PAYLOAD_BYTES (Z.of_nat (length (rs_body r))))) by done. cbn [reject_if mbind result_bind].
  set (b0 := drop (length (unlines (response_text_lines r)) + 4) received) in *.
  rewrite (proj2 (Z.ltb_ge (Z.of_nat (length (rs_body r))) (Z.of_nat (length b0)))). 2: { rewrite Hb, length_app. lia. }
  cbn [reject_if mbind result_bind]. rewrite Nat2Z.id.
  destruct (read_body_arrives (length (rs_body r)) (length (rs_body r)) b0 conn' rest) as (cn & -> & Hcn); [by rewrite Hb|done|lia|].
  rewrite read_arrives_end by done. by rewrite <-Hb.
Qed.

(** handle_connection around a handler, over a connection that delivers in the
    pieces [cut] makes: a request that cannot be read, or that the handler has
    no answer for, closes the connection. *)
Definition exchange {S : Type} (cut : list byte -> Conn) (host : list byte) (handler : S -> AuthorityRequest -> S * option AuthorityResponse)
    (st : S) (bytes : list byte) : S * Conn :=
  match read_request host (cut bytes) with
  | Err _ => (st, [])
  | Ok rq =>
      let '(st', answer) := handler st rq in
      (st', match answer with Some answer => cut (write_response answer) | None => [] end)
  end.

Lemma exchange_delivers {S : Type} (cut : list byte -> Conn) handler (st : S) host method k body st' answer :
  (forall bytes, arrives (cut bytes) bytes) -> valid_host host = true -> from_z32 (to_z32 k) = Some k ->
  (Z.of_nat (length body) <= MAX_RELAY_PAYLOAD_BYTES)%Z -> (method = GET -> body = []) ->
  handler st {| rq_method := method; rq_signer := to_z32 k; rq_body := body |} = (st', Some answer) -> answer_ok answer ->
  exists conn, exchange cut host handler st (request_text host method (to_z32 k) body ++ body) = (st', conn) /\
    request (fun bytes => Ok (snd (exchange cut host handler st bytes))) host method (to_z32 k) body
    = Ok {| ph_status := rs_status answer; ph_body := rs_body answer |}.
Proof.
  intros Hcut Hhost Hk Hlen Hget Hh Hok.
  assert (exchange cut host handler st (request_text host method (to_z32 k) body ++ body) = (st', cut (write_response answer))) as E.
  { unfold exchange. rewrite (request_read host method k body) by done. by rewrite Hh. }
  exists (cut (write_response answer)). split; [done|]. unfold request, validate_signer_path.
  rewrite Hk. cbn [ok_or mbind result_bind]. rewrite (bool_decide_false (to_z32 k <> to_z32 k)) by auto.
  cbn [reject_if mbind result_bind]. rewrite E. cbn [snd]. by apply response_read.
Qed.

(** Client and authority agree on the wire.  However the bytes are cut in
    either direction, a request the pinned client makes for a signer reaches
    the authority's handler as exactly that method, signer and body, and the
    client returns exactly the status and body the handler answered. *)
Theorem exchange_exact {S : Type} (cut : list byte -> Conn) handler (st : S) host method k body st' answer :
  (forall bytes, arrives (cut bytes) bytes) -> valid_host host = true -> from_z32 (to_z32 k) = Some k ->
  (Z.of_nat (length body) <= MAX_RELAY_PAYLOAD_BYTES)%Z -> (method = GET -> body = []) ->
  handler st {| rq_method := method; rq_signer := to_z32 k; rq_body := body |} = (st', Some answer) -> answer_ok answer ->
  exists conn, exchange cut host handler st (request_text host method (to_z32 k) body ++ body) = (st', conn) /\
    request (fun bytes => Ok (snd (exchange cut host handler st bytes))) host method (to_z32 k) body
    = Ok {| ph_status := rs_status answer; ph_body := rs_body answer |}.
Proof. apply exchange_delivers. Qed.

End wire.
