(* ===== verification/Publisher.v ===== *)
(** * The node publisher: fabric-iroh/src/iroh_publication.rs

    A node signs a record of its locations, makes it durable, sends it to the
    authority, looks it up again and only then calls it committed.  The durable
    state and its anchor are the store of StateDir.v; the authority and the
    clock are the class [Link], behind which anything may happen.

    [pstep] is one event in a publisher's life: an update, a refresh, a
    shutdown, a crash, a start.  Every system call and every exchange with the
    authority may fail, and the process may die in any of them.  A timeout that
    drops a transition is a failure at the exchange it was waiting for.  The
    transition gate serializes the transitions; the desired intent is written
    under its own mutex and read once per transition. *)

From Stdlib Require Import Strings.Byte ZArith Lia.
From stdpp Require Import base gmap numbers strings sorting list.
From S2P Require Import Prelude Hex Text Ids RecordCodec Lan SockAddr NodeRecord StateDir PinnedHttp.

Definition PUBLICATION_STATE_SCHEMA : Z := 1.
Definition MAX_STATE_BYTES : Z := 16 * 1024.
Definition STATE_CHECKSUM_DOMAIN : list byte := str "nix-p2p/iroh-node-publication-state/v1" ++ [x00].
Definition ANCHOR_CHECKSUM_DOMAIN : list byte := str "nix-p2p/iroh-node-publication-anchor/v1" ++ [x00].

(** A `Duration` is a number of nanoseconds. *)
Definition from_secs (s : Z) : Z := s * 1000000000.
Definition DURATION_MAX : Z := u64_max * 1000000000 + 999999999.
Definition saturating_mul (d k : Z) : Z := Z.min DURATION_MAX (d * k).
Definition saturating_add (d e : Z) : Z := Z.min DURATION_MAX (d + e).
Definition as_secs (d : Z) : Z := d / 1000000000.
Definition PUBLICATION_TRANSITION_DEADLINE : Z := from_secs 5.
Definition PUBLICATION_COMPLETION_MARGIN : Z := from_secs 1.

Inductive PublicationErrorKind := KConfiguration | KState | KTransport | KAuthority | KVisibility | KInjectedCrash | KClosed.
#[export] Instance PublicationErrorKind_eq_dec : EqDecision PublicationErrorKind.
Proof. solve_decision. Defined.

Definition publication_retry_reserve (request_deadline : Z) : Z :=
  Z.min PUBLICATION_TRANSITION_DEADLINE (saturating_mul request_deadline 4).
Definition single_submission_bound (request_deadline : Z) : Z :=
  Z.min PUBLICATION_TRANSITION_DEADLINE (saturating_mul request_deadline 2).
Definition duration_micros (duration : Z) : result PublicationErrorKind Z :=
  let micros := (duration / 1000)%Z in _ ← reject_if (u64_max <? micros)%Z KConfiguration; Ok micros.

(** ** Configuration *)

Inductive PublicationAuthorityAuthorization :=
| LocalProductionShaped (owner : list byte)
| ExternalAuthorized (owner authorization_reference : list byte).

Record NodePublicationConfig := {
  pc_namespace : list byte;
  pc_signed_recipient : list byte;
  pc_authority_recipient : SocketAddr;
  pc_authority_host : list byte;
  pc_authorization : PublicationAuthorityAuthorization;
  pc_ttl : Z;
  pc_refresh_interval : Z;
  pc_request_deadline : Z;
  pc_initial_locations : list NodeLocation;
  pc_relay_locations_allowed : bool
}.

Definition is_public_ip (ip : IpAddr) : bool :=
  match ip with
  | V4 ip => negb (v4_is_private ip || v4_is_loopback ip || v4_is_link_local ip || v4_is_unspecified ip)
  | V6 ip =>
      negb (v6_is_loopback ip || v6_is_unicast_link_local ip || (Z.land (v6_segment0 ip) 0xfe00 =? 0xfc00)%Z
            || v6_is_unspecified ip)
  end.

(** PublicationAuthorityAuthorization::validate: an external authority is
    always refused. *)
Definition authorization_validate (a : PublicationAuthorityAuthorization) (recipient : SocketAddr) : result PublicationErrorKind unit :=
  match a with
  | LocalProductionShaped owner =>
      _ ← reject_if (negb (valid_owner owner)) KConfiguration;
      reject_if (is_public_ip (sock_ip recipient)) KConfiguration
  | ExternalAuthorized owner reference =>
      _ ← reject_if (negb (valid_owner owner)) KConfiguration;
      _ ← reject_if (Text.is_blank reference || (256 <? length reference) || has_control reference) KConfiguration;
      Err KConfiguration
  end.

Definition is_relay (l : NodeLocation) : bool := match l with Relay _ => true | Direct _ => false end.

(** ** Stored state *)

Inductive StoredRecordKind := StoredLive | StoredWithdrawn.
#[export] Instance StoredRecordKind_eq_dec : EqDecision StoredRecordKind.
Proof. solve_decision. Defined.
Definition kind_of (s : PublicationState) : StoredRecordKind := match s with Live => StoredLive | Withdrawn => StoredWithdrawn end.

Record StoredPacket := {
  sp_sequence : Z;
  sp_desired_revision : Z;
  sp_expires_unix_micros : Z;
  sp_kind : StoredRecordKind;
  sp_packet_hex : list byte
}.
#[export] Instance StoredPacket_eq_dec : EqDecision StoredPacket.
Proof. solve_decision. Defined.

Inductive StoredDesiredLocation := StoredDirect (a : SocketAddr) | StoredRelay (url : list byte).
#[export] Instance StoredDesiredLocation_eq_dec : EqDecision StoredDesiredLocation.
Proof. solve_decision. Defined.
Definition stored_of (l : NodeLocation) : StoredDesiredLocation :=
  match l with Direct a => StoredDirect a | Relay u => StoredRelay u end.

Record PublicationStateBody := {
  ps_schema_version : Z;
  ps_node_id_hex : list byte;
  ps_namespace : list byte;
  ps_signed_recipient : list byte;
  ps_desired_revision : Z;
  ps_desired_locations : list StoredDesiredLocation;
  ps_high_water_sequence : Z;
  ps_committed : option StoredPacket;
  ps_pending : option StoredPacket
}.

Record PublicationAnchorBody := {
  pa_schema_version : Z;
  pa_node_id_hex : list byte;
  pa_namespace : list byte;
  pa_signed_recipient : list byte;
  pa_desired_revision : Z;
  pa_desired_locations_blake3_hex : list byte;
  pa_high_water_sequence : Z;
  pa_latest_packet_sequence : option Z;
  pa_latest_packet_blake3_hex : option (list byte);
  pa_latest_packet_committed : bool
}.
#[export] Instance PublicationAnchorBody_eq_dec : EqDecision PublicationAnchorBody.
Proof. solve_decision. Defined.

Definition DESIRED_ANCHOR_HASH_DOMAIN : list byte := str "nix-p2p/iroh-node-publication-anchor/desired-locations/v1" ++ [x00].

Definition last_sequence (b : PublicationStateBody) : option Z :=
  if (ps_high_water_sequence b =? 0)%Z then None else Some (ps_high_water_sequence b).

Definition next_sequence (now : Z) (high_water : option Z) : result PublicationErrorKind Z :=
  match high_water with
  | Some high_water => if (high_water =? u64_max)%Z then Err KState else Ok (now `max` (high_water + 1))%Z
  | None => Ok now
  end.

(** The candidates the transitions write. *)
Definition with_packets (b : PublicationStateBody) (high_water : Z) (committed pending : option StoredPacket) : PublicationStateBody :=
  {| ps_schema_version := ps_schema_version b; ps_node_id_hex := ps_node_id_hex b; ps_namespace := ps_namespace b;
     ps_signed_recipient := ps_signed_recipient b; ps_desired_revision := ps_desired_revision b;
     ps_desired_locations := ps_desired_locations b; ps_high_water_sequence := high_water;
     ps_committed := committed; ps_pending := pending |}.
Definition with_desired (b : PublicationStateBody) (revision : Z) (locations : list StoredDesiredLocation) : PublicationStateBody :=
  {| ps_schema_version := ps_schema_version b; ps_node_id_hex := ps_node_id_hex b; ps_namespace := ps_namespace b;
     ps_signed_recipient := ps_signed_recipient b; ps_desired_revision := revision;
     ps_desired_locations := locations; ps_high_water_sequence := ps_high_water_sequence b;
     ps_committed := ps_committed b; ps_pending := ps_pending b |}.

(** The packet the anchor records: the pending one before the committed one. *)
Definition latest (b : PublicationStateBody) : option (StoredPacket * bool) :=
  match ps_pending b with
  | Some p => Some (p, false)
  | None => (fun c => (c, true)) <$> ps_committed b
  end.

Definition desired_state (locations : list NodeLocation) : PublicationState :=
  if bool_decide (locations = []) then Withdrawn else Live.

Section state.
Context `{Ed25519, Pkarr, Dns, Urls, Blake3Hex, Json (list StoredDesiredLocation)}.
Context `{Json PublicationStateBody, Json (Envelope PublicationStateBody)}.
Context `{Json PublicationAnchorBody, Json (Envelope PublicationAnchorBody)}.

Definition canonical_locations (locations : list NodeLocation) : result PublicationErrorKind (list NodeLocation) :=
  _ ← map_err (fun _ => KConfiguration) (validate_all locations);
  let locations := sort_dedup locations in
  _ ← reject_if (MAX_NODE_LOCATIONS <? length locations) KConfiguration;
  Ok locations.

(** NodePublicationConfig::new *)
Definition config_new (namespace signed_recipient : list byte) (authority_recipient : SocketAddr) (authority_host : list byte)
    (authorization : PublicationAuthorityAuthorization) (ttl refresh_interval request_deadline : Z)
    (initial_locations : list NodeLocation) : result PublicationErrorKind NodePublicationConfig :=
  _ ← map_err (fun _ => KConfiguration) (validate_namespace namespace);
  _ ← map_err (fun _ => KConfiguration) (validate_recipient signed_recipient);
  endpoint ← map_err (fun _ => KConfiguration) (endpoint_new authority_recipient authority_host);
  _ ← authorization_validate authorization (ep_recipient endpoint);
  _ ← reject_if ((as_secs ttl =? 0)%Z || negb (ttl mod 1000000000 =? 0)%Z || (u32_max <? as_secs ttl)%Z) KConfiguration;
  _ ← reject_if ((refresh_interval =? 0)%Z || (ttl <=? refresh_interval)%Z) KConfiguration;
  _ ← reject_if ((request_deadline =? 0)%Z || (PUBLICATION_TRANSITION_DEADLINE / 2 <? request_deadline)%Z) KConfiguration;
  let retry_reserve := publication_retry_reserve request_deadline in
  let minimum_safe_ttl :=
    (saturating_add (saturating_mul retry_reserve 2) PUBLICATION_COMPLETION_MARGIN
     `max` saturating_add (saturating_add refresh_interval retry_reserve) PUBLICATION_COMPLETION_MARGIN)%Z in
  _ ← reject_if (ttl <=? minimum_safe_ttl)%Z KConfiguration;
  initial_locations ← canonical_locations initial_locations;
  _ ← reject_if (bool_decide (initial_locations = [])) KConfiguration;
  Ok {| pc_namespace := namespace; pc_signed_recipient := signed_recipient;
        pc_authority_recipient := ep_recipient endpoint; pc_authority_host := authority_host;
        pc_authorization := authorization; pc_ttl := ttl; pc_refresh_interval := refresh_interval;
        pc_request_deadline := request_deadline; pc_initial_locations := initial_locations;
        pc_relay_locations_allowed := false |}.

Definition to_location (l : StoredDesiredLocation) : result PublicationErrorKind NodeLocation :=
  map_err (fun _ => KConfiguration)
    (match l with StoredDirect a => NodeLocation_direct a | StoredRelay u => NodeLocation_relay u end).
Fixpoint to_locations (ls : list StoredDesiredLocation) : result PublicationErrorKind (list NodeLocation) :=
  match ls with [] => Ok [] | l :: t => x ← to_location l; xs ← to_locations t; Ok (x :: xs) end.
Definition desired_locations (b : PublicationStateBody) : result PublicationErrorKind (list NodeLocation) :=
  locations ← to_locations (ps_desired_locations b); canonical_locations locations.

Definition encode_state : PublicationStateBody -> result StoreError (list byte) := encode_envelope STATE_CHECKSUM_DOMAIN MAX_STATE_BYTES.
Definition decode_state : list byte -> result StoreError PublicationStateBody := decode_envelope STATE_CHECKSUM_DOMAIN.
Definition encode_anchor : PublicationAnchorBody -> result StoreError (list byte) := encode_envelope ANCHOR_CHECKSUM_DOMAIN MAX_STATE_BYTES.
Definition decode_anchor : list byte -> result StoreError PublicationAnchorBody := decode_envelope ANCHOR_CHECKSUM_DOMAIN.

(** PublicationAnchorBody::from_state *)
Definition from_state (state : PublicationStateBody) : result StoreError PublicationAnchorBody :=
  desired_bytes ← ok_or (to_vec (ps_desired_locations state)) Encoding;
  '(sequence, hash, committed) ←
    match latest state with
    | Some (packet, committed) =>
        bytes ← decode_hex MAX_BYTES (sp_packet_hex packet);
        Ok (Some (sp_sequence packet), Some (blake3_hex bytes), committed)
    | None => Ok (None, None, false)
    end;
  Ok {| pa_schema_version := ps_schema_version state; pa_node_id_hex := ps_node_id_hex state;
        pa_namespace := ps_namespace state; pa_signed_recipient := ps_signed_recipient state;
        pa_desired_revision := ps_desired_revision state;
        pa_desired_locations_blake3_hex := blake3_hex (DESIRED_ANCHOR_HASH_DOMAIN ++ desired_bytes);
        pa_high_water_sequence := ps_high_water_sequence state;
        pa_latest_packet_sequence := sequence; pa_latest_packet_blake3_hex := hash; pa_latest_packet_committed := committed |}.

(** The checks of validate_or_initialize_anchor. *)
Definition check_anchor (current anchor : PublicationAnchorBody) : result StoreError unit :=
  _ ← reject_if (negb (pa_schema_version anchor =? pa_schema_version current)%Z
                 || bool_decide (pa_node_id_hex anchor <> pa_node_id_hex current)
                 || bool_decide (pa_namespace anchor <> pa_namespace current)
                 || bool_decide (pa_signed_recipient anchor <> pa_signed_recipient current)) AnchorIdentity;
  _ ← reject_if ((pa_high_water_sequence current <? pa_high_water_sequence anchor)%Z
                 || (pa_desired_revision current <? pa_desired_revision anchor)%Z) AnchorAhead;
  _ ← reject_if ((pa_desired_revision current =? pa_desired_revision anchor)%Z
                 && bool_decide (pa_desired_locations_blake3_hex current <> pa_desired_locations_blake3_hex anchor)) AnchorAhead;
  if (pa_high_water_sequence current =? pa_high_water_sequence anchor)%Z then
    let packet_changed := bool_decide (pa_latest_packet_sequence current <> pa_latest_packet_sequence anchor)
                          || bool_decide (pa_latest_packet_blake3_hex current <> pa_latest_packet_blake3_hex anchor) in
    let legitimately_retired_pending :=
      negb (pa_latest_packet_committed anchor)
      && bool_decide (pa_latest_packet_sequence anchor = Some (pa_high_water_sequence anchor))
      && bool_decide (pa_latest_packet_sequence current <> Some (pa_high_water_sequence current)) in
    _ ← reject_if (packet_changed && negb legitimately_retired_pending) AnchorAhead;
    reject_if (pa_latest_packet_committed anchor && negb (pa_latest_packet_committed current)
               && bool_decide (pa_latest_packet_sequence current = pa_latest_packet_sequence anchor)) AnchorAhead
  else Ok tt.

Context (euid : Z) (key : SigningKey) (config : NodePublicationConfig).

Definition node_id : NodeId := NodeId_from_bytes (verifying_key key).

Definition fresh : PublicationStateBody :=
  {| ps_schema_version := PUBLICATION_STATE_SCHEMA; ps_node_id_hex := NodeId_to_hex node_id;
     ps_namespace := pc_namespace config; ps_signed_recipient := pc_signed_recipient config;
     ps_desired_revision := 1; ps_desired_locations := stored_of <$> pc_initial_locations config;
     ps_high_water_sequence := 0; ps_committed := None; ps_pending := None |}.

(** One stored packet against the state and the configuration. *)
Definition validate_stored (b : PublicationStateBody) (locations : list NodeLocation) (stored : StoredPacket) : result StoreError unit :=
  bytes ← decode_hex MAX_BYTES (sp_packet_hex stored);
  record ← map_err (fun _ => StateDir.StoredPacket) (decode_node_record bytes);
  reject_if (bool_decide (nr_node_id record <> node_id)
             || bool_decide (nr_namespace record <> pc_namespace config)
             || bool_decide (nr_recipient record <> pc_signed_recipient config)
             || negb (nr_sequence record =? sp_sequence stored)%Z
             || (ps_desired_revision b <? sp_desired_revision stored)%Z
             || negb (nr_expires_unix_micros record =? sp_expires_unix_micros stored)%Z
             || bool_decide (kind_of (nr_state record) <> sp_kind stored)
             || (sp_desired_revision stored =? ps_desired_revision b)%Z
                && (bool_decide (nr_state record <> desired_state locations) || bool_decide (nr_locations record <> locations))
             || negb (pc_relay_locations_allowed config) && existsb is_relay (nr_locations record)) StateMismatch.

Definition optional {A} (o : option A) (f : A -> result StoreError unit) : result StoreError unit :=
  match o with Some a => f a | None => Ok tt end.

Definition validate_loaded_state (b : PublicationStateBody) : result StoreError unit :=
  _ ← reject_if (negb (ps_schema_version b =? PUBLICATION_STATE_SCHEMA)%Z
                 || bool_decide (ps_node_id_hex b <> NodeId_to_hex node_id)
                 || bool_decide (ps_namespace b <> pc_namespace config)
                 || bool_decide (ps_signed_recipient b <> pc_signed_recipient config)) StateMismatch;
  locations ← map_err (fun _ => DesiredInvalid) (desired_locations b);
  _ ← reject_if (ps_desired_revision b =? 0)%Z StateMismatch;
  _ ← reject_if (negb (pc_relay_locations_allowed config) && existsb is_relay locations) StateMismatch;
  _ ← optional (ps_committed b) (validate_stored b locations);
  _ ← optional (ps_pending b) (validate_stored b locations);
  _ ← match ps_committed b, ps_pending b with
      | Some committed, Some pending => reject_if (sp_sequence pending <=? sp_sequence committed)%Z StateMismatch
      | _, _ => Ok tt
      end;
  _ ← optional (ps_committed b) (fun p => reject_if (ps_high_water_sequence b <? sp_sequence p)%Z StateMismatch);
  optional (ps_pending b) (fun p => reject_if (ps_high_water_sequence b <? sp_sequence p)%Z StateMismatch).

Definition store_write : PublicationStateBody -> M unit := write euid MAX_STATE_BYTES encode_state encode_anchor from_state.

Definition prepare_state (loaded : option PublicationStateBody) : result StoreError PublicationStateBody :=
  match loaded with
  | Some body => _ ← validate_loaded_state body; Ok body
  | None => Ok fresh
  end.

(** PublicationStateStore::open *)
Definition open : M PublicationStateBody :=
  acquire_lock;;;
  loaded <- load euid MAX_STATE_BYTES decode_state encode_anchor decode_anchor from_state check_anchor prepare_state;;
  let '(body, had_state) := loaded in
  if had_state then m_ret body else store_write body;;; m_ret body.

End state.

(** ** Operations *)

(** A receipt; the elapsed times are not modelled. *)
Record PublicationReceipt := { rc_record : NodeRecord; rc_reused_committed_packet : bool }.

Inductive PublicationFailpoint := NoFailpoint | AfterPendingPersist | AfterPutBeforeCommit.
#[export] Instance PublicationFailpoint_eq_dec : EqDecision PublicationFailpoint.
Proof. solve_decision. Defined.

(** The authority behind the HTTP client, and the clock; [N] is whatever state
    they have. *)
Class Link (N : Type) := {
  link_put : list byte -> list byte -> N -> N * result PinnedHttpErrorKind PinnedHttpResponse;
  link_get : list byte -> N -> N * result PinnedHttpErrorKind PinnedHttpResponse;
  link_now : N -> N * option Z
}.

(** What may happen to an exchange: it goes through, it breaks, a deadline or
    (with [true]) the closing publisher drops the future that waits for it, or
    the process dies. *)
Inductive Wire := Through | Broken | Cut (closing : bool) | Killed.

Inductive ending (A : Type) := Done (a : A) | Failed (e : PublicationErrorKind) | Dropped (closing : bool) | Gone.
Arguments Done {A} a.
Arguments Failed {A} e.
Arguments Dropped {A} closing.
Arguments Gone {A}.

(** PublisherInner, with the world it acts on and, in [r_sent], every packet it
    ever handed to the client. *)
Record Run {N : Type} := {
  r_world : World;
  r_state : PublicationStateBody;
  r_intent : Z * list NodeLocation;
  r_closing : bool;
  r_fatal : option PublicationErrorKind;
  r_net : N;
  r_wire : list Wire;
  r_sent : list (list byte)
}.
Arguments Run N : clear implicits.

Section operations.
Context `{Ed25519, Pkarr, Dns, Urls, Blake3Hex, Json (list StoredDesiredLocation)}.
Context `{Json PublicationStateBody, Json (Envelope PublicationStateBody)}.
Context `{Json PublicationAnchorBody, Json (Envelope PublicationAnchorBody)}.
Context {N : Type} `{Link N}.
Context (euid : Z) (key : SigningKey) (config : NodePublicationConfig).

Definition PM (A : Type) : Type := Run N -> Run N * ending A.
Definition p_ret {A} (a : A) : PM A := fun r => (r, Done a).
Definition p_throw {A} (e : PublicationErrorKind) : PM A := fun r => (r, Failed e).
Definition p_bind {A B} (c : PM A) (k : A -> PM B) : PM B := fun r =>
  match c r with
  | (r', Done a) => k a r'
  | (r', Failed e) => (r', Failed e)
  | (r', Dropped closing) => (r', Dropped closing)
  | (r', Gone) => (r', Gone)
  end.
#[local] Notation "'let*' x := c 'in' k" := (p_bind c (fun x => k)) (at level 200, x binder, c at level 200, k at level 200).

Definition p_lift {A} (c : result PublicationErrorKind A) : PM A :=
  match c with Ok a => p_ret a | Err e => p_throw e end.
Definition p_guard (refuse : bool) (e : PublicationErrorKind) : PM unit := p_lift (reject_if refuse e).
Definition p_get {A} (f : Run N -> A) : PM A := fun r => (r, Done (f r)).

Definition with_world (r : Run N) (w : World) : Run N :=
  {| r_world := w; r_state := r_state r; r_intent := r_intent r; r_closing := r_closing r; r_fatal := r_fatal r;
     r_net := r_net r; r_wire := r_wire r; r_sent := r_sent r |}.
Definition with_state (r : Run N) (b : PublicationStateBody) : Run N :=
  {| r_world := r_world r; r_state := b; r_intent := r_intent r; r_closing := r_closing r; r_fatal := r_fatal r;
     r_net := r_net r; r_wire := r_wire r; r_sent := r_sent r |}.
Definition with_intent (r : Run N) (i : Z * list NodeLocation) : Run N :=
  {| r_world := r_world r; r_state := r_state r; r_intent := i; r_closing := r_closing r; r_fatal := r_fatal r;
     r_net := r_net r; r_wire := r_wire r; r_sent := r_sent r |}.
Definition with_closing (r : Run N) : Run N :=
  {| r_world := r_world r; r_state := r_state r; r_intent := r_intent r; r_closing := true; r_fatal := r_fatal r;
     r_net := r_net r; r_wire := r_wire r; r_sent := r_sent r |}.
Definition with_fatal (r : Run N) (e : PublicationErrorKind) : Run N :=
  {| r_world := r_world r; r_state := r_state r; r_intent := r_intent r; r_closing := r_closing r; r_fatal := Some e;
     r_net := r_net r; r_wire := r_wire r; r_sent := r_sent r |}.
Definition with_net (r : Run N) (n : N) (wire : list Wire) (sent : list (list byte)) : Run N :=
  {| r_world := r_world r; r_state := r_state r; r_intent := r_intent r; r_closing := r_closing r; r_fatal := r_fatal r;
     r_net := n; r_wire := wire; r_sent := sent |}.

(** A call of the store. *)
Definition store_kind (e : StoreError) : PublicationErrorKind :=
  match e with DesiredInvalid => KConfiguration | _ => KState end.
Definition on_store {A} (c : M A) : PM A := fun r =>
  let '(w, o) := c (r_world r) in
  (with_world r w, match o with Ret a => Done a | Throw e => Failed (store_kind e) | StateDir.Died => Gone end).
(** `self.store.write(&candidate)?; *state = candidate;` *)
Definition replace_state (candidate : PublicationStateBody) : PM unit :=
  let* _ := on_store (store_write euid candidate) in fun r => (with_state r candidate, Done tt).
Definition store_healthy : PM unit := on_store ensure_healthy.

(** One point at which the exchange may break, be dropped or die. *)
Definition on_wire : PM unit := fun r =>
  match r_wire r with
  | [] => (r, Done tt)
  | e :: wire =>
      (with_net r (r_net r) wire (r_sent r),
       match e with Through => Done tt | Broken => Failed KTransport | Cut closing => Dropped closing | Killed => Gone end)
  end.
Definition answered (a : result PinnedHttpErrorKind PinnedHttpResponse) : PM PinnedHttpResponse :=
  p_lift (map_err (fun _ => KTransport) a).

Definition wall_unix_micros : PM Z := fun r =>
  let '(n, now) := link_now (r_net r) in
  (with_net r n (r_wire r) (r_sent r), match now with Some now => Done now | None => Failed KState end).

Definition signer : list byte := to_z32 (verifying_key key).

Definition put_exact (bytes : list byte) : PM unit :=
  let* _ := on_wire in
  let* a := fun r => let '(n, a) := link_put signer bytes (r_net r) in (with_net r n (r_wire r) (r_sent r ++ [bytes]), Done a) in
  let* _ := on_wire in
  let* response := answered a in
  p_guard (negb ((200 <=? ph_status response)%Z && (ph_status response <? 300)%Z)) KAuthority.

Definition verify_visible (expected : list byte) : PM unit :=
  let* _ := on_wire in
  let* a := fun r => let '(n, a) := link_get signer (r_net r) in (with_net r n (r_wire r) (r_sent r), Done a) in
  let* _ := on_wire in
  let* response := answered a in
  let* _ := p_guard (negb (ph_status response =? 200)%Z) KVisibility in
  let* _ := p_guard (bool_decide (ph_body response <> expected)) KVisibility in
  let* record := p_lift (map_err (fun _ => KVisibility) (decode_node_record (ph_body response))) in
  p_guard (bool_decide (nr_node_id record <> node_id key) || bool_decide (nr_namespace record <> pc_namespace config)
           || bool_decide (nr_recipient record <> pc_signed_recipient config)) KVisibility.

Definition stored_bytes (p : StoredPacket) : PM (list byte) :=
  p_lift (map_err (fun _ => KState) (decode_hex MAX_BYTES (sp_packet_hex p))).

Definition submit_pending (failpoint : PublicationFailpoint) : PM PublicationReceipt :=
  let* state := p_get r_state in
  let* pending := p_lift (ok_or (ps_pending state) KState) in
  let* bytes := stored_bytes pending in
  let* _ := put_exact bytes in
  let* _ := p_guard (bool_decide (failpoint = AfterPutBeforeCommit)) KInjectedCrash in
  let* _ := verify_visible bytes in
  let* record := p_lift (map_err (fun _ => KState) (decode_node_record bytes)) in
  let* _ := replace_state (with_packets state (ps_high_water_sequence state) (Some pending) None) in
  p_ret {| rc_record := record; rc_reused_committed_packet := false |}.

(** `candidate.pending = None` *)
Definition retire_pending : PM unit :=
  let* state := p_get r_state in
  replace_state (with_packets state (ps_high_water_sequence state) (ps_committed state) None).

Definition completion_reserve : Z :=
  saturating_add (publication_retry_reserve (pc_request_deadline config)) PUBLICATION_COMPLETION_MARGIN.
Definition reusable_start_margin : Z := saturating_add (single_submission_bound (pc_request_deadline config)) completion_reserve.

Definition recover_pending (failpoint : PublicationFailpoint) : PM (option PublicationReceipt) :=
  let* state := p_get r_state in
  match ps_pending state with
  | None => p_ret None
  | Some pending =>
      if (sp_desired_revision pending <? ps_desired_revision state)%Z then
        let* _ := retire_pending in p_ret None
      else
        let* now := wall_unix_micros in
        let minimum_remaining :=
          saturating_add (saturating_add (single_submission_bound (pc_request_deadline config))
                            (publication_retry_reserve (pc_request_deadline config))) PUBLICATION_COMPLETION_MARGIN in
        let* minimum := p_lift (duration_micros minimum_remaining) in
        if (u64_saturating_sub (sp_expires_unix_micros pending) now <=? minimum)%Z then
          let* _ := retire_pending in p_ret None
        else
          let* receipt := submit_pending failpoint in p_ret (Some receipt)
  end.

(** `self.config.ttl.as_secs() as u32` *)
Definition ttl_seconds : Z := as_secs (pc_ttl config) mod 2 ^ 32.

(** Whether a record is what the caller wants for long enough. *)
Definition suits (record : NodeRecord) (locations : list NodeLocation) (now margin : Z) : bool :=
  bool_decide (nr_state record = desired_state locations) && bool_decide (nr_locations record = locations)
  && (nr_ttl_seconds record =? ttl_seconds)%Z
  && (margin <? u64_saturating_sub (nr_expires_unix_micros record) now)%Z.

(** The reuse of the committed packet: [None] when it does not suit. *)
Definition reuse_committed (locations : list NodeLocation) (now margin : Z) : PM (option PublicationReceipt) :=
  let* state := p_get r_state in
  match ps_committed state with
  | None => p_ret None
  | Some committed =>
      let* bytes := stored_bytes committed in
      let* record := p_lift (map_err (fun _ => KState) (decode_node_record bytes)) in
      if suits record locations now margin then
        let* _ := put_exact bytes in
        let* _ := verify_visible bytes in
        p_ret (Some {| rc_record := record; rc_reused_committed_packet := true |})
      else p_ret None
  end.

(** The packet a new transition prepares and the state that makes it durable. *)
Definition prepare_pending (state : PublicationStateBody) (locations : list NodeLocation) (now : Z) :
    result PublicationErrorKind PublicationStateBody :=
  sequence ← next_sequence now (last_sequence state);
  ttl_micros ← duration_micros (pc_ttl config);
  expires ← ok_or (u64_checked_add sequence ttl_micros) KState;
  packet ← map_err (fun _ => KState)
             (encode_node_record key (pc_namespace config) (pc_signed_recipient config) ttl_seconds
                sequence expires (desired_state locations) locations);
  Ok (with_packets state sequence (ps_committed state)
        (Some {| sp_sequence := sequence; sp_desired_revision := ps_desired_revision state;
                 sp_expires_unix_micros := expires; sp_kind := kind_of (desired_state locations);
                 sp_packet_hex := encode_hex (as_bytes packet) |})).

(** The second half of transition_locked: reuse, or a new packet. *)
Definition transition_anew (locations : list NodeLocation) (now margin : Z) (failpoint : PublicationFailpoint) : PM PublicationReceipt :=
  let* reused := reuse_committed locations now margin in
  match reused with
  | Some receipt => p_ret receipt
  | None =>
      let* state := p_get r_state in
      let* candidate := p_lift (prepare_pending state locations now) in
      let* _ := replace_state candidate in
      let* _ := p_guard (bool_decide (failpoint = AfterPendingPersist)) KInjectedCrash in
      submit_pending failpoint
  end.

Definition transition_locked (locations : list NodeLocation) (failpoint : PublicationFailpoint) (recover : bool) : PM PublicationReceipt :=
  let* _ := store_healthy in
  let* state := p_get r_state in
  let* recovered :=
    if recover then recover_pending failpoint
    else if bool_decide (is_Some (ps_pending state)) then let* _ := retire_pending in p_ret None
    else p_ret None in
  let* now := wall_unix_micros in
  let* completion_reserve_micros := p_lift (duration_micros completion_reserve) in
  let* reusable_start_margin_micros := p_lift (duration_micros reusable_start_margin) in
  match recovered with
  | Some receipt =>
      if suits (rc_record receipt) locations now completion_reserve_micros then p_ret receipt
      else transition_anew locations now reusable_start_margin_micros failpoint
  | None => transition_anew locations now reusable_start_margin_micros failpoint
  end.

(** `if closing { return Err(Closed) }` *)
Definition refuse_closing : PM unit := let* closing := p_get r_closing in p_guard closing KClosed.

Definition validate_desired_locations (locations : list NodeLocation) : result PublicationErrorKind (list NodeLocation) :=
  locations ← canonical_locations locations;
  _ ← reject_if (negb (pc_relay_locations_allowed config) && existsb is_relay locations) KConfiguration;
  Ok locations.

Definition update_desired_intent (desired : Z * list NodeLocation) (locations : list NodeLocation) :
    result PublicationErrorKind (Z * list NodeLocation) :=
  if bool_decide (desired.2 = locations) then Ok desired
  else revision ← ok_or (u64_checked_add desired.1 1) KState; Ok (revision, locations).

Definition set_intent (locations : list NodeLocation) : PM unit :=
  let* desired := p_get r_intent in
  let* desired := p_lift (update_desired_intent desired locations) in
  fun r => (with_intent r desired, Done tt).
Definition record_desired_intent (locations : list NodeLocation) : PM unit :=
  let* _ := refuse_closing in set_intent locations.
Definition record_shutdown_intent : PM unit :=
  let* _ := fun r => (with_closing r, Done tt) in set_intent [].

Definition persist_latest_desired : PM (list NodeLocation) :=
  let* intent := p_get r_intent in
  let* state := p_get r_state in
  let* _ := if (ps_desired_revision state <? intent.1)%Z
            then replace_state (with_desired state intent.1 (stored_of <$> intent.2)) else p_ret tt in
  let* state := p_get r_state in
  p_lift (desired_locations state).

Definition transition_recorded (failpoint : PublicationFailpoint) : PM PublicationReceipt :=
  let* _ := refuse_closing in
  let* locations := persist_latest_desired in
  transition_locked locations failpoint true.

Definition intend (locations : list NodeLocation) : PM unit :=
  let* _ := refuse_closing in
  let* locations := p_lift (validate_desired_locations locations) in
  record_desired_intent locations.

Definition transition (locations : list NodeLocation) (failpoint : PublicationFailpoint) : PM PublicationReceipt :=
  let* _ := intend locations in transition_recorded failpoint.

(** refresh_current; the gate is taken between the two looks at `closing`. *)
Definition refresh_current : PM PublicationReceipt :=
  let* _ := refuse_closing in transition_recorded NoFailpoint.

(** `match first { Ok(receipt) => .., Err(_) => second }` *)
Definition or_else {A} (first second : PM A) : PM A := fun r =>
  match first r with (r', Failed _) => second r' | result => result end.
(** `timeout_at(..)` around the waiting. *)
Definition in_time {A} (c : PM A) : PM A := fun r =>
  match c r with (r', Dropped closing) => (r', Failed (if closing then KClosed else KTransport)) | result => result end.

Definition refresh_with_retry : PM PublicationReceipt := in_time (or_else refresh_current refresh_current).

(** NodePublicationHandle::update_locations *)
Definition update_locations (locations : list NodeLocation) : PM PublicationReceipt :=
  let* _ := intend locations in in_time (or_else (transition_recorded NoFailpoint) refresh_current).

Definition withdraw_for_shutdown : PM PublicationReceipt :=
  let* _ := record_shutdown_intent in
  let* locations := persist_latest_desired in
  let* _ := p_guard (bool_decide (locations <> [])) KState in
  transition_locked locations NoFailpoint false.

Definition shutdown : PM PublicationReceipt :=
  in_time (let* _ := fun r => (with_closing r, Done tt) in withdraw_for_shutdown).

(** One turn of the refresh task after its sleep: a failure is fatal. *)
Definition mark_fatal (e : PublicationErrorKind) : PM unit := fun r =>
  (match r_fatal r with None => with_fatal r e | Some _ => r end, Done tt).
Definition refresh_turn : PM PublicationReceipt := fun r =>
  match refresh_with_retry r with
  | (r', Failed e) => p_bind (mark_fatal e) (fun _ => p_throw e) r'
  | result => result
  end.

Definition refresh_delay (record : NodeRecord) (configured_interval transition_reserve wall : Z) : result PublicationErrorKind Z :=
  let remaining_micros := u64_saturating_sub (nr_expires_unix_micros record) wall in
  reserve_micros ← duration_micros (saturating_add transition_reserve PUBLICATION_COMPLETION_MARGIN);
  Ok (configured_interval `min` (u64_saturating_sub remaining_micros reserve_micros * 1000))%Z.

(** NodePublicationHandle::current_record *)
Definition current_record : PM (option NodeRecord) :=
  let* _ := refuse_closing in
  let* fatal := p_get r_fatal in
  let* _ := match fatal with Some e => p_throw e | None => p_ret tt end in
  let* _ := store_healthy in
  let* state := p_get r_state in
  match ps_committed state with
  | None => p_ret None
  | Some stored =>
      let* bytes := stored_bytes stored in
      let* record := p_lift (map_err (fun _ => KState) (decode_node_record bytes)) in
      let* now := wall_unix_micros in
      let* _ := p_guard (negb (is_visible_at record now)) KState in
      p_ret (Some record)
  end.

(** PublisherInner::open on a directory *)
Definition open_publisher (w : World) (n : N) (wire : list Wire) (sent : list (list byte)) :
    World * (outcome (Run N)) :=
  let '(w', o) := open euid key config w in
  (w', match o with
       | Ret body =>
           match desired_locations body with
           | Ok locations =>
               Ret {| r_world := w'; r_state := body; r_intent := (ps_desired_revision body, locations); r_closing := false;
                      r_fatal := None; r_net := n; r_wire := wire; r_sent := sent |}
           | Err _ => Throw DesiredInvalid
           end
       | Throw e => Throw e
       | StateDir.Died => StateDir.Died
       end).

(** The startup transition of start_with_effective_locations_and_clock: a
    failure is answered with a withdrawal before it is reported. *)
Definition startup (initial_locations : list NodeLocation) : PM PublicationReceipt := fun r =>
  match in_time (transition initial_locations NoFailpoint) r with
  | (r', Failed e) =>
      match in_time withdraw_for_shutdown (with_closing r') with
      | (r'', Gone) => (r'', Gone)
      | (r'', _) => (r'', Failed e)
      end
  | result => result
  end.

Definition startup_locations (initial_locations : list NodeLocation) : result PublicationErrorKind (list NodeLocation) :=
  locations ← canonical_locations initial_locations;
  _ ← reject_if (bool_decide (locations = [])) KConfiguration;
  Ok locations.

(** ** A publisher's life *)

(** [OpIntend] alone is an update that waits for the gate. *)
Inductive Op :=
| OpIntend (locations : list NodeLocation)
| OpTransition (failpoint : PublicationFailpoint)
| OpUpdate (locations : list NodeLocation)
| OpRefresh | OpShutdown | OpCurrent.

Definition some_receipt (c : PM PublicationReceipt) : PM (option PublicationReceipt) := let* receipt := c in p_ret (Some receipt).
Definition run_op (op : Op) : PM (option PublicationReceipt) :=
  match op with
  | OpIntend locations => let* _ := intend locations in p_ret None
  | OpTransition failpoint => some_receipt (in_time (transition_recorded failpoint))
  | OpUpdate locations => some_receipt (update_locations locations)
  | OpRefresh => some_receipt refresh_turn
  | OpShutdown => some_receipt shutdown
  | OpCurrent => let* _ := current_record in p_ret None
  end.

(** Locations as the endpoint reports them: in range, without an IPv6 flow label. *)
Definition op_plain (op : Op) : Prop :=
  match op with OpIntend ls | OpUpdate ls => Forall plain_location ls | _ => True end.

Inductive Node :=
| On (r : Run N)
| Off (d : Dir) (n : N) (sent : list (list byte)).

Definition prepared (r : Run N) (faults : list Fault) (wire : list Wire) : Run N :=
  with_net (with_world r (with_faults (r_world r) faults)) (r_net r) wire (r_sent r).

Inductive pstep : Node -> Node -> Prop :=
| P_op r op faults wire r' o :
    op_plain op -> run_op op (prepared r faults wire) = (r', o) -> o <> Gone -> pstep (On r) (On r')
| P_died r op faults wire r' d :
    op_plain op -> run_op op (prepared r faults wire) = (r', Gone) -> crash_image (r_world r') d ->
    pstep (On r) (Off d (r_net r') (r_sent r'))
| P_crash r d : crash_image (r_world r) d -> pstep (On r) (Off d (r_net r) (r_sent r))
| P_elsewhere r n : pstep (On r) (On (with_net r n (r_wire r) (r_sent r)))
| P_elsewhere_off d n n' sent : pstep (Off d n sent) (Off d n' sent)
| P_start d n sent faults next wire locations ls w r r' receipt :
    Forall plain_location locations -> startup_locations locations = Ok ls ->
    open_publisher (restarted d faults next) n wire sent = (w, Ret r) -> startup ls r = (r', Done receipt) ->
    pstep (Off d n sent) (On r')
| P_not_opened d n sent faults next wire w o d' :
    open_publisher (restarted d faults next) n wire sent = (w, o) -> (forall r, o <> Ret r) -> crash_image w d' ->
    pstep (Off d n sent) (Off d' n sent)
| P_not_started d n sent faults next wire locations ls w r r' o d' :
    Forall plain_location locations -> startup_locations locations = Ok ls ->
    open_publisher (restarted d faults next) n wire sent = (w, Ret r) -> startup ls r = (r', o) ->
    (forall receipt, o <> Done receipt) -> crash_image (r_world r') d' ->
    pstep (Off d n sent) (Off d' (r_net r') (r_sent r')).

Definition sent_by (s : Node) : list (list byte) := match s with On r => r_sent r | Off _ _ sent => sent end.

End operations.
