(* ===== verification/PublisherProps.v ===== *)
(** * Theorems about the node publisher

    The durable state of Publisher.v satisfies the contract of StateDir.v, every
    operation keeps it, and so does a crash at any point.  The theorems: no two
    different packets with one sequence number ever leave a node; the publisher
    opens again from whatever a crash left; a receipt means that the authority
    accepted and showed exactly the packet that is now committed. *)

From Stdlib Require Import Strings.Byte ZArith Lia.
From stdpp Require Import base gmap numbers strings sorting list.
From S2P Require Import Prelude Hex Text Ids RecordCodec Lan SockAddr NodeRecord StateDir PinnedHttp Publisher.

(** A desired location whose JSON text keeps all of it. *)
Definition plain_stored (l : StoredDesiredLocation) : Prop :=
  match l with StoredDirect a => plain_location (Direct a) | StoredRelay _ => True end.
Definition plain_body (b : PublicationStateBody) : Prop := Forall plain_stored (ps_desired_locations b).

Section publisher_laws.
Context `{Ed25519, Pkarr, Dns, Urls, Blake3Hex, !PkarrLaws, !DnsLaws, !UrlLaws, Json (list StoredDesiredLocation)}.
Context `{Json PublicationStateBody, Json (Envelope PublicationStateBody),
          !JsonLaws (Envelope PublicationStateBody) (fun e => plain_body (env_body e))}.
Context `{Json PublicationAnchorBody, Json (Envelope PublicationAnchorBody),
          !JsonLaws (Envelope PublicationAnchorBody) (fun _ => True)}.
Context (euid : Z) (key : SigningKey) (config : NodePublicationConfig).

Notation node_id := (node_id key).
Notation validate_loaded_state := (validate_loaded_state key config).

(** ** Canonical location lists *)

Definition canonical (ls : list NodeLocation) : Prop := canonical_locations ls = Ok ls.

Lemma canonical_ok ls ls' :
  canonical_locations ls = Ok ls' <->
  Forall (fun l => NodeLocation_validate l = Ok tt) ls /\ ls' = sort_dedup ls /\ length ls' <= MAX_NODE_LOCATIONS.
Proof.
  unfold canonical_locations. split.
  - intros ([] & Hv%map_err_ok%validate_all_Forall & Hc)%result_bind_ok.
    apply result_bind_ok in Hc as (_ & Hl%reject_if_ok & [= <-]). apply Nat.ltb_ge in Hl. done.
  - intros (Hv%validate_all_Forall & -> & Hl). rewrite Hv. cbn [map_err mbind result_bind].
    by rewrite (proj2 (Nat.ltb_ge _ _) Hl).
Qed.

Lemma canonical_result ls ls' : canonical_locations ls = Ok ls' -> canonical ls'.
Proof.
  intros (Hv & -> & Hl)%canonical_ok. apply canonical_ok. split_and!; [|symmetry; apply sort_dedup_idemp, sort_dedup_strict|done].
  rewrite Forall_forall in *. intros l Hin. by apply Hv, sort_dedup_elem.
Qed.

Lemma canonical_sorted ls : canonical ls -> sort_dedup ls = ls.
Proof. by intros (_ & Hs & _)%canonical_ok. Qed.

Lemma canonical_nil : canonical [].
Proof. apply canonical_ok. split_and!; [done|done|]. cbn. unfold MAX_NODE_LOCATIONS. lia. Qed.

Lemma to_location_stored l : NodeLocation_validate l = Ok tt -> to_location (stored_of l) = Ok l.
Proof.
  destruct l as [a|u]; cbn [NodeLocation_validate stored_of to_location].
  - intros Hv. unfold to_location, NodeLocation_direct. assert (normalize_socket_addr a = a) as ->.
    { apply result_bind_ok in Hv as (_ & Hn%reject_if_ok & _). by apply bool_decide_eq_false, dec_stable in Hn. }
    by rewrite Hv.
  - intros Hv. unfold to_location, NodeLocation_relay. pose proof Hv as Hu.
    apply result_bind_ok in Hu as (_ & _ & Hu). apply result_bind_ok in Hu as (url & Hp%ok_or_ok & Hu).
    apply result_bind_ok in Hu as (_ & _ & Hu). apply result_bind_ok in Hu as (_ & _ & Hu).
    apply result_bind_ok in Hu as (_ & _ & Hu). apply result_bind_ok in Hu as (_ & _ & Hu%reject_if_ok).
    apply bool_decide_eq_false, dec_stable in Hu. rewrite Hp. cbn. by rewrite Hu, Hv.
Qed.

Lemma desired_of_stored b ls : ps_desired_locations b = stored_of <$> ls -> canonical ls -> desired_locations b = Ok ls.
Proof.
  intros Hb Hc. unfold desired_locations. rewrite Hb. destruct (proj1 (canonical_ok _ _) Hc) as (Hv & _).
  assert (to_locations (stored_of <$> ls) = Ok ls) as ->; [|done].
  clear -Hv. induction Hv as [|l ls Hl _ IH]; [done|]. cbn. by rewrite to_location_stored, IH.
Qed.

Lemma plain_stored_of ls : Forall plain_location ls -> Forall plain_stored (stored_of <$> ls).
Proof. rewrite Forall_fmap. intros Hls. eapply Forall_impl; [exact Hls|]. by intros [a|u]. Qed.

(** ** Valid states *)

Definition relays_allowed (ls : list NodeLocation) : Prop := negb (pc_relay_locations_allowed config) && existsb is_relay ls = false.

(** What a stored packet stands for. *)
Record packet_holds (b : PublicationStateBody) (locations : list NodeLocation) (p : StoredPacket) (bytes : list byte) (r : NodeRecord) : Prop := {
  ph_hex : decode_hex MAX_BYTES (sp_packet_hex p) = Ok bytes;
  ph_record : decode_node_record bytes = Ok r;
  ph_node : nr_node_id r = node_id;
  ph_namespace : nr_namespace r = pc_namespace config;
  ph_recipient : nr_recipient r = pc_signed_recipient config;
  ph_sequence : nr_sequence r = sp_sequence p;
  ph_revision : (sp_desired_revision p <= ps_desired_revision b)%Z;
  ph_expires : nr_expires_unix_micros r = sp_expires_unix_micros p;
  ph_kind : kind_of (nr_state r) = sp_kind p;
  ph_current : sp_desired_revision p = ps_desired_revision b -> nr_state r = desired_state locations /\ nr_locations r = locations;
  ph_relays : relays_allowed (nr_locations r)
}.

Lemma validate_stored_ok b ls p : validate_stored key config b ls p = Ok tt <-> exists bytes r, packet_holds b ls p bytes r.
Proof.
  unfold validate_stored. split.
  - intros (bytes & Hh & Hv)%result_bind_ok. apply result_bind_ok in Hv as (r & Hr%map_err_ok & Hv%reject_if_ok).
    bools. exists bytes, r. split; try done; try (by apply dec_stable); try lia.
    intros Heq. destruct (Z.eqb_spec (sp_desired_revision p) (ps_desired_revision b)); [|done].
    match goal with Hc : true && _ = false |- _ => cbn in Hc end. bools. split; by apply dec_stable.
  - intros (bytes & r & [Hh Hr Hn Hns Hrc Hs Hrev Hex Hk Hcur Hrel]). rewrite Hh. cbn [mbind result_bind]. rewrite Hr.
    cbn [map_err mbind result_bind]. apply reject_if_ok. unfold relays_allowed in Hrel.
    rewrite Hn, Hns, Hrc, Hs, Hex, Hk, Hrel, !(bool_decide_false (_ <> _)) by auto. rewrite !Z.eqb_refl.
    rewrite (proj2 (Z.ltb_ge _ _) Hrev). cbn [negb orb].
    destruct (Z.eqb_spec (sp_desired_revision p) (ps_desired_revision b)) as [Heq|]; [|done].
    destruct (Hcur Heq) as [-> ->]. by rewrite !bool_decide_false by auto.
Qed.

Definition stored_in (b : PublicationStateBody) (p : StoredPacket) : Prop := ps_committed b = Some p \/ ps_pending b = Some p.

Record loaded_ok (b : PublicationStateBody) (ls : list NodeLocation) : Prop := {
  lo_schema : ps_schema_version b = PUBLICATION_STATE_SCHEMA;
  lo_node : ps_node_id_hex b = NodeId_to_hex node_id;
  lo_namespace : ps_namespace b = pc_namespace config;
  lo_recipient : ps_signed_recipient b = pc_signed_recipient config;
  lo_desired : desired_locations b = Ok ls;
  lo_revision : ps_desired_revision b <> 0%Z;
  lo_relays : relays_allowed ls;
  lo_packets : forall p, stored_in b p -> exists bytes r, packet_holds b ls p bytes r;
  lo_order : forall c p, ps_committed b = Some c -> ps_pending b = Some p -> (sp_sequence c < sp_sequence p)%Z;
  lo_high : forall p, stored_in b p -> (sp_sequence p <= ps_high_water_sequence b)%Z
}.

Lemma optional_ok {A} (o : option A) f : optional o f = Ok tt <-> forall a, o = Some a -> f a = Ok tt.
Proof. destruct o as [a|]; cbn; naive_solver. Qed.

Lemma validate_loaded_ok b : validate_loaded_state b = Ok tt <-> exists ls, loaded_ok b ls.
Proof.
  unfold Publisher.validate_loaded_state. split.
  - intros (_ & Hid%reject_if_ok & Hv)%result_bind_ok. apply result_bind_ok in Hv as (ls & Hd%map_err_ok & Hv).
    apply result_bind_ok in Hv as (_ & Hrev%reject_if_ok & Hv). apply result_bind_ok in Hv as (_ & Hrel%reject_if_ok & Hv).
    apply result_bind_ok in Hv as ([] & Hc & Hv). apply result_bind_ok in Hv as ([] & Hp & Hv).
    apply result_bind_ok in Hv as ([] & Ho & Hv). apply result_bind_ok in Hv as ([] & Hhc & Hhp).
    rewrite optional_ok in Hc, Hp, Hhc, Hhp. setoid_rewrite reject_if_ok in Hhc. setoid_rewrite reject_if_ok in Hhp.
    bools. exists ls. split; try done; try (by apply dec_stable).
    + intros p [E|E]; apply validate_stored_ok; auto.
    + intros c p Ec Ep. rewrite Ec, Ep in Ho. apply reject_if_ok in Ho. bools. lia.
    + intros p [E|E]; [specialize (Hhc p E)|specialize (Hhp p E)]; bools; done.
  - intros (ls & [Hs Hn Hns Hrc Hd Hrev Hrel Hp Ho Hh]).
    rewrite Hs, Hn, Hns, Hrc, !bool_decide_false, Hd by auto. cbn [Z.eqb negb orb reject_if mbind result_bind map_err].
    rewrite (proj2 (Z.eqb_neq _ _) Hrev), Hrel. cbn [reject_if mbind result_bind].
    assert (optional (ps_committed b) (validate_stored key config b ls) = Ok tt) as ->.
    { apply optional_ok. intros p E. apply validate_stored_ok, Hp. by left. }
    assert (optional (ps_pending b) (validate_stored key config b ls) = Ok tt) as ->.
    { apply optional_ok. intros p E. apply validate_stored_ok, Hp. by right. }
    assert (match ps_committed b, ps_pending b with
            | Some committed, Some pending => reject_if (sp_sequence pending <=? sp_sequence committed)%Z StateMismatch
            | _, _ => Ok tt end = Ok tt) as ->.
    { destruct (ps_committed b) as [c|], (ps_pending b) as [p|]; try done. apply reject_if_ok, Z.leb_gt. by apply Ho. }
    cbn [mbind result_bind].
    assert (optional (ps_committed b) (fun p => reject_if (ps_high_water_sequence b <? sp_sequence p)%Z StateMismatch) = Ok tt) as ->.
    { apply optional_ok. intros p E. apply reject_if_ok, Z.ltb_ge, Hh. by left. }
    apply optional_ok. intros p E. apply reject_if_ok, Z.ltb_ge, Hh. by right.
Qed.

(** ** How the state moves *)

(** At one high water the latest packet stays, a pending one may become
    committed, and a pending one at the high water may be retired. *)
Definition latest_evolves (b b' : PublicationStateBody) : Prop :=
  match latest b, latest b' with
  | None, None => True
  | Some (p, c), Some (p', c') => p = p' /\ (c = true -> c' = true)
  | _, _ => False
  end \/
  exists p, latest b = Some (p, false) /\ sp_sequence p = ps_high_water_sequence b /\
    forall p' c', latest b' = Some (p', c') -> sp_sequence p' <> ps_high_water_sequence b'.

Record evolves (b b' : PublicationStateBody) : Prop := {
  ev_schema : ps_schema_version b' = ps_schema_version b;
  ev_node : ps_node_id_hex b' = ps_node_id_hex b;
  ev_namespace : ps_namespace b' = ps_namespace b;
  ev_recipient : ps_signed_recipient b' = ps_signed_recipient b;
  ev_revision : (ps_desired_revision b <= ps_desired_revision b')%Z;
  ev_desired : ps_desired_revision b = ps_desired_revision b' -> ps_desired_locations b = ps_desired_locations b';
  ev_packets : (ps_high_water_sequence b < ps_high_water_sequence b')%Z \/
    ps_high_water_sequence b = ps_high_water_sequence b' /\ latest_evolves b b';
  ev_plain : plain_body b';
}.

Lemma evolves_refl b : plain_body b -> evolves b b.
Proof.
  intros Hp. split; try done. right. split; [done|]. left. by destruct (latest b) as [[p c]|].
Qed.

(** The anchor's view of the latest packet. *)
Definition latest_anchor (b : PublicationStateBody) (a : PublicationAnchorBody) : Prop :=
  match latest b with
  | None => pa_latest_packet_sequence a = None /\ pa_latest_packet_blake3_hex a = None /\ pa_latest_packet_committed a = false
  | Some (p, c) => exists bytes, decode_hex MAX_BYTES (sp_packet_hex p) = Ok bytes /\
      pa_latest_packet_sequence a = Some (sp_sequence p) /\ pa_latest_packet_blake3_hex a = Some (blake3_hex bytes) /\
      pa_latest_packet_committed a = c
  end.

Lemma anchor_of_state b a :
  Publisher.from_state b = Ok a ->
  pa_schema_version a = ps_schema_version b /\ pa_node_id_hex a = ps_node_id_hex b /\ pa_namespace a = ps_namespace b /\
  pa_signed_recipient a = ps_signed_recipient b /\ pa_desired_revision a = ps_desired_revision b /\
  (exists d, to_vec (ps_desired_locations b) = Some d /\ pa_desired_locations_blake3_hex a = blake3_hex (DESIRED_ANCHOR_HASH_DOMAIN ++ d)) /\
  pa_high_water_sequence a = ps_high_water_sequence b /\ latest_anchor b a.
Proof.
  unfold Publisher.from_state, latest_anchor. intros (d & Hd%ok_or_ok & Hf)%result_bind_ok.
  apply result_bind_ok in Hf as ([[s h] c] & Hl & [= <-]). cbn. split_and!; try done; [eauto|].
  destruct (latest b) as [[p c']|].
  - apply result_bind_ok in Hl as (bytes & Hb & [= <- <- <-]). eauto.
  - by injection Hl as <- <- <-.
Qed.

Lemma evolved_latest_passes b b' a a' :
  latest_evolves b b' -> latest_anchor b a -> latest_anchor b' a' ->
  ps_high_water_sequence b = pa_high_water_sequence a -> ps_high_water_sequence b' = pa_high_water_sequence a' ->
  pa_high_water_sequence a = pa_high_water_sequence a' ->
  (bool_decide (pa_latest_packet_sequence a' <> pa_latest_packet_sequence a)
   || bool_decide (pa_latest_packet_blake3_hex a' <> pa_latest_packet_blake3_hex a))
  && negb (negb (pa_latest_packet_committed a) && bool_decide (pa_latest_packet_sequence a = Some (pa_high_water_sequence a))
           && bool_decide (pa_latest_packet_sequence a' <> Some (pa_high_water_sequence a'))) = false /\
  pa_latest_packet_committed a && negb (pa_latest_packet_committed a')
  && bool_decide (pa_latest_packet_sequence a' = pa_latest_packet_sequence a) = false.
Proof.
  intros He Ha Ha' Hw Hw' Heq. unfold latest_evolves, latest_anchor in *.
  destruct He as [He|(p & Hl & Hs & Hne)].
  - destruct (latest b) as [[p c]|], (latest b') as [[p' c']|]; try done.
    + destruct He as [<- Hc], Ha as (bytes & Hb & -> & -> & ->), Ha' as (bytes' & Hb' & -> & -> & ->).
      assert (bytes' = bytes) as -> by congruence. rewrite !(bool_decide_false (_ <> _)) by auto. split; [done|].
      destruct c; [|done]. by rewrite (Hc eq_refl).
    + destruct Ha as (-> & -> & ->), Ha' as (-> & -> & ->). by rewrite !(bool_decide_false (_ <> _)) by auto.
  - rewrite Hl in Ha. destruct Ha as (bytes & _ & Hsa & _ & Hc). rewrite Hc, Hsa, Hs, Hw. split; [|done].
    rewrite (bool_decide_true (Some _ = Some _)) by done. cbn [negb andb].
    rewrite (bool_decide_true (_ <> Some (pa_high_water_sequence a'))); [apply andb_false_r|].
    destruct (latest b') as [[p' c']|].
    + destruct Ha' as (bytes' & _ & -> & _). rewrite <-Hw'. intros [= E]. by eapply Hne.
    + by destruct Ha' as (-> & _).
Qed.

#[export] Instance publisher_store :
  StoreLaws MAX_STATE_BYTES encode_state decode_state encode_anchor decode_anchor Publisher.from_state check_anchor evolves.
Proof.
  split.
  - intros b s Hown Hs. exact (decode_encode_envelope _ _ _ b s (fun _ => ev_plain _ _ Hown) Hs).
  - intros b s Hs. exact (encode_envelope_len _ _ _ _ Hs).
  - intros a s Hs. exact (decode_encode_envelope _ _ _ a s (fun _ => I) Hs).
  - intros a s Hs. exact (encode_envelope_len _ _ _ _ Hs).
  - intros b b' a a' [Es En Ens Er Hrev Hdes Hpk _] (As & An & Ans & Ar & Arev & (d & Hd & Ad) & Ahw & Al)%anchor_of_state
      (As' & An' & Ans' & Ar' & Arev' & (d' & Hd' & Ad') & Ahw' & Al')%anchor_of_state.
    unfold check_anchor. cbv zeta.
    match goal with |- context [if (pa_high_water_sequence a' =? _)%Z then ?c else Ok tt] =>
      assert ((if (pa_high_water_sequence a' =? pa_high_water_sequence a)%Z then c else Ok tt) = Ok tt) as -> end.
    { destruct (Z.eqb_spec (pa_high_water_sequence a') (pa_high_water_sequence a)) as [Hhw|]; [|done].
      destruct Hpk as [Hlt|[Heq Hev]]; [lia|].
      destruct (evolved_latest_passes b b' a a') as [-> ->]; try done. }
    assert (pa_schema_version a = pa_schema_version a' /\ pa_node_id_hex a = pa_node_id_hex a' /\
            pa_namespace a = pa_namespace a' /\ pa_signed_recipient a = pa_signed_recipient a') as (-> & -> & -> & ->).
    { split_and!; congruence. }
    rewrite Z.eqb_refl, (bool_decide_false (pa_node_id_hex a' <> _)), (bool_decide_false (pa_namespace a' <> _)),
      (bool_decide_false (pa_signed_recipient a' <> _)) by auto. cbn [negb orb reject_if mbind result_bind].
    rewrite (proj2 (Z.ltb_ge (pa_high_water_sequence a') _)), (proj2 (Z.ltb_ge (pa_desired_revision a') _)) by lia.
    cbn [orb reject_if mbind result_bind].
    destruct (Z.eqb_spec (pa_desired_revision a') (pa_desired_revision a)) as [Hre|_]; [|done].
    assert (pa_desired_locations_blake3_hex a' = pa_desired_locations_blake3_hex a) as ->.
    { assert (d' = d) as -> by (rewrite Hdes in Hd by congruence; congruence). congruence. }
    by rewrite bool_decide_false by auto.
  - intros b b' He. apply evolves_refl, He.
Qed.

(** A state the publisher may be in: it passes the checks on loading, a pending
    packet is at the high water, and the desired locations are the stored form
    of a canonical list. *)
Record valid (b : PublicationStateBody) (ls : list NodeLocation) : Prop := {
  va_loaded : loaded_ok b ls;
  va_stored : ps_desired_locations b = stored_of <$> ls;
  va_canonical : canonical ls;
  va_plain : Forall plain_location ls;
  va_top : forall p, ps_pending b = Some p -> sp_sequence p = ps_high_water_sequence b;
  va_high : u64_ok (ps_high_water_sequence b);
  va_revision : (0 < ps_desired_revision b)%Z
}.

Lemma valid_plain b ls : valid b ls -> plain_body b.
Proof. intros Hv. unfold plain_body. rewrite (va_stored _ _ Hv). apply plain_stored_of, Hv. Qed.

(** The four ways the state moves. *)
Lemma desire_valid b ls revision ls' :
  valid b ls -> (ps_desired_revision b < revision)%Z ->
  canonical ls' -> Forall plain_location ls' -> relays_allowed ls' ->
  let b' := with_desired b revision (stored_of <$> ls') in valid b' ls' /\ evolves b b'.
Proof.
  intros Hv Hlt Hc Hp Hr. destruct Hv as [[] Hst Hcan Hpl Htop Hhi Hpos]. cbn zeta. split.
  - split; try done; [|cbn; lia]. split; try done; cbn [with_desired ps_desired_revision]; [by apply desired_of_stored|lia|].
    intros p Hin. destruct (lo_packets0 p Hin) as (bytes & r & []). exists bytes, r. split; try done; cbn; lia.
  - split; try done; cbn; [lia|lia| |by apply plain_stored_of].
    right. split; [done|]. left. unfold latest. cbn. by destruct (ps_pending b), (ps_committed b).
Qed.

Lemma repacked_valid b ls hw committed pending :
  valid b ls -> u64_ok hw ->
  (forall p, committed = Some p \/ pending = Some p -> exists bytes r, packet_holds b ls p bytes r) ->
  (forall c p, committed = Some c -> pending = Some p -> (sp_sequence c < sp_sequence p)%Z) ->
  (forall p, committed = Some p \/ pending = Some p -> (sp_sequence p <= hw)%Z) ->
  (forall p, pending = Some p -> sp_sequence p = hw) ->
  valid (with_packets b hw committed pending) ls.
Proof.
  intros [[] Hst Hcan Hpl Htop Hhi Hpos] Hu Hpk Hord Hle Ht. split; try done. split; try done.
  intros p Hin. destruct (Hpk p Hin) as (bytes & r & []). by exists bytes, r.
Qed.

Lemma repacked_evolves b ls hw committed pending :
  valid b ls ->
  ((ps_high_water_sequence b < hw)%Z \/ ps_high_water_sequence b = hw /\ latest_evolves b (with_packets b hw committed pending)) ->
  evolves b (with_packets b hw committed pending).
Proof. intros Hv Hp. split; try done. exact (valid_plain _ _ Hv). Qed.

Lemma retire_valid b ls p :
  valid b ls -> ps_pending b = Some p ->
  let b' := with_packets b (ps_high_water_sequence b) (ps_committed b) None in valid b' ls /\ evolves b b'.
Proof.
  intros Hv Hp. pose proof (va_loaded _ _ Hv) as Hl. cbn zeta. split.
  - apply repacked_valid; try done; try apply Hv; intros q [E|E]; try done; apply Hl; by left.
  - eapply repacked_evolves; [done|]. right. split; [done|]. right. exists p. unfold latest. rewrite Hp. cbn.
    split_and!; [done|by apply Hv|]. intros c c' E. destruct (ps_committed b) as [q|] eqn:Eq; [|done]. injection E as <- <-.
    pose proof (lo_order _ _ Hl _ _ Eq Hp). rewrite <-(va_top _ _ Hv _ Hp). lia.
Qed.

Lemma commit_valid b ls p :
  valid b ls -> ps_pending b = Some p ->
  let b' := with_packets b (ps_high_water_sequence b) (Some p) None in valid b' ls /\ evolves b b'.
Proof.
  intros Hv Hp. pose proof (va_loaded _ _ Hv) as Hl. cbn zeta. split.
  - apply repacked_valid; try done; try apply Hv; intros q [E|E]; try done; injection E as <-; apply Hl; by right.
  - eapply repacked_evolves; [done|]. right. split; [done|]. left. unfold latest. by rewrite Hp.
Qed.

Lemma next_sequence_ok now hw s :
  (0 < now <= u64_max)%Z -> u64_ok hw ->
  next_sequence now (if (hw =? 0)%Z then None else Some hw) = Ok s -> (hw < s)%Z /\ u64_ok s.
Proof.
  intros Hn Hhw. unfold next_sequence, u64_ok in *. destruct (Z.eqb_spec hw 0); [intros [= <-]; lia|].
  destruct (Z.eqb_spec hw u64_max); [done|]. intros [= <-]. lia.
Qed.

(** The new packet: it decodes to a record of the wanted locations, above every
    sequence used before. *)
Lemma prepare_valid b ls now b' :
  valid b ls -> (0 < now <= u64_max)%Z -> prepare_pending key config b ls now = Ok b' ->
  valid b' ls /\ evolves b b' /\ (ps_high_water_sequence b < ps_high_water_sequence b')%Z /\
  ps_committed b' = ps_committed b /\ ps_desired_revision b' = ps_desired_revision b /\
  exists p, ps_pending b' = Some p /\ sp_sequence p = ps_high_water_sequence b'.
Proof.
  intros Hv Hnow Hpre. unfold prepare_pending in Hpre.
  apply result_bind_ok in Hpre as (s & Hs & Hpre). apply result_bind_ok in Hpre as (ttl & _ & Hpre).
  apply result_bind_ok in Hpre as (ex & Hex%ok_or_ok & Hpre). apply result_bind_ok in Hpre as (packet & Hpk%map_err_ok & [= <-]).
  apply next_sequence_ok in Hs as [Hlt Hu]; [|done|apply Hv].
  assert (u32_ok (ttl_seconds config)) as Httl.
  { unfold u32_ok, u32_max, ttl_seconds. pose proof (Z.mod_pos_bound (as_secs (pc_ttl config)) (2 ^ 32)). lia. }
  pose proof (node_record_decodes _ _ _ _ _ _ _ _ _ Httl Hu (va_plain _ _ Hv) Hpk) as Hd.
  rewrite (canonical_sorted _ (va_canonical _ _ Hv)) in Hd.
  set (stored := {| sp_sequence := s; sp_desired_revision := _ |}).
  assert (packet_holds b ls stored (as_bytes packet)
    {| nr_node_id := node_id; nr_namespace := pc_namespace config; nr_recipient := pc_signed_recipient config;
       nr_ttl_seconds := ttl_seconds config; nr_sequence := s; nr_expires_unix_micros := ex;
       nr_state := desired_state ls; nr_locations := ls |}) as Hh.
  { split; try done; [apply decode_encode_hex, packet_size|apply Hv]. }
  pose proof (va_loaded _ _ Hv) as Hl. split_and!; try done; cbn; [| |eauto].
  - apply repacked_valid; try done.
    + intros p [E|[= <-]]; [apply Hl; by left|eauto].
    + intros c p Ec [= <-]. pose proof (lo_high _ _ Hl c (or_introl Ec)). cbn. lia.
    + intros p [E|[= <-]]; [|done]. pose proof (lo_high _ _ Hl p (or_introl E)). lia.
    + by intros p [= <-].
  - eapply repacked_evolves; [done|by left].
Qed.

(** ** What has been sent *)

Record own_record (r : NodeRecord) : Prop := {
  ow_node : nr_node_id r = node_id;
  ow_namespace : nr_namespace r = pc_namespace config;
  ow_recipient : nr_recipient r = pc_signed_recipient config
}.

(** Every packet sent is one of the node's own, at or below the high water; one
    sequence was sent with one packet only, the stored one if it is stored. *)
Record sent_ok (b : PublicationStateBody) (sent : list (list byte)) : Prop := {
  se_own : forall q, q ∈ sent -> exists r, decode_node_record q = Ok r /\ own_record r /\ (nr_sequence r <= ps_high_water_sequence b)%Z;
  se_once : forall q q' r r', q ∈ sent -> q' ∈ sent -> decode_node_record q = Ok r -> decode_node_record q' = Ok r' ->
    nr_sequence r = nr_sequence r' -> q = q';
  se_stored : forall p q r, stored_in b p -> q ∈ sent -> decode_node_record q = Ok r -> nr_sequence r = sp_sequence p ->
    decode_hex MAX_BYTES (sp_packet_hex p) = Ok q
}.

Lemma sent_nil b : sent_ok b [].
Proof. split; intros; set_solver. Qed.

(** The state may move as long as new packets are above the high water. *)
Lemma sent_moves b b' sent :
  sent_ok b sent -> (ps_high_water_sequence b <= ps_high_water_sequence b')%Z ->
  (forall p, stored_in b' p -> stored_in b p \/ (ps_high_water_sequence b < sp_sequence p)%Z) -> sent_ok b' sent.
Proof.
  intros [Ho Hu Hs] Hle Hst. split; [|done|].
  - intros q Hq. destruct (Ho q Hq) as (r & Hr & Hown & Hl). exists r. split_and!; [done|done|lia].
  - intros p q r Hp Hq Hr Hseq. destruct (Hst p Hp) as [Hin|Hlt]; [by eapply Hs|].
    destruct (Ho q Hq) as (r' & Hr' & _ & Hl). assert (r' = r) as -> by congruence. lia.
Qed.

Lemma sent_put b ls p bytes sent :
  valid b ls -> sent_ok b sent -> stored_in b p -> decode_hex MAX_BYTES (sp_packet_hex p) = Ok bytes -> sent_ok b (sent ++ [bytes]).
Proof.
  intros Hv [Ho Hu Hs] Hin Hb. pose proof (va_loaded _ _ Hv) as Hl.
  destruct (lo_packets _ _ Hl p Hin) as (bytes' & r & [Hb' Hr Hn Hns Hrc Hseq _ _ _ _ _]).
  assert (bytes' = bytes) as -> by congruence. pose proof (lo_high _ _ Hl p Hin) as Hhi.
  assert (forall q rq, q ∈ sent -> decode_node_record q = Ok rq -> nr_sequence rq = nr_sequence r -> q = bytes) as Hsame.
  { intros q rq Hq Hrq Heq. rewrite (Hs p q rq Hin Hq Hrq) in Hb by congruence. by injection Hb. }
  split.
  - intros q [Hq| ->%list_elem_of_singleton]%elem_of_app; [by apply Ho|]. exists r. split_and!; [done|done|lia].
  - intros q q' rq rq' [Hq| ->%list_elem_of_singleton]%elem_of_app [Hq'| ->%list_elem_of_singleton]%elem_of_app Hrq Hrq' Heq;
      [by eapply Hu| | |done].
    + assert (rq' = r) as -> by congruence. by eapply Hsame.
    + assert (rq = r) as -> by congruence. symmetry. by eapply Hsame.
  - intros p' q rq Hin' [Hq| ->%list_elem_of_singleton]%elem_of_app Hrq Heq; [by eapply Hs|].
    assert (rq = r) as -> by congruence.
    assert (p' = p) as ->; [|done].
    destruct Hin as [Hc|Hp], Hin' as [Hc'|Hp']; try congruence.
    + pose proof (lo_order _ _ Hl _ _ Hc Hp'). lia.
    + pose proof (lo_order _ _ Hl _ _ Hc' Hp). lia.
Qed.

(** ** Operations keep the invariant *)

Context {N : Type} `{Link N}.
(** The wall clock is a u64 and not at the epoch itself. *)
Context (clock_ok : forall n n' t, link_now n = (n', Some t) -> (0 < t <= u64_max)%Z).

Notation kept d b := (keeps euid encode_state encode_anchor Publisher.from_state evolves (fresh key config) d b).
Notation at_rest w b := (settled euid encode_state encode_anchor Publisher.from_state evolves (fresh key config) w b).

Definition dir_ok (sent : list (list byte)) (d : Dir) : Prop := exists b ls, valid b ls /\ sent_ok b sent /\ kept d b.

(** The desired intent in memory is at or ahead of the durable one. *)
Record intent_ok (b : PublicationStateBody) (ls : list NodeLocation) (intent : Z * list NodeLocation) : Prop := {
  in_revision : (ps_desired_revision b <= intent.1)%Z;
  in_current : intent.1 = ps_desired_revision b -> intent.2 = ls;
  in_canonical : canonical intent.2;
  in_plain : Forall plain_location intent.2;
  in_relays : relays_allowed intent.2
}.

Record run_ok (r : Run N) : Prop := {
  ro_valid : exists ls, valid (r_state r) ls /\ intent_ok (r_state r) ls (r_intent r);
  ro_sent : sent_ok (r_state r) (r_sent r);
  ro_disk : images (r_world r) (dir_ok (r_sent r));
  ro_rest : w_poisoned (r_world r) = true \/ at_rest (r_world r) (r_state r)
}.
Definition run_live (r : Run N) : Prop := run_ok r /\ w_poisoned (r_world r) = false.

Lemma live_rest r : run_live r -> at_rest (r_world r) (r_state r).
Proof. intros [[_ _ _ [Hp|Hr]] Hq]; congruence. Qed.

Lemma rest_dir_ok w b ls sent : valid b ls -> sent_ok b sent -> at_rest w b -> images w (dir_ok sent).
Proof.
  intros Hv Hs Hr. eapply images_mono; [exact (settled_images euid _ _ _ _ _ w b Hr)|]. intros d Hd. by exists b, ls.
Qed.

(** [works c r Q]: from [r], [c] returns in [Q], fails with the invariant, or
    dies leaving a directory that is in order. *)
Definition works {A} (c : PM A) (r : Run N) (Q : A -> Run N -> Prop) : Prop :=
  let '(r', o) := c r in
  match o with
  | Done a => Q a r'
  | Failed _ | Dropped _ => run_ok r'
  | Gone => images (r_world r') (dir_ok (r_sent r'))
  end.

Lemma works_mono {A} (c : PM A) r (P Q : A -> Run N -> Prop) : works c r P -> (forall a r', P a r' -> Q a r') -> works c r Q.
Proof. unfold works. destruct (c r) as [r' []]; auto. Qed.

Lemma works_bind {A B} (c : PM A) (k : A -> PM B) r (P : A -> Run N -> Prop) (Q : B -> Run N -> Prop) :
  works c r P -> (forall a r', P a r' -> works (k a) r' Q) -> works (p_bind c k) r Q.
Proof. unfold works, p_bind. intros Hc Hk. destruct (c r) as [r' [a|e|cl|]]; [by apply Hk|done..]. Qed.

Lemma works_seq {A B} (c : PM A) (k : A -> PM B) r (Q : B -> Run N -> Prop) :
  works c r (fun a r' => works (k a) r' Q) -> works (p_bind c k) r Q.
Proof. intros Hc. by eapply works_bind; [exact Hc|]. Qed.

Lemma works_ret {A} (a : A) r (Q : A -> Run N -> Prop) : Q a r -> works (p_ret a) r Q.
Proof. done. Qed.

Lemma works_lift {A} (c : result PublicationErrorKind A) r (Q : A -> Run N -> Prop) :
  run_ok r -> (forall a, c = Ok a -> Q a r) -> works (p_lift c) r Q.
Proof. intros Hr HQ. destruct c; cbn; [by apply HQ|done]. Qed.

Lemma works_guard refuse e r (Q : unit -> Run N -> Prop) :
  run_ok r -> (refuse = false -> Q tt r) -> works (p_guard refuse e) r Q.
Proof. intros Hr HQ. by destruct refuse; cbn; [|apply HQ]. Qed.

Lemma works_get {A} (f : Run N -> A) r (Q : A -> Run N -> Prop) : Q (f r) r -> works (p_get f) r Q.
Proof. done. Qed.

(** Only the world beyond the node has moved. *)
Definition only_net (r r' : Run N) : Prop :=
  r_world r' = r_world r /\ r_state r' = r_state r /\ r_intent r' = r_intent r /\ r_closing r' = r_closing r.

Lemma net_live r n wire sent : run_live r -> sent_ok (r_state r) sent -> run_live (with_net r n wire sent).
Proof.
  intros Hl Hs. pose proof (live_rest r Hl) as Hrest. destruct Hl as [[(ls & Hv & Hi) _ _ _] Hp].
  split; [|done]. split; cbn; [by exists ls|done|by eapply rest_dir_ok|by right].
Qed.

Lemma net_ok r n wire : run_ok r -> run_ok (with_net r n wire (r_sent r)).
Proof. by intros []. Qed.

Lemma on_wire_works r (Q : unit -> Run N -> Prop) :
  run_ok r -> (forall wire, Q tt (with_net r (r_net r) wire (r_sent r))) -> works on_wire r Q.
Proof.
  intros Hr HQ. unfold works, on_wire. destruct (r_wire r) as [|e wire] eqn:E.
  - specialize (HQ []). rewrite <-E in HQ. by destruct r.
  - destruct e; [by apply HQ|by apply net_ok|by apply net_ok|apply Hr].
Qed.

Lemma now_works r (Q : Z -> Run N -> Prop) :
  run_ok r -> (forall n now, (0 < now <= u64_max)%Z -> link_now (r_net r) = (n, Some now) ->
               Q now (with_net r n (r_wire r) (r_sent r))) -> works wall_unix_micros r Q.
Proof.
  intros Hr HQ. unfold works, wall_unix_micros. destruct (link_now (r_net r)) as [n [now|]] eqn:E.
  - apply HQ; [by eapply clock_ok|done].
  - by apply net_ok.
Qed.

Lemma write_poisoned w b : w_poisoned w = true -> exists e, store_write euid b w = (w, Throw e).
Proof. intros Hp. exists Poisoned. unfold store_write, write, ensure_healthy, m_bind, see, guard. by rewrite Hp. Qed.

(** Making the next state durable. *)
Lemma replace_works r b ls :
  run_ok r -> evolves (r_state r) b -> valid b ls -> intent_ok b ls (r_intent r) -> sent_ok b (r_sent r) ->
  works (replace_state euid b) r (fun _ r' => run_live r' /\ exists w, r' = with_state (with_world r w) b).
Proof.
  intros Hr Hev Hv Hi Hs. unfold works, replace_state, p_bind, on_store.
  destruct Hr as [(ls0 & Hv0 & Hi0) Hs0 Hdisk Hrest]. destruct (w_poisoned (r_world r)) eqn:Hp.
  { destruct (write_poisoned (r_world r) b Hp) as [e ->]. split; try done; [by exists ls0|by left]. }
  destruct Hrest as [|Hrest]; [done|].
  pose proof (write_settled euid MAX_STATE_BYTES _ _ _ _ _ _ _ _ (r_world r) _ _ Hrest Hev) as Hw. unfold runs in Hw.
  change (write euid MAX_STATE_BYTES encode_state encode_anchor Publisher.from_state b) with (store_write euid b) in Hw.
  destruct (store_write euid b (r_world r)) as [w o]. destruct Hw as [Ho Himg].
  assert (images w (dir_ok (r_sent r))) as Hok.
  { eapply images_mono; [exact Himg|]. intros d [Hd|Hd]; [by exists (r_state r), ls0|by exists b, ls]. }
  destruct o as [[]|e|]; [|split; try done; [by exists ls0|destruct Ho as [?|[? ?]]; [by left|by right]]|done].
  destruct Ho as [Hq Hset]. cbn. split; [|by exists w]. split; [split; try done; [by exists ls|by right]|].
  cbn. congruence.
Qed.

Lemma run_ok_live r ls : run_live r -> valid (r_state r) ls -> exists ls', ls' = ls /\ intent_ok (r_state r) ls' (r_intent r).
Proof.
  intros [[(ls' & Hv & Hi) _ _ _] _] Hv'. exists ls'. split; [|done].
  pose proof (lo_desired _ _ (va_loaded _ _ Hv)) as Hd. rewrite (lo_desired _ _ (va_loaded _ _ Hv')) in Hd. by injection Hd.
Qed.

(** Replacing the packets only. *)
Lemma repack_works r b0 ls hw committed pending :
  run_live r -> r_state r = b0 -> valid (r_state r) ls ->
  let b := with_packets b0 hw committed pending in
  evolves (r_state r) b -> valid b ls -> (ps_high_water_sequence (r_state r) <= hw)%Z ->
  (forall p, stored_in b p -> stored_in (r_state r) p \/ (ps_high_water_sequence (r_state r) < sp_sequence p)%Z) ->
  works (replace_state euid b) r (fun _ r' => run_live r' /\ exists w, r' = with_state (with_world r w) b).
Proof.
  intros Hl <- Hv b Hev Hvb Hle Hst. destruct (run_ok_live r ls Hl Hv) as (ls' & -> & Hi).
  eapply replace_works; try done; [apply Hl|by destruct Hi|]. eapply sent_moves; [apply Hl|done|done].
Qed.

Lemma retire_works r ls p :
  run_live r -> valid (r_state r) ls -> ps_pending (r_state r) = Some p ->
  works (retire_pending euid) r (fun _ r' => run_live r' /\ valid (r_state r') ls /\ ps_pending (r_state r') = None /\
    r_sent r' = r_sent r).
Proof.
  intros Hl Hv Hp. destruct (retire_valid _ _ _ Hv Hp) as [Hvb Hev]. unfold retire_pending.
  apply works_seq, works_get.
  eapply works_mono; [apply (repack_works r (r_state r) ls); try done|].
  - intros q [E|E]; [left; by left|done].
  - intros [] r' [Hl' [w ->]]. by split_and!.
Qed.

(** *** The exchange with the authority *)

(** The authority accepted [bytes] and the next lookup returned them. *)
Definition confirmed (bytes : list byte) (n : N) : Prop :=
  exists n1 n2 put get, link_put (signer key) bytes n = (n1, Ok put) /\ (200 <= ph_status put < 300)%Z /\
    link_get (signer key) n1 = (n2, Ok get) /\ ph_status get = 200%Z /\ ph_body get = bytes.

Lemma put_works r ls p bytes :
  run_live r -> valid (r_state r) ls -> stored_in (r_state r) p -> decode_hex MAX_BYTES (sp_packet_hex p) = Ok bytes ->
  works (put_exact key bytes) r (fun _ r' => run_live r' /\ exists n wire put, r' = with_net r n wire (r_sent r ++ [bytes]) /\
    link_put (signer key) bytes (r_net r) = (n, Ok put) /\ (200 <= ph_status put < 300)%Z).
Proof.
  intros Hl Hv Hin Hb. unfold put_exact.
  pose proof (sent_put _ _ _ _ _ Hv (ro_sent _ (proj1 Hl)) Hin Hb) as Hsent.
  apply works_seq, on_wire_works; [apply Hl|intros wire]. apply works_seq. unfold works at 1.
  destruct (link_put (signer key) bytes (r_net r)) as [n a] eqn:E. cbn [r_net with_net r_wire r_sent]. rewrite E.
  assert (forall wire', run_live (with_net r n wire' (r_sent r ++ [bytes]))) as Hl' by (intros; by apply net_live).
  apply works_seq, on_wire_works; [apply Hl'|intros wire']. unfold answered.
  apply works_seq, works_lift; [apply Hl'|]. intros put ->%map_err_ok.
  apply works_guard; [apply Hl'|]. intros [?%Z.leb_le ?%Z.ltb_lt]%negb_false_iff%andb_true_iff. split; [apply Hl'|].
  exists n, wire', put. split_and!; [done..|lia|lia].
Qed.

Lemma get_works r bytes :
  run_live r ->
  works (verify_visible key config bytes) r (fun _ r' => run_live r' /\ exists n wire get, r' = with_net r n wire (r_sent r) /\
    link_get (signer key) (r_net r) = (n, Ok get) /\ ph_status get = 200%Z /\ ph_body get = bytes).
Proof.
  intros Hl. unfold verify_visible.
  assert (forall n wire', run_live (with_net r n wire' (r_sent r))) as Hl' by (intros; apply net_live; [done|apply Hl]).
  apply works_seq, on_wire_works; [apply Hl|intros wire]. apply works_seq. unfold works at 1. cbn [r_net with_net r_wire r_sent].
  destruct (link_get (signer key) (r_net r)) as [n a] eqn:E.
  apply works_seq, on_wire_works; [apply Hl'|intros wire']. unfold answered.
  apply works_seq, works_lift; [apply Hl'|]. intros get ->%map_err_ok.
  apply works_seq, works_guard; [apply Hl'|]. intros Hst%negb_false_iff%Z.eqb_eq.
  apply works_seq, works_guard; [apply Hl'|]. intros Hb%bool_decide_eq_false%dec_stable.
  apply works_seq, works_lift; [apply Hl'|]. intros record _.
  apply works_guard; [apply Hl'|]. intros _. split; [apply Hl'|]. by exists n, wire', get.
Qed.

(** What a receipt stands for. *)
Record published (receipt : PublicationReceipt) (r : Run N) : Prop := {
  pb_packet : exists p bytes n, ps_committed (r_state r) = Some p /\ decode_hex MAX_BYTES (sp_packet_hex p) = Ok bytes /\
    decode_node_record bytes = Ok (rc_record receipt) /\ confirmed bytes n /\ bytes ∈ r_sent r;
  pb_own : own_record (rc_record receipt);
  pb_settled : ps_pending (r_state r) = None;
  pb_new : rc_reused_committed_packet receipt = false -> nr_sequence (rc_record receipt) = ps_high_water_sequence (r_state r)
}.

Definition wants (record : NodeRecord) (ls : list NodeLocation) : Prop := nr_state record = desired_state ls /\ nr_locations record = ls.

Lemma stored_bytes_works p r (Q : list byte -> Run N -> Prop) :
  run_ok r -> (forall bytes, decode_hex MAX_BYTES (sp_packet_hex p) = Ok bytes -> Q bytes r) -> works (stored_bytes p) r Q.
Proof. intros Hr HQ. apply works_lift; [done|]. intros bytes Hb%map_err_ok. by apply HQ. Qed.

Lemma packet_owned b ls p bytes record :
  loaded_ok b ls -> stored_in b p -> decode_hex MAX_BYTES (sp_packet_hex p) = Ok bytes -> decode_node_record bytes = Ok record ->
  packet_holds b ls p bytes record.
Proof.
  intros Hl Hin Hb Hr. destruct (lo_packets _ _ Hl p Hin) as (bytes' & r' & Hh).
  pose proof (ph_hex _ _ _ _ _ Hh) as Hb'. assert (bytes' = bytes) as -> by congruence.
  pose proof (ph_record _ _ _ _ _ Hh) as Hr'. by assert (r' = record) as -> by congruence.
Qed.

Lemma submit_works r ls p failpoint :
  run_live r -> valid (r_state r) ls -> ps_pending (r_state r) = Some p ->
  works (submit_pending euid key config failpoint) r (fun receipt r' =>
    run_live r' /\ valid (r_state r') ls /\ published receipt r' /\
    (sp_desired_revision p = ps_desired_revision (r_state r) -> wants (rc_record receipt) ls)).
Proof.
  intros Hl Hv Hp. unfold submit_pending. apply works_seq, works_get. apply works_seq, works_lift; [apply Hl|].
  rewrite Hp. intros q [= <-]. apply works_seq, stored_bytes_works; [apply Hl|]. intros bytes Hb.
  apply works_seq. eapply works_mono; [eapply put_works; [done|done|right; exact Hp|exact Hb]|].
  intros [] r1 (Hl1 & n1 & wire1 & put & -> & Hput & Hst).
  apply works_seq, works_guard; [apply Hl1|intros _].
  apply works_seq. eapply works_mono; [by apply get_works|].
  intros [] r2 (Hl2 & n2 & wire2 & get & -> & Hget & Hgs & Hgb).
  apply works_seq, works_lift; [apply Hl2|]. intros record Hr%map_err_ok.
  destruct (commit_valid _ _ _ Hv Hp) as [Hvb Hev].
  apply works_seq. eapply works_mono; [apply (repack_works _ (r_state r) ls _ (Some p) None); try done|].
  { intros q [E|E]; [injection E as <-; left; by right|done]. }
  intros [] r3 [Hl3 [w ->]]. apply works_ret. split_and!; [done|done| |].
  - pose proof (packet_owned _ _ _ _ _ (va_loaded _ _ Hv) (or_intror Hp) Hb Hr) as Hh. split; cbn.
    + exists p, bytes, (r_net r). split_and!; try done; [|set_solver]. exists n1, n2, put, get. split_and!; try done; lia.
    + split; apply Hh.
    + done.
    + intros _. rewrite (ph_sequence _ _ _ _ _ Hh). by apply Hv.
  - intros Hrev. cbn. exact (ph_current _ _ _ _ _ (packet_owned _ _ _ _ _ (va_loaded _ _ Hv) (or_intror Hp) Hb Hr) Hrev).
Qed.

(** After recovery nothing is pending. *)
Lemma recover_works r ls failpoint :
  run_live r -> valid (r_state r) ls ->
  works (recover_pending euid key config failpoint) r (fun o r' =>
    run_live r' /\ valid (r_state r') ls /\ ps_pending (r_state r') = None /\
    match o with Some receipt => published receipt r' | None => True end).
Proof.
  intros Hl Hv. unfold recover_pending. apply works_seq, works_get.
  destruct (ps_pending (r_state r)) as [p|] eqn:Hp; [|by apply works_ret].
  destruct (_ <? _)%Z.
  { apply works_seq. eapply works_mono; [by eapply retire_works|]. intros [] r' (? & ? & ? & _). by apply works_ret. }
  apply works_seq, now_works; [apply Hl|]. intros n now _ _.
  assert (run_live (with_net r n (r_wire r) (r_sent r))) as Hl' by (apply net_live; [done|apply Hl]).
  apply works_seq, works_lift; [apply Hl'|]. intros minimum _.
  destruct (_ <=? _)%Z.
  { apply works_seq. eapply works_mono; [by eapply retire_works|]. intros [] r' (? & ? & ? & _). by apply works_ret. }
  apply works_seq. eapply works_mono; [by eapply submit_works|]. intros receipt r' (? & ? & Hpub & _). apply works_ret.
  split_and!; try done. apply Hpub.
Qed.

Lemma suits_wants record ls now margin : suits config record ls now margin = true -> wants record ls.
Proof. unfold suits, wants. intros Hs. bools. done. Qed.

Lemma reuse_works r ls now margin :
  run_live r -> valid (r_state r) ls -> ps_pending (r_state r) = None ->
  works (reuse_committed key config ls now margin) r (fun o r' =>
    run_live r' /\ valid (r_state r') ls /\
    match o with Some receipt => published receipt r' /\ wants (rc_record receipt) ls | None => r' = r end).
Proof.
  intros Hl Hv Hp. unfold reuse_committed. apply works_seq, works_get.
  destruct (ps_committed (r_state r)) as [c|] eqn:Hc; [|by apply works_ret].
  apply works_seq, stored_bytes_works; [apply Hl|]. intros bytes Hb.
  apply works_seq, works_lift; [apply Hl|]. intros record Hr%map_err_ok.
  destruct (suits config record ls now margin) eqn:Hsuits; [|by apply works_ret].
  apply works_seq. eapply works_mono; [eapply put_works; [done|done|left; exact Hc|exact Hb]|].
  intros [] r1 (Hl1 & n1 & wire1 & put & -> & Hput & Hst).
  apply works_seq. eapply works_mono; [by apply get_works|].
  intros [] r2 (Hl2 & n2 & wire2 & get & -> & Hget & Hgs & Hgb). apply works_ret.
  split_and!; try done; [|by eapply suits_wants]. split; cbn; try done.
  - exists c, bytes, (r_net r). split_and!; try done; [|set_solver]. exists n1, n2, put, get. split_and!; try done; lia.
  - pose proof (packet_owned _ _ _ _ _ (va_loaded _ _ Hv) (or_introl Hc) Hb Hr) as Hh. split; apply Hh.
Qed.

Lemma anew_works r ls now margin failpoint :
  run_live r -> valid (r_state r) ls -> ps_pending (r_state r) = None -> (0 < now <= u64_max)%Z ->
  works (transition_anew euid key config ls now margin failpoint) r (fun receipt r' =>
    run_live r' /\ valid (r_state r') ls /\ published receipt r' /\ wants (rc_record receipt) ls).
Proof.
  intros Hl Hv Hp Hnow. unfold transition_anew. apply works_seq. eapply works_mono; [by apply reuse_works|].
  intros [receipt|] r1 (Hl1 & Hv1 & Hpub); [apply works_ret; by destruct Hpub|]. subst r1.
  apply works_seq, works_get. apply works_seq, works_lift; [apply Hl|]. intros b' Hpre.
  destruct (prepare_valid _ _ _ _ Hv Hnow Hpre) as (Hvb & Hev & Hlt & Hcom & Hrev & p & Hpb & Hseq).
  destruct (run_ok_live r ls Hl Hv) as (ls' & -> & Hi).
  apply works_seq. eapply works_mono; [eapply (replace_works r b' ls); try done; [apply Hl| |]|].
  - destruct Hi. split; rewrite ?Hrev; done.
  - eapply sent_moves; [apply Hl|lia|]. intros q [E|E]; [left; left; congruence|].
    rewrite Hpb in E. injection E as <-. right. lia.
  - intros [] r2 [Hl2 [w ->]]. apply works_seq, works_guard; [apply Hl2|intros _].
    eapply works_mono; [eapply (submit_works _ ls p); try done|].
    intros receipt r3 (? & ? & ? & Hw). split_and!; try done. apply Hw. cbn.
    unfold prepare_pending in Hpre.
    apply result_bind_ok in Hpre as (? & _ & Hpre). apply result_bind_ok in Hpre as (? & _ & Hpre).
    apply result_bind_ok in Hpre as (? & _ & Hpre). apply result_bind_ok in Hpre as (? & _ & [= <-]).
    cbn in Hpb. by injection Hpb as <-.
Qed.

Lemma healthy_works r (Q : unit -> Run N -> Prop) : run_ok r -> (run_live r -> Q tt r) -> works store_healthy r Q.
Proof.
  intros Hr HQ. unfold works, store_healthy, on_store.
  pose proof (ensure_healthy_runs (r_world r)) as He. unfold runs in He. destruct (ensure_healthy (r_world r)) as [w o].
  destruct He as [-> Ho]. assert (with_world r (r_world r) = r) as -> by (by destruct r).
  destruct o as [[]|e|]; [by apply HQ|done|done].
Qed.

Lemma locked_works r ls failpoint recover :
  run_ok r -> valid (r_state r) ls ->
  works (transition_locked euid key config ls failpoint recover) r (fun receipt r' =>
    run_live r' /\ valid (r_state r') ls /\ published receipt r' /\ wants (rc_record receipt) ls).
Proof.
  intros Hr Hv. unfold transition_locked. apply works_seq, healthy_works; [done|intros Hl].
  apply works_seq, works_get. apply works_seq.
  eapply works_mono with (P := fun o r' => run_live r' /\ valid (r_state r') ls /\ ps_pending (r_state r') = None /\
    match o with Some receipt => published receipt r' | None => True end).
  { destruct recover; [by apply recover_works|]. case_bool_decide as Hp; [destruct Hp as [p Hp]|].
    - apply works_seq. eapply works_mono; [by eapply retire_works|]. intros [] r' (? & ? & ? & _). by apply works_ret.
    - apply works_ret. split_and!; try done. destruct (ps_pending (r_state r)); [by destruct Hp|done]. }
  intros o r1 (Hl1 & Hv1 & Hp1 & Ho). apply works_seq, now_works; [apply Hl1|]. intros n now Hnow _.
  assert (run_live (with_net r1 n (r_wire r1) (r_sent r1))) as Hl2 by (apply net_live; [done|apply Hl1]).
  apply works_seq, works_lift; [apply Hl2|]. intros reserve _. apply works_seq, works_lift; [apply Hl2|]. intros margin _.
  destruct o as [receipt|]; [|by apply anew_works].
  destruct (suits config (rc_record receipt) ls now reserve) eqn:Hsuits; [|by apply anew_works].
  apply works_ret. split_and!; try done; [|by eapply suits_wants]. destruct Ho. by split.
Qed.

Lemma closing_works r (Q : unit -> Run N -> Prop) : run_ok r -> (r_closing r = false -> Q tt r) -> works refuse_closing r Q.
Proof. intros Hr HQ. apply works_seq, works_get, works_guard; auto. Qed.

(** The durable intent catches up with the one in memory. *)
Lemma persist_works r :
  run_ok r -> works (persist_latest_desired euid) r (fun ls r' =>
    run_ok r' /\ valid (r_state r') ls /\ ls = (r_intent r).2 /\ r_intent r' = r_intent r).
Proof.
  intros Hr. unfold persist_latest_desired. apply works_seq, works_get. apply works_seq, works_get. apply works_seq.
  destruct (ro_valid _ Hr) as (ls & Hv & Hi).
  eapply works_mono with (P := fun _ r' => run_ok r' /\ valid (r_state r') (r_intent r).2 /\ r_intent r' = r_intent r).
  - destruct (Z.ltb_spec (ps_desired_revision (r_state r)) (r_intent r).1) as [Hlt|Hge].
    + destruct (desire_valid _ _ _ _ Hv Hlt (in_canonical _ _ _ Hi) (in_plain _ _ _ Hi) (in_relays _ _ _ Hi)) as [Hvb Hev].
      eapply works_mono; [eapply replace_works; try done|].
      * destruct Hi. by split.
      * eapply sent_moves; [apply Hr|done|]. intros p Hp. by left.
      * intros [] r' [Hl [w ->]]. split_and!; try done. apply Hl.
    + apply works_ret. split_and!; try done. rewrite (in_current _ _ _ Hi); [done|]. pose proof (in_revision _ _ _ Hi). lia.
  - intros [] r' (Hr' & Hv' & Hint). apply works_seq, works_get. apply works_lift; [done|].
    intros ls' Hd. rewrite (lo_desired _ _ (va_loaded _ _ Hv')) in Hd. injection Hd as <-. done.
Qed.

(** A recorded transition publishes the intent it found. *)
Definition publishes (intended : list NodeLocation) (receipt : PublicationReceipt) (r : Run N) : Prop :=
  run_live r /\ published receipt r /\ wants (rc_record receipt) intended.

Lemma recorded_works r failpoint :
  run_ok r -> works (transition_recorded euid key config failpoint) r (publishes (r_intent r).2).
Proof.
  intros Hr. unfold transition_recorded. apply works_seq, closing_works; [done|intros _].
  apply works_seq. eapply works_mono; [by apply persist_works|]. intros ls r1 (Hr1 & Hv1 & -> & _).
  eapply works_mono; [by apply locked_works|]. by intros receipt r2 (? & _ & ? & ?).
Qed.

Lemma intent_works r ls :
  run_ok r -> canonical ls -> Forall plain_location ls -> relays_allowed ls ->
  works (set_intent ls) r (fun _ r' => run_ok r' /\ (r_intent r').2 = ls).
Proof.
  intros Hr Hc Hp Ha. unfold set_intent. apply works_seq, works_get. apply works_seq, works_lift; [done|].
  unfold update_desired_intent. intros intent Hu. destruct Hr as [(ls0 & Hv & [J1 J2 J3 J4 J5]) Hs Hd Hrest]. cbn.
  case_bool_decide as Heq.
  - injection Hu as <-. split; [|done]. split; try done. by exists ls0.
  - apply result_bind_ok in Hu as (rev & Hrev%ok_or_ok & [= <-]). split; [|done]. split; try done. exists ls0.
    split; [done|]. unfold u64_checked_add in Hrev. destruct (_ <=? _)%Z; [|done]. injection Hrev as <-.
    split; cbn in *; try done; lia.
Qed.

Lemma intend_works r ls :
  run_ok r -> Forall plain_location ls ->
  works (intend config ls) r (fun _ r' => run_ok r' /\ canonical_locations ls = Ok (r_intent r').2).
Proof.
  intros Hr Hp. unfold intend, record_desired_intent. apply works_seq, closing_works; [done|intros _].
  apply works_seq, works_lift; [done|]. intros ls' Hls. apply works_seq, closing_works; [done|intros _].
  unfold validate_desired_locations in Hls. apply result_bind_ok in Hls as (x & Hc & Hls).
  apply result_bind_ok in Hls as (_ & Ha%reject_if_ok & [= <-]).
  eapply works_mono; [apply intent_works; try done|].
  - by eapply canonical_result.
  - apply canonical_ok in Hc as (_ & -> & _). rewrite Forall_forall in *. intros l Hl. by apply Hp, sort_dedup_elem.
  - intros [] r' [? <-]. done.
Qed.

(** *** Transitions leave the intent alone *)

Definition frames {A} (c : PM A) : Prop := forall r : Run N, r_intent (c r).1 = r_intent r.

Lemma frames_bind {A B} (c : PM A) (k : A -> PM B) : frames c -> (forall a, frames (k a)) -> frames (p_bind c k).
Proof.
  intros Hc Hk r. unfold p_bind. specialize (Hc r). destruct (c r) as [r' [a|e|cl|]]; cbn in *; [|done..]. by rewrite Hk.
Qed.
Lemma frames_lift {A} (c : result PublicationErrorKind A) : frames (p_lift c).
Proof. intros r. by destruct c. Qed.
Lemma frames_on_store {A} (c : M A) : frames (on_store c).
Proof. intros r. unfold on_store. by destruct (c (r_world r)) as [w []]. Qed.
Lemma frames_wire : frames on_wire.
Proof. intros r. unfold on_wire. by destruct (r_wire r) as [|[] wire]. Qed.
Lemma frames_now : frames wall_unix_micros.
Proof. intros r. unfold wall_unix_micros. by destruct (link_now (r_net r)) as [n []]. Qed.

Create HintDb frames.
#[local] Hint Resolve frames_lift frames_on_store frames_wire frames_now : frames.
Ltac frame :=
  repeat first
    [ by eauto with frames | apply frames_bind; [|intros ?] | by intros ?
    | match goal with |- frames (match ?x with _ => _ end) => destruct x end ].

Lemma frames_put bytes : frames (put_exact key bytes).
Proof. unfold put_exact, answered, p_guard. frame. intros r. by destruct (link_put _ _ _). Qed.
Lemma frames_get bytes : frames (verify_visible key config bytes).
Proof. unfold verify_visible, answered, p_guard. frame. intros r. by destruct (link_get _ _). Qed.
#[local] Hint Resolve frames_put frames_get : frames.
Lemma frames_replace b : frames (replace_state euid b).
Proof. unfold replace_state. frame. Qed.
#[local] Hint Resolve frames_replace : frames.
Lemma frames_submit failpoint : frames (submit_pending euid key config failpoint).
Proof. unfold submit_pending, stored_bytes, p_guard. frame. Qed.
#[local] Hint Resolve frames_submit : frames.
Lemma frames_locked ls failpoint recover : frames (transition_locked euid key config ls failpoint recover).
Proof.
  assert (forall now margin, frames (transition_anew euid key config ls now margin failpoint)) as Hanew.
  { intros now margin. unfold transition_anew, reuse_committed, stored_bytes, p_guard. frame. }
  unfold transition_locked, store_healthy, recover_pending, retire_pending. frame.
Qed.
#[local] Hint Resolve frames_locked : frames.
Lemma frames_recorded failpoint : frames (transition_recorded euid key config failpoint).
Proof. unfold transition_recorded, refuse_closing, persist_latest_desired, p_guard. frame. Qed.

(** *** The public operations *)

Lemma in_time_works {A} (c : PM A) r (Q : A -> Run N -> Prop) : works c r Q -> works (in_time c) r Q.
Proof. unfold works, in_time. by destruct (c r) as [r' []]. Qed.

Lemma or_else_works {A} (first second : PM A) r (Q : A -> Run N -> Prop) :
  frames first -> works first r Q -> (forall r', run_ok r' -> r_intent r' = r_intent r -> works second r' Q) ->
  works (or_else first second) r Q.
Proof.
  intros Hf H1w H2w. unfold works, or_else in *. specialize (Hf r). destruct (first r) as [r' [a|e|cl|]]; try done.
  by apply H2w.
Qed.

Lemma refresh_works r : run_ok r -> works (refresh_current euid key config) r (publishes (r_intent r).2).
Proof. intros Hr. apply works_seq, closing_works; [done|intros _]. by apply recorded_works. Qed.

Lemma frames_refresh : frames (refresh_current euid key config).
Proof.
  unfold refresh_current, refuse_closing, p_guard. pose proof frames_recorded as Hf. frame.
Qed.

Lemma retry_works r : run_ok r -> works (refresh_with_retry euid key config) r (publishes (r_intent r).2).
Proof.
  intros Hr. apply in_time_works, or_else_works; [apply frames_refresh|by apply refresh_works|].
  intros r' Hr' Hi. rewrite <-Hi. by apply refresh_works.
Qed.

Lemma turn_works r : run_ok r -> works (refresh_turn euid key config) r (publishes (r_intent r).2).
Proof.
  intros Hr. pose proof (retry_works r Hr) as Hw. unfold works, refresh_turn in *.
  destruct (refresh_with_retry euid key config r) as [r' [a|e|cl|]] eqn:E; try done.
  cbn. by destruct (r_fatal r'), Hw.
Qed.

Lemma update_works r ls :
  run_ok r -> Forall plain_location ls ->
  works (update_locations euid key config ls) r (fun receipt r' =>
    exists intended, canonical_locations ls = Ok intended /\ publishes intended receipt r').
Proof.
  intros Hr Hp. unfold update_locations. apply works_seq. eapply works_mono; [by apply intend_works|].
  intros [] r1 [Hr1 Hc]. eapply works_mono with (P := publishes (r_intent r1).2); [|eauto].
  apply in_time_works, or_else_works; [apply frames_recorded|by apply recorded_works|].
  intros r' Hr' Hi. rewrite <-Hi. by apply refresh_works.
Qed.

Lemma closed_ok r : run_ok r -> run_ok (with_closing r).
Proof. by intros []. Qed.

Lemma withdraw_works r : run_ok r -> works (withdraw_for_shutdown euid key config) r (publishes []).
Proof.
  intros Hr. unfold withdraw_for_shutdown, record_shutdown_intent. apply works_seq, works_seq.
  change (works (set_intent []) (with_closing r) (fun _ r' => works (p_bind (persist_latest_desired euid)
    (fun ls => p_bind (p_guard (bool_decide (ls <> [])) KState) (fun _ => transition_locked euid key config ls NoFailpoint false)))
    r' (publishes []))).
  eapply works_mono; [apply intent_works; [by apply closed_ok|apply canonical_nil|done|]|].
  { unfold relays_allowed. apply andb_false_r. }
  intros [] r1 [Hr1 Hi]. apply works_seq. eapply works_mono; [by apply persist_works|].
  intros ls r2 (Hr2 & Hv2 & -> & _). rewrite Hi in *. apply works_seq, works_guard; [done|intros _].
  eapply works_mono; [by apply locked_works|]. by intros receipt r3 (? & _ & ? & ?).
Qed.

Lemma shutdown_works r : run_ok r -> works (shutdown euid key config) r (publishes []).
Proof.
  intros Hr. apply in_time_works. unfold works, p_bind. exact (withdraw_works _ (closed_ok _ Hr)).
Qed.

Lemma startup_works r ls :
  run_ok r -> canonical ls -> Forall plain_location ls -> works (startup euid key config ls) r (publishes ls).
Proof.
  intros Hr Hc Hp. unfold works, startup.
  assert (works (in_time (transition euid key config ls NoFailpoint)) r (publishes ls)) as Hw.
  { apply in_time_works. unfold transition. apply works_seq. eapply works_mono; [by apply intend_works|].
    intros [] r1 [Hr1 Hc1]. unfold canonical in Hc. rewrite Hc in Hc1. injection Hc1 as ->. by apply recorded_works. }
  unfold works in Hw. destruct (in_time _ r) as [r' [a|e|cl|]]; try done.
  pose proof (in_time_works _ _ _ (withdraw_works _ (closed_ok _ Hw))) as Hx. unfold works in Hx.
  destruct (in_time _ (with_closing r')) as [r'' []]; try done. apply Hx.
Qed.

Lemma current_works r : run_ok r -> works (current_record) r (fun _ r' => run_ok r').
Proof.
  intros Hr. unfold current_record. apply works_seq, closing_works; [done|intros _]. apply works_seq, works_get.
  apply works_seq. eapply works_mono with (P := fun _ r' => r' = r); [by destruct (r_fatal r)|]. intros [] _ ->.
  apply works_seq, healthy_works; [done|intros Hl]. apply works_seq, works_get.
  destruct (ps_committed (r_state r)); [|by apply works_ret].
  apply works_seq, stored_bytes_works; [done|]. intros bytes _. apply works_seq, works_lift; [done|]. intros record _.
  apply works_seq, now_works; [done|]. intros n now _ _. apply works_seq, works_guard; [by apply net_ok|intros _].
  apply works_ret. by apply net_ok.
Qed.

Lemma some_works c r P : works c r P -> (forall a r', P a r' -> run_ok r') -> works (some_receipt c) r (fun _ r' => run_ok r').
Proof. intros Hc HP. apply works_seq. eapply works_mono; [exact Hc|]. intros a r' Ha. apply works_ret. by eapply HP. Qed.

Lemma op_works op r : run_ok r -> op_plain op -> works (run_op euid key config op) r (fun _ r' => run_ok r').
Proof.
  intros Hr Hp. destruct op as [ls|failpoint|ls| | |]; cbn [run_op].
  - apply works_seq. eapply works_mono; [by apply intend_works|]. intros [] r' [? _]. by apply works_ret.
  - eapply some_works; [by apply in_time_works, recorded_works|]. by intros a r' [[? _] _].
  - eapply some_works; [by apply update_works|]. by intros a r' (? & _ & [? _] & _).
  - eapply some_works; [by apply turn_works|]. by intros a r' [[? _] _].
  - eapply some_works; [by apply shutdown_works|]. by intros a r' [[? _] _].
  - apply works_seq. eapply works_mono; [by apply current_works|]. intros o r' ?. by apply works_ret.
Qed.

(** *** Opening *)

(** What NodePublicationConfig::new leaves in the configuration; relay
    locations come only with the relay capability. *)
Context (config_canonical : canonical (pc_initial_locations config)) (config_plain : Forall plain_location (pc_initial_locations config))
  (config_relays : relays_allowed (pc_initial_locations config)).

Lemma fresh_body_valid : valid (fresh key config) (pc_initial_locations config).
Proof.
  split; try done. split; try done; [by apply desired_of_stored|..]; intros p; by intros [].
Qed.

Lemma prepared_body loaded b : prepare_state key config loaded = Ok b -> b = default (fresh key config) loaded.
Proof. destruct loaded as [x|]; cbn; [|by intros [= <-]]. by intros ([] & _ & [= <-])%result_bind_ok. Qed.

(** Opening a directory that keeps [b] gives [b], or fails with [b] kept. *)
Lemma open_kept d b ls faults next :
  valid b ls -> kept d b ->
  runs (open euid key config) (restarted d faults next) (fun w' o =>
    images w' (fun d => kept d b) /\
    forall x, o = Ret x -> x = b /\ w_poisoned w' = false /\ at_rest w' b).
Proof.
  intros Hv Hk. set (w0 := restarted d faults next).
  destruct (keeps_holds euid encode_state encode_anchor Publisher.from_state evolves (fresh key config) d b faults next Hk)
    as (s & a & Hw & Hs & Ha).
  unfold open. eapply (runs_quiet w0); [done|apply acquire_lock_quiet|intros w1 _ Hs1 _|].
  2: { intros w' o Hd Ho. split; [|intros x E; by destruct (Ho x)].
       eapply images_mono; [by apply holds_images, (same_holds euid w0)|]. intros d' Hd'. by exists s, a. }
  eapply runs_bind.
  { refine (load_settled euid MAX_STATE_BYTES _ _ _ _ _ _ _ (fresh key config) (prepare_state key config) prepared_body
      w1 s a b _ Hs Ha). by apply (same_holds euid w0). }
  - intros w2 x (Hp & Hx & Hi). destruct (Hx x eq_refl) as [-> Hrest].
    assert (w_poisoned w2 = false) as Hp2 by (rewrite Hp; by destruct Hs1 as (_ & _ & ->)).
    case_bool_decide; [apply runs_ret; split; [done|by intros x [= <-]]|].
    eapply runs_bind; [exact (write_settled euid MAX_STATE_BYTES _ _ _ _ _ _ _ _ w2 _ _ Hrest (evolves_refl _ (valid_plain _ _ Hv)))| | |].
    + intros w3 [] [[Hq Hset] Hi3]. apply runs_ret. split; [|intros x [= <-]; split_and!; [done|congruence|done]].
      eapply images_mono; [exact Hi3|]. by intros d' [].
    + intros w3 e [_ Hi3]. split; [|done]. eapply images_mono; [exact Hi3|]. by intros d' [].
    + intros w3 [_ Hi3]. split; [|done]. eapply images_mono; [exact Hi3|]. by intros d' [].
  - intros w2 e (_ & _ & Hi). by split.
  - intros w2 (_ & _ & Hi). by split.
Qed.

Lemma opened d n wire sent faults next w o :
  dir_ok sent d -> open_publisher euid key config (restarted d faults next) n wire sent = (w, o) ->
  images w (dir_ok sent) /\ forall r, o = Ret r -> run_ok r /\ r_sent r = sent.
Proof.
  intros (b & ls & Hv & Hs & Hk) E. unfold open_publisher in E.
  pose proof (open_kept d b ls faults next Hv Hk) as Ho. unfold runs in Ho.
  destruct (open euid key config (restarted d faults next)) as [w' o']. destruct Ho as [Hi Ho].
  assert (images w' (dir_ok sent)) as Hok.
  { eapply images_mono; [exact Hi|]. intros d' Hd'. by exists b, ls. }
  destruct o' as [x|e|]; [|by injection E as <- <-|by injection E as <- <-].
  destruct (Ho x eq_refl) as (-> & Hp & Hrest). rewrite (lo_desired _ _ (va_loaded _ _ Hv)) in E. injection E as <- <-.
  split; [done|]. intros r [= <-]. split; [|done]. split; try done; [|by right]. exists ls. split; [done|].
  split; cbn; try done; apply Hv.
Qed.

(** *** Every step keeps the invariant *)

Notation step := (pstep euid key config).
Definition node_ok (s : Node) : Prop := match s with On r => run_ok r | Off d _ sent => dir_ok sent d end.

Lemma prepared_ok r faults wire : run_ok r -> run_ok (prepared r faults wire).
Proof. by intros []. Qed.

Lemma startup_list_ok ls ls' : startup_locations ls = Ok ls' -> Forall plain_location ls -> canonical ls' /\ Forall plain_location ls'.
Proof.
  intros (x & Hc & Hx)%result_bind_ok Hp. apply result_bind_ok in Hx as (_ & _ & [= <-]).
  split; [by eapply canonical_result|]. apply canonical_ok in Hc as (_ & -> & _).
  rewrite Forall_forall in *. intros l Hl. by apply Hp, sort_dedup_elem.
Qed.

Lemma step_ok s s' : node_ok s -> step s s' -> node_ok s'.
Proof.
  intros Hs Hstep. destruct Hstep as
    [r op fs wi r' o Hp E Ho|r op fs wi r' d Hp E Hd|r d Hd|r n|d n n' sent
    |d n sent fs nx wi ls ls' w r r' receipt Hp Hls E E'|d n sent fs nx wi w o d' E Ho Hd'
    |d n sent fs nx wi ls ls' w r r' o d' Hp Hls E E' Ho Hd'].
  - pose proof (op_works op _ (prepared_ok r fs wi Hs) Hp) as Hw. unfold works in Hw. rewrite E in Hw. by destruct o.
  - pose proof (op_works op _ (prepared_ok r fs wi Hs) Hp) as Hw. unfold works in Hw. rewrite E in Hw. by apply Hw.
  - by apply (ro_disk _ Hs).
  - by apply net_ok.
  - done.
  - destruct (opened _ _ _ _ _ _ _ _ Hs E) as [_ Hr]. destruct (Hr r eq_refl) as [Hrun _].
    destruct (startup_list_ok _ _ Hls Hp) as [Hc Hpl].
    pose proof (startup_works r ls' Hrun Hc Hpl) as Hw. unfold works in Hw. rewrite E' in Hw. apply Hw.
  - destruct (opened _ _ _ _ _ _ _ _ Hs E) as [Hi _]. by apply Hi.
  - destruct (opened _ _ _ _ _ _ _ _ Hs E) as [_ Hr]. destruct (Hr r eq_refl) as [Hrun _].
    destruct (startup_list_ok _ _ Hls Hp) as [Hc Hpl].
    pose proof (startup_works r ls' Hrun Hc Hpl) as Hw. unfold works in Hw. rewrite E' in Hw.
    destruct o; [by destruct (Ho a)| | |by apply Hw]; by apply (ro_disk _ Hw).
Qed.

Lemma steps_ok s s' : node_ok s -> rtc step s s' -> node_ok s'.
Proof. intros Hs Hsteps. induction Hsteps; [done|]. eauto using step_ok. Qed.

Lemma empty_ok d n : disk_is euid d None None -> node_ok (Off d n []).
Proof.
  intros Hd. exists (fresh key config), (pc_initial_locations config). split_and!; [apply fresh_body_valid|apply sent_nil|].
  exists None, None. split_and!; [done|done|done|]. apply evolves_refl, (valid_plain _ _ fresh_body_valid).
Qed.

(** ** Theorems *)

(** C9: a node never equivocates.  From an empty state directory, whatever the
    authority answers, whichever calls fail, wherever the process dies and
    however often it starts again, every packet handed to the network is a
    record of this node for its namespace and recipient, and two packets with
    the same sequence number are the same packet. *)
Theorem no_equivocation d n s :
  disk_is euid d None None -> rtc step (Off d n []) s ->
  (forall q, q ∈ sent_by s -> exists r, decode_node_record q = Ok r /\ own_record r) /\
  forall q q' r r', q ∈ sent_by s -> q' ∈ sent_by s -> decode_node_record q = Ok r -> decode_node_record q' = Ok r' ->
    nr_sequence r = nr_sequence r' -> q = q'.
Proof.
  intros Hd Hsteps. eapply steps_ok in Hsteps; [|by apply empty_ok].
  assert (exists b, sent_ok b (sent_by s)) as [b Hs].
  { destruct s as [r|d' n' sent]; [exists (r_state r); apply Hsteps|]. destruct Hsteps as (b & ls & _ & Hs & _). by exists b. }
  split; [|apply Hs]. intros q Hq. destruct (se_own _ _ Hs q Hq) as (r & ? & ? & _). by exists r.
Qed.

(** The locations an operation is meant to publish. *)
Definition intends (op : Op) (r : Run N) (intended : list NodeLocation) : Prop :=
  match op with
  | OpUpdate ls => canonical_locations ls = Ok intended
  | OpShutdown => intended = []
  | _ => intended = (r_intent r).2
  end.

Lemma op_publishes op r r' receipt :
  run_ok r -> op_plain op -> run_op euid key config op r = (r', Done (Some receipt)) ->
  exists intended, intends op r intended /\ publishes intended receipt r'.
Proof.
  intros Hr Hp E.
  assert (forall (c : PM PublicationReceipt) P, works c r P -> some_receipt c r = (r', Done (Some receipt)) -> P receipt r') as Hsome.
  { intros c P Hc Es. unfold works, some_receipt, p_bind in *. destruct (c r) as [r1 []]; try done. injection Es as -> ->. done. }
  destruct op as [ls|failpoint|ls| | |]; cbn [run_op intends] in *.
  - unfold p_bind in E. by destruct (intend config ls r) as [? []].
  - exists (r_intent r).2. split; [done|]. exact (Hsome _ _ (in_time_works _ _ _ (recorded_works _ _ Hr)) E).
  - destruct (Hsome _ _ (update_works _ _ Hr Hp) E) as (i & ? & ?). eauto.
  - exists (r_intent r).2. split; [done|]. exact (Hsome _ _ (turn_works _ Hr) E).
  - exists []. split; [done|]. exact (Hsome _ _ (shutdown_works _ Hr) E).
  - unfold p_bind in E. by destruct (current_record r) as [? []].
Qed.

(** What a receipt means.  When an update, a refresh or a shutdown of a
    publisher in any reachable state returns a receipt, its record is the
    node's own record of exactly the intended locations (none for a shutdown);
    the authority accepted its packet and returned those very bytes to the
    lookup that followed; the packet is the committed one and any later start,
    from whatever a crash leaves, finds the same state; and unless the committed
    packet was reused no packet ever sent has a higher sequence. *)
Theorem receipt_published d n r op faults wire r' receipt :
  disk_is euid d None None -> rtc step (Off d n []) (On r) -> op_plain op ->
  run_op euid key config op (prepared r faults wire) = (r', Done (Some receipt)) ->
  exists intended p bytes n1,
    intends op r intended /\ wants (rc_record receipt) intended /\ own_record (rc_record receipt) /\
    decode_node_record bytes = Ok (rc_record receipt) /\ confirmed bytes n1 /\
    ps_committed (r_state r') = Some p /\ decode_hex MAX_BYTES (sp_packet_hex p) = Ok bytes /\
    (forall d' faults' next w x, crash_image (r_world r') d' ->
      open euid key config (restarted d' faults' next) = (w, Ret x) -> x = r_state r') /\
    (rc_reused_committed_packet receipt = false -> forall q rq, q ∈ r_sent r' -> decode_node_record q = Ok rq ->
      (nr_sequence rq <= nr_sequence (rc_record receipt))%Z).
Proof.
  intros Hd Hsteps Hp E. eapply steps_ok in Hsteps; [|by apply empty_ok]. cbn in Hsteps.
  destruct (op_publishes _ _ _ _ (prepared_ok _ faults wire Hsteps) Hp E) as (i & Hi & Hl & Hpub & Hw).
  destruct Hpub as [(p & bytes & n1 & Hc & Hb & Hr & Hconf & Hin) Hown Hpend Hnew].
  exists i, p, bytes, n1. split_and!; try done.
  - intros d' fs nx w x Hd' Eo. destruct (ro_valid _ (proj1 Hl)) as (ls & Hv & _).
    pose proof (settled_images euid _ _ _ _ _ _ _ (live_rest _ Hl) d' Hd') as Hk.
    pose proof (open_kept d' _ ls fs nx Hv Hk) as Ho. unfold runs in Ho. rewrite Eo in Ho. by destruct (proj2 Ho x eq_refl).
  - intros Hre q rq Hq Hrq. rewrite (Hnew Hre). destruct (se_own _ _ (ro_sent _ (proj1 Hl)) q Hq) as (rq' & Hrq' & _ & Hle).
    by assert (rq' = rq) as <- by congruence.
Qed.

(** ** Starting again *)

(** Sizes of the JSON texts: the anchor holds digests and short names only, so
    it fits where the state does, and the first state has at most sixteen
    locations. *)
Class PublisherJson : Prop := {
  first_state_fits : exists s, encode_state (fresh key config) = Ok s;
  anchor_text_fits b ls s : valid b ls -> encode_state b = Ok s -> exists a, anchor_bytes encode_anchor Publisher.from_state b = Ok a
}.

(** Without faults a directory the publisher left opens. *)
Lemma open_completes `{!PublisherJson} d b ls next :
  valid b ls -> kept d b -> exists w, open euid key config (restarted d [] next) = (w, Ret b).
Proof.
  intros Hv Hk. unfold open, acquire_lock. rewrite !m_bind_assoc, sys_bind by done. do 5 (rewrite ?m_bind_assoc, sys_bind by done).
  destruct (keeps_holds euid encode_state encode_anchor Publisher.from_state evolves (fresh key config) d b [] next Hk)
    as (s0 & a0 & Hw & Hs0 & Ha0).
  pose proof (load_completes euid MAX_STATE_BYTES _ _ _ _ _ _ _ (fresh key config) (prepare_state key config) d b next Hk) as Hc.
  pose proof (load_settled euid MAX_STATE_BYTES _ _ _ _ _ _ _ (fresh key config) (prepare_state key config) prepared_body
    (restarted d [] next) s0 a0 b Hw Hs0 Ha0) as Hl.
  unfold completes, runs in Hc, Hl. unfold m_bind at 1. destruct (load _ _ _ _ _ _ _ _ _) as [w1 o].
  assert (exists s, encode_state b = Ok s) as [s Henc] by (destruct s0; [by eexists|cbn in Hs0; subst b; apply first_state_fits]).
  destruct Hc as [[x ->] Hf]; [|by eapply anchor_text_fits|].
  { intros st Hst. destruct st; cbn; [by rewrite (proj2 (validate_loaded_ok b)) by (eexists; apply Hv)|]. by cbn in Hst; subst b. }
  destruct Hl as (Hp & Hx & _). destruct (Hx x eq_refl) as [-> (s1 & a1 & Hold & _ & Ha1 & _)].
  case_bool_decide as Hsome; [by exists w1|].
  assert (b = fresh key config) as -> by (destruct s0; [by destruct Hsome|done]).
  pose proof (write_completes euid MAX_STATE_BYTES _ _ _ _ _ _ _ w1 _ _ _ _ _ Hf Hp Hold Henc Ha1) as Hwr.
  unfold completes, runs in Hwr. unfold m_bind, store_write.
  destruct (write _ _ _ _ _ _ _) as [w2 o]. destruct Hwr as [[[] ->] _]. by exists w2.
Qed.

(** From whatever a crash leaves, at whatever point of an update, a
    refresh, a shutdown or a start, the publisher opens again as soon as its
    system calls work, with a high-water sequence that no packet sent before
    exceeds. *)
Theorem publisher_reopens `{!PublisherJson} d0 n0 d n sent next wire :
  disk_is euid d0 None None -> rtc step (Off d0 n0 []) (Off d n sent) ->
  exists w r, open_publisher euid key config (restarted d [] next) n wire sent = (w, Ret r) /\
    forall q rq, q ∈ sent -> decode_node_record q = Ok rq -> (nr_sequence rq <= ps_high_water_sequence (r_state r))%Z.
Proof.
  intros Hd Hsteps. eapply steps_ok in Hsteps; [|by apply empty_ok]. destruct Hsteps as (b & ls & Hv & Hs & Hk).
  destruct (open_completes d b ls next Hv Hk) as [w Hw]. unfold open_publisher. rewrite Hw, (lo_desired _ _ (va_loaded _ _ Hv)).
  eexists w, _. split; [reflexivity|]. cbn. intros q rq Hq Hrq.
  destruct (se_own _ _ Hs q Hq) as (rq' & Hrq' & _ & Hle). by assert (rq' = rq) as <- by congruence.
Qed.

(** ** The refresh schedule *)

(** The refresh schedule of an accepted configuration.  A record that has
    its whole lifetime ahead is refreshed after exactly the configured interval;
    any record is looked at again within the interval and, unless that is now,
    before less of its life is left than the retries of one refresh and a second
    may take. *)
Theorem refresh_schedule namespace recipient address host authorization ttl interval deadline initial c record wall delay :
  config_new namespace recipient address host authorization ttl interval deadline initial = Ok c ->
  (0 <= interval)%Z -> (0 <= deadline)%Z -> (0 <= wall)%Z ->
  let reserve := publication_retry_reserve (pc_request_deadline c) in
  refresh_delay record (pc_refresh_interval c) reserve wall = Ok delay ->
  (0 <= delay <= interval)%Z /\
  ((wall + ttl / 1000 <= nr_expires_unix_micros record)%Z -> delay = interval) /\
  ((0 < delay)%Z -> (wall * 1000 + delay + reserve + PUBLICATION_COMPLETION_MARGIN <= nr_expires_unix_micros record * 1000 + 999)%Z).
Proof.
  intros Hc Hi Hdl Hwall reserve Hd. subst reserve.
  apply result_bind_ok in Hc as (_ & _ & Hc). apply result_bind_ok in Hc as (_ & _ & Hc).
  apply result_bind_ok in Hc as (ep & _ & Hc). apply result_bind_ok in Hc as (_ & _ & Hc).
  apply result_bind_ok in Hc as (_ & Httl%reject_if_ok & Hc). apply result_bind_ok in Hc as (_ & Hint%reject_if_ok & Hc).
  apply result_bind_ok in Hc as (_ & Hdead%reject_if_ok & Hc). apply result_bind_ok in Hc as (_ & Hmin%reject_if_ok & Hc).
  apply result_bind_ok in Hc as (ls & _ & Hc). apply result_bind_ok in Hc as (_ & _ & [= <-]).
  cbn [pc_request_deadline pc_refresh_interval] in *. bools.
  unfold refresh_delay in Hd. apply result_bind_ok in Hd as (micros & Hm & [= <-]).
  unfold duration_micros in Hm. apply result_bind_ok in Hm as (_ & _ & [= <-]).
  unfold u64_saturating_sub, saturating_add, publication_retry_reserve, saturating_mul in *.
  change PUBLICATION_TRANSITION_DEADLINE with 5000000000%Z in *. change PUBLICATION_COMPLETION_MARGIN with 1000000000%Z in *.
  change DURATION_MAX with 18446744073709551615999999999%Z in *.
  set (reserve := (5000000000 `min` _)%Z) in *. assert (0 <= reserve <= 5000000000)%Z as Hres by (subst reserve; lia).
  clearbody reserve.
  pose proof (Z.div_mod (reserve + 1000000000) 1000 ltac:(lia)). pose proof (Z.mod_pos_bound (reserve + 1000000000) 1000 ltac:(lia)).
  rewrite (Z.min_r _ (reserve + 1000000000)) in * by lia.
  pose proof (Z.div_mod ttl 1000000000 ltac:(lia)) as Ht. unfold as_secs in *. set (k := (ttl / 1000000000)%Z) in *.
  assert (ttl / 1000 = k * 1000000)%Z as -> by (rewrite Ht; replace (1000000000 * k + ttl mod 1000000000)%Z with (k * 1000000 * 1000)%Z by lia;
    apply Z.div_mul; lia).
  assert (k <= 4294967295)%Z by (unfold u32_max in *; lia).
  set (q := ((reserve + 1000000000) / 1000)%Z) in *. split_and!; lia.
Qed.

End publisher_laws.
