(* ===== verification/Publication.v ===== *)
(** * Publishing to an authority

    The publisher of Publisher.v against an authority that behaves as the
    register of Authority.v ([RegisterLink]), and the discharge of that contract
    by the authority itself behind the HTTP client and server of PinnedHttp.v.

    The theorems: an update and a shutdown of a healthy node whose committed
    packet cannot be reused reach the authority and are confirmed; and a case in
    which they are not, a committed packet that would be reused and that a later
    escaped packet has overtaken. *)

From Stdlib Require Import Strings.Byte ZArith Lia.
From stdpp Require Import base gmap numbers strings sorting list.
From S2P Require Import Prelude Hex Text Ids RecordCodec Lan SockAddr NodeRecord StateDir Authority PinnedHttp Publisher PublisherProps.

(** ** What the publisher relies on *)

(** Behind the client, for the one signer [key], is a register: [rl_slot] is
    what it holds, [rl_clock] its time, [rl_late] that its own deadline for the
    record has passed.  [rl_up] says that it answers. *)
Class RegisterLink `{Ed25519, Pkarr, Dns, Urls} (N : Type) `{Link N} (key : SigningKey) (accepts : NodeRecord -> Prop) := {
  rl_up : N -> Prop;
  rl_slot : N -> Register.t;
  rl_clock : N -> Z;
  rl_late : N -> bool;
  link_clock n : rl_up n -> link_now n = (n, Some (rl_clock n)) /\ (0 < rl_clock n)%Z;
  link_puts n p r : rl_up n -> decode_node_record (as_bytes p) = Ok r -> nr_node_id r = node_id key -> accepts r ->
    let '(s, a) := Register.put (rl_slot n) (rl_clock n) (nr_ttl_seconds r) (nr_sequence r) (nr_expires_unix_micros r) (as_bytes p) in
    exists n' response, link_put (signer key) (as_bytes p) n = (n', Ok response) /\ rl_up n' /\ rl_clock n' = rl_clock n /\ rl_slot n' = s /\
      ph_status response = Register.status a /\ (a = Register.Created -> rl_late n' = false);
  link_gets n : rl_up n ->
    let '(s, a) := Register.get (rl_slot n) (rl_clock n) (rl_late n) in
    exists n' response, link_get (signer key) n = (n', Ok response) /\ rl_up n' /\ rl_clock n' = rl_clock n /\ rl_slot n' = s /\
      ph_status response = Register.status a /\ (forall packet, a = Register.Serves packet -> ph_body response = packet)
}.

(** The highest sequence the register has seen. *)
Definition seen (s : Register.t) : Z :=
  match s with Register.Never => -1 | Register.Kept sequence _ _ | Register.Latched sequence => sequence end.

(** ** Operations that succeed *)

Section success.
Context {N : Type} `{Link N}.

Definition succeeds {A} (c : PM A) (r : Run N) (Q : A -> Run N -> Prop) : Prop := exists r' a, c r = (r', Done a) /\ Q a r'.

Lemma succeeds_seq {A B} (c : PM A) (k : A -> PM B) r (Q : B -> Run N -> Prop) :
  succeeds c r (fun a r' => succeeds (k a) r' Q) -> succeeds (p_bind c k) r Q.
Proof. intros (r' & a & E & r'' & b & E' & HQ). exists r'', b. split; [|done]. unfold p_bind. by rewrite E. Qed.

Lemma succeeds_mono {A} (c : PM A) r (P Q : A -> Run N -> Prop) :
  succeeds c r P -> (forall a r', P a r' -> Q a r') -> succeeds c r Q.
Proof. intros (r' & a & E & HP) HPQ. exists r', a. auto. Qed.

Lemma succeeds_ret {A} (a : A) r (Q : A -> Run N -> Prop) : Q a r -> succeeds (p_ret a) r Q.
Proof. intros HQ. by exists r, a. Qed.

Lemma succeeds_get {A} (f : Run N -> A) r (Q : A -> Run N -> Prop) : Q (f r) r -> succeeds (p_get f) r Q.
Proof. intros HQ. by exists r, (f r). Qed.

Lemma succeeds_lift {A} (c : result PublicationErrorKind A) a r (Q : A -> Run N -> Prop) : c = Ok a -> Q a r -> succeeds (p_lift c) r Q.
Proof. intros -> HQ. by exists r, a. Qed.

Lemma succeeds_guard refuse e r (Q : unit -> Run N -> Prop) : refuse = false -> Q tt r -> succeeds (p_guard refuse e) r Q.
Proof. intros -> HQ. by exists r, tt. Qed.

Lemma p_bind_done {A B} (c : PM A) (k : A -> PM B) (r r' : Run N) a : c r = (r', Done a) -> p_bind c k r = k a r'.
Proof. unfold p_bind. by intros ->. Qed.
Lemma p_bind_failed {A B} (c : PM A) (k : A -> PM B) (r r' : Run N) e : c r = (r', Failed e) -> p_bind c k r = (r', Failed e).
Proof. unfold p_bind. by intros ->. Qed.

Lemma succeeds_wire r (Q : unit -> Run N -> Prop) : r_wire r = [] -> Q tt r -> succeeds on_wire r Q.
Proof. intros Hw HQ. exists r, tt. unfold on_wire. by rewrite Hw. Qed.
End success.

Section landing.
Context `{Ed25519, Pkarr, Dns, Urls, Blake3Hex, !PkarrLaws, !DnsLaws, !UrlLaws, Json (list StoredDesiredLocation)}.
Context `{Json PublicationStateBody, Json (Envelope PublicationStateBody),
          !JsonLaws (Envelope PublicationStateBody) (fun e => plain_body (env_body e))}.
Context `{Json PublicationAnchorBody, Json (Envelope PublicationAnchorBody),
          !JsonLaws (Envelope PublicationAnchorBody) (fun _ => True)}.
Context (euid : Z) (key : SigningKey) (config : NodePublicationConfig).
Context {N : Type} `{Link N} (accepts : NodeRecord -> Prop) `{!RegisterLink N key accepts}.

Notation valid := (valid key config).
Notation run_live := (run_live euid key config).

(** A state and its anchor fit their files. *)
Definition body_fits (b : PublicationStateBody) : Prop :=
  exists s a, encode_state b = Ok s /\ anchor_bytes encode_anchor Publisher.from_state b = Ok a.

(** A healthy node with nothing in its way. *)
Record calm (r : Run N) : Prop := {
  cm_live : run_live r;
  cm_faults : w_faults (r_world r) = [];
  cm_wire : r_wire r = [];
  cm_up : rl_up (r_net r)
}.

Lemma replace_succeeds r b ls :
  calm r -> body_fits b -> evolves (r_state r) b -> valid b ls -> intent_ok config b ls (r_intent r) -> sent_ok key config b (r_sent r) ->
  succeeds (replace_state euid b) r (fun _ r' => calm r' /\ exists w, r' = with_state (with_world r w) b).
Proof.
  intros [Hl Hf Hw Hu] (s1 & a1 & Hs1 & Ha1) Hev Hv Hi Hs.
  destruct (live_rest euid key config r Hl) as (s & a & Hold & _).
  pose proof (write_completes euid MAX_STATE_BYTES _ _ _ _ _ _ _ (r_world r) b s (Some a) s1 a1 Hf (proj2 Hl) Hold Hs1 Ha1) as Hc.
  pose proof (replace_works euid key config r b ls (proj1 Hl) Hev Hv Hi Hs) as Hwk.
  unfold succeeds, works, replace_state, p_bind, on_store, completes, runs in *.
  change (write euid MAX_STATE_BYTES encode_state encode_anchor Publisher.from_state b) with (store_write euid b) in Hc.
  destruct (store_write euid b (r_world r)) as [w o]. destruct Hc as [[[] ->] Hf'].
  destruct Hwk as [Hl' [w' E]]. eexists _, _. split; [reflexivity|]. split; [|by exists w]. split; cbn; done.
Qed.

Lemma calm_net r n wire sent : calm r -> rl_up n -> sent_ok key config (r_state r) sent -> wire = [] -> calm (with_net r n wire sent).
Proof. intros [Hl Hf Hw Hu] Hn Hs ->. split; [by apply net_live|done|done|done]. Qed.

Lemma now_succeeds r (Q : Z -> Run N -> Prop) : calm r -> Q (rl_clock (r_net r)) r -> succeeds wall_unix_micros r Q.
Proof.
  intros Hc HQ. destruct (link_clock (r_net r) (cm_up _ Hc)) as [E _]. exists r, (rl_clock (r_net r)). split; [|done].
  unfold wall_unix_micros. rewrite E. f_equal. by destruct r.
Qed.

Lemma duration_small d : (d <= 20000000000)%Z -> duration_micros d = Ok (d / 1000)%Z.
Proof.
  intros Hd. unfold duration_micros. cbv zeta. rewrite (proj2 (Z.ltb_ge u64_max (d / 1000))); [done|].
  assert (d / 1000 <= 20000000000 / 1000)%Z as Hle by (apply Z.div_le_mono; lia). change (20000000000 / 1000)%Z with 20000000%Z in Hle.
  unfold u64_max. lia.
Qed.

Definition reuse_margin : Z := reusable_start_margin config / 1000.

(** Whether the committed packet would be sent again. *)
Definition reusable (b : PublicationStateBody) (ls : list NodeLocation) (now : Z) : bool :=
  match ps_committed b with
  | None => false
  | Some c =>
      match decode_hex MAX_BYTES (sp_packet_hex c) with
      | Ok bytes => match decode_node_record bytes with Ok record => suits config record ls now reuse_margin | Err _ => false end
      | Err _ => false
      end
  end.

Lemma margins_ok :
  duration_micros (completion_reserve config) = Ok (completion_reserve config / 1000)%Z /\
  duration_micros (reusable_start_margin config) = Ok reuse_margin.
Proof.
  assert (completion_reserve config <= 6000000000 /\ reusable_start_margin config <= 11000000000)%Z as [Hr Hm].
  { unfold reusable_start_margin, completion_reserve, saturating_add, publication_retry_reserve, single_submission_bound.
    change PUBLICATION_TRANSITION_DEADLINE with 5000000000%Z. change PUBLICATION_COMPLETION_MARGIN with 1000000000%Z. lia. }
  split; apply duration_small; lia.
Qed.

Lemma reuse_declines r ls :
  calm r -> valid (r_state r) ls -> reusable (r_state r) ls (rl_clock (r_net r)) = false ->
  reuse_committed key config ls (rl_clock (r_net r)) reuse_margin r = (r, Done None).
Proof.
  intros Hc Hv Hre. unfold reuse_committed, reusable in *. unfold p_bind at 1, p_get.
  destruct (ps_committed (r_state r)) as [c|] eqn:Ec; [|done].
  destruct (lo_packets _ _ _ _ (va_loaded _ _ _ _ Hv) c (or_introl Ec)) as (bytes & record & Hh).
  unfold stored_bytes, p_bind. rewrite (ph_hex _ _ _ _ _ _ _ Hh) in *. cbn [map_err p_lift p_ret].
  rewrite (ph_record _ _ _ _ _ _ _ Hh) in *. cbn [map_err p_lift p_ret]. by rewrite Hre.
Qed.

(** The packet the node has to encode now encodes. *)
Definition encodable (b : PublicationStateBody) (ls : list NodeLocation) (now : Z) : Prop :=
  forall sequence, next_sequence now (last_sequence b) = Ok sequence ->
    exists ttl_micros packet, duration_micros (pc_ttl config) = Ok ttl_micros /\ (sequence + ttl_micros <= u64_max)%Z /\
      encode_node_record key (pc_namespace config) (pc_signed_recipient config) (ttl_seconds config) sequence
        (sequence + ttl_micros) (desired_state ls) ls = Ok packet.

Lemma decoded_packet bytes r : decode_node_record bytes = Ok r -> exists p, as_bytes p = bytes.
Proof. intros (p & _ & Hp & _)%decode_spells. exists p. by apply bytes_of_packet. Qed.

(** The register takes [r] now and serves it. *)
Definition takes (n : N) (r : NodeRecord) : Prop :=
  (seen (rl_slot n) < nr_sequence r)%Z /\
  (rl_clock n < nr_expires_unix_micros r <= rl_clock n + nr_ttl_seconds r * 1000000 + 1000000)%Z.

Lemma takes_put n r bytes :
  takes n r -> Register.put (rl_slot n) (rl_clock n) (nr_ttl_seconds r) (nr_sequence r) (nr_expires_unix_micros r) bytes =
    (Register.Kept (nr_sequence r) (nr_expires_unix_micros r) bytes, Register.Created).
Proof.
  intros [Hs He]. unfold Register.put. rewrite (proj2 (Z.ltb_lt _ _) (proj1 He)), (proj2 (Z.leb_le _ _) (proj2 He)). cbn [andb negb].
  destruct (rl_slot n); cbn in Hs; [done|..]; by rewrite (proj2 (Z.ltb_lt _ _) Hs).
Qed.

Context (accepts_own : forall r, own_record key config r -> accepts r).

Lemma submit_lands r ls p bytes record :
  calm r -> valid (r_state r) ls -> ps_pending (r_state r) = Some p ->
  packet_holds key config (r_state r) ls p bytes record -> takes (r_net r) record ->
  body_fits (with_packets (r_state r) (ps_high_water_sequence (r_state r)) (Some p) None) ->
  succeeds (submit_pending euid key config NoFailpoint) r (fun receipt r' =>
    rc_record receipt = record /\ rc_reused_committed_packet receipt = false /\
    rl_slot (r_net r') = Register.Kept (nr_sequence record) (nr_expires_unix_micros record) bytes).
Proof.
  intros Hc Hv Hp Hh Htakes Hfit.
  assert (own_record key config record) as Hown by (split; apply Hh).
  destruct (decoded_packet _ _ (ph_record _ _ _ _ _ _ _ Hh)) as [packet Hpk].
  unfold submit_pending. apply succeeds_seq, succeeds_get. apply succeeds_seq. eapply succeeds_lift; [by rewrite Hp|].
  apply succeeds_seq. eapply succeeds_lift; [by rewrite (ph_hex _ _ _ _ _ _ _ Hh)|].
  pose proof (sent_put key config _ _ _ _ _ Hv (ro_sent _ _ _ _ (proj1 (cm_live _ Hc))) (or_intror Hp) (ph_hex _ _ _ _ _ _ _ Hh)) as Hsent.
  pose proof (link_puts (r_net r) packet record (cm_up _ Hc)) as Hput. rewrite Hpk, (takes_put _ _ bytes Htakes) in Hput.
  destruct Hput as (n1 & put & Eput & Hu1 & Hck1 & Hs1 & Hst1 & Hlate); [apply Hh|apply Hh|by apply accepts_own|].
  specialize (Hlate eq_refl). unfold put_exact. apply succeeds_seq, succeeds_seq, succeeds_wire; [apply Hc|].
  apply succeeds_seq. eexists _, _. split; [rewrite Eput; reflexivity|].
  assert (calm (with_net r n1 (r_wire r) (r_sent r ++ [bytes]))) as Hc1 by (apply calm_net; [done..|apply Hc]).
  apply succeeds_seq, succeeds_wire; [apply Hc1|]. apply succeeds_seq. eapply succeeds_lift; [reflexivity|].
  apply succeeds_guard; [by rewrite Hst1|]. apply succeeds_seq, succeeds_guard; [done|].
  pose proof (link_gets n1 Hu1) as Hget. rewrite Hs1 in Hget. cbn [Register.get] in Hget. rewrite Hlate, orb_false_r, Hck1 in Hget.
  rewrite (proj2 (Z.leb_gt _ _) (proj1 (proj2 Htakes))) in Hget.
  destruct Hget as (n2 & get & Eget & Hu2 & Hck2 & Hs2 & Hst2 & Hbody). specialize (Hbody _ eq_refl).
  unfold verify_visible. apply succeeds_seq, succeeds_seq, succeeds_wire; [apply Hc1|].
  apply succeeds_seq. eexists _, _. split; [cbn [r_net with_net]; rewrite Eget; reflexivity|].
  assert (calm (with_net (with_net r n1 (r_wire r) (r_sent r ++ [bytes])) n2 (r_wire r) (r_sent r ++ [bytes]))) as Hc2
    by (apply calm_net; [done..|apply Hc]).
  apply succeeds_seq, succeeds_wire; [apply Hc2|]. apply succeeds_seq. eapply succeeds_lift; [reflexivity|].
  apply succeeds_seq, succeeds_guard; [by rewrite Hst2|].
  apply succeeds_seq, succeeds_guard; [rewrite Hbody; by apply bool_decide_eq_false; auto|].
  apply succeeds_seq. eapply succeeds_lift; [by rewrite Hbody, (ph_record _ _ _ _ _ _ _ Hh)|].
  apply succeeds_guard; [by rewrite (ow_node _ _ _ Hown), (ow_namespace _ _ _ Hown), (ow_recipient _ _ _ Hown), !bool_decide_false by auto|].
  apply succeeds_seq. eapply succeeds_lift; [by rewrite (ph_record _ _ _ _ _ _ _ Hh)|].
  destruct (commit_valid key config _ _ _ Hv Hp) as [Hvb Hev].
  destruct (run_ok_live euid key config r ls (cm_live _ Hc) Hv) as (ls' & -> & Hi).
  apply succeeds_seq. eapply succeeds_mono; [eapply replace_succeeds; try done|].
  - destruct Hi. by split.
  - eapply sent_moves; [exact Hsent|done|]. intros q [E|E]; [injection E as <-; left; by right|done].
  - intros [] r3 [Hc3 [w ->]]. by apply succeeds_ret.
Qed.

(** The node's clock and the register's agree to a second with what was used
    before, and the register has seen nothing the node does not know of. *)
Record in_step (n : N) (b : PublicationStateBody) : Prop := {
  is_seen : (seen (rl_slot n) <= ps_high_water_sequence b)%Z;
  is_clock : (ps_high_water_sequence b < rl_clock n + 1000000)%Z;
  is_range : (rl_clock n + 1000000 <= u64_max)%Z
}.

Lemma prepare_lands r ls :
  valid (r_state r) ls -> in_step (r_net r) (r_state r) -> (0 < rl_clock (r_net r))%Z -> encodable (r_state r) ls (rl_clock (r_net r)) ->
  exists b', prepare_pending key config (r_state r) ls (rl_clock (r_net r)) = Ok b' /\
    forall p bytes record, ps_pending b' = Some p -> packet_holds key config b' ls p bytes record -> takes (r_net r) record.
Proof.
  intros Hv [Hseen Hclk Hrng] Hpos Henc. set (now := rl_clock (r_net r)) in *. set (hw := ps_high_water_sequence (r_state r)) in *.
  assert (exists s, next_sequence now (last_sequence (r_state r)) = Ok s /\ (now <= s <= now + 1000000)%Z /\ (hw < s)%Z)
    as (s & Hs & Hbound & Hlt).
  { pose proof (va_high _ _ _ _ Hv) as Hu. unfold last_sequence, u64_ok in *. fold hw in Hu |- *.
    destruct (Z.eqb_spec hw 0); [exists now; split_and!; cbn; done || lia|].
    unfold next_sequence. rewrite (proj2 (Z.eqb_neq hw u64_max)) by lia. eexists. split; [done|lia]. }
  destruct (Henc s Hs) as (ttl & packet & Httl & Hmax & Hpk). eexists. split.
  - unfold prepare_pending. rewrite Hs. cbn [mbind result_bind]. rewrite Httl. cbn [mbind result_bind].
    unfold u64_checked_add. rewrite (proj2 (Z.leb_le _ _) Hmax). cbn [ok_or mbind result_bind]. rewrite Hpk.
    cbn [map_err mbind result_bind]. reflexivity.
  - intros p bytes record Hp Hh. cbn in Hp. injection Hp as <-.
    pose proof (ph_sequence _ _ _ _ _ _ _ Hh) as Hseq. cbn in Hseq.
    pose proof (decoded_wf _ _ (ph_record _ _ _ _ _ _ _ Hh)) as Hwf. pose proof (rw_expiry _ Hwf). pose proof (rw_ttl _ Hwf).
    unfold takes. fold now. lia.
Qed.

(** The states a transition to [ls] writes. *)
Definition without_pending (b : PublicationStateBody) : PublicationStateBody :=
  with_packets b (ps_high_water_sequence b) (ps_committed b) None.
Definition locked_writes (b : PublicationStateBody) (ls : list NodeLocation) (now : Z) : list PublicationStateBody :=
  without_pending b ::
  match prepare_pending key config (without_pending b) ls now with
  | Ok b' => [b'; with_packets b' (ps_high_water_sequence b') (ps_pending b') None]
  | Err _ => []
  end.
Definition desired (b : PublicationStateBody) (intent : Z * list NodeLocation) : PublicationStateBody :=
  if (ps_desired_revision b <? intent.1)%Z then with_desired b intent.1 (stored_of <$> intent.2) else b.
Definition transition_writes (b : PublicationStateBody) (intent : Z * list NodeLocation) (now : Z) : list PublicationStateBody :=
  desired b intent :: locked_writes (desired b intent) intent.2 now.

Lemma recovery_clears r ls recover :
  calm r -> valid (r_state r) ls -> (recover = true -> ps_pending (r_state r) = None) -> body_fits (without_pending (r_state r)) ->
  succeeds (if recover then recover_pending euid key config NoFailpoint
            else if bool_decide (is_Some (ps_pending (r_state r))) then p_bind (retire_pending euid) (fun _ => p_ret None) else p_ret None)
    r (fun o r' => o = None /\ calm r' /\ valid (r_state r') ls /\ r_net r' = r_net r /\ r_state r' = without_pending (r_state r)).
Proof.
  intros Hc Hv Hrec Hfit.
  assert (ps_pending (r_state r) = None -> r_state r = without_pending (r_state r)) as Hsame.
  { intros Hp. destruct (r_state r). cbn in *. by subst. }
  destruct recover.
  { unfold recover_pending. apply succeeds_seq, succeeds_get. rewrite Hrec by done. apply succeeds_ret. split_and!; auto. }
  case_bool_decide as Hsome; [destruct Hsome as [p Hp]|].
  2: { apply succeeds_ret. split_and!; try done. apply Hsame. destruct (ps_pending (r_state r)); [by destruct Hsome|done]. }
  destruct (retire_valid key config _ _ _ Hv Hp) as [Hvb Hev].
  destruct (run_ok_live euid key config r ls (cm_live _ Hc) Hv) as (ls' & -> & Hi).
  apply succeeds_seq. unfold retire_pending. apply succeeds_seq, succeeds_get.
  eapply succeeds_mono; [eapply replace_succeeds; try done|].
  - destruct Hi. by split.
  - eapply sent_moves; [apply Hc|done|]. intros q [E|E]; [left; by left|done].
  - intros [] r' [Hc' [w ->]]. by apply succeeds_ret.
Qed.

(** The receipt's record is what the register now holds. *)
Definition landed (receipt : PublicationReceipt) (r : Run N) : Prop :=
  rc_reused_committed_packet receipt = false /\ exists bytes, decode_node_record bytes = Ok (rc_record receipt) /\
  rl_slot (r_net r) = Register.Kept (nr_sequence (rc_record receipt)) (nr_expires_unix_micros (rc_record receipt)) bytes.

Lemma anew_lands r ls b' :
  calm r -> valid (r_state r) ls -> in_step (r_net r) (r_state r) -> encodable (r_state r) ls (rl_clock (r_net r)) ->
  reusable (r_state r) ls (rl_clock (r_net r)) = false ->
  prepare_pending key config (r_state r) ls (rl_clock (r_net r)) = Ok b' -> body_fits b' ->
  body_fits (with_packets b' (ps_high_water_sequence b') (ps_pending b') None) ->
  succeeds (transition_anew euid key config ls (rl_clock (r_net r)) reuse_margin NoFailpoint) r landed.
Proof.
  intros Hc Hv Hstep Henc Hre Hpre Hfit Hfit'. destruct (link_clock (r_net r) (cm_up _ Hc)) as [_ Hpos].
  unfold transition_anew. apply succeeds_seq. exists r, None. split; [by apply reuse_declines|]. apply succeeds_seq, succeeds_get.
  destruct (prepare_lands r ls Hv Hstep Hpos Henc) as (b1 & Hpre1 & Htakes). rewrite Hpre in Hpre1. injection Hpre1 as <-.
  apply succeeds_seq. eapply succeeds_lift; [exact Hpre|].
  destruct (prepare_valid key config _ _ _ _ Hv ltac:(split; [done|]; pose proof (is_range _ _ Hstep); lia) Hpre)
    as (Hvb & Hev & Hlt & Hcom & Hrev & p & Hpb & Hseq).
  destruct (run_ok_live euid key config r ls (cm_live _ Hc) Hv) as (ls' & -> & Hi).
  apply succeeds_seq. eapply succeeds_mono; [eapply replace_succeeds; try done|].
  - destruct Hi. split; rewrite ?Hrev; done.
  - eapply sent_moves; [apply Hc|lia|]. intros q [E|E]; [left; left; congruence|].
    rewrite Hpb in E. injection E as <-. right. lia.
  - intros [] r2 [Hc2 [w ->]]. apply succeeds_seq, succeeds_guard; [done|].
    destruct (lo_packets _ _ _ _ (va_loaded _ _ _ _ Hvb) p (or_intror Hpb)) as (bytes & record & Hh).
    eapply succeeds_mono; [eapply (submit_lands _ ls p bytes record); try done; [by eapply Htakes|by rewrite Hpb in Hfit']|].
    intros receipt r3 (<- & Hreused & Hslot). split; [done|]. exists bytes. split; [apply Hh|done].
Qed.

Lemma locked_lands r ls recover :
  calm r -> valid (r_state r) ls -> (recover = true -> ps_pending (r_state r) = None) ->
  in_step (r_net r) (r_state r) -> encodable (r_state r) ls (rl_clock (r_net r)) -> reusable (r_state r) ls (rl_clock (r_net r)) = false ->
  Forall body_fits (locked_writes (r_state r) ls (rl_clock (r_net r))) ->
  succeeds (transition_locked euid key config ls NoFailpoint recover) r landed.
Proof.
  intros Hc Hv Hrec Hstep Henc Hre [Hfit Hfits]%Forall_cons. unfold transition_locked. apply succeeds_seq. exists r, tt. split.
  { unfold store_healthy, on_store, ensure_healthy, m_bind, see, guard. rewrite (proj2 (cm_live _ Hc)). cbn. by destruct r. }
  apply succeeds_seq, succeeds_get. apply succeeds_seq. eapply succeeds_mono; [by apply recovery_clears|].
  intros o r1 (-> & Hc1 & Hv1 & Hn1 & Hb1). apply succeeds_seq, now_succeeds; [done|]. destruct margins_ok as [Hr Hm].
  apply succeeds_seq. eapply succeeds_lift; [exact Hr|]. apply succeeds_seq. eapply succeeds_lift; [exact Hm|].
  assert (in_step (r_net r1) (r_state r1)) as Hstep1 by (rewrite Hn1, Hb1; by destruct Hstep).
  destruct (link_clock _ (cm_up _ Hc)) as [_ Hpos].
  assert (encodable (r_state r1) ls (rl_clock (r_net r1))) as Henc1 by (rewrite Hn1, Hb1; exact Henc).
  destruct (prepare_lands r1 ls Hv1 Hstep1) as (b' & Hpre & _); [by rewrite Hn1|done|].
  pose proof Hpre as Hpre1. rewrite Hn1, Hb1 in Hpre1. rewrite Hpre1 in Hfits.
  apply Forall_cons in Hfits as [Hfit1 [Hfit2 _]%Forall_cons]. eapply anew_lands; try done.
  by rewrite Hn1, Hb1.
Qed.

Lemma persist_lands r :
  calm r -> body_fits (desired (r_state r) (r_intent r)) ->
  succeeds (persist_latest_desired euid) r (fun ls r' =>
    ls = (r_intent r).2 /\ calm r' /\ valid (r_state r') ls /\ r_net r' = r_net r /\ r_state r' = desired (r_state r) (r_intent r)).
Proof.
  intros Hc Hfit. unfold persist_latest_desired. apply succeeds_seq, succeeds_get. apply succeeds_seq, succeeds_get.
  destruct (ro_valid _ _ _ _ (proj1 (cm_live _ Hc))) as (ls & Hv & Hi). apply succeeds_seq.
  eapply succeeds_mono with (P := fun _ r' => calm r' /\ valid (r_state r') (r_intent r).2 /\ r_net r' = r_net r /\
    r_state r' = desired (r_state r) (r_intent r)).
  - unfold desired in *. destruct (Z.ltb_spec (ps_desired_revision (r_state r)) (r_intent r).1) as [Hlt|Hge].
    + destruct (desire_valid key config _ _ _ _ Hv Hlt (in_canonical _ _ _ _ Hi) (in_plain _ _ _ _ Hi) (in_relays _ _ _ _ Hi)) as [Hvb Hev].
      eapply succeeds_mono; [eapply replace_succeeds; try done|].
      * destruct Hi. by split.
      * eapply sent_moves; [apply Hc|done|]. intros p Hp. by left.
      * intros [] r' [Hc' [w ->]]. by split.
    + apply succeeds_ret. split_and!; try done.
      rewrite (in_current _ _ _ _ Hi); [done|]. pose proof (in_revision _ _ _ _ Hi). lia.
  - intros [] r' (Hc' & Hv' & Hrest). apply succeeds_seq, succeeds_get.
    eapply succeeds_lift; [apply (lo_desired _ _ _ _ (va_loaded _ _ _ _ Hv'))|]. done.
Qed.

Lemma desired_same b intent :
  ps_pending (desired b intent) = ps_pending b /\ ps_committed (desired b intent) = ps_committed b /\
  ps_high_water_sequence (desired b intent) = ps_high_water_sequence b.
Proof. unfold desired. by destruct (_ <? _)%Z. Qed.

(** Persisting the intent and running the transition. *)
Lemma intent_transition_lands r recover :
  calm r -> (recover = true -> ps_pending (r_state r) = None) -> in_step (r_net r) (r_state r) ->
  encodable (r_state r) (r_intent r).2 (rl_clock (r_net r)) -> reusable (r_state r) (r_intent r).2 (rl_clock (r_net r)) = false ->
  Forall body_fits (transition_writes (r_state r) (r_intent r) (rl_clock (r_net r))) ->
  succeeds (p_bind (persist_latest_desired euid) (fun ls => transition_locked euid key config ls NoFailpoint recover)) r
    (fun receipt r' => landed receipt r').
Proof.
  intros Hc Hrec Hstep Henc Hre [Hfit Hfits]%Forall_cons. destruct (desired_same (r_state r) (r_intent r)) as (Hp & Hcom & Hhw).
  apply succeeds_seq. eapply succeeds_mono; [by apply persist_lands|].
  intros ls r1 (-> & Hc1 & Hv1 & Hn1 & Hb1). apply locked_lands; rewrite ?Hn1, ?Hb1; try done.
  - by rewrite <-Hb1.
  - by rewrite Hp.
  - destruct Hstep. split; by rewrite ?Hhw.
  - unfold encodable, last_sequence. by rewrite Hhw.
  - unfold reusable. by rewrite Hcom.
Qed.

Lemma recorded_lands r :
  calm r -> r_closing r = false -> ps_pending (r_state r) = None -> in_step (r_net r) (r_state r) ->
  encodable (r_state r) (r_intent r).2 (rl_clock (r_net r)) -> reusable (r_state r) (r_intent r).2 (rl_clock (r_net r)) = false ->
  Forall body_fits (transition_writes (r_state r) (r_intent r) (rl_clock (r_net r))) ->
  succeeds (transition_recorded euid key config NoFailpoint) r landed.
Proof.
  intros Hc Hcl Hp Hstep Henc Hre Hfits. unfold transition_recorded, refuse_closing. apply succeeds_seq, succeeds_seq, succeeds_get.
  apply succeeds_guard; [done|]. by apply intent_transition_lands.
Qed.

Lemma intent_lands r ls intent :
  calm r -> update_desired_intent (r_intent r) ls = Ok intent -> canonical ls -> Forall plain_location ls -> relays_allowed config ls ->
  set_intent ls r = (with_intent r intent, Done tt) /\ calm (with_intent r intent) /\ intent.2 = ls.
Proof.
  intros Hc Hi Hcan Hpl Hrel.
  pose proof (intent_works euid key config r ls (proj1 (cm_live _ Hc)) Hcan Hpl Hrel) as Hw.
  assert (set_intent ls r = (with_intent r intent, Done tt)) as E by (unfold set_intent, p_bind, p_get; by rewrite Hi).
  split; [done|]. unfold works in Hw. rewrite E in Hw. destruct Hw as [Hr Hls].
  split; [|done]. destruct Hc as [[_ Hp] Hf Hw Hu]. split; [by split|done..].
Qed.

Lemma calm_closing r : calm r -> calm (with_closing r).
Proof. intros [[Hr ?] ? ? ?]. split; [split; [by apply closed_ok|done]|done..]. Qed.

Lemma withdraw_lands r intent :
  calm r -> update_desired_intent (r_intent r) [] = Ok intent -> in_step (r_net r) (r_state r) ->
  encodable (r_state r) [] (rl_clock (r_net r)) -> reusable (r_state r) [] (rl_clock (r_net r)) = false ->
  Forall body_fits (transition_writes (r_state r) intent (rl_clock (r_net r))) ->
  succeeds (withdraw_for_shutdown euid key config) r landed.
Proof.
  intros Hc Hint Hstep Henc Hre Hfits. unfold withdraw_for_shutdown, record_shutdown_intent. apply succeeds_seq, succeeds_seq.
  exists (with_closing r), tt. split; [done|].
  destruct (intent_lands (with_closing r) [] intent) as (E & Hc1 & Hnil);
    [by apply calm_closing|done|apply canonical_nil|done|unfold relays_allowed; apply andb_false_r|].
  eexists _, _. split; [exact E|]. set (r1 := with_intent (with_closing r) intent) in *.
  eapply succeeds_mono with (P := landed); [|done].
  assert (succeeds (p_bind (persist_latest_desired euid) (fun ls => transition_locked euid key config ls NoFailpoint false)) r1 landed) as Hland.
  { apply intent_transition_lands; try done; cbn [r1 r_intent with_intent]; by rewrite Hnil. }
  destruct Hland as (r2 & receipt & E2 & Hland). exists r2, receipt. split; [|done].
  unfold p_bind in *. destruct (persist_latest_desired euid r1) as [r3 o] eqn:E3.
  pose proof (persist_works euid key config r1 (proj1 (cm_live _ Hc1))) as Hw. unfold works in Hw. rewrite E3 in Hw.
  destruct o as [ls|e|cl|]; try done. destruct Hw as (_ & _ & -> & _). cbn [r1 r_intent with_intent] in *. by rewrite Hnil in *.
Qed.

(** A packet below what the register has seen changes nothing and is refused. *)
Lemma overtaken_put s now ttl sequence expiry packet :
  (0 <= sequence < seen s)%Z -> exists a, Register.put s now ttl sequence expiry packet = (s, a) /\
    (200 <=? Register.status a)%Z && (Register.status a <? 300)%Z = false.
Proof.
  intros Hlt. unfold Register.put. destruct (negb _); [by exists Register.Refused|].
  destruct s as [|q e held|q]; cbn in Hlt; [lia|..]; exists Register.Conflicts;
    rewrite (proj2 (Z.ltb_ge q sequence)), ?(proj2 (Z.eqb_neq q sequence)) by lia; done.
Qed.

Lemma put_refused r bytes n response :
  r_wire r = [] -> link_put (signer key) bytes (r_net r) = (n, Ok response) ->
  (200 <=? ph_status response)%Z && (ph_status response <? 300)%Z = false ->
  put_exact key bytes r = (with_net r n (r_wire r) (r_sent r ++ [bytes]), Failed KAuthority).
Proof.
  intros Hw Eput Hst. assert (forall r1 : Run N, r_wire r1 = [] -> on_wire r1 = (r1, Done tt)) as Ewire.
  { intros r1 Hr1. unfold on_wire. by rewrite Hr1. }
  unfold put_exact. rewrite (p_bind_done _ _ _ _ _ (Ewire r Hw)). unfold p_bind at 1. rewrite Eput.
  rewrite (p_bind_done _ _ _ _ _ (Ewire (with_net r n (r_wire r) (r_sent r ++ [bytes])) Hw)). unfold p_bind, answered. cbn [map_err p_lift p_ret].
  by rewrite Hst.
Qed.

(** C40: a node can strand itself.  When a later packet of the node reached the
    authority but was given up locally, so that the committed packet is below
    what the authority has seen, and the committed packet suits what is wanted
    now, every update, refresh or shutdown sends the committed packet again, is
    refused, and leaves the node and the authority as they were; no higher
    sequence is tried until the packet nears its expiry. *)
Theorem overtaken_packet_strands r ls failpoint recover c :
  calm r -> valid (r_state r) ls -> ps_pending (r_state r) = None -> ps_committed (r_state r) = Some c ->
  reusable (r_state r) ls (rl_clock (r_net r)) = true -> (sp_sequence c < seen (rl_slot (r_net r)))%Z ->
  exists r' bytes, transition_locked euid key config ls failpoint recover r = (r', Failed KAuthority) /\
    decode_hex MAX_BYTES (sp_packet_hex c) = Ok bytes /\ r_sent r' = r_sent r ++ [bytes] /\
    calm r' /\ r_state r' = r_state r /\ rl_slot (r_net r') = rl_slot (r_net r) /\ rl_clock (r_net r') = rl_clock (r_net r).
Proof.
  intros Hc Hv Hp Hcom Hre Hlt.
  destruct (lo_packets _ _ _ _ (va_loaded _ _ _ _ Hv) c (or_introl Hcom)) as (bytes & record & Hh).
  assert (own_record key config record) as Hown by (split; apply Hh).
  destruct (decoded_packet _ _ (ph_record _ _ _ _ _ _ _ Hh)) as [packet Hpk].
  pose proof (rw_sequence _ (decoded_wf _ _ (ph_record _ _ _ _ _ _ _ Hh))) as Hpos.
  pose proof (link_puts (r_net r) packet record (cm_up _ Hc)) as Hput. rewrite Hpk in Hput.
  destruct (overtaken_put (rl_slot (r_net r)) (rl_clock (r_net r)) (nr_ttl_seconds record) (nr_sequence record)
    (nr_expires_unix_micros record) bytes) as (a & Ereg & Hstatus); [rewrite (ph_sequence _ _ _ _ _ _ _ Hh) in *; lia|].
  rewrite Ereg in Hput. destruct Hput as (n1 & put & Eput & Hu1 & Hck1 & Hs1 & Hst1 & _); [apply Hh|apply Hh|by apply accepts_own|].
  rewrite <-Hst1 in Hstatus. pose proof (put_refused r bytes n1 put (cm_wire _ Hc) Eput Hstatus) as Hrefused.
  pose proof (sent_put key config _ _ _ _ _ Hv (ro_sent _ _ _ _ (proj1 (cm_live _ Hc))) (or_introl Hcom) (ph_hex _ _ _ _ _ _ _ Hh)) as Hsent.
  exists (with_net r n1 (r_wire r) (r_sent r ++ [bytes])), bytes.
  split; [|split_and!; try done; [apply Hh|apply calm_net; try done; apply Hc]].
  unfold reusable in Hre. rewrite Hcom, (ph_hex _ _ _ _ _ _ _ Hh), (ph_record _ _ _ _ _ _ _ Hh) in Hre.
  assert (store_healthy r = (r, Done tt)) as Eh.
  { unfold store_healthy, on_store, ensure_healthy, m_bind, see, guard. rewrite (proj2 (cm_live _ Hc)). cbn. by destruct r. }
  assert (wall_unix_micros r = (r, Done (rl_clock (r_net r)))) as Enow.
  { unfold wall_unix_micros. rewrite (proj1 (link_clock _ (cm_up _ Hc))). by destruct r. }
  destruct margins_ok as [Hr Hm]. unfold transition_locked. rewrite (p_bind_done _ _ _ _ _ Eh).
  unfold p_bind at 1. cbn [p_get]. rewrite (p_bind_done _ _ r r None).
  2: { destruct recover; [unfold recover_pending, p_bind, p_get|]; by rewrite Hp. }
  rewrite (p_bind_done _ _ _ _ _ Enow), Hr, Hm. unfold p_bind at 1 2. cbn [p_lift p_ret]. unfold transition_anew.
  apply p_bind_failed. unfold reuse_committed. unfold p_bind at 1. cbn [p_get]. rewrite Hcom. unfold stored_bytes.
  rewrite (ph_hex _ _ _ _ _ _ _ Hh). unfold p_bind at 1. cbn [map_err p_lift p_ret].
  rewrite (ph_record _ _ _ _ _ _ _ Hh). unfold p_bind at 1. cbn [map_err p_lift p_ret]. rewrite Hre. by apply p_bind_failed.
Qed.

(** What an update or a shutdown is asked to publish; an update first finishes
    what is pending, a shutdown retires it. *)
Definition asks (op : Op) (r : Run N) (intended : list NodeLocation) : Prop :=
  match op with
  | OpUpdate ls => Forall plain_location ls /\ validate_desired_locations config ls = Ok intended /\
                   r_closing r = false /\ ps_pending (r_state r) = None
  | OpShutdown => intended = []
  | _ => False
  end.

Lemma update_lands r ls intended intent :
  calm r -> asks (OpUpdate ls) r intended -> update_desired_intent (r_intent r) intended = Ok intent ->
  in_step (r_net r) (r_state r) -> encodable (r_state r) intended (rl_clock (r_net r)) ->
  reusable (r_state r) intended (rl_clock (r_net r)) = false ->
  Forall body_fits (transition_writes (r_state r) intent (rl_clock (r_net r))) ->
  succeeds (update_locations euid key config ls) r landed.
Proof.
  intros Hc (Hpl & Hval & Hcl & Hp) Hint Hstep Henc Hre Hfits. unfold update_locations. apply succeeds_seq.
  assert (refuse_closing r = (r, Done tt)) as Ecl by (unfold refuse_closing, p_bind, p_get; by rewrite Hcl).
  pose proof Hval as Hv. apply result_bind_ok in Hv as (x & Hx & Hv). apply result_bind_ok in Hv as (_ & Hrel%reject_if_ok & [= ->]).
  destruct (intent_lands r intended intent) as (E & Hc1 & Hnil); [done|done|by eapply canonical_result| |done|].
  { apply canonical_ok in Hx as (_ & -> & _). rewrite Forall_forall in *. intros l Hl. by apply Hpl, sort_dedup_elem. }
  exists (with_intent r intent), tt. split.
  { unfold intend, record_desired_intent. rewrite (p_bind_done _ _ _ _ _ Ecl), Hval. unfold p_bind at 1. cbn [p_lift p_ret].
    by rewrite (p_bind_done _ _ _ _ _ Ecl). }
  destruct (recorded_lands (with_intent r intent)) as (r' & receipt & Er & Hl); try done; [by cbn; rewrite Hnil..|].
  exists r', receipt. split; [|done]. unfold in_time, or_else. by rewrite Er.
Qed.

Lemma shutdown_lands r intent :
  calm r -> update_desired_intent (r_intent r) [] = Ok intent -> in_step (r_net r) (r_state r) ->
  encodable (r_state r) [] (rl_clock (r_net r)) -> reusable (r_state r) [] (rl_clock (r_net r)) = false ->
  Forall body_fits (transition_writes (r_state r) intent (rl_clock (r_net r))) ->
  succeeds (shutdown euid key config) r landed.
Proof.
  intros Hc Hint Hstep Henc Hre Hfits.
  destruct (withdraw_lands (with_closing r) intent) as (r' & receipt & E & Hl); try done; [by apply calm_closing|].
  exists r', receipt. split; [|done]. unfold shutdown, in_time. rewrite (p_bind_done _ _ r (with_closing r) tt) by done. by rewrite E.
Qed.

Context (clock_ok : forall n n' t, link_now n = (n', Some t) -> (0 < t <= u64_max)%Z).
Context (config_canonical : canonical (pc_initial_locations config)) (config_plain : Forall plain_location (pc_initial_locations config))
  (config_relays : relays_allowed config (pc_initial_locations config)).

(** C11: a healthy node publishes what its committed packet does not say.  In any
    reachable state, if no call fails, the authority is up, has seen nothing above
    the node's high water and its clock is less than a second behind it, the
    record of the wanted locations encodes at the next sequence and every state
    to be written on the way fits its file, and the committed packet could not be
    reused for those locations, then an update with nothing pending, or a
    shutdown, returns a receipt for a new record of exactly those locations (none
    for a shutdown), and the authority holds that record's packet.  A committed
    packet that could be reused is sent again instead of a new one, for a
    shutdown a committed withdrawal; that case is not part of this. *)
Theorem publication_lands d n r op intended intent :
  disk_is euid d None None -> rtc (pstep euid key config) (Off d n []) (On r) ->
  w_poisoned (r_world r) = false -> rl_up (r_net r) ->
  asks op r intended -> update_desired_intent (r_intent r) intended = Ok intent ->
  in_step (r_net r) (r_state r) -> encodable (r_state r) intended (rl_clock (r_net r)) ->
  reusable (r_state r) intended (rl_clock (r_net r)) = false ->
  Forall body_fits (transition_writes (r_state r) intent (rl_clock (r_net r))) ->
  exists r' receipt, run_op euid key config op (prepared r [] []) = (r', Done (Some receipt)) /\
    wants (rc_record receipt) intended /\ landed receipt r'.
Proof.
  intros Hd Hsteps Hp Hu Hask Hint Hstep Henc Hre Hfits.
  eapply steps_ok in Hsteps; [|done..|by apply empty_ok]. cbn in Hsteps.
  pose proof (prepared_ok euid key config r [] [] Hsteps) as Hr.
  assert (calm (prepared r [] [])) as Hc by done || (split; [by split|done..]).
  assert (succeeds (run_op euid key config op) (prepared r [] []) (fun o r' => exists receipt, o = Some receipt /\ landed receipt r'))
    as (r' & o & E & receipt & -> & Hl).
  { destruct op as [|fp|ls| | |]; try done; cbn [run_op asks] in *; apply succeeds_seq.
    - eapply succeeds_mono; [by eapply update_lands|]. intros receipt r' Hl. apply succeeds_ret. eauto.
    - subst intended. eapply succeeds_mono; [by eapply shutdown_lands|]. intros receipt r' Hl. apply succeeds_ret. eauto. }
  exists r', receipt. split_and!; [done| |done].
  destruct (op_publishes euid key config clock_ok op _ _ _ Hr ltac:(destruct op; try done; apply Hask) E) as (i & Hi & _ & _ & Hw).
  assert (i = intended) as ->; [|done]. destruct op; try done; cbn in *.
  - destruct Hask as (_ & Hval & _). apply result_bind_ok in Hval as (x & Hx & Hval).
    apply result_bind_ok in Hval as (_ & _ & [= ->]). congruence.
  - congruence.
Qed.

End landing.

(** ** The authority behind the HTTP client *)

(** An authority process, its clocks and the connections to it. *)
Record Net := { nt_inner : Inner; nt_world : World; nt_now : Z; nt_instant : Z }.

Section authority_link.
Context `{Ed25519, Pkarr, Dns, Urls, Blake3Hex, !PkarrLaws}.
Context `{Json AuthorityStateBody, Json (Envelope AuthorityStateBody), !JsonLaws (Envelope AuthorityStateBody) (fun _ => True)}.
Context `{Json AuthorityAnchorBody, Json (Envelope AuthorityAnchorBody), !JsonLaws (Envelope AuthorityAnchorBody) (fun _ => True)}.
Context (euid : Z) (config : PublicationAuthorityConfig) (cut : list byte -> Conn).

Notation host := (ac_expected_host config).

(** apply_request: an answer, or an error that closes the connection. *)
Definition net_handler (n : Net) (request : AuthorityRequest) : Net * option AuthorityResponse :=
  let '(w, o) := apply_request_at euid config request (nt_now n) (nt_instant n) (nt_inner n) (nt_world n) in
  match o with
  | Ret (inner, answer) =>
      ({| nt_inner := inner; nt_world := w; nt_now := nt_now n; nt_instant := nt_instant n |},
       match answer with Ok a => Some a | Err _ => None end)
  | _ => ({| nt_inner := nt_inner n; nt_world := w; nt_now := nt_now n; nt_instant := nt_instant n |}, None)
  end.

(** One request of the client: the authority's state after it, and the result. *)
Definition net_peer (n : Net) : Peer := fun bytes => Ok (snd (exchange cut host net_handler n bytes)).
Definition net_after (n : Net) (method : Method) (signer body : list byte) : Net :=
  fst (exchange cut host net_handler n (request_text host method signer body ++ body)).

#[export] Instance net_link : Link Net := {
  link_put signer bytes n :=
    (match packet_from_bytes bytes with
     | Some p => if bool_decide (to_z32 (public_key p) = signer) then net_after n PUT signer (to_relay_payload p) else n
     | None => n
     end, client_put (net_peer n) host signer bytes);
  link_get signer n := (net_after n GET signer [], client_get (net_peer n) host signer);
  link_now n := (n, if (0 <? nt_now n)%Z && (nt_now n <=? u64_max)%Z then Some (nt_now n) else None)
}.

(** The clock of the node is the authority's. *)
Lemma net_clock_ok n n' t : link_now n = (n', Some t) -> (0 < t <= u64_max)%Z.
Proof. cbn. destruct (_ && _) eqn:E; [|done]. intros [= _ <-]. by bools. Qed.

Notation valid b := (validate_authority_state b config = Ok tt).
Notation at_rest w b :=
  (settled euid encode_authority_state encode_authority_anchor Authority.from_state body_le (fresh_state config) w b).

(** Every state with records of admitted signers only fits: the admission set
    is small enough for the state file. *)
Definition admitted_only (b : AuthorityStateBody) : Prop :=
  forall s e, as_records b !! s = Some e -> admits (ac_signer_admission config) s = true.
Class AuthorityRoom : Prop :=
  authority_room b : valid b -> admitted_only b -> u64_ok (as_wall_clock_high_water_unix_micros b) -> fits b.

Record net_up (n : Net) : Prop := {
  nu_valid : valid (in_state (nt_inner n));
  nu_rest : at_rest (nt_world n) (in_state (nt_inner n));
  nu_faults : w_faults (nt_world n) = [];
  nu_healthy : w_poisoned (nt_world n) = false;
  nu_admitted : admitted_only (in_state (nt_inner n));
  nu_clock : (0 <= as_wall_clock_high_water_unix_micros (in_state (nt_inner n)) <= nt_now n)%Z;
  nu_now : (0 < nt_now n <= u64_max - 2 ^ 32 * 1000000)%Z;
  nu_instant : (nt_instant n < 2 ^ 62 * 10 ^ 9)%Z
}.

Definition net_slot (signer : list byte) (n : Net) : Register.t := register_of (as_records (in_state (nt_inner n)) !! signer).
Definition net_late (signer : list byte) (n : Net) : bool := Authority.late (nt_inner n) signer (nt_instant n).

Lemma stamped_admitted b signer now e :
  admitted_only b -> admits (ac_signer_admission config) signer = true -> admitted_only (stamped b signer now e).
Proof.
  intros Hb Hs s e'. cbn. destruct (decide (s = signer)) as [->|]; [done|]. rewrite lookup_insert_ne by done. apply Hb.
Qed.

Lemma writes_fit `{!AuthorityRoom} n request :
  net_up n -> admits (ac_signer_admission config) (rq_signer request) = true ->
  Forall fits (writes config (in_state (nt_inner n)) request (nt_now n)).
Proof.
  intros [Hv _ _ _ Had Hck Hnow _] Hadm. set (b := in_state (nt_inner n)) in *.
  assert (Hall : forall s e, as_records b !! s = Some e -> exists p r, entry_holds config s e p r) by apply validate_state_ok, Hv.
  assert (forall clock, (0 <= clock <= nt_now n)%Z -> u64_ok clock) as Hu by (intros; unfold u64_ok, u64_max in *; lia).
  assert (forall e, (exists p r, entry_holds config (rq_signer request) e p r) -> fits (stamped b (rq_signer request) (nt_now n) e)) as Hst.
  { intros e He. apply authority_room; [apply with_clock_valid; [done|by apply insert_valid]|by apply stamped_admitted|apply Hu; cbn; lia]. }
  unfold writes. destruct (rq_method request).
  - constructor.
    + apply authority_room; [by apply with_clock_valid|done|apply Hu; cbn; lia].
    + destruct (as_records b !! rq_signer request) as [e|] eqn:He; [|done]. constructor; [|done]. apply Hst.
      destruct (Hall _ _ He) as (p & r & Hh). eauto using set_expired_holds.
  - destruct (put_record _ _ _) as [[p r]|] eqn:Hput; [|done]. constructor; [|done]. apply Hst. eauto using new_entry_holds.
Qed.

(** A request to an authority that is up: it stays up and reacts as the register. *)
Lemma net_reacts `{!AuthorityRoom} n request :
  net_up n -> admits (ac_signer_admission config) (rq_signer request) = true ->
  let reaction := react config (nt_inner n) request (nt_now n) (nt_instant n) in
  exists n', net_handler n request =
      (n', Some (response (Register.status (snd reaction)) (Register.reason (snd reaction)) (Register.body (snd reaction)))) /\
    net_up n' /\ nt_now n' = nt_now n /\ net_slot (rq_signer request) n' = fst reaction /\
    (snd reaction = Register.Created -> net_late (rq_signer request) n' = false).
Proof.
  intros Hup Hadm reaction. pose proof Hup as [Hv Hr Hf Hp Had Hck Hnow Hins].
  destruct (authority_reacts euid config request (nt_now n) (nt_instant n) (nt_inner n) (nt_world n)) as
    (w' & inner' & a & E & Hf' & -> & Hslot & Hother & Hlate); try done; [|by apply writes_fit|lia|].
  { unfold clock_regressed, u64_saturating_add, CLOCK_HIGH_WATER_GRANULARITY_MICROS.
    rewrite (proj2 (Z.ltb_ge _ _)); [apply andb_false_r|]. unfold u64_max in *. lia. }
  pose proof (apply_handled euid config request (nt_now n) (nt_instant n) (nt_inner n) (nt_world n) Hv Hr) as Hh.
  unfold runs in Hh. rewrite E in Hh. destruct Hh as [(Hp' & Hr' & Hle & Hv') _].
  eexists. unfold net_handler. rewrite E. split; [reflexivity|]. split_and!; try done. split; cbn; try done.
  - congruence.
  - intros s e He. destruct (decide (s = rq_signer request)) as [->|Hne]; [done|]. rewrite Hother in He by done. by eapply Had.
  - split; [pose proof (bl_clock _ _ Hle); lia|]. eapply apply_clock; [exact E|lia].
Qed.

Context (key : SigningKey).
Context (cut_arrives : forall bytes, arrives (cut bytes) bytes) (host_valid : valid_host host = true).
(** The z-base-32 text of the node's key reads back, and the key is admitted. *)
Context (key_z32 : from_z32 (signer key) = Some (verifying_key key)) (key_admitted : admits (ac_signer_admission config) (signer key) = true).

Lemma answer_fine a :
  (forall packet, a = Register.Serves packet -> (Z.of_nat (length packet) <= 1104)%Z) ->
  answer_ok (response (Register.status a) (Register.reason a) (Register.body a)).
Proof.
  intros Hl. split; cbn [rs_status rs_reason rs_body response].
  - destruct a; cbn; lia.
  - split; [destruct a; apply (bool_decide_unpack _); vm_compute; exact I|destruct a; cbn; lia].
  - unfold MAX_RELAY_PAYLOAD_BYTES, MAX_HTTP_BODY_BYTES. destruct a as [|packet| | | |]; cbn; try lia.
    specialize (Hl _ eq_refl). rewrite length_drop. lia.
Qed.

(** What the client gets for one request. *)
Lemma net_request `{!AuthorityRoom} n method body :
  net_up n -> (Z.of_nat (length body) <= MAX_RELAY_PAYLOAD_BYTES)%Z -> (method = GET -> body = []) ->
  let reaction := react config (nt_inner n) {| rq_method := method; rq_signer := signer key; rq_body := body |} (nt_now n) (nt_instant n) in
  (forall packet, snd reaction = Register.Serves packet -> (Z.of_nat (length packet) <= 1104)%Z) ->
  let n' := net_after n method (signer key) body in
  request (net_peer n) host method (signer key) body =
    Ok {| ph_status := Register.status (snd reaction); ph_body := Register.body (snd reaction) |} /\
  net_up n' /\ nt_now n' = nt_now n /\ net_slot (signer key) n' = fst reaction /\
  (snd reaction = Register.Created -> net_late (signer key) n' = false).
Proof.
  intros Hup Hlen Hget reaction Hserves. 
  destruct (net_reacts n {| rq_method := method; rq_signer := signer key; rq_body := body |} Hup key_admitted)
    as (n1 & Eh & Hup1 & Hnow & Hslot & Hlate).
  destruct (exchange_delivers cut net_handler n host method (verifying_key key) body n1 _ cut_arrives host_valid key_z32 Hlen Hget Eh
    (answer_fine _ Hserves)) as (conn & Ex & Ereq).
  cbn zeta. unfold net_after, net_peer. fold (signer key) in *. rewrite Ex. cbn [fst]. split_and!; try done.
Qed.

Lemma signer_key p : to_z32 (public_key p) = signer key -> public_key p = verifying_key key.
Proof. intros Hs. pose proof (z32_roundtrip p) as Hz. rewrite Hs, key_z32 in Hz. by injection Hz. Qed.

(** What the slot holds is a packet of the node. *)
Lemma slot_packet n s e packet :
  net_up n -> net_slot (signer key) n = Register.Kept s e packet -> exists p, as_bytes p = packet /\ public_key p = verifying_key key.
Proof.
  intros Hup Hs. pose proof (nu_valid _ Hup) as Hv. apply validate_state_ok in Hv as (_ & _ & _ & _ & Hall).
  unfold net_slot in Hs. destruct (as_records (in_state (nt_inner n)) !! signer key) as [en|] eqn:He; [|done].
  destruct (Hall _ _ He) as (p & r & Hh). exists p. split; [|by apply signer_key, Hh]. unfold register_of in Hs.
  destruct (ae_expired en) eqn:Hx; [done|]. rewrite (decode_packet_hex _ _ (eh_packet _ _ _ _ _ Hh)) in Hs. by injection Hs.
Qed.

Lemma get_serves s now late s' packet : Register.get s now late = (s', Register.Serves packet) -> exists q e, s = Register.Kept q e packet.
Proof. destruct s as [|q e held|q]; cbn; [done| |done]. destruct (_ || _); [done|]. intros [= _ <-]. eauto. Qed.

Lemma net_gets `{!AuthorityRoom} n :
  net_up n ->
  let '(s, a) := Register.get (net_slot (signer key) n) (nt_now n) (net_late (signer key) n) in
  exists n' response, link_get (signer key) n = (n', Ok response) /\ net_up n' /\ nt_now n' = nt_now n /\
    net_slot (signer key) n' = s /\ ph_status response = Register.status a /\
    (forall packet, a = Register.Serves packet -> ph_body response = packet).
Proof.
  intros Hup. destruct (Register.get _ _ _) as [s a] eqn:Eg.
  assert (forall packet, a = Register.Serves packet -> exists p, as_bytes p = packet /\ public_key p = verifying_key key) as Hpk.
  { intros packet ->. destruct (get_serves _ _ _ _ _ Eg) as (q & e & Hs). by eapply slot_packet. }
  destruct (net_request n GET [] Hup) as (Ereq & Hup' & Hnow' & Hslot & _); [cbn; unfold MAX_RELAY_PAYLOAD_BYTES, MAX_HTTP_BODY_BYTES; lia|done| |].
  { unfold react. cbn. unfold net_slot, net_late in Eg. rewrite Eg. intros packet Ha. destruct (Hpk packet Ha) as (p & <- & _).
    pose proof (packet_size p). rewrite packet_max in *. done. }
  unfold react in *. cbn [rq_method rq_signer] in *. unfold net_slot, net_late in Eg. rewrite Eg in *. cbn [fst snd] in *.
  assert (a = Register.Absent \/ exists packet, a = Register.Serves packet) as [->|[packet ->]].
  { destruct (register_of _); cbn in Eg; [|destruct (_ || _)|]; injection Eg as _ <-; eauto. }
  - eexists _, _. unfold link_get, net_link, client_get. rewrite Ereq. split; [reflexivity|]. by split_and!.
  - destruct (Hpk packet eq_refl) as (p & <- & Hkey). eexists _, {| ph_status := 200; ph_body := as_bytes p |}.
    split; [|split_and!; try done; by intros packet [= <-]].
    unfold link_get, net_link, client_get. rewrite Ereq. cbn [mbind result_bind ph_status Register.status Z.eqb Pos.eqb negb ph_body Register.body].
    rewrite key_z32. cbn [ok_or mbind result_bind].
    assert (from_relay_payload (verifying_key key) (drop 32 (as_bytes p)) = Some p) as ->; [|reflexivity].
    rewrite from_relay, <-Hkey, <-relay_payload_drop, <-relay_layout. apply packet_of_bytes.
Qed.

Lemma net_puts `{!AuthorityRoom} n p r :
  net_up n -> decode_node_record (as_bytes p) = Ok r -> nr_node_id r = node_id key ->
  nr_namespace r = ac_namespace config /\ nr_recipient r = ac_signed_recipient config ->
  let '(s, a) := Register.put (net_slot (signer key) n) (nt_now n) (nr_ttl_seconds r) (nr_sequence r) (nr_expires_unix_micros r) (as_bytes p) in
  exists n' response, link_put (signer key) (as_bytes p) n = (n', Ok response) /\ net_up n' /\ nt_now n' = nt_now n /\
    net_slot (signer key) n' = s /\ ph_status response = Register.status a /\
    (a = Register.Created -> net_late (signer key) n' = false).
Proof.
  intros Hup Hdec Hid [Hns Hrc]. destruct (Register.put _ _ _ _ _ _) as [s a] eqn:Ep.
  assert (public_key p = verifying_key key) as Hkey.
  { destruct (decode_spells _ _ Hdec) as (p' & _ & Hp' & _ & _ & _ & Hn & _). rewrite packet_of_bytes in Hp'.
    injection Hp' as <-. rewrite Hid in Hn. unfold node_id in Hn. by injection Hn. }
  assert (put_record config (signer key) (to_relay_payload p) = Some (p, r)) as Hput.
  { apply put_record_ok. rewrite Hkey. split_and!; try done. rewrite from_relay, <-Hkey, <-relay_layout. apply packet_of_bytes. }
  assert (react config (nt_inner n) {| rq_method := PUT; rq_signer := signer key; rq_body := to_relay_payload p |} (nt_now n)
    (nt_instant n) = (s, a)) as Er by (unfold react; cbn [rq_method rq_signer rq_body]; by rewrite Hput).
  destruct (net_request n PUT (to_relay_payload p) Hup) as (Ereq & Hup' & Hnow' & Hslot & Hlate); [|done| |].
  { rewrite relay_payload_drop, length_drop. pose proof (packet_size p). rewrite packet_max in *.
    unfold MAX_RELAY_PAYLOAD_BYTES, MAX_HTTP_BODY_BYTES. lia. }
  { rewrite Er. cbn [snd]. intros packet ->. unfold Register.put in Ep.
    destruct (negb _); [done|]. destruct (net_slot (signer key) n); repeat destruct (_ <? _)%Z; try done. by destruct (_ && _). }
  rewrite Er in *. cbn [fst snd] in *.
  exists (net_after n PUT (signer key) (to_relay_payload p)), {| ph_status := Register.status a; ph_body := Register.body a |}.
  split; [|by split_and!].
  unfold link_put, net_link, client_put. rewrite packet_of_bytes. cbn [ok_or mbind result_bind]. unfold signer in *. rewrite Hkey.
  rewrite bool_decide_true, bool_decide_false by auto. cbn [reject_if mbind result_bind]. by rewrite Ereq.
Qed.

Lemma net_clock n : net_up n -> link_now n = (n, Some (nt_now n)) /\ (0 < nt_now n)%Z.
Proof.
  intros Hup. pose proof (nu_now n Hup). split; [|lia]. cbn. rewrite (proj2 (Z.ltb_lt _ _)), (proj2 (Z.leb_le _ _)) by (unfold u64_max in *; lia).
  done.
Qed.

(** The authority over HTTP is what the publisher relies on. *)
#[export] Instance net_register `{!AuthorityRoom} :
  RegisterLink Net key (fun r => nr_namespace r = ac_namespace config /\ nr_recipient r = ac_signed_recipient config) := {
  rl_up := net_up; rl_slot := net_slot (signer key); rl_clock := nt_now; rl_late := net_late (signer key);
  link_clock := net_clock;
  link_puts := net_puts;
  link_gets := net_gets
}.

End authority_link.
