(* ===== verification/NodeLookup.v ===== *)
(** * Looking a node up: fabric-iroh/src/iroh_node_lookup.rs

    A reader asks one pinned authority for the signed record of a node, checks
    it, and keeps per node the highest sequence it has accepted, so that an
    authority that answers with an old or a conflicting packet is refused.  The
    table of high waters is behind a mutex that is released while a request is
    on the network: [lstep] is the system of lookups in flight, every step what
    one lookup does between two such points.

    pkarr, DNS, BLAKE3 and Ed25519 are the classes of the files before; which
    error pkarr gives for a payload it refuses, and Iroh's relay URLs, are
    parameters here.  A BLAKE3 hash is its hexadecimal text.

    The theorems: a lookup that succeeds returns a record the node signed for
    this reader and that has not expired; no later lookup of the node goes back
    behind it; the table stays within its capacity and only moves forward; and
    what a publisher has landed at an authority is what a lookup there finds. *)

From Stdlib Require Import Strings.Byte ZArith Lia.
From stdpp Require Import base gmap numbers strings sorting list relations.
From S2P Require Import Prelude Hex Text Ids RecordCodec Lan SockAddr NodeRecord StateDir Authority PinnedHttp Publisher PublisherProps Publication.

Definition NODE_LOOKUP_SCHEMA : list byte := str "iroh-node-lookup-v1".
Definition NODE_LOOKUP_SOURCE : list byte := str "pinned-pkarr-http".
Definition NODE_LOOKUP_PROVENANCE : list byte := str "nix-p2p-pkarr-node-lookup-v1".
Definition NODE_LOOKUP_SCHEDULER_GRACE_MICROS : Z := 1000000.
Definition MAX_NODE_LOOKUP_TRACKED_IDS : nat := Z.to_nat 1024.

(** ** Refusals *)

Inductive NodeLookupUnavailableKind :=
| UDisabled | UInvalidNodeId | UEmptyNamespace | UUntrustedConfiguration | UExternalAuthorityUnsupported | UAuthorityStatus
| UAuthorityConnectionRefused | UAuthorityConnect | UAuthorityWrite | UAuthorityRead | UAuthorityProtocol | UDeadline | UBadSignature
| UMalformedOrUntrustedRecord | UNamespaceMismatch | URecipientMismatch | UNodeIdMismatch | UStaleSequence | UConflictingReplay
| UExpired | UWithdrawn | UNoDialableCandidate | UCapacity | UClockRollback | UClosed.
#[export] Instance NodeLookupUnavailableKind_eq_dec : EqDecision NodeLookupUnavailableKind.
Proof. solve_decision. Defined.

Definition unavailable_as_str (k : NodeLookupUnavailableKind) : list byte :=
  match k with
  | UDisabled => str "disabled"
  | UInvalidNodeId => str "invalid_node_id"
  | UEmptyNamespace => str "empty_namespace"
  | UUntrustedConfiguration => str "untrusted_configuration"
  | UExternalAuthorityUnsupported => str "external_authority_unsupported"
  | UAuthorityStatus => str "authority_status"
  | UAuthorityConnectionRefused => str "authority_connection_refused"
  | UAuthorityConnect => str "authority_connect"
  | UAuthorityWrite => str "authority_write"
  | UAuthorityRead => str "authority_read"
  | UAuthorityProtocol => str "authority_protocol"
  | UDeadline => str "deadline"
  | UBadSignature => str "bad_signature"
  | UMalformedOrUntrustedRecord => str "malformed_or_untrusted_record"
  | UNamespaceMismatch => str "namespace_mismatch"
  | URecipientMismatch => str "recipient_mismatch"
  | UNodeIdMismatch => str "node_id_mismatch"
  | UStaleSequence => str "stale_sequence"
  | UConflictingReplay => str "conflicting_replay"
  | UExpired => str "expired"
  | UWithdrawn => str "withdrawn"
  | UNoDialableCandidate => str "no_dialable_candidate"
  | UCapacity => str "capacity"
  | UClockRollback => str "clock_rollback"
  | UClosed => str "closed"
  end.

(** The message is left out; the packet that was validated is kept. *)
Record NodeLookupUnavailable := {
  nu_kind : NodeLookupUnavailableKind;
  nu_validated_signed_packet : option (Z * list byte)
}.
Definition unavailable (k : NodeLookupUnavailableKind) : NodeLookupUnavailable := {| nu_kind := k; nu_validated_signed_packet := None |}.
Definition with_validated_signed_packet (sequence : Z) (packet_hash : list byte) (e : NodeLookupUnavailable) : NodeLookupUnavailable :=
  {| nu_kind := nu_kind e; nu_validated_signed_packet := Some (sequence, packet_hash) |}.

(** ** Configuration *)

Inductive NodeLookupAuthorityAuthorization :=
| LookupLocal (owner : list byte)
| LookupExternal (owner authorization_reference : list byte).

Definition lookup_owner (a : NodeLookupAuthorityAuthorization) : list byte :=
  match a with LookupLocal owner | LookupExternal owner _ => owner end.

(** NodeLookupAuthorityAuthorization::validate *)
Definition lookup_authorization_validate (a : NodeLookupAuthorityAuthorization) (recipient : SocketAddr) :
    result NodeLookupUnavailable unit :=
  _ ← reject_if (negb (valid_owner (lookup_owner a))) (unavailable UUntrustedConfiguration);
  match a with
  | LookupLocal _ => reject_if (is_public_ip (sock_ip recipient)) (unavailable UUntrustedConfiguration)
  | LookupExternal _ reference =>
      _ ← reject_if (Text.is_blank reference || (256 <? length reference) || has_control reference) (unavailable UUntrustedConfiguration);
      Err (unavailable UExternalAuthorityUnsupported)
  end.

Record NodeLookupConfig := {
  lc_namespace : list byte;
  lc_signed_recipient : list byte;
  lc_authority_recipient : SocketAddr;
  lc_authority_host : list byte;
  lc_authorization : NodeLookupAuthorityAuthorization
}.

(** NodeLookupConfig::new *)
Definition lookup_config_new (namespace signed_recipient : list byte) (authority_recipient : SocketAddr) (authority_host : list byte)
    (authorization : NodeLookupAuthorityAuthorization) : result NodeLookupUnavailable NodeLookupConfig :=
  let untrusted := unavailable UUntrustedConfiguration in
  _ ← reject_if (bool_decide (namespace = [])) untrusted;
  _ ← map_err (fun _ => untrusted) (validate_namespace namespace);
  _ ← map_err (fun _ => untrusted) (validate_recipient signed_recipient);
  endpoint ← map_err (fun _ => untrusted) (endpoint_new authority_recipient authority_host);
  _ ← lookup_authorization_validate authorization (ep_recipient endpoint);
  Ok {| lc_namespace := namespace; lc_signed_recipient := signed_recipient; lc_authority_recipient := ep_recipient endpoint;
        lc_authority_host := authority_host; lc_authorization := authorization |}.

(** ** Results *)

Inductive NodeLookupProvenance := NetworkValidated.

Record NodeLookupResult := {
  lr_lookup_schema : list byte;
  lr_record_schema : list byte;
  lr_source : list byte;
  lr_provenance : NodeLookupProvenance;
  lr_node_id : NodeId;
  lr_namespace : list byte;
  lr_recipient : list byte;
  lr_ttl_seconds : Z;
  lr_sequence : Z;
  lr_expires_unix_micros : Z;
  lr_candidates : list NodeLocation;
  lr_signed_packet_blake3_hex : list byte
}.

Definition from_record (record : NodeRecord) (packet_hash : list byte) : NodeLookupResult :=
  {| lr_lookup_schema := NODE_LOOKUP_SCHEMA; lr_record_schema := NODE_PUBLICATION_SCHEMA; lr_source := NODE_LOOKUP_SOURCE;
     lr_provenance := NetworkValidated; lr_node_id := nr_node_id record; lr_namespace := nr_namespace record;
     lr_recipient := nr_recipient record; lr_ttl_seconds := nr_ttl_seconds record; lr_sequence := nr_sequence record;
     lr_expires_unix_micros := nr_expires_unix_micros record; lr_candidates := nr_locations record;
     lr_signed_packet_blake3_hex := packet_hash |}.

Notation Outcome := (result NodeLookupUnavailable NodeLookupResult).

(** ** The replay table *)

(** [cr_monotonic] and the durations are in nanoseconds. *)
Record ClockReading := { cr_wall_unix_micros : Z; cr_monotonic : Z }.

Record HighWater := {
  hw_sequence : Z;
  hw_packet_hash : list byte;
  hw_observed_monotonic : Z;
  hw_valid_for_at_observation : Z;
  hw_cached : option NodeLookupResult
}.

Record LookupState := { ls_high_water : gmap NodeId HighWater; ls_last_wall_unix_micros : option Z }.
Definition empty_lookup : LookupState := {| ls_high_water := ∅; ls_last_wall_unix_micros := None |}.

Definition saturating_duration_since (later earlier : Z) : Z := Z.max 0 (later - earlier).
Definition from_micros (micros : Z) : Z := micros * 1000.

Definition observe_wall_clock (state : LookupState) (wall : Z) : result NodeLookupUnavailable LookupState :=
  if match ls_last_wall_unix_micros state with Some previous => (wall <? previous)%Z | None => false end
  then Err (unavailable UClockRollback)
  else Ok {| ls_high_water := ls_high_water state; ls_last_wall_unix_micros := Some wall |}.

(** The clock reads [None] before the epoch or past 64 bits of microseconds. *)
Definition read_and_observe_clock (state : LookupState) (clock : option ClockReading) :
    result NodeLookupUnavailable (LookupState * ClockReading) :=
  reading ← ok_or clock (unavailable UClockRollback);
  state ← observe_wall_clock state (cr_wall_unix_micros reading);
  Ok (state, reading).

Definition record_state_error (record : NodeRecord) : NodeLookupUnavailable :=
  match nr_state record with Withdrawn => unavailable UWithdrawn | Live => unavailable UNoDialableCandidate end.

(** The part of validate_and_advance that enters a new high water. *)
Definition advance (state : LookupState) (node_id : NodeId) (record : NodeRecord) (packet_hash : list byte) (reading : ClockReading) :
    LookupState * Outcome :=
  let valid_micros := u64_saturating_sub (nr_expires_unix_micros record) (cr_wall_unix_micros reading) in
  let state_error :=
    if (valid_micros =? 0)%Z then Some (unavailable UExpired) else
    match nr_state record with
    | Withdrawn => Some (unavailable UWithdrawn)
    | Live => if bool_decide (nr_locations record = []) then Some (unavailable UNoDialableCandidate) else None
    end in
  let result := match state_error with None => Some (from_record record packet_hash) | Some _ => None end in
  let water :=
    {| hw_sequence := nr_sequence record; hw_packet_hash := packet_hash; hw_observed_monotonic := cr_monotonic reading;
       hw_valid_for_at_observation := from_micros valid_micros; hw_cached := result |} in
  ({| ls_high_water := <[node_id := water]> (ls_high_water state); ls_last_wall_unix_micros := ls_last_wall_unix_micros state |},
   match state_error with None => Ok (from_record record packet_hash) | Some error => Err error end).

Definition validate_and_advance (state : LookupState) (capacity : nat) (node_id : NodeId) (record : NodeRecord)
    (packet_hash : list byte) (reading : ClockReading) : LookupState * Outcome :=
  if (u64_saturating_add (cr_wall_unix_micros reading) NODE_LOOKUP_SCHEDULER_GRACE_MICROS <? nr_sequence record)%Z
  then (state, Err (unavailable UMalformedOrUntrustedRecord)) else
  match ls_high_water state !! node_id with
  | Some existing =>
      if (nr_sequence record <? hw_sequence existing)%Z then (state, Err (unavailable UStaleSequence)) else
      if (nr_sequence record =? hw_sequence existing)%Z && bool_decide (packet_hash <> hw_packet_hash existing)
      then (state, Err (unavailable UConflictingReplay)) else
      if (nr_sequence record =? hw_sequence existing)%Z then
        let monotonic_expired :=
          (hw_valid_for_at_observation existing
           <=? saturating_duration_since (cr_monotonic reading) (hw_observed_monotonic existing))%Z in
        if (nr_expires_unix_micros record <=? cr_wall_unix_micros reading)%Z || monotonic_expired
        then (state, Err (unavailable UExpired)) else
        match hw_cached existing with
        | Some cached => (state, Ok cached)
        | None => (state, Err (record_state_error record))
        end
      else advance state node_id record packet_hash reading
  | None =>
      if capacity <=? size (ls_high_water state) then (state, Err (unavailable UCapacity))
      else advance state node_id record packet_hash reading
  end.

(** ** One lookup *)

Definition map_http_error (kind : PinnedHttpErrorKind) : NodeLookupUnavailable :=
  unavailable
    match kind with
    | Configuration => UUntrustedConfiguration
    | ConnectionRefused => UAuthorityConnectionRefused
    | Connect => UAuthorityConnect
    | WriteError => UAuthorityWrite
    | ReadError => UAuthorityRead
    | Protocol => UAuthorityProtocol
    | Deadline => UDeadline
    end.

(** pkarr: a payload that [from_relay_payload] refuses is refused for its
    signature, or for its size, key or DNS message. *)
Class PkarrErrors := signature_error : array 32 -> list byte -> bool.

Record NodeLookupCore := { co_config : NodeLookupConfig; co_endpoint : PinnedHttpEndpoint; co_capacity : nat }.

(** NodeLookupCore::new_with_clock_and_capacity; the state starts empty and open. *)
Definition core_new (config : NodeLookupConfig) (capacity : nat) : result NodeLookupUnavailable NodeLookupCore :=
  _ ← reject_if (capacity =? 0) (unavailable UUntrustedConfiguration);
  endpoint ← map_err (fun _ => unavailable UUntrustedConfiguration)
    (endpoint_new (lc_authority_recipient config) (lc_authority_host config));
  Ok {| co_config := config; co_endpoint := endpoint; co_capacity := capacity |}.

Section lookup.
Context `{Ed25519, Pkarr, Dns, Urls, Blake3Hex, PkarrErrors}.

Definition map_signed_packet_error (public_key : array 32) (payload : list byte) : NodeLookupUnavailable :=
  unavailable (if signature_error public_key payload then UBadSignature else UMalformedOrUntrustedRecord).

Definition map_record_error (error : NodeRecordError) : NodeLookupUnavailable :=
  unavailable match error_kind error with NoDialableCandidate => UNoDialableCandidate | MalformedOrUntrusted => UMalformedOrUntrustedRecord end.

(** lock_state_until: the mutex is taken in time or not; the caller goes on
    with the state it holds then. *)
Definition lock_state_until (late : bool) : result NodeLookupUnavailable unit := reject_if late (unavailable UDeadline).

(** preflight.  [closed] is the flag before and after the mutex is taken. *)
Definition preflight (core : NodeLookupCore) (node_id : NodeId) (closed : bool * bool) (late : bool) (clock : option ClockReading)
    (state : LookupState) : LookupState * result NodeLookupUnavailable unit :=
  if closed.1 then (state, Err (unavailable UClosed)) else
  match lock_state_until late with
  | Err e => (state, Err e)
  | Ok _ =>
      if closed.2 then (state, Err (unavailable UClosed)) else
      match read_and_observe_clock state clock with
      | Err e => (state, Err e)
      | Ok (state, _) =>
          (state, if bool_decide (ls_high_water state !! node_id = None) && (co_capacity core <=? size (ls_high_water state))
                  then Err (unavailable UCapacity) else Ok tt)
      end
  end.

(** resolve, from the answer to the record: no state is touched. *)
Definition receive (core : NodeLookupCore) (node_id : NodeId) (key : array 32) (late : bool)
    (answer : result PinnedHttpErrorKind PinnedHttpResponse) : result NodeLookupUnavailable (NodeRecord * list byte) :=
  response ← map_err map_http_error answer;
  _ ← reject_if late (unavailable UDeadline);
  _ ← (if (ph_status response =? 200)%Z then Ok tt
       else if (ph_status response =? 404)%Z then Err (unavailable UEmptyNamespace)
       else Err (unavailable UAuthorityStatus));
  signed ← ok_or (from_relay_payload key (ph_body response)) (map_signed_packet_error key (ph_body response));
  _ ← reject_if (bool_decide (public_key signed <> key)) (unavailable UBadSignature);
  let packet_hash := blake3_hex (as_bytes signed) in
  record ← map_err map_record_error (decode_node_record (as_bytes signed));
  _ ← reject_if (bool_decide (nr_node_id record <> node_id)) (unavailable UNodeIdMismatch);
  _ ← reject_if (bool_decide (nr_namespace record <> lc_namespace (co_config core))) (unavailable UNamespaceMismatch);
  _ ← reject_if (bool_decide (nr_recipient record <> lc_signed_recipient (co_config core))) (unavailable URecipientMismatch);
  _ ← reject_if (MAX_NODE_LOCATIONS <? length (nr_locations record)) (unavailable UMalformedOrUntrustedRecord);
  Ok (record, packet_hash).

(** resolve, from the record on: the deadline is looked at before the mutex is
    asked for, when it is taken and after the table was advanced. *)
Record SettleLate := { sl_before : bool; sl_lock : bool; sl_after : bool }.
Definition settle (core : NodeLookupCore) (node_id : NodeId) (record : NodeRecord) (packet_hash : list byte) (late : SettleLate)
    (clock : option ClockReading) (state : LookupState) : LookupState * Outcome :=
  let validated := with_validated_signed_packet (nr_sequence record) packet_hash in
  if sl_before late then (state, Err (validated (unavailable UDeadline))) else
  match lock_state_until (sl_lock late) with
  | Err e => (state, Err (validated e))
  | Ok _ =>
      match read_and_observe_clock state clock with
      | Err e => (state, Err (validated e))
      | Ok (state, reading) =>
          let '(state, outcome) := validate_and_advance state (co_capacity core) node_id record packet_hash reading in
          (state, if sl_after late then Err (validated (unavailable UDeadline)) else map_err validated outcome)
      end
  end.

(** What the surroundings of one lookup do to it. *)
Record Surroundings := {
  su_closed : bool * bool;
  su_late_lock : bool;
  su_clock : option ClockReading;
  su_late_request : bool;
  su_late_answer : bool;
  su_settle : SettleLate;
  su_clock_after : option ClockReading
}.

(** NodeLookupCore::resolve with no other lookup in between: [peer] is the
    pinned authority. *)
Definition resolve (core : NodeLookupCore) (peer : Peer) (node_id : NodeId) (key : array 32) (su : Surroundings)
    (state : LookupState) : LookupState * Outcome :=
  let '(state, admitted) := preflight core node_id (su_closed su) (su_late_lock su) (su_clock su) state in
  match admitted with
  | Err e => (state, Err e)
  | Ok _ =>
      if su_late_request su then (state, Err (unavailable UDeadline)) else
      match receive core node_id key (su_late_answer su) (client_get_raw peer (ep_host (co_endpoint core)) key) with
      | Err e => (state, Err e)
      | Ok (record, packet_hash) => settle core node_id record packet_hash (su_settle su) (su_clock_after su) state
      end
  end.

(** ** The handle and the adapter *)

Inductive IrohRuntimeError :=
| RtConfiguration | RtIdentity | RtBind | RtDuplicateAlpn | RtCapacity (active limit : Z) | RtClosed | RtOperation | RtShutdown.

Definition map_runtime_error (e : IrohRuntimeError) : NodeLookupUnavailable :=
  unavailable match e with RtCapacity _ _ => UCapacity | _ => UClosed end.

(** The weak reference to the core, if any, with whether it is alive; whether
    there is a task supervisor. *)
Record NodeLookupHandle := { hd_core : option bool; hd_supervisor : bool }.
Definition disabled : NodeLookupHandle := {| hd_core := None; hd_supervisor := false |}.

(** NodeLookupHandle::resolve_before: [run key] is what the supervised task
    came to, [None] when the deadline passed first. *)
Definition resolve_before (handle : NodeLookupHandle) (node_id : NodeId)
    (run : array 32 -> option (result IrohRuntimeError Outcome)) : Outcome :=
  alive ← ok_or (hd_core handle) (unavailable UDisabled);
  _ ← reject_if (negb alive) (unavailable UClosed);
  _ ← reject_if (negb (vk_from_bytes (NodeId_as_bytes node_id))) (unavailable UInvalidNodeId);
  _ ← reject_if (negb (hd_supervisor handle)) (unavailable UClosed);
  executed ← ok_or (run (NodeId_as_bytes node_id)) (unavailable UDeadline);
  outcome ← map_err map_runtime_error executed;
  outcome.

(** Iroh's addresses. *)
Context {RelayUrl : Type} (RelayUrl_parse : list byte -> option RelayUrl).
Inductive TransportAddr := TransportIp (a : SocketAddr) | TransportRelay (url : RelayUrl).

Fixpoint transport_addresses (candidates : list NodeLocation) : result NodeLookupUnavailable (list TransportAddr) :=
  match candidates with
  | [] => Ok []
  | Direct address :: rest => addresses ← transport_addresses rest; Ok (TransportIp address :: addresses)
  | Relay url :: rest =>
      relay ← ok_or (RelayUrl_parse url) (unavailable UMalformedOrUntrustedRecord);
      addresses ← transport_addresses rest;
      Ok (TransportRelay relay :: addresses)
  end.

(** NodeLookupResult::endpoint_addr: the parts of the address. *)
Definition endpoint_addr (r : NodeLookupResult) : result NodeLookupUnavailable (array 32 * list TransportAddr) :=
  _ ← reject_if (negb (vk_from_bytes (NodeId_as_bytes (lr_node_id r)))) (unavailable UInvalidNodeId);
  addresses ← transport_addresses (lr_candidates r);
  Ok (NodeId_as_bytes (lr_node_id r), addresses).

(** NodeLookupAddressAdapter::resolve: the address, where it is from and its sequence. *)
Definition adapter_resolve (handle : NodeLookupHandle) (endpoint_id : array 32)
    (run : array 32 -> option (result IrohRuntimeError Outcome)) :
    result NodeLookupUnavailable (array 32 * list TransportAddr * list byte * option Z) :=
  result ← resolve_before handle (NodeId_from_bytes endpoint_id) run;
  address ← endpoint_addr result;
  Ok (address, NODE_LOOKUP_PROVENANCE, Some (lr_sequence result)).

(** What the adapter hands to Iroh is the result of the lookup of that very
    endpoint, one address per candidate in order. *)
Definition address_of (l : NodeLocation) (a : TransportAddr) : Prop :=
  match l, a with
  | Direct address, TransportIp address' => address = address'
  | Relay url, TransportRelay relay => RelayUrl_parse url = Some relay
  | _, _ => False
  end.

Lemma transport_addresses_ok candidates addresses :
  transport_addresses candidates = Ok addresses -> Forall2 address_of candidates addresses.
Proof.
  revert addresses. induction candidates as [|[address|url] rest IH]; cbn [transport_addresses]; intros addresses E; inv_ok;
    constructor; auto; done.
Qed.

Lemma adapter_resolves handle endpoint_id run key addresses provenance sequence :
  adapter_resolve handle endpoint_id run = Ok (key, addresses, provenance, sequence) ->
  exists result, run endpoint_id = Some (Ok (Ok result)) /\ key = NodeId_as_bytes (lr_node_id result) /\ vk_from_bytes endpoint_id = true /\
    Forall2 address_of (lr_candidates result) addresses /\ sequence = Some (lr_sequence result).
Proof.
  unfold adapter_resolve, resolve_before, endpoint_addr. intros E. inv_ok. cbn [NodeId_as_bytes] in *. bools.
  eexists. split_and!; [eassumption|done|assumption|by apply transport_addresses_ok|done].
Qed.

End lookup.

(** ** Lookups in flight *)

Inductive Phase := Asking | Validated (record : NodeRecord) (packet_hash : list byte).
Record LookupSystem := { sy_state : LookupState; sy_closed : bool; sy_flights : gmap nat (NodeId * Phase) }.
Definition opened : LookupSystem := {| sy_state := empty_lookup; sy_closed := false; sy_flights := ∅ |}.

(** A lookup that ended, with the last reading of the clock it took. *)
Record Ended := { en_flight : nat; en_node : NodeId; en_clock : option ClockReading; en_outcome : Outcome }.

Section flights.
Context `{Ed25519, Pkarr, Dns, Urls, Blake3Hex, PkarrErrors}.
Context (core : NodeLookupCore).

(** One lookup [i] of the system between two points at which it waits.  The
    answer of the authority is arbitrary. *)
Inductive lstep : LookupSystem -> option Ended -> LookupSystem -> Prop :=
| lstep_refused st st' closed was_closed fl i node late clock e :
    fl !! i = None -> (was_closed = true -> closed = true) ->
    preflight core node (was_closed, closed) late clock st = (st', Err e) ->
    lstep {| sy_state := st; sy_closed := closed; sy_flights := fl |}
          (Some {| en_flight := i; en_node := node; en_clock := clock; en_outcome := Err e |})
          {| sy_state := st'; sy_closed := closed; sy_flights := fl |}
| lstep_admitted st st' closed was_closed fl i node late clock :
    fl !! i = None -> (was_closed = true -> closed = true) ->
    preflight core node (was_closed, closed) late clock st = (st', Ok tt) ->
    lstep {| sy_state := st; sy_closed := closed; sy_flights := fl |} None
          {| sy_state := st'; sy_closed := closed; sy_flights := <[i := (node, Asking)]> fl |}
| lstep_late st closed fl i node :
    fl !! i = Some (node, Asking) ->
    lstep {| sy_state := st; sy_closed := closed; sy_flights := fl |}
          (Some {| en_flight := i; en_node := node; en_clock := None; en_outcome := Err (unavailable UDeadline) |})
          {| sy_state := st; sy_closed := closed; sy_flights := delete i fl |}
| lstep_rejected st closed fl i node late answer e :
    fl !! i = Some (node, Asking) ->
    receive core node (NodeId_as_bytes node) late answer = Err e ->
    lstep {| sy_state := st; sy_closed := closed; sy_flights := fl |}
          (Some {| en_flight := i; en_node := node; en_clock := None; en_outcome := Err e |})
          {| sy_state := st; sy_closed := closed; sy_flights := delete i fl |}
| lstep_received st closed fl i node late answer record packet_hash :
    fl !! i = Some (node, Asking) ->
    receive core node (NodeId_as_bytes node) late answer = Ok (record, packet_hash) ->
    lstep {| sy_state := st; sy_closed := closed; sy_flights := fl |} None
          {| sy_state := st; sy_closed := closed; sy_flights := <[i := (node, Validated record packet_hash)]> fl |}
| lstep_settled st st' closed fl i node record packet_hash late clock outcome :
    fl !! i = Some (node, Validated record packet_hash) ->
    settle core node record packet_hash late clock st = (st', outcome) ->
    lstep {| sy_state := st; sy_closed := closed; sy_flights := fl |}
          (Some {| en_flight := i; en_node := node; en_clock := clock; en_outcome := outcome |})
          {| sy_state := st'; sy_closed := closed; sy_flights := delete i fl |}
| lstep_dropped st closed fl i :
    lstep {| sy_state := st; sy_closed := closed; sy_flights := fl |} None
          {| sy_state := st; sy_closed := closed; sy_flights := delete i fl |}
| lstep_close st closed fl :
    lstep {| sy_state := st; sy_closed := closed; sy_flights := fl |} None
          {| sy_state := st; sy_closed := true; sy_flights := fl |}.

Definition lstep_any (s s' : LookupSystem) : Prop := exists l, lstep s l s'.

(** ** The order the table moves in *)

Definition water_le (w w' : HighWater) : Prop := w = w' \/ (hw_sequence w < hw_sequence w')%Z.
Record lookup_le (s s' : LookupState) : Prop := {
  le_water node w : ls_high_water s !! node = Some w -> exists w', ls_high_water s' !! node = Some w' /\ water_le w w';
  le_wall t : ls_last_wall_unix_micros s = Some t -> exists t', ls_last_wall_unix_micros s' = Some t' /\ (t <= t')%Z
}.

#[export] Instance lookup_le_preorder : PreOrder lookup_le.
Proof.
  split.
  - intros s. split; [intros node w Hw|intros t Ht]; eexists; (split; [done|]); [by left|lia].
  - intros s1 s2 s3 [Hw Ht] [Hw' Ht']. split.
    + intros node w (w' & E & Hle)%Hw. destruct (Hw' _ _ E) as (w'' & E' & Hle'). exists w''. split; [done|].
      destruct Hle as [->|], Hle' as [->|]; unfold water_le; auto with lia.
    + intros t (t' & E & Hle)%Ht. destruct (Ht' _ E) as (t'' & E' & Hle'). exists t''. split; [done|lia].
Qed.

(** A record the node signed for this reader, in the packet with this hash. *)
Definition genuine (node : NodeId) (record : NodeRecord) (packet_hash : list byte) : Prop :=
  exists payload p, from_relay_payload (NodeId_as_bytes node) payload = Some p /\ public_key p = NodeId_as_bytes node /\
    decode_node_record (as_bytes p) = Ok record /\ packet_hash = blake3_hex (as_bytes p) /\ nr_node_id record = node /\
    nr_namespace record = lc_namespace (co_config core) /\ nr_recipient record = lc_signed_recipient (co_config core).

(** What the table says of a node. *)
Definition water_ok (node : NodeId) (w : HighWater) : Prop :=
  exists record, genuine node record (hw_packet_hash w) /\ hw_sequence w = nr_sequence record /\
    match hw_cached w with
    | Some result => result = from_record record (hw_packet_hash w) /\ nr_state record = Live /\ nr_locations record <> []
    | None => True
    end.

Record table_ok (s : LookupState) : Prop := {
  to_size : size (ls_high_water s) <= co_capacity core;
  to_water node w : ls_high_water s !! node = Some w -> water_ok node w
}.
Definition flights_ok (fl : gmap nat (NodeId * Phase)) : Prop :=
  forall i node record packet_hash, fl !! i = Some (node, Validated record packet_hash) -> genuine node record packet_hash.

Lemma receive_genuine node late answer record packet_hash :
  receive core node (NodeId_as_bytes node) late answer = Ok (record, packet_hash) -> genuine node record packet_hash.
Proof.
  unfold receive. intros E. inv_ok.
  repeat match goal with H : bool_decide (_ <> _) = false |- _ => apply bool_decide_eq_false, dec_stable in H end.
  by eexists _, _.
Qed.

(** ** Steps on the table *)

(** Entering a record that is ahead of what the table has. *)
Lemma advance_spec st node record packet_hash reading st' outcome :
  advance st node record packet_hash reading = (st', outcome) ->
  exists w, st' = {| ls_high_water := <[node := w]> (ls_high_water st); ls_last_wall_unix_micros := ls_last_wall_unix_micros st |} /\
    hw_sequence w = nr_sequence record /\ hw_packet_hash w = packet_hash /\
    match outcome with
    | Ok result => hw_cached w = Some result /\ result = from_record record packet_hash /\ nr_state record = Live /\
        nr_locations record <> [] /\ (cr_wall_unix_micros reading < nr_expires_unix_micros record)%Z
    | Err _ => hw_cached w = None
    end.
Proof.
  unfold advance, u64_saturating_sub. intros [= <- <-]. eexists. split; [reflexivity|]. cbn [hw_sequence hw_packet_hash hw_cached].
  split; [done|]. split; [done|]. destruct (Z.eqb_spec (Z.max 0 (nr_expires_unix_micros record - cr_wall_unix_micros reading)) 0); [done|].
  destruct (nr_state record); [|done]. case_bool_decide; [done|]. split_and!; try done. lia.
Qed.

(** What the table has for the node after a record was judged. *)
Definition verdict (st' : LookupState) (node : NodeId) (record : NodeRecord) (packet_hash : list byte) (wall : Z) (outcome : Outcome) : Prop :=
  match outcome with
  | Ok result => exists w, ls_high_water st' !! node = Some w /\ hw_cached w = Some result /\ hw_packet_hash w = packet_hash /\
      hw_sequence w = nr_sequence record /\ (wall < nr_expires_unix_micros record)%Z /\
      (nr_sequence record <= wall + NODE_LOOKUP_SCHEDULER_GRACE_MICROS)%Z
  | Err e => nu_kind e = UWithdrawn ->
      exists w, ls_high_water st' !! node = Some w /\ hw_cached w = None /\ hw_sequence w = nr_sequence record
  end.

Lemma advance_verdict st node record packet_hash reading st' outcome :
  table_ok st -> genuine node record packet_hash -> (nr_sequence record <= cr_wall_unix_micros reading + NODE_LOOKUP_SCHEDULER_GRACE_MICROS)%Z ->
  match ls_high_water st !! node with
  | Some w => (hw_sequence w < nr_sequence record)%Z
  | None => size (ls_high_water st) < co_capacity core
  end ->
  advance st node record packet_hash reading = (st', outcome) ->
  table_ok st' /\ lookup_le st st' /\ verdict st' node record packet_hash (cr_wall_unix_micros reading) outcome.
Proof.
  intros [Hsize Hwater] Hg Hfuture Hroom (w & -> & Hseq & Hhash & Hout)%advance_spec. split_and!.
  - split; cbn [ls_high_water].
    + rewrite map_size_insert. destruct (ls_high_water st !! node); cbn in *; lia.
    + intros node' w'. destruct (decide (node' = node)) as [->|]; [rewrite lookup_insert_eq|rewrite lookup_insert_ne by done; apply Hwater].
      intros [= <-]. exists record. rewrite Hhash. split; [done|]. split; [done|].
      destruct outcome as [result|e]; [destruct Hout as (-> & ? & ? & ? & _); done|by rewrite Hout].
  - split; cbn [ls_high_water ls_last_wall_unix_micros]; [|intros t Ht; exists t; split; [done|lia]].
    intros node' w' Hw'. destruct (decide (node' = node)) as [->|].
    + rewrite lookup_insert_eq. exists w. split; [done|]. right. rewrite Hw' in Hroom. lia.
    + rewrite lookup_insert_ne by done. exists w'. split; [done|]. by left.
  - unfold verdict. cbn [ls_high_water]. rewrite lookup_insert_eq. destruct outcome as [result|e].
    + destruct Hout as (Hc & _ & _ & _ & Hx). exists w. by split_and!.
    + intros _. exists w. by split_and!.
Qed.

Lemma validate_verdict st node record packet_hash reading st' outcome :
  table_ok st -> genuine node record packet_hash ->
  validate_and_advance st (co_capacity core) node record packet_hash reading = (st', outcome) ->
  table_ok st' /\ lookup_le st st' /\ verdict st' node record packet_hash (cr_wall_unix_micros reading) outcome.
Proof.
  intros Hok Hg. unfold validate_and_advance, u64_saturating_add.
  destruct (Z.ltb_spec (Z.min u64_max (cr_wall_unix_micros reading + NODE_LOOKUP_SCHEDULER_GRACE_MICROS)) (nr_sequence record)) as [|Hfut];
    [by intros [= <- <-]|].
  assert (Hfut' : (nr_sequence record <= cr_wall_unix_micros reading + NODE_LOOKUP_SCHEDULER_GRACE_MICROS)%Z) by lia.
  pose proof (advance_verdict st node record packet_hash reading st' outcome Hok Hg Hfut') as Hadv.
  destruct (ls_high_water st !! node) as [w|] eqn:Hw; [|destruct (Nat.leb_spec (co_capacity core) (size (ls_high_water st)));
    [by intros [= <- <-]|auto]].
  destruct (Z.ltb_spec (nr_sequence record) (hw_sequence w)); [by intros [= <- <-]|].
  destruct (Z.eqb_spec (nr_sequence record) (hw_sequence w)) as [Hseq|]; cbn [andb]; [|intros; apply Hadv; [lia|done]].
  case_bool_decide as Hh; [by intros [= <- <-]|].
  destruct (Z.leb_spec (nr_expires_unix_micros record) (cr_wall_unix_micros reading)); [by intros [= <- <-]|]. cbn [orb].
  destruct (_ <=? _)%Z; [by intros [= <- <-]|].
  destruct (hw_cached w) as [cached|] eqn:Hc; intros [= <- <-]; (split_and!; [done|done|]); unfold verdict; [|intros _]; exists w; by split_and!.
Qed.

Lemma observe_spec st clock :
  match read_and_observe_clock st clock with
  | Ok (st1, reading) =>
      clock = Some reading /\ lookup_le st st1 /\
      st1 = {| ls_high_water := ls_high_water st; ls_last_wall_unix_micros := Some (cr_wall_unix_micros reading) |}
  | Err e => e = unavailable UClockRollback
  end.
Proof.
  unfold read_and_observe_clock, observe_wall_clock. destruct clock as [rd|]; [|done]. cbn [ok_or mbind result_bind].
  destruct (ls_last_wall_unix_micros st) as [t|] eqn:Ht; [destruct (Z.ltb_spec (cr_wall_unix_micros rd) t); [done|]|];
    cbn [mbind result_bind]; split_and!; try done; split; cbn [ls_high_water ls_last_wall_unix_micros].
  1, 3: intros node w Hw; exists w; split; [done|by left].
  - intros t' Ht'. rewrite Ht in Ht'. injection Ht' as <-. eauto.
  - intros t' Ht'. by rewrite Ht in Ht'.
Qed.

Lemma table_ok_water st st' : ls_high_water st' = ls_high_water st -> table_ok st -> table_ok st'.
Proof. intros E [Hs Hw]. split; by rewrite E. Qed.

Lemma preflight_spec node closed late clock st st' r :
  preflight core node closed late clock st = (st', r) ->
  ls_high_water st' = ls_high_water st /\ lookup_le st st' /\ (forall e, r = Err e -> nu_kind e <> UWithdrawn).
Proof.
  unfold preflight, lock_state_until. destruct closed.1; [by intros [= <- <-]; split_and!; [..|intros e [= <-]]|].
  destruct late; cbn [reject_if]; [by intros [= <- <-]; split_and!; [..|intros e [= <-]]|].
  destruct closed.2; [by intros [= <- <-]; split_and!; [..|intros e [= <-]]|].
  pose proof (observe_spec st clock) as Ho. destruct (read_and_observe_clock st clock) as [[st1 rd]|e].
  - destruct Ho as (_ & Hle & ->). intros [= <- <-]. split_and!; [done|done|]. destruct (_ && _); by intros e [= <-].
  - intros [= <- <-]. split_and!; [done|done|]. intros e' [= <-]. by rewrite Ho.
Qed.

(** [r] gives no error of kind [k]. *)
Definition never {T} (k : NodeLookupUnavailableKind) (r : result NodeLookupUnavailable T) : Prop :=
  match r with Ok _ => True | Err e => nu_kind e <> k end.
Lemma never_bind {T U} k (r : result NodeLookupUnavailable T) (f : T -> result NodeLookupUnavailable U) :
  never k r -> (forall t, never k (f t)) -> never k (r ≫= f).
Proof. destruct r as [t|e]; cbn; auto. Qed.
Lemma never_map {E T} k (f : E -> NodeLookupUnavailable) (r : result E T) :
  (forall e, nu_kind (f e) <> k) -> never k (map_err f r).
Proof. destruct r; cbn; auto. Qed.
Lemma never_reject k b e : nu_kind e <> k -> never k (reject_if b e).
Proof. by destruct b. Qed.
Lemma never_ok_or {T} k (o : option T) e : nu_kind e <> k -> never k (ok_or o e).
Proof. by destruct o. Qed.

Lemma receive_no_withdrawal node late answer : never UWithdrawn (receive core node (NodeId_as_bytes node) late answer).
Proof.
  unfold receive.
  repeat first [apply never_bind; [|intros ?]|apply never_reject; discriminate|apply never_map; intros ?|apply never_ok_or].
  - by destruct e.
  - destruct (_ =? _)%Z; [done|]. by destruct (_ =? _)%Z.
  - unfold map_signed_packet_error. by destruct (signature_error _ _).
  - unfold map_record_error. by destruct (error_kind e).
  - done.
Qed.

(** The outcome of a lookup that settles. *)
Definition settled_with (st' : LookupState) (node : NodeId) (record : NodeRecord) (packet_hash : list byte)
    (clock : option ClockReading) (outcome : Outcome) : Prop :=
  match outcome with
  | Ok _ => exists reading, clock = Some reading /\ verdict st' node record packet_hash (cr_wall_unix_micros reading) outcome
  | Err e => nu_validated_signed_packet e = Some (nr_sequence record, packet_hash) /\ forall wall, verdict st' node record packet_hash wall outcome
  end.

Lemma settled_refused st' node record packet_hash clock k :
  k <> UWithdrawn ->
  settled_with st' node record packet_hash clock (Err (with_validated_signed_packet (nr_sequence record) packet_hash (unavailable k))).
Proof. intros Hk. split; [done|]. intros wall Hw. by destruct Hk. Qed.

Lemma settle_spec node record packet_hash late clock st st' outcome :
  table_ok st -> genuine node record packet_hash ->
  settle core node record packet_hash late clock st = (st', outcome) ->
  table_ok st' /\ lookup_le st st' /\ settled_with st' node record packet_hash clock outcome.
Proof.
  intros Hok Hg. unfold settle, lock_state_until.
  destruct (sl_before late); [intros [= <- <-]; split_and!; [done|done|by apply settled_refused]|].
  destruct (sl_lock late); cbn [reject_if]; [intros [= <- <-]; split_and!; [done|done|by apply settled_refused]|].
  pose proof (observe_spec st clock) as Ho. destruct (read_and_observe_clock st clock) as [[st1 rd]|e];
    [|subst e; intros [= <- <-]; split_and!; [done|done|by apply settled_refused]].
  destruct Ho as (-> & Hle & ->). set (st1 := {| ls_high_water := _ |}) in *.
  destruct (validate_and_advance st1 _ _ _ _ _) as [st2 o] eqn:Ev.
  apply validate_verdict in Ev as (Hok' & Hle' & Hv); [|by apply (table_ok_water st)|done].
  intros [= <- <-]. split; [done|]. split; [by etrans|]. destruct (sl_after late); [by apply settled_refused|].
  destruct o as [result|e]; cbn [map_err settled_with]; [by exists rd|]. split; [done|]. intros wall. exact Hv.
Qed.

(** ** The system *)

Lemma flights_insert fl i node phase :
  flights_ok fl -> match phase with Asking => True | Validated record packet_hash => genuine node record packet_hash end ->
  flights_ok (<[i := (node, phase)]> fl).
Proof.
  intros Hfl Hp j node' record packet_hash. destruct (decide (j = i)) as [->|].
  - rewrite lookup_insert_eq. by intros [= <- ->].
  - rewrite lookup_insert_ne by done. apply Hfl.
Qed.
Lemma flights_delete fl i : flights_ok fl -> flights_ok (delete i fl).
Proof. intros Hfl j node record packet_hash (_ & E)%lookup_delete_Some. by eapply Hfl. Qed.

(** Every step keeps the table sound and moves it forward; a lookup that ends
    leaves in the table what it said. *)
Lemma lstep_sound s l s' :
  lstep s l s' -> table_ok (sy_state s) -> flights_ok (sy_flights s) ->
  table_ok (sy_state s') /\ flights_ok (sy_flights s') /\ lookup_le (sy_state s) (sy_state s') /\
  match l with
  | Some (Build_Ended _ node clock outcome) =>
      (exists record packet_hash, genuine node record packet_hash /\ settled_with (sy_state s') node record packet_hash clock outcome) \/
      never UWithdrawn outcome /\ is_ok outcome = false
  | None => True
  end.
Proof.
  intros Hstep Hok Hfl. destruct Hstep as [st st' closed was fl i node late clock e Hi Hc Hp|st st' closed was fl i node late clock Hi Hc Hp
    |st closed fl i node Hi|st closed fl i node late answer e Hi Hr|st closed fl i node late answer record h Hi Hr
    |st st' closed fl i node record h late clock outcome Hi Hs|st closed fl i|st closed fl]; cbn [sy_state sy_flights] in *.
  - apply preflight_spec in Hp as (Hw & Hle & He). split_and!; [by apply (table_ok_water st)|done|done|]. right. split; [by apply He|done].
  - apply preflight_spec in Hp as (Hw & Hle & _). split_and!; [by apply (table_ok_water st)|by apply flights_insert|done|done].
  - split_and!; [done|by apply flights_delete|done|by right].
  - split_and!; [done|by apply flights_delete|done|]. right. split; [|done].
    pose proof (receive_no_withdrawal node late answer) as Hn. by rewrite Hr in Hn.
  - split_and!; [done| |done|done]. apply flights_insert; [done|]. by eapply receive_genuine.
  - pose proof (Hfl _ _ _ _ Hi) as Hg. apply settle_spec in Hs as (Hok' & Hle & Hv); [|done|done].
    split_and!; [done|by apply flights_delete|done|]. left. eauto.
  - by split_and!; [|apply flights_delete|..].
  - done.
Qed.

Lemma reached s s' :
  rtc lstep_any s s' -> table_ok (sy_state s) -> flights_ok (sy_flights s) ->
  table_ok (sy_state s') /\ flights_ok (sy_flights s') /\ lookup_le (sy_state s) (sy_state s').
Proof.
  induction 1 as [|s1 s2 s3 [l Hl] _ IH]; [done|]. intros Hok Hfl.
  destruct (lstep_sound _ _ _ Hl Hok Hfl) as (Hok2 & Hfl2 & Hle & _). destruct (IH Hok2 Hfl2) as (? & ? & ?).
  split_and!; try done. by etrans.
Qed.

Lemma opened_ok : table_ok (sy_state opened) /\ flights_ok (sy_flights opened).
Proof. split; [split; cbn; [rewrite map_size_empty; lia|done]|done]. Qed.

Lemma reachable_ok s : rtc lstep_any opened s -> table_ok (sy_state s) /\ flights_ok (sy_flights s).
Proof. intros Hs. destruct opened_ok as [Ht Hf]. by destruct (reached _ _ Hs Ht Hf) as (? & ? & _). Qed.

(** The reader's replay table is bounded and only moves forward.  In every
    system of concurrent lookups, whatever the authority answers, the table
    never holds more nodes than its capacity and every entry is for a record
    the node itself signed for this reader's namespace and recipient; from one
    state to any later one no node is forgotten, an entry changes only to a
    higher sequence, and the wall clock the table remembers never goes back. *)
Theorem replay_table_moves_forward s s' :
  rtc lstep_any opened s -> rtc lstep_any s s' ->
  size (ls_high_water (sy_state s')) <= co_capacity core /\
  (forall node w, ls_high_water (sy_state s') !! node = Some w -> water_ok node w) /\
  (forall node w, ls_high_water (sy_state s) !! node = Some w ->
     exists w', ls_high_water (sy_state s') !! node = Some w' /\ (w = w' \/ (hw_sequence w < hw_sequence w')%Z)) /\
  (forall t, ls_last_wall_unix_micros (sy_state s) = Some t ->
     exists t', ls_last_wall_unix_micros (sy_state s') = Some t' /\ (t <= t')%Z).
Proof.
  intros Hs Hs'. destruct (reachable_ok _ Hs) as [Ht Hf]. destruct (reached _ _ Hs' Ht Hf) as ([Hsz Hw] & _ & [Hle Hwall]). done.
Qed.

(** C16: A lookup that succeeds returns what the node signed.  Whatever the
    authority answers and however lookups interleave, the result of a
    successful lookup is the record of a packet that verifies under the
    requested key, names that node, is for the reader's namespace and
    recipient, is live and has a candidate; a packet with the same hash and
    sequence was fetched by this very lookup and had not expired at the reading
    of the clock, nor was its sequence more than the grace ahead of it.  The
    two are the same record unless BLAKE3 collides. *)
Theorem found_is_genuine s s' i node clock result :
  rtc lstep_any opened s ->
  lstep s (Some {| en_flight := i; en_node := node; en_clock := clock; en_outcome := Ok result |}) s' ->
  exists reading fetched record packet_hash,
    clock = Some reading /\ genuine node fetched packet_hash /\ genuine node record packet_hash /\
    result = from_record record packet_hash /\ nr_sequence record = nr_sequence fetched /\
    nr_state record = Live /\ nr_locations record <> [] /\
    (cr_wall_unix_micros reading < nr_expires_unix_micros fetched)%Z /\
    (nr_sequence fetched <= cr_wall_unix_micros reading + NODE_LOOKUP_SCHEDULER_GRACE_MICROS)%Z /\
    ((forall a b, blake3_hex a = blake3_hex b -> a = b) -> record = fetched).
Proof.
  intros Hs Hl. destruct (reachable_ok _ Hs) as [Ht Hf].
  destruct (lstep_sound _ _ _ Hl Ht Hf) as (Ht' & _ & _ & [(fetched & h & Hg & reading & -> & w & Hw & Hc & Hh & Hq & Hx & Hfut)|[_ [=]]]).
  destruct (to_water _ Ht' _ _ Hw) as (record & Hg' & Hseq & Hm). rewrite Hc, Hh in *. destruct Hm as (Hres & Hlive & Hloc).
  exists reading, fetched, record, h. split_and!; try done; [congruence|].
  intros Hinj. destruct Hg as (? & p & _ & _ & Hd & -> & _), Hg' as (? & p' & _ & _ & Hd' & Hb & _).
  apply Hinj in Hb. rewrite <-Hb in Hd'. congruence.
Qed.

(** C12: No lookup goes back behind an earlier one.  After a lookup of a node
    was answered with a result, every later successful lookup of that node by
    the same reader, concurrent ones included and whatever the authority
    serves, returns that very result or one with a higher sequence; after a
    withdrawal was seen, only a record with a higher sequence is returned. *)
Theorem lookup_never_goes_back s1 s2 s3 s4 i j node clock clock' outcome result :
  rtc lstep_any opened s1 ->
  lstep s1 (Some {| en_flight := i; en_node := node; en_clock := clock; en_outcome := outcome |}) s2 ->
  rtc lstep_any s2 s3 ->
  lstep s3 (Some {| en_flight := j; en_node := node; en_clock := clock'; en_outcome := Ok result |}) s4 ->
  match outcome with
  | Ok earlier => earlier = result \/ (lr_sequence earlier < lr_sequence result)%Z
  | Err e => nu_kind e = UWithdrawn ->
      exists sequence packet_hash, nu_validated_signed_packet e = Some (sequence, packet_hash) /\ (sequence < lr_sequence result)%Z
  end.
Proof.
  intros Hs1 Hl Hs3 Hl'. destruct (reachable_ok _ Hs1) as [Ht Hf].
  destruct (lstep_sound _ _ _ Hl Ht Hf) as (Ht2 & Hf2 & _ & Hend). destruct (reached _ _ Hs3 Ht2 Hf2) as (Ht3 & Hf3 & Hle).
  destruct (lstep_sound _ _ _ Hl' Ht3 Hf3) as (Ht4 & _ & Hle' & [(f' & h' & _ & rd' & _ & w' & Hw' & Hc' & _)|[_ [=]]]).
  assert (forall w, ls_high_water (sy_state s2) !! node = Some w -> water_le w w') as Hww.
  { intros w (w2 & E2 & Hle2)%(le_water _ _ (transitivity Hle Hle')). rewrite Hw' in E2. by injection E2 as <-. }
  assert (lr_sequence result = hw_sequence w') as ->.
  { destruct (to_water _ Ht4 _ _ Hw') as (r & _ & -> & Hm). rewrite Hc' in Hm. by destruct Hm as (-> & _). }
  destruct outcome as [earlier|e].
  - destruct Hend as [(f & h & _ & rd & _ & w & Hw & Hc & _)|[_ [=]]]. destruct (to_water _ Ht2 _ _ Hw) as (r & _ & Hq & Hm).
    rewrite Hc in Hm. destruct Hm as (-> & _). destruct (Hww _ Hw) as [->|Hlt]; [left; congruence|right; cbn; lia].
  - intros Hk. destruct Hend as [(f & h & _ & Hval & Hv)|[Hn _]]; [|done].
    destruct (Hv 0%Z Hk) as (w & Hw & Hc & Hq). exists (nr_sequence f), h. split; [done|].
    destruct (Hww _ Hw) as [->|Hlt]; [congruence|lia].
Qed.

(** ** A lookup alone *)

(** [resolve] is one flight of the system. *)
Lemma resolve_flight peer node su st st' outcome closed fl i :
  fl !! i = None -> su_closed su = (closed, closed) ->
  resolve core peer node (NodeId_as_bytes node) su st = (st', outcome) ->
  exists s clock, rtc lstep_any {| sy_state := st; sy_closed := closed; sy_flights := fl |} s /\
    lstep s (Some {| en_flight := i; en_node := node; en_clock := clock; en_outcome := outcome |})
      {| sy_state := st'; sy_closed := closed; sy_flights := fl |}.
Proof.
  intros Hi Hc. unfold resolve. rewrite Hc. destruct (preflight _ _ _ _ _ _) as [st1 [[]|e]] eqn:Hp; cycle 1.
  { intros [= <- <-]. eexists _, _. split; [reflexivity|]. by eapply lstep_refused. }
  pose proof (lstep_admitted _ _ _ _ fl i _ _ _ Hi (fun H => H) Hp) as Hadm.
  assert (forall ph, delete i (<[i := (node, ph)]> fl) = fl) as Hdel by (intros; by rewrite delete_insert_eq, delete_id).
  assert (Hat : forall ph, (<[i := (node, ph)]> fl) !! i = Some (node, ph)) by (intros; apply lookup_insert_eq).
  destruct (su_late_request su).
  { intros [= <- <-]. eexists _, _. split; [eapply rtc_once; by exists None|]. 
    pose proof (lstep_late st1 closed _ i node (Hat Asking)) as Hl. by rewrite Hdel in Hl. }
  destruct (receive _ _ _ _ _) as [[record h]|e] eqn:Hr.
  - intros Hs. eexists _, _. split.
    + eapply rtc_l; [by exists None|]. apply rtc_once. exists None. by eapply lstep_received.
    + rewrite insert_insert_eq. pose proof (lstep_settled _ _ closed _ i node _ _ _ _ _ (Hat (Validated record h)) Hs) as Hl.
      by rewrite Hdel in Hl.
  - intros [= <- <-]. eexists _, _. split; [eapply rtc_once; by exists None|]. 
    pose proof (lstep_rejected st1 closed _ i node _ _ _ (Hat Asking) Hr) as Hl. by rewrite Hdel in Hl.
Qed.

End flights.

(** ** What was published is found *)

(** A reader with nothing in the way of a lookup of this record: open, in time,
    its clock not behind what it has seen, within the record's life and with
    nothing as new in the table. *)
Record reader_ready (core : NodeLookupCore) (su : Surroundings) (st : LookupState) (record : NodeRecord) : Prop := {
  rd_open : su_closed su = (false, false);
  rd_in_time : su_late_lock su || su_late_request su || su_late_answer su || sl_before (su_settle su) || sl_lock (su_settle su)
               || sl_after (su_settle su) = false;
  rd_clocks : exists c c', su_clock su = Some c /\ su_clock_after su = Some c' /\
    match ls_last_wall_unix_micros st with Some t => (t <= cr_wall_unix_micros c)%Z | None => True end /\
    (cr_wall_unix_micros c <= cr_wall_unix_micros c')%Z /\ (cr_wall_unix_micros c' < nr_expires_unix_micros record)%Z /\
    (nr_sequence record <= cr_wall_unix_micros c' + NODE_LOOKUP_SCHEDULER_GRACE_MICROS)%Z;
  rd_room :
    match ls_high_water st !! nr_node_id record with
    | Some w => (hw_sequence w < nr_sequence record)%Z
    | None => size (ls_high_water st) < co_capacity core
    end
}.

(** What such a lookup says of a record. *)
Definition looked_up (record : NodeRecord) (packet_hash : list byte) : Outcome :=
  match nr_state record with
  | Live => Ok (from_record record packet_hash)
  | Withdrawn => Err (with_validated_signed_packet (nr_sequence record) packet_hash (unavailable UWithdrawn))
  end.

Section ready.
Context `{Ed25519, Pkarr, Dns, Urls, Blake3Hex, PkarrErrors}.
Context (core : NodeLookupCore).

Lemma observe_forward st c :
  match ls_last_wall_unix_micros st with Some t => (t <= cr_wall_unix_micros c)%Z | None => True end ->
  read_and_observe_clock st (Some c) =
  Ok ({| ls_high_water := ls_high_water st; ls_last_wall_unix_micros := Some (cr_wall_unix_micros c) |}, c).
Proof.
  unfold read_and_observe_clock, observe_wall_clock. cbn [ok_or mbind result_bind].
  destruct (ls_last_wall_unix_micros st) as [t|]; [|done]. intros Ht. by rewrite (proj2 (Z.ltb_ge _ _) Ht).
Qed.

Lemma validate_fresh st record packet_hash reading :
  record_wf record -> (cr_wall_unix_micros reading < nr_expires_unix_micros record)%Z ->
  (nr_sequence record <= cr_wall_unix_micros reading + NODE_LOOKUP_SCHEDULER_GRACE_MICROS)%Z ->
  match ls_high_water st !! nr_node_id record with
  | Some w => (hw_sequence w < nr_sequence record)%Z
  | None => size (ls_high_water st) < co_capacity core
  end ->
  exists st', validate_and_advance st (co_capacity core) (nr_node_id record) record packet_hash reading =
    (st', match nr_state record with Live => Ok (from_record record packet_hash) | Withdrawn => Err (unavailable UWithdrawn) end).
Proof.
  intros Hwf Hx Hfut Hroom. unfold validate_and_advance, u64_saturating_add.
  pose proof (rw_bound _ Hwf). pose proof (rw_expiry _ Hwf). pose proof (rw_ttl _ Hwf).
  rewrite (proj2 (Z.ltb_ge _ _)) by lia.
  assert (exists st', advance st (nr_node_id record) record packet_hash reading =
    (st', match nr_state record with Live => Ok (from_record record packet_hash) | Withdrawn => Err (unavailable UWithdrawn) end)) as [st' E].
  { unfold advance, u64_saturating_sub. rewrite (proj2 (Z.eqb_neq _ _)) by lia. eexists. f_equal.
    destruct (nr_state record) eqn:Es; [|done]. rewrite bool_decide_false; [done|by apply (rw_state _ Hwf)]. }
  exists st'. destruct (ls_high_water st !! nr_node_id record) as [w|].
  - rewrite (proj2 (Z.ltb_ge _ _)), (proj2 (Z.eqb_neq _ _)) by lia. done.
  - by rewrite (proj2 (Nat.leb_gt _ _)).
Qed.

(** A ready reader to whom the record is served. *)
Lemma ready_receives `{!PkarrLaws} p record :
  decode_node_record (as_bytes p) = Ok record ->
  nr_namespace record = lc_namespace (co_config core) -> nr_recipient record = lc_signed_recipient (co_config core) ->
  receive core (nr_node_id record) (public_key p) false (Ok {| ph_status := 200; ph_body := to_relay_payload p |}) =
  Ok (record, blake3_hex (as_bytes p)).
Proof.
  intros Hdec Hns Hrc. unfold receive. cbn [map_err mbind result_bind reject_if ph_status ph_body Z.eqb Pos.eqb].
  rewrite from_relay, <-relay_layout, packet_of_bytes. cbn [ok_or mbind result_bind].
  rewrite bool_decide_false by auto. cbn [reject_if mbind result_bind]. rewrite Hdec. cbn [map_err mbind result_bind].
  rewrite !bool_decide_false by auto. cbn [reject_if mbind result_bind].
  by rewrite (proj2 (Nat.ltb_ge _ _) (rw_count _ (decoded_wf _ _ Hdec))).
Qed.

Lemma ready_resolves `{!PkarrLaws} peer su st p record :
  decode_node_record (as_bytes p) = Ok record -> reader_ready core su st record ->
  nr_namespace record = lc_namespace (co_config core) -> nr_recipient record = lc_signed_recipient (co_config core) ->
  client_get_raw peer (ep_host (co_endpoint core)) (public_key p) = Ok {| ph_status := 200; ph_body := to_relay_payload p |} ->
  exists st', resolve core peer (nr_node_id record) (public_key p) su st = (st', looked_up record (blake3_hex (as_bytes p))).
Proof.
  intros Hdec [Hopen Htime (c & c' & Hc & Hc' & Hlast & Hcc & Hx & Hfut) Hroom] Hns Hrc Hget.
  repeat (apply orb_false_elim in Htime as [Htime ?]).
  set (st1 := {| ls_high_water := ls_high_water st; ls_last_wall_unix_micros := Some (cr_wall_unix_micros c) |}).
  assert (preflight core (nr_node_id record) (su_closed su) (su_late_lock su) (su_clock su) st = (st1, Ok tt)) as Hpre.
  { unfold preflight, lock_state_until. rewrite Hopen, Hc, Htime. cbn [fst snd reject_if].
    rewrite observe_forward by done. cbn zeta. fold st1. f_equal.
    destruct (ls_high_water st1 !! nr_node_id record) eqn:Hw; [done|]. cbn [ls_high_water st1] in *. rewrite Hw in Hroom.
    by rewrite (proj2 (Nat.leb_gt _ _) Hroom), andb_false_r. }
  set (st2 := {| ls_high_water := ls_high_water st; ls_last_wall_unix_micros := Some (cr_wall_unix_micros c') |}).
  destruct (validate_fresh st2 record (blake3_hex (as_bytes p)) c') as [st' Hv]; [by eapply decoded_wf|done|done|done|].
  exists st'. unfold resolve. rewrite Hpre, Hget. 
  repeat match goal with E : ?b = false |- _ => match b with context [su] => rewrite E; clear E end end.
  rewrite ready_receives by done. unfold settle, lock_state_until.
  repeat match goal with E : ?b = false |- _ => match b with context [su] => rewrite E; clear E end end. cbn [reject_if].
  rewrite Hc', observe_forward by done. cbn [ls_high_water st1]. fold st2. rewrite Hv. unfold looked_up. by destruct (nr_state record).
Qed.

End ready.

(** The reader and the publisher at one authority. *)
Section found.
Context `{Ed25519, Pkarr, Dns, Urls, Blake3Hex, PkarrErrors, !PkarrLaws}.
Context `{Json AuthorityStateBody, Json (Envelope AuthorityStateBody), !JsonLaws (Envelope AuthorityStateBody) (fun _ => True)}.
Context `{Json AuthorityAnchorBody, Json (Envelope AuthorityAnchorBody), !JsonLaws (Envelope AuthorityAnchorBody) (fun _ => True)}.
Context (euid : Z) (config : PublicationAuthorityConfig) (cut : list byte -> Conn) `{!AuthorityRoom config}.
Context (key : SigningKey).
Context (cut_arrives : forall bytes, arrives (cut bytes) bytes) (host_valid : valid_host (ac_expected_host config) = true).
Context (key_z32 : from_z32 (signer key) = Some (verifying_key key)) (key_admitted : admits (ac_signer_admission config) (signer key) = true).

(** What the authority's register serves comes off the wire as a relay payload. *)
Lemma net_serves n sequence expiry bytes :
  net_up euid config n -> net_slot (signer key) n = Register.Kept sequence expiry bytes ->
  (nt_now n < expiry)%Z -> net_late (signer key) n = false ->
  exists p, as_bytes p = bytes /\ public_key p = verifying_key key /\
    client_get_raw (net_peer euid config cut n) (ac_expected_host config) (verifying_key key) =
      Ok {| ph_status := 200; ph_body := to_relay_payload p |} /\
    net_slot (signer key) (net_after euid config cut n GET (signer key) []) = Register.Kept sequence expiry bytes.
Proof.
  intros Hup Hslot Hnow Hlate. destruct (slot_packet euid config key key_z32 n _ _ _ Hup Hslot) as (p & Hp & Hkey).
  assert (react config (nt_inner n) {| rq_method := GET; rq_signer := signer key; rq_body := [] |} (nt_now n) (nt_instant n)
    = (Register.Kept sequence expiry bytes, Register.Serves bytes)) as Er.
  { unfold react. cbn [rq_method rq_signer]. unfold net_slot, net_late in *. rewrite Hslot, Hlate. cbn [Register.get].
    by rewrite (proj2 (Z.leb_gt _ _) Hnow). }
  destruct (net_request euid config cut key cut_arrives host_valid key_z32 key_admitted n GET [] Hup) as (Ereq & _ & _ & Hslot' & _);
    [vm_compute; discriminate|done| |].
  { rewrite Er. cbn [snd]. intros packet [= <-]. subst bytes. pose proof (packet_size p). by rewrite packet_max in *. }
  rewrite Er in *. cbn [fst snd Register.status Register.body] in *. exists p. split_and!; try done.
  unfold client_get_raw. unfold signer in *. by rewrite Ereq, relay_payload_drop, Hp.
Qed.

(** What it keeps is for its namespace and recipient. *)
Lemma slot_record n sequence expiry bytes record :
  net_up euid config n -> net_slot (signer key) n = Register.Kept sequence expiry bytes -> decode_node_record bytes = Ok record ->
  nr_namespace record = ac_namespace config /\ nr_recipient record = ac_signed_recipient config.
Proof.
  intros Hup Hs Hd. pose proof (nu_valid _ _ _ Hup) as Hv. apply validate_state_ok in Hv as (_ & _ & _ & _ & Hall).
  unfold net_slot in Hs. destruct (as_records (in_state (nt_inner n)) !! signer key) as [en|] eqn:He; [|done].
  destruct (Hall _ _ He) as (p & r & Hh). unfold register_of in Hs. destruct (ae_expired en); [done|].
  rewrite (decode_packet_hex _ _ (eh_packet _ _ _ _ _ Hh)) in Hs. injection Hs as _ _ <-. rewrite (eh_record _ _ _ _ _ Hh) in Hd.
  injection Hd as <-. split; [by eapply eh_namespace|by eapply eh_recipient].
Qed.

(** A publisher's record has landed at this authority. *)
Definition landed_here : PublicationReceipt -> Run Net -> Prop :=
  landed (H12 := net_link euid config cut) key _
    (RegisterLink0 := net_register euid config cut key cut_arrives host_valid key_z32 key_admitted).

(** C13: What was published is found.  Once a publisher's update or shutdown
    has landed at an authority that is up, a reader of the authority's namespace
    that is ready for the record looks it up through the HTTP client: it gets
    exactly the published record with its locations as candidates, or, after a
    shutdown, that the node has withdrawn; and the authority still holds the
    record. *)
Theorem published_is_found core su st r receipt :
  landed_here receipt r -> net_up euid config (r_net r) -> net_late (signer key) (r_net r) = false ->
  (nt_now (r_net r) < nr_expires_unix_micros (rc_record receipt))%Z ->
  ep_host (co_endpoint core) = ac_expected_host config ->
  lc_namespace (co_config core) = ac_namespace config -> lc_signed_recipient (co_config core) = ac_signed_recipient config ->
  reader_ready core su st (rc_record receipt) ->
  exists st' bytes,
    resolve core (net_peer euid config cut (r_net r)) (node_id key) (verifying_key key) su st =
      (st', looked_up (rc_record receipt) (blake3_hex bytes)) /\
    net_slot (signer key) (net_after euid config cut (r_net r) GET (signer key) []) =
      Register.Kept (nr_sequence (rc_record receipt)) (nr_expires_unix_micros (rc_record receipt)) bytes.
Proof.
  intros (_ & bytes & Hdec & Hslot) Hup Hlate Hnow Hhost Hns Hrc Hready. cbn [rl_slot net_register] in Hslot.
  destruct (slot_record _ _ _ _ _ Hup Hslot Hdec) as [Hns' Hrc'].
  destruct (net_serves _ _ _ _ Hup Hslot Hnow Hlate) as (p & <- & Hkey & Hget & Hafter).
  assert (nr_node_id (rc_record receipt) = node_id key) as Hid.
  { destruct (decode_spells _ _ Hdec) as (p' & _ & Hp' & _ & _ & _ & Hn & _). rewrite packet_of_bytes in Hp'. injection Hp' as <-.
    by rewrite Hn, Hkey. }
  rewrite <-Hkey, <-Hhost in Hget. destruct (ready_resolves core (net_peer euid config cut (r_net r)) su st p _ Hdec Hready) as [st' Hres]; [congruence|congruence|exact Hget|].
  exists st', (as_bytes p). rewrite Hid, Hkey in Hres. split; [exact Hres|exact Hafter].
Qed.

End found.
