(* ===== verification/ToyNode.v ===== *)
(** * Concrete crates for the node publication witnesses

    The theorems of NodeRecord.v, Authority.v, PinnedHttp.v, Publisher.v and
    Publication.v hold for any pkarr, DNS, URL and JSON codecs that obey their
    laws.  This file gives small computable ones, built from one set of codec
    combinators, and applies the theorems to concrete runs.  It models no code
    of the program. *)

From Stdlib Require Import Strings.Byte ZArith Lia.
From stdpp Require Import base gmap numbers strings sorting list.
From S2P Require Import Prelude Hex Text Ids RecordCodec ToyCrypto Lan SockAddr NodeRecord StateDir Authority PinnedHttp Publisher PublisherProps Publication.

(** ** Codecs *)

#[local] Obligation Tactic := idtac.
#[local] Unset Program Cases.

Record Codec (T : Type) := {
  c_ok : T -> bool;
  c_put : T -> list byte;
  c_get : list byte -> option (T * list byte);
  c_law : forall x rest, c_ok x = true -> c_get (c_put x ++ rest) = Some (x, rest)
}.
Arguments c_ok {T}.
Arguments c_put {T}.
Arguments c_get {T}.
Arguments c_law {T}.

Lemma take_app_be n z rest : take n (to_be_bytes n z ++ rest) = to_be_bytes n z.
Proof. by rewrite take_app_length' by (by rewrite length_to_be_bytes). Qed.
Lemma drop_app_be n z rest : drop n (to_be_bytes n z ++ rest) = rest.
Proof. by rewrite drop_app_length' by (by rewrite length_to_be_bytes). Qed.

(** Fixed-width numbers. *)
Program Definition c_num (n : nat) : Codec Z := {|
  c_ok z := ((0 <=? z) && (z <? 256 ^ Z.of_nat n))%Z;
  c_put := to_be_bytes n;
  c_get s := Some (from_be_bytes (take n s), drop n s)
|}.
Next Obligation.
  intros n z rest Hz. cbv beta in *. bools. by rewrite take_app_be, drop_app_be, from_to_be_bytes_small.
Qed.

Program Definition c_iso {S T} (f : S -> T) (g : T -> S) (Hfg : forall t, f (g t) = t) (c : Codec S) : Codec T := {|
  c_ok t := c_ok c (g t);
  c_put t := c_put c (g t);
  c_get s := '(x, rest) ← c_get c s; Some (f x, rest)
|}.
Next Obligation. intros S T f g Hfg c t rest Ht. cbv beta. by rewrite c_law; cbn; [rewrite Hfg|]. Qed.

Program Definition c_pair {S T} (a : Codec S) (b : Codec T) : Codec (S * T) := {|
  c_ok x := c_ok a x.1 && c_ok b x.2;
  c_put x := c_put a x.1 ++ c_put b x.2;
  c_get s := '(x, s) ← c_get a s; '(y, s) ← c_get b s; Some ((x, y), s)
|}.
Next Obligation.
  intros S T a b [x y] rest H. cbn in *. bools. rewrite <-app_assoc, c_law by done. cbn. by rewrite c_law.
Qed.

Definition get_count {T} (c : Codec T) : nat -> list byte -> option (list T * list byte) :=
  fix go n s := match n with O => Some ([], s) | S n => '(x, s) ← c_get c s; '(xs, s) ← go n s; Some (x :: xs, s) end.
Lemma get_count_law {T} (c : Codec T) xs rest :
  forallb (c_ok c) xs = true -> get_count c (length xs) (concat (c_put c <$> xs) ++ rest) = Some (xs, rest).
Proof.
  induction xs as [|x xs IH]; intros H; [done|]. cbn in *. bools. rewrite <-app_assoc, c_law by done. cbn. by rewrite IH.
Qed.
Program Definition c_list {T} (c : Codec T) : Codec (list T) := {|
  c_ok xs := (Z.of_nat (length xs) <? 256 ^ 2)%Z && forallb (c_ok c) xs;
  c_put xs := to_be_bytes 2 (Z.of_nat (length xs)) ++ concat (c_put c <$> xs);
  c_get s := get_count c (Z.to_nat (from_be_bytes (take 2 s))) (drop 2 s)
|}.
Next Obligation.
  intros T c xs rest H. cbv beta in *. bools. rewrite <-app_assoc, take_app_be, drop_app_be, from_to_be_bytes_small, Nat2Z.id by lia.
  by apply get_count_law.
Qed.

(** Strings of bytes: a count and the bytes. *)
Program Definition c_bytes : Codec (list byte) := {|
  c_ok s := (Z.of_nat (length s) <? 256 ^ 2)%Z;
  c_put s := to_be_bytes 2 (Z.of_nat (length s)) ++ s;
  c_get s := let n := Z.to_nat (from_be_bytes (take 2 s)) in
             if (length (drop 2 s) <? n) then None else Some (take n (drop 2 s), drop n (drop 2 s))
|}.
Next Obligation.
  intros s rest H. cbv beta zeta in *. bools. rewrite <-app_assoc, take_app_be, drop_app_be, from_to_be_bytes_small, Nat2Z.id by lia.
  rewrite (proj2 (Nat.ltb_ge _ _)) by (rewrite length_app; lia). by rewrite take_app_length, drop_app_length.
Qed.

Definition c_u64 : Codec Z := c_num 8.
Program Definition c_bool : Codec bool := {|
  c_ok _ := true;
  c_put b := [if b then x01 else x00];
  c_get s := match s with b :: s => Some (bool_decide (b = x01), s) | [] => None end
|}.
Next Obligation. by intros [] rest _. Qed.
Program Definition c_sum {S T} (a : Codec S) (b : Codec T) : Codec (S + T) := {|
  c_ok x := match x with inl x => c_ok a x | inr y => c_ok b y end;
  c_put x := match x with inl x => x00 :: c_put a x | inr y => x01 :: c_put b y end;
  c_get s := match s with
             | [] => None
             | tag :: s => if bool_decide (tag = x00) then '(x, s) ← c_get a s; Some (inl x, s)
                           else '(y, s) ← c_get b s; Some (inr y, s)
             end
|}.
Next Obligation. intros S T a b [x|y] rest H; cbn in *; by rewrite c_law. Qed.
Program Definition c_unit : Codec unit := {| c_ok _ := true; c_put _ := []; c_get s := Some (tt, s) |}.
Next Obligation. by intros [] rest _. Qed.
Program Definition c_option {T} (c : Codec T) : Codec (option T) :=
  c_iso (fun x => match x with inl _ => None | inr y => Some y end) (fun o => match o with None => inl tt | Some y => inr y end) _
        (c_sum c_unit c).
Next Obligation. by intros T c []. Qed.
(** Maps with a few short keys. *)
Program Definition c_map {T} (c : Codec T) : Codec (gmap (list byte) T) := {|
  c_ok m := (length (map_to_list m) <=? 16) && forallb (fun x => length x.1 <=? 64) (map_to_list m)
            && c_ok (c_list (c_pair c_bytes c)) (map_to_list m);
  c_put m := c_put (c_list (c_pair c_bytes c)) (map_to_list m);
  c_get s := '(l, rest) ← c_get (c_list (c_pair c_bytes c)) s; Some (list_to_map l, rest)
|}.
Next Obligation.
  intros T c m rest H. cbv beta in *. bools. rewrite c_law by done. cbn [mbind option_bind]. by rewrite list_to_map_to_list.
Qed.

(** A codec used as the JSON of a type. *)
Definition codec_json {T} (c : Codec T) : Json T := {|
  to_vec x := if c_ok c x then Some (c_put c x) else None;
  from_slice s := match c_get c s with Some (x, []) => Some x | _ => None end
|}.
Lemma codec_json_laws {T} (c : Codec T) (faithful : T -> Prop) : @JsonLaws T (codec_json c) faithful.
Proof.
  intros x b _. cbn. destruct (c_ok c x) eqn:E; [|done]. intros [= <-].
  pose proof (c_law c x [] E) as Hl. rewrite app_nil_r in Hl. by rewrite Hl.
Qed.

(** ** pkarr *)

(** A packet whose key repeats one byte. *)
Record ToyPacket := {
  tp_key : byte;
  tp_sig : array 64;
  tp_time : array 8;
  tp_dns : list byte;
  tp_small : (length tp_dns <=? 1000) = true
}.

Definition tp_make (key : byte) (sig : array 64) (time : array 8) (dns : list byte) : option ToyPacket :=
  match (length dns <=? 1000) as ok return ((length dns <=? 1000) = ok -> option ToyPacket) with
  | true => fun Hok => Some {| tp_key := key; tp_sig := sig; tp_time := time; tp_dns := dns; tp_small := Hok |}
  | false => fun _ => None
  end eq_refl.

Lemma tp_make_ok key sig time dns p :
  tp_make key sig time dns = Some p <-> tp_key p = key /\ tp_sig p = sig /\ tp_time p = time /\ tp_dns p = dns.
Proof.
  unfold tp_make. generalize (eq_refl (length dns <=? 1000)).
  destruct (length dns <=? 1000) eqn:E at 2 3; intros Hok.
  - split; [by intros [= <-]|]. intros (<- & <- & <- & Hd). f_equal. destruct p as [k s t d Hs]. cbn in *. subst dns.
    f_equal. apply Eqdep_dec.UIP_dec. apply Bool.bool_dec.
  - split; [done|]. intros (_ & _ & _ & <-). pose proof (tp_small p). congruence.
Qed.

Definition tp_bytes (p : ToyPacket) : list byte := replicate 32 (tp_key p) ++ arr_bytes (tp_sig p) ++ arr_bytes (tp_time p) ++ tp_dns p.

Definition tp_parse (b : list byte) : option ToyPacket :=
  match b with
  | [] => None
  | key :: _ =>
      if bool_decide (take 32 b = replicate 32 key) then
        sig ← try_into 64 (take 64 (drop 32 b)); time ← try_into 8 (take 8 (drop 96 b)); tp_make key sig time (drop 104 b)
      else None
  end.

Lemma cut_packet (b : list byte) : take 32 b ++ take 64 (drop 32 b) ++ take 8 (drop 96 b) ++ drop 104 b = b.
Proof.
  transitivity (take 32 b ++ drop 32 b); [|apply take_drop]. f_equal.
  transitivity (take 64 (drop 32 b) ++ drop 64 (drop 32 b)); [|apply take_drop]. f_equal. rewrite drop_drop.
  transitivity (take 8 (drop 96 b) ++ drop 8 (drop 96 b)); [|apply take_drop]. f_equal. by rewrite drop_drop.
Qed.

Lemma tp_parse_ok b p : tp_parse b = Some p <-> tp_bytes p = b.
Proof.
  split.
  - destruct b as [|key b]; [done|]. cbn [tp_parse]. case_bool_decide as Hk; [|done].
    intros (sig & Hs%try_into_Some & Hb)%bind_Some. apply bind_Some in Hb as (time & Ht%try_into_Some & (E1 & E2 & E3 & E4)%tp_make_ok).
    unfold tp_bytes. rewrite E1, E2, E3, E4, Hs, Ht, <-Hk. apply cut_packet.
  - intros <-. unfold tp_bytes. set (rest := arr_bytes (tp_sig p) ++ arr_bytes (tp_time p) ++ tp_dns p).
    change (replicate 32 (tp_key p) ++ rest) with (tp_key p :: replicate 31 (tp_key p) ++ rest). cbn [tp_parse].
    change (tp_key p :: replicate 31 (tp_key p) ++ rest) with (replicate 32 (tp_key p) ++ rest).
    rewrite take_app_length' by (by rewrite length_replicate). rewrite bool_decide_true by done. subst rest.
    rewrite (drop_app_length' (replicate 32 (tp_key p)) _ 32) by (by rewrite length_replicate).
    rewrite (take_app_length' (arr_bytes (tp_sig p)) _ 64) by (by rewrite arr_length). rewrite try_into_bytes. cbn [mbind option_bind].
    assert (drop 96 (replicate 32 (tp_key p) ++ arr_bytes (tp_sig p) ++ arr_bytes (tp_time p) ++ tp_dns p)
      = arr_bytes (tp_time p) ++ tp_dns p) as ->.
    { rewrite app_assoc. apply drop_app_length'. by rewrite length_app, length_replicate, arr_length. }
    assert (drop 104 (replicate 32 (tp_key p) ++ arr_bytes (tp_sig p) ++ arr_bytes (tp_time p) ++ tp_dns p) = tp_dns p) as ->.
    { rewrite !app_assoc. apply drop_app_length'. by rewrite !length_app, length_replicate, !arr_length. }
    rewrite take_app_length' by (by rewrite arr_length). rewrite try_into_bytes. cbn [mbind option_bind].
    by apply tp_make_ok.
Qed.

Definition toy_pkarr : Pkarr := {|
  SignedPacket := ToyPacket;
  MAX_BYTES := 1104;
  packet_from_bytes := tp_parse;
  as_bytes := tp_bytes;
  public_key p := fill 32 (tp_key p);
  encoded_packet := tp_dns;
  timestamp p := from_be_bytes (arr_bytes (tp_time p));
  to_relay_payload p := arr_bytes (tp_sig p) ++ arr_bytes (tp_time p) ++ tp_dns p;
  from_relay_payload k b := tp_parse (arr_bytes k ++ b);
  to_z32 k := hexfmt.encode (take 1 (arr_bytes k));
  from_z32 s := match hexfmt.decode_pairs 0 s with Ok [b] => Some (fill 32 b) | _ => None end
|}.
#[local] Existing Instance toy_pkarr.

Lemma toy_pkarr_laws : PkarrLaws.
Proof.
  assert (forall k : array 32, exists b, take 1 (arr_bytes k) = [b]) as Hfirst.
  { intros k. pose proof (arr_length k) as Hl. destruct (arr_bytes k) as [|b l]; [done|]. by exists b. }
  split.
  - intros b p Hp. by apply tp_parse_ok.
  - intros p. by apply tp_parse_ok.
  - intros p. cbn -[replicate]. unfold tp_bytes. rewrite !length_app, length_replicate, !arr_length.
    pose proof (tp_small p) as Hs. apply Nat.leb_le in Hs. lia.
  - done.
  - intros p. exists (tp_sig p). cbn -[replicate to_be_bytes]. unfold tp_bytes. do 3 f_equal.
    rewrite <-(to_from_be_bytes (arr_bytes (tp_time p))) at 1. by rewrite arr_length.
  - intros p. apply from_be_u64_ok, arr_length.
  - done.
  - done.
  - intros p. change (match hexfmt.decode_pairs 0 (hexfmt.encode [tp_key p]) with Ok [b] => Some (fill 32 b) | _ => None end
      = Some (fill 32 (tp_key p))). by rewrite hexfmt.decode_pairs_encode.
  - intros k c. cbn -[hexfmt.encode take]. destruct (Hfirst k) as [b ->]. clear.
    assert (forallb (fun c => is_ascii_lowercase c || is_ascii_digit c) (hexfmt.encode [b]) = true) as Hb by (by_all_bytes b).
    intros Hc. rewrite forallb_forall in Hb. by apply Hb, list_elem_of_In.
  - intros k. cbn -[hexfmt.encode take]. destruct (Hfirst k) as [b ->]. done.
  - intros k. cbn -[hexfmt.encode take]. destruct (Hfirst k) as [b ->]. rewrite hexfmt.length_encode. cbn. lia.
Qed.

(** ** DNS and URLs *)

Definition toy_rr : Type := ResourceRecord (list byte) (list byte).
Program Definition c_rr : Codec toy_rr :=
  c_iso (fun x : list byte * (bool * (Z * option (list byte))) =>
           {| rr_name := x.1; rr_class_in := x.2.1; rr_ttl := x.2.2.1; rr_txt := x.2.2.2 |})
        (fun r => (rr_name r, (rr_class_in r, (rr_ttl r, rr_txt r)))) _
        (c_pair c_bytes (c_pair c_bool (c_pair c_u64 (c_option c_bytes)))).
Next Obligation. by intros []. Qed.

Definition dns_header : list byte := [x00; x00; x80; x00; x00; x00; x00; x00; x00; x00; x00; x00].
Definition toy_dns : Dns := {|
  Name := list byte; Txt := list byte; Packet := list toy_rr;
  Name_new s := Some s; Name_to_string n := n; Txt_of_string s := Some s; Txt_to_string t := Some t;
  reply l := l;
  Packet_parse b := match c_get (c_list c_rr) (drop 12 b) with
                    | Some (l, []) => if bool_decide (take 12 b = dns_header) then Some l else None
                    | _ => None
                    end;
  build_bytes_vec_compressed l := if c_ok (c_list c_rr) l then Some (dns_header ++ c_put (c_list c_rr) l) else None;
  answers l := l;
  questions_empty _ := true; name_servers_empty _ := true; additional_empty _ := true
|}.
#[local] Existing Instance toy_dns.

Lemma toy_dns_laws : DnsLaws.
Proof.
  split; try done.
  - intros s n Hn. change (Some s = Some n) in Hn. by injection Hn.
  - intros l b Hb. change ((if c_ok (c_list c_rr) l then Some (dns_header ++ c_put (c_list c_rr) l) else None) = Some b) in Hb.
    change (match c_get (c_list c_rr) (drop 12 b) with
            | Some (l, []) => if bool_decide (take 12 b = dns_header) then Some l else None | _ => None end = Some l).
    destruct (c_ok (c_list c_rr) l) eqn:E; [|done]. apply (inj Some) in Hb. rewrite <-Hb.
    rewrite (drop_app_length' dns_header _ 12), (take_app_length' dns_header _ 12) by done.
    pose proof (c_law (c_list c_rr) l [] E) as Hl. rewrite app_nil_r in Hl. rewrite Hl. by rewrite bool_decide_true.
  - intros l b Hb. change ((if c_ok (c_list c_rr) l then Some (dns_header ++ c_put (c_list c_rr) l) else None) = Some b) in Hb.
    destruct (c_ok (c_list c_rr) l); [|done]. apply (inj Some) in Hb. rewrite <-Hb. split; [|done].
    rewrite length_app. change (length dns_header) with 12. lia.
Qed.

(** No relay URLs. *)
Definition toy_urls : Urls := fun _ => None.
#[local] Existing Instance toy_urls.
Lemma toy_url_laws : UrlLaws.
Proof. done. Qed.

Definition toy_blake3 : Blake3Hex := fun m => hexfmt.encode [toy_checksum m].
#[local] Existing Instance toy_blake3.

(** ** JSON *)

Program Definition c_byte : Codec byte := {|
  c_ok _ := true; c_put b := [b]; c_get s := match s with b :: s => Some (b, s) | [] => None end
|}.
Next Obligation. done. Qed.

(** A codec for a record from one for the tuple of its fields. *)
Program Definition c_ipv4 : Codec Ipv4Addr :=
  c_iso (fun x => {| oct0 := x.1; oct1 := x.2.1; oct2 := x.2.2.1; oct3 := x.2.2.2 |})
        (fun a => (oct0 a, (oct1 a, (oct2 a, oct3 a)))) _ (c_pair c_byte (c_pair c_byte (c_pair c_byte c_byte))).
Next Obligation. by intros []. Qed.

Definition sock_v4 (x : Ipv4Addr * Z) : SocketAddr := SockV4 x.1 x.2.
Definition sock_v6 (x : Z * (Z * (Z * Z))) : SocketAddr := SockV6 {| v6_bits := x.1 |} x.2.1 x.2.2.1 x.2.2.2.
Program Definition c_sock : Codec SocketAddr :=
  c_iso (fun x => match x with inl x => sock_v4 x | inr x => sock_v6 x end)
        (fun a => match a with SockV4 ip p => inl (ip, p) | SockV6 ip p f s => inr (v6_bits ip, (p, (f, s))) end) _
        (c_sum (c_pair c_ipv4 (c_num 2)) (c_pair (c_num 16) (c_pair (c_num 2) (c_pair (c_num 4) (c_num 4))))).
Next Obligation. by intros [|[]]. Qed.

Program Definition c_location : Codec StoredDesiredLocation :=
  c_iso (fun x => match x with inl a => StoredDirect a | inr u => StoredRelay u end)
        (fun l => match l with StoredDirect a => inl a | StoredRelay u => inr u end) _ (c_sum c_sock c_bytes).
Next Obligation. by intros []. Qed.

Program Definition c_packet : Codec StoredPacket :=
  c_iso (fun x : Z * (Z * (Z * (bool * list byte))) =>
           {| sp_sequence := x.1; sp_desired_revision := x.2.1; sp_expires_unix_micros := x.2.2.1;
              sp_kind := if x.2.2.2.1 then StoredLive else StoredWithdrawn; sp_packet_hex := x.2.2.2.2 |})
        (fun p => (sp_sequence p, (sp_desired_revision p, (sp_expires_unix_micros p,
                   (match sp_kind p with StoredLive => true | StoredWithdrawn => false end, sp_packet_hex p))))) _
        (c_pair c_u64 (c_pair c_u64 (c_pair c_u64 (c_pair c_bool c_bytes)))).
Next Obligation. by intros [? ? ? [] ?]. Qed.

Program Definition c_pub_state : Codec PublicationStateBody :=
  c_iso (fun x : Z * (list byte * (list byte * (list byte * (Z * (list StoredDesiredLocation * (Z * (option StoredPacket * option StoredPacket))))))) =>
           {| ps_schema_version := x.1; ps_node_id_hex := x.2.1; ps_namespace := x.2.2.1; ps_signed_recipient := x.2.2.2.1;
              ps_desired_revision := x.2.2.2.2.1; ps_desired_locations := x.2.2.2.2.2.1; ps_high_water_sequence := x.2.2.2.2.2.2.1;
              ps_committed := x.2.2.2.2.2.2.2.1; ps_pending := x.2.2.2.2.2.2.2.2 |})
        (fun b => (ps_schema_version b, (ps_node_id_hex b, (ps_namespace b, (ps_signed_recipient b, (ps_desired_revision b,
                   (ps_desired_locations b, (ps_high_water_sequence b, (ps_committed b, ps_pending b))))))))) _
        (c_pair (c_num 4) (c_pair c_bytes (c_pair c_bytes (c_pair c_bytes (c_pair c_u64 (c_pair (c_list c_location)
          (c_pair c_u64 (c_pair (c_option c_packet) (c_option c_packet))))))))).
Next Obligation. by intros []. Qed.

Program Definition c_pub_anchor : Codec PublicationAnchorBody :=
  c_iso (fun x : Z * (list byte * (list byte * (list byte * (Z * (list byte * (Z * (option Z * (option (list byte) * bool)))))))) =>
           {| pa_schema_version := x.1; pa_node_id_hex := x.2.1; pa_namespace := x.2.2.1; pa_signed_recipient := x.2.2.2.1;
              pa_desired_revision := x.2.2.2.2.1; pa_desired_locations_blake3_hex := x.2.2.2.2.2.1;
              pa_high_water_sequence := x.2.2.2.2.2.2.1; pa_latest_packet_sequence := x.2.2.2.2.2.2.2.1;
              pa_latest_packet_blake3_hex := x.2.2.2.2.2.2.2.2.1; pa_latest_packet_committed := x.2.2.2.2.2.2.2.2.2 |})
        (fun a => (pa_schema_version a, (pa_node_id_hex a, (pa_namespace a, (pa_signed_recipient a, (pa_desired_revision a,
                   (pa_desired_locations_blake3_hex a, (pa_high_water_sequence a, (pa_latest_packet_sequence a,
                   (pa_latest_packet_blake3_hex a, pa_latest_packet_committed a)))))))))) _
        (c_pair (c_num 4) (c_pair c_bytes (c_pair c_bytes (c_pair c_bytes (c_pair c_u64 (c_pair c_bytes (c_pair c_u64
          (c_pair (c_option c_u64) (c_pair (c_option c_bytes) c_bool))))))))).
Next Obligation. by intros []. Qed.

Program Definition c_entry : Codec AuthorityEntry :=
  c_iso (fun x : Z * (Z * (bool * (bool * list byte))) =>
           {| ae_high_water_sequence := x.1; ae_expires_unix_micros := x.2.1;
              ae_state := if x.2.2.1 then EntryLive else EntryWithdrawn; ae_expired := x.2.2.2.1; ae_packet_hex := x.2.2.2.2 |})
        (fun e => (ae_high_water_sequence e, (ae_expires_unix_micros e,
                   (match ae_state e with EntryLive => true | EntryWithdrawn => false end, (ae_expired e, ae_packet_hex e))))) _
        (c_pair c_u64 (c_pair c_u64 (c_pair c_bool (c_pair c_bool c_bytes)))).
Next Obligation. by intros [? ? [] ? ?]. Qed.
Program Definition c_anchor_entry : Codec AuthorityAnchorEntry :=
  c_iso (fun x : Z * (bool * list byte) => {| aa_high_water_sequence := x.1; aa_expired := x.2.1; aa_packet_blake3_hex := x.2.2 |})
        (fun e => (aa_high_water_sequence e, (aa_expired e, aa_packet_blake3_hex e))) _ (c_pair c_u64 (c_pair c_bool c_bytes)).
Next Obligation. by intros []. Qed.

Program Definition c_auth_state : Codec AuthorityStateBody :=
  c_iso (fun x : Z * (list byte * (list byte * (list byte * (Z * gmap (list byte) AuthorityEntry)))) =>
           {| as_schema_version := x.1; as_namespace := x.2.1; as_signed_recipient := x.2.2.1;
              as_signer_admission_blake3_hex := x.2.2.2.1; as_wall_clock_high_water_unix_micros := x.2.2.2.2.1;
              as_records := x.2.2.2.2.2 |})
        (fun b => (as_schema_version b, (as_namespace b, (as_signed_recipient b, (as_signer_admission_blake3_hex b,
                   (as_wall_clock_high_water_unix_micros b, as_records b)))))) _
        (c_pair (c_num 4) (c_pair c_bytes (c_pair c_bytes (c_pair c_bytes (c_pair c_u64 (c_map c_entry)))))).
Next Obligation. by intros []. Qed.
Program Definition c_auth_anchor : Codec AuthorityAnchorBody :=
  c_iso (fun x : Z * (list byte * (list byte * (list byte * (Z * gmap (list byte) AuthorityAnchorEntry)))) =>
           {| an_schema_version := x.1; an_namespace := x.2.1; an_signed_recipient := x.2.2.1;
              an_signer_admission_blake3_hex := x.2.2.2.1; an_wall_clock_high_water_unix_micros := x.2.2.2.2.1;
              an_records := x.2.2.2.2.2 |})
        (fun b => (an_schema_version b, (an_namespace b, (an_signed_recipient b, (an_signer_admission_blake3_hex b,
                   (an_wall_clock_high_water_unix_micros b, an_records b)))))) _
        (c_pair (c_num 4) (c_pair c_bytes (c_pair c_bytes (c_pair c_bytes (c_pair c_u64 (c_map c_anchor_entry)))))).
Next Obligation. by intros []. Qed.

Program Definition c_envelope {T} (c : Codec T) : Codec (Envelope T) :=
  c_iso (fun x => {| env_body := x.1; env_checksum_blake3_hex := x.2 |}) (fun e => (env_body e, env_checksum_blake3_hex e)) _
        (c_pair c c_bytes).
Next Obligation. by intros T c []. Qed.

Definition json_locations : Json (list StoredDesiredLocation) := codec_json (c_list c_location).
Definition json_pub_state : Json PublicationStateBody := codec_json c_pub_state.
Definition json_pub_state_env : Json (Envelope PublicationStateBody) := codec_json (c_envelope c_pub_state).
Definition json_pub_anchor : Json PublicationAnchorBody := codec_json c_pub_anchor.
Definition json_pub_anchor_env : Json (Envelope PublicationAnchorBody) := codec_json (c_envelope c_pub_anchor).
Definition json_auth_state : Json AuthorityStateBody := codec_json c_auth_state.
Definition json_auth_state_env : Json (Envelope AuthorityStateBody) := codec_json (c_envelope c_auth_state).
Definition json_auth_anchor : Json AuthorityAnchorBody := codec_json c_auth_anchor.
Definition json_auth_anchor_env : Json (Envelope AuthorityAnchorBody) := codec_json (c_envelope c_auth_anchor).
#[local] Existing Instance json_locations.
#[local] Existing Instance json_pub_state.
#[local] Existing Instance json_pub_state_env.
#[local] Existing Instance json_pub_anchor.
#[local] Existing Instance json_pub_anchor_env.
#[local] Existing Instance json_auth_state.
#[local] Existing Instance json_auth_state_env.
#[local] Existing Instance json_auth_anchor.
#[local] Existing Instance json_auth_anchor_env.
#[local] Existing Instance toy_ed25519.

(** ** Sizes *)

Lemma length_concat_le {A B} (f : A -> list B) n l : (forall x, x ∈ l -> length (f x) <= n) -> length (concat (f <$> l)) <= length l * n.
Proof.
  induction l as [|x l IH]; intros H; [done|]. cbn. rewrite length_app.
  pose proof (H x ltac:(left)). pose proof (IH ltac:(intros y Hy; apply H; by right)). lia.
Qed.

(** Encoding succeeds when the codec accepts the body and the text is short. *)
Lemma codec_envelope_fits {T} (c : Codec T) domain max (b : T) :
  c_ok c b = true -> (Z.of_nat (length (c_put c b)) + 4 <= max)%Z ->
  exists s, @encode_envelope toy_blake3 T (codec_json c) (codec_json (c_envelope c)) domain max b = Ok s.
Proof.
  intros Hb Hmax. unfold encode_envelope, to_vec, codec_json. rewrite Hb. cbn [ok_or mbind result_bind].
  set (h := blake3_hex _). assert (length h = 2) as Hh by (subst h; unfold blake3_hex, toy_blake3; by rewrite hexfmt.length_encode).
  clearbody h. change (c_ok (c_envelope c) {| env_body := b; env_checksum_blake3_hex := h |}) with (c_ok c b && (Z.of_nat (length h) <? 256 ^ 2)%Z).
  rewrite Hb, Hh. change (true && (Z.of_nat 2 <? 256 ^ 2)%Z) with true. cbn [ok_or mbind result_bind].
  change (c_put (c_envelope c) {| env_body := b; env_checksum_blake3_hex := h |}) with (c_put c b ++ to_be_bytes 2 (Z.of_nat (length h)) ++ h).
  eexists. rewrite (proj2 (Z.ltb_ge _ _)); [reflexivity|]. rewrite !length_app, length_to_be_bytes. lia.
Qed.
Lemma codec_envelope_ok {T} (c : Codec T) domain max (b : T) s :
  @encode_envelope toy_blake3 T (codec_json c) (codec_json (c_envelope c)) domain max b = Ok s -> c_ok c b = true.
Proof.
  unfold encode_envelope. intros (bb & Hb%ok_or_ok & _)%result_bind_ok. unfold to_vec, codec_json in Hb. by destruct (c_ok c b).
Qed.

Lemma anchored_entry (b : AuthorityStateBody) a signer x :
  Authority.from_state b = Ok a -> an_records a !! signer = Some x ->
  exists e, as_records b !! signer = Some e /\ aa_high_water_sequence x = ae_high_water_sequence e /\
    length (aa_packet_blake3_hex x) = 2.
Proof.
  intros (_ & _ & _ & _ & _ & Hr)%from_state_ok Hx. specialize (Hr signer). rewrite Hx in Hr.
  destruct (as_records b !! signer) as [e|]; [|done]. exists e. split; [done|]. cbn in Hr.
  unfold anchor_entry in Hr. apply result_bind_ok in Hr as (p & _ & [= <-]). by split; [|apply hexfmt.length_encode].
Qed.

Lemma anchored_size (b : AuthorityStateBody) a : Authority.from_state b = Ok a -> length (map_to_list (an_records a)) = length (map_to_list (as_records b)).
Proof.
  intros (_ & _ & _ & _ & _ & Hr)%from_state_ok. rewrite !length_map_to_list, <-!size_dom. f_equal.
  apply set_eq. intros k. rewrite !elem_of_dom. specialize (Hr k).
  destruct (as_records b !! k), (an_records a !! k); try done; split; by eauto.
Qed.

Lemma anchor_entry_codec_ok e x :
  c_ok c_entry e = true -> aa_high_water_sequence x = ae_high_water_sequence e -> length (aa_packet_blake3_hex x) = 2 ->
  c_ok c_anchor_entry x = true /\ length (c_put c_anchor_entry x) <= 13.
Proof.
  unfold c_entry, c_anchor_entry, c_iso. cbn [c_ok c_put c_pair fst snd c_bytes c_bool]. intros He Eq Hd. bools.
  rewrite Eq, Hd. split; [|by rewrite !length_app, Hd]. rewrite andb_true_iff. split; [done|reflexivity].
Qed.

Lemma anchored_entries_ok b a :
  Authority.from_state b = Ok a -> c_ok (c_map c_entry) (as_records b) = true ->
  forall y, y ∈ map_to_list (an_records a) ->
    length y.1 <= 64 /\ c_ok c_anchor_entry y.2 = true /\ length (c_put c_anchor_entry y.2) <= 13.
Proof.
  intros Ha Hb [k x] Hx%elem_of_map_to_list. destruct (anchored_entry b a k x Ha Hx) as (e & He & Eq & Hd).
  cbn [c_ok c_map c_list c_pair c_bytes fst snd] in Hb. bools. apply elem_of_map_to_list, list_elem_of_In in He.
  match goal with H : forallb (fun x => length x.1 <=? 64) _ = true |- _ => rewrite forallb_forall in H; specialize (H _ He) end.
  match goal with H : forallb (fun x => _ && _) _ = true |- _ => rewrite forallb_forall in H; specialize (H _ He) end.
  cbn [fst snd] in *. bools. split; [done|]. by apply (anchor_entry_codec_ok e).
Qed.

Lemma map_codec_ok {T} (c : Codec T) (n : nat) (m : gmap (list byte) T) :
  length (map_to_list m) <= 16 ->
  (forall y, y ∈ map_to_list m -> length y.1 <= 64 /\ c_ok c y.2 = true /\ length (c_put c y.2) <= n) ->
  c_ok (c_map c) m = true /\ length (c_put (c_map c) m) <= 2 + 16 * (66 + n).
Proof.
  intros Hsize Hall. cbn [c_ok c_put c_map c_list c_pair c_bytes]. split.
  - rewrite !andb_true_iff. repeat split.
    + by apply Nat.leb_le.
    + apply forallb_forall. intros y Hy%list_elem_of_In. apply Nat.leb_le, Hall, Hy.
    + apply Z.ltb_lt. lia.
    + apply forallb_forall. intros y Hy%list_elem_of_In. destruct (Hall y Hy) as (? & -> & _). rewrite andb_true_r. apply Z.ltb_lt. lia.
  - rewrite length_app, length_to_be_bytes.
    match goal with |- context [concat (?f <$> ?l)] => pose proof (length_concat_le f (66 + n) l) as Hc end.
    ospecialize (Hc _); [|nia].
    intros y Hy. destruct (Hall y Hy) as (? & _ & ?). rewrite !length_app, length_to_be_bytes. lia.
Qed.

Lemma anchor_codec_ok b a :
  Authority.from_state b = Ok a -> c_ok c_auth_state b = true ->
  c_ok c_auth_anchor a = true /\ (Z.of_nat (length (c_put c_auth_anchor a)) <= 200000)%Z.
Proof.
  intros Ha Hb. pose proof (anchored_size b a Ha) as Hsize. pose proof (anchored_entries_ok b a Ha) as Hent.
  pose proof Ha as (E1 & E2 & E3 & E4 & E5 & _)%from_state_ok. unfold c_auth_state, c_iso in Hb.
  cbn [c_ok c_pair fst snd c_bytes] in Hb. bools.
  match goal with H : c_ok (c_map _) _ = true |- _ => specialize (Hent H); cbn [c_ok c_map] in H end. bools.
  destruct (map_codec_ok c_anchor_entry 13 (an_records a) ltac:(lia) Hent) as [Hok Hlen].
  unfold c_auth_anchor, c_iso. cbn [c_ok c_put c_pair fst snd c_bytes]. rewrite E1, E2, E3, E4, E5, Hok. split.
  - rewrite !andb_true_iff. repeat split; try done; by apply Z.ltb_lt.
  - rewrite !length_app, !length_to_be_bytes. change (length (c_put (c_num 4) (as_schema_version b))) with 4.
    change (length (c_put c_u64 (as_wall_clock_high_water_unix_micros b))) with 8. lia.
Qed.

Lemma packet_sequence_ok p : c_ok c_packet p = true -> c_ok c_u64 (sp_sequence p) = true.
Proof. unfold c_packet, c_iso. cbn [c_ok c_pair fst snd]. by intros [H _]%andb_true_iff. Qed.

Lemma pub_anchor_codec_ok b a :
  Publisher.from_state b = Ok a -> c_ok c_pub_state b = true ->
  length (ps_node_id_hex b) <= 64 -> length (ps_namespace b) <= 64 -> length (ps_signed_recipient b) <= 64 ->
  c_ok c_pub_anchor a = true /\ (Z.of_nat (length (c_put c_pub_anchor a)) <= 1000)%Z.
Proof.
  intros Ha Hb Hn Hns Hrc. unfold c_pub_state, c_iso in Hb. cbn [c_ok c_pair fst snd c_bytes] in Hb. bools.
  unfold Publisher.from_state in Ha. apply result_bind_ok in Ha as (desired & _ & Ha).
  apply result_bind_ok in Ha as ([[sequence hash] committed] & Hl & [= <-]).
  set (h := blake3_hex _). assert (length h = 2) as Hh by (subst h; apply hexfmt.length_encode). clearbody h.
  assert (c_ok (c_option c_u64) sequence = true /\ length (c_put (c_option c_u64) sequence) <= 9 /\
          c_ok (c_option c_bytes) hash = true /\ length (c_put (c_option c_bytes) hash) <= 5) as (Hs & Hsl & Hx & Hxl).
  { unfold latest in Hl. destruct (ps_pending b) as [p|] eqn:Ep; [|destruct (ps_committed b) as [p|] eqn:Ec]; cbn [fmap option_fmap option_map] in Hl.
    3: { injection Hl as <- <- <-. cbn. split_and!; try done; lia. }
    all: apply result_bind_ok in Hl as (bytes & _ & [= <- <- <-]).
    all: set (g := blake3_hex bytes); assert (length g = 2) as Hg by (subst g; apply hexfmt.length_encode); clearbody g.
    all: cbn [c_option c_iso c_ok c_put c_sum c_unit c_bytes] in *; rewrite Hg; cbn [length app] in *.
    all: split_and!; [|cbn -[to_be_bytes]; rewrite length_to_be_bytes; lia|done|rewrite length_app, length_to_be_bytes, Hg; lia].
    all: by apply packet_sequence_ok. }
  unfold c_pub_anchor, c_iso. cbn [c_ok c_put c_pair fst snd c_bytes pa_schema_version pa_node_id_hex pa_namespace pa_signed_recipient
    pa_desired_revision pa_desired_locations_blake3_hex pa_high_water_sequence pa_latest_packet_sequence pa_latest_packet_blake3_hex
    pa_latest_packet_committed].
  rewrite Hs, Hx, Hh. split.
  - rewrite !andb_true_iff. repeat split; try done; apply Z.ltb_lt; lia.
  - rewrite !length_app, !length_to_be_bytes, Hh. change (length (c_put (c_num 4) (ps_schema_version b))) with 4.
    change (length (c_put c_u64 (ps_desired_revision b))) with 8. change (length (c_put c_u64 (ps_high_water_sequence b))) with 8.
    change (length (c_put c_bool committed)) with 1. lia.
Qed.

Lemma pub_anchor_exists b : (exists s, to_vec (T := list StoredDesiredLocation) (ps_desired_locations b) = Some s) ->
  (forall p, latest b = Some p -> is_ok (decode_hex MAX_BYTES (sp_packet_hex p.1)) = true) ->
  exists a, Publisher.from_state b = Ok a.
Proof.
  intros [s Hs] Hp. unfold Publisher.from_state. rewrite Hs. cbn [ok_or mbind result_bind].
  destruct (latest b) as [[p c]|]; [|by eexists]. specialize (Hp _ eq_refl). cbn [fst] in Hp.
  destruct (decode_hex MAX_BYTES (sp_packet_hex p)); [by eexists|done].
Qed.
