(* ===== verification/NodeRuns.v ===== *)
(** * Runs of a small node and its authority

    Witnesses for the theorems of NodeRecord.v, Authority.v, PinnedHttp.v,
    PublisherProps.v and Publication.v: with the crates of ToyNode.v the
    operations are run on concrete directories, requests and faults, and each
    theorem is applied to such a run.  It models no code of the program. *)

From Stdlib Require Import Strings.Byte ZArith Lia.
From stdpp Require Import base gmap numbers strings sorting list.
From S2P Require Import Prelude Hex Text Ids RecordCodec ToyCrypto Lan SockAddr NodeRecord StateDir Authority PinnedHttp Publisher PublisherProps Publication ToyNode.

#[local] Existing Instance toy_ed25519.
#[local] Existing Instance toy_pkarr.
#[local] Existing Instance toy_pkarr_laws.
#[local] Existing Instance toy_dns.
#[local] Existing Instance toy_dns_laws.
#[local] Existing Instance toy_urls.
#[local] Existing Instance toy_url_laws.
#[local] Existing Instance toy_blake3.
#[local] Existing Instance json_locations.
#[local] Existing Instance json_pub_state.
#[local] Existing Instance json_pub_state_env.
#[local] Existing Instance json_pub_anchor.
#[local] Existing Instance json_pub_anchor_env.
#[local] Existing Instance json_auth_state.
#[local] Existing Instance json_auth_state_env.
#[local] Existing Instance json_auth_anchor.
#[local] Existing Instance json_auth_anchor_env.
#[local] Existing Instance codec_json_laws.

(** ** Results of a run *)

Definition ok_of {E T} (r : result E T) (d : T) : T := match r with Ok x => x | Err _ => d end.
Lemma ok_of_ok {E T} (r : result E T) d : is_ok r = true -> r = Ok (ok_of r d).
Proof. by destruct r. Qed.

Definition is_ret {A} (o : outcome A) : bool := match o with Ret _ => true | _ => false end.
Definition ret_of {A} (o : outcome A) (d : A) : A := match o with Ret a => a | _ => d end.
Lemma ret_of_ret {A} (c : World * outcome A) d : is_ret c.2 = true -> c = (c.1, Ret (ret_of c.2 d)).
Proof. by destruct c as [w [a|e|]]. Qed.

(** ** A node record *)

Definition euid : Z := 1000.
Definition key : SigningKey := fill 32 x0b.
Definition ns : list byte := str "ab".
Definition rc : list byte := str "r1".
Definition at_port (port : Z) : NodeLocation := Direct (SockV4 (v4_of_octets 10 0 0 1) port).
Lemma plain_at_port port : (0 <=? port)%Z && (port <=? 65535)%Z = true -> plain_location (at_port port).
Proof. intros H. bools. by repeat split. Qed.

Definition no_packet : SignedPacket :=
  {| tp_key := x00; tp_sig := fill 64 x00; tp_time := fill 8 x00; tp_dns := []; tp_small := eq_refl |}.
Definition no_record : NodeRecord :=
  {| nr_node_id := NodeId_from_bytes (verifying_key key); nr_namespace := []; nr_recipient := []; nr_ttl_seconds := 0; nr_sequence := 0;
     nr_expires_unix_micros := 0; nr_state := Live; nr_locations := [] |}.

(** The packet of a live record with a minute to live. *)
Definition packet_at (sequence : Z) (locations : list NodeLocation) : result NodeRecordError SignedPacket :=
  encode_node_record key ns rc 60 sequence (sequence + 60000000) Live locations.
Definition signed_at (sequence : Z) (locations : list NodeLocation) : SignedPacket := ok_of (packet_at sequence locations) no_packet.

Lemma encode_decode_node_record_witness :
  packet_at 1000 [at_port 4434; at_port 4433; at_port 4434] = Ok (signed_at 1000 [at_port 4434; at_port 4433; at_port 4434]) /\
  decode_node_record (as_bytes (signed_at 1000 [at_port 4434; at_port 4433; at_port 4434])) =
  Ok {| nr_node_id := NodeId_from_bytes (verifying_key key); nr_namespace := ns; nr_recipient := rc;
        nr_ttl_seconds := 60; nr_sequence := 1000; nr_expires_unix_micros := 60001000; nr_state := Live;
        nr_locations := sort_dedup [at_port 4434; at_port 4433; at_port 4434] |}.
Proof.
  assert (packet_at 1000 [at_port 4434; at_port 4433; at_port 4434]
    = Ok (signed_at 1000 [at_port 4434; at_port 4433; at_port 4434])) as Hp by (apply ok_of_ok; vm_compute; reflexivity).
  split; [exact Hp|]. refine (encode_decode_node_record key ns rc 60 1000 _ Live _ _ _ _ _ Hp).
  - vm_compute. split; discriminate.
  - vm_compute. split; discriminate.
  - repeat (constructor; [by apply plain_at_port|]). constructor.
Defined.

Definition record_at (sequence : Z) (locations : list NodeLocation) : NodeRecord :=
  ok_of (decode_node_record (as_bytes (signed_at sequence locations))) no_record.

Lemma decode_node_record_canonical_witness :
  exists signed packet,
    packet_from_bytes (as_bytes (signed_at 1000 [at_port 4433])) = Some signed /\
    Packet_parse (encoded_packet signed) = Some packet /\
    build_bytes_vec_compressed packet = Some (encoded_packet signed) /\
    record_wf (record_at 1000 [at_port 4433]) /\
    nr_node_id (record_at 1000 [at_port 4433]) = NodeId_from_bytes (public_key signed) /\
    nr_sequence (record_at 1000 [at_port 4433]) = timestamp signed /\
    answer_view <$> answers packet = record_answers (record_at 1000 [at_port 4433]).
Proof. apply decode_node_record_canonical. apply ok_of_ok. vm_compute. reflexivity. Defined.

(** ** An authority *)

Definition acfg : PublicationAuthorityConfig :=
  {| ac_listen := SockV4 (v4_of_octets 127 0 0 1) 8080; ac_namespace := ns; ac_signed_recipient := rc;
     ac_expected_host := str "h:1"; ac_owner := str "o"; ac_signer_admission := Explicit {[ to_z32 (verifying_key key) ]} |}.
Definition empty : Dir := {| d_state := None; d_state_temp := None; d_anchor := None; d_anchor_temp := None |}.
Lemma empty_disk : disk_is euid empty None None.
Proof. done. Qed.

Lemma toy_authority_json : AuthorityJson acfg.
Proof.
  split.
  - apply codec_envelope_fits; vm_compute; [reflexivity|discriminate].
  - intros b a s Ha Hs. apply codec_envelope_ok in Hs. destruct (anchor_codec_ok b a Ha Hs) as [Hok Hlen].
    apply codec_envelope_fits; [exact Hok|]. unfold MAX_AUTHORITY_STATE_BYTES. lia.
Qed.

(** One event of its life, as a function. *)
Definition up (s : Sys) : bool := match s with Up _ _ => true | Down _ => false end.
Definition no_inner : Inner := {| in_state := fresh_state acfg; in_monotonic_expiry := ∅ |}.
Definition inner_of (s : Sys) : Inner := match s with Up inner _ => inner | Down _ => no_inner end.
Definition world_of (s : Sys) : World := match s with Up _ w => w | Down d => restarted d [] 0 end.
Definition dir_of (s : Sys) : Dir := w_live (world_of s).
Lemma up_parts s : up s = true -> s = Up (inner_of s) (world_of s).
Proof. by destruct s. Qed.

Definition boot (d : Dir) (now : Z) : Sys :=
  match start euid acfg now now 0 (restarted d [] 0) with (w, Ret inner) => Up inner w | _ => Down d end.
Lemma boot_step d now : up (boot d now) = true -> step_any euid acfg (Down d) (boot d now).
Proof.
  unfold boot. destruct (start _ _ _ _ _ _) as [w [inner|e|]] eqn:E; [|done|done]. intros _. exists None.
  exact (astep_start euid acfg _ _ _ _ _ _ _ _ E).
Qed.

Definition halt (s : Sys) : Sys := Down (dir_of s).
Lemma halt_step s : up s = true -> step_any euid acfg s (halt s).
Proof. destruct s as [inner w|]; [|done]. intros _. exists None. apply astep_crash. intros e. by left. Qed.

Definition ask (request : AuthorityRequest) (now : Z) (s : Sys) : World * outcome (Inner * result StoreError AuthorityResponse) :=
  apply_request_at euid acfg request now 0 (inner_of s) (with_faults (world_of s) []).
Definition answer (request : AuthorityRequest) (now : Z) (s : Sys) : option AuthorityResponse :=
  match ask request now s with (_, Ret (_, Ok a)) => Some a | _ => None end.
Definition after (request : AuthorityRequest) (now : Z) (s : Sys) : Sys :=
  match ask request now s with (w, Ret (inner, _)) => Up inner w | _ => s end.
Definition status (request : AuthorityRequest) (now : Z) (s : Sys) : Z :=
  match answer request now s with Some a => if up s then rs_status a else 0 | None => 0 end.
Definition answered (request : AuthorityRequest) (now : Z) (s : Sys) : AuthorityResponse := default not_found (answer request now s).
Lemma after_step request now s :
  (0 <? status request now s)%Z = true -> astep euid acfg s (Some (request, answered request now s)) (after request now s).
Proof.
  unfold status, answered, answer, after. destruct (ask request now s) as [w [[inner [a|e]]|e|]] eqn:E; try done.
  destruct s as [i w0|]; [|done]. intros _. exact (astep_answer euid acfg _ _ _ _ _ _ _ _ _ E).
Qed.
Lemma status_answered request now s : (0 <? status request now s)%Z = true -> rs_status (answered request now s) = status request now s.
Proof. unfold status, answered. destruct (answer request now s) as [a|]; [|done]. by destruct (up s). Qed.
Lemma after_any request now s : (0 <? status request now s)%Z = true -> step_any euid acfg s (after request now s).
Proof. intros H. eexists. by apply after_step. Qed.

Definition put_at (sequence port : Z) : AuthorityRequest :=
  {| rq_method := PUT; rq_signer := to_z32 (verifying_key key); rq_body := to_relay_payload (signed_at sequence [at_port port]) |}.
Definition get_own : AuthorityRequest := {| rq_method := GET; rq_signer := to_z32 (verifying_key key); rq_body := [] |}.

(** A record is stored, served, served again after a crash, hidden when it
    expires, and replaced. *)
Definition a0 : Sys := boot empty 1000000.
Definition a1 : Sys := after (put_at 1000000 4433) 1000000 a0.
Definition a2 : Sys := boot (dir_of a1) 2000000.
Definition a3 : Sys := after get_own 3000000 a2.
Definition a4 : Sys := after get_own 61000000 a3.
Definition a5 : Sys := after (put_at 62000000 4434) 62000000 a4.
Definition a6 : Sys := after get_own 62000000 a5.
Lemma a_run :
  (up a0, status (put_at 1000000 4433) 1000000 a0, up a2, status get_own 3000000 a2, status get_own 61000000 a3,
   status (put_at 62000000 4434) 62000000 a4, status get_own 62000000 a5) = (true, 201, true, 200, 404, 201, 200)%Z.
Proof. vm_compute. reflexivity. Qed.

Lemma a0_up : up a0 = true.
Proof. exact (f_equal (fun x => x.1.1.1.1.1.1) a_run). Qed.
Lemma a1_status : status (put_at 1000000 4433) 1000000 a0 = 201%Z.
Proof. exact (f_equal (fun x => x.1.1.1.1.1.2) a_run). Qed.
Lemma a2_up : up a2 = true.
Proof. exact (f_equal (fun x => x.1.1.1.1.2) a_run). Qed.
Lemma a3_status : status get_own 3000000 a2 = 200%Z.
Proof. exact (f_equal (fun x => x.1.1.1.2) a_run). Qed.
Lemma a4_status : status get_own 61000000 a3 = 404%Z.
Proof. exact (f_equal (fun x => x.1.1.2) a_run). Qed.
Lemma a5_status : status (put_at 62000000 4434) 62000000 a4 = 201%Z.
Proof. exact (f_equal (fun x => x.1.2) a_run). Qed.
Lemma a6_status : status get_own 62000000 a5 = 200%Z.
Proof. exact (f_equal (fun x => x.2) a_run). Qed.

Lemma status_up request now s : (0 <? status request now s)%Z = true -> up (after request now s) = true.
Proof.
  unfold status, answer, after. by destruct (ask request now s) as [w [[inner [a|e]]|e|]].
Qed.

#[local] Strategy expand [a0 a1 a2 a3 a4 a5 a6].

Lemma a0_starts : rtc (step_any euid acfg) (Down empty) a0.
Proof. apply rtc_once. apply (boot_step empty 1000000), a0_up. Qed.
Lemma a1_up : up a1 = true.
Proof. apply (status_up (put_at 1000000 4433) 1000000 a0). by rewrite a1_status. Qed.
Lemma a1_acknowledges : astep euid acfg a0 (Some (put_at 1000000 4433, answered (put_at 1000000 4433) 1000000 a0)) a1.
Proof. apply (after_step (put_at 1000000 4433) 1000000 a0). by rewrite a1_status. Qed.
Lemma a2_restarts : rtc (step_any euid acfg) a1 a2.
Proof.
  eapply rtc_l; [apply halt_step, a1_up|]. apply rtc_once. apply (boot_step (dir_of a1) 2000000), a2_up.
Qed.
Lemma a3_serves : astep euid acfg a2 (Some (get_own, answered get_own 3000000 a2)) a3.
Proof. apply (after_step get_own 3000000 a2). by rewrite a3_status. Qed.
Lemma a4_hides : astep euid acfg a3 (Some (get_own, answered get_own 61000000 a3)) a4.
Proof. apply (after_step get_own 61000000 a3). by rewrite a4_status. Qed.
Lemma a5_replaces : rtc (step_any euid acfg) a4 a5.
Proof. apply rtc_once. apply (after_any (put_at 62000000 4434) 62000000 a4). by rewrite a5_status. Qed.
Lemma a6_serves : astep euid acfg a5 (Some (get_own, answered get_own 62000000 a5)) a6.
Proof. apply (after_step get_own 62000000 a5). by rewrite a6_status. Qed.
Lemma a3_up : up a3 = true.
Proof. apply (status_up get_own 3000000 a2). by rewrite a3_status. Qed.

Lemma authority_never_regresses_witness : body_le (in_state (inner_of a1)) (in_state (inner_of a3)).
Proof.
  apply (authority_never_regresses euid acfg empty a1 (inner_of a1) (world_of a1) a3 (inner_of a3) (world_of a3)).
  - exact empty_disk.
  - eapply rtc_r; [exact a0_starts|]. eexists. exact a1_acknowledges.
  - apply up_parts, a1_up.
  - eapply rtc_r; [exact a2_restarts|]. eexists. exact a3_serves.
  - apply up_parts, a3_up.
Defined.

Lemma acknowledged_never_undone_witness :
  exists p r p' r',
    put_record acfg (rq_signer (put_at 1000000 4433)) (rq_body (put_at 1000000 4433)) = Some (p, r) /\
    put_record acfg (rq_signer (put_at 1000000 4433)) (rs_body (answered get_own 3000000 a2)) = Some (p', r') /\
    (nr_sequence r <= nr_sequence r')%Z /\ (nr_sequence r = nr_sequence r' -> p' = p).
Proof.
  apply (acknowledged_never_undone euid acfg empty a0 (put_at 1000000 4433) (answered (put_at 1000000 4433) 1000000 a0)
    a1 a2 get_own (answered get_own 3000000 a2) a3).
  - exact empty_disk.
  - exact a0_starts.
  - exact a1_acknowledges.
  - exact a2_restarts.
  - exact a3_serves.
  - reflexivity.
  - rewrite status_answered by (by rewrite a1_status). rewrite a1_status. by do 2 constructor.
  - reflexivity.
  - rewrite status_answered by (by rewrite a3_status). exact a3_status.
  - reflexivity.
Defined.

Lemma hidden_stays_hidden_witness :
  exists p r p' r',
    put_record acfg (rq_signer (put_at 1000000 4433)) (rq_body (put_at 1000000 4433)) = Some (p, r) /\
    put_record acfg (rq_signer (put_at 1000000 4433)) (rs_body (answered get_own 62000000 a5)) = Some (p', r') /\
    (nr_sequence r < nr_sequence r')%Z.
Proof.
  apply (hidden_stays_hidden euid acfg empty a0 (put_at 1000000 4433) (answered (put_at 1000000 4433) 1000000 a0)
    a1 a3 get_own (answered get_own 61000000 a3) a4 a5 get_own (answered get_own 62000000 a5) a6).
  - exact empty_disk.
  - exact a0_starts.
  - exact a1_acknowledges.
  - eapply rtc_r; [exact a2_restarts|]. eexists. exact a3_serves.
  - exact a4_hides.
  - exact a5_replaces.
  - exact a6_serves.
  - reflexivity.
  - rewrite status_answered by (by rewrite a1_status). rewrite a1_status. by do 2 constructor.
  - reflexivity.
  - rewrite status_answered by (by rewrite a4_status). exact a4_status.
  - reflexivity.
  - reflexivity.
  - rewrite status_answered by (by rewrite a6_status). exact a6_status.
  - reflexivity.
Defined.

Lemma restart_recovers_witness :
  exists b w', body_le (in_state (inner_of a1)) b /\
    start euid acfg 2000000 2000001 7 (restarted (dir_of a1) [] 3) =
      (w', if clock_regressed b 2000000 then Throw ClockRegressed
           else Ret {| in_state := b; in_monotonic_expiry := monotonic_expiry_deadlines b 2000001 7 |}).
Proof.
  pose proof toy_authority_json as Hjson.
  apply (restart_recovers euid acfg empty (inner_of a1) (world_of a1) (dir_of a1) 2000000 2000001 7 3).
  - exact empty_disk.
  - rewrite <-(up_parts a1 a1_up). eapply rtc_r; [exact a0_starts|]. eexists. exact a1_acknowledges.
  - rewrite <-(up_parts a1 a1_up). apply rtc_once. exact (halt_step a1 a1_up).
Defined.

(** The bytes on disk, checked. *)
#[local] Instance File_eq_dec : EqDecision File.
Proof. solve_decision. Defined.
Definition bytes_of (f : option File) : list byte := match f with Some f => f_bytes f | None => [] end.
Definition stored_as (f : option File) (bytes : list byte) : bool :=
  match f with
  | None => false
  | Some f =>
      bool_decide (f_bytes f = bytes /\ st_regular (f_stat f) = true /\ st_uid (f_stat f) = euid /\
                   st_mode (f_stat f) = STATE_FILE_MODE /\ st_nlink (f_stat f) = 1%Z /\ st_size (f_stat f) = Z.of_nat (length bytes))
  end.
Lemma stored_as_is f bytes : stored_as f bytes = true -> file_is euid f (Some bytes).
Proof. destruct f as [f|]; [|done]. cbn. by intros H%bool_decide_eq_true. Qed.
Definition rests_as (w : World) (s a : list byte) : bool :=
  bool_decide (d_state (w_live w) = d_state (w_synced w)) && bool_decide (d_anchor (w_live w) = d_anchor (w_synced w))
  && stored_as (d_state (w_live w)) s && stored_as (d_anchor (w_live w)) a.
Lemma rests_as_holds w s a : rests_as w s a = true -> holds euid w (Some s) (Some a).
Proof. unfold rests_as. intros H. bools. repeat split; try done; by apply stored_as_is. Qed.

(** The state and the anchor text of a body. *)
Definition state_text (b : AuthorityStateBody) : list byte := ok_of (encode_authority_state b) [].
Definition anchor_text (b : AuthorityStateBody) : list byte := ok_of (anchor_bytes encode_authority_anchor Authority.from_state b) [].
Definition has_texts (b : AuthorityStateBody) : bool :=
  is_ok (encode_authority_state b) && is_ok (anchor_bytes encode_authority_anchor Authority.from_state b).
Lemma has_texts_fits b : has_texts b = true -> fits b.
Proof. unfold has_texts. intros H. bools. exists (state_text b), (anchor_text b). split; by apply ok_of_ok. Qed.

Definition no_faults (w : World) : bool := match w_faults w with [] => true | _ => false end.
Lemma no_faults_nil w : no_faults w = true -> w_faults w = [].
Proof. unfold no_faults. by destruct (w_faults w). Qed.
Lemma is_ok_unit {E} (r : result E unit) : is_ok r = true -> r = Ok tt.
Proof. by destruct r as [[]|]. Qed.

Definition restart1 : World * outcome Inner := start euid acfg 2000000 2000000 0 (restarted (dir_of a1) [Fine] 9).
Lemma a1_checked :
  is_ok (validate_authority_state (in_state (inner_of a1)) acfg) && has_texts (in_state (inner_of a1))
  && rests_as (world_of a1) (state_text (in_state (inner_of a1))) (anchor_text (in_state (inner_of a1)))
  && no_faults (world_of a1) && negb (w_poisoned (world_of a1)) && is_ret restart1.2
  && forallb has_texts (writes acfg (in_state (inner_of a1)) (put_at 1500000 4434) 1500000)
  && negb (clock_regressed (in_state (inner_of a1)) 1500000) = true.
Proof. vm_compute. reflexivity. Qed.

Lemma a1_rests :
  holds euid (world_of a1) (Some (state_text (in_state (inner_of a1)))) (Some (anchor_text (in_state (inner_of a1)))) /\
  encode_authority_state (in_state (inner_of a1)) = Ok (state_text (in_state (inner_of a1))) /\
  anchor_bytes encode_authority_anchor Authority.from_state (in_state (inner_of a1)) = Ok (anchor_text (in_state (inner_of a1))).
Proof.
  pose proof a1_checked as H. do 5 apply andb_prop in H as [H _]. apply andb_prop in H as [H Hr].
  apply andb_prop in H as [_ [Hs Ha]%andb_prop].
  split; [exact (rests_as_holds _ _ _ Hr)|]. split; [exact (ok_of_ok _ _ Hs)|exact (ok_of_ok _ _ Ha)].
Qed.

(** A restart from what [a1] left, read against its own anchor. *)
Lemma rollback_refused_witness :
  in_state (ret_of restart1.2 no_inner) = in_state (inner_of a1) /\
  exists bytes, Some (anchor_text (in_state (inner_of a1))) = Some bytes /\
  forall ba, anchor_bytes encode_authority_anchor Authority.from_state ba = Ok bytes ->
    (as_wall_clock_high_water_unix_micros ba <= as_wall_clock_high_water_unix_micros (in_state (inner_of a1)))%Z /\
    forall signer e, as_records ba !! signer = Some e ->
      exists e', as_records (in_state (inner_of a1)) !! signer = Some e' /\ entry_follows e e'.
Proof.
  destruct a1_rests as ((_ & _ & Hd) & Hs & _). pose proof a1_checked as H.
  do 2 apply andb_prop in H as [H _]. apply andb_prop in H as [_ Hret].
  destruct (rollback_refused euid acfg (dir_of a1) (state_text (in_state (inner_of a1))) (Some (anchor_text (in_state (inner_of a1))))
    (in_state (inner_of a1)) [Fine] 9 2000000 2000000 0 restart1.1 (ret_of restart1.2 no_inner)) as (Hb & _ & _ & Ha).
  - exact Hd.
  - exact Hs.
  - exact (ret_of_ret _ _ Hret).
  - split; [exact Hb|exact Ha].
Defined.

Lemma authority_refines_register_witness :
  reacted (inner_of a1) (to_z32 (verifying_key key)) 5 (react acfg (inner_of a1) (put_at 1500000 4434) 1500000 5)
    (apply_request_at euid acfg (put_at 1500000 4434) 1500000 5 (inner_of a1) (world_of a1)).
Proof.
  destruct a1_rests as (Hh & Hs & Ha). pose proof a1_checked as H.
  apply andb_prop in H as [H Hc%negb_true_iff]. apply andb_prop in H as [H Hw]. apply andb_prop in H as [H _].
  apply andb_prop in H as [H Hp%negb_true_iff]. apply andb_prop in H as [H Hf]. do 2 apply andb_prop in H as [H _].
  apply (authority_refines_register euid acfg (put_at 1500000 4434) 1500000 5 (inner_of a1) (world_of a1)).
  - vm_compute. reflexivity.
  - exact (is_ok_unit _ H).
  - eexists _, _. split; [exact Hh|]. split; [exact Hs|]. split; [exact Ha|reflexivity].
  - exact (no_faults_nil _ Hf).
  - exact Hp.
  - exact Hc.
  - apply Forall_forall. intros b Hb%list_elem_of_In. rewrite forallb_forall in Hw. exact (has_texts_fits _ (Hw b Hb)).
  - vm_compute. split; discriminate.
  - vm_compute. reflexivity.
Defined.

(** ** The wire *)

Definition in_halves (bytes : list byte) : Conn :=
  match bytes with [] => [] | [b] => [Some [b]] | b :: rest => [Some [b]; Some rest] end.
Lemma in_halves_arrive bytes : arrives (in_halves bytes) bytes.
Proof.
  destruct bytes as [|b [|c rest]].
  - by exists [].
  - exists [[b]]. split_and!; [done|by repeat constructor|done].
  - exists [[b]; c :: rest]. split_and!; [done|by repeat constructor|]. cbn. by rewrite app_nil_r.
Qed.

(** A handler that counts its requests and serves one packet. *)
Definition serving (n : nat) (request : AuthorityRequest) : nat * option AuthorityResponse :=
  (S n, Some (response 200 (str "OK") (rq_body request ++ to_relay_payload (signed_at 1000 [at_port 4433])))).

Lemma exchange_exact_witness :
  exists conn, exchange in_halves (str "localhost") serving 0 (request_text (str "localhost") GET (to_z32 (verifying_key key)) [] ++ []) = (1, conn) /\
    request (fun bytes => Ok (snd (exchange in_halves (str "localhost") serving 0 bytes))) (str "localhost") GET (to_z32 (verifying_key key)) []
    = Ok {| ph_status := 200; ph_body := to_relay_payload (signed_at 1000 [at_port 4433]) |}.
Proof.
  apply (exchange_exact in_halves serving 0 (str "localhost") GET (verifying_key key) [] 1
    (response 200 (str "OK") (to_relay_payload (signed_at 1000 [at_port 4433])))).
  - exact in_halves_arrive.
  - vm_compute. reflexivity.
  - vm_compute. reflexivity.
  - vm_compute. discriminate.
  - reflexivity.
  - reflexivity.
  - split.
    + left. vm_compute. split; [discriminate|reflexivity].
    + split; [repeat constructor; discriminate|vm_compute; lia].
    + vm_compute. discriminate.
Defined.

(** ** A node *)

Definition pcfg : NodePublicationConfig :=
  {| pc_namespace := ns; pc_signed_recipient := rc; pc_authority_recipient := SockV4 (v4_of_octets 127 0 0 1) 8080;
     pc_authority_host := str "localhost"; pc_authorization := LocalProductionShaped (str "o"); pc_ttl := from_secs 60;
     pc_refresh_interval := from_secs 30; pc_request_deadline := from_secs 1; pc_initial_locations := [at_port 4433];
     pc_relay_locations_allowed := false |}.
Lemma pcfg_canonical : canonical (pc_initial_locations pcfg).
Proof. vm_compute. reflexivity. Qed.
Lemma pcfg_plain : Forall plain_location (pc_initial_locations pcfg).
Proof. constructor; [by apply plain_at_port|constructor]. Qed.
Lemma pcfg_relays : relays_allowed pcfg (pc_initial_locations pcfg).
Proof. reflexivity. Qed.

Lemma toy_publisher_json : PublisherJson key pcfg.
Proof.
  split.
  - apply codec_envelope_fits; vm_compute; [reflexivity|discriminate].
  - intros b ls s Hv Hs. pose proof (va_loaded _ _ _ _ Hv) as Hl. apply codec_envelope_ok in Hs.
    destruct (pub_anchor_exists b) as [a Ha].
    + pose proof Hs as Hs'. unfold c_pub_state, c_iso in Hs'. cbn [c_ok c_pair fst snd] in Hs'. bools.
      eexists. unfold to_vec, json_locations, codec_json.
      match goal with H : c_ok (c_list c_location) _ = true |- _ => by rewrite H end.
    + intros [p c] Hp. cbn [fst]. assert (stored_in b p) as Hin.
      { unfold latest in Hp. destruct (ps_pending b) eqn:E1; [injection Hp as <- _; by right|].
        destruct (ps_committed b) eqn:E2; [|done]. injection Hp as <- _. by left. }
      destruct (lo_packets _ _ _ _ Hl p Hin) as (bytes & r & Hh). by rewrite (ph_hex _ _ _ _ _ _ _ Hh).
    + destruct (pub_anchor_codec_ok b a Ha Hs) as [Hok Hlen].
      * rewrite (lo_node _ _ _ _ Hl). vm_compute. lia.
      * rewrite (lo_namespace _ _ _ _ Hl). vm_compute. lia.
      * rewrite (lo_recipient _ _ _ _ Hl). vm_compute. lia.
      * unfold anchor_bytes. rewrite Ha. apply codec_envelope_fits; [exact Hok|]. unfold MAX_STATE_BYTES. lia.
Qed.

Lemma refresh_schedule_witness :
  refresh_delay (record_at 1000000 [at_port 4433]) (from_secs 30) (publication_retry_reserve (from_secs 1)) 1000000 = Ok (from_secs 30) /\
  (1000000 * 1000 + from_secs 30 + publication_retry_reserve (from_secs 1) + PUBLICATION_COMPLETION_MARGIN
   <= nr_expires_unix_micros (record_at 1000000 [at_port 4433]) * 1000 + 999)%Z.
Proof.
  assert (refresh_delay (record_at 1000000 [at_port 4433]) (from_secs 30) (publication_retry_reserve (from_secs 1)) 1000000
    = Ok (from_secs 30)) as Hd by (vm_compute; reflexivity).
  split; [exact Hd|].
  apply (refresh_schedule ns rc (SockV4 (v4_of_octets 127 0 0 1) 8080) (str "localhost") (LocalProductionShaped (str "o"))
    (from_secs 60) (from_secs 30) (from_secs 1) [at_port 4433] pcfg (record_at 1000000 [at_port 4433]) 1000000 (from_secs 30)).
  - vm_compute. reflexivity.
  - vm_compute. discriminate.
  - vm_compute. discriminate.
  - vm_compute. discriminate.
  - exact Hd.
  - vm_compute. reflexivity.
Defined.

(** *** Its authority: one register and a clock *)

Record ToyNet := { tn_slot : Register.t; tn_clock : Z }.
Definition respond (status : Z) (body : list byte) : result PinnedHttpErrorKind PinnedHttpResponse :=
  Ok {| ph_status := status; ph_body := body |}.
Definition in_range (t : Z) : bool := ((0 <? t) && (t <=? u64_max))%Z.
#[local] Instance toy_link : Link ToyNet := {
  link_put _ bytes n :=
    match decode_node_record bytes with
    | Err _ => (n, respond 422 [])
    | Ok r =>
        let '(s, a) := Register.put (tn_slot n) (tn_clock n) (nr_ttl_seconds r) (nr_sequence r) (nr_expires_unix_micros r) bytes in
        ({| tn_slot := s; tn_clock := tn_clock n |}, respond (Register.status a) [])
    end;
  link_get _ n :=
    let '(s, a) := Register.get (tn_slot n) (tn_clock n) false in
    ({| tn_slot := s; tn_clock := tn_clock n |},
     respond (Register.status a) (match a with Register.Serves packet => packet | _ => [] end));
  link_now n := (n, if in_range (tn_clock n) then Some (tn_clock n) else None)
}.

#[local] Instance toy_register : RegisterLink ToyNet key (fun _ => True).
Proof.
  refine {| rl_up := fun n => in_range (tn_clock n) = true; rl_slot := tn_slot; rl_clock := tn_clock; rl_late := fun _ => false |}.
  - intros n Hn. cbn. rewrite Hn. split; [done|]. unfold in_range in Hn. bools. lia.
  - intros n p r Hn Hr _ _. destruct (Register.put _ _ _ _ _ _) as [s a] eqn:E. cbn [link_put toy_link]. rewrite Hr, E.
    eexists _, _. by split_and!.
  - intros n Hn. destruct (Register.get _ _ _) as [s a] eqn:E. cbn [link_get toy_link]. rewrite E. eexists _, _. split_and!; try done. by intros packet ->.
Defined.
Lemma toy_clock_ok (n n' : ToyNet) t : link_now n = (n', Some t) -> (0 < t <= u64_max)%Z.
Proof. cbn. destruct (in_range (tn_clock n)) eqn:E; [|done]. intros [= _ <-]. unfold in_range in E. bools. lia. Qed.

(** *** Its life *)

Definition elapse (t : Z) (r : Run ToyNet) : Run ToyNet :=
  with_net r {| tn_slot := tn_slot (r_net r); tn_clock := t |} (r_wire r) (r_sent r).
Definition turn (op : Op) (wire : list Wire) (r : Run ToyNet) : Run ToyNet * ending (option PublicationReceipt) :=
  run_op euid key pcfg op (prepared r [] wire).

Definition opened : World * outcome (Run ToyNet) :=
  open_publisher euid key pcfg (restarted empty [] 0) {| tn_slot := Register.Never; tn_clock := 1000000 |} [] [].
Definition no_run : Run ToyNet :=
  {| r_world := restarted empty [] 0; r_state := fresh key pcfg; r_intent := (0%Z, []); r_closing := false; r_fatal := None;
     r_net := {| tn_slot := Register.Never; tn_clock := 0 |}; r_wire := []; r_sent := [] |}.
Definition started : Run ToyNet * ending PublicationReceipt := startup euid key pcfg [at_port 4433] (ret_of opened.2 no_run).

(** It starts, publishes a second location of which the answer is lost, and
    goes back to the first. *)
Definition p0 : Run ToyNet := started.1.
Definition p1 : Run ToyNet * ending (option PublicationReceipt) := turn (OpUpdate [at_port 4434]) [Through; Broken; Broken] (elapse 2000000 p0).
Definition p2 : Run ToyNet * ending (option PublicationReceipt) := turn (OpUpdate [at_port 4433]) [] (elapse 3000000 p1.1).
Definition p3 : Run ToyNet * ending (option PublicationReceipt) := turn (OpUpdate [at_port 4435]) [] (elapse 4000000 p2.1).
Definition p4 : Run ToyNet * ending (option PublicationReceipt) := turn OpShutdown [] (elapse 5000000 p3.1).
Definition tag {A} (e : ending A) : Z :=
  match e with Done _ => 0 | Failed KAuthority => 1 | Failed KTransport => 2 | Failed _ => 3 | Dropped _ => 4 | Gone => 5 end.
Definition is_done {A} (e : ending A) : bool := match e with Done _ => true | _ => false end.
Definition got_receipt (e : ending (option PublicationReceipt)) : bool := match e with Done (Some _) => true | _ => false end.
Definition no_receipt : PublicationReceipt := {| rc_record := no_record; rc_reused_committed_packet := false |}.
Definition receipt_of (e : ending (option PublicationReceipt)) : PublicationReceipt :=
  match e with Done (Some receipt) => receipt | _ => no_receipt end.
Lemma got_receipt_of c : got_receipt c.2 = true -> c = (c.1, Done (Some (receipt_of c.2))) :> Run ToyNet * ending _.
Proof. by destruct c as [r [[receipt|]|e|cl|]]. Qed.
Lemma is_done_of {A} (c : Run ToyNet * ending A) : is_done c.2 = true -> exists a, c = (c.1, Done a).
Proof. destruct c as [r [a|e|cl|]]; try done. by exists a. Qed.

#[local] Strategy expand [p0 p1 p2 p3 p4 opened started].

(** The answer to the second location is lost; going back is refused; a third
    location and the withdrawal land. *)
Lemma p_run :
  is_ret opened.2 && is_done started.2 && (tag p1.2 =? 2)%Z && (tag p2.2 =? 1)%Z && got_receipt p3.2 && got_receipt p4.2 = true.
Proof. vm_compute. reflexivity. Qed.

#[local] Abbreviation pstep := (pstep euid key pcfg).
Lemma started_step :
  pstep (Off empty {| tn_slot := Register.Never; tn_clock := 1000000 |} []) (On p0).
Proof.
  pose proof p_run as H. do 4 apply andb_prop in H as [H _]. apply andb_prop in H as [Ho Hs].
  destruct (is_done_of _ Hs) as [receipt Hr].
  eapply (P_start euid key pcfg empty _ [] [] 0 [] [at_port 4433] [at_port 4433] opened.1 (ret_of opened.2 no_run)).
  - constructor; [by apply plain_at_port|constructor].
  - vm_compute. reflexivity.
  - exact (ret_of_ret opened no_run Ho).
  - exact Hr.
Qed.

Lemma elapse_step t r : pstep (On r) (On (elapse t r)).
Proof. apply P_elsewhere. Qed.
Lemma turn_step op wire r k : op_plain op -> (k =? 5)%Z = false -> tag (turn op wire r).2 = k -> pstep (On r) (On (turn op wire r).1).
Proof.
  intros Hp Hk Ht. eapply (P_op euid key pcfg r op [] wire _ (turn op wire r).2); [exact Hp|apply surjective_pairing|].
  intros E. rewrite E in Ht. by subst k.
Qed.
Lemma turn_receipt op wire r :
  got_receipt (turn op wire r).2 = true ->
  run_op euid key pcfg op (prepared r [] wire) = ((turn op wire r).1, Done (Some (receipt_of (turn op wire r).2))).
Proof. exact (got_receipt_of (turn op wire r)). Qed.
Lemma update_plain port : (0 <=? port)%Z && (port <=? 65535)%Z = true -> op_plain (OpUpdate [at_port port]).
Proof. intros H. constructor; [by apply plain_at_port|constructor]. Qed.
Lemma receipt_tag e : got_receipt e = true -> tag e = 0%Z.
Proof. by destruct e as [[]|[]| |]. Qed.

Lemma reaches_p1 : rtc pstep (Off empty {| tn_slot := Register.Never; tn_clock := 1000000 |} []) (On p1.1).
Proof.
  pose proof p_run as H. do 3 apply andb_prop in H as [H _]. apply andb_prop in H as [_ H1%Z.eqb_eq].
  eapply rtc_l; [exact started_step|]. eapply rtc_l; [apply (elapse_step 2000000)|]. apply rtc_once.
  exact (turn_step (OpUpdate [at_port 4434]) [Through; Broken; Broken] (elapse 2000000 p0) 2 (update_plain 4434 eq_refl) eq_refl H1).
Qed.
Lemma reaches_p2 : rtc pstep (Off empty {| tn_slot := Register.Never; tn_clock := 1000000 |} []) (On p2.1).
Proof.
  pose proof p_run as H. do 2 apply andb_prop in H as [H _]. apply andb_prop in H as [_ H2%Z.eqb_eq].
  eapply rtc_r; [eapply rtc_r; [exact reaches_p1|apply (elapse_step 3000000)]|].
  exact (turn_step (OpUpdate [at_port 4433]) [] (elapse 3000000 p1.1) 1 (update_plain 4433 eq_refl) eq_refl H2).
Qed.
Lemma reaches_p3 : rtc pstep (Off empty {| tn_slot := Register.Never; tn_clock := 1000000 |} []) (On (elapse 4000000 p2.1)).
Proof. eapply rtc_r; [exact reaches_p2|apply elapse_step]. Qed.
Lemma reaches_p4 : rtc pstep (Off empty {| tn_slot := Register.Never; tn_clock := 1000000 |} []) (On p4.1).
Proof.
  pose proof p_run as H. apply andb_prop in H as [H H4%receipt_tag]. apply andb_prop in H as [_ H3%receipt_tag].
  eapply rtc_r.
  - eapply rtc_r; [eapply rtc_r; [exact reaches_p3|]|apply (elapse_step 5000000)].
    exact (turn_step (OpUpdate [at_port 4435]) [] (elapse 4000000 p2.1) 0 (update_plain 4435 eq_refl) eq_refl H3).
  - exact (turn_step OpShutdown [] (elapse 5000000 p3.1) 0 I eq_refl H4).
Qed.

Lemma no_equivocation_witness :
  (forall q, q ∈ sent_by (On p4.1) -> exists r, decode_node_record q = Ok r /\ own_record key pcfg r) /\
  forall q q' r r', q ∈ sent_by (On p4.1) -> q' ∈ sent_by (On p4.1) -> decode_node_record q = Ok r -> decode_node_record q' = Ok r' ->
    nr_sequence r = nr_sequence r' -> q = q'.
Proof.
  apply (no_equivocation euid key pcfg toy_clock_ok pcfg_canonical pcfg_plain pcfg_relays empty
    {| tn_slot := Register.Never; tn_clock := 1000000 |} (On p4.1)).
  - exact empty_disk.
  - exact reaches_p4.
Defined.

Lemma receipt_published_witness :
  exists intended p bytes n1,
    intends (OpUpdate [at_port 4435]) (elapse 4000000 p2.1) intended /\ wants (rc_record (receipt_of p3.2)) intended /\
    own_record key pcfg (rc_record (receipt_of p3.2)) /\
    decode_node_record bytes = Ok (rc_record (receipt_of p3.2)) /\ confirmed key (N := ToyNet) bytes n1 /\
    ps_committed (r_state p3.1) = Some p /\ decode_hex MAX_BYTES (sp_packet_hex p) = Ok bytes.
Proof.
  pose proof p_run as H. apply andb_prop in H as [H _]. apply andb_prop in H as [_ H3].
  destruct (receipt_published euid key pcfg toy_clock_ok pcfg_canonical pcfg_plain pcfg_relays empty
    {| tn_slot := Register.Never; tn_clock := 1000000 |} (elapse 4000000 p2.1) (OpUpdate [at_port 4435]) [] [] p3.1 (receipt_of p3.2)
    empty_disk reaches_p3 (update_plain 4435 eq_refl) (turn_receipt (OpUpdate [at_port 4435]) [] (elapse 4000000 p2.1) H3))
    as (intended & p & bytes & n1 & H1 & H2 & H4 & H5 & H6 & H7 & H8 & _).
  exists intended, p, bytes, n1. exact (conj H1 (conj H2 (conj H4 (conj H5 (conj H6 (conj H7 H8)))))).
Defined.

(** The process dies while the lost packet is pending. *)
Lemma publisher_reopens_witness :
  exists w r, open_publisher euid key pcfg (restarted (w_live (r_world p1.1)) [] 7) (r_net p1.1) [] (r_sent p1.1) = (w, Ret r) /\
    forall q rq, q ∈ r_sent p1.1 -> decode_node_record q = Ok rq -> (nr_sequence rq <= ps_high_water_sequence (r_state r))%Z.
Proof.
  pose proof toy_publisher_json as Hjson.
  apply (publisher_reopens euid key pcfg toy_clock_ok pcfg_canonical pcfg_plain pcfg_relays empty
    {| tn_slot := Register.Never; tn_clock := 1000000 |}).
  - exact empty_disk.
  - eapply rtc_r; [exact reaches_p1|]. apply P_crash. intros e. left. reflexivity.
Defined.

(** After the refused return the node is calm, and stranded. *)
Definition p2_committed : StoredPacket :=
  default {| sp_sequence := 0; sp_desired_revision := 0; sp_expires_unix_micros := 0; sp_kind := StoredLive; sp_packet_hex := [] |}
    (ps_committed (r_state p2.1)).
Definition no_pending (b : PublicationStateBody) : bool := match ps_pending b with None => true | Some _ => false end.
Lemma no_pending_none b : no_pending b = true -> ps_pending b = None.
Proof. unfold no_pending. by destruct (ps_pending b). Qed.
Definition has_committed (b : PublicationStateBody) : bool := match ps_committed b with None => false | Some _ => true end.
Lemma has_committed_some b d : has_committed b = true -> ps_committed b = Some (default d (ps_committed b)).
Proof. unfold has_committed. by destruct (ps_committed b). Qed.
Definition wants_only (b : PublicationStateBody) (port : Z) : bool :=
  match desired_locations b with Ok ls => bool_decide (ls = [at_port port]) | Err _ => false end.
Lemma wants_only_valid b ls port : wants_only b port = true -> valid key pcfg b ls -> ls = [at_port port].
Proof.
  unfold wants_only. intros Hw Hv. rewrite (lo_desired _ _ _ _ (va_loaded _ _ _ _ Hv)) in Hw. by apply bool_decide_eq_true in Hw.
Qed.
Definition at_ease (r : Run ToyNet) : bool :=
  negb (w_poisoned (r_world r)) && no_faults (r_world r) && match r_wire r with [] => true | _ => false end && in_range (tn_clock (r_net r)).

Lemma p2_checked :
  at_ease p2.1 && wants_only (r_state p2.1) 4433 && no_pending (r_state p2.1) && has_committed (r_state p2.1)
  && reusable pcfg (r_state p2.1) [at_port 4433] (tn_clock (r_net p2.1))
  && (sp_sequence p2_committed <? seen (tn_slot (r_net p2.1)))%Z = true.
Proof. vm_compute. reflexivity. Qed.

Lemma run_reached r : rtc pstep (Off empty {| tn_slot := Register.Never; tn_clock := 1000000 |} []) (On r) -> run_ok euid key pcfg r.
Proof.
  intros H. eapply (steps_ok euid key pcfg) in H;
    [exact H|first [exact toy_clock_ok|exact pcfg_canonical|exact pcfg_plain|exact pcfg_relays|idtac]..].
  apply empty_ok; first [exact pcfg_canonical|exact pcfg_plain|exact pcfg_relays|exact empty_disk].
Qed.
Lemma at_ease_calm r : run_ok euid key pcfg r -> at_ease r = true -> calm euid key pcfg (fun _ => True) r.
Proof.
  unfold at_ease. intros Hr H. apply andb_prop in H as [H Hu]. apply andb_prop in H as [H Hw]. apply andb_prop in H as [Hp Hf].
  split; [split; [exact Hr|by apply negb_true_iff]|by apply no_faults_nil|by destruct (r_wire r)|exact Hu].
Qed.

Lemma at_ease_parts r : at_ease r = true -> w_poisoned (r_world r) = false /\ in_range (tn_clock (r_net r)) = true.
Proof. unfold at_ease. intros [[[Hp _]%andb_prop _]%andb_prop Hu]%andb_prop. by apply negb_true_iff in Hp. Qed.

Lemma overtaken_packet_strands_witness :
  exists r' bytes, transition_locked euid key pcfg [at_port 4433] NoFailpoint true p2.1 = (r', Failed KAuthority) /\
    decode_hex MAX_BYTES (sp_packet_hex p2_committed) = Ok bytes /\ r_sent r' = r_sent p2.1 ++ [bytes] /\
    calm euid key pcfg (fun _ => True) r' /\ r_state r' = r_state p2.1 /\ rl_slot (r_net r') = rl_slot (r_net p2.1) /\
    rl_clock (r_net r') = rl_clock (r_net p2.1).
Proof.
  pose proof p2_checked as H. apply andb_prop in H as [H Hlt%Z.ltb_lt]. apply andb_prop in H as [H Hre].
  apply andb_prop in H as [H Hcom]. apply andb_prop in H as [H Hpend]. apply andb_prop in H as [Hcalm Hwants].
  pose proof (run_reached _ reaches_p2) as Hrun. destruct (ro_valid _ _ _ _ Hrun) as (ls & Hv & _).
  pose proof (wants_only_valid _ _ _ Hwants Hv) as Hls. rewrite Hls in Hv.
  apply (overtaken_packet_strands euid key pcfg (fun _ => True) (fun _ _ => I) p2.1 [at_port 4433] NoFailpoint true p2_committed).
  - exact (at_ease_calm _ Hrun Hcalm).
  - exact Hv.
  - exact (no_pending_none _ Hpend).
  - exact (has_committed_some _ _ Hcom).
  - exact Hre.
  - exact Hlt.
Defined.

(** A third location does land. *)
Definition pub_texts (b : PublicationStateBody) : bool :=
  is_ok (encode_state b) && is_ok (anchor_bytes encode_anchor Publisher.from_state b).
Lemma pub_texts_fit b : pub_texts b = true -> body_fits b.
Proof.
  unfold pub_texts. intros [Hs Ha]%andb_prop. exists (ok_of (encode_state b) []), (ok_of (anchor_bytes encode_anchor Publisher.from_state b) []).
  split; by apply ok_of_ok.
Qed.
Definition p3_from : Run ToyNet := elapse 4000000 p2.1.
#[local] Strategy expand [p3_from].
Definition p3_intent : Z * list NodeLocation := ok_of (update_desired_intent (r_intent p3_from) [at_port 4435]) (0%Z, []).
Definition p3_encodes : bool :=
  match next_sequence 4000000 (last_sequence (r_state p3_from)) with
  | Ok sequence => (sequence <=? 5000000)%Z && is_ok (encode_node_record key ns rc 60 sequence (sequence + 60000000) Live [at_port 4435])
  | Err _ => false
  end.
Lemma p3_checked :
  at_ease p3_from && negb (r_closing p3_from) && no_pending (r_state p3_from)
  && is_ok (update_desired_intent (r_intent p3_from) [at_port 4435]) && p3_encodes
  && (seen (tn_slot (r_net p3_from)) <=? ps_high_water_sequence (r_state p3_from))%Z
  && (ps_high_water_sequence (r_state p3_from) <? 5000000)%Z
  && negb (reusable pcfg (r_state p3_from) [at_port 4435] 4000000)
  && forallb pub_texts (transition_writes key pcfg (r_state p3_from) p3_intent 4000000) = true.
Proof. vm_compute. reflexivity. Qed.

Lemma p3_encodable : p3_encodes = true -> encodable key pcfg (r_state p3_from) [at_port 4435] 4000000.
Proof.
  unfold p3_encodes. intros H sequence Hs. rewrite Hs in H. apply andb_prop in H as [Hmax%Z.leb_le Hok].
  exists 60000000%Z, (ok_of (encode_node_record key ns rc 60 sequence (sequence + 60000000) Live [at_port 4435]) no_packet).
  split_and!; [reflexivity|unfold u64_max; lia|]. exact (ok_of_ok _ _ Hok).
Qed.

Lemma publication_lands_witness :
  exists r' receipt, run_op euid key pcfg (OpUpdate [at_port 4435]) (prepared p3_from [] []) = (r', Done (Some receipt)) /\
    wants (rc_record receipt) [at_port 4435] /\ landed key (fun _ => True) receipt r'.
Proof.
  pose proof p3_checked as H. apply andb_prop in H as [H Hfit]. apply andb_prop in H as [H Hre%negb_true_iff].
  apply andb_prop in H as [H Hclk%Z.ltb_lt]. apply andb_prop in H as [H Hseen%Z.leb_le]. apply andb_prop in H as [H Henc].
  apply andb_prop in H as [H Hint]. apply andb_prop in H as [H Hpend]. apply andb_prop in H as [H Hclosing%negb_true_iff].
  destruct (at_ease_parts _ H) as [Hp Hup].
  apply (publication_lands euid key pcfg (fun _ => True) (fun _ _ => I) toy_clock_ok pcfg_canonical pcfg_plain pcfg_relays empty
    {| tn_slot := Register.Never; tn_clock := 1000000 |} p3_from (OpUpdate [at_port 4435]) [at_port 4435] p3_intent).
  - exact empty_disk.
  - exact reaches_p3.
  - exact Hp.
  - exact Hup.
  - split; [exact (update_plain 4435 eq_refl)|]. split; [vm_compute; reflexivity|].
    exact (conj Hclosing (no_pending_none _ Hpend)).
  - exact (ok_of_ok _ _ Hint).
  - split; [exact Hseen|exact Hclk|vm_compute; discriminate].
  - exact (p3_encodable Henc).
  - exact Hre.
  - apply Forall_forall. intros b Hb%list_elem_of_In. rewrite forallb_forall in Hfit. exact (pub_texts_fit _ (Hfit b Hb)).
Defined.

(** A process that dies between the first anchor and the first state leaves an
    anchor only; it is refused when the configured locations have changed. *)
Definition pcfg_moved : NodePublicationConfig :=
  {| pc_namespace := ns; pc_signed_recipient := rc; pc_authority_recipient := SockV4 (v4_of_octets 127 0 0 1) 8080;
     pc_authority_host := str "localhost"; pc_authorization := LocalProductionShaped (str "o"); pc_ttl := from_secs 60;
     pc_refresh_interval := from_secs 30; pc_request_deadline := from_secs 1; pc_initial_locations := [at_port 4436];
     pc_relay_locations_allowed := false |}.
Definition died_at (k : nat) : World * outcome PublicationStateBody := Publisher.open euid key pcfg (restarted empty (replicate k Fine ++ [Dies]) 0).
Lemma changed_initial_locations_refused :
  d_state (w_live (died_at 16).1) = None /\
  (Publisher.open euid key pcfg_moved (restarted (w_live (died_at 16).1) [] 0)).2 = Throw AnchorAhead /\
  is_ret (Publisher.open euid key pcfg (restarted (w_live (died_at 16).1) [] 0)).2 = true.
Proof. split; [vm_compute; reflexivity|]. split; vm_compute; reflexivity. Qed.
