(* ===== verification/LookupRuns.v ===== *)
(** * Runs of a reader

    Witnesses for the theorems of NodeLookup.v, with the crates of ToyNode.v and
    the node and authority of NodeRuns.v.  It models no code of the program. *)

From Stdlib Require Import Strings.Byte ZArith Lia.
From stdpp Require Import base gmap numbers strings sorting list relations.
From S2P Require Import Prelude Hex Text Ids RecordCodec ToyCrypto Lan SockAddr NodeRecord StateDir Authority PinnedHttp Publisher PublisherProps Publication ToyNode NodeRuns NodeLookup.

#[local] Existing Instance toy_ed25519.
#[local] Existing Instance toy_pkarr.
#[local] Existing Instance toy_pkarr_laws.
#[local] Existing Instance toy_dns.
#[local] Existing Instance toy_dns_laws.
#[local] Existing Instance toy_urls.
#[local] Existing Instance toy_blake3.
#[local] Existing Instance json_auth_state.
#[local] Existing Instance json_auth_state_env.
#[local] Existing Instance json_auth_anchor.
#[local] Existing Instance json_auth_anchor_env.
#[local] Existing Instance codec_json_laws.

Definition toy_errors : PkarrErrors := fun _ _ => true.
#[local] Existing Instance toy_errors.

(** ** Room for the one admitted signer *)

Lemma entry_codec_ok signer e p r :
  entry_holds acfg signer e p r -> c_ok c_entry e = true /\ length (c_put c_entry e) <= 2228.
Proof.
  intros [Hx _ Hd Hq He _ _ _]. pose proof (decoded_wf _ _ Hd) as [_ _ Ht Hs Hexp Hb _ _ _ _].
  assert (length (ae_packet_hex e) <= 2208) as Hl.
  { rewrite Hx. pose proof (packet_size p) as Hp. rewrite packet_max in Hp. unfold encode_hex. rewrite hexfmt.length_encode. lia. }
  unfold c_entry, c_iso. cbn [c_ok c_put c_pair fst snd c_bytes c_bool c_u64 c_num]. split.
  - rewrite !andb_true_iff, <-Hq, <-He. repeat split; try apply Z.leb_le; try apply Z.ltb_lt; unfold u64_max in *; lia.
  - rewrite !length_app, !length_to_be_bytes. cbn [length]. lia.
Qed.

Lemma u64_codec_ok z : u64_ok z -> c_ok c_u64 z = true.
Proof.
  unfold u64_ok, u64_max. intros Hz. cbn [c_ok c_u64 c_num]. apply andb_true_iff. split; [apply Z.leb_le|apply Z.ltb_lt]; lia.
Qed.

Lemma toy_authority_room : AuthorityRoom acfg.
Proof.
  pose proof toy_authority_json as Hjson. intros b Hv Had Hck.
  assert (exists s, encode_authority_state b = Ok s) as [s Hs].
  2: { destruct (anchor_bytes_fit _ _ _ Hv Hs) as [a Ha]. by exists s, a. }
  pose proof Hv as (E1 & E2 & E3 & E4 & Hall)%validate_state_ok.
  assert (forall k e, as_records b !! k = Some e -> k = to_z32 (verifying_key key)) as Hone.
  { intros k e He. pose proof (Had k e He) as Hk. apply bool_decide_eq_true in Hk. by apply elem_of_singleton in Hk. }
  destruct (map_codec_ok c_entry 2228 (as_records b)) as [Hok Hlen].
  - rewrite length_map_to_list, <-size_dom. transitivity (size (C := gset (list byte)) {[ to_z32 (verifying_key key) ]}).
    + apply subseteq_size. intros k [e He]%elem_of_dom. apply elem_of_singleton. eauto.
    + rewrite size_singleton. lia.
  - intros [k e] He%elem_of_map_to_list. cbn [fst snd]. destruct (Hall _ _ He) as (p & r & Hh).
    split; [|by eapply entry_codec_ok]. rewrite (Hone _ _ He). apply z32_short.
  - assert (length (as_signer_admission_blake3_hex b) = 2) as Hf by (rewrite E4; apply hexfmt.length_encode).
    unfold encode_authority_state. apply codec_envelope_fits; unfold c_auth_state, c_iso; cbn [c_ok c_put c_pair fst snd c_bytes].
    + by rewrite Hok, E1, E2, E3, Hf, (u64_codec_ok _ Hck).
    + rewrite !length_app, !length_to_be_bytes, E2, E3, Hf. change (length (c_put (c_num 4) (as_schema_version b))) with 4.
      change (length (c_put c_u64 (as_wall_clock_high_water_unix_micros b))) with 8.
      change (length (ac_namespace acfg)) with 2. change (length (ac_signed_recipient acfg)) with 2. unfold MAX_AUTHORITY_STATE_BYTES. lia.
Qed.

(** ** A reader *)

Definition lookup_config : NodeLookupConfig :=
  ok_of (lookup_config_new ns rc (SockV4 (v4_of_octets 127 0 0 1) 8080) (str "h:1") (LookupLocal (str "o")))
    {| lc_namespace := []; lc_signed_recipient := []; lc_authority_recipient := SockV4 (v4_of_octets 0 0 0 0) 0; lc_authority_host := [];
       lc_authorization := LookupLocal [] |}.
Definition core : NodeLookupCore :=
  {| co_config := lookup_config; co_endpoint := {| ep_recipient := lc_authority_recipient lookup_config; ep_host := lc_authority_host lookup_config |};
     co_capacity := 2 |}.
Lemma core_made : lookup_config_new ns rc (SockV4 (v4_of_octets 127 0 0 1) 8080) (str "h:1") (LookupLocal (str "o")) = Ok lookup_config /\
  core_new lookup_config 2 = Ok core.
Proof. split; vm_compute; reflexivity. Qed.

Definition in_time : SettleLate := {| sl_before := false; sl_lock := false; sl_after := false |}.
Definition at_time (wall : Z) : Surroundings :=
  {| su_closed := (false, false); su_late_lock := false; su_clock := Some {| cr_wall_unix_micros := wall; cr_monotonic := wall * 1000 |};
     su_late_request := false; su_late_answer := false; su_settle := in_time;
     su_clock_after := Some {| cr_wall_unix_micros := wall + 10; cr_monotonic := wall * 1000 + 10000 |} |}.
Definition own : NodeId := node_id key.

(** An authority that serves one packet. *)
Definition serving (p : SignedPacket) : Peer := fun _ => Ok (in_halves (write_response (response 200 (str "OK") (to_relay_payload p)))).
Definition withdrawn_at (sequence : Z) : SignedPacket :=
  ok_of (encode_node_record key ns rc 60 sequence (sequence + 60000000) Withdrawn []) no_packet.
Definition look (p : SignedPacket) (wall : Z) (st : LookupState) : LookupState * Outcome :=
  resolve core (serving p) own (NodeId_as_bytes own) (at_time wall) st.

(** Found, found again with a newer record; an old packet; a withdrawal; the
    packet before it. *)
Definition l1 := look (signed_at 1000 [at_port 4433]) 2000 empty_lookup.
Definition l2 := look (signed_at 3000 [at_port 4434]) 4000 l1.1.
Definition l3 := look (signed_at 1000 [at_port 4433]) 5000 l2.1.
Definition l4 := look (withdrawn_at 6000) 7000 l3.1.
Definition l5 := look (signed_at 3000 [at_port 4434]) 8000 l4.1.
Definition l6 := look (signed_at 9000 [at_port 4435]) 9000 l5.1.
Definition code (o : Outcome) : list byte := match o with Ok _ => str "found" | Err e => unavailable_as_str (nu_kind e) end.
Lemma looks : (code l1.2, code l2.2, code l3.2, code l4.2, code l5.2, code l6.2) =
  (str "found", str "found", str "stale_sequence", str "withdrawn", str "stale_sequence", str "found").
Proof. vm_compute. reflexivity. Qed.

Definition no_result : NodeLookupResult := from_record no_record [].
Definition found (o : Outcome) : NodeLookupResult := ok_of o no_result.
Definition refusal (o : Outcome) : NodeLookupUnavailable := match o with Err e => e | Ok _ => unavailable UDisabled end.
Definition is_found (o : Outcome) : bool := is_ok o.
Definition is_withdrawal (o : Outcome) : bool := match o with Err e => bool_decide (nu_kind e = UWithdrawn) | Ok _ => false end.
Lemma is_withdrawal_refusal o : is_withdrawal o = true -> o = Err (refusal o) /\ nu_kind (refusal o) = UWithdrawn.
Proof. destruct o as [|e]; [done|]. cbn. by intros H%bool_decide_eq_true. Qed.

Definition idle (st : LookupState) : LookupSystem := {| sy_state := st; sy_closed := false; sy_flights := ∅ |}.
Notation ended o clock := (Some {| en_flight := 0; en_node := own; en_clock := clock; en_outcome := o |}).

Lemma look_flight p wall st :
  exists s clock, rtc (lstep_any core) (idle st) s /\ lstep core s (ended (look p wall st).2 clock) (idle (look p wall st).1).
Proof.
  apply (resolve_flight core (serving p) own (at_time wall) st _ _ false ∅ 0); [done|done|]. unfold look. apply surjective_pairing.
Qed.
Lemma look_steps p wall st : rtc (lstep_any core) (idle st) (idle (look p wall st).1).
Proof. destruct (look_flight p wall st) as (s & clock & Hs & Hl). eapply rtc_r; [exact Hs|]. by eexists. Qed.

Lemma looks_found : is_found l1.2 && is_found l2.2 && is_withdrawal l4.2 && is_found l6.2 = true.
Proof. vm_compute. reflexivity. Qed.

#[local] Strategy expand [l1 l2 l3 l4 l5 l6].

Lemma l1_reached : rtc (lstep_any core) opened (idle l1.1).
Proof. exact (look_steps (signed_at 1000 [at_port 4433]) 2000 empty_lookup). Qed.
Lemma l3_follows : rtc (lstep_any core) (idle l1.1) (idle l3.1).
Proof.
  transitivity (idle l2.1);
    [exact (look_steps (signed_at 3000 [at_port 4434]) 4000 l1.1)|exact (look_steps (signed_at 1000 [at_port 4433]) 5000 l2.1)].
Qed.
Lemma l3_reached : rtc (lstep_any core) opened (idle l3.1).
Proof. exact (transitivity l1_reached l3_follows). Qed.
Lemma l5_reached : rtc (lstep_any core) (idle l4.1) (idle l5.1).
Proof. exact (look_steps (signed_at 3000 [at_port 4434]) 8000 l4.1). Qed.

Lemma replay_table_moves_forward_witness :
  size (ls_high_water l3.1) <= 2 /\
  (forall node w, ls_high_water l3.1 !! node = Some w -> water_ok core node w) /\
  (forall node w, ls_high_water l1.1 !! node = Some w ->
     exists w', ls_high_water l3.1 !! node = Some w' /\ (w = w' \/ (hw_sequence w < hw_sequence w')%Z)) /\
  (forall t, ls_last_wall_unix_micros l1.1 = Some t -> exists t', ls_last_wall_unix_micros l3.1 = Some t' /\ (t <= t')%Z).
Proof.
  apply (replay_table_moves_forward core (idle l1.1) (idle l3.1)); [exact l1_reached|exact l3_follows].
Defined.

Lemma found_is_genuine_witness :
  exists clock reading fetched record packet_hash,
    clock = Some reading /\ genuine core own fetched packet_hash /\ genuine core own record packet_hash /\
    found l2.2 = from_record record packet_hash /\ nr_sequence record = nr_sequence fetched /\
    nr_state record = Live /\ nr_locations record <> [] /\
    (cr_wall_unix_micros reading < nr_expires_unix_micros fetched)%Z /\
    (nr_sequence fetched <= cr_wall_unix_micros reading + NODE_LOOKUP_SCHEDULER_GRACE_MICROS)%Z /\
    ((forall a b, blake3_hex a = blake3_hex b -> a = b) -> record = fetched).
Proof.
  pose proof looks_found as H. do 2 apply andb_prop in H as [H _]. apply andb_prop in H as [_ H].
  destruct (look_flight (signed_at 3000 [at_port 4434]) 4000 l1.1) as (s & clock & Hs & Hl). exists clock.
  apply (found_is_genuine core s (idle l2.1) 0 own clock (found l2.2)).
  - exact (transitivity l1_reached Hs).
  - rewrite <-(ok_of_ok l2.2 no_result H : l2.2 = Ok (found l2.2)). exact Hl.
Defined.

(** A newer record after an older one, and only a newer one after the
    withdrawal. *)
Lemma lookup_never_goes_back_witness :
  (found l1.2 = found l2.2 \/ (lr_sequence (found l1.2) < lr_sequence (found l2.2))%Z) /\
  (nu_kind (refusal l4.2) = UWithdrawn ->
   exists sequence packet_hash, nu_validated_signed_packet (refusal l4.2) = Some (sequence, packet_hash) /\
     (sequence < lr_sequence (found l6.2))%Z).
Proof.
  pose proof looks_found as H. apply andb_prop in H as [H H6]. apply andb_prop in H as [H H4]. apply andb_prop in H as [H1 H2].
  split.
  - destruct (look_flight (signed_at 1000 [at_port 4433]) 2000 empty_lookup) as (s1 & c1 & Hs1 & Hl1).
    destruct (look_flight (signed_at 3000 [at_port 4434]) 4000 l1.1) as (s3 & c3 & Hs3 & Hl3).
    apply (lookup_never_goes_back core s1 (idle l1.1) s3 (idle l2.1) 0 0 own c1 c3 (Ok (found l1.2)) (found l2.2) Hs1).
    + rewrite <-(ok_of_ok l1.2 no_result H1 : l1.2 = Ok (found l1.2)). exact Hl1.
    + exact Hs3.
    + rewrite <-(ok_of_ok l2.2 no_result H2 : l2.2 = Ok (found l2.2)). exact Hl3.
  - destruct (look_flight (withdrawn_at 6000) 7000 l3.1) as (s1 & c1 & Hs1 & Hl1).
    destruct (look_flight (signed_at 9000 [at_port 4435]) 9000 l5.1) as (s3 & c3 & Hs3 & Hl3).
    apply (lookup_never_goes_back core s1 (idle l4.1) s3 (idle l6.1) 0 0 own c1 c3 (Err (refusal l4.2)) (found l6.2)).
    + exact (transitivity l3_reached Hs1).
    + rewrite <-(proj1 (is_withdrawal_refusal l4.2 H4)). exact Hl1.
    + exact (transitivity l5_reached Hs3).
    + rewrite <-(ok_of_ok l6.2 no_result H6 : l6.2 = Ok (found l6.2)). exact Hl3.
Defined.

(** ** The record stored at the authority is found there *)

Definition n1 : Net := {| nt_inner := inner_of a1; nt_world := world_of a1; nt_now := 2000000; nt_instant := 5 |}.
Definition packet1 : list byte := as_bytes (signed_at 1000000 [at_port 4433]).
Definition record1 : NodeRecord := record_at 1000000 [at_port 4433].
Definition receipt1 : PublicationReceipt := {| rc_record := record1; rc_reused_committed_packet := false |}.
Definition no_body : PublicationStateBody :=
  {| ps_schema_version := 1; ps_node_id_hex := []; ps_namespace := []; ps_signed_recipient := []; ps_desired_revision := 0;
     ps_desired_locations := []; ps_high_water_sequence := 0; ps_committed := None; ps_pending := None |}.
Definition r1 : Run Net :=
  {| r_world := restarted empty [] 0; r_state := no_body; r_intent := (0%Z, []); r_closing := false; r_fatal := None; r_net := n1;
     r_wire := []; r_sent := [] |}.

Definition slot_is (s : Register.t) (sequence expiry : Z) (packet : list byte) : bool :=
  match s with Register.Kept q e p => (q =? sequence)%Z && (e =? expiry)%Z && bool_decide (p = packet) | _ => false end.
Lemma slot_is_kept s sequence expiry packet : slot_is s sequence expiry packet = true -> s = Register.Kept sequence expiry packet.
Proof.
  destruct s as [|q e p|]; [done| |done]. cbn. intros [[->%Z.eqb_eq ->%Z.eqb_eq]%andb_prop ->%bool_decide_eq_true]%andb_prop. done.
Qed.
Definition all_admitted (b : AuthorityStateBody) : bool :=
  forallb (fun x => admits (ac_signer_admission acfg) x.1) (map_to_list (as_records b)).
Lemma all_admitted_only b : all_admitted b = true -> admitted_only acfg b.
Proof.
  intros H s e He. unfold all_admitted in H. rewrite forallb_forall in H.
  exact (H (s, e) (proj1 (list_elem_of_In _ _) (proj2 (elem_of_map_to_list _ _ _) He))).
Qed.

Lemma n1_checked :
  slot_is (net_slot (signer key) n1) (nr_sequence record1) (nr_expires_unix_micros record1) packet1
  && negb (net_late (signer key) n1) && all_admitted (in_state (inner_of a1))
  && ((0 <=? as_wall_clock_high_water_unix_micros (in_state (inner_of a1)))%Z
      && (as_wall_clock_high_water_unix_micros (in_state (inner_of a1)) <=? 2000000)%Z)
  && is_ok (decode_node_record packet1) && ((3000010 <? nr_expires_unix_micros record1)%Z && (nr_sequence record1 <=? 3000000)%Z) = true.
Proof. vm_compute. reflexivity. Qed.

#[local] Strategy expand [n1 packet1 record1 a0 a1].

Lemma n1_up : net_up euid acfg n1.
Proof.
  destruct a1_rests as (Hh & Hs & Ha). pose proof a1_checked as H. do 3 apply andb_prop in H as [H _].
  apply andb_prop in H as [H Hp%negb_true_iff]. apply andb_prop in H as [H Hf]. do 2 apply andb_prop in H as [H _].
  pose proof n1_checked as K. do 2 apply andb_prop in K as [K _]. apply andb_prop in K as [K [K1 K2]%andb_prop].
  apply andb_prop in K as [_ K]. split.
  - exact (is_ok_unit _ H).
  - eexists _, _. split; [exact Hh|]. split; [exact Hs|]. split; [exact Ha|reflexivity].
  - exact (no_faults_nil _ Hf).
  - exact Hp.
  - exact (all_admitted_only _ K).
  - split; [exact (proj1 (Z.leb_le _ _) K1)|exact (proj1 (Z.leb_le _ _) K2)].
  - vm_compute. split; [reflexivity|discriminate].
  - vm_compute. reflexivity.
Qed.

Lemma key_parts : bool_decide (from_z32 (signer key) = Some (verifying_key key)) && admits (ac_signer_admission acfg) (signer key)
  && valid_host (ac_expected_host acfg) = true.
Proof. vm_compute. reflexivity. Qed.
Lemma key_z32 : from_z32 (signer key) = Some (verifying_key key).
Proof. pose proof key_parts as H. do 1 apply andb_prop in H as [H _]. apply andb_prop in H as [H _]. by apply bool_decide_eq_true in H. Qed.
Lemma key_admitted : admits (ac_signer_admission acfg) (signer key) = true.
Proof. pose proof key_parts as H. apply andb_prop in H as [H _]. by apply andb_prop in H as [_ H]. Qed.
Lemma host_valid : valid_host (ac_expected_host acfg) = true.
Proof. pose proof key_parts as H. by apply andb_prop in H as [_ H]. Qed.

Lemma published_is_found_witness :
  exists st' bytes,
    resolve core (net_peer euid acfg in_halves (r_net r1)) (node_id key) (verifying_key key) (at_time 3000000) empty_lookup =
      (st', looked_up (rc_record receipt1) (blake3_hex bytes)) /\
    net_slot (signer key) (net_after euid acfg in_halves (r_net r1) GET (signer key) []) =
      Register.Kept (nr_sequence (rc_record receipt1)) (nr_expires_unix_micros (rc_record receipt1)) bytes.
Proof.
  pose proof toy_authority_room as Hroom. pose proof n1_checked as K.
  apply andb_prop in K as [K [Kx Kq]%andb_prop]. apply andb_prop in K as [K Kd]. do 2 apply andb_prop in K as [K _].
  apply andb_prop in K as [Ks Kl%negb_true_iff]. apply Z.ltb_lt in Kx. apply Z.leb_le in Kq.
  apply (published_is_found euid acfg in_halves key in_halves_arrive host_valid key_z32 key_admitted core (at_time 3000000) empty_lookup r1
    receipt1).
  - split; [reflexivity|]. exists packet1. split; [exact (ok_of_ok _ no_record Kd)|exact (slot_is_kept _ _ _ _ Ks)].
  - exact n1_up.
  - exact Kl.
  - change (2000000 < nr_expires_unix_micros record1)%Z. clear -Kx. lia.
  - reflexivity.
  - reflexivity.
  - reflexivity.
  - split; [reflexivity|reflexivity| |].
    + eexists _, _. split; [reflexivity|]. split; [reflexivity|]. split; [exact I|].
      change (3000000 <= 3000010 /\ 3000010 < nr_expires_unix_micros record1 /\ nr_sequence record1 <= 3000010 + 1000000)%Z.
      clear -Kx Kq. lia.
    + apply Nat.ltb_lt. vm_compute. reflexivity.
Defined.
