(* ===== verification/Dials.v ===== *)
(** * Exact-dial authority

    Models the exact-dial state of the swarm worker, fabric-libp2p/src/swarm.rs:
    the pending-dial table, the live route ledger and the LAN serve ledger, the
    pure transitions [apply_exact_dial_cancel] and
    [apply_connection_established], and the worker handlers that drive them
    (DialExact command, cancel notices, the abandoned sweep, and the swarm's
    terminal events).

    The waiter of a dial is the receiving end of a oneshot channel; whether it
    is still open when the worker replies is an input of the handlers.  The
    step relation [step] composes the handlers with what libp2p guarantees of
    connection ids: an id is dialed once, established at most once, fails or
    establishes but not both.  The theorems: no connection of an exact dial
    becomes selectable unless it reached the expected peer over a route its
    offer permits, none whose dial was cancelled stays or becomes selectable,
    and a confined node serves exactly its live, authorized LAN connections. *)

From Stdlib Require Import ZArith Lia.
From stdpp Require Import base sets gmap fin_maps relations list.
From S2P Require Import Prelude Lan.

Section dials.
Context {P : Type} `{Countable P}.
(** libp2p's ConnectedPoint::is_relayed and ::get_remote_address. *)
Context (is_relayed : @ConnectedPoint P -> bool) (get_remote_address : @ConnectedPoint P -> list (@Protocol P)).

(** libp2p's ConnectionId is a wrapped usize. *)
Abbreviation ConnectionId := nat.

Inductive PendingExactDial :=
| ActiveDial (peer : P) (permitted_relays : gset P)
| Tombstone (peer : P).

Inductive ExactDialCancelTransition := CancelNone | AwaitTerminal | CancelClose.
Inductive ExactConnectionCloseReason := Cancelled | UnauthorizedRoute | WaiterGone.
Inductive ConnectionEstablishedTransition :=
| Keep
| CloseFor (reason : ExactConnectionCloseReason).

Inductive ConnectionRoute := Direct | Relayed (relay : P) | RelayedUnknown.

#[export] Instance ConnectionRoute_eq_dec : EqDecision ConnectionRoute.
Proof. solve_decision. Defined.

Definition connection_route (endpoint : @ConnectedPoint P) : ConnectionRoute :=
  if negb (is_relayed endpoint) then Direct
  else match endpoint_relay_peer endpoint with Some relay => Relayed relay | None => RelayedUnknown end.

Record AuthorizedConnection := { ac_id : ConnectionId; ac_route : ConnectionRoute }.

Definition relay_peer (c : AuthorizedConnection) : option P :=
  match ac_route c with Relayed relay => Some relay | Direct | RelayedUnknown => None end.

Definition connection_route_allowed (route : ConnectionRoute) (relays : gset P) : bool :=
  match route with
  | Direct => true
  | Relayed relay => bool_decide (relay ∈ relays)
  | RelayedUnknown => false
  end.

Abbreviation Pending := (gmap ConnectionId PendingExactDial).
Abbreviation Routes := (gmap P (gmap ConnectionId ConnectionRoute)).

Definition remove_connection_route (conn_routes : Routes) (peer : P) (connection : ConnectionId)
    : Routes * bool :=
  match conn_routes !! peer with
  | Some routes =>
      let removed := bool_decide (is_Some (routes !! connection)) in
      let routes := delete connection routes in
      (if bool_decide (routes = ∅) then delete peer conn_routes
       else <[peer := routes]> conn_routes, removed)
  | None => (conn_routes, false)
  end.

Definition pending_peer (p : PendingExactDial) : P :=
  match p with ActiveDial peer _ | Tombstone peer => peer end.

Definition apply_exact_dial_cancel (pending : Pending) (conn_routes : Routes) (peer : P)
    (connection : ConnectionId) : Pending * Routes * ExactDialCancelTransition :=
  match pending !! connection with
  | Some entry => (<[connection := Tombstone (pending_peer entry)]> pending, conn_routes, AwaitTerminal)
  | None =>
      let '(conn_routes, removed) := remove_connection_route conn_routes peer connection in
      if removed then (<[connection := Tombstone peer]> pending, conn_routes, CancelClose)
      else (pending, conn_routes, CancelNone)
  end.

Definition insert_route (conn_routes : Routes) (peer : P) (connection : ConnectionId)
    (route : ConnectionRoute) : Routes :=
  <[peer := <[connection := route]> (default ∅ (conn_routes !! peer))]> conn_routes.

(** [reply_open]: the waiter's receiver is still there, so `reply.send`
    succeeds. *)
Definition apply_connection_established (pending : Pending) (conn_routes : Routes) (peer_id : P)
    (connection_id : ConnectionId) (route : ConnectionRoute) (reply_open : bool)
    : Pending * Routes * ConnectionEstablishedTransition :=
  let rest := delete connection_id pending in
  match pending !! connection_id with
  | Some (Tombstone _) => (rest, conn_routes, CloseFor Cancelled)
  | Some (ActiveDial peer permitted_relays) =>
      if bool_decide (peer <> peer_id) || negb (connection_route_allowed route permitted_relays)
      then (rest, conn_routes, CloseFor UnauthorizedRoute)
      else if reply_open
      then (rest, insert_route conn_routes peer_id connection_id route, Keep)
      else (rest, conn_routes, CloseFor WaiterGone)
  | None => (rest, insert_route conn_routes peer_id connection_id route, Keep)
  end.

Inductive ConnPath := PathDirect | PathRelay | PathNone.

Definition connection_path_from_routes (routes : option (gmap ConnectionId ConnectionRoute)) : ConnPath :=
  let values := default [] (fmap (fun m => (map_to_list m).*2) routes) in
  if existsb (fun r => bool_decide (r = Direct)) values then PathDirect
  else match values with [] => PathNone | _ => PathRelay end.

(** `min_by_key` on the connection id. *)
Definition min_connection (l : list (ConnectionId * ConnectionRoute))
    : option (ConnectionId * ConnectionRoute) :=
  foldl (fun best x => match best with
                       | Some b => if x.1 <? b.1 then Some x else Some b
                       | None => Some x
                       end) None l.

Definition select_authorized_connection (routes : option (gmap ConnectionId ConnectionRoute))
    (relays : gset P) : option AuthorizedConnection :=
  routes ← routes;
  let l := map_to_list routes in
  let direct := min_connection (List.filter (fun x => bool_decide (x.2 = Direct)) l) in
  let best := match direct with
    | Some x => Some x
    | None => min_connection (List.filter (fun x => connection_route_allowed x.2 relays) l)
    end in
  fmap (fun x => {| ac_id := x.1; ac_route := x.2 |}) best.

(** ** The worker's handlers *)

Definition MAX_PENDING_EXACT_DIALS : nat := 64.

(** [lan_serve_conns] is there exactly on a LAN-confined node. *)
Record Worker := {
  pending_exact_dials : Pending;
  conn_routes : Routes;
  lan_serve_conns : option (gmap P (gset ConnectionId));
}.

(** What the worker does to the outside: reply to a waiter, close a connection. *)
Inductive Output :=
| Reply (connection : ConnectionId) (answer : option AuthorizedConnection)
| CloseConnection (connection : ConnectionId).

(** Command::DialExact; [dial_ok] is whether the swarm accepted the dial. *)
Definition on_dial_exact (w : Worker) (peer : P) (permitted_relays : gset P)
    (connection_id : ConnectionId) (dial_ok : bool) : Worker * list Output :=
  if bool_decide (MAX_PENDING_EXACT_DIALS <= size (pending_exact_dials w))
  then (w, [Reply connection_id None])
  else
    let pending := <[connection_id := ActiveDial peer permitted_relays]> (pending_exact_dials w) in
    if dial_ok
    then ({| pending_exact_dials := pending; conn_routes := conn_routes w;
             lan_serve_conns := lan_serve_conns w |}, [])
    else ({| pending_exact_dials := delete connection_id pending; conn_routes := conn_routes w;
             lan_serve_conns := lan_serve_conns w |},
          [Reply connection_id None]).

Definition tombstone_exact_dial (w : Worker) (peer : P) (connection : ConnectionId)
    : Worker * list Output :=
  let '(pending, routes, t) :=
    apply_exact_dial_cancel (pending_exact_dials w) (conn_routes w) peer connection in
  ({| pending_exact_dials := pending; conn_routes := routes; lan_serve_conns := lan_serve_conns w |},
   match t with CancelClose => [CloseConnection connection] | _ => [] end).

(** The periodic sweep: every active entry whose waiter is gone. *)
Definition abandoned_exact_dials (w : Worker) (open : gset ConnectionId) : list (P * ConnectionId) :=
  omap (fun '(id, entry) =>
    match entry with
    | ActiveDial peer _ => if bool_decide (id ∉ open) then Some (peer, id) else None
    | Tombstone _ => None
    end) (map_to_list (pending_exact_dials w)).

Definition tombstone_abandoned_exact_dials (w : Worker) (open : gset ConnectionId)
    : Worker * list Output :=
  foldl (fun '(w, out) '(peer, id) =>
    let '(w, out') := tombstone_exact_dial w peer id in (w, out ++ out'))
    (w, []) (abandoned_exact_dials w open).

(** SwarmEvent::ConnectionEstablished *)
Definition on_connection_established (w : Worker) (open : gset ConnectionId) (peer_id : P)
    (connection_id : ConnectionId) (endpoint : @ConnectedPoint P) : Worker * list Output :=
  let route := connection_route endpoint in
  let '(pending, routes, t) := apply_connection_established (pending_exact_dials w) (conn_routes w)
    peer_id connection_id route (bool_decide (connection_id ∈ open)) in
  let replies :=
    match pending_exact_dials w !! connection_id, t with
    | Some (ActiveDial _ _), Keep =>
        [Reply connection_id (Some {| ac_id := connection_id; ac_route := route |})]
    | Some (ActiveDial _ _), CloseFor UnauthorizedRoute => [Reply connection_id None]
    | _, _ => []
    end in
  let lan_conns :=
    match t, lan_serve_conns w with
    | Keep, Some lan_conns =>
        if multiaddr_lan_provenance (get_remote_address endpoint)
        then Some (lan_record lan_conns peer_id connection_id) else Some lan_conns
    | _, lan_conns => lan_conns
    end in
  ({| pending_exact_dials := pending; conn_routes := routes; lan_serve_conns := lan_conns |},
   replies ++ match t with CloseFor _ => [CloseConnection connection_id] | Keep => [] end).

(** SwarmEvent::OutgoingConnectionError *)
Definition on_outgoing_connection_error (w : Worker) (connection_id : ConnectionId)
    : Worker * list Output :=
  ({| pending_exact_dials := delete connection_id (pending_exact_dials w);
      conn_routes := conn_routes w; lan_serve_conns := lan_serve_conns w |},
   match pending_exact_dials w !! connection_id with
   | Some (ActiveDial _ _) => [Reply connection_id None]
   | _ => []
   end).

(** SwarmEvent::ConnectionClosed *)
Definition on_connection_closed (w : Worker) (peer_id : P) (connection_id : ConnectionId)
    : Worker * list Output :=
  ({| pending_exact_dials := delete connection_id (pending_exact_dials w);
      conn_routes := (remove_connection_route (conn_routes w) peer_id connection_id).1;
      lan_serve_conns := (fun m => lan_retire m peer_id connection_id) <$> lan_serve_conns w |},
   match pending_exact_dials w !! connection_id with
   | Some (ActiveDial _ _) => [Reply connection_id None]
   | _ => []
   end).

Definition route_at (rs : Routes) (p : P) (c : ConnectionId) : option ConnectionRoute :=
  rs !! p ≫= fun m => m !! c.

(** ** The system: worker, waiters and what libp2p has done with each id *)

Record System := {
  sys_worker : Worker;
  sys_open : gset ConnectionId;
  sys_dialed : gmap ConnectionId (P * gset P);
  sys_established : gset ConnectionId;
  sys_failed : gset ConnectionId;
  sys_cancelled : gset ConnectionId;
  sys_endpoint : gmap ConnectionId (P * @ConnectedPoint P);
  sys_closed : gset ConnectionId;
}.

Definition System_init (confined : bool) : System :=
  {| sys_worker := {| pending_exact_dials := ∅; conn_routes := ∅;
                      lan_serve_conns := if confined then Some ∅ else None |};
     sys_open := ∅; sys_dialed := ∅; sys_established := ∅; sys_failed := ∅; sys_cancelled := ∅;
     sys_endpoint := ∅; sys_closed := ∅ |}.

Definition with_closed (s : System) (w : Worker) (c : ConnectionId) : System :=
  {| sys_worker := w; sys_open := sys_open s; sys_dialed := sys_dialed s;
     sys_established := sys_established s; sys_failed := sys_failed s;
     sys_cancelled := sys_cancelled s; sys_endpoint := sys_endpoint s;
     sys_closed := {[c]} ∪ sys_closed s |}.

(** Whether the worker registers the dial and the swarm takes it. *)
Definition dial_taken (w : Worker) (dial_ok : bool) : bool :=
  bool_decide (size (pending_exact_dials w) < MAX_PENDING_EXACT_DIALS) && dial_ok.

Inductive step : System -> System -> Prop :=
| step_dial s peer relays c waiting dial_ok :
    (** a dial command for a fresh id; [waiting]: its caller still waits *)
    sys_dialed s !! c = None -> c ∉ sys_established s -> c ∉ sys_failed s ->
    (waiting = true -> c ∉ sys_cancelled s) ->
    step s
      {| sys_worker := (on_dial_exact (sys_worker s) peer relays c dial_ok).1;
         sys_open := if waiting : bool then {[c]} ∪ sys_open s else sys_open s;
         sys_dialed := if dial_taken (sys_worker s) dial_ok
                       then <[c := (peer, relays)]> (sys_dialed s) else sys_dialed s;
         sys_established := sys_established s;
         sys_failed := if dial_taken (sys_worker s) dial_ok then sys_failed s else {[c]} ∪ sys_failed s;
         sys_cancelled := sys_cancelled s;
         sys_endpoint := sys_endpoint s; sys_closed := sys_closed s |}
| step_drop s c :
    (** a waiter is dropped *)
    step s
      {| sys_worker := sys_worker s; sys_open := sys_open s ∖ {[c]}; sys_dialed := sys_dialed s;
         sys_established := sys_established s; sys_failed := sys_failed s;
         sys_cancelled := sys_cancelled s;
         sys_endpoint := sys_endpoint s; sys_closed := sys_closed s |}
| step_cancel s peer c :
    (** the dropped waiter's cancel notice, naming the dial's own peer *)
    c ∉ sys_open s ->
    (forall q rel, sys_dialed s !! c = Some (q, rel) -> q = peer) ->
    (c ∈ sys_established s -> is_Some (sys_dialed s !! c)) ->
    step s
      {| sys_worker := (tombstone_exact_dial (sys_worker s) peer c).1; sys_open := sys_open s;
         sys_dialed := sys_dialed s; sys_established := sys_established s;
         sys_failed := sys_failed s; sys_cancelled := {[c]} ∪ sys_cancelled s;
         sys_endpoint := sys_endpoint s; sys_closed := sys_closed s |}
| step_sweep s :
    step s
      {| sys_worker := (tombstone_abandoned_exact_dials (sys_worker s) (sys_open s)).1;
         sys_open := sys_open s; sys_dialed := sys_dialed s;
         sys_established := sys_established s; sys_failed := sys_failed s;
         sys_cancelled := list_to_set (abandoned_exact_dials (sys_worker s) (sys_open s)).*2
                          ∪ sys_cancelled s;
         sys_endpoint := sys_endpoint s; sys_closed := sys_closed s |}
| step_established s peer c endpoint :
    (** an id is established at most once, and an exact dial's only once dialed *)
    c ∉ sys_established s -> c ∉ sys_failed s ->
    (c ∈ sys_cancelled s -> is_Some (sys_dialed s !! c)) ->
    step s
      {| sys_worker := (on_connection_established (sys_worker s) (sys_open s) peer c endpoint).1;
         sys_open := sys_open s; sys_dialed := sys_dialed s;
         sys_established := {[c]} ∪ sys_established s; sys_failed := sys_failed s;
         sys_cancelled := sys_cancelled s;
         sys_endpoint := <[c := (peer, endpoint)]> (sys_endpoint s); sys_closed := sys_closed s |}
| step_error s c :
    c ∉ sys_established s ->
    step s
      {| sys_worker := (on_outgoing_connection_error (sys_worker s) c).1; sys_open := sys_open s;
         sys_dialed := sys_dialed s; sys_established := sys_established s;
         sys_failed := {[c]} ∪ sys_failed s; sys_cancelled := sys_cancelled s;
         sys_endpoint := sys_endpoint s; sys_closed := sys_closed s |}
| step_closed s peer c endpoint :
    (** a close names the peer the connection was established with *)
    c ∈ sys_established s -> sys_endpoint s !! c = Some (peer, endpoint) ->
    step s (with_closed s (on_connection_closed (sys_worker s) peer c).1 c).

(** ** Invariant *)

Record inv (s : System) : Prop := {
  inv_routes p c r : route_at (conn_routes (sys_worker s)) p c = Some r ->
    c ∈ sys_established s /\ c ∉ sys_cancelled s /\
    (forall q rel, sys_dialed s !! c = Some (q, rel) ->
       p = q /\ connection_route_allowed r rel = true);
  inv_active c q rel : pending_exact_dials (sys_worker s) !! c = Some (ActiveDial q rel) ->
    sys_dialed s !! c = Some (q, rel) /\ c ∉ sys_established s;
  inv_pending c : is_Some (sys_dialed s !! c) -> c ∉ sys_established s -> c ∉ sys_failed s ->
    is_Some (pending_exact_dials (sys_worker s) !! c);
  inv_cancelled c : c ∈ sys_cancelled s -> c ∉ sys_open s;
  inv_no_route c e p : pending_exact_dials (sys_worker s) !! c = Some e ->
    route_at (conn_routes (sys_worker s)) p c = None;
}.

Lemma route_at_insert rs p c r p' c' :
  route_at (insert_route rs p c r) p' c' =
  if decide (p' = p /\ c' = c) then Some r else route_at rs p' c'.
Proof.
  unfold route_at, insert_route. destruct (decide (p' = p)) as [->|Hp].
  - rewrite lookup_insert_eq. simpl. destruct (decide (c' = c)) as [->|Hc].
    + rewrite lookup_insert_eq. by rewrite decide_True.
    + rewrite lookup_insert_ne by done. rewrite decide_False by naive_solver.
      destruct (rs !! p); simpl; [done|]. by rewrite lookup_empty.
  - rewrite lookup_insert_ne by done. by rewrite decide_False by naive_solver.
Qed.

Lemma route_at_remove rs p c p' c' :
  route_at (remove_connection_route rs p c).1 p' c' =
  if decide (p' = p /\ c' = c) then None else route_at rs p' c'.
Proof.
  unfold route_at, remove_connection_route. destruct (rs !! p) as [m|] eqn:Em; simpl.
  - assert (forall o, o = Some (delete c m) \/ (o = None /\ delete c m = ∅) ->
      (o : option (gmap ConnectionId ConnectionRoute)) ≫= (fun m => m !! c') =
      if decide (c' = c) then None else m !! c') as Hdel.
    { intros o [->|[-> He]]; simpl.
      - destruct (decide (c' = c)) as [->|]; [apply lookup_delete_eq|by apply lookup_delete_ne].
      - destruct (decide (c' = c)) as [|Hne]; [done|].
        rewrite <-(lookup_delete_ne m c c') by done. by rewrite He, lookup_empty. }
    destruct (decide (p' = p)) as [->|Hp].
    + rewrite Em. simpl. rewrite Hdel; [|case_bool_decide; [right|left]; simplify_map_eq; done].
      repeat destruct (decide _); try done; naive_solver.
    + rewrite decide_False by naive_solver. case_bool_decide; by simplify_map_eq.
  - destruct (decide _) as [[-> ->]|]; [by rewrite Em|done].
Qed.

Lemma remove_route_flag rs p c :
  (remove_connection_route rs p c).2 = bool_decide (is_Some (route_at rs p c)).
Proof.
  unfold route_at, remove_connection_route. destruct (rs !! p) as [m|]; [done|].
  symmetry. apply bool_decide_false. by intros [].
Qed.

Lemma inv_init confined : inv (System_init confined).
Proof. split; simpl; intros *; try (rewrite ?lookup_empty; done); try set_solver. Qed.

Lemma inv_dial s peer relays c waiting dial_ok :
  sys_dialed s !! c = None -> c ∉ sys_established s -> c ∉ sys_failed s ->
  (waiting = true -> c ∉ sys_cancelled s) -> inv s ->
  inv {| sys_worker := (on_dial_exact (sys_worker s) peer relays c dial_ok).1;
         sys_open := if waiting : bool then {[c]} ∪ sys_open s else sys_open s;
         sys_dialed := if dial_taken (sys_worker s) dial_ok
                       then <[c := (peer, relays)]> (sys_dialed s) else sys_dialed s;
         sys_established := sys_established s;
         sys_failed := if dial_taken (sys_worker s) dial_ok then sys_failed s else {[c]} ∪ sys_failed s;
         sys_cancelled := sys_cancelled s;
         sys_endpoint := sys_endpoint s; sys_closed := sys_closed s |}.
Proof.
  intros Hd He Hf Hw [Hr Ha Hp Hc Hn].
  assert (forall p, route_at (conn_routes (sys_worker s)) p c = None) as Hnone.
  { intros p. destruct (route_at _ p c) eqn:E; [|done]. by destruct (Hr _ _ _ E). }
  assert (conn_routes (on_dial_exact (sys_worker s) peer relays c dial_ok).1
    = conn_routes (sys_worker s)) as Hroutes.
  { unfold on_dial_exact. by repeat case_match. }
  assert (forall c', c' <> c ->
    pending_exact_dials (on_dial_exact (sys_worker s) peer relays c dial_ok).1 !! c'
    = pending_exact_dials (sys_worker s) !! c') as Hother.
  { intros c' Hne. unfold on_dial_exact. repeat case_match; simpl; by simplify_map_eq. }
  assert (pending_exact_dials (on_dial_exact (sys_worker s) peer relays c dial_ok).1 !! c
    = if dial_taken (sys_worker s) dial_ok then Some (ActiveDial peer relays)
      else if decide (size (pending_exact_dials (sys_worker s)) < MAX_PENDING_EXACT_DIALS)
      then None else pending_exact_dials (sys_worker s) !! c) as Hself.
  { unfold on_dial_exact, dial_taken. destruct (decide _).
    - rewrite bool_decide_false, bool_decide_true by lia. destruct dial_ok; simpl; by simplify_map_eq.
    - rewrite bool_decide_true, bool_decide_false by lia. done. }
  split; cbn [sys_worker sys_open sys_dialed sys_established sys_failed sys_cancelled].
  - intros p c' r. rewrite Hroutes. intros Hrt. destruct (Hr _ _ _ Hrt) as (? & ? & Hauth).
    split_and!; [done..|]. intros q rel. destruct (dial_taken _ _); [|apply Hauth].
    assert (c' <> c) by (intros ->; congruence). rewrite lookup_insert_ne by done. apply Hauth.
  - intros c' q rel. destruct (decide (c' = c)) as [->|Hne].
    + rewrite Hself. destruct (dial_taken _ _); [intros [= <- <-]; by simplify_map_eq|].
      destruct (decide _); [done|]. intros Hact. apply Ha in Hact as [? _]. congruence.
    + rewrite Hother by done. intros Hact. destruct (dial_taken _ _); [simplify_map_eq|]; by apply Ha.
  - intros c'. destruct (decide (c' = c)) as [->|Hne].
    + rewrite Hself. destruct (dial_taken _ _); [eauto|]. set_solver.
    + rewrite Hother by done. destruct (dial_taken _ _); [rewrite lookup_insert_ne by done|];
        intros ? ? ?; apply Hp; set_solver.
  - intros c' Hc'. pose proof (Hc _ Hc'). destruct waiting; [|done].
    assert (c' <> c) by (intros ->; by apply Hw). set_solver.
  - intros c' e p. rewrite Hroutes. destruct (decide (c' = c)) as [->|Hne]; [done|].
    rewrite Hother by done. apply Hn.
Qed.

Lemma inv_cancel s peer c :
  c ∉ sys_open s -> (forall q rel, sys_dialed s !! c = Some (q, rel) -> q = peer) ->
  (c ∈ sys_established s -> is_Some (sys_dialed s !! c)) -> inv s ->
  inv {| sys_worker := (tombstone_exact_dial (sys_worker s) peer c).1; sys_open := sys_open s;
         sys_dialed := sys_dialed s; sys_established := sys_established s;
         sys_failed := sys_failed s; sys_cancelled := {[c]} ∪ sys_cancelled s;
         sys_endpoint := sys_endpoint s; sys_closed := sys_closed s |}.
Proof.
  intros Ho Hpeer Hest [Hr Ha Hp Hc Hn]. unfold tombstone_exact_dial, apply_exact_dial_cancel.
  destruct (pending_exact_dials (sys_worker s) !! c) as [e|] eqn:Ep.
  - split; simpl.
    + intros p c' r Hrt. destruct (Hr _ _ _ Hrt) as (? & ? & ?). split_and!; [done| |done].
      assert (c' <> c) by (intros ->; by rewrite (Hn _ _ _ Ep) in Hrt). set_solver.
    + intros c' q rel. destruct (decide (c' = c)) as [->|]; simplify_map_eq; [done|apply Ha].
    + intros c'. destruct (decide (c' = c)) as [->|]; simplify_map_eq; [eauto|apply Hp].
    + intros c' [->%elem_of_singleton|?]%elem_of_union; [done|by apply Hc].
    + intros c' e' p. destruct (decide (c' = c)) as [->|]; simplify_map_eq; [|apply Hn].
      intros _. by eapply Hn.
  - pose proof (route_at_remove (conn_routes (sys_worker s)) peer c) as Hrm.
    pose proof (remove_route_flag (conn_routes (sys_worker s)) peer c) as Hflag.
    destruct (remove_connection_route _ _ _) as [rs removed]. simpl in Hrm, Hflag.
    assert (forall p r, route_at (conn_routes (sys_worker s)) p c = Some r -> p = peer) as Hat.
    { intros p r Hrt. destruct (Hr _ _ _ Hrt) as (He & _ & Hauth).
      destruct (Hest He) as [[q rel] Hd]. destruct (Hauth _ _ Hd) as [-> _]. by eapply Hpeer. }
    destruct removed.
    + split; simpl.
      * intros p c' r. rewrite Hrm. destruct (decide _) as [|Hne]; [done|]. intros Hrt.
        destruct (Hr _ _ _ Hrt) as (? & ? & ?). split_and!; [done| |done].
        assert (c' <> c); [|set_solver]. intros ->. apply Hne. split; [by eapply Hat|done].
      * intros c' q rel. destruct (decide (c' = c)) as [->|]; simplify_map_eq; [done|apply Ha].
      * intros c'. destruct (decide (c' = c)) as [->|]; simplify_map_eq; [eauto|apply Hp].
      * intros c' [->%elem_of_singleton|?]%elem_of_union; [done|by apply Hc].
      * intros c' e p. rewrite Hrm. destruct (decide _) as [|Hne]; [done|].
        destruct (decide (c' = c)) as [->|]; simplify_map_eq; [|apply Hn].
        intros _. destruct (route_at _ p c) eqn:E; [|done]. exfalso. apply Hne.
        split; [by eapply Hat|done].
    + symmetry in Hflag. apply bool_decide_eq_false in Hflag.
      split; simpl; [|apply Ha|apply Hp| |].
      * intros p c' r. rewrite Hrm. destruct (decide _); [done|]. intros Hrt.
        destruct (Hr _ _ _ Hrt) as (? & ? & ?). split_and!; [done| |done].
        assert (c' <> c); [|set_solver]. intros ->. apply Hflag. rewrite <-(Hat _ _ Hrt). eauto.
      * intros c' [->%elem_of_singleton|?]%elem_of_union; [done|by apply Hc].
      * intros c' e p He. rewrite Hrm. destruct (decide _); [done|]. by eapply Hn.
Qed.

(** The whole effect of an established event on the two tables. *)
Lemma established_pending w open peer c endpoint c' :
  pending_exact_dials (on_connection_established w open peer c endpoint).1 !! c' =
  if decide (c' = c) then None else pending_exact_dials w !! c'.
Proof.
  unfold on_connection_established, apply_connection_established.
  destruct (decide (c' = c)) as [->|]; repeat case_match; simpl in *; simplify_eq; by simplify_map_eq.
Qed.

Lemma established_routes w open peer c endpoint :
  conn_routes (on_connection_established w open peer c endpoint).1 = conn_routes w \/
  conn_routes (on_connection_established w open peer c endpoint).1
    = insert_route (conn_routes w) peer c (connection_route endpoint) /\
  (pending_exact_dials w !! c = None \/
   c ∈ open /\ exists rel, pending_exact_dials w !! c = Some (ActiveDial peer rel) /\
     connection_route_allowed (connection_route endpoint) rel = true).
Proof.
  unfold on_connection_established, apply_connection_established.
  destruct (pending_exact_dials w !! c) as [[q rel|q]|] eqn:Ep; simpl; [|by left|by right; auto].
  destruct (bool_decide (q <> peer)) eqn:Eq; [by left|].
  destruct (connection_route_allowed (connection_route endpoint) rel) eqn:Er; [|by left]. simpl.
  destruct (bool_decide (c ∈ open)) eqn:Ho; [|by left]. apply bool_decide_eq_true in Ho.
  right. split; [done|]. right. split; [done|].
  apply bool_decide_eq_false in Eq. exists rel. destruct (decide (q = peer)) as [->|]; done.
Qed.

Lemma inv_established s peer c endpoint :
  c ∉ sys_established s -> c ∉ sys_failed s ->
  (c ∈ sys_cancelled s -> is_Some (sys_dialed s !! c)) -> inv s ->
  inv {| sys_worker := (on_connection_established (sys_worker s) (sys_open s) peer c endpoint).1;
         sys_open := sys_open s; sys_dialed := sys_dialed s;
         sys_established := {[c]} ∪ sys_established s; sys_failed := sys_failed s;
         sys_cancelled := sys_cancelled s;
         sys_endpoint := <[c := (peer, endpoint)]> (sys_endpoint s); sys_closed := sys_closed s |}.
Proof.
  intros He Hf Hcd [Hr Ha Hp Hc Hn].
  assert (forall p r, route_at (conn_routes (sys_worker s)) p c <> Some r) as Hfresh.
  { intros p r Hrt. by destruct (Hr _ _ _ Hrt). }
  pose proof (established_routes (sys_worker s) (sys_open s) peer c endpoint) as Hrs.
  pose proof (established_pending (sys_worker s) (sys_open s) peer c endpoint) as Hps.
  split; cbn [sys_worker sys_open sys_dialed sys_established sys_failed sys_cancelled].
  - intros p c' r Hrt. destruct Hrs as [Hrs|[Hrs Hwhy]]; rewrite Hrs in Hrt.
    { destruct (Hr _ _ _ Hrt) as (? & ? & ?). split_and!; [set_solver|done|done]. }
    rewrite route_at_insert in Hrt. destruct (decide _) as [[-> ->]|].
    + injection Hrt as <-. split; [set_solver|].
      destruct Hwhy as [Hnone|(Ho & rel & Hact & Hallow)].
      * destruct (sys_dialed s !! c) as [d|] eqn:Ed.
        { destruct (Hp c) as [e Hpe]; [by rewrite Ed|done|done|]. rewrite Hnone in Hpe. done. }
        split; [|done]. intros Hin. destruct (Hcd Hin) as [? ?]. done.
      * split; [intros Hin; by apply (Hc _ Hin)|]. intros q rel' Hd.
        destruct (Ha _ _ _ Hact) as [Hd' _]. rewrite Hd in Hd'. by injection Hd' as -> ->.
    + destruct (Hr _ _ _ Hrt) as (? & ? & ?). split_and!; [set_solver|done|done].
  - intros c' q rel. rewrite Hps. destruct (decide (c' = c)); [done|]. intros Hact.
    destruct (Ha _ _ _ Hact). set_solver.
  - intros c' Hd Hne Hnf. rewrite Hps. destruct (decide (c' = c)); [set_solver|].
    apply Hp; [done|set_solver|done].
  - done.
  - intros c' e p. rewrite Hps. destruct (decide (c' = c)); [done|]. intros Hpe.
    destruct Hrs as [->|[-> _]]; [by eapply Hn|]. rewrite route_at_insert.
    rewrite decide_False by naive_solver. by eapply Hn.
Qed.

Lemma inv_error s c :
  c ∉ sys_established s -> inv s ->
  inv {| sys_worker := (on_outgoing_connection_error (sys_worker s) c).1; sys_open := sys_open s;
         sys_dialed := sys_dialed s; sys_established := sys_established s;
         sys_failed := {[c]} ∪ sys_failed s; sys_cancelled := sys_cancelled s;
         sys_endpoint := sys_endpoint s; sys_closed := sys_closed s |}.
Proof.
  intros He [Hr Ha Hp Hc Hn]. split; simpl; [done| | |done|].
  - intros c' q rel. rewrite lookup_delete_Some. intros [_ ?]. by apply Ha.
  - intros c' Hd Hne Hnf. rewrite lookup_delete_ne by set_solver. apply Hp; set_solver.
  - intros c' e p. rewrite lookup_delete_Some. intros [_ ?]. by eapply Hn.
Qed.

Lemma inv_closed s peer c :
  c ∈ sys_established s -> inv s ->
  inv (with_closed s (on_connection_closed (sys_worker s) peer c).1 c).
Proof.
  intros He [Hr Ha Hp Hc Hn]. split; simpl.
  - intros p c' r. rewrite route_at_remove. destruct (decide _); [done|]. apply Hr.
  - intros c' q rel. rewrite lookup_delete_Some. intros [_ ?]. by apply Ha.
  - intros c' Hd Hne Hnf. rewrite lookup_delete_ne by set_solver. by apply Hp.
  - done.
  - intros c' e p. rewrite lookup_delete_Some, route_at_remove. intros [_ ?].
    destruct (decide _); [done|]. by eapply Hn.
Qed.

(** The sweep only turns entries into tombstones. *)
Lemma sweep_fold l w out :
  Forall (fun x => is_Some (pending_exact_dials w !! x.2)) l ->
  let w' := (foldl (fun '(w, out) '(peer, id) =>
    let '(w, out') := tombstone_exact_dial w peer id in (w, out ++ out')) (w, out) l).1 in
  conn_routes w' = conn_routes w /\
  (forall c, pending_exact_dials w' !! c =
     if decide (c ∈ l.*2) then Tombstone ∘ pending_peer <$> pending_exact_dials w !! c
     else pending_exact_dials w !! c).
Proof.
  revert w out. induction l as [|[peer id] l IH]; intros w out Hl; cbn [foldl].
  { split; [done|]. intros c. by rewrite decide_False by set_solver. }
  apply Forall_cons in Hl as [[e He] Hl]. simpl in He.
  destruct (tombstone_exact_dial w peer id) as [w1 out1] eqn:E.
  unfold tombstone_exact_dial, apply_exact_dial_cancel in E. rewrite He in E.
  injection E as <- <-.
  destruct (IH {| pending_exact_dials := <[id := Tombstone (pending_peer e)]> (pending_exact_dials w);
    conn_routes := conn_routes w; lan_serve_conns := lan_serve_conns w |} (out ++ [])) as [Hrs Hps].
  { eapply Forall_impl; [exact Hl|]. intros x Hx. simpl.
    destruct (decide (id = x.2)) as [->|]; simplify_map_eq; eauto. }
  split; [done|]. intros c. etransitivity; [apply Hps|]. simpl.
  destruct (decide (c = id)) as [->|Hne]; simplify_map_eq.
  - rewrite (decide_True (P := id ∈ id :: l.*2)) by apply list_elem_of_here. by destruct (decide _).
  - destruct (decide (c ∈ l.*2)) as [Hin|Hin].
    + by rewrite decide_True by (by apply list_elem_of_further).
    + by rewrite decide_False by (by intros [?|?]%elem_of_cons).
Qed.

Lemma elem_of_abandoned w open x :
  x ∈ abandoned_exact_dials w open ->
  exists rel, pending_exact_dials w !! x.2 = Some (ActiveDial x.1 rel) /\ x.2 ∉ open.
Proof.
  unfold abandoned_exact_dials. rewrite list_elem_of_omap.
  intros ([id e] & Hin%elem_of_map_to_list & Hx). destruct e as [q rel|]; [|done].
  case_bool_decide; [|done]. injection Hx as <-. eauto.
Qed.

Lemma inv_sweep s :
  inv s ->
  inv {| sys_worker := (tombstone_abandoned_exact_dials (sys_worker s) (sys_open s)).1;
         sys_open := sys_open s; sys_dialed := sys_dialed s;
         sys_established := sys_established s; sys_failed := sys_failed s;
         sys_cancelled := list_to_set (abandoned_exact_dials (sys_worker s) (sys_open s)).*2
                          ∪ sys_cancelled s;
         sys_endpoint := sys_endpoint s; sys_closed := sys_closed s |}.
Proof.
  intros [Hr Ha Hp Hc Hn].
  destruct (sweep_fold (abandoned_exact_dials (sys_worker s) (sys_open s)) (sys_worker s) [])
    as [Hrs Hps].
  { apply Forall_forall. intros x Hx. destruct (elem_of_abandoned _ _ _ Hx) as (? & -> & _). eauto. }
  fold (tombstone_abandoned_exact_dials (sys_worker s) (sys_open s)) in Hrs, Hps.
  split; cbn [sys_worker sys_open sys_dialed sys_established sys_failed sys_cancelled].
  - intros p c r. rewrite Hrs. intros Hrt. destruct (Hr _ _ _ Hrt) as (? & ? & ?).
    split_and!; [done| |done]. rewrite elem_of_union, elem_of_list_to_set, list_elem_of_fmap.
    intros [(x & -> & Hx)|?]; [|done]. destruct (elem_of_abandoned _ _ _ Hx) as (rel & Hact & _).
    by rewrite (Hn _ _ p Hact) in Hrt.
  - intros c q rel. rewrite Hps. destruct (decide _); [|apply Ha].
    by destruct (pending_exact_dials (sys_worker s) !! c).
  - intros c Hd Hne Hnf. rewrite Hps. destruct (decide _); [|by apply Hp].
    by rewrite fmap_is_Some; apply Hp.
  - intros c. rewrite elem_of_union, elem_of_list_to_set, list_elem_of_fmap.
    intros [(x & -> & Hx)|?]; [|by apply Hc]. by destruct (elem_of_abandoned _ _ _ Hx) as (? & _ & ?).
  - intros c e p. rewrite Hrs, Hps. destruct (decide _); [|apply Hn].
    destruct (pending_exact_dials (sys_worker s) !! c) eqn:E; [|done]. intros _. by eapply Hn.
Qed.

Lemma inv_step s s' : step s s' -> inv s -> inv s'.
Proof.
  destruct 1; intros Hi.
  - by apply inv_dial.
  - destruct Hi as [Hr Ha Hp Hc Hn]. split; simpl; try done. intros c' Hin. specialize (Hc _ Hin).
    set_solver.
  - by apply inv_cancel.
  - by apply inv_sweep.
  - by apply inv_established.
  - by apply inv_error.
  - by apply inv_closed.
Qed.

Lemma inv_steps s s' : rtc step s s' -> inv s -> inv s'.
Proof. induction 1; eauto using inv_step. Qed.

Lemma inv_reachable confined s : rtc step (System_init confined) s -> inv s.
Proof. intros Hr. by eapply inv_steps, inv_init. Qed.

(** Cancellation is never forgotten. *)
Lemma cancelled_steps s s' c :
  rtc step s s' -> c ∈ sys_cancelled s -> c ∈ sys_cancelled s'.
Proof. induction 1 as [|s1 s2 s3 Hs _ IH]; [done|]. intros Hc. apply IH. destruct Hs; set_solver. Qed.

Lemma foldl_min_spec (l : list (ConnectionId * ConnectionRoute)) (b : ConnectionId * ConnectionRoute) :
  exists x, foldl (fun best x => match best with
                       | Some b => if x.1 <? b.1 then Some x else Some b
                       | None => Some x
                       end) (Some b) l = Some x /\
    (x = b \/ x ∈ l) /\ x.1 <= b.1 /\ forall y, y ∈ l -> x.1 <= y.1.
Proof.
  revert b. induction l as [|y l IH]; intros b; cbn [foldl].
  { exists b. split_and!; auto. set_solver. }
  destruct (y.1 <? b.1) eqn:E; bools.
  - destruct (IH y) as (x & -> & Hx & Hle & Hall). exists x.
    split_and!; [done|set_solver|lia|]. intros z [->|]%elem_of_cons; [done|by apply Hall].
  - destruct (IH b) as (x & -> & Hx & Hle & Hall). exists x.
    split_and!; [done|set_solver|lia|]. intros z [->|]%elem_of_cons; [lia|by apply Hall].
Qed.

Lemma min_connection_spec l :
  (min_connection l = None /\ l = []) \/
  exists x, min_connection l = Some x /\ x ∈ l /\ forall y, y ∈ l -> x.1 <= y.1.
Proof.
  destruct l as [|b l]; [by left|]. right. unfold min_connection. cbn [foldl].
  destruct (foldl_min_spec l b) as (x & -> & Hx & Hle & Hall). exists x.
  split_and!; [done|set_solver|]. intros y [->|]%elem_of_cons; [done|by apply Hall].
Qed.

Lemma elem_of_routes_filter f (m : gmap ConnectionId ConnectionRoute) x :
  x ∈ List.filter f (map_to_list m) <-> m !! x.1 = Some x.2 /\ f x = true.
Proof.
  rewrite list_elem_of_In, List.filter_In, <-list_elem_of_In. destruct x as [c r].
  by rewrite elem_of_map_to_list.
Qed.

(** The ids of the table whose connections are not established. *)
Definition unsettled (s : System) : gset ConnectionId :=
  dom (pending_exact_dials (sys_worker s)) ∖ sys_established s.

Lemma unsettled_step s s' :
  inv s -> step s s' -> size (unsettled s) <= MAX_PENDING_EXACT_DIALS ->
  size (unsettled s') <= MAX_PENDING_EXACT_DIALS.
Proof.
  intros Hi Hs Hle. unfold unsettled in *.
  assert (forall X : gset ConnectionId,
    X ⊆ dom (pending_exact_dials (sys_worker s)) ∖ sys_established s ->
    size X <= MAX_PENDING_EXACT_DIALS) as Hsub.
  { intros X HX. apply subseteq_size in HX. lia. }
  destruct Hs as [s peer rel c waiting dok|s c|s peer c|s|s peer c endpoint|s c|s peer c endpoint];
    cbn [sys_worker sys_established with_closed].
  - unfold on_dial_exact. case_bool_decide as Hcap; [done|].
    transitivity (size (dom (<[c := ActiveDial peer rel]> (pending_exact_dials (sys_worker s))))).
    + apply subseteq_size. destruct dok; simpl; set_solver.
    + rewrite dom_insert. pose proof (size_union_alt ({[c]} : gset ConnectionId)
        (dom (pending_exact_dials (sys_worker s)))) as ->. rewrite size_singleton.
      pose proof (subseteq_size (dom (pending_exact_dials (sys_worker s)) ∖ {[c]})
        (dom (pending_exact_dials (sys_worker s))) ltac:(set_solver)).
      rewrite size_dom in *. lia.
  - done.
  - apply Hsub. unfold tombstone_exact_dial, apply_exact_dial_cancel.
    destruct (pending_exact_dials (sys_worker s) !! c) as [e|] eqn:Ep; simpl.
    { apply elem_of_dom_2 in Ep. set_solver. }
    pose proof (remove_route_flag (conn_routes (sys_worker s)) peer c) as Hflag.
    destruct (remove_connection_route _ _ _) as [rs []]; simpl in *; [|done].
    symmetry in Hflag. apply bool_decide_eq_true in Hflag as [r Hrt].
    destruct (inv_routes _ Hi _ _ _ Hrt) as (He & _). set_solver.
  - apply Hsub. destruct (sweep_fold (abandoned_exact_dials (sys_worker s) (sys_open s))
      (sys_worker s) []) as [_ Hps].
    { apply Forall_forall. intros x Hx. destruct (elem_of_abandoned _ _ _ Hx) as (? & -> & _). eauto. }
    intros c [Hc Hne]%elem_of_difference. apply elem_of_difference. split; [|done].
    apply elem_of_dom in Hc. apply elem_of_dom. unfold tombstone_abandoned_exact_dials in Hc.
    rewrite Hps in Hc. destruct (decide _); [by apply fmap_is_Some in Hc|done].
  - apply Hsub. intros c' [[e Hc]%elem_of_dom Hne]%elem_of_difference.
    rewrite established_pending in Hc. destruct (decide _); [done|]. apply elem_of_dom_2 in Hc. set_solver.
  - apply Hsub. simpl. set_solver.
  - apply Hsub. simpl. set_solver.
Qed.

Lemma unsettled_reachable s s' :
  rtc step s s' -> inv s -> size (unsettled s) <= MAX_PENDING_EXACT_DIALS ->
  size (unsettled s') <= MAX_PENDING_EXACT_DIALS.
Proof. induction 1; eauto using inv_step, unsettled_step. Qed.

(** ** The LAN serve ledger *)

Abbreviation permitted s p c := (lan_serve_permitted (lan_serve_conns (sys_worker s)) p c).

Record lan_inv (s : System) : Prop := {
  lan_confined : is_Some (lan_serve_conns (sys_worker s));
  lan_established c : c ∈ sys_established s <-> is_Some (sys_endpoint s !! c);
  lan_pending c : is_Some (pending_exact_dials (sys_worker s) !! c) -> is_Some (sys_dialed s !! c);
  lan_closed c : c ∈ sys_closed s -> c ∈ sys_established s;
  lan_sound p c : permitted s p c = true -> exists e, sys_endpoint s !! c = Some (p, e) /\
    multiaddr_lan_provenance (get_remote_address e) = true /\ c ∉ sys_closed s /\
    (forall q rel, sys_dialed s !! c = Some (q, rel) ->
       p = q /\ connection_route_allowed (connection_route e) rel = true);
  lan_complete p c e : sys_endpoint s !! c = Some (p, e) -> c ∉ sys_closed s -> sys_dialed s !! c = None ->
    multiaddr_lan_provenance (get_remote_address e) = true -> permitted s p c = true;
}.

Lemma lan_inv_init : lan_inv (System_init true).
Proof.
  split; cbn.
  - eauto.
  - intros c. rewrite lookup_empty. split; [set_solver|by intros []].
  - intros c. rewrite lookup_empty. by intros [].
  - set_solver.
  - intros p c. by rewrite lookup_empty.
  - intros p c e. by rewrite lookup_empty.
Qed.

(** A step that leaves the ledger, the established and the closed ids alone. *)
Lemma lan_inv_frame s s' :
  lan_serve_conns (sys_worker s') = lan_serve_conns (sys_worker s) ->
  sys_established s' = sys_established s -> sys_endpoint s' = sys_endpoint s -> sys_closed s' = sys_closed s ->
  (forall c, is_Some (pending_exact_dials (sys_worker s') !! c) -> is_Some (sys_dialed s' !! c)) ->
  (forall c, c ∈ sys_established s -> sys_dialed s' !! c = sys_dialed s !! c) ->
  lan_inv s -> lan_inv s'.
Proof.
  intros Hl He Hep Hcl Hp Hd [Hc Hee _ Hce Hs Hco]. split; rewrite ?Hl, ?He, ?Hep, ?Hcl; try done.
  - intros p c Hper. destruct (Hs _ _ Hper) as (e & Hend & Hlan & Hncl & Hauth).
    exists e. rewrite Hd by (apply Hee; eauto). done.
  - intros p c e Hend Hncl. rewrite Hd by (apply Hee; eauto). by apply Hco.
Qed.

Lemma tombstone_lan w peer c : lan_serve_conns (tombstone_exact_dial w peer c).1 = lan_serve_conns w.
Proof. unfold tombstone_exact_dial. by destruct (apply_exact_dial_cancel _ _ _ _) as [[] ?]. Qed.

Lemma sweep_lan w open : lan_serve_conns (tombstone_abandoned_exact_dials w open).1 = lan_serve_conns w.
Proof.
  unfold tombstone_abandoned_exact_dials. generalize (abandoned_exact_dials w open) as l.
  generalize (@nil Output) as out. intros out l. revert w out.
  induction l as [|[peer id] l IH]; intros w out; [done|]. cbn [foldl].
  pose proof (tombstone_lan w peer id) as Ht. destruct (tombstone_exact_dial w peer id) as [w1 out1].
  rewrite IH. done.
Qed.

(** What an established event does to the ledger. *)
Lemma established_lan w open peer c endpoint conns :
  lan_serve_conns w = Some conns ->
  let w' := (on_connection_established w open peer c endpoint).1 in
  (lan_serve_conns w' = Some (lan_record conns peer c) /\
   multiaddr_lan_provenance (get_remote_address endpoint) = true /\
   (pending_exact_dials w !! c = None \/
    exists rel, pending_exact_dials w !! c = Some (ActiveDial peer rel) /\
      connection_route_allowed (connection_route endpoint) rel = true)) \/
  (lan_serve_conns w' = Some conns /\
   (multiaddr_lan_provenance (get_remote_address endpoint) = false \/ is_Some (pending_exact_dials w !! c))).
Proof.
  intros Hc. unfold on_connection_established, apply_connection_established. rewrite Hc.
  destruct (pending_exact_dials w !! c) as [[q rel|q]|] eqn:Ep; cbn.
  - destruct (bool_decide (q <> peer)) eqn:Eq; cbn; [by right; eauto|].
    destruct (connection_route_allowed (connection_route endpoint) rel) eqn:Er; cbn; [|by right; eauto].
    destruct (bool_decide (c ∈ open)); cbn; [|by right; eauto].
    destruct (multiaddr_lan_provenance _); [left|by right; eauto]. split_and!; [done..|]. right. exists rel.
    apply bool_decide_eq_false in Eq. destruct (decide (q = peer)) as [->|]; done.
  - by right; eauto.
  - destruct (multiaddr_lan_provenance _); [left; eauto|right; eauto].
Qed.

Lemma lan_inv_established s peer c endpoint :
  c ∉ sys_established s -> c ∉ sys_failed s -> inv s -> lan_inv s ->
  lan_inv {| sys_worker := (on_connection_established (sys_worker s) (sys_open s) peer c endpoint).1;
         sys_open := sys_open s; sys_dialed := sys_dialed s;
         sys_established := {[c]} ∪ sys_established s; sys_failed := sys_failed s;
         sys_cancelled := sys_cancelled s;
         sys_endpoint := <[c := (peer, endpoint)]> (sys_endpoint s); sys_closed := sys_closed s |}.
Proof.
  intros Hne Hnf Hi [[conns Hc] Hee Hp Hce Hs Hco].
  assert (forall p, permitted s p c = false) as Hfresh.
  { intros p. destruct (permitted s p c) eqn:E; [|done]. destruct (Hs _ _ E) as (e & He & _).
    destruct Hne. apply Hee. eauto. }
  assert (c ∉ sys_closed s) as Hncl by eauto.
  pose proof (established_lan (sys_worker s) (sys_open s) peer c endpoint conns Hc) as Hl.
  split; cbn [sys_worker sys_open sys_dialed sys_established sys_failed sys_cancelled sys_endpoint sys_closed].
  - destruct Hl as [[-> _]|[-> _]]; eauto.
  - intros c'. rewrite elem_of_union, elem_of_singleton, Hee. destruct (decide (c' = c)) as [->|]; simplify_map_eq.
    + split; eauto.
    + tauto.
  - intros c'. rewrite established_pending. destruct (decide _); [by intros []|]. apply Hp.
  - intros c' Hin. apply elem_of_union_r. by apply Hce.
  - intros p c' Hper. destruct (decide (c' = c)) as [->|Hcc].
    + destruct Hl as [(Hl & Hlan & Hwhy)|[Hl _]]; rewrite Hl in Hper.
      2:{ rewrite <-Hc in Hper. congruence. }
      rewrite permitted_record, <-Hc, Hfresh, orb_false_r in Hper. apply bool_decide_eq_true in Hper as [-> _].
      exists endpoint. rewrite lookup_insert_eq. split_and!; [done..|]. intros q rel Hd.
      destruct Hwhy as [Hnone|(rel' & Hact & Hall)].
      * destruct (inv_pending _ Hi c) as [? Hx]; [eauto|done|done|congruence].
      * destruct (inv_active _ Hi _ _ _ Hact) as [Hd' _]. rewrite Hd in Hd'. by injection Hd' as -> ->.
    + rewrite lookup_insert_ne by done. apply Hs. rewrite Hc. destruct Hl as [(Hl & _)|[Hl _]]; rewrite Hl in Hper; [|done].
      rewrite permitted_record in Hper. rewrite bool_decide_false in Hper by (by intros [_ ->]). done.
  - intros p c' e Hend Hcl Hnd Hlan. destruct (decide (c' = c)) as [->|Hcc].
    + rewrite lookup_insert_eq in Hend. injection Hend as <- <-.
      destruct Hl as [(Hl & _)|[Hl [Hx|Hx]]]; rewrite Hl; [|congruence|].
      * rewrite permitted_record. by rewrite bool_decide_true.
      * apply Hp in Hx as [? Hx]. congruence.
    + rewrite lookup_insert_ne in Hend by done. pose proof (Hco _ _ _ Hend Hcl Hnd Hlan) as Hper.
      rewrite Hc in Hper. destruct Hl as [(Hl & _)|[Hl _]]; rewrite Hl; [|done].
      by rewrite permitted_record, Hper, orb_true_r.
Qed.

Lemma lan_inv_closed s peer c endpoint :
  sys_endpoint s !! c = Some (peer, endpoint) -> lan_inv s ->
  lan_inv (with_closed s (on_connection_closed (sys_worker s) peer c).1 c).
Proof.
  intros He [[conns Hc] Hee Hp Hce Hs Hco]. split; cbn; rewrite ?Hc; cbn.
  - eauto.
  - done.
  - intros c'. rewrite lookup_delete_is_Some. intros [_ ?]. by apply Hp.
  - intros c' [->%elem_of_singleton|Hin]%elem_of_union; [apply Hee; eauto|by apply Hce].
  - intros p c'. fold (lan_serve_permitted (Some (lan_retire conns peer c)) p c').
    rewrite permitted_retire, andb_true_iff, negb_true_iff, bool_decide_eq_false, <-Hc. intros [Hne Hper].
    destruct (Hs _ _ Hper) as (e & Hend & ? & ? & ?). exists e. split_and!; [done..| |done].
    assert (c' <> c); [|set_solver]. intros ->. apply Hne. rewrite He in Hend. by injection Hend as ->.
  - intros p c' e Hend Hcl Hnd Hlan. fold (lan_serve_permitted (Some (lan_retire conns peer c)) p c').
    rewrite permitted_retire, <-Hc, (Hco p c' e) by (done || set_solver).
    rewrite bool_decide_false; [done|]. intros [_ ->]. set_solver.
Qed.

Lemma lan_inv_step s s' : step s s' -> inv s -> lan_inv s -> lan_inv s'.
Proof.
  intros Hstep Hi Hl. pose proof Hl as [_ Hee Hp _ _ _].
  destruct Hstep as [s peer rel c waiting dok Hd Hne|s c|s peer c _ _ Hest|s|s peer c endpoint|s c|s peer c endpoint].
  - apply (lan_inv_frame s); try done; cbn.
    + unfold on_dial_exact. by repeat case_match.
    + intros c'. unfold on_dial_exact, dial_taken. destruct (decide (size (pending_exact_dials (sys_worker s)) < MAX_PENDING_EXACT_DIALS)).
      * rewrite bool_decide_false, bool_decide_true by lia. destruct dok; cbn.
        -- destruct (decide (c' = c)) as [->|]; simplify_map_eq; [eauto|apply Hp].
        -- rewrite delete_insert_eq, lookup_delete_is_Some. intros [_ ?]. by apply Hp.
      * rewrite bool_decide_true, bool_decide_false by lia. apply Hp.
    + intros c' Hin. assert (c' <> c) by (by intros ->). destruct (dial_taken _ _); [by rewrite lookup_insert_ne|done].
  - by apply (lan_inv_frame s).
  - apply (lan_inv_frame s); try done; cbn; [apply tombstone_lan|].
    intros c'. unfold tombstone_exact_dial, apply_exact_dial_cancel.
    destruct (pending_exact_dials (sys_worker s) !! c) as [e|] eqn:Ep; cbn.
    + destruct (decide (c' = c)) as [->|]; simplify_map_eq; [|apply Hp]. intros _. apply Hp. eauto.
    + pose proof (remove_route_flag (conn_routes (sys_worker s)) peer c) as Hflag.
      destruct (remove_connection_route _ _ _) as [rs []]; cbn in *; [|apply Hp].
      symmetry in Hflag. apply bool_decide_eq_true in Hflag as [r Hrt].
      destruct (inv_routes _ Hi _ _ _ Hrt) as (He & _).
      destruct (decide (c' = c)) as [->|]; simplify_map_eq; [intros _; by apply Hest|apply Hp].
  - apply (lan_inv_frame s); try done; cbn; [apply sweep_lan|].
    destruct (sweep_fold (abandoned_exact_dials (sys_worker s) (sys_open s)) (sys_worker s) []) as [_ Hps].
    { apply Forall_forall. intros x Hx. destruct (elem_of_abandoned _ _ _ Hx) as (? & -> & _). eauto. }
    intros c. unfold tombstone_abandoned_exact_dials. rewrite Hps.
    destruct (decide _); [rewrite fmap_is_Some|]; apply Hp.
  - by apply lan_inv_established.
  - apply (lan_inv_frame s); try done; cbn. intros c'. rewrite lookup_delete_is_Some. intros [_ ?]. by apply Hp.
  - by apply (lan_inv_closed s peer c endpoint).
Qed.

Lemma lan_inv_steps s s' : rtc step s s' -> inv s -> lan_inv s -> lan_inv s'.
Proof. induction 1; eauto using inv_step, lan_inv_step. Qed.

(** ** Properties *)

(** C8: Exact-dial authority: in every reachable state, a live route whose
    connection came from an exact dial reaches the peer that dial named, over
    a route its offer permits, and was not cancelled. *)
Theorem routes_authorized confined s p c r q relays :
  rtc step (System_init confined) s ->
  route_at (conn_routes (sys_worker s)) p c = Some r ->
  sys_dialed s !! c = Some (q, relays) ->
  p = q /\ connection_route_allowed r relays = true /\ c ∉ sys_cancelled s.
Proof.
  intros Hr Hrt Hd. destruct (inv_routes _ (inv_reachable _ _ Hr) _ _ _ Hrt) as (_ & Hc & Hauth).
  destruct (Hauth _ _ Hd). done.
Qed.

(** Cancellation is final: once a dial's cancel notice or the sweep has
    been processed, no later state has a route for its connection, so it can
    never be selected, whatever libp2p reports afterwards. *)
Theorem cancelled_never_selectable confined s s' c p relays chosen :
  rtc step (System_init confined) s -> c ∈ sys_cancelled s -> rtc step s s' ->
  route_at (conn_routes (sys_worker s')) p c = None /\
  (select_authorized_connection (conn_routes (sys_worker s') !! p) relays = Some chosen -> ac_id chosen <> c).
Proof.
  intros Hr Hc Hs.
  assert (route_at (conn_routes (sys_worker s')) p c = None) as Hnone.
  { destruct (route_at _ p c) eqn:E; [|done]. exfalso.
    assert (inv s') as Hi by (eapply inv_steps, inv_reachable; eauto).
    destruct (inv_routes _ Hi _ _ _ E) as (_ & Hnc & _). by apply Hnc, (cancelled_steps s). }
  split; [done|]. unfold select_authorized_connection.
  destruct (conn_routes (sys_worker s') !! p) as [m|] eqn:Em; [|done]. cbn [mbind option_bind].
  intros Hsel <-.
  assert (exists r, m !! ac_id chosen = Some r) as [r Hm].
  { destruct (min_connection_spec (List.filter (fun x => bool_decide (x.2 = Direct)) (map_to_list m)))
      as [[Hd _]|(x & Hd & Hx & _)]; rewrite Hd in Hsel.
    - destruct (min_connection_spec (List.filter (fun x => connection_route_allowed x.2 relays)
        (map_to_list m))) as [[Hn _]|(x & Hn & Hx & _)]; rewrite Hn in Hsel; [done|].
      injection Hsel as <-. apply elem_of_routes_filter in Hx as [? _]. eauto.
    - injection Hsel as <-. apply elem_of_routes_filter in Hx as [? _]. eauto. }
  unfold route_at in Hnone. rewrite Em in Hnone. simpl in Hnone. congruence.
Qed.

(** Selection is the documented preference: a direct route wins over any
    relayed one, a relayed one is chosen only if its relay is permitted, the
    lowest connection id of the preferred class is taken, and nothing is
    selected exactly when no live route is direct or permitted. *)
Theorem selection_prefers_direct m relays :
  match select_authorized_connection (Some m) relays with
  | Some c => m !! ac_id c = Some (ac_route c) /\
      ((ac_route c = Direct /\ forall i, m !! i = Some Direct -> ac_id c <= i) \/
       (connection_route_allowed (ac_route c) relays = true /\ (forall i, m !! i <> Some Direct) /\
        forall i r, m !! i = Some r -> connection_route_allowed r relays = true -> ac_id c <= i))
  | None => forall i r, m !! i = Some r -> connection_route_allowed r relays = false
  end.
Proof.
  unfold select_authorized_connection. cbn [mbind option_bind].
  destruct (min_connection_spec (List.filter (fun x => bool_decide (x.2 = Direct)) (map_to_list m)))
    as [[-> Hno]|(x & -> & Hx & Hmin)].
  - assert (forall i, m !! i <> Some Direct) as Hnd.
    { intros i Hi. apply (not_elem_of_nil (i, Direct)). rewrite <-Hno.
      apply elem_of_routes_filter. split; [done|]. by apply bool_decide_true. }
    destruct (min_connection_spec (List.filter (fun x => connection_route_allowed x.2 relays)
      (map_to_list m))) as [[-> Hnone]|(x & -> & Hx & Hmin)]; simpl.
    + intros i r Hi. destruct (connection_route_allowed r relays) eqn:E; [|done]. exfalso.
      apply (not_elem_of_nil (i, r)). rewrite <-Hnone. by apply elem_of_routes_filter.
    + apply elem_of_routes_filter in Hx as [Hm Ha]. split; [done|]. right. split_and!; [done..|].
      intros i r Hi Hr. apply (Hmin (i, r)). by apply elem_of_routes_filter.
  - simpl. apply elem_of_routes_filter in Hx as [Hm Hd]. apply bool_decide_eq_true in Hd.
    split; [done|]. left. split; [done|]. intros i Hi. apply (Hmin (i, Direct)).
    apply elem_of_routes_filter. split; [done|]. by apply bool_decide_true.
Qed.

(** The dial table is bounded: in every reachable state at most 64 of its
    entries are attempts still in flight; any further entry is the tombstone
    of an established connection that is being closed. *)
Theorem pending_dials_bounded confined s :
  rtc step (System_init confined) s ->
  size (unsettled s) <= MAX_PENDING_EXACT_DIALS /\
  (forall c e, pending_exact_dials (sys_worker s) !! c = Some e -> c ∉ unsettled s ->
     c ∈ sys_established s /\ exists p, e = Tombstone p).
Proof.
  intros Hr. pose proof (inv_reachable _ _ Hr) as Hi. split.
  - eapply unsettled_reachable; [done|apply inv_init|]. by vm_compute; lia.
  - intros c e He Hc. unfold unsettled in Hc.
    assert (c ∈ sys_established s) as Hest.
    { apply elem_of_dom_2 in He. destruct (decide (c ∈ sys_established s)); [done|set_solver]. }
    split; [done|]. destruct e as [q rel|q]; [|eauto].
    by destruct (inv_active _ Hi _ _ _ He).
Qed.

(** C28: LAN confinement of serving: on a confined node the accept loop hands a
    stream to a serve task only if it arrived on a live connection that was
    established with that very peer at a LAN address and, if it came from an
    exact dial, is one the dial authorized.  A stream on a live LAN connection
    that was not an exact dial always passes the LAN gate: it is handed to a
    serve task, unless the ceiling on concurrent serves is reached, and then it
    is declined for that reason. *)
Theorem lan_serve_exact s gate p c :
  rtc step (System_init true) s ->
  let fate := (accept_stream (lan_serve_conns (sys_worker s)) gate p c).2 in
  (forall permit, fate = ServeSpawned permit -> gate_full gate = false /\ exists e, sys_endpoint s !! c = Some (p, e) /\
     multiaddr_lan_provenance (get_remote_address e) = true /\ c ∉ sys_closed s /\
     (forall q rel, sys_dialed s !! c = Some (q, rel) ->
        p = q /\ connection_route_allowed (connection_route e) rel = true)) /\
  (forall e, sys_endpoint s !! c = Some (p, e) -> c ∉ sys_closed s -> sys_dialed s !! c = None ->
     multiaddr_lan_provenance (get_remote_address e) = true ->
     if gate_full gate then fate = DeclinedFull else exists permit, fate = ServeSpawned permit).
Proof.
  intros Hr fate. assert (lan_inv s) as Hl by (eapply lan_inv_steps; eauto using inv_init, lan_inv_init). split.
  - intros permit Hf. destruct (proj1 (accept_stream_spawns (lan_serve_conns (sys_worker s)) gate p c)) as [Hp Hg]; [by exists permit|].
    split; [done|]. by apply (lan_sound _ Hl).
  - intros e He Hc Hd Hlan. pose proof (lan_complete _ Hl p c e He Hc Hd Hlan) as Hp.
    destruct (gate_full gate) eqn:Hg; [by apply accept_stream_declines|by apply accept_stream_spawns].
Qed.

End dials.

(** ** Witnesses *)

(** Peers are naturals; a confined node dials peer 5 through relay 9 at a LAN
    address, the connection is established, then its waiter is dropped and the
    cancel notice processed. *)
Definition sample_endpoint : @ConnectedPoint nat := Dialer [Ip4 private_v4; Tcp 1; P2p 9; P2pCircuit].
Definition sample_relayed (e : @ConnectedPoint nat) : bool :=
  is_circuit_address (match e with Dialer a => a | Listener a _ => a end).
Definition sample_remote (e : @ConnectedPoint nat) : list (@Protocol nat) :=
  match e with Dialer a => a | Listener _ a => a end.
Abbreviation sample_step := (step sample_relayed sample_remote).

Definition sample_live : @System nat _ _ :=
  {| sys_worker := {| pending_exact_dials := ∅; conn_routes := {[5 := {[1 := Relayed 9]}]};
                      lan_serve_conns := Some ∅ |};
     sys_open := {[1]}; sys_dialed := {[1 := (5, {[9]})]}; sys_established := {[1]}; sys_failed := ∅;
     sys_cancelled := ∅; sys_endpoint := {[1 := (5, sample_endpoint)]}; sys_closed := ∅ |}.

Definition sample_cancelled : @System nat _ _ :=
  {| sys_worker := {| pending_exact_dials := {[1 := Tombstone 5]}; conn_routes := ∅;
                      lan_serve_conns := Some ∅ |};
     sys_open := ∅; sys_dialed := {[1 := (5, {[9]})]}; sys_established := {[1]}; sys_failed := ∅;
     sys_cancelled := {[1]}; sys_endpoint := {[1 := (5, sample_endpoint)]}; sys_closed := ∅ |}.

Lemma sample_live_reachable : rtc sample_step (System_init true) sample_live.
Proof.
  eapply rtc_l; [apply (step_dial _ _ (System_init true) 5 {[9]} 1 true true); set_solver|].
  eapply rtc_l; [eapply (step_established _ _ _ 5 1 sample_endpoint); simpl; set_solver|].
  vm_compute. apply rtc_refl.
Qed.

Lemma sample_cancelled_reachable : rtc sample_step sample_live sample_cancelled.
Proof.
  eapply rtc_l; [apply (step_drop _ _ sample_live 1)|].
  eapply rtc_l; [eapply (step_cancel _ _ _ 5 1); simpl|].
  - set_solver.
  - intros q rel Hd. vm_compute in Hd. injection Hd as <- _. reflexivity.
  - intros _. vm_compute. eauto.
  - vm_compute. apply rtc_refl.
Qed.

Lemma routes_authorized_witness : connection_route_allowed (Relayed 9) {[9]} = true.
Proof.
  apply (routes_authorized sample_relayed sample_remote true sample_live 5 1 (Relayed 9) 5 {[9]});
    [apply sample_live_reachable|reflexivity|reflexivity].
Defined.

Lemma cancelled_never_selectable_witness :
  route_at (conn_routes (sys_worker sample_cancelled)) 5 1 = None.
Proof.
  apply (cancelled_never_selectable sample_relayed sample_remote true sample_cancelled sample_cancelled 1 5 {[9]}
    {| ac_id := 1; ac_route := Relayed 9 |}).
  - etransitivity; [apply sample_live_reachable|apply sample_cancelled_reachable].
  - simpl. set_solver.
  - apply rtc_refl.
Defined.

Lemma pending_dials_bounded_witness : size (unsettled sample_cancelled) <= MAX_PENDING_EXACT_DIALS.
Proof.
  apply (pending_dials_bounded sample_relayed sample_remote true sample_cancelled).
  etransitivity; [apply sample_live_reachable|apply sample_cancelled_reachable].
Defined.

(** An inbound LAN connection of peer 4 under a ceiling of two serves: served
    while one is in flight, declined while two are. *)
Definition sample_inbound : @ConnectedPoint nat := Listener [Ip4 private_v4; Tcp 1] [Ip4 private_v4; Tcp 2].
Definition sample_gate (held : Z) : ServeGate :=
  {| max_concurrent_serves := Some 2%Z; inflight_serves := held; declined_concurrency := 0 |}.
Definition sample_inbound_live : @System nat _ _ :=
  {| sys_worker := (on_connection_established sample_relayed sample_remote
       (sys_worker (System_init true)) ∅ 4 3 sample_inbound).1;
     sys_open := ∅; sys_dialed := ∅; sys_established := {[3]} ∪ ∅; sys_failed := ∅; sys_cancelled := ∅;
     sys_endpoint := <[3 := (4, sample_inbound)]> ∅; sys_closed := ∅ |}.

Lemma lan_serve_exact_witness :
  (exists permit, (accept_stream (lan_serve_conns (sys_worker sample_inbound_live)) (Some (sample_gate 1)) 4 3).2 = ServeSpawned permit) /\
  (accept_stream (lan_serve_conns (sys_worker sample_inbound_live)) (Some (sample_gate 2)) 4 3).2 = DeclinedFull.
Proof.
  assert (rtc sample_step (System_init true) sample_inbound_live) as Hr.
  { apply rtc_once. apply (step_established _ _ (System_init true) 4 3 sample_inbound); cbn; set_solver. }
  assert (3 ∉ sys_closed sample_inbound_live) as Hc by (cbn; set_solver).
  split.
  - exact (proj2 (lan_serve_exact sample_relayed sample_remote sample_inbound_live (Some (sample_gate 1)) 4 3 Hr)
      sample_inbound eq_refl Hc eq_refl eq_refl).
  - exact (proj2 (lan_serve_exact sample_relayed sample_remote sample_inbound_live (Some (sample_gate 2)) 4 3 Hr)
      sample_inbound eq_refl Hc eq_refl eq_refl).
Defined.
