(* ===== verification/Resolve.v ===== *)
(** * Batch resolution and the plan executor

    Models peer-fabric/src/resolve.rs (typed per-key outcomes, the request
    binding, the per-key accumulator, the one finalizer, execution plans and the
    mechanism registry) and the directory seam of
    peer-fabric/src/capabilities.rs ([find_providers_bound], the default
    [resolve_batch]).

    Time and the mechanisms are inputs: the clock readings `start.elapsed()`
    are a function of the loop index, and a consultation under
    `tokio::time::timeout` answers [Some] reply or [None] (cut).  The theorems
    hold for every such input: an authoritative Miss needs every planned
    mechanism to have missed, `Completed` needs every key authoritative and no
    failure observed, and a Found names only holders of the key asked. *)

From Stdlib Require Import Strings.Byte ZArith Lia.
From stdpp Require Import base sets gmap numbers strings list.
From S2P Require Import Prelude Text Ids RecordCodec Outcome.

(** ** Requests and per-key outcomes *)

Record BatchResolveRequest := mkRequest { req_keys : list ContentKey }.

Definition request_single (key : ContentKey) : BatchResolveRequest := mkRequest [key].

Inductive KeyResolution :=
| KFound (records : list ProviderRecord)
| KMiss
| KUnavailable (why : Unavailable)
| NotAttempted.

Definition holders (r : KeyResolution) : option (list ProviderRecord) :=
  match r with KFound records => Some records | _ => None end.

Definition is_authoritative (r : KeyResolution) : bool :=
  match r with KFound _ | KMiss => true | _ => false end.

Definition wrong_key_answer : Unavailable :=
  Backend (str "directory returned holders for un-asked key(s) only (wrong-key answer)").
Definition empty_found_answer : Unavailable :=
  Backend (str "directory returned an empty Found (Found is never empty)").

(** resolve.rs [classify_lookup] *)
Definition classify_lookup (key : ContentKey) (answer : Lookup (list ProviderRecord)) : KeyResolution :=
  match answer with
  | Found records =>
      let had_records := match records with [] => false | _ => true end in
      match filter (fun r => pr_key r = key) records with
      | [] => if had_records then KUnavailable wrong_key_answer else KUnavailable empty_found_answer
      | bound => KFound bound
      end
  | Miss => KMiss
  | LookupUnavailable why => KUnavailable why
  end.

(** capabilities.rs [find_providers_bound]; [answer] is what the directory
    returned for the key. *)
Definition find_providers_bound (key : ContentKey) (answer : Lookup (list ProviderRecord))
    : Lookup (list ProviderRecord) :=
  match classify_lookup key answer with
  | KFound bound => Found bound
  | KMiss => Miss
  | KUnavailable why => LookupUnavailable why
  | NotAttempted => LookupUnavailable
      (Backend (str "classify_lookup produced an unexpected NotAttempted on the direct path"))
  end.

(** ** Measurement *)

Inductive ControlBytes := Measured (n : Z) | NotInstrumented.
Inductive ResourceOutcome := Completed | DeadlineCut | MechanismDown.

Record MechanismMeasurement := {
  observed_latency_ns : Z;
  control_bytes : ControlBytes;
  resource : ResourceOutcome;
}.

(** ** Batch resolutions *)

Inductive BatchBindError :=
| LengthMismatch (asked answered : nat)
| FoundUnaskedKey (index : nat)
| EmptyFound (index : nat).

Record BatchResolution := { br_outcomes : list KeyResolution; br_measurement : MechanismMeasurement }.

(** The loop of [for_request]. *)
Fixpoint bind_outcomes (index : nat) (pairs : list (ContentKey * KeyResolution))
    : result BatchBindError unit :=
  match pairs with
  | [] => Ok tt
  | (key, outcome) :: rest =>
      _ ← match outcome with
          | KFound records =>
              _ ← reject_if (match records with [] => true | _ => false end) (EmptyFound index);
              reject_if (existsb (fun r => bool_decide (pr_key r <> key)) records) (FoundUnaskedKey index)
          | _ => Ok tt
          end;
      bind_outcomes (S index) rest
  end.

Definition for_request (request : BatchResolveRequest) (outcomes : list KeyResolution)
    (measurement : MechanismMeasurement) : result BatchBindError BatchResolution :=
  _ ← reject_if (negb (length outcomes =? length (req_keys request)))
        (LengthMismatch (length (req_keys request)) (length outcomes));
  _ ← bind_outcomes 0 (zip (req_keys request) outcomes);
  Ok {| br_outcomes := outcomes; br_measurement := measurement |}.

(** [BatchMisalignment] is the pair (asked, answered). *)
Definition aligned_with (b : BatchResolution) (request : BatchResolveRequest)
    : result (nat * nat) (list (ContentKey * KeyResolution)) :=
  if negb (length (br_outcomes b) =? length (req_keys request))
  then Err (length (req_keys request), length (br_outcomes b))
  else Ok (zip (req_keys request) (br_outcomes b)).

Definition is_complete (b : BatchResolution) : bool := forallb is_authoritative (br_outcomes b).
Definition is_partial (b : BatchResolution) : bool := negb (is_complete b).

(** ** The per-key accumulator *)

Record KeyAcc := {
  acc_found : option (list ProviderRecord);
  acc_unavailable : option Unavailable;
  acc_saw_miss : bool;
  acc_saw_not_authoritative : bool;
}.

Definition KeyAcc_default : KeyAcc :=
  {| acc_found := None; acc_unavailable := None; acc_saw_miss := false;
     acc_saw_not_authoritative := false |}.

Definition acc_is_found (a : KeyAcc) : bool := bool_decide (is_Some (acc_found a)).

Definition note_unavailable (a : KeyAcc) (why : Unavailable) : KeyAcc :=
  {| acc_found := acc_found a;
     acc_unavailable := match acc_unavailable a with Some w => Some w | None => Some why end;
     acc_saw_miss := acc_saw_miss a; acc_saw_not_authoritative := acc_saw_not_authoritative a |}.

Definition note (a : KeyAcc) (outcome : KeyResolution) : KeyAcc :=
  match outcome with
  | KFound records =>
      {| acc_found := match acc_found a with Some r => Some r | None => Some records end;
         acc_unavailable := acc_unavailable a; acc_saw_miss := acc_saw_miss a;
         acc_saw_not_authoritative := acc_saw_not_authoritative a |}
  | KUnavailable why => note_unavailable a why
  | KMiss => {| acc_found := acc_found a; acc_unavailable := acc_unavailable a;
                acc_saw_miss := true; acc_saw_not_authoritative := acc_saw_not_authoritative a |}
  | NotAttempted => {| acc_found := acc_found a; acc_unavailable := acc_unavailable a;
                acc_saw_miss := acc_saw_miss a; acc_saw_not_authoritative := true |}
  end.

Definition saw_non_authoritative_observation (a : KeyAcc) : bool :=
  bool_decide (is_Some (acc_unavailable a)) || acc_saw_not_authoritative a.

Definition finalize (a : KeyAcc) : KeyResolution :=
  match acc_found a with
  | Some records => KFound records
  | None =>
      match acc_unavailable a with
      | Some why => KUnavailable why
      | None => if acc_saw_not_authoritative a then NotAttempted
                else if acc_saw_miss a then KMiss else NotAttempted
      end
  end.

(** resolve.rs [finalize_batch] *)
Definition finalize_batch (acc : list KeyAcc) (deadline_cut : bool) (latency_ns : Z)
    (control : ControlBytes) : BatchResolution :=
  let outcomes := finalize <$> acc in
  {| br_outcomes := outcomes;
     br_measurement := {| observed_latency_ns := latency_ns; control_bytes := control;
       resource := if deadline_cut then DeadlineCut
                   else if existsb saw_non_authoritative_observation acc then MechanismDown
                   else if forallb is_authoritative outcomes then Completed
                   else MechanismDown |} |}.

(** `u64::try_from(elapsed.as_nanos()).unwrap_or(u64::MAX)` *)
Definition latency_u64 (ns : Z) : Z := Z.min ns u64_max.

(** ** The default [resolve_batch] *)

Section batch.
(** [elapsed i]: the clock when key [i] is reached; [ask i]: the raw answer for
    key [i], [None] when the outer timeout fired. *)
Variable deadline : Z.
Variable elapsed : nat -> Z.
Variable ask : nat -> option (Lookup (list ProviderRecord)).

Fixpoint resolve_batch_loop (i : nat) (keys : list ContentKey) (cut : bool) : list KeyAcc * bool :=
  match keys with
  | [] => ([], cut)
  | key :: rest =>
      let '(outcome, cut) :=
        if cut then (NotAttempted, true)
        else if (deadline <=? elapsed i)%Z then (NotAttempted, true)
        else match ask i with
             | Some answer => (classify_lookup key answer, false)
             | None => (KUnavailable DeadlineExceeded, true)
             end in
      let '(accs, cut) := resolve_batch_loop (S i) rest cut in
      (note KeyAcc_default outcome :: accs, cut)
  end.

(** ProviderDirectory::resolve_batch; [final] is the clock at the end. *)
Definition resolve_batch (request : BatchResolveRequest) (final : Z) : BatchResolution :=
  let '(acc, cut) := resolve_batch_loop 0 (req_keys request) false in
  finalize_batch acc cut (latency_u64 final) NotInstrumented.

End batch.

(** ** Execution plans *)

Inductive MechanismId := GlobalDirectory | DirectHoldQuery | LanDiscovery | TrackerMechanism | InProcess.

#[export] Instance MechanismId_eq_dec : EqDecision MechanismId.
Proof. solve_decision. Defined.

Definition MechanismId_to_string (m : MechanismId) : list byte :=
  match m with
  | GlobalDirectory => str "global_directory"
  | DirectHoldQuery => str "direct_hold_query"
  | LanDiscovery => str "lan_discovery"
  | TrackerMechanism => str "tracker"
  | InProcess => str "in_process"
  end.

Inductive MechanismOrder := AsRegistered | Explicit (ids : list MechanismId).
Inductive Parallelism := Sequential | BoundedFanout (max_concurrent : Z).
Inductive StopCondition := FirstHolder | AllMechanisms.
Inductive PlanProvenance := NamedBaseline | HoldoutSelected.

#[export] Instance Parallelism_eq_dec : EqDecision Parallelism.
Proof. solve_decision. Defined.

Record ExecutionPlanVersion := { schema : list byte; version : Z }.

Record ExecutionPlan := {
  plan_version : ExecutionPlanVersion;
  plan_order : MechanismOrder;
  plan_parallelism : Parallelism;
  plan_stop : StopCondition;
  plan_provenance : PlanProvenance;
}.

Definition fixed_baseline_v1 : ExecutionPlan :=
  {| plan_version := {| schema := str "nix-p2p/resolver-plan"; version := 1 |};
     plan_order := AsRegistered; plan_parallelism := Sequential; plan_stop := FirstHolder;
     plan_provenance := NamedBaseline |}.

Definition with_explicit_order (order : list MechanismId) : ExecutionPlan :=
  {| plan_version := plan_version fixed_baseline_v1; plan_order := Explicit order;
     plan_parallelism := plan_parallelism fixed_baseline_v1; plan_stop := plan_stop fixed_baseline_v1;
     plan_provenance := plan_provenance fixed_baseline_v1 |}.

Definition with_parallelism (p : ExecutionPlan) (parallelism : Parallelism) : ExecutionPlan :=
  {| plan_version := plan_version p; plan_order := plan_order p; plan_parallelism := parallelism;
     plan_stop := plan_stop p; plan_provenance := plan_provenance p |}.

Definition with_stop (p : ExecutionPlan) (stop : StopCondition) : ExecutionPlan :=
  {| plan_version := plan_version p; plan_order := plan_order p; plan_parallelism := plan_parallelism p;
     plan_stop := stop; plan_provenance := plan_provenance p |}.

Inductive PlanExecError :=
| UnsupportedParallelism (p : Parallelism)
| UnknownMechanism (id : MechanismId).

(** ** The mechanism registry *)

Section registry.
Context {M : Type}.

Abbreviation Registry := (list (MechanismId * M)).

Definition find_mechanism (reg : Registry) (id : MechanismId) : option M :=
  snd <$> List.find (fun x => bool_decide (x.1 = id)) reg.

(** MechanismRegistry::ordered, with the unknown ids it warns about. *)
Definition ordered (reg : Registry) (plan : ExecutionPlan) : list M * list MechanismId :=
  match plan_order plan with
  | AsRegistered => (reg.*2, [])
  | Explicit ids =>
      foldl (fun '(ms, warnings) id =>
        match find_mechanism reg id with
        | Some m => (ms ++ [m], warnings)
        | None => (ms, warnings ++ [id])
        end) ([], []) ids
  end.

(** The positions still to be asked about. *)
Definition pending_positions (stop : StopCondition) (acc : list KeyAcc) : list nat :=
  match stop with
  | FirstHolder => filter (fun i => acc_is_found <$> acc !! i = Some false) (seq 0 (length acc))
  | AllMechanisms => seq 0 (length acc)
  end.

(** `for (pos, &i) in pending.iter().enumerate() { acc[i].note(..) }` *)
Definition note_all (acc : list KeyAcc) (pairs : list (nat * KeyResolution)) : list KeyAcc :=
  foldl (fun acc '(i, o) => alter (fun a => note a o) i acc) acc pairs.

Definition note_unavailable_all (acc : list KeyAcc) (positions : list nat) (why : Unavailable)
    : list KeyAcc :=
  foldl (fun acc i => alter (fun a => note_unavailable a why) i acc) acc positions.

Definition misaligned : Unavailable := Backend (str "misaligned batch reply").

Definition unregistered (id : MechanismId) : Unavailable :=
  Backend (str "planned mechanism " ++ MechanismId_to_string id
           ++ str " is not registered, so it could not be consulted").

(** [elapsed i]: the clock before mechanism [i] is consulted; [consult i m r]:
    its reply to request [r], [None] when the outer timeout cut it. *)
Variable deadline : Z.
Variable elapsed : nat -> Z.
Variable consult : nat -> M -> BatchResolveRequest -> option BatchResolution.

Definition sub_request (request : BatchResolveRequest) (pending : list nat) : BatchResolveRequest :=
  mkRequest (omap (fun i => req_keys request !! i) pending).

Fixpoint registry_loop (request : BatchResolveRequest) (stop : StopCondition) (index : nat)
    (ms : list M) (acc : list KeyAcc) : list KeyAcc * bool :=
  match ms with
  | [] => (acc, false)
  | m :: rest =>
      let pending := pending_positions stop acc in
      match pending with
      | [] => (acc, false)
      | _ :: _ =>
          if (deadline <=? elapsed index)%Z then (acc, true)
          else
            match consult index m (sub_request request pending) with
            | None => (acc, true)
            | Some resolution =>
                let acc :=
                  if negb (length (br_outcomes resolution) =? length pending)
                  then note_unavailable_all acc pending misaligned
                  else note_all acc (zip pending (br_outcomes resolution)) in
                registry_loop request stop (S index) rest acc
            end
      end
  end.

(** MechanismRegistry::resolve; [final] is the clock at the end. *)
Definition registry_resolve (reg : Registry) (request : BatchResolveRequest) (plan : ExecutionPlan)
    (final : Z) : result PlanExecError BatchResolution :=
  if bool_decide (plan_parallelism plan <> Sequential)
  then Err (UnsupportedParallelism (plan_parallelism plan))
  else
    let '(ms, warnings) := ordered reg plan in
    let '(acc, deadline_cut) := registry_loop request (plan_stop plan) 0 ms
      (replicate (length (req_keys request)) KeyAcc_default) in
    let acc := foldl (fun acc id => (fun a => note_unavailable a (unregistered id)) <$> acc) acc warnings in
    let acc := if deadline_cut
      then (fun a => if acc_is_found a then a else note_unavailable a DeadlineExceeded) <$> acc
      else acc in
    Ok (finalize_batch acc deadline_cut (latency_u64 final) NotInstrumented).

(** ** What the registry observed *)

(** The consultations of [registry_loop], in order: the positions asked and the
    reply. *)
Fixpoint registry_trace (request : BatchResolveRequest) (stop : StopCondition) (index : nat)
    (ms : list M) (acc : list KeyAcc) : list (list nat * list KeyResolution) :=
  match ms with
  | [] => []
  | m :: rest =>
      let pending := pending_positions stop acc in
      match pending with
      | [] => []
      | _ :: _ =>
          if (deadline <=? elapsed index)%Z then []
          else
            match consult index m (sub_request request pending) with
            | None => []
            | Some resolution =>
                let acc :=
                  if negb (length (br_outcomes resolution) =? length pending)
                  then note_unavailable_all acc pending misaligned
                  else note_all acc (zip pending (br_outcomes resolution)) in
                (pending, br_outcomes resolution) :: registry_trace request stop (S index) rest acc
            end
      end
  end.

End registry.

(** What one consultation said about position [i]. *)
Definition observation (i : nat) (entry : list nat * list KeyResolution) : option KeyResolution :=
  let '(pending, outcomes) := entry in
  if bool_decide (length outcomes = length pending) then
    snd <$> List.find (fun x => x.1 =? i) (zip pending outcomes)
  else if bool_decide (i ∈ pending) then Some (KUnavailable misaligned) else None.

(** The reference: the first Found wins; else the first failure; else a gap
    leaves the key unattempted; a Miss needs every observation to be one. *)
Definition key_outcome (obs : list KeyResolution) : KeyResolution :=
  match omap holders obs with
  | records :: _ => KFound records
  | [] =>
      match omap (fun o => match o with KUnavailable why => Some why | _ => None end) obs with
      | why :: _ => KUnavailable why
      | [] =>
          match obs with
          | [] => NotAttempted
          | _ => if forallb (fun o => match o with KMiss => true | _ => false end) obs
                 then KMiss else NotAttempted
          end
      end
  end.

(** ** Lemmas on the fold *)

Lemma fold_note_found obs a :
  acc_found (foldl note a obs) =
  match acc_found a with Some r => Some r | None => head (omap holders obs) end.
Proof.
  revert a. induction obs as [|o obs IH]; intros a; cbn [foldl]; [by destruct (acc_found a)|].
  rewrite IH. destruct o; simpl; by destruct (acc_found a).
Qed.

Lemma fold_note_unavailable obs a :
  acc_unavailable (foldl note a obs) =
  match acc_unavailable a with
  | Some w => Some w
  | None => head (omap (fun o => match o with KUnavailable why => Some why | _ => None end) obs)
  end.
Proof.
  revert a. induction obs as [|o obs IH]; intros a; cbn [foldl]; [by destruct (acc_unavailable a)|].
  rewrite IH. destruct o; simpl; by destruct (acc_unavailable a).
Qed.

Lemma fold_note_flags obs a :
  acc_saw_miss (foldl note a obs) =
    acc_saw_miss a || existsb (fun o => match o with KMiss => true | _ => false end) obs /\
  acc_saw_not_authoritative (foldl note a obs) =
    acc_saw_not_authoritative a || existsb (fun o => match o with NotAttempted => true | _ => false end) obs.
Proof.
  revert a. induction obs as [|o obs IH]; intros a; cbn [foldl]; simpl;
    [by rewrite !orb_false_r|].
  destruct (IH (note a o)) as [-> ->]. destruct o; simpl; rewrite ?orb_true_r; simpl; auto.
Qed.

Lemma finalize_fold obs : finalize (foldl note KeyAcc_default obs) = key_outcome obs.
Proof.
  unfold finalize, key_outcome. rewrite fold_note_found, fold_note_unavailable.
  destruct (fold_note_flags obs KeyAcc_default) as [-> ->]. simpl.
  destruct (omap holders obs) as [|r rs] eqn:Ef; [|done]. simpl.
  destruct (omap _ obs) as [|w ws] eqn:Eu in |- *; [|done]. simpl.
  destruct obs as [|o obs]; [done|].
  assert (Forall (fun o => o = KMiss \/ o = NotAttempted) (o :: obs)) as Hall.
  { apply Forall_forall. intros x Hx. destruct x as [records| |why|]; auto; exfalso.
    - apply (not_elem_of_nil records). rewrite <-Ef. apply list_elem_of_omap. by exists (KFound records).
    - apply (not_elem_of_nil why). rewrite <-Eu. apply list_elem_of_omap. by exists (KUnavailable why). }
  apply Forall_cons in Hall as [Ho Hall].
  assert (existsb (fun o => match o with NotAttempted => true | _ => false end) obs
    = negb (forallb (fun o => match o with KMiss => true | _ => false end) obs)) as Hneg.
  { clear Ef Eu. induction Hall as [|x l [->| ->] _ IH]; simpl; auto. }
  destruct Ho as [->| ->]; simpl; [|done]. rewrite Hneg.
  by destruct (forallb _ obs).
Qed.

(** ** Lemmas on the loop *)

Lemma note_all_lookup pairs acc i :
  NoDup pairs.*1 ->
  note_all acc pairs !! i =
  (fun a => match List.find (fun x => x.1 =? i) pairs with Some x => note a x.2 | None => a end)
    <$> acc !! i.
Proof.
  unfold note_all. revert acc. induction pairs as [|[j o] pairs IH]; intros acc Hn; cbn [foldl List.find fst].
  { by destruct (acc !! i). }
  apply NoDup_cons in Hn as [Hj Hn]. rewrite IH by done. destruct (Nat.eqb_spec j i) as [->|Hne].
  - rewrite list_lookup_alter, decide_True by done.
    destruct (List.find (fun x => x.1 =? i) pairs) as [x|] eqn:Ef; [|by destruct (acc !! i)].
    apply List.find_some in Ef as [Hin Hx]. apply Nat.eqb_eq in Hx. exfalso. apply Hj.
    apply list_elem_of_fmap. exists x. split; [done|]. by apply list_elem_of_In.
  - by rewrite list_lookup_alter_ne.
Qed.

Lemma note_unavailable_all_lookup ps acc why i :
  NoDup ps ->
  note_unavailable_all acc ps why !! i =
  (fun a => if bool_decide (i ∈ ps) then note_unavailable a why else a) <$> acc !! i.
Proof.
  unfold note_unavailable_all. revert acc. induction ps as [|j ps IH]; intros acc Hn; cbn [foldl].
  { rewrite bool_decide_false by set_solver. by destruct (acc !! i). }
  apply NoDup_cons in Hn as [Hj Hn]. rewrite IH by done. destruct (decide (j = i)) as [->|Hne].
  - rewrite list_lookup_alter, decide_True by done. rewrite (bool_decide_false (i ∈ ps)) by done.
    rewrite bool_decide_true by set_solver. by destruct (acc !! i).
  - rewrite list_lookup_alter_ne by done. do 2 f_equal.
    destruct (decide (i ∈ ps)); [rewrite !bool_decide_true by set_solver|
      rewrite !bool_decide_false by set_solver]; done.
Qed.

Lemma pending_NoDup stop acc : NoDup (pending_positions stop acc).
Proof. destruct stop; simpl; [apply NoDup_filter|]; apply NoDup_seq. Qed.

Lemma elem_of_pending stop acc i :
  i ∈ pending_positions stop acc <->
  exists a, acc !! i = Some a /\ (stop = FirstHolder -> acc_is_found a = false).
Proof.
  destruct stop; simpl.
  - rewrite list_elem_of_filter, elem_of_seq. split.
    + intros [Hf Hi]. destruct (acc !! i) as [a|]; [|done]. exists a. simpl in Hf. naive_solver.
    + intros (a & Ha & Hf). rewrite Ha. simpl. rewrite Hf by done. split; [done|].
      apply lookup_lt_Some in Ha. lia.
  - rewrite elem_of_seq. split.
    + intros Hi. destruct (lookup_lt_is_Some_2 acc i) as [a Ha]; [lia|]. by exists a.
    + intros (a & Ha & _). apply lookup_lt_Some in Ha. lia.
Qed.

Lemma zip_fst_NoDup {A} (ps : list nat) (os : list A) : NoDup ps -> NoDup (zip ps os).*1.
Proof.
  revert os. induction ps as [|p ps IH]; intros os Hn; simpl; [constructor|].
  destruct os as [|o os]; simpl; [constructor|]. apply NoDup_cons in Hn as [Hp Hn].
  constructor; [|by apply IH]. rewrite list_elem_of_fmap. intros ([q o'] & -> & Hin).
  apply elem_of_zip_l in Hin. done.
Qed.

(** One reply folded into the accumulators, seen at position [i]. *)
Lemma reply_lookup acc stop outcomes i a :
  acc !! i = Some a ->
  (if negb (length outcomes =? length (pending_positions stop acc))
   then note_unavailable_all acc (pending_positions stop acc) misaligned
   else note_all acc (zip (pending_positions stop acc) outcomes)) !! i
  = Some (match observation i (pending_positions stop acc, outcomes) with
          | Some o => note a o | None => a end).
Proof.
  intros Ha. pose proof (pending_NoDup stop acc) as Hn. unfold observation.
  destruct (Nat.eqb_spec (length outcomes) (length (pending_positions stop acc))) as [He|He]; simpl.
  - rewrite bool_decide_true by done. rewrite note_all_lookup by (by apply zip_fst_NoDup).
    rewrite Ha. simpl. by destruct (List.find _ _).
  - rewrite bool_decide_false by done. rewrite note_unavailable_all_lookup by done. rewrite Ha. simpl.
    by case_bool_decide.
Qed.

Lemma note_all_length pairs acc : length (note_all acc pairs) = length acc.
Proof.
  unfold note_all. revert acc. induction pairs as [|[j o] l IH]; intros acc; [done|].
  cbn [foldl]. rewrite IH. apply length_alter.
Qed.

Lemma note_unavailable_all_length ps acc why : length (note_unavailable_all acc ps why) = length acc.
Proof.
  unfold note_unavailable_all. revert acc. induction ps as [|j l IH]; intros acc; [done|].
  cbn [foldl]. rewrite IH. apply length_alter.
Qed.

Section registry_lemmas.
Context {M : Type}.
Variable deadline : Z.
Variable elapsed : nat -> Z.
Variable consult : nat -> M -> BatchResolveRequest -> option BatchResolution.

Lemma registry_loop_lookup request stop ms index acc i a :
  acc !! i = Some a ->
  (registry_loop deadline elapsed consult request stop index ms acc).1 !! i =
  Some (foldl note a
    (omap (observation i) (registry_trace deadline elapsed consult request stop index ms acc))).
Proof.
  revert index acc a. induction ms as [|m ms IH]; intros index acc a Ha; [done|].
  cbn [registry_loop registry_trace]. destruct (pending_positions stop acc) as [|q qs] eqn:Ep; [done|].
  destruct (_ <=? _)%Z; [done|]. destruct (consult _ _ _) as [res|]; [|done].
  pose proof (reply_lookup acc stop (br_outcomes res) i a Ha) as Hr. rewrite Ep in Hr.
  rewrite (IH _ _ _ Hr). cbn [omap list_omap].
  destruct (observation i (q :: qs, br_outcomes res)); done.
Qed.

Lemma registry_loop_length request stop ms index acc :
  length (registry_loop deadline elapsed consult request stop index ms acc).1 = length acc.
Proof.
  revert index acc. induction ms as [|m ms IH]; intros index acc; [done|].
  cbn [registry_loop]. destruct (pending_positions stop acc) as [|q qs] eqn:Ep; [done|].
  destruct (_ <=? _)%Z; [done|]. destruct (consult _ _ _) as [res|]; [|done].
  rewrite IH. destruct (negb _); [apply note_unavailable_all_length|apply note_all_length].
Qed.

Lemma fold_found_mono obs a : acc_is_found a = true -> acc_is_found (foldl note a obs) = true.
Proof.
  unfold acc_is_found. rewrite !bool_decide_eq_true, fold_note_found. intros [r ->]. eauto.
Qed.

Lemma observation_pending stop acc outcomes i :
  i ∈ pending_positions stop acc ->
  is_Some (observation i (pending_positions stop acc, outcomes)).
Proof.
  intros Hi. unfold observation. case_bool_decide as Hl; [|by rewrite bool_decide_true].
  destruct (List.find _ _) as [x|] eqn:Ef; [eauto|]. exfalso.
  assert (exists o, (i, o) ∈ zip (pending_positions stop acc) outcomes) as [o Ho].
  { apply list_elem_of_lookup in Hi as [j Hj].
    destruct (lookup_lt_is_Some_2 outcomes j) as [o Ho]; [apply lookup_lt_Some in Hj; lia|].
    exists o. apply list_elem_of_lookup. exists j. apply lookup_zip_with_Some. eauto. }
  apply list_elem_of_In in Ho. apply (List.find_none _ _ Ef) in Ho. simpl in Ho.
  by rewrite Nat.eqb_refl in Ho.
Qed.

(** A key that stays without a holder is asked of every mechanism, unless the
    deadline cuts the loop. *)
Lemma registry_asks_everyone request stop ms index acc i a :
  acc !! i = Some a ->
  (registry_loop deadline elapsed consult request stop index ms acc).2 = false ->
  acc_is_found (foldl note a
    (omap (observation i) (registry_trace deadline elapsed consult request stop index ms acc))) = false ->
  length (registry_trace deadline elapsed consult request stop index ms acc) = length ms /\
  Forall (fun e => is_Some (observation i e))
    (registry_trace deadline elapsed consult request stop index ms acc).
Proof.
  revert index acc a. induction ms as [|m ms IH]; intros index acc a Ha; [done|].
  cbn [registry_loop registry_trace].
  assert (acc_is_found a = false -> i ∈ pending_positions stop acc) as Hin.
  { intros Hf. apply elem_of_pending. eauto. }
  pose proof (fun os => reply_lookup acc stop os i a Ha) as Hr.
  pose proof (fun os => observation_pending stop acc os i) as Hobs.
  destruct (pending_positions stop acc) as [|q qs] eqn:Ep.
  - simpl. intros _ Hf. by apply Hin, not_elem_of_nil in Hf.
  - destruct (_ <=? _)%Z; [done|]. destruct (consult _ _ _) as [res|]; [|done].
    intros Hcut Hf. cbn [omap list_omap] in Hf.
    specialize (IH (S index) _ _ (Hr (br_outcomes res)) Hcut).
    assert (acc_is_found a = false) as Hfa.
    { destruct (acc_is_found a) eqn:E; [|done]. by rewrite fold_found_mono in Hf. }
    specialize (Hobs (br_outcomes res) (Hin Hfa)).
    destruct (observation i (q :: qs, br_outcomes res)) as [o|] eqn:Eo; [|by destruct Hobs].
    cbn [foldl] in Hf. destruct (IH Hf) as [Hl Hall].
    split; [exact (f_equal S Hl)|]. constructor; [by rewrite Eo|done].
Qed.

(** Under [FirstHolder] a mechanism is asked only about keys no earlier one
    found. *)
Lemma registry_trace_fresh request ms index acc i a pre entry post :
  acc !! i = Some a ->
  registry_trace deadline elapsed consult request FirstHolder index ms acc = pre ++ entry :: post ->
  i ∈ entry.1 ->
  acc_is_found (foldl note a (omap (observation i) pre)) = false.
Proof.
  revert index acc a pre. induction ms as [|m ms IH]; intros index acc a pre Ha Ht Hi.
  { by destruct pre. }
  cbn [registry_trace] in Ht.
  pose proof (fun os => reply_lookup acc FirstHolder os i a Ha) as Hr.
  pose proof (elem_of_pending FirstHolder acc i) as Hpend.
  destruct (pending_positions FirstHolder acc) as [|q qs] eqn:Ep; [by destruct pre|].
  destruct (_ <=? _)%Z; [by destruct pre|]. destruct (consult _ _ _) as [res|]; [|by destruct pre].
  destruct pre as [|e pre]; injection Ht as He Ht.
  - subst entry. simpl in Hi. apply Hpend in Hi as (a' & Ha' & Hf). simplify_eq. simpl. by apply Hf.
  - subst e. cbn [omap list_omap].
    specialize (IH _ _ _ pre (Hr (br_outcomes res)) Ht Hi).
    by destruct (observation i (q :: qs, br_outcomes res)).
Qed.

End registry_lemmas.

(** The unknown mechanisms and the deadline are observations of every key. *)
Definition registry_observations {M} deadline elapsed
    (consult : nat -> M -> BatchResolveRequest -> option BatchResolution)
    (reg : list (MechanismId * M)) (request : BatchResolveRequest) (plan : ExecutionPlan) (i : nat)
    : list KeyResolution :=
  let '(ms, warnings) := ordered reg plan in
  let acc := replicate (length (req_keys request)) KeyAcc_default in
  omap (observation i) (registry_trace deadline elapsed consult request (plan_stop plan) 0 ms acc)
  ++ (KUnavailable ∘ unregistered <$> warnings)
  ++ (if (registry_loop deadline elapsed consult request (plan_stop plan) 0 ms acc).2
      then [KUnavailable DeadlineExceeded] else []).

Lemma warnings_lookup (warnings : list MechanismId) (acc : list KeyAcc) (i : nat) :
  foldl (fun acc id => (fun a => note_unavailable a (unregistered id)) <$> acc) acc warnings !! i
  = (fun a => foldl note a (KUnavailable ∘ unregistered <$> warnings)) <$> acc !! i.
Proof.
  revert acc. induction warnings as [|w warnings IH]; intros acc; cbn [foldl fmap list_fmap].
  - by destruct (acc !! i).
  - rewrite IH, list_lookup_fmap. by destruct (acc !! i).
Qed.

Lemma key_outcome_found obs r extra :
  head (omap holders obs) = Some r -> key_outcome (obs ++ extra) = KFound r.
Proof.
  intros Hr. unfold key_outcome. rewrite omap_app.
  destruct (omap holders obs); simpl in *; [done|]. by injection Hr as ->.
Qed.

(** The accumulator of key [i] when the finalizer runs. *)
Lemma registry_resolve_outcome {M} deadline elapsed
    (consult : nat -> M -> BatchResolveRequest -> option BatchResolution) reg request plan final b :
  registry_resolve deadline elapsed consult reg request plan final = Ok b ->
  length (br_outcomes b) = length (req_keys request) /\
  forall i, i < length (req_keys request) ->
    br_outcomes b !! i = Some (key_outcome (registry_observations deadline elapsed consult reg request plan i)).
Proof.
  unfold registry_resolve, registry_observations. case_bool_decide; [done|].
  destruct (ordered reg plan) as [ms warnings].
  set (acc0 := replicate (length (req_keys request)) KeyAcc_default).
  pose proof (registry_loop_length deadline elapsed consult request (plan_stop plan) ms 0 acc0) as Hlen.
  pose proof (registry_loop_lookup deadline elapsed consult request (plan_stop plan) ms 0 acc0) as Hlk.
  destruct (registry_loop deadline elapsed consult request (plan_stop plan) 0 ms acc0) as [acc cut].
  simpl in Hlen, Hlk. intros [= <-]. unfold finalize_batch. cbn [br_outcomes].
  assert (length (foldl (fun acc id => (fun a => note_unavailable a (unregistered id)) <$> acc)
    acc warnings) = length acc) as Hwl.
  { clear. revert acc. induction warnings as [|w ws IH]; intros acc; [done|]. cbn [foldl].
    rewrite IH. apply length_fmap. }
  split.
  { rewrite length_fmap. destruct cut; [rewrite length_fmap|]; rewrite Hwl, Hlen; apply length_replicate. }
  intros i Hi. assert (acc0 !! i = Some KeyAcc_default) as Hi0 by (by apply lookup_replicate_2).
  specialize (Hlk i _ Hi0). set (obs := omap (observation i) _) in *.
  rewrite list_lookup_fmap. destruct cut.
  - rewrite list_lookup_fmap, warnings_lookup, Hlk. simpl. f_equal.
    rewrite <-foldl_app. set (all := obs ++ _).
    replace (obs ++ _ ++ [_]) with (all ++ [KUnavailable DeadlineExceeded]) by (unfold all; by rewrite <-app_assoc).
    destruct (acc_is_found (foldl note KeyAcc_default all)) eqn:Ef.
    + unfold acc_is_found in Ef. apply bool_decide_eq_true in Ef as [r Hr].
      rewrite fold_note_found in Hr. simpl in Hr. rewrite (key_outcome_found _ r) by done.
      rewrite finalize_fold. rewrite <-(app_nil_r all). by apply key_outcome_found.
    + rewrite <-finalize_fold, foldl_app. done.
  - rewrite warnings_lookup, Hlk. simpl. f_equal. rewrite app_nil_r, <-foldl_app. apply finalize_fold.
Qed.

(** ** Binding to the request *)

(** A Found names at least one holder, all of the key at its position. *)
Definition outcome_bound (key : ContentKey) (o : KeyResolution) : Prop :=
  match o with KFound records => records <> [] /\ Forall (fun r => pr_key r = key) records | _ => True end.

Definition resolution_bound (request : BatchResolveRequest) (b : BatchResolution) : Prop :=
  Forall2 outcome_bound (req_keys request) (br_outcomes b).

Lemma existsb_unasked key records :
  existsb (fun r => bool_decide (pr_key r <> key)) records = false <->
  Forall (fun r => pr_key r = key) records.
Proof.
  induction records as [|r records IH]; simpl; [naive_solver|].
  rewrite orb_false_iff, Forall_cons, IH, bool_decide_eq_false. split; intros [Hk ?]; (split; [|done]).
  - by apply dec_stable.
  - by intros ?.
Qed.

Lemma bind_outcomes_iff index pairs :
  bind_outcomes index pairs = Ok tt <-> Forall (fun x => outcome_bound x.1 x.2) pairs.
Proof.
  revert index. induction pairs as [|[key o] pairs IH]; intros index; cbn [bind_outcomes].
  { split; [constructor|done]. }
  rewrite Forall_cons, result_bind_ok. setoid_rewrite IH. cbn [fst snd].
  destruct o as [records| |why|]; cbn [outcome_bound]; [|naive_solver..].
  rewrite <-existsb_unasked. destruct records as [|r records]; [naive_solver|].
  destruct (existsb _ (r :: records)); cbn; naive_solver.
Qed.

Lemma Forall2_zip {A B} (R : A -> B -> Prop) l k :
  length k = length l -> Forall (fun x => R x.1 x.2) (zip l k) <-> Forall2 R l k.
Proof.
  revert k. induction l as [|x l IH]; intros [|y k] Hl; simpl in *; try lia.
  - split; constructor.
  - rewrite Forall_cons, Forall2_cons, IH by lia. done.
Qed.

Lemma for_request_iff request outcomes m b :
  for_request request outcomes m = Ok b <->
  b = {| br_outcomes := outcomes; br_measurement := m |} /\ resolution_bound request b.
Proof.
  unfold for_request, resolution_bound. rewrite result_bind_ok. setoid_rewrite result_bind_ok.
  setoid_rewrite reject_if_ok. split.
  - intros ([] & Hl & [] & Hb%bind_outcomes_iff & [= <-]). split; [done|]. simpl.
    apply negb_false_iff, Nat.eqb_eq in Hl. by apply Forall2_zip.
  - intros [-> Hf]. simpl in Hf. exists tt. pose proof (Forall2_length _ _ _ Hf) as Hl.
    split; [by apply negb_false_iff, Nat.eqb_eq|]. exists tt. split; [|done].
    apply bind_outcomes_iff. by apply Forall2_zip.
Qed.

Lemma classify_bound key answer : outcome_bound key (classify_lookup key answer).
Proof.
  destruct answer as [records| |why]; simpl; [|done..].
  destruct (filter _ records) as [|r rs] eqn:Ef; [by destruct records|]. simpl. split; [done|].
  apply Forall_forall. intros x Hx. rewrite <-Ef in Hx. by apply list_elem_of_filter in Hx as [? _].
Qed.

Lemma note_default_outcome o :
  finalize (note KeyAcc_default o) = o.
Proof. by destruct o. Qed.

Lemma resolve_batch_loop_bound deadline elapsed ask keys i cut :
  Forall2 outcome_bound keys
    (finalize <$> (resolve_batch_loop deadline elapsed ask i keys cut).1).
Proof.
  revert i cut. induction keys as [|k keys IH]; intros i cut; cbn [resolve_batch_loop]; [constructor|].
  match goal with |- context [let '(outcome, cut0) := ?e in _] =>
    assert (outcome_bound k e.1) as Hb;
    [|destruct e as [o cut']] end.
  { destruct cut; [done|]. destruct (_ <=? _)%Z; [done|].
    destruct (ask i); [apply classify_bound|done]. }
  specialize (IH (S i) cut'). destruct (resolve_batch_loop _ _ _ _ _ _) as [accs cut''].
  simpl. constructor; [by rewrite note_default_outcome|done].
Qed.

(** ** Properties *)

(** The default batch path never names a holder of a key that was not
    asked: its result always passes the binding check of [for_request], and so
    does the single-key path, whatever the adapter answers. *)
Theorem default_paths_bound deadline elapsed ask request final :
  resolution_bound request (resolve_batch deadline elapsed ask request final) /\
  (forall key answer records, find_providers_bound key answer = Found records ->
     records <> [] /\ Forall (fun r => pr_key r = key) records).
Proof.
  split.
  - unfold resolve_batch, resolution_bound.
    pose proof (resolve_batch_loop_bound deadline elapsed ask (req_keys request) 0 false) as Hb.
    by destruct (resolve_batch_loop _ _ _ _ _ _).
  - intros key answer records. unfold find_providers_bound.
    pose proof (classify_bound key answer) as Hb. destruct (classify_lookup key answer); [|done..].
    by intros [= <-].
Qed.

Section registry_claims.
Context {M : Type}.
Variable deadline : Z.
Variable elapsed : nat -> Z.
Variable consult : nat -> M -> BatchResolveRequest -> option BatchResolution.

(** C38: The registry's answer for every key is the reference fold of what the
    consulted mechanisms said about it, in plan order, with an unregistered
    planned mechanism and a deadline cut counted as failures of every key. *)
Theorem registry_outcome_exact reg request plan final b i :
  registry_resolve deadline elapsed consult reg request plan final = Ok b ->
  i < length (req_keys request) ->
  br_outcomes b !! i =
    Some (key_outcome (registry_observations deadline elapsed consult reg request plan i)).
Proof. intros Hb Hi. by apply registry_resolve_outcome in Hb as [_ Hb]; auto. Qed.

Lemma key_outcome_miss obs :
  key_outcome obs = KMiss -> obs <> [] /\ Forall (fun o => o = KMiss) obs.
Proof.
  unfold key_outcome. destruct (omap holders obs); [|done]. destruct (omap _ obs); [|done].
  destruct obs as [|o obs]; [done|]. destruct (forallb _ _) eqn:E; [|done]. intros _.
  split; [done|]. apply Forall_forall. intros x Hx%list_elem_of_In.
  rewrite List.forallb_forall in E. specialize (E x Hx). by destruct x.
Qed.

(** An authoritative Miss needs everyone: if the registry answers Miss for
    a key, every mechanism the plan names is registered, the deadline did not
    cut the consultation, at least one mechanism was asked, and every planned
    mechanism was asked about that key and answered Miss. *)
Theorem registry_miss_authoritative reg request plan final b i :
  registry_resolve deadline elapsed consult reg request plan final = Ok b ->
  br_outcomes b !! i = Some KMiss ->
  let ms := (ordered reg plan).1 in
  let trace := registry_trace deadline elapsed consult request (plan_stop plan) 0 ms
    (replicate (length (req_keys request)) KeyAcc_default) in
  (ordered reg plan).2 = [] /\ ms <> [] /\ length trace = length ms /\
  Forall (fun entry => observation i entry = Some KMiss) trace.
Proof.
  intros Hb Hi. pose proof (registry_resolve_outcome _ _ _ _ _ _ _ _ Hb) as [Hlen Hout].
  assert (i < length (req_keys request)) as Hlt by (rewrite <-Hlen; by eapply lookup_lt_Some).
  rewrite (Hout i Hlt) in Hi. injection Hi as Hi. unfold registry_observations in Hi.
  destruct (ordered reg plan) as [ms warnings]. cbn [fst snd].
  apply key_outcome_miss in Hi as [Hne Hall].
  apply Forall_app in Hall as [Hobs [Hwarn Hcut]%Forall_app].
  destruct warnings as [|w ws]; [|by apply Forall_inv in Hwarn].
  pose proof (registry_asks_everyone deadline elapsed consult request (plan_stop plan) ms 0
    (replicate (length (req_keys request)) KeyAcc_default) i KeyAcc_default
    ltac:(by apply lookup_replicate_2)) as Hask.
  destruct (registry_loop _ _ _ _ _ _ _ _).2; [by apply Forall_inv in Hcut|].
  set (trace := registry_trace _ _ _ _ _ _ _ _) in *.
  destruct Hask as [Hl Hsome]; [done| |].
  { unfold acc_is_found. apply bool_decide_eq_false. rewrite fold_note_found. simpl.
    assert (omap holders (omap (observation i) trace) = []) as ->; [|by intros []].
    clear -Hobs. induction Hobs as [|o l -> _ IH]; [done|]. done. }
  assert (Forall (fun entry => observation i entry = Some KMiss) trace) as Htrace.
  { apply Forall_forall. intros e He. rewrite Forall_forall in Hsome. rewrite Forall_forall in Hobs.
    destruct (Hsome e He) as [o Ho]. rewrite Ho. f_equal. apply Hobs. apply list_elem_of_omap. eauto. }
  split_and!; try done. intros ->. destruct trace; [|done]. by apply Hne.
Qed.

(** Under a first-holder plan a mechanism is never asked about a key that
    an earlier mechanism already found. *)
Theorem first_holder_not_reasked request ms i pre pending outcomes post records :
  i < length (req_keys request) ->
  registry_trace deadline elapsed consult request FirstHolder 0 ms
    (replicate (length (req_keys request)) KeyAcc_default) = pre ++ (pending, outcomes) :: post ->
  KFound records ∈ omap (observation i) pre -> i ∉ pending.
Proof.
  intros Hi Ht Hin Hp.
  pose proof (registry_trace_fresh deadline elapsed consult request ms 0 _ i KeyAcc_default pre
    (pending, outcomes) post ltac:(by apply lookup_replicate_2) Ht Hp) as Hf.
  unfold acc_is_found in Hf. apply bool_decide_eq_false in Hf. rewrite fold_note_found in Hf.
  simpl in Hf. apply Hf. destruct (omap holders (omap (observation i) pre)) as [|r rs] eqn:E; [|eauto].
  exfalso. apply (not_elem_of_nil records). rewrite <-E. apply list_elem_of_omap. by exists (KFound records).
Qed.

(** Without a cut, the accumulator of a key is the fold of its observations. *)
Lemma registry_uncut_acc reg request plan final b :
  registry_resolve deadline elapsed consult reg request plan final = Ok b ->
  (registry_loop deadline elapsed consult request (plan_stop plan) 0 (ordered reg plan).1
     (replicate (length (req_keys request)) KeyAcc_default)).2 = false ->
  exists acc, b = finalize_batch acc false (latency_u64 final) NotInstrumented /\
    forall i, i < length (req_keys request) ->
      acc !! i = Some (foldl note KeyAcc_default
        (registry_observations deadline elapsed consult reg request plan i)).
Proof.
  unfold registry_resolve, registry_observations. case_bool_decide; [done|].
  destruct (ordered reg plan) as [ms warnings]. cbn [fst].
  pose proof (registry_loop_lookup deadline elapsed consult request (plan_stop plan) ms 0
    (replicate (length (req_keys request)) KeyAcc_default)) as Hlk.
  destruct (registry_loop _ _ _ _ _ _ _ _) as [acc cut]. simpl in Hlk |- *.
  intros [= <-] ->. eexists; split; [done|]. intros i Hi.
  rewrite warnings_lookup, (Hlk i KeyAcc_default) by (by apply lookup_replicate_2).
  simpl. by rewrite app_nil_r, <-foldl_app.
Qed.

Lemma saw_non_authoritative_fold obs :
  saw_non_authoritative_observation (foldl note KeyAcc_default obs) = false <->
  Forall (fun o => is_authoritative o = true) obs.
Proof.
  unfold saw_non_authoritative_observation. rewrite orb_false_iff, bool_decide_eq_false.
  rewrite fold_note_unavailable. destruct (fold_note_flags obs KeyAcc_default) as [_ ->]. simpl.
  induction obs as [|o obs IH]; simpl; [split; [done|]; intros _; split; [by intros []|done]|].
  rewrite Forall_cons, <-IH. destruct o; simpl; try tauto.
  - split; [intros [Hn _]; exfalso; apply Hn; eauto|by intros [? _]].
  - split; [by intros [_ ?]|by intros [? _]].
Qed.

(** A registry answer is reported as Completed only when the deadline did
    not cut it and everything every consulted mechanism said about every key
    was authoritative; every key is then authoritative too. *)
Theorem registry_completed_sound reg request plan final b :
  registry_resolve deadline elapsed consult reg request plan final = Ok b ->
  resource (br_measurement b) = Completed ->
  is_complete b = true /\
  forall i, i < length (req_keys request) ->
    Forall (fun o => is_authoritative o = true)
      (registry_observations deadline elapsed consult reg request plan i).
Proof.
  intros Hb Hres.
  destruct (registry_loop deadline elapsed consult request (plan_stop plan) 0 (ordered reg plan).1
    (replicate (length (req_keys request)) KeyAcc_default)).2 eqn:Hcut.
  { exfalso. revert Hb Hres. unfold registry_resolve. case_bool_decide; [done|].
    destruct (ordered reg plan) as [ms warnings]. simpl in Hcut.
    destruct (registry_loop _ _ _ _ _ _ _ _) as [acc cut]. simpl in Hcut. subst cut.
    by intros [= <-]. }
  destruct (registry_uncut_acc _ _ _ _ _ Hb Hcut) as (acc & -> & Hacc).
  unfold finalize_batch in Hres. cbn [br_measurement resource] in Hres.
  destruct (existsb saw_non_authoritative_observation acc) eqn:Ex; [done|].
  unfold is_complete, finalize_batch. cbn [br_outcomes].
  destruct (forallb is_authoritative (finalize <$> acc)) eqn:Ea; [|done]. split; [done|].
  intros i Hi. apply saw_non_authoritative_fold. specialize (Hacc i Hi).
  destruct (saw_non_authoritative_observation _) eqn:E; [|done]. exfalso.
  assert (existsb saw_non_authoritative_observation acc = true) as Hc; [|congruence].
  apply List.existsb_exists. eexists. split; [|exact E].
  apply list_elem_of_In. by eapply list_elem_of_lookup_2.
Qed.

Lemma trace_entry_bound request stop ms index acc pending outcomes :
  (forall j m r b, consult j m r = Some b -> resolution_bound r b) ->
  length acc = length (req_keys request) ->
  (pending, outcomes) ∈ registry_trace deadline elapsed consult request stop index ms acc ->
  exists b, br_outcomes b = outcomes /\ resolution_bound (sub_request request pending) b /\
    Forall (fun i => i < length (req_keys request)) pending.
Proof.
  intros Hbound. revert index acc. induction ms as [|m ms IH]; intros index acc Hlen; [set_solver|].
  cbn [registry_trace].
  assert (Forall (fun i => i < length (req_keys request)) (pending_positions stop acc)) as Hp.
  { apply Forall_forall. intros i (a & Ha & _)%elem_of_pending. apply lookup_lt_Some in Ha. lia. }
  destruct (pending_positions stop acc) as [|q qs] eqn:Ep; [set_solver|].
  destruct (_ <=? _)%Z; [set_solver|].
  destruct (consult index m _) as [res|] eqn:Ec; [|set_solver].
  intros [[= -> ->]|Hin]%elem_of_cons; [by eauto|]. apply IH in Hin; [done|].
  rewrite <-Hlen. destruct (negb _); [apply note_unavailable_all_length|apply note_all_length].
Qed.

Lemma key_outcome_in obs records : key_outcome obs = KFound records -> KFound records ∈ obs.
Proof.
  unfold key_outcome. destruct (omap holders obs) as [|r rs] eqn:E.
  - repeat case_match; done.
  - intros [= ->]. assert (records ∈ omap holders obs) as Hin by (rewrite E; apply list_elem_of_here).
    apply list_elem_of_omap in Hin as (o & Ho & Hh). destruct o; simplify_eq/=. done.
Qed.

Lemma sub_request_lookup request pending j i :
  Forall (fun i => i < length (req_keys request)) pending -> pending !! j = Some i ->
  req_keys (sub_request request pending) !! j = req_keys request !! i.
Proof.
  unfold sub_request. simpl. revert j. induction pending as [|p ps IH]; intros j Hf Hj; [done|].
  apply Forall_cons in Hf as [Hp Hf]. destruct (lookup_lt_is_Some_2 _ _ Hp) as [k Hk].
  simpl. rewrite Hk. destruct j as [|j]; simplify_eq/=; [done|by apply IH].
Qed.

(** If every mechanism binds its reply to the request it was given, the
    registry's answer is bound to the caller's request: every Found names at
    least one holder and only holders of the key asked at that position. *)
Theorem registry_bound reg request plan final b :
  (forall j m r b, consult j m r = Some b -> resolution_bound r b) ->
  registry_resolve deadline elapsed consult reg request plan final = Ok b ->
  resolution_bound request b.
Proof.
  intros Hbound Hb. pose proof (registry_resolve_outcome _ _ _ _ _ _ _ _ Hb) as [Hlen Hout].
  apply Forall2_same_length_lookup. split; [done|]. intros i key o Hkey Ho.
  assert (i < length (req_keys request)) as Hi by (by eapply lookup_lt_Some).
  rewrite (Hout i Hi) in Ho. injection Ho as <-.
  destruct (key_outcome _) as [records| | |] eqn:E; [|done..]. apply key_outcome_in in E.
  unfold registry_observations in E. destruct (ordered reg plan) as [ms warnings].
  apply elem_of_app in E as [E|E]; [|apply elem_of_app in E as [E|E]].
  - apply list_elem_of_omap in E as ([pending outcomes] & Hin & Hobs).
    apply trace_entry_bound in Hin as (b' & <- & Hbd & Hp); [|done|apply length_replicate].
    unfold observation in Hobs. case_bool_decide; [|by case_bool_decide].
    destruct (List.find _ _) as [[i' o']|] eqn:Ef; [|done]. apply List.find_some in Ef as [Hz Hii].
    simpl in Hobs, Hii. apply Nat.eqb_eq in Hii. injection Hobs as ->. subst i'.
    apply list_elem_of_In, list_elem_of_lookup in Hz as [j Hj].
    apply lookup_zip_with_Some in Hj as (i2 & o2 & [= <- <-] & Hpj & Hoj).
    apply (Forall2_lookup_lr _ _ _ j key (KFound records) Hbd); [|done].
    by rewrite (sub_request_lookup _ _ _ i).
  - by apply list_elem_of_fmap in E as (? & ? & _).
  - destruct (registry_loop _ _ _ _ _ _ _ _).2; set_solver.
Qed.

End registry_claims.

(** ** Witnesses *)

Definition sample_record_for (key : ContentKey) : ProviderRecord :=
  {| pr_key := key; pr_content := Blake3Digest_from_bytes (fill 32 xcc);
     pr_provider := NodeId_from_bytes (fill 32 x11); pr_offers := []; pr_sequence := 1;
     pr_issued_at := 100; pr_expiry := 200; pr_signature := fill 64 x00 |}.

Definition key_a : ContentKey := ContentKey_from_bytes (fill 32 xaa).
Definition key_b : ContentKey := ContentKey_from_bytes (fill 32 xbb).
Definition sample_request : BatchResolveRequest := mkRequest [key_a; key_b].

Definition completed (ns : Z) : MechanismMeasurement :=
  {| observed_latency_ns := ns; control_bytes := NotInstrumented; resource := Completed |}.

(** Two mechanisms: the first holds [key_a] only, the second nothing. *)
Definition sample_outcome (mechanism : nat) (k : ContentKey) : KeyResolution :=
  if decide (k = key_a)
  then if mechanism =? 1 then KFound [sample_record_for key_a] else KMiss else KMiss.

Definition sample_consult (index mechanism : nat) (r : BatchResolveRequest) : option BatchResolution :=
  Some {| br_outcomes := sample_outcome mechanism <$> req_keys r;
          br_measurement := completed 5 |}.

Definition sample_registry : list (MechanismId * nat) := [(LanDiscovery, 1); (GlobalDirectory, 2)].

Definition sample_answer : BatchResolution :=
  {| br_outcomes := [KFound [sample_record_for key_a]; KMiss]; br_measurement := completed 40 |}.

Lemma sample_resolution :
  registry_resolve 100 (fun i => Z.of_nat i) sample_consult sample_registry sample_request
    fixed_baseline_v1 40 = Ok sample_answer.
Proof. vm_compute. reflexivity. Qed.

Lemma registry_outcome_exact_witness :
  br_outcomes sample_answer !! 1 =
    Some (key_outcome (registry_observations 100 (fun i => Z.of_nat i) sample_consult sample_registry
      sample_request fixed_baseline_v1 1)).
Proof.
  apply (registry_outcome_exact 100 (fun i => Z.of_nat i) sample_consult sample_registry sample_request
    fixed_baseline_v1 40 sample_answer 1); [apply sample_resolution|simpl; lia].
Defined.

Lemma registry_miss_authoritative_witness :
  length (registry_trace 100 (fun i => Z.of_nat i) sample_consult sample_request FirstHolder 0
    (ordered sample_registry fixed_baseline_v1).1 (replicate 2 KeyAcc_default)) = 2.
Proof.
  apply (registry_miss_authoritative 100 (fun i => Z.of_nat i) sample_consult sample_registry sample_request
    fixed_baseline_v1 40 sample_answer 1); [apply sample_resolution|reflexivity].
Defined.

Lemma first_holder_not_reasked_witness : 0 ∉ [1].
Proof.
  apply (first_holder_not_reasked 100 (fun i => Z.of_nat i) sample_consult sample_request [1; 2] 0
    [([0; 1], [KFound [sample_record_for key_a]; KMiss])] [1] [KMiss] [] [sample_record_for key_a]).
  - simpl. lia.
  - vm_compute. reflexivity.
  - simpl. apply list_elem_of_here.
Defined.

Lemma registry_completed_sound_witness : is_complete sample_answer = true.
Proof.
  apply (registry_completed_sound 100 (fun i => Z.of_nat i) sample_consult sample_registry sample_request
    fixed_baseline_v1 40 sample_answer); [apply sample_resolution|reflexivity].
Defined.

Lemma sample_consult_bound j m r b : sample_consult j m r = Some b -> resolution_bound r b.
Proof.
  intros [= <-]. unfold resolution_bound. cbn [br_outcomes]. apply Forall2_fmap_r, Forall_Forall2_diag.
  apply Forall_forall. intros k _. unfold compose, sample_outcome.
  destruct (decide (k = key_a)) as [->|Hne]; [|done]. destruct (m =? 1); [|done].
  split; [done|]. by apply Forall_singleton.
Qed.

Lemma registry_bound_witness : resolution_bound sample_request sample_answer.
Proof.
  apply (registry_bound 100 (fun i => Z.of_nat i) sample_consult sample_registry sample_request
    fixed_baseline_v1 40 sample_answer); [apply sample_consult_bound|apply sample_resolution].
Defined.

(** The binding hypothesis of [registry_bound] is not implied by the
    constructor: [for_request] checks a reply against whatever request the
    adapter passes, so a reply bound to a request for [key_b] is accepted as
    the answer for [key_a]. *)
Theorem foreign_binding_accepted :
  exists reply answer,
    for_request (mkRequest [key_b]) [KFound [sample_record_for key_b]] (completed 5) = Ok reply /\
    registry_resolve 100 (fun _ => 0%Z) (fun _ (_ : unit) _ => Some reply) [(GlobalDirectory, tt)]
      (mkRequest [key_a]) fixed_baseline_v1 7 = Ok answer /\
    br_outcomes answer = [KFound [sample_record_for key_b]] /\
    ~ resolution_bound (mkRequest [key_a]) answer.
Proof.
  eexists _, _. split_and!; [vm_compute; reflexivity|vm_compute; reflexivity|reflexivity|].
  unfold resolution_bound. simpl. intros Hf. inversion Hf as [|? ? ? ? Hb _]; subst.
  destruct Hb as [_ Hk]. apply Forall_inv in Hk. by vm_compute in Hk.
Qed.
