(* ===== verification/Ledgers.v ===== *)
(** * Tumbling-window resource ledgers

    Models daemon-core/src/window.rs (the clamp and the expiry test),
    daemon-core/src/derive_ledger.rs (the per-peer and global bound on
    derivation work a peer can induce) and daemon-core/src/upload_ledger.rs
    (the node-wide egress shaper), over the budgets of
    peer-fabric/src/budget.rs.

    The clock is an argument of each operation, in milliseconds.  Counters are
    u64/u32 with checked or saturating addition as in the source.  A step
    relation [tumble] captures what any operation may do to one window; every
    bound below is an instance of one lemma about it. *)

From Stdlib Require Import ZArith Lia.
From stdpp Require Import base sets gmap numbers sorting list.
From S2P Require Import Prelude Ids Outcome.

(** ** window.rs *)

Definition MIN_WINDOW_MS : Z := 1000.

(** Durations are nanoseconds; `as_millis` truncates. *)
Definition as_millis (d : Z) : Z := d / 1000000.

Definition clamp_window (window : Z) : Z :=
  let ms := Z.min (as_millis window) u64_max in
  Z.max ms MIN_WINDOW_MS * 1000000.

Definition window_expired (start_millis now window_millis : Z) : bool :=
  (window_millis <=? u64_saturating_sub now start_millis)%Z.

(** ** budget.rs *)

Record DeriveBudget := {
  max_bytes_per_peer : Z;
  max_dumps_per_peer : Z;
  max_bytes_global : Z;
  max_dumps_global : Z;
  derive_window : Z;
}.

Definition DeriveBudget_default : DeriveBudget :=
  {| max_bytes_per_peer := 1024 * 1024 * 1024; max_dumps_per_peer := 64;
     max_bytes_global := 4 * 1024 * 1024 * 1024; max_dumps_global := 256;
     derive_window := secs 60 |}.

Record UploadBudget := { max_bytes_per_window : Z; upload_window : Z }.

Definition UploadBudget_default : UploadBudget :=
  {| max_bytes_per_window := 128 * 1024 * 1024; upload_window := secs 1 |}.

(** ** derive_ledger.rs *)

Record Window := { start_millis : Z; win_bytes : Z; win_dumps : Z }.

Definition opened_at (now : Z) : Window := {| start_millis := now; win_bytes := 0; win_dumps := 0 |}.

Definition roll_if_expired (w : Window) (now window_millis : Z) : Window :=
  if window_expired (start_millis w) now window_millis then opened_at now else w.

Inductive DeriveAdmission := DeriveAdmitted | RefusedPerPeer | RefusedGlobal.

Definition EVICT_SWEEP_THRESHOLD : nat := 1024.

Record LedgerState := { led_global : option Window; led_per_peer : gmap NodeId Window }.

Definition LedgerState_default : LedgerState := {| led_global := None; led_per_peer := ∅ |}.

Definition ledger_evict_expired (s : LedgerState) (now window_millis : Z) : LedgerState :=
  if bool_decide (size (led_per_peer s) < EVICT_SWEEP_THRESHOLD) then s
  else {| led_global := led_global s;
          led_per_peer := filter (fun kv =>
            (u64_saturating_sub now (start_millis kv.2) < window_millis)%Z) (led_per_peer s) |}.

Record PeerDeriveLedger := {
  ldg_budget : DeriveBudget;
  ldg_enforced : bool;
  ldg_state : LedgerState;
}.

Definition PeerDeriveLedger_with_clock (budget : DeriveBudget) : PeerDeriveLedger :=
  {| ldg_budget := {| max_bytes_per_peer := max_bytes_per_peer budget;
       max_dumps_per_peer := max_dumps_per_peer budget; max_bytes_global := max_bytes_global budget;
       max_dumps_global := max_dumps_global budget;
       derive_window := clamp_window (derive_window budget) |};
     ldg_enforced := true; ldg_state := LedgerState_default |}.

Definition PeerDeriveLedger_unlimited : PeerDeriveLedger :=
  {| ldg_budget := DeriveBudget_default; ldg_enforced := false; ldg_state := LedgerState_default |}.

(** `match a.checked_add(b) { Some(sum) if sum <= cap => .. }` at width [max]. *)
Definition add_within (max a b cap : Z) : option Z :=
  if (a + b <=? max)%Z && (a + b <=? cap)%Z then Some (a + b)%Z else None.

Definition charge_locked (budget : DeriveBudget) (s : LedgerState) (now window_millis : Z)
    (peer : NodeId) (bytes dumps : Z) : LedgerState * result DeriveAdmission unit :=
  let global := roll_if_expired (default (opened_at now) (led_global s)) now window_millis in
  let s := {| led_global := Some global; led_per_peer := led_per_peer s |} in
  match add_within u64_max (win_bytes global) bytes (max_bytes_global budget) with
  | None => (s, Err RefusedGlobal)
  | Some global_bytes_after =>
      match add_within u32_max (win_dumps global) dumps (max_dumps_global budget) with
      | None => (s, Err RefusedGlobal)
      | Some global_dumps_after =>
          let peer_window :=
            roll_if_expired (default (opened_at now) (led_per_peer s !! peer)) now window_millis in
          match add_within u64_max (win_bytes peer_window) bytes (max_bytes_per_peer budget) with
          | None => (s, Err RefusedPerPeer)
          | Some peer_bytes_after =>
              match add_within u32_max (win_dumps peer_window) dumps (max_dumps_per_peer budget) with
              | None => (s, Err RefusedPerPeer)
              | Some peer_dumps_after =>
                  ({| led_global := Some {| start_millis := start_millis global;
                        win_bytes := global_bytes_after; win_dumps := global_dumps_after |};
                      led_per_peer := <[peer := {| start_millis := start_millis peer_window;
                        win_bytes := peer_bytes_after; win_dumps := peer_dumps_after |}]>
                        (led_per_peer s) |}, Ok tt)
              end
          end
      end
  end.

Definition ledger_window_millis (l : PeerDeriveLedger) : Z :=
  Z.min (as_millis (derive_window (ldg_budget l))) u64_max.

(** PeerDeriveLedger::try_admit_work at clock [now]. *)
Definition try_admit_work (l : PeerDeriveLedger) (now : Z) (peer : NodeId) (bytes dumps : Z)
    : PeerDeriveLedger * DeriveAdmission :=
  if negb (ldg_enforced l) then (l, DeriveAdmitted)
  else
    let s := ledger_evict_expired (ldg_state l) now (ledger_window_millis l) in
    let '(s, r) := charge_locked (ldg_budget l) s now (ledger_window_millis l) peer bytes dumps in
    ({| ldg_budget := ldg_budget l; ldg_enforced := ldg_enforced l; ldg_state := s |},
     match r with Ok _ => DeriveAdmitted | Err reason => reason end).

(** PeerDeriveLedger::try_admit *)
Definition try_admit (l : PeerDeriveLedger) (now : Z) (peer : NodeId) (nar_size : Z)
    : PeerDeriveLedger * DeriveAdmission := try_admit_work l now peer nar_size 1.

(** PeerDeriveLedger::global_bytes_used *)
Definition global_bytes_used (l : PeerDeriveLedger) (now : Z) : PeerDeriveLedger * Z :=
  if negb (ldg_enforced l) then (l, 0%Z)
  else
    let global := roll_if_expired (default (opened_at now) (led_global (ldg_state l))) now
      (ledger_window_millis l) in
    ({| ldg_budget := ldg_budget l; ldg_enforced := ldg_enforced l;
        ldg_state := {| led_global := Some global; led_per_peer := led_per_peer (ldg_state l) |} |},
     win_bytes global).

(** ** upload_ledger.rs *)

Record UploadWindow := { up_start_millis : Z; up_bytes : Z }.

Definition up_opened_at (now : Z) : UploadWindow := {| up_start_millis := now; up_bytes := 0 |}.

Definition up_roll_if_expired (w : UploadWindow) (now window_millis : Z) : UploadWindow :=
  if window_expired (up_start_millis w) now window_millis then up_opened_at now else w.

Record UploadRateLedger := {
  up_budget : UploadBudget;
  up_enforced : bool;
  up_state : option UploadWindow;
}.

Definition UploadRateLedger_with_clock (budget : UploadBudget) : UploadRateLedger :=
  {| up_budget := {| max_bytes_per_window := max_bytes_per_window budget;
       upload_window := clamp_window (upload_window budget) |};
     up_enforced := true; up_state := None |}.

Definition UploadRateLedger_unlimited : UploadRateLedger :=
  {| up_budget := UploadBudget_default; up_enforced := false; up_state := None |}.

Definition up_window_millis (l : UploadRateLedger) : Z :=
  Z.min (as_millis (upload_window (up_budget l))) u64_max.

Definition up_current (l : UploadRateLedger) (now : Z) : UploadWindow :=
  up_roll_if_expired (default (up_opened_at now) (up_state l)) now (up_window_millis l).

Definition up_set (l : UploadRateLedger) (w : UploadWindow) : UploadRateLedger :=
  {| up_budget := up_budget l; up_enforced := up_enforced l; up_state := Some w |}.

Definition admit_upload (l : UploadRateLedger) (now : Z) : UploadRateLedger * bool :=
  if negb (up_enforced l) then (l, true)
  else
    let w := up_current l now in
    (up_set l w, (up_bytes w <? max_bytes_per_window (up_budget l))%Z).

Definition charge_wire_octets (l : UploadRateLedger) (now octets : Z) : UploadRateLedger :=
  if negb (up_enforced l) then l
  else
    let w := up_current l now in
    up_set l {| up_start_millis := up_start_millis w;
                up_bytes := u64_saturating_add (up_bytes w) octets |}.

Definition window_bytes_used (l : UploadRateLedger) (now : Z) : UploadRateLedger * Z :=
  if negb (up_enforced l) then (l, 0%Z)
  else let w := up_current l now in (up_set l w, up_bytes w).

(** ** One tumbling counter *)

(** A counter window: when it opened and what it has been charged. *)
Definition counter : Type := option (Z * Z).

Definition rolled (W now : Z) (w : counter) : Z * Z :=
  match w with
  | Some (s, u) => if window_expired s now W then (now, 0%Z) else (s, u)
  | None => (now, 0%Z)
  end.

(** What one operation at [now] may do to a counter of window [W] and cap
    [cap], and how much it charges. *)
Inductive tumble (W cap now : Z) : counter -> Z -> counter -> Prop :=
| tumble_idle w : tumble W cap now w 0 w
| tumble_roll w : tumble W cap now w 0 (Some (rolled W now w))
| tumble_drop s u : window_expired s now W = true -> tumble W cap now (Some (s, u)) 0 None
| tumble_charge w x : (0 <= x)%Z -> ((rolled W now w).2 + x <= cap)%Z ->
    tumble W cap now w x (Some ((rolled W now w).1, ((rolled W now w).2 + x)%Z)).

Inductive tumbles (W cap : Z) : list Z -> counter -> Z -> counter -> Prop :=
| tumbles_nil w : tumbles W cap [] w 0 w
| tumbles_cons now times w x w' y w'' :
    tumble W cap now w x w' -> tumbles W cap times w' y w'' ->
    tumbles W cap (now :: times) w (x + y) w''.

(** What may still be charged within [a, a + W). *)
Definition headroom (a cap : Z) (w : counter) : Z :=
  match w with
  | Some (s, u) => if (a <=? s)%Z then (cap - u)%Z else (cap - u + cap)%Z
  | None => cap
  end.

Definition counter_ok (cap : Z) (w : counter) : Prop :=
  match w with Some (_, u) => (0 <= u <= cap)%Z | None => True end.

Lemma tumble_headroom W cap a now w x w' :
  (0 <= cap)%Z -> (a <= now < a + W)%Z -> counter_ok cap w -> tumble W cap now w x w' ->
  counter_ok cap w' /\ (x + headroom a cap w' <= headroom a cap w)%Z /\ (0 <= headroom a cap w')%Z.
Proof.
  intros Hcap Hnow Hok Ht.
  assert (forall s u, w = Some (s, u) -> (a <= s)%Z -> window_expired s now W = false) as Hin.
  { intros s u _ Hs. unfold window_expired, u64_saturating_sub. apply Z.leb_gt. lia. }
  assert (forall s, (a <=? s)%Z = true \/ (a <=? s)%Z = false) as Hdec by (intros s; destruct (a <=? s)%Z; auto).
  destruct Ht as [w|w|s u He|w x Hx Hle]; simpl in *.
  - destruct w as [[s u]|]; simpl in *; [|lia]. destruct (a <=? s)%Z; lia.
  - destruct w as [[s u]|]; simpl in *.
    + destruct (window_expired s now W) eqn:E; simpl.
      * rewrite (proj2 (Z.leb_le a now)) by lia.
        destruct (Z.leb_spec a s); [by rewrite (Hin s u) in E|]. lia.
      * destruct (a <=? s)%Z; lia.
    + rewrite (proj2 (Z.leb_le a now)) by lia. lia.
  - destruct (Z.leb_spec a s); [by rewrite (Hin s u) in He|]. lia.
  - destruct w as [[s u]|]; simpl in *.
    + destruct (window_expired s now W) eqn:E; simpl in *.
      * rewrite (proj2 (Z.leb_le a now)) by lia.
        destruct (Z.leb_spec a s); [by rewrite (Hin s u) in E|]. lia.
      * destruct (a <=? s)%Z; lia.
    + rewrite (proj2 (Z.leb_le a now)) by lia. lia.
Qed.

Lemma tumbles_bound W cap a times w total w' :
  (0 <= cap)%Z -> Forall (fun t => a <= t < a + W)%Z times -> counter_ok cap w ->
  tumbles W cap times w total w' ->
  counter_ok cap w' /\ (0 <= headroom a cap w -> total <= headroom a cap w)%Z.
Proof.
  intros Hcap Hin Hok Ht. induction Ht as [w|now times w x w1 y w2 Hs _ IH].
  { split; [done|]. lia. }
  apply Forall_cons in Hin as [Hnow Hin].
  destruct (tumble_headroom _ _ _ _ _ _ _ Hcap Hnow Hok Hs) as (Hok1 & Hle & Hpos).
  destruct (IH Hin Hok1) as [Hok2 Htot]. split; [done|]. intros _. lia.
Qed.

Lemma headroom_twice a cap w : (0 <= cap)%Z -> counter_ok cap w -> (0 <= headroom a cap w <= 2 * cap)%Z.
Proof. destruct w as [[s u]|]; simpl; [destruct (a <=? s)%Z|]; lia. Qed.

(** ** The derive ledger's four counters *)

(** A charge request: clock, peer, bytes, dumps. *)
Definition WorkEvent : Type := Z * NodeId * Z * Z.
Definition ev_now (e : WorkEvent) : Z := e.1.1.1.
Definition ev_peer (e : WorkEvent) : NodeId := e.1.1.2.
Definition ev_bytes (e : WorkEvent) : Z := e.1.2.
Definition ev_dumps (e : WorkEvent) : Z := e.2.

(** The two quantities a window counts, with their ceilings. *)
Inductive gauge := Bytes | Dumps.

Definition gauge_of (g : gauge) (w : Window) : Z * Z :=
  (start_millis w, match g with Bytes => win_bytes w | Dumps => win_dumps w end).
Definition ev_amount (g : gauge) (e : WorkEvent) : Z :=
  match g with Bytes => ev_bytes e | Dumps => ev_dumps e end.
Definition cap_global (g : gauge) (b : DeriveBudget) : Z :=
  match g with Bytes => max_bytes_global b | Dumps => max_dumps_global b end.
Definition cap_per_peer (g : gauge) (b : DeriveBudget) : Z :=
  match g with Bytes => max_bytes_per_peer b | Dumps => max_dumps_per_peer b end.

Fixpoint work_run (l : PeerDeriveLedger) (events : list WorkEvent)
    : PeerDeriveLedger * list (WorkEvent * DeriveAdmission) :=
  match events with
  | [] => (l, [])
  | e :: rest =>
      let '(l, r) := try_admit_work l (ev_now e) (ev_peer e) (ev_bytes e) (ev_dumps e) in
      let '(l, rs) := work_run l rest in (l, (e, r) :: rs)
  end.

(** The admitted sum of [f] over a run. *)
Definition admitted_total (f : WorkEvent -> Z) (rs : list (WorkEvent * DeriveAdmission)) : Z :=
  foldr (fun x acc => (match x.2 with DeriveAdmitted => f x.1 | _ => 0 end + acc)%Z) 0%Z rs.

(** Every policy number and every charge is an unsigned integer. *)
Definition budget_ok (b : DeriveBudget) : Prop :=
  (0 <= max_bytes_per_peer b /\ 0 <= max_dumps_per_peer b /\ 0 <= max_bytes_global b /\
   0 <= max_dumps_global b)%Z.
Definition event_ok (e : WorkEvent) : Prop := (0 <= ev_bytes e /\ 0 <= ev_dumps e)%Z.

Lemma add_within_Some max a b cap r :
  add_within max a b cap = Some r <-> r = (a + b)%Z /\ (r <= max /\ r <= cap)%Z.
Proof.
  unfold add_within. destruct (_ && _) eqn:E; [|split; [done|]].
  - apply andb_true_iff in E as [?%Z.leb_le ?%Z.leb_le]. naive_solver.
  - intros (-> & ? & ?). apply andb_false_iff in E as [?%Z.leb_gt|?%Z.leb_gt]; lia.
Qed.

Lemma gauge_rolled g W now o :
  gauge_of g (roll_if_expired (default (opened_at now) o) now W) = rolled W now (gauge_of g <$> o).
Proof.
  unfold roll_if_expired, rolled. destruct o as [w|]; simpl;
    destruct (window_expired _ _ _), g; done.
Qed.

(** Eviction only drops counters that have expired. *)
Lemma evict_tumble g cap s now W peer :
  tumble W cap now (gauge_of g <$> led_per_peer s !! peer) 0
    (gauge_of g <$> led_per_peer (ledger_evict_expired s now W) !! peer).
Proof.
  unfold ledger_evict_expired. case_bool_decide; simpl; [constructor|].
  rewrite map_lookup_filter. destruct (led_per_peer s !! peer) as [w|]; simpl; [|constructor].
  case_guard as Hl; simpl; [constructor|]. constructor.
  unfold window_expired. apply Z.leb_le. lia.
Qed.

Lemma evict_global s now W : led_global (ledger_evict_expired s now W) = led_global s.
Proof. unfold ledger_evict_expired. by case_bool_decide. Qed.

(** The complete effect of [charge_locked] on the windows. *)
Lemma charge_locked_spec b s now W peer bytes dumps :
  let g := roll_if_expired (default (opened_at now) (led_global s)) now W in
  let p := roll_if_expired (default (opened_at now) (led_per_peer s !! peer)) now W in
  match (charge_locked b s now W peer bytes dumps).2 with
  | Ok _ =>
      led_global (charge_locked b s now W peer bytes dumps).1 =
        Some {| start_millis := start_millis g; win_bytes := win_bytes g + bytes;
                win_dumps := win_dumps g + dumps |} /\
      led_per_peer (charge_locked b s now W peer bytes dumps).1 =
        <[peer := {| start_millis := start_millis p; win_bytes := win_bytes p + bytes;
                     win_dumps := win_dumps p + dumps |}]> (led_per_peer s) /\
      (win_bytes g + bytes <= max_bytes_global b)%Z /\ (win_dumps g + dumps <= max_dumps_global b)%Z /\
      (win_bytes p + bytes <= max_bytes_per_peer b)%Z /\ (win_dumps p + dumps <= max_dumps_per_peer b)%Z
  | Err reason =>
      reason <> DeriveAdmitted /\
      led_global (charge_locked b s now W peer bytes dumps).1 = Some g /\
      led_per_peer (charge_locked b s now W peer bytes dumps).1 = led_per_peer s
  end.
Proof.
  intros g p. unfold charge_locked. fold g. cbn [led_per_peer]. fold p.
  destruct (add_within _ (win_bytes g) _ _) as [gb|] eqn:E1; [|done].
  destruct (add_within _ (win_dumps g) _ _) as [gd|] eqn:E2; [|done].
  destruct (add_within _ (win_bytes p) _ _) as [pb|] eqn:E3; [|done].
  destruct (add_within _ (win_dumps p) _ _) as [pd|] eqn:E4; [|done].
  apply add_within_Some in E1 as (-> & _ & ?), E2 as (-> & _ & ?), E3 as (-> & _ & ?),
    E4 as (-> & _ & ?). by split_and!.
Qed.

(** ** Runs *)

Lemma tumbles_app W cap t1 t2 w x w1 y w2 :
  tumbles W cap t1 w x w1 -> tumbles W cap t2 w1 y w2 -> tumbles W cap (t1 ++ t2) w (x + y) w2.
Proof.
  induction 1 as [w|now times w x1 w1' y1 w3 Hs _ IH]; intros H2; [done|].
  simpl. replace (x1 + y1 + y)%Z with (x1 + (y1 + y))%Z by lia. econstructor; [done|by apply IH].
Qed.

Lemma tumbles_one W cap now w x w' : tumble W cap now w x w' -> tumbles W cap [now] w x w'.
Proof. intros Ht. replace x with (x + 0)%Z by lia. econstructor; [done|constructor]. Qed.

Lemma try_admit_work_fields l now peer bytes dumps :
  ldg_budget (try_admit_work l now peer bytes dumps).1 = ldg_budget l /\
  ldg_enforced (try_admit_work l now peer bytes dumps).1 = ldg_enforced l.
Proof. unfold try_admit_work. destruct (negb _); [done|]. by destruct (charge_locked _ _ _ _ _ _ _). Qed.

(** A committed charge is a [tumble_charge] of either gauge. *)
Lemma charge_tumble g W cap e o :
  let w := roll_if_expired (default (opened_at (ev_now e)) o) (ev_now e) W in
  event_ok e -> ((gauge_of g w).2 + ev_amount g e <= cap)%Z ->
  tumble W cap (ev_now e) (gauge_of g <$> o) (ev_amount g e)
    (Some (gauge_of g {| start_millis := start_millis w; win_bytes := win_bytes w + ev_bytes e;
                         win_dumps := win_dumps w + ev_dumps e |})).
Proof.
  intros w [Hb Hd] Hle. pose proof (gauge_rolled g W (ev_now e) o) as Hroll. fold w in Hroll.
  assert (gauge_of g {| start_millis := start_millis w; win_bytes := win_bytes w + ev_bytes e;
    win_dumps := win_dumps w + ev_dumps e |} =
    ((rolled W (ev_now e) (gauge_of g <$> o)).1,
     (rolled W (ev_now e) (gauge_of g <$> o)).2 + ev_amount g e)%Z) as ->
    by (rewrite <-Hroll; by destruct g).
  apply tumble_charge; [by destruct g|]. by rewrite <-Hroll.
Qed.

(** One request, seen by a global counter. *)
Lemma work_global_tumble g l e :
  ldg_enforced l = true -> event_ok e ->
  let res := try_admit_work l (ev_now e) (ev_peer e) (ev_bytes e) (ev_dumps e) in
  tumble (ledger_window_millis l) (cap_global g (ldg_budget l)) (ev_now e)
    (gauge_of g <$> led_global (ldg_state l))
    (match res.2 with DeriveAdmitted => ev_amount g e | _ => 0 end)
    (gauge_of g <$> led_global (ldg_state res.1)).
Proof.
  intros Hen Hok. unfold try_admit_work. rewrite Hen. cbn [negb].
  set (s := ledger_evict_expired _ _ _).
  pose proof (charge_locked_spec (ldg_budget l) s (ev_now e) (ledger_window_millis l) (ev_peer e)
    (ev_bytes e) (ev_dumps e)) as Hspec.
  assert (led_global s = led_global (ldg_state l)) as Hg by apply evict_global.
  rewrite <-Hg. clearbody s.
  pose proof (gauge_rolled g (ledger_window_millis l) (ev_now e) (led_global s)) as Hroll.
  destruct (charge_locked _ _ _ _ _ _ _) as [s' [u|reason]]; cbn in Hspec |- *.
  - destruct Hspec as (-> & _ & H1 & H2 & _).
    apply charge_tumble; [done|]. by destruct g.
  - destruct Hspec as (Hr & -> & _). cbn. rewrite Hroll.
    destruct reason; [done|apply tumble_roll..].
Qed.

(** The same request, seen by the counter of peer [q]: the sweep, then the charge. *)
Lemma work_peer_tumbles g q l e :
  ldg_enforced l = true -> event_ok e ->
  let res := try_admit_work l (ev_now e) (ev_peer e) (ev_bytes e) (ev_dumps e) in
  tumbles (ledger_window_millis l) (cap_per_peer g (ldg_budget l)) [ev_now e; ev_now e]
    (gauge_of g <$> led_per_peer (ldg_state l) !! q)
    (match res.2 with
     | DeriveAdmitted => if bool_decide (ev_peer e = q) then ev_amount g e else 0 | _ => 0 end)
    (gauge_of g <$> led_per_peer (ldg_state res.1) !! q).
Proof.
  intros Hen Hok. unfold try_admit_work. rewrite Hen. cbn [negb].
  set (W := ledger_window_millis l).
  pose proof (evict_tumble g (cap_per_peer g (ldg_budget l)) (ldg_state l) (ev_now e) W q) as Hev.
  set (s := ledger_evict_expired _ _ _) in *.
  pose proof (charge_locked_spec (ldg_budget l) s (ev_now e) W (ev_peer e)
    (ev_bytes e) (ev_dumps e)) as Hspec.
  clearbody s.
  match goal with |- tumbles _ _ _ _ ?x _ => replace x with (0 + x)%Z by lia end.
  econstructor; [exact Hev|]. apply tumbles_one.
  destruct (charge_locked _ _ _ _ _ _ _) as [s' [u|reason]]; cbn in Hspec |- *.
  - destruct Hspec as (_ & -> & _ & _ & H1 & H2). case_bool_decide as Hq.
    + subst q. rewrite lookup_insert_eq. cbn.
      apply charge_tumble; [done|]. by destruct g.
    + rewrite lookup_insert_ne by done. constructor.
  - destruct Hspec as (Hr & _ & ->). destruct reason; [done|constructor..].
Qed.

Lemma tumble_ok W cap now w x w' : (0 <= cap)%Z -> counter_ok cap w -> tumble W cap now w x w' -> counter_ok cap w'.
Proof.
  intros Hcap Hok Ht. destruct Ht as [w|w|s u He|w x Hx Hle]; simpl; [done| |done|].
  - destruct w as [[s u]|]; simpl in *; [destruct (window_expired s now W); simpl|]; lia.
  - destruct w as [[s u]|]; simpl in *; [destruct (window_expired s now W); simpl in *|]; lia.
Qed.

Lemma tumbles_ok W cap times w x w' : (0 <= cap)%Z -> counter_ok cap w -> tumbles W cap times w x w' -> counter_ok cap w'.
Proof. intros Hcap Hok Ht. induction Ht as [|????????? IH]; [done|]. eauto using tumble_ok. Qed.

(** The event's share for one observer: the node, or one peer. *)
Definition of_peer (q : NodeId) (f : WorkEvent -> Z) (e : WorkEvent) : Z :=
  if bool_decide (ev_peer e = q) then f e else 0%Z.

(** The clock readings an observer of two steps per request sees. *)
Definition twice_times (events : list WorkEvent) : list Z :=
  concat (map (fun e => [ev_now e; ev_now e]) events).

Lemma work_run_tumbles g q events l :
  ldg_enforced l = true -> Forall event_ok events ->
  ldg_enforced (work_run l events).1 = true /\ ldg_budget (work_run l events).1 = ldg_budget l /\
  tumbles (ledger_window_millis l) (cap_global g (ldg_budget l)) (map ev_now events)
    (gauge_of g <$> led_global (ldg_state l)) (admitted_total (ev_amount g) (work_run l events).2)
    (gauge_of g <$> led_global (ldg_state (work_run l events).1)) /\
  tumbles (ledger_window_millis l) (cap_per_peer g (ldg_budget l)) (twice_times events)
    (gauge_of g <$> led_per_peer (ldg_state l) !! q)
    (admitted_total (of_peer q (ev_amount g)) (work_run l events).2)
    (gauge_of g <$> led_per_peer (ldg_state (work_run l events).1) !! q).
Proof.
  revert l. induction events as [|e events IH]; intros l Hen Hok.
  { split_and!; [done..|constructor|constructor]. }
  apply Forall_cons in Hok as [He Hok].
  pose proof (work_global_tumble g l e Hen He) as Hg.
  pose proof (work_peer_tumbles g q l e Hen He) as Hp.
  pose proof (try_admit_work_fields l (ev_now e) (ev_peer e) (ev_bytes e) (ev_dumps e)) as [Hb Hen'].
  cbn [work_run]. destruct (try_admit_work _ _ _ _ _) as [l1 r]. cbn [fst snd] in *.
  rewrite Hen in Hen'. destruct (IH l1 Hen' Hok) as (H1 & H2 & H3 & H4).
  assert (ledger_window_millis l1 = ledger_window_millis l) as HW by (unfold ledger_window_millis; by rewrite Hb).
  destruct (work_run l1 events) as [l2 rs]. cbn [fst snd] in *. rewrite Hb, HW in *.
  split_and!; [done..| |].
  - cbn. by econstructor.
  - apply (tumbles_app _ _ [ev_now e; ev_now e] (twice_times events)) with (2 := H4).
    unfold of_peer at 1. by destruct r.
Qed.

Lemma twice_times_in a W events :
  Forall (fun e => a <= ev_now e < a + W)%Z events -> Forall (fun t => a <= t < a + W)%Z (twice_times events).
Proof. induction 1; [constructor|]. apply Forall_cons; split; [done|]. by apply Forall_cons. Qed.

Lemma counter_run_bound W cap a t1 t2 x y w1 w2 :
  (0 <= cap)%Z -> tumbles W cap t1 None x w1 -> tumbles W cap t2 w1 y w2 ->
  Forall (fun t => a <= t < a + W)%Z t2 -> (y <= 2 * cap)%Z.
Proof.
  intros Hcap H1 H2 Hin. pose proof (tumbles_ok W cap t1 None x w1 Hcap I H1) as Hok.
  pose proof (headroom_twice a cap w1 Hcap Hok) as Hh.
  pose proof (tumbles_bound W cap a t2 w1 y w2 Hcap Hin Hok H2) as [_ Hb]. lia.
Qed.

Lemma budget_ok_caps b g : budget_ok b -> (0 <= cap_global g b /\ 0 <= cap_per_peer g b)%Z.
Proof. intros (? & ? & ? & ?). by destruct g. Qed.

(** Whatever came before, within any span of time no longer than the
    window an enforcing derive ledger admits at most twice the global cap in
    total, and at most twice the per-peer cap for each peer, in bytes and in
    dumps: the transient a tumbling window allows, and never more. *)
Theorem derive_span_bound b before during a g q :
  budget_ok b -> Forall event_ok before -> Forall event_ok during ->
  Forall (fun e => a <= ev_now e < a + ledger_window_millis (PeerDeriveLedger_with_clock b))%Z during ->
  let rs := (work_run (work_run (PeerDeriveLedger_with_clock b) before).1 during).2 in
  (admitted_total (ev_amount g) rs <= 2 * cap_global g b)%Z /\
  (admitted_total (of_peer q (ev_amount g)) rs <= 2 * cap_per_peer g b)%Z.
Proof.
  intros Hb H1 H2 Hin. set (l := PeerDeriveLedger_with_clock b) in *.
  destruct (work_run_tumbles g q before l eq_refl H1) as (He & Hbud & Hg1 & Hp1).
  destruct (work_run_tumbles g q during _ He H2) as (_ & _ & Hg2 & Hp2).
  assert (ledger_window_millis (work_run l before).1 = ledger_window_millis l) as HW
    by (unfold ledger_window_millis; by rewrite Hbud).
  rewrite Hbud, HW in *. destruct (budget_ok_caps b g Hb) as [Hcg Hcp].
  replace (cap_global g (ldg_budget l)) with (cap_global g b) in * by by destruct g.
  replace (cap_per_peer g (ldg_budget l)) with (cap_per_peer g b) in * by by destruct g.
  split; eapply counter_run_bound; eauto using twice_times_in.
  by apply Forall_map.
Qed.

(** ** The sweep is invisible *)

(** [try_admit_work] without the sweep. *)
Definition try_admit_unswept (l : PeerDeriveLedger) (now : Z) (peer : NodeId) (bytes dumps : Z)
    : PeerDeriveLedger * DeriveAdmission :=
  if negb (ldg_enforced l) then (l, DeriveAdmitted)
  else
    let '(s, r) := charge_locked (ldg_budget l) (ldg_state l) now (ledger_window_millis l) peer bytes dumps in
    ({| ldg_budget := ldg_budget l; ldg_enforced := ldg_enforced l; ldg_state := s |},
     match r with Ok _ => DeriveAdmitted | Err reason => reason end).

Fixpoint unswept_run (l : PeerDeriveLedger) (events : list WorkEvent) : list DeriveAdmission :=
  match events with
  | [] => []
  | e :: rest =>
      let '(l, r) := try_admit_unswept l (ev_now e) (ev_peer e) (ev_bytes e) (ev_dumps e) in
      r :: unswept_run l rest
  end.

(** The swept state holds, for each peer, the unswept entry or nothing where
    that entry has expired. *)
Definition swept_of (W now : Z) (s u : LedgerState) : Prop :=
  led_global s = led_global u /\
  forall q, led_per_peer s !! q = led_per_peer u !! q \/
    (led_per_peer s !! q = None /\
     exists w, led_per_peer u !! q = Some w /\ window_expired (start_millis w) now W = true).

Lemma window_expired_mono s now now' W :
  (now <= now')%Z -> window_expired s now W = true -> window_expired s now' W = true.
Proof. unfold window_expired, u64_saturating_sub. rewrite !Z.leb_le. lia. Qed.

Lemma swept_of_mono W now now' s u : (now <= now')%Z -> swept_of W now s u -> swept_of W now' s u.
Proof.
  intros Hle [Hg Hp]. split; [done|]. intros q.
  destruct (Hp q) as [|(? & w & ? & ?)]; [by left|right].
  split; [done|]. exists w. split; [done|]. by apply (window_expired_mono _ now).
Qed.

Lemma sweep_swept W now s u : swept_of W now s u -> swept_of W now (ledger_evict_expired s now W) u.
Proof.
  intros [Hg Hp]. split; [by rewrite evict_global|]. intros q.
  unfold ledger_evict_expired. case_bool_decide; simpl; [apply Hp|].
  rewrite map_lookup_filter. destruct (Hp q) as [->|(-> & ?)]; [|by right].
  destruct (led_per_peer u !! q) as [w|] eqn:E; simpl; [|by left].
  case_guard as Hl; simpl; [by left|right]. split; [done|]. exists w. split; [done|].
  unfold window_expired. apply Z.leb_le. cbn in Hl. lia.
Qed.

(** Both states look the same through the rolled window of any peer. *)
Lemma swept_rolled W now s u q :
  swept_of W now s u ->
  roll_if_expired (default (opened_at now) (led_per_peer s !! q)) now W =
  roll_if_expired (default (opened_at now) (led_per_peer u !! q)) now W.
Proof.
  intros [_ Hp]. destruct (Hp q) as [->|(-> & w & -> & He)]; [done|].
  unfold roll_if_expired. cbn. rewrite He. by destruct (window_expired now now W).
Qed.

Lemma charge_locked_swept b W now s u peer bytes dumps :
  swept_of W now s u ->
  (charge_locked b s now W peer bytes dumps).2 = (charge_locked b u now W peer bytes dumps).2 /\
  swept_of W now (charge_locked b s now W peer bytes dumps).1 (charge_locked b u now W peer bytes dumps).1.
Proof.
  intros Hs. pose proof (swept_rolled W now s u peer Hs) as Hr. destruct Hs as [Hg Hp].
  unfold charge_locked. cbn [led_per_peer]. rewrite Hg, Hr.
  repeat (destruct (add_within _ _ _ _); [|by split]). split; [done|]. split; [done|].
  intros q. cbn [fst led_per_peer]. destruct (decide (peer = q)) as [->|].
  - rewrite !lookup_insert_eq. by left.
  - rewrite !lookup_insert_ne by done. apply Hp.
Qed.

Lemma sweep_step l l' e :
  ldg_budget l = ldg_budget l' -> ldg_enforced l = ldg_enforced l' ->
  swept_of (ledger_window_millis l) (ev_now e) (ldg_state l) (ldg_state l') ->
  let r := try_admit_work l (ev_now e) (ev_peer e) (ev_bytes e) (ev_dumps e) in
  let r' := try_admit_unswept l' (ev_now e) (ev_peer e) (ev_bytes e) (ev_dumps e) in
  r.2 = r'.2 /\ ldg_budget r.1 = ldg_budget r'.1 /\ ldg_enforced r.1 = ldg_enforced r'.1 /\
  ledger_window_millis r.1 = ledger_window_millis l /\
  swept_of (ledger_window_millis l) (ev_now e) (ldg_state r.1) (ldg_state r'.1).
Proof.
  intros Hb He Hs r r'. unfold r, r', try_admit_work, try_admit_unswept. rewrite <-He.
  destruct (ldg_enforced l) eqn:Hen; cbn [negb]; [|cbn; by rewrite Hen].
  assert (ledger_window_millis l' = ledger_window_millis l) as -> by (unfold ledger_window_millis; by rewrite Hb).
  rewrite <-Hb. apply sweep_swept in Hs.
  pose proof (charge_locked_swept (ldg_budget l) _ _ _ _ (ev_peer e) (ev_bytes e) (ev_dumps e) Hs) as [Hv Hst].
  destruct (charge_locked _ (ledger_evict_expired _ _ _) _ _ _ _ _) as [s1 r1].
  destruct (charge_locked _ (ldg_state l') _ _ _ _ _) as [s2 r2]. cbn in *. subst r2. by split_and!.
Qed.

Lemma sweep_run_neutral events l l' now :
  ldg_budget l = ldg_budget l' -> ldg_enforced l = ldg_enforced l' ->
  swept_of (ledger_window_millis l) now (ldg_state l) (ldg_state l') ->
  StronglySorted Z.le (now :: map ev_now events) ->
  map snd (work_run l events).2 = unswept_run l' events.
Proof.
  revert l l' now. induction events as [|e events IH]; intros l l' now Hb He Hs Hsort; [done|].
  apply StronglySorted_inv in Hsort as [Hsort Hall].
  apply (swept_of_mono _ _ (ev_now e)) in Hs; [|by apply Forall_cons in Hall as [? _]].
  pose proof (sweep_step l l' e Hb He Hs) as (Hv & Hb' & He' & HW & Hs'). cbn [work_run unswept_run].
  destruct (try_admit_work _ _ _ _ _) as [l1 r]. destruct (try_admit_unswept _ _ _ _ _) as [l1' r'].
  cbn [fst snd] in *. subst r'. rewrite <-HW in Hs'.
  pose proof (IH l1 l1' (ev_now e) Hb' He' Hs' Hsort) as IH'.
  destruct (work_run l1 events) as [l2 rs]. cbn in *. by rewrite IH'.
Qed.

(** On a clock that never goes back, sweeping expired per-peer entries
    changes no admission decision of any sequence of requests. *)
Theorem derive_sweep_neutral b events :
  StronglySorted Z.le (map ev_now events) ->
  map snd (work_run (PeerDeriveLedger_with_clock b) events).2 =
  unswept_run (PeerDeriveLedger_with_clock b) events.
Proof.
  intros Hs. destruct events as [|e events]; [done|].
  apply (sweep_run_neutral _ _ _ (ev_now e)); [done..| |].
  - split; [done|]. by left.
  - constructor; [done|]. apply StronglySorted_inv in Hs as [_ Hall]. by constructor.
Qed.

(** ** The verdict *)

(** The ceilings are u64 byte counts and u32 dump counts. *)
Definition caps_ok (b : DeriveBudget) : Prop :=
  (max_bytes_global b <= u64_max /\ max_bytes_per_peer b <= u64_max /\
   max_dumps_global b <= u32_max /\ max_dumps_per_peer b <= u32_max)%Z.

(** Mathematical (unbounded) comparison against both ceilings of [cap]. *)
Definition fits (cap : gauge -> DeriveBudget -> Z) (b : DeriveBudget) (w : Window) (e : WorkEvent) : bool :=
  (win_bytes w + ev_bytes e <=? cap Bytes b)%Z && (win_dumps w + ev_dumps e <=? cap Dumps b)%Z.

Lemma add_within_cap max a b cap :
  (cap <= max)%Z -> add_within max a b cap = if (a + b <=? cap)%Z then Some (a + b)%Z else None.
Proof.
  intros Hle. unfold add_within. destruct (Z.leb_spec (a + b) cap); [|by rewrite andb_false_r].
  by rewrite (proj2 (Z.leb_le (a + b) max)) by lia.
Qed.

Lemma swept_refl W now s : swept_of W now s s.
Proof. split; [done|]. by left. Qed.

Lemma charge_locked_verdict b s e W :
  caps_ok b ->
  let g := roll_if_expired (default (opened_at (ev_now e)) (led_global s)) (ev_now e) W in
  let p := roll_if_expired (default (opened_at (ev_now e)) (led_per_peer s !! ev_peer e)) (ev_now e) W in
  (charge_locked b s (ev_now e) W (ev_peer e) (ev_bytes e) (ev_dumps e)).2 =
  if fits cap_global b g e
  then if fits cap_per_peer b p e then Ok tt else Err RefusedPerPeer
  else Err RefusedGlobal.
Proof.
  intros (Hgb & Hpb & Hgd & Hpd) g p. unfold charge_locked, fits. fold g. cbn [led_per_peer]. fold p.
  cbn [cap_global cap_per_peer]. rewrite !add_within_cap by done.
  repeat (destruct (_ <=? _)%Z; [|done]). done.
Qed.

(** The verdict on a request is exactly the four ceiling comparisons over
    unbounded integers, the global pair first, whatever overflow the checked
    additions met.  A refusal charges nothing and adds no per-peer entry; and
    it never reaches the caller as an admission. *)
Theorem derive_verdict_exact l e :
  ldg_enforced l = true -> caps_ok (ldg_budget l) ->
  let W := ledger_window_millis l in
  let g := roll_if_expired (default (opened_at (ev_now e)) (led_global (ldg_state l))) (ev_now e) W in
  let p := roll_if_expired (default (opened_at (ev_now e)) (led_per_peer (ldg_state l) !! ev_peer e)) (ev_now e) W in
  let res := try_admit_work l (ev_now e) (ev_peer e) (ev_bytes e) (ev_dumps e) in
  res.2 = (if fits cap_global (ldg_budget l) g e
           then if fits cap_per_peer (ldg_budget l) p e then DeriveAdmitted else RefusedPerPeer
           else RefusedGlobal) /\
  (res.2 <> DeriveAdmitted ->
   led_global (ldg_state res.1) = Some g /\
   led_per_peer (ldg_state res.1) ⊆ led_per_peer (ldg_state l)).
Proof.
  intros Hen Hcaps W g p res. unfold res, try_admit_work. rewrite Hen. cbn [negb]. fold W.
  pose proof (sweep_swept _ _ _ _ (swept_refl W (ev_now e) (ldg_state l))) as Hs.
  assert (led_per_peer (ledger_evict_expired (ldg_state l) (ev_now e) W) ⊆ led_per_peer (ldg_state l)) as Hsub.
  { unfold ledger_evict_expired. case_bool_decide; [done|]. apply map_filter_subseteq. }
  set (s := ledger_evict_expired _ _ _) in *.
  pose proof (charge_locked_verdict (ldg_budget l) s e W Hcaps) as Hv.
  pose proof (charge_locked_spec (ldg_budget l) s (ev_now e) W (ev_peer e) (ev_bytes e) (ev_dumps e)) as Hspec.
  cbv zeta in Hv, Hspec. rewrite (swept_rolled _ _ _ _ _ Hs), (proj1 Hs) in Hv, Hspec.
  fold g in Hv, Hspec. fold p in Hv, Hspec.
  destruct (charge_locked _ _ _ _ _ _ _) as [s' v]. cbn in *. subst v.
  destruct (fits cap_global _ _ _); [destruct (fits cap_per_peer _ _ _)|];
    (split; [done|]); intros ?; [done|..]; destruct Hspec as (_ & -> & ->); done.
Qed.

(** ** The upload shaper *)

Inductive UploadEvent :=
| UpAdmit (now : Z)
| UpCharge (now octets : Z)
| UpUsed (now : Z).

Definition up_now (e : UploadEvent) : Z :=
  match e with UpAdmit now | UpCharge now _ | UpUsed now => now end.
Definition up_octets (e : UploadEvent) : Z :=
  match e with UpCharge _ octets => octets | _ => 0%Z end.

Definition upload_step (l : UploadRateLedger) (e : UploadEvent) : UploadRateLedger :=
  match e with
  | UpAdmit now => (admit_upload l now).1
  | UpCharge now octets => charge_wire_octets l now octets
  | UpUsed now => (window_bytes_used l now).1
  end.
Definition upload_run (l : UploadRateLedger) (events : list UploadEvent) : UploadRateLedger :=
  foldl upload_step l events.

(** The octets handed to the transport, unbounded. *)
Definition emitted (events : list UploadEvent) : Z := foldr (fun e acc => (up_octets e + acc)%Z) 0%Z events.

Lemma upload_step_enforced l e :
  up_enforced l = true ->
  upload_step l e = up_set l {| up_start_millis := up_start_millis (up_current l (up_now e));
    up_bytes := match e with
                | UpCharge _ octets => u64_saturating_add (up_bytes (up_current l (up_now e))) octets
                | _ => up_bytes (up_current l (up_now e)) end |}.
Proof.
  intros Hen. destruct e; cbn; unfold admit_upload, charge_wire_octets, window_bytes_used; rewrite Hen; cbn;
    by destruct (up_current l _).
Qed.

Lemma upload_run_fields l events :
  up_enforced l = true ->
  up_enforced (upload_run l events) = true /\ up_budget (upload_run l events) = up_budget l.
Proof.
  revert l. induction events as [|e events IH]; intros l Hen; [done|].
  cbn [upload_run foldl]. rewrite upload_step_enforced by done.
  by match goal with |- up_enforced (foldl _ ?l' _) = _ /\ _ => apply (IH l') end.
Qed.

(** Inside one window the counter is the emitted total, clipped at u64::MAX. *)
Lemma upload_run_window events l s u :
  up_enforced l = true -> up_state l = Some {| up_start_millis := s; up_bytes := Z.min u u64_max |} ->
  (0 <= u)%Z -> Forall (fun e => s <= up_now e < s + up_window_millis l /\ 0 <= up_octets e)%Z events ->
  up_state (upload_run l events) = Some {| up_start_millis := s; up_bytes := Z.min (u + emitted events) u64_max |}.
Proof.
  revert l u. induction events as [|e events IH]; intros l u Hen Hst Hu Hin.
  { cbn. by rewrite Z.add_0_r. }
  apply Forall_cons in Hin as [[Hnow Hoct] Hin].
  cbn [upload_run foldl]. fold (upload_run (upload_step l e) events).
  assert (up_current l (up_now e) = {| up_start_millis := s; up_bytes := Z.min u u64_max |}) as Hcur.
  { unfold up_current, up_roll_if_expired, window_expired. rewrite Hst. cbn.
    rewrite (proj2 (Z.leb_gt _ _)); [done|]. unfold u64_saturating_sub. lia. }
  rewrite upload_step_enforced, Hcur by done. cbn [up_start_millis up_bytes].
  rewrite (IH _ (u + up_octets e)%Z); [|done| |lia|done].
  - cbn [emitted foldr]. fold (emitted events). by rewrite Z.add_assoc.
  - cbn. do 2 f_equal. destruct e; cbn in *; unfold u64_saturating_add; try rewrite Z.add_0_r; lia.
Qed.

(** After any history, once a window opens at [now0], an upload is
    admitted in it exactly while the octets emitted in it are below the cap,
    over unbounded integers (saturation never reopens a spent window), and the
    first admission after the window ends starts from zero. *)
Theorem upload_admits_while_unspent b history now0 events now :
  let l0 := upload_run (UploadRateLedger_with_clock b) history in
  let l := upload_run l0 (UpAdmit now0 :: events) in
  let W := up_window_millis (UploadRateLedger_with_clock b) in
  (max_bytes_per_window b <= u64_max)%Z ->
  up_current l0 now0 = up_opened_at now0 ->
  Forall (fun e => now0 <= up_now e < now0 + W /\ 0 <= up_octets e)%Z events -> (now0 <= now)%Z ->
  (admit_upload l now).2 =
    if (now <? now0 + W)%Z then (emitted events <? max_bytes_per_window b)%Z
    else (0 <? max_bytes_per_window b)%Z.
Proof.
  intros l0 l W Hcap Hopen Hin Hnow.
  destruct (upload_run_fields (UploadRateLedger_with_clock b) history eq_refl) as [He0 Hb0].
  fold l0 in He0, Hb0.
  assert (up_enforced l = true /\ up_budget l = up_budget l0) as [He Hb] by by apply upload_run_fields.
  assert (up_window_millis l = W) as HW by (unfold up_window_millis; by rewrite Hb, Hb0).
  assert (up_state l = Some {| up_start_millis := now0; up_bytes := Z.min (0 + emitted events) u64_max |}) as Hst.
  { unfold l. cbn [upload_run foldl]. apply upload_run_window; rewrite ?upload_step_enforced by done; [done| |done|].
    - cbn. by rewrite Hopen.
    - unfold up_set, up_window_millis. cbn. by rewrite Hb0. }
  unfold admit_upload. rewrite He. cbn [negb snd]. unfold up_current, up_roll_if_expired, window_expired.
  rewrite Hst, HW, Hb, Hb0. cbn [default id from_option up_start_millis]. unfold u64_saturating_sub.
  destruct (Z.ltb_spec now (now0 + W)).
  - rewrite (proj2 (Z.leb_gt _ _)) by lia. cbn.
    destruct (Z.ltb_spec (emitted events) (max_bytes_per_window b)); [apply Z.ltb_lt|apply Z.ltb_ge]; lia.
  - by rewrite (proj2 (Z.leb_le _ _)) by lia.
Qed.

(** ** Concrete runs *)

Definition w_node (b : Byte.byte) : NodeId := NodeId_from_bytes (fill NODE_ID_LEN b).
Definition w_small : DeriveBudget :=
  {| max_bytes_per_peer := 100; max_dumps_per_peer := 4; max_bytes_global := 150;
     max_dumps_global := 6; derive_window := secs 1 |}.
Definition w_peer_a := w_node Byte.x01.
Definition w_peer_b := w_node Byte.x02.
(** The cap is spent just before and just after the window opened at 0 rolls. *)
Definition w_spend : list WorkEvent := [(999, w_peer_a, 100, 1); (999, w_peer_b, 100, 1); (1000, w_peer_a, 100, 1)]%Z.

Lemma derive_span_bound_witness :
  (work_run (work_run (PeerDeriveLedger_with_clock w_small) [(0, w_peer_a, 0, 0)%Z]).1 w_spend).2 =
    zip w_spend [DeriveAdmitted; RefusedGlobal; DeriveAdmitted] /\
  (admitted_total (of_peer w_peer_a (ev_amount Bytes))
     (work_run (work_run (PeerDeriveLedger_with_clock w_small) [(0, w_peer_a, 0, 0)%Z]).1 w_spend).2 <= 2 * 100)%Z.
Proof.
  split; [vm_compute; reflexivity|].
  apply (derive_span_bound w_small [(0, w_peer_a, 0, 0)%Z] w_spend 500 Bytes w_peer_a).
  - repeat split; done.
  - repeat constructor; done.
  - repeat constructor; done.
  - repeat constructor; vm_compute; done.
Defined.

Lemma derive_sweep_neutral_witness :
  map snd (work_run (PeerDeriveLedger_with_clock w_small) w_spend).2 =
  unswept_run (PeerDeriveLedger_with_clock w_small) w_spend.
Proof. apply derive_sweep_neutral. repeat constructor; done. Defined.

Lemma derive_verdict_exact_witness :
  (try_admit_work (PeerDeriveLedger_with_clock w_small) 5 w_peer_a 101 1).2 = RefusedPerPeer.
Proof.
  pose proof (derive_verdict_exact (PeerDeriveLedger_with_clock w_small) (5, w_peer_a, 101, 1)%Z eq_refl) as H.
  destruct H as [H _]; [repeat split; done|]. etransitivity; [exact H|]. vm_compute. reflexivity.
Defined.

Lemma upload_admits_while_unspent_witness :
  (admit_upload (upload_run (UploadRateLedger_with_clock {| max_bytes_per_window := 10; upload_window := 0 |})
     [UpAdmit 7; UpCharge 8 6; UpCharge 900 4]) 1006).2 = false.
Proof.
  pose proof (upload_admits_while_unspent {| max_bytes_per_window := 10; upload_window := 0 |}
    [] 7 [UpCharge 8 6; UpCharge 900 4] 1006) as H.
  etransitivity; [apply H|].
  - done.
  - vm_compute. reflexivity.
  - repeat constructor; vm_compute; done.
  - done.
  - vm_compute. reflexivity.
Defined.
