(* ===== verification/NixBase32.v ===== *)
(** * Nix base-32: daemon-core/src/nixbase32.rs

    The string form of a NAR hash.  [encode] and [decode_fixed] follow the
    source byte by byte (indexing that would panic is [None] of the outer
    option); the lemmas read both as the base-32 digits of one little-endian
    number, from which neither ever panics and the decoder accepts exactly
    what the encoder writes, at every array size.  [NarHashKey] is the strict
    hash key of daemon-core/src/claim.rs over it. *)

From Stdlib Require Import Strings.Byte ZArith ZifyNat Lia.
From stdpp Require Import base sets numbers strings countable list.
From S2P Require Import Prelude Text.

Module Base32.

Definition ALPHABET : list byte := str "0123456789abcdfghijklmnpqrsvwxyz".

Definition encoded_len (byte_len : nat) : nat :=
  if byte_len =? 0 then 0 else (byte_len * 8 - 1) / 5 + 1.

(** Shifts of a u16. *)
Definition u16_shl (a : Z) (k : nat) : Z := (Z.shiftl a (Z.of_nat k) mod 65536)%Z.
Definition u16_shr (a : Z) (k : nat) : Z := Z.shiftr a (Z.of_nat k).

(** The body of the loop of [encode]: the character of digit [n]. *)
Definition encode_digit (bytes : list byte) (n : nat) : option byte :=
  let bit := n * 5 in
  let i := bit / 8 in
  let j := bit mod 8 in
  b ← bytes !! i;
  let here := u16_shr (u8_val b) j in
  next ← (if i + 1 <? length bytes
          then b' ← bytes !! (i + 1); Some (u16_shl (u8_val b') (8 - j))
          else Some 0%Z);
  ALPHABET !! Z.to_nat (Z.land (Z.lor here next) 31).

Definition encode (bytes : list byte) : option (list byte) :=
  mapM (encode_digit bytes) (reverse (seq 0 (encoded_len (length bytes)))).

Inductive Base32Error :=
| WrongLength (expected found : nat)
| BadChar (index : nat)
| NonCanonicalTail.
#[global] Instance Base32Error_eq_dec : EqDecision Base32Error.
Proof. solve_decision. Defined.

(** `ALPHABET.iter().position(|&a| a == c)` *)
Definition position (c : byte) : option nat := fst <$> list_find (fun a => a = c) ALPHABET.

(** `out[i] |= x` *)
Definition or_assign (out : list byte) (i : nat) (x : byte) : option (list byte) :=
  b ← out !! i;
  Some (<[i := as_u8 (Z.lor (u8_val b) (u8_val x))]> out).

(** One round of the loop of [decode_fixed::<N>]: digit [n], counted from the
    end of the string. *)
Definition decode_digit (N : nat) (sb : list byte) (n : nat) (out : list byte) :
    option (result Base32Error (list byte)) :=
  c ← sb !! (length sb - n - 1);
  match position c with
  | None => Some (Err (BadChar (length sb - n - 1)))
  | Some d =>
      let digit := Z.of_nat d in
      let bit := n * 5 in
      let i := bit / 8 in
      let j := bit mod 8 in
      out ← or_assign out i (as_u8 (u16_shl digit j));
      let carry := u16_shr digit (8 - j) in
      if i + 1 <? N then out ← or_assign out (i + 1) (as_u8 carry); Some (Ok out)
      else if negb (carry =? 0)%Z then Some (Err NonCanonicalTail)
      else Some (Ok out)
  end.

(** The loop, over the rounds still to run. *)
Fixpoint decode_loop (N : nat) (sb : list byte) (rounds : list nat) (out : list byte) :
    option (result Base32Error (list byte)) :=
  match rounds with
  | [] => Some (Ok out)
  | n :: rest =>
      r ← decode_digit N sb n out;
      match r with Ok out' => decode_loop N sb rest out' | Err e => Some (Err e) end
  end.

Definition decode_fixed (N : nat) (s : list byte) : option (result Base32Error (array N)) :=
  let expected := encoded_len N in
  if negb (length s =? expected) then Some (Err (WrongLength expected (length s)))
  else
    r ← decode_loop N s (seq 0 (length s)) (replicate N x00);
    match r with Ok out => a ← try_into N out; Some (Ok a) | Err e => Some (Err e) end.

(** [lia] over quotients and remainders by constants. *)
Ltac dlia := zify; Z.to_euclidean_division_equations; lia.

(** ** The little-endian number of a byte list *)

Fixpoint le_val (l : list byte) : Z :=
  match l with [] => 0 | b :: r => u8_val b + 256 * le_val r end%Z.

Lemma le_val_range l : (0 <= le_val l < 256 ^ Z.of_nat (length l))%Z.
Proof.
  induction l as [|b l IH]; simpl le_val; simpl length; [done|].
  pose proof (u8_val_range b). rewrite Nat2Z.inj_succ, Z.pow_succ_r by lia. lia.
Qed.

Lemma le_val_inj l l' : length l = length l' -> le_val l = le_val l' -> l = l'.
Proof.
  revert l'. induction l as [|b l IH]; intros [|b' l']; simpl; try done.
  intros [= Hlen] H. pose proof (u8_val_range b). pose proof (u8_val_range b').
  assert (u8_val b = u8_val b') as Hb by lia.
  f_equal; [by apply u8_val_inj|apply IH; [done|lia]].
Qed.

Lemma le_val_drop l i : le_val (drop i l) = (le_val l / 256 ^ Z.of_nat i)%Z.
Proof.
  revert l. induction i as [|i IH]; intros l; [by rewrite drop_0, Z.div_1_r|].
  destruct l as [|b l]; simpl drop; simpl le_val; [by rewrite Z.div_0_l by lia|].
  rewrite IH, Nat2Z.inj_succ, Z.pow_succ_r, <-Z.div_div by lia.
  pose proof (u8_val_range b). f_equal.
  rewrite Z.add_comm, Z.mul_comm, Z.div_add_l by lia. rewrite Z.div_small by lia. lia.
Qed.

Lemma le_val_zero n : le_val (replicate n x00) = 0%Z.
Proof. induction n; simpl; [done|]. rewrite IHn. reflexivity. Qed.

Lemma le_val_insert l i b x :
  l !! i = Some b ->
  le_val (<[i := x]> l) = (le_val l + (u8_val x - u8_val b) * 256 ^ Z.of_nat i)%Z.
Proof.
  revert i. induction l as [|c l IH]; intros [|i]; simpl; try done.
  - intros [= ->]. lia.
  - intros Hi. rewrite (IH i Hi), Nat2Z.inj_succ, Z.pow_succ_r by lia. lia.
Qed.

(** A number below [2 ^ (8 i + j)] has a byte below [2 ^ j] at [i]. *)
Lemma le_val_byte_bound l i j b :
  l !! i = Some b -> (le_val l < 256 ^ Z.of_nat i * 2 ^ j)%Z -> (u8_val b < 2 ^ j)%Z.
Proof.
  intros Hi Hlt. pose proof (le_val_drop l i) as Hd.
  rewrite (drop_S _ _ _ Hi) in Hd. simpl in Hd.
  pose proof (le_val_range (drop (S i) l)).
  assert (le_val l / 256 ^ Z.of_nat i < 2 ^ j)%Z.
  { apply Z.div_lt_upper_bound; lia. }
  lia.
Qed.

(** ** Digits *)

Lemma position_spec c d : position c = Some d <-> ALPHABET !! d = Some c.
Proof.
  split.
  - unfold position. intros H. apply fmap_Some in H as ([i x] & H & ->).
    apply list_find_Some in H as (Hx & -> & _). done.
  - intros H. pose proof (lookup_lt_Some _ _ _ H) as Hd. change (length ALPHABET) with 32 in Hd.
    assert (forall k, k < 32 -> position (nth k ALPHABET x00) = Some k) as Hall.
    { intros k Hk. do 32 (destruct k as [|k]; [reflexivity|]). lia. }
    rewrite <-(Hall d Hd). f_equal. symmetry. by apply nth_lookup_Some.
Qed.

Lemma alphabet_lookup d : (0 <= d < 32)%Z -> is_Some (ALPHABET !! Z.to_nat d).
Proof. intros. apply lookup_lt_is_Some. change (length ALPHABET) with 32. lia. Qed.

Lemma encoded_len_bounds N : N * 8 <= encoded_len N * 5 /\ encoded_len N * 5 < N * 8 + 5.
Proof. unfold encoded_len. destruct (Nat.eqb_spec N 0) as [->|]; [simpl; lia|]. dlia. Qed.

Lemma pow_32_digit n :
  (32 ^ Z.of_nat n = 256 ^ Z.of_nat (n * 5 / 8) * 2 ^ Z.of_nat (n * 5 mod 8))%Z.
Proof.
  change 32%Z with (2 ^ 5)%Z. change 256%Z with (2 ^ 8)%Z.
  rewrite <-!Z.pow_mul_r, <-Z.pow_add_r by lia. f_equal. dlia.
Qed.

(** Shifts as arithmetic, at each of the eight bit offsets. *)
Tactic Notation "eight_offsets" ident(j) :=
  destruct j as [|[|[|[|[|[|[|[|j]]]]]]]]; [..|exfalso; lia].

Lemma lor_disjoint a b k : (0 <= a < 2 ^ k)%Z -> (0 <= k)%Z -> Z.lor a (b * 2 ^ k) = (a + b * 2 ^ k)%Z.
Proof.
  intros Ha Hk. destruct (Z.eq_dec a 0%Z) as [->|]; [by rewrite Z.lor_0_l|].
  rewrite Z.add_nocarry_lxor, Z.lxor_lor; [done|..].
  all: apply Z.bits_inj'; intros m Hm; rewrite Z.land_spec, Z.bits_0;
    destruct (Z.lt_ge_cases m k);
    [rewrite Z.mul_pow2_bits_low by lia; apply andb_false_r
    |rewrite (Z.bits_above_log2 a m); [done|lia|]].
  all: apply Z.log2_lt_pow2; [lia|]; apply Z.lt_le_trans with (2 ^ k)%Z;
    [lia|apply Z.pow_le_mono_r; lia].
Qed.

Lemma join_arith b0 b1 j :
  (0 <= b0 < 256)%Z -> (0 <= b1 < 256)%Z -> j < 8 ->
  Z.land (Z.lor (u16_shr b0 j) (u16_shl b1 (8 - j))) 31 =
  ((b0 + 256 * b1) / 2 ^ Z.of_nat j mod 32)%Z.
Proof.
  intros H0 H1 Hj. unfold u16_shr, u16_shl.
  rewrite Z.shiftr_div_pow2, Z.shiftl_mul_pow2 by lia.
  rewrite (Z.mod_small (b1 * _)).
  2:{ eight_offsets j; simpl; lia. }
  rewrite lor_disjoint; [|eight_offsets j; simpl; lia|lia].
  change 31%Z with (Z.ones 5). rewrite Z.land_ones by lia. change (2 ^ 5)%Z with 32%Z.
  eight_offsets j; simpl; dlia.
Qed.

(** The character the encoder writes for digit [n] is digit [n] of the number. *)
Lemma encode_digit_spec bytes n :
  n < encoded_len (length bytes) ->
  encode_digit bytes n = ALPHABET !! Z.to_nat (le_val bytes / 32 ^ Z.of_nat n mod 32).
Proof.
  intros Hn. pose proof (encoded_len_bounds (length bytes)) as [_ Hb].
  assert (n * 5 / 8 < length bytes) as Hi by dlia.
  assert (n * 5 mod 8 < 8) as Hj by dlia.
  rewrite pow_32_digit, <-Z.div_div, <-le_val_drop by lia.
  unfold encode_digit. revert Hi Hj.
  generalize (n * 5 / 8) (n * 5 mod 8). intros i j Hi Hj.
  destruct (lookup_lt_is_Some_2 bytes i Hi) as [b Hlk]. rewrite Hlk. simpl.
  rewrite (drop_S _ _ _ Hlk). simpl. pose proof (u8_val_range b).
  destruct (Nat.ltb_spec (i + 1) (length bytes)) as [Hi'|Hi'].
  - destruct (lookup_lt_is_Some_2 bytes (i + 1) Hi') as [b' Hlk']. rewrite Hlk'. simpl.
    rewrite Nat.add_1_r in Hlk'. rewrite (drop_S _ _ _ Hlk'). simpl.
    pose proof (u8_val_range b'). rewrite join_arith by done.
    f_equal. f_equal. generalize (le_val (drop (S (S i)) bytes)). intros R.
    eight_offsets j; simpl; dlia.
  - rewrite drop_ge by lia. simpl.
    pose proof (join_arith (u8_val b) 0 j) as Hjoin.
    replace (u16_shl 0 (8 - j)) with 0%Z in Hjoin by (unfold u16_shl; by rewrite Z.shiftl_0_l).
    by rewrite Hjoin by lia.
Qed.

(** The number a digit list (lowest first) stands for. *)
Definition ds_val (ds : list nat) : Z := foldr (fun d v => Z.of_nat d + 32 * v)%Z 0%Z ds.

Lemma ds_val_range ds : Forall (fun d => d < 32) ds -> (0 <= ds_val ds < 32 ^ Z.of_nat (length ds))%Z.
Proof.
  induction 1 as [|d ds Hd _ IH]; simpl length; [done|].
  change (ds_val (d :: ds)) with (Z.of_nat d + 32 * ds_val ds)%Z.
  rewrite Nat2Z.inj_succ, Z.pow_succ_r by lia. lia.
Qed.

Lemma position_lt c d : position c = Some d -> d < 32.
Proof. intros H%position_spec%lookup_lt_Some. exact H. Qed.

Lemma or_assign_spec out i x b :
  out !! i = Some b ->
  exists out', or_assign out i x = Some out' /\ length out' = length out /\
    le_val out' = (le_val out + (Z.lor (u8_val b) (u8_val x) - u8_val b) * 256 ^ Z.of_nat i)%Z /\
    forall k, k <> i -> out' !! k = out !! k.
Proof.
  intros Hb. unfold or_assign. rewrite Hb. simpl. eexists. split; [done|].
  rewrite length_insert, (le_val_insert _ _ b) by done. split; [done|]. split.
  - rewrite u8_val_as_u8_small; [done|].
    pose proof (u8_val_range b). pose proof (u8_val_range x). split.
    + apply Z.lor_nonneg. lia.
    + destruct (Z.eq_dec (Z.lor (u8_val b) (u8_val x)) 0%Z) as [->|]; [lia|].
      change 256%Z with (2 ^ 8)%Z. apply Z.log2_lt_pow2.
      { pose proof (proj2 (Z.lor_nonneg (u8_val b) (u8_val x))). lia. }
      rewrite Z.log2_lor by lia. apply Z.max_lub_lt.
      all: match goal with |- (Z.log2 ?v < 8)%Z =>
        destruct (Z.eq_dec v 0%Z) as [->|]; [done|]; apply Z.log2_lt_pow2; lia end.
  - intros k Hk. by rewrite list_lookup_insert_ne.
Qed.

Lemma digit_split d j :
  d < 32 -> j < 8 ->
  exists e c, u8_val (as_u8 (u16_shl (Z.of_nat d) j)) = (e * 2 ^ Z.of_nat j)%Z /\
    u16_shr (Z.of_nat d) (8 - j) = c /\ u8_val (as_u8 c) = c /\
    (e * 2 ^ Z.of_nat j + 256 * c = Z.of_nat d * 2 ^ Z.of_nat j)%Z /\ (0 <= e)%Z /\ (0 <= c)%Z.
Proof.
  intros Hd Hj. exists (Z.of_nat d mod 2 ^ Z.of_nat (8 - j))%Z, (Z.of_nat d / 2 ^ Z.of_nat (8 - j))%Z.
  unfold u16_shl, u16_shr. rewrite Z.shiftr_div_pow2, Z.shiftl_mul_pow2, !u8_val_as_u8 by lia.
  eight_offsets j; simpl; repeat split; dlia.
Qed.

(** One decoding round adds its digit at its weight, or finds that the number
    no longer fits. *)
Lemma decode_digit_spec N sb n out c d :
  n < encoded_len N -> length out = N -> (le_val out < 32 ^ Z.of_nat n)%Z ->
  sb !! (length sb - n - 1) = Some c -> position c = Some d ->
  let v := (le_val out + Z.of_nat d * 32 ^ Z.of_nat n)%Z in
  if decide (v < 256 ^ Z.of_nat N)%Z
  then exists out', decode_digit N sb n out = Some (Ok out') /\ length out' = N /\ le_val out' = v
  else decode_digit N sb n out = Some (Err NonCanonicalTail).
Proof.
  intros Hn Hlen Hlt Hc Hd v. subst v. pose proof (encoded_len_bounds N) as [_ Hb].
  assert (n * 5 / 8 < N) as Hi by dlia. assert (n * 5 mod 8 < 8) as Hj by dlia.
  unfold decode_digit. rewrite Hc. cbn [mbind option_bind]. rewrite Hd. apply position_lt in Hd.
  revert Hlt. rewrite pow_32_digit. revert Hi Hj.
  generalize (n * 5 / 8) (n * 5 mod 8). intros i j Hi Hj Hlt.
  destruct (lookup_lt_is_Some_2 out i) as [b Hlk]; [lia|].
  pose proof (le_val_byte_bound _ _ _ _ Hlk Hlt) as Hbj. pose proof (u8_val_range b).
  destruct (digit_split d j Hd Hj) as (e & k & He & -> & Hk & Hsum & He0 & Hk0).
  destruct (or_assign_spec out i (as_u8 (u16_shl (Z.of_nat d) j)) b Hlk)
    as (o1 & -> & Hl1 & Hv1 & Hsame). cbn [mbind option_bind].
  rewrite He, lor_disjoint in Hv1 by lia.
  assert (le_val o1 = le_val out + e * 2 ^ Z.of_nat j * 256 ^ Z.of_nat i)%Z as Hv by lia.
  clear Hv1. pose proof (le_val_range o1) as Hr. rewrite Hl1, Hlen in Hr.
  assert (2 ^ Z.of_nat j <= 128)%Z as HQ.
  { change 128%Z with (2 ^ 7)%Z. apply Z.pow_le_mono_r; lia. }
  assert (256 ^ Z.of_nat (i + 1) = 256 * 256 ^ Z.of_nat i)%Z as HP.
  { rewrite Nat2Z.inj_add, Z.pow_add_r by lia. lia. }
  assert (0 < 256 ^ Z.of_nat i)%Z as HP0 by lia.
  assert (Z.of_nat d * (256 ^ Z.of_nat i * 2 ^ Z.of_nat j) =
          (e * 2 ^ Z.of_nat j + 256 * k) * 256 ^ Z.of_nat i)%Z as Hd2 by (rewrite Hsum; lia).
  destruct (Nat.ltb_spec (i + 1) N) as [Hi'|Hi'].
  - destruct (lookup_lt_is_Some_2 out (i + 1)) as [b' Hlk']; [lia|].
    assert (u8_val b' < 2 ^ 0)%Z as Hb0.
    { apply (le_val_byte_bound _ _ _ _ Hlk'). rewrite HP. nia. }
    pose proof (u8_val_range b'). assert (u8_val b' = 0)%Z as Hb' by lia. clear Hb0.
    destruct (or_assign_spec o1 (i + 1) (as_u8 k) b') as (o2 & -> & Hl2 & Hv2 & _).
    { rewrite Hsame by lia. done. }
    rewrite Hb', Hk, Z.lor_0_l, HP in Hv2. cbn [mbind option_bind].
    pose proof (le_val_range o2) as Hr2. rewrite Hl2, Hl1, Hlen in Hr2.
    rewrite decide_True by lia. exists o2. split; [done|]. split; [lia|]. lia.
  - assert (N = i + 1) as -> by lia. rewrite HP in *.
    destruct (Z.eqb_spec k 0) as [->|Hk']; simpl.
    + rewrite decide_True by lia. exists o1. split; [done|]. split; [lia|]. lia.
    + rewrite decide_False; [done|]. nia.
Qed.

(** What the loop from round [n] on returns, in terms of the digits still to
    read (lowest first). *)
Lemma decode_loop_spec N sb k n out :
  length sb = encoded_len N -> n + k = length sb ->
  length out = N -> (le_val out < 32 ^ Z.of_nat n)%Z ->
  exists r, decode_loop N sb (seq n k) out = Some r /\
  match r with
  | Ok out' => length out' = N /\ exists ds, mapM position (drop n (reverse sb)) = Some ds /\
      le_val out' = (le_val out + 32 ^ Z.of_nat n * ds_val ds)%Z
  | Err (BadChar i) => exists c, sb !! i = Some c /\ position c = None /\
      forall j c', i < j < length sb - n -> sb !! j = Some c' -> position c' <> None
  | Err NonCanonicalTail =>
      forall ds, mapM position (drop n (reverse sb)) = Some ds ->
        (256 ^ Z.of_nat N <= le_val out + 32 ^ Z.of_nat n * ds_val ds)%Z
  | Err (WrongLength _ _) => False
  end.
Proof.
  intros Hsb. revert n out. induction k as [|k IH]; intros n out Hnk Hlen Hlt.
  { simpl. eexists. split; [done|]. split; [done|].
    rewrite drop_ge by (rewrite length_reverse; lia). exists []. split; [done|]. simpl. lia. }
  cbn [seq decode_loop]. destruct (lookup_lt_is_Some_2 sb (length sb - n - 1)) as [c Hc]; [lia|].
  assert (reverse sb !! n = Some c) as Hrev.
  { rewrite reverse_lookup by lia. by replace (length sb - S n) with (length sb - n - 1) by lia. }
  rewrite (drop_S _ _ _ Hrev). cbn [mapM].
  destruct (position c) as [d|] eqn:Hd.
  2:{ unfold decode_digit. rewrite Hc. cbn [mbind option_bind]. rewrite Hd. eexists.
      split; [done|]. exists c. split; [done|]. split; [done|]. intros j c' Hj. lia. }
  pose proof (decode_digit_spec N sb n out c d) as Hstep.
  specialize (Hstep ltac:(lia) Hlen Hlt Hc Hd). cbn zeta in Hstep.
  pose proof (position_lt _ _ Hd) as Hd32.
  destruct (decide _) as [Hv|Hv] in Hstep.
  - destruct Hstep as (o1 & -> & Hl1 & Hv1). cbn [mbind option_bind].
    destruct (IH (S n) o1) as (r & -> & Hr); [lia|done| |].
    { rewrite Hv1, Nat2Z.inj_succ, Z.pow_succ_r by lia. nia. }
    exists r. split; [done|]. rewrite Nat2Z.inj_succ, Z.pow_succ_r, Hv1 in Hr by lia.
    destruct r as [out'|[| |]]; [|done| |].
    + destruct Hr as (Hl & ds & Hds & Hval). split; [done|]. exists (d :: ds).
      rewrite Hds. split; [done|]. rewrite Hval. simpl. lia.
    + destruct Hr as (c' & Hi & Hbad & Hlater). exists c'. split; [done|]. split; [done|].
      intros j cj Hj Hlk. destruct (decide (j = length sb - n - 1)) as [->|]; [congruence|].
      apply (Hlater j cj); [lia|done].
    + intros ds Hds. cbn in Hds. destruct (mapM position (drop (S n) (reverse sb))) as [ds'|]; [|done].
      injection Hds as <-. specialize (Hr ds' eq_refl). simpl. lia.
  - rewrite Hstep. cbn [mbind option_bind]. eexists. split; [done|].
    intros ds Hds. cbn in Hds.
    destruct (mapM position (drop (S n) (reverse sb))) as [ds'|] eqn:E; [|done].
    injection Hds as <-. simpl.
    assert (0 <= ds_val ds')%Z; [|nia].
    apply ds_val_range. apply mapM_Some in E. clear -E.
    induction E as [|x y l l' H _ IH]; constructor; [by eapply position_lt|done].
Qed.

(** The digits the encoder writes, lowest first. *)
Definition digits_of (v : Z) (len : nat) : list nat :=
  (fun n => Z.to_nat (v / 32 ^ Z.of_nat n mod 32)) <$> seq 0 len.

Lemma digits_of_S v len :
  digits_of v (S len) = Z.to_nat (v mod 32) :: digits_of (v / 32) len.
Proof.
  unfold digits_of. rewrite <-cons_seq, fmap_cons, Z.div_1_r, <-fmap_S_seq, <-list_fmap_compose.
  f_equal. apply list_fmap_ext. intros i n _. simpl.
  rewrite Nat2Z.inj_succ, Z.pow_succ_r, Z.div_div by lia. done.
Qed.

Lemma ds_val_digits v len : (0 <= v < 32 ^ Z.of_nat len)%Z -> ds_val (digits_of v len) = v.
Proof.
  revert v. induction len as [|len IH]; intros v Hv; [simpl in *; lia|].
  rewrite digits_of_S. rewrite Nat2Z.inj_succ, Z.pow_succ_r in Hv by lia.
  simpl. rewrite IH; dlia.
Qed.

Lemma digits_ds_val ds : Forall (fun d => d < 32) ds -> digits_of (ds_val ds) (length ds) = ds.
Proof.
  induction 1 as [|d ds Hd Hds IH]; [done|]. simpl length. rewrite digits_of_S.
  change (ds_val (d :: ds)) with (Z.of_nat d + 32 * ds_val ds)%Z. f_equal; [dlia|].
  rewrite <-IH at 3. f_equal. dlia.
Qed.

Lemma Forall2_impl_elem {A B} (P Q : A -> B -> Prop) l k :
  (forall x y, x ∈ l -> P x y -> Q x y) -> Forall2 P l k -> Forall2 Q l k.
Proof.
  intros HPQ H. induction H as [|x y l k Hxy _ IH]; constructor.
  - apply HPQ; [by left|done].
  - apply IH. intros x' y' Hx. apply HPQ. by right.
Qed.

(** The encoder writes exactly the strings whose digits, read from the end,
    are those of the number. *)
Lemma encode_Some bytes s :
  encode bytes = Some s <->
  mapM position (reverse s) = Some (digits_of (le_val bytes) (encoded_len (length bytes))).
Proof.
  unfold encode, digits_of. rewrite !mapM_Some.
  assert (Forall2 (fun n c => encode_digit bytes n = Some c)
            (reverse (seq 0 (encoded_len (length bytes)))) s <->
          Forall2 (fun n c => encode_digit bytes n = Some c)
            (seq 0 (encoded_len (length bytes))) (reverse s)) as ->.
  { split; intros H%Forall2_reverse; by rewrite ?reverse_involutive in H. }
  rewrite Forall2_fmap_r, <-(Forall2_flip _ (reverse s)).
  split; apply Forall2_impl_elem; intros n c Hn Hc; apply elem_of_seq in Hn; simpl in *.
  - rewrite encode_digit_spec in Hc by lia. by apply position_spec.
  - rewrite encode_digit_spec by lia. by apply position_spec.
Qed.

Lemma encode_defined bytes : exists s, encode bytes = Some s.
Proof.
  unfold encode. apply mapM_is_Some, Forall_forall. intros n Hn.
  rewrite elem_of_reverse, elem_of_seq in Hn. change (is_Some (encode_digit bytes n)).
  rewrite encode_digit_spec by lia.
  apply alphabet_lookup. dlia.
Qed.

Lemma length_base32 bytes s : encode bytes = Some s -> length s = encoded_len (length bytes).
Proof.
  intros H%length_mapM. by rewrite length_reverse, length_seq in H.
Qed.

Lemma le_val_fits bytes : (0 <= le_val bytes < 32 ^ Z.of_nat (encoded_len (length bytes)))%Z.
Proof.
  pose proof (le_val_range bytes). split; [lia|].
  apply Z.lt_le_trans with (256 ^ Z.of_nat (length bytes))%Z; [lia|].
  change 256%Z with (2 ^ 8)%Z. change 32%Z with (2 ^ 5)%Z. rewrite <-!Z.pow_mul_r by lia.
  apply Z.pow_le_mono_r; [lia|]. pose proof (encoded_len_bounds (length bytes)). lia.
Qed.

Lemma base32_position_None c : position c = None <-> c ∉ ALPHABET.
Proof.
  rewrite list_elem_of_lookup, eq_None_not_Some. unfold is_Some.
  by setoid_rewrite position_spec.
Qed.

(** The decoder, on an arbitrary string. *)
Lemma decode_fixed_spec N s :
  exists r, decode_fixed N s = Some r /\
  match r with
  | Ok a => encode (arr_bytes a) = Some s
  | Err (WrongLength expected found) =>
      expected = encoded_len N /\ found = length s /\ expected <> found
  | Err (BadChar i) => length s = encoded_len N /\
      (exists c, s !! i = Some c /\ c ∉ ALPHABET) /\
      forall j c, i < j -> s !! j = Some c -> c ∈ ALPHABET
  | Err NonCanonicalTail => length s = encoded_len N /\
      forall a : array N, encode (arr_bytes a) <> Some s
  end.
Proof.
  unfold decode_fixed. destruct (Nat.eqb_spec (length s) (encoded_len N)) as [Hlen|]; simpl.
  2:{ eexists. split; [done|]. split; [done|]. split; [done|]. congruence. }
  destruct (decode_loop_spec N s (length s) 0 (replicate N x00)) as (r & -> & Hr);
    [done|lia|by rewrite length_replicate|by rewrite le_val_zero|].
  cbn [mbind option_bind]. change (32 ^ Z.of_nat 0)%Z with 1%Z in Hr.
  destruct r as [out|[| |]]; [|done| |].
  - destruct Hr as (Hl & ds & Hds & Hv). rewrite drop_0 in Hds.
    rewrite le_val_zero, Z.mul_1_l, Z.add_0_l in Hv. destruct (try_into_is_Some N out Hl) as [a Ha].
    rewrite Ha. apply try_into_Some in Ha. eexists. split; [done|]. apply encode_Some.
    rewrite Ha, Hds, Hv, Hl, <-Hlen. f_equal. symmetry.
    replace (length s) with (length ds).
    2:{ apply length_mapM in Hds. by rewrite length_reverse in Hds. }
    apply digits_ds_val. apply mapM_Some in Hds. clear -Hds.
    induction Hds as [|x y l l' H _ IH]; constructor; [by eapply position_lt|done].
  - destruct Hr as (c & Hc & Hbad & Hlater). eexists. split; [done|]. split; [done|].
    split; [exists c; by rewrite <-base32_position_None|]. intros j c' Hj Hlk.
    destruct (decide (c' ∈ ALPHABET)) as [|Hn%base32_position_None]; [done|].
    exfalso. apply (Hlater j c'); [|done|done]. apply lookup_lt_Some in Hlk. lia.
  - eexists. split; [done|]. split; [done|]. intros a Ha%encode_Some.
    rewrite arr_length in Ha. rewrite drop_0 in Hr. apply Hr in Ha.
    rewrite le_val_zero, Z.mul_1_l, Z.add_0_l in Ha.
    pose proof (le_val_fits (arr_bytes a)). pose proof (le_val_range (arr_bytes a)).
    rewrite arr_length in *. rewrite ds_val_digits in Ha by done. lia.
Qed.

(** What the encoder writes decodes to what was encoded. *)
Lemma decode_encode N (a : array N) s :
  encode (arr_bytes a) = Some s -> decode_fixed N s = Some (Ok a).
Proof.
  intros Hs. pose proof (length_base32 _ _ Hs) as Hlen. rewrite arr_length in Hlen.
  destruct (decode_fixed_spec N s) as (r & Hr & H). rewrite Hr.
  destruct r as [b|[| |]].
  - apply encode_Some in H, Hs. rewrite Hs in H. rewrite !arr_length in H.
    assert (digits_of (le_val (arr_bytes a)) (encoded_len N) =
            digits_of (le_val (arr_bytes b)) (encoded_len N)) as Heq%(f_equal ds_val) by congruence.
    pose proof (le_val_fits (arr_bytes a)). pose proof (le_val_fits (arr_bytes b)).
    rewrite arr_length in *. rewrite !ds_val_digits in Heq by done.
    do 2 f_equal. apply arr_eq. symmetry. apply le_val_inj; [by rewrite !arr_length|done].
  - destruct H as (-> & -> & Hne). congruence.
  - destruct H as (_ & (c & Hc & Hbad) & _). apply encode_Some, mapM_Some in Hs.
    exfalso. apply Hbad. apply Forall2_reverse in Hs. rewrite reverse_involutive in Hs.
    eapply Forall2_lookup_l in Hs as (d & _ & Hd); [|done].
    apply position_spec in Hd. by eapply list_elem_of_lookup_2.
  - destruct H as [_ H]. by destruct (H a).
Qed.

(** Nix base-32 is an exact codec at every array size: every array encodes,
    without panicking, to a string of the announced length that decodes to it;
    and the decoder answers every string without panicking, with an array only
    when the string is that array's encoding, and otherwise with the error that
    says why: the two lengths, the last character outside the alphabet, or that
    no array of this size encodes to it. *)
Theorem base32_exact N :
  (forall a : array N, exists s, encode (arr_bytes a) = Some s /\
     length s = encoded_len N /\ decode_fixed N s = Some (Ok a)) /\
  (forall s, exists r, decode_fixed N s = Some r /\
   match r with
   | Ok a => encode (arr_bytes a) = Some s
   | Err (WrongLength expected found) =>
       expected = encoded_len N /\ found = length s /\ expected <> found
   | Err (BadChar i) => length s = encoded_len N /\
       (exists c, s !! i = Some c /\ c ∉ ALPHABET) /\
       forall j c, i < j -> s !! j = Some c -> c ∈ ALPHABET
   | Err NonCanonicalTail => length s = encoded_len N /\
       forall a : array N, encode (arr_bytes a) <> Some s
   end).
Proof.
  split; [|apply decode_fixed_spec]. intros a.
  destruct (encode_defined (arr_bytes a)) as [s Hs]. exists s. split; [done|].
  split; [by rewrite (length_base32 _ _ Hs), arr_length|by apply decode_encode].
Qed.

End Base32.

(** ** NarHashKey (claim.rs) *)

Definition NAR_HASH_LEN : nat := 32.
Definition NAR_HASH_PREFIX : list byte := str "sha256:".

Record NarHashKey := from_sha256_bytes { nar_hash_bytes : array NAR_HASH_LEN }.
#[export] Instance NarHashKey_eq_dec : EqDecision NarHashKey.
Proof. solve_decision. Defined.
#[export] Instance NarHashKey_countable : Countable NarHashKey :=
  inj_countable' nar_hash_bytes from_sha256_bytes (fun '(from_sha256_bytes _) => eq_refl).

Inductive NarHashKeyParseError :=
| MissingPrefix
| BadBase32 (e : Base32.Base32Error).

(** The indexing of [Base32.encode] never panics ([Base32.encode_defined]), so
    the string exists. *)
Definition to_nix_base32 (k : NarHashKey) : list byte :=
  default [] (Base32.encode (arr_bytes (nar_hash_bytes k))).

(** `impl Display for NarHashKey` *)
Definition NarHashKey_to_string (k : NarHashKey) : list byte := NAR_HASH_PREFIX ++ to_nix_base32 k.

(** `impl FromStr for NarHashKey`; [None] is a panic of the decoder. *)
Definition NarHashKey_from_str (s : list byte) : option (result NarHashKeyParseError NarHashKey) :=
  match strip_prefix NAR_HASH_PREFIX s with
  | None => Some (Err MissingPrefix)
  | Some body =>
      r ← Base32.decode_fixed NAR_HASH_LEN body;
      match r with
      | Ok bytes => Some (Ok (from_sha256_bytes bytes))
      | Err e => Some (Err (BadBase32 e))
      end
  end.

Lemma NarHashKey_encode k : Base32.encode (arr_bytes (nar_hash_bytes k)) = Some (to_nix_base32 k).
Proof.
  unfold to_nix_base32. by destruct (Base32.encode_defined (arr_bytes (nar_hash_bytes k))) as [s ->].
Qed.

(** A string parses to a key exactly when it is the key's own string, and
    parsing never panics. *)
Lemma NarHashKey_from_str_iff s k :
  NarHashKey_from_str s = Some (Ok k) <-> s = NarHashKey_to_string k.
Proof.
  unfold NarHashKey_from_str, NarHashKey_to_string. split.
  - destruct (strip_prefix NAR_HASH_PREFIX s) as [body|] eqn:E; [|done].
    apply strip_prefix_Some in E as ->.
    destruct (Base32.decode_fixed_spec NAR_HASH_LEN body) as (r & -> & Hr). simpl.
    destruct r as [a|e]; [|done]. intros [= <-]. f_equal.
    pose proof (NarHashKey_encode (from_sha256_bytes a)) as Hk. simpl in Hk. congruence.
  - intros ->. rewrite strip_prefix_app.
    rewrite (Base32.decode_encode _ _ _ (NarHashKey_encode k)). simpl. by destruct k.
Qed.

Lemma NarHashKey_from_str_total s : exists r, NarHashKey_from_str s = Some r.
Proof.
  unfold NarHashKey_from_str. destruct (strip_prefix NAR_HASH_PREFIX s) as [body|]; [|eauto].
  destruct (Base32.decode_fixed_spec NAR_HASH_LEN body) as ([a|e] & -> & _); simpl; eauto.
Qed.

Lemma NarHashKey_to_string_inj k k' : NarHashKey_to_string k = NarHashKey_to_string k' -> k = k'.
Proof.
  intros H. pose proof (proj2 (NarHashKey_from_str_iff _ k) eq_refl) as H1.
  rewrite H in H1. pose proof (proj2 (NarHashKey_from_str_iff _ k') eq_refl). congruence.
Qed.

(** The characters of a key's string: letters, digits and the colon. *)
Lemma NarHashKey_to_string_chars k b :
  b ∈ NarHashKey_to_string k -> b ∈ NAR_HASH_PREFIX \/ b ∈ Base32.ALPHABET.
Proof.
  unfold NarHashKey_to_string. rewrite elem_of_app. intros [H|H]; [by left|right].
  pose proof (NarHashKey_encode k) as Hk. unfold Base32.encode in Hk.
  apply mapM_Some in Hk. apply list_elem_of_lookup in H as [i Hi].
  eapply Forall2_lookup_r in Hk as (n & _ & Hn); [|done].
  unfold Base32.encode_digit in Hn. cbn zeta in Hn.
  repeat (apply bind_Some in Hn as (? & _ & Hn)). by eapply list_elem_of_lookup_2.
Qed.
