(* ===== verification/Claim.v ===== *)
(** * Claims and hold queries: daemon-core/src/claim.rs

    A peer asks another which of the NAR hashes it names are held there; the
    answer carries, per key, yes with the content's BLAKE3 and locators, or no.
    A batch answers positionally and names its locators by index into one
    dictionary.  This file models the records, the hand-written checks of the
    decoders and the encoders.

    serde_json is a parameter: [Json] on the wire records, [JsonText] for the
    token tree of a text and the size of a value's compact text.  Error messages
    are dropped.

    The theorems: the binding check of a batch accepts exactly the responses in
    which every locator belongs to an answered key; a decoded batch is
    positional, its locators are those the peer bound to each key, and its
    dictionary is bounded by what was answered; what is encoded decodes to
    itself. *)

From Stdlib Require Import Strings.Byte ZArith Lia.
From stdpp Require Import base gmap numbers strings sorting list.
From S2P Require Import Prelude Hex Text Ids NixBase32.

Definition CLAIM_SCHEMA_VERSION : Z := 1.
Definition QUERY_SCHEMA_VERSION : Z := 1.
Definition MAX_CLAIM_WIRE_BYTES : nat := Z.to_nat (64 * 1024).
Definition MAX_BATCH_HOLD_KEYS : nat := 256.
Definition MAX_BATCH_HOLD_OFFERS : nat := 2 * MAX_BATCH_HOLD_KEYS.
Definition MAX_OFFERS_PER_ANSWER : nat := 4.
Definition MAX_OFFER_WIRE_BYTES : Z := 2 * 1024.

(** ** JSON values *)

(** A value, or the token tree of a text: then keys may repeat.  A number is its text. *)
Inductive Value :=
| JNull | JBool (b : bool) | JNum (text : list byte) | JStr (s : list byte)
| JArr (elements : list Value) | JObj (fields : list (list byte * Value)).

Fixpoint field (name : list byte) (fields : list (list byte * Value)) : option Value :=
  match fields with
  | [] => None
  | (key, value) :: rest => if bool_decide (key = name) then Some value else field name rest
  end.
Definition get (name : list byte) (v : Value) : option Value := match v with JObj fields => field name fields | _ => None end.
Definition as_str (v : Value) : option (list byte) := match v with JStr s => Some s | _ => None end.

(** A HashSet filled in order: does an insertion find its element there? *)
Fixpoint repeats {A} `{EqDecision A} (seen l : list A) : bool :=
  match l with
  | [] => false
  | x :: l => bool_decide (x ∈ seen) || repeats (x :: seen) l
  end.

Class JsonText := {
  (** The tokens of the single value a text holds. *)
  json_tree : list byte -> option Value;
  (** `serde_json::to_string(value).len()` *)
  to_string_len : Value -> Z
}.

(** NoDuplicateKeys, at every level. *)
Fixpoint no_duplicate_keys (v : Value) : bool :=
  match v with
  | JArr elements => forallb no_duplicate_keys elements
  | JObj fields => negb (repeats [] (fst <$> fields)) && forallb (fun f => no_duplicate_keys f.2) fields
  | _ => true
  end.

(** ** Records *)

Inductive KnownPayload := WholeNar (blake3 : Blake3Digest).
#[export] Instance KnownPayload_eq_dec : EqDecision KnownPayload.
Proof. solve_decision. Defined.

Inductive KnownTransport := KtIroh (node : NodeId) | KtBitTorrent (infohash : InfoHash).
#[export] Instance KnownTransport_eq_dec : EqDecision KnownTransport.
Proof. solve_decision. Defined.

Definition KNOWN_PAYLOAD_KINDS : list (list byte) := [str "whole_nar"].
Definition KNOWN_TRANSPORT_TAGS : list (list byte) := [str "iroh"; str "bittorrent"].

Definition known_wire_tag (t : KnownTransport) : list byte :=
  match t with KtIroh _ => str "iroh" | KtBitTorrent _ => str "bittorrent" end.
Definition known_tag (t : KnownTransport) : TransportTag :=
  match t with KtIroh _ => TagIroh | KtBitTorrent _ => TagBitTorrent end.
Definition to_offer (t : KnownTransport) : TransportOffer :=
  match t with KtIroh node => Iroh node | KtBitTorrent infohash => BitTorrent infohash end.

Record SignedNarinfoRelay := { snr_blob : list byte }.
Record ClaimSignature := { cs_key_id : list byte; cs_sig : list byte }.

Record Claim := {
  cl_schema_version : Z;
  cl_key : NarHashKey;
  cl_payload : option KnownPayload;
  cl_holders : list NodeId;
  cl_transports : list KnownTransport;
  cl_relay : option SignedNarinfoRelay;
  cl_signatures : list ClaimSignature
}.
Definition content_id (c : Claim) : option Blake3Digest :=
  match cl_payload c with Some (WholeNar blake3) => Some blake3 | None => None end.

Record HoldQuery := { hq_schema_version : Z; hq_key : NarHashKey }.
Inductive HoldAnswer := HoldHave (blake3 : Blake3Digest) (offers : list KnownTransport) | HoldAbsent.
Record HoldResponse := { hr_schema_version : Z; hr_answer : HoldAnswer }.

Record BatchHoldQuery := { bq_schema_version : Z; bq_keys : list NarHashKey }.
Inductive BatchHoldAnswer := Have (blake3 : Blake3Digest) (offer_indices : list Z) | Absent.
Record BatchHoldResponse := { br_schema_version : Z; br_offers : list KnownTransport; br_answers : list BatchHoldAnswer }.

Inductive OfferSlot := Known (t : KnownTransport) | Unknown (tag : list byte).
Definition slot_wire_tag (s : OfferSlot) : list byte := match s with Known t => known_wire_tag t | Unknown tag => tag end.
Definition as_offer_slots (offers : list KnownTransport) : list OfferSlot := Known <$> offers.

Inductive ClaimCodecError :=
| Malformed
| UnsupportedVersion (found expected : Z)
| BatchTooLarge (found cap : nat)
| BatchAnswerCount (expected found : nat).

(** ** Offers on the wire *)

(** The fields of an object besides its tag. *)
Definition others (tag : list byte) (fields : list (list byte * Value)) : list (list byte * Value) :=
  filter (fun f => f.1 <> tag) fields.

(** `serde_json::from_value::<KnownTransport>` of an object whose tag is known:
    exactly the fields of the variant. *)
Definition known_transport_from_value (v : Value) : option KnownTransport :=
  match v with
  | JObj fields =>
      tag ← field (str "transport") fields ≫= as_str;
      match others (str "transport") fields with
      | [(name, JStr text)] =>
          if bool_decide (tag = str "iroh") && bool_decide (name = str "node")
          then match NodeId_from_str text with Ok node => Some (KtIroh node) | Err _ => None end
          else if bool_decide (tag = str "bittorrent") && bool_decide (name = str "infohash")
          then match InfoHash_from_str text with Ok infohash => Some (KtBitTorrent infohash) | Err _ => None end
          else None
      | _ => None
      end
  | _ => None
  end.

(** Serialize for KnownTransport *)
Definition offer_value (t : KnownTransport) : Value :=
  match t with
  | KtIroh node => JObj [(str "transport", JStr (str "iroh")); (str "node", JStr (NodeId_to_hex node))]
  | KtBitTorrent infohash => JObj [(str "transport", JStr (str "bittorrent")); (str "infohash", JStr (InfoHash_to_hex infohash))]
  end.

(** `from_value::<KnownPayload>` and Serialize for KnownPayload. *)
Definition known_payload_from_value (v : Value) : option KnownPayload :=
  match v with
  | JObj fields =>
      match others (str "kind") fields with
      | [(name, JStr text)] =>
          if bool_decide (name = str "blake3")
          then match Blake3Digest_from_str text with Ok blake3 => Some (WholeNar blake3) | Err _ => None end else None
      | _ => None
      end
  | _ => None
  end.
Definition payload_value (p : KnownPayload) : Value :=
  let '(WholeNar blake3) := p in JObj [(str "kind", JStr (str "whole_nar")); (str "blake3", JStr (Blake3Digest_to_string blake3))].

Definition deserialize_optional_known_payload (value : Value) : result ClaimCodecError (option KnownPayload) :=
  match value with
  | JNull => Ok None
  | _ =>
      if match get (str "kind") value ≫= as_str with Some tag => bool_decide (tag ∈ KNOWN_PAYLOAD_KINDS) | None => false end
      then payload ← ok_or (known_payload_from_value value) Malformed; Ok (Some payload)
      else Ok None
  end.

(** The loop over the fields besides the tag. *)
Fixpoint at_most_one_locator (extra_fields : nat) (fields : list (list byte * Value)) : result ClaimCodecError unit :=
  match fields with
  | [] => Ok tt
  | (name, value) :: rest =>
      if bool_decide (name = str "transport") then at_most_one_locator extra_fields rest else
      if 1 <=? extra_fields then Err Malformed else
      match value with JStr _ => at_most_one_locator (S extra_fields) rest | _ => Err Malformed end
  end.

Definition reject_enumeration_shaped_unknown_offer (value : Value) : result ClaimCodecError unit :=
  match value with
  | JObj fields =>
      match field (str "transport") fields with
      | Some (JStr _) => at_most_one_locator 0 fields
      | _ => Err Malformed
      end
  | _ => Err Malformed
  end.

Section codec.
Context `{JsonText}.

Definition offer_within_byte_cap (value : Value) : result ClaimCodecError unit :=
  reject_if (MAX_OFFER_WIRE_BYTES <? to_string_len value)%Z Malformed.

Definition transport_tag (value : Value) : option (list byte) := get (str "transport") value ≫= as_str.
Definition is_known_tag (tag : option (list byte)) : bool :=
  match tag with Some tag => bool_decide (tag ∈ KNOWN_TRANSPORT_TAGS) | None => false end.

(** One element of deserialize_transport_slots. *)
Definition transport_slot (value : Value) : result ClaimCodecError OfferSlot :=
  _ ← offer_within_byte_cap value;
  if is_known_tag (transport_tag value)
  then known ← ok_or (known_transport_from_value value) Malformed; Ok (Known known)
  else _ ← reject_enumeration_shaped_unknown_offer value; Ok (Unknown (default [] (transport_tag value))).

Fixpoint deserialize_transport_slots (raw : list Value) : result ClaimCodecError (list OfferSlot) :=
  match raw with
  | [] => Ok []
  | value :: raw => slot ← transport_slot value; slots ← deserialize_transport_slots raw; Ok (slot :: slots)
  end.

Fixpoint deserialize_known_transports (raw : list Value) : result ClaimCodecError (list KnownTransport) :=
  match raw with
  | [] => Ok []
  | value :: raw =>
      _ ← offer_within_byte_cap value;
      if is_known_tag (transport_tag value)
      then known ← ok_or (known_transport_from_value value) Malformed; offers ← deserialize_known_transports raw; Ok (known :: offers)
      else _ ← reject_enumeration_shaped_unknown_offer value; deserialize_known_transports raw
  end.

(** ** Binding offers to answers *)

(** The indices of one [Have]: what they reference is marked. *)
Fixpoint bind_indices (offers : list OfferSlot) (seen : list nat) (kinds : list (list byte)) (referenced : list bool) (indices : list Z) :
    result ClaimCodecError (list bool) :=
  match indices with
  | [] => Ok referenced
  | index :: indices =>
      let at_ := Z.to_nat index in
      match offers !! at_ with
      | None => Err Malformed
      | Some slot =>
          if bool_decide (at_ ∈ seen) then Err Malformed else
          if bool_decide (slot_wire_tag slot ∈ kinds) then Err Malformed else
          bind_indices offers (at_ :: seen) (slot_wire_tag slot :: kinds) (<[at_ := true]> referenced) indices
      end
  end.

Fixpoint bind_answers (offers : list OfferSlot) (referenced : list bool) (answers : list BatchHoldAnswer) :
    result ClaimCodecError (list bool) :=
  match answers with
  | [] => Ok referenced
  | Absent :: answers => bind_answers offers referenced answers
  | Have _ offer_indices :: answers =>
      _ ← reject_if (MAX_OFFERS_PER_ANSWER <? length offer_indices) Malformed;
      referenced ← bind_indices offers [] [] referenced offer_indices;
      bind_answers offers referenced answers
  end.

Definition check_batch_offer_bindings (offers : list OfferSlot) (answers : list BatchHoldAnswer) : result ClaimCodecError unit :=
  let offer_count := length offers in
  _ ← reject_if (bool_decide (answers = [])) Malformed;
  _ ← reject_if (MAX_BATCH_HOLD_KEYS <? length answers) (BatchTooLarge (length answers) MAX_BATCH_HOLD_KEYS);
  _ ← reject_if (MAX_BATCH_HOLD_OFFERS <? offer_count) (BatchTooLarge offer_count MAX_BATCH_HOLD_OFFERS);
  referenced ← bind_answers offers (replicate offer_count false) answers;
  reject_if (existsb negb referenced) Malformed.

(** Where each slot goes when the unknown ones are dropped; an index is a u16. *)
Fixpoint remap (kept : nat) (slots : list OfferSlot) : list (option Z) :=
  match slots with
  | [] => []
  | Known _ :: slots => Some (Z.of_nat kept mod 65536)%Z :: remap (S kept) slots
  | Unknown _ :: slots => None :: remap kept slots
  end.
Definition keep_known_offers (slots : list OfferSlot) : list KnownTransport :=
  omap (fun s => match s with Known t => Some t | Unknown _ => None end) slots.
Definition reindex (map : list (option Z)) (answer : BatchHoldAnswer) : BatchHoldAnswer :=
  match answer with
  | Have blake3 offer_indices => Have blake3 (omap (fun index => map !! Z.to_nat index ≫= id) offer_indices)
  | Absent => Absent
  end.
Definition compact_offer_slots (slots : list OfferSlot) (answers : list BatchHoldAnswer) : list KnownTransport * list BatchHoldAnswer :=
  (keep_known_offers slots, reindex (remap 0 slots) <$> answers).

Definition check_single_offer_bindings (offers : list OfferSlot) : result ClaimCodecError unit :=
  _ ← reject_if (MAX_OFFERS_PER_ANSWER <? length offers) Malformed;
  reject_if (repeats [] (slot_wire_tag <$> offers)) Malformed.

Definition check_batch_keys (keys : list NarHashKey) : result ClaimCodecError unit :=
  _ ← reject_if (bool_decide (keys = [])) Malformed;
  _ ← reject_if (MAX_BATCH_HOLD_KEYS <? length keys) (BatchTooLarge (length keys) MAX_BATCH_HOLD_KEYS);
  reject_if (repeats [] keys) Malformed.

(** ** The codecs *)

(** The wire records as serde reads and writes them: offers and payloads are
    still values. *)
Record ClaimWire := {
  cw_schema_version : Z;
  cw_key : NarHashKey;
  cw_payload : option Value;
  cw_holders : list NodeId;
  cw_transports : list Value;
  cw_relay : option SignedNarinfoRelay;
  cw_signatures : list ClaimSignature
}.
Inductive HoldAnswerWire := HaveWire (blake3 : Blake3Digest) (offers : list Value) | AbsentWire.
Record HoldResponseWire := { hw_schema_version : Z; hw_answer : HoldAnswerWire }.
Record BatchHoldResponseWire := { bw_schema_version : Z; bw_offers : list Value; bw_answers : list BatchHoldAnswer }.

Context `{Json ClaimWire, Json HoldQuery, Json HoldResponseWire, Json BatchHoldQuery, Json BatchHoldResponseWire}.

Definition check_size (len : nat) : result ClaimCodecError unit := reject_if (MAX_CLAIM_WIRE_BYTES <? len) Malformed.

Definition encode_checked {T} `{Json T} (value : T) : result ClaimCodecError (list byte) :=
  bytes ← ok_or (to_vec value) Malformed;
  _ ← check_size (length bytes);
  Ok bytes.

Definition reject_duplicate_keys (bytes : list byte) : result ClaimCodecError unit :=
  tree ← ok_or (json_tree bytes) Malformed;
  reject_if (negb (no_duplicate_keys tree)) Malformed.

Definition check_version (found expected : Z) : result ClaimCodecError unit :=
  if (found =? expected)%Z then Ok tt else Err (UnsupportedVersion found expected).

Definition claim_wire (c : Claim) : ClaimWire :=
  {| cw_schema_version := cl_schema_version c; cw_key := cl_key c; cw_payload := payload_value <$> cl_payload c; cw_holders := cl_holders c;
     cw_transports := offer_value <$> cl_transports c; cw_relay := cl_relay c; cw_signatures := cl_signatures c |}.
Definition encode_claim (c : Claim) : result ClaimCodecError (list byte) := encode_checked (claim_wire c).

Definition decode_claim (bytes : list byte) : result ClaimCodecError Claim :=
  _ ← check_size (length bytes);
  _ ← reject_duplicate_keys bytes;
  wire ← ok_or (from_slice (T := ClaimWire) bytes) Malformed;
  payload ← match cw_payload wire with Some value => deserialize_optional_known_payload value | None => Ok None end;
  transports ← deserialize_known_transports (cw_transports wire);
  _ ← check_version (cw_schema_version wire) CLAIM_SCHEMA_VERSION;
  Ok {| cl_schema_version := cw_schema_version wire; cl_key := cw_key wire; cl_payload := payload; cl_holders := cw_holders wire;
        cl_transports := transports; cl_relay := cw_relay wire; cl_signatures := cw_signatures wire |}.

Definition encode_hold_query (q : HoldQuery) : result ClaimCodecError (list byte) := encode_checked q.
Definition decode_hold_query (bytes : list byte) : result ClaimCodecError HoldQuery :=
  _ ← check_size (length bytes);
  _ ← reject_duplicate_keys bytes;
  query ← ok_or (from_slice (T := HoldQuery) bytes) Malformed;
  _ ← check_version (hq_schema_version query) QUERY_SCHEMA_VERSION;
  Ok query.

Definition hold_response_wire (r : HoldResponse) : HoldResponseWire :=
  {| hw_schema_version := hr_schema_version r;
     hw_answer := match hr_answer r with HoldHave blake3 offers => HaveWire blake3 (offer_value <$> offers) | HoldAbsent => AbsentWire end |}.
Definition encode_hold_response (r : HoldResponse) : result ClaimCodecError (list byte) :=
  _ ← match hr_answer r with HoldHave _ offers => check_single_offer_bindings (as_offer_slots offers) | HoldAbsent => Ok tt end;
  encode_checked (hold_response_wire r).

Definition decode_hold_response (bytes : list byte) : result ClaimCodecError HoldResponse :=
  _ ← check_size (length bytes);
  _ ← reject_duplicate_keys bytes;
  wire ← ok_or (from_slice (T := HoldResponseWire) bytes) Malformed;
  slots ← match hw_answer wire with HaveWire _ offers => deserialize_transport_slots offers | AbsentWire => Ok [] end;
  _ ← check_version (hw_schema_version wire) QUERY_SCHEMA_VERSION;
  answer ← match hw_answer wire with
    | HaveWire blake3 _ => _ ← check_single_offer_bindings slots; Ok (HoldHave blake3 (keep_known_offers slots))
    | AbsentWire => Ok HoldAbsent
    end;
  Ok {| hr_schema_version := hw_schema_version wire; hr_answer := answer |}.

Definition encode_batch_hold_query (q : BatchHoldQuery) : result ClaimCodecError (list byte) :=
  _ ← check_batch_keys (bq_keys q);
  encode_checked q.
Definition decode_batch_hold_query (bytes : list byte) : result ClaimCodecError BatchHoldQuery :=
  _ ← check_size (length bytes);
  _ ← reject_duplicate_keys bytes;
  query ← ok_or (from_slice (T := BatchHoldQuery) bytes) Malformed;
  _ ← check_version (bq_schema_version query) QUERY_SCHEMA_VERSION;
  _ ← check_batch_keys (bq_keys query);
  Ok query.

Definition batch_response_wire (r : BatchHoldResponse) : BatchHoldResponseWire :=
  {| bw_schema_version := br_schema_version r; bw_offers := offer_value <$> br_offers r; bw_answers := br_answers r |}.
Definition encode_batch_hold_response (r : BatchHoldResponse) : result ClaimCodecError (list byte) :=
  _ ← check_batch_offer_bindings (as_offer_slots (br_offers r)) (br_answers r);
  encode_checked (batch_response_wire r).

Definition decode_batch_hold_response (bytes : list byte) (keys_asked : nat) : result ClaimCodecError BatchHoldResponse :=
  _ ← check_size (length bytes);
  _ ← reject_if (keys_asked =? 0) Malformed;
  _ ← reject_if (MAX_BATCH_HOLD_KEYS <? keys_asked) (BatchTooLarge keys_asked MAX_BATCH_HOLD_KEYS);
  _ ← reject_duplicate_keys bytes;
  wire ← ok_or (from_slice (T := BatchHoldResponseWire) bytes) Malformed;
  slots ← deserialize_transport_slots (bw_offers wire);
  _ ← check_version (bw_schema_version wire) QUERY_SCHEMA_VERSION;
  _ ← reject_if (negb (length (bw_answers wire) =? keys_asked)) (BatchAnswerCount keys_asked (length (bw_answers wire)));
  _ ← check_batch_offer_bindings slots (bw_answers wire);
  let '(offers, answers) := compact_offer_slots slots (bw_answers wire) in
  Ok {| br_schema_version := bw_schema_version wire; br_offers := offers; br_answers := answers |}.

End codec.

(** ** What the binding check accepts *)

Lemma repeats_NoDup {A} `{EqDecision A} (seen l : list A) :
  repeats seen l = false <-> NoDup l /\ forall x, x ∈ l -> x ∉ seen.
Proof.
  revert seen. induction l as [|x l IH]; intros seen; cbn [repeats].
  - split; [|done]. intros _. split; [constructor|]. by intros x Hx%not_elem_of_nil.
  - rewrite orb_false_iff, bool_decide_eq_false, IH, NoDup_cons. setoid_rewrite not_elem_of_cons. setoid_rewrite elem_of_cons. split.
    + intros (Hx & Hnd & Hl). split_and!; [|done|].
      * intros Hin. by destruct (Hl x Hin).
      * intros y [->|Hy]; [done|]. by destruct (Hl y Hy).
    + intros ((Hx & Hnd) & Hl). split_and!; [apply Hl; by left|done|]. intros y Hy. split; [by intros ->|]. apply Hl. by right.
Qed.
Lemma repeats_nil {A} `{EqDecision A} (l : list A) : repeats [] l = false <-> NoDup l.
Proof. rewrite repeats_NoDup. split; [by intros [? _]|]. intros Hl. split; [done|]. intros x _ Hx%elem_of_nil. done. Qed.

Definition indices_of (a : BatchHoldAnswer) : list nat := match a with Have _ indices => Z.to_nat <$> indices | Absent => [] end.
Definition is_have (a : BatchHoldAnswer) : bool := match a with Have _ _ => true | Absent => false end.
Definition have_count (answers : list BatchHoldAnswer) : nat := length (filter (fun a => is_have a = true) answers).

(** The offers an answer names. *)
Definition named (offers : list OfferSlot) (indices : list nat) : list OfferSlot := omap (fun i => offers !! i) indices.

(** One answer is bound: few offers, all there, none twice, one per transport. *)
Definition answer_bound (offers : list OfferSlot) (a : BatchHoldAnswer) : Prop :=
  length (indices_of a) <= MAX_OFFERS_PER_ANSWER /\ Forall (fun i => i < length offers) (indices_of a) /\
  NoDup (indices_of a) /\ NoDup (slot_wire_tag <$> named offers (indices_of a)).

Definition mark (referenced : list bool) (indices : list nat) : list bool := foldl (fun r i => <[i := true]> r) referenced indices.

Lemma bind_indices_ok offers seen kinds referenced indices r :
  bind_indices offers seen kinds referenced indices = Ok r <->
  Forall (fun i => i < length offers) (Z.to_nat <$> indices) /\
  NoDup (Z.to_nat <$> indices) /\ (forall i, i ∈ Z.to_nat <$> indices -> i ∉ seen) /\
  NoDup (slot_wire_tag <$> named offers (Z.to_nat <$> indices)) /\
  (forall k, k ∈ slot_wire_tag <$> named offers (Z.to_nat <$> indices) -> k ∉ kinds) /\
  r = mark referenced (Z.to_nat <$> indices).
Proof.
  revert seen kinds referenced. induction indices as [|index indices IH]; intros seen kinds referenced; cbn [bind_indices].
  { cbn. split; [intros [= <-]|by intros (_ & _ & _ & _ & _ & ->)].
    split_and!; try done; try constructor; by intros ? ?%not_elem_of_nil. }
  rewrite fmap_cons. unfold named. cbn [omap list_omap mark foldl].
  destruct (offers !! Z.to_nat index) as [slot|] eqn:Hs; cycle 1.
  { split; [done|]. intros (Hr & _). apply Forall_cons in Hr as [Hlt _]. apply lookup_ge_None in Hs. lia. }
  rewrite fmap_cons, !NoDup_cons, Forall_cons. pose proof (lookup_lt_Some _ _ _ Hs) as Hlt.
  setoid_rewrite elem_of_cons. case_bool_decide as Hseen.
  { split; [done|]. intros (_ & _ & Hn & _). destruct (Hn _ (or_introl eq_refl)). done. }
  case_bool_decide as Hkind.
  { split; [done|]. intros (_ & _ & _ & _ & Hn & _). destruct (Hn _ (or_introl eq_refl)). done. }
  rewrite IH. setoid_rewrite not_elem_of_cons. split.
  - intros (Hr & Hnd & Hns & Htg & Hnk & ->). split_and!; try done.
    + intros Hin. by destruct (Hns _ Hin).
    + intros i [->|Hi]; [done|]. by destruct (Hns _ Hi).
    + intros Hin. by destruct (Hnk _ Hin).
    + intros k [->|Hk]; [done|]. by destruct (Hnk _ Hk).
  - intros ((_ & Hr) & (Hni & Hnd) & Hns & (Hnt & Htg) & Hnk & ->). split_and!; try done.
    + intros i Hi. split; [by intros ->|]. apply Hns. by right.
    + intros k Hk. split; [by intros ->|]. apply Hnk. by right.
Qed.

Lemma mark_app r l l' : mark r (l ++ l') = mark (mark r l) l'.
Proof. apply foldl_app. Qed.

Lemma bind_answers_ok offers referenced answers r :
  bind_answers offers referenced answers = Ok r <->
  Forall (answer_bound offers) answers /\ r = mark referenced (answers ≫= indices_of).
Proof.
  revert referenced. induction answers as [|a answers IH]; intros referenced; cbn [bind_answers].
  { split; [intros [= <-]|by intros [_ ->]]. split; [constructor|done]. }
  rewrite Forall_cons, bind_cons, mark_app. unfold answer_bound at 1. destruct a as [blake3 indices|]; cbn [indices_of].
  - rewrite result_bind_ok. setoid_rewrite result_bind_ok. setoid_rewrite bind_indices_ok. setoid_rewrite IH.
    rewrite length_fmap. split.
    + intros ([] & Hlen%reject_if_ok & r1 & (Hr & Hnd & _ & Htg & _ & ->) & Hall & ->). apply Nat.ltb_ge in Hlen. by split_and!.
    + intros (((Hlen & Hr & Hnd & Htg) & Hall) & ->). exists tt. split; [apply reject_if_ok; by apply Nat.ltb_ge|].
      eexists. split_and!; try done; by intros ? _ ?%elem_of_nil.
  - rewrite IH. cbn [mark foldl]. split; [|by intros ((_ & Hall) & ->)]. intros [Hall ->]. split_and!; try done; try constructor. cbn. lia.
Qed.

Lemma mark_lookup r l i : i < length r -> mark r l !! i = Some true <-> r !! i = Some true \/ i ∈ l.
Proof.
  revert r. induction l as [|j l IH]; intros r Hi; cbn [mark foldl].
  { rewrite elem_of_nil. tauto. }
  change (mark (<[j:=true]> r) l !! i = Some true <-> r !! i = Some true \/ i ∈ j :: l).
  rewrite IH by (by rewrite length_insert). rewrite elem_of_cons. destruct (decide (i = j)) as [->|Hne].
  - rewrite list_lookup_insert_eq by done. tauto.
  - rewrite list_lookup_insert_ne by done. tauto.
Qed.
Lemma mark_length r l : length (mark r l) = length r.
Proof. revert r. induction l as [|j l IH]; intros r; [done|]. cbn. etrans; [apply IH|]. apply length_insert. Qed.

Lemma all_marked n l : existsb negb (mark (replicate n false) l) = false <-> forall i, i < n -> i ∈ l.
Proof.
  assert (forall i, i < n -> mark (replicate n false) l !! i = Some true <-> i ∈ l) as Hm.
  { intros i Hi. rewrite mark_lookup by (by rewrite length_replicate). rewrite lookup_replicate. split; [intros [[? _]|]; done|by right]. }
  split.
  - intros He i Hi. apply Hm; [done|]. destruct (mark (replicate n false) l !! i) as [b|] eqn:Hb.
    2: { apply lookup_ge_None in Hb. rewrite mark_length, length_replicate in Hb. lia. }
    destruct b; [done|]. exfalso. apply not_true_iff_false in He. apply He, existsb_exists. exists false.
    split; [|done]. by apply list_elem_of_In, list_elem_of_lookup_2 with i.
  - intros Hall. apply not_true_iff_false. intros (b & Hb%list_elem_of_In & Hn)%existsb_exists. destruct b; [done|].
    apply list_elem_of_lookup_1 in Hb as [i Hb]. pose proof (lookup_lt_Some _ _ _ Hb) as Hlt. rewrite mark_length, length_replicate in Hlt.
    by rewrite (proj2 (Hm i Hlt) (Hall i Hlt)) in Hb.
Qed.

(** What a batch response has to satisfy. *)
Record batch_bound (offers : list OfferSlot) (answers : list BatchHoldAnswer) : Prop := {
  bb_some : answers <> [];
  bb_answers : length answers <= MAX_BATCH_HOLD_KEYS;
  bb_offers : length offers <= MAX_BATCH_HOLD_OFFERS;
  bb_each : Forall (answer_bound offers) answers;
  bb_referenced i : i < length offers -> exists a, a ∈ answers /\ i ∈ indices_of a
}.

Lemma check_bindings_ok offers answers : check_batch_offer_bindings offers answers = Ok tt <-> batch_bound offers answers.
Proof.
  unfold check_batch_offer_bindings. rewrite !result_bind_ok. repeat setoid_rewrite result_bind_ok. repeat setoid_rewrite reject_if_ok.
  setoid_rewrite bind_answers_ok. split.
  - intros ([] & H1%bool_decide_eq_false & [] & H2%Nat.ltb_ge & [] & H3%Nat.ltb_ge & r & (H4 & ->) & H5). rewrite all_marked in H5.
    split; try done. intros i Hi. apply H5, list_elem_of_bind in Hi as (a & ? & ?). by exists a.
  - intros [H1 H2 H3 H4 H5]. exists tt. split; [by apply bool_decide_eq_false|]. exists tt. split; [by apply Nat.ltb_ge|].
    exists tt. split; [by apply Nat.ltb_ge|]. eexists. split; [done|]. apply all_marked. intros i Hi. apply list_elem_of_bind.
    destruct (H5 i Hi) as (a & ? & ?). by exists a.
Qed.

(** ** Compaction *)

Definition known_before (slots : list OfferSlot) (i : nat) : nat := length (keep_known_offers (take i slots)).

Lemma remap_lookup k slots i :
  remap k slots !! i =
  (fun s => match s with Known _ => Some (Z.of_nat (k + known_before slots i) mod 65536)%Z | Unknown _ => None end) <$> slots !! i.
Proof.
  unfold known_before. revert k i. induction slots as [|[t|tag] slots IH]; intros k [|i]; cbn [remap]; try done.
  - cbn. by rewrite Nat.add_0_r.
  - cbn [lookup list_lookup]. rewrite IH. cbn [take keep_known_offers omap list_omap length]. destruct (slots !! i) as [[]|]; cbn; [|done..].
    do 4 f_equal. unfold keep_known_offers. lia.
  - cbn [lookup list_lookup]. rewrite IH. done.
Qed.

Lemma keep_lookup slots i t : slots !! i = Some (Known t) -> keep_known_offers slots !! known_before slots i = Some t.
Proof.
  unfold known_before. revert i. induction slots as [|[t'|tag] slots IH]; intros [|i] Hi; try done.
  - by injection Hi as ->.
  - cbn. by apply IH.
  - cbn. by apply IH.
Qed.
Lemma keep_lookup_inv slots j t :
  keep_known_offers slots !! j = Some t -> exists i, slots !! i = Some (Known t) /\ known_before slots i = j.
Proof.
  unfold known_before. revert j. induction slots as [|[t'|tag] slots IH]; intros j Hj; [done| |].
  - destruct j as [|j]; [injection Hj as ->; by exists 0|]. destruct (IH j Hj) as (i & Hi & <-). by exists (S i).
  - destruct (IH j Hj) as (i & Hi & <-). by exists (S i).
Qed.
Lemma keep_length slots : length (keep_known_offers slots) <= length slots.
Proof. unfold keep_known_offers. induction slots as [|[t|tag] slots IH]; cbn; lia. Qed.
Lemma remapped slots i t : length slots <= MAX_BATCH_HOLD_OFFERS -> slots !! i = Some (Known t) ->
  remap 0 slots !! i = Some (Some (Z.of_nat (known_before slots i))).
Proof.
  intros Hl Hi. rewrite remap_lookup, Hi. cbn [fmap option_fmap option_map]. rewrite Z.mod_small; [done|].
  pose proof (keep_length (take i slots)). pose proof (length_take_le slots i) as Ht. pose proof (lookup_lt_Some _ _ _ Hi).
  rewrite length_take_le in H by lia. unfold known_before, MAX_BATCH_HOLD_OFFERS, MAX_BATCH_HOLD_KEYS in *. lia.
Qed.

(** An answer names after compaction the known ones of the offers it named. *)
Lemma reindex_names slots a :
  length slots <= MAX_BATCH_HOLD_OFFERS ->
  named (as_offer_slots (keep_known_offers slots)) (indices_of (reindex (remap 0 slots) a)) =
  as_offer_slots (keep_known_offers (named slots (indices_of a))).
Proof.
  intros Hl. destruct a as [blake3 indices|]; [|done]. cbn [reindex indices_of]. induction indices as [|index indices IH]; [done|].
  rewrite fmap_cons. unfold named in *. cbn [omap list_omap].
  destruct (slots !! Z.to_nat index) as [[t|tag]|] eqn:Hi.
  - rewrite (remapped _ _ _ Hl Hi). cbn. rewrite Nat2Z.id. unfold as_offer_slots. rewrite list_lookup_fmap, (keep_lookup _ _ _ Hi).
    cbn. f_equal. exact IH.
  - rewrite remap_lookup, Hi. cbn. exact IH.
  - rewrite remap_lookup, Hi. cbn. exact IH.
Qed.

Lemma named_NoDup offers indices :
  Forall (fun i => i < length offers) indices -> NoDup (slot_wire_tag <$> named offers indices) -> NoDup indices.
Proof.
  induction indices as [|i indices IH]; [constructor|]. intros [Hi Hr]%Forall_cons. unfold named. cbn [omap list_omap].
  destruct (lookup_lt_is_Some_2 _ _ Hi) as [slot Hs]. rewrite Hs, fmap_cons. intros [Hn Hnd]%NoDup_cons.
  apply NoDup_cons. split; [|by apply IH]. intros Hin. apply Hn, list_elem_of_fmap. exists slot. split; [done|].
  apply list_elem_of_omap. by exists i.
Qed.

Lemma keep_tags slots : NoDup (slot_wire_tag <$> slots) -> NoDup (slot_wire_tag <$> as_offer_slots (keep_known_offers slots)).
Proof.
  induction slots as [|[t|tag] slots IH]; cbn; [done| |].
  - intros [Hn Hnd]%NoDup_cons. apply NoDup_cons. split; [|by apply IH]. intros (s & Hs & Hin)%list_elem_of_fmap.
    apply Hn, list_elem_of_fmap. exists s. split; [done|]. apply list_elem_of_fmap in Hin as (t' & -> & Hin).
    apply list_elem_of_omap in Hin as ([t''|] & Hin & [= ->]). done.
  - intros [_ Hnd]%NoDup_cons. by apply IH.
Qed.

Lemma reindex_length map a : length (indices_of (reindex map a)) <= length (indices_of a).
Proof.
  destruct a as [blake3 indices|]; [|done]. cbn. rewrite !length_fmap. induction indices as [|i indices IH]; [done|]. cbn.
  destruct (map !! Z.to_nat i ≫= id); cbn; lia.
Qed.

Lemma reindex_range slots a :
  length slots <= MAX_BATCH_HOLD_OFFERS ->
  Forall (fun i => i < length (as_offer_slots (keep_known_offers slots))) (indices_of (reindex (remap 0 slots) a)).
Proof.
  intros Hl. destruct a as [blake3 indices|]; [|constructor]. cbn. apply Forall_forall. intros j (z & -> & Hz)%list_elem_of_fmap.
  apply list_elem_of_omap in Hz as (index & _ & Hm). destruct (slots !! Z.to_nat index) as [[t|tag]|] eqn:Hi.
  - rewrite (remapped _ _ _ Hl Hi) in Hm. injection Hm as <-. rewrite Nat2Z.id. unfold as_offer_slots. rewrite length_fmap.
    by eapply lookup_lt_Some, keep_lookup.
  - by rewrite remap_lookup, Hi in Hm.
  - by rewrite remap_lookup, Hi in Hm.
Qed.

Lemma compact_bound slots answers :
  batch_bound slots answers -> batch_bound (as_offer_slots (keep_known_offers slots)) (reindex (remap 0 slots) <$> answers).
Proof.
  intros [H1 H2 Hl H4 H5]. split.
  - by destruct answers.
  - by rewrite length_fmap.
  - unfold as_offer_slots. rewrite length_fmap. pose proof (keep_length slots). lia.
  - apply Forall_fmap, (Forall_impl _ _ _ H4). intros a (Hlen & Hr & Hnd & Htg). unfold compose, answer_bound.
    pose proof (reindex_length (remap 0 slots) a). pose proof (reindex_range slots a Hl) as Hrange.
    assert (NoDup (slot_wire_tag <$> named (as_offer_slots (keep_known_offers slots)) (indices_of (reindex (remap 0 slots) a)))) as Htags.
    { rewrite reindex_names by done. by apply keep_tags. }
    split_and!; [lia|done|by eapply named_NoDup|done].
  - intros j Hj. unfold as_offer_slots in Hj. rewrite length_fmap in Hj. destruct (lookup_lt_is_Some_2 _ _ Hj) as [t Ht].
    destruct (keep_lookup_inv _ _ _ Ht) as (i & Hi & <-). destruct (H5 i (lookup_lt_Some _ _ _ Hi)) as (a & Ha & Hin).
    exists (reindex (remap 0 slots) a). split; [by apply list_elem_of_fmap_2|]. destruct a as [blake3 indices|]; [|by apply elem_of_nil in Hin].
    cbn in *. apply list_elem_of_fmap in Hin as (index & -> & Hin). apply list_elem_of_fmap.
    exists (Z.of_nat (known_before slots (Z.to_nat index))). split; [by rewrite Nat2Z.id|]. apply list_elem_of_omap. exists index. split; [done|].
    by rewrite (remapped _ _ _ Hl Hi).
Qed.

(** ** The dictionary is bounded by what was answered *)

Lemma length_bind_le {A B} (f : A -> list B) (P : A -> bool) n l :
  Forall (fun x => length (f x) <= if P x then n else 0) l -> length (l ≫= f) <= n * length (filter (fun x => P x = true) l).
Proof.
  induction l as [|x l IH]; [cbn; lia|]. intros [Hx Hl]%Forall_cons. rewrite bind_cons, length_app, filter_cons. specialize (IH Hl).
  destruct (P x); cbn [decide_rel]; [rewrite decide_True by done; cbn [length]; lia|rewrite decide_False by done; lia].
Qed.

Lemma named_all offers : named offers (seq 0 (length offers)) = offers.
Proof.
  unfold named. induction offers as [|s offers IH] using rev_ind; [done|].
  rewrite length_app. cbn [length]. rewrite Nat.add_1_r, seq_S, omap_app. cbn [Nat.add omap list_omap].
  rewrite list_lookup_middle by done. f_equal. rewrite <-IH at 2. apply list_omap_ext, Forall2_same_length_lookup_2; [done|].
  intros k i i' Hi Hi'. rewrite Hi in Hi'. injection Hi' as <-. apply lookup_seq in Hi as [-> Hk]. by rewrite lookup_app_l.
Qed.
Lemma named_bind offers answers : named offers (answers ≫= indices_of) = answers ≫= (fun a => named offers (indices_of a)).
Proof. induction answers as [|a answers IH]; [done|]. rewrite !bind_cons. unfold named in *. by rewrite omap_app, IH. Qed.
Lemma named_submseteq offers l l' : l ⊆+ l' -> named offers l ⊆+ named offers l'.
Proof.
  intros (k & Hk)%submseteq_Permutation. unfold named. rewrite Hk, omap_app. by apply submseteq_inserts_r.
Qed.

Lemma filter_length_submseteq {A} (P : A -> Prop) `{!forall x, Decision (P x)} (l l' : list A) :
  l ⊆+ l' -> length (filter P l) <= length (filter P l').
Proof. intros (k & Hk)%submseteq_Permutation. rewrite Hk, filter_app, length_app. lia. Qed.

(** At most [n] offers of a class per answer bound the offers of that class. *)
Lemma class_bound offers answers (P : OfferSlot -> Prop) `{!forall s, Decision (P s)} n :
  batch_bound offers answers -> Forall (fun a => length (filter P (named offers (indices_of a))) <= n) answers ->
  length (filter P offers) <= n * have_count answers.
Proof.
  intros Hb Hn. transitivity (length (filter P (answers ≫= (fun a => named offers (indices_of a))))).
  - rewrite <-named_bind. rewrite <-(named_all offers) at 1. apply filter_length_submseteq, named_submseteq.
    apply NoDup_submseteq; [apply NoDup_seq|]. intros i Hin%elem_of_seq.
    destruct (bb_referenced _ _ Hb i) as (a & Ha & Hia); [lia|]. apply list_elem_of_bind. by exists a.
  - clear Hb. assert (forall l : list BatchHoldAnswer,
      filter P (l ≫= (fun a => named offers (indices_of a))) = l ≫= (fun a => filter P (named offers (indices_of a)))) as ->.
    { intros l. induction l as [|a l IH]; [done|]. by rewrite !bind_cons, filter_app, IH. }
    apply length_bind_le. apply (Forall_impl _ _ _ Hn). intros [blake3 indices|] Ha; [done|]. cbn. lia.
Qed.

Lemma have_reindex map answers : have_count (reindex map <$> answers) = have_count answers.
Proof.
  unfold have_count. induction answers as [|a answers IH]; [done|]. rewrite fmap_cons, !filter_cons.
  destruct a; cbn [reindex is_have]; [rewrite !decide_True by done; cbn; by rewrite IH|by rewrite !decide_False by done].
Qed.

Lemma dictionary_bounded offers answers :
  batch_bound offers answers ->
  length offers <= MAX_OFFERS_PER_ANSWER * have_count answers /\
  forall tag, length (filter (fun s => slot_wire_tag s = tag) offers) <= have_count answers.
Proof.
  intros Hb. split.
  - assert (filter (fun _ => True) offers = offers) as Hall by (induction offers as [|s l IH] in |- *; [done|by rewrite filter_cons_True, IH]).
    rewrite <-Hall. apply class_bound; [done|]. apply (Forall_impl _ _ _ (bb_each _ _ Hb)). intros a (Hlen & _).
    etrans; [apply length_filter|]. etrans; [|exact Hlen]. unfold named. generalize (indices_of a). intros l.
    induction l as [|i l IH]; [done|]. cbn. destruct (offers !! i); cbn; lia.
  - intros tag. etrans; [apply (class_bound _ answers _ 1); [done|]|lia].
    apply (Forall_impl _ _ _ (bb_each _ _ Hb)). intros a (_ & _ & _ & Htg). revert Htg. generalize (named offers (indices_of a)). intros l.
    induction l as [|s l IH]; [cbn; lia|]. rewrite fmap_cons, filter_cons. intros [Hn Hnd]%NoDup_cons. specialize (IH Hnd).
    destruct (decide (slot_wire_tag s = tag)) as [<-|]; [|done]. assert (filter (fun s0 => slot_wire_tag s0 = slot_wire_tag s) l = []) as ->; [|done].
    apply elem_of_nil_inv. intros s0 [Hs0 Hin]%list_elem_of_filter. apply Hn, list_elem_of_fmap. by exists s0.
Qed.

(** C19: The binding check of a batch accepts exactly the bound responses.  It
    succeeds if and only if there is an answer, there are at most 256 answers
    and 512 offers, every answer names at most four offers, all in the
    dictionary, none twice and at most one per transport, and every offer is
    named by some answer; and then the dictionary holds at most four offers for
    each answered key, and of each transport at most one. *)
Theorem check_batch_offer_bindings_exact offers answers :
  (check_batch_offer_bindings offers answers = Ok tt <->
   answers <> [] /\ length answers <= 256 /\ length offers <= 512 /\
   Forall (fun a => length (indices_of a) <= 4 /\ Forall (fun i => i < length offers) (indices_of a) /\
                    NoDup (indices_of a) /\ NoDup (slot_wire_tag <$> named offers (indices_of a))) answers /\
   (forall i, i < length offers -> exists a, a ∈ answers /\ i ∈ indices_of a)) /\
  (check_batch_offer_bindings offers answers = Ok tt ->
   length offers <= 4 * have_count answers /\
   forall tag, length (filter (fun s => slot_wire_tag s = tag) offers) <= have_count answers).
Proof.
  rewrite check_bindings_ok. split; [|apply dictionary_bounded]. split; [by intros []|]. intros (? & ? & ? & ? & ?). by split.
Qed.

(** ** Decoding *)

Section decoding.
Context `{JsonText, Json ClaimWire, Json HoldQuery, Json HoldResponseWire, Json BatchHoldQuery, Json BatchHoldResponseWire}.

(** What an answer says of its key: the content, and the locators this build knows. *)
Definition meaning (offers : list OfferSlot) (a : BatchHoldAnswer) : option (Blake3Digest * list KnownTransport) :=
  match a with
  | Have blake3 _ => Some (blake3, keep_known_offers (named offers (indices_of a)))
  | Absent => None
  end.

Lemma keep_known slots : keep_known_offers (as_offer_slots slots) = slots.
Proof. unfold keep_known_offers, as_offer_slots. induction slots as [|s slots IH]; [done|]. cbn. by f_equal. Qed.

Lemma reindex_meaning slots a :
  length slots <= MAX_BATCH_HOLD_OFFERS ->
  meaning (as_offer_slots (keep_known_offers slots)) (reindex (remap 0 slots) a) = meaning slots a.
Proof.
  intros Hl. pose proof (reindex_names slots a Hl) as Hn. destruct a as [blake3 indices|]; [|done].
  unfold meaning. cbn [reindex] in *. by rewrite Hn, keep_known.
Qed.

(** C18: A decoded batch response answers exactly the keys that were asked.  It
    has one answer per key, is bound, has at most four offers and of each
    transport at most one per answered key, and answer by answer says what the
    peer's answer at that position said: the same content, and those of its
    locators whose transport is known, however many unknown ones were dropped
    from the dictionary in between. *)
Theorem decoded_batch_answers bytes keys_asked r :
  decode_batch_hold_response bytes keys_asked = Ok r ->
  length (br_answers r) = keys_asked /\ 0 < keys_asked <= 256 /\
  check_batch_offer_bindings (as_offer_slots (br_offers r)) (br_answers r) = Ok tt /\
  length (br_offers r) <= 4 * have_count (br_answers r) /\
  (forall tag, length (filter (fun t => known_wire_tag t = tag) (br_offers r)) <= have_count (br_answers r)) /\
  exists wire slots, from_slice bytes = Some wire /\ deserialize_transport_slots (bw_offers wire) = Ok slots /\
    meaning (as_offer_slots (br_offers r)) <$> br_answers r = meaning slots <$> bw_answers wire.
Proof.
  unfold decode_batch_hold_response. intros E. inv_ok. rename select (BatchHoldResponseWire) into wire.
  rename select (list OfferSlot) into slots. cbn [compact_offer_slots] in E. injection E as <-. cbn [br_answers br_offers].
  match goal with E : check_batch_offer_bindings _ _ = Ok _ |- _ => apply check_bindings_ok in E as Hb end.
  pose proof (compact_bound _ _ Hb) as Hc. destruct (dictionary_bounded _ _ Hc) as [Hd Ht]. unfold as_offer_slots in Hd at 1. rewrite length_fmap in Hd.
  bools. unfold MAX_BATCH_HOLD_KEYS in *. split_and!; [by rewrite length_fmap|lia|lia|by apply check_bindings_ok|done| |].
  - intros tag. etrans; [|apply (Ht tag)]. unfold as_offer_slots. generalize (keep_known_offers slots). intros l. clear.
    induction l as [|t l IH]; [done|]. rewrite fmap_cons, !filter_cons. cbn [slot_wire_tag].
    destruct (decide (known_wire_tag t = tag)); cbn [length]; lia.
  - exists wire, slots. split_and!; [done|done|]. rewrite <-list_fmap_compose. apply list_fmap_ext. intros _ a _. unfold compose.
    apply reindex_meaning, (bb_offers _ _ Hb).
Qed.

(** ** Round trips *)

(** A text whose compact JSON is itself in quotes. *)
Definition plain_byte (b : byte) : bool := ((32 <=? u8_val b) && (u8_val b <? 127))%Z && negb (bool_decide (b = x22)) && negb (bool_decide (b = x5c)).
Definition plain_text (s : list byte) : bool := forallb plain_byte s.
Definition plain_fields (fields : list (list byte * list byte)) : Value := JObj ((fun f => (f.1, JStr f.2)) <$> fields).

(** What serde_json documents: an object of plain strings is its fields in
    quotes with colons and commas in braces; a record is written with each of
    its fields once. *)
Class JsonTextLaws : Prop :=
  object_len fields : forallb (fun f => plain_text f.1 && plain_text f.2) fields = true ->
    (to_string_len (plain_fields fields) <= 2 + 6 * Z.of_nat (length fields)
       + Z.of_nat (length (concat (fst <$> fields))) + Z.of_nat (length (concat (snd <$> fields))))%Z.
Class JsonWritten (T : Type) `{Json T} (ok : T -> Prop) : Prop :=
  written_tree x b : ok x -> to_vec x = Some b -> exists tree, json_tree b = Some tree /\ no_duplicate_keys tree = true.

Definition u16_ok (z : Z) : Prop := (0 <= z < 65536)%Z.
Definition answer_ok (a : BatchHoldAnswer) : Prop := match a with Have _ indices => Forall u16_ok indices | Absent => True end.
Definition batch_wire_ok (w : BatchHoldResponseWire) : Prop :=
  u16_ok (bw_schema_version w) /\ Forall answer_ok (bw_answers w) /\ Forall (fun v => no_duplicate_keys v = true) (bw_offers w).
Definition hold_wire_ok (w : HoldResponseWire) : Prop :=
  u16_ok (hw_schema_version w) /\ match hw_answer w with HaveWire _ offers => Forall (fun v => no_duplicate_keys v = true) offers | AbsentWire => True end.
Definition claim_wire_ok (w : ClaimWire) : Prop :=
  u16_ok (cw_schema_version w) /\ Forall (fun v => no_duplicate_keys v = true) (cw_transports w) /\
  match cw_payload w with Some v => v <> JNull /\ no_duplicate_keys v = true | None => True end.

Lemma encode_plain l : plain_text (hexfmt.encode l) = true.
Proof.
  induction l as [|b l IH]; [done|]. change (hexfmt.encode (b :: l)) with (hexfmt.encode [b] ++ hexfmt.encode l).
  unfold plain_text in *. rewrite forallb_app, IH, andb_true_r. clear. by_all_bytes b.
Qed.

Lemma NodeId_from_hex n : NodeId_from_str (NodeId_to_hex n) = Ok n.
Proof. unfold NodeId_from_str, NodeId_to_hex. rewrite hexfmt.decode_fixed_encode. by destruct n. Qed.
Lemma Blake3Digest_from_string d : Blake3Digest_from_str (Blake3Digest_to_string d) = Ok d.
Proof.
  unfold Blake3Digest_from_str, Blake3Digest_to_string. rewrite strip_prefix_app. cbn [ok_or mbind result_bind].
  unfold Blake3Digest_to_hex. rewrite hexfmt.decode_fixed_encode. by destruct d.
Qed.
Lemma InfoHash_from_hex h : InfoHash_from_str (InfoHash_to_hex h) = Ok h.
Proof.
  unfold InfoHash_from_str, InfoHash_to_hex. rewrite hexfmt.decode_var_encode. cbn [map_err mbind result_bind].
  destruct h as [b|b]; cbn [InfoHash_as_bytes]; rewrite try_into_bytes; [done|].
  destruct (try_into 20 (arr_bytes b)) as [b'|] eqn:E; [|done]. apply try_into_sound in E.
  pose proof (arr_length b'). pose proof (arr_length b). rewrite E in *. lia.
Qed.

Lemma offer_value_distinct t : no_duplicate_keys (offer_value t) = true.
Proof. by destruct t. Qed.

Context `{!JsonTextLaws}.

Lemma offer_value_small t : (to_string_len (offer_value t) <= MAX_OFFER_WIRE_BYTES)%Z.
Proof.
  assert (forall name text, plain_text name = true -> length name <= 20 -> plain_text text = true -> length text <= 64 ->
    forall tag, plain_text tag = true -> length tag <= 20 ->
    (to_string_len (plain_fields [(str "transport", tag); (name, text)]) <= MAX_OFFER_WIRE_BYTES)%Z) as Hsmall.
  { intros name text Hn Hnl Ht Htl tag Hg Hgl. etrans; [apply object_len|].
    - cbn [forallb fst snd]. by rewrite Hn, Ht, Hg.
    - cbn [fmap list_fmap fst snd concat length]. rewrite !length_app. unfold MAX_OFFER_WIRE_BYTES. cbn [length str]. 
      change (length (str "transport")) with 9. cbn. lia. }
  destruct t as [node|infohash].
  - apply (Hsmall (str "node") (NodeId_to_hex node)); try done; try (cbn; lia); [apply encode_plain|].
    unfold NodeId_to_hex. rewrite hexfmt.length_encode, arr_length. unfold NODE_ID_LEN. lia.
  - apply (Hsmall (str "infohash") (InfoHash_to_hex infohash)); try done; try (cbn; lia); [apply encode_plain|].
    unfold InfoHash_to_hex. rewrite hexfmt.length_encode. destruct infohash; cbn [InfoHash_as_bytes]; rewrite arr_length; lia.
Qed.

Lemma offer_value_known t :
  offer_within_byte_cap (offer_value t) = Ok tt /\ is_known_tag (transport_tag (offer_value t)) = true /\
  known_transport_from_value (offer_value t) = Some t.
Proof.
  split_and!.
  - apply reject_if_ok, Z.ltb_ge, offer_value_small.
  - by destruct t.
  - destruct t as [node|infohash].
    + change (match NodeId_from_str (NodeId_to_hex node) with Ok node => Some (KtIroh node) | Err _ => None end = Some (KtIroh node)).
      by rewrite NodeId_from_hex.
    + change (match InfoHash_from_str (InfoHash_to_hex infohash) with Ok h => Some (KtBitTorrent h) | Err _ => None end = Some (KtBitTorrent infohash)).
      by rewrite InfoHash_from_hex.
Qed.

Lemma slots_of_offers offers : deserialize_transport_slots (offer_value <$> offers) = Ok (as_offer_slots offers).
Proof.
  induction offers as [|t offers IH]; [done|]. rewrite fmap_cons. cbn [deserialize_transport_slots]. unfold transport_slot.
  destruct (offer_value_known t) as (-> & -> & ->). cbn [mbind result_bind ok_or]. by rewrite IH.
Qed.
Lemma transports_of_offers offers : deserialize_known_transports (offer_value <$> offers) = Ok offers.
Proof.
  induction offers as [|t offers IH]; [done|]. rewrite fmap_cons. cbn [deserialize_known_transports].
  destruct (offer_value_known t) as (-> & -> & ->). cbn [mbind result_bind ok_or]. by rewrite IH.
Qed.

Lemma remap_known k offers i : (Z.of_nat (k + length offers) <= 65536)%Z -> i < length offers -> remap k (as_offer_slots offers) !! i = Some (Some (Z.of_nat (k + i))).
Proof.
  revert k i. induction offers as [|t offers IH]; intros k i Hk Hi; cbn [length] in *; [lia|].
  cbn [as_offer_slots fmap list_fmap remap]. destruct i as [|i]; cbn [lookup list_lookup].
  - rewrite Nat.add_0_r, Z.mod_small by lia. done.
  - fold (as_offer_slots offers). rewrite IH by lia. do 3 f_equal. lia.
Qed.

Lemma reindex_known offers a :
  length offers <= MAX_BATCH_HOLD_OFFERS -> answer_ok a -> Forall (fun i => i < length offers) (indices_of a) -> reindex (remap 0 (as_offer_slots offers)) a = a.
Proof.
  intros Hl Ha Hr. destruct a as [blake3 indices|]; [|done]. cbn [reindex indices_of answer_ok] in *. f_equal.
  induction indices as [|i indices IH]; [done|]. rewrite fmap_cons in Hr. apply Forall_cons in Hr as [Hi Hr], Ha as [Hu Ha].
  cbn [omap list_omap]. rewrite remap_known by (unfold MAX_BATCH_HOLD_OFFERS, MAX_BATCH_HOLD_KEYS in *; lia). cbn. rewrite Z2Nat.id by (unfold u16_ok in Hu; lia). f_equal. by apply IH.
Qed.

Context `{!JsonLaws ClaimWire claim_wire_ok, !JsonLaws HoldQuery (fun q => u16_ok (hq_schema_version q)), !JsonLaws HoldResponseWire hold_wire_ok,
          !JsonLaws BatchHoldQuery (fun q => u16_ok (bq_schema_version q)), !JsonLaws BatchHoldResponseWire batch_wire_ok}.
Context `{!JsonWritten ClaimWire claim_wire_ok, !JsonWritten HoldQuery (fun q => u16_ok (hq_schema_version q)), !JsonWritten HoldResponseWire hold_wire_ok,
          !JsonWritten BatchHoldQuery (fun q => u16_ok (bq_schema_version q)), !JsonWritten BatchHoldResponseWire batch_wire_ok}.

Lemma encode_checked_ok {T} `{Json T} (ok : T -> Prop) `{!JsonLaws T ok, !JsonWritten T ok} (x : T) bytes :
  ok x -> encode_checked x = Ok bytes ->
  check_size (length bytes) = Ok tt /\ reject_duplicate_keys bytes = Ok tt /\ from_slice bytes = Some x.
Proof.
  intros Hx E. unfold encode_checked in E. inv_ok.
  match goal with E : to_vec _ = Some _ |- _ => rename E into Hv end.
  split_and!; [done| |by apply (json_roundtrip x)].
  destruct (written_tree x _ Hx Hv) as (tree & Ht & Hd). unfold reject_duplicate_keys. rewrite Ht. cbn. by rewrite Hd.
Qed.

Lemma values_distinct offers : Forall (fun v => no_duplicate_keys v = true) (offer_value <$> offers).
Proof. apply Forall_fmap, Forall_true. apply offer_value_distinct. Qed.

Lemma check_version_same v : check_version v v = Ok tt.
Proof. unfold check_version. by rewrite Z.eqb_refl. Qed.

Lemma batch_roundtrip r bytes :
  br_schema_version r = QUERY_SCHEMA_VERSION -> Forall answer_ok (br_answers r) ->
  encode_batch_hold_response r = Ok bytes -> decode_batch_hold_response bytes (length (br_answers r)) = Ok r.
Proof.
  intros Hv Hok E. unfold encode_batch_hold_response in E. apply result_bind_ok in E as ([] & Hb & E).
  apply (encode_checked_ok batch_wire_ok) in E as (Hs & Hd & Hf).
  2: { split_and!; cbn; [rewrite Hv; done|done|apply values_distinct]. }
  pose proof (proj1 (check_bindings_ok _ _) Hb) as Hbb. pose proof (bb_answers _ _ Hbb) as Hl.
  unfold decode_batch_hold_response. rewrite Hs, Hd, Hf. cbn [mbind result_bind ok_or batch_response_wire bw_offers bw_answers bw_schema_version].
  assert ((length (br_answers r) =? 0) = false) as -> by (pose proof (bb_some _ _ Hbb); by destruct (br_answers r)).
  cbn [reject_if mbind result_bind].
  rewrite (proj2 (Nat.ltb_ge _ _) Hl). cbn [reject_if mbind result_bind]. rewrite slots_of_offers. cbn [mbind result_bind].
  rewrite Hv, check_version_same, Nat.eqb_refl. cbn [negb reject_if mbind result_bind]. rewrite Hb. cbn [mbind result_bind compact_offer_slots].
  rewrite keep_known. assert (reindex (remap 0 (as_offer_slots (br_offers r))) <$> br_answers r = br_answers r) as ->.
  { rewrite <-(list_fmap_id (br_answers r)) at 2. apply Forall_fmap_ext_1. rewrite Forall_forall. intros a Ha.
    pose proof (bb_offers _ _ Hbb) as Ho. unfold as_offer_slots in Ho. rewrite length_fmap in Ho.
    apply reindex_known; [done|by eapply Forall_forall|]. destruct (proj1 (Forall_forall _ _) (bb_each _ _ Hbb) a Ha) as (_ & Hr & _).
    unfold as_offer_slots in Hr. by rewrite length_fmap in Hr. }
  destruct r. cbn in *. by subst.
Qed.

Lemma hold_roundtrip r bytes :
  hr_schema_version r = QUERY_SCHEMA_VERSION -> encode_hold_response r = Ok bytes -> decode_hold_response bytes = Ok r.
Proof.
  intros Hv E. unfold encode_hold_response in E. apply result_bind_ok in E as ([] & Hb & E).
  apply (encode_checked_ok hold_wire_ok) in E as (Hs & Hd & Hf).
  2: { split; cbn; [rewrite Hv; done|]. destruct (hr_answer r); [apply values_distinct|done]. }
  unfold decode_hold_response. rewrite Hs, Hd, Hf. cbn [mbind result_bind ok_or hold_response_wire hw_schema_version hw_answer].
  destruct r as [version [blake3 offers|]]; cbn [hr_schema_version hr_answer] in *; subst version.
  - rewrite slots_of_offers. cbn [mbind result_bind]. rewrite check_version_same. cbn [mbind result_bind]. rewrite Hb. cbn.
    by rewrite keep_known.
  - cbn [mbind result_bind]. by rewrite check_version_same.
Qed.

Lemma single_query_roundtrip q bytes :
  hq_schema_version q = QUERY_SCHEMA_VERSION -> encode_hold_query q = Ok bytes -> decode_hold_query bytes = Ok q.
Proof.
  intros Hv E. apply (encode_checked_ok (fun q => u16_ok (hq_schema_version q))) in E as (Hs & Hd & Hf); [|rewrite Hv; done].
  unfold decode_hold_query. rewrite Hs, Hd, Hf. cbn [mbind result_bind ok_or]. by rewrite Hv, check_version_same.
Qed.

Lemma query_roundtrip q bytes :
  bq_schema_version q = QUERY_SCHEMA_VERSION -> encode_batch_hold_query q = Ok bytes -> decode_batch_hold_query bytes = Ok q.
Proof.
  intros Hv E. unfold encode_batch_hold_query in E. apply result_bind_ok in E as ([] & Hb & E).
  apply (encode_checked_ok (fun q => u16_ok (bq_schema_version q))) in E as (Hs & Hd & Hf); [|rewrite Hv; done].
  unfold decode_batch_hold_query. rewrite Hs, Hd, Hf. cbn [mbind result_bind ok_or]. by rewrite Hv, check_version_same; cbn; rewrite Hb.
Qed.

Lemma claim_roundtrip c bytes :
  cl_schema_version c = CLAIM_SCHEMA_VERSION -> encode_claim c = Ok bytes -> decode_claim bytes = Ok c.
Proof.
  intros Hv E. apply (encode_checked_ok claim_wire_ok) in E as (Hs & Hd & Hf).
  2: { split_and!; cbn; [rewrite Hv; done|apply values_distinct|]. by destruct (cl_payload c) as [[]|]. }
  unfold decode_claim. rewrite Hs, Hd, Hf. cbn [mbind result_bind ok_or claim_wire cw_payload cw_transports cw_schema_version].
  assert (match payload_value <$> cl_payload c with Some value => deserialize_optional_known_payload value | None => Ok None end
    = Ok (cl_payload c)) as ->.
  { destruct (cl_payload c) as [[blake3]|]; [|done]. cbn [fmap option_fmap option_map].
    change ((payload ← ok_or (match Blake3Digest_from_str (Blake3Digest_to_string blake3) with Ok blake3 => Some (WholeNar blake3) | Err _ => None end) Malformed;
            Ok (Some payload)) = Ok (Some (WholeNar blake3))). by rewrite Blake3Digest_from_string. }
  cbn [mbind result_bind]. rewrite transports_of_offers. cbn [mbind result_bind]. rewrite Hv, check_version_same. destruct c. cbn in *. by subst.
Qed.

(** C20: What this node encodes it decodes to itself.  A batch response, a
    single response, either query and a claim of the current version that the
    encoder accepts come back from the decoder unchanged, offers, indices and
    payload included, when serde_json reads back what it wrote. *)
Theorem encode_decode_claim_wire :
  (forall r bytes, br_schema_version r = QUERY_SCHEMA_VERSION -> Forall answer_ok (br_answers r) ->
     encode_batch_hold_response r = Ok bytes -> decode_batch_hold_response bytes (length (br_answers r)) = Ok r) /\
  (forall r bytes, hr_schema_version r = QUERY_SCHEMA_VERSION -> encode_hold_response r = Ok bytes -> decode_hold_response bytes = Ok r) /\
  (forall q bytes, hq_schema_version q = QUERY_SCHEMA_VERSION -> encode_hold_query q = Ok bytes -> decode_hold_query bytes = Ok q) /\
  (forall q bytes, bq_schema_version q = QUERY_SCHEMA_VERSION -> encode_batch_hold_query q = Ok bytes -> decode_batch_hold_query bytes = Ok q) /\
  (forall c bytes, cl_schema_version c = CLAIM_SCHEMA_VERSION -> encode_claim c = Ok bytes -> decode_claim bytes = Ok c).
Proof. split_and!; [exact batch_roundtrip|exact hold_roundtrip|exact single_query_roundtrip|exact query_roundtrip|exact claim_roundtrip]. Qed.

End decoding.
