(* ===== verification/ClaimRuns.v ===== *)
(** * Concrete JSON for the claim witnesses

    The theorems of Claim.v hold for any serde_json that obeys its laws.  This
    file gives one, built from the codec combinators of ToyNode.v, and applies
    the theorems to concrete responses.  It models no code of the program. *)

From Stdlib Require Import Strings.Byte ZArith Lia.
From stdpp Require Import base gmap numbers strings sorting list.
From S2P Require Import Prelude Hex Text Ids NixBase32 ToyNode Claim.

#[local] Obligation Tactic := idtac.
#[local] Unset Program Cases.

Program Definition c_array (n : nat) : Codec (array n) := {|
  c_ok _ := true;
  c_put a := arr_bytes a;
  c_get s := a ← try_into n (take n s); Some (a, drop n s)
|}.
Next Obligation.
  intros n a rest _. cbv beta. rewrite take_app_length', drop_app_length' by (by rewrite arr_length). by rewrite try_into_bytes.
Qed.

(** Objects of strings, the only values the records of this build hold. *)
Fixpoint all_strings (fields : list (list byte * Value)) : option (list (list byte * list byte)) :=
  match fields with
  | [] => Some []
  | (name, JStr text) :: fields => l ← all_strings fields; Some ((name, text) :: l)
  | _ => None
  end.
Definition strings_of (v : Value) : option (list (list byte * list byte)) :=
  match v with JObj fields => all_strings fields | _ => None end.
Lemma strings_of_plain v l : strings_of v = Some l -> v = plain_fields l.
Proof.
  destruct v as [| | | | |fields]; try done. cbn. intros H. unfold plain_fields. f_equal. revert l H.
  induction fields as [|[name v] fields IH]; intros l; [by intros [= <-]|]. destruct v; try done. cbn.
  destruct (all_strings fields) as [l'|]; [|done]. cbn. intros [= <-]. cbn. by rewrite <-(IH l').
Qed.
Lemma strings_of_fields l : strings_of (plain_fields l) = Some l.
Proof. cbn. induction l as [|[name text] l IH]; [done|]. cbn in *. by rewrite IH. Qed.

Definition c_strings : Codec (list (list byte * list byte)) := c_list (c_pair c_bytes c_bytes).
Program Definition c_value : Codec Value := {|
  c_ok v := match strings_of v with Some l => c_ok c_strings l | None => false end;
  c_put v := c_put c_strings (default [] (strings_of v));
  c_get s := '(l, rest) ← c_get c_strings s; Some (plain_fields l, rest)
|}.
Next Obligation.
  intros v rest H. cbv beta in *. destruct (strings_of v) as [l|] eqn:E; [|done]. cbn [default]. rewrite c_law by done.
  cbn. by rewrite (strings_of_plain _ _ E).
Qed.

Program Definition c_key : Codec NarHashKey := c_iso from_sha256_bytes nar_hash_bytes _ (c_array NAR_HASH_LEN).
Next Obligation. by intros []. Qed.
Program Definition c_digest : Codec Blake3Digest := c_iso Blake3Digest_from_bytes Blake3Digest_as_bytes _ (c_array _).
Next Obligation. by intros []. Qed.
Program Definition c_node : Codec NodeId := c_iso NodeId_from_bytes NodeId_as_bytes _ (c_array _).
Next Obligation. by intros []. Qed.
Program Definition c_relay : Codec SignedNarinfoRelay := c_iso (fun b => {| snr_blob := b |}) snr_blob _ c_bytes.
Next Obligation. by intros []. Qed.
Program Definition c_signature : Codec ClaimSignature :=
  c_iso (fun x => {| cs_key_id := x.1; cs_sig := x.2 |}) (fun s => (cs_key_id s, cs_sig s)) _ (c_pair c_bytes c_bytes).
Next Obligation. by intros []. Qed.

Program Definition c_claim : Codec ClaimWire :=
  c_iso (fun x : Z * (NarHashKey * (option Value * (list NodeId * (list Value * (option SignedNarinfoRelay * list ClaimSignature))))) =>
           {| cw_schema_version := x.1; cw_key := x.2.1; cw_payload := x.2.2.1; cw_holders := x.2.2.2.1;
              cw_transports := x.2.2.2.2.1; cw_relay := x.2.2.2.2.2.1; cw_signatures := x.2.2.2.2.2.2 |})
        (fun w => (cw_schema_version w, (cw_key w, (cw_payload w, (cw_holders w, (cw_transports w, (cw_relay w, cw_signatures w))))))) _
        (c_pair (c_num 2) (c_pair c_key (c_pair (c_option c_value) (c_pair (c_list c_node) (c_pair (c_list c_value)
          (c_pair (c_option c_relay) (c_list c_signature))))))).
Next Obligation. by intros []. Qed.
Program Definition c_query : Codec HoldQuery :=
  c_iso (fun x => {| hq_schema_version := x.1; hq_key := x.2 |}) (fun q => (hq_schema_version q, hq_key q)) _ (c_pair (c_num 2) c_key).
Next Obligation. by intros []. Qed.
Program Definition c_hold : Codec HoldResponseWire :=
  c_iso (fun x => {| hw_schema_version := x.1; hw_answer := match x.2 with Some y => HaveWire y.1 y.2 | None => AbsentWire end |})
        (fun w => (hw_schema_version w, match hw_answer w with HaveWire d o => Some (d, o) | AbsentWire => None end)) _
        (c_pair (c_num 2) (c_option (c_pair c_digest (c_list c_value)))).
Next Obligation. by intros [? []]. Qed.
Program Definition c_batch_query : Codec BatchHoldQuery :=
  c_iso (fun x => {| bq_schema_version := x.1; bq_keys := x.2 |}) (fun q => (bq_schema_version q, bq_keys q)) _ (c_pair (c_num 2) (c_list c_key)).
Next Obligation. by intros []. Qed.
Program Definition c_answer : Codec BatchHoldAnswer :=
  c_iso (fun x => match x with Some y => Have y.1 y.2 | None => Absent end)
        (fun a => match a with Have d indices => Some (d, indices) | Absent => None end) _ (c_option (c_pair c_digest (c_list (c_num 2)))).
Next Obligation. by intros []. Qed.
Program Definition c_batch : Codec BatchHoldResponseWire :=
  c_iso (fun x => {| bw_schema_version := x.1; bw_offers := x.2.1; bw_answers := x.2.2 |})
        (fun w => (bw_schema_version w, (bw_offers w, bw_answers w))) _ (c_pair (c_num 2) (c_pair (c_list c_value) (c_list c_answer))).
Next Obligation. by intros []. Qed.

#[local] Instance json_claim : Json ClaimWire := codec_json c_claim.
#[local] Instance json_query : Json HoldQuery := codec_json c_query.
#[local] Instance json_hold : Json HoldResponseWire := codec_json c_hold.
#[local] Instance json_batch_query : Json BatchHoldQuery := codec_json c_batch_query.
#[local] Instance json_batch : Json BatchHoldResponseWire := codec_json c_batch.

(** The size of a value of strings is that of its compact text; a text of these
    codecs has no keys to repeat. *)
#[local] Instance toy_text : JsonText := {|
  json_tree _ := Some JNull;
  to_string_len v :=
    match strings_of v with
    | Some fields => 2 + 6 * Z.of_nat (length fields) + Z.of_nat (length (concat (fst <$> fields))) + Z.of_nat (length (concat (snd <$> fields)))
    | None => 0
    end%Z
|}.
Lemma toy_text_laws : JsonTextLaws.
Proof. intros fields _. unfold to_string_len, toy_text. rewrite strings_of_fields. lia. Qed.
Lemma toy_written {T} `{Json T} ok : JsonWritten T ok.
Proof. intros x b _ _. by exists JNull. Qed.

(** ** Witnesses *)

Definition w_digest (b : byte) : Blake3Digest := Blake3Digest_from_bytes (fill _ b).
Definition w_offer_a : KnownTransport := KtIroh (NodeId_from_bytes (fill _ x07)).
Definition w_offer_b : KnownTransport := KtBitTorrent (V1 (fill _ x09)).

(** A peer's batch: the middle slot is a transport this build does not know. *)
Definition w_batch_wire : BatchHoldResponseWire := {|
  bw_schema_version := 1;
  bw_offers := [offer_value w_offer_a; plain_fields [(str "transport", str "carrier"); (str "loft", str "north")]; offer_value w_offer_b];
  bw_answers := [Have (w_digest x01) [1; 2]%Z; Absent; Have (w_digest x02) [0]%Z]
|}.
Definition w_batch : BatchHoldResponse := {|
  br_schema_version := 1;
  br_offers := [w_offer_a; w_offer_b];
  br_answers := [Have (w_digest x01) [1]%Z; Absent; Have (w_digest x02) [0]%Z]
|}.

Lemma decoded_batch_answers_witness :
  let bytes := default [] (to_vec w_batch_wire) in
  decode_batch_hold_response bytes 3 = Ok w_batch /\
  length (br_answers w_batch) = 3 /\
  exists wire slots, from_slice bytes = Some wire /\ deserialize_transport_slots (bw_offers wire) = Ok slots /\
    meaning (as_offer_slots (br_offers w_batch)) <$> br_answers w_batch = meaning slots <$> bw_answers wire.
Proof.
  intros bytes. assert (decode_batch_hold_response bytes 3 = Ok w_batch) as E by (vm_compute; reflexivity).
  destruct (decoded_batch_answers bytes 3 w_batch E) as (Hl & _ & _ & _ & _ & Hm).
  split; [exact E|]. split; [exact Hl|exact Hm].
Defined.

Definition w_claim : Claim := {|
  cl_schema_version := 1;
  cl_key := from_sha256_bytes (fill _ x05);
  cl_payload := Some (WholeNar (w_digest x01));
  cl_holders := [NodeId_from_bytes (fill _ x07)];
  cl_transports := [w_offer_a; w_offer_b];
  cl_relay := None;
  cl_signatures := []
|}.

Lemma encode_decode_claim_wire_witness :
  is_ok (encode_batch_hold_response w_batch) = true /\ is_ok (encode_claim w_claim) = true /\
  (forall bytes, encode_batch_hold_response w_batch = Ok bytes -> decode_batch_hold_response bytes 3 = Ok w_batch) /\
  (forall bytes, encode_claim w_claim = Ok bytes -> decode_claim bytes = Ok w_claim).
Proof.
  destruct (@encode_decode_claim_wire toy_text json_claim json_query json_hold json_batch_query json_batch toy_text_laws
    (codec_json_laws c_claim _) (codec_json_laws c_query _) (codec_json_laws c_hold _) (codec_json_laws c_batch_query _) (codec_json_laws c_batch _)
    (toy_written _) (toy_written _) (toy_written _) (toy_written _) (toy_written _)) as (Hb & _ & _ & _ & Hc).
  split; [vm_compute; reflexivity|]. split; [vm_compute; reflexivity|]. split.
  - intros bytes. apply (Hb w_batch bytes eq_refl).
    constructor; [|constructor; [exact I|constructor; [|constructor]]]; (constructor; [split; [lia|reflexivity]|constructor]).
  - intros bytes. apply (Hc w_claim bytes eq_refl).
Defined.
