(* ===== verification/Availability.v ===== *)
(** * The availability index: daemon-core/src/availability.rs and supply_catalog.rs

    A node keeps which NAR hashes it holds and at which store path, answers
    peers' hold queries from it and offers what it answered to its provider.  A
    registration is taken on the caller's word; the first query of it dumps the
    path, checks the dump against the key and caches the verdict.

    An [Entry] behind an Arc is a cell of a heap and its identity is its
    address.  Every block under the map lock is one step, and a query is a task
    that moves through those blocks ([Pc]), so queries, registrations and
    removals interleave freely; the digest lock of an entry is held from the
    step that decides to dump to the step that has the dump.  A snapshot for the
    store is taken at one instant.  What the operating system and the dumper
    answer at each step is part of the action.

    SHA-256 and BLAKE3 are parameters, and the dumper is what its trait says.  The store is what its trait
    says: a save leaves the new snapshot, or the old one, or fails after the new
    one is in place; JsonFileStore is related to it at the end. *)

From Stdlib Require Import Strings.Byte ZArith Lia.
From stdpp Require Import base gmap numbers strings sorting list.
From S2P Require Import Prelude Hex Text Utf8 Ids NixBase32 Claim Ledgers.

#[export] Instance Blake3Digest_countable : Countable Blake3Digest :=
  inj_countable' Blake3Digest_as_bytes Blake3Digest_from_bytes (fun '(Blake3Digest_from_bytes _) => eq_refl).

(** A path is its bytes. *)
Definition StorePath : Type := list byte.

Inductive NarProductionSource :=
| Process (program : list byte) (args : list (list byte))
| RegularFile (path : list byte)
| Memory (bytes : list byte).

(** The hash functions, and which source the dumper names for a path. *)
Class Dumper := {
  sha256 : list byte -> array NAR_HASH_LEN;
  blake3_hash : list byte -> array BLAKE3_DIGEST_LEN;
  production_source : StorePath -> NarProductionSource
}.

(** [production_source] of CommandNarDumper, RegularFileNarDumper and MemoryNarDumper. *)
Definition command_source (program : list byte) (path : StorePath) : NarProductionSource := Process program [str "--dump"; path].
Definition regular_file_source (path : StorePath) : NarProductionSource := RegularFile path.
Definition memory_source (bytes : list byte) (_ : StorePath) : NarProductionSource := Memory bytes.

(** ** The supply catalog *)

Record SupplyCatalogRecord := { declared_size : Z; source : NarProductionSource; record_path : StorePath }.

Record CatalogState := {
  next_registration : Z;
  owners : gmap Z (option Blake3Digest);
  records : gmap Blake3Digest (gmap Z SupplyCatalogRecord)
}.
Definition empty_catalog : CatalogState := {| next_registration := 0; owners := ∅; records := ∅ |}.

(** SupplyCatalog::register; the id running out is a panic. *)
Definition catalog_register (state : CatalogState) : option (CatalogState * Z) :=
  let id := (next_registration state + 1)%Z in
  if (id <=? u64_max)%Z
  then Some ({| next_registration := id; owners := <[id := None]> (owners state); records := records state |}, id)
  else None.

Definition remove_record (records : gmap Blake3Digest (gmap Z SupplyCatalogRecord)) (digest : Blake3Digest) (registration : Z) :
    gmap Blake3Digest (gmap Z SupplyCatalogRecord) :=
  match records !! digest with
  | Some owners => if bool_decide (delete registration owners = ∅) then delete digest records else <[digest := delete registration owners]> records
  | None => records
  end.

(** SupplyCatalog::publish; every registration of an index is of its own catalog. *)
Definition catalog_publish (state : CatalogState) (registration : Z) (retired : bool) (digest : Blake3Digest) (record : SupplyCatalogRecord) :
    CatalogState * bool :=
  if retired then (state, false) else
  match owners state !! registration with
  | None => (state, false)
  | Some previous_digest =>
      let kept := match previous_digest with
        | Some previous => if bool_decide (previous = digest) then records state else remove_record (records state) previous registration
        | None => records state
        end in
      ({| next_registration := next_registration state; owners := <[registration := Some digest]> (owners state);
          records := <[digest := <[registration := record]> (default ∅ (kept !! digest))]> kept |}, true)
  end.

Definition catalog_retire (state : CatalogState) (registration : Z) : CatalogState :=
  {| next_registration := next_registration state;
     owners := delete registration (owners state);
     records := match owners state !! registration with
       | Some (Some digest) => remove_record (records state) digest registration
       | _ => records state
       end |}.

(** BTreeMap::first_key_value *)
Definition first_key_value {A} (m : gmap Z A) : option (Z * A) :=
  map_fold (fun k x acc => match acc with Some (k', _) => if (k' <? k)%Z then acc else Some (k, x) | None => Some (k, x) end) None m.

(** SupplyCatalogHandle::probe_record, [exists_] telling which paths are there. *)
Definition probe_record (exists_ : StorePath -> bool) (state : CatalogState) (digest : Blake3Digest) : option SupplyCatalogRecord :=
  owned ← records state !! digest;
  '(_, record) ← first_key_value owned;
  if exists_ (record_path record) then Some record else None.

(** ** The index *)

Definition MAX_BATCH_DERIVE_WORK : Z := 16.

Record DerivedNar := { dn_blake3 : Blake3Digest; nar_size_uncompressed_nar : Z }.
#[export] Instance DerivedNar_eq_dec : EqDecision DerivedNar.
Proof. solve_decision. Defined.

Record NarHashMismatch := { mm_registered : NarHashKey; mm_computed : NarHashKey; mm_store_path : StorePath }.

Inductive AvailabilityError := DumpFailed | PersistFailed | Mismatch (mismatch : NarHashMismatch).

Inductive DeriveOutcome := Verified (derived : DerivedNar) | Quarantined (mismatch : NarHashMismatch).

Record Entry := {
  en_store_path : StorePath;
  en_registration : Z;
  en_retired : bool;
  en_digest : option DeriveOutcome;
  en_locked : bool;
  en_persisted : option DerivedNar
}.
Definition fresh_entry (path : StorePath) (registration : Z) (verified : option DerivedNar) : Entry :=
  {| en_store_path := path; en_registration := registration; en_retired := false; en_digest := Verified <$> verified;
     en_locked := false; en_persisted := verified |}.
Definition mark_retired (e : Entry) : Entry :=
  {| en_store_path := en_store_path e; en_registration := en_registration e; en_retired := true; en_digest := en_digest e;
     en_locked := en_locked e; en_persisted := en_persisted e |}.
Definition set_locked (locked : bool) (e : Entry) : Entry :=
  {| en_store_path := en_store_path e; en_registration := en_registration e; en_retired := en_retired e; en_digest := en_digest e;
     en_locked := locked; en_persisted := en_persisted e |}.
(** A verdict lands in the slot and a verified one also in its mirror. *)
Definition set_verdict (v : DeriveOutcome) (e : Entry) : Entry :=
  {| en_store_path := en_store_path e; en_registration := en_registration e; en_retired := en_retired e; en_digest := Some v;
     en_locked := en_locked e; en_persisted := match v with Verified d => Some d | Quarantined _ => en_persisted e end |}.

(** What the store holds: per key the path and what was derived from it. *)
Definition Snapshot : Type := gmap NarHashKey (StorePath * option DerivedNar).

(** How a save ends. *)
Inductive Save := Saved | FailedBefore | FailedAfter.

Record Index := {
  ix_node : NodeId;
  ix_heap : gmap nat Entry;
  ix_next : nat;
  ix_entries : gmap NarHashKey nat;
  ix_catalog : CatalogState;
  ix_disk : Snapshot
}.
Definition with_heap (ix : Index) (heap : gmap nat Entry) : Index :=
  {| ix_node := ix_node ix; ix_heap := heap; ix_next := ix_next ix; ix_entries := ix_entries ix; ix_catalog := ix_catalog ix; ix_disk := ix_disk ix |}.
Definition with_entries (ix : Index) (entries : gmap NarHashKey nat) : Index :=
  {| ix_node := ix_node ix; ix_heap := ix_heap ix; ix_next := ix_next ix; ix_entries := entries; ix_catalog := ix_catalog ix; ix_disk := ix_disk ix |}.
Definition with_catalog (ix : Index) (catalog : CatalogState) : Index :=
  {| ix_node := ix_node ix; ix_heap := ix_heap ix; ix_next := ix_next ix; ix_entries := ix_entries ix; ix_catalog := catalog; ix_disk := ix_disk ix |}.
Definition with_disk (ix : Index) (disk : Snapshot) : Index :=
  {| ix_node := ix_node ix; ix_heap := ix_heap ix; ix_next := ix_next ix; ix_entries := ix_entries ix; ix_catalog := ix_catalog ix; ix_disk := disk |}.
(** `Arc::new(Entry ..)` in the map under [key]. *)
Definition alloc (ix : Index) (key : NarHashKey) (e : Entry) : Index :=
  {| ix_node := ix_node ix; ix_heap := <[ix_next ix := e]> (ix_heap ix); ix_next := S (ix_next ix);
     ix_entries := <[key := ix_next ix]> (ix_entries ix); ix_catalog := ix_catalog ix; ix_disk := ix_disk ix |}.

Definition iroh_offer (ix : Index) : KnownTransport := KtIroh (ix_node ix).

Definition snapshot (ix : Index) : Snapshot :=
  omap (fun id => (fun e => (en_store_path e, en_persisted e)) <$> ix_heap ix !! id) (ix_entries ix).
Definition persist_locked (save : Save) (ix : Index) : Index * result AvailabilityError unit :=
  match save with
  | Saved => (with_disk ix (snapshot ix), Ok tt)
  | FailedBefore => (ix, Err PersistFailed)
  | FailedAfter => (with_disk ix (snapshot ix), Err PersistFailed)
  end.

Definition retire_supply_registration (gone : nat) (ix : Index) : Index :=
  match ix_heap ix !! gone with
  | Some e => with_catalog (with_heap ix (<[gone := mark_retired e]> (ix_heap ix))) (catalog_retire (ix_catalog ix) (en_registration e))
  | None => ix
  end.

(** What `Path` compares: whether a path is absolute and its components, with
    repeated separators and every "." but a leading one left out. *)
Definition path_components (p : StorePath) : bool * list (list byte) :=
  let parts := filter (fun part => part <> []) (split_on x2f p) in
  match p with
  | x2f :: _ => (true, filter (fun part => part <> [x2e]) parts)
  | _ => (false, match parts with first :: rest => first :: filter (fun part => part <> [x2e]) rest | [] => [] end)
  end.
Definition path_eq (p q : StorePath) : bool := bool_decide (path_components p = path_components q).

(** Does [key] stand at [path] already? *)
Definition stands_at (ix : Index) (key : NarHashKey) (path : StorePath) : bool :=
  match ix_entries ix !! key ≫= (fun id => ix_heap ix !! id) with Some e => path_eq (en_store_path e) path | None => false end.

Definition register_binding (save : Save) (key : NarHashKey) (store_path : StorePath) (verified : option DerivedNar) (ix : Index) :
    option (Index * result AvailabilityError unit) :=
  if stands_at ix key store_path && bool_decide (verified = None) then Some (ix, Ok tt) else
  '(catalog, registration) ← catalog_register (ix_catalog ix);
  let replaced := ix_entries ix !! key in
  let inserted := alloc (with_catalog ix catalog) key (fresh_entry store_path registration verified) in
  let '(stored, saved) := persist_locked save inserted in
  Some match saved with
    | Err error =>
        let restored := with_entries stored (match replaced with Some previous => <[key := previous]> (ix_entries stored)
                                                               | None => delete key (ix_entries stored) end) in
        (retire_supply_registration (ix_next ix) restored, Err error)
    | Ok _ => (match replaced with Some previous => retire_supply_registration previous stored | None => stored end, Ok tt)
    end.
Definition register (save : Save) (key : NarHashKey) (store_path : StorePath) (ix : Index) := register_binding save key store_path None ix.

Definition unregister (save : Save) (key : NarHashKey) (ix : Index) : Index * result AvailabilityError unit :=
  match ix_entries ix !! key with
  | Some removed => persist_locked save (retire_supply_registration removed (with_entries ix (delete key (ix_entries ix))))
  | None => (ix, Ok tt)
  end.

Definition drop_if_same (save : Save) (key : NarHashKey) (observed : nat) (ix : Index) : Index * result AvailabilityError unit :=
  if bool_decide (ix_entries ix !! key = Some observed)
  then persist_locked save (retire_supply_registration observed (with_entries ix (delete key (ix_entries ix))))
  else (ix, Ok tt).

(** The rest of prune_if_gone once it has observed an entry and its path. *)
Definition prune_if_gone (save : Save) (key : NarHashKey) (observed : nat) (path_exists : bool) (ix : Index) : Index * result AvailabilityError unit :=
  if path_exists then (ix, Ok tt) else drop_if_same save key observed ix.

(** Drop for AvailabilityIndex: the read handles that survive it find nothing. *)
Definition drop_index (ix : Index) : Index := foldr retire_supply_registration ix (map_to_list (ix_entries ix)).*2.

(** ** The derivation gate *)

Record DeriveGate := { g_remaining : option Z; g_asker : option NodeId }.
Definition gate_local : DeriveGate := {| g_remaining := None; g_asker := None |}.
Definition gate_for_peer (batch : option Z) (asker : NodeId) : DeriveGate := {| g_remaining := batch; g_asker := Some asker |}.

Definition try_reserve (gate : DeriveGate) : DeriveGate * bool :=
  match g_remaining gate with
  | None => (gate, true)
  | Some n => if (n =? 0)%Z then (gate, false) else ({| g_remaining := Some (n - 1)%Z; g_asker := g_asker gate |}, true)
  end.

Inductive DeriveStep := Derived (derived : DerivedNar) (fresh : bool) | DeriveDeferred.

(** derive up to the dump: an answer, or the decision to dump. *)
Inductive BeforeDump := Answered (r : result AvailabilityError DeriveStep) | StartDump.

Definition derive_before (now : Z) (nar_size : option Z) (e : Entry) (gate : DeriveGate) (ledger : PeerDeriveLedger) :
    DeriveGate * PeerDeriveLedger * BeforeDump :=
  match en_digest e with
  | Some (Verified derived) => (gate, ledger, Answered (Ok (Derived derived false)))
  | Some (Quarantined mismatch) => (gate, ledger, Answered (Err (Mismatch mismatch)))
  | None =>
      let '(gate, reserved) := try_reserve gate in
      if negb reserved then (gate, ledger, Answered (Ok DeriveDeferred)) else
      match g_asker gate with
      | None => (gate, ledger, StartDump)
      | Some asker =>
          match nar_size with
          | None => (gate, ledger, Answered (Err DumpFailed))
          | Some size =>
              let '(ledger, admission) := try_admit ledger now asker size in
              match admission with
              | DeriveAdmitted => (gate, ledger, StartDump)
              | _ => (gate, ledger, Answered (Ok DeriveDeferred))
              end
          end
      end
  end.

Section index.
Context `{Dumper}.

Definition NarHashKey_from_raw_nar (raw_nar : list byte) : NarHashKey := from_sha256_bytes (sha256 raw_nar).
Definition Blake3Digest_from_raw_nar (raw_nar : list byte) : Blake3Digest := Blake3Digest_from_bytes (blake3_hash raw_nar).
Definition derived_of (raw_nar : list byte) : DerivedNar :=
  {| dn_blake3 := Blake3Digest_from_raw_nar raw_nar; nar_size_uncompressed_nar := Z.of_nat (length raw_nar) |}.

(** derive from the dump on; [None] is a dump that failed. *)
Definition derive_after (key : NarHashKey) (raw_nar : option (list byte)) (e : Entry) : Entry * result AvailabilityError DeriveStep :=
  match raw_nar with
  | None => (e, Err DumpFailed)
  | Some raw_nar =>
      let computed := NarHashKey_from_raw_nar raw_nar in
      if bool_decide (computed = key)
      then (set_verdict (Verified (derived_of raw_nar)) e, Ok (Derived (derived_of raw_nar) true))
      else let mismatch := {| mm_registered := key; mm_computed := computed; mm_store_path := en_store_path e |} in
           (set_verdict (Quarantined mismatch) e, Err (Mismatch mismatch))
  end.

Definition supply_record (path : StorePath) (derived : DerivedNar) : SupplyCatalogRecord :=
  {| declared_size := nar_size_uncompressed_nar derived; source := production_source path; record_path := path |}.

(** [None] for the dump also when it was cancelled. *)
Definition verify_and_register (save : Save) (key : NarHashKey) (store_path : StorePath) (expected_size : Z) (raw : option (list byte)) (ix : Index) :
    option (Index * result AvailabilityError DerivedNar) :=
  match raw with
  | None => Some (ix, Err DumpFailed)
  | Some raw =>
      let computed := NarHashKey_from_raw_nar raw in
      if negb (bool_decide (computed = key)) then Some (ix, Err (Mismatch {| mm_registered := key; mm_computed := computed; mm_store_path := store_path |})) else
      if negb (Z.of_nat (length raw) =? expected_size)%Z then Some (ix, Err DumpFailed) else
      '(ix, registered) ← register_binding save key store_path (Some (derived_of raw)) ix;
      Some (ix, _ ← registered; Ok (derived_of raw))
  end.

(** One loaded registration. *)
Definition open_one (ix : Index) (reg : NarHashKey * (StorePath * option DerivedNar)) : option Index :=
  let '(key, (path, derived)) := reg in
  '(catalog, registration) ← catalog_register (ix_catalog ix);
  let catalog := match derived with
    | Some d => (catalog_publish catalog registration false (dn_blake3 d) (supply_record path d)).1
    | None => catalog
    end in
  Some (alloc (with_catalog ix catalog) key (fresh_entry path registration derived)).

(** The file is a BTreeMap: the registrations come in the order of their keys' text. *)
Definition load_le (a b : NarHashKey * (StorePath * option DerivedNar)) : Prop :=
  bytes_ltb (NarHashKey_to_string b.1) (NarHashKey_to_string a.1) = false.
#[local] Instance load_le_dec a b : Decision (load_le a b) := decide (_ = false).
Definition loaded (disk : Snapshot) : list (NarHashKey * (StorePath * option DerivedNar)) := merge_sort load_le (map_to_list disk).

Definition empty_index (node : NodeId) (disk : Snapshot) : Index :=
  {| ix_node := node; ix_heap := ∅; ix_next := 0; ix_entries := ∅; ix_catalog := empty_catalog; ix_disk := disk |}.
Fixpoint open_all (ix : Index) (regs : list (NarHashKey * (StorePath * option DerivedNar))) : option Index :=
  match regs with [] => Some ix | reg :: regs => ix ← open_one ix reg; open_all ix regs end.
Definition open (node : NodeId) (disk : Snapshot) : option Index := open_all (empty_index node disk) (loaded disk).

(** ** Serving from the catalog *)

(** [cancelled]: at entry and after the look; [metadata]: what the stat of the record's path says. *)
Inductive Metadata := Present | NotFound | StatError.
Definition supply_size_cancellable (exists_ : StorePath -> bool) (metadata : StorePath -> Metadata) (cancelled : bool * bool) (digest : Blake3Digest) (ix : Index) :
    result AvailabilityError (option Z) :=
  if cancelled.1 then Err DumpFailed else
  match probe_record exists_ (ix_catalog ix) digest with
  | None => Ok None
  | Some record =>
      match metadata (record_path record) with
      | NotFound => Ok None
      | StatError => Err DumpFailed
      | Present => if cancelled.2 then Err DumpFailed else Ok (Some (declared_size record))
      end
  end.

Definition supply_raw_nar_cancellable (exists_ : StorePath -> bool) (dump : StorePath -> option (list byte)) (cancelled : bool * bool) (digest : Blake3Digest) (ix : Index) :
    result AvailabilityError (list byte) :=
  if cancelled.1 then Err DumpFailed else
  record ← ok_or (probe_record exists_ (ix_catalog ix) digest) DumpFailed;
  raw_nar ← ok_or (dump (record_path record)) DumpFailed;
  if cancelled.2 then Err DumpFailed else
  if bool_decide (Blake3Digest_from_raw_nar raw_nar = digest) then Ok raw_nar else Err DumpFailed.

(** ** Queries as tasks *)

Inductive BudgetedHold := BHave (blake3 : Blake3Digest) (offers : list KnownTransport) | BAbsent | BDeferred.

(** Who asks, and what for. *)
Inductive Ask := AskLocal (key : NarHashKey) | AskPublish (key : NarHashKey) | AskPeer (asker : NodeId) (key : NarHashKey) | AskBatch (asker : NodeId) (keys : list NarHashKey).

(** The gate and the keys of a query; a batch is refused whole. *)
Definition ask_gate (a : Ask) : DeriveGate :=
  match a with
  | AskLocal _ | AskPublish _ => gate_local
  | AskPeer asker _ => gate_for_peer None asker
  | AskBatch asker _ => gate_for_peer (Some MAX_BATCH_DERIVE_WORK) asker
  end.
Definition ask_keys (a : Ask) : result ClaimCodecError (list NarHashKey) :=
  match a with
  | AskLocal key | AskPublish key | AskPeer _ key => Ok [key]
  | AskBatch _ keys => _ ← check_batch_keys keys; Ok keys
  end.

(** Where hold_budgeted stands for the current key: before the lookup, before
    the stat, before the prune, before the second look, before derive, in the
    dump, before the publication, and after a failed derive. *)
Inductive Pc :=
| Seek | Check_ (id : nat) | Gone (id : nat) | Recheck
| Deriving (id : nat) | Dumping (id : nat) | Publishing (id : nat) (derived : DerivedNar) (fresh : bool)
| Failing (id : nat) (error : AvailabilityError).

(** A query: what was asked, its gate, the key it is at, the keys to come and the answers so
    far.  [q_dumps] counts the dumps it started; no step reads it. *)
Record Query := {
  q_ask : Ask;
  q_gate : DeriveGate;
  q_key : NarHashKey;
  q_todo : list NarHashKey;
  q_pc : Pc;
  q_done : list (NarHashKey * result AvailabilityError BudgetedHold);
  q_dumps : nat
}.
Definition at_pc (q : Query) (pc : Pc) : Query :=
  {| q_ask := q_ask q; q_gate := q_gate q; q_key := q_key q; q_todo := q_todo q; q_pc := pc; q_done := q_done q; q_dumps := q_dumps q |}.
Definition with_gate (q : Query) (gate : DeriveGate) : Query :=
  {| q_ask := q_ask q; q_gate := gate; q_key := q_key q; q_todo := q_todo q; q_pc := q_pc q; q_done := q_done q; q_dumps := q_dumps q |}.
Definition dumping (q : Query) (id : nat) : Query :=
  {| q_ask := q_ask q; q_gate := q_gate q; q_key := q_key q; q_todo := q_todo q; q_pc := Dumping id; q_done := q_done q; q_dumps := S (q_dumps q) |}.

(** What the environment answers during a step. *)
Record Oracle := { o_exists : bool; o_save : Save; o_now : Z; o_nar_size : option Z; o_dump : option (list byte) }.

(** Where one step leads: on, or to the answer for the key. *)
Inductive Move := Goto (q : Query) | Settle (q : Query) (answer : result AvailabilityError BudgetedHold).

(** The next block of hold_budgeted; [None] while the digest lock is held by another. *)
Definition hold_step (o : Oracle) (q : Query) (ix : Index) (ledger : PeerDeriveLedger) : option (Index * PeerDeriveLedger * Move) :=
  let key := q_key q in
  match q_pc q with
  | Seek =>
      match ix_entries ix !! key with
      | Some id => Some (ix, ledger, Goto (at_pc q (Check_ id)))
      | None => Some (ix, ledger, Settle q (Ok BAbsent))
      end
  | Check_ id => Some (ix, ledger, Goto (at_pc q (if o_exists o then Deriving id else Gone id)))
  | Gone id =>
      let '(ix, dropped) := drop_if_same (o_save o) key id ix in
      match dropped with
      | Err error => Some (ix, ledger, Settle q (Err error))
      | Ok _ => Some (ix, ledger, Goto (at_pc q Recheck))
      end
  | Recheck =>
      match ix_entries ix !! key with
      | None => Some (ix, ledger, Settle q (Ok BAbsent))
      | Some _ => Some (ix, ledger, Goto (at_pc q Seek))
      end
  | Deriving id =>
      e ← ix_heap ix !! id;
      if en_locked e then None else
      let '(gate, ledger, before) := derive_before (o_now o) (o_nar_size o) e (q_gate q) ledger in
      let q := with_gate q gate in
      Some match before with
        | Answered (Ok DeriveDeferred) => (ix, ledger, Settle q (Ok BDeferred))
        | Answered (Ok (Derived derived fresh)) => (ix, ledger, Goto (at_pc q (Publishing id derived fresh)))
        | Answered (Err error) => (ix, ledger, Goto (at_pc q (Failing id error)))
        | StartDump => (with_heap ix (<[id := set_locked true e]> (ix_heap ix)), ledger, Goto (dumping q id))
        end
  | Dumping id =>
      e ← ix_heap ix !! id;
      let '(e, derived) := derive_after key (o_dump o) e in
      let ix := with_heap ix (<[id := set_locked false e]> (ix_heap ix)) in
      Some match derived with
        | Ok DeriveDeferred => (ix, ledger, Settle q (Ok BDeferred))
        | Ok (Derived derived fresh) => (ix, ledger, Goto (at_pc q (Publishing id derived fresh)))
        | Err error => (ix, ledger, Goto (at_pc q (Failing id error)))
        end
  | Failing id error =>
      if bool_decide (ix_entries ix !! key = Some id) then Some (ix, ledger, Settle q (Err error)) else Some (ix, ledger, Goto (at_pc q Seek))
  | Publishing id derived fresh =>
      if negb (bool_decide (ix_entries ix !! key = Some id)) then Some (ix, ledger, Goto (at_pc q Seek)) else
      e ← ix_heap ix !! id;
      let '(catalog, published) :=
        catalog_publish (ix_catalog ix) (en_registration e) (en_retired e) (dn_blake3 derived) (supply_record (en_store_path e) derived) in
      let ix := with_catalog ix catalog in
      if negb published then Some (ix, ledger, Settle q (Err DumpFailed)) else
      let ix := if fresh then (persist_locked (o_save o) ix).1 else ix in
      Some (ix, ledger, Settle q (Ok (BHave (dn_blake3 derived) [iroh_offer ix])))
  end.

(** ** What is answered *)

(** hold_cancellable: a local gate never defers, as AvailabilityProps.v
    shows; a release build maps a deferral to absence. *)
Definition hold_answer (r : result AvailabilityError BudgetedHold) : result AvailabilityError HoldAnswer :=
  hold ← r; Ok match hold with BHave blake3 offers => HoldHave blake3 offers | BAbsent | BDeferred => HoldAbsent end.

(** answer_for_peer, given what hold_budgeted returned. *)
Definition answer_for_peer (r : result AvailabilityError BudgetedHold) : result AvailabilityError HoldResponse :=
  answer ← hold_answer r; Ok {| hr_schema_version := QUERY_SCHEMA_VERSION; hr_answer := answer |}.

Definition batch_answer (r : result AvailabilityError BudgetedHold) : BatchHoldAnswer :=
  match r with Ok (BHave blake3 _) => Have blake3 [0%Z] | _ => Absent end.
Definition is_held (r : result AvailabilityError BudgetedHold) : bool := match r with Ok (BHave _ _) => true | _ => false end.

(** The operator notes, as their counts: faults and deferrals. *)
Inductive Note := NoteFaulted (count : nat) | NoteDeferred (count : nat).
Definition is_fault (r : result AvailabilityError BudgetedHold) : bool := negb (is_ok r).
Definition is_deferred (r : result AvailabilityError BudgetedHold) : bool := match r with Ok BDeferred => true | _ => false end.
Definition count_of (p : result AvailabilityError BudgetedHold -> bool) (l : list (result AvailabilityError BudgetedHold)) : nat :=
  length (filter (fun r => p r = true) l).

(** The end of answer_batch_reporting, given what hold_budgeted returned key by key. *)
Definition batch_response (node : NodeId) (holds : list (result AvailabilityError BudgetedHold)) : BatchHoldResponse * list Note :=
  let faulted := count_of is_fault holds in
  let deferred := count_of is_deferred holds in
  ({| br_schema_version := QUERY_SCHEMA_VERSION;
      br_offers := if existsb is_held holds then [KtIroh node] else [];
      br_answers := batch_answer <$> holds |},
   (if 0 <? faulted then [NoteFaulted faulted] else []) ++ (if 0 <? deferred then [NoteDeferred deferred] else [])).

(** claim and publish, given what the local hold returned. *)
Definition claim_of (node : NodeId) (key : NarHashKey) (r : result AvailabilityError HoldAnswer) : result AvailabilityError (option Claim) :=
  answer ← r;
  Ok match answer with
     | HoldHave blake3 offers =>
         Some {| cl_schema_version := CLAIM_SCHEMA_VERSION; cl_key := key; cl_payload := Some (WholeNar blake3); cl_holders := [node];
                 cl_transports := offers; cl_relay := None; cl_signatures := [] |}
     | HoldAbsent => None
     end.
Definition publish (announced : list Claim) (r : result AvailabilityError (option Claim)) : list Claim :=
  match r with Ok (Some claim) => announced ++ [claim] | _ => announced end.

(** ** The node *)

(** The index, the ledger its responder shares, the queries in flight and the
    claims handed to the announce sink by [publish]. *)
Record Node := {
  n_index : Index;
  n_ledger : PeerDeriveLedger;
  n_queries : gmap nat Query;
  n_announced : list Claim
}.


Inductive Action :=
| DoRegister (save : Save) (key : NarHashKey) (path : StorePath)
| DoVerifyRegister (save : Save) (key : NarHashKey) (path : StorePath) (expected_size : Z) (raw : option (list byte))
| DoUnregister (save : Save) (key : NarHashKey)
| DoPrune (save : Save) (key : NarHashKey) (observed : nat)
| DoAsk (tid : nat) (ask : Ask)
| DoStep (tid : nat) (o : Oracle)
| DoRestart (ledger : PeerDeriveLedger).

(** What can be seen of a run: the dumps that start, a peer's with its time and
    the size it was charged for, and the answers, with the number of dumps each took. *)
Inductive Event :=
| LocalDump
| PeerDump (e : WorkEvent)
| Answer (ask : Ask) (answers : list (NarHashKey * result AvailabilityError BudgetedHold)) (dumps : nat).

Definition with_index (n : Node) (ix : Index) : Node :=
  {| n_index := ix; n_ledger := n_ledger n; n_queries := n_queries n; n_announced := n_announced n |}.
Definition with_queries (n : Node) (queries : gmap nat Query) : Node :=
  {| n_index := n_index n; n_ledger := n_ledger n; n_queries := queries; n_announced := n_announced n |}.

Definition dump_event (o : Oracle) (q : Query) : Event :=
  match g_asker (q_gate q) with Some asker => PeerDump (o_now o, asker, default 0 (o_nar_size o), 1)%Z | None => LocalDump end.
Definition started (q q' : Query) : bool :=
  match q_pc q, q_pc q' with Deriving _, Dumping _ => true | _, _ => false end.

(** The claims announced by now, once query [q] ends with [answers]. *)
Definition announced_after (n : Node) (q : Query) (answer : result AvailabilityError BudgetedHold) : list Claim :=
  match q_ask q with
  | AskPublish key => publish (n_announced n) (claim_of (ix_node (n_index n)) key (hold_answer answer))
  | _ => n_announced n
  end.

Definition move (o : Oracle) (tid : nat) (q : Query) (m : Move) (n : Node) : Node * list Event :=
  match m with
  | Goto q' => (with_queries n (<[tid := q']> (n_queries n)), if started q q' then [dump_event o q] else [])
  | Settle q' answer =>
      let answers := q_done q' ++ [(q_key q', answer)] in
      match q_todo q' with
      | key :: todo =>
          (with_queries n (<[tid := {| q_ask := q_ask q'; q_gate := q_gate q'; q_key := key; q_todo := todo; q_pc := Seek;
                                       q_done := answers; q_dumps := q_dumps q' |}]> (n_queries n)), [])
      | [] =>
          ({| n_index := n_index n; n_ledger := n_ledger n; n_queries := delete tid (n_queries n);
              n_announced := announced_after n q' answer |}, [Answer (q_ask q') answers (q_dumps q')])
      end
  end.

Definition step_query (o : Oracle) (tid : nat) (n : Node) : option (Node * list Event) :=
  q ← n_queries n !! tid;
  '(ix, ledger, m) ← hold_step o q (n_index n) (n_ledger n);
  Some (move o tid q m {| n_index := ix; n_ledger := ledger; n_queries := n_queries n; n_announced := n_announced n |}).

Definition start_query (tid : nat) (ask : Ask) (n : Node) : option Node :=
  match n_queries n !! tid, ask_keys ask with
  | None, Ok (key :: todo) =>
      Some (with_queries n (<[tid := {| q_ask := ask; q_gate := ask_gate ask; q_key := key; q_todo := todo; q_pc := Seek; q_done := []; q_dumps := 0 |}]> (n_queries n)))
  | _, _ => None
  end.

(** One action; [None] when it cannot happen now. *)
Definition act (a : Action) (n : Node) : option (Node * list Event) :=
  match a with
  | DoRegister save key path => '(ix, _) ← register save key path (n_index n); Some (with_index n ix, [])
  | DoVerifyRegister save key path size raw => '(ix, _) ← verify_and_register save key path size raw (n_index n); Some (with_index n ix, [])
  | DoUnregister save key => Some (with_index n (unregister save key (n_index n)).1, [])
  | DoPrune save key observed => Some (with_index n (prune_if_gone save key observed false (n_index n)).1, [])
  | DoAsk tid ask => n ← start_query tid ask n; Some (n, [])
  | DoStep tid o => step_query o tid n
  | DoRestart ledger =>
      ix ← open (ix_node (n_index n)) (ix_disk (n_index n));
      Some ({| n_index := ix; n_ledger := ledger; n_queries := ∅; n_announced := n_announced n |}, [])
  end.

(** A run: actions that cannot happen are skipped. *)
Fixpoint run (acts : list Action) (n : Node) : Node * list Event :=
  match acts with
  | [] => (n, [])
  | a :: acts =>
      let '(n, events) := default (n, []) (act a n) in
      let '(n, later) := run acts n in (n, events ++ later)
  end.

Definition first_start (node : NodeId) (ledger : PeerDeriveLedger) : Node :=
  {| n_index := empty_index node ∅; n_ledger := ledger; n_queries := ∅; n_announced := [] |}.

End index.

(** ** JsonFileStore *)

Inductive StoredValue := PathOnly (path : list byte) | WithDerived (path : list byte) (blake3 : Blake3Digest) (size : Z).

Section json_file_store.
Context `{Json (gmap (list byte) StoredValue)}.

(** One entry of save; a path that is not UTF-8 fails it. *)
Definition stored_entry (entry : NarHashKey * (StorePath * option DerivedNar)) : option (list byte * StoredValue) :=
  let '(key, (path, derived)) := entry in
  if negb (Utf8.from_utf8_ok path) then None else
  Some (NarHashKey_to_string key,
        match derived with Some d => WithDerived path (dn_blake3 d) (nar_size_uncompressed_nar d) | None => PathOnly path end).
Definition json_save (entries : Snapshot) : option (list byte) :=
  l ← mapM stored_entry (map_to_list entries);
  to_vec (list_to_map l : gmap (list byte) StoredValue).

Definition load_entry (entry : list byte * StoredValue) : option (NarHashKey * (StorePath * option DerivedNar)) :=
  match NarHashKey_from_str entry.1 with
  | Some (Ok key) =>
      Some (key, match entry.2 with
        | PathOnly path => (path, None)
        | WithDerived path blake3 size => (path, Some {| dn_blake3 := blake3; nar_size_uncompressed_nar := size |})
        end)
  | _ => None
  end.
(** No file is an empty index; any fault in it is an error. *)
Definition json_load (file : option (list byte)) : result AvailabilityError Snapshot :=
  match file with
  | None => Ok ∅
  | Some bytes =>
      raw ← ok_or (from_slice (T := gmap (list byte) StoredValue) bytes) PersistFailed;
      l ← ok_or (mapM load_entry (map_to_list raw)) PersistFailed;
      Ok (list_to_map l)
  end.

End json_file_store.
