(* ===== verification/AvailabilityProps.v ===== *)
(** * What the availability index promises

    The invariant of Availability.v's index and queries through every action,
    and what follows from it alone: answers rest on a dump with the key's hash,
    the supply catalog offers only what is held and verified, a dropped index
    serves nothing, and a registration is all or nothing. *)

From Stdlib Require Import Strings.Byte ZArith Lia.
From stdpp Require Import base gmap numbers strings sorting list.
From S2P Require Import Prelude Hex Text Utf8 Ids NixBase32 Claim Ledgers Availability.

(** ** The catalog *)

(** The records are those of the owners that published, under the digest they published. *)
Record CatalogOk (c : CatalogState) : Prop := {
  co_owned d m rid : records c !! d = Some m -> is_Some (m !! rid) -> owners c !! rid = Some (Some d);
  co_listed rid d : owners c !! rid = Some (Some d) -> exists m, records c !! d = Some m /\ is_Some (m !! rid);
  co_some d : records c !! d <> Some ∅;
  co_below rid : is_Some (owners c !! rid) -> (rid <= next_registration c)%Z
}.

(** The record a registration has in the catalog. *)
Definition record_at (c : CatalogState) (d : Blake3Digest) (rid : Z) : option SupplyCatalogRecord := records c !! d ≫= (.!! rid).

Lemma record_at_remove rs d rid d' rid' :
  (remove_record rs d rid !! d' ≫= (.!! rid')) = if decide (d = d' /\ rid = rid') then None else rs !! d' ≫= (.!! rid').
Proof.
  unfold remove_record. destruct (rs !! d) as [m|] eqn:E.
  - case_bool_decide as Hm.
    + destruct (decide (d = d')) as [<-|Hd]; [|rewrite lookup_delete_ne by done; case_decide as Hc; [by destruct Hc|done]].
      rewrite lookup_delete_eq, E. cbn. case_decide as Hc; [done|]. symmetry. assert (rid <> rid') as Hr by naive_solver.
      rewrite <-(lookup_delete_ne m rid rid' Hr), Hm. apply lookup_empty.
    + destruct (decide (d = d')) as [<-|Hd]; [|rewrite lookup_insert_ne by done; case_decide as Hc; [by destruct Hc|done]].
      rewrite lookup_insert_eq, E. cbn. case_decide as Hc; [destruct Hc as [_ <-]; apply lookup_delete_eq|].
      rewrite lookup_delete_ne by naive_solver. done.
  - case_decide as Hc; [|done]. destruct Hc as [<- <-]. by rewrite E.
Qed.

Lemma remove_record_some rs d rid : (forall x, rs !! x <> Some ∅) -> forall x, remove_record rs d rid !! x <> Some ∅.
Proof.
  intros Hs x. unfold remove_record. destruct (rs !! d) as [m|] eqn:E; [|apply Hs]. case_bool_decide as Hm.
  - intros [_ Hx]%lookup_delete_Some. by apply (Hs x).
  - intros Hx. destruct (decide (d = x)) as [<-|Hd]; [rewrite lookup_insert_eq in Hx; naive_solver|].
    rewrite lookup_insert_ne in Hx by done. by apply (Hs x).
Qed.

Lemma record_at_iff c : CatalogOk c -> forall d rid, is_Some (record_at c d rid) <-> owners c !! rid = Some (Some d).
Proof.
  intros Hc d rid. unfold record_at. split.
  - intros [r Hr]. destruct (records c !! d) as [m|] eqn:E; [|done]. by apply (co_owned _ Hc d m).
  - intros (m & Hm & Hr)%(co_listed _ Hc). by rewrite Hm.
Qed.
(** The same, back: from the shape of [record_at] to the catalog. *)
Lemma catalog_ok_intro c :
  (forall d rid, is_Some (record_at c d rid) <-> owners c !! rid = Some (Some d)) ->
  (forall d, records c !! d <> Some ∅) -> (forall rid, is_Some (owners c !! rid) -> (rid <= next_registration c)%Z) -> CatalogOk c.
Proof.
  intros Hi Hs Hb. unfold record_at in Hi. split; [| |done|done].
  - intros d m rid Hm Hr. apply Hi. by rewrite Hm.
  - intros rid d Ho. apply Hi in Ho as [r Hr]. destruct (records c !! d) as [m|]; [|done]. exists m. split; [done|by exists r].
Qed.

Lemma register_ok c c' rid : CatalogOk c -> catalog_register c = Some (c', rid) ->
  CatalogOk c' /\ (next_registration c < rid)%Z /\ owners c !! rid = None /\ owners c' = <[rid := None]> (owners c) /\ records c' = records c /\
  next_registration c' = rid.
Proof.
  unfold catalog_register. intros Hc E. destruct (_ <=? _)%Z; [|done]. injection E as <- <-. cbn [owners records next_registration].
  assert (owners c !! (next_registration c + 1)%Z = None) as Hn.
  { apply eq_None_not_Some. intros Hr%(co_below _ Hc). lia. }
  split_and!; try done; [|lia]. apply catalog_ok_intro; [|apply Hc|].
  - intros d rid. change (record_at _ d rid) with (record_at c d rid). rewrite (record_at_iff c Hc). cbn [owners].
    destruct (decide (next_registration c + 1 = rid)%Z) as [<-|Hne]; [rewrite lookup_insert_eq, Hn; naive_solver|by rewrite lookup_insert_ne].
  - intros rid. cbn [owners next_registration]. destruct (decide (next_registration c + 1 = rid)%Z) as [<-|Hne]; [lia|].
    rewrite lookup_insert_ne by done. intros Hr%(co_below _ Hc). lia.
Qed.

Lemma retire_ok c rid : CatalogOk c ->
  CatalogOk (catalog_retire c rid) /\
  forall d rid', record_at (catalog_retire c rid) d rid' = if decide (rid' = rid) then None else record_at c d rid'.
Proof.
  intros Hc. assert (forall d rid', record_at (catalog_retire c rid) d rid' = if decide (rid' = rid) then None else record_at c d rid') as Hr.
  { intros d rid'. unfold record_at, catalog_retire. cbn [records]. pose proof (record_at_iff c Hc d rid') as Hi. unfold record_at in Hi.
    destruct (owners c !! rid) as [[d0|]|] eqn:E; [rewrite record_at_remove| |]; repeat case_decide; subst; try done; try naive_solver.
    all: destruct (records c !! d ≫= _) eqn:E'; [|done]; exfalso.
    all: assert (owners c !! rid = Some (Some d)) as Hd by (apply Hi; by eexists); naive_solver. }
  split; [|done]. apply catalog_ok_intro.
  - intros d rid'. rewrite Hr. unfold catalog_retire. cbn [owners]. case_decide as Hd; [subst; rewrite lookup_delete_eq; split; [by intros []|done]|].
    rewrite lookup_delete_ne by done. by apply record_at_iff.
  - unfold catalog_retire. cbn [records]. destruct (owners c !! rid) as [[d|]|]; [apply remove_record_some, Hc|apply Hc|apply Hc].
  - intros rid'. unfold catalog_retire. cbn [owners next_registration]. intros [x [_ Hx]%lookup_delete_Some]. by apply (co_below _ Hc).
Qed.

(** A registration that stands publishes, and only its own record changes. *)
Lemma publish_ok c rid d r : CatalogOk c -> is_Some (owners c !! rid) ->
  exists c', catalog_publish c rid false d r = (c', true) /\ CatalogOk c' /\ owners c' = <[rid := Some d]> (owners c) /\
    next_registration c' = next_registration c /\
    forall d' rid', record_at c' d' rid' = if decide (rid' = rid) then (if decide (d' = d) then Some r else None) else record_at c d' rid'.
Proof.
  intros Hc [od Ho]. unfold catalog_publish. rewrite Ho. eexists. split; [done|].
  set (kept := match od with Some _ => _ | None => _ end).
  assert (forall d' rid', kept !! d' ≫= (.!! rid') = if decide (rid' = rid /\ d' <> d) then None else record_at c d' rid') as Hk.
  { intros d' rid'. unfold kept. pose proof (record_at_iff c Hc d' rid') as Hi. unfold record_at in *.
    destruct od as [p|]; [case_bool_decide as Hp; [|rewrite record_at_remove]|]; repeat case_decide; try done; try naive_solver.
    all: destruct (records c !! d' ≫= _) eqn:E'; [|done]; exfalso.
    all: assert (owners c !! rid' = Some (Some d')) as Hd by (apply Hi; by eexists); naive_solver. }
  assert (forall x, kept !! x <> Some ∅) as Hs.
  { unfold kept. destruct od as [p|]; [case_bool_decide; [|apply remove_record_some]|]; apply Hc. }
  assert (forall d' rid', record_at {| next_registration := next_registration c; owners := <[rid:=Some d]> (owners c);
      records := <[d:=<[rid:=r]> (default ∅ (kept !! d))]> kept |} d' rid' =
    if decide (rid' = rid) then (if decide (d' = d) then Some r else None) else record_at c d' rid') as Hr.
  { intros d' rid'. unfold record_at at 1. cbn [records]. specialize (Hk d' rid'). destruct (decide (d' = d)) as [->|Hd].
    - rewrite lookup_insert_eq. cbn. destruct (decide (rid' = rid)) as [->|Hrid]; [apply lookup_insert_eq|]. rewrite lookup_insert_ne by done.
      rewrite decide_False in Hk by naive_solver. rewrite <-Hk. destruct (kept !! d); [done|apply lookup_empty].
    - rewrite lookup_insert_ne by done. rewrite Hk. repeat case_decide; naive_solver. }
  split_and!; [|done|done|exact Hr]. apply catalog_ok_intro.
  - intros d' rid'. rewrite Hr. cbn [owners]. case_decide as Hrid; [subst; rewrite lookup_insert_eq; case_decide; naive_solver|].
    rewrite lookup_insert_ne by done. by apply record_at_iff.
  - cbn [records]. intros x Hx. destruct (decide (d = x)) as [<-|Hne]; [rewrite lookup_insert_eq in Hx; injection Hx as Hx|by rewrite lookup_insert_ne in Hx; [apply (Hs x)|]].
    by apply insert_non_empty in Hx.
  - cbn [owners next_registration]. intros rid' Hrid. apply (co_below _ Hc). destruct (decide (rid = rid')) as [<-|Hne]; [by rewrite Ho|].
    by rewrite lookup_insert_ne in Hrid.
Qed.

(** ** The index *)

Section props.
Context `{Dumper}.

(** [derived] is what one of the dumps [raws] gives, and that dump has the key's hash. *)
Definition genuine (raws : list (list byte)) (key : NarHashKey) (derived : DerivedNar) : Prop :=
  exists raw, raw ∈ raws /\ NarHashKey_from_raw_nar raw = key /\ derived = derived_of raw.

(** The invariant.  [kf] remembers the key each entry was made for; [orphan] is
    an entry that was taken out of the map and is not retired yet. *)
Record IxOk (raws : list (list byte)) (kf : gmap nat NarHashKey) (orphan : option nat) (ix : Index) : Prop := {
  io_catalog : CatalogOk (ix_catalog ix);
  io_dom id : is_Some (ix_heap ix !! id) <-> is_Some (kf !! id);
  io_next id : is_Some (ix_heap ix !! id) -> id < ix_next ix;
  io_cur key id : ix_entries ix !! key = Some id ->
    kf !! id = Some key /\ exists e, ix_heap ix !! id = Some e /\ en_retired e = false /\ is_Some (owners (ix_catalog ix) !! en_registration e);
  io_reg i j e e' : ix_heap ix !! i = Some e -> ix_heap ix !! j = Some e' -> en_registration e = en_registration e' -> i = j;
  io_below i e : ix_heap ix !! i = Some e -> (en_registration e <= next_registration (ix_catalog ix))%Z;
  io_owner rid : is_Some (owners (ix_catalog ix) !! rid) ->
    exists id e, ix_heap ix !! id = Some e /\ en_registration e = rid /\ (orphan = Some id \/ exists key, ix_entries ix !! key = Some id);
  io_record d rid r id e : record_at (ix_catalog ix) d rid = Some r -> ix_heap ix !! id = Some e -> en_registration e = rid ->
    exists dn, en_digest e = Some (Verified dn) /\ dn_blake3 dn = d /\ r = supply_record (en_store_path e) dn;
  io_slot id e key dn : ix_heap ix !! id = Some e -> kf !! id = Some key -> en_digest e = Some (Verified dn) -> genuine raws key dn;
  io_mirror id e dn : ix_heap ix !! id = Some e -> en_persisted e = Some dn <-> en_digest e = Some (Verified dn);
  io_disk key path dn : ix_disk ix !! key = Some (path, Some dn) -> genuine raws key dn
}.

(** What no operation on the index does to an entry some query may hold. *)
Definition keeps (ix ix' : Index) : Prop :=
  forall id e, ix_heap ix !! id = Some e -> exists e', ix_heap ix' !! id = Some e' /\
    en_digest e' = en_digest e /\ en_locked e' = en_locked e /\ en_store_path e' = en_store_path e /\ en_registration e' = en_registration e.
Lemma keeps_refl ix : keeps ix ix.
Proof. intros id e He. by exists e. Qed.
Lemma keeps_trans a b c : keeps a b -> keeps b c -> keeps a c.
Proof.
  intros H1 H2 id e He. destruct (H1 id e He) as (e1 & He1 & ? & ? & ? & ?). destruct (H2 id e1 He1) as (e2 & He2 & ? & ? & ? & ?).
  exists e2. split_and!; [done|congruence..].
Qed.
Lemma keeps_heap ix ix' : ix_heap ix' = ix_heap ix -> keeps ix ix'.
Proof. intros E id e He. exists e. by rewrite E. Qed.

Lemma with_disk_ok raws kf o ix disk :
  IxOk raws kf o ix -> (forall key path dn, disk !! key = Some (path, Some dn) -> genuine raws key dn) -> IxOk raws kf o (with_disk ix disk).
Proof. intros [] Hd. by split. Qed.

Lemma lookup_snapshot ix key :
  snapshot ix !! key = ix_entries ix !! key ≫= (fun id => (fun e => (en_store_path e, en_persisted e)) <$> ix_heap ix !! id).
Proof. apply lookup_omap. Qed.

Lemma snapshot_genuine raws kf o ix key path dn :
  IxOk raws kf o ix -> snapshot ix !! key = Some (path, Some dn) -> genuine raws key dn.
Proof.
  intros Hi Hs. rewrite lookup_snapshot in Hs. destruct (ix_entries ix !! key) as [id|] eqn:E; [|done].
  destruct (io_cur _ _ _ _ Hi key id E) as (Hk & e & He & _). cbn in Hs. rewrite He in Hs. injection Hs as <- Hp.
  apply (io_slot _ _ _ _ Hi id e); [done..|]. by apply (io_mirror _ _ _ _ Hi id e).
Qed.

Lemma persist_ok raws kf o save ix : IxOk raws kf o ix -> IxOk raws kf o (persist_locked save ix).1.
Proof. intros Hi. destruct save; cbn; [|done|]; apply with_disk_ok; try done; intros; by eapply snapshot_genuine. Qed.
Lemma persist_keeps save ix : keeps ix (persist_locked save ix).1.
Proof. by destruct save; apply keeps_heap. Qed.
Lemma persist_entries save ix : ix_entries (persist_locked save ix).1 = ix_entries ix /\ ix_node (persist_locked save ix).1 = ix_node ix.
Proof. by destruct save. Qed.

Lemma retire_keeps id ix : keeps ix (retire_supply_registration id ix).
Proof.
  unfold retire_supply_registration. destruct (ix_heap ix !! id) as [e|] eqn:E; [|apply keeps_refl]. intros i e' Hi. cbn.
  destruct (decide (id = i)) as [<-|Hn]; [rewrite lookup_insert_eq; rewrite E in Hi; injection Hi as <-; by eexists|].
  rewrite lookup_insert_ne by done. by exists e'.
Qed.

Lemma retire_orphan_ok raws kf ix id :
  IxOk raws kf (Some id) ix -> (forall key, ix_entries ix !! key <> Some id) -> is_Some (ix_heap ix !! id) ->
  IxOk raws kf None (retire_supply_registration id ix).
Proof.
  intros Hi Hout [e He]. unfold retire_supply_registration. rewrite He.
  destruct (retire_ok (ix_catalog ix) (en_registration e) (io_catalog _ _ _ _ Hi)) as [Hc Hr].
  assert (forall i e', <[id := mark_retired e]> (ix_heap ix) !! i = Some e' -> exists e0, ix_heap ix !! i = Some e0 /\
    en_registration e' = en_registration e0 /\ en_digest e' = en_digest e0 /\ en_persisted e' = en_persisted e0 /\ en_store_path e' = en_store_path e0) as Hold.
  { intros i e'. destruct (decide (id = i)) as [<-|Hn]; [rewrite lookup_insert_eq; intros [= <-]; by exists e|]. rewrite lookup_insert_ne by done. by exists e'. }
  split; cbn.
  - done.
  - intros i. rewrite <-(io_dom _ _ _ _ Hi). destruct (decide (id = i)) as [<-|Hn]; [rewrite lookup_insert_eq, He; split; by eexists|by rewrite lookup_insert_ne].
  - intros i [e' He']. destruct (Hold i e' He') as (e0 & He0 & _). by apply (io_next _ _ _ _ Hi); exists e0.
  - intros key i Hk. assert (id <> i) as Hn by (intros <-; by apply (Hout key)). destruct (io_cur _ _ _ _ Hi key i Hk) as (Hkf & e' & He' & Hret & Hown).
    split; [done|]. exists e'. rewrite lookup_insert_ne by done. split_and!; [done..|]. rewrite lookup_delete_ne; [done|].
    intros Heq. apply Hn. by apply (io_reg _ _ _ _ Hi id i e e').
  - intros i j e1 e2 (a & Ha & -> & _)%Hold (b & Hb & -> & _)%Hold. by apply (io_reg _ _ _ _ Hi).
  - intros i e1 (a & Ha & -> & _)%Hold. by apply (io_below _ _ _ _ Hi i).
  - intros rid [x [Hne Hx]%lookup_delete_Some]. destruct (io_owner _ _ _ _ Hi rid) as (i & e' & He' & Hreg & Hor); [by exists x|].
    assert (id <> i) as Hn by (intros <-; rewrite He in He'; naive_solver). exists i, e'. rewrite lookup_insert_ne by done. split_and!; [done..|]. right. naive_solver.
  - intros d rid r i e1 Hrec (a & Ha & Hreg & Hdig & _ & Hpath)%Hold Hrid. rewrite Hr in Hrec. case_decide; [done|].
    rewrite Hdig, Hpath. apply (io_record _ _ _ _ Hi d rid r i a); [done..|congruence].
  - intros i e1 key dn (a & Ha & _ & Hdig & _)%Hold. rewrite Hdig. by apply (io_slot _ _ _ _ Hi).
  - intros i e1 dn (a & Ha & _ & Hdig & Hper & _)%Hold. rewrite Hdig, Hper. by apply (io_mirror _ _ _ _ Hi i).
  - apply (io_disk _ _ _ _ Hi).
Qed.

(** Taking a key out leaves its entry an orphan. *)
Lemma take_out_ok raws kf ix key id :
  IxOk raws kf None ix -> ix_entries ix !! key = Some id -> IxOk raws kf (Some id) (with_entries ix (delete key (ix_entries ix))).
Proof.
  intros Hi Hk. destruct Hi as [H1 H2 H3 H4 H5 H6 H7 H8 H9 H10 H11]. split; cbn; try done.
  - intros k i [_ Hki]%lookup_delete_Some. by apply H4.
  - intros rid (i & e & He & Hreg & [?|[k Hki]])%H7; [done|]. exists i, e. split_and!; [done..|].
    destruct (decide (key = k)) as [<-|Hne]; [left; congruence|]. right. exists k. by rewrite lookup_delete_ne.
Qed.
Lemma entries_inj raws kf o ix k k' id : IxOk raws kf o ix -> ix_entries ix !! k = Some id -> ix_entries ix !! k' = Some id -> k = k'.
Proof. intros Hi H1%(io_cur _ _ _ _ Hi) H2%(io_cur _ _ _ _ Hi). destruct H1 as [H1 _], H2 as [H2 _]. congruence. Qed.

Lemma removed_ok raws kf ix key id :
  IxOk raws kf None ix -> ix_entries ix !! key = Some id ->
  IxOk raws kf None (retire_supply_registration id (with_entries ix (delete key (ix_entries ix)))).
Proof.
  intros Hi Hk. apply retire_orphan_ok; [by apply take_out_ok| |].
  - cbn. intros k [Hne Hki]%lookup_delete_Some. by apply Hne, (entries_inj _ _ _ _ _ _ _ Hi Hk Hki).
  - destruct (io_cur _ _ _ _ Hi key id Hk) as (_ & e & He & _). by exists e.
Qed.

(** A new entry, in the map or, when [kept], taken out of it again. *)
Lemma alloc_ok raws kf ix key path verified catalog rid (kept : bool) :
  IxOk raws kf None ix -> catalog_register (ix_catalog ix) = Some (catalog, rid) -> (forall dn, verified = Some dn -> genuine raws key dn) ->
  IxOk raws (<[ix_next ix := key]> kf) (if kept then Some (ix_next ix) else ix_entries ix !! key)
    (with_entries (alloc (with_catalog ix catalog) key (fresh_entry path rid verified))
       (if kept then ix_entries ix else <[key := ix_next ix]> (ix_entries ix))).
Proof.
  intros Hi Hreg Hver. destruct (register_ok _ _ _ (io_catalog _ _ _ _ Hi) Hreg) as (Hc & Hlt & Hfree & Ho & Hr & Hnx).
  set (new := ix_next ix). assert (ix_heap ix !! new = None) as Hnew.
  { apply eq_None_not_Some. intros Hx%(io_next _ _ _ _ Hi). unfold new in Hx. lia. }
  assert (kf !! new = None) as Hkn by (apply eq_None_not_Some; rewrite <-(io_dom _ _ _ _ Hi), Hnew; by intros []).
  set (e0 := fresh_entry path rid verified).
  assert (forall i e, <[new := e0]> (ix_heap ix) !! i = Some e -> (i = new /\ e = e0) \/ (i <> new /\ ix_heap ix !! i = Some e)) as Hcase.
  { intros i e [[<- <-]|[Hn He]]%lookup_insert_Some; [by left|right; done]. }
  assert (forall i e, ix_heap ix !! i = Some e -> en_registration e <> rid) as Hother.
  { intros i e He%(io_below _ _ _ _ Hi). lia. }
  split; cbn.
  - done.
  - intros i. destruct (decide (new = i)) as [<-|Hn]; [rewrite !lookup_insert_eq; split; by eexists|]. rewrite !lookup_insert_ne by done. apply (io_dom _ _ _ _ Hi).
  - intros i [e [[-> _]|[_ He]]%Hcase]; [unfold new; lia|]. assert (i < ix_next ix) by (apply (io_next _ _ _ _ Hi); by eexists). lia.
  - intros k i Hk. assert ((k = key /\ i = new) \/ (ix_entries ix !! k = Some i)) as [[-> ->]|Hold].
    { destruct kept; [by right|]. apply lookup_insert_Some in Hk as [[<- <-]|[_ Hk]]; [by left|by right]. }
    + rewrite lookup_insert_eq. split; [done|]. exists e0. rewrite lookup_insert_eq, Ho. split_and!; [done..|]. cbn. rewrite lookup_insert_eq. by eexists.
    + destruct (io_cur _ _ _ _ Hi k i Hold) as (Hk' & e & He & Hret & Hown). assert (new <> i) as Hn by (intros <-; congruence).
      rewrite lookup_insert_ne by done. split; [done|]. exists e. rewrite lookup_insert_ne by done. split_and!; [done..|]. rewrite Ho, lookup_insert_ne; [done|]. symmetry. by eapply Hother.
  - intros i j e e' [[-> ->]|[Hn He]]%Hcase [[-> ->]|[Hn' He']]%Hcase Heq; [done|..].
    + symmetry in Heq. by apply Hother in He'.
    + by apply Hother in He.
    + by apply (io_reg _ _ _ _ Hi i j e e').
  - intros i e [[-> ->]|[_ He]]%Hcase; [cbn; lia|]. apply (io_below _ _ _ _ Hi) in He. lia.
  - rewrite Ho. intros r' Hr'. destruct (decide (rid = r')) as [<-|Hne].
    + exists new, e0. rewrite lookup_insert_eq. split_and!; [done..|]. destruct kept; [by left|right; exists key; apply lookup_insert_eq].
    + rewrite lookup_insert_ne in Hr' by done. destruct (io_owner _ _ _ _ Hi r' Hr') as (i & e & He & Hre & [?|[k Hk]]); [done|].
      assert (new <> i) by congruence. exists i, e. rewrite lookup_insert_ne by done. split_and!; [done..|]. destruct kept; [right; by exists k|].
      destruct (decide (key = k)) as [<-|]; [by left|right; exists k; by rewrite lookup_insert_ne].
  - intros d r' r i e Hrec Hhe Hre. unfold record_at in Hrec. rewrite Hr in Hrec. destruct (Hcase _ _ Hhe) as [[-> ->]|[_ He]].
    + exfalso. cbn in Hre. subst r'. assert (owners (ix_catalog ix) !! rid = Some (Some d)) as Hx; [|congruence].
      apply (record_at_iff _ (io_catalog _ _ _ _ Hi)). by exists r.
    + by apply (io_record _ _ _ _ Hi d r' r i e).
  - intros i e k dn [[-> ->]|[Hn He]]%Hcase.
    + rewrite lookup_insert_eq. intros [= <-]. destruct verified as [v|]; [|done]. cbn. intros [= <-]. by apply Hver.
    + rewrite lookup_insert_ne by done. by apply (io_slot _ _ _ _ Hi).
  - intros i e dn [[-> ->]|[Hn He]]%Hcase; [destruct verified; cbn; naive_solver|]. by apply (io_mirror _ _ _ _ Hi i).
  - apply (io_disk _ _ _ _ Hi).
Qed.

Lemma alloc_keeps raws kf o ix key c e entries : IxOk raws kf o ix -> keeps ix (with_entries (alloc (with_catalog ix c) key e) entries).
Proof.
  intros Hi id e' He. cbn. rewrite lookup_insert_ne; [by exists e'|]. intros <-.
  assert (ix_next ix < ix_next ix); [|lia]. apply (io_next _ _ _ _ Hi). by exists e'.
Qed.

(** Publishing the verified derivation of a current entry succeeds. *)
Lemma publish_current_ok raws kf o ix key id e d :
  IxOk raws kf o ix -> ix_entries ix !! key = Some id -> ix_heap ix !! id = Some e -> en_digest e = Some (Verified d) ->
  exists c, catalog_publish (ix_catalog ix) (en_registration e) (en_retired e) (dn_blake3 d) (supply_record (en_store_path e) d) = (c, true) /\
    IxOk raws kf o (with_catalog ix c).
Proof.
  intros Hi Hk He Hd. destruct (io_cur _ _ _ _ Hi key id Hk) as (_ & e' & He' & Hret & Hown). assert (e' = e) as -> by congruence. rewrite Hret.
  destruct (publish_ok _ _ (dn_blake3 d) (supply_record (en_store_path e) d) (io_catalog _ _ _ _ Hi) Hown) as (c & -> & Hc & Ho & Hnx & Hr).
  exists c. split; [done|]. destruct Hi as [H1 H2 H3 H4 H5 H6 H7 H8 H9 H10 H11]. 
  assert (forall rid, is_Some (owners c !! rid) <-> is_Some (owners (ix_catalog ix) !! rid)) as Hsame.
  { intros rid. rewrite Ho. destruct (decide (en_registration e = rid)) as [<-|Hn]; [rewrite lookup_insert_eq; split; [done|by eexists]|by rewrite lookup_insert_ne]. }
  split; cbn; try done.
  - intros k i (? & e1 & ? & ? & Hs)%H4. split; [done|]. exists e1. by rewrite Hsame.
  - rewrite Hnx. done.
  - intros rid Hs%Hsame. by apply H7.
  - intros d' rid r i e1 Hrec He1 Hrid. rewrite Hr in Hrec. case_decide as Hx; [|by apply (H8 d' rid r i e1)].
    subst rid. assert (i = id) as -> by (by apply (H5 i id e1 e)). assert (e1 = e) as -> by congruence.
    case_decide; [|done]. injection Hrec as <-. by exists d.
Qed.

(** A step on one entry that keeps its path, registration and retirement. *)
Lemma with_entry_ok raws kf o ix id e e' :
  IxOk raws kf o ix -> ix_heap ix !! id = Some e ->
  en_registration e' = en_registration e -> en_retired e' = en_retired e -> en_store_path e' = en_store_path e ->
  (forall v, en_digest e = Some v -> en_digest e' = Some v) ->
  (forall key dn, kf !! id = Some key -> en_digest e' = Some (Verified dn) -> genuine raws key dn) ->
  (forall dn, en_persisted e' = Some dn <-> en_digest e' = Some (Verified dn)) ->
  IxOk raws kf o (with_heap ix (<[id := e']> (ix_heap ix))).
Proof.
  intros Hi He Hreg Hret Hpath Hdig Hgen Hmir. destruct Hi as [H1 H2 H3 H4 H5 H6 H7 H8 H9 H10 H11].
  assert (forall i x, <[id := e']> (ix_heap ix) !! i = Some x -> (i = id /\ x = e') \/ (i <> id /\ ix_heap ix !! i = Some x)) as Hcase.
  { intros i x [[<- <-]|[Hn Hx]]%lookup_insert_Some; [by left|right; done]. }
  assert (forall i x, <[id := e']> (ix_heap ix) !! i = Some x -> exists y, ix_heap ix !! i = Some y /\ en_registration x = en_registration y) as Hold.
  { intros i x [[-> ->]|[_ Hx]]%Hcase; [by exists e|by exists x]. }
  assert (forall i x, ix_heap ix !! i = Some x -> exists y, <[id := e']> (ix_heap ix) !! i = Some y /\
    en_registration y = en_registration x /\ en_retired y = en_retired x) as Hnew.
  { intros i x Hx. destruct (decide (id = i)) as [<-|Hn]; [rewrite lookup_insert_eq; exists e'; assert (x = e) as -> by congruence; done|].
    rewrite lookup_insert_ne by done. by exists x. }
  split; cbn; try done.
  - intros i. rewrite <-H2. split; [intros [x (y & Hy & _)%Hold]; by exists y|intros [x (y & Hy & _)%Hnew]; by exists y].
  - intros i [x (y & Hy & _)%Hold]. apply H3. by exists y.
  - intros k i (Hk & x & (y & Hy & Hr & Ht)%Hnew & Hx & Hs)%H4. split; [done|]. exists y. rewrite Hr, Ht. done.
  - intros i j x x' (y & Hy & ->)%Hold (y' & Hy' & ->)%Hold. by apply (H5 i j).
  - intros i x (y & Hy & ->)%Hold. by apply (H6 i).
  - intros rid (i & x & (y & Hy & Hr & _)%Hnew & <- & Hor)%H7. exists i, y. done.
  - intros d rid r i x Hrec [[-> ->]|[_ Hx]]%Hcase Hrid; [|by apply (H8 d rid r i x)].
    destruct (H8 d rid r id e Hrec He) as (dn & Hdn & ? & ->); [congruence|]. exists dn. rewrite Hpath. by rewrite (Hdig _ Hdn).
  - intros i x key dn [[-> ->]|[_ Hx]]%Hcase; [apply Hgen|by apply H9].
  - intros i x dn [[-> ->]|[_ Hx]]%Hcase; [apply Hmir|by apply (H10 i)].
Qed.

(** ** The operations keep the invariant *)

Definition no_new_locks (ix ix' : Index) : Prop :=
  forall id e', ix_heap ix' !! id = Some e' -> en_locked e' = true -> exists e, ix_heap ix !! id = Some e /\ en_locked e = true.

Definition op_ok (raws : list (list byte)) (kf : gmap nat NarHashKey) (ix ix' : Index) : Prop :=
  exists kf', kf ⊆ kf' /\ IxOk raws kf' None ix' /\ keeps ix ix' /\ no_new_locks ix ix' /\ ix_node ix' = ix_node ix.

Lemma no_new_locks_trans a b c : no_new_locks a b -> no_new_locks b c -> no_new_locks a c.
Proof. intros H1 H2 id e He Hl. destruct (H2 id e He Hl) as (e1 & He1 & Hl1). by apply (H1 id e1). Qed.
Lemma no_new_locks_heap a b : ix_heap b = ix_heap a -> no_new_locks a b.
Proof. intros E id e He Hl. exists e. by rewrite <-E. Qed.
Lemma retire_no_new_locks id ix : no_new_locks ix (retire_supply_registration id ix).
Proof.
  unfold retire_supply_registration. destruct (ix_heap ix !! id) as [e|] eqn:E; [|by apply no_new_locks_heap].
  intros i e' Hi Hl. cbn in Hi. apply lookup_insert_Some in Hi as [[<- <-]|[_ Hi]]; [by exists e|by exists e'].
Qed.
Lemma alloc_no_new_locks ix key c path rid v entries : no_new_locks ix (with_entries (alloc (with_catalog ix c) key (fresh_entry path rid v)) entries).
Proof. intros i e' Hi Hl. cbn in Hi. apply lookup_insert_Some in Hi as [[<- <-]|[_ Hi]]; [done|by exists e']. Qed.
Lemma retire_node id ix : ix_node (retire_supply_registration id ix) = ix_node ix.
Proof. unfold retire_supply_registration. by destruct (ix_heap ix !! id). Qed.

Lemma persist_no_new_locks save ix : no_new_locks ix (persist_locked save ix).1.
Proof. by destruct save; apply no_new_locks_heap. Qed.

Lemma op_refl raws kf ix : IxOk raws kf None ix -> op_ok raws kf ix ix.
Proof. intros Hi. exists kf. split_and!; [done..|apply keeps_refl|by apply no_new_locks_heap|done]. Qed.

Lemma removed_op raws kf save ix key id :
  IxOk raws kf None ix -> ix_entries ix !! key = Some id ->
  op_ok raws kf ix (persist_locked save (retire_supply_registration id (with_entries ix (delete key (ix_entries ix))))).1.
Proof.
  intros Hi Hk. exists kf. split_and!; [done|by apply persist_ok, removed_ok|..].
  - eapply keeps_trans; [|apply persist_keeps]. eapply keeps_trans; [|apply retire_keeps]. by apply keeps_heap.
  - eapply no_new_locks_trans; [|apply persist_no_new_locks]. eapply no_new_locks_trans; [|apply retire_no_new_locks]. by apply no_new_locks_heap.
  - by rewrite (proj2 (persist_entries _ _)), retire_node.
Qed.
Lemma unregister_op raws kf save key ix : IxOk raws kf None ix -> op_ok raws kf ix (unregister save key ix).1.
Proof. intros Hi. unfold unregister. destruct (ix_entries ix !! key) as [id|] eqn:E; [by apply removed_op|by apply op_refl]. Qed.
Lemma drop_op raws kf save key id ix : IxOk raws kf None ix -> op_ok raws kf ix (drop_if_same save key id ix).1.
Proof. intros Hi. unfold drop_if_same. case_bool_decide; [by apply removed_op|by apply op_refl]. Qed.

(** What the map is after a rejected registration put the old binding back. *)
Lemma restored_entries (entries : gmap NarHashKey nat) key new :
  match entries !! key with Some previous => <[key := previous]> (<[key := new]> entries) | None => delete key (<[key := new]> entries) end = entries.
Proof. destruct (entries !! key) as [p|] eqn:E; [by rewrite insert_insert_eq, insert_id|by rewrite delete_insert_id]. Qed.

(** The three ways a registration that changes something ends. *)
Lemma register_cases save key path verified ix ix' r :
  register_binding save key path verified ix = Some (ix', r) ->
  (ix' = ix /\ r = Ok tt /\ verified = None /\ stands_at ix key path = true) \/
  exists c rid, catalog_register (ix_catalog ix) = Some (c, rid) /\
    let made entries := with_entries (alloc (with_catalog ix c) key (fresh_entry path rid verified)) entries in
    let put := made (<[key := ix_next ix]> (ix_entries ix)) in
    (save = Saved /\ r = Ok tt /\
       ix' = match ix_entries ix !! key with Some p => retire_supply_registration p (with_disk put (snapshot put)) | None => with_disk put (snapshot put) end) \/
    (save <> Saved /\ r = Err PersistFailed /\
       ix' = retire_supply_registration (ix_next ix) (with_disk (made (ix_entries ix)) (match save with FailedAfter => snapshot put | _ => ix_disk ix end))).
Proof.
  unfold register_binding. intros E. destruct (stands_at ix key path && _) eqn:Hs.
  { apply andb_prop in Hs as [Hs Hv]. injection E as <- <-. left. apply bool_decide_eq_true in Hv. done. }
  right. destruct (catalog_register (ix_catalog ix)) as [[c rid]|]; [|done]. exists c, rid. split; [done|]. cbv zeta.
  cbn [mbind option_bind] in E. destruct save; cbn in E; injection E as <- <-; [by left|right..].
  - split_and!; [done..|]. by rewrite restored_entries.
  - split_and!; [done..|]. by rewrite restored_entries.
Qed.

Lemma register_op raws kf save key path verified ix ix' r :
  IxOk raws kf None ix -> (forall dn, verified = Some dn -> genuine raws key dn) ->
  register_binding save key path verified ix = Some (ix', r) -> op_ok raws kf ix ix'.
Proof.
  intros Hi Hv [(-> & _)|(c & rid & Hc & Hend)]%register_cases; [by apply op_refl|]. cbv zeta in Hend.
  set (made := fun entries => with_entries (alloc (with_catalog ix c) key (fresh_entry path rid verified)) entries) in *.
  set (put := made (<[key := ix_next ix]> (ix_entries ix))) in *.
  pose proof (alloc_ok raws kf ix key path verified c rid false Hi Hc Hv : IxOk raws (<[ix_next ix := key]> kf) (ix_entries ix !! key) put) as Hput.
  pose proof (alloc_ok raws kf ix key path verified c rid true Hi Hc Hv : IxOk raws (<[ix_next ix := key]> kf) (Some (ix_next ix)) (made (ix_entries ix))) as Hkept.
  assert (forall i, ix_entries ix !! i <> Some (ix_next ix)) as Hfresh.
  { intros i Hx. destruct (io_cur _ _ _ _ Hi i _ Hx) as (_ & e & He & _). assert (ix_next ix < ix_next ix); [|lia]. apply (io_next _ _ _ _ Hi). by exists e. }
  assert (kf ⊆ <[ix_next ix := key]> kf) as Hsub.
  { apply insert_subseteq, eq_None_not_Some. rewrite <-(io_dom _ _ _ _ Hi). intros Hx%(io_next _ _ _ _ Hi). lia. }
  assert (forall disk entries o, (forall k p dn, disk !! k = Some (p, Some dn) -> genuine raws k dn) -> IxOk raws (<[ix_next ix := key]> kf) o (made entries) ->
    IxOk raws (<[ix_next ix := key]> kf) o (with_disk (made entries) disk)) as Hdisk by (intros; by apply with_disk_ok).
  assert (forall k p dn, snapshot put !! k = Some (p, Some dn) -> genuine raws k dn) as Hsnap by (intros k p dn; by apply (snapshot_genuine _ _ _ _ _ _ _ Hput)).
  assert (forall id entries disk, keeps ix (retire_supply_registration id (with_disk (made entries) disk)) /\
    no_new_locks ix (retire_supply_registration id (with_disk (made entries) disk))) as Hkeep.
  { intros id entries disk. split.
    - eapply keeps_trans; [|apply retire_keeps]. eapply keeps_trans; [by eapply alloc_keeps|]. by apply keeps_heap.
    - eapply no_new_locks_trans; [|apply retire_no_new_locks]. eapply no_new_locks_trans; [by eapply alloc_no_new_locks|]. by apply no_new_locks_heap. }
  exists (<[ix_next ix := key]> kf). split; [done|].
  destruct Hend as [(_ & _ & ->)|(_ & _ & ->)]; [destruct (ix_entries ix !! key) as [p|] eqn:Ep|].
  - destruct (Hkeep p (<[key := ix_next ix]> (ix_entries ix)) (snapshot put)) as [Hk Hl]. split_and!; [|exact Hk|exact Hl|by rewrite retire_node].
    destruct (io_cur _ _ _ _ Hi key p Ep) as (_ & e & He & _). apply retire_orphan_ok; [by apply Hdisk| |].
    + cbn. intros k [[<- Hp]|[Hn Hp]]%lookup_insert_Some; [by apply (Hfresh key); rewrite Ep, Hp|]. by apply Hn, (entries_inj _ _ _ _ _ _ _ Hi Ep Hp).
    + destruct (alloc_keeps _ _ _ ix key c (fresh_entry path rid verified) ∅ Hi p e He) as (e' & He' & _). by exists e'.
  - split_and!; [by apply Hdisk|by eapply alloc_keeps|by eapply alloc_no_new_locks|done].
  - destruct (Hkeep (ix_next ix) (ix_entries ix) (match save with FailedAfter => snapshot put | _ => ix_disk ix end)) as [Hk Hl].
    split_and!; [|exact Hk|exact Hl|by rewrite retire_node]. apply retire_orphan_ok; [|done|cbn; rewrite lookup_insert_eq; by eexists].
    apply Hdisk; [|done]. destruct save; try done; apply (io_disk _ _ _ _ Hi).
Qed.

Lemma verify_register_op raws kf save key path size raw ix ix' r :
  IxOk raws kf None ix -> (forall x, raw = Some x -> x ∈ raws) ->
  verify_and_register save key path size raw ix = Some (ix', r) -> op_ok raws kf ix ix'.
Proof.
  intros Hi Hr E. unfold verify_and_register in E. destruct raw as [x|]; [|injection E as <- <-; by apply op_refl].
  case_bool_decide as Hk; [|injection E as <- <-; by apply op_refl]. cbn [negb] in E.
  destruct (negb (_ =? _)%Z); [injection E as <- <-; by apply op_refl|].
  destruct (register_binding _ _ _ _ _) as [[ix1 r1]|] eqn:Eb; [|done]. injection E as <- <-.
  apply (register_op _ _ _ _ _ _ _ _ _ Hi) in Eb; [done|]. intros dn [= <-]. exists x. split_and!; [by apply Hr|done..].
Qed.

(** ** Opening *)

(** Nothing is locked, and whatever is verified is in the catalog. *)
Definition ready (ix : Index) : Prop :=
  forall id e, ix_heap ix !! id = Some e -> en_locked e = false /\
    forall dn, en_digest e = Some (Verified dn) -> record_at (ix_catalog ix) (dn_blake3 dn) (en_registration e) = Some (supply_record (en_store_path e) dn).

Lemma open_one_ok raws kf ix key path derived ix' :
  IxOk raws kf None ix -> ready ix -> ix_entries ix !! key = None -> (forall dn, derived = Some dn -> genuine raws key dn) ->
  open_one ix (key, (path, derived)) = Some ix' ->
  exists kf', IxOk raws kf' None ix' /\ ready ix' /\ ix_disk ix' = ix_disk ix /\ ix_node ix' = ix_node ix /\
    ix_entries ix' = <[key := ix_next ix]> (ix_entries ix) /\ snapshot ix' = <[key := (path, derived)]> (snapshot ix).
Proof.
  intros Hi Hrd Hk Hg E. unfold open_one in E. destruct (catalog_register (ix_catalog ix)) as [[c rid]|] eqn:Hc; [|done]. cbn [mbind option_bind] in E. apply (inj Some) in E as <-.
  pose proof (alloc_ok raws kf ix key path derived c rid false Hi Hc Hg) as Ha. rewrite Hk in Ha. cbn in Ha.
  set (ixa := with_entries _ _) in Ha. set (e0 := fresh_entry path rid derived).
  destruct (register_ok _ _ _ (io_catalog _ _ _ _ Hi) Hc) as (_ & Hlt & _ & _ & Hrec & _).
  assert (ix_heap ixa = <[ix_next ix := e0]> (ix_heap ix)) as Hheap by done.
  assert (ix_heap ixa !! ix_next ix = Some e0) as He0 by (rewrite Hheap; apply lookup_insert_eq).
  assert (forall id e, ix_heap ixa !! id = Some e -> (id = ix_next ix /\ e = e0) \/ (ix_heap ix !! id = Some e /\ en_registration e <> rid)) as Hcase.
  { intros id e He. rewrite Hheap in He. apply lookup_insert_Some in He as [[<- <-]|[_ He]]; [by left|right]. split; [done|]. apply (io_below _ _ _ _ Hi) in He. lia. }
  assert (forall c', snapshot (with_catalog ixa c') = <[key := (path, derived)]> (snapshot ix)) as Hsn.
  { intros c'. apply map_eq. intros k. rewrite lookup_snapshot. cbn. destruct (decide (key = k)) as [<-|Hn].
    - rewrite lookup_insert_eq. cbn. rewrite lookup_insert_eq. symmetry. apply lookup_insert_eq.
    - rewrite lookup_insert_ne by done. etrans; [|symmetry; by apply lookup_insert_ne]. rewrite lookup_snapshot. destruct (ix_entries ix !! k) as [i|] eqn:Ei; [|done]. cbn.
      destruct (io_cur _ _ _ _ Hi k i Ei) as (_ & e & He & _). rewrite lookup_insert_ne; [done|]. intros <-.
      assert (ix_next ix < ix_next ix); [|lia]. apply (io_next _ _ _ _ Hi). by exists e. }
  exists (<[ix_next ix := key]> kf). destruct derived as [d|].
  - destruct (publish_current_ok _ _ _ ixa key (ix_next ix) e0 d Ha) as (c' & Hp & Hok); [apply lookup_insert_eq|done..|].
    change (catalog_publish c rid false (dn_blake3 d) (supply_record path d) = (c', true)) in Hp. rewrite Hp. cbn [fst]. split_and!; [exact Hok| |done..|exact (Hsn c')].
    destruct (publish_ok c rid (dn_blake3 d) (supply_record path d)) as (c2 & Hp2 & _ & _ & _ & Hr).
    { apply (io_catalog _ _ _ _ Ha). } { destruct (io_cur _ _ _ _ Ha key (ix_next ix)) as (_ & e & He & _ & Hs); [apply lookup_insert_eq|]. rewrite He0 in He. by injection He as <-. }
    rewrite Hp in Hp2. injection Hp2 as <-. intros id e [[-> ->]|[He Hne]]%Hcase.
    + split; [done|]. cbn. intros dn [= <-]. by rewrite Hr, !decide_True.
    + destruct (Hrd id e He) as [Hl Hs]. split; [done|]. intros dn Hdn. cbn. rewrite Hr, decide_False by done. unfold record_at. rewrite Hrec. by apply Hs.
  - split_and!; [exact Ha| |done..|exact (Hsn c)]. intros id e [[-> ->]|[He Hne]]%Hcase; [done|].
    destruct (Hrd id e He) as [Hl Hs]. split; [done|]. intros dn Hdn. unfold record_at. cbn. rewrite Hrec. by apply Hs.
Qed.

Lemma open_all_ok raws regs : forall kf ix ix',
  IxOk raws kf None ix -> ready ix -> NoDup regs.*1 -> (forall k, k ∈ regs.*1 -> ix_entries ix !! k = None) ->
  (forall k p dn, (k, (p, Some dn)) ∈ regs -> genuine raws k dn) -> open_all ix regs = Some ix' ->
  exists kf', IxOk raws kf' None ix' /\ ready ix' /\ ix_disk ix' = ix_disk ix /\ ix_node ix' = ix_node ix /\ snapshot ix' = list_to_map regs ∪ snapshot ix.
Proof.
  induction regs as [|[key [path derived]] regs IH]; intros kf ix ix' Hi Hr Hnd Hk Hg E.
  - injection E as <-. exists kf. split_and!; try done. cbn. by rewrite (left_id_L ∅ (∪)).
  - apply NoDup_cons in Hnd as [Hn Hnd]. cbn [open_all] in E. destruct (open_one ix _) as [ix1|] eqn:E1; [|done].
    destruct (open_one_ok _ _ _ _ _ _ _ Hi Hr (Hk key ltac:(left)) (fun dn Hd => Hg key path dn ltac:(rewrite Hd; left)) E1)
      as (kf1 & Hi1 & Hr1 & Hd1 & Hn1 & Hen & Hs1).
    destruct (IH kf1 ix1 ix' Hi1 Hr1 Hnd) as (kf2 & Hi2 & Hr2 & Hd2 & Hn2 & Hs2); [| |done|].
    + intros k Hkin. rewrite Hen, lookup_insert_ne by (intros <-; done). apply Hk. by right.
    + intros k p dn Hin. apply (Hg k p). by right.
    + exists kf2. split_and!; [done..|congruence|congruence|]. rewrite Hs2, Hs1.
      etrans; [symmetry; apply insert_union_r; by apply not_elem_of_list_to_map_1|apply insert_union_l].
Qed.

Lemma empty_index_ok raws node disk :
  (forall k p dn, disk !! k = Some (p, Some dn) -> genuine raws k dn) -> IxOk raws ∅ None (empty_index node disk).
Proof.
  intros Hd. split; cbn; try (intros *; rewrite ?lookup_empty; done).
  - split; cbn; intros *; rewrite ?lookup_empty; try done; by intros [].
  - exact Hd.
Qed.

Lemma loaded_permutation disk : loaded disk ≡ₚ map_to_list disk.
Proof. apply merge_sort_Permutation. Qed.

(** What is opened is what was stored. *)
Lemma open_ok raws node disk ix :
  (forall k p dn, disk !! k = Some (p, Some dn) -> genuine raws k dn) -> open node disk = Some ix ->
  exists kf, IxOk raws kf None ix /\ ready ix /\ ix_disk ix = disk /\ ix_node ix = node /\ snapshot ix = disk.
Proof.
  intros Hd E. unfold open in E.
  destruct (open_all_ok raws (loaded disk) ∅ (empty_index node disk) ix) as (kf & Hi & Hr & Hdk & Hn & Hs); [by apply empty_index_ok|..|done|].
  - intros id e. cbn. by rewrite lookup_empty.
  - rewrite loaded_permutation. apply NoDup_fst_map_to_list.
  - intros k _. apply lookup_empty.
  - intros k p dn Hin. apply (Hd k p). apply elem_of_map_to_list. by rewrite <-loaded_permutation.
  - exists kf. split_and!; [done..|]. rewrite Hs. assert (snapshot (empty_index node disk) = ∅) as ->.
    { apply map_eq. intros k. rewrite lookup_snapshot. cbn. by rewrite !lookup_empty. }
    rewrite (right_id_L ∅ (∪)). rewrite <-(list_to_map_to_list disk) at 2. apply list_to_map_proper; [|apply loaded_permutation].
    rewrite loaded_permutation. apply NoDup_fst_map_to_list.
Qed.

(** ** Queries *)

(** What a query knows where it stands. *)
Definition pc_ok (kf : gmap nat NarHashKey) (ix : Index) (key : NarHashKey) (pc : Pc) : Prop :=
  match pc with
  | Seek | Recheck => True
  | Check_ id | Gone id | Deriving id | Failing id _ => kf !! id = Some key
  | Dumping id => kf !! id = Some key /\ exists e, ix_heap ix !! id = Some e /\ en_digest e = None /\ en_locked e = true
  | Publishing id derived _ => kf !! id = Some key /\ exists e, ix_heap ix !! id = Some e /\ en_digest e = Some (Verified derived)
  end.

(** The gate is the one it was given, less what the dumps took. *)
Definition gate_ok (q : Query) : Prop :=
  g_asker (q_gate q) = g_asker (ask_gate (q_ask q)) /\
  match g_remaining (ask_gate (q_ask q)) with
  | None => g_remaining (q_gate q) = None
  | Some cap => exists left, g_remaining (q_gate q) = Some left /\ (0 <= left /\ left + Z.of_nat (q_dumps q) <= cap)%Z
  end.

(** An answer [Have] rests on a dump with the key's hash and offers this node;
    a query of the node itself is never deferred. *)
Definition answer_good (raws : list (list byte)) (node : NodeId) (ask : Ask) (x : NarHashKey * result AvailabilityError BudgetedHold) : Prop :=
  (forall d offers, x.2 = Ok (BHave d offers) -> offers = [KtIroh node] /\ exists dn, genuine raws x.1 dn /\ dn_blake3 dn = d) /\
  (g_asker (ask_gate ask) = None -> x.2 <> Ok BDeferred).

Definition same_query (q q' : Query) : Prop := q_ask q' = q_ask q /\ q_key q' = q_key q /\ q_todo q' = q_todo q /\ q_done q' = q_done q.

Definition move_ok (raws : list (list byte)) (kf : gmap nat NarHashKey) (ix : Index) (q : Query) (m : Move) : Prop :=
  match m with
  | Goto q' => same_query q q' /\ gate_ok q' /\ pc_ok kf ix (q_key q) (q_pc q')
  | Settle q' answer => same_query q q' /\ gate_ok q' /\ answer_good raws (ix_node ix) (q_ask q) (q_key q, answer)
  end.
Definition now_dumping (m : Move) (id : nat) : Prop := match m with Goto q' => q_pc q' = Dumping id | Settle _ _ => False end.

(** The three things a step does to the heap: nothing that matters to another
    query, taking a digest lock to dump, or releasing it with a verdict or without. *)
Inductive effect (q : Query) (ix ix' : Index) (m : Move) : Prop :=
| EffKeeps : keeps ix ix' -> no_new_locks ix ix' -> (forall id, q_pc q <> Dumping id) -> (forall id, ~ now_dumping m id) -> effect q ix ix' m
| EffLocks id e : ix_heap ix !! id = Some e -> en_locked e = false -> (forall i, q_pc q <> Dumping i) -> (forall i, now_dumping m i <-> i = id) ->
    ix_heap ix' = <[id := set_locked true e]> (ix_heap ix) -> effect q ix ix' m
| EffReleases id e e' : q_pc q = Dumping id -> ix_heap ix !! id = Some e -> (forall i, ~ now_dumping m i) -> en_store_path e' = en_store_path e ->
    ix_heap ix' = <[id := set_locked false e']> (ix_heap ix) -> effect q ix ix' m.

Definition step_good (raws : list (list byte)) (kf : gmap nat NarHashKey) (q : Query) (ix ix' : Index) (m : Move) : Prop :=
  exists kf', kf ⊆ kf' /\ IxOk raws kf' None ix' /\ ix_node ix' = ix_node ix /\ move_ok raws kf' ix' q m /\ effect q ix ix' m.

Lemma same_refl q pc : same_query q (at_pc q pc).
Proof. done. Qed.

(** A step that leaves the index alone. *)
Lemma idle_good raws kf q ix m :
  IxOk raws kf None ix -> (forall id, q_pc q <> Dumping id) -> (forall id, ~ now_dumping m id) -> move_ok raws kf ix q m -> step_good raws kf q ix ix m.
Proof. intros Hi Hn Hm Hok. exists kf. split_and!; try done. apply EffKeeps; [apply keeps_refl|by apply no_new_locks_heap|done..]. Qed.

Lemma try_reserve_ok q :
  gate_ok q -> g_asker (try_reserve (q_gate q)).1 = g_asker (q_gate q) /\ gate_ok (with_gate q (try_reserve (q_gate q)).1) /\
  ((try_reserve (q_gate q)).2 = true -> forall id, gate_ok (dumping (with_gate q (try_reserve (q_gate q)).1) id)) /\
  (g_remaining (q_gate q) = None -> (try_reserve (q_gate q)).2 = true).
Proof.
  unfold gate_ok, try_reserve. destruct q as [ask [rem asker] key todo pc done_ dumps]. cbn. intros [Ha Hr].
  destruct (g_remaining (ask_gate ask)) as [cap|]; [destruct Hr as (n & -> & Hl)|by rewrite Hr].
  destruct (n =? 0)%Z eqn:En; cbn; bools; split_and!; try done; intros; split_and?; try done; eexists; (split; [done|lia]).
Qed.
Lemma local_gate_unlimited q : gate_ok q -> g_asker (ask_gate (q_ask q)) = None -> g_asker (q_gate q) = None /\ g_remaining (q_gate q) = None.
Proof. intros [Ha Hr] Hn. rewrite Hn in Ha. split; [done|]. by destruct (q_ask q). Qed.

Lemma not_good raws node ask key answer :
  (forall d offers, answer <> Ok (BHave d offers)) -> (g_asker (ask_gate ask) = None -> answer <> Ok BDeferred) -> answer_good raws node ask (key, answer).
Proof. intros H1 H2. split; [|done]. intros d offers Hd. by apply H1 in Hd. Qed.

Lemma deriving_good raws kf o q id ix ledger ix' ledger' m :
  IxOk raws kf None ix -> gate_ok q -> q_pc q = Deriving id -> kf !! id = Some (q_key q) ->
  hold_step o q ix ledger = Some (ix', ledger', m) -> step_good raws kf q ix ix' m.
Proof.
  intros Hi Hg Hpc Hk E. unfold hold_step in E. rewrite Hpc in E.
  assert (forall i, q_pc q <> Dumping i) as Hnd by (intros i; by rewrite Hpc).
  destruct (ix_heap ix !! id) as [e|] eqn:He; [|done]. cbn [mbind option_bind] in E. destruct (en_locked e) eqn:El; [done|].
  unfold derive_before in E. destruct (en_digest e) as [[d|x]|] eqn:Ed.
  - injection E as <- <- <-. apply idle_good; [done..|intros ? Hx; by cbn in Hx|]. split_and!; [done..|]. split; [done|]. by exists e.
  - injection E as <- <- <-. apply idle_good; [done..|intros ? Hx; by cbn in Hx|]. by split_and!.
  - destruct (try_reserve_ok q Hg) as (Has & Hg1 & Hg2 & Hun). destruct (try_reserve (q_gate q)) as [gate reserved]. cbn [fst snd] in *.
    assert (answer_good raws (ix_node ix) (q_ask q) (q_key q, Ok BDeferred) \/ g_asker (q_gate q) = None) as Hdef.
    { destruct (g_asker (ask_gate (q_ask q))) as [a|] eqn:Ea; [left; apply not_good; congruence|right; by apply local_gate_unlimited]. }
    destruct reserved; cbn [negb] in E.
    2: { injection E as <- <- <-. apply idle_good; [done..|intros ? Hx; by cbn in Hx|]. split_and!; [done..|]. destruct Hdef as [|Hl]; [done|].
         apply not_good; [done|]. intros Hn. destruct (local_gate_unlimited q Hg Hn) as [_ Hr]. by specialize (Hun Hr). }
    assert (step_good raws kf q ix (with_heap ix (<[id := set_locked true e]> (ix_heap ix))) (Goto (dumping (with_gate q gate) id))) as Hdump.
    { exists kf. split_and!; [done|..|done| |].
      - apply (with_entry_ok _ _ _ _ _ e); try done; cbn; [intros key dn _|intros dn]; [congruence|apply (io_mirror _ _ _ _ Hi id e dn He)].
      - split_and!; [done|by apply Hg2|]. split; [done|]. exists (set_locked true e). cbn. by rewrite lookup_insert_eq.
      - apply (EffLocks _ _ _ _ id e); try done. intros i. cbn. naive_solver. }
    rewrite Has in E. destruct (g_asker (q_gate q)) as [a|] eqn:Ea; [|by injection E as <- <- <-].
    destruct (o_nar_size o) as [size|]; [|injection E as <- <- <-; apply idle_good; [done..|intros ? Hx; by cbn in Hx|by split_and!]].
    destruct (try_admit ledger (o_now o) a size) as [l adm]. destruct Hdef as [Hdef|]; [|done].
    destruct adm; injection E as <- <- <-; [exact Hdump|apply idle_good; [done..|intros ? Hx; by cbn in Hx|by split_and!]..].
Qed.

Lemma dumping_good raws kf o q id ix ledger ix' ledger' m :
  IxOk raws kf None ix -> gate_ok q -> q_pc q = Dumping id -> pc_ok kf ix (q_key q) (Dumping id) -> (forall x, o_dump o = Some x -> x ∈ raws) ->
  hold_step o q ix ledger = Some (ix', ledger', m) -> step_good raws kf q ix ix' m.
Proof.
  intros Hi Hg Hpc (Hk & e & He & Hd & Hl) Hraw E. unfold hold_step in E. rewrite Hpc, He in E. cbn [mbind option_bind] in E.
  assert (forall e', en_registration e' = en_registration e -> en_retired e' = en_retired e -> en_store_path e' = en_store_path e ->
    (forall dn, en_digest e' = Some (Verified dn) -> genuine raws (q_key q) dn) -> (forall dn, en_persisted e' = Some dn <-> en_digest e' = Some (Verified dn)) ->
    forall q', (forall i, q_pc q' <> Dumping i) -> same_query q q' -> gate_ok q' ->
      pc_ok kf (with_heap ix (<[id := set_locked false e']> (ix_heap ix))) (q_key q) (q_pc q') ->
      step_good raws kf q ix (with_heap ix (<[id := set_locked false e']> (ix_heap ix))) (Goto q')) as Hgo.
  { intros e' Hr Ht Hp Hgen Hmir q' Hnd Hs Hg' Hpc'. exists kf. split_and!; [done| |done|done|by apply (EffReleases _ _ _ _ id e e')].
    apply (with_entry_ok _ _ _ _ _ e); try done; cbn; [congruence|]. intros key dn Hkey. assert (key = q_key q) as -> by congruence. apply Hgen. }
  assert (forall dn, en_persisted e <> Some dn) as Hnp by (intros dn Hx%(io_mirror _ _ _ _ Hi id e dn He); congruence).
  unfold derive_after in E. destruct (o_dump o) as [raw|].
  - case_bool_decide as Hkey; injection E as <- <- <-; (apply Hgo; [done..| | |done|done|done|]; cbn).
    + intros dn [= <-]. exists raw. split_and!; [by apply Hraw|done..].
    + naive_solver.
    + split; [done|]. eexists. by rewrite lookup_insert_eq.
    + done.
    + intros dn. split; [by intros Hx%Hnp|done].
    + done.
  - injection E as <- <- <-. apply Hgo; try done; cbn; [congruence|]. intros dn. apply (io_mirror _ _ _ _ Hi id e dn He).
Qed.

Lemma publishing_good raws kf o q id d fresh ix ledger ix' ledger' m :
  IxOk raws kf None ix -> gate_ok q -> q_pc q = Publishing id d fresh -> pc_ok kf ix (q_key q) (Publishing id d fresh) ->
  hold_step o q ix ledger = Some (ix', ledger', m) -> step_good raws kf q ix ix' m.
Proof.
  intros Hi Hg Hpc (Hk & e & He & Hd) E. unfold hold_step in E. rewrite Hpc in E.
  assert (forall i, q_pc q <> Dumping i) as Hnd by (intros i; by rewrite Hpc).
  case_bool_decide as Hcur; cbn [negb] in E.
  2: { injection E as <- <- <-. apply idle_good; [done..|intros ? Hx; by cbn in Hx|by split_and!]. }
  rewrite He in E. cbn [mbind option_bind] in E. destruct (publish_current_ok _ _ _ _ _ _ _ _ Hi Hcur He Hd) as (c & Hp & Hok).
  rewrite Hp in E. cbn [negb] in E. injection E as <- <- <-.
  assert (answer_good raws (ix_node ix) (q_ask q) (q_key q, Ok (BHave (dn_blake3 d) [KtIroh (ix_node ix)]))) as Hans.
  { split; [|done]. cbn. intros d' offers [= <- <-]. split; [done|]. exists d. split; [|done]. by apply (io_slot _ _ _ _ Hi id e). }
  destruct fresh.
  - pose proof (proj2 (persist_entries (o_save o) (with_catalog ix c))) as Hn. cbn in Hn. exists kf. split_and!; [done|by apply persist_ok|done| |].
    + split_and!; [done..|]. unfold iroh_offer. by rewrite Hn.
    + apply EffKeeps; [|..|done|by intros ? []].
      * eapply keeps_trans; [|apply persist_keeps]. by apply keeps_heap.
      * eapply no_new_locks_trans; [|apply persist_no_new_locks]. by apply no_new_locks_heap.
  - exists kf. split_and!; [done..| |]; [by split_and!|]. apply EffKeeps; [by apply keeps_heap|by apply no_new_locks_heap|done|by intros ? []].
Qed.

Lemma hold_step_good raws kf o q ix ledger ix' ledger' m :
  IxOk raws kf None ix -> gate_ok q -> pc_ok kf ix (q_key q) (q_pc q) -> (forall x, o_dump o = Some x -> x ∈ raws) ->
  hold_step o q ix ledger = Some (ix', ledger', m) -> step_good raws kf q ix ix' m.
Proof.
  intros Hi Hg Hpc Hraw E. destruct (q_pc q) as [|id|id| |id|id|id d fresh|id error] eqn:Ep;
    [|..|by eapply publishing_good|]; [..|by eapply deriving_good|by eapply dumping_good|].
  all: assert (forall i, q_pc q <> Dumping i) as Hnd by (intros i; by rewrite Ep).
  all: unfold hold_step in E; rewrite Ep in E.
  - destruct (ix_entries ix !! q_key q) as [id|] eqn:Ek; injection E as <- <- <-; (apply idle_good; [done..|intros ? Hx; by cbn in Hx|]).
    + split_and!; [done..|]. by apply (io_cur _ _ _ _ Hi).
    + split_and!; [done..|]. by apply not_good.
  - injection E as <- <- <-. apply idle_good; [done..| |]; [intros ? Hx; cbn in Hx; by destruct (o_exists o)|].
    split_and!; [done..|]. by destruct (o_exists o).
  - destruct (drop_op raws kf (o_save o) (q_key q) id ix Hi) as (kf' & Hsub & Hi' & Hkeep & Hlock & Hn).
    destruct (drop_if_same _ _ _ _) as [ix1 r]. cbn [fst] in *. exists kf'.
    destruct r; injection E as <- <- <-; (split_and!; [done..| |]; [|apply EffKeeps; try done; intros ? Hx; by cbn in Hx]).
    + by split_and!.
    + split_and!; [done..|]. by apply not_good.
  - destruct (ix_entries ix !! q_key q) as [id|]; injection E as <- <- <-; (apply idle_good; [done..|intros ? Hx; by cbn in Hx|]); (split_and!; [done..|]); [done|by apply not_good].
  - case_bool_decide; injection E as <- <- <-; (apply idle_good; [done..|intros ? Hx; by cbn in Hx|]); (split_and!; [done..|]); [by apply not_good|done].
Qed.

(** ** The node *)

Definition QOk (raws : list (list byte)) (kf : gmap nat NarHashKey) (ix : Index) (q : Query) : Prop :=
  pc_ok kf ix (q_key q) (q_pc q) /\ gate_ok q /\ Forall (answer_good raws (ix_node ix) (q_ask q)) (q_done q) /\
  ask_keys (q_ask q) = Ok (((q_done q).*1) ++ q_key q :: q_todo q).

(** A claim names this node and the BLAKE3 of a dump with the key's hash. *)
Definition claim_good (raws : list (list byte)) (node : NodeId) (c : Claim) : Prop :=
  exists dn, genuine raws (cl_key c) dn /\ cl_payload c = Some (WholeNar (dn_blake3 dn)) /\ cl_holders c = [node] /\ cl_transports c = [KtIroh node].

Record NodeOk (raws : list (list byte)) (kf : gmap nat NarHashKey) (n : Node) : Prop := {
  no_index : IxOk raws kf None (n_index n);
  no_query tid q : n_queries n !! tid = Some q -> QOk raws kf (n_index n) q;
  no_single t t' q q' id : n_queries n !! t = Some q -> n_queries n !! t' = Some q' -> q_pc q = Dumping id -> q_pc q' = Dumping id -> t = t';
  no_lock id e : ix_heap (n_index n) !! id = Some e -> en_locked e = true -> exists tid q, n_queries n !! tid = Some q /\ q_pc q = Dumping id;
  no_announced : Forall (claim_good raws (ix_node (n_index n))) (n_announced n)
}.

Definition event_good (raws : list (list byte)) (node : NodeId) (ev : Event) : Prop :=
  match ev with
  | Answer ask answers dumps =>
      ask_keys ask = Ok (answers.*1) /\ Forall (answer_good raws node ask) answers /\
      match g_remaining (ask_gate ask) with Some cap => (Z.of_nat dumps <= cap)%Z | None => True end
  | _ => True
  end.

Lemma pc_keeps kf kf' ix ix' key pc : kf ⊆ kf' -> keeps ix ix' -> pc_ok kf ix key pc -> pc_ok kf' ix' key pc.
Proof.
  intros Hs Hk. assert (forall id, kf !! id = Some key -> kf' !! id = Some key) as Hl by (intros; by eapply lookup_weaken).
  destruct pc; cbn; auto.
  all: intros (Hkf & e & He & Hd); destruct (Hk _ _ He) as (e' & He' & Hd' & Hl' & _); (split; [by apply Hl|]); exists e'; (split; [done|]).
  - by rewrite Hd', Hl'.
  - by rewrite Hd'.
Qed.

Lemma q_keeps raws kf kf' ix ix' q : kf ⊆ kf' -> keeps ix ix' -> ix_node ix' = ix_node ix -> QOk raws kf ix q -> QOk raws kf' ix' q.
Proof. intros Hs Hk Hn (? & ? & ? & ?). split_and!; [by eapply pc_keeps|done|by rewrite Hn|done]. Qed.

(** A step of one query does not disturb the others. *)
Lemma other_pc_ok raws kf kf' q q2 ix ix' m :
  kf ⊆ kf' -> effect q ix ix' m -> pc_ok kf ix (q_key q) (q_pc q) -> (forall id, q_pc q = Dumping id -> q_pc q2 <> Dumping id) ->
  QOk raws kf ix q2 -> pc_ok kf' ix' (q_key q2) (q_pc q2).
Proof.
  intros Hs Heff Hq Hex (Hpc & _). destruct Heff as [Hk _ _ _|id e He Hl _ _ Hh|id e e' Hd He _ _ Hh]; [by eapply pc_keeps|..].
  all: assert (forall i, kf !! i = Some (q_key q2) -> kf' !! i = Some (q_key q2)) as Hw by (intros; by eapply lookup_weaken).
  all: destruct (q_pc q2) as [|i|i| |i|i|i d f|i x] eqn:Ep; cbn in *; auto; destruct Hpc as (Hkf & e2 & He2 & Hr); (split; [by apply Hw|]).
  all: rewrite Hh; destruct (decide (id = i)) as [<-|Hn]; [|exists e2; by rewrite lookup_insert_ne].
  all: assert (e2 = e) as -> by congruence.
  - exists (set_locked true e). rewrite lookup_insert_eq. naive_solver.
  - exists (set_locked true e). by rewrite lookup_insert_eq.
  - by destruct (Hex id Hd).
  - rewrite Hd in Hq. destruct Hq as (_ & e3 & He3 & Hd3 & _). congruence.
Qed.

(** The parts of the node that no query step of [tid] but its own query sees. *)
Lemma stepped raws kf kf' tid q n ix ledger m (queries : gmap nat Query) announced :
  NodeOk raws kf n -> n_queries n !! tid = Some q -> kf ⊆ kf' -> IxOk raws kf' None ix -> ix_node ix = ix_node (n_index n) -> effect q (n_index n) ix m ->
  (forall t, t <> tid -> queries !! t = n_queries n !! t) ->
  (forall q', queries !! tid = Some q' -> QOk raws kf' ix q') -> (forall q' id, queries !! tid = Some q' -> q_pc q' = Dumping id -> now_dumping m id) ->
  (forall id, now_dumping m id -> exists q', queries !! tid = Some q' /\ q_pc q' = Dumping id) ->
  Forall (claim_good raws (ix_node ix)) announced ->
  NodeOk raws kf' {| n_index := ix; n_ledger := ledger; n_queries := queries; n_announced := announced |}.
Proof.
  intros Hn Hq Hs Hi Hnode Heff Hsame Hown Hdump Hdump' Hann. destruct (no_query _ _ _ Hn tid q Hq) as (Hpcq & _).
  assert (forall id, q_pc q = Dumping id -> forall t q2, n_queries n !! t = Some q2 -> t <> tid -> q_pc q2 <> Dumping id) as Hex.
  { intros id Hd t q2 Hq2 Ht Hd2. by apply Ht, (no_single _ _ _ Hn t tid q2 q id). }
  assert (forall id, now_dumping m id -> forall t q2, n_queries n !! t = Some q2 -> q_pc q2 <> Dumping id) as Hnew.
  { intros id Hm t q2 Hq2 Hd2. destruct Heff as [_ _ _ Hno|i e He Hl _ Hi2 _|i e e' _ _ Hno _ _]; [by apply (Hno id)| |by apply (Hno id)].
    apply Hi2 in Hm as ->. destruct (no_query _ _ _ Hn t q2 Hq2) as (Hp & _). rewrite Hd2 in Hp. destruct Hp as (_ & e2 & He2 & _ & Hl2). congruence. }
  split; cbn; [done|..|done].
  - intros t q2 Hq2. destruct (decide (t = tid)) as [->|Ht]; [by apply Hown|]. rewrite Hsame in Hq2 by done.
    pose proof (no_query _ _ _ Hn t q2 Hq2) as Hok. pose proof Hok as (_ & ? & ? & ?). split_and!; [|done|by rewrite Hnode|done].
    eapply other_pc_ok; [done..| |done]. intros id Hd. by apply (Hex id Hd t q2).
  - intros t t' q1 q2 id H1 H2 D1 D2. destruct (decide (t = tid)) as [->|Ht], (decide (t' = tid)) as [->|Ht']; [done|..].
    + rewrite Hsame in H2 by done. destruct (Hnew id (Hdump _ _ H1 D1) t' q2 H2 D2).
    + rewrite Hsame in H1 by done. destruct (Hnew id (Hdump _ _ H2 D2) t q1 H1 D1).
    + rewrite Hsame in H1, H2 by done. by apply (no_single _ _ _ Hn t t' q1 q2 id).
  - assert (forall i e, ix_heap (n_index n) !! i = Some e -> en_locked e = true -> q_pc q <> Dumping i -> exists t q', queries !! t = Some q' /\ q_pc q' = Dumping i) as Hold.
    { intros i e He Hl Hne. destruct (no_lock _ _ _ Hn i e He Hl) as (t & q' & Hq' & Hd). exists t, q'. rewrite Hsame; [done|]. intros ->. congruence. }
    intros i e He Hl. destruct Heff as [_ Hnl Hnd _|j e0 He0 Hl0 Hnd Hi2 Hh|j e0 e1 Hd0 He0 _ _ Hh].
    + destruct (Hnl i e He Hl) as (e2 & He2 & Hl2). by apply (Hold i e2).
    + rewrite Hh in He. apply lookup_insert_Some in He as [[<- _]|[_ He]]; [|by apply (Hold i e)].
      destruct (Hdump' j) as (q' & Hq' & Hd); [by apply Hi2|]. by exists tid, q'.
    + rewrite Hh in He. apply lookup_insert_Some in He as [[<- <-]|[Hne He]]; [done|]. apply (Hold i e He Hl). rewrite Hd0. naive_solver.
Qed.

Definition node_id (n : Node) : NodeId := ix_node (n_index n).

Lemma announced_ok raws n q answer :
  Forall (claim_good raws (node_id n)) (n_announced n) -> ask_keys (q_ask q) = Ok (((q_done q).*1) ++ [q_key q]) ->
  answer_good raws (node_id n) (q_ask q) (q_key q, answer) -> Forall (claim_good raws (node_id n)) (announced_after n q answer).
Proof.
  intros Ha Hk [Hg _]. unfold announced_after. destruct (q_ask q) as [| key| |]; [done| |done..].
  injection Hk as Hk. assert (q_key q = key) as Hkey.
  { destruct (q_done q) as [|x l]; [by injection Hk|]. injection Hk as _ Hl. by destruct l. }
  destruct answer as [[d offers| |]|]; cbn; try done. apply Forall_app_2; [done|]. constructor; [|done].
  destruct (Hg d offers eq_refl) as (-> & dn & Hdn & <-). exists dn. cbn in *. by rewrite <-Hkey.
Qed.

Lemma step_query_ok raws kf o tid n n' evs :
  NodeOk raws kf n -> (forall x, o_dump o = Some x -> x ∈ raws) -> step_query o tid n = Some (n', evs) ->
  exists kf', NodeOk raws kf' n' /\ Forall (event_good raws (node_id n)) evs /\ node_id n' = node_id n.
Proof.
  intros Hn Hraw E. unfold step_query in E. destruct (n_queries n !! tid) as [q|] eqn:Hq; [|done]. cbn [mbind option_bind] in E.
  destruct (hold_step o q _ _) as [[[ix ledger] m]|] eqn:Eh; [|done]. cbn [mbind option_bind] in E.
  destruct (no_query _ _ _ Hn tid q Hq) as (Hpc & Hg & Hdone & Hkeys).
  destruct (hold_step_good _ _ _ _ _ _ _ _ _ (no_index _ _ _ Hn) Hg Hpc Hraw Eh) as (kf' & Hs & Hi & Hnode & Hm & Heff).
  exists kf'. unfold node_id. destruct m as [q'|q' answer]; cbn [move] in E.
  - destruct Hm as ((Ha & Hk & Ht & Hd) & Hg' & Hpc'). injection E as <- <-. split_and!; [| |done].
    2: { destruct (started q q'); [|constructor]. constructor; [|constructor]. unfold dump_event. by destruct (g_asker _). }
    eapply (stepped _ kf kf' tid q n ix ledger (Goto q')); try done.
    + intros t Ht'. by rewrite lookup_insert_ne.
    + intros q2. rewrite lookup_insert_eq. intros [= <-]. split_and!; [by rewrite Hk|done|by rewrite Hd, Ha, Hnode|by rewrite Ha, Hd, Hk, Ht].
    + intros q2 id. rewrite lookup_insert_eq. by intros [= <-].
    + intros id Hd'. exists q'. by rewrite lookup_insert_eq.
    + rewrite Hnode. apply Hn.
  - destruct Hm as ((Ha & Hk & Ht & Hd) & Hg' & Hans). rewrite Hnode in Hans.
    assert (Forall (answer_good raws (ix_node (n_index n)) (q_ask q)) (q_done q' ++ [(q_key q', answer)])) as Hall.
    { rewrite Hd, Hk. apply Forall_app_2; [done|]. by constructor. }
    destruct (q_todo q') as [|key todo] eqn:Et.
    + injection E as <- <-. split_and!; [| |done].
      * eapply (stepped _ kf kf' tid q n ix ledger (Settle q' answer)); try done.
        -- intros t Ht'. by rewrite lookup_delete_ne.
        -- intros q2. by rewrite lookup_delete_eq.
        -- intros q2 id. by rewrite lookup_delete_eq.
        -- apply (announced_ok raws {| n_index := ix; n_ledger := ledger; n_queries := n_queries n; n_announced := n_announced n |}); cbn; unfold node_id; cbn; rewrite ?Hnode.
           ++ apply Hn.
           ++ by rewrite Ha, Hd, Hk, Hkeys, <-Ht.
           ++ by rewrite Ha, Hk.
      * constructor; [|constructor]. cbn. rewrite Ha. split_and!; [by rewrite Hkeys, <-Ht, fmap_app, Hd, Hk|done|].
        destruct Hg' as [_ Hrem]. rewrite Ha in Hrem. destruct (g_remaining (ask_gate (q_ask q))); [|done]. destruct Hrem as (? & _ & ?). lia.
    + injection E as <- <-. split_and!; [|constructor|done].
      eapply (stepped _ kf kf' tid q n ix ledger (Settle q' answer)); try done.
      * intros t Ht'. by rewrite lookup_insert_ne.
      * intros q2. rewrite lookup_insert_eq. intros [= <-]. split_and!; cbn; [done|done|by rewrite Ha, Hnode|].
        rewrite Ha, Hkeys, <-Ht, fmap_app, Hd, <-app_assoc. by rewrite Hk.
      * intros q2 id. rewrite lookup_insert_eq. by intros [= <-].
      * rewrite Hnode. apply Hn.
Qed.

(** The dumps an action brings. *)
Definition dumps_of (a : Action) : list (list byte) :=
  match a with
  | DoVerifyRegister _ _ _ _ raw => option_list raw
  | DoStep _ o => option_list (o_dump o)
  | _ => []
  end.

Lemma indexed raws kf n ix : NodeOk raws kf n -> op_ok raws kf (n_index n) ix ->
  exists kf', NodeOk raws kf' (with_index n ix) /\ node_id (with_index n ix) = node_id n.
Proof.
  intros Hn (kf' & Hs & Hi & Hk & Hl & Hnode). exists kf'. split; [|done]. destruct Hn as [H1 H2 H3 H4 H5]. split; cbn; try done.
  - intros tid q Hq. eapply q_keeps; eauto.
  - intros id e He Hle. destruct (Hl id e He Hle) as (e' & He' & Hle'). by apply (H4 id e').
  - by rewrite Hnode.
Qed.

Lemma act_ok raws kf a n n' evs :
  NodeOk raws kf n -> (forall x, x ∈ dumps_of a -> x ∈ raws) -> act a n = Some (n', evs) ->
  exists kf', NodeOk raws kf' n' /\ Forall (event_good raws (node_id n)) evs /\ node_id n' = node_id n.
Proof.
  intros Hn Hraw E. pose proof (no_index _ _ _ Hn) as Hi.
  assert (forall ix, op_ok raws kf (n_index n) ix -> Some (with_index n ix, []) = Some (n', evs) ->
    exists kf', NodeOk raws kf' n' /\ Forall (event_good raws (node_id n)) evs /\ node_id n' = node_id n) as Hop.
  { intros ix Hop [= <- <-]. destruct (indexed _ _ _ _ Hn Hop) as (kf' & ? & ?). exists kf'. split_and!; [done|constructor|done]. }
  destruct a as [save key path|save key path size raw|save key|save key observed|tid ask|tid o|ledger]; cbn [act] in E.
  - destruct (register _ _ _ _) as [[ix r]|] eqn:Er; [|done]. apply (Hop ix); [|done]. by apply (register_op _ _ _ _ _ None _ _ _ Hi) in Er.
  - destruct (verify_and_register _ _ _ _ _ _) as [[ix r]|] eqn:Er; [|done]. apply (Hop ix); [|done]. eapply verify_register_op; [done| |done].
    intros x ->. apply Hraw. cbn. by left.
  - apply (Hop _ (unregister_op _ _ _ _ _ Hi) E).
  - apply (Hop _ (drop_op _ _ _ _ _ _ Hi) E).
  - destruct (start_query tid ask n) as [n1|] eqn:Es; [|done]. injection E as <- <-. exists kf.
    unfold start_query in Es. destruct (n_queries n !! tid) as [|] eqn:Hq; [done|]. destruct (ask_keys ask) as [[|key todo]|] eqn:Ek; [done| |done].
    injection Es as <-. split_and!; [|constructor|done]. destruct Hn as [H1 H2 H3 H4 H5]. split; cbn; [done|..|done].
    + intros t q [[<- <-]|[_ Hq']]%lookup_insert_Some; [|by apply (H2 t)]. split_and!; [done| |done|done]. split; [done|]. cbn. destruct ask; cbn; try done. eexists. split; [done|]. done.
    + intros t t' q q' id [[<- <-]|[_ H1']]%lookup_insert_Some [[<- <-]|[_ H2']]%lookup_insert_Some; try done. by apply (H3 t t' q q' id).
    + intros id e He Hl. destruct (H4 id e He Hl) as (t & q & Hq' & Hd). exists t, q. rewrite lookup_insert_ne; [done|]. intros ->. congruence.
  - eapply step_query_ok; [done| |done]. intros x Hx. apply Hraw. cbn. rewrite Hx. by left.
  - destruct (open _ _) as [ix|] eqn:Eo; [|done]. injection E as <- <-.
    destruct (open_ok raws _ _ _ (io_disk _ _ _ _ Hi) Eo) as (kf' & Hi' & Hr & _ & Hnode & _). exists kf'. split_and!; [|constructor|done].
    split; cbn; [done|..|by rewrite Hnode; apply Hn].
    + intros tid q. by rewrite lookup_empty.
    + intros t t' q q' id. by rewrite lookup_empty.
    + intros id e He Hl. destruct (Hr id e He) as [Hl' _]. congruence.
Qed.

Lemma run_ok raws acts : forall kf n,
  NodeOk raws kf n -> (forall x, x ∈ acts ≫= dumps_of -> x ∈ raws) ->
  exists kf', NodeOk raws kf' (run acts n).1 /\ Forall (event_good raws (node_id n)) (run acts n).2 /\ node_id (run acts n).1 = node_id n.
Proof.
  induction acts as [|a acts IH]; intros kf n Hn Hraw; [by exists kf|]. cbn [run].
  assert (exists kf1, NodeOk raws kf1 (default (n, []) (act a n)).1 /\ Forall (event_good raws (node_id n)) (default (n, []) (act a n)).2 /\
    node_id (default (n, []) (act a n)).1 = node_id n) as (kf1 & Hn1 & He1 & Hid).
  { destruct (act a n) as [[n1 evs]|] eqn:Ea; [|by exists kf]. eapply act_ok; [done| |done]. intros x Hx. apply Hraw. rewrite bind_cons. apply elem_of_app. by left. }
  destruct (default _ _) as [n1 evs]. cbn [fst snd] in *. destruct (IH kf1 n1 Hn1) as (kf2 & Hn2 & He2 & Hid2).
  { intros x Hx. apply Hraw. rewrite bind_cons. apply elem_of_app. by right. }
  destruct (run acts n1) as [n2 later]. cbn [fst snd] in *. exists kf2. split_and!; [done|apply Forall_app_2; [done|by rewrite <-Hid]|congruence].
Qed.

Lemma first_start_ok raws node ledger : NodeOk raws ∅ (first_start node ledger).
Proof.
  split; cbn; [apply empty_index_ok; intros k p dn Hx; assert ((∅ : Snapshot) !! k = None) by apply lookup_empty; congruence|..|constructor].
  - intros tid q. by rewrite lookup_empty.
  - intros t t' q q' id. by rewrite lookup_empty.
  - intros id e. by rewrite lookup_empty.
Qed.
Lemma node_reachable_ok node ledger acts :
  exists kf, NodeOk (acts ≫= dumps_of) kf (run acts (first_start node ledger)).1 /\
    Forall (event_good (acts ≫= dumps_of) node) (run acts (first_start node ledger)).2 /\ node_id (run acts (first_start node ledger)).1 = node.
Proof. by apply (run_ok _ acts ∅ (first_start node ledger)); [apply first_start_ok|]. Qed.

(** ** Answers and supply *)

(** C21: What the node answers rests on its own dumps.  From an empty store,
    through any interleaving of queries, registrations, removals, failing saves,
    failing dumps and restarts: an answer covers exactly the keys asked, in
    order; a key answered Have with a digest was dumped before, the dump's
    SHA-256 is the key and its BLAKE3 the digest, and the offer names this node;
    a query of the node itself is never deferred; a batch starts at most 16
    dumps; and every announced claim is of the same kind. *)
Theorem answers_are_genuine node ledger acts :
  let '(n, events) := run acts (first_start node ledger) in
  (forall ask answers dumps, Answer ask answers dumps ∈ events ->
    ask_keys ask = Ok (answers.*1) /\
    (forall key d offers, (key, Ok (BHave d offers)) ∈ answers ->
      offers = [KtIroh node] /\ exists raw, raw ∈ acts ≫= dumps_of /\ NarHashKey_from_raw_nar raw = key /\ Blake3Digest_from_raw_nar raw = d) /\
    match ask with
    | AskLocal _ | AskPublish _ => forall key, (key, Ok BDeferred) ∉ answers
    | AskBatch _ _ => dumps <= 16
    | AskPeer _ _ => True
    end) /\
  (forall claim, claim ∈ n_announced n ->
    cl_holders claim = [node] /\ cl_transports claim = [KtIroh node] /\
    exists raw, raw ∈ acts ≫= dumps_of /\ NarHashKey_from_raw_nar raw = cl_key claim /\ content_id claim = Some (Blake3Digest_from_raw_nar raw)).
Proof.
  destruct (node_reachable_ok node ledger acts) as (kf & Hn & Hev & Hid). destruct (run acts _) as [n events]. cbn [fst snd] in *. split.
  - intros ask answers dumps Hin. destruct (proj1 (Forall_forall _ _) Hev _ Hin) as (Hk & Hans & Hcap). split_and!; [done| |].
    + intros key d offers Ha. destruct (proj1 (Forall_forall _ _) Hans _ Ha) as [Hg _]. destruct (Hg d offers eq_refl) as (-> & dn & (raw & ? & ? & ->) & <-).
      split; [done|]. by exists raw.
    + destruct ask; cbn in Hcap; [..|done|unfold MAX_BATCH_DERIVE_WORK in Hcap; lia].
      all: intros k Ha; destruct (proj1 (Forall_forall _ _) Hans _ Ha) as [_ Hl]; by apply Hl.
  - intros claim Hin. pose proof (no_announced _ _ _ Hn) as Ha. unfold node_id in Hid. rewrite Hid in Ha.
    destruct (proj1 (Forall_forall _ _) Ha _ Hin) as (dn & (raw & ? & ? & ->) & Hp & ? & ?). split_and!; [done..|]. exists raw. split_and!; [done..|].
    unfold content_id. by rewrite Hp.
Qed.

Lemma first_key_value_spec {A} (m : gmap Z A) :
  match first_key_value m with
  | Some (k, x) => m !! k = Some x /\ forall k', is_Some (m !! k') -> (k <= k')%Z
  | None => m = ∅
  end.
Proof.
  unfold first_key_value. apply (map_fold_weak_ind (fun r m => match r with
    | Some (k, x) => m !! k = Some x /\ forall k', is_Some (m !! k') -> (k <= k')%Z | None => m = ∅ end)); [done|].
  intros i x m' r Hi Hr. destruct r as [[k y]|].
  - destruct Hr as [Hk Hmin]. assert (i <> k) by congruence. destruct (k <? i)%Z eqn:E; bools; (split; [by rewrite ?lookup_insert_eq, ?lookup_insert_ne|]).
    all: intros k' Hk'; destruct (decide (i = k')) as [<-|Hne]; [lia|]; rewrite lookup_insert_ne in Hk' by done; specialize (Hmin k' Hk'); lia.
  - subst m'. rewrite insert_empty, lookup_singleton_eq. split; [done|]. intros k' [z [<- _]%lookup_singleton_Some]. lia.
Qed.

Lemma probe_record_some exists_ c d r : probe_record exists_ c d = Some r -> exists_ (record_path r) = true /\ exists rid, record_at c d rid = Some r.
Proof.
  unfold probe_record, record_at. destruct (records c !! d) as [m|]; [|done]. cbn. pose proof (first_key_value_spec m) as Hf.
  destruct (first_key_value m) as [[rid x]|]; [|done]. cbn. destruct (exists_ (record_path x)) eqn:E; [|done]. intros [= <-]. split; [done|]. exists rid. apply Hf.
Qed.
Lemma probe_record_found c d rid r : record_at c d rid = Some r -> is_Some (probe_record (fun _ => true) c d).
Proof.
  unfold probe_record, record_at. destruct (records c !! d) as [m|]; [|done]. cbn. intros Hr. pose proof (first_key_value_spec m) as Hf.
  destruct (first_key_value m) as [[rid' x]|]; [by eexists|]. subst m. by rewrite lookup_empty in Hr.
Qed.

(** What the catalog offers stands registered, at that path, with that verified derivation. *)
Lemma record_held raws kf ix d rid r :
  IxOk raws kf None ix -> record_at (ix_catalog ix) d rid = Some r ->
  exists key dn, snapshot ix !! key = Some (record_path r, Some dn) /\ genuine raws key dn /\ dn_blake3 dn = d /\ r = supply_record (record_path r) dn.
Proof.
  intros Hi Hr. assert (owners (ix_catalog ix) !! rid = Some (Some d)) as Ho by (apply (record_at_iff _ (io_catalog _ _ _ _ Hi)); by exists r).
  destruct (io_owner _ _ _ _ Hi rid) as (id & e & He & Hreg & [?|[key Hk]]); [by eexists|done|].
  destruct (io_record _ _ _ _ Hi d rid r id e Hr He Hreg) as (dn & Hd & Hb & ->). exists key, dn. cbn.
  destruct (io_cur _ _ _ _ Hi key id Hk) as (Hkf & _). split_and!; [|by apply (io_slot _ _ _ _ Hi id e)|done..].
  rewrite lookup_snapshot, Hk. cbn. rewrite He. cbn. do 2 f_equal. by apply (io_mirror _ _ _ _ Hi id e).
Qed.

(** C22: The supply side offers exactly what is held.  In every reachable state
    a record the catalog returns for a digest has a path that exists and belongs
    to a key registered now at that path, whose dump had the key's SHA-256, that
    BLAKE3 and the declared size; so a removed or replaced registration is not
    served.  And the step that answers Have leaves the digest in the catalog, so
    a positive answer can be fetched. *)
Theorem supply_is_held node ledger acts :
  let n := (run acts (first_start node ledger)).1 in
  (forall exists_ d r, probe_record exists_ (ix_catalog (n_index n)) d = Some r ->
    exists_ (record_path r) = true /\
    exists key raw, raw ∈ acts ≫= dumps_of /\ NarHashKey_from_raw_nar raw = key /\ Blake3Digest_from_raw_nar raw = d /\
      snapshot (n_index n) !! key = Some (record_path r, Some (derived_of raw)) /\
      r = {| declared_size := Z.of_nat (length raw); source := production_source (record_path r); record_path := record_path r |}) /\
  (forall tid q o ix ledger' q' d offers, n_queries n !! tid = Some q ->
    hold_step o q (n_index n) (n_ledger n) = Some (ix, ledger', Settle q' (Ok (BHave d offers))) ->
    is_Some (probe_record (fun _ => true) (ix_catalog ix) d)).
Proof.
  destruct (node_reachable_ok node ledger acts) as (kf & Hn & _). intros n. pose proof (no_index _ _ _ Hn : IxOk _ _ _ (n_index n)) as Hi. split.
  - intros exists_ d r (Hex & rid & Hr)%probe_record_some. split; [done|]. destruct (record_held _ _ _ _ _ _ Hi Hr) as (key & dn & Hs & (raw & Hin & Hk & ->) & Hb & Heq).
    by exists key, raw.
  - intros tid q o ix ledger' q' d offers Hq E. destruct (no_query _ _ _ Hn tid q Hq) as (Hpc & _). unfold hold_step in E.
    destruct (q_pc q) as [|id|id| |id|id|id dn fresh|id error].
    + by destruct (ix_entries _ !! _).
    + done.
    + by destruct (drop_if_same _ _ _ _) as [? []].
    + by destruct (ix_entries _ !! _).
    + destruct (ix_heap _ !! id) as [e|]; [|done]. cbn in E. destruct (en_locked e); [done|]. destruct (derive_before _ _ _ _ _) as [[? ?] [[[]|]|]]; done.
    + destruct (ix_heap _ !! id) as [e|]; [|done]. cbn in E. destruct (derive_after _ _ _) as [? [[]|]]; done.
    + case_bool_decide as Hcur; [|done]. destruct Hpc as (_ & e & He & Hd). fold n in He. rewrite He in E. cbn [negb mbind option_bind] in E.
      destruct (publish_current_ok _ _ _ _ _ _ _ _ Hi Hcur He Hd) as (c & Hp & Hok). rewrite Hp in E. cbn [negb] in E. injection E as <- _ _ <- _.
      destruct (io_cur _ _ _ _ Hi _ _ Hcur) as (_ & e' & He' & Hret & Hown). assert (e' = e) as -> by congruence. rewrite Hret in Hp.
      destruct (publish_ok _ _ (dn_blake3 dn) (supply_record (en_store_path e) dn) (io_catalog _ _ _ _ Hi) Hown) as (c2 & Hp2 & _ & _ & _ & Hr).
      assert (c2 = c) as -> by congruence. apply (probe_record_found _ _ (en_registration e) (supply_record (en_store_path e) dn)).
      assert (ix_catalog (if fresh then (persist_locked (o_save o) (with_catalog (n_index n) c)).1 else with_catalog (n_index n) c) = c) as -> by (destruct fresh; [by destruct (o_save o)|done]).
      by rewrite Hr, !decide_True.
    + by destruct (bool_decide _).
Qed.

(** A handle that outlives the index finds nothing. *)
Lemma retire_all_records ids : forall ix, CatalogOk (ix_catalog ix) ->
  let ix' := foldr retire_supply_registration ix ids in
  CatalogOk (ix_catalog ix') /\ keeps ix ix' /\
  forall d rid r, record_at (ix_catalog ix') d rid = Some r -> record_at (ix_catalog ix) d rid = Some r /\ forall id e, id ∈ ids -> ix_heap ix !! id = Some e -> en_registration e <> rid.
Proof.
  induction ids as [|i ids IH]; intros ix Hc ix'.
  { split_and!; [done|apply keeps_refl|]. intros d rid r Hr. split; [done|]. by intros id e ?%not_elem_of_nil. }
  destruct (IH ix Hc) as (Hc1 & Hk1 & Hr1). unfold ix'. cbn [foldr]. set (ix1 := foldr _ ix ids) in *.
  assert (keeps ix (retire_supply_registration i ix1)) as Hk by (eapply keeps_trans; [exact Hk1|apply retire_keeps]).
  unfold retire_supply_registration in Hk |- *. destruct (ix_heap ix1 !! i) as [e1|] eqn:E1.
  - destruct (retire_ok (ix_catalog ix1) (en_registration e1) Hc1) as [Hc2 Hr2]. split_and!; [done..|]. cbn. intros d rid r. rewrite Hr2. case_decide as Hd; [done|].
    intros (Hr & Hne)%Hr1. split; [done|]. intros id e [->|Hin]%elem_of_cons He; [|by eapply Hne].
    destruct (Hk1 i e He) as (e2 & He2 & _ & _ & _ & <-). intros Hx. apply Hd. congruence.
  - split_and!; [done..|]. intros d rid r (Hr & Hne)%Hr1. split; [done|]. intros id e [->|Hin]%elem_of_cons He; [|by eapply Hne].
    destruct (Hk1 i e He) as (e2 & He2 & _). congruence.
Qed.
Theorem dropped_is_inert raws kf ix exists_ d : IxOk raws kf None ix -> probe_record exists_ (ix_catalog (drop_index ix)) d = None.
Proof.
  intros Hi. destruct (probe_record _ _ d) as [r|] eqn:E; [|done]. exfalso. apply probe_record_some in E as (_ & rid & Hr).
  destruct (retire_all_records (map_to_list (ix_entries ix)).*2 ix (io_catalog _ _ _ _ Hi)) as (_ & _ & Hall). destruct (Hall d rid r Hr) as (Hr0 & Hne).
  assert (owners (ix_catalog ix) !! rid = Some (Some d)) as Ho by (apply (record_at_iff _ (io_catalog _ _ _ _ Hi)); by exists r).
  destruct (io_owner _ _ _ _ Hi rid) as (id & e & He & Hreg & [?|[key Hk]]); [by eexists|done|].
  apply (Hne id e); [|done..]. apply list_elem_of_fmap. exists (key, id). split; [done|]. by apply elem_of_map_to_list.
Qed.

(** ** Registration *)

Lemma retire_entries id ix : ix_entries (retire_supply_registration id ix) = ix_entries ix /\ ix_disk (retire_supply_registration id ix) = ix_disk ix.
Proof. unfold retire_supply_registration. by destruct (ix_heap ix !! id). Qed.

(** The registration of the entry a key stands for. *)
Definition registration_of (ix : Index) (key : NarHashKey) : option Z :=
  en_registration <$> (ix_entries ix !! key ≫= (fun id => ix_heap ix !! id)).

(** A retirement takes the records of its own registration and no other. *)
Lemma retire_record raws kf o ix id e d rid :
  IxOk raws kf o ix -> ix_heap ix !! id = Some e ->
  record_at (ix_catalog (retire_supply_registration id ix)) d rid = if decide (rid = en_registration e) then None else record_at (ix_catalog ix) d rid.
Proof. intros Hi He. unfold retire_supply_registration. rewrite He. cbn. apply (retire_ok _ _ (io_catalog _ _ _ _ Hi)). Qed.

Lemma snapshot_retire id ix : snapshot (retire_supply_registration id ix) = snapshot ix.
Proof.
  unfold retire_supply_registration. destruct (ix_heap ix !! id) as [e|] eqn:E; [|done]. apply map_eq. intros k. rewrite !lookup_snapshot. cbn.
  destruct (ix_entries ix !! k) as [i|]; [|done]. cbn. destruct (decide (id = i)) as [<-|Hn]; [by rewrite lookup_insert_eq, E|by rewrite lookup_insert_ne].
Qed.
Lemma snapshot_alloc raws kf ix key c e (kept : bool) : IxOk raws kf None ix ->
  snapshot (with_entries (alloc (with_catalog ix c) key e) (if kept then ix_entries ix else <[key := ix_next ix]> (ix_entries ix))) =
  if kept then snapshot ix else <[key := (en_store_path e, en_persisted e)]> (snapshot ix).
Proof.
  intros Hi. assert (forall k i, ix_entries ix !! k = Some i -> ix_next ix <> i) as Hne.
  { intros k i Hk <-. destruct (io_cur _ _ _ _ Hi k _ Hk) as (_ & x & Hx & _). assert (ix_next ix < ix_next ix); [|lia]. apply (io_next _ _ _ _ Hi). by exists x. }
  assert (forall k, (ix_entries ix !! k ≫= (fun id => (fun x => (en_store_path x, en_persisted x)) <$> <[ix_next ix := e]> (ix_heap ix) !! id)) = snapshot ix !! k) as Hold.
  { intros k. rewrite lookup_snapshot. destruct (ix_entries ix !! k) as [i|] eqn:Ek; [|done]. cbn. rewrite lookup_insert_ne; [done|]. by eapply Hne. }
  apply map_eq. intros k. rewrite lookup_snapshot. cbn. destruct kept; [apply Hold|]. destruct (decide (key = k)) as [<-|Hn].
  - rewrite lookup_insert_eq. cbn. rewrite lookup_insert_eq. symmetry. apply lookup_insert_eq.
  - rewrite lookup_insert_ne by done. rewrite Hold. symmetry. by apply lookup_insert_ne.
Qed.

Lemma register_binding_spec raws kf save key path verified ix ix' r :
  IxOk raws kf None ix -> (forall dn, verified = Some dn -> genuine raws key dn) -> register_binding save key path verified ix = Some (ix', r) ->
  match r with
  | Err _ => ix_entries ix' = ix_entries ix /\ snapshot ix' = snapshot ix /\ (forall d rid, record_at (ix_catalog ix') d rid = record_at (ix_catalog ix) d rid) /\
             (save = FailedBefore -> ix_disk ix' = ix_disk ix)
  | Ok _ => (stands_at ix key path = true /\ verified = None /\ ix' = ix) \/
            (snapshot ix' = <[key := (path, verified)]> (snapshot ix) /\ ix_disk ix' = snapshot ix' /\
             (forall d rid, record_at (ix_catalog ix') d rid =
                if decide (registration_of ix key = Some rid) then None else record_at (ix_catalog ix) d rid))
  end.
Proof.
  intros Hi Hv [(-> & -> & -> & Hs)|(c & rid & Hc & Hend)]%register_cases; [by left|]. cbv zeta in Hend.
  destruct (register_ok _ _ _ (io_catalog _ _ _ _ Hi) Hc) as (_ & _ & Hfree & _ & Hrec & _).
  set (e := fresh_entry path rid verified) in *.
  pose proof (alloc_ok raws kf ix key path verified c rid false Hi Hc Hv) as Hput. pose proof (alloc_ok raws kf ix key path verified c rid true Hi Hc Hv) as Hkept.
  pose proof (snapshot_alloc _ _ _ key c e false Hi) as Hsp. pose proof (snapshot_alloc _ _ _ key c e true Hi) as Hsk. cbv iota in Hsp, Hsk, Hput, Hkept.
  set (put := with_entries _ (<[key := _]> _)) in *. set (back := with_entries _ (ix_entries ix)) in *.
  assert (forall d k, record_at c d k = record_at (ix_catalog ix) d k) as Hsame by (intros; unfold record_at; by rewrite Hrec).
  destruct Hend as [(_ & -> & ->)|(Hns & -> & ->)]; [right|].
  - unfold registration_of. destruct (ix_entries ix !! key) as [p|] eqn:Ep; [|split_and!; [exact Hsp|done|intros d k; rewrite decide_False by done; apply Hsame]].
    rewrite snapshot_retire, (proj2 (retire_entries _ _)). split_and!; [exact Hsp|done|]. intros d k.
    assert (IxOk raws (<[ix_next ix := key]> kf) (Some p) (with_disk put (snapshot put))) as Hpd.
    { apply with_disk_ok; [done|]. intros k0 p0 dn. by apply (snapshot_genuine _ _ _ _ _ _ _ Hput). }
    destruct (io_cur _ _ _ _ Hi key p Ep) as (_ & e0 & He0 & _). destruct (alloc_keeps _ _ _ ix key c e (<[key := ix_next ix]> (ix_entries ix)) Hi p e0 He0) as (e1 & He1 & _ & _ & _ & Hreg).
    rewrite (retire_record _ _ _ _ p e1 _ _ Hpd He1), Hreg. cbn [mbind option_bind]. rewrite He0. cbn [fmap option_fmap option_map].
    destruct (decide (k = en_registration e0)) as [->|Hd]; [by rewrite decide_True|]. rewrite decide_False by congruence. apply Hsame.
  - rewrite snapshot_retire, (proj1 (retire_entries _ _)), (proj2 (retire_entries _ _)). split_and!; [done|exact Hsk| |by destruct save].
    intros d k. set (disk := match save with FailedAfter => _ | _ => _ end). assert (IxOk raws (<[ix_next ix := key]> kf) (Some (ix_next ix)) (with_disk back disk)) as Hb.
    { apply with_disk_ok; [done|]. unfold disk. destruct save; try apply (io_disk _ _ _ _ Hi). intros k0 p0 dn. by apply (snapshot_genuine _ _ _ _ _ _ _ Hput). }
    rewrite (retire_record _ _ _ _ (ix_next ix) e _ _ Hb) by (apply lookup_insert_eq). cbn. rewrite Hsame. case_decide as Hd; [|done]. subst k.
    destruct (record_at (ix_catalog ix) d rid) eqn:Er; [|done]. exfalso.
    assert (owners (ix_catalog ix) !! rid = Some (Some d)); [|congruence]. apply (record_at_iff _ (io_catalog _ _ _ _ Hi)). by eexists.
Qed.

(** C27: Registering is all or nothing.  In every reachable state a registration
    either reports an error, and then what is held and what is supplied, for
    every key and digest, is as it was; or it succeeds, and then the key stands
    at the new path with exactly the derivation that was verified for it, every
    other key is as it was, the records of the registration it replaces are
    withdrawn and those of every other registration are as they were, and the
    store holds the new state.  A registration without a derivation of a key that
    stands at that path already succeeds and changes nothing.  When the store
    rejects it without having replaced its file, the store is as it was too. *)
Theorem register_all_or_nothing node ledger acts save key path verified ix' r :
  let ix := n_index (run acts (first_start node ledger)).1 in
  (forall dn, verified = Some dn -> genuine (acts ≫= dumps_of) key dn) ->
  register_binding save key path verified ix = Some (ix', r) ->
  match r with
  | Err _ => ix_entries ix' = ix_entries ix /\ snapshot ix' = snapshot ix /\ (forall d rid, record_at (ix_catalog ix') d rid = record_at (ix_catalog ix) d rid) /\
             (save = FailedBefore -> ix_disk ix' = ix_disk ix)
  | Ok _ => (stands_at ix key path = true /\ verified = None /\ ix' = ix) \/
            (snapshot ix' = <[key := (path, verified)]> (snapshot ix) /\ ix_disk ix' = snapshot ix' /\
             (forall d rid, record_at (ix_catalog ix') d rid =
                if decide (registration_of ix key = Some rid) then None else record_at (ix_catalog ix) d rid))
  end.
Proof.
  intros ix Hv E. destruct (node_reachable_ok node ledger acts) as (kf & Hn & _). pose proof (no_index _ _ _ Hn : IxOk _ _ _ ix) as Hi.
  exact (register_binding_spec _ _ _ _ _ _ _ _ _ Hi Hv E).
Qed.
End props.
