(* ===== verification/AvailabilityWork.v ===== *)
(** * The work of the availability index: bounds, progress, restarts, answers

    On the invariant of AvailabilityProps.v: the dumps peers can cause are
    bounded by the derive ledger, a query among others is answered within nine
    steps per key and per change of its key, a restart keeps everything that was
    saved, JsonFileStore reads back what it wrote, and the asker of a batch
    decodes what the responder found. *)

From Stdlib Require Import Strings.Byte ZArith Lia.
From stdpp Require Import base gmap numbers strings sorting list.
From S2P Require Import Prelude Hex Text Utf8 Ids NixBase32 Claim Ledgers Availability AvailabilityProps.

Section work.
Context `{Dumper}.

(** ** Dumps for peers *)

Definition peer_dumps (events : list Event) : list WorkEvent := omap (fun ev => match ev with PeerDump e => Some e | _ => None end) events.
Definition total (f : WorkEvent -> Z) (l : list WorkEvent) : Z := foldr (fun e acc => (f e + acc)%Z) 0%Z l.

(** The step's clock and size, and that the process is not restarted. *)
Definition same_life (a : Action) : Prop := match a with DoRestart _ => False | _ => True end.
Definition size_ok (a : Action) : Prop := match a with DoStep _ o => forall size, o_nar_size o = Some size -> (0 <= size)%Z | _ => True end.
Definition clock_in (P : Z -> Prop) (a : Action) : Prop := match a with DoStep _ o => P (o_now o) | _ => True end.

Lemma total_app f l l' : total f (l ++ l') = (total f l + total f l')%Z.
Proof. unfold total. induction l as [|e l IH]; cbn; [done|]. rewrite IH. lia. Qed.
Lemma admitted_total_app f l l' : admitted_total f (l ++ l') = (admitted_total f l + admitted_total f l')%Z.
Proof. unfold admitted_total. induction l as [|e l IH]; cbn; [done|]. rewrite IH. lia. Qed.
Lemma work_run_app l es es' :
  work_run l (es ++ es') = ((work_run (work_run l es).1 es').1, (work_run l es).2 ++ (work_run (work_run l es).1 es').2).
Proof.
  revert l. induction es as [|e es IH]; intros l; cbn [app work_run].
  - cbn. apply surjective_pairing.
  - destruct (try_admit_work _ _ _ _ _) as [l1 r]. rewrite IH. by destruct (work_run l1 es) as [l2 rs].
Qed.

(** What one step asks of the ledger is exactly what it dumps for a peer. *)
Definition charged (l l' : PeerDeriveLedger) (P : WorkEvent -> Prop) (dumps : list WorkEvent) : Prop :=
  exists charges, l' = (work_run l charges).1 /\ Forall P charges /\ forall f, admitted_total f (work_run l charges).2 = total f dumps.

Lemma charged_none l P : charged l l P [].
Proof. by exists []. Qed.
Lemma charged_app l l1 l2 P d1 d2 : charged l l1 P d1 -> charged l1 l2 P d2 -> charged l l2 P (d1 ++ d2).
Proof.
  intros (c1 & -> & H1 & T1) (c2 & -> & H2 & T2). exists (c1 ++ c2). rewrite work_run_app. split_and!; [done|by apply Forall_app_2|].
  intros f. cbn [snd]. by rewrite admitted_total_app, total_app, T1, T2.
Qed.

Definition charge_ok (P : Z -> Prop) (e : WorkEvent) : Prop := event_ok e /\ P (ev_now e).

Lemma hold_step_charged (P : Z -> Prop) o q ix l ix' l' m :
  P (o_now o) -> (forall size, o_nar_size o = Some size -> (0 <= size)%Z) -> hold_step o q ix l = Some (ix', l', m) ->
  charged l l' (charge_ok P) (match m with Goto q' => if started q q' then peer_dumps [dump_event o q] else [] | Settle _ _ => [] end).
Proof.
  intros HP Hsz E. assert (forall q', (forall i, q_pc q <> Deriving i) -> started q q' = false) as Hns.
  { intros q' Hne. unfold started. destruct (q_pc q); try done. by destruct (Hne id). }
  unfold hold_step in E. destruct (q_pc q) as [|id|id| |id|id|id d fresh|id error] eqn:Ep.
  5: { destruct (ix_heap ix !! id) as [e|]; [|done]. cbn [mbind option_bind] in E. destruct (en_locked e); [done|]. unfold derive_before in E.
    destruct (en_digest e) as [[d|x]|]; [injection E as <- <- <-; unfold started; rewrite Ep; apply charged_none..|].
    assert (g_asker (try_reserve (q_gate q)).1 = g_asker (q_gate q)) as Ha by (unfold try_reserve; destruct (g_remaining _); [by destruct (_ =? _)%Z|done]).
    destruct (try_reserve (q_gate q)) as [gate reserved]. cbn [fst] in Ha. destruct reserved; cbn [negb] in E; [|injection E as <- <- <-; apply charged_none].
    rewrite Ha in E. unfold dump_event. destruct (g_asker (q_gate q)) as [a|]; [|injection E as <- <- <-; unfold started; rewrite Ep; apply charged_none].
    destruct (o_nar_size o) as [size|]; [|injection E as <- <- <-; unfold started; rewrite Ep; apply charged_none].
    destruct (try_admit l (o_now o) a size) as [l1 adm] eqn:Et. unfold try_admit in Et.
    assert (forall dumps, (forall f : WorkEvent -> Z, (match adm with DeriveAdmitted => f (o_now o, a, size, 1) | _ => 0 end + 0 = total f dumps)%Z) -> charged l l1 (charge_ok P) dumps) as Hone.
    { intros dumps Hd. exists [(o_now o, a, size, 1)%Z]. cbn [work_run ev_now ev_peer ev_bytes ev_dumps fst snd]. rewrite Et. split_and!; [done| |exact Hd].
      constructor; [|constructor]. split; [|done]. split; cbn; [by apply Hsz|lia]. }
    destruct adm; injection E as <- <- <-; unfold started; rewrite ?Ep; cbn; by apply Hone. }
  all: assert (forall i, q_pc q <> Deriving i) as Hne by (intros i; by rewrite Ep).
  all: assert (l' = l) as ->; [|destruct m; rewrite ?Hns by done; apply charged_none].
  - destruct (ix_entries ix !! _); by injection E.
  - by injection E.
  - destruct (drop_if_same _ _ _ _) as [? []]; by injection E.
  - destruct (ix_entries ix !! _); by injection E.
  - destruct (ix_heap ix !! id); [|done]. cbn [mbind option_bind] in E. destruct (derive_after _ _ _) as [? [[]|]]; by injection E.
  - destruct (negb _); [by injection E|]. destruct (ix_heap ix !! id); [|done]. cbn [mbind option_bind] in E. destruct (catalog_publish _ _ _ _ _) as [? []]; by injection E.
  - destruct (bool_decide _); by injection E.
Qed.

Lemma peer_dumps_app l l' : peer_dumps (l ++ l') = peer_dumps l ++ peer_dumps l'.
Proof. apply omap_app. Qed.

Lemma act_charged (P : Z -> Prop) a n n' evs :
  same_life a -> size_ok a -> clock_in P a -> act a n = Some (n', evs) -> charged (n_ledger n) (n_ledger n') (charge_ok P) (peer_dumps evs).
Proof.
  intros Hl Hs Hc E. destruct a as [save key path|save key path size raw|save key|save key observed|tid ask|tid o|ledger]; cbn [act] in E.
  - destruct (register _ _ _ _) as [[ix r]|]; [|done]. injection E as <- <-. apply charged_none.
  - destruct (verify_and_register _ _ _ _ _ _) as [[ix r]|]; [|done]. injection E as <- <-. apply charged_none.
  - injection E as <- <-. apply charged_none.
  - injection E as <- <-. apply charged_none.
  - unfold start_query in E. destruct (n_queries n !! tid); [done|]. destruct (ask_keys ask) as [[|? ?]|]; try done. injection E as <- <-. apply charged_none.
  - unfold step_query in E. destruct (n_queries n !! tid) as [q|]; [|done]. cbn [mbind option_bind] in E.
    destruct (hold_step o q _ _) as [[[ix l] m]|] eqn:Eh; [|done]. cbn [mbind option_bind] in E.
    apply (hold_step_charged P) in Eh; [|done..]. destruct m as [q'|q' answer]; cbn [move] in E.
    + injection E as <- <-. cbn. by destruct (started q q').
    + destruct (q_todo q'); by injection E as <- <-.
  - done.
Qed.

Lemma run_charged (P : Z -> Prop) acts : forall n, Forall same_life acts -> Forall size_ok acts -> Forall (clock_in P) acts ->
  charged (n_ledger n) (n_ledger (run acts n).1) (charge_ok P) (peer_dumps (run acts n).2).
Proof.
  induction acts as [|a acts IH]; intros n Hl Hs Hc; [apply charged_none|].
  apply Forall_cons in Hl as [Hl Hls], Hs as [Hs Hss], Hc as [Hc Hcs]. cbn [run].
  assert (charged (n_ledger n) (n_ledger (default (n, []) (act a n)).1) (charge_ok P) (peer_dumps (default (n, []) (act a n)).2)) as H1.
  { destruct (act a n) as [[n1 evs]|] eqn:Ea; [by eapply act_charged|apply charged_none]. }
  destruct (default _ _) as [n1 evs]. cbn [fst snd] in H1. specialize (IH n1 Hls Hss Hcs). destruct (run acts n1) as [n2 later]. cbn [fst snd] in *.
  rewrite peer_dumps_app. by eapply charged_app.
Qed.

(** C24: Peers cannot make the node dump without bound.  Whatever the node did
    before in this life, and however queries interleave, the dumps it starts for
    peers within any span of time no longer than the ledger's window are, in
    number and in declared bytes, at most twice the global cap for all peers
    together, and at most twice the per-peer cap for each of them. *)
Theorem peer_dumps_bounded b n before during a g q :
  budget_ok b -> n_ledger n = PeerDeriveLedger_with_clock b ->
  Forall same_life (before ++ during) -> Forall size_ok (before ++ during) ->
  Forall (clock_in (fun now => a <= now < a + ledger_window_millis (PeerDeriveLedger_with_clock b))%Z) during ->
  let dumps := peer_dumps (run during (run before n).1).2 in
  (total (ev_amount g) dumps <= 2 * cap_global g b)%Z /\ (total (of_peer q (ev_amount g)) dumps <= 2 * cap_per_peer g b)%Z.
Proof.
  intros Hb Hn [Hl1 Hl2]%Forall_app [Hs1 Hs2]%Forall_app Hc dumps.
  destruct (run_charged (fun _ => True) before n Hl1 Hs1) as (c1 & E1 & H1 & _).
  { apply Forall_true. by intros []. }
  destruct (run_charged _ during (run before n).1 Hl2 Hs2 Hc) as (c2 & _ & H2 & T2). fold dumps in T2. rewrite E1, Hn in T2.
  rewrite <-!T2. apply (derive_span_bound b c1 c2 a g q); [done|..].
  - apply (Forall_impl _ _ _ H1). by intros ? [].
  - apply (Forall_impl _ _ _ H2). by intros ? [].
  - apply (Forall_impl _ _ _ H2). by intros ? [].
Qed.

(** ** Progress *)

(** How far a query is from the answer to its key, if it moves alone. *)
Definition rank (ix : Index) (key : NarHashKey) (pc : Pc) : nat :=
  let stale id := if bool_decide (ix_entries ix !! key = Some id) then 0 else 5 in
  match pc with
  | Seek => 5
  | Check_ id => 4 + stale id
  | Gone id => 2 + stale id
  | Recheck => if bool_decide (ix_entries ix !! key = None) then 1 else 6
  | Deriving id => 3 + stale id
  | Dumping id => 2 + stale id
  | Publishing id _ _ => 1 + stale id
  | Failing id _ => 1 + stale id
  end.
Lemma rank_le ix key pc : rank ix key pc <= 9.
Proof. destruct pc; cbn; repeat case_bool_decide; lia. Qed.

(** A step is possible unless another query holds the digest lock, and it answers the key or comes nearer. *)
Lemma hold_step_progress raws kf o q ix l :
  IxOk raws kf None ix -> pc_ok kf ix (q_key q) (q_pc q) -> (forall id e, q_pc q = Deriving id -> ix_heap ix !! id = Some e -> en_locked e = false) ->
  exists ix' l' m, hold_step o q ix l = Some (ix', l', m) /\
    match m with Goto q' => rank ix' (q_key q) (q_pc q') < rank ix (q_key q) (q_pc q) | Settle _ _ => True end.
Proof.
  intros Hi Hpc Hfree. unfold hold_step. destruct (q_pc q) as [|id|id| |id|id|id d fresh|id error] eqn:Ep; cbn in Hpc.
  - destruct (ix_entries ix !! q_key q) as [id|] eqn:E; do 3 eexists; (split; [done|]); [|done]. cbn. rewrite bool_decide_eq_true_2 by done. lia.
  - do 3 eexists. split; [done|]. cbn. destruct (o_exists o); cbn; case_bool_decide; lia.
  - unfold drop_if_same. case_bool_decide as Hc.
    + destruct (o_save o); cbn [persist_locked]; do 3 eexists; (split; [done|]); [|done..]. cbn.
      assert (ix_entries (retire_supply_registration id (with_entries ix (delete (q_key q) (ix_entries ix)))) !! q_key q = None) as Hd.
      { rewrite (proj1 (retire_entries _ _)). cbn. apply lookup_delete_eq. }
      rewrite bool_decide_eq_true_2 by exact Hd. rewrite bool_decide_eq_true_2 by done. lia.
    + do 3 eexists. split; [done|]. cbn. rewrite (bool_decide_eq_false_2 _ Hc). case_bool_decide; lia.
  - destruct (ix_entries ix !! q_key q) as [id|] eqn:E; do 3 eexists; (split; [done|]); [|done]. cbn. rewrite bool_decide_eq_false_2 by congruence. lia.
  - destruct (proj2 (io_dom _ _ _ _ Hi id)) as [e He]; [by eexists|]. rewrite He. cbn [mbind option_bind]. rewrite (Hfree id e) by done.
    destruct (derive_before _ _ _ _ _) as [[gate l1] [[[d fresh|]|]|]]; do 3 eexists; (split; [done|]); try done; cbn; case_bool_decide; lia.
  - destruct Hpc as (_ & e & He & _). rewrite He. cbn [mbind option_bind].
    destruct (derive_after _ _ _) as [e1 [[d fresh|]|]]; do 3 eexists; (split; [done|]); try done; cbn; case_bool_decide; lia.
  - case_bool_decide as Hc; cbn [negb].
    + destruct Hpc as (_ & e & He & _). rewrite He. cbn [mbind option_bind]. destruct (catalog_publish _ _ _ _ _) as [c []]; do 3 eexists; by split.
    + do 3 eexists. split; [done|]. cbn. rewrite (bool_decide_eq_false_2 _ Hc). lia.
  - case_bool_decide as Hc; do 3 eexists; (split; [done|]); [done|]. cbn. rewrite (bool_decide_eq_false_2 _ Hc). lia.
Qed.

(** How many keys and blocks are left for a query, if nobody else moves. *)
Definition distance (n : Node) (q : Query) : nat := rank (n_index n) (q_key q) (q_pc q) + 9 * length (q_todo q).
Lemma distance_pos n q : 1 <= distance n q.
Proof. unfold distance. destruct (q_pc q); cbn; repeat case_bool_decide; lia. Qed.

Definition own (tid : nat) (a : Action) : bool := match a with DoStep t _ => bool_decide (t = tid) | _ => false end.
Definition after (a : Action) (n : Node) : Node := (default (n, []) (act a n)).1.

(** Query [tid] is in flight and cannot take the step now. *)
Definition waits (tid : nat) (a : Action) (n : Node) : bool :=
  bool_decide (is_Some (n_queries n !! tid)) && negb (bool_decide (is_Some (act a n))).
Lemma waits_acted tid a n r : act a n = Some r -> waits tid a n = false.
Proof. intros E. unfold waits. rewrite E, (bool_decide_eq_true_2 (is_Some (Some _))) by done. apply andb_false_r. Qed.
Lemma waits_stuck tid a n q : n_queries n !! tid = Some q -> act a n = None -> waits tid a n = true.
Proof. intros Hq E. unfold waits. rewrite E, Hq. done. Qed.
(** The turns query [tid] gets in a run: its own steps, without those for which it has to wait. *)
Fixpoint turns (tid : nat) (acts : list Action) (n : Node) : nat :=
  match acts with
  | [] => 0
  | a :: acts => (if own tid a && negb (waits tid a n) then 1 else 0) + turns tid acts (after a n)
  end.

(** The actions of others after which the key that query [tid] is at stands for
    another entry than before, or for none, or for one again. *)
Definition disturbs (tid : nat) (a : Action) (n : Node) : bool :=
  match n_queries n !! tid with
  | Some q => negb (own tid a) && negb (bool_decide (ix_entries (n_index (after a n)) !! q_key q = ix_entries (n_index n) !! q_key q))
  | None => false
  end.
Fixpoint disturbances (tid : nat) (acts : list Action) (n : Node) : nat :=
  match acts with [] => 0 | a :: acts => (if disturbs tid a n then 1 else 0) + disturbances tid acts (after a n) end.

(** A step of a query that takes effect ends it or brings it nearer to its answer. *)
Lemma own_step_progress raws kf o tid n q n' evs :
  NodeOk raws kf n -> n_queries n !! tid = Some q -> (forall x, o_dump o = Some x -> x ∈ raws) -> step_query o tid n = Some (n', evs) ->
  (exists answers dumps, Answer (q_ask q) answers dumps ∈ evs) \/
  exists q', n_queries n' !! tid = Some q' /\ q_ask q' = q_ask q /\ distance n' q' < distance n q.
Proof.
  intros Hn Hq Hraw E. destruct (no_query _ _ _ Hn tid q Hq) as (Hpc & Hg & _). pose proof (no_index _ _ _ Hn) as Hi.
  unfold step_query in E. rewrite Hq in E. cbn [mbind option_bind] in E.
  destruct (hold_step o q _ _) as [[[ix l] m]|] eqn:Eh; [|done]. cbn [mbind option_bind] in E.
  destruct (hold_step_progress _ _ o q _ (n_ledger n) Hi Hpc) as (ix1 & l1 & m1 & Eh1 & Hrank).
  { intros id e Hd He. unfold hold_step in Eh. rewrite Hd, He in Eh. cbn [mbind option_bind] in Eh. by destruct (en_locked e). }
  rewrite Eh in Eh1. injection Eh1 as <- <- <-.
  destruct (hold_step_good _ _ _ _ _ _ _ _ _ Hi Hg Hpc Hraw Eh) as (kf1 & _ & _ & _ & Hm & _).
  destruct m as [q'|q' answer]; cbn [move] in E; destruct Hm as ((Ha & Hk & Ht & Hd) & _).
  - injection E as <- <-. right. exists q'. cbn. rewrite lookup_insert_eq. split_and!; [done..|]. unfold distance. cbn. rewrite Hk, Ht. lia.
  - destruct (q_todo q') as [|key todo] eqn:Et; injection E as <- <-.
    + left. rewrite Ha. do 2 eexists. by apply list_elem_of_singleton.
    + right. eexists. cbn. rewrite lookup_insert_eq. split_and!; [done..|]. unfold distance. cbn [rank n_index q_key q_pc q_todo].
      rewrite <-Ht. cbn [length]. lia.
Qed.

(** The others leave a query where it is. *)
Lemma other_keeps a tid n n' evs q :
  same_life a -> own tid a = false -> n_queries n !! tid = Some q -> act a n = Some (n', evs) -> n_queries n' !! tid = Some q.
Proof.
  intros Hl Ho Hq E. destruct a as [save key path|save key path size raw|save key|save key observed|t ask|t o|ledger]; cbn [act] in E.
  - destruct (register _ _ _ _) as [[ix r]|]; [|done]. by injection E as <- <-.
  - destruct (verify_and_register _ _ _ _ _ _) as [[ix r]|]; [|done]. by injection E as <- <-.
  - by injection E as <- <-.
  - by injection E as <- <-.
  - unfold start_query in E. destruct (n_queries n !! t) eqn:Et; [done|]. destruct (ask_keys ask) as [[|? ?]|]; try done. injection E as <- <-.
    cbn. rewrite lookup_insert_ne by congruence. done.
  - cbn [own] in Ho. apply bool_decide_eq_false in Ho. unfold step_query in E. destruct (n_queries n !! t) as [q2|]; [|done]. cbn [mbind option_bind] in E.
    destruct (hold_step o q2 _ _) as [[[ix l] m]|]; [|done]. cbn [mbind option_bind] in E. destruct m as [q'|q' answer]; cbn [move] in E.
    + injection E as <- <-. cbn. by rewrite lookup_insert_ne.
    + destruct (q_todo q'); injection E as <- <-; cbn; [by rewrite lookup_delete_ne|by rewrite lookup_insert_ne].
  - done.
Qed.

Lemma rank_same ix ix' key pc : ix_entries ix' !! key = ix_entries ix !! key -> rank ix' key pc = rank ix key pc.
Proof. intros E. unfold rank. by rewrite E. Qed.

(** An action of another keeps a query no further from its answer, unless it disturbs it. *)
Lemma other_distance a tid n q :
  n_queries n !! tid = Some q -> own tid a = false ->
  distance (after a n) q <= distance n q + if disturbs tid a n then 9 else 0.
Proof.
  intros Hq Ho. unfold distance, disturbs. rewrite Hq, Ho. cbn [negb andb]. case_bool_decide as Hc; cbn [negb].
  - rewrite (rank_same _ _ _ _ Hc). lia.
  - pose proof (rank_le (n_index (after a n)) (q_key q) (q_pc q)). lia.
Qed.

Lemma interleaved_answered raws tid acts : forall kf n q,
  NodeOk raws kf n -> n_queries n !! tid = Some q -> Forall same_life acts -> (forall x, x ∈ acts ≫= dumps_of -> x ∈ raws) ->
  distance n q + 9 * disturbances tid acts n <= turns tid acts n ->
  exists answers dumps, Answer (q_ask q) answers dumps ∈ (run acts n).2.
Proof.
  induction acts as [|a acts IH]; intros kf n q Hn Hq Hl Hraw Hd.
  { pose proof (distance_pos n q). cbn in Hd. lia. }
  apply Forall_cons in Hl as [Hla Hl]. cbn [turns disturbances run] in *.
  assert (forall x, x ∈ acts ≫= dumps_of -> x ∈ raws) as Hraw2 by (intros x Hx; apply Hraw; rewrite bind_cons; apply elem_of_app; by right).
  assert (forall x, x ∈ dumps_of a -> x ∈ raws) as Hraw1 by (intros x Hx; apply Hraw; rewrite bind_cons; apply elem_of_app; by left).
  assert (forall kf1 n1 q1 evs, NodeOk raws kf1 n1 -> n_queries n1 !! tid = Some q1 -> q_ask q1 = q_ask q ->
    distance n1 q1 + 9 * disturbances tid acts n1 <= turns tid acts n1 ->
    exists answers dumps, Answer (q_ask q) answers dumps ∈ (let '(n2, later) := run acts n1 in (n2, evs ++ later)).2) as Hon.
  { intros kf1 n1 q1 evs Hn1 Hq1 Ha Hd1. destruct (IH kf1 n1 q1 Hn1 Hq1 Hl Hraw2 Hd1) as (answers & dumps & Hin). exists answers, dumps.
    destruct (run acts n1) as [n2 later]. cbn in *. rewrite <-Ha. apply elem_of_app. by right. }
  pose proof (other_distance a tid n q Hq) as Hdist. unfold after in *. destruct (act a n) as [[n1 evs]|] eqn:Ea; cbn [default fst from_option id] in *.
  - destruct (act_ok _ _ _ _ _ _ Hn Hraw1 Ea) as (kf1 & Hn1 & _). rewrite (waits_acted _ _ _ _ Ea) in Hd.
    destruct (own tid a) eqn:Ho; cbn [andb negb] in Hd.
    + destruct a as [| | | | |t o|]; cbn [own] in Ho; try done. apply bool_decide_eq_true in Ho as ->. cbn [act] in Ea.
      destruct (own_step_progress _ _ o tid n q n1 evs Hn Hq) as [(answers & dumps & Hin)|(q' & Hq' & Ha & Hlt)]; [|done|..].
      { intros x Hx. apply Hraw1. cbn. rewrite Hx. by left. }
      * exists answers, dumps. destruct (run acts n1) as [n2 later]. cbn. apply elem_of_app. by left.
      * apply (Hon kf1 n1 q'); [done..|lia].
    + specialize (Hdist eq_refl). apply (Hon kf1 n1 q); [done|by eapply other_keeps|done|]. destruct (disturbs tid a n); lia.
  - rewrite (waits_stuck _ _ _ _ Hq Ea) in Hd. cbn [negb] in Hd. rewrite andb_false_r in Hd. apply (Hon kf n q); [done..|lia].
Qed.

(** The step of a query that dumps is always possible and ends the dump. *)
Lemma dumping_step raws kf o tid n q id :
  NodeOk raws kf n -> n_queries n !! tid = Some q -> q_pc q = Dumping id -> (forall x, o_dump o = Some x -> x ∈ raws) ->
  exists n' evs, step_query o tid n = Some (n', evs) /\ forall q' i, n_queries n' !! tid = Some q' -> q_pc q' <> Dumping i.
Proof.
  intros Hn Hq Hd Hraw. destruct (no_query _ _ _ Hn tid q Hq) as (Hpc & Hg & _). rewrite Hd in Hpc. destruct Hpc as (_ & e & He & _).
  unfold step_query, hold_step. rewrite Hq. cbn [mbind option_bind]. rewrite Hd, He. cbn [mbind option_bind].
  destruct (derive_after _ _ _) as [e1 [[d fresh|]|]]; cbn [mbind option_bind move].
  1, 3: do 2 eexists; split; [reflexivity|]; intros q' i; cbn; rewrite lookup_insert_eq; by intros [= <-].
  destruct (q_todo q); do 2 eexists; (split; [reflexivity|]); intros q' i; cbn; [by rewrite lookup_delete_eq|rewrite lookup_insert_eq; by intros [= <-]].
Qed.

(** A query waits only for the dump of another, and only until that ends. *)
Lemma blocked_by_dump raws kf o tid n q :
  NodeOk raws kf n -> n_queries n !! tid = Some q -> step_query o tid n = None ->
  exists id t q2, q_pc q = Deriving id /\ t <> tid /\ n_queries n !! t = Some q2 /\ q_pc q2 = Dumping id.
Proof.
  intros Hn Hq E. destruct (no_query _ _ _ Hn tid q Hq) as (Hpc & Hg & _). pose proof (no_index _ _ _ Hn) as Hi.
  assert (~ (forall id e, q_pc q = Deriving id -> ix_heap (n_index n) !! id = Some e -> en_locked e = false)) as Hbusy.
  { intros Hfree. destruct (hold_step_progress _ _ o q _ (n_ledger n) Hi Hpc Hfree) as (ix & l & m & Eh & _).
    unfold step_query in E. rewrite Hq in E. cbn [mbind option_bind] in E. by rewrite Eh in E. }
  destruct (q_pc q) as [| | | |id| | |] eqn:Ep; try (exfalso; apply Hbusy; by intros ? ? [=]).
  destruct (ix_heap (n_index n) !! id) as [e|] eqn:He; [|exfalso; apply Hbusy; intros ? ? [= <-]; congruence].
  destruct (en_locked e) eqn:El; [|exfalso; apply Hbusy; intros ? ? [= <-]; congruence].
  destruct (no_lock _ _ _ Hn id e He El) as (t & q2 & Hq2 & Hd2). exists id, t, q2. split_and!; [done| |done..].
  intros ->. congruence.
Qed.

Lemma unblocked raws kf o o' tid t n q q2 id :
  NodeOk raws kf n -> n_queries n !! tid = Some q -> q_pc q = Deriving id -> t <> tid -> n_queries n !! t = Some q2 -> q_pc q2 = Dumping id ->
  (forall x, o_dump o' = Some x -> x ∈ raws) ->
  exists n' evs, step_query o' t n = Some (n', evs) /\ is_Some (step_query o tid n').
Proof.
  intros Hn Hq Hp Ht Hq2 Hd2 Hraw. destruct (dumping_step _ _ o' t n q2 id Hn Hq2 Hd2 Hraw) as (n' & evs & E & Hend). exists n', evs. split; [done|].
  destruct (step_query_ok _ _ _ _ _ _ _ Hn Hraw E) as (kf' & Hn' & _).
  assert (forall t' q', t' <> t -> n_queries n !! t' = Some q' <-> n_queries n' !! t' = Some q') as Hsame.
  { intros t' q' Hne. revert E. unfold step_query. rewrite Hq2. cbn [mbind option_bind]. destruct (hold_step o' q2 _ _) as [[[ix l] m]|]; [|done].
    cbn [mbind option_bind]. destruct m as [q3|q3 answer]; cbn [move]; [|destruct (q_todo q3)]; intros [= <- <-]; cbn;
      rewrite ?lookup_insert_ne, ?lookup_delete_ne by done; done. }
  assert (n_queries n' !! tid = Some q) as Hq' by (by apply Hsame).
  destruct (step_query o tid n') eqn:Es; [by eexists|]. exfalso.
  destruct (blocked_by_dump _ _ _ _ _ _ Hn' Hq' Es) as (i & t3 & q3 & Hp3 & Hne3 & Hq3 & Hd3). assert (i = id) as -> by congruence.
  assert (t3 <> t) as Hne by (intros ->; by destruct (Hend _ id Hq3)). apply Hsame in Hq3; [|done].
  by destruct Hne; apply (no_single _ _ _ Hn t3 t q3 q2 id).
Qed.

(** C25: A query is answered, also among others.  Take any reachable state with a
    query in flight and anything that happens from there within the life of the
    process: registrations, removals, other queries, failing stores, missing
    paths.  Once the query has had nine turns for each key it still has, and nine
    more for every time another action changed what the key it was at stands for,
    it has been answered; a turn is a step of its own for which it does not have
    to wait.  So alone, or while nobody touches its keys, nine steps per key are
    enough; only an endless stream of such changes can keep it going round.  It
    has to wait only while another query dumps the entry it wants; that other
    query can always take its next step, and then this one can take its own. *)
Theorem query_answered node ledger acts tid q :
  let n := (run acts (first_start node ledger)).1 in
  n_queries n !! tid = Some q ->
  (forall later, Forall same_life later ->
     9 * (S (length (q_todo q)) + disturbances tid later n) <= turns tid later n ->
     exists answers dumps, Answer (q_ask q) answers dumps ∈ (run later n).2) /\
  (forall o, act (DoStep tid o) n = None ->
     exists id t q', q_pc q = Deriving id /\ t <> tid /\ n_queries n !! t = Some q' /\ q_pc q' = Dumping id /\
       forall o', exists n' evs, act (DoStep t o') n = Some (n', evs) /\ is_Some (act (DoStep tid o) n')).
Proof.
  intros n Hq. split.
  - intros later Hl Hd. set (raws := (acts ++ later) ≫= dumps_of).
    destruct (run_ok raws acts ∅ (first_start node ledger)) as (kf & Hn & _); [apply first_start_ok|intros x Hx; unfold raws; rewrite bind_app; apply elem_of_app; by left|].
    apply (interleaved_answered raws tid _ kf); [done..| |].
    + intros x Hx. unfold raws. rewrite bind_app. apply elem_of_app. by right.
    + pose proof (rank_le (n_index n) (q_key q) (q_pc q)). fold n. unfold distance. lia.
  - intros o E. destruct (node_reachable_ok node ledger acts) as (kf & Hn & _).
    destruct (blocked_by_dump _ _ _ _ _ _ Hn Hq E) as (id & t & q' & Hp & Ht & Hq' & Hd). exists id, t, q'. split_and!; [done..|]. intros o'.
    set (raws := (acts ++ [DoStep t o']) ≫= dumps_of).
    destruct (run_ok raws acts ∅ (first_start node ledger)) as (kf2 & Hn2 & _); [apply first_start_ok|intros x Hx; unfold raws; rewrite bind_app; apply elem_of_app; by left|].
    apply (unblocked raws kf2 o o' tid t n q q' id); try done.
    intros x Hx. unfold raws. rewrite bind_app. apply elem_of_app. right. cbn. rewrite Hx. by left.
Qed.

(** ** Restarts *)

(** C26: A restart is warm.  From what a saved index left in the store, the next
    process opens with the same keys at the same paths and with the same
    verified derivations, before any dump; and every derivation it has is
    already in the supply catalog, for its path and size, so that what was
    answered before the restart can be fetched after it. *)
Theorem restart_is_warm node ledger acts ix' :
  let ix := n_index (run acts (first_start node ledger)).1 in
  ix_disk ix = snapshot ix -> open node (ix_disk ix) = Some ix' ->
  snapshot ix' = snapshot ix /\ ix_disk ix' = ix_disk ix /\
  forall key path dn, snapshot ix !! key = Some (path, Some dn) ->
    is_Some (probe_record (fun _ => true) (ix_catalog ix') (dn_blake3 dn)) /\
    exists rid, record_at (ix_catalog ix') (dn_blake3 dn) rid = Some (supply_record path dn).
Proof.
  intros ix Hd Eo. destruct (node_reachable_ok node ledger acts) as (kf & Hn & _). pose proof (no_index _ _ _ Hn : IxOk _ _ _ ix) as Hi.
  destruct (open_ok _ _ _ _ (io_disk _ _ _ _ Hi) Eo) as (kf' & Hi' & Hr & Hdk & _ & Hs). rewrite Hs. split_and!; [done..|].
  intros key path dn Hk. rewrite <-Hd, <-Hs, lookup_snapshot in Hk. destruct (ix_entries ix' !! key) as [id|]; [|done]. cbn in Hk.
  destruct (ix_heap ix' !! id) as [e|] eqn:He; [|done]. injection Hk as <- Hp. apply (io_mirror _ _ _ _ Hi' id e dn He) in Hp.
  destruct (Hr id e He) as [_ Hrec]. specialize (Hrec dn Hp). split; [by eapply probe_record_found|by eexists].
Qed.

(** ** The responder and the asker *)

Lemma check_batch_keys_ok keys : check_batch_keys keys = Ok tt -> keys <> [] /\ length keys <= MAX_BATCH_HOLD_KEYS.
Proof. unfold check_batch_keys. intros E. inv_ok. bools. split; [naive_solver|lia]. Qed.

Lemma batch_response_bound node holds :
  holds <> [] -> length holds <= MAX_BATCH_HOLD_KEYS ->
  batch_bound (as_offer_slots (br_offers (batch_response node holds).1)) (br_answers (batch_response node holds).1).
Proof.
  intros Hne Hlen. cbn [batch_response fst br_offers br_answers].
  assert (existsb is_held holds = true <-> exists r, r ∈ holds /\ is_held r = true) as Hany.
  { rewrite existsb_exists. by setoid_rewrite list_elem_of_In. }
  split.
  - by destruct holds.
  - by rewrite length_fmap.
  - destruct (existsb is_held holds); cbn; unfold MAX_BATCH_HOLD_OFFERS, MAX_BATCH_HOLD_KEYS; lia.
  - apply Forall_fmap, Forall_forall. intros r Hr. destruct r as [[d offers| |]|]; cbn; try (split_and!; cbn; try lia; constructor).
    rewrite (proj2 Hany) by (by exists (Ok (BHave d offers))). split_and!; cbn; unfold MAX_OFFERS_PER_ANSWER; try lia.
    + repeat constructor.
    + apply NoDup_singleton.
    + apply NoDup_singleton.
  - intros i Hi. destruct (existsb is_held holds) eqn:E; cbn in Hi; [|lia]. destruct (proj1 Hany eq_refl) as (r & Hr & Hh).
    exists (batch_answer r). split; [apply list_elem_of_fmap; by exists r|]. destruct r as [[d offers| |]|]; try done. cbn. assert (i = 0) as -> by lia. by left.
Qed.

Lemma batch_meaning node holds i :
  (meaning (as_offer_slots (br_offers (batch_response node holds).1)) <$> br_answers (batch_response node holds).1) !! i =
  (fun r => match r with Ok (BHave d _) => Some (d, [KtIroh node]) | _ => None end) <$> holds !! i.
Proof.
  cbn [batch_response fst br_offers br_answers]. rewrite !list_lookup_fmap. destruct (holds !! i) as [r|] eqn:Er; [|done]. cbn.
  destruct r as [[d offers| |]|]; try done. assert (existsb is_held holds = true) as ->; [|done].
  apply existsb_exists. exists (Ok (BHave d offers)). split; [apply list_elem_of_In; by eapply list_elem_of_lookup_2|done].
Qed.

Section wire.
Context `{JsonText, Json BatchHoldResponseWire}.
Context `{!JsonTextLaws, !JsonLaws BatchHoldResponseWire batch_wire_ok, !JsonWritten BatchHoldResponseWire batch_wire_ok}.

(** C23: The asker of a batch learns what the responder found.  For every batch
    that a node answers in any run, the response satisfies the binding rules of
    the wire and is accompanied by at most two operator notes; and once encoded,
    the asker decodes it to the same response, in which position by position a
    key is held exactly where the responder found it, with the BLAKE3 of a dump
    whose SHA-256 is that key and the responder as its only locator. *)
Theorem batch_answer_understood node ledger acts asker keys answers dumps :
  Answer (AskBatch asker keys) answers dumps ∈ (run acts (first_start node ledger)).2 ->
  let '(response, notes) := batch_response node (answers.*2) in
  check_batch_offer_bindings (as_offer_slots (br_offers response)) (br_answers response) = Ok tt /\ length notes <= 2 /\
  forall bytes, encode_batch_hold_response response = Ok bytes ->
    exists heard, decode_batch_hold_response bytes (length keys) = Ok heard /\ length (br_answers heard) = length keys /\
    forall i key, keys !! i = Some key ->
      exists r, answers !! i = Some (key, r) /\
        (meaning (as_offer_slots (br_offers heard)) <$> br_answers heard) !! i =
          Some (match r with Ok (BHave d _) => Some (d, [KtIroh node]) | _ => None end) /\
        forall d offers, r = Ok (BHave d offers) ->
          exists raw, raw ∈ acts ≫= dumps_of /\ NarHashKey_from_raw_nar raw = key /\ Blake3Digest_from_raw_nar raw = d.
Proof.
  intros Hin. destruct (node_reachable_ok node ledger acts) as (kf & _ & Hev & _). destruct (proj1 (Forall_forall _ _) Hev _ Hin) as (Hk & Hans & _).
  cbn [ask_keys] in Hk. apply result_bind_ok in Hk as ([] & [Hne Hlen]%check_batch_keys_ok & [= ->]).
  pose proof (batch_response_bound node (answers.*2)) as Hb. pose proof (batch_meaning node (answers.*2)) as Hm.
  rewrite !length_fmap in *. assert (answers.*2 <> []) as Hne2 by (by destruct answers). specialize (Hb Hne2 Hlen).
  assert (length (batch_response node answers.*2).2 <= 2) as Hnotes by (cbn; repeat case_match; cbn; lia).
  assert (Forall answer_ok (br_answers (batch_response node answers.*2).1) /\ br_schema_version (batch_response node answers.*2).1 = QUERY_SCHEMA_VERSION /\
    length (br_answers (batch_response node answers.*2).1) = length answers) as (Hok & Hv & Hl).
  { cbn [batch_response fst br_answers br_schema_version]. rewrite !length_fmap. split_and!; [|done..].
    apply Forall_fmap, Forall_true. intros [[| |]|]; cbn; try done. constructor; [|constructor]. split; [lia|done]. }
  destruct (batch_response node answers.*2) as [response notes]. cbn [fst snd] in *.
  split_and!; [by apply check_bindings_ok|done|]. intros bytes He. exists response. rewrite <-Hl. split_and!; [by apply batch_roundtrip|done|].
  intros i key Hi. rewrite list_lookup_fmap in Hi. destruct (answers !! i) as [[key' r]|] eqn:Ea; [|done]. injection Hi as ->. exists r. split_and!; [done| |].
  - rewrite Hm, list_lookup_fmap, Ea. done.
  - intros d offers ->. destruct (proj1 (Forall_forall _ _) Hans (key, Ok (BHave d offers))) as [Hg _]; [by eapply list_elem_of_lookup_2|].
    destruct (Hg d offers eq_refl) as (_ & dn & (raw & ? & ? & ->) & <-). by exists raw.
Qed.
End wire.
End work.

(** ** JsonFileStore *)

Section json_file_store.
Context `{Json (gmap (list byte) StoredValue)}.

Definition stored_ok (v : StoredValue) : Prop := match v with PathOnly _ => True | WithDerived _ _ size => u64_ok size end.
Definition stored_map_ok (m : gmap (list byte) StoredValue) : Prop := map_Forall (fun _ => stored_ok) m.
Context `{!JsonLaws (gmap (list byte) StoredValue) stored_map_ok}.

(** The entry [stored_entry] writes when the path is UTF-8. *)
Definition stored (x : NarHashKey * (StorePath * option DerivedNar)) : list byte * StoredValue :=
  (NarHashKey_to_string x.1, match x.2.2 with Some d => WithDerived x.2.1 (dn_blake3 d) (nar_size_uncompressed_nar d) | None => PathOnly x.2.1 end).

Lemma stored_entry_some x y : stored_entry x = Some y -> y = stored x.
Proof. destruct x as [k [p d]]. unfold stored_entry. destruct (negb _); [done|]. by intros [= <-]. Qed.
Lemma stored_all l l' : mapM stored_entry l = Some l' -> l' = stored <$> l.
Proof. intros Hm%mapM_Some. induction Hm as [|x y l l' Hx _ IH]; [done|]. by rewrite fmap_cons, (stored_entry_some _ _ Hx), IH. Qed.
Lemma load_stored x : load_entry (stored x) = Some x.
Proof.
  destruct x as [k [p d]]. unfold load_entry, stored. cbn [fst snd]. rewrite (proj2 (NarHashKey_from_str_iff _ k) eq_refl). by destruct d as [[]|].
Qed.
Lemma load_all l : mapM load_entry (stored <$> l) = Some l.
Proof. apply mapM_Some. induction l; constructor; [apply load_stored|done]. Qed.

(** The JSON store keeps the contract the index relies on: what a save wrote,
    the next load reads back, whole and unchanged. *)
Theorem json_store_roundtrip (entries : Snapshot) bytes :
  (forall k p dn, entries !! k = Some (p, Some dn) -> u64_ok (nar_size_uncompressed_nar dn)) ->
  json_save entries = Some bytes -> json_load (Some bytes) = Ok entries.
Proof.
  intros Hsz E. unfold json_save in E. destruct (mapM stored_entry (map_to_list entries)) as [l|] eqn:Em; [|done]. apply stored_all in Em as ->.
  cbn [mbind option_bind] in E. set (m := list_to_map (stored <$> map_to_list entries) : gmap (list byte) StoredValue) in *.
  assert (NoDup (stored <$> map_to_list entries).*1) as Hnd.
  { rewrite <-list_fmap_compose. change (fst ∘ stored) with (NarHashKey_to_string ∘ (fst : NarHashKey * (StorePath * option DerivedNar) -> _)). rewrite list_fmap_compose.
    apply NoDup_fmap_2; [intros x y; apply NarHashKey_to_string_inj|apply NoDup_fst_map_to_list]. }
  assert (map_to_list m ≡ₚ stored <$> map_to_list entries) as Hp by (by apply map_to_list_to_map).
  unfold json_load. rewrite (json_roundtrip m bytes); [|..|done].
  2: { intros k v Hv. apply elem_of_map_to_list in Hv. rewrite Hp in Hv. apply list_elem_of_fmap in Hv as ([k' [p d]] & [= -> ->] & Hin%elem_of_map_to_list).
       destruct d as [d|]; cbn; [|done]. by apply (Hsz k' p d). }
  cbn [ok_or mbind result_bind]. destruct (Permutation_map_inv _ _ Hp) as (l3 & E3 & P3).
  assert (mapM load_entry (map_to_list m) = Some l3) as ->. { rewrite E3. apply load_all. }
  cbn [ok_or mbind result_bind]. f_equal. rewrite <-(list_to_map_to_list entries). apply list_to_map_proper; [|by symmetry].
  rewrite <-P3. apply NoDup_fst_map_to_list.
Qed.
End json_file_store.
