(* ===== verification/AvailabilityRuns.v ===== *)
(** * Concrete runs of the availability index

    A toy dumper, whose hashes repeat one byte of the dump, and the theorems of
    AvailabilityProps.v and AvailabilityWork.v at concrete runs.  It models no
    code of the program. *)

From Stdlib Require Import Strings.Byte ZArith Lia.
From stdpp Require Import base gmap numbers strings sorting list.
From S2P Require Import Prelude Hex Text Utf8 Ids NixBase32 ToyNode Claim ClaimRuns Ledgers Availability AvailabilityProps AvailabilityWork.

#[local] Instance toy_dumper : Dumper := {|
  sha256 raw := fill _ (hd x00 raw);
  blake3_hash raw := fill _ (default x00 (last raw));
  production_source path := RegularFile path
|}.
#[local] Existing Instance json_batch.
#[local] Existing Instance toy_text.

Definition av_node : NodeId := NodeId_from_bytes (fill _ x01).
Definition av_asker : NodeId := NodeId_from_bytes (fill _ x02).
Definition av_raw : list byte := [x05; x06; x07].
Definition av_key : NarHashKey := NarHashKey_from_raw_nar av_raw.
Definition av_path : StorePath := str "/nix/store/a".
Definition av_budget : DeriveBudget :=
  {| max_bytes_per_peer := 100; max_dumps_per_peer := 10; max_bytes_global := 150; max_dumps_global := 20; derive_window := 60000000000 |}.
Definition av_ledger : PeerDeriveLedger := PeerDeriveLedger_with_clock av_budget.
Definition av_oracle : Oracle := {| o_exists := true; o_save := Saved; o_now := 5; o_nar_size := Some 3%Z; o_dump := Some av_raw |}.

(** A key is registered and a peer asks for it: the dump, the check, the answer. *)
Definition av_before : list Action := [DoRegister Saved av_key av_path; DoAsk 0 (AskBatch av_asker [av_key])].
Definition av_acts : list Action := av_before ++ replicate 5 (DoStep 0 av_oracle).
Definition av_digest_of : Blake3Digest := Blake3Digest_from_raw_nar av_raw.
Definition av_answers : list (NarHashKey * result AvailabilityError BudgetedHold) := [(av_key, Ok (BHave av_digest_of [KtIroh av_node]))].

Lemma av_events : (run av_acts (first_start av_node av_ledger)).2 = [PeerDump (5, av_asker, 3, 1)%Z; Answer (AskBatch av_asker [av_key]) av_answers 1].
Proof. vm_compute. reflexivity. Qed.

Lemma answers_are_genuine_witness :
  Answer (AskBatch av_asker [av_key]) av_answers 1 ∈ (run av_acts (first_start av_node av_ledger)).2 /\
  exists raw, raw ∈ av_acts ≫= dumps_of /\ NarHashKey_from_raw_nar raw = av_key /\ Blake3Digest_from_raw_nar raw = av_digest_of.
Proof.
  assert (Answer (AskBatch av_asker [av_key]) av_answers 1 ∈ (run av_acts (first_start av_node av_ledger)).2) as Hin by (rewrite av_events; right; left).
  split; [exact Hin|]. pose proof (answers_are_genuine av_node av_ledger av_acts) as Ht. destruct (run av_acts _) as [n events]. cbn [snd] in Hin.
  destruct Ht as [Ht _]. destruct (Ht _ _ _ Hin) as (_ & Hg & _). destruct (Hg av_key av_digest_of [KtIroh av_node]) as [_ Hraw]; [left|exact Hraw].
Defined.

(** The digest is in the catalog after the answer. *)
Lemma supply_is_held_witness :
  match probe_record (fun _ => true) (ix_catalog (n_index (run av_acts (first_start av_node av_ledger)).1)) av_digest_of with
  | Some r => exists key raw, raw ∈ av_acts ≫= dumps_of /\ NarHashKey_from_raw_nar raw = key /\ Blake3Digest_from_raw_nar raw = av_digest_of /\
      snapshot (n_index (run av_acts (first_start av_node av_ledger)).1) !! key = Some (record_path r, Some (derived_of raw))
  | None => False
  end.
Proof.
  assert ((if probe_record (fun _ => true) (ix_catalog (n_index (run av_acts (first_start av_node av_ledger)).1)) av_digest_of then true else false) = true) as Hsome
    by (vm_compute; reflexivity).
  destruct (supply_is_held av_node av_ledger av_acts) as [Ht _]. destruct (probe_record _ _ av_digest_of) as [r|] eqn:E; [|discriminate Hsome].
  destruct (Ht _ _ _ E) as (_ & key & raw & H1 & H2 & H3 & H4 & _). exists key, raw. split; [exact H1|]. split; [exact H2|]. split; [exact H3|exact H4].
Defined.

(** A registration the store rejects. *)
Lemma register_all_or_nothing_witness :
  match register_binding FailedBefore av_key (str "/nix/store/b") None (n_index (run av_acts (first_start av_node av_ledger)).1) with
  | Some (ix', Err _) => ix_entries ix' = ix_entries (n_index (run av_acts (first_start av_node av_ledger)).1)
  | _ => False
  end.
Proof.
  assert (match register_binding FailedBefore av_key (str "/nix/store/b") None (n_index (run av_acts (first_start av_node av_ledger)).1) with
          | Some (_, Err _) => true | _ => false end = true) as Hsome by (vm_compute; reflexivity).
  destruct (register_binding _ _ _ _ _) as [[ix' [u|e]]|] eqn:E; [discriminate Hsome| |discriminate Hsome].
  destruct (register_all_or_nothing av_node av_ledger av_acts FailedBefore av_key (str "/nix/store/b") None ix' (Err e)) as (Hent & _);
    [intros dn Hd; discriminate Hd|exact E|exact Hent].
Defined.

Lemma peer_dumps_bounded_witness :
  peer_dumps (run (replicate 5 (DoStep 0 av_oracle)) (run av_before (first_start av_node av_ledger)).1).2 = [(5, av_asker, 3, 1)%Z] /\
  (total (of_peer av_asker (ev_amount Bytes)) (peer_dumps (run (replicate 5 (DoStep 0 av_oracle)) (run av_before (first_start av_node av_ledger)).1).2) <= 200)%Z.
Proof.
  split; [vm_compute; reflexivity|].
  apply (peer_dumps_bounded av_budget (first_start av_node av_ledger) av_before (replicate 5 (DoStep 0 av_oracle)) 0 Bytes av_asker).
  - repeat split; discriminate.
  - reflexivity.
  - repeat constructor.
  - repeat constructor; intros size [= <-]; discriminate.
  - repeat constructor; vm_compute; reflexivity || discriminate.
Defined.

(** The key moves to another path and another query asks for it while query 0 is on its way. *)
Definition av_later : list Action :=
  [DoStep 0 av_oracle; DoRegister Saved av_key (str "/nix/store/b"); DoAsk 1 (AskLocal av_key); DoStep 1 av_oracle] ++
  replicate 17 (DoStep 0 av_oracle).
(** Query 1 dumps the entry that query 0 is about to derive. *)
Definition av_blocked : list Action :=
  av_before ++ [DoAsk 1 (AskLocal av_key)] ++ replicate 3 (DoStep 1 av_oracle) ++ replicate 2 (DoStep 0 av_oracle).

Lemma query_answered_witness :
  (disturbances 0 av_later (run av_before (first_start av_node av_ledger)).1 = 1 /\
   exists answers dumps, Answer (AskBatch av_asker [av_key]) answers dumps ∈
     (run av_later (run av_before (first_start av_node av_ledger)).1).2) /\
  exists n' evs, act (DoStep 1 av_oracle) (run av_blocked (first_start av_node av_ledger)).1 = Some (n', evs) /\ is_Some (act (DoStep 0 av_oracle) n').
Proof.
  split.
  - split; [vm_compute; reflexivity|].
    assert (match n_queries (run av_before (first_start av_node av_ledger)).1 !! 0 with
            | Some q => match q_ask q, q_todo q with AskBatch a [k], [] => bool_decide (a = av_asker) && bool_decide (k = av_key) | _, _ => false end | None => false end = true) as Hq
      by (vm_compute; reflexivity).
    destruct (n_queries (run av_before (first_start av_node av_ledger)).1 !! 0) as [q|] eqn:E; [|discriminate Hq].
    destruct (query_answered av_node av_ledger av_before 0 q E) as [Ht _]. specialize (Ht av_later).
    destruct (q_ask q) as [| | |a [|k []]]; try discriminate Hq. destruct (q_todo q) as [|]; [|discriminate Hq].
    apply andb_prop in Hq as [H1%bool_decide_eq_true H2%bool_decide_eq_true]. subst a k. apply Ht; [repeat constructor|].
    apply Nat.leb_le. vm_compute. reflexivity.
  - assert ((if n_queries (run av_blocked (first_start av_node av_ledger)).1 !! 0 then true else false) = true) as Hq by (vm_compute; reflexivity).
    destruct (n_queries (run av_blocked (first_start av_node av_ledger)).1 !! 0) as [q|] eqn:E; [|discriminate Hq].
    destruct (query_answered av_node av_ledger av_blocked 0 q E) as [_ Ht].
    destruct (Ht av_oracle) as (id & t & q' & _ & Hne & Ht' & _ & Ho); [vm_compute; reflexivity|].
    assert (t = 1) as ->; [|exact (Ho av_oracle)]. destruct t as [|[|t]]; [congruence|reflexivity|].
    exfalso. assert (n_queries (run av_blocked (first_start av_node av_ledger)).1 !! S (S t) = None) as Hnone; [|congruence].
    assert (dom (n_queries (run av_blocked (first_start av_node av_ledger)).1) = {[0; 1]}) as Hdom by (vm_compute; reflexivity).
    apply not_elem_of_dom. rewrite Hdom. set_solver.
Defined.

Lemma restart_is_warm_witness :
  match open av_node (ix_disk (n_index (run av_acts (first_start av_node av_ledger)).1)) with
  | Some ix' => snapshot ix' = snapshot (n_index (run av_acts (first_start av_node av_ledger)).1)
  | None => False
  end.
Proof.
  assert (bool_decide (ix_disk (n_index (run av_acts (first_start av_node av_ledger)).1) = snapshot (n_index (run av_acts (first_start av_node av_ledger)).1)) = true) as Hd
    by (vm_compute; reflexivity).
  assert ((if open av_node (ix_disk (n_index (run av_acts (first_start av_node av_ledger)).1)) then true else false) = true) as Hsome by (vm_compute; reflexivity).
  apply bool_decide_eq_true in Hd. destruct (open _ _) as [ix'|] eqn:E; [|discriminate Hsome].
  destruct (restart_is_warm av_node av_ledger av_acts ix' Hd E) as (Hs & _). exact Hs.
Defined.

Lemma batch_answer_understood_witness :
  is_ok (encode_batch_hold_response (batch_response av_node (av_answers.*2)).1) = true /\
  forall bytes, encode_batch_hold_response (batch_response av_node (av_answers.*2)).1 = Ok bytes ->
    exists heard, decode_batch_hold_response bytes 1 = Ok heard /\
      (meaning (as_offer_slots (br_offers heard)) <$> br_answers heard) !! 0 = Some (Some (av_digest_of, [KtIroh av_node])).
Proof.
  split; [vm_compute; reflexivity|]. intros bytes He.
  assert (Answer (AskBatch av_asker [av_key]) av_answers 1 ∈ (run av_acts (first_start av_node av_ledger)).2) as Hin by (rewrite av_events; right; left).
  destruct (@batch_answer_understood toy_dumper toy_text json_batch toy_text_laws (codec_json_laws c_batch _) (toy_written _)
    av_node av_ledger av_acts av_asker [av_key] av_answers 1 Hin) as (_ & _ & Hd).
  destruct (Hd bytes He) as (heard & Hdec & _ & Hm). destruct (Hm 0 av_key eq_refl) as (r & Hr & Hmean & _). injection Hr as <-.
  exists heard. split; [exact Hdec|exact Hmean].
Defined.
