(* ===== verification/Rewrite.v ===== *)
(** * Narinfo transport rewriting: daemon-core/src/rewrite.rs

    [to_raw] replaces the four unsigned transport lines of a narinfo so that it
    describes the raw NAR a peer serves.  The theorems say that no other line
    moves or changes, that the result is consistent and a fixed point of the
    rewrite, and exactly when a narinfo is refused.  The serving decision is the
    trait [RawServeDecision] with its three implementations. *)

From Stdlib Require Import Strings.Byte ZArith Lia.
From stdpp Require Import base sets gmap numbers strings list.
From S2P Require Import Prelude Text Utf8.

Definition colon : byte := x3a.
Definition newline : byte := x0a.

Definition REWRITE_ALLOWLIST : list (list byte) :=
  [str "Compression"; str "URL"; str "FileHash"; str "FileSize"].

Definition SIGNED_FIELDS : list (list byte) :=
  [str "StorePath"; str "NarHash"; str "NarSize"; str "References"; str "Deriver"; str "CA"; str "Sig"].

(** rewrite::apply: the normal path relays the body. *)
Definition apply (body : list byte) : list byte := body.

Record RawRewrite := {
  rw_body : list byte;
  rw_url_token : list byte;
  rw_nar_hash : list byte;
  rw_nar_size : Z
}.

Inductive RewriteError :=
| MissingField (name : list byte)
| MalformedNarSize (v : list byte)
| MalformedNarHash (v : list byte).

(** `line.len() > key.len() && line.starts_with(key) && line[key.len()] == b':'` *)
Definition is_field (line key : list byte) : bool :=
  (length key <? length line) && bool_decide (is_Some (strip_prefix key line)) &&
  bool_decide (line !! length key = Some colon).

Definition field_value (line key : list byte) : option (list byte) :=
  if is_field line key then Some (drop (length key + 1) line) else None.

Definition field_key (line : list byte) : option (list byte) :=
  i ← position (fun b => bool_decide (b = colon)) line; Some (take i line).

(** `seg.strip_suffix(sfx)` *)
Definition strip_suffix (sfx seg : list byte) : option (list byte) :=
  r ← strip_prefix (reverse sfx) (reverse seg); Some (reverse r).

Definition split_terminator (seg : list byte) : list byte * list byte :=
  match strip_suffix [x0d; x0a] seg with
  | Some rest => (rest, drop (length rest) seg)
  | None =>
      match strip_suffix [x0a] seg with
      | Some rest => (rest, drop (length rest) seg)
      | None => (seg, drop (length seg) seg)
      end
  end.

Definition ascii_trim (bytes : list byte) : list byte :=
  let start := position (fun b => negb (Utf8.is_ascii_whitespace b)) bytes in
  let end_ := (fun k => length bytes - 1 - k) <$>
                position (fun b => negb (Utf8.is_ascii_whitespace b)) (reverse bytes) in
  match start, end_ with
  | Some s, Some e => take (e + 1 - s) (drop s bytes)
  | _, _ => []
  end.

(** The locals of the first pass. *)
Record Pass1 := {
  nar_hash : option (list byte);
  nar_size_raw : option (list byte);
  compression : option (list byte);
  have_url : bool;
  have_filehash : bool;
  have_filesize : bool
}.

Definition pass1_start : Pass1 := Build_Pass1 None None None false false false.

Definition pass1_line (p : Pass1) (line : list byte) : Pass1 :=
  match field_value line (str "NarHash") with
  | Some v => Build_Pass1 (Some v) (nar_size_raw p) (compression p) (have_url p) (have_filehash p) (have_filesize p)
  | None =>
  match field_value line (str "NarSize") with
  | Some v => Build_Pass1 (nar_hash p) (Some v) (compression p) (have_url p) (have_filehash p) (have_filesize p)
  | None =>
  match field_value line (str "Compression") with
  | Some v => Build_Pass1 (nar_hash p) (nar_size_raw p) (Some v) (have_url p) (have_filehash p) (have_filesize p)
  | None =>
  if is_field line (str "URL")
  then Build_Pass1 (nar_hash p) (nar_size_raw p) (compression p) true (have_filehash p) (have_filesize p)
  else if is_field line (str "FileHash")
  then Build_Pass1 (nar_hash p) (nar_size_raw p) (compression p) (have_url p) true (have_filesize p)
  else if is_field line (str "FileSize")
  then Build_Pass1 (nar_hash p) (nar_size_raw p) (compression p) (have_url p) (have_filehash p) true
  else p
  end end end.

Definition pass1 (body : list byte) : Pass1 := foldl pass1_line pass1_start (split_on newline body).

(** `nar_hash.split_once(':').map_or(nar_hash, |(_, d)| d)` *)
Definition digest_of (nar_hash : list byte) : list byte :=
  match position (fun b => bool_decide (b = colon)) nar_hash with
  | Some i => drop (i + 1) nar_hash
  | None => nar_hash
  end.

(** The values the second pass writes. *)
Record Values := { v_nar_hash : list byte; v_nar_size : Z; v_url_token : list byte }.

(** Between the passes: the checks, in the source's order. *)
Definition checked_values (p : Pass1) : result RewriteError Values :=
  nh ← ok_or (nar_hash p) (MissingField (str "NarHash"));
  ns ← ok_or (nar_size_raw p) (MissingField (str "NarSize"));
  _ ← reject_if (negb (have_url p)) (MissingField (str "URL"));
  c ← ok_or (compression p) (MissingField (str "Compression"));
  let is_uncompressed := bool_decide (ascii_trim c = str "none") in
  _ ← reject_if (negb (have_filehash p) && negb is_uncompressed) (MissingField (str "FileHash"));
  _ ← reject_if (negb (have_filesize p) && negb is_uncompressed) (MissingField (str "FileSize"));
  let nh := ascii_trim nh in
  _ ← reject_if (negb (Utf8.from_utf8_ok nh)) (MalformedNarHash (str "<non-utf8>"));
  size ← ok_or (if Utf8.from_utf8_ok (ascii_trim ns) then parse_u64 (ascii_trim ns) else None)
    (MalformedNarSize (Utf8.from_utf8_lossy ns));
  let digest := digest_of nh in
  _ ← reject_if (bool_decide (digest = [])) (MalformedNarHash nh);
  Ok {| v_nar_hash := nh; v_nar_size := size; v_url_token := digest ++ str ".nar" |}.

(** The `match key` of the second pass. *)
Definition raw_line (v : Values) (key : list byte) : option (list byte) :=
  if decide (key = str "URL") then Some (str "URL: nar/" ++ v_url_token v)
  else if decide (key = str "Compression") then Some (str "Compression: none")
  else if decide (key = str "FileHash") then Some (str "FileHash: " ++ v_nar_hash v)
  else if decide (key = str "FileSize") then Some (str "FileSize: " ++ show_u64 (v_nar_size v))
  else None.

(** One segment of the second pass. *)
Definition pass2_seg (v : Values) (seg : list byte) : list byte :=
  let '(line, term) := split_terminator seg in
  let replacement :=
    key ← field_key line;
    (if bool_decide (key ∈ REWRITE_ALLOWLIST) then raw_line v key else None) in
  match replacement with
  | Some new_line => new_line ++ term
  | None => seg
  end.

Definition to_raw (body : list byte) : result RewriteError RawRewrite :=
  v ← checked_values (pass1 body);
  Ok {| rw_body := concat (pass2_seg v <$> split_inclusive_nl body);
        rw_url_token := v_url_token v;
        rw_nar_hash := v_nar_hash v;
        rw_nar_size := v_nar_size v |}.

(** ** The serving decision *)

(** rewrite::RawServeDecision; the answer may come from the network, so an
    implementation is whatever function answers this request. *)
Class RawServeDecision (T : Type) := will_serve_raw : T -> list byte -> bool.

Inductive NoRawServe := NoRawServe_.
#[export] Instance NoRawServe_decision : RawServeDecision NoRawServe := fun _ _ => false.

(** An `Arc<dyn RawServeDecision>`. *)
Record DynRawServe := { dyn_serves : list byte -> bool }.
#[export] Instance DynRawServe_decision : RawServeDecision DynRawServe := dyn_serves.

Record AnyRawServe := { decisions : list DynRawServe }.
Fixpoint any_serves (ds : list DynRawServe) (nar_hash : list byte) : bool :=
  match ds with
  | [] => false
  | d :: rest => if will_serve_raw d nar_hash then true else any_serves rest nar_hash
  end.
#[export] Instance AnyRawServe_decision : RawServeDecision AnyRawServe :=
  fun any nar_hash => any_serves (decisions any) nar_hash.

Record AllowlistRawServe := { hashes : gset (list byte) }.
Definition AllowlistRawServe_new (hs : list (list byte)) : AllowlistRawServe :=
  {| hashes := list_to_set hs |}.
#[export] Instance AllowlistRawServe_decision : RawServeDecision AllowlistRawServe :=
  fun a nar_hash => bool_decide (nar_hash ∈ hashes a).

(** ** Fields of a line *)

Lemma field_key_Some line key :
  field_key line = Some key <-> exists v, line = key ++ colon :: v /\ colon ∉ key.
Proof.
  unfold field_key. rewrite bind_Some. setoid_rewrite position_Some. split.
  - intros (i & (a & b & c & -> & <- & Hb%bool_decide_eq_true & Ha) & [= <-]). subst b.
    rewrite take_app_length. exists c. by rewrite <-Forall_neq_elem.
  - intros (v & -> & Hk). exists (length key). rewrite take_app_length. split; [|done].
    exists key, colon, v. rewrite bool_decide_true by done. by rewrite Forall_neq_elem.
Qed.

Lemma field_key_None line : field_key line = None <-> colon ∉ line.
Proof.
  unfold field_key. rewrite bind_None, position_None, Forall_neq_elem. naive_solver.
Qed.

Lemma is_field_iff line key : is_field line key = true <-> exists v, line = key ++ colon :: v.
Proof.
  unfold is_field. rewrite !andb_true_iff, !bool_decide_eq_true, Nat.ltb_lt. split.
  - intros [[_ [r Hr]] Hc]. apply strip_prefix_Some in Hr as ->.
    rewrite lookup_app_r, Nat.sub_diag in Hc by lia. destruct r as [|c r]; [done|].
    simpl in Hc. injection Hc as ->. by exists r.
  - intros (v & ->). rewrite length_app, strip_prefix_app. simpl. split; [split; [lia|by eexists]|].
    by rewrite lookup_app_r, Nat.sub_diag by lia.
Qed.

Lemma field_value_Some line key v : field_value line key = Some v <-> line = key ++ colon :: v.
Proof.
  unfold field_value. destruct (is_field line key) eqn:E.
  - apply is_field_iff in E as (w & ->).
    rewrite drop_app_ge by lia. replace (length key + 1 - length key) with 1 by lia. simpl. rewrite drop_0.
    split; [by intros [= ->]|]. intros H%app_inv_head. congruence.
  - split; [done|]. intros ->. rewrite (proj2 (is_field_iff _ _)) in E; [done|eauto].
Qed.

(** A field test by name is a test of the first colon's prefix. *)
Lemma is_field_key line key : colon ∉ key -> is_field line key = bool_decide (field_key line = Some key).
Proof.
  intros Hk. apply eq_iff_eq_true. rewrite is_field_iff, bool_decide_eq_true, field_key_Some. naive_solver.
Qed.

(** ** Segments: a line and its terminator *)

Lemma strip_suffix_Some sfx s r : strip_suffix sfx s = Some r <-> s = r ++ sfx.
Proof.
  unfold strip_suffix. rewrite bind_Some. setoid_rewrite strip_prefix_Some. split.
  - intros (r' & H & [= <-]). rewrite <-(reverse_involutive s), H, reverse_app, reverse_involutive. done.
  - intros ->. exists (reverse r). by rewrite reverse_app, reverse_involutive.
Qed.

Definition ends_cr (l : list byte) : Prop := exists l', l = l' ++ [x0d].

Definition term_ok (line term : list byte) : Prop :=
  term = [x0d; x0a] \/ (term = [x0a] /\ ~ ends_cr line) \/ (term = [] /\ line <> []).

(** [seg] is [line] followed by the terminator [term]. *)
Definition seg_view (seg line term : list byte) : Prop :=
  seg = line ++ term /\ newline ∉ line /\ term_ok line term.

Lemma split_terminator_view seg line term : seg_view seg line term -> split_terminator seg = (line, term).
Proof.
  intros (-> & Hnl & Ht). unfold split_terminator.
  destruct (strip_suffix [x0d; x0a] (line ++ term)) as [r|] eqn:E1.
  { apply strip_suffix_Some in E1. destruct Ht as [->|[[-> Hcr]|[-> Hne]]].
    - apply app_inv_tail in E1 as ->. by rewrite drop_app_length.
    - exfalso. apply Hcr. exists r. change [x0d; x0a] with ([x0d] ++ [x0a]) in E1.
      rewrite app_assoc in E1. by apply app_inv_tail in E1.
    - exfalso. rewrite app_nil_r in E1. subst line. apply Hnl. unfold newline. set_solver. }
  destruct (strip_suffix [x0a] (line ++ term)) as [r|] eqn:E2.
  { apply strip_suffix_Some in E2. destruct Ht as [->|[[-> Hcr]|[-> Hne]]].
    - rewrite (proj2 (strip_suffix_Some _ _ line)) in E1; done.
    - apply app_inv_tail in E2 as ->. by rewrite drop_app_length.
    - exfalso. rewrite app_nil_r in E2. subst line. apply Hnl. unfold newline. set_solver. }
  destruct Ht as [->|[[-> Hcr]|[-> Hne]]].
  - rewrite (proj2 (strip_suffix_Some _ _ line)) in E1; done.
  - rewrite (proj2 (strip_suffix_Some _ _ line)) in E2; done.
  - rewrite app_nil_r. by rewrite drop_all.
Qed.

Lemma ends_cr_dec l : ends_cr l \/ ~ ends_cr l.
Proof.
  destruct l as [|b l _] using rev_ind.
  - right. intros [[] ?]; done.
  - destruct (decide (b = x0d)) as [->|Hb]; [left; by exists l|right].
    intros [l' H]. apply app_inj_tail in H as [_ H]. done.
Qed.

Lemma segment_view seg : terminated seg \/ unterminated seg -> exists line term, seg_view seg line term.
Proof.
  intros [(l & -> & Hl)|[Hne Hs]].
  - destruct (ends_cr_dec l) as [[l' ->]|Hcr].
    + exists l', [x0d; x0a]. split; [by rewrite <-app_assoc|]. split; [|by left].
      unfold newline. set_solver.
    + exists l, [x0a]. split; [done|]. split; [done|]. right. by left.
  - exists seg, []. split; [by rewrite app_nil_r|]. split; [done|]. right. by right.
Qed.

Lemma view_segment seg line term :
  seg_view seg line term -> (terminated seg <-> term <> []) /\ (term = [] -> unterminated seg).
Proof.
  intros (-> & Hnl & Ht). split.
  - split.
    + intros (l & Heq & _) ->. rewrite app_nil_r in Heq. subst. apply Hnl. unfold newline. set_solver.
    + intros Hne. destruct Ht as [->|[[-> _]|[-> _]]]; [| |done].
      * exists (line ++ [x0d]). split; [by rewrite <-app_assoc|]. unfold newline in Hnl. set_solver.
      * by exists line.
  - intros ->. destruct Ht as [H|[[H _]|[_ Hne]]]; [done|done|]. rewrite app_nil_r. by split.
Qed.

(** What `split('\n')` keeps of a terminator. *)
Definition cr (term : list byte) : list byte := if decide (term = [x0d; x0a]) then [x0d] else [].

Lemma chomp_view seg line term : seg_view seg line term -> chomp seg = line ++ cr term.
Proof.
  intros (-> & Hnl & Ht). unfold cr. destruct Ht as [->|[[-> _]|[-> _]]].
  - rewrite decide_True by done. change [x0d; x0a] with ([x0d] ++ [x0a]).
    by rewrite app_assoc, chomp_terminated.
  - rewrite decide_False by done. by rewrite chomp_terminated, app_nil_r.
  - rewrite decide_False, app_nil_r by done. by apply chomp_unterminated.
Qed.

(** Replacing the line of a segment by another one that ends visibly. *)
Lemma view_replace seg line term line' :
  seg_view seg line term -> newline ∉ line' -> ~ ends_cr line' -> line' <> [] ->
  seg_view (line' ++ term) line' term.
Proof.
  intros (_ & _ & Ht) Hnl Hcr Hne. split; [done|]. split; [done|].
  unfold term_ok in *. naive_solver.
Qed.

(** Segment-wise maps that keep the terminators keep the segmentation. *)
Lemma segments_map f ss :
  segments ss ->
  (forall seg line term, seg_view seg line term -> exists line', seg_view (f seg) line' term) ->
  segments (f <$> ss).
Proof.
  intros Hss Hf.
  assert (forall s, terminated s -> terminated (f s)) as Ht.
  { intros s Hs. destruct (segment_view s) as (line & term & Hv); [by left|].
    destruct (Hf _ _ _ Hv) as (line' & Hv'). apply (view_segment _ _ _ Hv').
    by apply (view_segment _ _ _ Hv). }
  induction ss as [|s [|s' ss] IH]; simpl in *; [done| |].
  - destruct Hss as [Hs|Hs]; [left; auto|].
    destruct (segment_view s) as (line & term & Hv); [by right|].
    destruct (Hf _ _ _ Hv) as (line' & Hv').
    destruct (decide (term = [])) as [->|Hne]; [right; by apply (view_segment _ _ _ Hv')|].
    left. by apply (view_segment _ _ _ Hv').
  - destruct Hss as [Hs Hrest]. split; [auto|]. by apply IH.
Qed.

(** ** Trimming a value *)

Definition ws (b : byte) : Prop := Utf8.is_ascii_whitespace b = true.

(** [m] neither starts nor ends with white space. *)
Definition tight (m : list byte) : Prop :=
  (exists b m', m = b :: m' /\ ~ ws b) /\ (exists m' b, m = m' ++ [b] /\ ~ ws b).

Lemma not_ws b : ~ ws b <-> negb (Utf8.is_ascii_whitespace b) = true.
Proof. unfold ws. by rewrite negb_true_iff, not_true_iff_false. Qed.

Lemma position_skip a b c :
  Forall ws a -> ~ ws b ->
  position (fun b => negb (Utf8.is_ascii_whitespace b)) (a ++ b :: c) = Some (length a).
Proof.
  intros Ha Hb. apply position_Some. exists a, b, c. split; [done|]. split; [done|].
  split; [by apply not_ws|]. eapply Forall_impl; [exact Ha|]. unfold ws. by intros x ->.
Qed.

Lemma ascii_trim_of l m r : Forall ws l -> Forall ws r -> tight m -> ascii_trim (l ++ m ++ r) = m.
Proof.
  intros Hl Hr [(b & m1 & Hm1 & Hb) (m2 & c & Hm2 & Hc)]. unfold ascii_trim.
  assert (position (fun b => negb (Utf8.is_ascii_whitespace b)) (l ++ m ++ r) = Some (length l)) as ->.
  { rewrite Hm1. simpl. by apply position_skip. }
  assert (position (fun b => negb (Utf8.is_ascii_whitespace b)) (reverse (l ++ m ++ r)) = Some (length r)) as ->.
  { rewrite !reverse_app, Hm2, reverse_snoc. simpl. rewrite <-(length_reverse r), <-app_assoc.
    apply position_skip; [by apply Forall_reverse|done]. }
  simpl. rewrite drop_app_length, !length_app.
  assert (0 < length m) by (rewrite Hm1; simpl; lia).
  replace (length l + (length m + length r) - 1 - length r + 1 - length l) with (length m) by lia.
  by rewrite take_app_length.
Qed.

Lemma ascii_trim_blank l : Forall ws l -> ascii_trim l = [].
Proof.
  intros Hl. unfold ascii_trim. rewrite (proj2 (position_None _ _)); [done|].
  eapply Forall_impl; [exact Hl|]. unfold ws. by intros b ->.
Qed.

Lemma trim_decompose v :
  Forall ws v \/ exists l m r, v = l ++ m ++ r /\ Forall ws l /\ Forall ws r /\ tight m.
Proof.
  assert (forall v, Forall ws v \/ exists l b r, v = l ++ b :: r /\ Forall ws l /\ ~ ws b) as Hfront.
  { clear. induction v as [|b v IH]; [by left|]. destruct (Utf8.is_ascii_whitespace b) eqn:Hb.
    - destruct IH as [IH|(l & c & r & -> & Hl & Hc)]; [left; by constructor|].
      right. exists (b :: l), c, r. split; [done|]. split; [by constructor|done].
    - right. exists [], b, v. split; [done|]. split; [done|]. unfold ws. congruence. }
  destruct (Hfront v) as [|(l & b & r & -> & Hl & Hb)]; [by left|right].
  destruct (Hfront (reverse (b :: r))) as [Hall|(l' & c & r' & Heq & Hl' & Hc)].
  { exfalso. apply Forall_reverse in Hall. rewrite reverse_involutive in Hall.
    apply Forall_cons in Hall as [? _]. done. }
  exists l, (reverse r' ++ [c]), (reverse l'). split; [|split; [done|split; [by apply Forall_reverse|]]].
  - f_equal. rewrite <-(reverse_involutive (b :: r)), Heq, reverse_app, reverse_cons. done.
  - split; [|by exists (reverse r'), c]. destruct r' as [|d r'] using rev_ind.
    + exists c, []. done.
    + clear IHr'. rewrite reverse_snoc. exists d, (reverse r' ++ [c]). split; [done|].
      apply (f_equal reverse) in Heq.
      rewrite reverse_involutive, reverse_app, reverse_cons, reverse_snoc in Heq. simpl in Heq.
      by injection Heq as -> _.
Qed.

Lemma ascii_trim_cases v :
  (Forall ws v /\ ascii_trim v = []) \/
  exists l r, v = l ++ ascii_trim v ++ r /\ Forall ws l /\ Forall ws r /\ tight (ascii_trim v).
Proof.
  destruct (trim_decompose v) as [Hv|(l & m & r & -> & Hl & Hr & Hm)].
  - left. split; [done|by apply ascii_trim_blank].
  - right. rewrite ascii_trim_of by done. exists l, r. tauto.
Qed.

Lemma ascii_trim_tight v : ascii_trim v <> [] -> tight (ascii_trim v).
Proof. intros H. destruct (ascii_trim_cases v) as [[_ ?]|(l & r & _ & _ & _ & Hm)]; [done|done]. Qed.

Lemma ascii_trim_elem b v : b ∈ ascii_trim v -> b ∈ v.
Proof.
  destruct (ascii_trim_cases v) as [[_ ->]|(l & r & Hv & _)]; [by intros ?%not_elem_of_nil|].
  intros Hb. rewrite Hv. set_solver.
Qed.

Lemma ws_cr : ws x0d.
Proof. unfold ws. by apply bool_decide_eq_true_2; set_solver. Qed.

Lemma tight_not_cr p m : tight m -> ~ ends_cr (p ++ m).
Proof.
  intros [_ (m' & b & -> & Hb)] [l Hl]. rewrite app_assoc in Hl. apply app_inj_tail in Hl as [_ ->].
  apply Hb, ws_cr.
Qed.

(** A trailing carriage return does not change a trimmed value. *)
Lemma ascii_trim_cr v term : ascii_trim (v ++ cr term) = ascii_trim v.
Proof.
  unfold cr. case_decide; [|by rewrite app_nil_r].
  destruct (trim_decompose v) as [Hv|(l & m & r & -> & Hl & Hr & Hm)].
  - rewrite !ascii_trim_blank; [done|done|]. apply Forall_app. split; [done|]. constructor; [apply ws_cr|done].
  - rewrite <-!app_assoc, !ascii_trim_of; try done.
    apply Forall_app. split; [done|]. constructor; [apply ws_cr|done].
Qed.

(** ** The first pass, field by field *)

Definition pass1_field (p : Pass1) (k v : list byte) : Pass1 :=
  if decide (k = str "NarHash") then Build_Pass1 (Some v) (nar_size_raw p) (compression p) (have_url p) (have_filehash p) (have_filesize p)
  else if decide (k = str "NarSize") then Build_Pass1 (nar_hash p) (Some v) (compression p) (have_url p) (have_filehash p) (have_filesize p)
  else if decide (k = str "Compression") then Build_Pass1 (nar_hash p) (nar_size_raw p) (Some v) (have_url p) (have_filehash p) (have_filesize p)
  else if decide (k = str "URL") then Build_Pass1 (nar_hash p) (nar_size_raw p) (compression p) true (have_filehash p) (have_filesize p)
  else if decide (k = str "FileHash") then Build_Pass1 (nar_hash p) (nar_size_raw p) (compression p) (have_url p) true (have_filesize p)
  else if decide (k = str "FileSize") then Build_Pass1 (nar_hash p) (nar_size_raw p) (compression p) (have_url p) (have_filehash p) true
  else p.

Lemma known_no_colon k :
  k ∈ [str "NarHash"; str "NarSize"; str "Compression"; str "URL"; str "FileHash"; str "FileSize"] -> colon ∉ k.
Proof.
  intros Hk. apply (bool_decide_unpack _). revert k Hk. apply Forall_forall.
  repeat constructor; vm_compute; done.
Qed.

Ltac no_colon := apply known_no_colon; rewrite !elem_of_cons; tauto.

Lemma is_field_split k k' v : colon ∉ k -> colon ∉ k' -> is_field (k ++ colon :: v) k' = bool_decide (k = k').
Proof.
  intros Hk Hk'. rewrite is_field_key by done. apply bool_decide_ext.
  rewrite (proj2 (field_key_Some (k ++ colon :: v) k)) by eauto. split; congruence.
Qed.

Lemma field_value_split k k' v :
  colon ∉ k -> colon ∉ k' -> field_value (k ++ colon :: v) k' = if decide (k = k') then Some v else None.
Proof.
  intros Hk Hk'. case_decide as H; [subst; by apply field_value_Some|].
  unfold field_value. by rewrite is_field_split, bool_decide_false.
Qed.

Lemma pass1_line_field p k v : colon ∉ k -> pass1_line p (k ++ colon :: v) = pass1_field p k v.
Proof.
  intros Hk. unfold pass1_line, pass1_field.
  rewrite !field_value_split, !is_field_split by (done || no_colon).
  repeat (case_decide; [done|]; rewrite ?bool_decide_false by done).
  repeat case_bool_decide; repeat case_decide; done.
Qed.

Lemma pass1_line_none p line : colon ∉ line -> pass1_line p line = p.
Proof.
  intros Hl. unfold pass1_line.
  assert (forall k, is_field line k = false) as Hf.
  { intros k. apply not_true_iff_false. rewrite is_field_iff. intros [v ->]. apply Hl. set_solver. }
  unfold field_value. by rewrite !Hf.
Qed.

Lemma cr_no_colon term : colon ∉ cr term.
Proof. unfold cr, colon. case_decide; set_solver. Qed.

Lemma cr_no_newline term : newline ∉ cr term.
Proof. unfold cr, newline. case_decide; set_solver. Qed.

(** The first pass over `split('\n')` is the first pass over the segments. *)
Lemma pass1_segments ss :
  segments ss -> pass1 (concat ss) = foldl pass1_line pass1_start (chomp <$> ss).
Proof.
  intros Hss. unfold pass1, newline. destruct (split_on_segments ss Hss) as [->| ->]; [done|].
  rewrite foldl_app. simpl. apply pass1_line_none, not_elem_of_nil.
Qed.

(** ** The second pass *)

Record clean (v : Values) : Prop := {
  clean_tight : tight (v_nar_hash v);
  clean_newline : newline ∉ v_nar_hash v;
  clean_utf8 : Utf8.from_utf8_ok (v_nar_hash v) = true;
  clean_digest : digest_of (v_nar_hash v) <> [];
  clean_token : v_url_token v = digest_of (v_nar_hash v) ++ str ".nar";
  clean_size : u64_ok (v_nar_size v)
}.

Lemma raw_line_keys v k l :
  raw_line v k = Some l ->
  (k = str "URL" /\ l = str "URL" ++ colon :: str " nar/" ++ v_url_token v) \/
  (k = str "Compression" /\ l = str "Compression" ++ colon :: str " none") \/
  (k = str "FileHash" /\ l = str "FileHash" ++ colon :: str " " ++ v_nar_hash v) \/
  (k = str "FileSize" /\ l = str "FileSize" ++ colon :: str " " ++ show_u64 (v_nar_size v)).
Proof.
  unfold raw_line. intros H. repeat (case_decide; [injection H as <-; subst; tauto|]). done.
Qed.

Lemma raw_line_allowed v k : k ∈ REWRITE_ALLOWLIST <-> is_Some (raw_line v k).
Proof.
  unfold raw_line, REWRITE_ALLOWLIST. rewrite !elem_of_cons.
  split.
  - intros H. repeat (case_decide; [by eexists|]). exfalso.
    destruct H as [?|[?|[?|[?|?%not_elem_of_nil]]]]; done.
  - repeat (case_decide; [by tauto|]). by intros [].
Qed.

(** The line the second pass leaves in place of [line]. *)
Definition new_line (v : Values) (line : list byte) : list byte :=
  default line (k ← field_key line; raw_line v k).

Lemma pass2_seg_view v seg line term :
  seg_view seg line term -> pass2_seg v seg = new_line v line ++ term.
Proof.
  intros Hv. unfold pass2_seg, new_line. rewrite (split_terminator_view _ _ _ Hv).
  destruct Hv as (-> & _). destruct (field_key line) as [k|]; [|done]. simpl.
  case_bool_decide as Hk; [by destruct (raw_line v k)|].
  destruct (raw_line v k) eqn:E; [|done]. exfalso. apply Hk, (raw_line_allowed v). by eexists.
Qed.

Lemma digit_not_control b d : digit_val b = Some d -> b <> newline /\ b <> x0d /\ Utf8.ascii b.
Proof.
  unfold digit_val, Utf8.ascii. intros H. destruct (_ && _) eqn:E; [|done].
  apply andb_true_iff in E as [E1%Z.leb_le E2%Z.leb_le].
  split; [|split; [|lia]]; intros ->; revert E1; vm_compute; done.
Qed.

Lemma newline_not_in_app l m : newline ∉ l ++ m <-> newline ∉ l /\ newline ∉ m.
Proof. rewrite elem_of_app. tauto. Qed.

Lemma digest_of_sub b h : b ∈ digest_of h -> b ∈ h.
Proof.
  unfold digest_of. destruct (position _ h) as [i|]; [|done].
  intros Hb. rewrite <-(take_drop (i + 1) h). set_solver.
Qed.

(** A byte outside a literal. *)
Ltac no_byte := apply (bool_decide_unpack _); vm_compute; exact I.

Lemma ends_cr_last p l b : ~ ends_cr (p ++ l ++ [b]) <-> b <> x0d.
Proof.
  unfold ends_cr. rewrite app_assoc. split.
  - intros H ->. apply H. by eexists.
  - intros Hb [l' H]. by apply app_inj_tail in H as [_ ->].
Qed.

Lemma show_u64_clean n : (0 <= n)%Z -> newline ∉ show_u64 n /\ forall p, ~ ends_cr (p ++ show_u64 n).
Proof.
  intros Hn. assert (forall b, b ∈ show_u64 n -> b <> newline /\ b <> x0d) as Hall.
  { intros b [d Hd]%show_u64_chars; [|done]. apply digit_not_control in Hd. tauto. }
  split; [intros H; by apply Hall in H as []|]. intros p.
  pose proof (show_u64_nonempty n) as Hne.
  destruct (show_u64 n) as [|b l _] using rev_ind; [done|].
  apply ends_cr_last. apply Hall. set_solver.
Qed.

Lemma raw_line_ok v k l :
  clean v -> raw_line v k = Some l ->
  field_key l = Some k /\ newline ∉ l /\ ~ ends_cr l /\ l <> [].
Proof.
  intros Hc Hl. destruct (raw_line_keys _ _ _ Hl) as [[-> ->]|[[-> ->]|[[-> ->]|[-> ->]]]].
  all: split; [apply field_key_Some; eexists; split; [reflexivity|no_colon]|].
  all: split; [|split; [|done]].
  - rewrite (clean_token _ Hc). set (d := digest_of _).
    change (newline ∉ str "URL: nar/" ++ d ++ str ".nar"). rewrite !newline_not_in_app.
    split; [no_byte|]. split; [|no_byte]. intros ?%digest_of_sub. by destruct Hc.
  - rewrite (clean_token _ Hc). set (d := digest_of _).
    change (~ ends_cr (str "URL: nar/" ++ d ++ str ".na" ++ [x72])). rewrite (app_assoc d).
    by apply ends_cr_last.
  - no_byte.
  - change (~ ends_cr (str "Compression: " ++ str "non" ++ [x65])). by apply ends_cr_last.
  - change (newline ∉ str "FileHash: " ++ v_nar_hash v). rewrite newline_not_in_app.
    split; [no_byte|apply Hc].
  - change (~ ends_cr (str "FileHash: " ++ v_nar_hash v)). apply tight_not_cr, Hc.
  - change (newline ∉ str "FileSize: " ++ show_u64 (v_nar_size v)). rewrite newline_not_in_app.
    split; [no_byte|]. apply show_u64_clean, Hc.
  - change (~ ends_cr (str "FileSize: " ++ show_u64 (v_nar_size v))). apply show_u64_clean, Hc.
Qed.

Lemma new_line_key v line : clean v -> field_key (new_line v line) = field_key line.
Proof.
  intros Hc. unfold new_line. destruct (field_key line) as [k|] eqn:Hk; [|done]. simpl.
  destruct (raw_line v k) as [l|] eqn:Hl; [|done]. by apply (raw_line_ok v k l) in Hl as [].
Qed.

Lemma new_line_view v seg line term :
  clean v -> seg_view seg line term -> seg_view (pass2_seg v seg) (new_line v line) term.
Proof.
  intros Hc Hv. rewrite (pass2_seg_view _ _ _ _ Hv). unfold new_line.
  destruct (field_key line) as [k|]; simpl; [|by pose proof Hv as (<- & _)].
  destruct (raw_line v k) as [l|] eqn:Hl; simpl; [|by pose proof Hv as (<- & _)].
  apply (raw_line_ok v k l Hc) in Hl as (_ & Hnl & Hcr & Hne). by eapply view_replace.
Qed.

(** Rewriting a rewritten line changes nothing. *)
Lemma new_line_idem v line : clean v -> new_line v (new_line v line) = new_line v line.
Proof.
  intros Hc. unfold new_line at 1. rewrite new_line_key by done.
  unfold new_line. destruct (field_key line) as [k|]; [|done]. simpl. by destruct (raw_line v k).
Qed.

(** The segments of the rewritten body. *)
Lemma pass2_segments v ss :
  clean v -> segments ss -> split_inclusive_nl (concat (pass2_seg v <$> ss)) = pass2_seg v <$> ss.
Proof.
  intros Hc Hss. apply split_inclusive_concat, segments_map; [done|].
  intros seg line term Hv. eexists. by apply new_line_view.
Qed.

(** ** What the first pass reads *)

(** The lines of a body that carry the field [k]. *)
Definition values_of (k : list byte) (lines : list (list byte)) : list (list byte) :=
  omap (fun l => field_value l k) lines.
Definition last_value (k body : list byte) : option (list byte) :=
  last (values_of k (split_on newline body)).
Definition has_field (k body : list byte) : Prop := last_value k body <> None.

Lemma line_cases line : colon ∉ line \/ exists k v, line = k ++ colon :: v /\ colon ∉ k.
Proof.
  destruct (field_key line) as [k|] eqn:H; [right|left; by apply field_key_None].
  apply field_key_Some in H as (v & ? & ?). eauto.
Qed.

Lemma field_value_none line k : colon ∉ line -> field_value line k = None.
Proof.
  intros H. destruct (field_value line k) eqn:E; [|done]. apply field_value_Some in E. subst. set_solver.
Qed.

Lemma pass1_line_projections p line :
  let get k old := match field_value line k with Some v => Some v | None => old end in
  let seen k (old : bool) := bool_decide (is_Some (field_value line k)) || old in
  pass1_line p line =
  {| nar_hash := get (str "NarHash") (nar_hash p);
     nar_size_raw := get (str "NarSize") (nar_size_raw p);
     compression := get (str "Compression") (compression p);
     have_url := seen (str "URL") (have_url p);
     have_filehash := seen (str "FileHash") (have_filehash p);
     have_filesize := seen (str "FileSize") (have_filesize p) |}.
Proof.
  destruct (line_cases line) as [Hl|(k & v & -> & Hk)]; cbn zeta.
  - rewrite pass1_line_none, !field_value_none by done. by destruct p.
  - rewrite pass1_line_field by done. rewrite !field_value_split by (done || no_colon).
    unfold pass1_field. destruct p. cbn.
    repeat (case_decide; [subst; repeat case_decide; try done; cbn; congruence|]). done.
Qed.

Lemma last_snoc_value k lines line :
  last (values_of k (lines ++ [line])) =
  match field_value line k with Some v => Some v | None => last (values_of k lines) end.
Proof.
  unfold values_of. rewrite omap_app. cbn. destruct (field_value line k); cbn; [by rewrite last_snoc|].
  by rewrite app_nil_r.
Qed.

Lemma pass1_reads body :
  pass1 body =
  {| nar_hash := last_value (str "NarHash") body;
     nar_size_raw := last_value (str "NarSize") body;
     compression := last_value (str "Compression") body;
     have_url := bool_decide (is_Some (last_value (str "URL") body));
     have_filehash := bool_decide (is_Some (last_value (str "FileHash") body));
     have_filesize := bool_decide (is_Some (last_value (str "FileSize") body)) |}.
Proof.
  unfold pass1, last_value. generalize (split_on newline body) as lines. intros lines.
  induction lines as [|line lines IH] using rev_ind; [done|].
  rewrite foldl_snoc, IH, pass1_line_projections. cbn.
  rewrite !last_snoc_value. f_equal.
  all: destruct (field_value line _); done.
Qed.

Lemma split_on_no_newline body line : line ∈ split_on newline body -> newline ∉ line.
Proof.
  revert line. induction body as [|b body IH]; intros line; simpl.
  - intros ->%list_elem_of_singleton. apply not_elem_of_nil.
  - destruct (decide (b = newline)) as [->|Hb].
    + intros [->|H]%elem_of_cons; [apply not_elem_of_nil|by apply IH].
    + destruct (split_on newline body) as [|l ls] eqn:E; [by apply split_on_ne in E|].
      intros [->|H]%elem_of_cons; [|apply IH; by right].
      apply not_elem_of_cons. split; [done|]. apply IH. by left.
Qed.

Lemma last_value_no_newline k body v : last_value k body = Some v -> newline ∉ v.
Proof.
  intros H. unfold last_value in H. apply last_Some_elem_of in H.
  apply list_elem_of_omap in H as (line & Hline & Hv%field_value_Some). subst line.
  apply split_on_no_newline in Hline. set_solver.
Qed.

Lemma parse_u64_ascii s n : parse_u64 s = Some n -> Utf8.from_utf8_ok s = true.
Proof.
  intros H. assert (Forall Utf8.ascii s) as Ha.
  { assert (forall s a n, parse_digits a s = Some n -> Forall Utf8.ascii s) as Hd.
    { clear. induction s as [|b s IH]; intros a n; simpl; [by constructor|].
      destruct (digit_val b) as [d|] eqn:E; [|done]. cbn.
      destruct (_ <=? _)%Z; [|done]. intros ?%IH. constructor; [|done]. by apply digit_not_control in E as (_ & _ & ?). }
    unfold parse_u64 in H. destruct (strip_prefix [x2b] s) as [r|] eqn:E.
    - apply strip_prefix_Some in E as ->. destruct r; [done|]. apply Hd in H.
      constructor; [|done]. vm_compute. done.
    - destruct s; [done|]. by apply Hd in H. }
  rewrite <-(app_nil_r s). by rewrite Utf8.from_utf8_ok_ascii_prefix.
Qed.

Lemma checked_values_Ok p v :
  checked_values p = Ok v <->
  exists nh ns c, nar_hash p = Some nh /\ nar_size_raw p = Some ns /\ have_url p = true /\
    compression p = Some c /\
    (ascii_trim c = str "none" \/ have_filehash p = true /\ have_filesize p = true) /\
    Utf8.from_utf8_ok (ascii_trim nh) = true /\ parse_u64 (ascii_trim ns) = Some (v_nar_size v) /\
    digest_of (ascii_trim nh) <> [] /\ v_nar_hash v = ascii_trim nh /\
    v_url_token v = digest_of (ascii_trim nh) ++ str ".nar".
Proof.
  unfold checked_values. destruct p as [[nh|] [ns|] [c|] [] fh fs]; cbn [nar_hash nar_size_raw compression have_url].
  all: try (split; [done|]; intros (? & ? & ? & ? & ? & ? & ? & _); discriminate).
  cbn [mbind result_bind ok_or reject_if negb have_filehash have_filesize].
  assert (forall b f : bool, (negb b && negb f = false) <-> b = true \/ f = true) as Hb
    by (intros [] []; naive_solver).
  split.
  - intros H. inv_ok. exists nh, ns, c. rewrite Hb, bool_decide_eq_true in *. cbn.
    destruct (Utf8.from_utf8_ok (ascii_trim ns)); [|done].
    match goal with H : negb (Utf8.from_utf8_ok _) = false |- _ => apply negb_false_iff in H end.
    match goal with H : bool_decide _ = false |- _ => apply bool_decide_eq_false in H end.
    tauto.
  - intros (nh' & ns' & c' & Hnh & Hns & _ & Hc & Hf & Hu & Hp & Hd & Hvh & Hvt).
    injection Hnh as <-. injection Hns as <-. injection Hc as <-.
    pose proof (parse_u64_ascii _ _ Hp) as Hpa.
    rewrite !(proj2 (Hb _ _)) by (rewrite bool_decide_eq_true; tauto). cbn [mbind result_bind reject_if].
    rewrite Hu, Hpa, Hp, bool_decide_false by done. cbn. destruct v; cbn in *; by subst.
Qed.

Lemma checked_values_clean body v : checked_values (pass1 body) = Ok v -> clean v.
Proof.
  rewrite checked_values_Ok, pass1_reads. cbn.
  intros (nh & ns & c & Hnh & _ & _ & _ & _ & Hu & Hp & Hd & Hvh & Hvt).
  apply last_value_no_newline in Hnh. split; rewrite ?Hvh; try done.
  - apply ascii_trim_tight. intros E. rewrite E in Hd. done.
  - by intros ?%ascii_trim_elem.
  - by apply parse_u64_ok in Hp.
Qed.

(** ** Theorems *)

(** The field a segment carries. *)
Definition line_key (seg : list byte) : option (list byte) := field_key (split_terminator seg).1.

Lemma to_raw_Ok body rw :
  to_raw body = Ok rw <->
  exists v, checked_values (pass1 body) = Ok v /\ clean v /\
    rw = {| rw_body := concat (pass2_seg v <$> split_inclusive_nl body);
            rw_url_token := v_url_token v; rw_nar_hash := v_nar_hash v; rw_nar_size := v_nar_size v |}.
Proof.
  unfold to_raw. rewrite result_bind_ok. split.
  - intros (v & Hv & [= <-]). exists v. eauto using checked_values_clean.
  - intros (v & Hv & _ & ->). eauto.
Qed.

Lemma filter_fmap_fixed {A} (P : A -> Prop) `{!forall x, Decision (P x)} (f : A -> A) (l : list A) :
  Forall (fun x => (P (f x) <-> P x) /\ (P x -> f x = x)) l -> filter P (f <$> l) = filter P l.
Proof.
  induction 1 as [|x l [H1 H2] _ IH]; [done|]. rewrite fmap_cons, !filter_cons.
  destruct (decide (P x)) as [HP|HP].
  - rewrite decide_True, H2, IH by tauto. done.
  - rewrite decide_False by tauto. done.
Qed.

Lemma pass2_line_key v seg line term :
  clean v -> seg_view seg line term -> line_key (pass2_seg v seg) = line_key seg /\ line_key seg = field_key line.
Proof.
  intros Hc Hv. unfold line_key.
  rewrite (split_terminator_view _ _ _ (new_line_view v _ _ _ Hc Hv)), (split_terminator_view _ _ _ Hv).
  cbn [fst]. by rewrite new_line_key.
Qed.

Lemma pass2_seg_fixed v seg line term :
  seg_view seg line term -> (forall k, line_key seg = Some k -> k ∉ REWRITE_ALLOWLIST) -> pass2_seg v seg = seg.
Proof.
  intros Hv Hk. rewrite (pass2_seg_view _ _ _ _ Hv). unfold line_key in Hk.
  rewrite (split_terminator_view _ _ _ Hv) in Hk. destruct Hv as (-> & _). f_equal.
  cbn [fst] in Hk. unfold new_line. destruct (field_key line) as [k|]; [|done].
  cbn [mbind option_bind]. specialize (Hk k eq_refl).
  destruct (raw_line v k) eqn:E; [|done]. exfalso. apply Hk, (raw_line_allowed v). by eexists.
Qed.

Lemma to_raw_segments body rw :
  to_raw body = Ok rw ->
  exists v, clean v /\ v_url_token v = rw_url_token rw /\ v_nar_hash v = rw_nar_hash rw /\
    v_nar_size v = rw_nar_size rw /\
    split_inclusive_nl (rw_body rw) = pass2_seg v <$> split_inclusive_nl body /\
    Forall (fun seg => exists line term, seg_view seg line term) (split_inclusive_nl body).
Proof.
  rewrite to_raw_Ok. intros (v & Hv & Hc & ->). exists v. cbn.
  destruct (split_inclusive_segments body) as [Hss _]. rewrite pass2_segments by done.
  split_and!; try done. apply segments_Forall in Hss. eapply Forall_impl; [exact Hss|].
  apply segment_view.
Qed.

(** ** Reading a rewritten body *)

Lemma last_value_segments k ss :
  segments ss -> last_value k (concat ss) = last (values_of k (chomp <$> ss)).
Proof.
  intros Hss. unfold last_value, newline. destruct (split_on_segments ss Hss) as [->| ->]; [done|].
  by rewrite last_snoc_value, field_value_none by apply not_elem_of_nil.
Qed.

(** The value a rewritten line carries. *)
Definition raw_value (v : Values) (k : list byte) : option (list byte) :=
  (fun l => drop (length k + 1) l) <$> raw_line v k.

Lemma raw_value_line v k l :
  raw_line v k = Some l -> exists x, raw_value v k = Some x /\ l = k ++ colon :: x /\ colon ∉ k.
Proof.
  intros Hl. unfold raw_value. rewrite Hl. cbn [fmap option_fmap option_map].
  destruct (raw_line_keys _ _ _ Hl) as [[-> ->]|[[-> ->]|[[-> ->]|[-> ->]]]].
  all: eexists; split; [reflexivity|]; split; [reflexivity|no_colon].
Qed.

Lemma field_value_new v k line term :
  colon ∉ k ->
  field_value (new_line v line ++ cr term) k =
  (fun w => default w ((fun x => x ++ cr term) <$> raw_value v k)) <$> field_value (line ++ cr term) k.
Proof.
  intros Hk. pose proof (cr_no_colon term) as Hcr. unfold new_line.
  destruct (line_cases line) as [Hl|(k0 & w & -> & Hk0)].
  - rewrite (proj2 (field_key_None _)) by done. cbn [mbind option_bind from_option id].
    rewrite field_value_none; [done|]. rewrite elem_of_app. tauto.
  - rewrite (proj2 (field_key_Some _ k0)) by eauto. cbn [mbind option_bind].
    rewrite <-(app_assoc k0). cbn [app]. rewrite field_value_split by done.
    destruct (raw_line v k0) as [l|] eqn:Hl.
    + apply raw_value_line in Hl as (x & Hx & -> & _). cbn [from_option id].
      rewrite <-(app_assoc k0). cbn [app]. rewrite field_value_split by done.
      case_decide; [subst|done]. by rewrite Hx.
    + cbn [from_option id]. rewrite <-(app_assoc k0). cbn [app]. rewrite field_value_split by done.
      case_decide; [subst|done]. unfold raw_value. by rewrite Hl.
Qed.

Lemma last_value_rewritten v k body :
  clean v -> colon ∉ k ->
  let body' := concat (pass2_seg v <$> split_inclusive_nl body) in
  match last_value k body with
  | None => last_value k body' = None
  | Some w => exists w', last_value k body' = Some w' /\
      match raw_value v k with None => w' = w | Some x => exists term, w' = x ++ cr term end
  end.
Proof.
  intros Hc Hk body'. destruct (split_inclusive_segments body) as [Hss Hcat].
  pose proof (last_value_segments k _ Hss) as Heq. rewrite Hcat in Heq. rewrite Heq.
  subst body'. clear Heq Hcat. rewrite last_value_segments.
  2:{ apply segments_map; [done|]. intros seg line term Hv. eexists. by apply new_line_view. }
  apply segments_Forall in Hss. induction (split_inclusive_nl body) as [|seg ss IH] using rev_ind; [done|].
  apply Forall_app in Hss as [Hss Hseg]. rewrite Forall_singleton in Hseg. specialize (IH Hss).
  destruct (segment_view seg Hseg) as (line & term & Hv).
  rewrite !fmap_app. cbn [fmap list_fmap]. rewrite !last_snoc_value.
  rewrite (chomp_view _ _ _ Hv), (chomp_view _ _ _ (new_line_view v _ _ _ Hc Hv)), field_value_new by done.
  destruct (field_value (line ++ cr term) k) as [w|]; cbn [fmap option_fmap option_map]; [|done].
  eexists. split; [done|]. destruct (raw_value v k); cbn; [|done]. by exists term.
Qed.

Lemma trim_literal p m term : Forall ws p -> tight m -> ascii_trim ((p ++ m) ++ cr term) = m.
Proof.
  intros Hp Hm. rewrite ascii_trim_cr, <-(app_nil_r (p ++ m)), <-app_assoc. by apply ascii_trim_of.
Qed.

Lemma tight_none : tight (str "none").
Proof.
  split; [exists x6e, (str "one")|exists (str "non"), x65]; (split; [done|unfold ws; by vm_compute]).
Qed.

Lemma to_raw_fixpoint body rw : to_raw body = Ok rw -> to_raw (rw_body rw) = Ok rw.
Proof.
  rewrite !to_raw_Ok. intros (v & Hv & Hc & ->). exists v. cbn [rw_body]. split; [|split; [done|]].
  - rewrite checked_values_Ok, pass1_reads in *.
    destruct Hv as (nh & ns & c & Hnh & Hns & Hurl & Hcomp & _ & Hrest).
    cbn [nar_hash nar_size_raw compression have_url have_filehash have_filesize] in *.
    apply bool_decide_eq_true in Hurl as [url Hurl].
    pose proof (fun k => last_value_rewritten v k body Hc) as Hlv. cbn zeta in Hlv.
    pose proof (Hlv (str "NarHash") ltac:(no_colon)) as H1. rewrite Hnh in H1.
    pose proof (Hlv (str "NarSize") ltac:(no_colon)) as H2. rewrite Hns in H2.
    pose proof (Hlv (str "URL") ltac:(no_colon)) as H3. rewrite Hurl in H3.
    pose proof (Hlv (str "Compression") ltac:(no_colon)) as H4. rewrite Hcomp in H4.
    destruct H1 as (nh' & H1 & ->), H2 as (ns' & H2 & ->), H3 as (url' & H3 & _), H4 as (c' & H4 & t & ->).
    exists nh, ns, (str " none" ++ cr t). rewrite H1, H2, H3, H4.
    split_and!; try tauto.
    left. change (str " none") with ([x20] ++ str "none"). apply trim_literal; [|apply tight_none].
    constructor; [unfold ws; by vm_compute|done].
  - f_equal. destruct (split_inclusive_segments body) as [Hss _]. rewrite pass2_segments by done.
    f_equal. rewrite <-list_fmap_compose. apply list_fmap_ext. intros i seg Hi.
    apply segments_Forall in Hss. rewrite Forall_lookup in Hss.
    destruct (segment_view seg (Hss i seg Hi)) as (line & term & Hview). cbn [compose].
    rewrite (pass2_seg_view _ _ _ _ (new_line_view v _ _ _ Hc Hview)), new_line_idem by done.
    by rewrite (pass2_seg_view _ _ _ _ Hview).
Qed.

(** C35: a rewrite keeps the signed part of a narinfo: the rewritten body has the
    same fields in the same order, every line outside the allowlist is
    byte-identical with its terminator, and in particular each signed field has
    exactly the lines it had. *)
Theorem rewrite_keeps_signed body rw :
  to_raw body = Ok rw ->
  (line_key <$> split_inclusive_nl (rw_body rw)) = (line_key <$> split_inclusive_nl body) /\
  filter (fun seg => line_key seg ∉ Some <$> REWRITE_ALLOWLIST) (split_inclusive_nl (rw_body rw)) =
  filter (fun seg => line_key seg ∉ Some <$> REWRITE_ALLOWLIST) (split_inclusive_nl body) /\
  forall k, k ∈ SIGNED_FIELDS ->
    filter (fun seg => line_key seg = Some k) (split_inclusive_nl (rw_body rw)) =
    filter (fun seg => line_key seg = Some k) (split_inclusive_nl body).
Proof.
  intros (v & Hc & _ & _ & _ & -> & Hviews)%to_raw_segments.
  split; [|split; [|intros k Hk]].
  - rewrite <-list_fmap_compose. apply list_fmap_ext. intros i seg Hi.
    rewrite Forall_lookup in Hviews. destruct (Hviews i seg Hi) as (line & term & Hv).
    by apply (pass2_line_key v _ _ _ Hc Hv).
  - apply filter_fmap_fixed. eapply Forall_impl; [exact Hviews|]. intros seg (line & term & Hv).
    destruct (pass2_line_key v _ _ _ Hc Hv) as [-> Hkey]. split; [done|]. intros Hno.
    eapply pass2_seg_fixed; [done|]. intros k Hk Ha. apply Hno. rewrite Hk. by apply list_elem_of_fmap_2.
  - apply filter_fmap_fixed. eapply Forall_impl; [exact Hviews|]. intros seg (line & term & Hv).
    destruct (pass2_line_key v _ _ _ Hc Hv) as [-> Hkey]. split; [done|]. intros Hs.
    eapply pass2_seg_fixed; [done|]. intros k' Hk'. rewrite Hk' in Hs. injection Hs as ->.
    clear -Hk. revert k Hk. apply Forall_forall. repeat constructor; no_byte.
Qed.

(** A rewritten narinfo describes the raw NAR consistently: every transport
    line says what the signed fields say (the last NarHash and NarSize of the
    input), the URL token is the digest of the signed hash, and rewriting the
    result again gives back exactly the same rewrite. *)
Theorem rewrite_consistent body rw :
  to_raw body = Ok rw ->
  Forall (fun seg =>
    let line := (split_terminator seg).1 in
    (line_key seg = Some (str "URL") -> line = str "URL: nar/" ++ rw_url_token rw) /\
    (line_key seg = Some (str "Compression") -> line = str "Compression: none") /\
    (line_key seg = Some (str "FileHash") -> line = str "FileHash: " ++ rw_nar_hash rw) /\
    (line_key seg = Some (str "FileSize") -> line = str "FileSize: " ++ show_u64 (rw_nar_size rw)))
    (split_inclusive_nl (rw_body rw)) /\
  ascii_trim <$> last_value (str "NarHash") body = Some (rw_nar_hash rw) /\
  last_value (str "NarSize") body ≫= (fun v => parse_u64 (ascii_trim v)) = Some (rw_nar_size rw) /\
  rw_url_token rw = digest_of (rw_nar_hash rw) ++ str ".nar" /\
  to_raw (rw_body rw) = Ok rw.
Proof.
  intros H. split; [|split_and!].
  - pose proof H as (v & Hc & <- & <- & <- & -> & Hviews)%to_raw_segments.
    rewrite Forall_fmap. eapply Forall_impl; [exact Hviews|]. intros seg (line & term & Hv). cbn [compose].
    destruct (pass2_line_key v _ _ _ Hc Hv) as [-> ->].
    rewrite (split_terminator_view _ _ _ (new_line_view v _ _ _ Hc Hv)). cbn [fst].
    unfold new_line. by split_and!; intros ->.
  - apply to_raw_Ok in H as (v & Hv & _ & ->). rewrite checked_values_Ok, pass1_reads in Hv.
    destruct Hv as (nh & ns & c & Hnh & _ & _ & _ & _ & _ & _ & _ & Hvh & _). cbn in *. by rewrite Hnh, Hvh.
  - apply to_raw_Ok in H as (v & Hv & _ & ->). rewrite checked_values_Ok, pass1_reads in Hv.
    destruct Hv as (nh & ns & c & _ & Hns & _ & _ & _ & _ & Hp & _). cbn in *. by rewrite Hns.
  - apply to_raw_Ok in H as (v & _ & Hc & ->). apply Hc.
  - by apply (to_raw_fixpoint body).
Qed.

(** Which narinfos are rewritten: exactly those whose last NarHash is
    well-formed UTF-8 with a non-empty digest, whose last NarSize is a decimal
    u64, which have a URL and a Compression, and which have FileHash and FileSize
    unless their compression is none. *)
Theorem rewrite_accepts_exactly body :
  is_ok (to_raw body) = true <->
  exists nh ns c,
    last_value (str "NarHash") body = Some nh /\ last_value (str "NarSize") body = Some ns /\
    last_value (str "Compression") body = Some c /\ is_Some (last_value (str "URL") body) /\
    (ascii_trim c = str "none" \/
     is_Some (last_value (str "FileHash") body) /\ is_Some (last_value (str "FileSize") body)) /\
    Utf8.from_utf8_ok (ascii_trim nh) = true /\ digest_of (ascii_trim nh) <> [] /\
    is_Some (parse_u64 (ascii_trim ns)).
Proof.
  split.
  - intros H. destruct (to_raw body) as [rw|] eqn:E; [|done].
    apply to_raw_Ok in E as (v & Hv & _ & _). rewrite checked_values_Ok, pass1_reads in Hv.
    destruct Hv as (nh & ns & c & Hnh & Hns & Hu & Hc & Hf & Hutf & Hp & Hd & _).
    cbn [nar_hash nar_size_raw compression have_url have_filehash have_filesize] in *.
    rewrite !bool_decide_eq_true in *. exists nh, ns, c. split_and!; done.
  - intros (nh & ns & c & Hnh & Hns & Hc & Hu & Hf & Hutf & Hd & [n Hp]).
    assert (checked_values (pass1 body) = Ok {| v_nar_hash := ascii_trim nh; v_nar_size := n;
              v_url_token := digest_of (ascii_trim nh) ++ str ".nar" |}) as Hv.
    { rewrite checked_values_Ok, pass1_reads. exists nh, ns, c.
      cbn [nar_hash nar_size_raw compression have_url have_filehash have_filesize].
      rewrite !bool_decide_eq_true. split_and!; done. }
    unfold to_raw. by rewrite Hv.
Qed.

(** ** A compressed narinfo, with a carriage return and an unknown field *)

Definition sample_narinfo : list byte :=
  str "StorePath: /nix/store/aaaa-x" ++ [newline] ++
  str "URL: nar/1abc.nar.xz" ++ [x0d; newline] ++
  str "Compression: xz" ++ [newline] ++
  str "FileHash: sha256:0000" ++ [newline] ++
  str "FileSize: 100" ++ [newline] ++
  str "NarHash: sha256:1b2c3d" ++ [x0d; newline] ++
  str "NarSize: 4096" ++ [newline] ++
  str "X-Extra: a:b" ++ [newline] ++
  str "Sig: k:ssss".

Definition sample_raw : RawRewrite :=
  {| rw_body :=
       str "StorePath: /nix/store/aaaa-x" ++ [newline] ++
       str "URL: nar/1b2c3d.nar" ++ [x0d; newline] ++
       str "Compression: none" ++ [newline] ++
       str "FileHash: sha256:1b2c3d" ++ [newline] ++
       str "FileSize: 4096" ++ [newline] ++
       str "NarHash: sha256:1b2c3d" ++ [x0d; newline] ++
       str "NarSize: 4096" ++ [newline] ++
       str "X-Extra: a:b" ++ [newline] ++
       str "Sig: k:ssss";
     rw_url_token := str "1b2c3d.nar";
     rw_nar_hash := str "sha256:1b2c3d";
     rw_nar_size := 4096 |}.

Lemma sample_to_raw : to_raw sample_narinfo = Ok sample_raw.
Proof. vm_compute. reflexivity. Qed.

Lemma rewrite_keeps_signed_witness :
  filter (fun seg => line_key seg = Some (str "NarHash")) (split_inclusive_nl (rw_body sample_raw)) =
  filter (fun seg => line_key seg = Some (str "NarHash")) (split_inclusive_nl sample_narinfo).
Proof.
  apply (proj2 (proj2 (rewrite_keeps_signed sample_narinfo sample_raw sample_to_raw))).
  apply (bool_decide_unpack _). vm_compute. exact I.
Defined.

Lemma rewrite_consistent_witness : to_raw (rw_body sample_raw) = Ok sample_raw.
Proof.
  exact (proj2 (proj2 (proj2 (proj2 (rewrite_consistent sample_narinfo sample_raw sample_to_raw))))).
Defined.
