(* ===== verification/Catalog.v ===== *)
(** * Narinfo correlation: daemon-core/src/catalog.rs and the value types of source.rs

    [parse_correlation] reads the fields a NAR request is later dispatched by;
    [NarCatalog] remembers them per URL token.  The lemmas relate the reader to
    the narinfo rewriter of Rewrite.v: reading a rewritten narinfo gives the
    token, hash and size the rewrite reports. *)

From Stdlib Require Import Strings.Byte ZArith Lia.
From stdpp Require Import base sets gmap numbers strings list.
From S2P Require Import Prelude Text Utf8 Rewrite.

(** ** Value types (source.rs) *)

(** The newtypes over `String`. *)
Definition StoreHash : Type := list byte.
Definition NarHash : Type := list byte.
Definition NarPathToken : Type := list byte.

Inductive NarCompression := Raw | Compressed | Unknown.
#[export] Instance NarCompression_eq_dec : EqDecision NarCompression.
Proof. solve_decision. Defined.
Definition NarCompression_default : NarCompression := Unknown.

Record NarinfoTransport := { transport_compression : NarCompression }.
#[export] Instance NarinfoTransport_eq_dec : EqDecision NarinfoTransport.
Proof. solve_decision. Defined.

Inductive NarKey :=
| SignedNarHash (hash : NarHash) (upstream_hint : NarPathToken) (transport : NarinfoTransport)
| UpstreamPath (token : NarPathToken).

(** ** The catalog *)

Record NarMeta := {
  meta_nar_hash : NarHash;
  meta_nar_size : Z;
  meta_transport : NarinfoTransport;
  meta_store_path : option (list byte)
}.

Record NarCatalog := { by_token : gmap NarPathToken NarMeta }.
Definition NarCatalog_new : NarCatalog := {| by_token := ∅ |}.

Definition record (c : NarCatalog) (token : NarPathToken) (nar_hash : NarHash) (nar_size : Z)
    (transport : NarinfoTransport) (store_path : option (list byte)) : NarCatalog :=
  {| by_token := <[token := {| meta_nar_hash := nar_hash; meta_nar_size := nar_size;
                               meta_transport := transport; meta_store_path := store_path |}]> (by_token c) |}.

Definition meta_for_token (c : NarCatalog) (token : list byte) : option NarMeta := by_token c !! token.

(** The trait catalog::CorrelationStore: the persisted answer for a token. *)
Class CorrelationStore (T : Type) := persisted_meta : T -> list byte -> option NarMeta.
Inductive NullCorrelation := NullCorrelation_.
#[export] Instance NullCorrelation_store : CorrelationStore NullCorrelation := fun _ _ => None.

Record Correlation := {
  c_token : NarPathToken;
  c_nar_hash : NarHash;
  c_nar_size : Z;
  c_transport : NarinfoTransport;
  c_store_path : option (list byte)
}.

(** The locals of [parse_correlation]. *)
Record CorrState := {
  s_url : option (list byte);
  s_nar_hash : option (list byte);
  s_nar_size : option (list byte);
  s_compression : option (list byte);
  s_compression_dup : bool;
  s_store_path : option (list byte);
  s_store_path_dup : bool
}.
Definition corr_start : CorrState := Build_CorrState None None None None false None false.

(** One line; [None] is the early `return None` on a duplicated signed field. *)
Definition corr_line (st : CorrState) (line : list byte) : option CorrState :=
  let '(Build_CorrState url nh ns comp cdup sp sdup) := st in
  match strip_prefix (str "StorePath:") line with
  | Some value =>
      match sp with
      | Some _ => Some (Build_CorrState url nh ns comp cdup sp true)
      | None => Some (Build_CorrState url nh ns comp cdup (Some (Utf8.trim value)) sdup)
      end
  | None =>
  match strip_prefix (str "URL:") line with
  | Some value =>
      match url with
      | Some _ => None
      | None => Some (Build_CorrState (Some (Utf8.trim value)) nh ns comp cdup sp sdup)
      end
  | None =>
  match strip_prefix (str "NarHash:") line with
  | Some value =>
      match nh with
      | Some _ => None
      | None => Some (Build_CorrState url (Some (Utf8.trim value)) ns comp cdup sp sdup)
      end
  | None =>
  match strip_prefix (str "NarSize:") line with
  | Some value =>
      match ns with
      | Some _ => None
      | None => Some (Build_CorrState url nh (Some (Utf8.trim value)) comp cdup sp sdup)
      end
  | None =>
  match strip_prefix (str "Compression:") line with
  | Some value =>
      match comp with
      | Some _ => Some (Build_CorrState url nh ns comp true sp sdup)
      | None => Some (Build_CorrState url nh ns (Some (Utf8.trim value)) cdup sp sdup)
      end
  | None => Some st
  end end end end end.

Fixpoint corr_lines (st : CorrState) (lines : list (list byte)) : option CorrState :=
  match lines with
  | [] => Some st
  | l :: rest => st' ← corr_line st l; corr_lines st' rest
  end.

(** After the loop. *)
Definition corr_finish (st : CorrState) : option Correlation :=
  url ← s_url st;
  nar_hash ← s_nar_hash st;
  size_str ← s_nar_size st;
  nar_size ← parse_u64 size_str;
  let token := default url (strip_prefix (str "nar/") url) in
  let compression :=
    if s_compression_dup st then Unknown
    else match s_compression st with
         | Some c => if decide (c = str "none") then Raw else Compressed
         | None => Unknown
         end in
  let store_path := if s_store_path_dup st then None else s_store_path st in
  Some {| c_token := token; c_nar_hash := nar_hash; c_nar_size := nar_size;
          c_transport := {| transport_compression := compression |}; c_store_path := store_path |}.

Definition parse_correlation (body : list byte) : option Correlation :=
  st ← corr_lines corr_start (lines (Utf8.from_utf8_lossy body));
  corr_finish st.

(** ** Reading fields *)

Lemma literal_ascii s : forallb (fun b => bool_decide (Utf8.ascii b)) (str s) = true -> Forall Utf8.ascii (str s).
Proof.
  rewrite List.forallb_forall, Forall_forall. intros H b Hb%list_elem_of_In%H. by apply bool_decide_eq_true in Hb.
Qed.

(** The reader's prefix test on the decoded line is the field test on the bytes. *)
Lemma strip_key_lossy k line :
  Forall Utf8.ascii (k ++ [colon]) ->
  strip_prefix (k ++ [colon]) (Utf8.from_utf8_lossy line) = Utf8.from_utf8_lossy <$> field_value line k.
Proof.
  intros Hk. apply option_eq. intros r.
  rewrite Utf8.from_utf8_lossy_strip, fmap_Some by done.
  setoid_rewrite strip_prefix_Some. setoid_rewrite field_value_Some.
  setoid_rewrite <-app_assoc. setoid_rewrite <-(and_comm (r = _)). naive_solver.
Qed.

(** [corr_line] on a field. *)
Definition corr_field (st : CorrState) (k value : list byte) : option CorrState :=
  let '(Build_CorrState url nh ns comp cdup sp sdup) := st in
  if decide (k = str "StorePath") then
    match sp with
    | Some _ => Some (Build_CorrState url nh ns comp cdup sp true)
    | None => Some (Build_CorrState url nh ns comp cdup (Some value) sdup)
    end
  else if decide (k = str "URL") then
    match url with Some _ => None | None => Some (Build_CorrState (Some value) nh ns comp cdup sp sdup) end
  else if decide (k = str "NarHash") then
    match nh with Some _ => None | None => Some (Build_CorrState url (Some value) ns comp cdup sp sdup) end
  else if decide (k = str "NarSize") then
    match ns with Some _ => None | None => Some (Build_CorrState url nh (Some value) comp cdup sp sdup) end
  else if decide (k = str "Compression") then
    match comp with
    | Some _ => Some (Build_CorrState url nh ns comp true sp sdup)
    | None => Some (Build_CorrState url nh ns (Some value) cdup sp sdup)
    end
  else Some st.

Lemma reader_no_colon k :
  k ∈ [str "StorePath"; str "URL"; str "NarHash"; str "NarSize"; str "Compression"] -> colon ∉ k.
Proof.
  intros Hk. apply (bool_decide_unpack _). revert k Hk. apply Forall_forall.
  repeat constructor; vm_compute; done.
Qed.

Lemma strip_literals line :
  let get k := Utf8.from_utf8_lossy <$> field_value line (str k) in
  strip_prefix (str "StorePath:") (Utf8.from_utf8_lossy line) = get "StorePath" /\
  strip_prefix (str "URL:") (Utf8.from_utf8_lossy line) = get "URL" /\
  strip_prefix (str "NarHash:") (Utf8.from_utf8_lossy line) = get "NarHash" /\
  strip_prefix (str "NarSize:") (Utf8.from_utf8_lossy line) = get "NarSize" /\
  strip_prefix (str "Compression:") (Utf8.from_utf8_lossy line) = get "Compression".
Proof.
  cbn zeta.
  assert (forall k l, str l = str k ++ [colon] -> Forall Utf8.ascii (str l) ->
    strip_prefix (str l) (Utf8.from_utf8_lossy line) = Utf8.from_utf8_lossy <$> field_value line (str k)) as H.
  { intros k l -> Hl. by apply strip_key_lossy. }
  split_and!; (apply H; [done|apply literal_ascii; by vm_compute]).
Qed.

Lemma corr_line_field st k w :
  colon ∉ k ->
  corr_line st (Utf8.from_utf8_lossy (k ++ colon :: w)) = corr_field st k (Utf8.trim (Utf8.from_utf8_lossy w)).
Proof.
  intros Hk. unfold corr_line, corr_field. destruct st.
  destruct (strip_literals (k ++ colon :: w)) as (-> & -> & -> & -> & ->).
  rewrite !field_value_split by (done || apply reader_no_colon; rewrite !elem_of_cons; tauto).
  repeat (case_decide; [by cbn|]; cbn [fmap option_fmap option_map]). done.
Qed.

Lemma corr_line_none st line : colon ∉ line -> corr_line st (Utf8.from_utf8_lossy line) = Some st.
Proof.
  intros Hl. unfold corr_line. destruct st.
  destruct (strip_literals line) as (-> & -> & -> & -> & ->). by rewrite !field_value_none.
Qed.

(** A trailing carriage return does not change what a line says. *)
Lemma strip_prefix_snoc p l b :
  b ∉ p -> strip_prefix p (l ++ [b]) = (fun r => r ++ [b]) <$> strip_prefix p l.
Proof.
  revert l. induction p as [|x p IH]; intros l; [by destruct l|].
  intros [Hx Hp]%not_elem_of_cons. destruct l as [|y l]; simpl.
  - by rewrite decide_False.
  - case_decide; [by apply IH|done].
Qed.

Lemma corr_line_cr st l : corr_line st (l ++ [x0d]) = corr_line st l.
Proof.
  unfold corr_line. destruct st. rewrite !strip_prefix_snoc by no_byte.
  assert (forall v, Utf8.trim (v ++ [x0d]) = Utf8.trim v) as Ht by (intros; by apply Utf8.trim_ws_r).
  repeat match goal with |- context [strip_prefix ?p l] =>
    destruct (strip_prefix p l); cbn [fmap option_fmap option_map]; rewrite ?Ht; [done|] end.
  done.
Qed.

(** ** The reader, segment by segment *)

Definition seg_text (seg : list byte) : list byte := Utf8.from_utf8_lossy (split_terminator seg).1.

Lemma seg_text_view seg line term : seg_view seg line term -> seg_text seg = Utf8.from_utf8_lossy line.
Proof. intros Hv. unfold seg_text. by rewrite (split_terminator_view _ _ _ Hv). Qed.

Lemma corr_line_seg st seg line term :
  seg_view seg line term -> corr_line st (line_of (Utf8.from_utf8_lossy seg)) = corr_line st (Utf8.from_utf8_lossy line).
Proof.
  intros (-> & Hnl & Ht).
  assert (Utf8.ascii x0a) as Ha by (vm_compute; done). assert (Utf8.ascii x0d) as Hd by (vm_compute; done).
  assert (x0a ∉ Utf8.from_utf8_lossy line) as Hno by by apply Utf8.lossy_from_elem.
  unfold line_of. destruct Ht as [->|[[-> _]|[-> _]]].
  - rewrite Utf8.from_utf8_lossy_ascii by done.
    change (x0d :: Utf8.from_utf8_lossy [x0a]) with ([x0d] ++ [x0a]).
    by rewrite app_assoc, !strip_last_snoc.
  - rewrite Utf8.from_utf8_lossy_ascii by done. change (Utf8.from_utf8_lossy []) with (@nil byte).
    rewrite strip_last_snoc. unfold strip_last.
    destruct (reverse (Utf8.from_utf8_lossy line)) as [|x r] eqn:E; [done|].
    case_decide; [subst|done]. apply (f_equal reverse) in E. rewrite reverse_involutive, reverse_cons in E.
    by rewrite E, corr_line_cr.
  - by rewrite app_nil_r, strip_last_no.
Qed.

Lemma parse_correlation_segments body :
  parse_correlation body = corr_lines corr_start (seg_text <$> split_inclusive_nl body) ≫= corr_finish.
Proof.
  unfold parse_correlation, lines. destruct (split_inclusive_segments body) as [Hss Hcat].
  rewrite <-Hcat at 1. rewrite Utf8.lossy_segments by done. clear Hcat. f_equal.
  apply segments_Forall in Hss. generalize corr_start. induction Hss as [|seg ss Hseg _ IH]; intros st; [done|].
  cbn [fmap list_fmap corr_lines]. destruct (segment_view seg Hseg) as (line & term & Hv).
  rewrite (corr_line_seg _ _ _ _ Hv). rewrite (seg_text_view _ _ _ Hv).
  destruct (corr_line st (Utf8.from_utf8_lossy line)); [apply IH|done].
Qed.

Lemma lossy_cr l term : Utf8.from_utf8_lossy (l ++ cr term) = Utf8.from_utf8_lossy l ++ cr term.
Proof.
  unfold cr. case_decide; [|by rewrite !app_nil_r].
  rewrite Utf8.from_utf8_lossy_ascii by (vm_compute; done). done.
Qed.

Lemma corr_line_chomp st seg line term :
  seg_view seg line term ->
  corr_line st (Utf8.from_utf8_lossy (chomp seg)) = corr_line st (Utf8.from_utf8_lossy line).
Proof.
  intros Hv. rewrite (chomp_view _ _ _ Hv), lossy_cr. unfold cr. case_decide; [apply corr_line_cr|].
  by rewrite app_nil_r.
Qed.

(** ** Reading a rewritten narinfo *)

(** The reader's state on the rewritten lines, from its state on the original. *)
Definition raw_state (v : Values) (st : CorrState) : CorrState :=
  {| s_url := (fun _ => str "nar/" ++ v_url_token v) <$> s_url st;
     s_nar_hash := s_nar_hash st;
     s_nar_size := s_nar_size st;
     s_compression := (fun _ => str "none") <$> s_compression st;
     s_compression_dup := s_compression_dup st;
     s_store_path := s_store_path st;
     s_store_path_dup := s_store_path_dup st |}.

Lemma digest_utf8 h : Utf8.from_utf8_ok h = true -> Utf8.from_utf8_ok (digest_of h) = true.
Proof.
  intros H. unfold digest_of. destruct (position _ h) as [i|] eqn:E; [|done].
  apply position_Some in E as (a & b & c & -> & <- & Hb%bool_decide_eq_true & _). subst b.
  rewrite Utf8.from_utf8_ok_ascii in H by (vm_compute; done). apply andb_true_iff in H as [_ H].
  rewrite drop_app_ge by lia. replace (length a + 1 - length a) with 1 by lia. simpl. by rewrite drop_0.
Qed.

Lemma url_value_text v :
  clean v -> Utf8.trim (Utf8.from_utf8_lossy (str " nar/" ++ v_url_token v)) = str "nar/" ++ v_url_token v.
Proof.
  intros Hc. rewrite (clean_token _ Hc). set (d := digest_of _).
  assert (Utf8.from_utf8_ok d = true) as Hd by (apply digest_utf8, Hc).
  rewrite Utf8.from_utf8_lossy_valid.
  - change (str " nar/" ++ d ++ str ".nar") with (x20 :: x6e :: (str "ar/" ++ d ++ str ".na" ++ [x72])).
    rewrite Utf8.trim_ws_l by done. rewrite (app_assoc d), (app_assoc (str "ar/")).
    rewrite Utf8.trim_visible; [|done..]. by rewrite <-!app_assoc.
  - rewrite Utf8.from_utf8_ok_ascii_prefix by (apply literal_ascii; by vm_compute).
    change (str ".nar") with ([x2e] ++ str "nar"). cbn [app].
    rewrite Utf8.from_utf8_ok_ascii by (vm_compute; done). by rewrite Hd.
Qed.

Lemma corr_line_new v st line :
  clean v ->
  corr_line (raw_state v st) (Utf8.from_utf8_lossy (new_line v line)) =
  raw_state v <$> corr_line st (Utf8.from_utf8_lossy line).
Proof.
  intros Hc. destruct (line_cases line) as [Hl|(k & w & -> & Hk)].
  { unfold new_line. rewrite (proj2 (field_key_None _)) by done. cbn [mbind option_bind from_option id].
    by rewrite !corr_line_none. }
  unfold new_line. rewrite (proj2 (field_key_Some _ k)) by eauto. cbn [mbind option_bind].
  rewrite (corr_line_field st) by done.
  destruct (raw_line v k) as [l|] eqn:Hl; cbn [from_option id].
  - destruct (raw_line_keys _ _ _ Hl) as [[-> ->]|[[-> ->]|[[-> ->]|[-> ->]]]].
    all: rewrite corr_line_field by (apply known_no_colon; rewrite !elem_of_cons; tauto).
    + rewrite url_value_text by done. destruct st as [[] ??????]; done.
    + destruct st as [??? [] ???]; done.
    + destruct st; done.
    + destruct st; done.
  - rewrite corr_line_field by done.
    assert (k <> str "URL" /\ k <> str "Compression") as [Hu Hcp].
    { split; intros ->; discriminate. }
    unfold corr_field, raw_state. destruct st as [url [] [] comp cdup [] sdup]; cbn -[str].
    all: repeat (case_decide; try done).
Qed.

Lemma corr_lines_new v st lines :
  clean v ->
  corr_lines (raw_state v st) (Utf8.from_utf8_lossy ∘ new_line v <$> lines) =
  raw_state v <$> corr_lines st (Utf8.from_utf8_lossy <$> lines).
Proof.
  intros Hc. revert st. induction lines as [|l lines IH]; intros st; [done|].
  cbn [fmap list_fmap corr_lines]. cbn [compose]. rewrite corr_line_new by done.
  destruct (corr_line st (Utf8.from_utf8_lossy l)); [apply IH|done].
Qed.

(** The correlation of the rewritten narinfo, from that of the original. *)
Definition raw_correlation (rw : RawRewrite) (c : Correlation) : Correlation :=
  {| c_token := rw_url_token rw;
     c_nar_hash := c_nar_hash c;
     c_nar_size := c_nar_size c;
     c_transport := {| transport_compression :=
       match transport_compression (c_transport c) with Unknown => Unknown | _ => Raw end |};
     c_store_path := c_store_path c |}.

Lemma corr_finish_raw v st :
  corr_finish (raw_state v st) =
  (fun c => {| c_token := v_url_token v; c_nar_hash := c_nar_hash c; c_nar_size := c_nar_size c;
     c_transport := {| transport_compression :=
       match transport_compression (c_transport c) with Unknown => Unknown | _ => Raw end |};
     c_store_path := c_store_path c |}) <$> corr_finish st.
Proof.
  unfold corr_finish, raw_state. destruct st as [[url|] [nh|] [ns|] comp cdup sp sdup]; try done.
  cbn -[parse_u64 str strip_prefix]. destruct (parse_u64 ns); [|done]. cbn -[str strip_prefix].
  rewrite strip_prefix_app. cbn. destruct cdup; [done|]. destruct comp; [|done]. cbn.
  rewrite decide_True by done. by case_decide.
Qed.

Lemma parse_correlation_rewritten body rw :
  to_raw body = Ok rw -> parse_correlation (rw_body rw) = raw_correlation rw <$> parse_correlation body.
Proof.
  intros (v & Hc & Htok & _ & _ & Hsegs & Hviews)%to_raw_segments.
  rewrite !parse_correlation_segments, Hsegs.
  assert (seg_text <$> (pass2_seg v <$> split_inclusive_nl body) =
          Utf8.from_utf8_lossy ∘ new_line v <$> (fst ∘ split_terminator <$> split_inclusive_nl body)) as ->.
  { rewrite <-!list_fmap_compose. apply list_fmap_ext. intros i seg Hi. cbn [compose].
    rewrite Forall_lookup in Hviews. destruct (Hviews i seg Hi) as (line & term & Hv).
    by rewrite (seg_text_view _ _ _ (new_line_view v _ _ _ Hc Hv)), (split_terminator_view _ _ _ Hv). }
  change corr_start with (raw_state v corr_start) at 1. rewrite corr_lines_new by done.
  assert (Utf8.from_utf8_lossy <$> (fst ∘ split_terminator <$> split_inclusive_nl body) =
          seg_text <$> split_inclusive_nl body) as -> by by rewrite <-list_fmap_compose.
  destruct (corr_lines corr_start _) as [st|]; [|done]. cbn [fmap option_fmap option_map mbind option_bind].
  rewrite corr_finish_raw. unfold raw_correlation. by rewrite Htok.
Qed.

(** ** The reader and the rewriter read the same hash and size *)

Lemma corr_lines_snoc st ls l :
  corr_lines st (ls ++ [l]) = corr_lines st ls ≫= (fun st' => corr_line st' l).
Proof.
  revert st. induction ls as [|x ls IH]; intros st; cbn.
  - by destruct (corr_line st l).
  - destruct (corr_line st x); [apply IH|done].
Qed.

Lemma corr_line_reads st line st' :
  corr_line st (Utf8.from_utf8_lossy line) = Some st' ->
  let get k old := match field_value line k with Some w => Some (Utf8.trim (Utf8.from_utf8_lossy w)) | None => old end in
  s_nar_hash st' = get (str "NarHash") (s_nar_hash st) /\ s_nar_size st' = get (str "NarSize") (s_nar_size st).
Proof.
  intros H. cbn zeta. destruct (line_cases line) as [Hl|(k & w & -> & Hk)].
  - rewrite corr_line_none in H by done. injection H as <-. by rewrite !field_value_none.
  - rewrite corr_line_field in H by done.
    rewrite !field_value_split by (done || no_colon). revert H.
    unfold corr_field. destruct st as [url nh ns comp cdup sp sdup].
    repeat (case_decide; [subst; repeat case_match; intros; simplify_eq; done|]). by intros [= <-].
Qed.

Lemma corr_lines_reads ls st :
  corr_lines corr_start (Utf8.from_utf8_lossy <$> ls) = Some st ->
  s_nar_hash st = (fun w => Utf8.trim (Utf8.from_utf8_lossy w)) <$> last (values_of (str "NarHash") ls) /\
  s_nar_size st = (fun w => Utf8.trim (Utf8.from_utf8_lossy w)) <$> last (values_of (str "NarSize") ls).
Proof.
  revert st. induction ls as [|l ls IH] using rev_ind; intros st; [by intros [= <-]|].
  rewrite fmap_app. cbn [fmap list_fmap]. rewrite corr_lines_snoc. intros (st0 & H0 & H)%bind_Some.
  destruct (IH _ H0) as [IH1 IH2]. apply corr_line_reads in H as [H1 H2].
  rewrite H1, H2, IH1, IH2, !last_snoc_value.
  by destruct (field_value l (str "NarHash")), (field_value l (str "NarSize")).
Qed.

Lemma parse_correlation_reads body c :
  parse_correlation body = Some c ->
  exists nh ns, last_value (str "NarHash") body = Some nh /\ last_value (str "NarSize") body = Some ns /\
    c_nar_hash c = Utf8.trim (Utf8.from_utf8_lossy nh) /\
    parse_u64 (Utf8.trim (Utf8.from_utf8_lossy ns)) = Some (c_nar_size c).
Proof.
  rewrite parse_correlation_segments. intros (st & Hst & Hfin)%bind_Some.
  destruct (split_inclusive_segments body) as [Hss Hcat].
  assert (corr_lines corr_start (Utf8.from_utf8_lossy <$> (chomp <$> split_inclusive_nl body)) = Some st) as Hst'.
  { rewrite <-Hst. pose proof (segments_Forall _ Hss) as Hall. clear -Hall. generalize corr_start.
    induction Hall as [|seg ss Hseg _ IH]; intros st; [done|]. cbn [fmap list_fmap corr_lines].
    destruct (segment_view seg Hseg) as (line & term & Hv).
    rewrite (corr_line_chomp _ _ _ _ Hv), (seg_text_view _ _ _ Hv).
    destruct (corr_line st (Utf8.from_utf8_lossy line)); [apply IH|done]. }
  apply corr_lines_reads in Hst' as [Hnh Hns].
  rewrite <-!last_value_segments, Hcat in Hnh, Hns by done. clear Hst Hss Hcat.
  unfold corr_finish in Hfin.
  apply bind_Some in Hfin as (url & _ & Hfin). apply bind_Some in Hfin as (h & Hh & Hfin).
  apply bind_Some in Hfin as (n & Hn & Hfin). apply bind_Some in Hfin as (size & Hsize & [= <-]).
  rewrite Hnh in Hh. rewrite Hns in Hn.
  apply fmap_Some in Hh as (nh & -> & ->). apply fmap_Some in Hn as (ns & -> & ->).
  by exists nh, ns.
Qed.

(** White space around a well-formed value does not survive the reader. *)
Lemma trim_lossy_ascii_trim w :
  Utf8.from_utf8_ok (ascii_trim w) = true ->
  Utf8.trim (Utf8.from_utf8_lossy w) = Utf8.trim (ascii_trim w).
Proof.
  assert (forall l, Forall ws l -> Forall Utf8.ascii l) as Hasc.
  { intros l H. eapply Forall_impl; [exact H|]. apply Utf8.ascii_whitespace_ascii. }
  assert (forall l s, Forall ws l -> Utf8.trim (l ++ s) = Utf8.trim s) as Hl.
  { intros l s. induction 1 as [|b l Hb _ IH]; [done|]. simpl. by rewrite Utf8.trim_ws_l. }
  assert (forall r s, Forall ws r -> Utf8.trim (s ++ r) = Utf8.trim s) as Hr.
  { intros r s H. revert s. induction H as [|b r Hb _ IH]; intros s; [by rewrite app_nil_r|].
    change (b :: r) with ([b] ++ r). rewrite app_assoc, IH. by apply Utf8.trim_ws_r. }
  intros Hok. destruct (ascii_trim_cases w) as [[Hw Heq]|(l & r & Hw & Hwl & Hwr & _)].
  - rewrite Heq. rewrite <-(app_nil_r w), Utf8.from_utf8_lossy_ascii_prefix by auto.
    rewrite Hl by done. done.
  - rewrite Hw at 1. rewrite Utf8.from_utf8_lossy_ascii_prefix by auto. rewrite Hl by done.
    assert (Utf8.from_utf8_lossy (ascii_trim w ++ r) = ascii_trim w ++ r) as ->; [|by apply Hr].
    apply Utf8.from_utf8_lossy_valid. clear -Hok Hwr Hasc.
    apply Hasc in Hwr. generalize dependent (ascii_trim w). induction Hwr as [|b r Hb _ IH]; intros m Hm.
    + by rewrite app_nil_r.
    + rewrite Utf8.from_utf8_ok_ascii, Hm by done. rewrite <-(app_nil_l r). by apply IH.
Qed.

Lemma trim_number m n : parse_u64 m = Some n -> Utf8.trim m = m.
Proof.
  assert (forall b d, digit_val b = Some d -> Utf8.visible b) as Hvis.
  { intros b d. unfold digit_val, Utf8.visible. destruct (_ && _) eqn:E; [|done].
    apply andb_true_iff in E as [?%Z.leb_le ?%Z.leb_le]. intros _. lia. }
  intros H. assert (m <> [] /\ Forall Utf8.visible m) as [Hne Hall].
  { assert (forall s a n, parse_digits a s = Some n -> Forall Utf8.visible s) as Hd.
    { clear H. induction s as [|b s IH]; intros a k; simpl; [by constructor|].
      destruct (digit_val b) as [d|] eqn:E; [|done]. cbn.
      destruct (_ <=? _)%Z; [|done]. intros ?%IH. constructor; [by eapply Hvis|done]. }
    unfold parse_u64 in H. destruct (strip_prefix [x2b] m) as [r|] eqn:E.
    - apply strip_prefix_Some in E as ->. destruct r; [done|]. apply Hd in H.
      split; [done|]. constructor; [by vm_compute|done].
    - destruct m; [done|]. by apply Hd in H. }
  destruct m as [|b m]; [done|]. apply Forall_cons in Hall as [Hb Hm].
  destruct m as [|c m _] using rev_ind; [by apply Utf8.trim_one|].
  apply Utf8.trim_visible; [done|]. apply Forall_app in Hm as [_ Hm]. by rewrite Forall_singleton in Hm.
Qed.

Lemma correlation_agrees body c rw :
  parse_correlation body = Some c -> to_raw body = Ok rw ->
  c_nar_hash c = Utf8.trim (rw_nar_hash rw) /\ c_nar_size c = rw_nar_size rw.
Proof.
  intros (nh & ns & Hnh & Hns & -> & Hsize)%parse_correlation_reads.
  intros (v & Hv & _ & ->)%to_raw_Ok. rewrite checked_values_Ok, pass1_reads in Hv.
  destruct Hv as (nh' & ns' & c' & Hnh' & Hns' & _ & _ & _ & Hutf & Hp & _ & Hvh & _). cbn in *.
  rewrite Hnh in Hnh'. rewrite Hns in Hns'. simplify_eq. rewrite Hvh.
  split; [by apply trim_lossy_ascii_trim|].
  rewrite trim_lossy_ascii_trim, (trim_number _ _ Hp) in Hsize by by eapply parse_u64_ascii. congruence.
Qed.
