(* ===== verification/PublicProof.v ===== *)
(** * Proving a NAR public: the verifying half of daemon-core/src/public_allowlist.rs

    A narinfo proves a NAR public when one of its signatures, by a key the
    operator configured, verifies over Nix's fingerprint of its fields.
    [prove_public] follows the source check by check.  base64 and ed25519 are
    parameters: the first is whatever decoder the crate is, the second the class
    [Ed25519]. *)

From Stdlib Require Import Strings.Byte ZArith Lia.
From stdpp Require Import base sets gmap numbers strings sorting list.
From S2P Require Import Prelude Text Utf8 Rewrite NixBase32 Ids.

(** ** String helpers of the standard library *)

(** `s.rsplit_once(c)` *)
Definition rsplit_once (c : byte) (s : list byte) : option (list byte * list byte) :=
  i ← position (fun b => bool_decide (b = c)) (reverse s);
  Some (take (length s - 1 - i) s, drop (length s - i) s).

(** `s.split_whitespace()`: every round consumes a byte, so the length is
    enough fuel. *)
Fixpoint split_ws_fuel (fuel : nat) (cur s : list byte) : list (list byte) :=
  let emit rest := match cur with [] => rest | _ => cur :: rest end in
  match fuel, s with
  | S f, b :: r =>
      match strip_any white_space s with
      | Some r' => emit (split_ws_fuel f [] r')
      | None => split_ws_fuel f (cur ++ [b]) r
      end
  | _, _ => emit []
  end.
Definition split_whitespace (s : list byte) : list (list byte) := split_ws_fuel (length s) [] s.

(** `v.join(sep)` *)
Fixpoint join (sep : list byte) (l : list (list byte)) : list byte :=
  match l with [] => [] | [x] => x | x :: r => x ++ sep ++ join sep r end.

(** `Vec<String>::sort`: strings compare by their bytes. *)
Definition str_le (a b : list byte) : Prop := bytes_leb a b = true.
#[export] Instance str_le_dec : RelDecision str_le.
Proof. intros a b. unfold str_le. apply _. Defined.
#[export] Instance str_le_trans : Transitive str_le.
Proof.
  intros a b c. unfold str_le, bytes_leb. rewrite !negb_true_iff. intros Hab Hbc.
  destruct (bytes_ltb c a) eqn:E; [exfalso|done].
  destruct (bytes_ltb_total a b) as [H|[->|H]]; [|congruence|congruence].
  pose proof (bytes_ltb_trans _ _ _ E H). congruence.
Qed.
#[export] Instance str_le_antisymm : AntiSymm (=) str_le.
Proof.
  intros a b. unfold str_le, bytes_leb. rewrite !negb_true_iff. intros Hab Hba.
  destruct (bytes_ltb_total a b) as [H|[H|H]]; congruence.
Qed.
#[export] Instance str_le_total : Total str_le.
Proof.
  intros a b. unfold str_le, bytes_leb. rewrite !negb_true_iff.
  destruct (bytes_ltb b a) eqn:E; [right|by left]. by apply bytes_ltb_asym.
Qed.
Definition sort_strings (l : list (list byte)) : list (list byte) := merge_sort str_le l.

(** ** Trusted keys *)

Section public_proof.
Context `{Ed25519}.
(** `general_purpose::STANDARD.decode(s)`; an error is its message. *)
Context (base64_decode : list byte -> result (list byte) (list byte)).

(** A `VerifyingKey` is the 32 bytes `from_bytes` accepted. *)
Record TrustedNarKeys := { trusted_keys : gmap (list byte) (array 32) }.
Definition TrustedNarKeys_empty : TrustedNarKeys := {| trusted_keys := ∅ |}.

(** The message texts are not modelled beyond the line or key they name. *)
Inductive TrustedKeyError :=
| Malformed (line : list byte)
| BadKey (name : list byte).

Definition insert_line (ks : TrustedNarKeys) (line : list byte) : result TrustedKeyError TrustedNarKeys :=
  '(name, b64) ← ok_or (split_once colon line) (Malformed line);
  _ ← reject_if (bool_decide (name = [])) (Malformed line);
  raw ← map_err (fun _ => BadKey name) (base64_decode (Utf8.trim b64));
  bytes ← ok_or (try_into 32 raw) (BadKey name);
  _ ← reject_if (negb (vk_from_bytes bytes)) (BadKey name);
  Ok {| trusted_keys := <[name := bytes]> (trusted_keys ks) |}.

Fixpoint from_lines_loop (ks : TrustedNarKeys) (lines : list (list byte)) : result TrustedKeyError TrustedNarKeys :=
  match lines with
  | [] => Ok ks
  | l :: rest => ks' ← insert_line ks l; from_lines_loop ks' rest
  end.
Definition from_lines (lines : list (list byte)) : result TrustedKeyError TrustedNarKeys :=
  from_lines_loop TrustedNarKeys_empty lines.

Definition trusted_get (ks : TrustedNarKeys) (name : list byte) : option (array 32) := trusted_keys ks !! name.

(** ** The proof *)

Record VerifiedPublicNar := {
  vp_nar_hash : NarHashKey;
  vp_nar_size : Z;
  vp_store_hash : list byte
}.

Inductive PublicProofReject :=
| PMissingField (name : list byte)
| PDuplicateField (name : list byte)
| PMissingFinalNewline
| PZeroNarSize
| PMalformedNarHash (v : list byte)
| PMalformedNarSize (v : list byte)
| PMalformedSig (v : list byte)
| PUntrustedKey (name : list byte)
| PBadSignature.

Definition slash : byte := x2f.
Definition dash : byte := x2d.

Definition store_hash_of (store_path : list byte) : list byte :=
  let basename := default store_path (last (split_on slash store_path)) in
  match split_once dash basename with
  | Some (hash, _) => hash
  | None => basename
  end.

(** The loop of `field`: [Err tt] is a second occurrence. *)
Fixpoint field_loop (lines : list (list byte)) (key : list byte) (found : option (list byte)) :
    result unit (option (list byte)) :=
  match lines with
  | [] => Ok found
  | line :: rest =>
      match strip_prefix key line with
      | Some value => match found with
                      | Some _ => Err tt
                      | None => field_loop rest key (Some (Utf8.trim value))
                      end
      | None => field_loop rest key found
      end
  end.
Definition field (text key : list byte) : result unit (option (list byte)) := field_loop (lines text) key None.

Definition fingerprint (store_path nar_hash : list byte) (nar_size : Z) (references : list byte) : list byte :=
  let store_dir := match rsplit_once slash store_path with Some (dir, _) => dir | None => [] end in
  let refs := (fun r => store_dir ++ [slash] ++ r) <$>
                filter (fun r => r <> []) (split_whitespace references) in
  str "1;" ++ store_path ++ str ";" ++ nar_hash ++ str ";" ++ show_u64 nar_size ++ str ";" ++
    join (str ",") (sort_strings refs).

(** A field that must occur exactly once. *)
Definition required (text name : list byte) : result PublicProofReject (list byte) :=
  o ← map_err (fun _ => PDuplicateField name) (field text (name ++ [colon]));
  ok_or o (PMissingField name).

(** The loop over the Sig lines. *)
Fixpoint sig_loop (trusted : TrustedNarKeys) (fp : list byte) (v : VerifiedPublicNar)
    (saw_trusted_named : bool) (last_untrusted_name : list byte) (ls : list (list byte)) :
    result PublicProofReject VerifiedPublicNar :=
  match ls with
  | [] => if saw_trusted_named then Err PBadSignature else Err (PUntrustedKey last_untrusted_name)
  | line :: rest =>
      match strip_prefix (str "Sig:") line with
      | None => sig_loop trusted fp v saw_trusted_named last_untrusted_name rest
      | Some value =>
          let sig_value := Utf8.trim value in
          match split_once colon sig_value with
          | None => Err (PMalformedSig sig_value)
          | Some (name, b64) =>
              match trusted_get trusted name with
              | None => sig_loop trusted fp v saw_trusted_named name rest
              | Some verifying_key =>
                  raw ← map_err (fun e => PMalformedSig (name ++ str ": base64: " ++ e)) (base64_decode b64);
                  sig_bytes ← ok_or (try_into 64 raw)
                    (PMalformedSig (name ++ str ": expected 64 sig bytes, got " ++ show_u64 (Z.of_nat (length raw))));
                  if verify_strict verifying_key fp sig_bytes then Ok v
                  else sig_loop trusted fp v true last_untrusted_name rest
              end
          end
      end
  end.

(** [None] is a panic of the NarHash parser. *)
Definition prove_public (narinfo : list byte) (trusted : TrustedNarKeys) :
    option (result PublicProofReject VerifiedPublicNar) :=
  if negb (Utf8.from_utf8_ok narinfo) then Some (Err (PMissingField (str "StorePath")))
  else
    let text := narinfo in
    match (
      _ ← reject_if (negb (bool_decide (last narinfo = Some newline))) PMissingFinalNewline;
      store_path ← required text (str "StorePath");
      _ ← reject_if (bool_decide (store_path = [])) (PMissingField (str "StorePath"));
      url ← required text (str "URL");
      _ ← reject_if (bool_decide (url = [])) (PMissingField (str "URL"));
      nar_hash_str ← required text (str "NarHash");
      nar_size_str ← required text (str "NarSize");
      references ← required text (str "References");
      Ok (store_path, nar_hash_str, nar_size_str, references))
    with
    | Err e => Some (Err e)
    | Ok (store_path, nar_hash_str, nar_size_str, references) =>
        parsed ← NarHashKey_from_str nar_hash_str;
        Some (
          nar_hash ← map_err (fun _ => PMalformedNarHash nar_hash_str) parsed;
          nar_size ← ok_or (parse_u64 nar_size_str) (PMalformedNarSize nar_size_str);
          _ ← reject_if (nar_size =? 0)%Z PZeroNarSize;
          let fp := fingerprint store_path (NarHashKey_to_string nar_hash) nar_size references in
          let store_hash := store_hash_of store_path in
          sig_loop trusted fp {| vp_nar_hash := nar_hash; vp_nar_size := nar_size; vp_store_hash := store_hash |}
            false [] (lines text))
    end.

End public_proof.

(** ** Lemmas on the helpers *)

Lemma join_elem sep l b : b ∈ join sep l -> b ∈ sep \/ exists x, x ∈ l /\ b ∈ x.
Proof.
  induction l as [|x [|y l] IH]; cbn [join]; [by intros ?%not_elem_of_nil|set_solver|].
  rewrite !elem_of_app. intros [H|[H|H]]; [set_solver|set_solver|].
  destruct (IH H) as [?|(z & ? & ?)]; [by left|right]. exists z. set_solver.
Qed.

Lemma split_ws_elem fuel cur s x b : x ∈ split_ws_fuel fuel cur s -> b ∈ x -> b ∈ cur ++ s.
Proof.
  assert (forall cur s : list byte, x ∈ match cur with [] => [] | _ => [cur] end -> b ∈ x -> b ∈ cur ++ s) as Hemit.
  { intros [|c0 cur0] s'; [by intros ?%not_elem_of_nil|]. intros ->%list_elem_of_singleton Hb.
    rewrite elem_of_app. by left. }
  revert cur s. induction fuel as [|f IH]; intros cur s; cbn [split_ws_fuel].
  - apply Hemit.
  - destruct s as [|c s]; [apply Hemit|].
    destruct (strip_any white_space (c :: s)) as [r|] eqn:E.
    + assert (forall y, y ∈ r -> y ∈ c :: s) as Hsub.
      { clear -E. revert E. generalize (c :: s). intros t.
        induction white_space as [|w ws IH]; cbn; [done|].
        destruct (strip_prefix w t) as [r'|] eqn:E; [|done]. intros [= ->].
        apply strip_prefix_Some in E as ->. set_solver. }
      assert (x ∈ split_ws_fuel f [] r -> b ∈ x -> b ∈ cur ++ c :: s) as H1.
      { intros Hx Hb. specialize (IH _ _ Hx Hb). rewrite elem_of_app. right. by apply Hsub. }
      destruct cur; [done|]. rewrite elem_of_cons. intros [->|Hx] Hb; [|by apply H1].
      rewrite elem_of_app. by left.
    + intros Hx Hb. specialize (IH _ _ Hx Hb). by rewrite <-app_assoc in IH.
Qed.

Lemma rsplit_once_sub c s a z b : rsplit_once c s = Some (a, z) -> b ∈ a -> b ∈ s.
Proof.
  unfold rsplit_once. intros (i & _ & [= <- _])%bind_Some Hb.
  rewrite <-(take_drop (length s - 1 - i) s). set_solver.
Qed.

(** The bytes of a fingerprint's reference list come from its inputs. *)
Lemma refs_elem sp refs b dir :
  dir = match rsplit_once slash sp with Some (dir, _) => dir | None => [] end ->
  b ∈ join (str ",") (sort_strings ((fun r => dir ++ [slash] ++ r) <$>
        filter (fun r => r <> []) (split_whitespace refs))) ->
  b = x2c \/ b = slash \/ b ∈ sp \/ b ∈ refs.
Proof.
  intros Hdir [Hb|(x & Hx & Hb)]%join_elem.
  { apply list_elem_of_singleton in Hb. by left. }
  unfold sort_strings in Hx. rewrite (merge_sort_Permutation str_le) in Hx.
  apply list_elem_of_fmap in Hx as (r & -> & Hr). apply list_elem_of_filter in Hr as [_ Hr].
  rewrite !elem_of_app, list_elem_of_singleton in Hb. destruct Hb as [Hb|[->|Hb]]; [|tauto|].
  - subst dir. destruct (rsplit_once slash sp) as [[d z]|] eqn:E; [|by apply not_elem_of_nil in Hb].
    right. right. left. by eapply rsplit_once_sub.
  - right. right. right. by eapply split_ws_elem in Hr.
Qed.

(** ** Fingerprints commit to their fields *)

Definition semicolon : byte := x3b.
Definition count (c : byte) (s : list byte) : nat := length (filter (fun b => b = c) s).

Lemma count_app c s t : count c (s ++ t) = count c s + count c t.
Proof. unfold count. by rewrite filter_app, length_app. Qed.

Lemma count_zero c s : count c s = 0 <-> c ∉ s.
Proof.
  unfold count. split.
  - intros H Hc. assert (c ∈ filter (fun b => b = c) s) as Hin by by apply list_elem_of_filter.
    apply nil_length_inv in H. rewrite H in Hin. by apply not_elem_of_nil in Hin.
  - induction s as [|b s IH]; [done|]. intros [Hb Hs]%not_elem_of_cons.
    rewrite filter_cons_False by congruence. auto.
Qed.

Lemma split_sep_inj (c : byte) a a' x x' :
  c ∉ a -> c ∉ a' -> a ++ c :: x = a' ++ c :: x' -> a = a' /\ x = x'.
Proof.
  revert a'. induction a as [|b a IH]; intros [|b' a']; simpl; intros Ha Ha' H.
  - by injection H as ->.
  - injection H as -> _. apply not_elem_of_cons in Ha' as [? _]. done.
  - injection H as <- _. apply not_elem_of_cons in Ha as [? _]. done.
  - injection H as -> H. apply not_elem_of_cons in Ha as [_ Ha]. apply not_elem_of_cons in Ha' as [_ Ha'].
    destruct (IH a') as [-> ->]; done.
Qed.

Lemma key_no_semicolon k : semicolon ∉ NarHashKey_to_string k.
Proof. intros [H|H]%NarHashKey_to_string_chars; revert H; no_byte. Qed.

Lemma show_no_semicolon n : (0 <= n)%Z -> semicolon ∉ show_u64 n.
Proof.
  intros Hn H. apply show_u64_chars in H as [d Hd]; [|done]. vm_compute in Hd. done.
Qed.

(** If two fingerprints agree and one was built from fields without a
    semicolon, they were built from the same path, hash and size. *)
Lemma fingerprint_commits sp sp' k k' n n' refs refs' :
  fingerprint sp (NarHashKey_to_string k) n refs = fingerprint sp' (NarHashKey_to_string k') n' refs' ->
  u64_ok n -> u64_ok n' -> semicolon ∉ sp -> semicolon ∉ refs ->
  sp = sp' /\ k = k' /\ n = n'.
Proof.
  unfold fingerprint. intros Hfp Hn Hn' Hsp Hrefs.
  set (J := join _ (sort_strings _)) in Hfp at 1. set (J' := join _ (sort_strings _)) in Hfp.
  assert (semicolon ∉ J) as HJ.
  { intros H. eapply refs_elem in H; [|reflexivity]. by destruct H as [?|[?|[?|?]]]. }
  change (str ";") with [semicolon] in Hfp.
  apply app_inv_head in Hfp.
  pose proof (f_equal (count semicolon) Hfp) as Hc. rewrite !count_app in Hc.
  change (count semicolon [semicolon]) with 1 in Hc.
  rewrite (proj2 (count_zero semicolon sp)), (proj2 (count_zero semicolon J)) in Hc by done.
  rewrite !(proj2 (count_zero semicolon (NarHashKey_to_string _))) in Hc by apply key_no_semicolon.
  rewrite !(proj2 (count_zero semicolon (show_u64 _))) in Hc
    by (apply show_no_semicolon; unfold u64_ok in *; lia).
  assert (semicolon ∉ sp') as Hsp' by (apply count_zero; lia).
  apply split_sep_inj in Hfp as [-> Hfp]; [|done|done].
  apply split_sep_inj in Hfp as [Hk Hfp]; [|apply key_no_semicolon..].
  apply split_sep_inj in Hfp as [Hsize _];
    [|apply show_no_semicolon; unfold u64_ok in *; lia..].
  split; [done|]. split; [by apply NarHashKey_to_string_inj|].
  pose proof (parse_show_u64 n Hn). pose proof (parse_show_u64 n' Hn'). congruence.
Qed.

(** ** What a proof is *)

(** The field [name] occurs on exactly one line, with the trimmed value [v]. *)
Definition once (text name v : list byte) : Prop :=
  exists raw, omap (strip_prefix (name ++ [colon])) (lines text) = [raw] /\ v = Utf8.trim raw.

Lemma field_loop_found ls key x :
  field_loop ls key (Some x) = if decide (omap (strip_prefix key) ls = []) then Ok (Some x) else Err tt.
Proof.
  induction ls as [|l ls IH]; [done|]. cbn. destruct (strip_prefix key l); [done|]. apply IH.
Qed.

Lemma field_Some text name v :
  field text (name ++ [colon]) = Ok (Some v) <-> once text name v.
Proof.
  unfold field, once. generalize (name ++ [colon]) as key. intros key.
  induction (lines text) as [|l ls IH]; cbn; [split; [done|by intros (? & ? & _)]|].
  destruct (strip_prefix key l) as [raw|] eqn:E; [|exact IH].
  rewrite field_loop_found. case_decide as Hnil.
  - change (list_omap _ _ (strip_prefix key) ls) with (omap (strip_prefix key) ls). rewrite Hnil.
    split; [intros [= <-]; eauto|]. intros (r & [= ->] & ->). done.
  - split; [done|]. intros (r & [= _ H] & _). by rewrite H in Hnil.
Qed.

Lemma required_Ok text name v : required text name = Ok v <-> once text name v.
Proof.
  unfold required. rewrite <-field_Some. destruct (field text (name ++ [colon])) as [[w|]|]; cbn.
  all: split; intros H; try done; congruence.
Qed.

Section proofs.
Context `{Ed25519}.
Context (base64_decode : list byte -> result (list byte) (list byte)).
#[local] Abbreviation prove_public := (prove_public base64_decode).
#[local] Abbreviation sig_loop := (sig_loop base64_decode).

(** How a line that is a signature by a trusted key reads. *)
Definition trusted_sig (trusted : TrustedNarKeys) (line : list byte) (key : array 32) (sig : array 64) : Prop :=
  exists value name b64 raw,
    strip_prefix (str "Sig:") line = Some value /\ split_once colon (Utf8.trim value) = Some (name, b64) /\
    trusted_get trusted name = Some key /\ base64_decode b64 = Ok raw /\ try_into 64 raw = Some sig.

(** A line the loop passes over: not a signature, a signature by a key that is
    not trusted, or one that does not verify. *)
Definition passed_over (trusted : TrustedNarKeys) (fp line : list byte) : Prop :=
  match strip_prefix (str "Sig:") line with
  | None => True
  | Some value => exists name b64, split_once colon (Utf8.trim value) = Some (name, b64) /\
      (trusted_get trusted name = None \/
       exists key sig, trusted_sig trusted line key sig /\ verify_strict key fp sig = false)
  end.

Definition signed_by (trusted : TrustedNarKeys) (fp : list byte) (ls : list (list byte)) : Prop :=
  exists pre line post key sig, ls = pre ++ line :: post /\ Forall (passed_over trusted fp) pre /\
    trusted_sig trusted line key sig /\ verify_strict key fp sig = true.

Lemma sig_loop_Ok trusted fp v saw name ls w :
  sig_loop trusted fp v saw name ls = Ok w <-> w = v /\ signed_by trusted fp ls.
Proof.
  unfold signed_by. split.
  - revert saw name. induction ls as [|line ls IH]; intros saw name; cbn [PublicProof.sig_loop].
    { by destruct saw. }
    assert (forall saw name, passed_over trusted fp line -> sig_loop trusted fp v saw name ls = Ok w ->
      w = v /\ exists pre l post key sig, line :: ls = pre ++ l :: post /\ Forall (passed_over trusted fp) pre /\
        trusted_sig trusted l key sig /\ verify_strict key fp sig = true) as Hpass.
    { intros saw' name' Hp Hl. destruct (IH _ _ Hl) as (-> & pre & l & post & key & sig & -> & Hpre & Hs & Hv).
      split; [done|]. exists (line :: pre), l, post, key, sig. split; [done|]. split; [by constructor|done]. }
    unfold passed_over in Hpass. unfold trusted_sig in *.
    destruct (strip_prefix (str "Sig:") line) as [value|] eqn:E1; [|by apply Hpass].
    destruct (split_once colon (Utf8.trim value)) as [[nm b64]|] eqn:E2; [|done].
    destruct (trusted_get trusted nm) as [key|] eqn:E3.
    2:{ apply Hpass. exists nm, b64. auto. }
    destruct (base64_decode b64) as [raw|e] eqn:E4; [|done]. cbn.
    destruct (try_into 64 raw) as [sig|] eqn:E5; [|done]. cbn.
    destruct (verify_strict key fp sig) eqn:E6.
    + intros [= ->]. split; [done|]. exists [], line, ls, key, sig. split; [done|]. split; [done|].
      split; [|done]. exists value, nm, b64, raw. auto.
    + apply Hpass. exists nm, b64. split; [done|]. right. exists key, sig. split; [|done].
      exists value, nm, b64, raw. auto.
  - intros (-> & pre & line & post & key & sig & -> & Hpre & Hs & Hv). revert saw name.
    induction Hpre as [|l pre Hl _ IH]; intros saw name; cbn [PublicProof.sig_loop app].
    + destruct Hs as (value & nm & b64 & raw & -> & -> & -> & -> & Hsig). cbn. rewrite Hsig. cbn. by rewrite Hv.
    + unfold passed_over in Hl. destruct (strip_prefix (str "Sig:") l) as [value|] eqn:E; [|apply IH].
      destruct Hl as (nm & b64 & E2 & [E3|(key' & sig' & Hs' & Hv')]); rewrite E2; [by rewrite E3|].
      destruct Hs' as (value' & nm' & b64' & raw & E' & E2' & E3' & E4' & Hsig).
      rewrite E in E'. injection E' as <-. rewrite E2 in E2'. injection E2' as <- <-.
      rewrite E3', E4'. cbn. rewrite Hsig. cbn. by rewrite Hv'.
Qed.

(** The conditions under which a narinfo proves [v] public. *)
Definition proof_of (narinfo : list byte) (trusted : TrustedNarKeys) (v : VerifiedPublicNar) : Prop :=
  Utf8.from_utf8_ok narinfo = true /\ last narinfo = Some newline /\
  exists sp url size refs,
    once narinfo (str "StorePath") sp /\ sp <> [] /\ once narinfo (str "URL") url /\ url <> [] /\
    once narinfo (str "NarHash") (NarHashKey_to_string (vp_nar_hash v)) /\
    once narinfo (str "NarSize") size /\ parse_u64 size = Some (vp_nar_size v) /\ vp_nar_size v <> 0%Z /\
    once narinfo (str "References") refs /\ vp_store_hash v = store_hash_of sp /\
    signed_by trusted (fingerprint sp (NarHashKey_to_string (vp_nar_hash v)) (vp_nar_size v) refs) (lines narinfo).

Lemma prove_public_Ok narinfo trusted v :
  prove_public narinfo trusted = Some (Ok v) <-> proof_of narinfo trusted v.
Proof.
  unfold PublicProof.prove_public, proof_of. destruct (Utf8.from_utf8_ok narinfo); cbn [negb]; [|split; [done|by intros []]].
  split.
  - match goal with |- context [match ?m with Ok _ => _ | Err _ => _ end] => destruct m as [[[[sp hs] ss] refs]|e] eqn:Hm end;
      [|done].
    inv_ok. rewrite !required_Ok in *.
    intros (parsed & Hparsed & Hres)%bind_Some. injection Hres as Hres. inv_ok.
    apply sig_loop_Ok in Hres as [-> Hsig]. cbn.
    repeat match goal with H : bool_decide _ = false |- _ => apply bool_decide_eq_false in H end.
    repeat match goal with H : negb _ = false |- _ => apply negb_false_iff, bool_decide_eq_true in H end.
    repeat match goal with H : (_ =? _)%Z = false |- _ => apply Z.eqb_neq in H end.
    subst parsed. apply NarHashKey_from_str_iff in Hparsed. subst hs.
    split; [done|]. split; [done|]. eexists sp, _, ss, refs. split_and!; eauto.
  - intros (_ & Hnl & sp & url & size & refs & Hsp & Hsp0 & Hurl & Hurl0 & Hnh & Hns & Hsz & Hsz0 & Hrf & Hst & Hsig).
    rewrite Hnl, (bool_decide_true (Some newline = Some newline)) by done. cbn [negb reject_if mbind result_bind].
    rewrite (proj2 (required_Ok _ _ _) Hsp). cbn [mbind result_bind].
    rewrite (bool_decide_false (sp = [])) by done. cbn [reject_if].
    rewrite (proj2 (required_Ok _ _ _) Hurl). cbn [mbind result_bind].
    rewrite (bool_decide_false (url = [])) by done. cbn [reject_if].
    rewrite (proj2 (required_Ok _ _ _) Hnh), (proj2 (required_Ok _ _ _) Hns), (proj2 (required_Ok _ _ _) Hrf).
    cbn [mbind result_bind]. rewrite (proj2 (NarHashKey_from_str_iff _ _) eq_refl).
    cbn [mbind option_bind map_err]. f_equal. rewrite Hsz. cbn [ok_or mbind result_bind].
    apply Z.eqb_neq in Hsz0. rewrite Hsz0. cbn [reject_if mbind result_bind].
    apply sig_loop_Ok. split; [|done]. destruct v as [k n h]. cbn in *. by subst h.
Qed.

Lemma prove_public_total narinfo trusted : exists r, prove_public narinfo trusted = Some r.
Proof.
  unfold PublicProof.prove_public. destruct (negb _); [eauto|].
  match goal with |- context [match ?m with Ok _ => _ | Err _ => _ end] => destruct m as [[[[sp hs] ss] refs]|e] end;
    [|eauto].
  destruct (NarHashKey_from_str_total hs) as [parsed ->]. eauto.
Qed.

(** C36: the check that opens the public allowlist is exact and never panics: it
    accepts a narinfo, for the identity [v], exactly when the narinfo is a
    newline-terminated text with one StorePath, URL, NarHash, NarSize and
    References line each, its hash is [v]'s canonical string, its size is [v]'s
    and not zero, and some Sig line by a configured key verifies over the
    fingerprint of these fields, every earlier Sig line being well formed. *)
Theorem prove_public_exact narinfo trusted :
  (exists r, prove_public narinfo trusted = Some r) /\
  forall v, prove_public narinfo trusted = Some (Ok v) <-> proof_of narinfo trusted v.
Proof. split; [apply prove_public_total|intros v; apply prove_public_Ok]. Qed.

(** The reordering of references does not change a fingerprint. *)
Lemma fingerprint_reorder sp h n refs refs' :
  split_whitespace refs ≡ₚ split_whitespace refs' -> fingerprint sp h n refs = fingerprint sp h n refs'.
Proof.
  intros Hp. unfold fingerprint. do 8 f_equal. unfold sort_strings.
  apply (Sorted_unique str_le); [apply Sorted_merge_sort, _..|].
  rewrite !(merge_sort_Permutation str_le). by rewrite Hp.
Qed.

End proofs.
