(* ===== verification/Allowlist.v ===== *)
(** * The public-NAR allowlist: the stateful half of daemon-core/src/public_allowlist.rs

    The in-memory set, its append-only MAC-protected file, `learn`, the only
    writer, and `approve`, the only reader that mints a publication claim.  The
    operating system's answers to one call are a record [Os], so every failure
    point of the file code is an input.  A node's life is a sequence of learns
    and restarts; the theorems say that nothing unproven is ever approved, also
    once the file is over its size limit, that what was appended survives
    restarts while the file is within it, and what the file may hold after a
    failed append. *)

From Stdlib Require Import Strings.Byte ZArith Lia.
From stdpp Require Import base sets gmap numbers strings relations list.
From S2P Require Import Prelude Text Utf8 Rewrite Hex NixBase32 Ids RecordCodec ToyCrypto PublicProof.

(** ** The file store *)

Definition MAX_ALLOWLIST_FILE_BYTES : Z := 64 * 1024 * 1024.
Definition MAX_ALLOWLIST_RECORDS : Z := 1000000.
Definition ALLOWLIST_MAC_CONTEXT : list byte := str "nix-p2p public-allowlist record MAC v1".

(** Where loading or appending failed; the message text is not modelled. *)
Inductive AllowlistPersistError :=
| Creating | OpeningParent | InspectingParent | ParentNotDirectory | ParentOwner | ParentWritable
| Opening | Inspecting | NotRegular | HardLinks | WrongOwner | GroupAccessible
| Locking | Sizing | TooLarge | Reading | NotUtf8 | TooManyRecords | MissingSize | MissingMac
| NonCanonicalHash | NonU64Size | MacMismatch
| Truncating | Seeking | Appending | Fsyncing | ParentFsync | Unlocking.

Record Stat := {
  st_regular : bool;
  st_directory : bool;
  st_nlink : Z;
  st_uid : Z;
  st_mode : Z
}.

(** The operating system's answers during one call.  [written] is [None] when
    `write_all` completes and [Some m] when it fails after [m] bytes. *)
Record Os := {
  euid : Z;
  create_dir_ok : bool;
  parent_open_ok : bool;
  parent_stat : option Stat;
  open_ok : bool;
  file_stat : option Stat;
  lock_ok : bool;
  size_stat_ok : bool;
  read_ok : bool;
  truncate_ok : bool;
  seek_ok : bool;
  written : option nat;
  sync_ok : bool;
  parent_sync_ok : bool;
  unlock_ok : bool
}.

(** The file: absent, or its bytes. *)
Definition disk : Type := option (list byte).

Inductive OpenMode := ORead | OReadWrite.

(** FileAllowlistStore::open_strict, with the file as `O_CREAT` leaves it. *)
Definition open_strict (os : Os) (mode : OpenMode) (d : disk) :
    result AllowlistPersistError (option (list byte)) * disk :=
  match mode, d with
  | ORead, None => (Ok None, d)
  | _, _ =>
      if negb (open_ok os) then (Err Opening, d)
      else
        let bytes := default [] d in
        let d' := Some bytes in
        (match file_stat os with
         | None => Err Inspecting
         | Some st =>
             _ ← reject_if (negb (st_regular st)) NotRegular;
             _ ← reject_if (negb (st_nlink st =? 1)%Z) HardLinks;
             _ ← reject_if (negb (st_uid st =? euid os)%Z) WrongOwner;
             _ ← reject_if (negb (Z.land (st_mode st) 63 =? 0)%Z) GroupAccessible;
             Ok (Some bytes)
         end, d')
  end.

(** FileAllowlistStore::check_parent *)
Definition check_parent (os : Os) : result AllowlistPersistError unit :=
  _ ← reject_if (negb (parent_open_ok os)) OpeningParent;
  st ← ok_or (parent_stat os) InspectingParent;
  _ ← reject_if (negb (st_directory st)) ParentNotDirectory;
  _ ← reject_if (negb (st_uid st =? euid os)%Z) ParentOwner;
  reject_if (negb (Z.land (st_mode st) 18 =? 0)%Z) ParentWritable.

(** AllowlistFileLock::finish: an unlock failure replaces a success only. *)
Definition finish {T} (os : Os) (operation : result AllowlistPersistError T) : result AllowlistPersistError T :=
  match operation with
  | Ok v => if unlock_ok os then Ok v else Err Unlocking
  | Err e => Err e
  end.

Definition space : byte := x20.

Definition record_canonical (k : NarHashKey) (n : Z) : list byte :=
  NarHashKey_to_string k ++ [space] ++ show_u64 n.

(** `constant_time_eq`: the folded XOR of two equally long strings is zero. *)
Definition constant_time_eq (a b : list byte) : bool :=
  if negb (length a =? length b) then false
  else (foldl (fun diff '(x, y) => Z.lor diff (Z.lxor (u8_val x) (u8_val y))) 0 (zip a b) =? 0)%Z.

(** `line.trim_end_matches('\r')` *)
Fixpoint strip_crs (r : list byte) : list byte :=
  match r with x :: r' => if decide (x = x0d) then strip_crs r' else r | [] => [] end.
Definition trim_end_cr (l : list byte) : list byte := reverse (strip_crs (reverse l)).

Section allowlist.
Context `{Ed25519}.
Context (base64_decode : list byte -> result (list byte) (list byte)).
(** BLAKE3's keyed mode and its key derivation. *)
Context (keyed_hash : array 32 -> list byte -> array 32).
Context (derive_key : list byte -> list byte -> array 32).

Definition derive_allowlist_mac_key (identity_seed : array 32) : array 32 :=
  derive_key ALLOWLIST_MAC_CONTEXT (arr_bytes identity_seed).

Definition record_mac (mac_key : array 32) (k : NarHashKey) (n : Z) : list byte :=
  hexfmt.encode (arr_bytes (keyed_hash mac_key (record_canonical k n))).

(** The line of one record. *)
Definition record_line (mac_key : array 32) (k : NarHashKey) (n : Z) : list byte :=
  record_canonical k n ++ [space] ++ record_mac mac_key k n ++ [newline].

(** One committed line of parse_committed, without its newline; [None] is a
    panic of the hash parser. *)
Definition parse_line (mac_key : array 32) (line : list byte) :
    option (result AllowlistPersistError (NarHashKey * Z)) :=
  match split_once space line with
  | None => Some (Err MissingSize)
  | Some (hash_str, rest) =>
      match split_once space rest with
      | None => Some (Err MissingMac)
      | Some (size_str, mac_str) =>
          parsed ← NarHashKey_from_str hash_str;
          Some (
            nar_hash ← map_err (fun _ => NonCanonicalHash) parsed;
            nar_size ← ok_or (parse_u64 size_str) NonU64Size;
            _ ← reject_if (negb (constant_time_eq mac_str (record_mac mac_key nar_hash nar_size))) MacMismatch;
            Ok (nar_hash, nar_size))
      end
  end.

(** The loop of parse_committed over the `split_inclusive` segments. *)
Fixpoint parse_segments (mac_key : array 32) (segs : list (list byte)) (out : list (NarHashKey * Z)) :
    option (result AllowlistPersistError (list (NarHashKey * Z))) :=
  match segs with
  | [] => Some (Ok out)
  | seg :: rest =>
      match strip_suffix [newline] seg with
      | None => Some (Ok out)
      | Some line0 =>
          let line := trim_end_cr line0 in
          if bool_decide (line = []) then parse_segments mac_key rest out
          else if (MAX_ALLOWLIST_RECORDS <=? Z.of_nat (length out))%Z then Some (Err TooManyRecords)
          else
            r ← parse_line mac_key line;
            match r with
            | Err e => Some (Err e)
            | Ok rec => parse_segments mac_key rest (out ++ [rec])
            end
      end
  end.

Definition parse_committed (mac_key : array 32) (bytes : list byte) :
    option (result AllowlistPersistError (list (NarHashKey * Z))) :=
  if Utf8.from_utf8_ok bytes then parse_segments mac_key (split_inclusive_nl bytes) []
  else Some (Err NotUtf8).

(** `(&file).take(MAX_ALLOWLIST_FILE_BYTES).read_to_end(..)` *)
Definition take_max (bytes : list byte) : list byte :=
  if (Z.of_nat (length bytes) <=? MAX_ALLOWLIST_FILE_BYTES)%Z then bytes
  else take (Z.to_nat MAX_ALLOWLIST_FILE_BYTES) bytes.

(** FileAllowlistStore::load *)
Definition load (os : Os) (mac_key : array 32) (d : disk) :
    option (result AllowlistPersistError (list (NarHashKey * Z))) :=
  match (open_strict os ORead d).1 with
  | Err e => Some (Err e)
  | Ok None => Some (Ok [])
  | Ok (Some bytes) =>
      if negb (lock_ok os) then Some (Err Locking)
      else
        r ← (if negb (size_stat_ok os) then Some (Err Sizing)
             else if (MAX_ALLOWLIST_FILE_BYTES <? Z.of_nat (length bytes))%Z then Some (Err TooLarge)
             else if negb (read_ok os) then Some (Err Reading)
             else parse_committed mac_key (take_max bytes));
        Some (finish os r)
  end.

(** The file after writing [data] at offset [pos]. *)
Definition write_at (bytes : list byte) (pos : nat) (data : list byte) : list byte :=
  take pos bytes ++ data ++ drop (pos + length data) bytes.

(** The length of the committed prefix: up to and including the last newline. *)
Definition committed_len (existing : list byte) : nat :=
  match position (fun b => bool_decide (b = newline)) (reverse existing) with
  | Some i => length existing - 1 - i + 1
  | None => 0
  end.

(** FileAllowlistStore::append after the lock is held: the result and the file. *)
Definition append_locked (os : Os) (mac_key : array 32) (existed : bool) (bytes : list byte)
    (k : NarHashKey) (n : Z) : result AllowlistPersistError unit * list byte :=
  if negb (read_ok os) then (Err Reading, bytes)
  else
    let existing := take_max bytes in
    let len := committed_len existing in
    let torn := negb (len =? length existing) in
    if torn && negb (truncate_ok os) then (Err Truncating, bytes)
    else
      let bytes := if torn then take len bytes else bytes in
      if negb (seek_ok os) then (Err Seeking, bytes)
      else
        let line := record_line mac_key k n in
        match written os with
        | Some m => (Err Appending, write_at bytes len (take m line))
        | None =>
            let bytes := write_at bytes len line in
            if negb (sync_ok os) then (Err Fsyncing, bytes)
            else if negb existed && negb (parent_sync_ok os) then (Err ParentFsync, bytes)
            else (Ok tt, bytes)
        end.

(** FileAllowlistStore::append *)
Definition append (os : Os) (mac_key : array 32) (d : disk) (k : NarHashKey) (n : Z) :
    result AllowlistPersistError unit * disk :=
  let existed := bool_decide (is_Some d) in
  if negb existed && negb (create_dir_ok os) then (Err Creating, d)
  else
    match check_parent os with
    | Err e => (Err e, d)
    | Ok _ =>
        match open_strict os OReadWrite d with
        | (Err e, d') => (Err e, d')
        | (Ok o, d') =>
            let bytes := default [] o in
            if negb (lock_ok os) then (Err Locking, d')
            else
              let '(r, bytes') := append_locked os mac_key existed bytes k n in
              (finish os r, Some bytes')
        end
    end.

(** ** The allowlist *)

Record PublicNarAllowlist := {
  trusted : TrustedNarKeys;
  entries : gmap NarHashKey Z
}.

Inductive LearnOutcome :=
| Appended (nar_hash : NarHashKey) (nar_size : Z)
| AlreadyPresent (nar_hash : NarHashKey)
| Rejected (r : PublicProofReject)
| RequestMismatch (requested signed : list byte)
| PersistFailed (e : AllowlistPersistError).

(** `loaded.into_iter().collect()`: a later record of a key replaces an earlier one. *)
Definition collect (recs : list (NarHashKey * Z)) : gmap NarHashKey Z :=
  foldl (fun m '(k, n) => <[k := n]> m) ∅ recs.

(** PublicNarAllowlist::open_file *)
Definition open_file (os : Os) (ks : TrustedNarKeys) (mac_key : array 32) (d : disk) :
    option (result AllowlistPersistError PublicNarAllowlist) :=
  r ← load os mac_key d;
  Some (recs ← r; Ok {| trusted := ks; entries := collect recs |}).

(** PublicNarAllowlist::disabled *)
Definition disabled : PublicNarAllowlist := {| trusted := TrustedNarKeys_empty; entries := ∅ |}.

(** PublicNarAllowlist::learn over the file store.  [None] is a panic: of the
    hash parser, or of the debug assertion on a duplicate's size. *)
Definition learn (debug : bool) (os : Os) (mac_key : array 32) (al : PublicNarAllowlist) (d : disk)
    (requested narinfo : list byte) : option (LearnOutcome * PublicNarAllowlist * disk) :=
  proof ← prove_public base64_decode narinfo (trusted al);
  match proof with
  | Err reject => Some (Rejected reject, al, d)
  | Ok v =>
      if negb (bool_decide (vp_store_hash v = requested))
      then Some (RequestMismatch requested (vp_store_hash v), al, d)
      else
        match entries al !! vp_nar_hash v with
        | Some existing =>
            if debug && negb (existing =? vp_nar_size v)%Z then None
            else Some (AlreadyPresent (vp_nar_hash v), al, d)
        | None =>
            let '(r, d') := append os mac_key d (vp_nar_hash v) (vp_nar_size v) in
            match r with
            | Err e => Some (PersistFailed e, al, d')
            | Ok _ =>
                Some (Appended (vp_nar_hash v) (vp_nar_size v),
                      {| trusted := trusted al; entries := <[vp_nar_hash v := vp_nar_size v]> (entries al) |}, d')
            end
        end
  end.

Definition contains (al : PublicNarAllowlist) (k : NarHashKey) : bool := bool_decide (is_Some (entries al !! k)).
Definition approved_size (al : PublicNarAllowlist) (k : NarHashKey) : option Z := entries al !! k.

Definition CONTENT_KEY_CONTEXT : list byte := str "nix-p2p/discovery/ContentKey/v1".
Definition derive_from_signed_nar_hash (nar_hash : array NAR_HASH_LEN) : ContentKey :=
  ContentKey_from_bytes (derive_key CONTENT_KEY_CONTEXT (arr_bytes nar_hash)).

Definition contains_content_key (al : PublicNarAllowlist) (key : ContentKey) : bool :=
  existsb (fun '(k, _) => bool_decide (derive_from_signed_nar_hash (nar_hash_bytes k) = key))
    (map_to_list (entries al)).

Record PublicNarClaim := { claim_nar_hash : NarHashKey; claim_nar_size : Z }.

Inductive PublicationRejected :=
| NotAllowlisted (k : NarHashKey)
| SizeMismatch (k : NarHashKey) (approved requested : Z).

Definition approve (al : PublicNarAllowlist) (k : NarHashKey) (expected_size : option Z) :
    result PublicationRejected PublicNarClaim :=
  approved ← ok_or (approved_size al k) (NotAllowlisted k);
  match expected_size with
  | Some requested =>
      if negb (requested =? approved)%Z then Err (SizeMismatch k approved requested)
      else Ok {| claim_nar_hash := k; claim_nar_size := approved |}
  | None => Ok {| claim_nar_hash := k; claim_nar_size := approved |}
  end.

Record AllowlistStatus := { status_count : nat; status_total : Z }.
(** The u64 sum wraps in a release build and panics in a debug build. *)
Definition status (debug : bool) (al : PublicNarAllowlist) : option AllowlistStatus :=
  let sizes := snd <$> map_to_list (entries al) in
  let total := foldr Z.add 0%Z sizes in
  if debug && (u64_max <? total)%Z then None
  else Some {| status_count := size (entries al); status_total := (total mod (u64_max + 1))%Z |}.

End allowlist.

(** ** Lines and their bytes *)

Lemma key_chars k b : b ∈ NarHashKey_to_string k -> Utf8.visible b.
Proof.
  intros [Hb|Hb]%NarHashKey_to_string_chars; revert b Hb; apply Forall_forall;
    apply (bool_decide_unpack _); vm_compute; exact I.
Qed.

Lemma show_chars n b : (0 <= n)%Z -> b ∈ show_u64 n -> Utf8.visible b.
Proof.
  intros Hn Hb. apply show_u64_chars in Hb as [d Hd]; [|done].
  unfold digit_val, Utf8.visible in *. destruct (_ && _) eqn:E; [|done].
  apply andb_true_iff in E as [?%Z.leb_le ?%Z.leb_le]. lia.
Qed.

Lemma hex_chars l b : b ∈ hexfmt.encode l -> Utf8.visible b.
Proof.
  induction l as [|x l IH]; [by intros ?%not_elem_of_nil|].
  assert (Forall Utf8.visible (hexfmt.encode [x])) as Hx.
  { clear. by_all_bytes x. }
  change (hexfmt.encode (x :: l)) with (hexfmt.encode [x] ++ hexfmt.encode l).
  rewrite elem_of_app. intros [H|H]; [|by apply IH]. by rewrite Forall_forall in Hx; apply Hx.
Qed.

Lemma visible_not b : Utf8.visible b -> b <> space /\ b <> newline /\ b <> x0d /\ Utf8.ascii b.
Proof.
  unfold Utf8.visible, Utf8.ascii. intros Hb.
  split; [|split; [|split]]; [intros ->; revert Hb; vm_compute; intros [Hb _]; by apply Hb..|lia].
Qed.

Lemma trim_end_cr_id l b : b <> x0d -> trim_end_cr (l ++ [b]) = l ++ [b].
Proof.
  intros Hb. unfold trim_end_cr. rewrite reverse_snoc. simpl. rewrite decide_False by done.
  by rewrite <-reverse_snoc, reverse_involutive.
Qed.

Lemma lor_eq_0 a b : Z.lor a b = 0%Z <-> a = 0%Z /\ b = 0%Z.
Proof. apply Z.lor_eq_0_iff. Qed.

Lemma constant_time_eq_iff a b : constant_time_eq a b = true <-> a = b.
Proof.
  unfold constant_time_eq. destruct (Nat.eqb_spec (length a) (length b)) as [Hlen|Hlen]; simpl.
  2:{ split; [done|]. by intros ->. }
  rewrite Z.eqb_eq.
  assert (forall acc, foldl (fun diff '(x, y) => Z.lor diff (Z.lxor (u8_val x) (u8_val y))) acc (zip a b) = 0%Z
    <-> acc = 0%Z /\ a = b) as Hacc; [|rewrite Hacc; tauto].
  revert b Hlen. induction a as [|x a IH]; intros [|y b] Hlen acc; try done; simpl; [tauto|].
  rewrite IH by (simpl in Hlen; lia). rewrite Z.lor_eq_0_iff, Z.lxor_eq_0_iff.
  split; [intros [[-> ->%u8_val_inj] ->]; done|]. by intros [-> [= -> ->]].
Qed.

Lemma approve_Ok al k expected c :
  approve al k expected = Ok c <->
  entries al !! k = Some (claim_nar_size c) /\ claim_nar_hash c = k /\
  forall s, expected = Some s -> s = claim_nar_size c.
Proof.
  unfold approve, approved_size. destruct (entries al !! k) as [n|]; cbn; [|naive_solver].
  destruct c as [ck cn], expected as [e|]; cbn.
  - destruct (Z.eqb_spec e n) as [->|Hne]; cbn; naive_solver.
  - naive_solver.
Qed.

Lemma take_max_small bytes : (Z.of_nat (length bytes) <= MAX_ALLOWLIST_FILE_BYTES)%Z -> take_max bytes = bytes.
Proof. intros H%Z.leb_le. unfold take_max. by rewrite H. Qed.

Lemma parse_u64_no_space s n : parse_u64 s = Some n -> space ∉ s.
Proof.
  assert (forall s a n, parse_digits a s = Some n -> space ∉ s) as Hd.
  { clear. induction s as [|b s IH]; intros a n; simpl; [intros; apply not_elem_of_nil|].
    destruct (digit_val b) as [d|] eqn:E; [|done]. cbn. destruct (_ <=? _)%Z; [|done].
    intros H%IH. apply not_elem_of_cons. split; [|done]. intros <-. vm_compute in E. done. }
  intros H. unfold parse_u64 in H. destruct (strip_prefix [x2b] s) as [r|] eqn:E.
  - apply strip_prefix_Some in E as ->. destruct r; [done|]. apply Hd in H.
    rewrite elem_of_app, list_elem_of_singleton. intros [Hb|Hb]; [by vm_compute in Hb|done].
  - destruct s; [done|]. by apply Hd in H.
Qed.

Section store_proofs.
Context `{Ed25519}.
Context (base64_decode : list byte -> result (list byte) (list byte)).
Context (keyed_hash : array 32 -> list byte -> array 32).
Context (mac_key : array 32).

#[local] Abbreviation record_mac := (record_mac keyed_hash mac_key).
#[local] Abbreviation record_line := (record_line keyed_hash mac_key).
#[local] Abbreviation parse_line := (parse_line keyed_hash mac_key).
#[local] Abbreviation parse_segments := (parse_segments keyed_hash mac_key).
#[local] Abbreviation parse_committed := (parse_committed keyed_hash mac_key).
#[local] Abbreviation append_locked := (fun os => append_locked keyed_hash os mac_key).
#[local] Abbreviation append := (fun os => append keyed_hash os mac_key).
#[local] Abbreviation load := (fun os => load keyed_hash os mac_key).

(** A line without its newline. *)
Definition line_body (k : NarHashKey) (n : Z) : list byte :=
  record_canonical k n ++ [space] ++ record_mac k n.

Lemma record_line_body k n : record_line k n = line_body k n ++ [newline].
Proof. unfold Allowlist.record_line, line_body. by rewrite <-!app_assoc. Qed.

Lemma record_mac_shape k n : exists l b, record_mac k n = l ++ [b] /\ Utf8.visible b /\ length l = 63.
Proof.
  pose proof (hexfmt.length_encode (arr_bytes (keyed_hash mac_key (record_canonical k n)))) as Hlen.
  rewrite arr_length in Hlen. fold (record_mac k n) in Hlen.
  destruct (record_mac k n) as [|b l _] eqn:E using rev_ind; [simpl in Hlen; lia|].
  exists l, b. rewrite length_app in Hlen. simpl in Hlen. split; [done|]. split; [|lia].
  apply (hex_chars (arr_bytes (keyed_hash mac_key (record_canonical k n)))). fold (record_mac k n).
  rewrite E. rewrite elem_of_app, list_elem_of_singleton. by right.
Qed.

Lemma line_body_chars k n b : (0 <= n)%Z -> b ∈ line_body k n -> Utf8.visible b \/ b = space.
Proof.
  intros Hn. unfold line_body, record_canonical. rewrite !elem_of_app, !list_elem_of_singleton.
  intros [[Hb|[->|Hb]]|[->|Hb]]; auto.
  - left. by eapply key_chars.
  - left. by eapply show_chars.
  - left. by eapply hex_chars.
Qed.

Lemma line_body_clean k n : (0 <= n)%Z -> newline ∉ line_body k n /\ Forall Utf8.ascii (line_body k n).
Proof.
  intros Hn. split.
  - intros [Hb|Hb]%line_body_chars; [|done|done]. by apply visible_not in Hb as (_ & ? & _).
  - apply Forall_forall. intros b [Hb| ->]%line_body_chars; [|by vm_compute|done]. by apply visible_not in Hb as (_ & _ & _ & ?).
Qed.

Lemma length_line_body k n : 75 <= length (line_body k n ++ [newline]).
Proof.
  unfold line_body, record_canonical, NarHashKey_to_string. rewrite !length_app.
  destruct (record_mac_shape k n) as (l & b & -> & _ & Hl). rewrite length_app, Hl. simpl.
  destruct (show_u64 n) eqn:E; [by apply show_u64_nonempty in E|]. simpl. lia.
Qed.

(** A record reads back. *)
Lemma parse_line_body k n : u64_ok n -> parse_line (line_body k n) = Some (Ok (k, n)).
Proof.
  intros Hn. unfold Allowlist.parse_line, line_body, record_canonical. rewrite <-!app_assoc. cbn [app].
  rewrite (proj2 (split_once_Some space _ (NarHashKey_to_string k) (show_u64 n ++ space :: record_mac k n))).
  2:{ split; [done|]. intros Hb%key_chars. by apply visible_not in Hb as (? & _). }
  rewrite (proj2 (split_once_Some space _ (show_u64 n) (record_mac k n))).
  2:{ split; [done|]. intros Hb%show_chars; [|unfold u64_ok in Hn; lia]. by apply visible_not in Hb as (? & _). }
  rewrite (proj2 (NarHashKey_from_str_iff _ k) eq_refl). cbn [mbind option_bind map_err result_bind].
  rewrite parse_show_u64 by done. cbn [ok_or mbind result_bind].
  by rewrite (proj2 (constant_time_eq_iff _ _) eq_refl).
Qed.

(** ** The log *)

Definition log (recs : list (NarHashKey * Z)) : list byte := concat ((fun '(k, n) => record_line k n) <$> recs).
Definition sizes_ok (recs : list (NarHashKey * Z)) : Prop := Forall (fun r => u64_ok r.2) recs.

Lemma log_app recs recs' : log (recs ++ recs') = log recs ++ log recs'.
Proof. unfold log. by rewrite fmap_app, concat_app. Qed.

Lemma log_segments recs tail :
  sizes_ok recs -> newline ∉ tail ->
  split_inclusive_nl (log recs ++ tail) =
  ((fun '(k, n) => record_line k n) <$> recs) ++ match tail with [] => [] | _ => [tail] end.
Proof.
  intros Hs Ht. induction Hs as [|[k n] recs Hn _ IH].
  - pose proof (split_inclusive_concat [tail]) as Hsp. simpl in Hsp. rewrite app_nil_r in Hsp.
    destruct tail; [done|]. apply Hsp. right. split; done.
  - unfold log. cbn [fmap list_fmap concat]. rewrite record_line_body, <-!app_assoc. cbn [app].
    change newline with x0a at 1. rewrite split_inclusive_line; [|apply line_body_clean; simpl in Hn; unfold u64_ok in Hn; lia].
    f_equal. exact IH.
Qed.

Lemma log_ascii recs : sizes_ok recs -> Forall Utf8.ascii (log recs).
Proof.
  induction 1 as [|[k n] recs Hn _ IH]; [constructor|]. unfold log. cbn [fmap list_fmap concat].
  rewrite record_line_body. apply Forall_app. split; [|exact IH]. apply Forall_app. split.
  - apply line_body_clean. simpl in Hn. unfold u64_ok in Hn. lia.
  - constructor; [by vm_compute|constructor].
Qed.

Lemma length_log recs : 75 * length recs <= length (log recs).
Proof.
  induction recs as [|[k n] recs IH]; [simpl; lia|]. unfold log in *. cbn [fmap list_fmap concat length].
  rewrite record_line_body, length_app. pose proof (length_line_body k n). lia.
Qed.

Lemma line_body_trim k n : trim_end_cr (line_body k n) = line_body k n /\ line_body k n <> [].
Proof.
  unfold line_body. destruct (record_mac_shape k n) as (l & b & -> & Hb & _).
  apply visible_not in Hb as (_ & _ & Hb & _).
  replace (record_canonical k n ++ [space] ++ l ++ [b]) with ((record_canonical k n ++ [space] ++ l) ++ [b])
    by (by rewrite <-!app_assoc).
  split; [by apply trim_end_cr_id|]. intros E. apply (f_equal length) in E. rewrite length_app in E. simpl in E. lia.
Qed.

Lemma parse_log recs tail out :
  sizes_ok recs -> newline ∉ tail -> (Z.of_nat (length out + length recs) <= MAX_ALLOWLIST_RECORDS)%Z ->
  parse_segments (((fun '(k, n) => record_line k n) <$> recs) ++ match tail with [] => [] | _ => [tail] end) out =
  Some (Ok (out ++ recs)).
Proof.
  intros Hs Ht. revert out. induction Hs as [|[k n] recs Hn _ IH]; intros out Hlen; simpl.
  - rewrite app_nil_r. destruct tail as [|b tail]; [done|]. cbn [Allowlist.parse_segments].
    destruct (strip_suffix [newline] (b :: tail)) as [r|] eqn:E; [|done].
    apply strip_suffix_Some in E. rewrite E in Ht. exfalso. apply Ht. set_solver.
  - rewrite record_line_body, (proj2 (strip_suffix_Some [newline] _ (line_body k n)) eq_refl).
    destruct (line_body_trim k n) as [-> Hne]. rewrite bool_decide_false by done.
    simpl in Hlen. destruct (Z.leb_spec MAX_ALLOWLIST_RECORDS (Z.of_nat (length out))); [lia|].
    rewrite parse_line_body by done. cbn [mbind option_bind].
    rewrite IH; [by rewrite <-app_assoc|]. rewrite length_app. simpl. lia.
Qed.

Definition fits (d : disk) : Prop := (Z.of_nat (length (default [] d)) <= MAX_ALLOWLIST_FILE_BYTES)%Z.

(** The file holds exactly [recs], up to a torn, unterminated tail. *)
Definition disk_holds (recs : list (NarHashKey * Z)) (d : disk) : Prop :=
  sizes_ok recs /\
  ((d = None /\ recs = []) \/
   exists tail, d = Some (log recs ++ tail) /\ newline ∉ tail /\ Forall Utf8.ascii tail).

Lemma parse_committed_log recs tail :
  sizes_ok recs -> newline ∉ tail -> Forall Utf8.ascii tail ->
  (Z.of_nat (length (log recs ++ tail)) <= MAX_ALLOWLIST_FILE_BYTES)%Z ->
  parse_committed (log recs ++ tail) = Some (Ok recs).
Proof.
  intros Hs Ht Ha Hlen. unfold Allowlist.parse_committed.
  assert (Utf8.from_utf8_ok (log recs ++ tail) = true) as ->.
  { rewrite <-(app_nil_r (log recs ++ tail)). rewrite Utf8.from_utf8_ok_ascii_prefix; [done|].
    apply Forall_app. split; [by apply log_ascii|done]. }
  rewrite log_segments, parse_log by (done || rewrite ?length_app in Hlen; pose proof (length_log recs);
    unfold MAX_ALLOWLIST_FILE_BYTES, MAX_ALLOWLIST_RECORDS in *; simpl; lia). done.
Qed.
(** ** Loading and appending *)

Lemma open_strict_bytes os mode d o d' :
  open_strict os mode d = (Ok (Some o), d') -> o = default [] d /\ d' = Some o.
Proof.
  unfold open_strict. intros Heq.
  assert (forall r, (if negb (open_ok os) then (Err Opening, d)
      else (match file_stat os with None => Err Inspecting | Some st => r st end, Some (default [] d))) = (Ok (Some o), d') ->
      (forall st x, r st = Ok x -> x = Some (default [] d)) -> o = default [] d /\ d' = Some o) as Hgen.
  { intros r Hr Hx. destruct (open_ok os); simpl in Hr; [|done]. destruct (file_stat os) as [st|]; [|done].
    injection Hr as Hr <-. apply Hx in Hr. injection Hr as ->. done. }
  destruct mode, d; try done; eapply Hgen in Heq; try done; intros st x Hx; by inv_ok.
Qed.

Lemma open_strict_disk os mode d r d' :
  open_strict os mode d = (r, d') -> d' = d \/ d' = Some (default [] d).
Proof.
  unfold open_strict. intros Heq. destruct mode, d, (open_ok os); simpl in Heq; simplify_eq; auto.
Qed.

Lemma disk_holds_open recs d d' : disk_holds recs d -> d' = d \/ d' = Some (default [] d) -> disk_holds recs d'.
Proof.
  intros [Hs Hd] [->| ->]; [by split|]. split; [done|]. right.
  destruct Hd as [[-> ->]|(tail & -> & Ht & Ha)].
  - exists []. split; [done|]. split; [apply not_elem_of_nil|constructor].
  - exists tail. done.
Qed.

Lemma committed_len_log recs tail : sizes_ok recs -> newline ∉ tail -> committed_len (log recs ++ tail) = length (log recs).
Proof.
  intros Hs Ht. unfold committed_len. rewrite reverse_app.
  assert (Forall (fun b => bool_decide (b = newline) = false) (reverse tail)) as Hrt.
  { apply Forall_neq_elem. by rewrite elem_of_reverse. }
  destruct recs as [|[k n] recs _] using rev_ind.
  - change (log []) with (@nil byte). rewrite reverse_nil, app_nil_r.
    by rewrite (proj2 (position_None _ _) Hrt).
  - rewrite log_app. change (log [(k, n)]) with (record_line k n ++ []).
    rewrite app_nil_r, record_line_body, app_assoc, reverse_snoc.
    rewrite (proj2 (position_Some _ _ (length (reverse tail)))).
    + rewrite !length_app, length_reverse. simpl. lia.
    + exists (reverse tail), newline, (reverse (log recs ++ line_body k n)).
      rewrite bool_decide_true by done. done.
Qed.

Lemma write_at_end (bytes data : list byte) : write_at bytes (length bytes) data = bytes ++ data.
Proof. unfold write_at. rewrite firstn_all, drop_ge by lia. by rewrite app_nil_r. Qed.

Lemma disk_holds_tail recs tail :
  sizes_ok recs -> newline ∉ tail -> Forall Utf8.ascii tail -> disk_holds recs (Some (log recs ++ tail)).
Proof. intros. split; [done|]. right. by exists tail. Qed.

Lemma disk_holds_snoc recs k n :
  sizes_ok recs -> u64_ok n -> disk_holds (recs ++ [(k, n)]) (Some (log recs ++ record_line k n)).
Proof.
  intros Hs Hn. replace (log recs ++ record_line k n) with (log (recs ++ [(k, n)]) ++ []).
  - apply disk_holds_tail; [by apply Forall_app; split; [|constructor]|apply not_elem_of_nil|constructor].
  - rewrite app_nil_r, log_app. change (log [(k, n)]) with (record_line k n ++ []). by rewrite app_nil_r.
Qed.

Lemma append_locked_cases os existed recs tail k n r bytes' :
  sizes_ok recs -> newline ∉ tail -> Forall Utf8.ascii tail -> u64_ok n ->
  (Z.of_nat (length (log recs ++ tail)) <= MAX_ALLOWLIST_FILE_BYTES)%Z ->
  append_locked os existed (log recs ++ tail) k n = (r, bytes') ->
  disk_holds (recs ++ [(k, n)]) (Some bytes') \/ (r <> Ok tt /\ disk_holds recs (Some bytes')).
Proof.
  intros Hs Ht Ha Hn Hlen. unfold Allowlist.append_locked.
  destruct (read_ok os); cbn [negb]; [|intros [= <- <-]; right; split; [done|by apply disk_holds_tail]].
  rewrite take_max_small by done.
  rewrite committed_len_log by done.
  destruct (negb (length (log recs) =? length (log recs ++ tail)) && negb (truncate_ok os)).
  { intros [= <- <-]. right. split; [done|by apply disk_holds_tail]. }
  assert ((if negb (length (log recs) =? length (log recs ++ tail)) then take (length (log recs)) (log recs ++ tail)
           else log recs ++ tail) = log recs) as ->.
  { destruct (Nat.eqb_spec (length (log recs)) (length (log recs ++ tail))) as [E|E]; simpl.
    - rewrite length_app in E. destruct tail; [by rewrite app_nil_r|simpl in E; lia].
    - apply take_app_length. }
  assert (disk_holds recs (Some (log recs))) as Hbase.
  { rewrite <-(app_nil_r (log recs)). apply disk_holds_tail; [done|apply not_elem_of_nil|constructor]. }
  destruct (seek_ok os); cbn [negb]; [|intros [= <- <-]; right; done].
  destruct (written os) as [m|].
  - intros [= <- <-]. rewrite write_at_end. destruct (decide (length (record_line k n) <= m)) as [Hm|Hm].
    + left. rewrite take_ge by lia. by apply disk_holds_snoc.
    + right. split; [done|]. rewrite record_line_body, length_app in Hm. cbn [length] in Hm.
      rewrite record_line_body, take_app_le by lia.
      destruct (line_body_clean k n) as [Hc1 Hc2]; [unfold u64_ok in Hn; lia|].
      apply disk_holds_tail; [done| |by apply Forall_take].
      intros Hin. apply Hc1. rewrite <-(take_drop m (line_body k n)). set_solver.
  - rewrite write_at_end. pose proof (disk_holds_snoc recs k n Hs Hn).
    destruct (sync_ok os), existed, (parent_sync_ok os); simpl; intros [= <- <-]; by left.
Qed.

(** An append leaves the file holding the old records or the old records and
    the new one; when it reports success it is the latter. *)
Lemma append_cases os recs d k n r d' :
  disk_holds recs d -> fits d -> u64_ok n -> append os d k n = (r, d') ->
  disk_holds (recs ++ [(k, n)]) d' \/ (r <> Ok tt /\ disk_holds recs d').
Proof.
  intros Hd Hfit Hn. unfold Allowlist.append.
  destruct (_ && _); [intros [= <- <-]; by right|].
  destruct (check_parent os); [|intros [= <- <-]; by right].
  destruct (open_strict os OReadWrite d) as [[[o|]|e] d1] eqn:E.
  - pose proof (open_strict_bytes _ _ _ _ _ E) as [-> ->].
    pose proof (disk_holds_open recs d _ Hd (or_intror eq_refl)) as Hd1.
    destruct (lock_ok os); cbn [negb]; [|intros [= <- <-]; by right].
    destruct Hd1 as [Hs [[? _]|(tail & Heq & Ht & Ha)]]; [done|]. injection Heq as Heq.
    cbn [from_option id]. rewrite Heq. unfold fits in Hfit. rewrite Heq in Hfit.
    match goal with |- context [let '(_, _) := ?t in _] => destruct t as [r0 b'] eqn:E2 end.
    intros [= <- <-]. eapply append_locked_cases in E2 as [H2|[Hr H2]]; try done; [by left|right].
    split; [|done]. unfold finish. destruct r0 as [[]|]; [done|done].
  - exfalso. unfold open_strict in E. destruct d, (open_ok os); simpl in E; try done.
    all: destruct (file_stat os); simpl in E; simplify_eq; by inv_ok.
  - intros [= <- <-]. right. split; [done|]. eapply disk_holds_open; [done|]. by eapply open_strict_disk.
Qed.

(** Loading a file that holds [recs] gives [recs], whenever it gives anything. *)
Lemma load_holds os recs d loaded :
  disk_holds recs d -> load os d = Some (Ok loaded) -> loaded = recs.
Proof.
  intros [Hs Hd]. unfold Allowlist.load.
  destruct (open_strict os ORead d) as [[[o|]|e] d1] eqn:E; cbn [fst]; [| |done].
  - pose proof (open_strict_bytes _ _ _ _ _ E) as [-> _].
    destruct Hd as [[-> _]|(tail & -> & Ht & Ha)]; [by simplify_eq|]. cbn [from_option id].
    destruct (negb (lock_ok os)); [done|]. intros (r & Hr & Hf)%bind_Some. injection Hf as Hf.
    destruct (negb (size_stat_ok os)); [by simplify_eq|].
    destruct (Z.ltb_spec MAX_ALLOWLIST_FILE_BYTES (Z.of_nat (length (log recs ++ tail)))) as [|Hlen]; [by simplify_eq|].
    destruct (negb (read_ok os)); [by simplify_eq|].
    rewrite take_max_small in Hr by lia. rewrite parse_committed_log in Hr by done. injection Hr as <-.
    unfold finish in Hf. destruct (unlock_ok os); by simplify_eq.
  - intros [= <-]. destruct Hd as [[_ ->]|(tail & -> & _)]; [done|].
    unfold open_strict in E. destruct (open_ok os); simpl in E; [|done].
    destruct (file_stat os); simpl in E; simplify_eq; by inv_ok.
Qed.

(** An operating system that answers every call of a load. *)
Definition healthy (os : Os) : Prop :=
  open_ok os = true /\ lock_ok os = true /\ size_stat_ok os = true /\ read_ok os = true /\ unlock_ok os = true /\
  exists st, file_stat os = Some st /\ st_regular st = true /\ st_nlink st = 1%Z /\ st_uid st = euid os /\
    Z.land (st_mode st) 63 = 0%Z.

Lemma load_healthy os recs d : healthy os -> disk_holds recs d -> fits d -> load os d = Some (Ok recs).
Proof.
  intros (Ho & Hl & Hz & Hr & Hu & st & Hst & Hreg & Hln & Huid & Hmode) [Hs Hd] Hfit. unfold Allowlist.load.
  destruct Hd as [[-> ->]|(tail & -> & Ht & Ha)]; [done|].
  unfold open_strict. rewrite Ho, Hst, Hreg, Hln, Huid, Hmode, !Z.eqb_refl.
  cbn [negb reject_if mbind result_bind fst from_option id].
  rewrite Hl, Hz, Hr. cbn [negb]. unfold fits in Hfit. cbn [from_option id] in Hfit.
  destruct (Z.ltb_spec MAX_ALLOWLIST_FILE_BYTES (Z.of_nat (length (log recs ++ tail)))); [lia|].
  rewrite take_max_small by lia. rewrite parse_committed_log by done. cbn [mbind option_bind].
  unfold finish. by rewrite Hu.
Qed.

(** ** Files of any size *)

(** What [load] can find: a log, or a log of exactly the largest size with more
    behind it.  Such a file is over the limit, so no load reads it; an append to
    it reads the log, finds it whole and writes over what follows. *)
Definition disk_state (recs : list (NarHashKey * Z)) (d : disk) : Prop :=
  disk_holds recs d \/
  exists rest, d = Some (log recs ++ rest) /\ sizes_ok recs /\ rest <> [] /\ Z.of_nat (length (log recs)) = MAX_ALLOWLIST_FILE_BYTES.

(** The first bytes of a log are a log of its first records and a torn line. *)
Lemma log_take m recs tail :
  sizes_ok recs -> newline ∉ tail -> Forall Utf8.ascii tail ->
  exists recs1 tail1, take m (log recs ++ tail) = log recs1 ++ tail1 /\ recs1 `prefix_of` recs /\
    newline ∉ tail1 /\ Forall Utf8.ascii tail1.
Proof.
  intros Hs Ht Ha. revert m. induction Hs as [|[k n] recs Hn _ IH]; intros m.
  - exists [], (take m tail). split_and!; [done|done| |by apply Forall_take].
    intros Hin. apply Ht. rewrite <-(take_drop m tail). apply elem_of_app. by left.
  - unfold log. cbn [fmap list_fmap concat]. rewrite record_line_body, <-app_assoc. fold (log recs).
    destruct (line_body_clean k n) as [Hc1 Hc2]; [cbn in Hn; unfold u64_ok in Hn; lia|].
    destruct (decide (m <= length (line_body k n))) as [Hm|Hm].
    + exists [], (take m (line_body k n)). rewrite <-!app_assoc, take_app_le by done.
      split_and!; [done|apply prefix_nil| |by apply Forall_take].
      intros Hin. apply Hc1. rewrite <-(take_drop m (line_body k n)). apply elem_of_app. by left.
    + destruct (IH (m - length (line_body k n ++ [newline]))) as (recs1 & tail1 & Heq & Hp & Hrest).
      exists ((k, n) :: recs1), tail1. split_and!; [|by apply prefix_cons|apply Hrest..].
      rewrite (take_app_ge (line_body k n ++ [newline])) by (rewrite length_app; change (length [newline]) with 1; lia). rewrite Heq. unfold log. cbn [fmap list_fmap concat].
      by rewrite record_line_body, <-!app_assoc.
Qed.

Lemma prefix_sizes recs1 recs : recs1 `prefix_of` recs -> sizes_ok recs -> sizes_ok recs1.
Proof. intros [l ->]. by intros [? _]%Forall_app. Qed.

Lemma take_max_cases bytes :
  (Z.of_nat (length bytes) <= MAX_ALLOWLIST_FILE_BYTES)%Z /\ take_max bytes = bytes \/
  exists limit, Z.of_nat limit = MAX_ALLOWLIST_FILE_BYTES /\ (MAX_ALLOWLIST_FILE_BYTES < Z.of_nat (length bytes))%Z /\
    take_max bytes = take limit bytes.
Proof.
  unfold take_max. destruct (Z.leb_spec (Z.of_nat (length bytes)) MAX_ALLOWLIST_FILE_BYTES) as [Hle|Hgt]; [by left|right].
  exists (Z.to_nat MAX_ALLOWLIST_FILE_BYTES). rewrite Z2Nat.id by (by vm_compute). split_and!; reflexivity || exact Hgt.
Qed.

(** What an append reads of a file, and what is behind it. *)
Lemma disk_state_read recs bytes :
  disk_state recs (Some bytes) ->
  exists recs1 tail1 rest, take_max bytes = log recs1 ++ tail1 /\ bytes = log recs1 ++ tail1 ++ rest /\
    recs1 `prefix_of` recs /\ sizes_ok recs1 /\ newline ∉ tail1 /\ Forall Utf8.ascii tail1 /\
    (rest <> [] -> Z.of_nat (length (log recs1 ++ tail1)) = MAX_ALLOWLIST_FILE_BYTES).
Proof.
  intros Hd. destruct (take_max_cases bytes) as [[Hle Htm]|(limit & Hlim & Hgt & Htm)]; rewrite Htm.
  - destruct Hd as [[Hs [[? _]|(tail & [= ->] & Ht & Ha)]]|(rest & [= ->] & Hs & Hr & Hlen)]; [done|..].
    + exists recs, tail, []. rewrite app_nil_r. by split_and!.
    + exfalso. rewrite length_app in Hle. destruct rest; [done|]. rewrite length_cons in Hle. lia.
  - destruct Hd as [[Hs [[? _]|(tail & [= ->] & Ht & Ha)]]|(rest & [= ->] & Hs & Hr & Hlen)]; [done|..].
    + destruct (log_take limit recs tail Hs Ht Ha) as (recs1 & tail1 & Heq & Hp & Ht1 & Ha1).
      exists recs1, tail1, (drop limit (log recs ++ tail)). split_and!; [done| |done|by eapply prefix_sizes|done|done|].
      * by rewrite app_assoc, <-Heq, take_drop.
      * intros _. rewrite <-Heq, length_take. lia.
    + exists recs, [], rest. assert (limit = length (log recs)) as -> by lia. rewrite take_app_length, app_nil_r.
      split_and!; [done|done|done|done|apply not_elem_of_nil|constructor|done].
Qed.

(** The file [d] holds records of [recs], or [new], and no other. *)
Definition no_more (recs : list (NarHashKey * Z)) (new : NarHashKey * Z) (d : disk) : Prop :=
  exists after, disk_state after d /\ forall r, r ∈ after -> r ∈ recs \/ r = new.

Lemma written_no_more recs recs1 k n m :
  recs1 `prefix_of` recs -> sizes_ok recs1 -> u64_ok n -> no_more recs (k, n) (Some (log recs1 ++ take m (record_line k n))).
Proof.
  intros Hp Hs Hn. destruct Hp as [later ->]. destruct (decide (length (record_line k n) <= m)) as [Hm|Hm].
  - exists (recs1 ++ [(k, n)]). rewrite take_ge by lia. split; [left; by apply disk_holds_snoc|].
    intros r [?|?%list_elem_of_singleton]%elem_of_app; [left; apply elem_of_app; by left|by right].
  - exists recs1. rewrite record_line_body, length_app in Hm. cbn [length] in Hm. rewrite record_line_body, take_app_le by lia.
    destruct (line_body_clean k n) as [Hc1 Hc2]; [unfold u64_ok in Hn; lia|]. split.
    + left. apply disk_holds_tail; [done| |by apply Forall_take]. intros Hin. apply Hc1. rewrite <-(take_drop m (line_body k n)). set_solver.
    + intros r Hr. left. apply elem_of_app. by left.
Qed.

Lemma overwritten_no_more recs recs1 new rest data :
  recs1 `prefix_of` recs -> sizes_ok recs1 -> rest <> [] -> Z.of_nat (length (log recs1)) = MAX_ALLOWLIST_FILE_BYTES ->
  no_more recs new (Some (write_at (log recs1 ++ rest) (length (log recs1)) data)).
Proof.
  intros [later ->] Hs Hr Hlen. exists recs1. split; [|intros r ?; left; apply elem_of_app; by left]. right.
  exists (data ++ drop (length data) rest). split_and!; try done.
  - unfold write_at. rewrite take_app_length, drop_app_ge by lia. do 4 f_equal. lia.
  - intros [-> Hd]%app_nil. cbn in Hd. done.
Qed.

Lemma append_locked_any os existed recs bytes k n r bytes' :
  disk_state recs (Some bytes) -> u64_ok n -> append_locked os existed bytes k n = (r, bytes') -> no_more recs (k, n) (Some bytes').
Proof.
  intros Hd Hn. assert (no_more recs (k, n) (Some bytes)) as Hsame by (exists recs; split; [done|by left]).
  destruct (disk_state_read recs bytes Hd) as (recs1 & tail1 & rest & Htm & -> & Hp & Hs & Ht & Ha & Hrest).
  unfold Allowlist.append_locked. destruct (read_ok os); cbn [negb]; [|by intros [= <- <-]].
  rewrite Htm, committed_len_log by done.
  assert (negb (length (log recs1) =? length (log recs1 ++ tail1)) = negb (bool_decide (tail1 = []))) as ->.
  { rewrite length_app. f_equal. apply Bool.eq_iff_eq_true. rewrite Nat.eqb_eq, bool_decide_eq_true.
    destruct tail1; cbn [length]; split; intros; done || lia. }
  assert (no_more recs (k, n) (Some (log recs1))) as Hbase.
  { pose proof (written_no_more recs recs1 k n 0 Hp Hs Hn) as H0. cbn [take firstn] in H0. by rewrite app_nil_r in H0. }
  pose proof (written_no_more recs recs1 k n) as Hw.
  case_bool_decide as Htail; cbn [negb andb].
  - subst tail1. cbn [app] in *. rewrite app_nil_r in Hrest. destruct (seek_ok os); cbn [negb]; [|by intros [= <- <-]].
    destruct (decide (rest = [])) as [->|Hr].
    + rewrite app_nil_r. destruct (written os) as [m|]; rewrite write_at_end; [intros [= <- <-]; by apply Hw|].
      assert (no_more recs (k, n) (Some (log recs1 ++ record_line k n))) as Hfull.
      { rewrite <-(firstn_all (record_line k n)). by apply Hw. }
      destruct (sync_ok os), existed, (parent_sync_ok os); cbn [negb andb]; by intros [= <- <-].
    + pose proof (fun data => overwritten_no_more recs recs1 (k, n) rest data Hp Hs Hr (Hrest Hr)) as Hov.
      destruct (written os) as [m|]; [intros [= <- <-]; by apply Hov|].
      destruct (sync_ok os), existed, (parent_sync_ok os); cbn [negb andb]; intros [= <- <-]; by apply Hov.
  - destruct (truncate_ok os); cbn [negb]; [|by intros [= <- <-]]. rewrite take_app_length.
    destruct (seek_ok os); cbn [negb]; [|by intros [= <- <-]].
    destruct (written os) as [m|]; rewrite write_at_end; [intros [= <- <-]; by apply Hw|].
    assert (no_more recs (k, n) (Some (log recs1 ++ record_line k n))) as Hfull.
    { rewrite <-(firstn_all (record_line k n)). by apply Hw. }
    destruct (sync_ok os), existed, (parent_sync_ok os); cbn [negb andb]; by intros [= <- <-].
Qed.

Lemma disk_state_open recs d d' : disk_state recs d -> d' = d \/ d' = Some (default [] d) -> disk_state recs d'.
Proof.
  intros [Hd|(rest & -> & Hr)] Heq; [left; by eapply disk_holds_open|right]. exists rest. by destruct Heq as [->| ->].
Qed.

(** Whatever an append does to a file of any size, the file then holds nothing new but the record. *)
Lemma append_any os recs d k n r d' :
  disk_state recs d -> u64_ok n -> append os d k n = (r, d') -> no_more recs (k, n) d'.
Proof.
  intros Hd Hn. assert (forall d1, disk_state recs d1 -> no_more recs (k, n) d1) as Hsame by (intros d1 H1; exists recs; split; [done|by left]).
  unfold Allowlist.append. destruct (_ && _); [intros [= <- <-]; by apply Hsame|].
  destruct (check_parent os); [|intros [= <- <-]; by apply Hsame].
  destruct (open_strict os OReadWrite d) as [[[o|]|e] d1] eqn:E.
  - pose proof (open_strict_bytes _ _ _ _ _ E) as [-> ->].
    pose proof (disk_state_open recs d _ Hd (or_intror eq_refl)) as Hd1.
    destruct (lock_ok os); cbn [negb]; [|intros [= <- <-]; by apply Hsame]. cbn [from_option id].
    match goal with |- context [let '(_, _) := ?t in _] => destruct t as [r0 b'] eqn:E2 end.
    intros [= <- <-]. by eapply append_locked_any in E2.
  - exfalso. unfold open_strict in E. destruct d, (open_ok os); simpl in E; try done.
    all: destruct (file_stat os); simpl in E; simplify_eq; by inv_ok.
  - intros [= <- <-]. apply Hsame. eapply disk_state_open; [done|]. by eapply open_strict_disk.
Qed.

Lemma load_state os recs d loaded : disk_state recs d -> load os d = Some (Ok loaded) -> loaded = recs.
Proof.
  intros [Hd|(rest & -> & _ & Hr & Hlen)]; [by apply load_holds|]. unfold Allowlist.load.
  destruct (open_strict os ORead _) as [[[o|]|e] d1] eqn:E; cbn [fst]; [| |done].
  - pose proof (open_strict_bytes _ _ _ _ _ E) as [-> _]. cbn [from_option id]. destruct (negb (lock_ok os)); [done|].
    intros (r & Hr1 & Hf)%bind_Some. injection Hf as Hf. destruct (negb (size_stat_ok os)); [by simplify_eq|].
    destruct (Z.ltb_spec MAX_ALLOWLIST_FILE_BYTES (Z.of_nat (length (log recs ++ rest)))) as [|Hle]; [by simplify_eq|].
    rewrite length_app in Hle. destruct rest; [done|]. cbn in Hle. lia.
  - exfalso. unfold open_strict in E. destruct (open_ok os); simpl in E; [|done].
    destruct (file_stat os); simpl in E; simplify_eq; by inv_ok.
Qed.

(** ** A node's life *)

Context (debug : bool) (ks : TrustedNarKeys).

Inductive event :=
| Presented (requested narinfo : list byte) (outcome : LearnOutcome)
| Restarted.

(** First boot without a file, then learns and successful restarts; a crash in
    the middle of an append is a partial write followed by a restart.  A [bounded]
    life is one in which no append starts on a file over the size limit. *)
Inductive run (bounded : bool) : list event -> PublicNarAllowlist -> disk -> Prop :=
| run_boot os al :
    open_file keyed_hash os ks mac_key None = Some (Ok al) -> run bounded [] al None
| run_learn evs al d os requested narinfo outcome al' d' :
    run bounded evs al d -> (bounded = true -> fits d) ->
    learn base64_decode keyed_hash debug os mac_key al d requested narinfo = Some (outcome, al', d') ->
    run bounded (evs ++ [Presented requested narinfo outcome]) al' d'
| run_restart evs al d os al' :
    run bounded evs al d -> open_file keyed_hash os ks mac_key d = Some (Ok al') -> run bounded (evs ++ [Restarted]) al' d.

(** Some presented narinfo, for its own request, proved [k] public at size [n]. *)
Definition proven (evs : list event) (k : NarHashKey) (n : Z) : Prop :=
  exists requested narinfo outcome v, Presented requested narinfo outcome ∈ evs /\
    proof_of base64_decode narinfo ks v /\ vp_store_hash v = requested /\ vp_nar_hash v = k /\ vp_nar_size v = n.

Definition collected (recs : list (NarHashKey * Z)) (m : gmap NarHashKey Z) : Prop := m ⊆ collect recs.

Lemma collect_snoc recs k n : collect (recs ++ [(k, n)]) = <[k := n]> (collect recs).
Proof. unfold collect. by rewrite foldl_snoc. Qed.

Lemma collect_elem recs k n : collect recs !! k = Some n -> (k, n) ∈ recs.
Proof.
  induction recs as [|[k' n'] recs IH] using rev_ind; [done|]. rewrite collect_snoc, elem_of_app, list_elem_of_singleton.
  destruct (decide (k' = k)) as [->|Hne].
  - rewrite lookup_insert. case_decide; [|done]. intros [= ->]. by right.
  - rewrite lookup_insert_ne by done. auto.
Qed.

Record run_inv (evs : list event) (al : PublicNarAllowlist) (d : disk) (recs : list (NarHashKey * Z)) : Prop := {
  inv_trusted : trusted al = ks;
  inv_disk : disk_holds recs d;
  inv_proven : forall k n, (k, n) ∈ recs -> proven evs k n;
  inv_memory : entries al ⊆ collect recs;
  inv_appended : forall rq ni k n, Presented rq ni (Appended k n) ∈ evs -> entries al !! k = Some n
}.

Lemma proven_more evs e k n : proven evs k n -> proven (evs ++ [e]) k n.
Proof.
  intros (rq & ni & o & v & Hin & Hrest). exists rq, ni, o, v. split; [|done]. rewrite elem_of_app. by left.
Qed.

Lemma open_file_spec os d al recs :
  disk_holds recs d -> open_file keyed_hash os ks mac_key d = Some (Ok al) ->
  al = {| trusted := ks; entries := collect recs |}.
Proof.
  intros Hd. unfold open_file. intros (r & Hr & Hal)%bind_Some. injection Hal as Hal.
  destruct r as [loaded|e]; [|done]. simpl in Hal. injection Hal as <-.
  by rewrite (load_holds _ _ _ _ Hd Hr).
Qed.

Lemma run_inv_kept evs evs' al d recs :
  run_inv evs al d recs -> (forall e, e ∈ evs' -> exists rq ni o, e = Presented rq ni o /\ forall k n, o <> Appended k n) ->
  run_inv (evs ++ evs') al d recs.
Proof.
  intros [] He. split; [done|done| |done|].
  - intros k n (rq & ni & o & v & Hin & ?)%inv_proven0. exists rq, ni, o, v. split; [|done].
    rewrite elem_of_app. by left.
  - intros rq ni k n [Hin|Hin]%elem_of_app; [eauto|].
    destruct (He _ Hin) as (? & ? & ? & [= <- <- <-] & Ho). by destruct (Ho k n).
Qed.

Lemma run_invariant evs al d : run true evs al d -> exists recs, run_inv evs al d recs.
Proof.
  induction 1 as [os al Hopen|evs al d os rq ni out al' d' _ [recs IH] Hfit Hl|evs al d os al' _ [recs IH] Hopen].
  - assert (disk_holds [] None) as Hd by (split; [constructor|by left]).
    apply (open_file_spec _ _ _ _ Hd) in Hopen as ->. exists []. split; try done.
    all: intros; by exfalso; eapply not_elem_of_nil.
  - pose proof IH as [Ht Hd Hp Hm Ha]. unfold learn in Hl. rewrite Ht in Hl.
    apply bind_Some in Hl as (proof & Hproof & Hl).
    destruct proof as [v|e].
    2:{ simplify_eq. exists recs. apply run_inv_kept; [done|]. intros e' ->%list_elem_of_singleton. eauto 6. }
    destruct (bool_decide _) eqn:Hrq in Hl; simpl in Hl.
    2:{ simplify_eq. exists recs. apply run_inv_kept; [done|]. intros e' ->%list_elem_of_singleton. eauto 6. }
    apply bool_decide_eq_true in Hrq. apply prove_public_Ok in Hproof.
    destruct (entries al !! vp_nar_hash v) as [existing|] eqn:Hex.
    { destruct (_ && _); simplify_eq. exists recs. apply run_inv_kept; [done|].
      intros e' ->%list_elem_of_singleton. eauto 6. }
    destruct (Allowlist.append keyed_hash os mac_key d (vp_nar_hash v) (vp_nar_size v)) as [r d1] eqn:Happ.
    assert (u64_ok (vp_nar_size v)) as Hsz.
    { destruct Hproof as (_ & _ & ? & ? & ? & ? & _ & _ & _ & _ & _ & _ & Hsz & _). by eapply parse_u64_ok. }
    assert (proven (evs ++ [Presented rq ni out]) (vp_nar_hash v) (vp_nar_size v)) as Hnew.
    { exists rq, ni, out, v. split; [|done]. rewrite elem_of_app, list_elem_of_singleton. by right. }
    assert (forall k n, (k, n) ∈ recs ++ [(vp_nar_hash v, vp_nar_size v)] ->
              proven (evs ++ [Presented rq ni out]) k n) as Hpall.
    { intros k n [Hin|Hin%list_elem_of_singleton]%elem_of_app; [by apply proven_more, Hp|by simplify_eq]. }
    destruct (append_cases _ _ _ _ _ _ _ Hd (Hfit eq_refl) Hsz Happ) as [Hd1|[Hr Hd1]].
    + exists (recs ++ [(vp_nar_hash v, vp_nar_size v)]). destruct r as [[]|e]; simplify_eq.
      * split; [done|done|done| |]; cbn [entries].
        -- rewrite collect_snoc. by apply insert_mono.
        -- intros rq' ni' k n [Hin|Hin%list_elem_of_singleton]%elem_of_app.
           ++ apply Ha in Hin. rewrite lookup_insert_ne; [done|]. congruence.
           ++ simplify_eq. by apply lookup_insert_eq.
      * split; [done|done|done| |].
        -- rewrite collect_snoc. by apply insert_subseteq_r.
        -- intros rq' ni' k n [Hin|Hin%list_elem_of_singleton]%elem_of_app; [eauto|done].
    + destruct r as [[]|e]; [done|]. simplify_eq. exists recs.
      assert (run_inv evs al' d' recs) as Hinv by by split.
      apply run_inv_kept; [done|]. intros e' ->%list_elem_of_singleton. eauto 6.
  - pose proof IH as [Ht Hd Hp Hm Ha]. exists recs.
    apply (open_file_spec _ _ _ _ Hd) in Hopen as ->. split; [done|done| |done|].
    + intros k n Hin. by apply proven_more, Hp.
    + intros rq ni k n [Hin|Hin%list_elem_of_singleton]%elem_of_app; [|done].
      cbn [entries]. eapply lookup_weaken; [by eapply Ha|done].
Qed.

(** The part of the invariant that files of any size keep: memory and file hold
    only what was proved. *)
Record safe_inv (evs : list event) (al : PublicNarAllowlist) (d : disk) (recs : list (NarHashKey * Z)) : Prop := {
  safe_trusted : trusted al = ks;
  safe_disk : disk_state recs d;
  safe_records : forall k n, (k, n) ∈ recs -> proven evs k n;
  safe_memory : forall k n, entries al !! k = Some n -> proven evs k n
}.

Lemma safe_inv_more evs e al d recs : safe_inv evs al d recs -> safe_inv (evs ++ [e]) al d recs.
Proof. intros []. split; [done|done|..]; intros k n Hk; apply proven_more; auto. Qed.

Lemma learn_safe evs al d recs os requested narinfo outcome al' d' :
  safe_inv evs al d recs -> learn base64_decode keyed_hash debug os mac_key al d requested narinfo = Some (outcome, al', d') ->
  exists recs', safe_inv (evs ++ [Presented requested narinfo outcome]) al' d' recs'.
Proof.
  intros Hi Hl. pose proof (safe_inv_more _ (Presented requested narinfo outcome) _ _ _ Hi) as Hi'. unfold learn in Hl.
  rewrite (safe_trusted _ _ _ _ Hi) in Hl. apply bind_Some in Hl as (proof & Hproof & Hl).
  destruct proof as [v|e]; [|simplify_eq; eauto]. destruct (bool_decide _) eqn:Hrq in Hl; simpl in Hl; [|simplify_eq; eauto].
  apply bool_decide_eq_true in Hrq. apply prove_public_Ok in Hproof.
  destruct (entries al !! vp_nar_hash v) as [existing|]; [destruct (_ && _); simplify_eq; eauto|].
  destruct (Allowlist.append keyed_hash os mac_key d (vp_nar_hash v) (vp_nar_size v)) as [r d1] eqn:Happ.
  assert (u64_ok (vp_nar_size v)) as Hsz.
  { destruct Hproof as (_ & _ & ? & ? & ? & ? & _ & _ & _ & _ & _ & _ & Hsz & _). by eapply parse_u64_ok. }
  assert (proven (evs ++ [Presented requested narinfo outcome]) (vp_nar_hash v) (vp_nar_size v)) as Hnew.
  { exists requested, narinfo, outcome, v. split; [|done]. rewrite elem_of_app, list_elem_of_singleton. by right. }
  destruct (append_any _ _ _ _ _ _ _ (safe_disk _ _ _ _ Hi) Hsz Happ) as (after & Hd1 & Hafter). exists after.
  assert (forall k n, (k, n) ∈ after -> proven (evs ++ [Presented requested narinfo outcome]) k n) as Hrecs.
  { intros k n [Hin|[= -> ->]]%Hafter; [by apply (safe_records _ _ _ _ Hi')|done]. }
  destruct r as [[]|e]; simplify_eq; (split; [done || apply Hi|done|done|]).
  - cbn [entries]. intros k n. destruct (decide (vp_nar_hash v = k)) as [<-|Hne].
    + rewrite lookup_insert_eq. by intros [= <-].
    + rewrite lookup_insert_ne by done. apply (safe_memory _ _ _ _ Hi').
  - apply (safe_memory _ _ _ _ Hi').
Qed.

Lemma run_safe bounded evs al d : run bounded evs al d -> exists recs, safe_inv evs al d recs.
Proof.
  induction 1 as [os al Hopen|evs al d os rq ni out al' d' _ [recs IH] _ Hl|evs al d os al' _ [recs IH] Hopen].
  - assert (disk_holds [] None) as Hd by (split; [constructor|by left]).
    apply (open_file_spec _ _ _ _ Hd) in Hopen as ->. exists []. split; [done|by left| |done].
    by intros k n ?%not_elem_of_nil.
  - by eapply learn_safe.
  - exists recs. unfold open_file in Hopen. apply bind_Some in Hopen as (r & Hr & Hal). injection Hal as Hal.
    destruct r as [loaded|e]; [|done]. simpl in Hal. injection Hal as <-.
    rewrite (load_state _ _ _ _ (safe_disk _ _ _ _ IH) Hr).
    apply safe_inv_more. split; [done|apply IH|apply IH|]. intros k n Hk%collect_elem. by apply (safe_records _ _ _ _ IH).
Qed.

(** Nothing unproven is ever approved for publication.  After any sequence of
    learns, failed or torn writes and restarts, with a file of any size, a
    publication claim the allowlist mints names a hash and a size that some
    presented narinfo, for its own request, proved under the configured keys. *)
Lemma approved_is_proven bounded evs al d k expected c :
  run bounded evs al d -> approve al k expected = Ok c -> claim_nar_hash c = k /\ proven evs k (claim_nar_size c).
Proof. intros [recs Hinv]%run_safe (Hk & Hck & _)%approve_Ok. split; [done|]. by eapply safe_memory. Qed.

(** An appended entry is durable and a restart recovers it: after any later
    learns, failures, torn writes and restarts it is still approved at its size,
    and a restart under a healthy operating system succeeds, keeping every entry
    the node had. *)
Theorem appended_durable evs al d requested narinfo k n os :
  run true evs al d -> Presented requested narinfo (Appended k n) ∈ evs -> fits d -> healthy os ->
  approve al k (Some n) = Ok {| claim_nar_hash := k; claim_nar_size := n |} /\
  exists al', open_file keyed_hash os ks mac_key d = Some (Ok al') /\ entries al ⊆ entries al' /\
    approve al' k (Some n) = Ok {| claim_nar_hash := k; claim_nar_size := n |}.
Proof.
  intros [recs Hinv]%run_invariant Hin Hfit Hos.
  pose proof (inv_appended _ _ _ _ Hinv _ _ _ _ Hin) as Hk.
  assert (forall m, m !! k = Some n ->
    approve {| trusted := ks; entries := m |} k (Some n) = Ok {| claim_nar_hash := k; claim_nar_size := n |}) as Happ.
  { intros m Hm. apply approve_Ok. cbn. by split_and!; [| |intros ? [= ->]]. }
  assert (al = {| trusted := ks; entries := entries al |}) as Hal.
  { destruct al. pose proof (inv_trusted _ _ _ _ Hinv). simpl in *. by subst. }
  split; [rewrite Hal; by apply Happ|].
  exists {| trusted := ks; entries := collect recs |}. unfold open_file.
  rewrite (load_healthy os recs d Hos (inv_disk _ _ _ _ Hinv) Hfit). split; [done|].
  split; [apply Hinv|]. apply Happ. eapply lookup_weaken; [done|apply Hinv].
Qed.

(** A committed line is trusted only with its MAC. *)
Lemma parse_line_Ok line k n :
  parse_line line = Some (Ok (k, n)) <->
  exists size, line = NarHashKey_to_string k ++ [space] ++ size ++ [space] ++ record_mac k n /\
    parse_u64 size = Some n.
Proof.
  unfold Allowlist.parse_line. split.
  - destruct (split_once space line) as [[h rest]|] eqn:E1; [|done].
    destruct (split_once space rest) as [[size mac]|] eqn:E2; [|done].
    apply split_once_Some in E1 as [-> _], E2 as [-> _].
    intros (parsed & Hp & Hr)%bind_Some. injection Hr as Hr.
    destruct parsed as [k'|]; [|done]. cbn in Hr.
    destruct (parse_u64 size) as [n'|] eqn:Hn; [|done]. cbn in Hr.
    destruct (constant_time_eq mac (record_mac k' n')) eqn:Hm; [|done]. cbn in Hr. injection Hr as <- <-.
    apply constant_time_eq_iff in Hm as ->. apply NarHashKey_from_str_iff in Hp as ->. by exists size.
  - intros (size & -> & Hn). cbn [app].
    rewrite (proj2 (split_once_Some space _ (NarHashKey_to_string k) (size ++ space :: record_mac k n))).
    2:{ split; [done|]. intros Hb%key_chars. by apply visible_not in Hb as (? & _). }
    rewrite (proj2 (split_once_Some space _ size (record_mac k n))).
    2:{ split; [done|]. intros Hb. by apply (parse_u64_no_space size n) in Hb. }
    rewrite (proj2 (NarHashKey_from_str_iff _ k) eq_refl). cbn [mbind option_bind map_err result_bind].
    rewrite Hn. cbn [ok_or mbind result_bind]. by rewrite (proj2 (constant_time_eq_iff _ _) eq_refl).
Qed.
End store_proofs.

(** ** A life of one learn *)

Section witnesses.

Definition w_key : NarHashKey := from_sha256_bytes (fill 32 x11).
Definition w_store_path : list byte := str "/nix/store/aaaa-x".
Definition w_fingerprint : list byte := fingerprint w_store_path (NarHashKey_to_string w_key) 4096 [].

(** The sample scheme, with a key of its own; signatures are written in hex. *)
Definition w_ed25519 : Ed25519 := toy_ed25519.
#[local] Existing Instance w_ed25519.
Definition w_signer : array 32 := fill 32 x01.

Definition w_base64 (s : list byte) : result (list byte) (list byte) := map_err (fun _ => s) (hexfmt.decode_var s).
Definition w_keyed_hash (_ : array 32) (_ : list byte) : array 32 := fill 32 x07.
Definition w_trusted : TrustedNarKeys := {| trusted_keys := <[str "k" := w_signer]> ∅ |}.

Definition w_os : Os := {|
  euid := 1000; create_dir_ok := true; parent_open_ok := true;
  parent_stat := Some {| st_regular := false; st_directory := true; st_nlink := 2; st_uid := 1000; st_mode := 448 |};
  open_ok := true;
  file_stat := Some {| st_regular := true; st_directory := false; st_nlink := 1; st_uid := 1000; st_mode := 384 |};
  lock_ok := true; size_stat_ok := true; read_ok := true; truncate_ok := true; seek_ok := true;
  written := None; sync_ok := true; parent_sync_ok := true; unlock_ok := true |}.

Definition w_narinfo : list byte := Eval vm_compute in
  str "StorePath: /nix/store/aaaa-x" ++ [newline] ++
  str "URL: nar/1abc.nar.xz" ++ [newline] ++
  str "NarHash: " ++ NarHashKey_to_string w_key ++ [newline] ++
  str "NarSize: 4096" ++ [newline] ++
  str "References: " ++ [newline] ++
  str "Sig: k:" ++ hexfmt.encode (arr_bytes (toy_sign w_signer w_fingerprint)) ++ [newline].

Definition w_learned := learn w_base64 w_keyed_hash true w_os (fill 32 x09)
  {| trusted := w_trusted; entries := ∅ |} None (str "aaaa") w_narinfo.

Definition w_check (r : option (LearnOutcome * PublicNarAllowlist * disk)) : bool :=
  match r with
  | Some (Appended k n, al, d) => bool_decide (k = w_key) && (n =? 4096)%Z &&
      match approve al w_key None with Ok c => (claim_nar_size c =? 4096)%Z | Err _ => false end &&
      (Z.of_nat (length (default [] d)) <=? MAX_ALLOWLIST_FILE_BYTES)%Z
  | _ => false
  end.

Lemma w_check_sound r :
  w_check r = true -> exists al d, r = Some (Appended w_key 4096, al, d) /\
    approve al w_key None = Ok {| claim_nar_hash := w_key; claim_nar_size := 4096 |} /\ fits d.
Proof.
  destruct r as [[[[k n| | | |] al] d]|]; cbn [w_check]; try done. intros Hc.
  apply andb_true_iff in Hc as [Hc Hfit%Z.leb_le]. apply andb_true_iff in Hc as [Hc Ha].
  apply andb_true_iff in Hc as [->%bool_decide_eq_true ->%Z.eqb_eq].
  exists al, d. split; [done|]. split; [|done].
  destruct (approve al w_key None) as [c|] eqn:Happ; [|done].
  apply approve_Ok in Happ as (_ & Hk & _). apply Z.eqb_eq in Ha. destruct c. cbn in *. by subst.
Qed.

Lemma w_run : exists al d,
  run w_base64 w_keyed_hash (fill 32 x09) true w_trusted true
    [Presented (str "aaaa") w_narinfo (Appended w_key 4096)] al d /\
  approve al w_key None = Ok {| claim_nar_hash := w_key; claim_nar_size := 4096 |} /\ fits d.
Proof.
  destruct (w_check_sound w_learned) as (al & d & Hl & Ha & Hfit); [vm_compute; reflexivity|].
  exists al, d. split; [|exact (conj Ha Hfit)]. unfold w_learned in Hl.
  apply (run_learn _ _ _ _ _ _ [] {| trusted := w_trusted; entries := ∅ |} None w_os); [| |exact Hl].
  - apply (run_boot _ _ _ _ _ _ w_os). reflexivity.
  - intros _. unfold fits, MAX_ALLOWLIST_FILE_BYTES. cbn. lia.
Qed.

Lemma w_healthy : healthy w_os.
Proof. unfold healthy. do 5 (split; [done|]). eexists. split; [reflexivity|]. by split_and!. Qed.

Lemma appended_durable_witness : exists al d al',
  run w_base64 w_keyed_hash (fill 32 x09) true w_trusted true
    [Presented (str "aaaa") w_narinfo (Appended w_key 4096)] al d /\
  open_file w_keyed_hash w_os w_trusted (fill 32 x09) d = Some (Ok al') /\ entries al ⊆ entries al'.
Proof.
  destruct w_run as (al & d & Hrun & Ha & Hfit).
  destruct (appended_durable _ _ _ _ _ _ al d (str "aaaa") w_narinfo w_key 4096 w_os Hrun
    (list_elem_of_here _ _) Hfit w_healthy) as [_ (al' & Ho & Hsub & _)].
  exists al, d, al'. exact (conj Hrun (conj Ho Hsub)).
Defined.

End witnesses.
