(* ===== verification/Http.v ===== *)
(** * HTTP plumbing of the daemon: headers, framing checks and the accounting body

    The header functions of daemon-core/src/source.rs and server.rs, and the
    `LoggingBody` of server.rs.  A `HeaderMap` is the multimap it documents:
    lower-case names to the values of that name in order.  A response body is
    what its stream yields: data frames, then a clean end or an error. *)

From Stdlib Require Import Strings.Byte ZArith Lia.
From stdpp Require Import base sets gmap numbers strings list.
From S2P Require Import Prelude Text Utf8 Rewrite.

(** ** Header maps *)

Definition HeaderName : Type := list byte.
Definition HeaderValue : Type := list byte.
Abbreviation HeaderMap := (gmap HeaderName (list HeaderValue)).

Definition get_all (h : HeaderMap) (n : HeaderName) : list HeaderValue := default [] (h !! n).
Definition contains_key (h : HeaderMap) (n : HeaderName) : bool := bool_decide (is_Some (h !! n)).
Definition header_get (h : HeaderMap) (n : HeaderName) : option HeaderValue := head (get_all h n).
Definition header_append (h : HeaderMap) (n : HeaderName) (v : HeaderValue) : HeaderMap :=
  <[n := get_all h n ++ [v]]> h.
Definition header_insert (h : HeaderMap) (n : HeaderName) (v : HeaderValue) : HeaderMap := <[n := [v]]> h.
Definition header_remove (h : HeaderMap) (n : HeaderName) : HeaderMap := delete n h.

(** The map holds a name exactly when it has a value for it. *)
Definition headers_wf (h : HeaderMap) : Prop := forall n vs, h !! n = Some vs -> vs <> [].

Definition CONNECTION : HeaderName := str "connection".
Definition TRANSFER_ENCODING : HeaderName := str "transfer-encoding".
Definition CONTENT_LENGTH : HeaderName := str "content-length".
Definition CONTENT_TYPE : HeaderName := str "content-type".
Definition ETAG : HeaderName := str "etag".
Definition LAST_MODIFIED : HeaderName := str "last-modified".

Definition comma : byte := x2c.

(** source::ascii_lower_trim *)
Definition ascii_lower_trim (bytes : list byte) : list byte := to_ascii_lowercase <$> ascii_trim bytes.

(** The non-empty, lower-cased tokens of the comma lists of a header. *)
Definition header_tokens (h : HeaderMap) (n : HeaderName) : list (list byte) :=
  filter (fun t => t <> [])
    (ascii_lower_trim <$> (get_all h n ≫= split_on comma)).

(** source::has_unsupported_transfer_coding *)
Definition has_unsupported_transfer_coding (h : HeaderMap) : bool :=
  match header_tokens h TRANSFER_ENCODING with
  | [] => false
  | [one] => negb (bool_decide (one = str "chunked")) && negb (bool_decide (one = str "identity"))
  | _ => true
  end.

(** source::has_ambiguous_framing *)
Definition has_ambiguous_framing (h : HeaderMap) : bool :=
  contains_key h TRANSFER_ENCODING && contains_key h CONTENT_LENGTH.

(** source::is_http_token_char *)
Definition is_http_token_char (b : byte) : bool :=
  is_ascii_alphanumeric b || bool_decide (b ∈ str "!#$%&'*+-.^_`|~").

(** source::connection_header_is_malformed *)
Definition connection_header_is_malformed (h : HeaderMap) : bool :=
  existsb (fun value =>
    existsb (fun b => negb (bool_decide (b = comma) || Utf8.is_ascii_whitespace b || is_http_token_char b)) value)
    (get_all h CONNECTION).

(** server::must_fail_closed *)
Definition must_fail_closed (h : HeaderMap) : bool :=
  has_unsupported_transfer_coding h || connection_header_is_malformed h || has_ambiguous_framing h.

Definition HOP_BY_HOP : list HeaderName :=
  [str "connection"; str "keep-alive"; str "proxy-authenticate"; str "proxy-authorization";
   str "te"; str "trailer"; str "transfer-encoding"; str "upgrade"].

Definition is_hop_by_hop (n : HeaderName) : bool := bool_decide (n ∈ HOP_BY_HOP).

(** server::connection_listed_tokens *)
Definition connection_listed_tokens (h : HeaderMap) : list (list byte) := header_tokens h CONNECTION.

(** server::forward_headers *)
Definition forward_headers (dst src : HeaderMap) : HeaderMap :=
  let connection_tokens := connection_listed_tokens src in
  foldl (fun dst '(name, values) =>
      if is_hop_by_hop name || bool_decide (name ∈ connection_tokens) then dst
      else foldl (fun dst v => header_append dst name v) dst values)
    dst (map_to_list src).

(** ** Bodies *)

(** The frames a body yields; [body_error] is the error it ends with, if any. *)
Record Body := { body_data : list (list byte); body_error : option (list byte) }.

Definition full (bytes : list byte) : Body := {| body_data := [bytes]; body_error := None |}.
Definition empty_body : Body := {| body_data := []; body_error := None |}.
Definition body_bytes (b : Body) : list byte := concat (body_data b).

(** `Limited::new(body, max).collect()`: the whole body, or an error when it
    fails or exceeds [max]. *)
Definition collect_limited (max : Z) (b : Body) : option (list byte) :=
  if (max <? Z.of_nat (length (body_bytes b)))%Z then None
  else match body_error b with Some _ => None | None => Some (body_bytes b) end.

(** ** LoggingBody *)

Inductive SubstitutionOutcome :=
| Complete (bytes : Z)
| Aborted (bytes : Z) (reason : list byte).

(** What the inner body answers to one `poll_frame`, with its `is_end_stream`
    right after. *)
Inductive Poll :=
| PollData (data : list byte) (ended : bool)
| PollTrailers (ended : bool)
| PollError (e : list byte)
| PollNone
| PollPending.

(** The wrapper: bytes drained, the fuse, and what the sink was told. *)
Record LoggingBody := { drained : Z; reported : bool; sink : list SubstitutionOutcome }.

Definition log_report (b : LoggingBody) (o : SubstitutionOutcome) : LoggingBody :=
  if reported b then b
  else {| drained := drained b; reported := true; sink := sink b ++ [o] |}.

(** LoggingBody::new, over an inner body that already ended or not. *)
Definition LoggingBody_new (ended : bool) : LoggingBody :=
  let body := {| drained := 0; reported := false; sink := [] |} in
  if ended then log_report body (Complete 0) else body.

(** The frame arm of `poll_frame` after the count. *)
Definition log_frame (b : LoggingBody) (ended : bool) : LoggingBody :=
  if ended then log_report b (Complete (drained b)) else b.

Definition poll_frame (b : LoggingBody) (p : Poll) : LoggingBody :=
  match p with
  | PollData data ended =>
      let b := {| drained := u64_saturating_add (drained b) (Z.of_nat (length data));
                  reported := reported b; sink := sink b |} in
      log_frame b ended
  | PollTrailers ended => log_frame b ended
  | PollError e => log_report b (Aborted (drained b) e)
  | PollNone => log_report b (Complete (drained b))
  | PollPending => b
  end.

Definition dropped_reason : list byte :=
  str "body dropped before completion (client hung up or handler cancelled)".

Definition LoggingBody_drop (b : LoggingBody) : LoggingBody :=
  if negb (reported b) then log_report b (Aborted (drained b) dropped_reason) else b.

(** `is_end_stream` of the wrapper. *)
Definition LoggingBody_is_end_stream (b : LoggingBody) : bool := reported b.

(** The whole life of a body: polls, then the drop. *)
Definition logging_life (ended : bool) (polls : list Poll) : LoggingBody :=
  LoggingBody_drop (foldl poll_frame (LoggingBody_new ended) polls).

(** ** Forwarding headers *)

Lemma get_all_append h n v m :
  get_all (header_append h n v) m = if decide (m = n) then get_all h n ++ [v] else get_all h m.
Proof.
  unfold header_append, get_all. case_decide as Hm; [subst; by rewrite lookup_insert_eq|].
  by rewrite lookup_insert_ne by congruence.
Qed.

Lemma get_all_appends h n vs m :
  get_all (foldl (fun h v => header_append h n v) h vs) m =
  if decide (m = n) then get_all h n ++ vs else get_all h m.
Proof.
  revert h. induction vs as [|v vs IH]; intros h; simpl.
  - case_decide; [subst; by rewrite app_nil_r|done].
  - rewrite IH, !get_all_append. rewrite (decide_True (P := n = n)) by done. case_decide; [|done].
    by rewrite <-app_assoc.
Qed.

(** A name is stripped when it is hop-by-hop or a Connection header lists it. *)
Definition stripped (src : HeaderMap) (n : HeaderName) : Prop :=
  n ∈ HOP_BY_HOP \/ n ∈ connection_listed_tokens src.
#[export] Instance stripped_dec src n : Decision (stripped src n).
Proof. unfold stripped. apply _. Defined.

Lemma get_all_forward dst src n :
  get_all (forward_headers dst src) n =
  get_all dst n ++ (if decide (stripped src n) then [] else get_all src n).
Proof.
  unfold forward_headers. set (toks := connection_listed_tokens src).
  assert (forall l dst, NoDup l.*1 ->
    get_all (foldl (fun dst '(name, values) =>
      if is_hop_by_hop name || bool_decide (name ∈ toks) then dst
      else foldl (fun dst v => header_append dst name v) dst values) dst l) n =
    get_all dst n ++ (if decide (stripped src n) then [] else default [] (list_to_map (M := gmap _ _) l !! n))) as Hl.
  { clear dst. induction l as [|[k vs] l IH]; intros dst Hnd; simpl.
    - rewrite lookup_empty. case_decide; by rewrite app_nil_r.
    - apply NoDup_cons in Hnd as [Hk Hnd]. rewrite IH by done.
      assert (is_hop_by_hop k || bool_decide (k ∈ toks) = true <-> stripped src k) as Hs.
      { unfold is_hop_by_hop, stripped. by rewrite orb_true_iff, !bool_decide_eq_true. }
      destruct (decide (n = k)) as [->|Hne].
      + rewrite lookup_insert_eq. rewrite (not_elem_of_list_to_map_1 (M := gmap HeaderName)) by done. cbn [from_option id].
        destruct (is_hop_by_hop k || bool_decide (k ∈ toks)) eqn:E.
        * rewrite !decide_True by by apply Hs. by rewrite app_nil_r.
        * assert (~ stripped src k) by (intros ?%Hs; congruence).
          rewrite !decide_False by done. rewrite get_all_appends, decide_True, app_nil_r by done. done.
      + rewrite lookup_insert_ne by congruence. f_equal.
        destruct (_ || _); [done|]. by rewrite get_all_appends, decide_False. }
  rewrite Hl by apply NoDup_fst_map_to_list. by rewrite list_to_map_to_list.
Qed.

Lemma header_remove_get h n m : get_all (header_remove h n) m = if decide (m = n) then [] else get_all h m.
Proof.
  unfold header_remove, get_all. case_decide; [subst; by rewrite lookup_delete_eq|].
  by rewrite lookup_delete_ne by congruence.
Qed.

Lemma header_insert_get h n v m : get_all (header_insert h n v) m = if decide (m = n) then [v] else get_all h m.
Proof.
  unfold header_insert, get_all. case_decide; [subst; by rewrite lookup_insert_eq|].
  by rewrite lookup_insert_ne by congruence.
Qed.

(** ** The accounting body *)

Definition terminal (p : Poll) : bool :=
  match p with
  | PollData _ ended => ended
  | PollTrailers ended => ended
  | PollError _ => true
  | PollNone => true
  | PollPending => false
  end.

Definition data_len (p : Poll) : Z := match p with PollData d _ => Z.of_nat (length d) | _ => 0 end.
Definition drained_len (polls : list Poll) : Z := foldr (fun p n => data_len p + n)%Z 0%Z polls.

(** The reference account of a transfer, over what the inner body answered. *)
Fixpoint account (sum : Z) (polls : list Poll) : SubstitutionOutcome :=
  match polls with
  | [] => Aborted (Z.min u64_max sum) dropped_reason
  | p :: rest =>
      let sum := (sum + data_len p)%Z in
      if terminal p then
        match p with PollError e => Aborted (Z.min u64_max sum) e | _ => Complete (Z.min u64_max sum) end
      else account sum rest
  end.

Lemma log_reported b polls : reported b = true -> sink (foldl poll_frame b polls) = sink b /\ reported (foldl poll_frame b polls) = true.
Proof.
  revert b. induction polls as [|p polls IH]; intros b Hb; [done|]. simpl.
  assert (reported (poll_frame b p) = true /\ sink (poll_frame b p) = sink b) as [Hr <-].
  { destruct p as [d e|e|e| |]; simpl; unfold log_frame, log_report; simpl; rewrite ?Hb; try done;
      destruct e; simpl; by rewrite ?Hb. }
  by apply IH.
Qed.

Lemma logging_account b polls sum :
  reported b = false -> sink b = [] -> drained b = Z.min u64_max sum -> (0 <= sum)%Z ->
  sink (LoggingBody_drop (foldl poll_frame b polls)) = [account sum polls].
Proof.
  revert b sum. induction polls as [|p polls IH]; intros b sum Hr Hs Hd Hsum; cbn [foldl account].
  { unfold LoggingBody_drop, log_report. rewrite Hr. cbn. by rewrite Hs, Hd. }
  assert (0 <= data_len p)%Z as Hp by (destruct p; simpl; lia).
  destruct (terminal p) eqn:Ht.
  - assert (reported (poll_frame b p) = true /\
      sink (poll_frame b p) = [match p with PollError e => Aborted (Z.min u64_max (sum + data_len p)) e
                               | _ => Complete (Z.min u64_max (sum + data_len p)) end]) as [Hr' Hs'].
    { destruct p as [d e|e|e| |]; simpl in *; subst; unfold log_frame, log_report; simpl; rewrite ?Hr, ?Hs, ?Hd; simpl;
        try done; (split; [done|]); unfold u64_saturating_add; do 2 f_equal; lia. }
    destruct (log_reported _ polls Hr') as [Hs'' Hr'']. unfold LoggingBody_drop. rewrite Hr''. cbn.
    by rewrite Hs'', Hs'.
  - apply IH; [..|lia]; destruct p as [d e|e|e| |]; simpl in *; try done; subst; simpl; try done;
      unfold u64_saturating_add; lia.
Qed.

(** Every NAR transfer is narrated exactly once and honestly: whatever the
    inner body answers and whenever the client goes away, the sink hears one
    outcome; it is Complete exactly when an authoritative end came before any
    error, otherwise Aborted, and its byte count is what was drained up to that
    point (saturating at u64::MAX). *)
Theorem logging_exactly_once ended polls :
  sink (logging_life ended polls) = [if ended then Complete 0 else account 0 polls].
Proof.
  unfold logging_life, LoggingBody_new. destruct ended.
  - destruct (log_reported (log_report {| drained := 0; reported := false; sink := [] |} (Complete 0)) polls)
      as [Hs Hr]; [done|]. unfold LoggingBody_drop. rewrite Hr. exact Hs.
  - by apply logging_account.
Qed.
