(* ===== verification/Server.v ===== *)
(** * The HTTP serving layer: daemon-core/src/server.rs

    Routing, the three response builders and the request handler, over the
    components they call: the header policy (Http.v), the correlation catalog
    (Catalog.v), the narinfo rewriter (Rewrite.v) and the public-NAR allowlist
    (Allowlist.v).  The sources behind the trait objects are functions of [App];
    what one request does to the daemon is a step of [Server].  [serving] is the
    daemon's life as a sequence of requests. *)

From Stdlib Require Import Strings.Byte ZArith Lia.
From stdpp Require Import base sets gmap numbers strings list.
From S2P Require Import Prelude Hex Text Utf8 NixBase32 Ids Rewrite Catalog PublicProof Allowlist Http.

(** ** Upstream answers (source.rs) *)

Definition MAX_NARINFO_BYTES : Z := 2 * 1024 * 1024.

Inductive SourceError :=
| Unreachable (why : list byte)
| TooLarge (limit declared : Z)
| Upstream (why : list byte).

Record UpstreamResponse := { up_status : Z; up_headers : HeaderMap; up_body : Body }.

(** ** Cache info (cacheinfo.rs) *)

Record CacheInfo := { store_dir : list byte; priority : Z; want_mass_query : bool }.
Definition DEFAULT_PRIORITY : Z := 30.
Definition CacheInfo_default : CacheInfo :=
  {| store_dir := str "/nix/store"; priority := DEFAULT_PRIORITY; want_mass_query := true |}.

Definition render (info : CacheInfo) : list byte :=
  str "StoreDir: " ++ store_dir info ++ [newline] ++
  str "WantMassQuery: " ++ show_u64 (if want_mass_query info then 1 else 0)%Z ++ [newline] ++
  str "Priority: " ++ show_u64 (priority info) ++ [newline].

(** ** Routes *)

Inductive Route :=
| RouteCacheInfo
| RouteNarinfo (h : StoreHash)
| RouteNar (token : NarPathToken)
| RouteOther.

(** `trim_start_matches('/')` *)
Fixpoint trim_start_slash (s : list byte) : list byte :=
  match s with
  | b :: r => if decide (b = slash) then trim_start_slash r else s
  | [] => []
  end.

Definition classify (path : list byte) : Route :=
  if decide (path = str "/nix-cache-info") then RouteCacheInfo
  else match strip_prefix (str "/nar/") path with
  | Some token => RouteNar token
  | None =>
      match strip_suffix (str ".narinfo") path with
      | Some rest => RouteNarinfo (trim_start_slash rest)
      | None => RouteOther
      end
  end.

(** ** Requests and responses *)

Inductive Method := GET | HEAD | OtherMethod.

Record Request := { req_method : Method; req_path : list byte; req_headers : HeaderMap }.

(** A response body: relayed as it is, or wrapped in a `LoggingBody`. *)
Inductive NarBody := Plain (b : Body) | Accounted (b : Body).
Definition inner_body (b : NarBody) : Body := match b with Plain b => b | Accounted b => b end.

Record Response := { r_status : Z; r_headers : HeaderMap; r_body : NarBody }.

Definition STATUS_OK : Z := 200.
Definition BAD_GATEWAY : Z := 502.
Definition METHOD_NOT_ALLOWED : Z := 405.

(** `StatusCode::from_u16(status).unwrap_or(BAD_GATEWAY)` *)
Definition status_code (status : Z) : Z :=
  if (100 <=? status)%Z && (status <=? 999)%Z then status else BAD_GATEWAY.

Definition length_value (bytes : list byte) : HeaderValue := show_u64 (Z.of_nat (length bytes)).

Definition text_status (status : Z) (message : list byte) : Response :=
  let body := message ++ [newline] in
  {| r_status := status;
     r_headers := header_append (header_append ∅ CONTENT_TYPE (str "text/plain")) CONTENT_LENGTH (length_value body);
     r_body := Plain (full body) |}.

Definition unavailable : Response := text_status BAD_GATEWAY (str "upstream unavailable").

Definition gateway_error (_ : SourceError) : Response := unavailable.

Definition HOP_BUDGET_HEADER : HeaderName := str "x-nix-p2p-hop-budget-ms".

(** `HeaderValue::to_str`: visible ASCII and tabs only. *)
Definition to_str (v : HeaderValue) : option (list byte) :=
  if forallb (fun b => ((32 <=? u8_val b)%Z && (u8_val b <? 127)%Z) || (u8_val b =? 9)%Z) v then Some v else None.

(** In milliseconds. *)
Definition parse_hop_budget (headers : HeaderMap) : option Z :=
  raw ← header_get headers HOP_BUDGET_HEADER;
  s ← to_str raw;
  parse_u64 (Utf8.trim s).

Definition respond_cache_info (info : CacheInfo) (is_head : bool) : Response :=
  let body := render info in
  {| r_status := STATUS_OK;
     r_headers := header_append (header_append ∅ CONTENT_TYPE (str "text/x-nix-cache-info"))
                    CONTENT_LENGTH (length_value body);
     r_body := Plain (if is_head then empty_body else full body) |}.

Definition forward (result : result SourceError UpstreamResponse) (is_head : bool) : Response :=
  match result with
  | Err err => gateway_error err
  | Ok resp =>
      if must_fail_closed (up_headers resp) then unavailable
      else {| r_status := status_code (up_status resp);
              r_headers := forward_headers ∅ (up_headers resp);
              r_body := Plain (if is_head then empty_body else up_body resp) |}
  end.

Definition forward_nar (result : result SourceError UpstreamResponse) (is_head : bool) : Response :=
  match result with
  | Err err => gateway_error err
  | Ok resp =>
      if must_fail_closed (up_headers resp) then unavailable
      else {| r_status := status_code (up_status resp);
              r_headers := forward_headers ∅ (up_headers resp);
              r_body := if is_head then Plain empty_body
                        else if (up_status resp =? 200)%Z then Accounted (up_body resp)
                        else Plain (up_body resp) |}
  end.

(** ** The application and its state *)

(** The injected trait objects, as they answer while one request is handled. *)
Record App (R C : Type) := {
  narinfo : StoreHash -> option Z -> result SourceError UpstreamResponse;
  nar : NarKey -> option Z -> option Z -> result SourceError UpstreamResponse;
  passthrough : list byte -> option Z -> result SourceError UpstreamResponse;
  cache_info : CacheInfo;
  correlation : C;
  raw_serve : R;
  post_fetch_announce : bool
}.
Arguments narinfo {R C}. Arguments nar {R C}. Arguments passthrough {R C}. Arguments cache_info {R C}.
Arguments correlation {R C}. Arguments raw_serve {R C}. Arguments post_fetch_announce {R C}.

(** What requests change: the catalog, the allowlist with its file, and the
    calls of the announce hook so far. *)
Record Server := {
  catalog : NarCatalog;
  public_allowlist : PublicNarAllowlist;
  allowlist_file : disk;
  announced : list (NarHash * list byte)
}.

Section server.
Context `{Ed25519}.
Context (base64_decode : list byte -> result (list byte) (list byte)).
Context (keyed_hash : array 32 -> list byte -> array 32).
Context (mac_key : array 32) (debug : bool).
Context {R C : Type} `{RawServeDecision R} `{CorrelationStore C}.

(** respond_narinfo between the learn and the response: the bytes to send,
    whether they were rewritten, and the catalog after the recording. *)
Definition serve_narinfo (rs : R) (cat : NarCatalog) (bytes : list byte) : list byte * bool * NarCatalog :=
  let correlation := parse_correlation bytes in
  let rewrite_to_raw :=
    match correlation with Some c => will_serve_raw rs (c_nar_hash c) | None => false end in
  let correlated_store_path := correlation ≫= c_store_path in
  if rewrite_to_raw then
    match to_raw bytes with
    | Ok rw =>
        (rw_body rw, true,
         record cat (rw_url_token rw) (rw_nar_hash rw) (rw_nar_size rw)
           {| transport_compression := Raw |} correlated_store_path)
    | Err _ => (apply bytes, false, cat)
    end
  else
    (apply bytes, false,
     match correlation with
     | Some c => record cat (c_token c) (c_nar_hash c) (c_nar_size c) (c_transport c) (c_store_path c)
     | None => cat
     end).

(** The narinfo response over the bytes sent. *)
Definition narinfo_response (headers : HeaderMap) (out_bytes : list byte) (rewrote is_head : bool) : Response :=
  let h := forward_headers ∅ headers in
  let h := if rewrote then header_remove (header_remove h ETAG) LAST_MODIFIED else h in
  {| r_status := STATUS_OK;
     r_headers := header_insert (header_remove h CONTENT_LENGTH) CONTENT_LENGTH (length_value out_bytes);
     r_body := Plain (if is_head then empty_body else full out_bytes) |}.

(** [None] is a panic inside `learn`. *)
Definition respond_narinfo (os : Os) (result : result SourceError UpstreamResponse) (requested : StoreHash)
    (st : Server) (rs : R) (is_head : bool) : option (Response * Server) :=
  match result with
  | Err err => Some (gateway_error err, st)
  | Ok resp =>
      if negb (up_status resp =? 200)%Z then Some (forward (Ok resp) is_head, st)
      else if must_fail_closed (up_headers resp) then Some (unavailable, st)
      else match collect_limited MAX_NARINFO_BYTES (up_body resp) with
      | None => Some (unavailable, st)
      | Some bytes =>
          learned ← learn base64_decode keyed_hash debug os mac_key (public_allowlist st) (allowlist_file st)
                      requested bytes;
          let '(_, al', d') := learned in
          let '(out_bytes, rewrote, cat') := serve_narinfo rs (catalog st) bytes in
          Some (narinfo_response (up_headers resp) out_bytes rewrote is_head,
                {| catalog := cat'; public_allowlist := al'; allowlist_file := d'; announced := announced st |})
      end
  end.

(** What a NAR request correlates to: the catalog first, then the persisted store. *)
Definition correlated (app : App R C) (st : Server) (token : NarPathToken) : option NarMeta :=
  match meta_for_token (catalog st) token with
  | Some meta => Some meta
  | None => persisted_meta (correlation app) token
  end.

(** The key and the size bound the NAR source is asked with. *)
Definition nar_key (meta : option NarMeta) (token : NarPathToken) : NarKey * option Z :=
  match meta with
  | Some meta => (SignedNarHash (meta_nar_hash meta) token (meta_transport meta), Some (meta_nar_size meta))
  | None => (UpstreamPath token, None)
  end.

Definition announce_target (meta : option NarMeta) : option (NarHash * list byte) :=
  meta ← meta; sp ← meta_store_path meta; Some (meta_nar_hash meta, sp).

(** The announce-after-fetch call of the NAR route. *)
Definition announce_fetched (app : App R C) (st : Server) (target : option (NarHash * list byte))
    (result : result SourceError UpstreamResponse) : Server :=
  match post_fetch_announce app, target, result with
  | true, Some t, Ok resp =>
      if (up_status resp =? 200)%Z
      then {| catalog := catalog st; public_allowlist := public_allowlist st;
              allowlist_file := allowlist_file st; announced := announced st ++ [t] |}
      else st
  | _, _, _ => st
  end.

(** handle after the method check. *)
Definition route (app : App R C) (os : Os) (st : Server) (is_head : bool) (path : list byte)
    (hop_budget : option Z) : option (Response * Server) :=
  match classify path with
  | RouteCacheInfo => Some (respond_cache_info (cache_info app) is_head, st)
  | RouteNarinfo hash =>
      respond_narinfo os (narinfo app hash hop_budget) hash st (raw_serve app) is_head
  | RouteNar token =>
      let meta := correlated app st token in
      let target := announce_target meta in
      let '(key, expected_size) := nar_key meta token in
      let result := nar app key expected_size hop_budget in
      Some (forward_nar result is_head, announce_fetched app st target result)
  | RouteOther => Some (forward (passthrough app path hop_budget) is_head, st)
  end.

Definition handle (app : App R C) (os : Os) (st : Server) (req : Request) : option (Response * Server) :=
  let hop_budget := parse_hop_budget (req_headers req) in
  match req_method req with
  | GET => route app os st false (req_path req) hop_budget
  | HEAD => route app os st true (req_path req) hop_budget
  | OtherMethod => Some (text_status METHOD_NOT_ALLOWED (str "only GET/HEAD"), st)
  end.

(** ** What a relayed response is *)

(** The specification of a relay: transport failures and responses that cannot be
    faithfully framed become the 502; any other keeps its status, its body and
    every end-to-end header. *)
Definition relayed (result : result SourceError UpstreamResponse) (is_head : bool) (resp : Response) : Prop :=
  match result with
  | Err _ => resp = unavailable
  | Ok up =>
      if must_fail_closed (up_headers up) then resp = unavailable
      else r_status resp = status_code (up_status up) /\
           inner_body (r_body resp) = (if is_head then empty_body else up_body up) /\
           forall n, get_all (r_headers resp) n =
             if decide (stripped (up_headers up) n) then [] else get_all (up_headers up) n
  end.

Lemma forward_relayed result is_head : relayed result is_head (forward result is_head).
Proof.
  destruct result as [up|e]; [|done]. cbn. destruct (must_fail_closed _); [done|]. cbn.
  split_and!; [done|done|]. intros n. rewrite get_all_forward. done.
Qed.

Lemma forward_nar_relayed result is_head : relayed result is_head (forward_nar result is_head).
Proof.
  destruct result as [up|e]; [|done]. cbn. destruct (must_fail_closed _); [done|]. cbn.
  split_and!; [done| |].
  - by destruct is_head, (up_status up =? 200)%Z.
  - intros n. rewrite get_all_forward. done.
Qed.

(** ** What a served narinfo is *)

(** The upstream answer is a 200 whose body the daemon buffers and serves. *)
Definition buffered (result : result SourceError UpstreamResponse) (up : UpstreamResponse) (bytes : list byte) : Prop :=
  result = Ok up /\ up_status up = 200%Z /\ must_fail_closed (up_headers up) = false /\
  collect_limited MAX_NARINFO_BYTES (up_body up) = Some bytes.

(** The answer of a narinfo that is not a servable 200. *)
Definition unbuffered (result : result SourceError UpstreamResponse) (is_head : bool) (resp : Response) : Prop :=
  match result with
  | Ok up =>
      if (up_status up =? 200)%Z
      then resp = unavailable /\
           (must_fail_closed (up_headers up) = true \/ collect_limited MAX_NARINFO_BYTES (up_body up) = None)
      else relayed result is_head resp
  | Err _ => resp = unavailable
  end.

Lemma respond_narinfo_cases os result requested st rs is_head resp st' :
  respond_narinfo os result requested st rs is_head = Some (resp, st') ->
  (unbuffered result is_head resp /\ st' = st) \/
  exists up bytes outcome al' d', buffered result up bytes /\
    learn base64_decode keyed_hash debug os mac_key (public_allowlist st) (allowlist_file st) requested bytes =
      Some (outcome, al', d') /\
    resp = narinfo_response (up_headers up) (serve_narinfo rs (catalog st) bytes).1.1
             (serve_narinfo rs (catalog st) bytes).1.2 is_head /\
    st' = {| catalog := (serve_narinfo rs (catalog st) bytes).2; public_allowlist := al';
             allowlist_file := d'; announced := announced st |}.
Proof.
  unfold respond_narinfo, unbuffered. destruct result as [up|e]; [|by intros [= <- <-]; left].
  destruct (up_status up =? 200)%Z eqn:Es; cbn [negb].
  2:{ intros [= <- <-]. left. split; [|done]. apply forward_relayed. }
  destruct (must_fail_closed (up_headers up)) eqn:Ef; [intros [= <- <-]; by left; auto|].
  destruct (collect_limited _ _) as [bytes|] eqn:Ec; [|intros [= <- <-]; by left; auto].
  intros ([[outcome al'] d'] & Hl & Heq)%bind_Some. right. exists up, bytes, outcome, al', d'.
  destruct (serve_narinfo rs (catalog st) bytes) as [[out rew] cat]. injection Heq as <- <-.
  apply Z.eqb_eq in Es. done.
Qed.

Lemma respond_narinfo_buffered os result requested st rs is_head up bytes outcome al' d' :
  buffered result up bytes ->
  learn base64_decode keyed_hash debug os mac_key (public_allowlist st) (allowlist_file st) requested bytes =
    Some (outcome, al', d') ->
  respond_narinfo os result requested st rs is_head =
  Some (narinfo_response (up_headers up) (serve_narinfo rs (catalog st) bytes).1.1
          (serve_narinfo rs (catalog st) bytes).1.2 is_head,
        {| catalog := (serve_narinfo rs (catalog st) bytes).2; public_allowlist := al';
           allowlist_file := d'; announced := announced st |}).
Proof.
  intros (-> & Hs & Hf & Hc) Hl. unfold respond_narinfo. rewrite Hs. cbn [Z.eqb Pos.eqb negb].
  rewrite Hf, Hc, Hl. cbn [mbind option_bind]. by destruct (serve_narinfo rs (catalog st) bytes) as [[? ?] ?].
Qed.

(** The bytes sent do not depend on the catalog. *)
Definition sent (rs : R) (bytes : list byte) : list byte := (serve_narinfo rs NarCatalog_new bytes).1.1.

Lemma serve_narinfo_sent rs cat bytes : (serve_narinfo rs cat bytes).1.1 = sent rs bytes.
Proof.
  unfold sent, serve_narinfo. destruct (match parse_correlation bytes with Some _ => _ | None => _ end); [|done].
  by destruct (to_raw bytes).
Qed.

(** The record of [meta] for [token] says what a narinfo [c] says.  The hash is
    compared up to surrounding white space and the transport when [c] states it. *)
Definition describes (c : Correlation) (token : NarPathToken) (meta : NarMeta) : Prop :=
  c_token c = token /\ c_nar_hash c = Utf8.trim (meta_nar_hash meta) /\ c_nar_size c = meta_nar_size meta /\
  c_store_path c = meta_store_path meta /\
  (transport_compression (c_transport c) <> Unknown -> c_transport c = meta_transport meta).

(** What is recorded describes what is sent. *)
Lemma serve_narinfo_records rs cat bytes token meta :
  meta_for_token (serve_narinfo rs cat bytes).2 token = Some meta ->
  meta_for_token cat token = Some meta \/
  exists c, parse_correlation (sent rs bytes) = Some c /\ describes c token meta.
Proof.
  rewrite <-(serve_narinfo_sent rs cat). unfold serve_narinfo, meta_for_token, record.
  destruct (parse_correlation bytes) as [c|] eqn:Ec; cbn [fst snd mbind option_bind]; [|by left].
  destruct (will_serve_raw rs (c_nar_hash c)); cbn [fst snd by_token].
  - destruct (to_raw bytes) as [rw|e] eqn:Er; cbn [fst snd by_token]; [|by left].
    destruct (decide (rw_url_token rw = token)) as [<-|Hne];
      [rewrite lookup_insert_eq|rewrite lookup_insert_ne by done; by left].
    intros [= <-]. right. exists (raw_correlation rw c).
    rewrite (parse_correlation_rewritten _ _ Er), Ec. split; [done|].
    destruct (correlation_agrees _ _ _ Ec Er) as [Hh Hs]. split_and!; cbn [c_token c_nar_hash c_nar_size c_store_path c_transport meta_nar_hash meta_nar_size meta_store_path meta_transport raw_correlation]; try done.
    by destruct (transport_compression (c_transport c)).
  - destruct (decide (c_token c = token)) as [<-|Hne];
      [rewrite lookup_insert_eq|rewrite lookup_insert_ne by done; by left].
    intros [= <-]. right. exists c. split; [done|]. split_and!; cbn [c_token c_nar_hash c_nar_size c_store_path c_transport meta_nar_hash meta_nar_size meta_store_path meta_transport raw_correlation]; try done.
    apply parse_correlation_reads in Ec as (nh & _ & _ & _ & -> & _). by rewrite Utf8.trim_idemp.
Qed.

(** A rewrite to the raw NAR is decided for [bytes] and cannot be made. *)
Definition rewrite_failed (rs : R) (bytes : list byte) : bool :=
  match parse_correlation bytes with
  | Some c => will_serve_raw rs (c_nar_hash c) && negb (is_ok (to_raw bytes))
  | None => false
  end.

(** Then the bytes are sent as they are and nothing is recorded. *)
Lemma serve_narinfo_failed rs cat bytes :
  rewrite_failed rs bytes = true -> serve_narinfo rs cat bytes = (bytes, false, cat).
Proof.
  unfold rewrite_failed, serve_narinfo. destruct (parse_correlation bytes) as [c|]; [|done].
  destruct (will_serve_raw rs (c_nar_hash c)); [|done]. by destruct (to_raw bytes).
Qed.

(** Otherwise the narinfo just sent is recorded under its token. *)
Lemma serve_narinfo_recorded rs cat bytes c :
  parse_correlation (sent rs bytes) = Some c -> rewrite_failed rs bytes = false ->
  exists meta, meta_for_token (serve_narinfo rs cat bytes).2 (c_token c) = Some meta /\ describes c (c_token c) meta.
Proof.
  intros Hc Hok.
  assert (is_Some (meta_for_token (serve_narinfo rs NarCatalog_new bytes).2 (c_token c)) /\
    meta_for_token (serve_narinfo rs NarCatalog_new bytes).2 (c_token c) =
    meta_for_token (serve_narinfo rs cat bytes).2 (c_token c)) as [[meta Hm] Heq].
  { revert Hc. unfold sent, serve_narinfo, meta_for_token, record.
    destruct (parse_correlation bytes) as [c0|] eqn:Ec0; cbn [fst snd by_token]; [|by unfold apply; rewrite Ec0].
    unfold rewrite_failed in Hok. rewrite Ec0 in Hok. destruct (will_serve_raw rs (c_nar_hash c0)); cbn [fst snd by_token].
    - destruct (to_raw bytes) as [rw|e] eqn:Er; cbn [fst snd by_token]; [|done].
      rewrite (parse_correlation_rewritten _ _ Er), Ec0. intros [= <-]. cbn. by rewrite !lookup_insert_eq.
    - unfold apply. rewrite Ec0. intros [= ->]. cbn [by_token]. by rewrite !lookup_insert_eq. }
  exists meta. rewrite <-Heq. split; [done|].
  apply serve_narinfo_records in Hm as [Hm|(c' & Hc' & Hd)]; [done|congruence].
Qed.

(** ** The daemon's life *)

Inductive moment :=
| Served (app : App R C) (req : Request) (resp : Response)
| Rebooted.

Context (ks : TrustedNarKeys).

(** First boot without an allowlist file, then requests and restarts; a restart
    loses the catalog and reloads the allowlist. *)
Inductive serving : list moment -> Server -> Prop :=
| serving_boot os al :
    open_file keyed_hash os ks mac_key None = Some (Ok al) ->
    serving [] {| catalog := NarCatalog_new; public_allowlist := al; allowlist_file := None; announced := [] |}
| serving_request ms st app os req resp st' :
    serving ms st -> handle app os st req = Some (resp, st') ->
    serving (ms ++ [Served app req resp]) st'
| serving_restart ms st os al' :
    serving ms st -> open_file keyed_hash os ks mac_key (allowlist_file st) = Some (Ok al') ->
    serving (ms ++ [Rebooted])
      {| catalog := NarCatalog_new; public_allowlist := al'; allowlist_file := allowlist_file st;
         announced := announced st |}.

(** Some GET or HEAD of the narinfo of [requested] was answered from the 200 body [bytes]. *)
Definition narinfo_served (ms : list moment) (requested : StoreHash) (rs : R) (bytes : list byte) : Prop :=
  exists app req resp up, Served app req resp ∈ ms /\ req_method req <> OtherMethod /\
    classify (req_path req) = RouteNarinfo requested /\ raw_serve app = rs /\
    buffered (narinfo app requested (parse_hop_budget (req_headers req))) up bytes.

Lemma narinfo_served_more ms ms' requested rs bytes :
  narinfo_served ms requested rs bytes -> narinfo_served (ms ++ ms') requested rs bytes.
Proof. intros (app & req & resp & up & Hin & ?). exists app, req, resp, up. rewrite elem_of_app. tauto. Qed.

(** One request: what it changes, by route. *)
Lemma handle_cases app os st req resp st' :
  handle app os st req = Some (resp, st') ->
  (catalog st' = catalog st /\ public_allowlist st' = public_allowlist st /\
   allowlist_file st' = allowlist_file st /\
   (announced st' = announced st \/
    exists token h sp tr size up, req_method req <> OtherMethod /\ classify (req_path req) = RouteNar token /\
      announced st' = announced st ++ [(h, sp)] /\ post_fetch_announce app = true /\
      correlated app st token = Some {| meta_nar_hash := h; meta_nar_size := size; meta_transport := tr;
                                        meta_store_path := Some sp |} /\
      nar app (SignedNarHash h token tr) (Some size) (parse_hop_budget (req_headers req)) = Ok up /\
      up_status up = 200%Z)) \/
  exists requested up bytes outcome al' d', req_method req <> OtherMethod /\
    classify (req_path req) = RouteNarinfo requested /\
    buffered (narinfo app requested (parse_hop_budget (req_headers req))) up bytes /\
    learn base64_decode keyed_hash debug os mac_key (public_allowlist st) (allowlist_file st) requested bytes =
      Some (outcome, al', d') /\
    st' = {| catalog := (serve_narinfo (raw_serve app) (catalog st) bytes).2; public_allowlist := al';
             allowlist_file := d'; announced := announced st |}.
Proof.
  intros Hh. assert (req_method req = OtherMethod /\ st' = st \/
    req_method req <> OtherMethod /\ exists is_head, route app os st is_head (req_path req)
      (parse_hop_budget (req_headers req)) = Some (resp, st')) as [[_ ->]|[Hm [is_head Hr]]].
  { unfold handle in Hh. destruct (req_method req); [right; eauto|right; eauto|]. injection Hh as _ <-. by left. }
  { left. tauto. }
  clear Hh. unfold route in Hr. destruct (classify (req_path req)) as [|requested|token|] eqn:Ecl.
  - injection Hr as _ <-. left. tauto.
  - apply respond_narinfo_cases in Hr as [[_ ->]|(up & bytes & o & al' & d' & Hb & Hl & _ & ->)]; [left; tauto|].
    right. exists requested, up, bytes, o, al', d'. done.
  - left. destruct (nar_key (correlated app st token) token) as [key size] eqn:Ek. injection Hr as _ <-.
    unfold announce_fetched. destruct (post_fetch_announce app); [|tauto].
    destruct (correlated app st token) as [[h n tr [sp|]]|] eqn:Ec; [|tauto..]. injection Ek as <- <-.
    cbn [announce_target mbind option_bind meta_store_path meta_nar_hash].
    destruct (nar app _ _ _) as [up|e] eqn:En; [|tauto].
    destruct (Z.eqb_spec (up_status up) 200) as [Hs|Hs]; [|tauto]. split_and!; try done.
    right. exists token, h, sp, tr, n, up. done.
  - injection Hr as _ <-. left. tauto.
Qed.

Lemma body_bytes_full bytes : body_bytes (full bytes) = bytes.
Proof. unfold full, body_bytes. cbn [body_data concat]. apply app_nil_r. Qed.

Lemma learn_total os al d requested bytes :
  debug = false -> is_Some (learn base64_decode keyed_hash debug os mac_key al d requested bytes).
Proof.
  intros ->. unfold learn. destruct (prove_public_total base64_decode bytes (trusted al)) as [r Hr]. rewrite Hr. cbn.
  destruct r as [v|e]; [|eauto]. destruct (negb _); [eauto|]. destruct (entries al !! _); [cbn; eauto|].
  destruct (append _ _ _ _ _ _) as [[u|e] d']; eauto.
Qed.

(** The narinfo route's headers: its own length, and upstream's end-to-end headers
    but for the validators of a rewritten body. *)
Lemma narinfo_response_headers headers out rewrote is_head n :
  get_all (r_headers (narinfo_response headers out rewrote is_head)) n =
  if decide (n = CONTENT_LENGTH) then [length_value out]
  else if decide (stripped headers n \/ rewrote = true /\ n ∈ [ETAG; LAST_MODIFIED]) then []
  else get_all headers n.
Proof.
  unfold narinfo_response. cbn [r_headers]. rewrite header_insert_get. case_decide; [done|].
  rewrite header_remove_get, decide_False by done. destruct rewrote.
  - rewrite !header_remove_get, get_all_forward.
    destruct (decide (n = LAST_MODIFIED)) as [->|Hn1]; [rewrite decide_True by set_solver; done|].
    destruct (decide (n = ETAG)) as [->|Hn2]; [rewrite decide_True by set_solver; done|].
    destruct (decide (stripped headers n)); [by rewrite decide_True by tauto|].
    rewrite decide_False; [done|]. intros [?|[_ Hn]]; [done|]. apply elem_of_cons in Hn as [?|Hn]; [done|]. by apply list_elem_of_singleton in Hn.
  - rewrite get_all_forward. destruct (decide (stripped headers n)); [by rewrite decide_True by tauto|].
    by rewrite decide_False by (intros [?|[? _]]; done).
Qed.

(** ** Theorems *)

Lemma serving_run ms st :
  serving ms st ->
  exists evs, run base64_decode keyed_hash mac_key debug ks false evs (public_allowlist st) (allowlist_file st) /\
    forall requested bytes o, Presented requested bytes o ∈ evs -> exists rs, narinfo_served ms requested rs bytes.
Proof.
  induction 1 as [os al Ho|ms st app os req resp st' Hs (evs & Hrun & Hevs) Hh|ms st os al' Hs (evs & Hrun & Hevs) Ho].
  - exists []. split; [by eapply run_boot|]. by intros ? ? ? ?%not_elem_of_nil.
  - apply handle_cases in Hh as [(_ & -> & -> & _)|(rq & up & bytes & o & al' & d' & Hm & Hc & Hb & Hl & ->)].
    + exists evs. split; [done|]. intros rq bytes o [rs Hin]%Hevs. exists rs. by apply narinfo_served_more.
    + exists (evs ++ [Presented rq bytes o]). split; [by eapply run_learn|].
      intros rq' bytes' o' [[rs Hin]%Hevs|[= -> -> ->]%list_elem_of_singleton]%elem_of_app.
      * exists rs. by apply narinfo_served_more.
      * exists (raw_serve app), app, req, resp, up. rewrite elem_of_app, list_elem_of_singleton. auto.
  - exists (evs ++ [Restarted]). split; [by eapply run_restart|].
    intros rq bytes o [[rs Hin]%Hevs|?%list_elem_of_singleton]%elem_of_app; [|done].
    exists rs. by apply narinfo_served_more.
Qed.

(** A narinfo this daemon sent said what [meta] says about [token]. *)
Definition narinfo_says (ms : list moment) (token : NarPathToken) (meta : NarMeta) : Prop :=
  exists requested rs bytes c, narinfo_served ms requested rs bytes /\
    parse_correlation (sent rs bytes) = Some c /\ describes c token meta.

Lemma narinfo_says_more ms ms' token meta : narinfo_says ms token meta -> narinfo_says (ms ++ ms') token meta.
Proof. intros (rq & rs & b & c & Hs & ?). exists rq, rs, b, c. split; [by apply narinfo_served_more|done]. Qed.

Lemma catalog_origin ms st token meta :
  serving ms st -> meta_for_token (catalog st) token = Some meta -> narinfo_says ms token meta.
Proof.
  intros Hs. revert meta. induction Hs as [os al Ho|ms st app os req resp st' Hs IH Hh|ms st os al' Hs IH Ho];
    intros meta Hm; [done| |done].
  apply handle_cases in Hh as [(Hcat & _)|(rq & up & bytes & o & al' & d' & Hmeth & Hc & Hb & Hl & ->)].
  - rewrite Hcat in Hm. by apply narinfo_says_more, IH.
  - cbn [catalog] in Hm. apply serve_narinfo_records in Hm as [Hm|(c & Hpc & Hd)]; [by apply narinfo_says_more, IH|].
    exists rq, (raw_serve app), bytes, c. split; [|done]. exists app, req, resp, up.
    rewrite elem_of_app, list_elem_of_singleton. auto.
Qed.

Lemma correlated_origin ms st app token meta :
  serving ms st -> correlated app st token = Some meta ->
  narinfo_says ms token meta \/ persisted_meta (correlation app) token = Some meta.
Proof.
  intros Hs. unfold correlated. destruct (meta_for_token (catalog st) token) as [m|] eqn:E; [|by right].
  intros [= ->]. left. by eapply catalog_origin.
Qed.

Lemma classify_nar token : classify (str "/nar/" ++ token) = RouteNar token.
Proof.
  unfold classify. rewrite decide_False by done. by rewrite strip_prefix_app.
Qed.

(** C29: the daemon publishes only what a trusted authority signed.  However it
    served, however often it restarted, whatever its upstreams answered, whichever
    calls on the allowlist file failed and however large that file grew, a
    publication claim its allowlist mints for a hash names that hash and a size,
    and a narinfo the daemon was asked for and served from an upstream 200 proves
    both: its bytes name this hash and size, its store path is the one requested,
    and one of its signatures verifies under a configured key over the fingerprint
    of these fields. *)
Theorem published_only_public ms st k expected c :
  serving ms st -> approve (public_allowlist st) k expected = Ok c ->
  claim_nar_hash c = k /\
  exists requested rs bytes v, narinfo_served ms requested rs bytes /\ proof_of base64_decode bytes ks v /\
    vp_store_hash v = requested /\ vp_nar_hash v = k /\ vp_nar_size v = claim_nar_size c.
Proof.
  intros (evs & Hrun & Hevs)%serving_run Happ.
  destruct (approved_is_proven _ _ _ _ _ _ _ _ _ _ _ _ Hrun Happ) as (Hk & rq & bytes & o & v & [rs Hin]%Hevs & Hv).
  split; [done|]. by exists rq, rs, bytes, v.
Qed.

(** A NAR is fetched under the identity the client was shown.  A GET of a
    NAR asks the source for a signed hash only if a narinfo this daemon sent said
    that the token has this hash, size, store path and transport, or the
    persisted store says so; otherwise it asks for the bare token.  The answer is
    relayed, and the store path is announced only when a hook is installed and
    the source answered 200. *)
Theorem nar_dispatch_sound ms st app os req token :
  serving ms st -> req_method req = GET -> req_path req = str "/nar/" ++ token ->
  exists meta, (forall m, meta = Some m -> narinfo_says ms token m \/ persisted_meta (correlation app) token = Some m) /\
    let result := nar app (nar_key meta token).1 (nar_key meta token).2 (parse_hop_budget (req_headers req)) in
    exists resp st', handle app os st req = Some (resp, st') /\ relayed result false resp /\
      catalog st' = catalog st /\ public_allowlist st' = public_allowlist st /\
      announced st' = announced st ++
        match announce_target meta, result with
        | Some t, Ok up => if post_fetch_announce app && (up_status up =? 200)%Z then [t] else []
        | _, _ => []
        end.
Proof.
  intros Hs Hm Hp. exists (correlated app st token). split; [intros m; by eapply correlated_origin|].
  intros result. exists (forward_nar result false), (announce_fetched app st (announce_target (correlated app st token)) result).
  split.
  { unfold handle, route. rewrite Hm, Hp, classify_nar. unfold result. by destruct (nar_key _ _). }
  split; [apply forward_nar_relayed|].
  unfold announce_fetched. destruct (post_fetch_announce app), (announce_target _), result as [up|e]; cbn [andb];
    try destruct (_ =? _)%Z; rewrite ?app_nil_r; done.
Qed.

(** C30: a narinfo and its NAR agree.  After a narinfo GET is answered from an
    upstream 200, asking for the URL token the sent body names reaches the NAR
    source with the signed hash, the size and the transport that body states,
    whether the body was relayed or rewritten to the raw NAR, and whatever
    happened before.  Where a rewrite was decided but cannot be made (a narinfo
    without a Compression line, for one) the body is sent byte for byte and
    nothing is learnt from it: the NAR source is asked with what was known of the
    token before, and by the bare token if nothing was. *)
Theorem narinfo_then_nar app os st req resp st' requested up bytes c app' os' req' :
  handle app os st req = Some (resp, st') -> req_method req = GET ->
  classify (req_path req) = RouteNarinfo requested ->
  buffered (narinfo app requested (parse_hop_budget (req_headers req))) up bytes ->
  parse_correlation (body_bytes (inner_body (r_body resp))) = Some c ->
  req_method req' = GET -> req_path req' = str "/nar/" ++ c_token c ->
  let asked key size := forward_nar (nar app' key size (parse_hop_budget (req_headers req'))) false in
  if rewrite_failed (raw_serve app) bytes
  then body_bytes (inner_body (r_body resp)) = bytes /\
    fst <$> handle app' os' st' req' =
      Some match correlated app' st (c_token c) with
           | Some meta => asked (SignedNarHash (meta_nar_hash meta) (c_token c) (meta_transport meta)) (Some (meta_nar_size meta))
           | None => asked (UpstreamPath (c_token c)) None
           end
  else exists meta, describes c (c_token c) meta /\
    fst <$> handle app' os' st' req' =
      Some (asked (SignedNarHash (meta_nar_hash meta) (c_token c) (meta_transport meta)) (Some (c_nar_size c))).
Proof.
  intros Hh Hm Hcl Hb Hc Hm' Hp' asked. unfold handle, route in Hh. rewrite Hm, Hcl in Hh.
  destruct Hb as (Hres & Hst & Hmf & Hcoll).
  apply respond_narinfo_cases in Hh as [[Hu _]|(up' & bytes' & o & al' & d' & (Hres' & _ & _ & Hcoll') & _ & -> & ->)].
  { unfold unbuffered in Hu. rewrite Hres, Hst in Hu. cbn [Z.eqb Pos.eqb] in Hu.
    destruct Hu as [_ [Hu|Hu]]; congruence. }
  rewrite Hres in Hres'. injection Hres' as <-. rewrite Hcoll in Hcoll'. injection Hcoll' as <-.
  cbn [narinfo_response r_body inner_body] in Hc |- *. rewrite body_bytes_full in *.
  unfold handle, route. rewrite Hm', Hp', classify_nar. unfold correlated. cbn [catalog].
  destruct (rewrite_failed (raw_serve app) bytes) eqn:Hf.
  - rewrite (serve_narinfo_failed _ _ _ Hf) in *. cbn [fst snd]. split; [done|].
    destruct (meta_for_token (catalog st) (c_token c)); [done|]. by destruct (persisted_meta (correlation app') (c_token c)).
  - rewrite serve_narinfo_sent in Hc.
    destruct (serve_narinfo_recorded (raw_serve app) (catalog st) bytes c Hc Hf) as (meta & Hmeta & Hd).
    exists meta. split; [done|]. rewrite Hmeta. cbn. destruct Hd as (_ & _ & -> & _). done.
Qed.

(** The answer to a GET ([is_head] = false) or HEAD, by route. *)
Definition answers (app : App R C) (st : Server) (is_head : bool) (path : list byte) (budget : option Z)
    (resp : Response) : Prop :=
  match classify path with
  | RouteCacheInfo =>
      r_status resp = 200%Z /\ get_all (r_headers resp) CONTENT_LENGTH = [length_value (render (cache_info app))] /\
      body_bytes (inner_body (r_body resp)) = if is_head then [] else render (cache_info app)
  | RouteNarinfo hash =>
      let result := narinfo app hash budget in
      (unbuffered result is_head resp /\ forall up bytes, ~ buffered result up bytes) \/
      exists up bytes rewrote, buffered result up bytes /\ r_status resp = 200%Z /\
        body_bytes (inner_body (r_body resp)) = (if is_head then [] else sent (raw_serve app) bytes) /\
        (rewrote = false -> sent (raw_serve app) bytes = bytes) /\
        forall n, get_all (r_headers resp) n =
          if decide (n = CONTENT_LENGTH) then [length_value (sent (raw_serve app) bytes)]
          else if decide (stripped (up_headers up) n \/ rewrote = true /\ n ∈ [ETAG; LAST_MODIFIED]) then []
          else get_all (up_headers up) n
  | RouteNar token =>
      let '(key, size) := nar_key (correlated app st token) token in
      relayed (nar app key size budget) is_head resp
  | RouteOther => relayed (passthrough app path budget) is_head resp
  end.

Lemma unbuffered_not result is_head resp up bytes :
  unbuffered result is_head resp -> ~ buffered result up bytes.
Proof.
  intros Hu (-> & Hs & Hf & Hc). unfold unbuffered in Hu. rewrite Hs in Hu.
  destruct Hu as [_ [?|?]]; congruence.
Qed.

Lemma serve_narinfo_unrewritten rs cat bytes :
  (serve_narinfo rs cat bytes).1.2 = false -> sent rs bytes = bytes.
Proof.
  unfold sent, serve_narinfo. destruct (match parse_correlation bytes with Some _ => _ | None => _ end); [|done].
  by destruct (to_raw bytes).
Qed.

Lemma route_answers app os st is_head path budget resp st' :
  route app os st is_head path budget = Some (resp, st') -> answers app st is_head path budget resp.
Proof.
  unfold route, answers. destruct (classify path) as [|hash|token|].
  - intros [= <- _]. split_and!; [done..|]. destruct is_head; [done|apply body_bytes_full].
  - intros [[Hu _]|(up & bytes & o & al' & d' & Hb & _ & -> & _)]%respond_narinfo_cases.
    + left. split; [done|]. intros up bytes. by eapply unbuffered_not.
    + right. exists up, bytes, (serve_narinfo (raw_serve app) (catalog st) bytes).1.2.
      split; [done|]. split; [done|]. rewrite serve_narinfo_sent. split; [|split].
      * destruct is_head; [done|]. apply body_bytes_full.
      * apply serve_narinfo_unrewritten.
      * intros n. apply narinfo_response_headers.
  - destruct (nar_key _ _). intros [= <- _]. apply forward_nar_relayed.
  - intros [= <- _]. apply forward_relayed.
Qed.

Lemma route_total app os st is_head path budget :
  debug = false -> is_Some (route app os st is_head path budget).
Proof.
  intros Hd. unfold route. destruct (classify path) as [|hash|token|]; [eauto| |destruct (nar_key _ _); eauto|eauto].
  unfold respond_narinfo. destruct (narinfo app hash budget) as [up|e]; [|eauto].
  destruct (negb _); [eauto|]. destruct (must_fail_closed _); [eauto|].
  destruct (collect_limited _ _) as [bytes|]; [|eauto].
  destruct (learn_total os (public_allowlist st) (allowlist_file st) hash bytes Hd) as [[[o al'] d'] Hl].
  rewrite Hl. cbn [mbind option_bind]. destruct (serve_narinfo _ _ _) as [[out rew] cat]. eauto.
Qed.

Lemma handle_total app os st req : debug = false -> is_Some (handle app os st req).
Proof. intros Hd. unfold handle. destruct (req_method req); [by apply route_total..|eauto]. Qed.

(** Every request is answered, and faithfully.  A release build never
    panics; a method other than GET and HEAD gets the 405; a transport failure, a
    response whose framing cannot be relayed, and a narinfo that is cut off or
    over the size bound get the 502; every other response keeps the upstream
    status, body and end-to-end headers, except that a narinfo's Content-Length
    is the length of the bytes sent and a rewritten one loses its validators. *)
Theorem requests_answered app os st req :
  (debug = false -> is_Some (handle app os st req)) /\
  forall resp st', handle app os st req = Some (resp, st') ->
    match req_method req with
    | GET => answers app st false (req_path req) (parse_hop_budget (req_headers req)) resp
    | HEAD => answers app st true (req_path req) (parse_hop_budget (req_headers req)) resp
    | OtherMethod => r_status resp = 405%Z /\ st' = st
    end.
Proof.
  split; [apply handle_total|].
  unfold handle. intros resp st'. destruct (req_method req); [apply route_answers..|]. by intros [= <- <-].
Qed.

(** ** Well-formed responses *)

Lemma append_wf h n v : headers_wf h -> headers_wf (header_append h n v).
Proof.
  intros Hh m vs. unfold header_append. destruct (decide (n = m)) as [->|Hne].
  - rewrite lookup_insert_eq. intros [= <-]. by destruct (get_all h m).
  - rewrite lookup_insert_ne by done. apply Hh.
Qed.

Lemma forward_headers_wf dst src : headers_wf dst -> headers_wf (forward_headers dst src).
Proof.
  unfold forward_headers. generalize (map_to_list src). intros l. revert dst.
  induction l as [|[k vs] l IH]; intros dst Hd; [done|]. cbn [foldl]. apply IH.
  destruct (_ || _); [done|]. clear IH. revert dst Hd. induction vs as [|v vs IHv]; intros dst Hd; [done|].
  cbn [foldl]. apply IHv. by apply append_wf.
Qed.

(** Hop-by-hop names are absent, every present name has a value, and the status
    is one HTTP has. *)
Definition response_wf (resp : Response) : Prop :=
  (100 <= r_status resp <= 999)%Z /\ headers_wf (r_headers resp) /\
  forall n, n ∈ HOP_BY_HOP -> r_headers resp !! n = None.

Lemma absent_of h n : headers_wf h -> get_all h n = [] -> h !! n = None.
Proof.
  intros Hh. unfold get_all. destruct (h !! n) as [vs|] eqn:E; [|done].
  cbn [from_option id]. intros ->. by apply Hh in E.
Qed.

Lemma forwarded_wf up body :
  response_wf {| r_status := status_code (up_status up); r_headers := forward_headers ∅ (up_headers up); r_body := body |}.
Proof.
  assert (headers_wf (forward_headers ∅ (up_headers up))) as Hwf by (apply forward_headers_wf; by intros ? ? ?%lookup_empty_Some).
  split; [|split; [done|]].
  - cbn. unfold status_code, BAD_GATEWAY. destruct (_ && _) eqn:E; [|lia].
    apply andb_true_iff in E as [?%Z.leb_le ?%Z.leb_le]. lia.
  - intros n Hn. apply absent_of; [done|]. cbn. rewrite get_all_forward, decide_True by by left. done.
Qed.

Lemma local_wf status h n v (body : NarBody) :
  (100 <= status <= 999)%Z -> n ∉ HOP_BY_HOP ->
  headers_wf h -> (forall m, m ∈ HOP_BY_HOP -> h !! m = None) ->
  response_wf {| r_status := status; r_headers := header_insert h n v; r_body := body |}.
Proof.
  intros Hs Hn Hwf Hh. split; [done|]. cbn [r_headers]. unfold header_insert. split.
  - intros m vs. destruct (decide (n = m)) as [->|Hne]; [rewrite lookup_insert_eq; by intros [= <-]|].
    rewrite lookup_insert_ne by done. apply Hwf.
  - intros m Hm. rewrite lookup_insert_ne by (intros ->; done). by apply Hh.
Qed.

Lemma built_wf status ty len body :
  (100 <= status <= 999)%Z ->
  response_wf {| r_status := status; r_headers := header_append (header_append ∅ CONTENT_TYPE ty) CONTENT_LENGTH len;
                 r_body := body |}.
Proof.
  intros Hs. split; [done|]. split.
  - apply append_wf, append_wf. by intros ? ? ?%lookup_empty_Some.
  - intros n Hn. cbn [r_headers].
    assert (n <> CONTENT_LENGTH /\ n <> CONTENT_TYPE) as [? ?].
    { revert n Hn. apply Forall_forall. by repeat constructor. }
    unfold header_append. by rewrite !lookup_insert_ne by done.
Qed.

Lemma text_status_wf status message : (100 <= status <= 999)%Z -> response_wf (text_status status message).
Proof. apply built_wf. Qed.

Lemma delete_wf h n : headers_wf h -> headers_wf (header_remove h n).
Proof. intros Hh m vs. unfold header_remove. intros [_ Hm]%lookup_delete_Some. by apply Hh in Hm. Qed.

Lemma narinfo_response_wf headers out rewrote is_head : response_wf (narinfo_response headers out rewrote is_head).
Proof.
  destruct (forwarded_wf {| up_status := 200; up_headers := headers; up_body := empty_body |} (Plain empty_body))
    as (_ & Hwf & Hhop). cbn [r_headers up_headers] in *.
  apply local_wf; [by unfold STATUS_OK| by apply (bool_decide_unpack _); vm_compute| |].
  - apply delete_wf. destruct rewrote; [by apply delete_wf, delete_wf|done].
  - intros m Hm%Hhop. unfold header_remove. rewrite lookup_delete_None. right.
    destruct rewrote; [|done]. rewrite lookup_delete_None. right. rewrite lookup_delete_None. by right.
Qed.

Lemma respond_cache_info_wf info is_head : response_wf (respond_cache_info info is_head).
Proof. by apply built_wf. Qed.

Lemma forward_wf result is_head :
  response_wf (forward result is_head) /\ response_wf (forward_nar result is_head).
Proof.
  assert (response_wf unavailable) by by apply text_status_wf.
  destruct result as [up|e]; cbn; [|done].
  destruct (must_fail_closed _); [done|]. split; apply forwarded_wf.
Qed.

Lemma route_wf app os st is_head path budget resp st' :
  route app os st is_head path budget = Some (resp, st') -> response_wf resp.
Proof.
  unfold route. destruct (classify path) as [|hash|token|].
  - intros [= <- _]. apply respond_cache_info_wf.
  - unfold respond_narinfo. destruct (narinfo app hash budget) as [up|e]; [|intros [= <- _]; by apply text_status_wf].
    destruct (negb _); [intros [= <- _]; exact (proj1 (forward_wf (Ok up) is_head))|].
    destruct (must_fail_closed _); [intros [= <- _]; by apply text_status_wf|].
    destruct (collect_limited _ _); [|intros [= <- _]; by apply text_status_wf].
    intros ([[o al'] d'] & _ & Heq)%bind_Some. destruct (serve_narinfo _ _ _) as [[out rew] cat].
    injection Heq as <- _. apply narinfo_response_wf.
  - destruct (nar_key _ _). intros [= <- _]. apply forward_wf.
  - intros [= <- _]. apply forward_wf.
Qed.

(** C37: every response the daemon writes is well-formed HTTP: its status is
    between 100 and 999, every header it has carries a value, and no hop-by-hop
    header is on it, whatever the upstream sent. *)
Theorem responses_well_formed app os st req :
  from_option (fun '(resp, _) => response_wf resp) (debug = true) (handle app os st req).
Proof.
  destruct (handle app os st req) as [[resp st']|] eqn:Hh; cbn [from_option].
  - unfold handle in Hh. destruct (req_method req); [by eapply route_wf..|].
    injection Hh as <- _. by apply text_status_wf.
  - destruct debug eqn:Hd; [done|]. destruct (handle_total app os st req Hd) as [? ?]. congruence.
Qed.

End server.

(** ** Witnesses *)

Section witnesses.
#[local] Existing Instance w_ed25519.

Definition w_up (bytes : list byte) : UpstreamResponse :=
  {| up_status := 200; up_headers := ∅; up_body := full bytes |}.

(** A daemon in front of a cache that has one narinfo and one NAR. *)
Definition w_app {R} (rs : R) (bytes : list byte) : App R NullCorrelation := {|
  narinfo := fun _ _ => Ok (w_up bytes);
  nar := fun _ _ _ => Ok (w_up (str "NAR"));
  passthrough := fun _ _ => Err (Unreachable []);
  cache_info := CacheInfo_default;
  correlation := NullCorrelation_;
  raw_serve := rs;
  post_fetch_announce := true |}.

Definition w_get (path : list byte) : Request := {| req_method := GET; req_path := path; req_headers := ∅ |}.
Definition w_narinfo_get : Request := w_get (str "/aaaa.narinfo").

Definition w_boot : Server :=
  {| catalog := NarCatalog_new; public_allowlist := {| trusted := w_trusted; entries := ∅ |};
     allowlist_file := None; announced := [] |}.

Lemma w_buffered bytes :
  (Z.of_nat (length bytes) <=? MAX_NARINFO_BYTES)%Z = true -> buffered (Ok (w_up bytes)) (w_up bytes) bytes.
Proof.
  intros Hb%Z.leb_le. split_and!; [done..|]. unfold collect_limited. cbn [up_body w_up].
  rewrite body_bytes_full. destruct (Z.ltb_spec MAX_NARINFO_BYTES (Z.of_nat (length bytes))); [lia|done].
Qed.

Abbreviation w_handle := (handle w_base64 w_keyed_hash (fill 32 x09) true).
Abbreviation w_serving := (serving w_base64 w_keyed_hash (fill 32 x09) true (R := NoRawServe) (C := NullCorrelation) w_trusted).

Lemma w_served : exists resp al d,
  w_handle (w_app NoRawServe_ w_narinfo) w_os w_boot w_narinfo_get =
    Some (resp, {| catalog := (serve_narinfo NoRawServe_ NarCatalog_new w_narinfo).2;
                   public_allowlist := al; allowlist_file := d; announced := [] |}) /\
  approve al w_key None = Ok {| claim_nar_hash := w_key; claim_nar_size := 4096 |}.
Proof.
  destruct (w_check_sound w_learned) as (al & d & Hl & Ha & _); [vm_compute; reflexivity|].
  eexists _, al, d. split; [|exact Ha].
  exact (respond_narinfo_buffered w_base64 w_keyed_hash (fill 32 x09) true w_os _ (str "aaaa") w_boot NoRawServe_
    false _ _ _ _ _ (w_buffered w_narinfo eq_refl) Hl).
Qed.

Lemma w_serving_ok : exists ms st,
  w_serving ms st /\ approve (public_allowlist st) w_key None = Ok {| claim_nar_hash := w_key; claim_nar_size := 4096 |} /\
  catalog st = (serve_narinfo NoRawServe_ NarCatalog_new w_narinfo).2.
Proof.
  destruct w_served as (resp & al & d & Hh & Ha).
  exists [Served (w_app NoRawServe_ w_narinfo) w_narinfo_get resp], {| catalog := (serve_narinfo NoRawServe_ NarCatalog_new w_narinfo).2;
    public_allowlist := al; allowlist_file := d; announced := [] |}.
  split; [|split; [exact Ha|reflexivity]].
  eapply (serving_request _ _ _ _ _ [] w_boot); [|exact Hh].
  apply (serving_boot _ _ _ _ _ w_os). reflexivity.
Qed.

Lemma published_only_public_witness : exists ms st requested rs bytes v,
  w_serving ms st /\ narinfo_served ms requested rs bytes /\ proof_of w_base64 bytes w_trusted v /\
  vp_store_hash v = requested /\ vp_nar_hash v = w_key /\ vp_nar_size v = 4096%Z.
Proof.
  destruct w_serving_ok as (ms & st & Hs & Ha & _).
  destruct (published_only_public _ _ _ _ _ _ _ _ _ _ Hs Ha) as (_ & rq & rs & b & v & H1 & H2 & H3 & H4 & H5).
  exists ms, st, rq, rs, b, v. exact (conj Hs (conj H1 (conj H2 (conj H3 (conj H4 H5))))).
Defined.

Lemma nar_dispatch_sound_witness : exists ms st meta resp st',
  w_serving ms st /\
  w_handle (w_app NoRawServe_ w_narinfo) w_os st (w_get (str "/nar/" ++ str "1abc.nar.xz")) = Some (resp, st') /\
  relayed (nar (w_app NoRawServe_ w_narinfo) (nar_key meta (str "1abc.nar.xz")).1 (nar_key meta (str "1abc.nar.xz")).2 None)
    false resp.
Proof.
  destruct w_serving_ok as (ms & st & Hs & _).
  destruct (nar_dispatch_sound _ _ _ _ _ ms st (w_app NoRawServe_ w_narinfo) w_os
    (w_get (str "/nar/" ++ str "1abc.nar.xz")) (str "1abc.nar.xz") Hs eq_refl eq_refl)
    as (meta & _ & resp & st' & Hh & Hr & _).
  exists ms, st, meta, resp, st'. exact (conj Hs (conj Hh Hr)).
Defined.

Definition w_raw : AllowlistRawServe := AllowlistRawServe_new [str "sha256:1b2c3d"].

Definition w_correlation : Correlation :=
  {| c_token := str "1b2c3d.nar"; c_nar_hash := str "sha256:1b2c3d"; c_nar_size := 4096;
     c_transport := {| transport_compression := Raw |}; c_store_path := Some (str "/nix/store/aaaa-x") |}.

(** A narinfo without a Compression line: it correlates, and it cannot be rewritten. *)
Definition w_bare : list byte :=
  str "StorePath: /nix/store/aaaa-x" ++ [newline] ++ str "URL: nar/1abc.nar.xz" ++ [newline] ++
  str "NarHash: sha256:1b2c3d" ++ [newline] ++ str "NarSize: 4096" ++ [newline].
Definition w_bare_correlation : Correlation :=
  {| c_token := str "1abc.nar.xz"; c_nar_hash := str "sha256:1b2c3d"; c_nar_size := 4096;
     c_transport := {| transport_compression := Unknown |}; c_store_path := Some (str "/nix/store/aaaa-x") |}.

Lemma narinfo_then_nar_witness :
  (exists resp st' meta,
    handle w_base64 w_keyed_hash (fill 32 x09) false (w_app w_raw sample_narinfo) w_os w_boot w_narinfo_get =
      Some (resp, st') /\
    describes w_correlation (str "1b2c3d.nar") meta /\
    fst <$> handle w_base64 w_keyed_hash (fill 32 x09) false (w_app w_raw sample_narinfo) w_os st'
        (w_get (str "/nar/" ++ str "1b2c3d.nar")) =
      Some (forward_nar (nar (w_app w_raw sample_narinfo)
        (SignedNarHash (meta_nar_hash meta) (str "1b2c3d.nar") (meta_transport meta)) (Some 4096%Z) None) false)) /\
  exists resp st',
    handle w_base64 w_keyed_hash (fill 32 x09) false (w_app w_raw w_bare) w_os w_boot w_narinfo_get = Some (resp, st') /\
    body_bytes (inner_body (r_body resp)) = w_bare /\
    fst <$> handle w_base64 w_keyed_hash (fill 32 x09) false (w_app w_raw w_bare) w_os st'
        (w_get (str "/nar/" ++ str "1abc.nar.xz")) =
      Some (forward_nar (nar (w_app w_raw w_bare) (UpstreamPath (str "1abc.nar.xz")) None None) false).
Proof.
  split.
  - destruct (learn_total w_base64 w_keyed_hash (fill 32 x09) false w_os (public_allowlist w_boot) None (str "aaaa")
      sample_narinfo eq_refl) as [[[o al] d] Hl].
    pose proof (respond_narinfo_buffered w_base64 w_keyed_hash (fill 32 x09) false w_os _ (str "aaaa") w_boot w_raw
      false _ _ _ _ _ (w_buffered sample_narinfo eq_refl) Hl) as Hh.
    eexists _, _.
    pose proof (narinfo_then_nar w_base64 w_keyed_hash (fill 32 x09) false (w_app w_raw sample_narinfo) w_os w_boot
      w_narinfo_get _ _ (str "aaaa") _ _ w_correlation (w_app w_raw sample_narinfo) w_os
      (w_get (str "/nar/" ++ str "1b2c3d.nar")) Hh eq_refl eq_refl (w_buffered sample_narinfo eq_refl)) as Ht.
    assert (rewrite_failed (raw_serve (w_app w_raw sample_narinfo)) sample_narinfo = false) as Hf by (vm_compute; reflexivity).
    cbv zeta in Ht. rewrite Hf in Ht. destruct Ht as (meta & Hd & Hn).
    + vm_compute. reflexivity.
    + reflexivity.
    + reflexivity.
    + exists meta. exact (conj Hh (conj Hd Hn)).
  - destruct (learn_total w_base64 w_keyed_hash (fill 32 x09) false w_os (public_allowlist w_boot) None (str "aaaa")
      w_bare eq_refl) as [[[o al] d] Hl].
    pose proof (respond_narinfo_buffered w_base64 w_keyed_hash (fill 32 x09) false w_os _ (str "aaaa") w_boot w_raw
      false _ _ _ _ _ (w_buffered w_bare eq_refl) Hl) as Hh.
    eexists _, _.
    pose proof (narinfo_then_nar w_base64 w_keyed_hash (fill 32 x09) false (w_app w_raw w_bare) w_os w_boot
      w_narinfo_get _ _ (str "aaaa") _ _ w_bare_correlation (w_app w_raw w_bare) w_os
      (w_get (str "/nar/" ++ str "1abc.nar.xz")) Hh eq_refl eq_refl (w_buffered w_bare eq_refl)) as Ht.
    assert (rewrite_failed (raw_serve (w_app w_raw w_bare)) w_bare = true) as Hf by (vm_compute; reflexivity).
    cbv zeta in Ht. rewrite Hf in Ht. destruct Ht as (Hb & Hn).
    + vm_compute. reflexivity.
    + reflexivity.
    + reflexivity.
    + exact (conj Hh (conj Hb Hn)).
Defined.

End witnesses.
