(* ===== verification/Upstream.v ===== *)
(** * The HTTP upstream: daemon-core/src/upstream.rs

    The composing header-wait budget of a daemon chain, the deadlines of one
    request, the transport byte cap and the `BoundedBody` that enforces it.
    Durations are nanoseconds.  What the network does in one request is [Net]:
    how long each stage takes and what it gives; the code between the stages
    takes no time.  The texts of the errors are abridged. *)

From Stdlib Require Import Strings.Byte ZArith Lia.
From stdpp Require Import base sets gmap numbers strings list.
From S2P Require Import Prelude Text Utf8 Rewrite Catalog Allowlist Http Server.

Definition from_millis (ms : Z) : Z := ms * 1000000.
Definition duration_millis (d : Z) : Z := d / 1000000.
(** `Duration::saturating_sub` *)
Definition duration_sub (a b : Z) : Z := Z.max 0 (a - b).

(** ** Budgets *)

Definition composed_header_wait (header_timeout : Z) (budget : option Z) (setup_elapsed : Z) : Z :=
  match budget with
  | None => header_timeout
  | Some b => Z.min header_timeout (duration_sub b setup_elapsed)
  end.

Definition composed_connect_cap (connect_timeout : Z) (budget : option Z) : Z :=
  match budget with None => connect_timeout | Some b => Z.min connect_timeout b end.

Definition tls_stage_cap (base : Z) (budget : option Z) (hop_elapsed : Z) : Z :=
  match budget with None => base | Some b => Z.min base (duration_sub b hop_elapsed) end.

Record TlsBudget := { tls_total : Z; tls_connect : Z; tls_handshake : Z }.
Definition tls_upstream_v1 : TlsBudget :=
  {| tls_total := from_millis 10000; tls_connect := from_millis 5000; tls_handshake := from_millis 5000 |}.

Definition stage_budget (total elapsed stage_cap : Z) : Z := Z.min (duration_sub total elapsed) stage_cap.

(** ** One request *)

Inductive Transport := TPlain | TTls.

Record UpstreamHttp := {
  transport : Transport;
  connect_timeout : Z;
  header_timeout : Z;
  tls_budget : TlsBudget
}.

(** A stage: when it answers, if ever, and whether it succeeds. *)
Definition stage (A : Type) : Type := option (Z * result (list byte) A).

Record Net := {
  net_connect : stage unit;
  net_handshake : stage unit;
  (** `http1::handshake` and the parse of the path, neither of which waits. *)
  net_http1 : result (list byte) unit;
  net_uri : result (list byte) unit;
  net_response : stage UpstreamResponse
}.

(** `timeout(cap, future)`: the time it took, and the answer unless it ran out. *)
Definition timeout {A} (cap : Z) (s : stage A) : Z * option (result (list byte) A) :=
  match s with
  | Some (t, r) => if (t <=? cap)%Z then (t, Some r) else (cap, None)
  | None => (cap, None)
  end.

(** `u64::try_from(header_wait.duration_millis()).unwrap_or(u64::MAX)` *)
Definition hop_budget_ms (header_wait : Z) : Z := Z.min u64_max (duration_millis header_wait).

(** The budget header of the request sent upstream. *)
Definition request_headers (header_wait : Z) : HeaderMap :=
  header_append ∅ HOP_BUDGET_HEADER (show_u64 (hop_budget_ms header_wait)).

(** UpstreamHttp::send_over: [elapsed] is what setup took.  The result carries
    the request headers when a request was sent, and the hop's total time. *)
Definition send_over (u : UpstreamHttp) (net : Net) (budget : option Z) (elapsed : Z) :
    result SourceError UpstreamResponse * option HeaderMap * Z :=
  match net_http1 net with
  | Err e => (Err (Upstream e), None, elapsed)
  | Ok _ =>
      match net_uri net with
      | Err e => (Err (Upstream e), None, elapsed)
      | Ok _ =>
          let header_wait := composed_header_wait (header_timeout u) budget elapsed in
          let headers := request_headers header_wait in
          match timeout header_wait (net_response net) with
          | (t, None) => (Err (Unreachable (str "no response headers")), Some headers, elapsed + t)%Z
          | (t, Some (Err e)) => (Err (Upstream e), Some headers, elapsed + t)%Z
          | (t, Some (Ok resp)) => (Ok resp, Some headers, elapsed + t)%Z
          end
      end
  end.

(** UpstreamHttp::send *)
Definition send (u : UpstreamHttp) (net : Net) (budget : option Z) :
    result SourceError UpstreamResponse * option HeaderMap * Z :=
  match transport u with
  | TPlain =>
      match timeout (composed_connect_cap (connect_timeout u) budget) (net_connect net) with
      | (t, None) => (Err (Unreachable (str "connect timed out")), None, t)
      | (t, Some (Err e)) => (Err (Unreachable e), None, t)
      | (t, Some (Ok _)) => send_over u net budget t
      end
  | TTls =>
      let tb := tls_budget u in
      match timeout (tls_stage_cap (stage_budget (tls_total tb) 0 (tls_connect tb)) budget 0) (net_connect net) with
      | (t, None) => (Err (Unreachable (str "tls connect timed out")), None, t)
      | (t, Some (Err e)) => (Err (Unreachable e), None, t)
      | (t, Some (Ok _)) =>
          match timeout (tls_stage_cap (stage_budget (tls_total tb) t (tls_handshake tb)) budget t) (net_handshake net) with
          | (t', None) => (Err (Unreachable (str "tls handshake timed out")), None, t + t')%Z
          | (t', Some (Err e)) => (Err (Upstream e), None, t + t')%Z
          | (t', Some (Ok _)) => send_over u net budget (t + t')
          end
      end
  end.

(** ** The transport cap *)

Definition CONTENT_ENCODING : HeaderName := str "content-encoding".

Definition is_content_encoded (headers : HeaderMap) : bool :=
  existsb (fun t => negb (bool_decide (t = str "identity"))) (header_tokens headers CONTENT_ENCODING).

Definition content_length_of (headers : HeaderMap) : option Z :=
  v ← header_get headers CONTENT_LENGTH;
  s ← to_str v;
  parse_u64 (Utf8.trim s).

Definition min_opt (a b : option Z) : option Z :=
  match a, b with
  | Some a, Some b => Some (Z.min a b)
  | Some a, None => Some a
  | None, b => b
  end.

Definition compute_transport_cap (headers : HeaderMap) (t : NarinfoTransport) (expected_size : option Z) : option Z :=
  let content_length := content_length_of headers in
  let http_encoded := is_content_encoded headers in
  let narinfo_raw := bool_decide (transport_compression t = Raw) in
  if narinfo_raw && negb http_encoded then min_opt content_length expected_size else content_length.

(** ** The bounded body *)

Record BoundedBody := { byte_cap : option Z; seen : Z; bb_ended : bool }.

Definition BoundedBody_new (cap : option Z) : BoundedBody := {| byte_cap := cap; seen := 0; bb_ended := false |}.

Definition over_cap_error : list byte := str "over the transport bound".
Definition stalled_error : list byte := str "stalled mid-body".

(** BoundedBody::poll_frame: what the inner body answered, and for a pending one
    whether the idle deadline passed. *)
Definition bounded_poll (b : BoundedBody) (p : Poll) (idle_passed : bool) : Poll * BoundedBody :=
  if bb_ended b then (PollNone, b)
  else
    let ended n := {| byte_cap := byte_cap b; seen := n; bb_ended := true |} in
    match p with
    | PollData data e =>
        let n := u64_saturating_add (seen b) (Z.of_nat (length data)) in
        match byte_cap b with
        | Some cap =>
            if (cap <? n)%Z then (PollError over_cap_error, ended n)
            else (PollData data e, {| byte_cap := byte_cap b; seen := n; bb_ended := false |})
        | None => (PollData data e, {| byte_cap := byte_cap b; seen := n; bb_ended := false |})
        end
    | PollTrailers e => (PollTrailers e, b)
    | PollError e => (PollError e, ended (seen b))
    | PollNone => (PollNone, ended (seen b))
    | PollPending => if idle_passed then (PollError stalled_error, ended (seen b)) else (PollPending, b)
    end.

Fixpoint bounded_polls (b : BoundedBody) (ps : list (Poll * bool)) : list Poll :=
  match ps with
  | [] => []
  | (p, idle) :: rest => let '(q, b') := bounded_poll b p idle in q :: bounded_polls b' rest
  end.

(** ** The source *)

(** UpstreamHttp::fetch_buffered *)
Definition fetch_buffered (u : UpstreamHttp) (net : Net) (budget : option Z) : result SourceError UpstreamResponse :=
  resp ← (send u net budget).1.1;
  match collect_limited MAX_NARINFO_BYTES (up_body resp) with
  | None => Err (Upstream (str "reading body"))
  | Some bytes => Ok {| up_status := up_status resp; up_headers := up_headers resp; up_body := full bytes |}
  end.

(** UpstreamHttp::fetch_streaming: the response and the bound on its body. *)
Definition fetch_streaming (u : UpstreamHttp) (net : Net) (expected_size : option Z) (t : NarinfoTransport)
    (budget : option Z) : result SourceError (UpstreamResponse * BoundedBody) :=
  resp ← (send u net budget).1.1;
  Ok (resp, BoundedBody_new (compute_transport_cap (up_headers resp) t expected_size)).

(** The upstream path and the transport of a NAR key. *)
Definition nar_request (key : NarKey) : list byte * NarinfoTransport :=
  match key with
  | SignedNarHash _ hint t => (str "/nar/" ++ hint, t)
  | UpstreamPath token => (str "/nar/" ++ token, {| transport_compression := NarCompression_default |})
  end.

(** UpstreamHttp::resolve_within; [net] answers for the path asked. *)
Definition resolve_within (u : UpstreamHttp) (net : list byte -> Net) (key : NarKey) (expected_size budget : option Z) :
    result SourceError (UpstreamResponse * BoundedBody) :=
  let '(path, t) := nar_request key in
  fetch_streaming u (net path) expected_size t budget.

(** UpstreamHttp::fetch_within *)
Definition fetch_narinfo_within (u : UpstreamHttp) (net : list byte -> Net) (hash : StoreHash) (budget : option Z) :
    result SourceError UpstreamResponse :=
  fetch_buffered u (net (str "/" ++ hash ++ str ".narinfo")) budget.

(** UpstreamHttp::get_within *)
Definition get_within (u : UpstreamHttp) (net : list byte -> Net) (path : list byte) (budget : option Z) :
    result SourceError (UpstreamResponse * BoundedBody) :=
  fetch_streaming u (net path) None {| transport_compression := NarCompression_default |} budget.

(** ** Deadlines *)

Definition stage_nonneg {A} (s : stage A) : Prop := match s with Some (t, _) => (0 <= t)%Z | None => True end.

Record net_ok (net : Net) : Prop := {
  ok_connect : stage_nonneg (net_connect net);
  ok_handshake : stage_nonneg (net_handshake net);
  ok_response : stage_nonneg (net_response net)
}.

Record upstream_ok (u : UpstreamHttp) : Prop := {
  ok_connect_timeout : (0 <= connect_timeout u)%Z;
  ok_header_timeout : (0 <= header_timeout u)%Z;
  ok_tls : (0 <= tls_total (tls_budget u) /\ 0 <= tls_connect (tls_budget u) /\ 0 <= tls_handshake (tls_budget u))%Z
}.

(** The longest a hop may take before it has the response headers. *)
Definition setup_bound (u : UpstreamHttp) : Z :=
  match transport u with TPlain => connect_timeout u | TTls => tls_total (tls_budget u) end.
Definition hop_bound (u : UpstreamHttp) (budget : option Z) : Z :=
  match budget with
  | None => setup_bound u + header_timeout u
  | Some b => Z.min b (setup_bound u + header_timeout u)
  end.

Lemma timeout_bound {A} cap (s : stage A) : (0 <= cap)%Z -> stage_nonneg s -> (0 <= (timeout cap s).1 <= cap)%Z.
Proof.
  intros Hc Hs. unfold timeout. destruct s as [[t r]|]; cbn; [|lia]. cbn in Hs.
  destruct (Z.leb_spec t cap); cbn; lia.
Qed.

(** The next hop reads back the budget it was sent. *)
Lemma request_budget w :
  (0 <= w)%Z -> parse_hop_budget (request_headers w) = Some (hop_budget_ms w) /\
  (0 <= hop_budget_ms w /\ from_millis (hop_budget_ms w) <= w)%Z.
Proof.
  intros Hw. unfold hop_budget_ms, duration_millis, from_millis.
  assert (0 <= w / 1000000)%Z as Hd by (apply Z.div_pos; lia).
  pose proof (Z.mul_div_le w 1000000 ltac:(lia)) as Hm.
  set (n := Z.min u64_max (w / 1000000)) in *. assert (u64_ok n) as Hn by (unfold u64_ok, n, u64_max; lia).
  split; [|unfold n; unfold u64_max in *; lia].
  unfold parse_hop_budget, request_headers, header_get.
  rewrite get_all_append, decide_True by done. change (hop_budget_ms w) with n. cbn [app get_all]. unfold get_all.
  rewrite lookup_empty. cbn [from_option id app head mbind option_bind].
  assert (Forall Utf8.visible (show_u64 n)) as Hvis.
  { apply Forall_forall. intros b Hb. eapply show_chars; [|done]. apply Hn. }
  unfold to_str. assert (forallb (fun b => ((32 <=? u8_val b)%Z && (u8_val b <? 127)%Z) || (u8_val b =? 9)%Z) (show_u64 n) = true) as ->.
  { apply List.forallb_forall. intros b Hb%list_elem_of_In. rewrite Forall_forall in Hvis. specialize (Hvis b Hb).
    unfold Utf8.visible in Hvis. apply orb_true_iff. left. apply andb_true_iff. rewrite Z.leb_le, Z.ltb_lt. lia. }
  cbn [mbind option_bind]. rewrite (trim_number _ n); by apply parse_show_u64.
Qed.

Lemma header_wait_bounds u budget elapsed :
  upstream_ok u -> (0 <= elapsed)%Z -> (forall b, budget = Some b -> elapsed <= b)%Z ->
  (0 <= composed_header_wait (header_timeout u) budget elapsed <= header_timeout u)%Z /\
  (forall b, budget = Some b -> elapsed + composed_header_wait (header_timeout u) budget elapsed <= b)%Z.
Proof.
  intros [_ Hh _] He Hb. unfold composed_header_wait, duration_sub. destruct budget as [b|].
  - specialize (Hb b eq_refl). split; [lia|]. intros b' [= <-]. lia.
  - split; [lia|done].
Qed.

(** A result of [send] that keeps the hop's promises. *)
Definition within (u : UpstreamHttp) (budget : option Z) (r : result SourceError UpstreamResponse * option HeaderMap * Z) : Prop :=
  (0 <= r.2 <= hop_bound u budget)%Z /\
  forall h, r.1.2 = Some h -> exists ms, parse_hop_budget h = Some ms /\ (0 <= ms)%Z /\
    (from_millis ms <= header_timeout u)%Z /\ forall b, budget = Some b -> (from_millis ms <= b)%Z.

Lemma setup_failed u budget t r :
  upstream_ok u -> (0 <= t <= setup_bound u)%Z -> (forall b, budget = Some b -> t <= b)%Z -> within u budget (r, None, t).
Proof.
  intros [_ Hh _] Ht Htb. split; [|done]. cbn [snd]. unfold hop_bound. destruct budget as [b|]; [specialize (Htb b eq_refl)|]; lia.
Qed.

Lemma send_over_within u net budget elapsed :
  upstream_ok u -> net_ok net -> (0 <= elapsed <= setup_bound u)%Z -> (forall b, budget = Some b -> elapsed <= b)%Z ->
  within u budget (send_over u net budget elapsed).
Proof.
  intros Hu Hn He Hb. destruct (header_wait_bounds u budget elapsed Hu) as [Hw Hwb]; [lia|done|].
  unfold send_over. destruct (net_http1 net) as [[]|]; [|by apply setup_failed].
  destruct (net_uri net) as [[]|]; [|by apply setup_failed].
  cbv zeta. set (w := composed_header_wait _ _ _) in *.
  pose proof (timeout_bound w (net_response net) (proj1 Hw) (ok_response _ Hn)) as Ht.
  destruct (request_budget w (proj1 Hw)) as (Hp & Hms & Hle).
  assert (forall t r, (0 <= t <= w)%Z -> within u budget (r, Some (request_headers w), (elapsed + t)%Z)) as Hall.
  { intros t r Htw. split; cbn [fst snd].
    - unfold hop_bound. destruct budget as [b|]; [specialize (Hwb b eq_refl)|]; lia.
    - intros h [= <-]. exists (hop_budget_ms w). split_and!; [done|done|lia|]. intros b Hbb. specialize (Hwb b Hbb). lia. }
  destruct (timeout w (net_response net)) as [t [[resp|e]|]]; cbn [fst] in Ht; by apply Hall.
Qed.

(** A stage of setup under a cap that leaves the hop within its bounds. *)
Lemma setup_stage {A} u budget elapsed cap (s : stage A) :
  stage_nonneg s -> (0 <= elapsed)%Z -> (0 <= cap)%Z -> (elapsed + cap <= setup_bound u)%Z ->
  (forall b, budget = Some b -> elapsed + cap <= b)%Z ->
  (0 <= elapsed + (timeout cap s).1 <= setup_bound u)%Z /\ (forall b, budget = Some b -> elapsed + (timeout cap s).1 <= b)%Z.
Proof.
  intros Hs He Hc Hu Hb. pose proof (timeout_bound cap s Hc Hs). split; [lia|]. intros b Hbb. specialize (Hb b Hbb). lia.
Qed.

Lemma send_plain_within u net budget :
  transport u = TPlain -> upstream_ok u -> net_ok net -> (forall b, budget = Some b -> 0 <= b)%Z ->
  within u budget (send u net budget).
Proof.
  intros Htr Hu Hn Hb. pose proof Hu as [Hc Hh _]. unfold send. rewrite Htr.
  destruct (setup_stage u budget 0 (composed_connect_cap (connect_timeout u) budget) (net_connect net)) as [Ht Htb];
    [apply Hn|lia| | | |].
  1-3: unfold setup_bound, composed_connect_cap; rewrite ?Htr; destruct budget as [b|]; try specialize (Hb b eq_refl);
    try lia; try done; intros b' [= <-]; lia.
  destruct (timeout _ (net_connect net)) as [t r]; cbn [fst] in Ht, Htb. rewrite Z.add_0_l in *.
  destruct r as [[x|e]|]; [|by apply setup_failed|by apply setup_failed]. by apply send_over_within.
Qed.

Lemma tls_cap_bounds total elapsed cap budget :
  (0 <= elapsed <= total)%Z -> (0 <= cap)%Z -> (forall b, budget = Some b -> elapsed <= b)%Z ->
  (0 <= tls_stage_cap (stage_budget total elapsed cap) budget elapsed)%Z /\
  (elapsed + tls_stage_cap (stage_budget total elapsed cap) budget elapsed <= total)%Z /\
  (forall b, budget = Some b -> elapsed + tls_stage_cap (stage_budget total elapsed cap) budget elapsed <= b)%Z.
Proof.
  intros He Hc Hb. unfold tls_stage_cap, stage_budget, duration_sub. destruct budget as [b|].
  - specialize (Hb b eq_refl). split_and!; [lia..|]. intros b' [= <-]. lia.
  - split_and!; [lia..|done].
Qed.

Lemma send_tls_within u net budget :
  transport u = TTls -> upstream_ok u -> net_ok net -> (forall b, budget = Some b -> 0 <= b)%Z ->
  within u budget (send u net budget).
Proof.
  intros Htr Hu Hn Hb. pose proof Hu as [_ _ (Ht1 & Ht2 & Ht3)].
  assert (setup_bound u = tls_total (tls_budget u)) as Hsb by (unfold setup_bound; by rewrite Htr).
  unfold send. rewrite Htr. cbv zeta.
  destruct (tls_cap_bounds (tls_total (tls_budget u)) 0 (tls_connect (tls_budget u)) budget) as (H1 & H2 & H3); [lia|done|done|].
  destruct (setup_stage u budget 0 _ (net_connect net) (ok_connect _ Hn) (Z.le_refl 0) H1) as [Ht Htb]; [lia|done|].
  destruct (timeout _ (net_connect net)) as [t r]; cbn [fst] in Ht, Htb. rewrite Z.add_0_l in *.
  destruct r as [[x|e]|]; [|by apply setup_failed|by apply setup_failed].
  destruct (tls_cap_bounds (tls_total (tls_budget u)) t (tls_handshake (tls_budget u)) budget) as (H4 & H5 & H6); [lia|done|done|].
  destruct (setup_stage u budget t _ (net_handshake net) (ok_handshake _ Hn) (proj1 Ht) H4) as [Ht' Htb']; [lia|done|].
  destruct (timeout _ (net_handshake net)) as [t' r']; cbn [fst] in Ht', Htb'.
  destruct r' as [[x'|e']|]; [|by apply setup_failed|by apply setup_failed]. by apply send_over_within.
Qed.

(** A chain of daemons shares one shrinking deadline.  A hop takes at most
    its connect (or TLS) bound plus its header timeout, and never more than the
    budget its client sent it; if it asks its upstream, the budget the upstream
    reads from the request is within this hop's own header timeout and within
    the budget it was given, so along a chain the budget never grows. *)
Theorem hop_budget_composes u net budget :
  upstream_ok u -> net_ok net -> (forall b, budget = Some b -> 0 <= b)%Z -> within u budget (send u net budget).
Proof. intros. destruct (transport u) eqn:?; [by apply send_plain_within|by apply send_tls_within]. Qed.

(** ** The bounded body *)

(** The bytes of the data frames. *)
Definition body_data (ps : list Poll) : list byte :=
  concat ((fun p => match p with PollData d _ => d | _ => [] end) <$> ps).

Lemma drained_data ps : drained_len ps = Z.of_nat (length (body_data ps)).
Proof.
  unfold body_data. induction ps as [|p ps IH]; [done|]. cbn [drained_len foldr fmap list_fmap concat].
  fold (drained_len ps). rewrite IH, length_app. destruct p; cbn; lia.
Qed.

Lemma bounded_ended b ps : bb_ended b = true -> body_data (bounded_polls b ps) = [].
Proof.
  intros Hb. induction ps as [|[p idle] ps IH]; [done|]. cbn [bounded_polls]. unfold bounded_poll. by rewrite Hb.
Qed.

(** One poll: what is passed on is what the inner body gave, or an error, after
    which the body is over. *)
Lemma bounded_poll_spec b p idle q b' :
  bb_ended b = false -> bounded_poll b p idle = (q, b') ->
  (byte_cap b' = byte_cap b) /\
  ((q = p /\ (bb_ended b' = false \/ bb_ended b' = true /\ terminal p = true /\ data_len p = 0%Z) /\
    seen b' = match p with PollData d _ => u64_saturating_add (seen b) (Z.of_nat (length d)) | _ => seen b end /\
    (forall cap d e, byte_cap b = Some cap -> p = PollData d e -> seen b' <= cap)%Z) \/
   (bb_ended b' = true /\ exists e, q = PollError e)).
Proof.
  intros Hb Hp. unfold bounded_poll in Hp. rewrite Hb in Hp.
  destruct p as [d e|e|e| |]; [|naive_solver..|destruct idle; naive_solver].
  destruct (byte_cap b) as [cap|] eqn:Hc.
  - destruct (Z.ltb_spec cap (u64_saturating_add (seen b) (Z.of_nat (length d)))); naive_solver.
  - naive_solver.
Qed.

Lemma bounded_prefix b ps : body_data (bounded_polls b ps) `prefix_of` body_data ps.*1.
Proof.
  revert b. induction ps as [|[p idle] ps IH]; intros b; [done|].
  destruct (bb_ended b) eqn:Hb; [rewrite bounded_ended by done; apply prefix_nil|].
  cbn [bounded_polls]. destruct (bounded_poll b p idle) as [q b'] eqn:Hp.
  destruct (bounded_poll_spec _ _ _ _ _ Hb Hp) as [_ [(-> & _)|(He & e & ->)]]; unfold body_data; cbn [fmap list_fmap concat fst].
  - apply prefix_app, IH.
  - fold (body_data (bounded_polls b' ps)). rewrite bounded_ended by done. apply prefix_nil.
Qed.

Lemma bounded_len b ps cap :
  byte_cap b = Some cap -> (cap < u64_max)%Z -> (0 <= seen b <= cap)%Z -> (seen b + drained_len (bounded_polls b ps) <= cap)%Z.
Proof.
  intros Hc Hmax. revert b Hc. induction ps as [|[p idle] ps IH]; intros b Hc Hs; [cbn; lia|].
  destruct (bb_ended b) eqn:Hb; [rewrite drained_data, bounded_ended by done; cbn; lia|].
  cbn [bounded_polls]. destruct (bounded_poll b p idle) as [q b'] eqn:Hp.
  destruct (bounded_poll_spec _ _ _ _ _ Hb Hp) as [Hc' [(-> & _ & Hseen & Hle)|(He & e & ->)]];
    cbn [drained_len foldr]; fold (drained_len (bounded_polls b' ps)).
  - assert (seen b' = seen b + data_len p /\ 0 <= data_len p /\ seen b' <= cap)%Z as (Hs' & Hd & Hle').
    { destruct p as [d e|e|e| |]; cbn [data_len]; try lia. specialize (Hle cap d e Hc eq_refl).
      unfold u64_saturating_add in Hseen. lia. }
    specialize (IH b' ltac:(by rewrite Hc')). lia.
  - rewrite drained_data, bounded_ended by done. cbn. lia.
Qed.

Lemma bounded_account b ps s n :
  bb_ended b = false -> account s (bounded_polls b ps) = Complete n -> account s ps.*1 = Complete n.
Proof.
  revert b s. induction ps as [|[p idle] ps IH]; intros b s Hb Ha; [done|].
  cbn [bounded_polls] in Ha. destruct (bounded_poll b p idle) as [q b'] eqn:Hp.
  destruct (bounded_poll_spec _ _ _ _ _ Hb Hp) as [_ [(-> & He & _)|(_ & e & ->)]]; [|done].
  cbn [account fmap list_fmap fst] in Ha |- *. destruct (terminal p) eqn:Ht; [done|].
  destruct He as [He|(_ & He & _)]; [|congruence]. by eapply IH.
Qed.

Lemma logging_is_account polls : sink (logging_life false polls) = [account 0 polls].
Proof. by apply logging_account. Qed.

(** A NAR fetched from the upstream is bounded without being cut wrongly.
    For a request whose signed NarSize is known, what reaches the client is a
    prefix of what the upstream sent; for an uncompressed NAR without a content
    coding it is at most NarSize bytes however much the upstream sends; for a
    compressed or unknown one the bound is the Content-Length alone, so NarSize
    never truncates it; and a transfer is narrated complete only if the
    upstream's own body came to its end with the same count. *)
Theorem nar_transfer_bounded u net key size budget resp bb ps :
  resolve_within u net key (Some size) budget = Ok (resp, bb) -> (0 <= size < u64_max)%Z ->
  let raw := bool_decide (transport_compression (nar_request key).2 = Raw) && negb (is_content_encoded (up_headers resp)) in
  body_data (bounded_polls bb ps) `prefix_of` body_data ps.*1 /\
  (raw = true -> (drained_len (bounded_polls bb ps) <= size)%Z) /\
  (raw = false -> byte_cap bb = content_length_of (up_headers resp)) /\
  (forall n, sink (logging_life false (bounded_polls bb ps)) = [Complete n] -> sink (logging_life false ps.*1) = [Complete n]).
Proof.
  intros Hr Hsize raw. unfold resolve_within in Hr. destruct (nar_request key) as [path t] eqn:Hk.
  unfold fetch_streaming in Hr. destruct (send u (net path) budget).1.1 as [up|e]; [|done]. cbn in Hr.
  injection Hr as <- <-. split_and!.
  - apply bounded_prefix.
  - intros Hraw. subst raw. unfold compute_transport_cap. cbn [snd] in Hraw. rewrite Hraw.
    set (bb := BoundedBody_new _).
    assert (exists cap, byte_cap bb = Some cap /\ 0 <= cap <= size)%Z as (cap & Hcap & Hle).
    { subst bb. unfold BoundedBody_new, content_length_of; cbn [byte_cap].
      destruct (header_get _ _) as [v|]; cbn; [|exists size; split; [done|lia]].
      destruct (to_str v) as [s|]; cbn; [|exists size; split; [done|lia]].
      destruct (parse_u64 _) as [n|] eqn:Hn; cbn; [|exists size; split; [done|lia]].
      apply parse_u64_ok in Hn. exists (Z.min n size). split; [done|]. unfold u64_ok in Hn. lia. }
    pose proof (bounded_len bb ps cap Hcap). subst bb. cbn [seen BoundedBody_new] in *. lia.
  - intros Hraw. subst raw. cbn [snd] in Hraw. unfold compute_transport_cap. by rewrite Hraw.
  - intros n. rewrite !logging_is_account. intros [= Ha]. f_equal.
    eapply (bounded_account (BoundedBody_new _)); [done|exact Ha].
Qed.

(** ** A two-hop example *)

Definition sample_upstream (t : Transport) : UpstreamHttp :=
  {| transport := t; connect_timeout := from_millis 2000; header_timeout := from_millis 15000; tls_budget := tls_upstream_v1 |}.

Definition sample_reply : UpstreamResponse :=
  {| up_status := 200; up_headers := header_append ∅ CONTENT_LENGTH (str "900"); up_body := full [] |}.

(** Connect in 1 s, handshake in 2 s, headers after 3 s. *)
Definition sample_net : Net :=
  {| net_connect := Some (from_millis 1000, Ok tt); net_handshake := Some (from_millis 2000, Ok tt);
     net_http1 := Ok tt; net_uri := Ok tt;
     net_response := Some (from_millis 3000, Ok sample_reply) |}.

Lemma sample_upstream_ok t : upstream_ok (sample_upstream t).
Proof. split; cbn; unfold from_millis; lia. Qed.

Lemma sample_net_ok : net_ok sample_net.
Proof. split; cbn; unfold from_millis; lia. Qed.

(** Over TLS with a 10 s budget 7 s are left for the headers; with 5 s the
    header wait runs out when the budget does. *)
Lemma hop_budget_composes_witness :
  within (sample_upstream TTls) (Some (from_millis 10000)) (send (sample_upstream TTls) sample_net (Some (from_millis 10000))) /\
  (send (sample_upstream TTls) sample_net (Some (from_millis 10000))).2 = from_millis 6000 /\
  ((send (sample_upstream TTls) sample_net (Some (from_millis 10000))).1.2 ≫= parse_hop_budget) = Some 7000%Z /\
  (send (sample_upstream TTls) sample_net (Some (from_millis 5000))).2 = from_millis 5000.
Proof.
  split; [|vm_compute; auto].
  apply hop_budget_composes; [apply sample_upstream_ok|apply sample_net_ok|]. intros b [= <-]. unfold from_millis. lia.
Defined.

Definition sample_nar_key (c : NarCompression) : NarKey :=
  SignedNarHash (str "sha256:sample") (str "a.nar") {| transport_compression := c |}.

(** A 900-byte reply to a NAR signed for 4 bytes: the raw one stops at the first
    frame over the bound, the compressed one passes. *)
Definition sample_polls : list (Poll * bool) :=
  [(PollData (str "abc") false, false); (PollPending, false); (PollData (str "def") true, false)].

Definition sample_body (c : NarCompression) : list Poll :=
  match resolve_within (sample_upstream TPlain) (fun _ => sample_net) (sample_nar_key c) (Some 4%Z) None with
  | Ok (_, bb) => bounded_polls bb sample_polls
  | Err _ => []
  end.

Lemma nar_transfer_bounded_witness :
  (exists resp bb, resolve_within (sample_upstream TPlain) (fun _ => sample_net) (sample_nar_key Raw) (Some 4%Z) None = Ok (resp, bb) /\
    (drained_len (bounded_polls bb sample_polls) <= 4)%Z) /\
  sample_body Raw = [PollData (str "abc") false; PollPending; PollError over_cap_error] /\
  sample_body Compressed = [PollData (str "abc") false; PollPending; PollData (str "def") true].
Proof.
  split; [|split; vm_compute; reflexivity].
  eexists sample_reply, _. split; [reflexivity|].
  apply (nar_transfer_bounded (sample_upstream TPlain) (fun _ => sample_net) (sample_nar_key Raw) 4 None sample_reply _ sample_polls);
    [reflexivity|unfold u64_max; lia|vm_compute; reflexivity].
Defined.
