(* ===== verification/NarinfoCache.v ===== *)
(** * The narinfo disk cache: daemon-core/src/narinfo_cache.rs

    Framed entry files, the bookkeeping that bounds them, the sidecar index and
    the caching source in front of an inner narinfo source.  The directory is a
    map from store hashes to the bytes of their `.nic` files, and the sidecar's
    bytes; what the operating system answers is [Io].  [cached] is the cache's
    life: fetches, restarts, and crashes that lose, truncate or half-install
    files and leave any bytes at all in the sidecar. *)

From Stdlib Require Import Strings.Byte ZArith Lia.
From stdpp Require Import base sets gmap numbers strings sorting list.
From S2P Require Import Prelude Text Utf8 NixBase32 Ids Rewrite Catalog PublicProof Allowlist Http Server.

Definition NIX_BASE32 : list byte := str "0123456789abcdfghijklmnpqrsvwxyz".
Definition STORE_HASH_LEN : nat := 32.

(** In seconds. *)
Definition POSITIVE_TTL : Z := 30 * 24 * 3600.
Definition NEGATIVE_TTL : Z := 3600.

Definition tab : byte := x09.
Definition INDEX_MAGIC : list byte := str "NIXP2P-NARINFO-INDEX" ++ [tab] ++ str "1".
Definition ENTRY_MAGIC : list byte := str "NIXP2P-NARINFO-CACHE" ++ [tab] ++ str "1".

Definition safe_key (store_hash : list byte) : option (list byte) :=
  if negb (length store_hash =? STORE_HASH_LEN) then None
  else if forallb (fun b => bool_decide (b ∈ NIX_BASE32)) store_hash then Some store_hash else None.

(** ** Well-formed narinfos *)

(** The flags of [is_well_formed_narinfo]. *)
Record Seen := {
  saw_store_path : bool; saw_url : bool; saw_nar_hash : bool;
  saw_nar_size : bool; saw_references : bool; saw_sig : bool
}.
Definition seen_start : Seen := Build_Seen false false false false false false.

Definition nonempty (v : list byte) : bool := negb (bool_decide (v = [])).

Definition seen_line (s : Seen) (line : list byte) : Seen :=
  let '(Build_Seen sp u nh ns r sg) := s in
  match strip_prefix (str "StorePath:") line with
  | Some v => Build_Seen (sp || nonempty (Utf8.trim v)) u nh ns r sg
  | None =>
  match strip_prefix (str "URL:") line with
  | Some v => Build_Seen sp (u || nonempty (Utf8.trim v)) nh ns r sg
  | None =>
  match strip_prefix (str "NarHash:") line with
  | Some v =>
      Build_Seen sp u (nh || (bool_decide (is_Some (strip_prefix (str "sha256:") (Utf8.trim v))) &&
                              (7 <? length (Utf8.trim v)))) ns r sg
  | None =>
  match strip_prefix (str "NarSize:") line with
  | Some v => Build_Seen sp u nh (ns || bool_decide (is_Some (parse_u64 (Utf8.trim v)))) r sg
  | None =>
  match strip_prefix (str "References:") line with
  | Some _ => Build_Seen sp u nh ns true sg
  | None =>
  match strip_prefix (str "Sig:") line with
  | Some v => Build_Seen sp u nh ns r (sg || nonempty (Utf8.trim v))
  | None => s
  end end end end end end.

Definition is_well_formed_narinfo (body : list byte) : bool :=
  if negb (Utf8.from_utf8_ok body) then false
  else
    let s := foldl seen_line seen_start (lines body) in
    saw_store_path s && saw_url s && saw_nar_hash s && saw_nar_size s && saw_references s && saw_sig s.

(** ** Entry frames *)

Inductive EntryKind := Positive | Negative.
#[export] Instance EntryKind_eq_dec : EqDecision EntryKind.
Proof. solve_decision. Defined.

Record Entry := { entry_kind : EntryKind; entry_fetched_at : Z; entry_body : list byte }.

Definition entry_status (k : EntryKind) : Z := match k with Positive => 200 | Negative => 404 end.

Definition entry_header (fetched_at status body_len : Z) : list byte :=
  ENTRY_MAGIC ++ [newline] ++
  str "fetched_at" ++ [tab] ++ show_u64 fetched_at ++ [newline] ++
  str "status" ++ [tab] ++ show_u64 status ++ [newline] ++
  str "body_len" ++ [tab] ++ show_u64 body_len.

Definition Entry_encode (e : Entry) : list byte :=
  entry_header (entry_fetched_at e) (entry_status (entry_kind e)) (Z.of_nat (length (entry_body e))) ++
  [newline; newline] ++ entry_body e.

(** The header locals of [Entry_decode]. *)
Record Frame := { f_fetched_at : option Z; f_status : option Z; f_body_len : option Z }.

Definition frame_line (f : Frame) (key value : list byte) : Frame :=
  if decide (key = str "fetched_at") then Build_Frame (parse_u64 value) (f_status f) (f_body_len f)
  else if decide (key = str "status") then Build_Frame (f_fetched_at f) (parse_u16 value) (f_body_len f)
  else if decide (key = str "body_len") then Build_Frame (f_fetched_at f) (f_status f) (parse_u64 value)
  else f.

Fixpoint frame_lines (f : Frame) (ls : list (list byte)) : option Frame :=
  match ls with
  | [] => Some f
  | line :: rest => kv ← split_once tab line; frame_lines (frame_line f kv.1 kv.2) rest
  end.

Definition entry_kind_of (status : Z) : option EntryKind :=
  if (status =? 200)%Z then Some Positive else if (status =? 404)%Z then Some Negative else None.

Definition Entry_decode (raw : list byte) : option Entry :=
  sep ← find_subslice [newline; newline] raw;
  let header := take sep raw in
  let body := drop (sep + 2) raw in
  if negb (Utf8.from_utf8_ok header) then None
  else match lines header with
  | [] => None
  | magic :: ls =>
      if negb (bool_decide (magic = ENTRY_MAGIC)) then None
      else
        f ← frame_lines (Build_Frame None None None) ls;
        fetched_at ← f_fetched_at f;
        status ← f_status f;
        body_len ← f_body_len f;
        if negb (Z.of_nat (length body) =? body_len)%Z then None
        else
          kind ← entry_kind_of status;
          if bool_decide (kind = Positive) && negb (is_well_formed_narinfo body) then None
          else Some {| entry_kind := kind; entry_fetched_at := fetched_at; entry_body := body |}
  end.

(** ** Bookkeeping *)

Record CacheRecord := { rec_fetched_at : Z; rec_token : option (list byte) }.

Record Bookkeeping := {
  records : gmap (list byte) CacheRecord;
  lru : gset (Z * list byte);
  token_index : gmap (list byte) (list byte)
}.
Definition Bookkeeping_default : Bookkeeping := {| records := ∅; lru := ∅; token_index := ∅ |}.

Definition book_remove (b : Bookkeeping) (store_hash : list byte) : Bookkeeping :=
  match records b !! store_hash with
  | None => b
  | Some rec =>
      {| records := delete store_hash (records b);
         lru := lru b ∖ {[(rec_fetched_at rec, store_hash)]};
         token_index :=
           match rec_token rec with
           | Some token =>
               if bool_decide (token_index b !! token = Some store_hash) then delete token (token_index b)
               else token_index b
           | None => token_index b
           end |}
  end.

Definition book_insert (b : Bookkeeping) (store_hash : list byte) (fetched_at : Z) (token : option (list byte)) :
    Bookkeeping :=
  {| records := <[store_hash := {| rec_fetched_at := fetched_at; rec_token := token |}]> (records b);
     lru := {[(fetched_at, store_hash)]} ∪ lru b;
     token_index := match token with Some t => <[t := store_hash]> (token_index b) | None => token_index b end |}.

(** The order of `BTreeSet<(u64, String)>`. *)
Definition lru_le (a b : Z * list byte) : Prop := (a.1 < b.1)%Z \/ a.1 = b.1 /\ str_le a.2 b.2.
#[export] Instance lru_le_dec : RelDecision lru_le.
Proof. intros a b. unfold lru_le. apply _. Defined.
#[export] Instance lru_le_trans : Transitive lru_le.
Proof.
  intros [x a] [y b] [z c]. unfold lru_le. cbn. intros [?|[-> Hab]] [?|[-> Hbc]]; [left; lia..|].
  right. split; [done|]. by etrans.
Qed.
#[export] Instance lru_le_total : Total lru_le.
Proof.
  intros [x a] [y b]. unfold lru_le. cbn. destruct (Z.lt_total x y) as [?|[->|?]]; [by left; left| |by right; left].
  destruct (total str_le a b); [left|right]; by right.
Qed.
Definition lru_order (b : Bookkeeping) : list (Z * list byte) := merge_sort lru_le (elements (lru b)).

(** The first entry in LRU order that is not spared. *)
Definition oldest (b : Bookkeeping) (spare : option (list byte)) : option (Z * list byte) :=
  head (filter (fun v => spare <> Some v.2) (lru_order b)).

(** The `while` of evict_over_cap, one round per unit of fuel; [None] is fuel
    running out. *)
Fixpoint evict_fuel (fuel : nat) (b : Bookkeeping) (cap : nat) (spare : option (list byte)) :
    option (list (list byte) * Bookkeeping) :=
  match fuel with
  | O => None
  | S f =>
      if (size (records b) <=? cap) then Some ([], b)
      else match oldest b spare with
      | None => Some ([], b)
      | Some victim => r ← evict_fuel f (book_remove b victim.2) cap spare; Some (victim.2 :: r.1, r.2)
      end
  end.
Definition evict_over_cap (b : Bookkeeping) (cap : nat) (spare : option (list byte)) :
    option (list (list byte) * Bookkeeping) :=
  evict_fuel (S (size (records b))) b cap spare.

(** ** The sidecar *)

Definition sidecar_row : Type := list byte * Z * option (list byte).

Fixpoint sidecar_rows (seen : list (list byte)) (ls : list (list byte)) : option (list sidecar_row) :=
  match ls with
  | [] => Some []
  | line :: rest =>
      if bool_decide (line = []) then sidecar_rows seen rest
      else
        let cols := split_on tab line in
        store_hash ← cols !! 0;
        fetched_at ← (cols !! 1) ≫= parse_u64;
        token ← cols !! 2;
        _ ← safe_key store_hash;
        if bool_decide (store_hash ∈ seen) then None
        else
          let token := if bool_decide (token = []) then None else Some token in
          out ← sidecar_rows (store_hash :: seen) rest;
          Some ((store_hash, fetched_at, token) :: out)
  end.

Definition read_sidecar (index : option (list byte)) : option (list sidecar_row) :=
  raw ← index;
  if negb (Utf8.from_utf8_ok raw) then None
  else match lines raw with
  | [] => None
  | magic :: ls => if negb (bool_decide (magic = INDEX_MAGIC)) then None else sidecar_rows [] ls
  end.

Definition sidecar_line (b : Bookkeeping) (e : Z * list byte) : list byte :=
  let token := default [] (r ← records b !! e.2; rec_token r) in
  e.2 ++ [tab] ++ show_u64 e.1 ++ [tab] ++ token ++ [newline].

Definition serialize_sidecar (b : Bookkeeping) : list byte :=
  INDEX_MAGIC ++ [newline] ++ concat (sidecar_line b <$> lru_order b).

(** ** Disk and bookkeeping *)

(** What the operating system answers during one operation. *)
Record Io := {
  read_index_ok : bool;                  (* reading the sidecar *)
  read_ok : list byte -> bool;           (* reading an existing entry file *)
  nic_write_ok : bool;                   (* write_durably of the entry's tmp file *)
  nic_rename_ok : bool;
  index_write_ok : bool;                 (* write_durably of the sidecar's tmp file *)
  index_rename_ok : bool;
  remove_ok : list byte -> bool;         (* remove_file of an entry file *)
  listing : option (list (list byte))    (* read_dir: the stems of the `.nic` files *)
}.

Record Shared := {
  book : Bookkeeping;
  nic : gmap (list byte) (list byte);
  index : option (list byte)
}.

Definition read_nic (io : Io) (sh : Shared) (key : list byte) : option (list byte) :=
  raw ← nic sh !! key; if read_ok io key then Some raw else None.

Definition remove_nic (io : Io) (sh : Shared) (key : list byte) : Shared :=
  if remove_ok io key then {| book := book sh; nic := delete key (nic sh); index := index sh |} else sh.

Definition write_sidecar_bytes (io : Io) (sh : Shared) (bytes : list byte) : Shared :=
  if index_write_ok io && index_rename_ok io
  then {| book := book sh; nic := nic sh; index := Some bytes |} else sh.

Definition persist_sidecar (io : Io) (sh : Shared) : Shared :=
  write_sidecar_bytes io sh (serialize_sidecar (book sh)).

Definition set_book (sh : Shared) (b : Bookkeeping) : Shared :=
  {| book := b; nic := nic sh; index := index sh |}.

Definition delete_entry_files (io : Io) (sh : Shared) (victims : list (list byte)) : Shared :=
  foldl (fun sh v => match safe_key v with Some key => remove_nic io sh key | None => sh end) sh victims.

Section cache.
Context (max_entries : nat).

(** [None]: the eviction loop does not end. *)
Definition record_and_evict (io : Io) (sh : Shared) (store_hash : list byte) (fetched_at : Z)
    (token : option (list byte)) : option Shared :=
  let b := book_insert (book_remove (book sh) store_hash) store_hash fetched_at token in
  r ← evict_over_cap b max_entries (Some store_hash);
  let sh := write_sidecar_bytes io (set_book sh r.2) (serialize_sidecar r.2) in
  Some (delete_entry_files io sh r.1).

Definition entry_token (e : Entry) : option (list byte) :=
  match entry_kind e with
  | Positive => c_token <$> parse_correlation (entry_body e)
  | Negative => None
  end.

Definition install (io : Io) (sh : Shared) (store_hash : list byte) (e : Entry) : option Shared :=
  match safe_key store_hash with
  | None => Some sh
  | Some key =>
      if negb (nic_write_ok io) then Some sh
      else if negb (nic_rename_ok io) then Some sh
      else
        let sh := {| book := book sh; nic := <[key := Entry_encode e]> (nic sh); index := index sh |} in
        record_and_evict io sh store_hash (entry_fetched_at e) (entry_token e)
  end.

Definition read_fresh (io : Io) (sh : Shared) (store_hash : list byte) (now : Z) : option Entry * Shared :=
  match safe_key store_hash with
  | None => (None, sh)
  | Some key =>
      match read_nic io sh key with
      | None => (None, sh)
      | Some raw =>
          match Entry_decode raw with
          | None => (None, remove_nic io sh key)
          | Some e =>
              let ttl := match entry_kind e with Positive => POSITIVE_TTL | Negative => NEGATIVE_TTL end in
              if (ttl <=? u64_saturating_sub now (entry_fetched_at e))%Z then (None, sh) else (Some e, sh)
          end
      end
  end.

(** ** Restart *)

Definition scan_one (io : Io) (sh : Shared) (b : Bookkeeping) (store_hash : list byte) : Bookkeeping :=
  match safe_key store_hash with
  | None => b
  | Some key =>
      match read_nic io sh key ≫= Entry_decode with
      | None => b
      | Some e => book_insert (book_remove b store_hash) store_hash (entry_fetched_at e) (entry_token e)
      end
  end.

Definition rebuild_from_scan (io : Io) (sh : Shared) : Shared :=
  match listing io with
  | None => sh
  | Some stems => set_book sh (foldl (scan_one io sh) (book sh) stems)
  end.

Definition insert_rows (b : Bookkeeping) (rows : list sidecar_row) : Bookkeeping :=
  foldl (fun b '(h, t, token) => book_insert b h t token) b rows.

Definition trim_to_cap (io : Io) (sh : Shared) : option (bool * Shared) :=
  r ← evict_over_cap (book sh) max_entries None;
  Some (negb (bool_decide (r.1 = [])), delete_entry_files io (set_book sh r.2) r.1).

Definition load_index (io : Io) (sh : Shared) : option Shared :=
  let '(rescanned, sh) :=
    match read_sidecar (if read_index_ok io then index sh else None) with
    | Some rows => (false, set_book sh (insert_rows (book sh) rows))
    | None => (true, rebuild_from_scan io sh)
    end in
  r ← trim_to_cap io sh;
  let '(trimmed, sh) := r in
  Some (if rescanned || trimmed then persist_sidecar io sh else sh).

(** NarinfoDiskCache::with_max_entries over a directory. *)
Definition open_cache (io : Io) (files : gmap (list byte) (list byte)) (idx : option (list byte)) : option Shared :=
  load_index io {| book := Bookkeeping_default; nic := files; index := idx |}.

(** ** Correlation *)

Definition cache_meta_for_token (io : Io) (sh : Shared) (token : list byte) : option NarMeta :=
  store_hash ← token_index (book sh) !! token;
  key ← safe_key store_hash;
  raw ← read_nic io sh key;
  e ← Entry_decode raw;
  if negb (bool_decide (entry_kind e = Positive)) then None
  else
    c ← parse_correlation (entry_body e);
    if negb (bool_decide (c_token c = token)) then None
    else Some {| meta_nar_hash := c_nar_hash c; meta_nar_size := c_nar_size c;
                 meta_transport := c_transport c; meta_store_path := c_store_path c |}.

(** ** Fetching *)

Definition positive_response (body : list byte) : UpstreamResponse :=
  {| up_status := 200;
     up_headers := header_insert (header_insert ∅ CONTENT_TYPE (str "text/x-nix-narinfo"))
                     CONTENT_LENGTH (length_value body);
     up_body := full body |}.

Definition negative_response : UpstreamResponse :=
  {| up_status := 404; up_headers := header_insert ∅ CONTENT_TYPE (str "text/plain"); up_body := empty_body |}.

Definition cacheable (bytes : list byte) (headers : HeaderMap) : bool :=
  is_well_formed_narinfo bytes && negb (has_unsupported_transfer_coding headers) &&
  negb (connection_header_is_malformed headers) && negb (has_ambiguous_framing headers).

(** The miss path, over the inner source's answer and the clock at the install. *)
Definition fetch_miss (io : Io) (sh : Shared) (store_hash : list byte) (now : Z)
    (answer : result SourceError UpstreamResponse) : option (result SourceError UpstreamResponse * Shared) :=
  match answer with
  | Err e => Some (Err e, sh)
  | Ok resp =>
      if (up_status resp =? 404)%Z then
        sh' ← install io sh store_hash {| entry_kind := Negative; entry_fetched_at := now; entry_body := [] |};
        Some (Ok negative_response, sh')
      else if negb (up_status resp =? 200)%Z then Some (Ok resp, sh)
      else match collect_limited MAX_NARINFO_BYTES (up_body resp) with
      | None => Some (Err (Upstream (str "reading narinfo body")), sh)
      | Some bytes =>
          sh' ← (if cacheable bytes (up_headers resp)
                 then install io sh store_hash {| entry_kind := Positive; entry_fetched_at := now; entry_body := bytes |}
                 else Some sh);
          Some (Ok {| up_status := 200; up_headers := up_headers resp; up_body := full bytes |}, sh')
      end
  end.

(** NarinfoDiskCache::fetch_within; the flag says whether the inner source was
    asked.  [now] is the clock of the read, [now'] of the install. *)
Definition fetch_within (io : Io) (sh : Shared) (store_hash : list byte) (budget : option Z)
    (inner : list byte -> option Z -> result SourceError UpstreamResponse) (now now' : Z) :
    option (result SourceError UpstreamResponse * bool * Shared) :=
  let '(hit, sh) := read_fresh io sh store_hash now in
  match hit with
  | Some e =>
      Some (Ok (match entry_kind e with Positive => positive_response (entry_body e) | Negative => negative_response end),
            false, sh)
  | None =>
      r ← fetch_miss io sh store_hash now' (inner store_hash budget);
      Some (r.1, true, r.2)
  end.

End cache.

(** ** Frames *)

Lemma safe_key_Some h k : safe_key h = Some k -> k = h /\ length h = 32 /\ forall b, b ∈ h -> b ∈ NIX_BASE32.
Proof.
  unfold safe_key. destruct (Nat.eqb_spec (length h) STORE_HASH_LEN) as [Hl|]; [|done]. cbn [negb].
  destruct (forallb _ h) eqn:E; [|done]. intros [= <-]. split_and!; [done|done|].
  rewrite List.forallb_forall in E. intros b Hb%list_elem_of_In%E. by apply bool_decide_eq_true in Hb.
Qed.

(** A cut-off frame never decodes. *)
Lemma decode_truncated raw e n : Entry_decode raw = Some e -> n < length raw -> Entry_decode (take n raw) = None.
Proof.
  intros Hd Hn. unfold Entry_decode in *. apply bind_Some in Hd as (sep & Hsep & Hd).
  destruct (find_subslice [newline; newline] (take n raw)) as [sep'|] eqn:Hsep'; [|done]. cbn [mbind option_bind].
  pose proof (find_subslice_bound _ _ _ Hsep') as Hb. rewrite length_take in Hb. simpl in Hb.
  apply (find_subslice_grow _ _ (drop n raw)) in Hsep'. rewrite take_drop in Hsep'.
  rewrite Hsep in Hsep'. injection Hsep' as <-.
  assert (length (drop (sep + 2) (take n raw)) <> length (drop (sep + 2) raw)) as Hlen.
  { rewrite !length_drop, length_take. lia. }
  rewrite take_take, Nat.min_l by lia. destruct (negb _); [done|].
  destruct (lines (take sep raw)) as [|magic ls]; [done|]. destruct (negb _); [done|].
  destruct (frame_lines _ ls) as [f|]; [|done]. cbn [mbind option_bind] in *.
  destruct (f_fetched_at f); [|done]. destruct (f_status f); [|done]. destruct (f_body_len f) as [n'|]; [|done].
  cbn [mbind option_bind] in *. destruct (Z.eqb_spec (Z.of_nat (length (drop (sep + 2) raw))) n'); [|done].
  destruct (Z.eqb_spec (Z.of_nat (length (drop (sep + 2) (take n raw)))) n'); [lia|done].
Qed.

Lemma find_subslice_cons needle b s :
  find_subslice needle (b :: s) =
  match strip_prefix needle (b :: s) with Some _ => Some 0 | None => S <$> find_subslice needle s end.
Proof. done. Qed.

Lemma find_nn_here l r :
  newline ∉ l -> find_subslice [newline; newline] (l ++ newline :: newline :: r) = Some (length l).
Proof.
  induction l as [|b l IH]; intros Hl; [done|]. apply not_elem_of_cons in Hl as [Hb Hl].
  cbn [app]. rewrite find_subslice_cons. cbn [strip_prefix]. rewrite decide_False by congruence. by rewrite IH.
Qed.

Lemma find_nn_line l r :
  newline ∉ l -> head r <> Some newline ->
  find_subslice [newline; newline] (l ++ newline :: r) =
  (fun i => length l + (1 + i)) <$> find_subslice [newline; newline] r.
Proof.
  intros Hl Hr. induction l as [|b l IH].
  - cbn [app]. rewrite (find_subslice_cons _ newline). cbn [strip_prefix].
    rewrite decide_True by done. destruct r as [|c r]; [done|]. rewrite decide_False; [done|].
    intros <-. by apply Hr.
  - apply not_elem_of_cons in Hl as [Hb Hl]. cbn [app]. rewrite (find_subslice_cons _ b). cbn [strip_prefix].
    rewrite decide_False by congruence. rewrite IH by done. by rewrite <-option_fmap_compose.
Qed.

(** A header line: nothing in it ends a line. *)
Definition line_ok (l : list byte) : Prop := Forall (fun b => b <> newline /\ b <> x0d /\ Utf8.ascii b) l.

Lemma line_ok_app a b : line_ok a -> line_ok b -> line_ok (a ++ b).
Proof. intros. by apply Forall_app. Qed.
Lemma line_ok_show n : (0 <= n)%Z -> line_ok (show_u64 n).
Proof. intros Hn. apply Forall_forall. intros b Hb%show_chars; [|done]. by apply visible_not in Hb as (_ & ? & ? & ?). Qed.
Lemma line_ok_nl l : line_ok l -> newline ∉ l.
Proof. unfold line_ok. rewrite Forall_forall. intros Hl Hn. by destruct (Hl _ Hn). Qed.
Lemma line_ok_cr l : line_ok l -> x0d ∉ l.
Proof. unfold line_ok. rewrite Forall_forall. intros Hl Hn. by destruct (Hl _ Hn) as (_ & ? & _). Qed.
Lemma line_ok_ascii l : line_ok l -> Forall Utf8.ascii l.
Proof. intros Hl. eapply Forall_impl; [exact Hl|]. by intros b (_ & _ & ?). Qed.

Ltac line_lit := apply (bool_decide_unpack _); vm_compute; exact I.

Definition field_line (k : list byte) (n : Z) : list byte := k ++ [tab] ++ show_u64 n.

Lemma field_line_ok k n : line_ok k -> (0 <= n)%Z -> line_ok (field_line k n).
Proof.
  intros Hk Hn. apply line_ok_app; [done|]. apply line_ok_app; [line_lit|by apply line_ok_show].
Qed.

Lemma lines_last l : l <> [] -> newline ∉ l -> x0d ∉ l -> lines l = [l].
Proof.
  intros Hne Hn Hr. unfold lines. assert (split_inclusive_nl l = [l]) as ->.
  { assert (segments [l]) as Hs by (right; by split). apply split_inclusive_concat in Hs.
    simpl in Hs. by rewrite app_nil_r in Hs. }
  cbn. unfold line_of. by rewrite strip_last_no.
Qed.

(** The header of a frame is four lines. *)
Lemma entry_header_lines t s n :
  (0 <= t)%Z -> (0 <= s)%Z -> (0 <= n)%Z ->
  lines (entry_header t s n) =
    [ENTRY_MAGIC; field_line (str "fetched_at") t; field_line (str "status") s; field_line (str "body_len") n] /\
  Utf8.from_utf8_ok (entry_header t s n) = true /\
  forall body, find_subslice [newline; newline] (entry_header t s n ++ newline :: newline :: body) =
    Some (length (entry_header t s n)).
Proof.
  intros Ht Hs Hn.
  assert (entry_header t s n = ENTRY_MAGIC ++ newline :: field_line (str "fetched_at") t ++ newline ::
    field_line (str "status") s ++ newline :: field_line (str "body_len") n) as ->.
  { unfold entry_header, field_line. rewrite <-!app_assoc. reflexivity. }
  assert (line_ok ENTRY_MAGIC) as H0 by line_lit.
  assert (line_ok (field_line (str "fetched_at") t)) as H1 by (apply field_line_ok; [line_lit|done]).
  assert (line_ok (field_line (str "status") s)) as H2 by (apply field_line_ok; [line_lit|done]).
  assert (line_ok (field_line (str "body_len") n)) as H3 by (apply field_line_ok; [line_lit|done]).
  split_and!.
  - change newline with x0a. rewrite !lines_cons by (by apply line_ok_nl || by apply line_ok_cr).
    rewrite lines_last by (done || by apply line_ok_nl || by apply line_ok_cr). done.
  - rewrite <-(app_nil_r (_ ++ _)). rewrite Utf8.from_utf8_ok_ascii_prefix; [done|].
    repeat (apply Forall_app_2; [by apply line_ok_ascii|]; apply Forall_cons; split; [done|]).
    by apply line_ok_ascii.
  - intros body. rewrite <-!app_assoc. cbn [app]. rewrite <-!app_assoc. cbn [app]. rewrite <-!app_assoc. cbn [app].
    rewrite !find_nn_line by (done || by apply line_ok_nl). rewrite find_nn_here by by apply line_ok_nl.
    cbn [fmap option_fmap option_map]. f_equal. rewrite !length_app. cbn [length]. rewrite !length_app. cbn [length].
    rewrite !length_app. cbn [length]. lia.
Qed.

Lemma split_field_line k n : tab ∉ k -> split_once tab (field_line k n) = Some (k, show_u64 n).
Proof. intros Hk. apply split_once_Some. split; [done|done]. Qed.

Definition entry_ok (e : Entry) : Prop :=
  u64_ok (entry_fetched_at e) /\ u64_ok (Z.of_nat (length (entry_body e))) /\
  (entry_kind e = Positive -> is_well_formed_narinfo (entry_body e) = true).

Lemma parse_u16_status k : parse_u16 (show_u64 (entry_status k)) = Some (entry_status k).
Proof. by destruct k; vm_compute. Qed.

Lemma frame_line_keys f v :
  frame_line f (str "fetched_at") v = Build_Frame (parse_u64 v) (f_status f) (f_body_len f) /\
  frame_line f (str "status") v = Build_Frame (f_fetched_at f) (parse_u16 v) (f_body_len f) /\
  frame_line f (str "body_len") v = Build_Frame (f_fetched_at f) (f_status f) (parse_u64 v).
Proof. by split_and!. Qed.

Lemma decode_encode_entry e : entry_ok e -> Entry_decode (Entry_encode e) = Some e.
Proof.
  intros (Ht & Hn & Hwf). destruct e as [k t body]. cbn [entry_kind entry_fetched_at entry_body] in *.
  assert (0 <= entry_status k)%Z as Hk by (destruct k; cbn; lia).
  destruct (entry_header_lines t (entry_status k) (Z.of_nat (length body))) as (Hl & Hu & Hf);
    [unfold u64_ok in *; lia..|].
  unfold Entry_decode, Entry_encode. cbn [entry_kind entry_fetched_at entry_body].
  set (h := entry_header _ _ _) in *. cbn [app]. rewrite Hf. cbn [mbind option_bind].
  rewrite take_app_length, Hu. cbn [negb].
  assert (drop (length h + 2) (h ++ newline :: newline :: body) = body) as ->.
  { rewrite drop_app_ge by lia. by replace (length h + 2 - length h) with 2 by lia. }
  rewrite Hl, bool_decide_true by done. cbn [negb frame_lines].
  rewrite !split_field_line by no_byte. cbn [mbind option_bind fst snd].
  destruct (frame_line_keys (Build_Frame None None None) (show_u64 t)) as [-> _].
  rewrite (proj1 (proj2 (frame_line_keys _ _))), (proj2 (proj2 (frame_line_keys _ _))).
  cbn [f_fetched_at f_status f_body_len]. rewrite !parse_show_u64, parse_u16_status by done.
  cbn [mbind option_bind]. rewrite Z.eqb_refl. cbn [negb].
  destruct k; cbn [entry_status entry_kind_of Z.eqb Pos.eqb mbind option_bind].
  - rewrite Hwf by done. cbn. done.
  - done.
Qed.

(** ** Bookkeeping *)

(** The three views agree: the LRU order has exactly the live records, and a
    token points at a live record that carries it. *)
Record book_wf (b : Bookkeeping) : Prop := {
  wf_lru : forall t h, (t, h) ∈ lru b <-> exists tok, records b !! h = Some {| rec_fetched_at := t; rec_token := tok |};
  wf_tokens : forall tok h, token_index b !! tok = Some h ->
    exists t, records b !! h = Some {| rec_fetched_at := t; rec_token := Some tok |}
}.

Lemma book_wf_empty : book_wf Bookkeeping_default.
Proof.
  split; cbn; [|done]. intros t h. split; [by intros ?%not_elem_of_empty|]. by intros [tok ?].
Qed.

Lemma book_remove_records b h : records (book_remove b h) = delete h (records b).
Proof. unfold book_remove. destruct (records b !! h) eqn:E; [done|]. by rewrite delete_id. Qed.

Lemma book_remove_wf b h : book_wf b -> book_wf (book_remove b h).
Proof.
  intros [Hl Ht]. unfold book_remove. destruct (records b !! h) as [[t0 tok0]|] eqn:E; [|done].
  split; cbn [records lru token_index rec_fetched_at rec_token].
  - intros t h'. rewrite elem_of_difference, elem_of_singleton, Hl. split.
    + intros [[tok Htok] Hne]. exists tok. rewrite lookup_delete_ne; [done|]. intros <-. apply Hne. congruence.
    + intros [tok [Hne Htok]%lookup_delete_Some]. split; [eauto|]. congruence.
  - intros tok h' Hlk.
    assert (token_index b !! tok = Some h' /\ (h' = h -> tok0 <> Some tok)) as [Hb Hne].
    { destruct tok0 as [tk|]; [|done]. case_bool_decide as Hd.
      - apply lookup_delete_Some in Hlk as [? Hlk]. split; [done|]. intros ->. congruence.
      - split; [done|]. intros -> [= ->]. done. }
    destruct (Ht _ _ Hb) as [t Hrec]. exists t. rewrite lookup_delete_ne; [done|]. intros <-.
    rewrite E in Hrec. injection Hrec as -> ->. by apply Hne.
Qed.

Lemma book_insert_wf b h t tok : book_wf b -> records b !! h = None -> book_wf (book_insert b h t tok).
Proof.
  intros [Hl Ht] Hh. split; cbn [records lru token_index book_insert].
  - intros t' h'. rewrite elem_of_union, elem_of_singleton, Hl. destruct (decide (h = h')) as [<-|Hne].
    + rewrite lookup_insert_eq. split.
      * intros [[=]|[tok' Hr]]; [subst; eauto|congruence].
      * intros [tok' [= -> ->]]. by left.
    + rewrite lookup_insert_ne by done. split; [intros [?|?]; [congruence|done]|eauto].
  - intros tk h' Hlk. destruct (decide (h = h')) as [<-|Hne].
    + destruct tok as [tk'|]; [|by apply Ht in Hlk as [? ?]; congruence].
      destruct (decide (tk' = tk)) as [->|Hnt]; [rewrite lookup_insert_eq; eauto|].
      rewrite lookup_insert_ne in Hlk by done. apply Ht in Hlk as [? ?]. congruence.
    + rewrite lookup_insert_ne by done. apply Ht. destruct tok as [tk'|]; [|done].
      destruct (decide (tk' = tk)) as [->|Hnt]; [rewrite lookup_insert_eq in Hlk; congruence|].
      by rewrite lookup_insert_ne in Hlk by done.
Qed.

Lemma elem_of_lru_order b e : e ∈ lru_order b <-> e ∈ lru b.
Proof. unfold lru_order. by rewrite merge_sort_Permutation, elem_of_elements. Qed.

Lemma StronglySorted_filter {A} (R : relation A) (p : A -> Prop) `{!forall x, Decision (p x)} l :
  StronglySorted R l -> StronglySorted R (filter p l).
Proof.
  induction 1 as [|x l _ IH Hx]; [constructor|]. rewrite filter_cons. case_decide; [|done].
  constructor; [done|]. rewrite Forall_forall in *. intros y [_ Hy]%list_elem_of_filter. by apply Hx.
Qed.

Lemma oldest_Some b spare v :
  oldest b spare = Some v ->
  v ∈ lru b /\ spare <> Some v.2 /\ forall u, u ∈ lru b -> spare <> Some u.2 -> lru_le v u.
Proof.
  unfold oldest. set (p := fun v : Z * list byte => spare <> Some v.2).
  assert (StronglySorted lru_le (filter p (lru_order b))) as Hsort.
  { apply StronglySorted_filter, StronglySorted_merge_sort; apply _. }
  assert (forall u, u ∈ filter p (lru_order b) <-> p u /\ u ∈ lru b) as Hin.
  { intros u. by rewrite list_elem_of_filter, elem_of_lru_order. }
  destruct (filter p (lru_order b)) as [|w l]; [done|]. intros [= ->].
  apply StronglySorted_inv in Hsort as [_ Hall]. rewrite Forall_forall in Hall.
  destruct (proj1 (Hin v)) as [Hp Hv]; [by left|]. split_and!; [done|done|]. intros u Hu Hpu.
  assert (u ∈ v :: l) as Hul by by apply Hin. apply elem_of_cons in Hul as [->|Hul]; [|by apply Hall].
  destruct (total lru_le v v); done.
Qed.

Lemma oldest_None b spare : oldest b spare = None -> forall u, u ∈ lru b -> spare = Some u.2.
Proof.
  unfold oldest. intros Hn u Hu. destruct (decide (spare = Some u.2)) as [?|Hne]; [done|].
  assert (u ∈ filter (fun v => spare <> Some v.2) (lru_order b)) as Hin.
  { by rewrite list_elem_of_filter, elem_of_lru_order. }
  destruct (filter _ (lru_order b)); [by apply not_elem_of_nil in Hin|done].
Qed.

(** What an eviction does: it ends, keeps the views together, meets the cap,
    never takes the spared entry, and every victim is older than every
    survivor. *)
Record evicted (b : Bookkeeping) (cap : nat) (spare : option (list byte)) (vs : list (list byte)) (b' : Bookkeeping) :
    Prop := {
  ev_wf : book_wf b';
  ev_cap : size (records b') <= cap;
  ev_records : forall h, records b' !! h = if decide (h ∈ vs) then None else records b !! h;
  ev_live : forall v, v ∈ vs -> is_Some (records b !! v) /\ spare <> Some v;
  ev_oldest : forall v h rv rh, v ∈ vs -> h ∉ vs -> spare <> Some h ->
    records b !! v = Some rv -> records b !! h = Some rh -> lru_le (rec_fetched_at rv, v) (rec_fetched_at rh, h);
  ev_minimal : size (records b) <= cap -> vs = []
}.

Lemma size_spare (m : gmap (list byte) CacheRecord) spare :
  (forall h, is_Some (m !! h) -> spare = Some h) -> size m <= 1.
Proof.
  intros Hm. destruct spare as [s|].
  - assert (dom m ⊆ {[s]}) as Hd.
    { intros h [x Hx]%elem_of_dom. apply elem_of_singleton. assert (Some s = Some h) by (apply Hm; eauto). congruence. }
    apply subseteq_size in Hd. rewrite size_singleton, size_dom in Hd. done.
  - assert (m = ∅) as ->; [|rewrite map_size_empty; lia]. apply map_eq. intros h. rewrite lookup_empty.
    destruct (m !! h) eqn:E; [|done]. assert (None = Some h) by (apply Hm; eauto). done.
Qed.

Lemma evict_fuel_spec fuel b cap spare :
  book_wf b -> 1 <= cap -> size (records b) < fuel ->
  exists vs b', evict_fuel fuel b cap spare = Some (vs, b') /\ evicted b cap spare vs b'.
Proof.
  revert b. induction fuel as [|f IH]; intros b Hwf Hcap Hf; [lia|]. cbn [evict_fuel].
  destruct (Nat.leb_spec (size (records b)) cap) as [Hle|Hgt].
  { exists [], b. split; [done|]. split; try done.
    - by intros v ?%not_elem_of_nil.
    - by intros v h rv rh ?%not_elem_of_nil. }
  destruct (oldest b spare) as [[tv v]|] eqn:Ho.
  2:{ exfalso. pose proof (size_spare (records b) spare) as Hs.
      assert (size (records b) <= 1); [|lia]. apply Hs. intros h [[t tok] Hr].
      apply (oldest_None b spare Ho (t, h)). apply (wf_lru b Hwf). eauto. }
  apply oldest_Some in Ho as (Hv & Hsp & Hold). cbn [snd] in *.
  pose proof (proj1 (wf_lru b Hwf tv v) Hv) as [tokv Hrv].
  destruct (IH (book_remove b v)) as (vs & b' & Heq & [Hwf' Hc' Hr' Hl' Ho' _]); [by apply book_remove_wf|done| |].
  { rewrite book_remove_records, map_size_delete_Some by eauto. lia. }
  rewrite Heq. cbn [mbind option_bind fst snd]. exists (v :: vs), b'. split; [done|].
  rewrite book_remove_records in Hr', Hl', Ho'. split; try done.
  - intros h. rewrite Hr'. destruct (decide (h ∈ vs)) as [Hin|Hin]; [by rewrite decide_True by by right|].
    destruct (decide (v = h)) as [<-|Hne]; [by rewrite lookup_delete_eq, decide_True by by left|].
    rewrite lookup_delete_ne, decide_False; [done| |done]. by intros [->|?]%elem_of_cons.
  - intros w [->|Hw]%elem_of_cons; [eauto|]. destruct (Hl' w Hw) as [[r Hr]%lookup_delete_is_Some Hsw].
    split; [by destruct Hr|done].
  - intros w h rw rh Hw Hh Hsh Hrw Hrh. apply not_elem_of_cons in Hh as [Hhv Hh].
    apply elem_of_cons in Hw as [->|Hw].
    + rewrite Hrv in Hrw. injection Hrw as <-. apply Hold; [|done]. apply (wf_lru b Hwf).
      destruct rh as [th tokh]. eauto.
    + destruct (Hl' w Hw) as [[r [Hne Hr]%lookup_delete_Some] _].
      eapply Ho'; try done; rewrite lookup_delete_ne by congruence; done.
  - lia.
Qed.

Lemma evict_over_cap_spec b cap spare :
  book_wf b -> 1 <= cap -> exists vs b', evict_over_cap b cap spare = Some (vs, b') /\ evicted b cap spare vs b'.
Proof. intros Hwf Hc. apply evict_fuel_spec; [done|done|lia]. Qed.

(** ** What the operations leave on disk *)

Lemma remove_nic_spec io sh k :
  book (remove_nic io sh k) = book sh /\ index (remove_nic io sh k) = index sh /\
  nic (remove_nic io sh k) ⊆ nic sh /\ forall k', k' <> k -> nic (remove_nic io sh k) !! k' = nic sh !! k'.
Proof.
  unfold remove_nic. destruct (remove_ok io k); cbn; [|done].
  split_and!; [done|done|apply delete_subseteq|]. intros k' Hk. by rewrite lookup_delete_ne by congruence.
Qed.

Lemma delete_entry_files_spec io sh vs :
  book (delete_entry_files io sh vs) = book sh /\ nic (delete_entry_files io sh vs) ⊆ nic sh /\
  forall k, k ∉ vs -> nic (delete_entry_files io sh vs) !! k = nic sh !! k.
Proof.
  revert sh. induction vs as [|v vs IH]; intros sh; [done|]. cbn [delete_entry_files foldl].
  set (sh1 := match safe_key v with Some key => _ | None => _ end).
  assert (book sh1 = book sh /\ nic sh1 ⊆ nic sh /\ forall k, k <> v -> nic sh1 !! k = nic sh !! k) as (Hb & Hn & Hk).
  { unfold sh1. destruct (safe_key v) as [key|] eqn:E; [|done]. apply safe_key_Some in E as (-> & _).
    destruct (remove_nic_spec io sh v) as (? & _ & ? & ?). done. }
  destruct (IH sh1) as (Hb' & Hn' & Hk'). unfold delete_entry_files in Hb', Hn', Hk'.
  split_and!; [congruence|by etrans|]. intros k Hin. apply not_elem_of_cons in Hin as [? ?].
  rewrite Hk' by done. by apply Hk.
Qed.

Lemma write_sidecar_spec io sh bytes :
  book (write_sidecar_bytes io sh bytes) = book sh /\ nic (write_sidecar_bytes io sh bytes) = nic sh.
Proof. unfold write_sidecar_bytes. by destruct (_ && _). Qed.

Section cache_proofs.
Context (max_entries : nat) (max_pos : 1 <= max_entries).

Definition bounded (sh : Shared) : Prop := book_wf (book sh) /\ size (records (book sh)) <= max_entries.

Lemma record_and_evict_spec io sh h t tok :
  book_wf (book sh) ->
  exists sh', record_and_evict max_entries io sh h t tok = Some sh' /\ bounded sh' /\
    nic sh' ⊆ nic sh /\ nic sh' !! h = nic sh !! h /\
    records (book sh') !! h = Some {| rec_fetched_at := t; rec_token := tok |}.
Proof.
  intros Hwf. unfold record_and_evict.
  set (b := book_insert (book_remove (book sh) h) h t tok).
  assert (book_wf b) as Hb.
  { apply book_insert_wf; [by apply book_remove_wf|]. by rewrite book_remove_records, lookup_delete_eq. }
  destruct (evict_over_cap_spec b max_entries (Some h) Hb max_pos) as (vs & b' & -> & [Hw Hc Hr Hl _ _]).
  cbn [mbind option_bind fst snd]. set (sh1 := write_sidecar_bytes _ _ _).
  destruct (write_sidecar_spec io (set_book sh b') (serialize_sidecar b')) as [Hbk Hnc]. fold sh1 in Hbk, Hnc.
  destruct (delete_entry_files_spec io sh1 vs) as (Hb2 & Hn2 & Hk2).
  assert (h ∉ vs) as Hh by (by intros [_ ?]%Hl).
  eexists. split; [done|]. unfold bounded. rewrite Hb2, Hbk. cbn [set_book book nic] in *.
  split_and!; [done|done|by rewrite <-Hnc|by rewrite Hk2, Hnc|].
  rewrite Hr, decide_False by done. unfold b. cbn [book_insert records]. by rewrite lookup_insert_eq.
Qed.

(** An install either does nothing, or leaves the new entry on disk and in the
    books, and at most removes others. *)
Lemma install_spec io sh h e :
  bounded sh ->
  exists sh', install max_entries io sh h e = Some sh' /\ bounded sh' /\
    (sh' = sh \/
     safe_key h = Some h /\ nic sh' ⊆ <[h := Entry_encode e]> (nic sh) /\ nic sh' !! h = Some (Entry_encode e)) /\
    (safe_key h = Some h -> nic_write_ok io = true -> nic_rename_ok io = true -> nic sh' !! h = Some (Entry_encode e)).
Proof.
  intros Hb. unfold install. destruct (safe_key h) as [k|] eqn:Ek.
  2:{ exists sh. split_and!; [done|done|by left|done]. }
  pose proof (safe_key_Some _ _ Ek) as (-> & _).
  destruct (nic_write_ok io); cbn [negb]; [|exists sh; split_and!; [done|done|by left|done]].
  destruct (nic_rename_ok io); cbn [negb]; [|exists sh; split_and!; [done|done|by left|done]].
  set (sh1 := {| book := book sh; nic := _; index := _ |}).
  destruct (record_and_evict_spec io sh1 h (entry_fetched_at e) (entry_token e)) as (sh' & -> & Hb' & Hn & Hh & _);
    [apply Hb|]. cbn [nic sh1] in *. rewrite lookup_insert_eq in Hh.
  exists sh'. split; [done|]. split; [done|]. split; [right; done|done].
Qed.

Lemma read_fresh_spec io sh h now :
  book (read_fresh io sh h now).2 = book sh /\ nic (read_fresh io sh h now).2 ⊆ nic sh /\
  forall e, (read_fresh io sh h now).1 = Some e ->
    (read_fresh io sh h now).2 = sh /\
    exists raw, nic sh !! h = Some raw /\ Entry_decode raw = Some e /\
      (u64_saturating_sub now (entry_fetched_at e) <
        match entry_kind e with Positive => POSITIVE_TTL | Negative => NEGATIVE_TTL end)%Z.
Proof.
  unfold read_fresh. destruct (safe_key h) as [k|] eqn:Ek; [|done]. apply safe_key_Some in Ek as (-> & _).
  unfold read_nic. destruct (nic sh !! h) as [raw|]; [|done]. cbn [mbind option_bind].
  destruct (read_ok io h); [|done]. destruct (Entry_decode raw) as [e|] eqn:Ed.
  2:{ cbn. destruct (remove_nic_spec io sh h) as (? & _ & ? & _). done. }
  destruct (Z.leb_spec (match entry_kind e with Positive => POSITIVE_TTL | Negative => NEGATIVE_TTL end)
    (u64_saturating_sub now (entry_fetched_at e))); [done|]. split_and!; [done|done|].
  intros e' [= <-]. split; [done|]. exists raw. done.
Qed.

(** ** Restart *)

Lemma scan_one_wf io sh b h : book_wf b -> book_wf (scan_one io sh b h).
Proof.
  intros Hb. unfold scan_one. destruct (safe_key h); [|done]. destruct (_ ≫= Entry_decode); [|done].
  apply book_insert_wf; [by apply book_remove_wf|]. by rewrite book_remove_records, lookup_delete_eq.
Qed.

Lemma sidecar_rows_nodup seen ls rows :
  sidecar_rows seen ls = Some rows -> NoDup rows.*1.*1 /\ forall h, h ∈ rows.*1.*1 -> h ∉ seen.
Proof.
  revert seen rows. induction ls as [|l ls IH]; intros seen rows; cbn [sidecar_rows].
  { intros [= <-]. split; [constructor|]. by intros ? ?%not_elem_of_nil. }
  case_bool_decide; [apply IH|]. intros (h & _ & (t & _ & (tok & _ & (k & _ & Hr)%bind_Some)%bind_Some)%bind_Some)%bind_Some.
  case_bool_decide as Hseen; [done|]. apply bind_Some in Hr as (out & [Hnd Hout]%IH & [= <-]). cbn [fmap list_fmap fst].
  split.
  - constructor; [|done]. intros Hin. apply (Hout h Hin). by left.
  - intros h' [->|Hin]%elem_of_cons; [done|]. intros Hs. apply (Hout h' Hin). by right.
Qed.

Lemma insert_rows_spec b rows :
  book_wf b -> NoDup rows.*1.*1 -> (forall h, h ∈ rows.*1.*1 -> records b !! h = None) ->
  book_wf (insert_rows b rows).
Proof.
  revert b. induction rows as [|[[h t] tok] rows IH]; intros b Hwf Hnd Hfresh; [done|].
  cbn [fmap list_fmap fst] in *. apply NoDup_cons in Hnd as [Hh Hnd]. cbn [insert_rows foldl]. apply IH; [|done|].
  - apply book_insert_wf; [done|]. apply Hfresh. by left.
  - intros h' Hh'. cbn [book_insert records]. rewrite lookup_insert_ne by (intros ->; done). apply Hfresh. by right.
Qed.

Lemma trim_to_cap_spec io sh :
  book_wf (book sh) ->
  exists trimmed sh', trim_to_cap max_entries io sh = Some (trimmed, sh') /\ bounded sh' /\ nic sh' ⊆ nic sh.
Proof.
  intros Hwf. unfold trim_to_cap.
  destruct (evict_over_cap_spec (book sh) max_entries None Hwf max_pos) as (vs & b' & -> & [Hw Hc _ _ _ _]).
  cbn [mbind option_bind fst snd]. destruct (delete_entry_files_spec io (set_book sh b') vs) as (Hb & Hn & _).
  eexists _, _. split; [done|]. unfold bounded. by rewrite Hb.
Qed.

Lemma open_cache_spec io files idx :
  exists sh, open_cache max_entries io files idx = Some sh /\ bounded sh /\ nic sh ⊆ files.
Proof.
  unfold open_cache, load_index. set (sh0 := {| book := _; nic := files; index := idx |}).
  set (p := match read_sidecar _ with Some _ => _ | None => _ end).
  assert (book_wf (book p.2) /\ nic p.2 = files) as [Hwf Hn].
  { unfold p. destruct (read_sidecar _) as [rows|] eqn:Er; cbn [snd set_book book nic].
    - split; [|done]. unfold read_sidecar in Er. apply bind_Some in Er as (raw & _ & Er). destruct (negb _); [done|].
      destruct (lines raw) as [|m ls]; [done|]. destruct (negb _); [done|].
      apply sidecar_rows_nodup in Er as [Hnd _]. apply insert_rows_spec; [apply book_wf_empty|done|done].
    - unfold rebuild_from_scan. destruct (listing io) as [stems|]; [|split; [apply book_wf_empty|done]].
      cbn [set_book book nic sh0]. split; [|done].
      assert (forall stems b, book_wf b -> book_wf (foldl (scan_one io sh0) b stems)) as Hf.
      { clear. induction stems as [|h stems IH]; intros b Hb; [done|]. cbn [foldl]. by apply IH, scan_one_wf. }
      apply Hf, book_wf_empty. }
  destruct p as [rescanned sh1]. cbn [snd] in *.
  destruct (trim_to_cap_spec io sh1 Hwf) as (trimmed & sh2 & -> & Hb & Hn2). cbn [mbind option_bind].
  eexists. split; [done|]. destruct (write_sidecar_spec io sh2 (serialize_sidecar (book sh2))) as [Hb3 Hn3].
  unfold bounded, persist_sidecar in *. destruct (rescanned || trimmed); rewrite ?Hb3, ?Hn3, <-Hn; done.
Qed.

(** ** The cache's life *)

(** The inner source was asked for a hash and the clock then read [now]. *)
Inductive asked := Asked (store_hash : list byte) (now : Z) (answer : result SourceError UpstreamResponse).

(** Nothing, or one fetch. *)
Inductive attempt (evs : list asked) (sh : Shared) : list asked -> Shared -> Prop :=
| attempt_none : attempt evs sh evs sh
| attempt_fetch io h budget inner now now' r miss sh' :
    u64_ok now' -> fetch_within max_entries io sh h budget inner now now' = Some (r, miss, sh') ->
    attempt evs sh (evs ++ if miss then [Asked h now' (inner h budget)] else []) sh'.

(** A restart keeps of each file at most a prefix; a crash in the middle of a
    fetch leaves files of before and after it side by side.  The sidecar may
    hold anything. *)
Definition survives (sh sh' : Shared) (files : gmap (list byte) (list byte)) : Prop :=
  forall k raw, files !! k = Some raw ->
    exists whole, (nic sh !! k = Some whole \/ nic sh' !! k = Some whole) /\ raw `prefix_of` whole.

Inductive cached : list asked -> Shared -> Prop :=
| cached_open io idx sh : open_cache max_entries io ∅ idx = Some sh -> cached [] sh
| cached_fetch evs sh evs' sh' : cached evs sh -> attempt evs sh evs' sh' -> cached evs' sh'
| cached_crash evs sh evs' sh' files io idx sh'' :
    cached evs sh -> attempt evs sh evs' sh' -> survives sh sh' files ->
    open_cache max_entries io files idx = Some sh'' -> cached evs' sh''.

(** The inner source gave the outcome [e] records, at its time. *)
Definition answered (evs : list asked) (h : list byte) (e : Entry) : Prop :=
  exists up, Asked h (entry_fetched_at e) (Ok up) ∈ evs /\ up_status up = entry_status (entry_kind e) /\
    match entry_kind e with
    | Positive => collect_limited MAX_NARINFO_BYTES (up_body up) = Some (entry_body e) /\
                  cacheable (entry_body e) (up_headers up) = true
    | Negative => entry_body e = []
    end.

(** Every file is, up to truncation, the frame of an outcome of its hash. *)
Definition files_ok (evs : list asked) (files : gmap (list byte) (list byte)) : Prop :=
  forall k raw, files !! k = Some raw -> exists e, answered evs k e /\ entry_ok e /\ raw `prefix_of` Entry_encode e.

Lemma answered_more evs evs' h e : answered evs h e -> answered (evs ++ evs') h e.
Proof. intros (up & Hin & ?). exists up. rewrite elem_of_app. tauto. Qed.

Lemma files_ok_more evs evs' files : files_ok evs files -> files_ok (evs ++ evs') files.
Proof. intros Hf k raw (e & Ha & ?)%Hf. exists e. split; [by apply answered_more|done]. Qed.

Lemma files_ok_sub evs files files' : files' ⊆ files -> files_ok evs files -> files_ok evs files'.
Proof. intros Hs Hf k raw Hk. apply Hf. by eapply lookup_weaken. Qed.

Lemma files_ok_insert evs files h e :
  answered evs h e -> entry_ok e -> files_ok evs files -> files_ok evs (<[h := Entry_encode e]> files).
Proof.
  intros Ha He Hf k raw. destruct (decide (h = k)) as [<-|Hne].
  - rewrite lookup_insert_eq. intros [= <-]. eauto.
  - rewrite lookup_insert_ne by done. apply Hf.
Qed.

Lemma answered_entry_ok evs h e : answered evs h e -> u64_ok (entry_fetched_at e) -> entry_ok e.
Proof.
  intros (up & _ & _ & Ha) Ht. split; [done|]. destruct (entry_kind e).
  - destruct Ha as [Hc Hcb]. split.
    + unfold collect_limited in Hc. destruct (Z.ltb_spec MAX_NARINFO_BYTES (Z.of_nat (length (body_bytes (up_body up)))));
        [done|]. destruct (body_error _); [done|]. injection Hc as <-. unfold u64_ok, u64_max, MAX_NARINFO_BYTES in *. lia.
    + intros _. unfold cacheable in Hcb. by bools.
  - rewrite Ha. split; [unfold u64_ok, u64_max; cbn; lia|done].
Qed.

(** An install of an outcome of this fetch keeps the files right. *)
Lemma install_files io sh h e sh' evs :
  bounded sh -> files_ok evs (nic sh) -> answered evs h e -> u64_ok (entry_fetched_at e) ->
  install max_entries io sh h e = Some sh' -> bounded sh' /\ files_ok evs (nic sh').
Proof.
  intros Hb Hf Ha Ht Hi. destruct (install_spec io sh h e Hb) as (sh1 & Hi' & Hb' & Hcase & _).
  rewrite Hi in Hi'. injection Hi' as <-. split; [done|].
  destruct Hcase as [->|(_ & Hn & _)]; [done|].
  eapply files_ok_sub; [done|]. apply files_ok_insert; [done| |done]. by eapply answered_entry_ok.
Qed.

Lemma fetch_miss_inv io sh h now answer r sh' evs :
  bounded sh -> files_ok evs (nic sh) -> u64_ok now ->
  fetch_miss max_entries io sh h now answer = Some (r, sh') ->
  bounded sh' /\ files_ok (evs ++ [Asked h now answer]) (nic sh').
Proof.
  intros Hb Hf Hnow Hm. apply (files_ok_more _ [Asked h now answer]) in Hf.
  assert (forall a, Asked h now a ∈ evs ++ [Asked h now a]) as Hin.
  { intros a. rewrite elem_of_app, list_elem_of_singleton. by right. }
  unfold fetch_miss in Hm. destruct answer as [up|e]; [|by injection Hm as <- <-].
  destruct (Z.eqb_spec (up_status up) 404) as [Hs|Hs].
  { apply bind_Some in Hm as (sh1 & Hi & [= <- <-]). refine (install_files _ _ _ _ _ _ Hb Hf _ _ Hi); [by exists up|done]. }
  destruct (Z.eqb_spec (up_status up) 200) as [H200|H200]; cbn [negb] in Hm; [|by injection Hm as <- <-].
  destruct (collect_limited _ _) as [bytes|] eqn:Ec; [|by injection Hm as <- <-].
  apply bind_Some in Hm as (sh1 & Hi & [= <- <-]).
  destruct (cacheable bytes (up_headers up)) eqn:Ecb; [|by injection Hi as <-].
  refine (install_files _ _ _ _ _ _ Hb Hf _ _ Hi); [by exists up|done].
Qed.

Lemma attempt_inv evs sh evs' sh' :
  bounded sh -> files_ok evs (nic sh) -> attempt evs sh evs' sh' ->
  bounded sh' /\ files_ok evs' (nic sh') /\ files_ok evs' (nic sh).
Proof.
  intros Hb Hf [|io h budget inner now now' r miss sh1 Hnow Hfw]; [done|].
  revert Hfw. unfold fetch_within. destruct (read_fresh_spec io sh h now) as (Hbk & Hn & Hhit).
  destruct (read_fresh io sh h now) as [[e|] sh0]; cbn [fst snd] in *.
  - destruct (Hhit e eq_refl) as [-> _]. intros [= _ <- <-]. by rewrite app_nil_r.
  - intros ([r' sh2] & Hm & [= _ <- <-])%bind_Some. cbn [snd].
    assert (bounded sh0) as Hb0 by by unfold bounded; rewrite Hbk.
    pose proof (files_ok_sub evs _ _ Hn Hf) as Hf0.
    destruct (fetch_miss_inv _ _ _ _ _ _ _ _ Hb0 Hf0 Hnow Hm). split_and!; [done|done|by apply files_ok_more].
Qed.

Lemma cached_inv evs sh : cached evs sh -> bounded sh /\ files_ok evs (nic sh).
Proof.
  induction 1 as [io idx sh Ho|evs sh evs' sh' _ [Hb Hf] Ha|evs sh evs' sh' files io idx sh'' _ [Hb Hf] Ha Hs Ho].
  - destruct (open_cache_spec io ∅ idx) as (sh1 & Ho' & Hb & Hn). rewrite Ho in Ho'. injection Ho' as <-.
    split; [done|]. eapply files_ok_sub; [done|]. by intros k raw ?%lookup_empty_Some.
  - by destruct (attempt_inv _ _ _ _ Hb Hf Ha) as (? & ? & _).
  - destruct (attempt_inv _ _ _ _ Hb Hf Ha) as (_ & Hf1 & Hf2).
    destruct (open_cache_spec io files idx) as (sh1 & Ho' & Hb' & Hn). rewrite Ho in Ho'. injection Ho' as <-.
    split; [done|]. eapply files_ok_sub; [done|]. intros k raw (whole & Hk & Hp)%Hs.
    destruct Hk as [(e & ? & ? & Hp')%Hf2|(e & ? & ? & Hp')%Hf1]; exists e; split_and!; try done; by etrans.
Qed.

(** A file that decodes is the whole frame of an outcome. *)
Lemma decoded_answered evs files k raw e :
  files_ok evs files -> files !! k = Some raw -> Entry_decode raw = Some e -> answered evs k e /\ entry_ok e.
Proof.
  intros Hf Hk Hd. destruct (Hf _ _ Hk) as (e' & Ha & Hok & [t Ht]). pose proof (decode_encode_entry e' Hok) as Hd'.
  destruct t as [|b t].
  - rewrite app_nil_r in Ht. rewrite Ht in Hd'. assert (e' = e) as -> by congruence. done.
  - assert (take (length raw) (Entry_encode e') = raw) as Hr by by rewrite Ht, take_app_length.
    pose proof (decode_truncated _ _ (length raw) Hd') as Hnone. rewrite Hr in Hnone.
    rewrite Hnone in Hd; [done|]. rewrite Ht, length_app. simpl. lia.
Qed.

(** What a miss hands on: the inner source's answer, with an absence in its
    canonical form and a body over the bound as an error. *)
Definition relays (answer r : result SourceError UpstreamResponse) : Prop :=
  match answer with
  | Err e => r = Err e
  | Ok up =>
      if (up_status up =? 404)%Z then r = Ok negative_response
      else if (up_status up =? 200)%Z then
        match collect_limited MAX_NARINFO_BYTES (up_body up) with
        | Some bytes => r = Ok {| up_status := 200; up_headers := up_headers up; up_body := full bytes |}
        | None => is_ok r = false
        end
      else r = Ok up
  end.

Lemma fetch_miss_relays io sh h now answer r sh' :
  fetch_miss max_entries io sh h now answer = Some (r, sh') -> relays answer r.
Proof.
  unfold fetch_miss, relays. destruct answer as [up|e]; [|by intros [= <- <-]].
  destruct (up_status up =? 404)%Z; [by intros (sh1 & _ & [= <- <-])%bind_Some|].
  destruct (up_status up =? 200)%Z; cbn [negb]; [|by intros [= <- <-]].
  destruct (collect_limited _ _); [by intros (sh1 & _ & [= <- <-])%bind_Some|by intros [= <- <-]].
Qed.

(** C31: the cache never serves anything its upstream did not say.  Through any
    fetches, restarts and crashes, with files lost, truncated or half installed
    and any sidecar at all, a hit repeats an outcome the inner source gave for
    the same hash, younger than its time to live: the same narinfo byte for byte,
    well-formed and relayable, or an absence; a miss relays the inner answer. *)
Theorem cache_never_wrong evs sh io h budget inner now now' r miss sh' :
  cached evs sh -> fetch_within max_entries io sh h budget inner now now' = Some (r, miss, sh') ->
  if miss then relays (inner h budget) r
  else exists e, answered evs h e /\ r = Ok (match entry_kind e with
         | Positive => positive_response (entry_body e) | Negative => negative_response end) /\
       (u64_saturating_sub now (entry_fetched_at e) <
         match entry_kind e with Positive => POSITIVE_TTL | Negative => NEGATIVE_TTL end)%Z.
Proof.
  intros [_ Hf]%cached_inv. unfold fetch_within.
  destruct (read_fresh_spec io sh h now) as (_ & _ & Hhit).
  destruct (read_fresh io sh h now) as [[e|] sh0]; cbn [fst snd] in *.
  - destruct (Hhit e eq_refl) as (-> & raw & Hk & Hd & Httl). intros [= <- <- _].
    destruct (decoded_answered _ _ _ _ _ Hf Hk Hd) as [Ha _]. exists e. done.
  - intros ([r' sh2] & Hm & [= <- <- _])%bind_Some. cbn [fst]. by eapply fetch_miss_relays.
Qed.

Lemma fetch_total io sh h budget inner now now' :
  bounded sh -> is_Some (fetch_within max_entries io sh h budget inner now now').
Proof.
  intros Hb. unfold fetch_within. destruct (read_fresh_spec io sh h now) as (Hbk & _ & _).
  destruct (read_fresh io sh h now) as [[e|] sh0]; cbn [fst snd] in *; [eauto|].
  assert (bounded sh0) as Hb0 by by unfold bounded; rewrite Hbk.
  assert (is_Some (fetch_miss max_entries io sh0 h now' (inner h budget))) as [[r sh1] Hm]; [|rewrite Hm; cbn; eauto].
  unfold fetch_miss. destruct (inner h budget) as [up|e]; [|eauto].
  assert (forall e, is_Some (install max_entries io sh0 h e)) as Hi.
  { intros e. destruct (install_spec io sh0 h e Hb0) as (sh1 & -> & _). eauto. }
  destruct (up_status up =? 404)%Z; [match goal with |- context [install _ _ _ _ ?e] => destruct (Hi e) as [? ->] end; cbn; eauto|].
  destruct (negb _); [eauto|]. destruct (collect_limited _ _) as [bytes|]; [|eauto].
  destruct (cacheable _ _); [|cbn; eauto].
  match goal with |- context [install _ _ _ _ ?e] => destruct (Hi e) as [? ->] end; cbn; eauto.
Qed.

(** The cache is bounded and never hangs.  A start over any directory and
    any sidecar terminates, and so does every fetch, its eviction included; in
    every reachable state the live entries are within the cap and the three views
    of the bookkeeping agree. *)
Theorem cache_bounded_total :
  (forall io files idx, exists sh, open_cache max_entries io files idx = Some sh /\ size (records (book sh)) <= max_entries) /\
  forall evs sh, cached evs sh ->
    book_wf (book sh) /\ size (records (book sh)) <= max_entries /\
    forall io h budget inner now now', is_Some (fetch_within max_entries io sh h budget inner now now').
Proof.
  split.
  - intros io files idx. destruct (open_cache_spec io files idx) as (sh & Ho & [_ Hb] & _). eauto.
  - intros evs sh [[Hwf Hb] _]%cached_inv. split_and!; [done|done|]. intros. by apply fetch_total.
Qed.

(** A fetched narinfo is cached.  After a miss on a valid store hash that the
    inner source answered with a cacheable 200, written without an I/O error, a
    fetch of the same hash within the time to live answers the same bytes from
    disk without asking the inner source, whatever was evicted. *)
Theorem cache_then_hit evs sh io h budget inner now now' r sh' up bytes io2 budget2 inner2 now2 now2' :
  cached evs sh -> u64_ok now' -> safe_key h = Some h -> nic_write_ok io = true -> nic_rename_ok io = true ->
  fetch_within max_entries io sh h budget inner now now' = Some (r, true, sh') ->
  inner h budget = Ok up -> up_status up = 200%Z ->
  collect_limited MAX_NARINFO_BYTES (up_body up) = Some bytes -> cacheable bytes (up_headers up) = true ->
  read_ok io2 h = true -> (u64_saturating_sub now2 now' < POSITIVE_TTL)%Z ->
  fetch_within max_entries io2 sh' h budget2 inner2 now2 now2' = Some (Ok (positive_response bytes), false, sh').
Proof.
  intros [Hb Hf]%cached_inv Hnow Hkey Hw Hrn Hfw Hin Hst Hcol Hcb Hrd Httl.
  set (e := {| entry_kind := Positive; entry_fetched_at := now'; entry_body := bytes |}).
  assert (answered (evs ++ [Asked h now' (Ok up)]) h e) as Ha.
  { exists up. rewrite elem_of_app, list_elem_of_singleton. cbn. auto. }
  pose proof (answered_entry_ok _ _ _ Ha Hnow) as Hok.
  assert (nic sh' !! h = Some (Entry_encode e)) as Hnic.
  { revert Hfw. unfold fetch_within. destruct (read_fresh_spec io sh h now) as (Hbk & _ & _).
    destruct (read_fresh io sh h now) as [[e0|] sh0]; [done|]. cbn [fst snd] in *.
    intros ([r' sh2] & Hm & [= _ <-])%bind_Some. unfold fetch_miss in Hm. rewrite Hin, Hst in Hm.
    cbn [Z.eqb Pos.eqb negb] in Hm. rewrite Hcol, Hcb in Hm. apply bind_Some in Hm as (sh1 & Hi & [= _ <-]). cbn [snd].
    destruct (install_spec io sh0 h e) as (sh2' & Hi' & _ & _ & Hn); [by unfold bounded; rewrite Hbk|].
    assert (Some sh1 = Some sh2') as [= <-] by (rewrite <-Hi, <-Hi'; done). by apply Hn. }
  unfold fetch_within, read_fresh. rewrite Hkey. unfold read_nic. rewrite Hnic. cbn [mbind option_bind].
  rewrite Hrd, decode_encode_entry by done. cbn [entry_kind entry_fetched_at e].
  destruct (Z.leb_spec POSITIVE_TTL (u64_saturating_sub now2 now')); [lia|done].
Qed.

(** ** Persisted correlation *)

(** The cache as the daemon's correlation store, read with the answers of [Io]. *)
#[export] Instance cache_correlation : CorrelationStore (Io * Shared) :=
  fun '(io, sh) token => cache_meta_for_token io sh token.

(** A narinfo the inner source sent says what [meta] says about [token]. *)
Definition upstream_says (evs : list asked) (token : NarPathToken) (meta : NarMeta) : Prop :=
  exists h e c, answered evs h e /\ entry_kind e = Positive /\ parse_correlation (entry_body e) = Some c /\
    describes c token meta.

Lemma cache_meta_sound evs io sh token meta :
  cached evs sh -> cache_meta_for_token io sh token = Some meta -> upstream_says evs token meta.
Proof.
  intros [_ Hf]%cached_inv Hm. unfold cache_meta_for_token in Hm.
  apply bind_Some in Hm as (h & _ & Hm). apply bind_Some in Hm as (k & Hk & Hm).
  apply safe_key_Some in Hk as (-> & _). apply bind_Some in Hm as (raw & Hraw & Hm).
  apply bind_Some in Hm as (e & Hd & Hm). case_bool_decide as Hkind; [|done]. cbn [negb] in Hm.
  apply bind_Some in Hm as (c & Hc & Hm). case_bool_decide as Htok; [|done]. injection Hm as <-.
  unfold read_nic in Hraw. apply bind_Some in Hraw as (raw' & Hnic & Hraw).
  destruct (read_ok io h); [|done]. injection Hraw as ->.
  destruct (decoded_answered _ _ _ _ _ Hf Hnic Hd) as [Ha _]. exists h, e, c. split_and!; try done.
  pose proof Hc as (nh & ns & _ & _ & Hnh & _)%parse_correlation_reads.
  split_and!; cbn [meta_nar_hash meta_nar_size meta_transport meta_store_path]; try done.
  rewrite Hnh. by rewrite Utf8.trim_idemp.
Qed.

(** A NAR is fetched by signed hash only under an identity some narinfo
    stated.  For a daemon whose correlation store is this cache, whatever both
    went through, the identity a NAR token is dispatched under was stated for
    that token by a narinfo the daemon sent, or by one the upstream sent to the
    cache before any restart. *)
Theorem persisted_dispatch_sound `{Ed25519} {R} `{RawServeDecision R} base64_decode keyed_hash mac_key debug ks
    ms (st : Server) evs (app : App R (Io * Shared)) token meta :
  serving base64_decode keyed_hash mac_key debug ks ms st ->
  cached evs (correlation app).2 -> correlated app st token = Some meta ->
  narinfo_says ms token meta \/ upstream_says evs token meta.
Proof.
  intros Hs Hc Hm. destruct (correlated_origin _ _ _ _ _ _ _ _ _ _ Hs Hm) as [?|Hp]; [by left|right].
  destruct (correlation app) as [io sh]. by eapply cache_meta_sound.
Qed.

End cache_proofs.

(** ** The sidecar *)

(** What the sidecar can hold: addressable hashes, u64 stamps, and tokens
    without separators. *)
Definition row_ok (h : list byte) (r : CacheRecord) : Prop :=
  is_Some (safe_key h) /\ u64_ok (rec_fetched_at r) /\
  forall tok, rec_token r = Some tok ->
    tok <> [] /\ tab ∉ tok /\ newline ∉ tok /\ x0d ∉ tok /\ Utf8.from_utf8_ok tok = true.
Definition sidecar_ok (b : Bookkeeping) : Prop := map_Forall row_ok (records b).

Definition row_of (b : Bookkeeping) (e : Z * list byte) : sidecar_row :=
  (e.2, e.1, r ← records b !! e.2; rec_token r).

Lemma base32_line h : is_Some (safe_key h) -> line_ok h /\ tab ∉ h /\ h <> [].
Proof.
  intros [k (_ & Hl & Hb)%safe_key_Some].
  assert (Forall (fun b => (b <> newline /\ b <> x0d /\ Utf8.ascii b) /\ b <> tab) NIX_BASE32) as Hall.
  { apply (bool_decide_unpack _). vm_compute. exact I. }
  rewrite Forall_forall in Hall. split_and!.
  - apply Forall_forall. intros b ?%Hb%Hall. tauto.
  - intros (_ & ?)%Hb%Hall. done.
  - by intros ->.
Qed.

Lemma show_no_tab n : (0 <= n)%Z -> tab ∉ show_u64 n.
Proof. intros Hn Ht%show_chars; [|done]. revert Ht. unfold Utf8.visible. vm_compute. intros [H _]. by apply H. Qed.

(** One line of the sidecar reads back as its row. *)
Lemma sidecar_line_spec b e r rest :
  row_ok e.2 r -> rec_fetched_at r = e.1 -> records b !! e.2 = Some r ->
  exists line, sidecar_line b e = line ++ [newline] /\ newline ∉ line /\ x0d ∉ line /\ line <> [] /\
    Utf8.from_utf8_ok (sidecar_line b e ++ rest) = Utf8.from_utf8_ok rest /\
    split_on tab line = [e.2; show_u64 e.1; default [] (rec_token r)].
Proof.
  intros (Hk & Hu & Htok) Ht Hr. rewrite Ht in Hu. unfold sidecar_line. rewrite Hr. cbn [mbind option_bind].
  destruct (base32_line _ Hk) as (Hl & Htab & Hne).
  assert (0 <= e.1)%Z as Hpos by apply Hu.
  pose proof (line_ok_show e.1 Hpos) as Hs.
  set (tok := default [] (rec_token r)).
  assert (tab ∉ tok /\ newline ∉ tok /\ x0d ∉ tok /\ Utf8.from_utf8_ok tok = true) as (Ht1 & Ht2 & Ht3 & Ht4).
  { unfold tok. destruct (rec_token r) as [t|]; [by destruct (Htok t eq_refl) as (_ & ?)|]. cbn. split_and!; [no_byte..|done]. }
  exists (e.2 ++ tab :: show_u64 e.1 ++ tab :: tok). split_and!.
  - rewrite <-!app_assoc. cbn [app]. by rewrite <-!app_assoc.
  - rewrite elem_of_app, elem_of_cons, elem_of_app, elem_of_cons.
    pose proof (line_ok_nl _ Hl). pose proof (line_ok_nl _ Hs). assert (newline <> tab) by done. tauto.
  - rewrite elem_of_app, elem_of_cons, elem_of_app, elem_of_cons.
    pose proof (line_ok_cr _ Hl). pose proof (line_ok_cr _ Hs). assert (x0d <> tab) by done. tauto.
  - by destruct e.2.
  - rewrite <-!app_assoc. rewrite Utf8.from_utf8_ok_ascii_prefix by by apply line_ok_ascii.
    rewrite (Utf8.from_utf8_ok_ascii_prefix [tab]) by by repeat constructor.
    rewrite Utf8.from_utf8_ok_ascii_prefix by by apply line_ok_ascii.
    rewrite (Utf8.from_utf8_ok_ascii_prefix [tab]) by by repeat constructor.
    cbn [app]. rewrite Utf8.from_utf8_ok_ascii by done. by rewrite Ht4.
  - rewrite split_on_app by done. rewrite split_on_app by by apply show_no_tab. by rewrite split_on_no_sep.
Qed.

(** The entries of a well-formed book, in any order without repetition. *)
Definition listed (b : Bookkeeping) (es : list (Z * list byte)) : Prop :=
  NoDup es /\ forall e, e ∈ es -> exists r, records b !! e.2 = Some r /\ rec_fetched_at r = e.1 /\ row_ok e.2 r.

Lemma lru_order_listed b : book_wf b -> sidecar_ok b -> listed b (lru_order b).
Proof.
  intros [Hl _] Hok. split.
  - unfold lru_order. rewrite merge_sort_Permutation. apply NoDup_elements.
  - intros [t h] [tok Hr]%elem_of_lru_order%Hl. eexists. split; [done|]. split; [done|]. by apply (Hok h).
Qed.

Lemma listed_hashes b es : listed b es -> NoDup es.*2.
Proof.
  intros [Hnd Hes]. apply NoDup_fmap_2_strong; [|done]. intros [t1 h1] [t2 h2] H1 H2 Heq. cbn in Heq. subst h2.
  destruct (Hes _ H1) as (r1 & Hr1 & Ht1 & _), (Hes _ H2) as (r2 & Hr2 & Ht2 & _). cbn in *. f_equal. congruence.
Qed.

Lemma sidecar_rows_listed b es seen :
  listed b es -> (forall h, h ∈ es.*2 -> h ∉ seen) ->
  Utf8.from_utf8_ok (concat (sidecar_line b <$> es)) = true /\
  sidecar_rows seen (lines (concat (sidecar_line b <$> es))) = Some (row_of b <$> es).
Proof.
  intros Hlist. pose proof (listed_hashes _ _ Hlist) as Hnd. destruct Hlist as [_ Hes]. revert seen Hnd.
  induction es as [|e es IH]; intros seen Hnd Hseen; [done|]. cbn [fmap list_fmap concat] in *.
  apply NoDup_cons in Hnd as [He Hnd]. destruct (Hes e) as (r & Hr & Ht & Hrow); [by left|].
  destruct (sidecar_line_spec b e r (concat (sidecar_line b <$> es)) Hrow Ht Hr)
    as (line & Hline & Hn & Hc & Hne & Hu & Hcols).
  destruct (IH (fun e' He' => Hes e' (list_elem_of_further _ _ _ He')) (e.2 :: seen)) as [Hutf Hrows]; [done| |].
  { intros h Hh. apply not_elem_of_cons. split; [by intros ->|]. apply Hseen. by right. }
  split; [by rewrite Hu|]. rewrite Hline, <-app_assoc. cbn [app]. change newline with x0a. rewrite lines_cons by done.
  cbn [sidecar_rows]. rewrite bool_decide_false by done. rewrite Hcols. cbn [lookup list_lookup mbind option_bind].
  destruct Hrow as ([k Hk] & Hu64 & Htok). rewrite Ht in Hu64. rewrite parse_show_u64 by done. cbn [mbind option_bind].
  rewrite Hk. cbn [mbind option_bind]. rewrite bool_decide_false by (apply Hseen; by left).
  change x0a with newline in Hrows. rewrite Hrows. cbn [mbind option_bind]. do 2 f_equal.
  unfold row_of. rewrite Hr. cbn [mbind option_bind]. f_equal.
  destruct (rec_token r) as [tok|]; cbn [default from_option id]; [|done].
  rewrite bool_decide_false; [done|]. by apply Htok.
Qed.

Lemma read_serialized b :
  book_wf b -> sidecar_ok b -> read_sidecar (Some (serialize_sidecar b)) = Some (row_of b <$> lru_order b).
Proof.
  intros Hwf Hok. pose proof (lru_order_listed b Hwf Hok) as Hl.
  destruct (sidecar_rows_listed b _ [] Hl) as [Hu Hr]; [intros; apply not_elem_of_nil|].
  unfold read_sidecar, serialize_sidecar. cbn [mbind option_bind]. set (body := concat _) in *. cbn [app].
  assert (line_ok INDEX_MAGIC) as Hm by line_lit.
  rewrite Utf8.from_utf8_ok_ascii_prefix by by apply line_ok_ascii.
  change (newline :: body) with ([newline] ++ body). rewrite Utf8.from_utf8_ok_ascii_prefix by by repeat constructor.
  rewrite Hu. cbn [negb app]. change newline with x0a.
  rewrite lines_cons by (by apply line_ok_nl || by apply line_ok_cr). by rewrite bool_decide_true.
Qed.

Lemma insert_rows_lookup rows b :
  NoDup rows.*1.*1 ->
  (forall h t tok, (h, t, tok) ∈ rows ->
     records (insert_rows b rows) !! h = Some {| rec_fetched_at := t; rec_token := tok |}) /\
  (forall h, h ∉ rows.*1.*1 -> records (insert_rows b rows) !! h = records b !! h) /\
  forall t h, (t, h) ∈ lru (insert_rows b rows) <-> (t, h) ∈ lru b \/ exists tok, (h, t, tok) ∈ rows.
Proof.
  revert b. induction rows as [|[[h0 t0] tok0] rows IH]; intros b Hnd.
  { split_and!; [by intros ? ? ? ?%not_elem_of_nil|done|]. intros t h. split; [by left|].
    intros [?|[tok ?%not_elem_of_nil]]; done. }
  cbn [fmap list_fmap fst] in *. apply NoDup_cons in Hnd as [Hh Hnd].
  destruct (IH (book_insert b h0 t0 tok0) Hnd) as (Hin & Hout & Hl). cbn [insert_rows foldl].
  fold (insert_rows (book_insert b h0 t0 tok0) rows). split_and!.
  - intros h t tok [[= -> -> ->]|Hr]%elem_of_cons; [|by apply Hin].
    rewrite Hout by done. cbn [book_insert records]. by rewrite lookup_insert_eq.
  - intros h [Hne Hn]%not_elem_of_cons. rewrite Hout by done. cbn [book_insert records].
    by rewrite lookup_insert_ne by congruence.
  - intros t h. rewrite Hl. cbn [book_insert lru]. rewrite elem_of_union, elem_of_singleton.
    setoid_rewrite elem_of_cons. split.
    + intros [[[= -> ->]|?]|[tok ?]]; eauto.
    + intros [?|[tok [[= -> -> ->]|?]]]; eauto.
Qed.

Lemma insert_rows_book b :
  book_wf b -> sidecar_ok b ->
  records (insert_rows Bookkeeping_default (row_of b <$> lru_order b)) = records b /\
  lru (insert_rows Bookkeeping_default (row_of b <$> lru_order b)) = lru b.
Proof.
  intros Hwf Hok. pose proof (listed_hashes _ _ (lru_order_listed b Hwf Hok)) as Hnd.
  set (rows := row_of b <$> lru_order b).
  assert (rows.*1.*1 = (lru_order b).*2) as Hfst by (unfold rows; by rewrite <-!list_fmap_compose).
  assert (forall h t tok, (h, t, tok) ∈ rows <-> records b !! h = Some {| rec_fetched_at := t; rec_token := tok |}) as Hrows.
  { intros h t tok. unfold rows. rewrite list_elem_of_fmap. unfold row_of. split.
    - intros ([t' h'] & Heq & [tok' Hr]%elem_of_lru_order%(wf_lru b Hwf)). cbn in Heq. rewrite Hr in Heq.
      cbn in Heq. by simplify_eq.
    - intros Hr. exists (t, h). cbn [fst snd]. rewrite Hr. cbn. split; [done|].
      apply elem_of_lru_order, (wf_lru b Hwf). eauto. }
  destruct (insert_rows_lookup rows Bookkeeping_default) as (Hin & Hout & Hl); [by rewrite Hfst|].
  split.
  - apply map_eq. intros h. destruct (records b !! h) as [[t tok]|] eqn:E.
    + by apply Hin, Hrows.
    + rewrite Hout; [done|]. intros Hh. rewrite list_elem_of_fmap in Hh. destruct Hh as ([h' t] & -> & Hh).
      rewrite list_elem_of_fmap in Hh. destruct Hh as ([[h'' t''] tok] & [= -> ->] & Hh%Hrows). cbn in E. congruence.
  - apply set_eq. intros [t h]. rewrite Hl. cbn [Bookkeeping_default lru]. rewrite (wf_lru b Hwf). setoid_rewrite Hrows.
    split; [intros [?%not_elem_of_empty|?]; done|by right].
Qed.

(** A restart restores the books.  Opening the cache over a sidecar written
    from well-formed books, whose tokens have no separators, gives back exactly
    the same entries in the same eviction order, deletes no file and leaves the
    sidecar as it is. *)
Theorem sidecar_roundtrip max_entries b files io :
  book_wf b -> sidecar_ok b -> size (records b) <= max_entries -> read_index_ok io = true ->
  exists sh, open_cache max_entries io files (Some (serialize_sidecar b)) = Some sh /\
    records (book sh) = records b /\ lru_order (book sh) = lru_order b /\ nic sh = files /\
    index sh = Some (serialize_sidecar b).
Proof.
  intros Hwf Hok Hsize Hio. destruct (insert_rows_book b Hwf Hok) as [Hr Hl].
  unfold open_cache, load_index. cbn [index]. rewrite Hio, read_serialized by done.
  set (b' := insert_rows _ _) in *. unfold trim_to_cap, set_book. cbn [book nic index].
  unfold evict_over_cap. cbn [evict_fuel]. rewrite Hr.
  destruct (Nat.leb_spec (size (records b)) max_entries); [|lia]. cbn [mbind option_bind fst snd].
  eexists. split; [reflexivity|]. rewrite bool_decide_true by done. cbn [orb negb delete_entry_files foldl book nic index].
  unfold lru_order. by rewrite Hl.
Qed.

(** ** Witnesses *)

Section witnesses.
#[local] Existing Instance w_ed25519.

Definition w_hash : list byte := replicate 32 x61.
Definition w_io : Io :=
  {| read_index_ok := true; read_ok := fun _ => true; nic_write_ok := true; nic_rename_ok := true;
     index_write_ok := true; index_rename_ok := true; remove_ok := fun _ => true; listing := Some [] |}.
Definition w_inner (_ : list byte) (_ : option Z) : result SourceError UpstreamResponse := Ok (w_up w_narinfo).

Definition w_empty : Shared :=
  {| book := Bookkeeping_default; nic := ∅; index := Some (serialize_sidecar Bookkeeping_default) |}.

Lemma w_opened : open_cache 2 w_io ∅ None = Some w_empty.
Proof. vm_compute. reflexivity. Qed.

Abbreviation w_fetch := (fun sh now => fetch_within 2 w_io sh w_hash None w_inner now now).

(** A miss that fills the cache, then a hit. *)
Definition w_miss_hit (r1 : option (result SourceError UpstreamResponse * bool * Shared)) : bool :=
  match r1 with
  | Some (_, true, sh) => match w_fetch sh 200%Z with Some (_, false, _) => true | _ => false end
  | _ => false
  end.

Lemma w_miss_hit_sound r1 :
  w_miss_hit r1 = true -> exists r sh r' sh', r1 = Some (r, true, sh) /\ w_fetch sh 200%Z = Some (r', false, sh').
Proof.
  destruct r1 as [[[r [|]] sh]|]; cbn [w_miss_hit]; try done.
  destruct (w_fetch sh 200%Z) as [[[r' [|]] sh']|] eqn:E; try done. intros _. exists r, sh, r', sh'. done.
Qed.

Lemma w_now : u64_ok 100.
Proof. unfold u64_ok, u64_max. lia. Qed.

Lemma w_filled : exists r sh r' sh',
  w_fetch w_empty 100%Z = Some (r, true, sh) /\ w_fetch sh 200%Z = Some (r', false, sh') /\
  cached 2 [Asked w_hash 100 (w_inner w_hash None)] sh.
Proof.
  destruct (w_miss_hit_sound (w_fetch w_empty 100%Z)) as (r & sh & r' & sh' & H1 & H2); [vm_compute; reflexivity|].
  exists r, sh, r', sh'. split; [exact H1|]. split; [exact H2|].
  apply (cached_fetch 2 [] w_empty); [apply (cached_open 2 w_io None); exact w_opened|].
  exact (attempt_fetch 2 [] w_empty w_io w_hash None w_inner 100 100 r true sh w_now H1).
Qed.

Lemma w_max : 1 <= 2.
Proof. lia. Qed.

Lemma cache_never_wrong_witness : exists evs sh r e,
  w_fetch sh 200%Z = Some (r, false, sh) /\ answered evs w_hash e /\
  r = Ok (match entry_kind e with Positive => positive_response (entry_body e) | Negative => negative_response end).
Proof.
  destruct w_filled as (r & sh & r' & sh' & _ & H2 & Hc).
  destruct (cache_never_wrong 2 w_max _ sh w_io w_hash None w_inner 200 200 r' false sh' Hc H2) as (e & Ha & Hr & _).
  exists [Asked w_hash 100 (w_inner w_hash None)], sh, r', e.
  split; [|exact (conj Ha Hr)]. rewrite H2. f_equal. f_equal. revert H2. unfold fetch_within.
  destruct (read_fresh_spec w_io sh w_hash 200) as (_ & _ & Hhit).
  destruct (read_fresh w_io sh w_hash 200) as [[e'|] sh0]; cbn [fst snd] in Hhit.
  - destruct (Hhit e' eq_refl) as [-> _]. by intros [= _ <-].
  - by intros (x & _ & [=])%bind_Some.
Defined.

Lemma cache_bounded_total_witness : exists sh,
  open_cache 2 w_io ∅ None = Some sh /\ size (records (book sh)) <= 2.
Proof. exact (proj1 (cache_bounded_total 2 w_max) w_io ∅ None). Defined.

Lemma cache_then_hit_witness : exists sh,
  w_fetch sh 200%Z = Some (Ok (positive_response w_narinfo), false, sh).
Proof.
  destruct w_filled as (r & sh & r' & sh' & H1 & _ & _). exists sh.
  refine (cache_then_hit 2 w_max [] w_empty w_io w_hash None w_inner 100 100 r sh (w_up w_narinfo) w_narinfo
    w_io None w_inner 200 200 (cached_open 2 w_io None w_empty w_opened) w_now eq_refl eq_refl eq_refl H1
    eq_refl eq_refl _ _ eq_refl _); [vm_compute; reflexivity|vm_compute; reflexivity|].
  unfold u64_saturating_sub, POSITIVE_TTL. lia.
Defined.

Definition w_cached_app (sh : Shared) : App NoRawServe (Io * Shared) := {|
  narinfo := fun _ _ => Err (Unreachable []);
  nar := fun _ _ _ => Ok (w_up (str "NAR"));
  passthrough := fun _ _ => Err (Unreachable []);
  cache_info := CacheInfo_default;
  correlation := (w_io, sh);
  raw_serve := NoRawServe_;
  post_fetch_announce := false |}.

Definition w_meta : NarMeta :=
  {| meta_nar_hash := NarHashKey_to_string w_key; meta_nar_size := 4096;
     meta_transport := {| transport_compression := Unknown |}; meta_store_path := Some (str "/nix/store/aaaa-x") |}.

Definition w_correlates (r : option (result SourceError UpstreamResponse * bool * Shared)) : bool :=
  match r with
  | Some (_, true, sh) =>
      match cache_meta_for_token w_io sh (str "1abc.nar.xz") with
      | Some m => bool_decide (meta_nar_hash m = meta_nar_hash w_meta)
      | None => false
      end
  | _ => false
  end.

Lemma w_correlates_sound r :
  w_correlates r = true -> exists a sh m, r = Some (a, true, sh) /\
    cache_meta_for_token w_io sh (str "1abc.nar.xz") = Some m /\ meta_nar_hash m = meta_nar_hash w_meta.
Proof.
  destruct r as [[[a [|]] sh]|]; cbn [w_correlates]; try done.
  destruct (cache_meta_for_token w_io sh (str "1abc.nar.xz")) as [m|] eqn:E; [|done].
  intros Hm%bool_decide_eq_true. exists a, sh, m. exact (conj eq_refl (conj E Hm)).
Qed.

(** A daemon that has just started, with nothing in memory, over the filled cache. *)
Lemma persisted_dispatch_sound_witness : exists ms evs sh m,
  correlated (w_cached_app sh) w_boot (str "1abc.nar.xz") = Some m /\ meta_nar_hash m = NarHashKey_to_string w_key /\
  (narinfo_says (R := NoRawServe) (C := Io * Shared) ms (str "1abc.nar.xz") m \/ upstream_says evs (str "1abc.nar.xz") m).
Proof.
  destruct (w_correlates_sound (w_fetch w_empty 100%Z)) as (a & sh & m & H1 & Hm & Hh); [vm_compute; reflexivity|].
  exists [], [Asked w_hash 100 (w_inner w_hash None)], sh, m. split; [exact Hm|]. split; [exact Hh|].
  refine (persisted_dispatch_sound 2 w_max w_base64 w_keyed_hash (fill 32 x09) true w_trusted [] w_boot
    [Asked w_hash 100 (w_inner w_hash None)] (w_cached_app sh) (str "1abc.nar.xz") m _ _ Hm).
  - apply (serving_boot _ _ _ _ _ w_os). reflexivity.
  - apply (cached_fetch 2 [] w_empty); [apply (cached_open 2 w_io None); exact w_opened|].
    exact (attempt_fetch 2 [] w_empty w_io w_hash None w_inner 100 100 a true sh w_now H1).
Defined.

Definition w_book : Bookkeeping := book_insert Bookkeeping_default w_hash 100 (Some (str "1abc.nar.xz")).

Lemma sidecar_roundtrip_witness : exists sh,
  open_cache 2 w_io ∅ (Some (serialize_sidecar w_book)) = Some sh /\ records (book sh) = records w_book.
Proof.
  destruct (sidecar_roundtrip 2 w_book ∅ w_io) as (sh & Ho & Hr & _).
  - apply book_insert_wf; [apply book_wf_empty|reflexivity].
  - intros h r Hr. unfold w_book in Hr. cbn [book_insert records] in Hr.
    apply lookup_insert_Some in Hr as [[<- <-]|[_ Hr]]; [|done].
    split; [by exists w_hash|]. split; [exact w_now|]. intros tok [= <-]. split_and!; [done|no_byte..|reflexivity].
  - vm_compute. lia.
  - reflexivity.
  - exists sh. exact (conj Ho Hr).
Defined.

End witnesses.
