(* ===== verification/Supervisor.v ===== *)
(** * The task supervisor: proc-supervisor/src/task_supervisor.rs

    Bounded ownership of the daemon's asynchronous tasks.  The state has the
    shared fields of `TaskSupervisorInner` and the locals of the registry
    manager; callers, the manager and the tasks interleave as the steps of
    [step].  The manager takes a registration in two steps, the spawn of the task
    and the insertion of its abort handle, since a cancellation can come between
    them.  Locks are never poisoned here, since nothing panics under them, and
    the process jobs are not modelled. *)

From Stdlib Require Import Strings.Byte ZArith Lia.
From stdpp Require Import base sets gmap numbers strings list.
From S2P Require Import Prelude.

Definition MAX_OWNED_TASKS : Z := 1024.
Definition TASK_COMMAND_CAPACITY : Z := MAX_OWNED_TASKS + 1.

Inductive SupervisorError :=
| Closed
| Capacity (active limit : Z)
| Poisoned (why : list byte).

Definition is_capacity_exhausted (e : SupervisorError) : bool :=
  match e with Capacity _ _ => true | _ => false end.

Record TaskFailureLatch := { first : option (list byte); count : Z }.

Definition latch_default : TaskFailureLatch := {| first := None; count := 0 |}.

Definition latch_record (l : TaskFailureLatch) (failure : list byte) : TaskFailureLatch :=
  {| first := match first l with None => Some failure | Some f => Some f end;
     count := u64_saturating_add (count l) 1 |}.

(** An owned task: its name, and whether it is wrapped to end on cancellation. *)
Record Task := { task_name : list byte; cancel_on_shutdown : bool }.

Inductive SupervisorCommand := Spawn (t : Task) | Shutdown.
#[export] Instance Task_eq_dec : EqDecision Task.
Proof. solve_decision. Defined.
#[export] Instance SupervisorCommand_eq_dec : EqDecision SupervisorCommand.
Proof. solve_decision. Defined.

(** The locals of task_registry_manager.  [registering] is the task between its
    spawn and the insertion of its abort handle. *)
Record Manager := { tasks : gmap nat Task; shutting_down : bool; registering : option nat }.
Definition manager_start : Manager := {| tasks := ∅; shutting_down := false; registering := None |}.

Record Supervisor := {
  owner : bool;                    (* the `TaskSupervisor` exists: a handle upgrades *)
  closing : bool;
  cancel : bool;                   (* the watch value *)
  commands : list SupervisorCommand;
  command_receiver : bool;         (* not yet taken by a manager *)
  handle : bool;                   (* the manager's join handle is in its mutex *)
  manager : option Manager;        (* the manager task, while it runs *)
  next_id : nat;
  abort_handles : gset nat;
  abort_requested : gset nat;
  manager_abort : bool;            (* the manager's own abort was requested *)
  active_tasks : Z;
  failures : TaskFailureLatch
}.

Definition supervisor_new : Supervisor :=
  {| owner := true; closing := false; cancel := false; commands := []; command_receiver := true; handle := false;
     manager := None; next_id := 0; abort_handles := ∅; abort_requested := ∅; manager_abort := false;
     active_tasks := 0; failures := latch_default |}.

(** The receiving half lives in its mutex or in the manager. *)
Definition receiver_alive (s : Supervisor) : bool := command_receiver s || bool_decide (is_Some (manager s)).

Inductive TrySendError := Full | Disconnected.

(** `mpsc::Sender::try_send` *)
Definition try_send (s : Supervisor) (c : SupervisorCommand) : result TrySendError (list SupervisorCommand) :=
  if negb (receiver_alive s) then Err Disconnected
  else if (TASK_COMMAND_CAPACITY <=? Z.of_nat (length (commands s)))%Z then Err Full
  else Ok (commands s ++ [c]).

(** `fetch_sub` on an AtomicUsize. *)
Definition usize_sub1 (n : Z) : Z := ((n - 1) mod (u64_max + 1))%Z.

Definition with_commands (s : Supervisor) (cs : list SupervisorCommand) : Supervisor :=
  {| owner := owner s; closing := closing s; cancel := cancel s; commands := cs;
     command_receiver := command_receiver s; handle := handle s; manager := manager s; next_id := next_id s;
     abort_handles := abort_handles s; abort_requested := abort_requested s; manager_abort := manager_abort s;
     active_tasks := active_tasks s; failures := failures s |}.

Definition with_active (s : Supervisor) (n : Z) : Supervisor :=
  {| owner := owner s; closing := closing s; cancel := cancel s; commands := commands s;
     command_receiver := command_receiver s; handle := handle s; manager := manager s; next_id := next_id s;
     abort_handles := abort_handles s; abort_requested := abort_requested s; manager_abort := manager_abort s;
     active_tasks := n; failures := failures s |}.

(** TaskSupervisorHandle::ensure_manager *)
Definition ensure_manager (s : Supervisor) : result SupervisorError Supervisor :=
  if handle s then Ok s
  else if command_receiver s then
    Ok {| owner := owner s; closing := closing s; cancel := cancel s; commands := commands s;
          command_receiver := false; handle := true; manager := Some manager_start; next_id := next_id s;
          abort_handles := abort_handles s; abort_requested := abort_requested s; manager_abort := manager_abort s;
          active_tasks := active_tasks s; failures := failures s |}
  else Err (Poisoned (str "task-supervisor manager stopped before shutdown")).

(** TaskSupervisorHandle::spawn_inner *)
Definition spawn_inner (s : Supervisor) (t : Task) : result SupervisorError unit * Supervisor :=
  if negb (owner s) then (Err Closed, s)
  else if closing s then (Err Closed, s)
  else match ensure_manager s with
  | Err e => (Err e, s)
  | Ok s =>
      let active := active_tasks s in
      if (MAX_OWNED_TASKS <=? active)%Z then (Err (Capacity active MAX_OWNED_TASKS), s)
      else
        let s := with_active s (active + 1) in
        match try_send s (Spawn t) with
        | Ok cs => (Ok tt, with_commands s cs)
        | Err Full => (Err (Capacity MAX_OWNED_TASKS MAX_OWNED_TASKS), with_active s (usize_sub1 (active_tasks s)))
        | Err Disconnected => (Err Closed, with_active s (usize_sub1 (active_tasks s)))
        end
  end.

(** The stores both shutdown paths begin with. *)
Definition close (s : Supervisor) : Supervisor :=
  {| owner := owner s; closing := true; cancel := true; commands := commands s;
     command_receiver := command_receiver s; handle := handle s; manager := manager s; next_id := next_id s;
     abort_handles := abort_handles s; abort_requested := abort_requested s; manager_abort := manager_abort s;
     active_tasks := active_tasks s; failures := failures s |}.

Definition with_handle (s : Supervisor) (h : bool) : Supervisor :=
  {| owner := owner s; closing := closing s; cancel := cancel s; commands := commands s;
     command_receiver := command_receiver s; handle := h; manager := manager s; next_id := next_id s;
     abort_handles := abort_handles s; abort_requested := abort_requested s; manager_abort := manager_abort s;
     active_tasks := active_tasks s; failures := failures s |}.

(** TaskSupervisor::begin_shutdown; the flag says whether there is a manager to join. *)
Definition begin_shutdown (s : Supervisor) : result SupervisorError bool * Supervisor :=
  let s := close s in
  match try_send s Shutdown with
  | Err _ => (Err (Poisoned (str "task-supervisor could not enqueue its reserved shutdown marker")), s)
  | Ok cs => let s := with_commands s cs in (Ok (handle s), with_handle s false)
  end.

(** TaskSupervisor::abort_active *)
Definition abort_active (s : Supervisor) : Supervisor :=
  {| owner := owner s; closing := closing s; cancel := cancel s; commands := commands s;
     command_receiver := command_receiver s; handle := handle s; manager := manager s; next_id := next_id s;
     abort_handles := abort_handles s; abort_requested := abort_requested s ∪ abort_handles s;
     manager_abort := manager_abort s; active_tasks := active_tasks s; failures := failures s |}.

(** TaskSupervisor::cancel_now *)
Definition cancel_now (s : Supervisor) : Supervisor :=
  let s := close s in
  let s := match try_send s Shutdown with Ok cs => with_commands s cs | Err _ => s end in
  let s := abort_active s in
  {| owner := owner s; closing := closing s; cancel := cancel s; commands := commands s;
     command_receiver := command_receiver s; handle := false; manager := manager s; next_id := next_id s;
     abort_handles := abort_handles s; abort_requested := abort_requested s;
     manager_abort := manager_abort s || handle s; active_tasks := active_tasks s; failures := failures s |}.

(** ** The manager *)

Definition with_manager (s : Supervisor) (cs : list SupervisorCommand) (m : Manager) (id : nat) (aborts : gset nat) :
    Supervisor :=
  {| owner := owner s; closing := closing s; cancel := cancel s; commands := cs;
     command_receiver := command_receiver s; handle := handle s; manager := Some m; next_id := id;
     abort_handles := aborts; abort_requested := abort_requested s; manager_abort := manager_abort s;
     active_tasks := active_tasks s; failures := failures s |}.

Definition with_aborts (s : Supervisor) (ids : gset nat) : Supervisor :=
  {| owner := owner s; closing := closing s; cancel := cancel s; commands := commands s;
     command_receiver := command_receiver s; handle := handle s; manager := manager s; next_id := next_id s;
     abort_handles := abort_handles s; abort_requested := abort_requested s ∪ ids; manager_abort := manager_abort s;
     active_tasks := active_tasks s; failures := failures s |}.

(** `break`, or the drop of an aborted manager.  The receiver goes with it, with
    what is still queued, and so does the JoinSet, whose drop aborts its tasks. *)
Definition manager_gone (s : Supervisor) (m : Manager) : Supervisor :=
  {| owner := owner s; closing := closing s; cancel := cancel s; commands := [];
     command_receiver := command_receiver s; handle := handle s; manager := None; next_id := next_id s;
     abort_handles := abort_handles s; abort_requested := abort_requested s ∪ dom (tasks m); manager_abort := manager_abort s;
     active_tasks := active_tasks s; failures := failures s |}.

(** The command arm of the select, up to `tasks.spawn` for a registration.  The
    channel is closed once the owner, which has the only sender, is gone. *)
Definition manager_recv (s : Supervisor) (m : Manager) : option Supervisor :=
  match commands s with
  | Spawn t :: cs =>
      Some (if owner s
            then with_manager s cs {| tasks := <[next_id s := t]> (tasks m); shutting_down := shutting_down m;
                                      registering := Some (next_id s) |} (S (next_id s)) (abort_handles s)
            else manager_gone s m)
  | Shutdown :: cs =>
      Some (with_manager s cs {| tasks := tasks m; shutting_down := true; registering := registering m |} (next_id s) (abort_handles s))
  | [] =>
      if owner s then None
      else Some (with_aborts (with_manager s [] {| tasks := tasks m; shutting_down := true; registering := registering m |}
                                (next_id s) (abort_handles s)) (dom (tasks m)))
  end.

(** The rest of a registration: the abort handle of the spawned task. *)
Definition manager_register (s : Supervisor) (m : Manager) (id : nat) : Supervisor :=
  with_manager s (commands s) {| tasks := tasks m; shutting_down := shutting_down m; registering := None |}
    (next_id s) ({[id]} ∪ abort_handles s).

(** How a task ended. *)
Inductive Outcome := Finished | Cancelled | Panicked (error : list byte).

(** The join arm of the select. *)
Definition manager_join (s : Supervisor) (m : Manager) (id : nat) (o : Outcome) : Supervisor :=
  let name := default (str "unknown-owned-task") (task_name <$> tasks m !! id) in
  let m' := {| tasks := delete id (tasks m); shutting_down := shutting_down m; registering := registering m |} in
  let s' := with_manager s (commands s) m' (next_id s) (abort_handles s) in
  if owner s then
    {| owner := owner s'; closing := closing s'; cancel := cancel s'; commands := commands s';
       command_receiver := command_receiver s'; handle := handle s'; manager := manager s'; next_id := next_id s';
       abort_handles := abort_handles s' ∖ {[id]}; abort_requested := abort_requested s';
       manager_abort := manager_abort s'; active_tasks := usize_sub1 (active_tasks s');
       failures := match o with
                   | Panicked e => latch_record (failures s') (str "task=" ++ name ++ str " join_error=" ++ e)
                   | _ => failures s'
                   end |}
  else s'.

(** The next block of the manager's loop: finish a registration, else leave,
    else join a finished task (the select is biased), else take a command; [None]
    is a manager waiting. *)
Definition manager_round (ended : nat -> option Outcome) (s : Supervisor) : option Supervisor :=
  m ← manager s;
  match registering m with Some id => Some (manager_register s m id) | None =>
  if shutting_down m && bool_decide (tasks m = ∅) then Some (manager_gone s m)
  else match head (filter (fun id => is_Some (ended id)) (elements (dom (tasks m)))) with
  | Some id => o ← ended id; Some (manager_join s m id o)
  | None => if shutting_down m then None else manager_recv s m
  end
  end.

(** TaskSupervisor's drop: cancel, then the shared state is gone for every handle. *)
Definition drop_owner (s : Supervisor) : Supervisor :=
  let s := cancel_now s in
  {| owner := false; closing := closing s; cancel := cancel s; commands := commands s;
     command_receiver := command_receiver s; handle := handle s; manager := manager s; next_id := next_id s;
     abort_handles := abort_handles s; abort_requested := abort_requested s; manager_abort := manager_abort s;
     active_tasks := active_tasks s; failures := failures s |}.

(** ** Interleavings *)

Inductive step : Supervisor -> Supervisor -> Prop :=
| step_spawn s t : step s (spawn_inner s t).2
| step_shutdown s : owner s = true -> step s (begin_shutdown s).2
| step_cancel s : owner s = true -> step s (cancel_now s)
| step_abort s : owner s = true -> step s (abort_active s)
| step_drop s : owner s = true -> step s (drop_owner s)
| step_exit s m : manager s = Some m -> registering m = None -> shutting_down m = true -> tasks m = ∅ -> step s (manager_gone s m)
| step_join s m id o : manager s = Some m -> registering m = None -> is_Some (tasks m !! id) -> step s (manager_join s m id o)
| step_recv s m s' : manager s = Some m -> registering m = None -> shutting_down m = false -> manager_recv s m = Some s' -> step s s'
| step_register s m id : manager s = Some m -> registering m = Some id -> step s (manager_register s m id)
| step_manager_aborted s m : manager s = Some m -> registering m = None -> manager_abort s = true -> step s (manager_gone s m).

Inductive supervised : Supervisor -> Prop :=
| supervised_new : supervised supervisor_new
| supervised_step s s' : supervised s -> step s s' -> supervised s'.

(** Registrations accepted and not yet taken by the manager. *)
Definition spawns (cs : list SupervisorCommand) : nat :=
  length (filter (fun c => c <> Shutdown) cs).
Definition queued (s : Supervisor) : nat := spawns (commands s).

(** The task that runs without an abort handle yet, if there is one. *)
Definition unregistered (m : Manager) : gset nat := match registering m with Some id => {[id]} | None => ∅ end.

(** Every task counted is queued or running, and every running one can be
    aborted, but for the one that is being registered. *)
Definition accounted (s : Supervisor) (m : Manager) : Prop :=
  active_tasks s = Z.of_nat (queued s + size (tasks m)) /\ abort_handles s = dom (tasks m) ∖ unregistered m.

Record inv (s : Supervisor) : Prop := {
  inv_idle : command_receiver s = true -> manager s = None /\ handle s = false /\ queued s = 0 /\
    active_tasks s = 0%Z /\ abort_handles s = ∅;
  inv_open : closing s = false -> owner s = true /\ Shutdown ∉ commands s /\ manager_abort s = false /\
    (command_receiver s = true \/ handle s = true /\ exists m, manager s = Some m /\ shutting_down m = false);
  inv_manager : forall m, manager s = Some m ->
    ((forall id, id ∈ dom (tasks m) -> id < next_id s) /\ unregistered m ⊆ dom (tasks m)) /\ (owner s = true -> accounted s m) /\
    (shutting_down m = true -> closing s = true /\ queued s = 0);
  inv_fifo : exists ts k, commands s = (Spawn <$> ts) ++ replicate k Shutdown;
  inv_bound : (0 <= active_tasks s <= MAX_OWNED_TASKS)%Z
}.

Lemma spawns_fifo ts k : spawns ((Spawn <$> ts) ++ replicate k Shutdown) = length ts.
Proof.
  unfold spawns. rewrite filter_app, length_app.
  assert (filter (fun c => c <> Shutdown) (replicate k Shutdown) = []) as ->.
  { induction k as [|k IH]; [done|]. cbn [replicate]. by rewrite filter_cons_False by (intros H; by apply H). }
  assert (filter (fun c => c <> Shutdown) (Spawn <$> ts) = Spawn <$> ts) as ->.
  { induction ts as [|t ts IH]; [done|]. cbn [fmap list_fmap]. by rewrite filter_cons_True, IH. }
  rewrite length_fmap. simpl. lia.
Qed.

Lemma spawns_snoc_spawn cs t : spawns (cs ++ [Spawn t]) = S (spawns cs).
Proof. unfold spawns. rewrite filter_app, length_app. simpl. lia. Qed.
Lemma spawns_snoc_shutdown cs : spawns (cs ++ [Shutdown]) = spawns cs.
Proof. unfold spawns. rewrite filter_app, length_app. simpl. lia. Qed.
Lemma spawns_le cs : spawns cs <= length cs.
Proof. apply length_filter. Qed.
Lemma spawns_all cs : Shutdown ∉ cs -> spawns cs = length cs.
Proof.
  intros H. unfold spawns. f_equal. induction cs as [|c cs IH]; [done|]. apply not_elem_of_cons in H as [Hc H].
  rewrite filter_cons_True by congruence. by rewrite IH.
Qed.

Lemma fifo_open ts k cs : cs = (Spawn <$> ts) ++ replicate k Shutdown -> Shutdown ∉ cs -> cs = Spawn <$> ts.
Proof.
  intros -> H. destruct k; [by rewrite app_nil_r|]. exfalso. apply H. rewrite elem_of_app. right. by left.
Qed.

(** With the gate open the queue has room for what the bound admits and for the
    marker. *)
Lemma open_room s :
  inv s -> closing s = false ->
  (forall m, manager s = Some m -> Z.of_nat (length (commands s)) <= active_tasks s)%Z /\
  (command_receiver s = true -> commands s = []) /\ receiver_alive s = true.
Proof.
  intros Hi Hc. destruct (inv_open s Hi Hc) as (Ho & Hns & _ & Hr). split_and!.
  - intros m Hm. destruct (inv_manager s Hi m Hm) as (_ & [Ha _]%(fun f => f Ho) & _). rewrite Ha.
    unfold queued. rewrite spawns_all by done. lia.
  - intros Hrec. destruct (inv_idle s Hi Hrec) as (_ & _ & Hq & _). unfold queued in Hq. rewrite spawns_all in Hq by done.
    by destruct (commands s).
  - unfold receiver_alive. destruct Hr as [->|(_ & m & -> & _)]; [done|]. rewrite bool_decide_true by done. by rewrite orb_true_r.
Qed.

Lemma try_send_open s c :
  inv s -> closing s = false -> (forall m, manager s = Some m -> active_tasks s <= MAX_OWNED_TASKS)%Z ->
  try_send s c = Ok (commands s ++ [c]).
Proof.
  intros Hi Hc Hb. destruct (open_room s Hi Hc) as (Hlen & Hidle & Hal). unfold try_send. rewrite Hal. cbn [negb].
  destruct (Z.leb_spec TASK_COMMAND_CAPACITY (Z.of_nat (length (commands s)))) as [Hle|]; [exfalso|done].
  unfold TASK_COMMAND_CAPACITY, MAX_OWNED_TASKS in *.
  destruct (inv_open s Hi Hc) as (_ & _ & _ & [Hrec|(_ & m & Hm & _)]).
  - rewrite (Hidle Hrec) in Hle. simpl in Hle. lia.
  - pose proof (Hlen m Hm). pose proof (Hb m Hm). lia.
Qed.

Lemma ensure_manager_open s :
  inv s -> closing s = false ->
  exists s1 m, ensure_manager s = Ok s1 /\ inv s1 /\ manager s1 = Some m /\ shutting_down m = false /\
    handle s1 = true /\ command_receiver s1 = false /\
    owner s1 = owner s /\ closing s1 = closing s /\ commands s1 = commands s /\ active_tasks s1 = active_tasks s.
Proof.
  intros Hi Hc. destruct (inv_open s Hi Hc) as (Ho & Hns & Hab & Hr). unfold ensure_manager.
  destruct (handle s) eqn:Hh.
  - destruct Hr as [Hrec|(_ & m & Hm & Hsd)].
    { destruct (inv_idle s Hi Hrec) as (_ & ? & _). congruence. }
    exists s, m. split_and!; try done. destruct (command_receiver s) eqn:Hrec; [|done].
    destruct (inv_idle s Hi Hrec) as (? & _). congruence.
  - destruct Hr as [Hrec|[? _]]; [|congruence]. rewrite Hrec.
    destruct (inv_idle s Hi Hrec) as (Hm & _ & Hq & Ha & Hah).
    eexists _, manager_start. split; [reflexivity|]. split; [|done].
    split; cbn; try done.
    + intros _. split_and!; [done|done|done|]. right. split; [done|]. by exists manager_start.
    + intros m [= <-]. split_and!; [| |intros _; split|done];
        cbn [manager_start tasks abort_handles active_tasks next_id unregistered registering].
      * intros id. by rewrite dom_empty.
      * done.
      * rewrite Ha. unfold queued in *. cbn [commands]. by rewrite Hq.
      * rewrite Hah, dom_empty_L. set_solver.
    + apply Hi.
    + apply Hi.
Qed.

(** What a registration answers, and that it keeps the invariant. *)
Lemma spawn_inner_spec s t :
  inv s ->
  inv (spawn_inner s t).2 /\
  (spawn_inner s t).1 =
    if owner s && negb (closing s)
    then if (active_tasks s <? MAX_OWNED_TASKS)%Z then Ok tt else Err (Capacity (active_tasks s) MAX_OWNED_TASKS)
    else Err Closed.
Proof.
  intros Hi. unfold spawn_inner. destruct (owner s) eqn:Ho; cbn [negb andb]; [|done].
  destruct (closing s) eqn:Hc; cbn [negb]; [done|].
  destruct (ensure_manager_open s Hi Hc) as (s1 & m & -> & Hi1 & Hm & Hsd & Hh & Hr & Ho1 & Hc1 & Hcs & Ha).
  rewrite Ha. destruct (Z.leb_spec MAX_OWNED_TASKS (active_tasks s)) as [Hge|Hlt].
  { destruct (Z.ltb_spec (active_tasks s) MAX_OWNED_TASKS); [lia|]. done. }
  destruct (Z.ltb_spec (active_tasks s) MAX_OWNED_TASKS); [|lia].
  change (try_send (with_active s1 (active_tasks s + 1)) (Spawn t)) with (try_send s1 (Spawn t)).
  rewrite try_send_open; [|done|congruence|intros _ _; apply Hi1]. cbn [fst snd]. split; [|done].
  rewrite Ho in Ho1. rewrite Hc in Hc1. destruct (inv_open s1 Hi1 Hc1) as (_ & Hns & Hab & _).
  destruct (inv_manager s1 Hi1 m Hm) as ([Hids Hsub] & [Hacc Hdom]%(fun f => f Ho1) & _).
  split; cbn [with_commands with_active owner closing commands command_receiver handle manager next_id abort_handles manager_abort active_tasks].
  - congruence.
  - intros _. split_and!; [done| |done|right; by eauto].
    rewrite elem_of_app, list_elem_of_singleton. intros [?|?]; done.
  - intros m' Hm'. assert (m' = m) as -> by congruence. split_and!; [done|done| |congruence].
    intros _. unfold accounted, queued. cbn [with_commands with_active commands active_tasks abort_handles]. split; [|done].
    rewrite spawns_snoc_spawn. unfold queued in Hacc. lia.
  - destruct (inv_fifo s1 Hi1) as (ts & k & Hf). exists (ts ++ [t]), 0.
    rewrite (fifo_open _ _ _ Hf Hns), fmap_app, app_nil_r. done.
  - pose proof (inv_bound s Hi). lia.
Qed.

Lemma close_sent_inv s cs :
  inv s -> (cs = commands s \/ cs = commands s ++ [Shutdown]) -> inv (with_commands (close s) cs).
Proof.
  intros Hi Hcs. assert (spawns cs = queued s) as Hq.
  { destruct Hcs as [->| ->]; [done|]. apply spawns_snoc_shutdown. }
  split; cbn [with_commands close owner closing commands command_receiver handle manager next_id abort_handles active_tasks].
  - intros Hr. destruct (inv_idle s Hi Hr) as (? & ? & ? & ? & ?). unfold queued at 1. cbn [with_commands commands]. by rewrite Hq.
  - done.
  - intros m Hm. destruct (inv_manager s Hi m Hm) as ([? ?] & Hacc & Hsd). split_and!; [done|done| |].
    + intros Ho. destruct (Hacc Ho) as [Ha Hd]. unfold accounted, queued. cbn [with_commands close commands active_tasks abort_handles]. by rewrite Hq.
    + intros Hd. destruct (Hsd Hd) as [_ ?]. unfold queued. cbn [with_commands commands]. by rewrite Hq.
  - destruct (inv_fifo s Hi) as (ts & k & Hf). destruct Hcs as [->| ->]; [eauto|].
    exists ts, (S k). rewrite Hf, <-app_assoc. f_equal. by rewrite replicate_S_end.
  - apply Hi.
Qed.

Lemma try_send_Ok s c cs : try_send s c = Ok cs -> cs = commands s ++ [c].
Proof.
  unfold try_send. destruct (negb _); [done|]. destruct (_ <=? _)%Z; [done|]. by intros [= <-].
Qed.

(** Fields the invariant reads of a closed supervisor. *)
Lemma closed_inv s s' :
  inv s -> closing s = true ->
  closing s' = closing s -> commands s' = commands s -> command_receiver s' = command_receiver s ->
  manager s' = manager s -> next_id s' = next_id s -> abort_handles s' = abort_handles s ->
  active_tasks s' = active_tasks s -> (owner s' = true -> owner s = true) -> (handle s' = true -> handle s = true) ->
  inv s'.
Proof.
  intros Hi Hc E1 E2 E3 E4 E5 E6 E7 Ho Hh. split.
  - rewrite E3, E4, E7, E6. intros Hr. destruct (inv_idle s Hi Hr) as (? & Hhs & ? & ? & ?). split_and!; try done.
    + destruct (handle s'); [|done]. rewrite <-Hhs. symmetry. by apply Hh.
    + unfold queued. by rewrite E2.
  - congruence.
  - intros m Hm. rewrite E4 in Hm. destruct (inv_manager s Hi m Hm) as ([? ?] & Hacc & Hsd). rewrite E5. split_and!; [done|done| |].
    + intros Ho'. destruct (Hacc (Ho Ho')) as [? ?]. unfold accounted, queued. rewrite E7, E2, E6. done.
    + rewrite E1. unfold queued. rewrite E2. done.
  - rewrite E2. apply Hi.
  - rewrite E7. apply Hi.
Qed.

Lemma begin_shutdown_inv s : inv s -> inv (begin_shutdown s).2.
Proof.
  intros Hi. unfold begin_shutdown.
  assert (inv (close s)) as Hcl.
  { pose proof (close_sent_inv s (commands s) Hi (or_introl eq_refl)) as H. by destruct s. }
  destruct (try_send (close s) Shutdown) as [cs|e] eqn:E; cbn [snd]; [|done].
  apply try_send_Ok in E. cbn [close commands] in E.
  eapply (closed_inv (with_commands (close s) cs)); try done. apply close_sent_inv; auto.
Qed.

Lemma cancel_now_inv s : inv s -> inv (cancel_now s) /\ inv (drop_owner s).
Proof.
  intros Hi. unfold drop_owner, cancel_now.
  set (s1 := match try_send (close s) Shutdown with Ok cs => _ | Err _ => _ end).
  assert (inv s1 /\ closing s1 = true) as [H1 H2].
  { unfold s1. destruct (try_send (close s) Shutdown) as [cs|e] eqn:E.
    - apply try_send_Ok in E. cbn [close commands] in E. split; [|done]. apply close_sent_inv; auto.
    - split; [|done]. pose proof (close_sent_inv s (commands s) Hi (or_introl eq_refl)) as H. by destruct s. }
  split; by eapply (closed_inv s1).
Qed.

Lemma abort_active_inv s : inv s -> inv (abort_active s).
Proof. intros [H1 H2 H3 H4 H5]. by split. Qed.

Lemma manager_gone_inv s m : inv s -> closing s = true -> inv (manager_gone s m).
Proof.
  intros Hi Hc. split; cbn; try done.
  - intros Hr. destruct (inv_idle s Hi Hr) as (_ & ? & _ & ? & ?). done.
  - congruence.
  - by exists [], 0.
  - apply Hi.
Qed.

Lemma usize_sub1_pos n : (1 <= n <= MAX_OWNED_TASKS)%Z -> usize_sub1 n = (n - 1)%Z.
Proof. intros Hn. unfold usize_sub1, u64_max, MAX_OWNED_TASKS in *. apply Z.mod_small. lia. Qed.

Lemma manager_join_inv s m id o :
  inv s -> manager s = Some m -> registering m = None -> is_Some (tasks m !! id) -> inv (manager_join s m id o).
Proof.
  intros Hi Hm Hreg Hid. destruct (inv_manager s Hi m Hm) as ([Hids _] & Hacc & Hsd).
  assert (forall ts sd, unregistered {| tasks := ts; shutting_down := sd; registering := registering m |} = ∅) as Hun.
  { intros ts sd. unfold unregistered. cbn. by rewrite Hreg. }
  assert (unregistered m = ∅) as Hun0 by (unfold unregistered; by rewrite Hreg).
  assert (command_receiver s = false) as Hr.
  { destruct (command_receiver s) eqn:E; [|done]. destruct (inv_idle s Hi E) as (? & _). congruence. }
  assert (S (size (delete id (tasks m))) = size (tasks m)) as Hsize.
  { destruct Hid as [t Ht]. rewrite map_size_delete_Some by eauto.
    assert (size (tasks m) <> 0); [|lia]. intros H0%map_size_empty_inv. rewrite H0 in Ht. done. }
  assert (forall id', id' ∈ dom (delete id (tasks m)) -> id' < next_id s) as Hids'.
  { intros id'. rewrite dom_delete. intros [? _]%elem_of_difference. by apply Hids. }
  unfold manager_join. destruct (owner s) eqn:Ho.
  - destruct (Hacc eq_refl) as [Ha Hd].
    assert (usize_sub1 (active_tasks s) = (active_tasks s - 1)%Z) as Hsub.
    { apply usize_sub1_pos. pose proof (inv_bound s Hi). lia. }
    split; cbn [with_manager owner closing commands command_receiver handle manager next_id abort_handles manager_abort active_tasks].
    + congruence.
    + intros Hc. destruct (inv_open s Hi Hc) as (? & ? & ? & [?|(? & m' & Hm' & Hsd')]); [congruence|].
      split_and!; try done. right. split; [done|]. eexists. split; [reflexivity|]. cbn [shutting_down]. congruence.
    + intros m' [= <-]. rewrite Hun. cbn [tasks shutting_down]. split_and!; [done|set_solver| |done].
      intros _. unfold accounted, queued. rewrite Hun. cbn [with_manager commands active_tasks abort_handles tasks].
      rewrite Hsub, Hd, Hun0, dom_delete_L. unfold queued in Ha. split; [lia|set_solver].
    + apply Hi.
    + rewrite Hsub. pose proof (inv_bound s Hi). lia.
  - split; cbn [with_manager owner closing commands command_receiver handle manager next_id abort_handles manager_abort active_tasks].
    + congruence.
    + intros Hc. destruct (inv_open s Hi Hc) as (? & _). congruence.
    + intros m' [= <-]. rewrite Hun. cbn [tasks shutting_down]. split_and!; [done|set_solver|rewrite Ho; done|done].
    + apply Hi.
    + apply Hi.
Qed.

Lemma manager_register_inv s m id :
  inv s -> manager s = Some m -> registering m = Some id -> inv (manager_register s m id).
Proof.
  intros Hi Hm Hreg. destruct (inv_manager s Hi m Hm) as ([Hids Hsub] & Hacc & Hsd). unfold unregistered in Hsub. rewrite Hreg in Hsub.
  split; cbn [manager_register with_manager owner closing commands command_receiver handle manager next_id abort_handles manager_abort active_tasks].
  - intros Hr. destruct (inv_idle s Hi Hr) as (? & _). congruence.
  - intros Hc. destruct (inv_open s Hi Hc) as (? & ? & ? & [Hr|(? & m' & Hm' & Hsd')]).
    { destruct (inv_idle s Hi Hr) as (? & _). congruence. }
    split_and!; try done. right. split; [done|]. eexists. split; [reflexivity|]. cbn. congruence.
  - intros m' [= <-]. cbn [tasks shutting_down unregistered registering]. split_and!; [done|set_solver| |done].
    intros Ho. destruct (Hacc Ho) as [Ha Hd]. split; [done|]. cbn [unregistered registering abort_handles with_manager tasks manager_register].
    rewrite Hd. unfold unregistered. rewrite Hreg. rewrite difference_empty_L. symmetry. by apply union_difference_L.
  - apply Hi.
  - apply Hi.
Qed.

(** The channel closes under a manager whose owner is gone. *)
Lemma manager_closed_inv s m s' :
  inv s -> manager s = Some m -> registering m = None -> commands s = [] ->
  (if owner s then None
   else Some (with_aborts (with_manager s [] {| tasks := tasks m; shutting_down := true; registering := registering m |}
                             (next_id s) (abort_handles s)) (dom (tasks m)))) = Some s' -> inv s'.
Proof.
  intros Hi Hm Hreg Hcs E. destruct (owner s) eqn:Ho; [done|]. injection E as <-. destruct (inv_manager s Hi m Hm) as ([Hids _] & _).
  assert (closing s = true) as Hc by (destruct (closing s) eqn:Hc; [done|]; destruct (inv_open s Hi Hc); congruence).
  split; cbn [with_aborts with_manager owner closing commands command_receiver handle manager next_id abort_handles manager_abort active_tasks].
  - intros Hr. destruct (inv_idle s Hi Hr) as (? & _). congruence.
  - congruence.
  - intros m' [= <-]. unfold unregistered. cbn [tasks shutting_down registering]. rewrite Hreg, Ho. split_and!; [done|set_solver|done|done].
  - by exists [], 0.
  - apply Hi.
Qed.

Lemma manager_recv_inv s m s' :
  inv s -> manager s = Some m -> registering m = None -> shutting_down m = false -> manager_recv s m = Some s' -> inv s'.
Proof.
  intros Hi Hm Hreg Hsd Hrecv. destruct (inv_manager s Hi m Hm) as ([Hids _] & Hacc & _).
  assert (unregistered m = ∅) as Hun by (unfold unregistered; by rewrite Hreg).
  assert (command_receiver s = false) as Hr.
  { destruct (command_receiver s) eqn:E; [|done]. destruct (inv_idle s Hi E) as (? & _). congruence. }
  destruct (inv_fifo s Hi) as (ts & k & Hf). unfold manager_recv in Hrecv.
  destruct (commands s) as [|[t|] cs] eqn:Ecs; [by eapply manager_closed_inv| |].
  - destruct (owner s) eqn:Ho.
    2:{ injection Hrecv as <-. apply manager_gone_inv; [done|].
        destruct (closing s) eqn:Hc; [done|]. destruct (inv_open s Hi Hc). congruence. }
    injection Hrecv as <-. destruct ts as [|t0 ts]; [by destruct k|]. injection Hf as -> Hf.
    destruct (Hacc eq_refl) as [Ha Hd]. unfold queued in Ha. rewrite Ecs, Hf in Ha.
    change (Spawn t0 :: ?l) with ((Spawn <$> (t0 :: ts)) ++ replicate k Shutdown) in Ha. rewrite spawns_fifo in Ha.
    assert (tasks m !! next_id s = None) as Hfresh.
    { apply not_elem_of_dom. intros Hin%Hids. lia. }
    split; cbn [with_manager owner closing commands command_receiver handle manager next_id abort_handles manager_abort active_tasks].
    + congruence.
    + intros Hc. destruct (inv_open s Hi Hc) as (? & Hns & ? & [?|(? & m' & Hm' & Hsd')]); [congruence|].
      rewrite Ecs in Hns. apply not_elem_of_cons in Hns as [_ Hns]. split_and!; try done.
      right. split; [done|]. eexists. split; [reflexivity|]. done.
    + intros m' [= <-]. cbn [tasks shutting_down unregistered registering]. split_and!; [| | |congruence].
      * intros id. rewrite dom_insert, elem_of_union, elem_of_singleton. intros [->|Hin%Hids]; lia.
      * set_solver.
      * intros _. unfold accounted, queued. cbn [with_manager commands active_tasks abort_handles tasks unregistered registering].
        rewrite Hf, spawns_fifo, dom_insert_L, Hd, Hun, map_size_insert_None by done. split; [simpl in Ha; lia|].
        apply not_elem_of_dom in Hfresh. set_solver.
    + eauto.
    + apply Hi.
  - injection Hrecv as <-. destruct ts as [|t0 ts]; [|done]. destruct k as [|k]; [done|]. injection Hf as Hf.
    assert (closing s = true) as Hc.
    { destruct (closing s) eqn:Hc; [done|]. destruct (inv_open s Hi Hc) as (_ & Hns & _).
      rewrite Ecs in Hns. exfalso. apply Hns. by left. }
    assert (spawns cs = 0) as Hq by (rewrite Hf; apply (spawns_fifo [] k)).
    split; cbn [with_manager owner closing commands command_receiver handle manager next_id abort_handles manager_abort active_tasks].
    + congruence.
    + congruence.
    + intros m' [= <-]. unfold unregistered. cbn [tasks shutting_down registering]. rewrite Hreg. split_and!; [done|set_solver| |].
      * intros Ho. destruct (Hacc Ho) as [Ha Hd]. unfold accounted, queued, unregistered in *. rewrite Hreg in Hd.
        cbn [with_manager commands active_tasks abort_handles tasks registering]. rewrite Ecs in Ha. split; [|done].
        rewrite Ha, Hq. f_equal. f_equal. rewrite Hf. apply (spawns_fifo [] (S k)).
      * intros _. unfold queued. done.
    + exists [], k. done.
    + apply Hi.
Qed.

Lemma supervised_inv s : supervised s -> inv s.
Proof.
  induction 1 as [|s s' _ Hi Hstep].
  - split; cbn; try done.
    + intros _. split_and!; try done; [by intros ?%not_elem_of_nil|by left].
    + by exists [], 0.
  - destruct Hstep as [s t|s Ho|s Ho|s Ho|s Ho|s m Hm Hreg Hsd Ht|s m id o Hm Hreg Hid|s m s' Hm Hreg Hsd Hr|s m id Hm Hreg|s m Hm Hreg Ha].
    + by apply spawn_inner_spec.
    + by apply begin_shutdown_inv.
    + by apply cancel_now_inv.
    + by apply abort_active_inv.
    + by apply cancel_now_inv.
    + apply manager_gone_inv; [done|]. by destruct (inv_manager s Hi m Hm) as (_ & _ & [? _]%(fun f => f Hsd)).
    + by eapply manager_join_inv.
    + by eapply manager_recv_inv.
    + by eapply manager_register_inv.
    + apply manager_gone_inv; [done|]. destruct (closing s) eqn:Hc; [done|].
      destruct (inv_open s Hi Hc) as (_ & _ & ? & _). congruence.
Qed.





(** ** Shutdown *)

(** Rounds of the manager's loop. *)
Fixpoint rounds (n : nat) (ended : nat -> option Outcome) (s : Supervisor) : option Supervisor :=
  match n with
  | O => Some s
  | S n => s' ← manager_round ended s; rounds n ended s'
  end.

(** A manager with a marker ahead of it or behind it, counting exactly. *)
Definition draining (s : Supervisor) (m : Manager) : Prop :=
  inv s /\ owner s = true /\ manager s = Some m /\ (shutting_down m = true \/ Shutdown ∈ commands s).

(** Rounds left: three for each queued task, one for each running one, one for
    the marker and one for an abort handle. *)
Definition work (s : Supervisor) (m : Manager) : nat :=
  3 * queued s + size (tasks m) + (if shutting_down m then 0 else 1) + (if registering m then 1 else 0).

Lemma head_ended (ended : nat -> option Outcome) (d : gset nat) :
  (forall id, is_Some (ended id)) -> d <> ∅ ->
  exists id, head (filter (fun id => is_Some (ended id)) (elements d)) = Some id /\ id ∈ d.
Proof.
  intros He Hd. destruct (elements d) as [|id l] eqn:E.
  - exfalso. by apply elements_empty_inv, leibniz_equiv in E.
  - exists id. rewrite filter_cons_True by done. split; [done|]. apply elem_of_elements. rewrite E. by left.
Qed.

Lemma join_keeps s m id o :
  manager (manager_join s m id o) = Some {| tasks := delete id (tasks m); shutting_down := shutting_down m; registering := registering m |} /\
  owner (manager_join s m id o) = owner s /\ commands (manager_join s m id o) = commands s.
Proof. unfold manager_join. destruct (owner s) eqn:Ho; cbn; by rewrite ?Ho. Qed.

Lemma draining_round s m ended :
  draining s m -> (forall id, is_Some (ended id)) ->
  exists s', manager_round ended s = Some s' /\
    ((manager s' = None /\ commands s' = [] /\ active_tasks s' = 0%Z) \/
     exists m', draining s' m' /\ work s' m' < work s m).
Proof.
  intros (Hi & Ho & Hm & Hmark) He. destruct (inv_manager s Hi m Hm) as (Hids & Hacc & Hsd).
  destruct (Hacc Ho) as [Ha Hd]. unfold manager_round. rewrite Hm. cbn [mbind option_bind].
  destruct (registering m) as [i|] eqn:Hreg.
  { eexists. split; [done|]. right. eexists. split; [split; [by apply manager_register_inv|]; split; [done|]; split; [reflexivity|done]|].
    unfold work, queued. cbn [manager_register with_manager commands tasks shutting_down registering]. rewrite Hreg. lia. }
  destruct (decide (tasks m = ∅)) as [Ht|Ht].
  - rewrite bool_decide_true by done. destruct (shutting_down m) eqn:Es; cbn [andb].
    { eexists. split; [done|]. left. split_and!; [done|done|]. cbn [manager_gone active_tasks].
      rewrite Ha, (proj2 (Hsd eq_refl)), Ht, map_size_empty. done. }
    rewrite Ht, dom_empty_L, elements_empty. cbn [filter list_filter head].
    destruct Hmark as [?|Hmark]; [done|].
    destruct (commands s) as [|c cs] eqn:Ecs; [by apply not_elem_of_nil in Hmark|].
    assert (is_Some (manager_recv s m)) as [s' Hr] by (unfold manager_recv; rewrite Ecs; destruct c; eauto).
    rewrite Hr. exists s'. split; [done|]. right.
    pose proof (manager_recv_inv s m s' Hi Hm Hreg Es Hr) as Hi'. unfold manager_recv in Hr. rewrite Ecs, Ho in Hr.
    destruct c as [t|]; injection Hr as <-; eexists; (split; [split; [exact Hi'|]; split; [done|]; split; [reflexivity|]|]).
    + right. cbn [with_manager commands]. apply elem_of_cons in Hmark as [?|?]; done.
    + unfold work, queued. cbn [with_manager commands tasks shutting_down registering]. rewrite Ecs, Es, Ht, Hreg.
      rewrite map_size_insert_None, map_size_empty by done. unfold spawns. rewrite filter_cons_True by done. simpl. lia.
    + by left.
    + unfold work, queued. cbn [with_manager commands tasks shutting_down registering]. rewrite Ecs, Es.
      unfold spawns. rewrite filter_cons_False by (intros H; by apply H). lia.
  - rewrite bool_decide_false by done. rewrite andb_false_r.
    destruct (head_ended ended (dom (tasks m)) He) as (id & Hh & Hid); [by intros ?%dom_empty_inv_L|].
    rewrite Hh. destruct (He id) as [o Ho']. rewrite Ho'. cbn [mbind option_bind]. eexists. split; [done|]. right.
    destruct (join_keeps s m id o) as (Hm' & Hown & Hcs). apply elem_of_dom in Hid.
    exists {| tasks := delete id (tasks m); shutting_down := shutting_down m; registering := registering m |}. split.
    + split; [by apply manager_join_inv|]. rewrite Hm', Hown, Hcs. done.
    + unfold work, queued. rewrite Hcs. cbn [tasks shutting_down registering]. destruct Hid as [t Hid].
      rewrite map_size_delete_Some by eauto.
      assert (size (tasks m) <> 0); [|destruct (shutting_down m); lia].
      intros H0%map_size_empty_inv. done.
Qed.

Lemma draining_ends n s m ended :
  draining s m -> (forall id, is_Some (ended id)) -> work s m <= n ->
  exists k s', k <= S n /\ rounds k ended s = Some s' /\ manager s' = None /\ commands s' = [] /\ active_tasks s' = 0%Z.
Proof.
  revert s m. induction n as [|n IH]; intros s m Hd He Hn;
    destruct (draining_round s m ended Hd He) as (s1 & H1 & [Hend|(m1 & Hd1 & Hlt)]).
  - exists 1, s1. cbn [rounds]. rewrite H1. cbn. split; [lia|done].
  - lia.
  - exists 1, s1. cbn [rounds]. rewrite H1. cbn. split; [lia|done].
  - destruct (IH s1 m1 Hd1 He) as (k & s' & Hk & Hr & Hend); [lia|].
    exists (S k), s'. split; [lia|]. cbn [rounds]. rewrite H1. cbn [mbind option_bind]. done.
Qed.

(** Shutdown is never starved and drains.  From any reachable state with the
    gate open, beginning a shutdown succeeds, also with every slot of the
    registry taken: the marker always has its place in the queue.  From then on
    no registration is accepted, and if the tasks end once cancelled, the manager
    leaves its loop after boundedly many rounds, having joined every task that
    was queued or running. *)
Theorem shutdown_drains s :
  supervised s -> closing s = false ->
  exists joins s1, begin_shutdown s = (Ok joins, s1) /\ cancel s1 = true /\
    (forall t, (spawn_inner s1 t).1 = Err Closed) /\
    forall m ended, manager s1 = Some m -> (forall id, is_Some (ended id)) ->
      joins = true /\
      exists k s2, k <= 3 * queued s + size (tasks m) + 3 /\ rounds k ended s1 = Some s2 /\
        manager s2 = None /\ commands s2 = [] /\ active_tasks s2 = 0%Z.
Proof.
  intros Hi%supervised_inv Hc. destruct (inv_open s Hi Hc) as (Ho & Hns & _ & Hr).
  assert (try_send (close s) Shutdown = Ok (commands s ++ [Shutdown])) as Hsend.
  { exact (try_send_open s Shutdown Hi Hc (fun _ _ => proj2 (inv_bound s Hi))). }
  pose proof (begin_shutdown_inv s Hi) as Hi1. unfold begin_shutdown in *. rewrite Hsend in *. cbn [snd] in Hi1.
  eexists _, _. split; [reflexivity|]. split; [done|]. split.
  { intros t. rewrite (proj2 (spawn_inner_spec _ t Hi1)). cbn. by rewrite andb_false_r. }
  intros m ended Hm He. cbn in Hm.
  destruct Hr as [Hrec|(Hh & m0 & Hm0 & Hsd)]; [by destruct (inv_idle s Hi Hrec) as (? & _); congruence|].
  assert (m0 = m) as -> by congruence. split; [done|].
  match type of Hi1 with inv ?s1 => destruct (draining_ends (work s1 m) s1 m ended) as (k & s2 & Hk & Hrest) end;
    [|done|done|].
  - split; [done|]. split; [done|]. split; [done|]. right. cbn. rewrite elem_of_app. right. by left.
  - exists k, s2. split; [|done]. unfold work, queued in Hk. cbn [with_handle with_commands close commands] in Hk.
    rewrite spawns_snoc_shutdown, Hsd in Hk. unfold queued. destruct (registering m); lia.
Qed.

(** ** Witnesses *)

Definition sample_task : Task := {| task_name := str "http-connection"; cancel_on_shutdown := true |}.
Definition sample_supervisor : Supervisor := (spawn_inner (spawn_inner supervisor_new sample_task).2 sample_task).2.

Lemma sample_supervised : supervised sample_supervisor.
Proof.
  eapply supervised_step; [|apply step_spawn]. eapply supervised_step; [|apply step_spawn]. apply supervised_new.
Qed.




Lemma shutdown_drains_witness : exists k s1 s2,
  begin_shutdown sample_supervisor = (Ok true, s1) /\ k <= 9 /\
  rounds k (fun _ => Some Cancelled) s1 = Some s2 /\ manager s2 = None /\ active_tasks s2 = 0%Z.
Proof.
  destruct (shutdown_drains sample_supervisor sample_supervised eq_refl) as (joins & s1 & Hb & _ & _ & Hd).
  destruct (Hd manager_start (fun _ => Some Cancelled)) as (-> & k & s2 & Hk & Hr & Hm & _ & Ha).
  - apply (f_equal snd) in Hb. cbn in Hb. by subst s1.
  - intros id. by exists Cancelled.
  - exists k, s1, s2. split; [exact Hb|]. split; [|exact (conj Hr (conj Hm Ha))].
    vm_compute in Hk. exact Hk.
Defined.
