(* ===== verification/ZstdCodec.v ===== *)
(** * The NAR wire codec: peer-fabric/src/codec.rs

    Codec negotiation and the bounded streaming coders around zstd.  libzstd is
    the classes [ZstdDecoder] and [ZstdEncoder]; what its interface documents is
    [ZstdDecoderLaws] and [ZstdLaws].  The loops of the source run with fuel;
    running out is [None], and is proved not to happen. *)

From Stdlib Require Import Strings.Byte ZArith Lia.
From stdpp Require Import base sets gmap numbers strings list.
From S2P Require Import Prelude.

Definition CODEC_RAW : byte := x00.
Definition CODEC_ZSTD : byte := x01.
Definition ACCEPT_RAW : Z := Z.shiftl 1 0.
Definition ACCEPT_ZSTD : Z := Z.shiftl 1 1.
Definition ACCEPT_RAW_AND_ZSTD : Z := Z.lor ACCEPT_RAW ACCEPT_ZSTD.
Definition ZSTD_WINDOW_LOG_MAX : Z := 27.
Definition DEFAULT_ZSTD_LEVEL : Z := 3.

Inductive WireCodec := RawCodec | ZstdWire.
#[export] Instance WireCodec_eq_dec : EqDecision WireCodec.
Proof. solve_decision. Defined.

Definition codec_wire (c : WireCodec) : byte := match c with RawCodec => CODEC_RAW | ZstdWire => CODEC_ZSTD end.

Definition codec_from_wire (b : byte) : option WireCodec :=
  if decide (b = CODEC_RAW) then Some RawCodec else if decide (b = CODEC_ZSTD) then Some ZstdWire else None.

Inductive CodecChoiceReason :=
| ZstdNegotiated
| ClientDidNotOfferZstd
| ServerZstdDisabled
| BelowCompressThreshold.

Record ServeCodecPolicy := { zstd_enabled : bool; level : Z; min_compress_bytes : Z }.
Definition ServeCodecPolicy_default : ServeCodecPolicy :=
  {| zstd_enabled := true; level := DEFAULT_ZSTD_LEVEL; min_compress_bytes := 1024 |}.

Record NoCommonCodec := { accept_mask : Z }.

Definition negotiate_serve_codec (accept : Z) (policy : ServeCodecPolicy) (raw_len : Z) :
    result NoCommonCodec (WireCodec * CodecChoiceReason) :=
  let offers_raw := negb (Z.land accept ACCEPT_RAW =? 0)%Z in
  let offers_zstd := negb (Z.land accept ACCEPT_ZSTD =? 0)%Z in
  if offers_zstd && zstd_enabled policy && (min_compress_bytes policy <=? raw_len)%Z then Ok (ZstdWire, ZstdNegotiated)
  else if offers_raw then
    let reason :=
      if negb (zstd_enabled policy) then ServerZstdDisabled
      else if negb offers_zstd then ClientDidNotOfferZstd
      else BelowCompressThreshold in
    Ok (RawCodec, reason)
  else Err {| accept_mask := accept |}.

(** ** libzstd *)

(** One `run_on_buffers`: what it read, what it wrote, and the hint that is zero
    at a frame boundary. *)
Record Status := { bytes_read : nat; written : list byte; remaining : Z }.

Class ZstdDecoder (D : Type) := {
  (** `Decoder::new` and `set_parameter(WindowLogMax)` *)
  decoder_new : Z -> result (list byte) D;
  (** `run_on_buffers` with an output buffer of the given size *)
  decoder_run : D -> list byte -> Z -> result (list byte) (Status * D)
}.

Class ZstdEncoder (E : Type) := {
  (** `Encoder::new` and `set_pledged_src_size` *)
  encoder_new : Z -> option Z -> result (list byte) E;
  encoder_run : E -> list byte -> Z -> result (list byte) (Status * E);
  (** `finish`: what it wrote and how much is still to be flushed *)
  encoder_finish : E -> Z -> result (list byte) (list byte * Z * E)
}.

(** ** The encoder *)

Definition ENCODE_BLOCK : Z := 128 * 1024.

Section encoder.
Context {E : Type} `{!ZstdEncoder E}.

(** StreamingZstdEncoder::compress_block *)
Fixpoint compress_block (fuel : nat) (e : E) (input out : list byte) : option (result (list byte) (list byte * E)) :=
  match input with
  | [] => Some (Ok (out, e))
  | _ :: _ =>
      match fuel with
      | O => None
      | S f =>
          match encoder_run e input ENCODE_BLOCK with
          | Err why => Some (Err why)
          | Ok (st, e') =>
              if (bytes_read st =? 0) && (length (written st) =? 0)
              then Some (Err (str "zstd streaming encoder made no progress on pending input"))
              else compress_block f e' (drop (bytes_read st) input) (out ++ written st)
          end
      end
  end.

(** StreamingZstdEncoder::finish *)
Fixpoint encoder_finish_loop (fuel : nat) (e : E) (out : list byte) : option (result (list byte) (list byte)) :=
  match fuel with
  | O => None
  | S f =>
      match encoder_finish e ENCODE_BLOCK with
      | Err why => Some (Err why)
      | Ok (w, pending, e') =>
          let out := out ++ w in
          if (pending =? 0)%Z then Some (Ok out) else encoder_finish_loop f e' out
      end
  end.

End encoder.

(** ** The bounded decoder *)

Inductive DecodeError :=
| OutputTooLarge (cap produced : Z)
| InputTooLarge (cap consumed : Z)
| ZstdFailed (why : list byte)
| Truncated (consumed : Z)
| TrailingInput (trailing : Z)
| EmptyNar.

Definition DECODE_BLOCK : Z := 128 * 1024.

Definition zstd_compress_bound (src_len : Z) : Z :=
  u64_saturating_add (u64_saturating_add (u64_saturating_add src_len (src_len / 128)) 512) 64.

Section decoder.
Context {D : Type} `{!ZstdDecoder D}.

Record BoundedZstdDecoder := {
  decoder : option D;
  buf : list byte;
  output_cap : Z;
  input_cap : Z;
  consumed : Z;
  started : bool;
  frame_complete : bool
}.

Definition with_window_log_max (output_cap window_log_max : Z) : result DecodeError BoundedZstdDecoder :=
  match decoder_new window_log_max with
  | Err why => Err (ZstdFailed why)
  | Ok d => Ok {| decoder := Some d; buf := []; output_cap := output_cap; input_cap := zstd_compress_bound output_cap;
                  consumed := 0; started := false; frame_complete := false |}
  end.

Definition BoundedZstdDecoder_new (output_cap : Z) : result DecodeError BoundedZstdDecoder :=
  with_window_log_max output_cap ZSTD_WINDOW_LOG_MAX.

Definition append_capped (buf : list byte) (cap : Z) (data : list byte) : result DecodeError (list byte) :=
  if bool_decide (data = []) then Ok buf
  else
    let would_total := (Z.of_nat (length buf) + Z.of_nat (length data))%Z in
    if (cap <? would_total)%Z then Err (OutputTooLarge cap would_total) else Ok (buf ++ data).

(** The state a round leaves: the decoder is taken out while the loop runs. *)
Definition after_run (b : BoundedZstdDecoder) (d : option D) (bf : list byte) (complete : bool) : BoundedZstdDecoder :=
  {| decoder := d; buf := bf; output_cap := output_cap b; input_cap := input_cap b; consumed := consumed b;
     started := true; frame_complete := complete |}.

(** The loop of push over what is left of the chunk. *)
Fixpoint push_loop (fuel : nat) (b : BoundedZstdDecoder) (d : D) (input : list byte) :
    option (result DecodeError unit * BoundedZstdDecoder) :=
  match fuel with
  | O => None
  | S f =>
      if frame_complete b && negb (bool_decide (input = [])) then Some (Err (TrailingInput (Z.of_nat (length input))), b)
      else match decoder_run d input DECODE_BLOCK with
      | Err why => Some (Err (ZstdFailed why), b)
      | Ok (st, d') =>
          let rest := drop (bytes_read st) input in
          match append_capped (buf b) (output_cap b) (written st) with
          | Err e => Some (Err e, after_run b None (buf b) (frame_complete b))
          | Ok bf =>
              let complete := (remaining st =? 0)%Z in
              let more_input := negb (bool_decide (rest = [])) in
              let output_full := (Z.of_nat (length (written st)) =? DECODE_BLOCK)%Z in
              if negb more_input && (negb output_full || complete) then Some (Ok tt, after_run b (Some d') bf complete)
              else if (bytes_read st =? 0) && (length (written st) =? 0)
              then Some (Err (ZstdFailed (str "zstd decoder made no progress on pending input")), after_run b None bf complete)
              else push_loop f (after_run b None bf complete) d' rest
          end
      end
  end.

(** Every round reads or writes a byte, and at most the cap is written. *)
Definition push_fuel (b : BoundedZstdDecoder) (compressed : list byte) : nat :=
  S (length compressed + Z.to_nat (output_cap b)).

Definition with_consumed (b : BoundedZstdDecoder) (d : option D) (n : Z) : BoundedZstdDecoder :=
  {| decoder := d; buf := buf b; output_cap := output_cap b; input_cap := input_cap b; consumed := n;
     started := started b; frame_complete := frame_complete b |}.

(** BoundedZstdDecoder::push *)
Definition push (b : BoundedZstdDecoder) (compressed : list byte) :
    option (result DecodeError unit * BoundedZstdDecoder) :=
  let n := u64_saturating_add (consumed b) (Z.of_nat (length compressed)) in
  if (input_cap b <? n)%Z then Some (Err (InputTooLarge (input_cap b) n), with_consumed b None n)
  else match decoder b with
  | None => Some (Err (ZstdFailed (str "decoder already failed/finished")), with_consumed b None n)
  | Some d => push_loop (push_fuel b compressed) (with_consumed b None n) d compressed
  end.

(** BoundedZstdDecoder::finish *)
Definition decoder_finish (b : BoundedZstdDecoder) : result DecodeError (list byte) :=
  match decoder b with
  | None => Err (ZstdFailed (str "zstd decode already failed"))
  | Some _ =>
      if negb (started b) || negb (frame_complete b) then Err (Truncated (consumed b))
      else if bool_decide (buf b = []) then Err EmptyNar
      else Ok (buf b)
  end.

End decoder.
Arguments BoundedZstdDecoder : clear implicits.

(** ** Negotiation *)

(** The codec served is always one the fetcher offered, and zstd is served
    exactly when offered, enabled and worth it. *)
Lemma negotiate_spec accept policy raw_len :
  match negotiate_serve_codec accept policy raw_len with
  | Ok (c, _) => Z.land accept (match c with RawCodec => ACCEPT_RAW | ZstdWire => ACCEPT_ZSTD end) <> 0%Z /\
      (c = ZstdWire <-> Z.land accept ACCEPT_ZSTD <> 0%Z /\ zstd_enabled policy = true /\ (min_compress_bytes policy <= raw_len)%Z)
  | Err e => accept_mask e = accept /\ Z.land accept ACCEPT_RAW = 0%Z
  end.
Proof.
  unfold negotiate_serve_codec.
  destruct (Z.eqb_spec (Z.land accept ACCEPT_ZSTD) 0) as [Hz|Hz], (zstd_enabled policy),
    (Z.leb_spec (min_compress_bytes policy) raw_len), (Z.eqb_spec (Z.land accept ACCEPT_RAW) 0) as [Hr|Hr];
    cbn; naive_solver lia.
Qed.

Lemma codec_wire_roundtrip c : codec_from_wire (codec_wire c) = Some c.
Proof. by destruct c. Qed.

(** ** The decoder is bounded and always answers *)

(** The buffer contract of `run_on_buffers`. *)
Class ZstdDecoderLaws (D : Type) `{!ZstdDecoder D} := {
  run_reads d input n st d' : decoder_run d input n = Ok (st, d') -> bytes_read st <= length input;
  run_writes d input n st d' : (0 <= n)%Z -> decoder_run d input n = Ok (st, d') -> (Z.of_nat (length (written st)) <= n)%Z
}.

Section bounded.
Context {D : Type} `{!ZstdDecoder D} `{!ZstdDecoderLaws D}.

Definition buf_ok (b : BoundedZstdDecoder D) : Prop := (Z.of_nat (length (buf b)) <= output_cap b)%Z.

Lemma append_capped_ok bf cap data bf' :
  append_capped bf cap data = Ok bf' -> bf' = bf ++ data /\ (data = [] \/ (Z.of_nat (length bf') <= cap)%Z).
Proof.
  unfold append_capped. case_bool_decide as Hd; [intros [= <-]; subst; by rewrite app_nil_r; auto|].
  destruct (Z.ltb_spec cap (Z.of_nat (length bf) + Z.of_nat (length data))); [done|]. intros [= <-].
  split; [done|right]. rewrite length_app. lia.
Qed.

(** What a push leaves whatever the input: the bounds, and a decoder only
    after success. *)
Record pushed (b : BoundedZstdDecoder D) (r : result DecodeError unit) (b' : BoundedZstdDecoder D) : Prop := {
  pushed_buf : buf_ok b';
  pushed_caps : output_cap b' = output_cap b /\ input_cap b' = input_cap b;
  pushed_alive : is_Some (decoder b') <-> r = Ok tt
}.

Lemma push_loop_total fuel b d input :
  buf_ok b -> decoder b = None ->
  length input + (Z.to_nat (output_cap b) - length (buf b)) < fuel ->
  exists r b', push_loop fuel b d input = Some (r, b') /\ pushed b r b' /\ consumed b' = consumed b.
Proof.
  revert b d input. induction fuel as [|f IH]; intros b d input Hb Hd Hf; [lia|]. cbn [push_loop].
  assert (forall e, pushed b (Err e) b) as Herr.
  { intros e. split; [done|done|]. rewrite Hd. split; [by intros [? ?]|done]. }
  destruct (frame_complete b && _); [by eauto|].
  destruct (decoder_run d input DECODE_BLOCK) as [[st d']|why] eqn:Hrun; [|by eauto].
  pose proof (run_reads _ _ _ _ _ Hrun) as Hr. pose proof (run_writes d input DECODE_BLOCK st d' ltac:(done) Hrun) as Hw.
  destruct (append_capped (buf b) (output_cap b) (written st)) as [bf|e] eqn:Ha.
  2:{ eexists _, _. split; [reflexivity|]. split; [|done]. split; [done|done|]. cbn. split; [by intros [? ?]|done]. }
  destruct (append_capped_ok _ _ _ _ Ha) as [-> Hlen].
  assert (buf_ok (after_run b (Some d') (buf b ++ written st) (remaining st =? 0)%Z)) as Hb'.
  { unfold buf_ok in *. cbn. destruct Hlen as [->|?]; [by rewrite app_nil_r|done]. }
  cbv zeta. destruct (_ && (_ || _)).
  { eexists _, _. split; [reflexivity|]. split; [|done]. split; [done|done|]. cbn. split; eauto. }
  destruct ((bytes_read st =? 0) && (length (written st) =? 0)) eqn:Hp.
  { eexists _, _. split; [reflexivity|]. split; [|done]. split; [done|done|]. cbn. split; [by intros [? ?]|done]. }
  apply andb_false_iff in Hp. rewrite !Nat.eqb_neq in Hp.
  destruct (IH (after_run b None (buf b ++ written st) (remaining st =? 0)%Z) d' (drop (bytes_read st) input))
    as (r & b' & Hl & [H1 H2 H3] & Hc); [done|done| |].
  - unfold buf_ok in Hb'. cbn in *. rewrite length_drop, length_app in *. lia.
  - exists r, b'. split; [done|]. split; [|done]. by split.
Qed.

Lemma push_total b chunk :
  buf_ok b -> (0 <= consumed b <= u64_max)%Z ->
  exists r b', push b chunk = Some (r, b') /\ pushed b r b' /\
    consumed b' = u64_saturating_add (consumed b) (Z.of_nat (length chunk)) /\
    (r = Ok tt -> is_Some (decoder b) /\ (consumed b' <= input_cap b)%Z).
Proof.
  intros Hb Hc. unfold push. set (n := u64_saturating_add _ _).
  assert (forall e, pushed b (Err e) (with_consumed b None n)) as Herr.
  { intros e. split; [done|done|]. cbn. split; [by intros [? ?]|done]. }
  destruct (Z.ltb_spec (input_cap b) n).
  { eexists _, _. split; [reflexivity|]. split; [done|]. by split. }
  destruct (decoder b) as [d|].
  - destruct (push_loop_total (push_fuel b chunk) (with_consumed b None n) d chunk) as (r & b' & -> & [H1 H2 H3] & H4);
      [done|done|unfold push_fuel; cbn; lia|].
    cbn in H4. exists r, b'. split; [done|]. split; [by split|]. split; [done|]. intros _. split; [eauto|lia].
  - eexists _, _. split; [reflexivity|]. split; [done|]. by split.
Qed.

(** A transfer: every chunk as it arrives. *)
Fixpoint feed (b : BoundedZstdDecoder D) (chunks : list (list byte)) :
    option (list (result DecodeError unit) * BoundedZstdDecoder D) :=
  match chunks with
  | [] => Some ([], b)
  | c :: cs => r ← push b c; rs ← feed r.2 cs; Some (r.1 :: rs.1, rs.2)
  end.

Lemma feed_total b chunks :
  buf_ok b -> (0 <= consumed b <= u64_max)%Z ->
  exists rs b', feed b chunks = Some (rs, b') /\ buf_ok b' /\ output_cap b' = output_cap b /\
    (is_Some (decoder b') -> is_Some (decoder b) /\ Forall (eq (Ok tt)) rs /\
      ((consumed b <= input_cap b)%Z ->
       u64_saturating_add (consumed b) (Z.of_nat (length (concat chunks))) <= input_cap b)%Z).
Proof.
  revert b. induction chunks as [|c cs IH]; intros b Hb Hc; cbn [feed].
  { eexists _, _. split; [reflexivity|]. split_and!; [done|done|]. intros Hs. split_and!; [done|done|]. cbn.
    unfold u64_saturating_add. lia. }
  destruct (push_total b c Hb Hc) as (r & b1 & Hp & [H1 [H2 H2'] H3] & H4 & H5). rewrite Hp. cbn [mbind option_bind fst snd].
  destruct (IH b1 H1) as (rs & b' & Hf & Hb' & Hcap & Hok); [rewrite H4; unfold u64_saturating_add; lia|].
  rewrite Hf. cbn. eexists _, _. split; [reflexivity|]. split_and!; [done|congruence|].
  intros Hs. destruct (Hok Hs) as (Hd1 & Hrs & Hin). apply H3 in Hd1. destruct (H5 Hd1) as [Hd Hle].
  split_and!; [done|by constructor|]. intros _. rewrite H4, H2' in *. specialize (Hin Hle).
  rewrite length_app, Nat2Z.inj_add. unfold u64_saturating_add in *. lia.
Qed.

(** C34: decoding a peer's stream is bounded and always ends.  Whatever libzstd
    answers within its buffer contract and however the stream is cut, every push
    returns; no more than the cap is ever held; and bytes are handed over only if
    every push succeeded, the last step was at a frame boundary, at least one byte
    and at most the cap came out, and the input stayed within zstd's bound for
    that size. *)
Theorem decoder_bounded_total cap window b0 chunks :
  (0 <= cap)%Z -> with_window_log_max cap window = Ok b0 ->
  exists rs b, feed b0 chunks = Some (rs, b) /\ (Z.of_nat (length (buf b)) <= cap)%Z /\
    forall raw, decoder_finish b = Ok raw ->
      Forall (eq (Ok tt)) rs /\ frame_complete b = true /\ raw = buf b /\ raw <> [] /\
      (u64_saturating_add 0 (Z.of_nat (length (concat chunks))) <= zstd_compress_bound cap)%Z.
Proof.
  intros Hcap Hnew. unfold with_window_log_max in Hnew. destruct (decoder_new window) as [d|]; [|done].
  injection Hnew as <-. match goal with |- context [feed ?b0 _] => destruct (feed_total b0 chunks) as (rs & b & Hf & Hb & Hc & Hok) end;
    [done|cbn; unfold u64_max; lia|].
  exists rs, b. split; [done|]. unfold buf_ok in Hb. rewrite Hc in Hb. split; [done|]. intros raw Hfin.
  unfold decoder_finish in Hfin. destruct (decoder b); [|done].
  destruct (started b); [|done]. destruct (frame_complete b); [|done]. cbn in Hfin.
  case_bool_decide; [done|]. injection Hfin as <-. destruct Hok as (_ & Hrs & Hin); [eauto|].
  split_and!; try done. apply Hin. cbn. unfold zstd_compress_bound, u64_saturating_add, u64_max.
  assert (0 <= cap / 128)%Z by (apply Z.div_pos; lia). lia.
Qed.

End bounded.

(** ** What libzstd documents about frames *)

(** `ZSTD_COMPRESSBOUND` *)
Definition ZSTD_COMPRESSBOUND (n : Z) : Z :=
  (n + n / 256 + (if n <? 128 * 1024 then (128 * 1024 - n) / 2048 else 0))%Z.

(** The magic number of a standard frame, little-endian. *)
Definition ZSTD_MAGIC : list byte := [x28; xb5; x2f; xfd].

(** [frame x f]: f is a frame the encoder writes for content x of a pledged size.
    [dec_at d f x]: d has yet to read f and to write x of one frame.
    [enc_at e p fed out]: e, pledged p bytes, was fed [fed] and wrote [out]. *)
Class ZstdLaws (D E : Type) `{!ZstdDecoder D} `{!ZstdEncoder E} := {
  frame : list byte -> list byte -> Prop;
  dec_at : D -> list byte -> list byte -> Prop;
  enc_at : E -> nat -> list byte -> list byte -> Prop;
  frame_magic x f : frame x f -> take 4 f = ZSTD_MAGIC;
  frame_bound x f : frame x f -> (Z.of_nat (length f) <= ZSTD_COMPRESSBOUND (Z.of_nat (length x)))%Z;
  dec_new w : (10 <= w <= 31)%Z ->
    exists d, decoder_new w = Ok d /\
      forall x f, frame x f -> (Z.of_nat (length x) <= 2 ^ w)%Z -> dec_at d f x;
  dec_run d f x n : dec_at d f x -> f <> [] \/ x <> [] -> (0 < n)%Z ->
    exists r k left d', decoder_run d f n = Ok ({| bytes_read := r; written := take k x; remaining := left |}, d') /\
      r <= length f /\ k <= length x /\ (Z.of_nat k <= n)%Z /\ 0 < r + k /\ dec_at d' (drop r f) (drop k x) /\
      (left = 0%Z <-> drop r f = [] /\ drop k x = []) /\
      (drop r f = [] -> (Z.of_nat k < n)%Z -> drop k x = []);
  enc_new lvl p : exists e, encoder_new lvl (Some (Z.of_nat p)) = Ok e /\ enc_at e p [] [];
  enc_run e p fed out input n : enc_at e p fed out -> input <> [] -> length fed + length input <= p -> (0 < n)%Z ->
    exists st e', encoder_run e input n = Ok (st, e') /\ bytes_read st <= length input /\
      0 < bytes_read st + length (written st) /\ enc_at e' p (fed ++ take (bytes_read st) input) (out ++ written st);
  enc_finish e p fed out n : enc_at e p fed out -> length fed = p -> (0 < n)%Z ->
    exists w left e', encoder_finish e n = Ok (w, left, e') /\ enc_at e' p fed (out ++ w) /\
      (if (left =? 0)%Z then frame fed (out ++ w) else w <> []);
  enc_bound e p fed out : enc_at e p fed out ->
    (Z.of_nat (length out) <= ZSTD_COMPRESSBOUND (Z.of_nat (length fed)))%Z
}.

Section frames.
Context {D E : Type} `{!ZstdDecoder D} `{!ZstdEncoder E} `{!ZstdLaws D E}.

Lemma push_loop_frame fuel (b : BoundedZstdDecoder D) d f x whole :
  dec_at d f x -> f <> [] \/ x <> [] -> frame_complete b = false -> buf b ++ x = whole ->
  (Z.of_nat (length whole) <= output_cap b)%Z -> length f + length x <= fuel ->
  exists d', push_loop fuel b d f = Some (Ok tt, after_run b (Some d') whole true).
Proof.
  revert b d f x. induction fuel as [|n IH]; intros b d f x Hat Hne Hc Hw Hcap Hf.
  { destruct Hne as [Hn|Hn]; [destruct f|destruct x]; cbn in Hf; (done || lia). }
  cbn [push_loop]. rewrite Hc. cbn [andb].
  destruct (dec_run d f x DECODE_BLOCK Hat Hne) as (r & k & rem & d' & -> & Hr & Hk & Hkn & Hp & Hat' & Hrem & Hfl); [done|].
  cbn [bytes_read written remaining].
  assert (append_capped (buf b) (output_cap b) (take k x) = Ok (buf b ++ take k x)) as ->.
  { unfold append_capped. case_bool_decide as Ht; [by rewrite Ht, app_nil_r|].
    rewrite (proj2 (Z.ltb_ge _ _)); [done|]. rewrite <- Hw, length_app in Hcap. rewrite length_take. lia. }
  cbv zeta. rewrite length_take, Nat.min_l by done.
  destruct (decide (drop r f = [] /\ drop k x = [])) as [[Hr0 Hk0]|Hmore].
  - rewrite bool_decide_true by done. rewrite (proj2 Hrem) by done. cbn. rewrite orb_true_r.
    exists d'. rewrite <- Hw. do 4 f_equal. rewrite <- (take_drop k x) at 2. by rewrite Hk0, app_nil_r.
  - assert ((rem =? 0)%Z = false) as Hrem0. { apply Z.eqb_neq. tauto. }
    rewrite Hrem0, orb_false_r.
    assert (negb (negb (bool_decide (drop r f = []))) && negb (Z.of_nat k =? DECODE_BLOCK)%Z = false) as ->.
    { case_bool_decide as Hrf; [|done]. cbn. apply negb_false_iff, Z.eqb_eq.
      destruct (Z.eq_dec (Z.of_nat k) DECODE_BLOCK); [done|]. exfalso. apply Hmore. split; [done|]. apply Hfl; [done|lia]. }
    assert ((r =? 0) && (k =? 0) = false) as ->. { apply andb_false_iff. rewrite !Nat.eqb_neq. lia. }
    destruct (IH (after_run b None (buf b ++ take k x) false) d' (drop r f) (drop k x)) as (d2 & ->);
      [done|destruct (decide (drop r f = [])); [right; intros ?; by apply Hmore|by left]|done| |done| |by eauto].
    + cbn. by rewrite <- app_assoc, take_drop.
    + rewrite !length_drop. lia.
Qed.

(** A whole frame in one push decodes to its content. *)
Lemma decode_frame x f cap w :
  frame x f -> (10 <= w <= 31)%Z -> (Z.of_nat (length x) <= 2 ^ w)%Z -> cap = Z.of_nat (length x) -> (cap <= 64 * 1024)%Z ->
  exists b, with_window_log_max (D := D) cap w = Ok b /\ exists b', push b f = Some (Ok tt, b') /\
    decoder_finish b' = if bool_decide (x = []) then Err EmptyNar else Ok x.
Proof.
  intros Hf Hw Hx -> Hcap. destruct (dec_new w Hw) as (d & Hnew & Hat).
  specialize (Hat x f Hf Hx). unfold with_window_log_max. rewrite Hnew. eexists. split; [reflexivity|].
  assert (Z.of_nat (length f) <= zstd_compress_bound (Z.of_nat (length x)))%Z as Hb.
  { pose proof (frame_bound x f Hf) as Hb. unfold ZSTD_COMPRESSBOUND in Hb. rewrite (proj2 (Z.ltb_lt _ _)) in Hb by lia.
    unfold zstd_compress_bound, u64_saturating_add, u64_max. clear - Hb Hcap.
    pose proof (Nat2Z.is_nonneg (length x)) as H0. generalize dependent (Z.of_nat (length f)). generalize dependent (Z.of_nat (length x)). intros n Hn H0 m Hm.
    Z.div_mod_to_equations. lia. }
  assert (f <> []) as Hne. { intros ->. by pose proof (frame_magic x [] Hf). }
  unfold push. cbn [consumed input_cap decoder].
  assert (u64_saturating_add 0 (Z.of_nat (length f)) = Z.of_nat (length f)) as ->.
  { unfold zstd_compress_bound, u64_saturating_add, u64_max in *. lia. }
  rewrite (proj2 (Z.ltb_ge _ _)) by done.
  match goal with |- context [push_loop ?n ?b ?d0 _] => destruct (push_loop_frame n b d f x x) as (d' & ->) end;
    [done|by left|done|done|done|unfold push_fuel; cbn; lia|].
  eexists. split; [reflexivity|]. cbn. by case_bool_decide.
Qed.

Lemma compress_bound_mono a b : (0 <= a <= b)%Z -> (ZSTD_COMPRESSBOUND a <= ZSTD_COMPRESSBOUND b)%Z.
Proof.
  intros Hab. unfold ZSTD_COMPRESSBOUND. assert (a / 256 <= b / 256)%Z by (apply Z.div_le_mono; lia).
  destruct (Z.ltb_spec a (128 * 1024)), (Z.ltb_spec b (128 * 1024)); [| |lia|lia].
  - assert ((128 * 1024 - a) / 2048 <= (128 * 1024 - b) / 2048 + (b - a))%Z; [|lia].
    rewrite <- Z.div_add by lia. apply Z.div_le_mono; lia.
  - assert ((128 * 1024 - a) / 2048 <= 128 * 1024 - a)%Z; [|lia]. apply Z.div_le_upper_bound; lia.
Qed.

Lemma compress_block_spec fuel e p fed out pre input :
  enc_at e p fed out -> length fed + length input <= p ->
  length input + (Z.to_nat (ZSTD_COMPRESSBOUND (Z.of_nat p)) - length out) < fuel ->
  exists e' out', compress_block fuel e input (pre ++ out) = Some (Ok (pre ++ out', e')) /\ enc_at e' p (fed ++ input) out'.
Proof.
  revert e fed out input. induction fuel as [|n IH]; intros e fed out input Hat Hp Hf; [lia|].
  destruct input as [|i input]; cbn [compress_block].
  { rewrite app_nil_r. eauto. }
  destruct (enc_run e p fed out (i :: input) ENCODE_BLOCK Hat) as (st & e1 & -> & Hr & Hprog & Hat1); [done|done|done|].
  assert ((bytes_read st =? 0) && (length (written st) =? 0) = false) as ->. { apply andb_false_iff. rewrite !Nat.eqb_neq. lia. }
  rewrite <- app_assoc. pose proof (enc_bound _ _ _ _ Hat1) as Hb.
  rewrite !length_app, length_take in Hb.
  pose proof (compress_bound_mono (Z.of_nat (length fed + bytes_read st `min` length (i :: input))) (Z.of_nat p)) as Hmono.
  destruct (IH e1 (fed ++ take (bytes_read st) (i :: input)) (out ++ written st) (drop (bytes_read st) (i :: input))) as (e' & out' & -> & Hat');
    [done| |  |].
  - rewrite length_app, length_take, length_drop. lia.
  - rewrite length_app, length_drop. cbn [length] in *. lia.
  - rewrite <- app_assoc, take_drop in Hat'. eauto.
Qed.

Lemma encoder_finish_spec fuel e p fed out pre :
  enc_at e p fed out -> length fed = p -> Z.to_nat (ZSTD_COMPRESSBOUND (Z.of_nat p)) - length out < fuel ->
  exists f, encoder_finish_loop fuel e (pre ++ out) = Some (Ok (pre ++ f)) /\ frame fed f.
Proof.
  revert e out. induction fuel as [|n IH]; intros e out Hat Hp Hf; [lia|]. cbn [encoder_finish_loop].
  destruct (enc_finish e p fed out ENCODE_BLOCK Hat Hp) as (w & rem & e1 & -> & Hat1 & Hrem); [done|].
  rewrite <- app_assoc. destruct (rem =? 0)%Z; [eauto|].
  pose proof (enc_bound _ _ _ _ Hat1) as Hb. rewrite length_app in Hb.
  apply IH; [done|done|]. rewrite length_app. subst p. destruct w; [done|]. cbn [length] in *. lia.
Qed.

End frames.

(** ** A computable frame format for the witnesses

    The magic, a little-endian length and the content as it is. *)

Definition toy_header (n : nat) : list byte := ZSTD_MAGIC ++ to_le_bytes 4 (Z.of_nat n).

Inductive ToyDecoder := ToyStart | ToyBody (todo : nat).

Definition toy_run (d : ToyDecoder) (input : list byte) (n : Z) : result (list byte) (Status * ToyDecoder) :=
  match d with
  | ToyStart =>
      if bool_decide (take 4 input = ZSTD_MAGIC) && (8 <=? length input) then
        let len := from_le_bytes (take 4 (drop 4 input)) in
        Ok ({| bytes_read := 8; written := []; remaining := len |}, ToyBody (Z.to_nat len))
      else Err (str "bad frame header")
  | ToyBody todo =>
      let k := (todo `min` Z.to_nat n) `min` length input in
      Ok ({| bytes_read := k; written := take k input; remaining := Z.of_nat (todo - k) |}, ToyBody (todo - k))
  end.

#[export] Instance toy_decoder : ZstdDecoder ToyDecoder := {|
  decoder_new := fun _ => Ok ToyStart;
  decoder_run := toy_run
|}.

Record ToyEncoder := { toy_pledged : nat; toy_begun : bool }.

Definition toy_encode (e : ToyEncoder) (input : list byte) : list byte :=
  (if toy_begun e then [] else toy_header (toy_pledged e)) ++ input.

#[export] Instance toy_encoder : ZstdEncoder ToyEncoder := {|
  encoder_new := fun _ p => Ok {| toy_pledged := Z.to_nat (default 0%Z p); toy_begun := false |};
  encoder_run := fun e input _ =>
    Ok ({| bytes_read := length input; written := toy_encode e input; remaining := 0 |},
        {| toy_pledged := toy_pledged e; toy_begun := true |});
  encoder_finish := fun e _ => Ok (toy_encode e [], 0%Z, {| toy_pledged := toy_pledged e; toy_begun := true |})
|}.

#[export] Instance toy_decoder_laws : ZstdDecoderLaws ToyDecoder.
Proof.
  split.
  - intros [|todo] input n st d' H; cbn [decoder_run toy_decoder toy_run] in H; [|injection H as <- <-; cbn; lia].
    destruct (bool_decide _); [|done]. destruct (8 <=? length input) eqn:Hl; [|done]. injection H as <- <-.
    apply Nat.leb_le in Hl. exact Hl.
  - intros [|todo] input n st d' Hn H; cbn [decoder_run toy_decoder toy_run] in H.
    + destruct (_ && _); [|done]. by injection H as <- <-.
    + injection H as <- <-. cbn. rewrite length_take. lia.
Qed.

Definition toy_dec_at (d : ToyDecoder) (f x : list byte) : Prop :=
  match d with
  | ToyStart => f = toy_header (length x) ++ x /\ (Z.of_nat (length x) <= u32_max)%Z
  | ToyBody todo => f = x /\ todo = length x
  end.

Definition toy_frame (x f : list byte) : Prop := f = toy_header (length x) ++ x.

Definition toy_enc_at (e : ToyEncoder) (p : nat) (fed out : list byte) : Prop :=
  toy_pledged e = p /\ (if toy_begun e then out = toy_header p ++ fed else fed = [] /\ out = []).

Lemma length_toy_header n : length (toy_header n) = 8.
Proof. unfold toy_header. by rewrite length_app, length_to_le_bytes. Qed.

Lemma toy_dec_run d f x n :
  toy_dec_at d f x -> f <> [] \/ x <> [] -> (0 < n)%Z ->
  exists r k rem d', toy_run d f n = Ok ({| bytes_read := r; written := take k x; remaining := rem |}, d') /\
    r <= length f /\ k <= length x /\ (Z.of_nat k <= n)%Z /\ 0 < r + k /\ toy_dec_at d' (drop r f) (drop k x) /\
    (rem = 0%Z <-> drop r f = [] /\ drop k x = []) /\
    (drop r f = [] -> (Z.of_nat k < n)%Z -> drop k x = []).
Proof.
  intros Hat Hne Hn. destruct d as [|todo]; destruct Hat as [-> Hx].
  - exists 8, 0, (Z.of_nat (length x)), (ToyBody (length x)). unfold toy_run.
    rewrite length_app, length_toy_header.
    assert (drop 8 (toy_header (length x) ++ x) = x) as Hdrop.
    { rewrite drop_app_le by (rewrite length_toy_header; lia). by rewrite drop_ge by (rewrite length_toy_header; lia). }
    assert (take 4 (drop 4 (toy_header (length x) ++ x)) = to_le_bytes 4 (Z.of_nat (length x))) as ->.
    { change (take 4 (to_le_bytes 4 (Z.of_nat (length x)) ++ x) = to_le_bytes 4 (Z.of_nat (length x))).
      by rewrite take_app_length' by (by rewrite length_to_le_bytes). }
    rewrite Hdrop, drop_0, from_to_le_u32 by (split; lia).
    rewrite bool_decide_true by done. cbn [andb Nat.leb]. rewrite Nat2Z.id.
    split_and!; [done|lia|lia|lia|lia|done| |done]. destruct x; cbn; [done|]. split; [lia|by intros [? ?]].
  - subst todo. set (k := (length x `min` Z.to_nat n) `min` length x).
    assert (x <> []) as Hx by by destruct Hne. assert (0 < length x) by (destruct x; [done|cbn; lia]).
    exists k, k, (Z.of_nat (length x - k)), (ToyBody (length x - k)). split; [done|].
    split_and!; [lia|lia|lia|lia|by split; [|by rewrite length_drop]| |].
    + split.
      * intros Hk. split; apply drop_ge; lia.
      * intros [Hk _]. assert (length (drop k x) = 0) as Hl by by rewrite Hk. rewrite length_drop in Hl. lia.
    + done.
Qed.

#[export] Instance toy_laws_zstd : ZstdLaws ToyDecoder ToyEncoder.
Proof.
  refine {| frame := toy_frame; dec_at := toy_dec_at; enc_at := toy_enc_at |}.
  - by intros x f ->.
  - intros x f ->. rewrite length_app, length_toy_header. pose proof (Nat2Z.is_nonneg (length x)).
    rewrite Nat2Z.inj_add. generalize dependent (Z.of_nat (length x)). intros n Hn. unfold ZSTD_COMPRESSBOUND.
    destruct (Z.ltb_spec n (128 * 1024)); Z.div_mod_to_equations; lia.
  - intros w Hw. exists ToyStart. split; [done|]. intros x f -> Hx. split; [done|].
    assert (2 ^ w <= 2 ^ 31)%Z by (apply Z.pow_le_mono_r; lia). unfold u32_max. lia.
  - intros d f x n. apply toy_dec_run.
  - intros lvl p. eexists. split; [reflexivity|]. split; [cbn; lia|done].
  - intros e p fed out input n [Hp Hb] Hi _ _. eexists _, _. split; [reflexivity|]. cbn.
    split_and!; [lia|destruct input; cbn; [done|lia]|]. split; [done|]. cbn. rewrite take_ge by done.
    unfold toy_encode. subst p. destruct (toy_begun e); [subst out; by rewrite <- app_assoc|by destruct Hb as [-> ->]].
  - intros e p fed out n [Hp Hb] Hl _. eexists _, _, _. split; [reflexivity|]. unfold toy_encode. rewrite app_nil_r.
    assert (out ++ (if toy_begun e then [] else toy_header (toy_pledged e)) = toy_header p ++ fed) as ->.
    { subst. destruct (toy_begun e); [by rewrite app_nil_r, Hb|]. destruct Hb as [-> ->]. by rewrite app_nil_r. }
    split; [by split|]. cbn. unfold toy_frame. by rewrite Hl.
  - intros e p fed out [_ Hb].
    assert (length out <= 8 + length fed) as Hl.
    { destruct (toy_begun e); [subst; by rewrite length_app, length_toy_header|]. destruct Hb as [-> ->]. cbn. lia. }
    assert (Z.of_nat (length out) <= 8 + Z.of_nat (length fed))%Z as Hz by lia. pose proof (Nat2Z.is_nonneg (length fed)).
    generalize dependent (Z.of_nat (length out)). generalize dependent (Z.of_nat (length fed)). intros n Hn m Hm.
    unfold ZSTD_COMPRESSBOUND. destruct (Z.ltb_spec n (128 * 1024)); Z.div_mod_to_equations; lia.
Qed.

(** A frame in two pieces decodes; with a smaller cap it is refused. *)
Definition toy_chunks : list (list byte) := [toy_header 5 ++ str "he"; str "llo"].

Lemma decoder_bounded_total_witness :
  (exists rs b, feed (D := ToyDecoder) {| decoder := Some ToyStart; buf := []; output_cap := 5; input_cap := zstd_compress_bound 5;
      consumed := 0; started := false; frame_complete := false |} toy_chunks = Some (rs, b) /\
    (Z.of_nat (length (buf b)) <= 5)%Z) /\
  (b0 ← (match with_window_log_max (D := ToyDecoder) 5 10 with Ok b => Some b | Err _ => None end);
   r ← feed b0 toy_chunks; Some (decoder_finish r.2)) = Some (Ok (str "hello")) /\
  (b0 ← (match with_window_log_max (D := ToyDecoder) 4 10 with Ok b => Some b | Err _ => None end);
   r ← feed b0 toy_chunks; Some r.1) = Some [Ok tt; Err (OutputTooLarge 4 5)].
Proof.
  split; [|split; vm_compute; reflexivity].
  destruct (decoder_bounded_total (D := ToyDecoder) 5 10 _ toy_chunks ltac:(done) eq_refl) as (rs & b & Hf & Hb & _).
  exists rs, b. exact (conj Hf Hb).
Defined.
