(* ===== verification/NarV4.v ===== *)
(** * The `/nar/4` body: fabric-libp2p/src/nar_v4.rs

    A NAR travels as the preorder of its Bao tree: the hash pair of each parent,
    then the leaves, raw or as one zstd frame each, then a marker.  The sender
    replays its source against the outboard, the receiver verifies every leaf
    against the root before it hands it on.  BLAKE3 is the class [Blake3] and the
    geometry of bao-tree the class [BaoGeometry].  The texts of the errors are
    constructors of [V4Error]; [Diverges] is a zstd loop that does not end, and is
    proved not to happen. *)

From Stdlib Require Import Strings.Byte ZArith Lia.
From stdpp Require Import base sets gmap numbers strings list.
From S2P Require Import Prelude ZstdCodec.

Definition COMPLETE_MARKER : list byte := str "N4OK".
Definition BAO_BLOCK_BYTES : Z := 64 * 1024.
Definition MAX_ENCODED_LEAF_BYTES : Z := 64 * 1024 + (64 * 1024) / 128 + 512 + 64.
Definition ZSTD_MIN_WINDOW_LOG : Z := 10.

Inductive V4Error :=
| Io (why : list byte)
| OmittedParent (node : Z)
| StackUnderflow
| ParentMismatch (node : Z)
| LeafMismatch (start_byte : Z)
| CountOverflow
| OverDeclared (next raw_size : Z)
| EncodedTooLong (encoded_len : Z)
| SkippableFrame
| LeafRejected (e : DecodeError)
| LeafLength (got : nat) (size : nat)
| UnconsumedHashes
| BadMarker (marker : list byte)
| TrailingByte
| ShortTotal (raw_bytes raw_size : Z)
| NonMonotonic (position expected : Z)
| SourceTooLong
| BadAccounting
| Diverges.

(** ** Readers and sinks *)

(** A reader: its bytes, and the error after them unless it ends there. *)
Record Reader := { rbytes : list byte; rfail : option (list byte) }.

Definition read_exact (r : Reader) (n : nat) : result V4Error (list byte * Reader) :=
  if n <=? length (rbytes r) then Ok (take n (rbytes r), {| rbytes := drop n (rbytes r); rfail := rfail r |})
  else Err (Io (default (str "unexpected end of file") (rfail r))).

(** `reader.read(&mut [0u8; 1])?`: whether it read a byte. *)
Definition read_one (r : Reader) : result V4Error bool :=
  match rbytes r, rfail r with
  | _ :: _, _ => Ok true
  | [], Some e => Err (Io e)
  | [], None => Ok false
  end.

Class ReadAt (S : Type) := read_exact_at : S -> Z -> nat -> result V4Error (list byte * S).

Class OwnedWireSink (W : Type) := {
  write_owned : W -> list byte -> result V4Error W;
  sink_flush : W -> result V4Error W
}.

(** OwnedWireSink for Vec<u8> *)
#[export] Instance vec_sink : OwnedWireSink (list byte) := {|
  write_owned := fun w bytes => Ok (w ++ bytes);
  sink_flush := fun w => Ok w
|}.

Definition checked_add_bytes (total : Z) (increment : nat) : result V4Error Z :=
  ok_or (u64_checked_add total (Z.of_nat increment)) CountOverflow.

(** ** Hashes and geometry *)

Abbreviation Hash := (array 32).

Class Blake3 := {
  blake3_hash : list byte -> Hash;
  subtree_cv : Z -> list byte -> Hash;              (* set_input_offset, update, finalize_non_root *)
  merge_subtrees_root : Hash -> Hash -> Hash;
  merge_subtrees_non_root : Hash -> Hash -> Hash
}.

Inductive BaoChunk :=
| ParentChunk (node : Z) (is_root go_left go_right : bool)
| LeafChunk (start_chunk : Z) (size : nat) (is_root : bool).

(** `ResponseIter::new(BaoTree::new(size, BAO_BLOCK_SIZE), ChunkRanges::all())`
    and `BaoTree::outboard_size`. *)
Class BaoGeometry := {
  response_iter : Z -> list BaoChunk;
  outboard_size : Z -> Z
}.

Definition hash_subtree `{Blake3} (start_byte : Z) (data : list byte) (is_root : bool) : Hash :=
  if is_root then blake3_hash data else subtree_cv start_byte data.

Definition parent_hash `{Blake3} (left right : Hash) (is_root : bool) : Hash :=
  if is_root then merge_subtrees_root left right else merge_subtrees_non_root left right.

Definition parse_hash_pair (pair : list byte) : option (Hash * Hash) :=
  l ← try_into 32 (take 32 pair); r ← try_into 32 (drop 32 pair); Some (l, r).

(** `ChunkNum::to_bytes` *)
Definition chunk_bytes (c : Z) : Z := c * 1024.

Definition leaf_window_log_max (raw_size : nat) : Z :=
  let geometry_log := if raw_size <=? 1 then 0%Z else (Z.log2 (Z.of_nat raw_size - 1) + 1)%Z in
  Z.max ZSTD_MIN_WINDOW_LOG (Z.min 16 geometry_log).

(** ** Leaves *)

Section leaves.
Context {D E : Type} `{!ZstdDecoder D} `{!ZstdEncoder E}.

(** Enough rounds for the encoder: each one reads or writes a byte. *)
Definition leaf_fuel (raw : list byte) : nat :=
  S (length raw + Z.to_nat (ZSTD_COMPRESSBOUND (Z.of_nat (length raw)))).

Definition encoded_leaf (raw : list byte) (lvl : Z) : result V4Error (list byte) :=
  match encoder_new lvl (Some (Z.of_nat (length raw))) with
  | Err why => Err (Io why)
  | Ok e =>
      match compress_block (leaf_fuel raw) e raw [x00; x00; x00; x00] with
      | None => Err Diverges
      | Some (Err why) => Err (Io why)
      | Some (Ok (framed, e)) =>
          match encoder_finish_loop (leaf_fuel raw) e framed with
          | None => Err Diverges
          | Some (Err why) => Err (Io why)
          | Some (Ok framed) =>
              let encoded_len := (Z.of_nat (length framed) - 4)%Z in
              if (encoded_len <? 0)%Z then Err (Io (str "zstd leaf framing lost its fixed length prefix"))
              else if (MAX_ENCODED_LEAF_BYTES <? encoded_len)%Z then Err (EncodedTooLong encoded_len)
              else if (u32_max <? encoded_len)%Z then Err (Io (str "encoded leaf length does not fit u32"))
              else Ok (to_le_bytes 4 encoded_len ++ drop 4 framed)
          end
      end
  end.

Definition is_skippable (encoded : list byte) : bool :=
  (4 <=? length encoded) &&
  (let magic := from_le_bytes (take 4 encoded) in (0x184D2A50 <=? magic)%Z && (magic <=? 0x184D2A5F)%Z).

Definition decode_leaf (size : nat) (encoded : list byte) : result V4Error (list byte) :=
  match with_window_log_max (D := D) (Z.of_nat size) (leaf_window_log_max size) with
  | Err e => Err (LeafRejected e)
  | Ok dec =>
      match push dec encoded with
      | None => Err Diverges
      | Some (Err e, _) => Err (LeafRejected e)
      | Some (Ok _, dec) =>
          raw ← (match decoder_finish dec with
                 | Ok raw => Ok raw
                 | Err EmptyNar => if size =? 0 then Ok [] else Err (LeafRejected EmptyNar)
                 | Err e => Err (LeafRejected e)
                 end);
          if negb (length raw =? size) then Err (LeafLength (length raw) size) else Ok raw
      end
  end.

Definition read_leaf (r : Reader) (size : nat) (codec : WireCodec) : result V4Error (list byte * Reader) :=
  match codec with
  | RawCodec => read_exact r size
  | ZstdWire =>
      len ← read_exact r 4;
      let encoded_len := from_le_bytes len.1 in
      if (MAX_ENCODED_LEAF_BYTES <? encoded_len)%Z then Err (EncodedTooLong encoded_len)
      else
        encoded ← read_exact len.2 (Z.to_nat encoded_len);
        if is_skippable encoded.1 then Err SkippableFrame
        else raw ← decode_leaf size encoded.1; Ok (raw, encoded.2)
  end.

End leaves.

(** ** Sending *)

(** An outboard: its root, its size and its hash pairs. *)
Record Outboard := {
  ob_root : Hash;
  ob_size : Z;
  ob_load : Z -> result V4Error (option (Hash * Hash))
}.

Section encode.
Context `{!Blake3} `{!BaoGeometry} {E : Type} `{!ZstdEncoder E} {S W : Type} `{!ReadAt S} `{!OwnedWireSink W}.
Context (ob : Outboard) (codec : WireCodec) (lvl : Z).

(** The locals of the loop. *)
Record Encode := { e_source : S; e_expected : list Hash; e_writer : W; e_raw_bytes : Z; e_wire_bytes : Z }.

Definition encode_parent (s : Encode) (node : Z) (is_root go_left go_right : bool) : result V4Error Encode :=
  loaded ← ob_load ob node;
  pair ← ok_or loaded (OmittedParent node);
  match e_expected s with
  | [] => Err StackUnderflow
  | wanted :: stack =>
      if negb (bool_decide (parent_hash pair.1 pair.2 is_root = wanted)) then Err (ParentMismatch node)
      else
        let proof := arr_bytes pair.1 ++ arr_bytes pair.2 in
        next ← checked_add_bytes (e_wire_bytes s) (length proof);
        w ← write_owned (e_writer s) proof;
        Ok {| e_source := e_source s;
              e_expected := (if go_left then [pair.1] else []) ++ (if go_right then [pair.2] else []) ++ stack;
              e_writer := w; e_raw_bytes := e_raw_bytes s; e_wire_bytes := next |}
  end.

Definition encode_leaf (s : Encode) (start_chunk : Z) (size : nat) (is_root : bool) : result V4Error Encode :=
  let start_byte := chunk_bytes start_chunk in
  got ← read_exact_at (e_source s) start_byte size;
  let raw := got.1 in
  match e_expected s with
  | [] => Err StackUnderflow
  | wanted :: stack =>
      if negb (bool_decide (hash_subtree start_byte raw is_root = wanted)) then Err (LeafMismatch start_byte)
      else
        next_raw ← checked_add_bytes (e_raw_bytes s) (length raw);
        item ← (match codec with RawCodec => Ok raw | ZstdWire => encoded_leaf raw lvl end);
        next ← checked_add_bytes (e_wire_bytes s) (length item);
        w ← write_owned (e_writer s) item;
        Ok {| e_source := got.2; e_expected := stack; e_writer := w; e_raw_bytes := next_raw; e_wire_bytes := next |}
  end.

Definition encode_item (s : Encode) (item : BaoChunk) : result V4Error Encode :=
  match item with
  | ParentChunk node is_root l r => encode_parent s node is_root l r
  | LeafChunk start size is_root => encode_leaf s start size is_root
  end.

Fixpoint encode_items (s : Encode) (items : list BaoChunk) : result V4Error Encode :=
  match items with [] => Ok s | i :: rest => s' ← encode_item s i; encode_items s' rest end.

Definition encode_validated (data : S) (writer : W) : result V4Error (S * W * Z * Z) :=
  s ← encode_items {| e_source := data; e_expected := [ob_root ob]; e_writer := writer; e_raw_bytes := 0; e_wire_bytes := 0 |}
        (response_iter (ob_size ob));
  if negb (bool_decide (e_expected s = [])) then Err UnconsumedHashes
  else w ← sink_flush (e_writer s); Ok (e_source s, w, e_raw_bytes s, e_wire_bytes s).

End encode.
Arguments Encode : clear implicits.

(** A forward-only source and the offset it has reached. *)
Record MonotonicReadAt := { mono_reader : Reader; mono_position : Z }.

#[export] Instance monotonic_read_at : ReadAt MonotonicReadAt := fun m position n =>
  if (n =? 0) then Ok ([], m)
  else if negb (position =? mono_position m)%Z then Err (NonMonotonic position (mono_position m))
  else
    got ← read_exact (mono_reader m) n;
    next ← checked_add_bytes (mono_position m) n;
    Ok (got.1, {| mono_reader := got.2; mono_position := next |}).

Definition encode_validated_reader `{!Blake3} `{!BaoGeometry} {E} `{!ZstdEncoder E} {W} `{!OwnedWireSink W}
    (ob : Outboard) (codec : WireCodec) (lvl : Z) (reader : Reader) (writer : W) : result V4Error (W * Z * Z) :=
  let raw_size := ob_size ob in
  r ← encode_validated (E := E) ob codec lvl {| mono_reader := reader; mono_position := 0 |} writer;
  let '(source, w, raw_bytes, wire_bytes) := r in
  if negb (mono_position source =? raw_size)%Z then Err (Io (str "Bao replay ended early"))
  else
    extra ← read_one (mono_reader source);
    if (extra : bool) then Err SourceTooLong else Ok (w, raw_bytes, wire_bytes).

(** create_outboard, over bao-tree's `create_sized`: the outboard, the length of
    its data and the rest of the reader. *)
Definition create_outboard `{!BaoGeometry} (create_sized : Reader -> Z -> result V4Error (Outboard * Z * Reader))
    (reader : Reader) (raw_size : Z) : result V4Error Outboard :=
  r ← create_sized reader raw_size;
  let '(ob, data_len, reader) := r in
  extra ← read_one reader;
  if (extra : bool) then Err SourceTooLong
  else if negb (data_len =? outboard_size (ob_size ob))%Z then Err (Io (str "Bao outboard representation")) else Ok ob.

(** ** Receiving *)

Section decode.
Context `{!Blake3} `{!BaoGeometry} {D : Type} `{!ZstdDecoder D}.
(** The consumer: what it answers to a leaf after those it already took. *)
Context (on_leaf : list (list byte) -> list byte -> option V4Error).
Context (raw_size : Z) (codec : WireCodec).

(** The locals of the loop, and the leaves given to the consumer. *)
Record Decode := {
  d_reader : Reader;
  d_expected : list Hash;
  d_final_leaf : option (list byte);
  d_raw_bytes : Z;
  d_handed : list (list byte)
}.

Definition decode_parent (s : Decode) (node : Z) (is_root go_left go_right : bool) : Decode * option V4Error :=
  match read_exact (d_reader s) 64 with
  | Err e => (s, Some e)
  | Ok (bytes, r) =>
      match parse_hash_pair bytes, d_expected s with
      | None, _ => (s, Some (Io (str "hash pair")))
      | Some _, [] => (s, Some StackUnderflow)
      | Some p, wanted :: stack =>
          if negb (bool_decide (parent_hash p.1 p.2 is_root = wanted)) then (s, Some (ParentMismatch node))
          else ({| d_reader := r;
                   d_expected := (if go_left then [p.1] else []) ++ (if go_right then [p.2] else []) ++ stack;
                   d_final_leaf := d_final_leaf s; d_raw_bytes := d_raw_bytes s; d_handed := d_handed s |}, None)
      end
  end.

(** `on_leaf(leaf)?` *)
Definition hand (s : Decode) (leaf : list byte) : Decode * option V4Error :=
  ({| d_reader := d_reader s; d_expected := d_expected s; d_final_leaf := d_final_leaf s;
      d_raw_bytes := d_raw_bytes s; d_handed := d_handed s ++ [leaf] |}, on_leaf (d_handed s) leaf).

Definition decode_leaf_item (s : Decode) (start_chunk : Z) (size : nat) (is_root : bool) : Decode * option V4Error :=
  match read_leaf (D := D) (d_reader s) size codec with
  | Err e => (s, Some e)
  | Ok (raw, r) =>
      let start_byte := chunk_bytes start_chunk in
      match d_expected s with
      | [] => (s, Some StackUnderflow)
      | wanted :: stack =>
          if negb (bool_decide (hash_subtree start_byte raw is_root = wanted)) then (s, Some (LeafMismatch start_byte))
          else match checked_add_bytes (d_raw_bytes s) (length raw) with
          | Err e => (s, Some e)
          | Ok next =>
              if (raw_size <? next)%Z then (s, Some (OverDeclared next raw_size))
              else
                let final := if (next =? raw_size)%Z then Some raw else d_final_leaf s in
                let s := {| d_reader := r; d_expected := stack; d_final_leaf := final;
                            d_raw_bytes := next; d_handed := d_handed s |} in
                if (next =? raw_size)%Z then (s, None) else hand s raw
          end
      end
  end.

Definition decode_item (s : Decode) (item : BaoChunk) : Decode * option V4Error :=
  match item with
  | ParentChunk node is_root l r => decode_parent s node is_root l r
  | LeafChunk start size is_root => decode_leaf_item s start size is_root
  end.

Fixpoint decode_items (s : Decode) (items : list BaoChunk) : Decode * option V4Error :=
  match items with
  | [] => (s, None)
  | i :: rest => let '(s', e) := decode_item s i in match e with Some e => (s', Some e) | None => decode_items s' rest end
  end.

(** After the loop: the marker, the end of the stream, the total, the last leaf. *)
Definition decode_finish (s : Decode) : result V4Error Z * list (list byte) :=
  if negb (bool_decide (d_expected s = [])) then (Err UnconsumedHashes, d_handed s)
  else match read_exact (d_reader s) (length COMPLETE_MARKER) with
  | Err e => (Err e, d_handed s)
  | Ok (marker, r) =>
      if negb (bool_decide (marker = COMPLETE_MARKER)) then (Err (BadMarker marker), d_handed s)
      else match read_one r with
      | Err e => (Err e, d_handed s)
      | Ok true => (Err TrailingByte, d_handed s)
      | Ok false =>
          if negb (d_raw_bytes s =? raw_size)%Z then (Err (ShortTotal (d_raw_bytes s) raw_size), d_handed s)
          else match d_final_leaf s with
          | None => (Ok (d_raw_bytes s), d_handed s)
          | Some leaf =>
              let '(s, e) := hand s leaf in
              (match e with Some e => Err e | None => Ok (d_raw_bytes s) end, d_handed s)
          end
      end
  end.

(** The result, and everything the consumer was given. *)
Definition decode_verified (reader : Reader) (root : Hash) : result V4Error Z * list (list byte) :=
  let '(s, e) := decode_items {| d_reader := reader; d_expected := [root]; d_final_leaf := None;
                                 d_raw_bytes := 0; d_handed := [] |} (response_iter raw_size) in
  match e with Some e => (Err e, d_handed s) | None => decode_finish s end.

End decode.

(** ** Accounting *)

Definition REQUEST_PROTOCOL_BYTES : Z := 33.
Definition RESPONSE_HEADER_BYTES : Z := 10.
Definition COMPLETE_MARKER_BYTES : Z := Z.of_nat (length COMPLETE_MARKER).

Record NarV4WireAccounting := {
  request_protocol_bytes : Z;
  response_header_bytes : Z;
  proof_bytes : Z;
  leaf_count : Z;
  leaf_length_prefix_bytes : Z;
  encoded_leaf_bytes : Z;
  complete_marker_bytes : Z;
  response_body_bytes : Z;
  response_protocol_bytes : Z;
  exchange_protocol_bytes : Z
}.

Definition accounting_validate (a : NarV4WireAccounting) : result V4Error unit :=
  let framed := n ← u64_checked_add (proof_bytes a) (leaf_length_prefix_bytes a); u64_checked_add n (encoded_leaf_bytes a) in
  let body := n ← framed; u64_checked_add n (complete_marker_bytes a) in
  let response := n ← body; u64_checked_add n (response_header_bytes a) in
  let exchange := n ← response; u64_checked_add n (request_protocol_bytes a) in
  reject_if (negb (bool_decide (body = Some (response_body_bytes a))) ||
             negb (bool_decide (response = Some (response_protocol_bytes a))) ||
             negb (bool_decide (exchange = Some (exchange_protocol_bytes a))) ||
             negb (request_protocol_bytes a =? REQUEST_PROTOCOL_BYTES)%Z ||
             negb (response_header_bytes a =? RESPONSE_HEADER_BYTES)%Z ||
             negb (complete_marker_bytes a =? COMPLETE_MARKER_BYTES)%Z) BadAccounting.

(** `raw_size.div_ceil(64 * 1024).max(1)` *)
Definition leaf_count_of (raw_size : Z) : Z := Z.max 1 ((raw_size + BAO_BLOCK_BYTES - 1) / BAO_BLOCK_BYTES).

Definition from_framed_bao_bytes `{!BaoGeometry} (raw_size : Z) (codec : WireCodec) (framed_bao_bytes : Z) :
    result V4Error NarV4WireAccounting :=
  let proof := outboard_size raw_size in
  let leaves := leaf_count_of raw_size in
  prefix ← (match codec with
            | RawCodec => Ok 0%Z
            | ZstdWire => if (leaves * 4 <=? u64_max)%Z then Ok (leaves * 4)%Z else Err CountOverflow
            end);
  fixed_body ← ok_or (u64_checked_add proof prefix) CountOverflow;
  encoded ← ok_or (u64_checked_sub framed_bao_bytes fixed_body) BadAccounting;
  _ ← reject_if (bool_decide (codec = RawCodec) && negb (encoded =? raw_size)%Z) BadAccounting;
  body ← ok_or (u64_checked_add framed_bao_bytes COMPLETE_MARKER_BYTES) CountOverflow;
  response ← ok_or (u64_checked_add RESPONSE_HEADER_BYTES body) CountOverflow;
  exchange ← ok_or (u64_checked_add REQUEST_PROTOCOL_BYTES response) CountOverflow;
  let a := {| request_protocol_bytes := REQUEST_PROTOCOL_BYTES; response_header_bytes := RESPONSE_HEADER_BYTES;
              proof_bytes := proof; leaf_count := leaves; leaf_length_prefix_bytes := prefix;
              encoded_leaf_bytes := encoded; complete_marker_bytes := COMPLETE_MARKER_BYTES;
              response_body_bytes := body; response_protocol_bytes := response; exchange_protocol_bytes := exchange |} in
  _ ← accounting_validate a;
  Ok a.

Definition from_response_protocol_bytes `{!BaoGeometry} (raw_size : Z) (codec : WireCodec) (response_protocol_bytes : Z) :
    result V4Error NarV4WireAccounting :=
  framed ← ok_or (u64_checked_sub response_protocol_bytes (RESPONSE_HEADER_BYTES + COMPLETE_MARKER_BYTES)) BadAccounting;
  from_framed_bao_bytes raw_size codec framed.

(** ** The tree behind the traversal *)

Inductive Geom :=
| GLeaf (start_chunk : Z) (size : nat)
| GNode (node : Z) (l r : Geom).

Fixpoint gsize (g : Geom) : nat := match g with GLeaf _ n => n | GNode _ l r => gsize l + gsize r end.
Fixpoint parents (g : Geom) : nat := match g with GLeaf _ _ => 0 | GNode _ l r => S (parents l + parents r) end.

Fixpoint preorder (is_root : bool) (g : Geom) : list BaoChunk :=
  match g with
  | GLeaf c n => [LeafChunk c n is_root]
  | GNode node l r => ParentChunk node is_root true true :: preorder false l ++ preorder false r
  end.

(** The leaves lie side by side from byte [off] on, none over a block and none
    empty below a parent. *)
Fixpoint placed (g : Geom) (off : nat) : Prop :=
  match g with
  | GLeaf c n => chunk_bytes c = Z.of_nat off /\ (Z.of_nat n <= BAO_BLOCK_BYTES)%Z
  | GNode _ l r => placed l off /\ placed r (off + gsize l) /\ 0 < gsize l /\ 0 < gsize r
  end.

Definition slice (off n : nat) (data : list byte) : list byte := take n (drop off data).

(** What the hash function is applied to. *)
Inductive HashInput :=
| InLeaf (start_byte : Z) (data : list byte) (is_root : bool)
| InPair (left right : Hash) (is_root : bool).
#[export] Instance HashInput_eq_dec : EqDecision HashInput.
Proof. solve_decision. Defined.

Section tree.
Context `{!Blake3}.

Definition hash_of (i : HashInput) : Hash :=
  match i with
  | InLeaf start data is_root => hash_subtree start data is_root
  | InPair l r is_root => parent_hash l r is_root
  end.

Fixpoint tree_hash (is_root : bool) (g : Geom) (off : nat) (data : list byte) : Hash :=
  match g with
  | GLeaf _ n => hash_subtree (Z.of_nat off) (slice off n data) is_root
  | GNode _ l r => parent_hash (tree_hash false l off data) (tree_hash false r (off + gsize l) data) is_root
  end.

(** Every hash input of the tree over [data]. *)
Fixpoint honest (is_root : bool) (g : Geom) (off : nat) (data : list byte) : list HashInput :=
  match g with
  | GLeaf _ n => [InLeaf (Z.of_nat off) (slice off n data) is_root]
  | GNode _ l r =>
      InPair (tree_hash false l off data) (tree_hash false r (off + gsize l) data) is_root ::
      honest false l off data ++ honest false r (off + gsize l) data
  end.

(** No two of these inputs collide. *)
Definition collision_free (xs ys : list HashInput) : Prop :=
  Forall (fun x => Forall (fun y => hash_of x = hash_of y -> x = y) ys) xs.

#[export] Instance collision_free_dec xs ys : Decision (collision_free xs ys).
Proof. unfold collision_free. apply _. Defined.

Lemma collision_free_app_l xs1 xs2 ys : collision_free (xs1 ++ xs2) ys <-> collision_free xs1 ys /\ collision_free xs2 ys.
Proof. apply Forall_app. Qed.

Lemma collision_free_elem xs ys x y : collision_free xs ys -> x ∈ xs -> y ∈ ys -> hash_of x = hash_of y -> x = y.
Proof.
  intros Hcf Hx Hy. unfold collision_free in Hcf. rewrite Forall_forall in Hcf. specialize (Hcf x Hx).
  rewrite Forall_forall in Hcf. auto.
Qed.

Lemma collision_free_suffix xs ys ys' : collision_free xs (ys ++ ys') -> collision_free xs ys'.
Proof. intros Hcf. eapply Forall_impl; [exact Hcf|]. by intros x [_ Hys]%Forall_app. Qed.

End tree.

(** What bao-tree documents: the traversal is the preorder of a tree over the
    bytes, the outboard holds a pair per parent, and the root is the BLAKE3 hash
    of the whole. *)
Class BaoLaws `{!Blake3} `{!BaoGeometry} := {
  bao_tree : nat -> Geom;
  bao_preorder n : response_iter (Z.of_nat n) = preorder true (bao_tree n);
  bao_placed n : placed (bao_tree n) 0;
  bao_gsize n : gsize (bao_tree n) = n;
  bao_outboard n : outboard_size (Z.of_nat n) = (64 * Z.of_nat (parents (bao_tree n)))%Z;
  bao_leaves n : Z.of_nat (S (parents (bao_tree n))) = leaf_count_of (Z.of_nat n);
  bao_root data : tree_hash true (bao_tree (length data)) 0 data = blake3_hash data
}.

Lemma slice_app off n m data : slice off n data ++ slice (off + n) m data = slice off (n + m) data.
Proof. unfold slice. rewrite <- (take_take_drop (drop off data) n m), drop_drop. by f_equal. Qed.

Lemma length_slice off n data : off + n <= length data -> length (slice off n data) = n.
Proof. intros. unfold slice. rewrite length_take, length_drop. lia. Qed.

Lemma take_slice off n data : take off data ++ slice off n data = take (off + n) data.
Proof. unfold slice. by rewrite take_take_drop. Qed.

(** ** Readers *)

Lemma read_exact_ok r n b r' :
  read_exact r n = Ok (b, r') -> rbytes r = b ++ rbytes r' /\ rfail r' = rfail r /\ length b = n.
Proof.
  unfold read_exact. destruct (Nat.leb_spec n (length (rbytes r))); [|done]. intros [= <- <-]. cbn.
  rewrite take_drop, length_take. split_and!; [done|done|lia].
Qed.

Lemma read_exact_app b tail f n : length b = n -> read_exact {| rbytes := b ++ tail; rfail := f |} n = Ok (b, {| rbytes := tail; rfail := f |}).
Proof.
  intros <-. unfold read_exact. cbn. rewrite (proj2 (Nat.leb_le _ _)) by (rewrite length_app; lia).
  by rewrite take_app_length, drop_app_length.
Qed.

Lemma parse_hash_pair_app (l r : Hash) : parse_hash_pair (arr_bytes l ++ arr_bytes r) = Some (l, r).
Proof.
  unfold parse_hash_pair. rewrite take_app_length', drop_app_length' by (by rewrite arr_length). by rewrite !try_into_bytes.
Qed.

Section read_leaf.
Context {D : Type} `{!ZstdDecoder D}.

Lemma decode_leaf_length n enc raw : decode_leaf (D := D) n enc = Ok raw -> length raw = n.
Proof.
  unfold decode_leaf. destruct (with_window_log_max _ _) as [b|]; [|done]. destruct (push _ _) as [[[u|e] b']|]; [|done|done].
  intros Hraw. inv_ok. destruct (Nat.eqb_spec (length x) n); cbn in Hraw; [by injection Hraw as <-|done].
Qed.

Lemma read_leaf_ok r n codec raw r' :
  read_leaf (D := D) r n codec = Ok (raw, r') ->
  length raw = n /\ rfail r' = rfail r /\ exists b, rbytes r = b ++ rbytes r'.
Proof.
  destruct codec; cbn [read_leaf]; intros H.
  - apply read_exact_ok in H as (? & ? & ?). eauto.
  - inv_ok. destruct x as [len r1]. cbn [fst snd] in H. destruct (Z.ltb_spec MAX_ENCODED_LEAF_BYTES (from_le_bytes len)); [done|]. inv_ok.
    destruct x as [enc r2]; cbn [fst snd] in *. destruct (is_skippable enc); [done|]. inv_ok.
    match goal with H : decode_leaf _ _ = Ok _ |- _ => apply decode_leaf_length in H end.
    repeat match goal with H : read_exact _ _ = Ok _ |- _ => apply read_exact_ok in H as (? & ? & ?) end.
    split_and!; [done|congruence|]. exists (len ++ enc). rewrite <- app_assoc. congruence.
Qed.

(** The hash inputs a wire presents to the receiver, in order. *)
Fixpoint presented (codec : WireCodec) (items : list BaoChunk) (r : Reader) : list HashInput :=
  match items with
  | [] => []
  | ParentChunk _ is_root _ _ :: rest =>
      match read_exact r 64 with
      | Err _ => []
      | Ok (bytes, r') =>
          match parse_hash_pair bytes with
          | None => []
          | Some p => InPair p.1 p.2 is_root :: presented codec rest r'
          end
      end
  | LeafChunk c n is_root :: rest =>
      match read_leaf (D := D) r n codec with
      | Err _ => []
      | Ok (raw, r') => InLeaf (chunk_bytes c) raw is_root :: presented codec rest r'
      end
  end.

End read_leaf.

(** ** The receiver hands on nothing but the content *)

Section authentic.
Context `{!Blake3} `{!BaoGeometry} {D : Type} `{!ZstdDecoder D}.
Context (on_leaf : list (list byte) -> list byte -> option V4Error) (codec : WireCodec) (data : list byte).
Context (Hmax : (Z.of_nat (length data) <= u64_max)%Z).

Abbreviation raw_size := (Z.of_nat (length data)).
Abbreviation run := (decode_items (D := D) on_leaf raw_size codec).

(** After [off] verified bytes. *)
Record upto (off : nat) (s : Decode) : Prop := {
  upto_count : d_raw_bytes s = Z.of_nat off;
  upto_bytes : concat (d_handed s) ++ default [] (d_final_leaf s) = take off data;
  upto_final : forall leaf, d_final_leaf s = Some leaf -> off = length data /\ (data <> [] -> leaf <> []);
  upto_short : d_final_leaf s = None -> off < length data \/ data = []
}.

(** Only a proper part of the content was handed on. *)
Definition partial (s : Decode) : Prop :=
  concat (d_handed s) `prefix_of` data /\ (data <> [] -> concat (d_handed s) <> data).

Lemma upto_partial off s : upto off s -> partial s.
Proof.
  intros [_ Hb Hf Hs]. assert (concat (d_handed s) `prefix_of` take off data) as Hp by (rewrite <- Hb; by apply prefix_app_r).
  split; [etrans; [done|apply prefix_take]|]. intros Hne Heq. destruct (d_final_leaf s) as [leaf|]; cbn in Hb.
  - destruct (Hf leaf eq_refl) as [-> Hl]. specialize (Hl Hne). rewrite take_ge in Hb by done.
    rewrite Heq in Hb. apply Hl. eapply app_inv_head. by rewrite app_nil_r.
  - destruct (Hs eq_refl) as [Hlt|]; [|done]. rewrite app_nil_r, Heq in Hb.
    apply (f_equal length) in Hb. rewrite length_take in Hb. lia.
Qed.

(** The reader only moves forward. *)
Definition ahead (r r' : Reader) : Prop := rfail r' = rfail r /\ exists b, rbytes r = b ++ rbytes r'.

Lemma ahead_refl r : ahead r r.
Proof. split; [done|]. by exists []. Qed.

Lemma ahead_trans r1 r2 r3 : ahead r1 r2 -> ahead r2 r3 -> ahead r1 r3.
Proof. intros [H1 [a Ha]] [H2 [b Hb]]. split; [congruence|]. exists (a ++ b). rewrite <- app_assoc. congruence. Qed.

(** Over the part of the traversal that is one subtree, the run stops with a
    partial content or has verified and counted the bytes of the subtree. *)
Definition runs_through (g : Geom) (is_root : bool) (off : nat) (s : Decode) (stack : list Hash) : Prop :=
  forall rest,
    collision_free (honest is_root g off data) (presented (D := D) codec (preorder is_root g ++ rest) (d_reader s)) ->
    (exists s' e, run s (preorder is_root g ++ rest) = (s', Some e) /\ partial s') \/
    (exists s1 ys, run s (preorder is_root g ++ rest) = run s1 rest /\ upto (off + gsize g) s1 /\
      (off + gsize g = length data -> is_Some (d_final_leaf s1)) /\
      d_expected s1 = stack /\ ahead (d_reader s) (d_reader s1) /\
      presented (D := D) codec (preorder is_root g ++ rest) (d_reader s) = ys ++ presented (D := D) codec rest (d_reader s1)).

Lemma run_leaf is_root c n off s stack :
  chunk_bytes c = Z.of_nat off -> (0 < n \/ data = []) -> off + n <= length data ->
  upto off s -> d_expected s = tree_hash is_root (GLeaf c n) off data :: stack -> d_final_leaf s = None ->
  runs_through (GLeaf c n) is_root off s stack.
Proof.
  intros Hc Hn Hoff Hu He Hfin rest Hcf. pose proof (upto_partial _ _ Hu) as Hpart.
  cbn [preorder app decode_items decode_item presented gsize honest] in *. unfold decode_leaf_item.
  destruct (read_leaf (d_reader s) n codec) as [[raw r]|e] eqn:Hr; [|left; by eauto]. rewrite He.
  destruct (bool_decide_reflect (hash_subtree (chunk_bytes c) raw is_root = tree_hash is_root (GLeaf c n) off data)) as [Hh|];
    [|left; by eauto]. cbn [negb].
  assert (raw = slice off n data) as ->.
  { assert (InLeaf (Z.of_nat off) (slice off n data) is_root = InLeaf (chunk_bytes c) raw is_root) as Heq; [|congruence].
    eapply collision_free_elem; [exact Hcf|by left|by left|]. cbn. by rewrite Hh. }
  destruct (read_leaf_ok _ _ _ _ _ Hr) as (_ & Hfr & b & Hb). destruct Hu as [Hcount Hbytes Hf Hs].
  rewrite length_slice by done.
  assert (checked_add_bytes (d_raw_bytes s) n = Ok (Z.of_nat (off + n))) as ->.
  { unfold checked_add_bytes, u64_checked_add. rewrite Hcount, (proj2 (Z.leb_le _ _)) by lia. cbn. f_equal. lia. }
  rewrite (proj2 (Z.ltb_ge _ _)) by lia. rewrite Hfin in *. cbn [default] in *. rewrite app_nil_r in Hbytes.
  assert (take (off + n) data = concat (d_handed s) ++ slice off n data) as Htake by by rewrite Hbytes, take_slice.
  assert (data <> [] -> slice off n data <> []) as Hne.
  { intros Hd Hsl. apply (f_equal length) in Hsl. rewrite length_slice in Hsl by done. destruct Hn; [cbn in Hsl; lia|done]. }
  destruct (Z.eqb_spec (Z.of_nat (off + n)) raw_size) as [Hend|Hend].
  - right. eexists _, [_]. split; [reflexivity|]. split_and!; [|done|done|by split; [|by exists b]|done]. split; cbn; [done|done| |done].
    intros leaf [= <-]. split; [lia|done].
  - cbn [hand]. unfold hand. cbn.
    assert (upto (off + n) {| d_reader := r; d_expected := stack; d_final_leaf := None; d_raw_bytes := Z.of_nat (off + n);
              d_handed := d_handed s ++ [slice off n data] |}) as Hu'.
    { split; cbn; [done| |done|left; lia]. by rewrite concat_app, app_nil_r; cbn; rewrite app_nil_r. }
    destruct (on_leaf _ _) as [e|]; [left; eexists _, _; split; [reflexivity|by eapply upto_partial]|].
    right. eexists _, [_]. split; [reflexivity|]. split_and!; [done|cbn; lia|done|by split; [|by exists b]|done].
Qed.

Lemma upto_open off s : upto off s -> off < length data -> d_final_leaf s = None.
Proof. intros [_ _ Hf _] Hlt. destruct (d_final_leaf s) as [leaf|]; [|done]. destruct (Hf leaf eq_refl). lia. Qed.

Lemma upto_reader off s r stack : upto off s ->
  upto off {| d_reader := r; d_expected := stack; d_final_leaf := d_final_leaf s; d_raw_bytes := d_raw_bytes s; d_handed := d_handed s |}.
Proof. by intros [? ? ? ?]. Qed.

Lemma run_tree g is_root off s stack :
  placed g off -> (0 < gsize g \/ data = []) -> off + gsize g <= length data ->
  upto off s -> d_expected s = tree_hash is_root g off data :: stack -> d_final_leaf s = None ->
  runs_through g is_root off s stack.
Proof.
  revert is_root off s stack. induction g as [c n|node l IHl r IHr]; intros is_root off s stack Hp Hsz Hoff Hu He Hfin.
  { destruct Hp as [Hc _]. by apply run_leaf. }
  destruct Hp as (Hpl & Hpr & Hl & Hr). cbn [gsize] in *. intros rest Hcf. pose proof (upto_partial _ _ Hu) as Hpart.
  cbn [preorder app decode_items decode_item presented honest] in *. rewrite <- app_assoc in *. unfold decode_parent.
  destruct (read_exact (d_reader s) 64) as [[bytes rd]|e] eqn:Hrd; [|left; by eauto].
  destruct (parse_hash_pair bytes) as [p|]; [|left; by eauto]. rewrite He.
  destruct (bool_decide_reflect (parent_hash p.1 p.2 is_root = tree_hash is_root (GNode node l r) off data)) as [Hh|];
    [|left; by eauto]. cbn [negb].
  assert (p = (tree_hash false l off data, tree_hash false r (off + gsize l) data)) as ->.
  { assert (InPair (tree_hash false l off data) (tree_hash false r (off + gsize l) data) is_root = InPair p.1 p.2 is_root) as Heq;
      [|destruct p; cbn in Heq; congruence].
    eapply collision_free_elem; [exact Hcf|by left|by left|]. cbn. by rewrite Hh. }
  apply Forall_cons in Hcf as [_ Hcf]. apply (collision_free_suffix _ [_]) in Hcf. apply collision_free_app_l in Hcf as [Hcl Hcr].
  apply read_exact_ok in Hrd as (Hb & Hfr & _). cbn [app fst snd].
  match goal with |- context [run ?s0 _] => set (s0' := s0) end.
  destruct (IHl false off s0' (tree_hash false r (off + gsize l) data :: stack) Hpl (or_introl Hl) ltac:(lia)
    (upto_reader _ _ _ _ Hu) eq_refl Hfin (preorder false r ++ rest) Hcl) as [Hstop|(s1 & ys & -> & Hu1 & _ & He1 & Ha1 & Hpr1)];
    [by left|].
  change rd with (d_reader s0') in Hcr |- *. rewrite Hpr1 in Hcr. apply collision_free_suffix in Hcr.
  destruct (IHr false (off + gsize l) s1 stack Hpr (or_introl Hr) ltac:(lia) Hu1 He1 (upto_open _ _ Hu1 ltac:(lia)) rest Hcr)
    as [Hstop|(s2 & zs & -> & Hu2 & Hf2 & He2 & Ha2 & Hpr2)]; [by left|].
  right. eexists s2, (_ :: ys ++ zs). split; [done|]. cbn [gsize]. rewrite Nat.add_assoc. split_and!; [done|done|done| |].
  - apply (ahead_trans _ (d_reader s0')); [split; [done|by exists bytes]|]. by apply (ahead_trans _ (d_reader s1)).
  - rewrite Hpr1, Hpr2. cbn. by rewrite <- app_assoc.
Qed.

(** The end of the stream. *)
Lemma finish_authentic s :
  upto (length data) s -> is_Some (d_final_leaf s) ->
  let '(r, handed) := decode_finish on_leaf raw_size s in
  concat handed `prefix_of` data /\ (forall n, r = Ok n -> n = raw_size /\ concat handed = data) /\
  (data <> [] -> concat handed = data -> rbytes (d_reader s) = COMPLETE_MARKER /\ rfail (d_reader s) = None).
Proof.
  intros Hu [leaf Hleaf]. destruct (upto_partial _ _ Hu) as [Hp Hpn]. destruct Hu as [Hcount Hbytes _ _].
  rewrite Hleaf in Hbytes. cbn in Hbytes. rewrite take_ge in Hbytes by done.
  assert (forall e : V4Error, concat (d_handed s) `prefix_of` data /\
    (forall n : Z, Err e = Ok n -> n = raw_size /\ concat (d_handed s) = data) /\
    (data <> [] -> concat (d_handed s) = data -> rbytes (d_reader s) = COMPLETE_MARKER /\ rfail (d_reader s) = None)) as Herr.
  { intros e. split_and!; [done|done|]. intros Hd Heq. by specialize (Hpn Hd). }
  unfold decode_finish. destruct (negb (bool_decide _)); [apply Herr|].
  destruct (read_exact (d_reader s) (length COMPLETE_MARKER)) as [[marker r]|e] eqn:Hm; [|apply Herr].
  destruct (bool_decide_reflect (marker = COMPLETE_MARKER)) as [->|]; [|apply Herr]. cbn [negb].
  apply read_exact_ok in Hm as (Hb & Hf & _).
  unfold read_one. destruct (rbytes r) eqn:Hrb; [|apply Herr]. destruct (rfail r) eqn:Hrf; [apply Herr|].
  destruct (negb (d_raw_bytes s =? raw_size)%Z); [apply Herr|]. rewrite Hleaf. cbn [hand]. unfold hand. cbn [d_handed d_raw_bytes].
  rewrite concat_app. cbn [concat]. rewrite app_nil_r, Hbytes. rewrite app_nil_r in Hb.
  split_and!; [done| |by split].
  destruct (on_leaf (d_handed s) leaf); [done|]. by intros n [= <-].
Qed.

End authentic.

Section verified.
Context `{!Blake3} `{!BaoGeometry} `{!BaoLaws} {D : Type} `{!ZstdDecoder D}.

(** C7: the receiver hands on nothing but the content.  Whatever bytes a peer
    sends, raw or compressed, unless they exhibit a BLAKE3 collision with the
    content of that digest and size, what the consumer is given is a prefix of the
    content; a transfer that succeeds gave it all of it; and the last leaf is
    given only when the stream ended cleanly right after the marker, so a valid
    body followed by a failure or more bytes never completes its consumer. *)
Theorem decode_authentic on_leaf codec data reader :
  (Z.of_nat (length data) <= u64_max)%Z ->
  collision_free (honest true (bao_tree (length data)) 0 data)
    (presented (D := D) codec (response_iter (Z.of_nat (length data))) reader) ->
  let '(r, handed) := decode_verified (D := D) on_leaf (Z.of_nat (length data)) codec reader (blake3_hash data) in
  concat handed `prefix_of` data /\
  (forall n, r = Ok n -> n = Z.of_nat (length data) /\ concat handed = data) /\
  (data <> [] -> concat handed = data -> rfail reader = None /\ exists body, rbytes reader = body ++ COMPLETE_MARKER).
Proof.
  intros Hmax Hcf. unfold decode_verified. rewrite bao_preorder in *. rewrite <- bao_root.
  rewrite <- (app_nil_r (preorder true _)) in Hcf |- *.
  pose proof (bao_placed (length data)) as Hp. pose proof (bao_gsize (length data)) as Hs.
  match goal with |- context [decode_items _ _ _ ?s0 _] => set (s0' := s0) end.
  destruct (run_tree (D := D) on_leaf codec data Hmax (bao_tree (length data)) true 0 s0' [] Hp) with (rest := @nil BaoChunk)
    as [(s' & e & Hrun & [Hpre Hne])|(s1 & ys & Hrun & Hu & Hfin & He & [Hf [b Hb]] & _)]; try done.
  - rewrite Hs. destruct data; [by right|left; cbn; lia].
  - lia.
  - split; cbn; [done|by rewrite take_0|done|]. destruct data; [by right|left; cbn; lia].
  - rewrite Hrun. split_and!; [done|done|]. intros Hd Heq. by specialize (Hne Hd).
  - rewrite Hrun. cbn [decode_items]. rewrite Hs in *. pose proof (finish_authentic on_leaf data s1 Hu (Hfin eq_refl)) as Hend.
    destruct (decode_finish _ _ _) as [r handed]. destruct Hend as (Ha & Ho & Hc). split_and!; [done|done|].
    intros Hd Heq. destruct (Hc Hd Heq) as [Hm Hn]. split; [change (rfail reader) with (rfail (d_reader s0')); by rewrite <- Hf|]. exists b. rewrite <- Hm. exact Hb.
Qed.
End verified.

(** ** The honest wire *)

Section wire.
Context `{!Blake3} {D E : Type} `{!ZstdDecoder D} `{!ZstdEncoder E} `{!ZstdLaws D E}.
Context (codec : WireCodec) (lvl : Z).

Definition leaf_item (raw : list byte) : list byte :=
  match codec with
  | RawCodec => raw
  | ZstdWire => match encoded_leaf (E := E) raw lvl with Ok f => f | Err _ => [] end
  end.

Fixpoint wire_of (g : Geom) (off : nat) (data : list byte) : list byte :=
  match g with
  | GLeaf _ n => leaf_item (slice off n data)
  | GNode _ l r =>
      arr_bytes (tree_hash false l off data) ++ arr_bytes (tree_hash false r (off + gsize l) data) ++
      wire_of l off data ++ wire_of r (off + gsize l) data
  end.

(** A leaf always encodes, within the bound, to one frame behind its length. *)
Lemma encoded_leaf_spec raw :
  (Z.of_nat (length raw) <= BAO_BLOCK_BYTES)%Z ->
  exists f, encoded_leaf (E := E) raw lvl = Ok (to_le_bytes 4 (Z.of_nat (length f)) ++ f) /\ frame raw f /\
    (Z.of_nat (length f) <= MAX_ENCODED_LEAF_BYTES)%Z.
Proof.
  intros Hraw. unfold encoded_leaf. destruct (enc_new lvl (length raw)) as (e & -> & Hat).
  destruct (compress_block_spec (leaf_fuel raw) e (length raw) [] [] [x00; x00; x00; x00] raw Hat) as (e1 & out & Hc & Hat1);
    [cbn; lia|unfold leaf_fuel; cbn; lia|].
  cbn [app] in Hc, Hat1. rewrite Hc.
  destruct (encoder_finish_spec (leaf_fuel raw) e1 (length raw) raw out [x00; x00; x00; x00] Hat1 eq_refl) as (f & Hf & Hfr);
    [unfold leaf_fuel; lia|].
  cbn [app] in Hf. rewrite Hf. exists f.
  assert (Z.of_nat (length f) <= MAX_ENCODED_LEAF_BYTES)%Z as Hb.
  { etrans; [exact (frame_bound _ _ Hfr)|]. etrans; [apply (compress_bound_mono _ BAO_BLOCK_BYTES); lia|]. done. }
  split_and!; [|done|done]. cbv zeta. cbn [length].
  replace (Z.of_nat (S (S (S (S (length f))))) - 4)%Z with (Z.of_nat (length f)) by lia.
  rewrite (proj2 (Z.ltb_ge (Z.of_nat (length f)) 0)) by lia.
  rewrite (proj2 (Z.ltb_ge MAX_ENCODED_LEAF_BYTES _)) by done.
  rewrite (proj2 (Z.ltb_ge u32_max _)) by (change MAX_ENCODED_LEAF_BYTES with 66624%Z in Hb; unfold u32_max; lia). done.
Qed.

Lemma window_fits n : (Z.of_nat n <= BAO_BLOCK_BYTES)%Z ->
  (10 <= leaf_window_log_max n <= 31)%Z /\ (Z.of_nat n <= 2 ^ leaf_window_log_max n)%Z.
Proof.
  intros Hn. unfold leaf_window_log_max, ZSTD_MIN_WINDOW_LOG, BAO_BLOCK_BYTES in *. split; [destruct (n <=? 1); lia|].
  destruct (Nat.leb_spec n 1); [transitivity (2 ^ 10)%Z; [lia|apply Z.pow_le_mono_r; lia]|].
  destruct (Z.log2_spec (Z.of_nat n - 1)) as [_ Hlog]; [lia|]. rewrite <- Z.add_1_r in Hlog.
  destruct (Z.le_gt_cases (Z.log2 (Z.of_nat n - 1) + 1) 16) as [Hle|Hgt].
  - transitivity (2 ^ (Z.log2 (Z.of_nat n - 1) + 1))%Z; [lia|]. apply Z.pow_le_mono_r; lia.
  - transitivity (2 ^ 16)%Z; [lia|]. apply Z.pow_le_mono_r; lia.
Qed.

Lemma frame_not_skippable x f : frame (D := D) (E := E) x f -> is_skippable f = false.
Proof. intros Hf. unfold is_skippable. rewrite (frame_magic _ _ Hf). apply andb_false_r. Qed.

Lemma decode_leaf_frame x f :
  (Z.of_nat (length x) <= BAO_BLOCK_BYTES)%Z -> frame (D := D) (E := E) x f -> decode_leaf (D := D) (length x) f = Ok x.
Proof.
  intros Hx Hf. destruct (window_fits _ Hx) as [Hw Hfit].
  destruct (decode_frame x f _ _ Hf Hw Hfit eq_refl Hx) as (b & Hnew & b' & Hpush & Hfin).
  unfold decode_leaf. rewrite Hnew, Hpush, Hfin. case_bool_decide as Hnil; [by subst|]. cbn. by rewrite Nat.eqb_refl.
Qed.

(** What the sender writes for a leaf, the receiver reads back. *)
Lemma read_leaf_item raw tail fl :
  (Z.of_nat (length raw) <= BAO_BLOCK_BYTES)%Z ->
  read_leaf (D := D) {| rbytes := leaf_item raw ++ tail; rfail := fl |} (length raw) codec =
  Ok (raw, {| rbytes := tail; rfail := fl |}).
Proof.
  intros Hraw. unfold leaf_item. destruct codec; cbn [read_leaf]; [by apply read_exact_app|].
  destruct (encoded_leaf_spec raw Hraw) as (f & -> & Hf & Hb). rewrite <- app_assoc.
  rewrite read_exact_app by apply length_to_le_bytes. cbn [mbind result_bind fst snd].
  rewrite from_to_le_u32 by (change MAX_ENCODED_LEAF_BYTES with 66624%Z in Hb; unfold u32_ok, u32_max; lia).
  rewrite (proj2 (Z.ltb_ge _ _)) by done. rewrite read_exact_app by lia. cbn [mbind result_bind fst snd].
  rewrite (frame_not_skippable _ _ Hf), decode_leaf_frame by done. done.
Qed.

Lemma length_leaf_item raw :
  (Z.of_nat (length raw) <= BAO_BLOCK_BYTES)%Z ->
  match codec with
  | RawCodec => length (leaf_item raw) = length raw
  | ZstdWire => 4 <= length (leaf_item raw) /\ (Z.of_nat (length (leaf_item raw)) <= MAX_ENCODED_LEAF_BYTES + 4)%Z
  end.
Proof.
  intros Hraw. unfold leaf_item. destruct codec; [done|]. destruct (encoded_leaf_spec raw Hraw) as (f & -> & _ & Hb).
  rewrite length_app, length_to_le_bytes. lia.
Qed.

(** The size of the body. *)
Lemma length_wire g off data :
  placed g off -> off + gsize g <= length data ->
  match codec with
  | RawCodec => length (wire_of g off data) = 64 * parents g + gsize g
  | ZstdWire => 64 * parents g + 4 * S (parents g) <= length (wire_of g off data)
  end /\ (Z.of_nat (length (wire_of g off data)) <=
    (MAX_ENCODED_LEAF_BYTES + 4) * Z.of_nat (S (parents g)) + 64 * Z.of_nat (parents g))%Z.
Proof.
  revert off. induction g as [c n|node l IHl r IHr]; intros off Hp Hoff; cbn [wire_of parents gsize] in *.
  - destruct Hp as [_ Hn]. pose proof (length_leaf_item (slice off n data)) as Hl. rewrite length_slice in Hl by done.
    specialize (Hl Hn). change MAX_ENCODED_LEAF_BYTES with 66624%Z in *. unfold BAO_BLOCK_BYTES in *. destruct codec; [rewrite Hl|]; lia.
  - destruct Hp as (Hpl & Hpr & _ & _). destruct (IHl off Hpl ltac:(lia)) as [Hl Hl'].
    destruct (IHr (off + gsize l) Hpr ltac:(lia)) as [Hr Hr']. rewrite !length_app, !arr_length.
    change MAX_ENCODED_LEAF_BYTES with 66624%Z in *. destruct codec; lia.
Qed.

End wire.

Section roundtrip.
Context `{!Blake3} `{!BaoGeometry} `{!BaoLaws} {D E : Type} `{!ZstdDecoder D} `{!ZstdEncoder E} `{!ZstdLaws D E}.
Context (codec : WireCodec) (lvl : Z) (data : list byte).
Context (Hmax : (Z.of_nat (length data) <= u64_max)%Z).

Abbreviation wire := (wire_of (E := E) codec lvl).

(** Receiving the honest wire of a subtree, with a consumer that takes it. *)
Lemma receive_tree on_leaf g is_root off s stack tail fl rest :
  (forall h l, on_leaf h l = None) ->
  placed g off -> (0 < gsize g \/ data = []) -> off + gsize g <= length data ->
  upto data off s -> d_expected s = tree_hash is_root g off data :: stack -> d_final_leaf s = None ->
  d_reader s = {| rbytes := wire g off data ++ tail; rfail := fl |} ->
  exists s1, decode_items (D := D) on_leaf (Z.of_nat (length data)) codec s (preorder is_root g ++ rest) =
      decode_items (D := D) on_leaf (Z.of_nat (length data)) codec s1 rest /\
    upto data (off + gsize g) s1 /\ (off + gsize g = length data -> is_Some (d_final_leaf s1)) /\
    d_expected s1 = stack /\ d_reader s1 = {| rbytes := tail; rfail := fl |}.
Proof.
  intros Hcons. revert is_root off s stack tail rest.
  induction g as [c n|node l IHl r IHr]; intros is_root off s stack tail rest Hp Hsz Hoff Hu He Hfin Hrd.
  - destruct Hp as [Hc Hn]. cbn [preorder app decode_items decode_item gsize wire_of] in *. unfold decode_leaf_item.
    assert (length (slice off n data) = n) as Hlen by by apply length_slice.
    pose proof (read_leaf_item (D := D) codec lvl (slice off n data) tail fl) as Hread. rewrite Hlen in Hread.
    rewrite Hrd, Hread by done. rewrite He, Hc, bool_decide_true by done. cbn [negb].
    destruct Hu as [Hcount Hbytes Hf Hs]. rewrite Hlen.
    assert (checked_add_bytes (d_raw_bytes s) n = Ok (Z.of_nat (off + n))) as ->.
    { unfold checked_add_bytes, u64_checked_add. rewrite Hcount, (proj2 (Z.leb_le _ _)) by lia. cbn. f_equal. lia. }
    rewrite (proj2 (Z.ltb_ge _ _)) by lia. rewrite Hfin in *. cbn [default] in Hbytes. rewrite app_nil_r in Hbytes.
    assert (take (off + n) data = concat (d_handed s) ++ slice off n data) as Htake by by rewrite Hbytes, take_slice.
    destruct (Z.eqb_spec (Z.of_nat (off + n)) (Z.of_nat (length data))) as [Hend|Hend].
    + eexists. split; [reflexivity|]. split_and!; [|done|done|done]. split; cbn; [done|done| |done].
      intros leaf [= <-]. split; [lia|]. intros Hd Hnil. rewrite Hnil in Hlen. destruct Hsz; [cbn in Hlen; lia|done].
    + unfold hand. rewrite Hcons. eexists. split; [reflexivity|]. split_and!; [|cbn; lia|done|done].
      split; cbn; [done| |done|left; lia]. by rewrite concat_app, app_nil_r; cbn; rewrite app_nil_r.
  - destruct Hp as (Hpl & Hpr & Hl & Hr). cbn [preorder app decode_items decode_item gsize wire_of] in *. unfold decode_parent.
    rewrite Hrd, <- !app_assoc, (app_assoc (arr_bytes _) (arr_bytes _)).
    rewrite read_exact_app by (by rewrite length_app, !arr_length). rewrite parse_hash_pair_app, He. cbn [fst snd app].
    rewrite bool_decide_true by done. cbn [negb]. 
    match goal with |- context [decode_items _ _ _ ?s0 _] => set (s0' := s0) end.
    destruct (IHl false off s0' (tree_hash false r (off + gsize l) data :: stack) (wire r (off + gsize l) data ++ tail)
      (preorder false r ++ rest) Hpl (or_introl Hl) ltac:(lia) (upto_reader _ _ _ _ _ Hu) eq_refl Hfin)
      as (s1 & -> & Hu1 & _ & He1 & Hr1); [done|].
    destruct (IHr false (off + gsize l) s1 stack tail rest Hpr (or_introl Hr) ltac:(lia) Hu1 He1 (upto_open _ _ _ Hu1 ltac:(lia)) Hr1)
      as (s2 & -> & Hu2 & Hf2 & He2 & Hr2).
    exists s2. rewrite Nat.add_assoc. by split_and!.
Qed.

Lemma receive_wire on_leaf :
  (forall h l, on_leaf h l = None) ->
  exists handed, decode_verified (D := D) on_leaf (Z.of_nat (length data)) codec
      {| rbytes := wire (bao_tree (length data)) 0 data ++ COMPLETE_MARKER; rfail := None |} (blake3_hash data) =
    (Ok (Z.of_nat (length data)), handed) /\ concat handed = data.
Proof.
  intros Hcons. unfold decode_verified. rewrite bao_preorder, <- bao_root, <- (app_nil_r (preorder true _)).
  pose proof (bao_placed (length data)) as Hp. pose proof (bao_gsize (length data)) as Hs.
  match goal with |- context [decode_items _ _ _ ?s0 _] => set (s0' := s0) end.
  destruct (receive_tree on_leaf (bao_tree (length data)) true 0 s0' [] COMPLETE_MARKER None [] Hcons Hp)
    as (s1 & -> & Hu & Hfin & He & Hr); try done.
  - rewrite Hs. destruct data; [by right|left; cbn; lia].
  - lia.
  - split; cbn; [done|by rewrite take_0|done|]. destruct data; [by right|left; cbn; lia].
  - rewrite Hs in Hu, Hfin. cbn [decode_items]. destruct (Hfin eq_refl) as [leaf Hleaf]. destruct Hu as [Hcount Hbytes _ _].
    unfold decode_finish. rewrite He, Hr, bool_decide_true by done. cbn [negb].
    change {| rbytes := COMPLETE_MARKER; rfail := None |} with {| rbytes := COMPLETE_MARKER ++ []; rfail := None |}.
    rewrite read_exact_app by done.
    rewrite bool_decide_true by done. cbn [negb read_one rbytes rfail]. rewrite Hcount. cbn [Nat.add].
    rewrite Z.eqb_refl. cbn [negb]. rewrite Hleaf in Hbytes |- *. unfold hand. rewrite Hcons. cbn [d_raw_bytes d_handed].
    eexists. split; [by rewrite Hcount|]. rewrite concat_app. cbn in Hbytes |- *. rewrite app_nil_r, Hbytes. by apply take_ge.
Qed.

(** *** Sending *)

(** The outboard holds the pairs of the tree. *)
Fixpoint pairs_of (load : Z -> result V4Error (option (Hash * Hash))) (g : Geom) (off : nat) : Prop :=
  match g with
  | GLeaf _ _ => True
  | GNode node l r =>
      load node = Ok (Some (tree_hash false l off data, tree_hash false r (off + gsize l) data)) /\
      pairs_of load l off /\ pairs_of load r (off + gsize l)
  end.

Definition outboard_of (ob : Outboard) : Prop :=
  ob_root ob = blake3_hash data /\ ob_size ob = Z.of_nat (length data) /\ pairs_of (ob_load ob) (bao_tree (length data)) 0.

(** The sender after [off] bytes of the content. *)
Definition sending (off : nat) (stack : list Hash) (w : list byte) (n : Z) : Encode MonotonicReadAt (list byte) :=
  {| e_source := {| mono_reader := {| rbytes := drop off data; rfail := None |}; mono_position := Z.of_nat off |};
     e_expected := stack; e_writer := w; e_raw_bytes := Z.of_nat off; e_wire_bytes := n |}.

Lemma read_slice off n :
  off + n <= length data ->
  read_exact_at {| mono_reader := {| rbytes := drop off data; rfail := None |}; mono_position := Z.of_nat off |}
    (Z.of_nat off) n =
  Ok (slice off n data, {| mono_reader := {| rbytes := drop (off + n) data; rfail := None |}; mono_position := Z.of_nat (off + n) |}).
Proof.
  intros Hoff. unfold read_exact_at, monotonic_read_at. destruct (Nat.eqb_spec n 0) as [->|Hn].
  { rewrite Nat.add_0_r. unfold slice. by rewrite take_0. }
  cbn [mono_position mono_reader]. rewrite Z.eqb_refl. cbn [negb]. unfold read_exact. cbn [rbytes rfail].
  rewrite (proj2 (Nat.leb_le _ _)) by (rewrite length_drop; lia). cbn [mbind result_bind fst snd].
  unfold checked_add_bytes, u64_checked_add. rewrite (proj2 (Z.leb_le _ _)) by lia. cbn. rewrite drop_drop. do 3 f_equal. lia.
Qed.

Lemma checked_add_fits a n : (a + Z.of_nat n <= u64_max)%Z -> checked_add_bytes a n = Ok (a + Z.of_nat n)%Z.
Proof. intros Hle. unfold checked_add_bytes, u64_checked_add. by rewrite (proj2 (Z.leb_le _ _)). Qed.

Lemma send_tree ob g is_root off stack w n rest :
  placed g off -> pairs_of (ob_load ob) g off -> off + gsize g <= length data ->
  (n + Z.of_nat (length (wire g off data)) <= u64_max)%Z ->
  encode_items (E := E) ob codec lvl (sending off (tree_hash is_root g off data :: stack) w n) (preorder is_root g ++ rest) =
  encode_items (E := E) ob codec lvl
    (sending (off + gsize g) stack (w ++ wire g off data) (n + Z.of_nat (length (wire g off data)))) rest.
Proof.
  revert is_root off stack w n rest. induction g as [c k|node l IHl r IHr]; intros is_root off stack w n rest Hp Hob Hoff Hn.
  - destruct Hp as [Hc Hk]. cbn [preorder app encode_items encode_item gsize wire_of tree_hash] in *. unfold encode_leaf.
    cbn [sending e_source e_expected e_raw_bytes e_wire_bytes e_writer]. rewrite Hc, read_slice by done.
    cbn [mbind result_bind fst snd]. rewrite bool_decide_true by done. cbn [negb].
    rewrite length_slice, checked_add_fits by lia. cbn [mbind result_bind].
    assert ((match codec with RawCodec => Ok (slice off k data) | ZstdWire => encoded_leaf (E := E) (slice off k data) lvl end) =
      Ok (leaf_item (E := E) codec lvl (slice off k data))) as ->.
    { unfold leaf_item. destruct codec; [done|]. destruct (encoded_leaf_spec (D := D) lvl (slice off k data)) as (f & -> & _); [|done].
      by rewrite length_slice. }
    cbn [mbind result_bind]. rewrite checked_add_fits by done. cbn. unfold sending. by rewrite Nat2Z.inj_add.
  - destruct Hp as (Hpl & Hpr & _ & _). destruct Hob as (Hload & Hol & Hor).
    cbn [preorder app encode_items encode_item gsize wire_of tree_hash] in *. unfold encode_parent.
    rewrite Hload. cbn [mbind result_bind ok_or sending e_source e_expected e_raw_bytes e_wire_bytes e_writer fst snd].
    rewrite bool_decide_true by done. cbn [negb]. rewrite !length_app, !arr_length in *.
    rewrite checked_add_fits by lia. cbn [mbind result_bind write_owned vec_sink app]. rewrite <- app_assoc.
    change {| e_source := _; e_expected := ?st; e_writer := ?w'; e_raw_bytes := _; e_wire_bytes := ?n' |} with (sending off st w' n').
    rewrite IHl, IHr; [|done|done|lia|lia|done|done|lia|lia]. rewrite Nat.add_assoc, !app_assoc. f_equal.
    unfold sending. f_equal. lia.
Qed.

Lemma send_wire ob :
  outboard_of ob -> (Z.of_nat (length (wire (bao_tree (length data)) 0 data)) <= u64_max)%Z ->
  encode_validated_reader (E := E) ob codec lvl {| rbytes := data; rfail := None |} [] =
  Ok (wire (bao_tree (length data)) 0 data, Z.of_nat (length data), Z.of_nat (length (wire (bao_tree (length data)) 0 data))).
Proof.
  intros (Hroot & Hsize & Hpairs) Hfit. unfold encode_validated_reader, encode_validated. rewrite Hroot, Hsize, bao_preorder.
  pose proof (bao_gsize (length data)) as Hs.
  change {| e_source := _; e_expected := _; e_writer := _; e_raw_bytes := _; e_wire_bytes := _ |} with (sending 0 [blake3_hash data] [] 0).
  rewrite <- (app_nil_r (preorder true _)), <- bao_root, send_tree; [|apply bao_placed|done|lia|done].
  rewrite Hs. cbn [encode_items mbind result_bind Nat.add sending e_expected e_writer e_source e_raw_bytes e_wire_bytes app].
  rewrite bool_decide_true by done. cbn [negb sink_flush vec_sink mbind result_bind mono_position mono_reader].
  rewrite Z.eqb_refl. cbn [negb]. rewrite drop_ge by done. done.
Qed.

(** The leaves a replayed source presents to the sender. *)
Fixpoint replayed (items : list BaoChunk) (bytes : list byte) : list HashInput :=
  match items with
  | [] => []
  | ParentChunk _ _ _ _ :: rest => replayed rest bytes
  | LeafChunk c n is_root :: rest => InLeaf (chunk_bytes c) (take n bytes) is_root :: replayed rest (drop n bytes)
  end.

Definition replaying (off : nat) (bytes : list byte) (fl : option (list byte)) (stack : list Hash) (w : list byte) (m n : Z) :
    Encode MonotonicReadAt (list byte) :=
  {| e_source := {| mono_reader := {| rbytes := bytes; rfail := fl |}; mono_position := Z.of_nat off |};
     e_expected := stack; e_writer := w; e_raw_bytes := m; e_wire_bytes := n |}.

Lemma read_at_ok off bytes fl k raw src :
  read_exact_at {| mono_reader := {| rbytes := bytes; rfail := fl |}; mono_position := Z.of_nat off |} (Z.of_nat off) k = Ok (raw, src) ->
  raw = take k bytes /\ src = {| mono_reader := {| rbytes := drop k bytes; rfail := fl |}; mono_position := Z.of_nat (off + k) |}.
Proof.
  unfold read_exact_at, monotonic_read_at. destruct (Nat.eqb_spec k 0) as [->|Hk].
  { intros [= <- <-]. rewrite Nat.add_0_r, drop_0. done. }
  cbn [mono_position mono_reader]. rewrite Z.eqb_refl. cbn [negb]. unfold read_exact. cbn [rbytes rfail].
  destruct (k <=? length bytes); [|done]. cbn [mbind result_bind fst snd]. unfold checked_add_bytes, u64_checked_add.
  destruct (_ <=? _)%Z; [|done]. cbn. intros [= <- <-]. split; [done|]. f_equal. lia.
Qed.

Lemma replay_tree ob g is_root off bytes fl stack w m n rest s' :
  placed g off -> pairs_of (ob_load ob) g off -> off + gsize g <= length data ->
  collision_free (honest is_root g off data) (replayed (preorder is_root g ++ rest) bytes) ->
  encode_items (E := E) ob codec lvl (replaying off bytes fl (tree_hash is_root g off data :: stack) w m n)
    (preorder is_root g ++ rest) = Ok s' ->
  exists bytes' w' m' n' ys, bytes = slice off (gsize g) data ++ bytes' /\
    replayed (preorder is_root g ++ rest) bytes = ys ++ replayed rest bytes' /\
    encode_items (E := E) ob codec lvl (replaying (off + gsize g) bytes' fl stack w' m' n') rest = Ok s'.
Proof.
  revert is_root off bytes stack w m n rest. induction g as [c k|node l IHl r IHr]; intros is_root off bytes stack w m n rest Hp Hob Hoff Hcf.
  - destruct Hp as [Hc Hk]. cbn [preorder app encode_items encode_item gsize tree_hash replayed honest] in *. unfold encode_leaf.
    cbn [replaying e_source e_expected e_raw_bytes e_wire_bytes e_writer]. rewrite Hc in *. intros Hrun. inv_ok.
    match goal with H : read_exact_at _ _ _ = Ok ?x |- _ => destruct x as [raw src]; apply read_at_ok in H as [-> ->] end.
    cbn [fst snd] in *. destruct (bool_decide_reflect (hash_subtree (Z.of_nat off) (take k bytes) is_root =
      hash_subtree (Z.of_nat off) (slice off k data) is_root)) as [Hh|]; [|done]. cbn [negb] in *. inv_ok.
    assert (take k bytes = slice off k data) as Htake.
    { assert (InLeaf (Z.of_nat off) (slice off k data) is_root = InLeaf (Z.of_nat off) (take k bytes) is_root) as Heq; [|congruence].
      eapply collision_free_elem; [exact Hcf|by left|by left|done]. }
    eexists (drop k bytes), _, _, _, [_]. split_and!; [by rewrite <- Htake, take_drop|reflexivity|eassumption].
  - destruct Hp as (Hpl & Hpr & _ & _). destruct Hob as (Hload & Hol & Hor).
    cbn [preorder app encode_items encode_item gsize tree_hash replayed honest] in *. unfold encode_parent. rewrite Hload.
    cbn [mbind result_bind ok_or replaying e_source e_expected e_raw_bytes e_wire_bytes e_writer fst snd].
    rewrite bool_decide_true by done. cbn [negb]. rewrite <- app_assoc in *. intros Hrun. inv_ok.
    apply Forall_cons in Hcf as [_ Hcf]. apply collision_free_app_l in Hcf as [Hcl Hcr]. cbn [app] in Hrun.
    change {| e_source := _; e_expected := ?st; e_writer := ?w'; e_raw_bytes := ?m'; e_wire_bytes := ?n' |}
      with (replaying off bytes fl st w' m' n') in Hrun.
    destruct (IHl _ _ _ _ _ _ _ _ Hpl Hol ltac:(lia) Hcl Hrun) as (b1 & w1 & m1 & n1 & ys & Hb1 & Hy & Hrun1).
    rewrite Hy in Hcr. apply collision_free_suffix in Hcr.
    destruct (IHr _ _ _ _ _ _ _ _ Hpr Hor ltac:(lia) Hcr Hrun1) as (b2 & w2 & m2 & n2 & zs & Hb2 & Hz & Hrun2).
    exists b2, w2, m2, n2, (ys ++ zs). rewrite Nat.add_assoc. split_and!; [|by rewrite Hy, Hz, app_assoc|done].
    by rewrite Hb1, Hb2, app_assoc, slice_app.
Qed.

(** A sender completes only the exact content.  If the replay of a source
    against the outboard of some content succeeds, then, unless a BLAKE3 collision
    shows up among the leaves, the source held exactly that content and ended
    after it: one that changed, shrank or grew since the outboard was made never
    completes. *)
Theorem replay_exact ob reader w m n :
  outboard_of ob ->
  collision_free (honest true (bao_tree (length data)) 0 data) (replayed (response_iter (Z.of_nat (length data))) (rbytes reader)) ->
  encode_validated_reader (E := E) ob codec lvl reader [] = Ok (w, m, n) -> rbytes reader = data /\ rfail reader = None.
Proof.
  intros (Hroot & Hsize & Hpairs) Hcf. unfold encode_validated_reader, encode_validated. rewrite Hroot, Hsize.
  rewrite bao_preorder, <- bao_root in *. rewrite <- (app_nil_r (preorder true _)) in *. intros Hrun. inv_ok.
  pose proof (bao_gsize (length data)) as Hs. destruct reader as [bytes fl].
  match goal with H : encode_items _ _ _ _ _ = Ok _ |- _ =>
    apply (replay_tree _ _ _ 0 _ fl []) in H as (b & w' & m' & n' & ys & Hb & _ & He); [|apply bao_placed|done|lia|done] end.
  cbn [rbytes rfail] in *. rewrite Hs in *. injection He as <-.
  cbn [replaying e_expected] in *. rewrite bool_decide_true in * by done. cbn [negb] in *. inv_ok.
  cbn [mono_position mono_reader] in Hrun. rewrite Z.eqb_refl in Hrun. cbn [negb read_one rbytes rfail] in Hrun. inv_ok.
  match goal with H : read_one _ = Ok ?x |- _ => destruct x; [done|]; unfold read_one in H; cbn [rbytes rfail] in H end.
  destruct b; [|done]. destruct fl; [done|]. unfold slice. by rewrite drop_0, take_ge, app_nil_r by done.
Qed.

End roundtrip.

Section transfer.
Context `{!Blake3} `{!BaoGeometry} `{!BaoLaws} {D E : Type} `{!ZstdDecoder D} `{!ZstdEncoder E} `{!ZstdLaws D E}.

Lemma wire_fits codec lvl data :
  (Z.of_nat (length data) <= 2 ^ 62)%Z ->
  (Z.of_nat (length (wire_of (E := E) codec lvl (bao_tree (length data)) 0 data)) + 47 <= u64_max)%Z.
Proof.
  intros Hmax. pose proof (bao_leaves (length data)) as Hleaves. pose proof (bao_gsize (length data)) as Hs.
  destruct (length_wire (D := D) codec lvl (bao_tree (length data)) 0 data (bao_placed _)) as [_ Hw]; [lia|].
  change MAX_ENCODED_LEAF_BYTES with 66624%Z in Hw. unfold leaf_count_of, BAO_BLOCK_BYTES in Hleaves.
  assert ((Z.of_nat (length data) + 64 * 1024 - 1) / (64 * 1024) <= 2 ^ 46 + 1)%Z.
  { apply Z.div_le_upper_bound; [lia|]. lia. }
  unfold u64_max. lia.
Qed.

Lemma checked_sub_fits a b : (b <= a)%Z -> u64_checked_sub a b = Some (a - b)%Z.
Proof. intros. unfold u64_checked_sub. by rewrite (proj2 (Z.leb_le _ _)). Qed.

Lemma u64_add_fits a b : (a + b <= u64_max)%Z -> u64_checked_add a b = Some (a + b)%Z.
Proof. intros. unfold u64_checked_add. by rewrite (proj2 (Z.leb_le _ _)). Qed.

(** The accounting of a body whose parts add up. *)
Lemma accounting_adds_up n codec framed :
  let fixed := (outboard_size n + match codec with RawCodec => 0 | ZstdWire => leaf_count_of n * 4 end)%Z in
  (0 <= outboard_size n)%Z -> (0 <= n)%Z -> (fixed <= framed)%Z -> (codec = RawCodec -> framed = fixed + n)%Z -> (framed + 47 <= u64_max)%Z ->
  exists a, from_framed_bao_bytes n codec framed = Ok a /\ exchange_protocol_bytes a = (framed + 47)%Z.
Proof.
  intros fixed Hob Hn Hfixed Hraw Hfit. unfold from_framed_bao_bytes. cbv zeta.
  assert (0 <= leaf_count_of n)%Z by (unfold leaf_count_of; lia).
  set (prefix := match codec with RawCodec => 0%Z | ZstdWire => (leaf_count_of n * 4)%Z end) in *.
  assert (0 <= prefix)%Z by (subst prefix; destruct codec; lia).
  assert ((match codec with RawCodec => Ok 0%Z | ZstdWire => if (leaf_count_of n * 4 <=? u64_max)%Z
    then Ok (leaf_count_of n * 4)%Z else Err CountOverflow end) = Ok prefix) as ->.
  { subst prefix. destruct codec; [done|]. by rewrite (proj2 (Z.leb_le _ _)) by lia. }
  unfold COMPLETE_MARKER_BYTES, RESPONSE_HEADER_BYTES, REQUEST_PROTOCOL_BYTES. change (Z.of_nat (length COMPLETE_MARKER)) with 4%Z.
  cbn [mbind result_bind]. rewrite (u64_add_fits _ prefix) by lia. cbn [ok_or mbind result_bind].
  rewrite checked_sub_fits by lia. cbn [ok_or mbind result_bind].
  assert (bool_decide (codec = RawCodec) && negb (framed - (outboard_size n + prefix) =? n)%Z = false) as ->.
  { case_bool_decide as Hc; [|done]. cbn. rewrite (proj2 (Z.eqb_eq _ _)); [done|]. specialize (Hraw Hc). lia. }
  cbn [reject_if mbind result_bind]. do 3 (rewrite u64_add_fits by lia; cbn [ok_or mbind result_bind]).
  unfold accounting_validate. cbn [proof_bytes leaf_length_prefix_bytes encoded_leaf_bytes complete_marker_bytes response_header_bytes
    request_protocol_bytes response_body_bytes response_protocol_bytes exchange_protocol_bytes].
  rewrite (u64_add_fits _ prefix) by lia. cbn [mbind option_bind]. rewrite (u64_add_fits (outboard_size n + prefix)) by lia.
  cbn [mbind option_bind]. replace (outboard_size n + prefix + (framed - (outboard_size n + prefix)))%Z with framed by lia.
  rewrite u64_add_fits by lia. cbn [mbind option_bind]. rewrite u64_add_fits by lia. cbn [mbind option_bind]. rewrite u64_add_fits by lia.
  rewrite !bool_decide_true by (f_equal; lia). cbn [negb orb reject_if mbind result_bind].
  eexists. split; [reflexivity|]. cbn. lia.
Qed.

(** C33: a `/nar/4` transfer delivers the content.  For every content of at most
    2^62 bytes, either codec and any level, a sender with the content's outboard
    replays it to the end, without a framing or overflow error; a receiver that
    knows its digest and size then takes every leaf and ends with the content;
    and the accounting of the exchange is exact. *)
Theorem transfer_roundtrip codec lvl data ob on_leaf :
  (Z.of_nat (length data) <= 2 ^ 62)%Z -> outboard_of data ob -> (forall h l, on_leaf h l = None) ->
  exists wire handed a,
    encode_validated_reader (E := E) ob codec lvl {| rbytes := data; rfail := None |} [] =
      Ok (wire, Z.of_nat (length data), Z.of_nat (length wire)) /\
    decode_verified (D := D) on_leaf (Z.of_nat (length data)) codec {| rbytes := wire ++ COMPLETE_MARKER; rfail := None |}
      (blake3_hash data) = (Ok (Z.of_nat (length data)), handed) /\
    concat handed = data /\
    from_framed_bao_bytes (Z.of_nat (length data)) codec (Z.of_nat (length wire)) = Ok a /\
    exchange_protocol_bytes a =
      (REQUEST_PROTOCOL_BYTES + RESPONSE_HEADER_BYTES + Z.of_nat (length (wire ++ COMPLETE_MARKER)))%Z.
Proof.
  intros Hmax Hob Hcons. pose proof (wire_fits codec lvl data Hmax) as Hfit.
  assert (Z.of_nat (length data) <= u64_max)%Z as Hmax' by (unfold u64_max; lia).
  set (wire := wire_of (E := E) codec lvl (bao_tree (length data)) 0 data) in *.
  destruct (receive_wire (D := D) (E := E) codec lvl data Hmax' on_leaf Hcons) as (handed & Hrec & Hc).
  destruct (length_wire (D := D) codec lvl (bao_tree (length data)) 0 data (bao_placed _)) as [Hw _];
    [rewrite bao_gsize; lia|]. fold wire in Hw. rewrite bao_gsize in Hw.
  destruct (accounting_adds_up (Z.of_nat (length data)) codec (Z.of_nat (length wire))) as (a & Ha & Hx);
    rewrite ?bao_outboard, <- ?bao_leaves; try (destruct codec; (lia || done)).
  exists wire, handed, a. split_and!; [apply send_wire; [done|done|fold wire; lia]|done|done|done|].
  rewrite Hx, length_app. unfold REQUEST_PROTOCOL_BYTES, RESPONSE_HEADER_BYTES. change (length COMPLETE_MARKER) with 4. lia.
Qed.

End transfer.

(** ** A computable tree for the witnesses

    The hash is the sum of the bytes; the tree is a right comb of blocks. *)

Definition toy_sum (l : list byte) : Z := foldr (fun b n => u8_val b + n)%Z 0%Z l.
Definition toy_hash (z : Z) : Hash := fill 32 (as_u8 z).
Definition toy_val (h : Hash) : Z := u8_val (default x00 (head (arr_bytes h))).

#[export] Instance toy_blake3 : Blake3 := {|
  blake3_hash := fun data => toy_hash (toy_sum data);
  subtree_cv := fun _ data => toy_hash (toy_sum data);
  merge_subtrees_root := fun l r => toy_hash (toy_val l + toy_val r);
  merge_subtrees_non_root := fun l r => toy_hash (toy_val l + toy_val r)
|}.

Definition block_bytes : nat := Z.to_nat BAO_BLOCK_BYTES.

(** [k] more leaves after the first, from chunk 64 * i on. *)
Fixpoint comb (k : nat) (i : Z) (n : nat) : Geom :=
  match k with
  | O => GLeaf (64 * i) n
  | S k' => GNode i (GLeaf (64 * i) block_bytes) (comb k' (i + 1) (n - block_bytes))
  end.

Definition toy_tree (n : nat) : Geom := comb (Z.to_nat (leaf_count_of (Z.of_nat n) - 1)) 0 n.

#[export] Instance toy_geometry : BaoGeometry := {|
  response_iter := fun z => preorder true (toy_tree (Z.to_nat z));
  outboard_size := fun z => (64 * (leaf_count_of z - 1))%Z
|}.

Lemma toy_sum_app a b : toy_sum (a ++ b) = (toy_sum a + toy_sum b)%Z.
Proof. unfold toy_sum. induction a as [|x a IH]; cbn; [done|]. rewrite IH. lia. Qed.

Lemma toy_val_hash z : toy_val (toy_hash z) = (z mod 256)%Z.
Proof. apply u8_val_as_u8. Qed.

Lemma toy_hash_mod z : toy_hash (z mod 256) = toy_hash z.
Proof. unfold toy_hash. f_equal. apply u8_val_inj. rewrite !u8_val_as_u8. apply Z.mod_mod. lia. Qed.

Lemma toy_tree_hash is_root g off data : tree_hash is_root g off data = toy_hash (toy_sum (slice off (gsize g) data)).
Proof.
  revert is_root off. induction g as [c n|node l IHl r IHr]; intros is_root off; cbn [tree_hash gsize].
  - by destruct is_root.
  - rewrite IHl, IHr. rewrite <- slice_app, toy_sum_app.
    assert (forall a b, toy_hash (toy_val (toy_hash a) + toy_val (toy_hash b)) = toy_hash (a + b)) as Hmerge.
    { intros a b. rewrite !toy_val_hash, <- (toy_hash_mod (a + b)), Z.add_mod by lia. by rewrite toy_hash_mod. }
    destruct is_root; apply Hmerge.
Qed.

Lemma block_bytes_Z : Z.of_nat block_bytes = 65536%Z.
Proof. done. Qed.

#[local] Opaque block_bytes.

Lemma gsize_comb k i n : (Z.of_nat k * 65536 <= Z.of_nat n)%Z -> gsize (comb k i n) = n.
Proof.
  pose proof block_bytes_Z as HB. revert i n. induction k as [|k IH]; intros i n Hk; cbn [comb gsize]; [done|]. rewrite IH; lia.
Qed.

Lemma parents_comb k i n : parents (comb k i n) = k.
Proof. revert i n. induction k as [|k IH]; intros i n; cbn [comb parents]; [done|]. by rewrite IH. Qed.

Lemma placed_comb (k : nat) i n off :
  Z.of_nat off = (65536 * i)%Z -> (k = 0%nat \/ Z.of_nat k * 65536 < Z.of_nat n)%Z -> (Z.of_nat n <= (Z.of_nat k + 1) * 65536)%Z ->
  placed (comb k i n) off.
Proof.
  pose proof block_bytes_Z as HB. revert i n off. induction k as [|k IH]; intros i n off Ho Hk Hn; cbn [comb placed gsize].
  { unfold chunk_bytes, BAO_BLOCK_BYTES. lia. }
  unfold chunk_bytes, BAO_BLOCK_BYTES. split_and!; [lia|lia|apply IH; lia|lia|]. rewrite gsize_comb; lia.
Qed.

Lemma leaf_count_spec n :
  let k := Z.of_nat (Z.to_nat (leaf_count_of (Z.of_nat n) - 1)) in
  (k + 1 = leaf_count_of (Z.of_nat n) /\ (k = 0 \/ k * 65536 < Z.of_nat n) /\ Z.of_nat n <= (k + 1) * 65536)%Z.
Proof.
  cbv zeta. unfold leaf_count_of, BAO_BLOCK_BYTES. pose proof (Nat2Z.is_nonneg n).
  generalize dependent (Z.of_nat n). intros z Hz. change (64 * 1024)%Z with 65536%Z.
  assert (0 <= (z + 65536 - 1) / 65536)%Z by (apply Z.div_pos; lia).
  rewrite Z2Nat.id by lia. pose proof (Z.div_mod (z + 65536 - 1) 65536 ltac:(lia)).
  pose proof (Z.mod_pos_bound (z + 65536 - 1) 65536 ltac:(lia)). lia.
Qed.

#[export] Instance toy_bao_laws : BaoLaws.
Proof.
  refine {| bao_tree := toy_tree |}.
  - intros n. cbn. by rewrite Nat2Z.id.
  - intros n. destruct (leaf_count_spec n) as (_ & Hk & Hn). apply placed_comb; [done|lia|lia].
  - intros n. destruct (leaf_count_spec n) as (_ & Hk & _). apply gsize_comb. lia.
  - intros n. destruct (leaf_count_spec n) as (Hl & _ & _). unfold toy_tree. rewrite parents_comb. cbn. lia.
  - intros n. destruct (leaf_count_spec n) as (Hl & _ & _). unfold toy_tree. rewrite parents_comb. lia.
  - intros data. rewrite toy_tree_hash. destruct (leaf_count_spec (length data)) as (_ & Hk & _).
    unfold toy_tree. rewrite gsize_comb by lia. unfold slice. by rewrite drop_0, take_ge.
Defined.

(** Two leaves: a full block and a short one. *)
Definition two_leaves : list byte := replicate block_bytes x61 ++ str "the end".

Definition two_leaves_outboard : Outboard := {|
  ob_root := blake3_hash two_leaves;
  ob_size := Z.of_nat (length two_leaves);
  ob_load := fun node => Ok (if (node =? 0)%Z then
    Some (toy_hash (toy_sum (replicate block_bytes x61)), toy_hash (toy_sum (str "the end"))) else None)
|}.

Definition take_all (_ : list (list byte)) (_ : list byte) : option V4Error := None.

Lemma length_two_leaves : length two_leaves = block_bytes + 7.
Proof. unfold two_leaves. by rewrite length_app, length_replicate. Qed.

Lemma two_leaves_tree : bao_tree (length two_leaves) = GNode 0 (GLeaf 0 block_bytes) (GLeaf 64 7).
Proof.
  change (bao_tree (length two_leaves)) with (toy_tree (length two_leaves)). unfold toy_tree.
  rewrite length_two_leaves, Nat2Z.inj_add, block_bytes_Z.
  change (Z.to_nat (leaf_count_of (65536 + Z.of_nat 7) - 1)) with 1. cbn [comb].
  by replace (block_bytes + 7 - block_bytes) with 7 by lia.
Qed.

Lemma two_leaves_outboard_of : outboard_of two_leaves two_leaves_outboard.
Proof.
  split_and!; [done|done|]. rewrite two_leaves_tree. split_and!; [|done|done]. cbn [ob_load two_leaves_outboard Z.eqb].
  rewrite !toy_tree_hash. cbn [gsize]. rewrite Nat.add_0_l. unfold slice, two_leaves.
  rewrite drop_0, take_app_length', drop_app_length' by (by rewrite length_replicate). done.
Qed.

(** Both leaves arrive, compressed. *)
Lemma transfer_roundtrip_witness :
  exists wire handed a,
    encode_validated_reader (E := ToyEncoder) two_leaves_outboard ZstdWire 3 {| rbytes := two_leaves; rfail := None |} [] =
      Ok (wire, Z.of_nat (length two_leaves), Z.of_nat (length wire)) /\
    decode_verified (D := ToyDecoder) take_all (Z.of_nat (length two_leaves)) ZstdWire
      {| rbytes := wire ++ COMPLETE_MARKER; rfail := None |} (blake3_hash two_leaves) = (Ok (Z.of_nat (length two_leaves)), handed) /\
    concat handed = two_leaves /\
    from_framed_bao_bytes (Z.of_nat (length two_leaves)) ZstdWire (Z.of_nat (length wire)) = Ok a /\
    exchange_protocol_bytes a = (REQUEST_PROTOCOL_BYTES + RESPONSE_HEADER_BYTES + Z.of_nat (length (wire ++ COMPLETE_MARKER)))%Z.
Proof.
  apply (transfer_roundtrip (D := ToyDecoder) (E := ToyEncoder) ZstdWire 3 two_leaves two_leaves_outboard take_all);
    [|apply two_leaves_outboard_of|reflexivity].
  rewrite length_two_leaves, Nat2Z.inj_add, block_bytes_Z. vm_compute. discriminate.
Defined.

(** A small NAR, whole, cut before its marker, and altered. *)
Definition small_nar : list byte := str "the end".
Definition small_wire : list byte := wire_of (E := ToyEncoder) ZstdWire 3 (toy_tree 7) 0 small_nar.
Definition small_reader (bytes : list byte) : Reader := {| rbytes := bytes; rfail := None |}.
Definition small_outcome (bytes : list byte) : result V4Error Z * list (list byte) :=
  decode_verified (D := ToyDecoder) take_all 7 ZstdWire (small_reader bytes) (blake3_hash small_nar).
Definition small_outboard : Outboard := {| ob_root := blake3_hash small_nar; ob_size := 7; ob_load := fun _ => Ok None |}.

(** The whole stream is taken; without the marker, or with a byte after it, the
    last leaf is withheld; an altered leaf is refused. *)
Lemma decode_authentic_witness :
  (let '(r, handed) := small_outcome (small_wire ++ COMPLETE_MARKER) in
   concat handed `prefix_of` small_nar /\
   (forall n, r = Ok n -> n = 7%Z /\ concat handed = small_nar) /\
   (small_nar <> [] -> concat handed = small_nar -> @None (list byte) = None /\
     exists body, small_wire ++ COMPLETE_MARKER = body ++ COMPLETE_MARKER)) /\
  small_outcome (small_wire ++ COMPLETE_MARKER) = (Ok 7%Z, [small_nar]) /\
  (small_outcome small_wire).2 = [] /\
  small_outcome (small_wire ++ COMPLETE_MARKER ++ str "x") = (Err TrailingByte, []) /\
  small_outcome (to_le_bytes 4 15 ++ toy_header 7 ++ str "the eng" ++ COMPLETE_MARKER) = (Err (LeafMismatch 0), []).
Proof.
  split; [|split_and!; vm_compute; reflexivity].
  apply (decode_authentic (D := ToyDecoder) take_all ZstdWire small_nar (small_reader (small_wire ++ COMPLETE_MARKER)));
    [vm_compute; discriminate|].
  apply (bool_decide_unpack (collision_free _ _)). vm_compute. exact I.
Defined.

(** The exact source completes; one that grew or changed does not. *)
Lemma replay_exact_witness :
  (rbytes (small_reader small_nar) = small_nar /\ rfail (small_reader small_nar) = None) /\
  encode_validated_reader (E := ToyEncoder) small_outboard RawCodec 3 (small_reader (small_nar ++ str "x")) [] = Err SourceTooLong /\
  encode_validated_reader (E := ToyEncoder) small_outboard RawCodec 3 (small_reader (str "the eng")) [] = Err (LeafMismatch 0).
Proof.
  split; [|split; vm_compute; reflexivity].
  apply (replay_exact (E := ToyEncoder) RawCodec 3 small_nar small_outboard (small_reader small_nar) small_nar 7 7).
  - split_and!; [reflexivity|reflexivity|]. exact I.
  - apply (bool_decide_unpack (collision_free _ _)). vm_compute. exact I.
  - vm_compute. reflexivity.
Defined.
